(* ===== verification/_CoqProject ===== *)
-Q . S2P
Prelude.v
GoStrings.v
MigrationID.v
Migration.v
MigrationProofs.v
MigrationProtocol.v
MigrationRun.v
MigrationLive.v
MigrationWitness.v
RedisResp.v
RedisWire.v
RedisQueue.v
RedisQueueProofs.v
RedisReplay.v
RedisTransport.v
RedisCluster.v
RedisClusterProofs.v
RedisWitness.v
Crypto.v
EncryptionCache.v
Encryption.v
Feature.v
Registry.v
KafkaErrors.v
KafkaWorker.v
KafkaWorkerProofs.v
KafkaConsumer.v
KafkaConsumerProofs.v
KafkaWitness.v
ConfluentWorker.v
ConfluentWorkerProofs.v
ConfluentConsumer.v
ConfluentConsumerProofs.v
ConfluentCloseProofs.v
ConfluentWitness.v
FeatureRepo.v
FeatureSSE.v
FeatureStream.v
FeatureClient.v
FeatureClientProofs.v
FeatureContext.v
FeatureWitness.v
RedactBytes.v
GoIP.v
RedactCards.v
RedactCardsProofs.v
RedactLabels.v
Regexp.v
RedactPhones.v
RedactPhonesProofs.v
RedactText.v
RedactTextProofs.v
RedactWitness.v
ProtoPath.v
ProtoConfig.v
ProtoSelect.v
ProtoSelectProofs.v
ProtoFetch.v
ProtoFetchProofs.v
ProtoOutput.v
ProtoWitness.v
OwnerChain.v
TracingOwners.v
TracingOwnersProofs.v
TracingLifecycle.v
TracingWitness.v
ConfigClone.v
ConfigCloneProofs.v
ConfigSchema.v
ConfigSchemaProofs.v
Config.v
ConfigProofs.v
ConfigWitness.v
SentryKeys.v
SentryValue.v
SentryValueProofs.v
SentryEvent.v
SentryEventProofs.v
FitErrors.v
SentryWitness.v
