(* ===== verification/Prelude.v ===== *)
(** * fit-go: a verification library

    fit-go is a toolkit of Go services: a set of packages an application wires
    together.  Its own logic, as opposed to the clients and servers it
    configures, is in a few of them; this library models those and proves what
    their callers rely on.  Names of files and functions below are those of the
    repository.

    ** The parts and where they are modelled

    - Ground.  [Prelude] has Go's results, the trace monad, monitors and shared
      tactics; [GoStrings] has the operations of strings and strconv the code
      uses, over strings of bytes, with 64- and 32-bit arithmetic wrapped
      explicitly; [Crypto] has encoding/base64 and AES-GCM, behind the
      interface [AEAD].
    - Migrations (migration/migration.go).  [MigrationID]: identities and their
      patterns.  [Migration]: the durable State, NewRunner, targets,
      validateState and the operations List, Run, Revert, RevertOne under
      withLock.  The store, the lock, the context, the clock and the Up and Down
      functions are a [world] that answers from the history of the calls made,
      and an operation returns the calls it makes with its result; so a theorem
      holds for every store, including one that fails at any point.
    - Redis compatibility client.  [RedisResp]: the wire codec
      (redis/ioredis_resp.go).  [RedisTransport]: writeCommands, Exchange and
      startup over a connection (same file); startup is written against the
      class [Transport], which the connection implements.  [RedisQueue]: the
      request queue, the reconnect loop and the duplex session
      (redis/ioredis_compat.go) as a step relation: a label is what a select
      receives or a method a caller runs, a request is a number in a heap, its
      future a field set once.  [RedisCluster]: slots, routing, pipelines,
      redirects and QUIT (redis/ioredis_topology.go).  The queue hands commands
      to a transport, a Cluster transport hands them to the RESP2 transports of
      its nodes; each layer is judged by the exchanges it is given.
    - KafkaJS-compatible consumer (kafka/franz_kafkajs2_compat_consumer.go and
      the errors of kafka/consumer.go).  [KafkaErrors]: error trees and the
      rewind plan read off them.  [KafkaWorker]: what a worker does with the
      records of one partition, as a trace program over driver and application,
      and a wave as every interleaving of its workers.  [KafkaConsumer]: runs,
      clients, recovery boundaries and Close as a step relation.
    - librdkafka consumer (kafka/confluent.go).  [ConfluentWorker]: messages,
      their groups and the worker of a group; [ConfluentConsumer]: assignments
      with their generations and leases, pending rewinds, and runs, rebalances
      and Close as a step relation.  It shares [KafkaErrors] and the options,
      payloads and finalizers of [KafkaWorker] with the client above.
    - Encryption (encryption/encryption.go).  [EncryptionCache]: the LRU cache
      with its pointers, and the class [Cache] it implements.  [Encryption]: the
      Manager over any [Cache] and any [AEAD].
    - Feature flags (feature/).  [Feature]: murmurHash3, applyStrategies and
      attribute matching (strategy.go).  [FeatureSSE]: the event-stream scanner
      and event builder (sse.go).  [FeatureRepo]: what events do to the map of
      features; [FeatureStream]: what an event asks for, one request of the
      stream (consumeStream) and how long to wait;
      [FeatureClient]: the run loop with its stream, context changes, stale
      timer, Stop and WaitReady as a step relation (flags.go).
      [FeatureContext]: the context header and EvaluationContext (context.go).
    - Redaction (redact/redact.go).  [RedactBytes]: bytes, labels and the scanner
      the passes share; [Regexp]: package regexp on bytes, with its priorities;
      [GoIP]: net.ParseIP.  [RedactCards]: payment cards; [RedactPhones]: phone
      numbers; [RedactText]: tokens, secrets, headers, queries, URLs, the passes
      of Text and ErrorMessage.
    - Proto fetch (protofetch/).  [ProtoPath]: lexical paths of path/filepath and
      escapesRoot.  [ProtoConfig]: Specification and its validation (config.go).
      [ProtoSelect]: what is selected from a source tree and copied, with its
      budgets.  [ProtoFetch]: Fetch, replaceDirectory and recoverOutput as trace
      programs, over the parent of the output as a state (fetch.go).  Its
      metadata reaches the disk in order, as on a journalling file system, and
      contents only when they are synced: a power loss goes back to a moment
      since the last sync of the parent.
    - Tracing lifecycle (tracing/tracing.go).  [OwnerChain]: owners of a
      process-wide setting, which point to the one they replaced.
      [TracingOwners]: New, Init, SetGlobal and its restore function, Shutdown
      and the refresh of the implicit flag, over the global tracer and
      OpenTelemetry's globals; a step is one critical section of one goroutine,
      and other components move in between.
    - Configuration (config/).  [ConfigClone]: copies through package reflect,
      over a memory with sharing and cycles.  [ConfigSchema]: NewSchema, the
      parsers and checks of fields, ApplySchema (schema.go).  [Config]: dotenv
      files, the environment, JSON and YAML files under Load and LoadStrict,
      getters and Validate (config.go, env.go).
    - Errors and reports (errors/).  [SentryKeys]: the keys whose values are
      never reported.  [SentryValue]: the walk of sanitizeSentryValue over values
      of any shape.  [SentryEvent]: sanitizeSentryEvent over a heap of slices,
      maps and structs that events share (sentry.go).  [FitErrors]: the registry,
      FitError and the life of the reporter (errors.go, codes.go, sentry.go).
    - Instrumentation (instrumentation/registry.go).  [Registry]: Register,
      ParseOptions, Start with rollback, Shutdown.

    ** What is shown

    - Migrations.  [MigrationProtocol]: every trace refines a checkpoint
      protocol (an abstract monitor of what may follow what), nothing runs after
      the context ended, a checkpoint separates any two migrations.
      [MigrationRun]: what a successful Run and Revert did, exactly; idempotence;
      refusal of irreversible migrations.  [MigrationLive]: states written are
      states accepted, and a run with obliging surroundings completes.
      [MigrationProofs]: identities, normalisation, targets and the
      order-independence of NewRunner.
    - Redis.  The codec round trips ([RedisWire]), is bounded, looks at nothing
      past a reply and mistakes no truncated reply.  The queue ([RedisQueueProofs])
      holds exactly the open requests, keeps replies matched to commands, bounds
      retries and settles everything at the end; an exclusive request that may
      have reached the server is in flight or settled, and never sent again
      ([RedisReplay], over the history of what was written).  The transport
      reports writes truthfully and
      readiness only when it is.  The Cluster transport ([RedisClusterProofs])
      hashes by the polynomial CRC, routes by all keys, sends a pipeline whole
      to one node and runs a redirected command at most once.
    - Kafka ([KafkaConsumerProofs] over [KafkaWorkerProofs]).  No interleaving
      of workers and no failure leaves an unresolved record behind the next
      fetch position; commits follow handlers, or precede them when asked to;
      the slice of recovery boundaries is a map; Close joins the run and closes
      every client once.
    - librdkafka consumer.  Every message of a group is answered for by its
      worker, and offsets follow handlers ([ConfluentWorkerProofs]); no record
      is overtaken after a failure while its partition stays here
      ([ConfluentConsumerProofs]); groups run only under their assignment, a
      seek is done only when the driver says so for each partition, and Close
      joins the run ([ConfluentCloseProofs]).
    - Encryption.  The pointer cache refines a list ordered by recency; the
      Manager's caches cannot be seen through Decrypt, and what Encrypt returns
      decrypts to the message.
    - Feature flags.  A stream is served as sent, in whatever pieces, up to the
      first event that fails, and delays lie in their windows ([FeatureStream]);
      events of one identity can come in any order ([FeatureRepo]); a ready
      client shows values of its present context, WaitReady misses no signal, a
      stale edge cannot keep a snapshot ready and a stale window lets one early
      request through ([FeatureClientProofs]); a built context holds the answer
      for its attributes ([FeatureContext]).  The rollout loop with its
      remembered state equals a declarative choice of the first strategy that
      applies ([Feature]).
    - Redaction.  A pass replaces disjoint spans and keeps the rest.  A span of
      the card pass is a card number, and a card written without separators is
      never left ([RedactCardsProofs]); the pre-filter of labels changes no
      answer within its look-back ([RedactLabels]).  Bare mobiles are masked
      exactly, merged candidates end, identifiers survive
      ([RedactPhonesProofs]).  Tokens, the values behind sensitive path keys,
      secret assignments and query values that are not allowed do not show
      ([RedactTextProofs]).  The engine of [Regexp] finds a match where there is
      one, the leftmost first.
    - Proto fetch.  What is staged is exactly what is wanted, in whatever order
      the maps of the code are visited, within the budgets and below the stage
      ([ProtoSelectProofs]); whatever fails, wherever a fetch is cut and the
      power lost, the old output or the new one can be recovered, and a fetch
      that returns left its own on disk ([ProtoFetchProofs], [ProtoOutput]); the
      output is below its root, past no link.
    - Tracing lifecycle.  In any interleaving the global tracer is that of the
      newest owner that has not ended, and the provider and the propagator each
      follow the owners unless another component replaced them; when all calls
      have returned no tracer that was shut down is in force
      ([TracingOwnersProofs]) and the implicit flag is right; the tracer of the
      process is made once ([TracingLifecycle]).
    - Configuration.  A copy is isomorphic to the original, shares nothing with
      it, and is made in finite time or refused for what cannot be copied
      ([ConfigCloneProofs]).  ApplySchema resolves every field within its
      constraints, adds defaults only, changes nothing when it fails, and does
      nothing the second time ([ConfigSchemaProofs]).  Load and LoadStrict have
      the precedence they document; what the getters give back is what was set
      ([ConfigProofs]).
    - Errors and reports.  The scan of a key finds exactly the names of its words
      ([SentryKeys]).  A reported value is redacted and bounded whatever was
      given, and a value shared but not cyclic is no cycle ([SentryValueProofs]).
      The sanitizer changes nothing it was given, and what is sent is the event
      with every field redacted, by assertions that separate what is owned from
      what is only read ([SentryEventProofs]).
    - Instrumentation.  A start is all or nothing ([Registry]).
    - [MigrationWitness], [RedisWitness], [KafkaWitness], [ConfluentWitness],
      [FeatureWitness], [RedactWitness], [ProtoWitness], [TracingWitness],
      [ConfigWitness], [SentryWitness] and the ends of the other files run the definitions on concrete inputs.

    ** Fuel and bounds

    The code's loops are structural recursions here except: the RESP2 reader
    recurses on the levels left below ioredisRESPMaxDepth, which the code checks
    itself; the write loop has a step per byte of the wire, enough because a
    write that takes nothing ends it (write_disposition_sound shows it returns);
    eviction has a step per entry, enough because each drops one; redirects
    follow the code's limit of 16; the scanners of redaction have a step per
    byte and every round moves on, and the mutual recursion of phone candidates
    has depth two (redactPhoneCandidate_terminates); the readiness loop may wait for a server for
    ever, so its fuel is the caller's and running out of it is not an answer.
    An owner is older than the one that points to it, so the walk over ended
    owners has a step per owner ever made.  A copy goes as deep as the values
    of the memory together are, each place being entered once (clone_ends).  The walk of a reported value
    recurses on the levels left of the twelve the code allows.
    Where Go visits a map in an unspecified order the model visits it in the
    order of [map_to_list]; normalize_spec shows that order not to matter for
    the state.

    ** What is not modelled

    JSON texts, URL parsing, the texts of floating-point numbers and dates of
    Go's library; defined pointer types in the copies of [ConfigClone]; goroutines beyond the interleavings the step relations make
    explicit; panics in application code.  The packages that
    configure third-party clients and servers (the librdkafka producer of kafka,
    grpc, server, metrics, databases, http) have no model; of tracing only the
    lifecycles have. *)

From stdpp Require Export base tactics option list list_numbers numbers strings gmap sorting fin_maps.
From Stdlib Require Export Ascii ZArith Lia.

(** ** Results: Go's [(value, error)] pairs, with [nil] errors as [Ok] *)

Inductive result (E A : Type) : Type :=
| Ok (a : A)
| Err (e : E).
Arguments Ok {E A} a.
Arguments Err {E A} e.

Definition is_ok {E A} (r : result E A) : bool :=
  match r with Ok _ => true | Err _ => false end.

Definition result_map_err {E F A} (f : E -> F) (r : result E A) : result F A :=
  match r with Ok a => Ok a | Err e => Err (f e) end.

#[export] Instance result_eq_dec {E A} `{EqDecision E, EqDecision A} : EqDecision (result E A).
Proof. solve_decision. Defined.

Declare Scope go_scope.
Delimit Scope go_scope with go.
Open Scope go_scope.

(** [let? x := r in k]: the early return [if err != nil { return err }]. *)
Notation "'let?' x := r 'in' k" :=
  (match r with Ok x => k | Err err => Err err end)
  (at level 10, x pattern, r at level 100, k at level 200) : go_scope.

(** ** Traces: code that calls out

    A component that calls functions it does not own (a store, a lock, a hook)
    is a program over a trace: it receives the history of the calls made so
    far and returns the calls it adds with its value.  The answers of the
    outside world are functions of that history, so every behaviour of the
    world is some choice of them. *)

Section trace_monad.
Context {Ev : Type}.

Definition TM (A : Type) : Type := list Ev -> list Ev * A.

Definition tret {A} (a : A) : TM A := fun _ => ([], a).

Definition tbind {A B} (m : TM A) (k : A -> TM B) : TM B := fun h =>
  let (t1, a) := m h in
  let (t2, b) := k a (h ++ t1) in
  (t1 ++ t2, b).

(** One outside call: the world answers from the history, and the call is
    recorded with its answer. *)
Definition call {R} (ask : list Ev -> R) (mk : R -> Ev) : TM R := fun h =>
  let r := ask h in ([mk r], r).

(** The same with early return on an error. *)
Definition tbind_ok {E A B} (m : TM (result E A)) (k : A -> TM (result E B)) :
    TM (result E B) :=
  tbind m (fun r => match r with Ok a => k a | Err e => tret (Err e) end).

Lemma tbind_inv {A B} (m : TM A) (k : A -> TM B) h t b :
  tbind m k h = (t, b) ->
  exists t1 a t2, m h = (t1, a) /\ k a (h ++ t1) = (t2, b) /\ t = t1 ++ t2.
Proof.
  unfold tbind. destruct (m h) as [t1 a] eqn:E1.
  destruct (k a (h ++ t1)) as [t2 b'] eqn:E2. intros [= <- <-]. eauto 10.
Qed.

Lemma tbind_run {A B} (m : TM A) (k : A -> TM B) h t1 a t2 b :
  m h = (t1, a) -> k a (h ++ t1) = (t2, b) -> tbind m k h = (t1 ++ t2, b).
Proof. unfold tbind. by intros -> ->. Qed.

Lemma tbind_ok_inv {E A B} (m : TM (result E A)) (k : A -> TM (result E B)) h t r :
  tbind_ok m k h = (t, r) ->
  (exists e, m h = (t, Err e) /\ r = Err e) \/
  (exists t1 a t2, m h = (t1, Ok a) /\ k a (h ++ t1) = (t2, r) /\ t = t1 ++ t2).
Proof.
  intros (t1 & [a|e] & t2 & H1 & H2 & ->)%tbind_inv.
  - right. eauto 10.
  - left. unfold tret in H2. simplify_eq. rewrite app_nil_r. eauto.
Qed.

Lemma tret_inv {A} (a : A) h t b : tret a h = (t, b) -> t = [] /\ b = a.
Proof. by intros [= <- <-]. Qed.

Lemma call_inv {R} (ask : list Ev -> R) mk h t r :
  call ask mk h = (t, r) -> r = ask h /\ t = [mk r].
Proof. by intros [= <- <-]. Qed.
End trace_monad.
Arguments TM : clear implicits.

Notation "'let!' x := m 'in' k" := (tbind m (fun x => k))
  (at level 10, x pattern, m at level 100, k at level 200) : go_scope.
Notation "'try!' x := m 'in' k" := (tbind_ok m (fun x => k))
  (at level 10, x pattern, m at level 100, k at level 200) : go_scope.

(** ** Shared tactics *)

(** Invert a chain of option binds [x ← a; '(y, z) ← b; ...] that returned
    [Some]. *)
Ltac bind_inv H :=
  repeat match type of H with
  | (_ ≫= _) = Some _ =>
      let E := fresh "Eb" in apply bind_Some in H as (? & E & H)
  | context [match ?p with pair _ _ => _ end] => destruct p
  end.

(** Split a boolean conjunction or disjunction in a hypothesis. *)
Ltac bool_hyps :=
  repeat match goal with
  | H : _ && _ = true |- _ => apply andb_true_iff in H as [? ?]
  | H : _ || _ = false |- _ => apply orb_false_iff in H as [? ?]
  | H : negb _ = true |- _ => apply negb_true_iff in H
  | H : negb _ = false |- _ => apply negb_false_iff in H
  end.

(** ** Lists *)

Lemma filter_none {A} (P : A -> Prop) `{forall x, Decision (P x)} (l : list A) :
  (forall x, x ∈ l -> ~ P x) -> filter P l = [].
Proof.
  induction l as [|x l IH]; intros Hl; [done|]. rewrite filter_cons, decide_False by (apply Hl; by left).
  apply IH. intros y Hy. apply Hl. by right.
Qed.

Lemma filter_iff_in {A} (P Q : A -> Prop) `{forall x, Decision (P x), forall x, Decision (Q x)} (l : list A) :
  (forall x, x ∈ l -> P x <-> Q x) -> filter P l = filter Q l.
Proof.
  induction l as [|x l IH]; intros Hl; [done|]. rewrite !filter_cons, IH by (intros y Hy; apply Hl; by right).
  destruct (Hl x ltac:(left)). by repeat case_decide; [|tauto..|].
Qed.

Lemma app_split {A} (a b t1 : list A) e t2 :
  a ++ b = t1 ++ e :: t2 -> (exists l, a = t1 ++ e :: l) \/ (exists l, t1 = a ++ l /\ b = l ++ e :: t2).
Proof.
  intros H. apply app_eq_inv in H as [(l & -> & H)|(l & -> & H)]; [|right; by exists l].
  destruct l as [|x l]; cbn in H; [right; exists []; by rewrite !app_nil_r|left]. injection H as <- ->. by exists l.
Qed.

(** Where an item of some kind lies in a list that has none of them, or one. *)
Section splits.
Context {A : Type} (P : A -> Prop).

Lemma quiet_split t1 x t2 t : Forall (fun y => ~ P y) t -> t = t1 ++ x :: t2 -> P x -> False.
Proof. intros H -> Hx. apply Forall_app in H as [_ H]. by inversion H. Qed.

Lemma sole_split t0 y t3 t1 x t2 :
  Forall (fun z => ~ P z) t0 -> Forall (fun z => ~ P z) t3 ->
  t0 ++ y :: t3 = t1 ++ x :: t2 -> P x -> x = y /\ t1 = t0.
Proof.
  intros H0 H3 [(l & ->)|(l & -> & H)]%app_split Hx; [by destruct (quiet_split _ _ _ _ H0 eq_refl Hx)|].
  destruct l as [|z l]; cbn in H; simplify_eq; [by rewrite app_nil_r|].
  by destruct (quiet_split _ _ _ _ H3 eq_refl Hx).
Qed.
End splits.

(** ** Monitors: what every trace of a program satisfies

    A monitor reads the calls of a trace one by one and refuses a call that
    breaks its protocol.  [triple P m Q]: from a monitor state in [P], every
    trace of [m] is accepted, and ends in a state that [Q] relates to the
    value. *)

Section monitor.
Context {Ev St : Type} (step : St -> Ev -> option St).

Fixpoint run_monitor (s : St) (t : list Ev) : option St :=
  match t with
  | [] => Some s
  | e :: r => match step s e with Some s' => run_monitor s' r | None => None end
  end.

Lemma run_monitor_app s s' t1 t2 :
  run_monitor s t1 = Some s' -> run_monitor s (t1 ++ t2) = run_monitor s' t2.
Proof.
  revert s. induction t1 as [|e t1 IH]; intros s; simpl; [by intros [= ->]|].
  destruct (step s e); [apply IH|done].
Qed.

Definition triple {A} (P : St -> Prop) (m : TM Ev A) (Q : A -> St -> Prop) : Prop :=
  forall h t a s, P s -> m h = (t, a) -> exists s', run_monitor s t = Some s' /\ Q a s'.

Lemma triple_ret {A} (a : A) (Q : A -> St -> Prop) : triple (Q a) (tret a) Q.
Proof. intros h t b s HQ [= <- <-]. by exists s. Qed.

Lemma triple_ret' {A} (a : A) (P : St -> Prop) (Q : A -> St -> Prop) :
  (forall s, P s -> Q a s) -> triple P (tret a) Q.
Proof. intros HPQ h t b s HQ [= <- <-]. exists s. auto. Qed.

Lemma triple_bind {A B} P (m : TM Ev A) R (k : A -> TM Ev B) Q :
  triple P m R -> (forall a, triple (R a) (k a) Q) -> triple P (tbind m k) Q.
Proof.
  intros Hm Hk h t b s HP (t1 & a & t2 & E1 & E2 & ->)%tbind_inv.
  destruct (Hm _ _ _ _ HP E1) as (s1 & H1 & HR).
  destruct (Hk _ _ _ _ _ HR E2) as (s2 & H2 & HQ).
  exists s2. by rewrite (run_monitor_app _ _ _ _ H1).
Qed.

Lemma triple_bind_ok {E A B} P (m : TM Ev (result E A)) R (k : A -> TM Ev (result E B)) Q :
  triple P m R -> (forall a, triple (R (Ok a)) (k a) Q) ->
  (forall e s, R (Err e) s -> Q (Err e) s) ->
  triple P (tbind_ok m k) Q.
Proof.
  intros Hm Hk He. eapply triple_bind; [exact Hm|].
  intros [a|e]; [apply Hk|]. by apply triple_ret', He.
Qed.

Lemma triple_call {R} P (ask : list Ev -> R) (mk : R -> Ev) (Q : R -> St -> Prop) :
  (forall s r, P s -> exists s', step s (mk r) = Some s' /\ Q r s') ->
  triple P (call ask mk) Q.
Proof.
  intros H h t r s HP [-> ->]%call_inv. simpl.
  destruct (H s (ask h) HP) as (s' & -> & HQ). eauto.
Qed.

(** The next call of a program that goes on with [k]. *)
Lemma triple_call_bind {R B} P (ask : list Ev -> R) (mk : R -> Ev) (k : R -> TM Ev B) Q :
  (forall r, exists P', (forall s, P s -> exists s', step s (mk r) = Some s' /\ P' s') /\
                        triple P' (k r) Q) ->
  triple P (tbind (call ask mk) k) Q.
Proof.
  intros H h t b s HP (t1 & r & t2 & [-> ->]%call_inv & E2 & ->)%tbind_inv.
  destruct (H (ask h)) as (P' & Hs & Hk). destruct (Hs s HP) as (s1 & E1 & HP').
  destruct (Hk _ _ _ _ HP' E2) as (s2 & H2 & HQ).
  exists s2. simpl. by rewrite E1.
Qed.

Lemma triple_conseq {A} (P P' : St -> Prop) (m : TM Ev A) (Q Q' : A -> St -> Prop) :
  (forall s, P s -> P' s) -> triple P' m Q' -> (forall a s, Q' a s -> Q a s) -> triple P m Q.
Proof.
  intros HP Hm HQ h t a s Hs E. destruct (Hm _ _ _ _ (HP _ Hs) E) as (s' & ? & ?). eauto.
Qed.

Lemma triple_pre {A} (P P' : St -> Prop) (m : TM Ev A) (Q : A -> St -> Prop) :
  (forall s, P s -> P' s) -> triple P' m Q -> triple P m Q.
Proof. intros HP Hm. by eapply triple_conseq. Qed.

Lemma triple_post {A} (P : St -> Prop) (m : TM Ev A) (Q Q' : A -> St -> Prop) :
  triple P m Q' -> (forall a s, Q' a s -> Q a s) -> triple P m Q.
Proof. intros Hm HQ. by eapply triple_conseq. Qed.

(** A pure fact about the start state is available in the proof. *)
Lemma triple_pure {A} (F : Prop) P (m : TM Ev A) Q :
  (F -> triple P m Q) -> triple (fun s => F /\ P s) m Q.
Proof. intros H h t a s [HF HP]. by apply H. Qed.

Lemma triple_exists {A X} (P : X -> St -> Prop) (m : TM Ev A) Q :
  (forall x, triple (P x) m Q) -> triple (fun s => exists x, P x s) m Q.
Proof. intros H h t a s [x Hx]. by apply (H x). Qed.
End monitor.

(** One step of a monitor from a known state. *)
Ltac monitor_step :=
  let p := fresh "p" in
  let H := fresh "H" in
  intros p H; hnf in H; rewrite H; eexists; split; [reflexivity|done].
