(* ===== verification/GoStrings.v ===== *)
(** * Go strings and decimal conversion

    A Go string is a byte sequence: here a [string], one [ascii] per byte.  The
    functions of package strings and strconv that the modelled components call
    are written out below on bytes; the ones whose result depends on Unicode
    (TrimSpace, EqualFold) list the UTF-8 sequences that matter. *)

From Stdlib Require Import DecimalString DecimalN DecimalPos DecimalFacts.
From S2P Require Import Prelude.

#[global] Arguments String.append !_ _ / : simpl nomatch.

(** ** Bytes *)

Definition byte_of (c : ascii) : N := N_of_ascii c.

Definition in_range (lo hi : N) (c : ascii) : bool :=
  (lo <=? byte_of c)%N && (byte_of c <=? hi)%N.

Definition is_digit (c : ascii) : bool := in_range 48 57 c.
Definition is_lower (c : ascii) : bool := in_range 97 122 c.
Definition is_upper (c : ascii) : bool := in_range 65 90 c.
Definition is_alnum (c : ascii) : bool := is_digit c || is_lower c || is_upper c.

Definition ascii_space (c : ascii) : bool := in_range 9 13 c || (byte_of c =? 32)%N.

(** A byte that is a whole character and not white space. *)
Definition plain (c : ascii) : bool := (byte_of c <? 128)%N && negb (ascii_space c).

Definition lower_byte (c : ascii) : ascii :=
  if is_upper c then ascii_of_N (byte_of c + 32) else c.
Definition upper_byte (c : ascii) : ascii :=
  if is_lower c then ascii_of_N (byte_of c - 32) else c.

(** ** Substrings *)

Fixpoint str_forallb (p : ascii -> bool) (s : string) : bool :=
  match s with
  | EmptyString => true
  | String c r => p c && str_forallb p r
  end.

Fixpoint str_map (f : ascii -> ascii) (s : string) : string :=
  match s with
  | EmptyString => EmptyString
  | String c r => String (f c) (str_map f r)
  end.

(** Longest prefix whose bytes satisfy [p], and the rest. *)
Fixpoint span (p : ascii -> bool) (s : string) : string * string :=
  match s with
  | EmptyString => (EmptyString, EmptyString)
  | String c r => if p c then let (a, b) := span p r in (String c a, b)
                  else (EmptyString, s)
  end.

Fixpoint str_drop (n : nat) (s : string) : string :=
  match n, s with
  | O, _ => s
  | S _, EmptyString => EmptyString
  | S n', String _ r => str_drop n' r
  end.

Fixpoint str_take (n : nat) (s : string) : string :=
  match n, s with
  | O, _ => EmptyString
  | S _, EmptyString => EmptyString
  | S n', String c r => String c (str_take n' r)
  end.

(** strings.HasPrefix, strings.TrimPrefix. *)
Fixpoint has_prefix (p s : string) : bool :=
  match p, s with
  | EmptyString, _ => true
  | String a p', String b s' => Ascii.eqb a b && has_prefix p' s'
  | String _ _, EmptyString => false
  end.

Definition trim_prefix (p s : string) : string :=
  if has_prefix p s then str_drop (String.length p) s else s.

Fixpoint rev_onto (s acc : string) : string :=
  match s with
  | EmptyString => acc
  | String c r => rev_onto r (String c acc)
  end.
Definition srev (s : string) : string := rev_onto s EmptyString.

(** strings.HasSuffix, strings.TrimSuffix. *)
Definition has_suffix (p s : string) : bool := has_prefix (srev p) (srev s).

Definition trim_suffix (p s : string) : string :=
  if has_suffix p s then str_take (String.length s - String.length p) s else s.

(** strings.Contains. *)
Fixpoint contains (p s : string) : bool :=
  has_prefix p s ||
  match s with
  | EmptyString => false
  | String _ r => contains p r
  end.

(** strings.Cut: the text before and after the first [sep]. *)
Fixpoint cut (sep s : string) : option (string * string) :=
  if has_prefix sep s then Some (EmptyString, str_drop (String.length sep) s)
  else match s with
       | EmptyString => None
       | String c r =>
           match cut sep r with
           | Some (a, b) => Some (String c a, b)
           | None => None
           end
       end.

(** strings.Split for a separator that is not empty; the fuel is the length of
    the text, which every cut shortens. *)
Fixpoint split_fuel (n : nat) (sep s : string) : list string :=
  match n with
  | O => [s]
  | S n' => match cut sep s with
            | Some (a, b) => a :: split_fuel n' sep b
            | None => [s]
            end
  end.
Definition split (sep s : string) : list string := split_fuel (String.length s) sep s.

(** strings.Join. *)
Fixpoint join (sep : string) (l : list string) : string :=
  match l with
  | [] => EmptyString
  | [a] => a
  | a :: r => a +:+ sep +:+ join sep r
  end.

(** ** strings.TrimSpace

    unicode.IsSpace accepts the ASCII spaces, U+0085, U+00A0, U+1680,
    U+2000..U+200A, U+2028, U+2029, U+202F, U+205F and U+3000; past ASCII these
    are the two- and three-byte sequences below.  [trim_left] drops them from
    the front and [trim_left_rev] drops them from the front of a reversed
    string, their bytes in the opposite order. *)

Definition byte_is (n : N) (c : ascii) : bool := (byte_of c =? n)%N.

Definition space2 (a b : ascii) : bool :=
  byte_is 194 a && (byte_is 133 b || byte_is 160 b).

Definition space3 (a b c : ascii) : bool :=
  byte_is 225 a && byte_is 154 b && byte_is 128 c
  || byte_is 226 a && byte_is 128 b &&
       (in_range 128 138 c || byte_is 168 c || byte_is 169 c || byte_is 175 c)
  || byte_is 226 a && byte_is 129 b && byte_is 159 c
  || byte_is 227 a && byte_is 128 b && byte_is 128 c.

Fixpoint trim_left (s : string) : string :=
  match s with
  | String a r1 =>
      if ascii_space a then trim_left r1
      else match r1 with
           | String b r2 =>
               if space2 a b then trim_left r2
               else match r2 with
                    | String c r3 => if space3 a b c then trim_left r3 else s
                    | EmptyString => s
                    end
           | EmptyString => s
           end
  | EmptyString => s
  end.

Fixpoint trim_left_rev (s : string) : string :=
  match s with
  | String a r1 =>
      if ascii_space a then trim_left_rev r1
      else match r1 with
           | String b r2 =>
               if space2 b a then trim_left_rev r2
               else match r2 with
                    | String c r3 => if space3 c b a then trim_left_rev r3 else s
                    | EmptyString => s
                    end
           | EmptyString => s
           end
  | EmptyString => s
  end.

Definition trim_right (s : string) : string := srev (trim_left_rev (srev s)).
Definition trim_space (s : string) : string := trim_right (trim_left s).

(** strings.EqualFold against an ASCII text: besides the other case of a
    letter, U+212A folds to k and U+017F to s. *)
Fixpoint equal_fold (s t : string) : bool :=
  match t with
  | EmptyString => match s with EmptyString => true | _ => false end
  | String c t' =>
      match s with
      | EmptyString => false
      | String a s1 =>
          if Ascii.eqb (lower_byte a) (lower_byte c) then equal_fold s1 t'
          else match s1 with
               | EmptyString => false
               | String b s2 =>
                   if byte_is 115 (lower_byte c) && byte_is 197 a && byte_is 191 b
                   then equal_fold s2 t'
                   else match s2 with
                        | EmptyString => false
                        | String d s3 =>
                            if byte_is 107 (lower_byte c) && byte_is 226 a &&
                               byte_is 132 b && byte_is 170 d
                            then equal_fold s3 t' else false
                        end
               end
      end
  end.

(** ** strconv *)

Definition max_uint64 : Z := 2 ^ 64 - 1.
Definition max_int64 : Z := 2 ^ 63 - 1.
Definition min_int64 : Z := - 2 ^ 63.

(** Two's complement reduction to a signed 64-bit word. *)
Definition wrap64 (z : Z) : Z := (z + 2 ^ 63) mod 2 ^ 64 - 2 ^ 63.
Definition wrap32u (z : Z) : Z := z mod 2 ^ 32.

Inductive num_error := ErrSyntax | ErrRange.

#[export] Instance num_error_eq_dec : EqDecision num_error.
Proof. solve_decision. Defined.

(** The value of a string of decimal digits. *)
Definition digits_value (s : string) : option N :=
  N.of_uint <$> NilZero.uint_of_string s.

(** strconv.ParseUint(s, 10, 64): the value and the error; on overflow the
    value is the largest one. *)
Definition parse_uint64 (s : string) : Z * option num_error :=
  match digits_value s with
  | None => (0, Some ErrSyntax)
  | Some n => if (Z.of_N n <=? max_uint64)%Z then (Z.of_N n, None)
              else (max_uint64, Some ErrRange)
  end%Z.

(** strconv.ParseInt(s, 10, 64). *)
Definition parse_int64 (s : string) : Z * option num_error :=
  let signed (neg : bool) (digits : string) : Z * option num_error :=
    match digits_value digits with
    | None => (0, Some ErrSyntax)
    | Some n =>
        let v := Z.of_N n in
        if neg then if (v <=? 2 ^ 63)%Z then (- v, None) else (min_int64, Some ErrRange)
        else if (v <=? max_int64)%Z then (v, None) else (max_int64, Some ErrRange)
    end%Z in
  match s with
  | String "+" r => signed false r
  | String "-" r => signed true r
  | _ => signed false s
  end.

(** fmt's %d of an unsigned and of a signed value. *)
Definition format_N (n : N) : string := NilZero.string_of_uint (N.to_uint n).
Definition format_int (z : Z) : string :=
  match z with
  | Zneg p => String "-" (format_N (Npos p))
  | _ => format_N (Z.to_N z)
  end.

(** ** Lemmas: append and reversal *)

Lemma sapp_nil_r s : s +:+ EmptyString = s.
Proof. induction s as [|c s IH]; simpl; [done|by rewrite IH]. Qed.

Lemma sapp_assoc a b c : (a +:+ b) +:+ c = a +:+ (b +:+ c).
Proof. induction a as [|x a IH]; simpl; [done|by rewrite IH]. Qed.

Lemma slength_app a b : String.length (a +:+ b) = String.length a + String.length b.
Proof. induction a as [|x a IH]; simpl; [done|by rewrite IH]. Qed.

Lemma rev_onto_app s acc : rev_onto s acc = srev s +:+ acc.
Proof.
  unfold srev. revert acc. induction s as [|c s IH]; intros acc; [done|]. simpl.
  rewrite (IH (String c acc)), (IH (String c EmptyString)), sapp_assoc. done.
Qed.

Lemma srev_cons c s : srev (String c s) = srev s +:+ String c EmptyString.
Proof. unfold srev at 1. simpl. apply rev_onto_app. Qed.

Lemma srev_app a b : srev (a +:+ b) = srev b +:+ srev a.
Proof.
  induction a as [|c a IH]; simpl.
  - by rewrite sapp_nil_r.
  - by rewrite !srev_cons, IH, sapp_assoc.
Qed.

Lemma srev_involutive s : srev (srev s) = s.
Proof. induction s as [|c s IH]; [done|]. by rewrite srev_cons, srev_app, IH. Qed.

Lemma slength_srev s : String.length (srev s) = String.length s.
Proof.
  induction s as [|c s IH]; [done|]. rewrite srev_cons, slength_app, IH. simpl. lia.
Qed.

Lemma str_forallb_app p a b : str_forallb p (a +:+ b) = str_forallb p a && str_forallb p b.
Proof. induction a as [|c a IH]; simpl; [done|]. by rewrite IH, andb_assoc. Qed.

Lemma str_forallb_srev p s : str_forallb p (srev s) = str_forallb p s.
Proof.
  induction s as [|c s IH]; [done|]. rewrite srev_cons, str_forallb_app, IH. simpl.
  by rewrite andb_true_r, andb_comm.
Qed.

Lemma str_forallb_weaken (p q : ascii -> bool) s :
  (forall c, p c = true -> q c = true) -> str_forallb p s = true -> str_forallb q s = true.
Proof.
  intros Hpq. induction s as [|c s IH]; simpl; [done|].
  rewrite !andb_true_iff. intros [? ?]. auto.
Qed.

Lemma str_drop_app a b : str_drop (String.length a) (a +:+ b) = b.
Proof. induction a; simpl; auto. Qed.

Lemma str_take_app a b : str_take (String.length a) (a +:+ b) = a.
Proof. induction a as [|x a IH]; simpl; [by destruct b|by rewrite IH]. Qed.

Lemma str_take_drop n s : s = str_take n s +:+ str_drop n s.
Proof. revert s. induction n as [|n IH]; intros [|c s]; simpl; [done..|]. by rewrite <- IH. Qed.

Lemma slength_take n s : n <= String.length s -> String.length (str_take n s) = n.
Proof. revert s. induction n as [|n IH]; intros [|c s]; simpl; intros; [done..|lia|]. rewrite IH; lia. Qed.

Lemma has_prefix_app p s : has_prefix p (p +:+ s) = true.
Proof. induction p as [|c p IH]; simpl; [done|]. by rewrite Ascii.eqb_refl. Qed.

Lemma has_prefix_spec p s : has_prefix p s = true <-> exists r, s = p +:+ r.
Proof.
  split.
  - revert s. induction p as [|c p IH]; intros [|d s]; simpl; [eauto..|done|].
    rewrite andb_true_iff. intros [->%Ascii.eqb_eq [r ->]%IH]. eauto.
  - intros [r ->]. apply has_prefix_app.
Qed.

Lemma has_suffix_spec p s : has_suffix p s = true <-> exists r, s = r +:+ p.
Proof.
  unfold has_suffix. rewrite has_prefix_spec. split; intros [r Hr].
  - exists (srev r). by rewrite <- (srev_involutive s), Hr, srev_app, srev_involutive.
  - exists (srev r). by rewrite Hr, srev_app.
Qed.

Lemma trim_suffix_app p s : trim_suffix p (s +:+ p) = s.
Proof.
  unfold trim_suffix. replace (has_suffix p (s +:+ p)) with true.
  - rewrite slength_app. replace (_ + _ - _) with (String.length s) by lia. apply str_take_app.
  - symmetry. apply has_suffix_spec. eauto.
Qed.

Lemma trim_suffix_none p s : has_suffix p s = false -> trim_suffix p s = s.
Proof. unfold trim_suffix. by intros ->. Qed.

(** A text none of whose bytes is the first byte of [p] does not end with [p]. *)
Lemma has_suffix_absent c p s :
  str_forallb (fun b => negb (Ascii.eqb b c)) s = true -> has_suffix (String c p) s = false.
Proof.
  intros Hs. destruct (has_suffix _ s) eqn:E; [|done].
  apply has_suffix_spec in E as [r ->]. rewrite str_forallb_app in Hs. simpl in Hs.
  rewrite Ascii.eqb_refl, andb_false_r in Hs. done.
Qed.

Lemma has_prefix_app_l p s r :
  String.length p <= String.length s -> has_prefix p (s +:+ r) = has_prefix p s.
Proof.
  revert s. induction p as [|c p IH]; intros [|d s]; simpl; intros H; [done..|lia|].
  by rewrite IH by lia.
Qed.

Lemma has_suffix_app_r p s r :
  String.length p <= String.length r -> has_suffix p (s +:+ r) = has_suffix p r.
Proof.
  intros H. unfold has_suffix. rewrite srev_app. apply has_prefix_app_l.
  by rewrite !slength_srev.
Qed.

(** ** Lemmas: spans *)

Definition stops (p : ascii -> bool) (s : string) : bool :=
  match s with EmptyString => true | String c _ => negb (p c) end.

Lemma span_app p a b :
  str_forallb p a = true -> stops p b = true -> span p (a +:+ b) = (a, b).
Proof.
  induction a as [|c a IH]; simpl.
  - intros _. destruct b as [|d b]; [done|]. simpl. by destruct (p d).
  - rewrite andb_true_iff. intros [-> Ha] Hb. by rewrite IH.
Qed.

Lemma span_all p a : str_forallb p a = true -> span p a = (a, EmptyString).
Proof. intros. rewrite <- (sapp_nil_r a) at 1. by apply span_app. Qed.

Lemma span_spec p s a b :
  span p s = (a, b) -> s = a +:+ b /\ str_forallb p a = true /\ stops p b = true.
Proof.
  revert a b. induction s as [|c s IH]; simpl; intros a b.
  - by intros [= <- <-].
  - destruct (p c) eqn:Ep.
    + destruct (span p s) as [a' b'] eqn:E. intros [= <- <-].
      destruct (IH a' b' eq_refl) as (-> & ? & ?). simpl. by rewrite Ep.
    + intros [= <- <-]. simpl. by rewrite Ep.
Qed.

(** ** Lemmas: trimming *)

Lemma plain_not_space c : plain c = true -> ascii_space c = false.
Proof. unfold plain. by destruct (ascii_space c); rewrite ?andb_false_r. Qed.

Lemma plain_small c : plain c = true -> (byte_of c < 128)%N.
Proof. unfold plain. intros [? _]%andb_true_iff. by apply N.ltb_lt. Qed.

Lemma byte_is_big n c : (128 <= n)%N -> plain c = true -> byte_is n c = false.
Proof. intros ? ?%plain_small. unfold byte_is. apply N.eqb_neq. lia. Qed.

Lemma trim_left_plain c s : plain c = true -> trim_left (String c s) = String c s.
Proof.
  intros Hc. pose proof (plain_not_space c Hc) as Hs. simpl. rewrite Hs.
  destruct s as [|b s]; [done|].
  unfold space2, space3. rewrite !(byte_is_big _ c) by (done || lia). simpl.
  by destruct s.
Qed.

Lemma in_range_big lo hi c : (128 <= lo)%N -> plain c = true -> in_range lo hi c = false.
Proof.
  intros ? ?%plain_small. unfold in_range. apply andb_false_iff. left. apply N.leb_gt. lia.
Qed.

Lemma trim_left_rev_plain c s :
  plain c = true -> trim_left_rev (String c s) = String c s.
Proof.
  intros Hc. pose proof (plain_not_space c Hc) as Hs. simpl. rewrite Hs.
  destruct s as [|b s]; [done|].
  unfold space2, space3. rewrite !(byte_is_big _ c), !in_range_big by (done || lia).
  rewrite !andb_false_r. simpl. destruct s as [|d s]; [done|].
  by rewrite !andb_false_r.
Qed.

(** Text that starts and ends with a plain byte is not changed by TrimSpace. *)
Lemma trim_space_plain c m d :
  plain c = true -> plain d = true ->
  trim_space (String c m +:+ String d EmptyString) = String c m +:+ String d EmptyString.
Proof.
  intros Hc Hd. unfold trim_space, trim_right.
  change (String c m +:+ String d EmptyString) with (String c (m +:+ String d EmptyString)).
  rewrite trim_left_plain by done.
  assert (srev (String c (m +:+ String d EmptyString)) =
          String d (srev m +:+ String c EmptyString)) as E by (by rewrite srev_cons, srev_app).
  rewrite E, trim_left_rev_plain, <- E by done. apply srev_involutive.
Qed.

Lemma trim_space_plain_all s : str_forallb plain s = true -> trim_space s = s.
Proof.
  intros H. unfold trim_space, trim_right.
  assert (trim_left s = s) as ->.
  { destruct s as [|c s]; [done|]. simpl in H. apply andb_true_iff in H as [? ?].
    by apply trim_left_plain. }
  rewrite <- str_forallb_srev in H.
  assert (trim_left_rev (srev s) = srev s) as ->; [|apply srev_involutive].
  destruct (srev s) as [|c r]; [done|]. simpl in H. apply andb_true_iff in H as [? ?].
  by apply trim_left_rev_plain.
Qed.

(** ** Lemmas: decimal text *)

Lemma uint_digits d : str_forallb is_digit (NilEmpty.string_of_uint d) = true.
Proof. induction d; done. Qed.

Lemma N_to_uint_nonnil n : N.to_uint n <> Decimal.Nil.
Proof. destruct n as [|p]; [done|]. apply DecimalPos.Unsigned.to_uint_nonnil. Qed.

Lemma format_N_digits n : str_forallb is_digit (format_N n) = true.
Proof.
  unfold format_N, NilZero.string_of_uint. pose proof (N_to_uint_nonnil n).
  destruct (N.to_uint n) eqn:E; [done|..]; rewrite <- E; apply uint_digits.
Qed.

Lemma format_N_nonempty n : format_N n <> EmptyString.
Proof.
  unfold format_N, NilZero.string_of_uint. pose proof (N_to_uint_nonnil n).
  by destruct (N.to_uint n).
Qed.

Lemma digits_value_format n : digits_value (format_N n) = Some n.
Proof.
  unfold digits_value, format_N. rewrite NilZero.usu by apply N_to_uint_nonnil.
  simpl. by rewrite DecimalN.Unsigned.of_to.
Qed.

Lemma parse_uint64_format z :
  (0 <= z <= max_uint64)%Z -> parse_uint64 (format_N (Z.to_N z)) = (z, None).
Proof.
  intros Hz. unfold parse_uint64. rewrite digits_value_format, Z2N.id by lia.
  by rewrite (proj2 (Z.leb_le _ _)) by lia.
Qed.

Lemma parse_uint64_range s : (0 <= (parse_uint64 s).1 <= max_uint64)%Z.
Proof.
  unfold parse_uint64. destruct (digits_value s) as [n|]; simpl; [|done].
  destruct (Z.leb_spec (Z.of_N n) max_uint64); simpl; [lia|done].
Qed.

Lemma format_N_inj n m : format_N n = format_N m -> n = m.
Proof.
  intros H. apply (f_equal digits_value) in H. rewrite !digits_value_format in H. congruence.
Qed.

Lemma is_digit_plain c : is_digit c = true -> plain c = true.
Proof.
  unfold is_digit, plain, ascii_space, in_range, byte_of. intros H.
  rewrite andb_true_iff, N.leb_le, N.leb_le in H.
  rewrite andb_true_iff, N.ltb_lt, negb_true_iff, orb_false_iff, andb_false_iff, N.eqb_neq, !N.leb_gt.
  lia.
Qed.

Lemma is_digit_not c d : is_digit c = true -> is_digit d = false -> Ascii.eqb c d = false.
Proof. intros ? ?. apply Ascii.eqb_neq. congruence. Qed.

(** Every bit of a number adds at most one decimal digit. *)
Lemma little_double_length d :
  String.length (NilEmpty.string_of_uint (Decimal.Little.double d)) <=
    S (String.length (NilEmpty.string_of_uint d)) /\
  String.length (NilEmpty.string_of_uint (Decimal.Little.succ_double d)) <=
    S (String.length (NilEmpty.string_of_uint d)).
Proof. induction d; simpl; lia. Qed.

Lemma revapp_length d d' :
  String.length (NilEmpty.string_of_uint (Decimal.revapp d d')) =
  String.length (NilEmpty.string_of_uint d) + String.length (NilEmpty.string_of_uint d').
Proof. revert d'. induction d; intros d'; simpl; rewrite ?IHd; simpl; lia. Qed.

Lemma to_little_uint_length p :
  String.length (NilEmpty.string_of_uint (Pos.to_little_uint p)) <= S (Pos.size_nat p).
Proof.
  induction p as [p IH|p IH|]; simpl; [..|lia];
    pose proof (little_double_length (Pos.to_little_uint p)); lia.
Qed.

Lemma format_N_length n : String.length (format_N n) <= 1 + N.size_nat n.
Proof.
  assert (forall d, String.length (NilZero.string_of_uint d) <=
    Nat.max 1 (String.length (NilEmpty.string_of_uint d))) as Hz by (intros []; simpl; lia).
  unfold format_N. pose proof (Hz (N.to_uint n)). destruct n as [|p]; simpl in *; [lia|].
  unfold Pos.to_uint, Decimal.rev in *. rewrite revapp_length in *. simpl in *.
  pose proof (to_little_uint_length p). lia.
Qed.

Lemma size_nat_bound p k : (Zpos p < 2 ^ Z.of_nat k)%Z -> Pos.size_nat p <= k.
Proof.
  revert k. induction p as [p IH|p IH|]; intros k; simpl; intros H.
  - destruct k as [|k]; [simpl in H; lia|]. rewrite Nat2Z.inj_succ, Z.pow_succ_r in H by lia.
    apply le_n_S, IH. lia.
  - destruct k as [|k]; [simpl in H; lia|]. rewrite Nat2Z.inj_succ, Z.pow_succ_r in H by lia.
    apply le_n_S, IH. lia.
  - destruct k; [simpl in H; lia|lia].
Qed.

Lemma format_int_length z :
  (0 <= z < 2 ^ 64)%Z -> String.length (format_int z) <= 65.
Proof.
  intros Hz. assert (format_int z = format_N (Z.to_N z)) as -> by (by destruct z; [..|lia]).
  pose proof (format_N_length (Z.to_N z)). destruct z as [|p|p]; simpl in *; [lia| |lia].
  pose proof (size_nat_bound p 64). lia.
Qed.

Lemma format_int_digits z : (0 <= z)%Z -> str_forallb is_digit (format_int z) = true.
Proof. destruct z; intros; [apply format_N_digits..|lia]. Qed.

Lemma parse_int64_digit c r :
  is_digit c = true ->
  parse_int64 (String c r) =
  match digits_value (String c r) with
  | None => (0, Some ErrSyntax)
  | Some n => if (Z.of_N n <=? max_int64)%Z then (Z.of_N n, None) else (max_int64, Some ErrRange)
  end%Z.
Proof. intros Hc. destruct c as [[] [] [] [] [] [] [] []]; done. Qed.

Lemma parse_int64_format z : (0 <= z <= max_int64)%Z -> parse_int64 (format_int z) = (z, None).
Proof.
  intros Hz. assert (format_int z = format_N (Z.to_N z)) as -> by (by destruct z; [..|lia]).
  pose proof (format_N_digits (Z.to_N z)) as Hd. pose proof (format_N_nonempty (Z.to_N z)) as Hn.
  pose proof (digits_value_format (Z.to_N z)) as Hv.
  destruct (format_N (Z.to_N z)) as [|c r]; [done|]. simpl in Hd.
  apply andb_true_iff in Hd as [Hd _]. rewrite (parse_int64_digit _ _ Hd), Hv.
  rewrite Z2N.id by lia. by rewrite (proj2 (Z.leb_le _ _)) by lia.
Qed.

Create HintDb gostr.
Create Rewrite HintDb gostr.
#[export] Hint Resolve format_N_digits uint_digits has_prefix_app : gostr.
#[export] Hint Rewrite sapp_assoc sapp_nil_r srev_involutive str_forallb_app : gostr.

(** ** strings.Cut at one byte *)

Lemma cut_byte c a b :
  str_forallb (fun x => negb (Ascii.eqb x c)) a = true ->
  cut (String c EmptyString) (a +:+ String c b) = Some (a, b).
Proof.
  induction a as [|d a IH]; simpl.
  - intros _. rewrite Ascii.eqb_refl. simpl. done.
  - intros [Hd Ha]%andb_true_iff. rewrite Ascii.eqb_sym. rewrite negb_true_iff in Hd. rewrite Hd. simpl.
    by rewrite (IH Ha).
Qed.

Lemma cut_none c a :
  str_forallb (fun x => negb (Ascii.eqb x c)) a = true -> cut (String c EmptyString) a = None.
Proof.
  induction a as [|d a IH]; simpl; [done|].
  intros [Hd Ha]%andb_true_iff. rewrite Ascii.eqb_sym. rewrite negb_true_iff in Hd. rewrite Hd. simpl.
  by rewrite (IH Ha).
Qed.

Lemma cut_some c s a b : cut (String c EmptyString) s = Some (a, b) -> s = a +:+ String c b.
Proof.
  revert a b. induction s as [|d s IH]; intros a b; simpl; [done|].
  destruct (Ascii.eqb_spec c d) as [->|]; simpl; [by intros [= <- <-]|].
  destruct (cut _ s) as [[a' b']|]; [|done]. intros [= <- <-]. simpl. by rewrite (IH a' b').
Qed.
