(* ===== verification/MigrationID.v ===== *)
(** * package migration, identities

    [ID], [ParseID], [CanonicalID] and [compareID] of migration/migration.go:
    the identity a migration has, its parser over the three accepted spellings
    (dotted, underscored, packed node-migrate digits), its canonical text and
    the order the runner sorts by. *)

From S2P Require Import Prelude.
From S2P Require Import GoStrings.

(** ** Data *)

Record ID := MkID {
  Major : Z; Minor : Z; Patch : Z; Sequence : Z; Name : string
}.

#[export] Instance ID_eq_dec : EqDecision ID.
Proof. solve_decision. Defined.

Definition format_uint (z : Z) : string := format_N (Z.to_N z).

(** [ID.Version] and [ID.String]. *)
Definition Version (id : ID) : string :=
  "v" +:+ format_uint (Major id) +:+ "." +:+ format_uint (Minor id) +:+ "." +:+
  format_uint (Patch id).

Definition ID_String (id : ID) : string :=
  "v" +:+ format_uint (Major id) +:+ "." +:+ format_uint (Minor id) +:+ "." +:+
  format_uint (Patch id) +:+ "-" +:+ format_uint (Sequence id) +:+ "-" +:+ Name id.

(** ** The three patterns

    Each group of digits is followed by a byte that is not a digit (or is of
    fixed width), so the greedy match is the only one and the matchers need no
    backtracking. *)

Definition eat (p : ascii -> bool) (s : string) : option string :=
  match s with
  | String c r => if p c then Some r else None
  | EmptyString => None
  end.

Definition is_char (c : ascii) (b : ascii) : bool := Ascii.eqb b c.
Definition dot_or_under (b : ascii) : bool := is_char "." b || is_char "_" b.

(** [\d+] *)
Definition digits1 (s : string) : option (string * string) :=
  match span is_digit s with
  | (EmptyString, _) => None
  | p => Some p
  end.

(** [\d{3}] *)
Definition digits3 (s : string) : option (string * string) :=
  match s with
  | String a (String b (String c r)) =>
      if is_digit a && is_digit b && is_digit c
      then Some (String a (String b (String c EmptyString)), r) else None
  | _ => None
  end.

(** [[A-Za-z0-9][A-Za-z0-9_-]*$] *)
Definition name_byte (b : ascii) : bool := is_alnum b || is_char "_" b || is_char "-" b.
Definition name_ok (s : string) : bool :=
  match s with
  | String c r => is_alnum c && str_forallb name_byte r
  | EmptyString => false
  end.

Definition match_versionPattern (s : string) : option (string * string * string) :=
  s ← eat (is_char "v") s;
  '(a, s) ← digits1 s; s ← eat dot_or_under s;
  '(b, s) ← digits1 s; s ← eat dot_or_under s;
  '(c, s) ← digits1 s;
  if String.eqb s EmptyString then Some (a, b, c) else None.

Definition match_idPattern (s : string) : option (list string * string) :=
  s ← eat (is_char "v") s;
  '(a, s) ← digits1 s; s ← eat dot_or_under s;
  '(b, s) ← digits1 s; s ← eat dot_or_under s;
  '(c, s) ← digits1 s; s ← eat (is_char "-") s;
  '(d, s) ← digits1 s; s ← eat (is_char "-") s;
  if name_ok s then Some ([a; b; c; d], s) else None.

Definition match_nodeIDPattern (s : string) : option (list string * string) :=
  '(a, s) ← digits3 s; '(b, s) ← digits3 s;
  '(c, s) ← digits3 s; '(d, s) ← digits3 s;
  s ← eat (is_char "-") s;
  if name_ok s then Some ([a; b; c; d], s) else None.

(** ** ParseID and CanonicalID *)

Inductive id_error :=
| InvalidID (value : string)
| InvalidComponent (value : string) (cause : num_error).

#[export] Instance id_error_eq_dec : EqDecision id_error.
Proof. solve_decision. Defined.

(** The loop over the four numeric groups, stopping at the first error. *)
Fixpoint parse_parts (value : string) (groups : list string) : result id_error (list Z) :=
  match groups with
  | [] => Ok []
  | g :: rest =>
      match parse_uint64 g with
      | (_, Some e) => Err (InvalidComponent value e)
      | (n, None) => let? ns := parse_parts value rest in Ok (n :: ns)
      end
  end.

Definition id_suffixes : list string := [".go"; ".js"; ".py"].

Definition strip_id (value : string) : string :=
  foldl (fun v suffix => trim_suffix suffix v) (trim_space value) id_suffixes.

Definition ParseID (value : string) : result id_error ID :=
  let value := strip_id value in
  let found := match match_idPattern value with
               | Some m => Some m
               | None => match_nodeIDPattern value
               end in
  match found with
  | None => Err (InvalidID value)
  | Some (groups, name) =>
      let? parts := parse_parts value groups in
      match parts with
      | [a; b; c; d] => Ok (MkID a b c d name)
      | _ => Err (InvalidID value)
      end
  end.

Definition CanonicalID (value : string) : result id_error string :=
  let? id := ParseID value in Ok (ID_String id).

(** ** compareID: numeric parts first, then the name *)

Definition compare_string (a b : string) : Z :=
  match String.compare a b with Lt => -1 | Eq => 0 | Gt => 1 end%Z.

Fixpoint compare_parts (l r : list Z) (otherwise : Z) : Z :=
  match l, r with
  | a :: l', b :: r' =>
      if (a <? b)%Z then (-1)%Z else if (b <? a)%Z then 1%Z
      else compare_parts l' r' otherwise
  | _, _ => otherwise
  end.

Definition id_parts (id : ID) : list Z := [Major id; Minor id; Patch id; Sequence id].

Definition compareID (left right : ID) : Z :=
  compare_parts (id_parts left) (id_parts right) (compare_string (Name left) (Name right)).

(** ** Identities a parse can return *)

Definition u64 (z : Z) : Prop := (0 <= z <= max_uint64)%Z.

Definition id_wf (id : ID) : Prop :=
  u64 (Major id) /\ u64 (Minor id) /\ u64 (Patch id) /\ u64 (Sequence id) /\
  name_ok (Name id) = true.

Lemma parse_parts_u64 v gs ns : parse_parts v gs = Ok ns -> Forall u64 ns /\ length ns = length gs.
Proof.
  revert ns. induction gs as [|g gs IH]; intros ns; simpl; [by intros [= <-]|].
  destruct (parse_uint64 g) as [n [e|]] eqn:E; [done|].
  destruct (parse_parts v gs) as [ns'|]; [|done]. intros [= <-].
  destruct (IH ns' eq_refl) as [? ?]. split; [constructor; [|done]|simpl; lia].
  pose proof (parse_uint64_range g) as R. by rewrite E in R.
Qed.

Lemma match_id_name s gs n : match_idPattern s = Some (gs, n) -> name_ok n = true.
Proof.
  unfold match_idPattern. intros H.
  bind_inv H. case_match eqn:E; by simplify_eq.
Qed.

Lemma match_node_name s gs n : match_nodeIDPattern s = Some (gs, n) -> name_ok n = true.
Proof.
  unfold match_nodeIDPattern. intros H.
  bind_inv H. case_match eqn:E; by simplify_eq.
Qed.

Lemma ParseID_wf v id : ParseID v = Ok id -> id_wf id.
Proof.
  unfold ParseID. set (s := strip_id v).
  assert (forall gs n, (match match_idPattern s with
            | Some m => Some m | None => match_nodeIDPattern s end) = Some (gs, n) ->
            name_ok n = true) as Hn.
  { intros gs n. destruct (match_idPattern s) as [[gs' n']|] eqn:E; intros ?; simplify_eq;
      eauto using match_id_name, match_node_name. }
  destruct (match match_idPattern s with Some _ => _ | None => _ end) as [[gs n]|]; [|done].
  specialize (Hn _ _ eq_refl).
  destruct (parse_parts s gs) as [ns|] eqn:Ep; [|done].
  apply parse_parts_u64 in Ep as [Hu _].
  destruct ns as [|a [|b [|c [|d [|]]]]]; try done. intros [= <-].
  repeat (apply Forall_cons in Hu as [? Hu]). unfold id_wf. simpl. auto.
Qed.

(** ** The canonical text is read back *)

Lemma format_uint_digits z : str_forallb is_digit (format_uint z) = true.
Proof. apply format_N_digits. Qed.

Lemma parse_uint64_format_uint z : u64 z -> parse_uint64 (format_uint z) = (z, None).
Proof. apply parse_uint64_format. Qed.

Lemma digits1_format z s :
  stops is_digit s = true -> digits1 (format_uint z +:+ s) = Some (format_uint z, s).
Proof.
  intros Hs. unfold digits1. rewrite span_app by (done || apply format_uint_digits).
  pose proof (format_N_nonempty (Z.to_N z)) as Hne. unfold format_uint.
  by destruct (format_N (Z.to_N z)).
Qed.

Lemma match_idPattern_String id :
  name_ok (Name id) = true ->
  match_idPattern (ID_String id) =
  Some ([format_uint (Major id); format_uint (Minor id); format_uint (Patch id);
         format_uint (Sequence id)], Name id).
Proof.
  intros Hn. unfold match_idPattern, ID_String. simpl.
  rewrite digits1_format by done. simpl. rewrite digits1_format by done. simpl.
  rewrite digits1_format by done. simpl. rewrite digits1_format by done. simpl.
  by rewrite Hn.
Qed.

(** No byte of a canonical text is a dot after the version, and all are plain. *)
Lemma alnum_plain c : is_alnum c = true -> plain c = true /\ is_char "." c = false.
Proof.
  unfold is_alnum, is_digit, is_lower, is_upper, plain, ascii_space, in_range, is_char.
  intros H. split.
  - unfold byte_of in *. rewrite !orb_true_iff, !andb_true_iff, !N.leb_le in H.
    rewrite andb_true_iff, N.ltb_lt, negb_true_iff, orb_false_iff, andb_false_iff, N.eqb_neq, !N.leb_gt.
    lia.
  - apply Ascii.eqb_neq. intros ->. by vm_compute in H.
Qed.

Lemma name_byte_plain c : name_byte c = true -> plain c = true /\ is_char "." c = false.
Proof.
  unfold name_byte. rewrite !orb_true_iff.
  intros [[?| ->%Ascii.eqb_eq]| ->%Ascii.eqb_eq]; [by apply alnum_plain|done|done].
Qed.

Lemma digit_name_byte c : is_digit c = true -> name_byte c = true.
Proof. unfold name_byte, is_alnum. by intros ->. Qed.

Lemma name_ok_bytes n : name_ok n = true -> str_forallb name_byte n = true.
Proof.
  destruct n as [|c n]; [done|]. simpl. rewrite !andb_true_iff. intros [? ?].
  split; [|done]. unfold name_byte. by rewrite H.
Qed.

Definition not_dot (c : ascii) : bool := negb (Ascii.eqb c ".").

Lemma name_byte_not_dot c : name_byte c = true -> not_dot c = true.
Proof. intros [_ H]%name_byte_plain. unfold not_dot. by rewrite <- negb_true_iff in H. Qed.

Lemma ID_String_plain id : name_ok (Name id) = true -> str_forallb plain (ID_String id) = true.
Proof.
  intros Hn%name_ok_bytes. unfold ID_String. rewrite !str_forallb_app.
  assert (forall z, str_forallb plain (format_uint z) = true) as Hd.
  { intros z. eapply str_forallb_weaken; [apply is_digit_plain|apply format_uint_digits]. }
  rewrite !Hd, (str_forallb_weaken name_byte plain (Name id)); [done| |done].
  intros c Hc. by apply name_byte_plain.
Qed.

(** The part after the version has at least three bytes and no dot. *)
Lemma ID_String_tail id :
  name_ok (Name id) = true ->
  exists front tail, ID_String id = front +:+ tail /\ 3 <= String.length tail /\
    str_forallb not_dot tail = true.
Proof.
  intros Hn. exists (Version id +:+ "-"), (format_uint (Sequence id) +:+ "-" +:+ Name id).
  split; [|split].
  - unfold ID_String, Version. by rewrite !sapp_assoc.
  - rewrite !slength_app. pose proof (format_N_nonempty (Z.to_N (Sequence id))).
    unfold format_uint. destruct (format_N _); [done|]. destruct (Name id); [done|]. simpl. lia.
  - rewrite !str_forallb_app, (str_forallb_weaken name_byte not_dot (Name id));
      [|apply name_byte_not_dot|by apply name_ok_bytes].
    rewrite (str_forallb_weaken is_digit not_dot (format_uint _)); [done| |apply format_uint_digits].
    intros c Hc. by apply name_byte_not_dot, digit_name_byte.
Qed.

Lemma strip_id_String id : name_ok (Name id) = true -> strip_id (ID_String id) = ID_String id.
Proof.
  intros Hn. unfold strip_id. rewrite trim_space_plain_all by by apply ID_String_plain.
  destruct (ID_String_tail id Hn) as (f & t & -> & Hl & Hd).
  assert (forall q, String.length q = 2 ->
            trim_suffix (String "." q) (f +:+ t) = f +:+ t) as Hs.
  { intros q Hq. apply trim_suffix_none. rewrite has_suffix_app_r by (simpl; lia).
    apply has_suffix_absent. exact Hd. }
  unfold id_suffixes. simpl. by rewrite !Hs.
Qed.

Lemma ParseID_String id : id_wf id -> ParseID (ID_String id) = Ok id.
Proof.
  intros (Ha & Hb & Hc & Hd & Hn). unfold ParseID.
  rewrite strip_id_String, match_idPattern_String by done. simpl.
  rewrite !parse_uint64_format_uint by done. by destruct id.
Qed.

Lemma ID_String_inj a b : id_wf a -> id_wf b -> ID_String a = ID_String b -> a = b.
Proof.
  intros Ha%ParseID_String Hb%ParseID_String E. rewrite E in Ha. congruence.
Qed.

(** ** compareID is a total order *)

Lemma compare_string_opp a b : compare_string b a = (- compare_string a b)%Z.
Proof.
  unfold compare_string. rewrite (String.compare_antisym b a). by destruct (String.compare a b).
Qed.

Lemma compare_string_eq a b : compare_string a b = 0%Z <-> a = b.
Proof.
  unfold compare_string. split.
  - pose proof (String.compare_eq_iff a b). destruct (String.compare a b); auto; done.
  - intros <-. pose proof (String.compare_antisym a a) as H.
    by destruct (String.compare a a).
Qed.

Lemma compare_string_le a b : (compare_string a b <= 0)%Z <-> (a ≤ b)%string.
Proof.
  unfold compare_string, String.le, String.leb. destruct (String.compare a b); simpl; split; done.
Qed.

Lemma compare_parts_opp l r o :
  length l = length r -> compare_parts r l (- o) = (- compare_parts l r o)%Z.
Proof.
  revert r. induction l as [|a l IH]; intros [|b r]; simpl; intros ?; simplify_eq; [done|].
  destruct (Z.ltb_spec a b), (Z.ltb_spec b a); try lia. by apply IH.
Qed.

Lemma compare_parts_eq l r o :
  length l = length r -> compare_parts l r o = 0%Z <-> l = r /\ o = 0%Z.
Proof.
  revert r. induction l as [|a l IH]; intros [|b r]; simpl; intros ?; simplify_eq; [naive_solver|].
  destruct (Z.ltb_spec a b), (Z.ltb_spec b a); try lia.
  - naive_solver lia.
  - naive_solver lia.
  - rewrite IH by done. assert (a = b) by lia. naive_solver.
Qed.

Lemma compare_parts_trans l m r o1 o2 o3 :
  length l = length m -> length m = length r ->
  (o1 <= 0 -> o2 <= 0 -> o3 <= 0)%Z ->
  (compare_parts l m o1 <= 0 -> compare_parts m r o2 <= 0 -> compare_parts l r o3 <= 0)%Z.
Proof.
  revert m r. induction l as [|a l IH]; intros [|b m] [|c r]; simpl; intros ? ? Ho;
    simplify_eq; [done|].
  destruct (Z.ltb_spec a b), (Z.ltb_spec b a), (Z.ltb_spec b c), (Z.ltb_spec c b),
    (Z.ltb_spec a c), (Z.ltb_spec c a); try lia. eauto.
Qed.

Definition id_le (a b : ID) : Prop := (compareID a b <= 0)%Z.

#[export] Instance id_le_dec : RelDecision id_le.
Proof. intros a b. unfold id_le. apply _. Defined.

Lemma compareID_opp a b : compareID b a = (- compareID a b)%Z.
Proof. unfold compareID. rewrite compare_string_opp. by apply compare_parts_opp. Qed.

Lemma compareID_eq a b : compareID a b = 0%Z <-> a = b.
Proof.
  unfold compareID. rewrite compare_parts_eq, compare_string_eq by done.
  destruct a, b. unfold id_parts. simpl. naive_solver.
Qed.

#[export] Instance id_le_preorder : PreOrder id_le.
Proof.
  split.
  - intros a. unfold id_le. by rewrite (proj2 (compareID_eq a a) eq_refl).
  - intros a b c. unfold id_le, compareID. apply compare_parts_trans; [done..|].
    rewrite !compare_string_le. intros ??. by etrans.
Qed.

#[export] Instance id_le_antisymm : AntiSymm (=) id_le.
Proof.
  intros a b. unfold id_le. rewrite (compareID_opp a b). intros ??. apply compareID_eq. lia.
Qed.

#[export] Instance id_le_total : Total id_le.
Proof. intros a b. unfold id_le. rewrite (compareID_opp a b). lia. Qed.
