(* ===== verification/Migration.v ===== *)
(** * package migration, the runner

    [State], [Runner] and the operations of migration/migration.go: state
    normalisation, NewRunner, target resolution, List, Run, Revert, RevertOne,
    the lock protocol and the fenced checkpoint.

    The store, the locker, the execution context, the clock and the Up/Down
    functions belong to the application.  A [world] gives their answers from
    the history of the calls made so far; the runner's operations are trace
    programs over the events below, every outside call recorded with its
    answer.  A panic in application code is not modelled. *)

From S2P Require Import Prelude.
From S2P Require Import GoStrings.
From S2P Require Import MigrationID.

(** ** Data *)

(** One registered migration.  [HasUp]/[HasDown] say whether the function is
    not nil; calling it is an event. *)
Record Migration := MkMigration {
  MID : string; Description : string; Checksum : string; HasUp : bool; HasDown : bool
}.

(** The durable state; a nil map and an empty map read the same. *)
Record State := MkState {
  LastRunMigration : string;
  LastRunTimestamp : Z;
  Migrations : gmap string (option Z);
  SkippedMigrations : gmap string Z;
  Checksums : gmap string string
}.

Definition NewState : State := MkState EmptyString 0 ∅ ∅ ∅.

(** [state.Migrations[id]]: a nil timestamp for an absent key. *)
Definition timestamp_of (st : State) (id : string) : option Z :=
  match Migrations st !! id with Some t => t | None => None end.

Definition checksum_of (st : State) (id : string) : string :=
  match Checksums st !! id with Some c => c | None => EmptyString end.

Record Status := MkStatus {
  StatusID : string; StatusDescription : string; Applied : bool; Skipped : bool; Timestamp : Z
}.

(** Errors: one constructor per message, with what the message quotes; [ext] is
    an error that came from outside. *)
Definition ext := string.

Inductive merr :=
| ErrNoMigrations | ErrNilStore | ErrNilLocker
| ErrLeaseNeedsFencedStore | ErrInvalidFencing (cause : ext)
| ErrFencingNotImplemented | ErrFencingNeedsLease
| ErrBadID (cause : id_error) | ErrNoUp (id : string) | ErrDuplicateID (id : string)
| ErrInvalidPersisted (key : string) (cause : id_error) | ErrDuplicatePersisted (id : string)
| ErrInvalidSkipped (key : string) (cause : id_error) | ErrDuplicateSkipped (id : string)
| ErrInvalidChecksumKey (key : string) (cause : id_error) | ErrDuplicateChecksum (id : string)
| ErrInvalidLast (cause : id_error)
| ErrNormalize (cause : merr)
| ErrStateDriftNotCompiled (id : string) | ErrStateDriftChecksum (id : string)
| ErrStateDriftSkipped (id : string) | ErrStateDriftChecksumNotCompiled (id : string)
| ErrContext (cause : ext) | ErrLoad (cause : ext) | ErrSave (cause : ext)
| ErrFencedNeedsFencedStore | ErrSaveNeedsToken
| ErrSaveBaseline (cause : merr)
| ErrApply (id : string) (cause : ext) | ErrAppliedAfterLoss (id : string) (cause : merr)
| ErrCheckpoint (id : string) (cause : merr) | ErrSaveSkipped (id : string) (cause : merr)
| ErrIrreversible (id : string) | ErrRevert (id : string) (cause : ext)
| ErrRevertedAfterLoss (id : string) (cause : merr) | ErrRevertCheckpoint (id : string) (cause : merr)
| ErrFromAfterTo (from to : string) | ErrVersionNotRegistered (target : string)
| ErrTargetNotRegistered (target : string) | ErrRevertTargetRequired
| ErrAcquireLease (cause : ext) | ErrLeaseNilUnlock | ErrLeaseNilContext
| ErrLeaseEmptyToken | ErrAcquireLock (cause : ext) | ErrNilUnlock
| ErrReleaseLock (cause : ext) | ErrReleaseInvalidLease (cause : ext)
| ErrJoin (first second : merr).

(** errors.Join with a second error that may be nil. *)
Definition join_errors (first : merr) (second : option merr) : merr :=
  match second with Some e => ErrJoin first e | None => first end.

(** ** State.normalize *)

(** One of the three loops over a state map: every key becomes canonical, an
    unparsable key or two keys with one canonical form is an error.  Go ranges
    over a map in an unspecified order; here it is the order of
    [map_to_list]. *)
Definition normalize_step {V} (bad : string -> id_error -> merr) (dup : string -> merr)
    (acc : result merr (gmap string V)) (kv : string * V) : result merr (gmap string V) :=
  let? m := acc in
  match CanonicalID kv.1 with
  | Err e => Err (bad kv.1 e)
  | Ok canonical =>
      match m !! canonical with
      | Some _ => Err (dup canonical)
      | None => Ok (<[canonical := kv.2]> m)
      end
  end.

Definition normalize_keys {V} (bad : string -> id_error -> merr) (dup : string -> merr)
    (m : gmap string V) : result merr (gmap string V) :=
  foldl (normalize_step bad dup) (Ok ∅) (map_to_list m).

Definition normalize (st : State) : result merr State :=
  let? ms := normalize_keys ErrInvalidPersisted ErrDuplicatePersisted (Migrations st) in
  let? sk := normalize_keys ErrInvalidSkipped ErrDuplicateSkipped (SkippedMigrations st) in
  let? cs := normalize_keys ErrInvalidChecksumKey ErrDuplicateChecksum (Checksums st) in
  if String.eqb (LastRunMigration st) EmptyString
  then Ok (MkState EmptyString (LastRunTimestamp st) ms sk cs)
  else match CanonicalID (LastRunMigration st) with
       | Err e => Err (ErrInvalidLast e)
       | Ok c => Ok (MkState c (LastRunTimestamp st) ms sk cs)
       end.

(** ** Decoding of the legacy node-migrate state

    The text is decoded by encoding/json into the raw record; what follows it
    is here. *)

Record NodeItem := MkNodeItem { NodeTitle : string; NodeTimestamp : option Z }.
Record NodeState := MkNodeState { NodeLastRun : string; NodeMigrations : list NodeItem }.

Inductive node_error :=
| NodeBadTitle (title : string) (cause : id_error)
| NodeDuplicate (id : string)
| NodeBadLastRun (cause : id_error).

Definition millisecond : Z := 1000000.
Definition max_convertible_milliseconds : Z := max_int64 / millisecond.

Definition normalizeNodeTimestamp (timestamp : option Z) : option Z :=
  match timestamp with
  | None => None
  | Some v => if (0 <? v)%Z && (v <=? max_convertible_milliseconds)%Z
              then Some (wrap64 (v * millisecond)) else Some v
  end.

Fixpoint decode_node_items (st : State) (items : list NodeItem) : result node_error State :=
  match items with
  | [] => Ok st
  | item :: rest =>
      match CanonicalID (NodeTitle item) with
      | Err e => Err (NodeBadTitle (NodeTitle item) e)
      | Ok canonical =>
          match Migrations st !! canonical with
          | Some _ => Err (NodeDuplicate canonical)
          | None =>
              let ts := normalizeNodeTimestamp (NodeTimestamp item) in
              let last := match ts with
                          | Some t => if (LastRunTimestamp st <? t)%Z then t else LastRunTimestamp st
                          | None => LastRunTimestamp st
                          end in
              decode_node_items
                (MkState (LastRunMigration st) last (<[canonical := ts]> (Migrations st))
                   (SkippedMigrations st) (Checksums st)) rest
          end
      end
  end.

Definition decodeNodeState (raw : NodeState) : result node_error State :=
  let? st := decode_node_items NewState (NodeMigrations raw) in
  if String.eqb (NodeLastRun raw) EmptyString then Ok st
  else match CanonicalID (NodeLastRun raw) with
       | Err e => Err (NodeBadLastRun e)
       | Ok c => Ok (MkState c (LastRunTimestamp st) (Migrations st) (SkippedMigrations st)
                       (Checksums st))
       end.

(** ** The registry *)

(** What the type switches on the store and the locker see: whether the store
    is a FencedStore, its FencingRequirement answers if it has that interface
    (MigrationFencingRequired, ValidateMigrationFencing), and whether the
    locker is a LeaseLocker. *)
Record StoreCaps := MkStoreCaps {
  Fenced : bool; Requirement : option (bool * option ext)
}.

Definition fencing_required (caps : StoreCaps) : bool :=
  match Requirement caps with Some (required, _) => required | None => false end.

Record Runner := MkRunner {
  registry : list (Migration * ID);
  store : StoreCaps;
  leaseBased : bool
}.

Definition migrations (rn : Runner) : list Migration := map fst (registry rn).
Definition parsed (rn : Runner) : list ID := map snd (registry rn).

Definition with_id (m : Migration) (id : string) : Migration :=
  MkMigration id (Description m) (Checksum m) (HasUp m) (HasDown m).

Fixpoint build_entries (seen : gset string) (ms : list Migration) :
    result merr (list (Migration * ID)) :=
  match ms with
  | [] => Ok []
  | m :: rest =>
      match ParseID (MID m) with
      | Err e => Err (ErrBadID e)
      | Ok id =>
          if negb (HasUp m) then Err (ErrNoUp (ID_String id))
          else if bool_decide (ID_String id ∈ seen) then Err (ErrDuplicateID (ID_String id))
          else let? entries := build_entries ({[ID_String id]} ∪ seen) rest in
               Ok ((with_id m (ID_String id), id) :: entries)
      end
  end.

Definition entry_le (a b : Migration * ID) : Prop := id_le a.2 b.2.

#[export] Instance entry_le_dec : RelDecision entry_le.
Proof. intros a b. unfold entry_le. apply _. Defined.

(** sort.Slice by compareID; identities are distinct, so the order of equal
    elements does not arise. *)
Definition sort_entries (es : list (Migration * ID)) : list (Migration * ID) :=
  merge_sort entry_le es.

Definition check_fencing (caps : StoreCaps) (lease : bool) : result merr unit :=
  if lease && negb (Fenced caps) then Err ErrLeaseNeedsFencedStore
  else match Requirement caps with
       | Some (true, Some e) => Err (ErrInvalidFencing e)
       | Some (true, None) =>
           if negb (Fenced caps) then Err ErrFencingNotImplemented
           else if negb lease then Err ErrFencingNeedsLease else Ok tt
       | _ => Ok tt
       end.

Definition NewRunner (ms : list Migration) (store : option StoreCaps) (locker : option bool) :
    result merr Runner :=
  match ms, store, locker with
  | [], _, _ => Err ErrNoMigrations
  | _, None, _ => Err ErrNilStore
  | _, _, None => Err ErrNilLocker
  | _, Some caps, Some lease =>
      let? _ := check_fencing caps lease in
      let? entries := build_entries ∅ ms in
      Ok (MkRunner (sort_entries entries) caps lease)
  end.

(** ** Targets *)

Fixpoint find_index {A} (p : A -> bool) (l : list A) : option nat :=
  match l with
  | [] => None
  | a :: r => if p a then Some 0 else S <$> find_index p r
  end.

Fixpoint find_last_index {A} (p : A -> bool) (l : list A) : option nat :=
  match l with
  | [] => None
  | a :: r => match find_last_index p r with
              | Some i => Some (S i)
              | None => if p a then Some 0 else None
              end
  end.

Definition version_text (major minor patch : string) : string :=
  Version (MkID (parse_uint64 major).1 (parse_uint64 minor).1 (parse_uint64 patch).1 0 EmptyString).

Definition resolveTarget (rn : Runner) (target : string) (firstInVersion : bool) :
    result merr nat :=
  let target := trim_space target in
  if String.eqb target EmptyString || equal_fold target "latest"
  then Ok (length (registry rn) - 1)
  else match match_versionPattern target with
  | Some (major, minor, patch) =>
      let canonical := version_text major minor patch in
      let in_version (id : ID) := String.eqb (Version id) canonical in
      match (if firstInVersion then find_index in_version (parsed rn)
             else find_last_index in_version (parsed rn)) with
      | Some i => Ok i
      | None => Err (ErrVersionNotRegistered target)
      end
  | None =>
      match CanonicalID target with
      | Err e => Err (ErrBadID e)
      | Ok canonical =>
          match find_index (fun m => String.eqb (MID m) canonical) (migrations rn) with
          | Some i => Ok i
          | None => Err (ErrTargetNotRegistered target)
          end
      end
  end.

Record RunOptions := MkRunOptions { From : string; To : string }.

Definition resolveRunRange (rn : Runner) (options : RunOptions) : result merr (nat * nat) :=
  let? to := resolveTarget rn (To options) false in
  let? from := (if String.eqb (trim_space (From options)) EmptyString then Ok 0
                else resolveTarget rn (From options) true) in
  if to <? from then Err (ErrFromAfterTo (From options) (To options)) else Ok (from, to).

(** ** Drift validation and status *)

Definition registered (rn : Runner) : gmap string Migration :=
  foldl (fun m x => <[MID x := x]> m) ∅ (migrations rn).

(** The first error of a loop over a map. *)
Fixpoint first_error {A} (f : A -> option merr) (l : list A) : result merr unit :=
  match l with
  | [] => Ok tt
  | a :: r => match f a with Some e => Err e | None => first_error f r end
  end.

Definition validate_applied (rn : Runner) (st : State) (kv : string * option Z) : option merr :=
  match kv.2 with
  | None => None
  | Some _ =>
      match registered rn !! kv.1 with
      | None => Some (ErrStateDriftNotCompiled kv.1)
      | Some m =>
          let persisted := checksum_of st kv.1 in
          if negb (String.eqb persisted EmptyString) && negb (String.eqb persisted (Checksum m))
          then Some (ErrStateDriftChecksum kv.1) else None
      end
  end.

Definition validate_skipped (st : State) (kv : string * Z) : option merr :=
  match timestamp_of st kv.1 with
  | None => Some (ErrStateDriftSkipped kv.1)
  | Some _ => None
  end.

Definition validate_checksum (rn : Runner) (kv : string * string) : option merr :=
  match registered rn !! kv.1 with
  | None => Some (ErrStateDriftChecksumNotCompiled kv.1)
  | Some _ => None
  end.

Definition validateState (rn : Runner) (st : State) : result merr unit :=
  let? _ := first_error (validate_applied rn st) (map_to_list (Migrations st)) in
  let? _ := first_error (validate_skipped st) (map_to_list (SkippedMigrations st)) in
  first_error (validate_checksum rn) (map_to_list (Checksums st)).

Definition status_of (st : State) (m : Migration) : Status :=
  MkStatus (MID m) (Description m)
    (bool_decide (is_Some (timestamp_of st (MID m))))
    (bool_decide (is_Some (SkippedMigrations st !! MID m)))
    (match timestamp_of st (MID m) with Some t => t | None => 0%Z end).

Definition statuses (rn : Runner) (st : State) : list Status := map (status_of st) (migrations rn).

Fixpoint latest_in (st : State) (rev_ms : list Migration) : string * Z :=
  match rev_ms with
  | [] => (EmptyString, 0%Z)
  | m :: r => match timestamp_of st (MID m) with
              | Some t => (MID m, t)
              | None => latest_in st r
              end
  end.

Definition latestApplied (rn : Runner) (st : State) : string * Z :=
  latest_in st (rev (migrations rn)).

(** ** The outside world *)

(** What LockLease returns besides an error. *)
Record Lease := MkLease { LeaseHasContext : bool; FenceToken : string; LeaseHasUnlock : bool }.

Inductive event :=
| EvLock (r : result ext bool)
| EvLease (r : result ext Lease)
| EvUnlock (r : option ext)
| EvCtx (r : option ext)
| EvLoad (r : result ext State)
| EvSave (st : State) (r : option ext)
| EvSaveFenced (st : State) (token : string) (r : option ext)
| EvUp (id : string) (r : option ext)
| EvDown (id : string) (r : option ext)
| EvNow (t : Z).

(** The answers, as functions of the history.  [w_lock] answers [true] for a
    non-nil unlock function; [w_ctx] is Err() of the context in force (the
    caller's, or the lease context while a lease is held; a nil context is
    context.Background, which never ends). *)
Record world := MkWorld {
  w_lock : list event -> result ext bool;
  w_lease : list event -> result ext Lease;
  w_unlock : list event -> option ext;
  w_ctx : list event -> option ext;
  w_load : list event -> result ext State;
  w_save : State -> list event -> option ext;
  w_save_fenced : State -> string -> list event -> option ext;
  w_up : Migration -> list event -> option ext;
  w_down : Migration -> list event -> option ext;
  w_now : list event -> Z
}.

Definition op (A : Type) : Type := TM event (result merr A).

(** The context value FenceTokenFromContext looks up; empty for none. *)
Definition context := string.

Definition FenceTokenFromContext (ctx : context) : option string :=
  if String.eqb ctx EmptyString then None else Some ctx.

Section runner.
Context (w : world) (rn : Runner).

Definition lift (r : result merr unit) : op unit := tret r.

Definition checkExecutionContext : op unit :=
  let! r := call (w_ctx w) EvCtx in
  tret (match r with Some e => Err (ErrContext e) | None => Ok tt end).

Definition loadState : op State :=
  try! _ := checkExecutionContext in
  let! r := call (w_load w) EvLoad in
  tret (match r with
        | Err e => Err (ErrLoad e)
        | Ok st => result_map_err ErrNormalize (normalize st)
        end).

Definition save_answer (r : option ext) : result merr unit :=
  match r with Some e => Err (ErrSave e) | None => Ok tt end.

Definition saveState (ctx : context) (st : State) : op unit :=
  try! _ := checkExecutionContext in
  match FenceTokenFromContext ctx with
  | Some token =>
      if Fenced (store rn)
      then let! r := call (w_save_fenced w st token) (EvSaveFenced st token) in
           tret (save_answer r)
      else tret (Err ErrFencedNeedsFencedStore)
  | None =>
      if fencing_required (store rn) then tret (Err ErrSaveNeedsToken)
      else let! r := call (w_save w st) (EvSave st) in tret (save_answer r)
  end.

Definition with_checksum (m : Migration) (cs : gmap string string) : gmap string string :=
  if String.eqb (Checksum m) EmptyString then cs else <[MID m := Checksum m]> cs.

(** *** backfillChecksums *)

Definition backfill_one (acc : State * bool) (m : Migration) : State * bool :=
  let (st, changed) := acc in
  match timestamp_of st (MID m) with
  | None => acc
  | Some _ =>
      if String.eqb (Checksum m) EmptyString
         || negb (String.eqb (checksum_of st (MID m)) EmptyString)
      then acc
      else (MkState (LastRunMigration st) (LastRunTimestamp st) (Migrations st)
              (SkippedMigrations st) (<[MID m := Checksum m]> (Checksums st)), true)
  end.

Definition backfillChecksums (ctx : context) (st : State) : op State :=
  let (st', changed) := foldl backfill_one (st, false) (migrations rn) in
  if changed
  then let! r := saveState ctx st' in
       tret (match r with Err e => Err (ErrSaveBaseline e) | Ok _ => Ok st' end)
  else tret (Ok st').

(** *** Run *)

Definition mark_applied (m : Migration) (now : Z) (st : State) : State :=
  MkState (MID m) now (<[MID m := Some now]> (Migrations st))
    (delete (MID m) (SkippedMigrations st)) (with_checksum m (Checksums st)).

Definition mark_skipped (m : Migration) (now : Z) (st : State) : State :=
  MkState (LastRunMigration st) (LastRunTimestamp st) (<[MID m := Some now]> (Migrations st))
    (<[MID m := now]> (SkippedMigrations st)) (with_checksum m (Checksums st)).

(** The body of the first loop for one pending migration. *)
Definition apply_one (ctx : context) (m : Migration) (st : State) : op State :=
  try! _ := checkExecutionContext in
  let! u := call (w_up w m) (EvUp (MID m)) in
  match u with
  | Some e => tret (Err (ErrApply (MID m) e))
  | None =>
      let! c := checkExecutionContext in
      match c with
      | Err e => tret (Err (ErrAppliedAfterLoss (MID m) e))
      | Ok _ =>
          let! now := call (w_now w) EvNow in
          let st' := mark_applied m now st in
          let! s := saveState ctx st' in
          tret (match s with Err e => Err (ErrCheckpoint (MID m) e) | Ok _ => Ok st' end)
      end
  end.

Fixpoint apply_pending (ctx : context) (ms : list Migration) (st : State) : op State :=
  match ms with
  | [] => tret (Ok st)
  | m :: rest =>
      match timestamp_of st (MID m) with
      | Some _ => apply_pending ctx rest st
      | None => try! st' := apply_one ctx m st in apply_pending ctx rest st'
      end
  end.

(** The second loop: migrations before [From] are marked as skipped. *)
Fixpoint skip_before (ctx : context) (ms : list Migration) (st : State) : op State :=
  match ms with
  | [] => tret (Ok st)
  | m :: rest =>
      match timestamp_of st (MID m) with
      | Some _ => skip_before ctx rest st
      | None =>
          let! now := call (w_now w) EvNow in
          let st' := mark_skipped m now st in
          let! s := saveState ctx st' in
          match s with
          | Err e => tret (Err (ErrSaveSkipped (MID m) e))
          | Ok _ => skip_before ctx rest st'
          end
      end
  end.

(** [migrations[from..to]], both ends included. *)
Definition range (from to : nat) : list Migration :=
  take (S to - from) (drop from (migrations rn)).

Definition run_operation (options : RunOptions) (ctx : context) : op (list Status) :=
  try! st := loadState in
  try! _ := lift (validateState rn st) in
  match resolveRunRange rn options with
  | Err e => tret (Err e)
  | Ok (from, to) =>
      try! st := backfillChecksums ctx st in
      try! st := apply_pending ctx (range from to) st in
      try! st := skip_before ctx (take from (migrations rn)) st in
      tret (Ok (statuses rn st))
  end.

(** *** Revert *)

Definition is_skipped (st : State) (m : Migration) : bool :=
  bool_decide (is_Some (SkippedMigrations st !! MID m)).

(** The first loop of revertState: nothing is reverted unless everything can
    be. *)
Fixpoint check_reversible (st : State) (rev_ms : list Migration) : result merr unit :=
  match rev_ms with
  | [] => Ok tt
  | m :: rest =>
      match timestamp_of st (MID m) with
      | None => check_reversible st rest
      | Some _ =>
          if negb (is_skipped st m) && negb (HasDown m) then Err (ErrIrreversible (MID m))
          else check_reversible st rest
      end
  end.

Definition down_one (m : Migration) : op unit :=
  try! _ := checkExecutionContext in
  let! d := call (w_down w m) (EvDown (MID m)) in
  match d with
  | Some e => tret (Err (ErrRevert (MID m) e))
  | None =>
      let! c := checkExecutionContext in
      tret (result_map_err (ErrRevertedAfterLoss (MID m)) c)
  end.

Definition mark_reverted (m : Migration) (st : State) : State :=
  let st1 := MkState (LastRunMigration st) (LastRunTimestamp st)
               (<[MID m := None]> (Migrations st)) (delete (MID m) (SkippedMigrations st))
               (delete (MID m) (Checksums st)) in
  let (last, ts) := latestApplied rn st1 in
  MkState last ts (Migrations st1) (SkippedMigrations st1) (Checksums st1).

Fixpoint revert_applied (ctx : context) (rev_ms : list Migration) (st : State) : op State :=
  match rev_ms with
  | [] => tret (Ok st)
  | m :: rest =>
      match timestamp_of st (MID m) with
      | None => revert_applied ctx rest st
      | Some _ =>
          try! _ := (if is_skipped st m then tret (Ok tt) else down_one m) in
          let st' := mark_reverted m st in
          let! s := saveState ctx st' in
          match s with
          | Err e => tret (Err (ErrRevertCheckpoint (MID m) e))
          | Ok _ => revert_applied ctx rest st'
          end
      end
  end.

Definition revertState (ctx : context) (st : State) (to : nat) : op (list Status) :=
  let rev_ms := rev (drop to (migrations rn)) in
  try! _ := lift (check_reversible st rev_ms) in
  try! st := revert_applied ctx rev_ms st in
  tret (Ok (statuses rn st)).

Definition revert_operation (target : string) (ctx : context) : op (list Status) :=
  try! st := loadState in
  try! _ := lift (validateState rn st) in
  match resolveTarget rn target true with
  | Err e => tret (Err e)
  | Ok to => revertState ctx st to
  end.

Definition revert_one_operation (ctx : context) : op (list Status) :=
  try! st := loadState in
  try! _ := lift (validateState rn st) in
  match find_last_index (fun m => bool_decide (is_Some (timestamp_of st (MID m))))
          (migrations rn) with
  | Some index => revertState ctx st index
  | None => tret (Ok (statuses rn st))
  end.

(** *** withLock *)

(** The operation between acquisition and the deferred unlock. *)
Definition locked (operation : op (list Status)) : op (list Status) :=
  let! r := operation in
  let! u := call (w_unlock w) EvUnlock in
  tret (match r, u with
        | Err e, Some ue => Err (ErrJoin e (ErrReleaseLock ue))
        | Err e, None => Err e
        | Ok _, Some ue => Err (ErrReleaseLock ue)
        | Ok x, None => Ok x
        end).

(** A lease that cannot be used is released and reported. *)
Definition abandon_lease (e : merr) : op (list Status) :=
  let! u := call (w_unlock w) EvUnlock in
  tret (Err (join_errors e (ErrReleaseInvalidLease <$> u))).

Definition withLock (ctx : context) (operation : context -> op (list Status)) :
    op (list Status) :=
  if leaseBased rn then
    let! r := call (w_lease w) EvLease in
    match r with
    | Err e => tret (Err (ErrAcquireLease e))
    | Ok lease =>
        if negb (LeaseHasUnlock lease) then tret (Err ErrLeaseNilUnlock)
        else if negb (LeaseHasContext lease) then abandon_lease ErrLeaseNilContext
        else let token := trim_space (FenceToken lease) in
             if String.eqb token EmptyString then abandon_lease ErrLeaseEmptyToken
             else if negb (Fenced (store rn)) then abandon_lease ErrLeaseNeedsFencedStore
             else locked (operation token)
    end
  else
    let! r := call (w_lock w) EvLock in
    match r with
    | Err e => tret (Err (ErrAcquireLock e))
    | Ok false => tret (Err ErrNilUnlock)
    | Ok true => locked (operation ctx)
    end.

(** *** The public operations *)

Definition List_ : op (list Status) :=
  try! st := loadState in
  try! _ := lift (validateState rn st) in
  tret (Ok (statuses rn st)).

Definition Run (ctx : context) (options : RunOptions) : op (list Status) :=
  withLock ctx (run_operation options).

Definition Revert (ctx : context) (target : string) : op (list Status) :=
  if String.eqb (trim_space target) EmptyString then tret (Err ErrRevertTargetRequired)
  else withLock ctx (revert_operation target).

Definition RevertOne (ctx : context) : op (list Status) := withLock ctx revert_one_operation.
End runner.
