(* ===== verification/MigrationProofs.v ===== *)
(** * package migration: theorems

    The registry a runner is built from, the target resolution, the
    normalisation of persisted state, and the checkpoint protocol every Run,
    Revert and RevertOne follows whatever the outside world answers. *)

From S2P Require Import Prelude.
From S2P Require Import GoStrings.
From S2P Require Import MigrationID.
From S2P Require Import Migration.

(** ** The registry of a runner *)

Definition entry_wf (e : Migration * ID) : Prop :=
  id_wf e.2 /\ MID e.1 = ID_String e.2 /\ HasUp e.1 = true.

Record runner_wf (rn : Runner) : Prop := {
  wf_nonempty : registry rn <> [];
  wf_entries : Forall entry_wf (registry rn);
  wf_sorted : StronglySorted entry_le (registry rn);
  wf_nodup : NoDup (MID <$> migrations rn);
  wf_lease : leaseBased rn = true -> Fenced (store rn) = true;
  wf_required : fencing_required (store rn) = true -> leaseBased rn = true
}.

Lemma build_entries_spec seen ms es :
  build_entries seen ms = Ok es ->
  Forall entry_wf es /\ NoDup (MID <$> (es.*1)) /\
  Forall (fun e => MID e.1 ∉ seen) es /\ length es = length ms.
Proof.
  revert seen es. induction ms as [|m ms IH]; intros seen es; simpl.
  { intros [= <-]. repeat constructor. }
  destruct (ParseID (MID m)) as [id|] eqn:Ep; [|done].
  destruct (HasUp m) eqn:Eu; [|done]. simpl. case_bool_decide as Hin; [done|].
  destruct (build_entries _ ms) as [es'|] eqn:Eb; [|done]. intros [= <-].
  destruct (IH _ _ Eb) as (Hw & Hn & Hs & Hl). simpl.
  rewrite Forall_forall in Hs. split_and!.
  - constructor; [|done]. split_and!; simpl; [by eapply ParseID_wf|done|done].
  - constructor; [|done]. rewrite list_elem_of_fmap. intros (m' & E & (e & -> & He)%list_elem_of_fmap).
    specialize (Hs _ He). rewrite <- E in Hs. set_solver.
  - constructor; [done|]. rewrite Forall_forall. intros e He. specialize (Hs _ He). set_solver.
  - lia.
Qed.

Lemma entry_le_trans : Transitive entry_le.
Proof. intros a b c. unfold entry_le. by intros; etrans. Qed.

Lemma entry_le_total : Total entry_le.
Proof. intros a b. unfold entry_le. apply id_le_total. Qed.

Lemma sort_entries_perm es : sort_entries es ≡ₚ es.
Proof. apply merge_sort_Permutation. Qed.

Lemma sort_entries_sorted es : StronglySorted entry_le (sort_entries es).
Proof. apply StronglySorted_merge_sort; [apply entry_le_trans|apply entry_le_total]. Qed.

Lemma NewRunner_inv ms s l rn :
  NewRunner ms s l = Ok rn ->
  exists caps lease es, s = Some caps /\ l = Some lease /\ ms <> [] /\
    check_fencing caps lease = Ok tt /\ build_entries ∅ ms = Ok es /\
    rn = MkRunner (sort_entries es) caps lease.
Proof.
  unfold NewRunner. destruct ms as [|m ms]; [done|].
  destruct s as [caps|]; [|done]. destruct l as [lease|]; [|done].
  destruct (check_fencing caps lease) as [[]|] eqn:Ec; [|done].
  destruct (build_entries ∅ (m :: ms)) as [es|] eqn:Eb; [|done].
  intros [= <-]. by exists caps, lease, es.
Qed.

Lemma check_fencing_ok caps lease :
  check_fencing caps lease = Ok tt ->
  (lease = true -> Fenced caps = true) /\ (fencing_required caps = true -> lease = true).
Proof.
  unfold check_fencing, fencing_required. intros H.
  destruct lease, (Fenced caps), (Requirement caps) as [[[] [e|]]|]; simpl in *; done.
Qed.

Lemma NewRunner_wf ms s l rn : NewRunner ms s l = Ok rn -> runner_wf rn.
Proof.
  intros (caps & lease & es & -> & -> & Hne & Hc & Hb & ->)%NewRunner_inv.
  destruct (build_entries_spec _ _ _ Hb) as (Hw & Hn & _ & Hl).
  destruct (check_fencing_ok _ _ Hc). pose proof (sort_entries_perm es) as Hp.
  split; simpl; try done.
  - intros E. rewrite E in Hp. apply Permutation_nil_l in Hp. subst. by destruct ms.
  - by rewrite Hp.
  - apply sort_entries_sorted.
  - unfold migrations. simpl. by rewrite Hp.
Qed.

(** *** Registration order does not matter *)

Definition entry_of (m : Migration) : option (Migration * ID) :=
  match ParseID (MID m) with
  | Ok id => if HasUp m then Some (with_id m (ID_String id), id) else None
  | Err _ => None
  end.

Definition entries_of (ms : list Migration) (es : list (Migration * ID)) : Prop :=
  Forall2 (fun m e => entry_of m = Some e) ms es.

Lemma build_entries_iff seen ms es :
  build_entries seen ms = Ok es <->
  entries_of ms es /\ NoDup (MID <$> es.*1) /\ Forall (fun e => MID e.1 ∉ seen) es.
Proof.
  split.
  - intros Hb. destruct (build_entries_spec _ _ _ Hb) as (_ & ? & ? & _). split; [|done].
    clear H H0. revert seen es Hb. unfold entries_of.
    induction ms as [|m ms IH]; intros seen es; simpl; [by intros [= <-]|].
    destruct (ParseID (MID m)) as [id|] eqn:Ep; [|done].
    destruct (HasUp m) eqn:Eu; [|done]. simpl. case_bool_decide; [done|].
    destruct (build_entries _ ms) as [es'|] eqn:Eb; [|done]. intros [= <-].
    constructor; [by unfold entry_of; rewrite Ep, Eu|by eapply IH].
  - intros (Hf & Hn & Hs). unfold entries_of in Hf. revert seen Hn Hs.
    induction Hf as [|m e ms es Hm Hf IH]; intros seen Hn Hs; [done|]. simpl.
    unfold entry_of in Hm. destruct (ParseID (MID m)) as [id|]; [|done].
    destruct (HasUp m); [|done]. simplify_eq/=.
    apply NoDup_cons in Hn as [Hn1 Hn2]. apply Forall_cons in Hs as [Hs1 Hs2]. simpl in *.
    rewrite bool_decide_false, (IH ({[ID_String id]} ∪ seen)); [done|done| |done].
    rewrite Forall_forall in Hs2 |- *. intros e He. specialize (Hs2 _ He).
    rewrite not_elem_of_union, not_elem_of_singleton. split; [|done].
    intros E. apply Hn1. rewrite <- E. do 2 apply list_elem_of_fmap_2. done.
Qed.

Lemma Forall2_perm {A B} (R : A -> B -> Prop) l l' k :
  l ≡ₚ l' -> Forall2 R l k -> exists k', Forall2 R l' k' /\ k ≡ₚ k'.
Proof.
  intros Hp. revert k. induction Hp as [|x l l' Hp IH|x y l|l1 l2 l3 _ IH1 _ IH2]; intros k H.
  - eauto.
  - inversion_clear H as [|? b ? k0 Hb Hk]. destruct (IH _ Hk) as (k' & ? & ?).
    exists (b :: k'). split; [by constructor|by constructor].
  - inversion_clear H as [|? b ? k0 Hb Hk]. inversion_clear Hk as [|? c ? k1 Hc Hk1].
    exists (c :: b :: k1). split; [by repeat constructor|constructor].
  - destruct (IH1 _ H) as (k2 & H2 & ?). destruct (IH2 _ H2) as (k3 & ? & ?).
    exists k3. split; [done|by etrans].
Qed.

Lemma NoDup_MID_inj (es : list (Migration * ID)) a b :
  NoDup (MID <$> es.*1) -> a ∈ es -> b ∈ es -> MID a.1 = MID b.1 -> a = b.
Proof.
  rewrite <- list_fmap_compose. intros Hn [i Hi]%list_elem_of_lookup [j Hj]%list_elem_of_lookup E.
  assert (i = j) as <-; [|congruence].
  eapply NoDup_lookup; [done|..]; rewrite list_lookup_fmap.
  - by rewrite Hi.
  - rewrite Hj. simpl. by rewrite E.
Qed.

Lemma sort_entries_unique es es' :
  Forall entry_wf es -> NoDup (MID <$> es.*1) -> es ≡ₚ es' ->
  sort_entries es = sort_entries es'.
Proof.
  intros Hw Hn Hp.
  apply (StronglySorted_unique_strong entry_le);
    [|apply sort_entries_sorted..|by rewrite !sort_entries_perm].
  intros a b. rewrite !sort_entries_perm, <- Hp. intros Ha Hb Hab Hba.
  apply (NoDup_MID_inj es); [done..|].
  rewrite Forall_forall in Hw. destruct (Hw _ Ha) as (_ & -> & _), (Hw _ Hb) as (_ & -> & _).
  f_equal. by apply (anti_symm id_le).
Qed.

(** The order in which the application lists its migrations does not
    matter: a permutation of a list NewRunner accepts is accepted and gives the
    same runner. *)
Theorem NewRunner_permutation ms ms' s l rn :
  NewRunner ms s l = Ok rn -> ms ≡ₚ ms' -> NewRunner ms' s l = Ok rn.
Proof.
  intros (caps & lease & es & -> & -> & Hne & Hc & Hb & ->)%NewRunner_inv Hp.
  destruct (build_entries_spec _ _ _ Hb) as (Hw & Hn & _ & _).
  apply build_entries_iff in Hb as (He & _ & _).
  destruct (Forall2_perm _ _ _ _ Hp He) as (es' & He' & Hes).
  assert (build_entries ∅ ms' = Ok es') as Hb'.
  { apply build_entries_iff. split_and!; [done|by rewrite <- Hes|].
    apply Forall_forall. intros e _. apply not_elem_of_empty. }
  unfold NewRunner. destruct ms' as [|m' ms']; [by apply Permutation_nil_r in Hp|].
  rewrite Hc, Hb'. by rewrite (sort_entries_unique es es').
Qed.

(** ** Normalisation of persisted state *)

(** Printing an identity and parsing it back gives the identity, for every
    identity with 64-bit parts and a name the pattern accepts, whatever the
    trimming of spaces and file suffixes. *)
Theorem ParseID_roundtrip id : id_wf id -> ParseID (ID_String id) = Ok id.
Proof. apply ParseID_String. Qed.

Lemma CanonicalID_canonical v c : CanonicalID v = Ok c -> CanonicalID c = Ok c.
Proof.
  unfold CanonicalID. destruct (ParseID v) as [id|] eqn:E; [|done]. intros [= <-].
  rewrite ParseID_String; [done|]. by eapply ParseID_wf.
Qed.

Section normalize_keys.
Context {V : Type} (bad : string -> id_error -> merr) (dup : string -> merr).

Lemma normalize_err e l : foldl (normalize_step (V := V) bad dup) (Err e) l = Err e.
Proof. by induction l. Qed.

Lemma normalize_fold_lookup l (m0 m' : gmap string V) :
  foldl (normalize_step bad dup) (Ok m0) l = Ok m' ->
  forall c v, m' !! c = Some v <->
    m0 !! c = Some v \/ exists k, (k, v) ∈ l /\ CanonicalID k = Ok c.
Proof.
  revert m0. induction l as [|[k x] l IH]; intros m0; simpl.
  - intros [= <-] c v. split; [auto|]. intros [?|(k & Hk & _)]; [done|by apply elem_of_nil in Hk].
  - destruct (CanonicalID k) as [c0|] eqn:Ec; [|by rewrite normalize_err].
    destruct (m0 !! c0) eqn:E0; [by rewrite normalize_err|].
    intros H c v. rewrite (IH _ H). clear H IH. setoid_rewrite elem_of_cons. split.
    + intros [[[<- <-]|[? ?]]%lookup_insert_Some|(k' & ? & ?)]; [right|by left|right]; eauto.
    + intros [Hc|(k' & [?|?] & Hk')].
      * left. apply lookup_insert_Some. right. split; [congruence|done].
      * simplify_eq. rewrite Ec in Hk'. simplify_eq. left. apply lookup_insert_Some. by left.
      * right. eauto.
Qed.

Lemma normalize_fold_ok l (m0 : gmap string V) :
  NoDup l.*1 ->
  (forall k, k ∈ l.*1 -> exists c, CanonicalID k = Ok c /\ m0 !! c = None) ->
  (forall k1 k2 c, k1 ∈ l.*1 -> k2 ∈ l.*1 -> CanonicalID k1 = Ok c -> CanonicalID k2 = Ok c ->
     k1 = k2) ->
  exists m', foldl (normalize_step bad dup) (Ok m0) l = Ok m'.
Proof.
  revert m0. induction l as [|[k x] l IH]; intros m0 Hn Hc Hi; simpl in *; [eauto|].
  apply NoDup_cons in Hn as [Hk Hn].
  destruct (Hc k) as (c & Ek & E0); [by left|]. rewrite Ek, E0.
  apply IH; [done| |].
  - intros k' Hk'. destruct (Hc k') as (c' & ? & ?); [by right|]. exists c'. split; [done|].
    rewrite lookup_insert_ne; [done|]. intros E. subst c'. apply Hk.
    assert (k = k') as -> by (eapply Hi; eauto using list_elem_of_here, list_elem_of_further).
    done.
  - intros k1 k2 c' ??. apply Hi; by right.
Qed.

(** The outcome in terms of lookups alone: which order Go visits the keys in
    only decides which error is reported. *)
Lemma normalize_keys_ok (m m' : gmap string V) :
  normalize_keys bad dup m = Ok m' ->
  forall c v, m' !! c = Some v <-> exists k, m !! k = Some v /\ CanonicalID k = Ok c.
Proof.
  intros H c v. rewrite (normalize_fold_lookup _ _ _ H c v), lookup_empty.
  setoid_rewrite elem_of_map_to_list. split; [intros [?|?]|]; naive_solver.
Qed.

Lemma normalize_keys_total (m : gmap string V) :
  (forall k v, m !! k = Some v -> exists c, CanonicalID k = Ok c) ->
  (forall k1 k2 v1 v2 c, m !! k1 = Some v1 -> m !! k2 = Some v2 ->
     CanonicalID k1 = Ok c -> CanonicalID k2 = Ok c -> k1 = k2) ->
  exists m', normalize_keys bad dup m = Ok m'.
Proof.
  intros Hc Hi. apply normalize_fold_ok.
  - apply NoDup_fst_map_to_list.
  - intros k ([k' v] & -> & Hk)%list_elem_of_fmap. apply elem_of_map_to_list in Hk.
    destruct (Hc _ _ Hk) as [c ?]. exists c. split; [done|apply lookup_empty].
  - intros k1 k2 c ([k1' v1] & -> & H1)%list_elem_of_fmap ([k2' v2] & -> & H2)%list_elem_of_fmap.
    apply elem_of_map_to_list in H1, H2. eauto.
Qed.

Lemma normalize_keys_canonical (m m' : gmap string V) :
  normalize_keys bad dup m = Ok m' -> forall c, is_Some (m' !! c) -> CanonicalID c = Ok c.
Proof.
  intros H c [v (k & _ & Hk)%(normalize_keys_ok _ _ H)]. by eapply CanonicalID_canonical.
Qed.

(** Canonical keys are left alone. *)
Lemma normalize_keys_id (m : gmap string V) :
  (forall c, is_Some (m !! c) -> CanonicalID c = Ok c) -> normalize_keys bad dup m = Ok m.
Proof.
  intros Hc. destruct (normalize_keys_total m) as [m' H].
  - eauto.
  - intros k1 k2 v1 v2 c H1 H2. rewrite (Hc k1), (Hc k2) by eauto. congruence.
  - rewrite H. f_equal. apply map_eq. intros c. apply option_eq. intros v.
    rewrite (normalize_keys_ok _ _ H). split.
    + intros (k & Hk & E). rewrite (Hc k) in E by eauto. congruence.
    + intros Hv. exists c. split; [done|]. eauto.
Qed.
End normalize_keys.

Definition canonical_state (st : State) : Prop :=
  (forall c, is_Some (Migrations st !! c) -> CanonicalID c = Ok c) /\
  (forall c, is_Some (SkippedMigrations st !! c) -> CanonicalID c = Ok c) /\
  (forall c, is_Some (Checksums st !! c) -> CanonicalID c = Ok c) /\
  (LastRunMigration st = EmptyString \/ CanonicalID (LastRunMigration st) = Ok (LastRunMigration st)).

Lemma normalize_inv st st' :
  normalize st = Ok st' ->
  normalize_keys ErrInvalidPersisted ErrDuplicatePersisted (Migrations st) = Ok (Migrations st') /\
  normalize_keys ErrInvalidSkipped ErrDuplicateSkipped (SkippedMigrations st) = Ok (SkippedMigrations st') /\
  normalize_keys ErrInvalidChecksumKey ErrDuplicateChecksum (Checksums st) = Ok (Checksums st') /\
  LastRunTimestamp st' = LastRunTimestamp st /\
  (LastRunMigration st = EmptyString /\ LastRunMigration st' = EmptyString \/
   CanonicalID (LastRunMigration st) = Ok (LastRunMigration st')).
Proof.
  unfold normalize. destruct (normalize_keys _ _ (Migrations st)); [|done].
  destruct (normalize_keys _ _ (SkippedMigrations st)); [|done].
  destruct (normalize_keys _ _ (Checksums st)); [|done].
  destruct (String.eqb_spec (LastRunMigration st) EmptyString) as [->|].
  - intros [= <-]. naive_solver.
  - destruct (CanonicalID _) eqn:E; [|done]. intros [= <-]. naive_solver.
Qed.

Lemma normalize_canonical st st' : normalize st = Ok st' -> canonical_state st'.
Proof.
  intros (Hm & Hs & Hc & _ & Hl)%normalize_inv.
  split_and!; eauto using normalize_keys_canonical.
  destruct Hl as [[_ ?]|?]; [by left|right]. by eapply CanonicalID_canonical.
Qed.

Lemma normalize_id st : canonical_state st -> normalize st = Ok st.
Proof.
  intros (Hm & Hs & Hc & Hl). unfold normalize.
  rewrite !normalize_keys_id by done. destruct st as [l ts ms sk cs]. simpl in *.
  destruct (String.eqb_spec l EmptyString) as [->|]; [done|].
  destruct Hl as [?| ->]; done.
Qed.

Lemma normalize_contents st st' :
  normalize st = Ok st' ->
  (forall c t, Migrations st' !! c = Some t <->
     exists k, Migrations st !! k = Some t /\ CanonicalID k = Ok c) /\
  (forall c t, SkippedMigrations st' !! c = Some t <->
     exists k, SkippedMigrations st !! k = Some t /\ CanonicalID k = Ok c) /\
  (forall c x, Checksums st' !! c = Some x <->
     exists k, Checksums st !! k = Some x /\ CanonicalID k = Ok c) /\
  normalize st' = Ok st'.
Proof.
  intros H. pose proof (normalize_canonical _ _ H) as Hcan.
  apply normalize_inv in H as (Hm & Hs & Hc & _).
  split_and!; eauto using normalize_keys_ok, normalize_id.
Qed.

(** Normalising persisted state keeps each timestamp, skip and checksum
    under the canonical form of its key, independently of the order in which
    the maps are visited, and normalising twice is normalising once. *)
Theorem normalize_spec st st' :
  normalize st = Ok st' ->
  (forall c t, Migrations st' !! c = Some t <->
     exists k, Migrations st !! k = Some t /\ CanonicalID k = Ok c) /\
  (forall c t, SkippedMigrations st' !! c = Some t <->
     exists k, SkippedMigrations st !! k = Some t /\ CanonicalID k = Ok c) /\
  (forall c x, Checksums st' !! c = Some x <->
     exists k, Checksums st !! k = Some x /\ CanonicalID k = Ok c) /\
  normalize st' = Ok st'.
Proof. apply normalize_contents. Qed.

(** ** Targets *)

Lemma find_index_Some {A} (p : A -> bool) l i :
  find_index p l = Some i ->
  exists x, l !! i = Some x /\ p x = true /\
    forall j y, j < i -> l !! j = Some y -> p y = false.
Proof.
  revert i. induction l as [|a l IH]; intros i; simpl; [done|].
  destruct (p a) eqn:E.
  - intros [= <-]. exists a. split_and!; [done..|lia].
  - intros (i' & Hi & ->)%fmap_Some. destruct (IH _ Hi) as (x & ? & ? & Hj).
    exists x. split_and!; [done..|]. intros [|j] y ? Hy; simpl in Hy; [congruence|].
    eapply Hj; [|done]. lia.
Qed.

Lemma find_last_index_Some {A} (p : A -> bool) l i :
  find_last_index p l = Some i ->
  exists x, l !! i = Some x /\ p x = true /\
    forall j y, i < j -> l !! j = Some y -> p y = false.
Proof.
  revert i. induction l as [|a l IH]; intros i; simpl; [done|].
  destruct (find_last_index p l) as [i'|] eqn:El.
  - intros [= <-]. destruct (IH _ eq_refl) as (x & ? & ? & Hj).
    exists x. split_and!; [done..|]. intros [|j] y ? Hy; simpl in Hy; [lia|].
    eapply Hj; [|done]. lia.
  - destruct (p a) eqn:E; [|done]. intros [= <-]. exists a. split_and!; [done..|].
    intros [|j] y ? Hy; simpl in Hy; [lia|]. clear IH E a.
    revert j y Hy H. induction l as [|b l IH]; intros j y; [done|].
    simpl in El. destruct (find_last_index p l); [done|]. destruct (p b) eqn:Eb; [done|].
    destruct j as [|j]; simpl; [congruence|]. intros ??. eapply IH; [done..|lia].
Qed.

Lemma registry_lookup rn i e :
  registry rn !! i = Some e -> migrations rn !! i = Some e.1 /\ parsed rn !! i = Some e.2.
Proof. intros H. unfold migrations, parsed. by rewrite !list_lookup_fmap, H. Qed.

Lemma length_migrations rn : length (migrations rn) = length (registry rn).
Proof. apply length_map. Qed.

(** What a target names, on the registry sorted by identity. *)
Definition target_names (rn : Runner) (target : string) (first : bool) (i : nat) : Prop :=
  ((target = EmptyString \/ equal_fold target "latest" = true) /\ i = length (registry rn) - 1)
  \/ (exists a b c id, match_versionPattern target = Some (a, b, c) /\
        parsed rn !! i = Some id /\ Version id = version_text a b c /\
        (forall j id', (if first then j < i else i < j) -> parsed rn !! j = Some id' ->
           Version id' <> version_text a b c))
  \/ (exists m, migrations rn !! i = Some m /\ CanonicalID target = Ok (MID m)).

Lemma resolveTarget_names rn target first i :
  runner_wf rn -> resolveTarget rn target first = Ok i ->
  i < length (registry rn) /\ target_names rn (trim_space target) first i.
Proof.
  intros Hwf. unfold resolveTarget, target_names. set (t := trim_space target).
  assert (0 < length (registry rn)) as Hpos.
  { pose proof (wf_nonempty _ Hwf). destruct (registry rn); simpl; [done|lia]. }
  destruct (String.eqb t EmptyString || equal_fold t "latest") eqn:El.
  { intros [= <-]. split; [lia|]. left. split; [|done].
    apply orb_true_iff in El as [?%String.eqb_eq|?]; auto. }
  destruct (match_versionPattern t) as [[[a b] c]|] eqn:Ev.
  - intros H.
    assert (exists id, parsed rn !! i = Some id /\
              String.eqb (Version id) (version_text a b c) = true /\
              forall j id', (if first then j < i else i < j) -> parsed rn !! j = Some id' ->
                String.eqb (Version id') (version_text a b c) = false) as (id & Hi & Hp & Hj).
    { destruct first; case_match eqn:Ef; simplify_eq;
        [by apply find_index_Some|by apply find_last_index_Some]. }
    split.
    + apply lookup_lt_Some in Hi. unfold parsed in Hi. by rewrite length_map in Hi.
    + right. left. exists a, b, c, id. split_and!; [done..|by apply String.eqb_eq|].
      intros j id' ? Hid. apply String.eqb_neq. by eapply Hj.
  - destruct (CanonicalID t) as [c|] eqn:Ec; [|done].
    destruct (find_index _ (migrations rn)) as [i'|] eqn:Ef; [|done]. intros [= <-].
    destruct (find_index_Some _ _ _ Ef) as (m & Hm & E%String.eqb_eq & _). split.
    + rewrite <- length_migrations. by eapply lookup_lt_Some.
    + right. right. exists m. by rewrite E.
Qed.

(** A target that resolves names an index of the registry: the last
    migration for an empty target or latest, the first or the last migration of
    a version, or the migration whose canonical identity it is. *)
Theorem resolveTarget_spec rn target first i :
  runner_wf rn -> resolveTarget rn target first = Ok i ->
  i < length (registry rn) /\ target_names rn (trim_space target) first i.
Proof. apply resolveTarget_names. Qed.

Lemma resolveRunRange_bounds rn options from to :
  runner_wf rn -> resolveRunRange rn options = Ok (from, to) ->
  from <= to /\ to < length (registry rn).
Proof.
  intros Hwf. unfold resolveRunRange.
  destruct (resolveTarget rn (To options) false) as [t|] eqn:Et; [|done].
  apply resolveTarget_names in Et as [Ht _]; [|done].
  destruct (if String.eqb _ _ then _ else _) as [f|]; [|done].
  destruct (Nat.ltb_spec t f); [done|]. intros [= <- <-]. done.
Qed.
