(* ===== verification/MigrationProtocol.v ===== *)
(** * package migration: the checkpoint protocol

    An abstract specification of a migration run as an automaton over its
    outside calls, and the proof that Run, Revert and RevertOne implement it
    whatever the store, the lock, the context and the migrations answer. *)

From S2P Require Import Prelude.
From S2P Require Import GoStrings.
From S2P Require Import MigrationID.
From S2P Require Import Migration.
From S2P Require Import MigrationProofs.

(** ** The automaton

    [Idle] until the lock is taken; [Active token owed] while it is held and
    nothing has failed, with the fence token in force and the migration that
    ran but is not checkpointed yet ([true]: applied, [false]: reverted);
    [Failed] once the context ended or a call failed; [Released] after. *)
Inductive phase :=
| Idle
| Active (token : option string) (owed : option (string * bool))
| Failed
| Released.

(** A checkpoint settles what is owed when it records it. *)
Definition settles (owed : option (string * bool)) (st : State) : bool :=
  match owed with
  | None => true
  | Some (id, applied) => Bool.eqb applied (bool_decide (is_Some (timestamp_of st id)))
  end.

Definition after (p : phase) (r : option ext) : phase :=
  match r with None => p | Some _ => Failed end.

(** Allowed only when nothing is owed. *)
Definition free (owed : option (string * bool)) (p : phase) : option phase :=
  match owed with None => Some p | Some _ => None end.

(** A checkpoint under the token in force that settles what is owed. *)
Definition checkpoint (token : option string) (owed : option (string * bool)) (st : State)
    (under : option string) (r : option ext) : option phase :=
  if bool_decide (token = under) && settles owed st
  then Some (after (Active token None) r) else None.

Definition active_step (token : option string) (owed : option (string * bool)) (e : event) :
    option phase :=
  match e with
  | EvCtx r => Some (after (Active token owed) r)
  | EvNow _ => Some (Active token owed)
  | EvLoad (Ok _) => free owed (Active token None)
  | EvLoad (Err _) => free owed Failed
  | EvUp id r => free owed (after (Active token (Some (id, true))) r)
  | EvDown id r => free owed (after (Active token (Some (id, false))) r)
  | EvSave st r => checkpoint token owed st None r
  | EvSaveFenced st under r => checkpoint token owed st (Some under) r
  | EvUnlock _ => free owed Released
  | EvLock _ | EvLease _ => None
  end.

Definition protocol (ctx : context) (p : phase) (e : event) : option phase :=
  match p, e with
  | Idle, EvLock (Ok true) => Some (Active (FenceTokenFromContext ctx) None)
  | Idle, EvLock _ | Idle, EvLease (Err _) => Some Released
  | Idle, EvLease (Ok l) =>
      if negb (LeaseHasUnlock l) then Some Released
      else if negb (LeaseHasContext l) || String.eqb (trim_space (FenceToken l)) EmptyString
           then Some Failed
           else Some (Active (Some (trim_space (FenceToken l))) None)
  | Active token owed, _ => active_step token owed e
  | Failed, EvUnlock _ => Some Released
  | _, _ => None
  end.

(** The store can take a checkpoint under the token in force. *)
Definition savable (rn : Runner) (token : option string) : Prop :=
  match token with
  | Some _ => Fenced (store rn) = true
  | None => fencing_required (store rn) = false
  end.

(** ** Every operation follows it *)

Section protocol_proofs.
Context (w : world) (rn : Runner) (ctx0 : context).
#[local] Abbreviation TRI := (triple (protocol ctx0)).

Definition at_ (token : option string) (owed : option (string * bool)) (p : phase) : Prop :=
  p = Active token owed.

(** Success leaves nothing owed; an error may also come before any call
    failed. *)
Definition strict {A} (token : option string) (owed : option (string * bool))
    (r : result merr A) (p : phase) : Prop :=
  match r with Ok _ => p = Active token owed | Err _ => p = Failed end.

Definition loose {A} (token : option string) (r : result merr A) (p : phase) : Prop :=
  match r with
  | Ok _ => p = Active token None
  | Err _ => p = Failed \/ p = Active token None
  end.

Lemma strict_loose {A} token (r : result merr A) p : strict token None r p -> loose token r p.
Proof. destruct r; simpl; auto. Qed.

Lemma loose_err {A B} token e p : loose token (Err e : result merr A) p ->
  loose token (Err e : result merr B) p.
Proof. done. Qed.

Lemma check_triple token owed :
  TRI (at_ token owed) (checkExecutionContext w) (strict token owed).
Proof.
  eapply triple_call_bind. intros r. exists (fun p => p = after (Active token owed) r). split.
  - monitor_step.
  - apply triple_ret'. intros p ->. by destruct r.
Qed.

Lemma load_triple token : TRI (at_ token None) (loadState w) (loose token).
Proof.
  eapply triple_bind_ok; [apply check_triple| |].
  2: { intros e p ->. by left. }
  intros []. eapply triple_call_bind. intros r.
  exists (fun p => p = if is_ok r then Active token None else Failed). split.
  - destruct r; monitor_step.
  - apply triple_ret'. intros p ->. destruct r as [st|]; simpl; [|by left].
    destruct (normalize st); simpl; auto.
Qed.

Lemma save_triple ctx owed st :
  savable rn (FenceTokenFromContext ctx) -> settles owed st = true ->
  TRI (at_ (FenceTokenFromContext ctx) owed) (saveState w rn ctx st)
      (strict (FenceTokenFromContext ctx) None).
Proof.
  intros Hs Ho. eapply triple_bind_ok; [apply check_triple| |done].
  intros []. destruct (FenceTokenFromContext ctx) as [token|]; simpl in Hs; rewrite Hs;
    eapply triple_call_bind; intros r.
  - exists (fun p => p = after (Active (Some token) None) r). split.
    + intros p ->. simpl. unfold checkpoint. rewrite bool_decide_true, Ho by done. eauto.
    + apply triple_ret'. intros p ->. by destruct r.
  - exists (fun p => p = after (Active None None) r). split.
    + intros p ->. simpl. unfold checkpoint. rewrite bool_decide_true, Ho by done. eauto.
    + apply triple_ret'. intros p ->. by destruct r.
Qed.

(** A checkpoint whose error is wrapped and whose success goes on. *)
Lemma save_then_triple {A} ctx owed st (wrap : merr -> merr) (k : op A) :
  savable rn (FenceTokenFromContext ctx) -> settles owed st = true ->
  TRI (at_ (FenceTokenFromContext ctx) None) k (loose (FenceTokenFromContext ctx)) ->
  TRI (at_ (FenceTokenFromContext ctx) owed)
    (let! s := saveState w rn ctx st in
     match s with Err e => tret (Err (wrap e)) | Ok _ => k end)
    (loose (FenceTokenFromContext ctx)).
Proof.
  intros Hs Ho Hk. eapply triple_bind; [by apply save_triple|].
  intros [[]|e]; [exact Hk|]. apply triple_ret'. intros p ->. by left.
Qed.

Lemma settles_applied m now st : settles (Some (MID m, true)) (mark_applied m now st) = true.
Proof. unfold settles, timestamp_of. simpl. by rewrite lookup_insert_eq. Qed.

Lemma timestamp_reverted m st : timestamp_of (mark_reverted rn m st) (MID m) = None.
Proof.
  unfold mark_reverted. destruct (latestApplied _ _). unfold timestamp_of. simpl.
  by rewrite lookup_insert_eq.
Qed.

Lemma settles_reverted m st : settles (Some (MID m, false)) (mark_reverted rn m st) = true.
Proof. unfold settles. by rewrite timestamp_reverted. Qed.

Lemma now_triple {A} token owed (k : Z -> op A) Q :
  (forall now, TRI (at_ token owed) (k now) Q) ->
  TRI (at_ token owed) (let! now := call (w_now w) EvNow in k now) Q.
Proof.
  intros Hk. eapply triple_call_bind. intros now. exists (at_ token owed). split; [|apply Hk].
  monitor_step.
Qed.

Section with_token.
Context (ctx : context).
#[local] Abbreviation tok := (FenceTokenFromContext ctx).
Context (Hs : savable rn tok).

Lemma backfill_triple st : TRI (at_ tok None) (backfillChecksums w rn ctx st) (loose tok).
Proof.
  unfold backfillChecksums. destruct (foldl _ _ _) as [st' []].
  - eapply triple_bind; [by apply save_triple|]. intros [[]|e]; apply triple_ret'; intros p ->;
      [done|by left].
  - by apply triple_ret'.
Qed.

Lemma apply_one_triple m st : TRI (at_ tok None) (apply_one w rn ctx m st) (loose tok).
Proof.
  eapply triple_bind_ok; [apply check_triple| |by intros e p ->; left].
  intros []. eapply triple_call_bind. intros r.
  exists (fun p => p = after (Active tok (Some (MID m, true))) r). split.
  { monitor_step. }
  destruct r as [e|]; [apply triple_ret'; intros p ->; by left|].
  eapply triple_bind; [apply check_triple|].
  intros [[]|e]; [|apply triple_ret'; intros p ->; by left].
  apply now_triple. intros now. eapply triple_bind.
  { apply save_triple; [done|]. apply settles_applied. }
  intros [[]|e]; apply triple_ret'; intros p ->; [done|by left].
Qed.

Lemma apply_pending_triple ms st : TRI (at_ tok None) (apply_pending w rn ctx ms st) (loose tok).
Proof.
  revert st. induction ms as [|m ms IH]; intros st; simpl; [by apply triple_ret'|].
  destruct (timestamp_of st (MID m)); [apply IH|].
  eapply triple_bind_ok; [apply apply_one_triple|intros st'; apply IH|done].
Qed.

Lemma skip_before_triple ms st : TRI (at_ tok None) (skip_before w rn ctx ms st) (loose tok).
Proof.
  revert st. induction ms as [|m ms IH]; intros st; simpl; [by apply triple_ret'|].
  destruct (timestamp_of st (MID m)); [apply IH|].
  apply now_triple. intros now. by apply save_then_triple.
Qed.

Lemma down_one_triple m :
  TRI (at_ tok None) (down_one w m) (strict tok (Some (MID m, false))).
Proof.
  eapply triple_bind_ok; [apply check_triple| |done].
  intros []. eapply triple_call_bind. intros r.
  exists (fun p => p = after (Active tok (Some (MID m, false))) r). split.
  { monitor_step. }
  destruct r as [e|]; [by apply triple_ret'|].
  eapply triple_bind; [apply check_triple|]. intros [[]|e]; by apply triple_ret'.
Qed.

Lemma revert_applied_triple ms st :
  TRI (at_ tok None) (revert_applied w rn ctx ms st) (loose tok).
Proof.
  revert st. induction ms as [|m ms IH]; intros st; simpl; [by apply triple_ret'|].
  destruct (timestamp_of st (MID m)); [|apply IH].
  set (owed := if is_skipped st m then None else Some (MID m, false)).
  eapply (triple_bind_ok _ _ _ (strict tok owed)).
  - subst owed. destruct (is_skipped st m); [by apply triple_ret'|apply down_one_triple].
  - intros []. apply save_then_triple; [done| |apply IH].
    subst owed. destruct (is_skipped st m); [done|apply settles_reverted].
  - intros e p ->. by left.
Qed.

Lemma lift_triple {A} (r : result merr unit) (k : unit -> op A) :
  (forall u, TRI (at_ tok None) (k u) (loose tok)) ->
  TRI (at_ tok None) (try! u := lift r in k u) (loose tok).
Proof.
  intros Hk. eapply (triple_bind_ok _ _ _ (fun _ p => p = Active tok None)).
  - by apply triple_ret'.
  - apply Hk.
  - by right.
Qed.

Lemma loaded_triple {A} (k : State -> op A) :
  (forall st, TRI (at_ tok None) (k st) (loose tok)) ->
  TRI (at_ tok None)
    (try! st := loadState w in try! _ := lift (validateState rn st) in k st) (loose tok).
Proof.
  intros Hk. eapply triple_bind_ok; [apply load_triple| |done].
  intros st. apply lift_triple. intros _. apply Hk.
Qed.

Lemma err_triple {A} e : TRI (at_ tok None) (tret (Err e : result merr A)) (loose tok).
Proof. apply triple_ret'. intros p ->. by right. Qed.

Lemma run_triple options : TRI (at_ tok None) (run_operation w rn options ctx) (loose tok).
Proof.
  apply loaded_triple. intros st. destruct (resolveRunRange rn options) as [[from to]|e];
    [|apply err_triple].
  eapply triple_bind_ok; [apply backfill_triple|intros st1|done].
  eapply triple_bind_ok; [apply apply_pending_triple|intros st2|done].
  eapply triple_bind_ok; [apply skip_before_triple|intros st3|done].
  by apply triple_ret'.
Qed.

Lemma revert_state_triple st to : TRI (at_ tok None) (revertState w rn ctx st to) (loose tok).
Proof.
  apply lift_triple. intros _.
  eapply triple_bind_ok; [apply revert_applied_triple|intros st'|done].
  by apply triple_ret'.
Qed.

Lemma revert_triple target : TRI (at_ tok None) (revert_operation w rn target ctx) (loose tok).
Proof.
  apply loaded_triple. intros st. destruct (resolveTarget rn target true);
    [apply revert_state_triple|apply err_triple].
Qed.

Lemma revert_one_triple : TRI (at_ tok None) (revert_one_operation w rn ctx) (loose tok).
Proof.
  apply loaded_triple. intros st. destruct (find_last_index _ _);
    [apply revert_state_triple|by apply triple_ret'].
Qed.
End with_token.

Lemma unlock_triple token (m : op (list Status)) :
  TRI (at_ token None) m (loose token) ->
  TRI (at_ token None) (locked w m) (fun _ p => p = Released).
Proof.
  intros Hm. eapply triple_bind; [exact Hm|]. intros r.
  eapply triple_call_bind. intros u. exists (fun p => p = Released).
  split; [|by apply triple_ret']. intros p Hp. exists Released. split; [|done].
  destruct r; simpl in Hp; [by subst|]. by destruct Hp as [->| ->].
Qed.

Lemma abandon_triple e : TRI (fun p => p = Failed) (abandon_lease w e) (fun _ p => p = Released).
Proof.
  eapply triple_call_bind. intros u. exists (fun p => p = Released).
  split; [|by apply triple_ret']. monitor_step.
Qed.

Lemma FenceToken_nonempty s : String.eqb s EmptyString = false -> FenceTokenFromContext s = Some s.
Proof. unfold FenceTokenFromContext. by intros ->. Qed.

Lemma withLock_triple (operation : context -> op (list Status)) :
  runner_wf rn ->
  (leaseBased rn = false -> savable rn (FenceTokenFromContext ctx0)) ->
  (forall ctx, savable rn (FenceTokenFromContext ctx) ->
     TRI (at_ (FenceTokenFromContext ctx) None) (operation ctx) (loose (FenceTokenFromContext ctx))) ->
  TRI (fun p => p = Idle) (withLock w rn ctx0 operation) (fun _ p => p = Released).
Proof.
  intros Hwf Hplain Hop. unfold withLock. destruct (leaseBased rn) eqn:El.
  - pose proof (wf_lease _ Hwf El) as Hf. eapply triple_call_bind. intros [l|e].
    2: { exists (fun p => p = Released). split; [monitor_step|by apply triple_ret']. }
    exists (fun p => protocol ctx0 Idle (EvLease (Ok l)) = Some p). split.
    { intros p ->. simpl. repeat case_match; eexists; done. }
    simpl. destruct (LeaseHasUnlock l); simpl; [|apply triple_ret'; naive_solver].
    destruct (LeaseHasContext l); simpl;
      [|eapply triple_conseq; [|apply abandon_triple|done]; naive_solver].
    destruct (String.eqb (trim_space (FenceToken l)) EmptyString) eqn:Et; simpl;
      [eapply triple_conseq; [|apply abandon_triple|done]; naive_solver|].
    rewrite Hf. simpl. apply FenceToken_nonempty in Et.
    eapply triple_conseq; [|apply unlock_triple, Hop|done].
    + intros p [= <-]. by rewrite Et.
    + by rewrite Et.
  - eapply triple_call_bind. intros r. 
    exists (fun p => protocol ctx0 Idle (EvLock r) = Some p). split.
    { intros p ->. simpl. repeat case_match; eexists; done. }
    destruct r as [[]|]; [|apply triple_ret'; naive_solver..].
    eapply triple_conseq; [|apply unlock_triple, Hop; auto|done]. intros p [= <-]. done.
Qed.
End protocol_proofs.

(** ** The public operations *)

Inductive command :=
| CRun (options : RunOptions)
| CRevert (target : string)
| CRevertOne.

Definition exec (w : world) (rn : Runner) (ctx : context) (c : command) : op (list Status) :=
  match c with
  | CRun options => Run w rn ctx options
  | CRevert target => Revert w rn ctx target
  | CRevertOne => RevertOne w rn ctx
  end.

Lemma exec_accepted w rn ctx c h t r :
  runner_wf rn -> (leaseBased rn = false -> savable rn (FenceTokenFromContext ctx)) ->
  exec w rn ctx c h = (t, r) ->
  t = [] \/ run_monitor (protocol ctx) Idle t = Some Released.
Proof.
  intros Hwf Hp. assert (forall operation,
    (forall c', savable rn (FenceTokenFromContext c') ->
       triple (protocol ctx) (at_ (FenceTokenFromContext c') None) (operation c')
         (loose (FenceTokenFromContext c'))) ->
    withLock w rn ctx operation h = (t, r) ->
    run_monitor (protocol ctx) Idle t = Some Released) as Hlock.
  { intros operation Hop E.
    destruct (withLock_triple w rn ctx operation Hwf Hp Hop h t r Idle eq_refl E)
      as (p & -> & ->). done. }
  destruct c; simpl.
  - intros E. right. eapply Hlock; [|exact E]. intros c' Hs. by apply run_triple.
  - unfold Revert. destruct (String.eqb _ _).
    + intros [= <- <-]. by left.
    + intros E. right. eapply Hlock; [|exact E]. intros c' Hs. by apply revert_triple.
  - intros E. right. eapply Hlock; [|exact E]. intros c' Hs. by apply revert_one_triple.
Qed.

Lemma NewRunner_savable ms s l rn :
  NewRunner ms s l = Ok rn -> leaseBased rn = false ->
  savable rn (FenceTokenFromContext EmptyString).
Proof.
  intros Hwf%NewRunner_wf El. simpl. destruct (fencing_required (store rn)) eqn:E; [|done].
  by rewrite (wf_required _ Hwf E) in El.
Qed.

(** C1: Refinement: every trace of Run, Revert and RevertOne of a runner built
    by NewRunner is accepted by the checkpoint protocol, whatever the store,
    the lock, the context, the clock and the migrations answer: one lock
    acquisition, every successful Up or Down settled by a checkpoint that
    records it before anything else runs, fenced writes under a lease, nothing
    but the release after a failure, and a release at the end. *)
Theorem exec_follows_protocol ms s l rn w c h t r :
  NewRunner ms s l = Ok rn -> exec w rn EmptyString c h = (t, r) ->
  t = [] \/ run_monitor (protocol EmptyString) Idle t = Some Released.
Proof.
  intros Hn. apply exec_accepted; [by eapply NewRunner_wf|by eapply NewRunner_savable].
Qed.

(** ** What an accepted trace cannot do *)

Definition is_unlock (e : event) : bool := match e with EvUnlock _ => true | _ => false end.

Lemma run_monitor_split ctx p t1 e t2 q :
  run_monitor (protocol ctx) p (t1 ++ e :: t2) = Some q ->
  exists p1 p2, run_monitor (protocol ctx) p t1 = Some p1 /\ protocol ctx p1 e = Some p2 /\
    run_monitor (protocol ctx) p2 t2 = Some q.
Proof.
  revert p. induction t1 as [|e1 t1 IH]; intros p; cbn [run_monitor app].
  - destruct (protocol ctx p e) eqn:E; [|done]. eauto 10.
  - destruct (protocol ctx p e1) as [p'|] eqn:E; [|done]. intros H.
    destruct (IH _ H) as (p1 & p2 & ? & ? & ?). by exists p1, p2.
Qed.

Lemma failed_only_unlocks ctx t q :
  run_monitor (protocol ctx) Failed t = Some q -> Forall (fun e => is_unlock e = true) t.
Proof.
  destruct t as [|e t]; [done|]. simpl. destruct e; try done.
  destruct t as [|e' t]; [by repeat constructor|]. done.
Qed.

(** Once the execution context has ended (a lost lease, a cancelled
    caller), a Run, Revert or RevertOne runs no migration and writes no state:
    only the lock is released. *)
Theorem no_action_after_context_end ms s l rn w c h t r t1 e t2 :
  NewRunner ms s l = Ok rn -> exec w rn EmptyString c h = (t, r) ->
  t = t1 ++ EvCtx (Some e) :: t2 ->
  Forall (fun ev => is_unlock ev = true) t2.
Proof.
  intros Hn E ->. destruct (exec_accepted _ _ _ _ _ _ _ (NewRunner_wf _ _ _ _ Hn)
    (NewRunner_savable _ _ _ _ Hn) E) as [Ht|Ht]; [by destruct t1|].
  apply run_monitor_split in Ht as (p1 & p2 & _ & Hs & Ht).
  destruct p1; simpl in Hs; try done. simplify_eq. by eapply failed_only_unlocks.
Qed.

(** A successful write of a state that satisfies [P]. *)
Definition saved (P : State -> Prop) (e : event) : Prop :=
  match e with
  | EvSave st None | EvSaveFenced st _ None => P st
  | _ => False
  end.

(** While something is owed, the next Up waits for its checkpoint. *)
Lemma owed_until_saved ctx token id b t e t' q :
  run_monitor (protocol ctx) (Active token (Some (id, b))) (t ++ e :: t') = Some q ->
  (forall id' r, e = EvUp id' r \/ e = EvDown id' r ->
   Exists (saved (fun st => bool_decide (is_Some (timestamp_of st id)) = b)) t).
Proof.
  revert e t'. induction t as [|e0 t IH]; intros e t' H id' r He.
  - simpl in H. by destruct He as [->| ->].
  - simpl in H. destruct (active_step token (Some (id, b)) e0) as [p|] eqn:E; [|done].
    assert (p = Active token (Some (id, b)) \/ p = Failed \/
            (saved (fun st => bool_decide (is_Some (timestamp_of st id)) = b) e0)) as Hp.
    { destruct e0; simpl in E; unfold checkpoint in E; repeat case_match; simplify_eq;
        try (destruct r1 || destruct r0); simpl; auto;
        match goal with H : _ && _ = true |- _ =>
          apply andb_true_iff in H as [_ H]; simpl in H; apply Bool.eqb_prop in H; auto end. }
    destruct Hp as [->|[->|Hp]]; [|exfalso|by apply Exists_cons_hd].
    + apply Exists_cons_tl. by eapply IH.
    + apply failed_only_unlocks in H. rewrite Forall_app, Forall_cons in H.
      destruct H as (_ & H & _). by destruct He as [->| ->].
Qed.

(** Between a migration that ran and any later one there is a successful
    write of a state that records the first as applied, so a crash can lose the
    record of at most the last migration that ran. *)
Theorem checkpoint_before_next ms s l rn w c h t r t1 id t2 id' r' t3 :
  NewRunner ms s l = Ok rn -> exec w rn EmptyString c h = (t, r) ->
  t = t1 ++ EvUp id None :: t2 ++ EvUp id' r' :: t3 ->
  Exists (saved (fun st => is_Some (timestamp_of st id))) t2.
Proof.
  intros Hn E ->. destruct (exec_accepted _ _ _ _ _ _ _ (NewRunner_wf _ _ _ _ Hn)
    (NewRunner_savable _ _ _ _ Hn) E) as [Ht|Ht]; [by destruct t1|].
  apply run_monitor_split in Ht as (p1 & p2 & _ & Hs & Ht).
  destruct p1 as [|token owed| |]; try done. simpl in Hs.
  destruct owed; [done|]. simplify_eq/=.
  assert (Hx := owed_until_saved _ _ _ _ _ _ _ _ Ht id' r' (or_introl eq_refl)).
  eapply Exists_impl; [exact Hx|]. intros e. destruct e; simpl; try done; destruct r0; try done;
    by rewrite bool_decide_eq_true.
Qed.
