(* ===== verification/MigrationRun.v ===== *)
(** * package migration: what Run and Revert do

    The effect of a successful Run and Revert on the durable state, the
    migrations they execute, and the drift invariant of what they write. *)

From S2P Require Import Prelude.
From S2P Require Import GoStrings.
From S2P Require Import MigrationID.
From S2P Require Import Migration.
From S2P Require Import MigrationProofs.

(** ** Recording a trace *)

(** The Up and Down calls of a trace in order, the last state written and the
    state the store returned. *)
Record record := MkRecord {
  ups : list string; downs : list string; last_saved : option State; loaded : option State
}.

Definition add_up (id : string) (rec : record) : record :=
  MkRecord (ups rec ++ [id]) (downs rec) (last_saved rec) (loaded rec).
Definition add_down (id : string) (rec : record) : record :=
  MkRecord (ups rec) (downs rec ++ [id]) (last_saved rec) (loaded rec).
Definition set_saved (st : State) (rec : record) : record :=
  MkRecord (ups rec) (downs rec) (Some st) (loaded rec).
Definition set_loaded (st : State) (rec : record) : record :=
  MkRecord (ups rec) (downs rec) (last_saved rec) (Some st).

Definition note (rec : record) (e : event) : record :=
  match e with
  | EvUp id _ => add_up id rec
  | EvDown id _ => add_down id rec
  | EvSave st None | EvSaveFenced st _ None => set_saved st rec
  | EvLoad (Ok st) => set_loaded st rec
  | _ => rec
  end.

Definition recorder (rec : record) (e : event) : option record := Some (note rec e).

Definition blank : record := MkRecord [] [] None None.
Definition recorded (t : list event) : record := foldl note blank t.

Lemma recorder_run rec t : run_monitor recorder rec t = Some (foldl note rec t).
Proof. revert rec. induction t as [|e t IH]; intros rec; simpl; auto. Qed.

(** ** Loops *)

Definition pending (st : State) (ms : list Migration) : list Migration :=
  filter (fun m => timestamp_of st (MID m) = None) ms.

Definition applied (st : State) (m : Migration) : Prop := is_Some (timestamp_of st (MID m)).

(** [st'] is [st] with some migrations of [ms] newly applied. *)
Definition grows (ms : list Migration) (st st' : State) : Prop :=
  Forall (applied st') ms /\
  (forall id, is_Some (timestamp_of st id) -> timestamp_of st' id = timestamp_of st id) /\
  (forall id, id ∉ (MID <$> ms) -> timestamp_of st' id = timestamp_of st id).

Lemma pending_nil st ms : (forall m, m ∈ ms -> applied st m) -> pending st ms = [].
Proof.
  induction ms as [|m ms IH]; intros H; [done|]. unfold pending in *.
  rewrite filter_cons, decide_False.
  - apply IH. intros m' Hm'. apply H. by right.
  - destruct (H m) as [t Ht]; [by left|]. by rewrite Ht.
Qed.

Lemma timestamp_mark_applied m now st id :
  timestamp_of (mark_applied m now st) id =
  if decide (MID m = id) then Some now else timestamp_of st id.
Proof.
  unfold timestamp_of. simpl. case_decide as E.
  - rewrite E. by rewrite lookup_insert_eq.
  - by rewrite lookup_insert_ne.
Qed.

Lemma timestamp_mark_skipped m now st id :
  timestamp_of (mark_skipped m now st) id =
  if decide (MID m = id) then Some now else timestamp_of st id.
Proof.
  unfold timestamp_of. simpl. case_decide as E.
  - rewrite E. by rewrite lookup_insert_eq.
  - by rewrite lookup_insert_ne.
Qed.

Lemma pending_after m now st ms st1 :
  (forall id, timestamp_of st1 id = if decide (MID m = id) then Some now else timestamp_of st id) ->
  MID m ∉ (MID <$> ms) -> pending st1 ms = pending st ms.
Proof.
  intros H1. induction ms as [|m' ms IH]; [done|]. simpl. intros Hn.
  apply not_elem_of_cons in Hn as [Hne Hn]. unfold pending in *. rewrite !filter_cons, IH by done.
  assert (timestamp_of st1 (MID m') = timestamp_of st (MID m')) as E
    by (by rewrite H1, decide_False by done).
  repeat case_decide; congruence.
Qed.

Lemma grows_step m now st st1 st' ms :
  (forall id, timestamp_of st1 id = if decide (MID m = id) then Some now else timestamp_of st id) ->
  timestamp_of st (MID m) = None -> MID m ∉ (MID <$> ms) ->
  grows ms st1 st' -> grows (m :: ms) st st'.
Proof.
  intros H1 Hm Hnin (Ha & Hk & Ho). split_and!.
  - constructor; [|done]. unfold applied. rewrite Ho, H1, decide_True by done. by eexists.
  - intros id Hid. rewrite Hk; rewrite H1; destruct (decide (MID m = id)) as [<-|]; try done;
      by rewrite Hm in Hid; destruct Hid.
  - intros id Hid. simpl in Hid. apply not_elem_of_cons in Hid as [Hne Hid].
    by rewrite Ho, H1, decide_False by done.
Qed.

Lemma grows_skip m st st' ms :
  applied st m -> grows ms st st' -> grows (m :: ms) st st'.
Proof.
  intros Hm (Ha & Hk & Ho). split_and!; [|done|].
  - constructor; [|done]. unfold applied in *. by rewrite Hk.
  - intros id Hid. simpl in Hid. apply not_elem_of_cons in Hid as [_ Hid]. by apply Ho.
Qed.

Lemma grows_nil st : grows [] st st.
Proof. split_and!; [constructor|done|done]. Qed.

Section run.
Context (w : world) (rn : Runner).
#[local] Abbreviation REC := (triple recorder).

(** The record after a phase that made the calls [u] and [d] and took the
    state from [st] to [st']: the last write, if any, is [st']. *)
Definition moved (rec : record) (u d : list string) (st st' : State) (rec' : record) : Prop :=
  ups rec' = ups rec ++ u /\ downs rec' = downs rec ++ d /\ loaded rec' = loaded rec /\
  (last_saved rec' = Some st' \/ last_saved rec' = last_saved rec /\ st' = st).

Lemma moved_refl rec st : moved rec [] [] st st rec.
Proof. unfold moved. rewrite !app_nil_r. split_and!; auto. Qed.

Lemma moved_trans rec u1 d1 st st1 rec1 u2 d2 st2 rec2 :
  moved rec u1 d1 st st1 rec1 -> moved rec1 u2 d2 st1 st2 rec2 ->
  moved rec (u1 ++ u2) (d1 ++ d2) st st2 rec2.
Proof.
  intros (Hu1 & Hd1 & Hl1 & H1) (Hu2 & Hd2 & Hl2 & H2). unfold moved.
  rewrite Hu2, Hu1, Hd2, Hd1, Hl2, Hl1, <- !app_assoc.
  split_and!; [done..|]. destruct H2 as [?|[-> ->]]; auto.
Qed.

Lemma moved_saved rec st st1 : moved rec [] [] st st1 (set_saved st1 rec).
Proof. unfold moved. simpl. rewrite !app_nil_r. split_and!; auto. Qed.

Lemma moved_up rec id st st1 : moved rec [id] [] st st1 (set_saved st1 (add_up id rec)).
Proof. unfold moved. simpl. rewrite !app_nil_r. split_and!; auto. Qed.

Lemma moved_down rec id st st1 : moved rec [] [id] st st1 (set_saved st1 (add_down id rec)).
Proof. unfold moved. simpl. rewrite !app_nil_r. split_and!; auto. Qed.

Definition is_rec (rec : record) (rec' : record) : Prop := rec' = rec.

Lemma check_rec rec : REC (is_rec rec) (checkExecutionContext w) (fun _ => is_rec rec).
Proof.
  eapply triple_call_bind. intros r. exists (is_rec rec). split; [monitor_step|].
  by apply triple_ret'.
Qed.

Lemma save_rec ctx rec st :
  REC (is_rec rec) (saveState w rn ctx st)
    (fun r rec' => r = Ok tt -> rec' = set_saved st rec).
Proof.
  eapply triple_bind_ok; [apply check_rec| |done].
  intros []. destruct (FenceTokenFromContext ctx); case_match; try by apply triple_ret'.
  all: eapply triple_call_bind; intros r.
  all: exists (fun rec' => r = None -> rec' = set_saved st rec); split.
  all: try (intros p ->; eexists; split; [reflexivity|by intros ->]).
  all: apply triple_ret'; intros p Hp; destruct r; [done|auto].
Qed.

Lemma now_rec {A} rec (k : Z -> op A) Q :
  (forall now, REC (is_rec rec) (k now) Q) ->
  REC (is_rec rec) (let! now := call (w_now w) EvNow in k now) Q.
Proof.
  intros Hk. eapply triple_call_bind. intros now. exists (is_rec rec).
  split; [monitor_step|apply Hk].
Qed.

Lemma apply_one_rec ctx rec m st :
  REC (is_rec rec) (apply_one w rn ctx m st)
    (fun r rec' => forall st', r = Ok st' -> exists now, st' = mark_applied m now st /\
       rec' = set_saved st' (add_up (MID m) rec)).
Proof.
  eapply triple_bind_ok; [apply check_rec| |done].
  intros []. eapply triple_call_bind. intros r.
  exists (is_rec (add_up (MID m) rec)).
  split; [monitor_step|]. destruct r; [by apply triple_ret'|].
  eapply triple_bind; [apply check_rec|]. intros [[]|e]; [|by apply triple_ret'].
  apply now_rec. intros now. eapply triple_bind; [apply save_rec|]. simpl.
  intros [[]|e]; [|by apply triple_ret'].
  apply triple_ret'. intros p Hp st' [= <-]. exists now. split; [done|]. by apply Hp.
Qed.

Lemma apply_pending_rec ctx ms rec st :
  NoDup (MID <$> ms) ->
  REC (is_rec rec) (apply_pending w rn ctx ms st)
    (fun r rec' => forall st', r = Ok st' ->
       moved rec (MID <$> pending st ms) [] st st' rec' /\ grows ms st st').
Proof.
  revert rec st. induction ms as [|m ms IH]; intros rec st Hn; simpl.
  { apply triple_ret'. intros p -> st' [= <-]. split; [apply moved_refl|apply grows_nil]. }
  simpl in Hn. apply NoDup_cons in Hn as [Hm Hn].
  unfold pending. rewrite filter_cons. fold (pending st ms).
  destruct (timestamp_of st (MID m)) as [ts|] eqn:Et.
  - rewrite decide_False by done. eapply triple_conseq; [done|by apply IH|]. simpl.
    intros r p H st' Hr. destruct (H st' Hr). split; [done|].
    apply grows_skip; [|done]. unfold applied. by rewrite Et.
  - rewrite decide_True by done. simpl.
    eapply triple_bind_ok; [apply apply_one_rec| |done].
    intros st1 h t r p Hp E. destruct (Hp st1 eq_refl) as (now & -> & ->).
    set (rec1 := set_saved _ _). destruct (IH rec1 _ Hn _ _ _ rec1 eq_refl E) as (p' & Hp' & HQ).
    exists p'. split; [done|].
    intros st' Hr. destruct (HQ st' Hr) as [Hm' Hg]. split.
    + rewrite (pending_after m now st) in Hm' by (done || apply timestamp_mark_applied).
      exact (moved_trans _ _ _ _ _ _ _ _ _ _ (moved_up _ _ st _) Hm').
    + eapply grows_step; [apply timestamp_mark_applied|done..].
Qed.
Lemma skip_before_rec ctx ms rec st :
  NoDup (MID <$> ms) ->
  REC (is_rec rec) (skip_before w rn ctx ms st)
    (fun r rec' => forall st', r = Ok st' -> moved rec [] [] st st' rec' /\ grows ms st st').
Proof.
  revert rec st. induction ms as [|m ms IH]; intros rec st Hn; simpl.
  { apply triple_ret'. intros p -> st' [= <-]. split; [apply moved_refl|apply grows_nil]. }
  simpl in Hn. apply NoDup_cons in Hn as [Hm Hn].
  destruct (timestamp_of st (MID m)) as [ts|] eqn:Et.
  - eapply triple_post; [by apply IH|]. simpl. intros r p H st' Hr. destruct (H st' Hr).
    split; [done|]. apply grows_skip; [|done]. unfold applied. by rewrite Et.
  - apply now_rec. intros now. eapply triple_bind; [apply save_rec|].
    intros [[]|e]; [|by apply triple_ret'].
    intros h t r p Hp E. rewrite (Hp eq_refl) in *. clear Hp.
    set (st1 := mark_skipped m now st) in *. set (rec1 := set_saved st1 rec).
    destruct (IH rec1 st1 Hn _ _ _ rec1 eq_refl E) as (p' & Hp' & HQ).
    exists p'. split; [done|]. intros st' Hr. destruct (HQ st' Hr) as [Hm' Hg]. split.
    + exact (moved_trans _ _ _ _ _ _ _ _ _ _ (moved_saved _ st _) Hm').
    + eapply grows_step; [apply timestamp_mark_skipped|done..].
Qed.

Lemma backfill_migrations ms st b :
  Migrations (foldl backfill_one (st, b) ms).1 = Migrations st /\
  SkippedMigrations (foldl backfill_one (st, b) ms).1 = SkippedMigrations st /\
  ((foldl backfill_one (st, b) ms).2 = false -> (foldl backfill_one (st, b) ms).1 = st).
Proof.
  assert (forall ms st b, (foldl backfill_one (st, b) ms).2 = false -> b = false) as Hb.
  { clear. induction ms as [|m ms IH]; intros st b; simpl; [done|].
    destruct (timestamp_of st (MID m)); [|apply IH].
    destruct (_ || _); [apply IH|]. by intros ?%IH. }
  revert st b. induction ms as [|m ms IH]; intros st b; simpl; [done|].
  destruct (timestamp_of st (MID m)) as [ts|]; [|apply IH].
  destruct (_ || _); [apply IH|].
  destruct (IH (MkState (LastRunMigration st) (LastRunTimestamp st) (Migrations st)
    (SkippedMigrations st) (<[MID m:=Checksum m]> (Checksums st))) true) as (-> & -> & _).
  split_and!; [done..|]. by intros ?%Hb.
Qed.

Lemma backfill_rec ctx rec st :
  REC (is_rec rec) (backfillChecksums w rn ctx st)
    (fun r rec' => forall st', r = Ok st' -> moved rec [] [] st st' rec' /\
       Migrations st' = Migrations st /\ SkippedMigrations st' = SkippedMigrations st).
Proof.
  unfold backfillChecksums.
  destruct (backfill_migrations (migrations rn) st false) as (Hm & Hs & Hi).
  destruct (foldl backfill_one (st, false) (migrations rn)) as [st' []]; simpl in *.
  - eapply triple_bind; [apply save_rec|]. intros [[]|e]; [|by apply triple_ret'].
    apply triple_ret'. intros p Hp st1 [= <-]. rewrite (Hp eq_refl).
    split; [apply moved_saved|done].
  - apply triple_ret'. intros p -> st1 [= <-]. rewrite Hi by done.
    split; [apply moved_refl|done].
Qed.
End run.

(** ** Run as a whole *)

Lemma NoDup_part {A} (l k : list A) : k `sublist_of` l -> NoDup l -> NoDup k.
Proof. intros Hs Hn. by eapply sublist_NoDup. Qed.

Lemma fmap_sublist {A B} (f : A -> B) (k l : list A) :
  k `sublist_of` l -> f <$> k `sublist_of` f <$> l.
Proof. induction 1; simpl; by constructor. Qed.

Lemma range_sublist rn from to : range rn from to `sublist_of` migrations rn.
Proof. unfold range. etrans; [apply sublist_take|apply sublist_drop]. Qed.

Lemma range_split rn from to :
  from <= S to -> take from (migrations rn) ++ range rn from to = take (S to) (migrations rn).
Proof. intros H. unfold range. rewrite take_take_drop. f_equal. lia. Qed.

Lemma grows_app ms1 ms2 st st1 st2 :
  grows ms1 st st1 -> grows ms2 st1 st2 -> grows (ms1 ++ ms2) st st2.
Proof.
  intros (Ha1 & Hk1 & Ho1) (Ha2 & Hk2 & Ho2). split_and!.
  - apply Forall_app. split; [|done]. eapply Forall_impl; [exact Ha1|].
    intros m Hm. unfold applied in *. by rewrite Hk2.
  - intros id Hid. rewrite Hk2 by (by rewrite Hk1). by apply Hk1.
  - intros id Hid. rewrite fmap_app, not_elem_of_app in Hid. destruct Hid.
    by rewrite Ho2, Ho1.
Qed.

Lemma grows_perm ms ms' st st' : ms ≡ₚ ms' -> grows ms st st' -> grows ms' st st'.
Proof.
  intros Hp (Ha & Hk & Ho). split_and!; [by rewrite <- Hp|done|].
  intros id Hid. apply Ho. by rewrite Hp.
Qed.

Lemma grows_ext ms st st0 st' :
  (forall id, timestamp_of st id = timestamp_of st0 id) -> grows ms st st' -> grows ms st0 st'.
Proof.
  intros He (Ha & Hk & Ho). split_and!; [done|..].
  - intros id. rewrite <- He. apply Hk.
  - intros id Hid. rewrite <- He. by apply Ho.
Qed.

Lemma pending_ext ms st st0 :
  (forall id, timestamp_of st id = timestamp_of st0 id) -> pending st ms = pending st0 ms.
Proof.
  intros He. induction ms as [|m ms IH]; [done|]. unfold pending in *. rewrite !filter_cons, IH.
  pose proof (He (MID m)). repeat case_decide; congruence.
Qed.

(** Nothing was executed and nothing was written. *)
Definition untouched (rec : record) : Prop :=
  ups rec = [] /\ downs rec = [] /\ last_saved rec = None.

(** What a successful Run did, in terms of its record. *)
Definition run_effect (rn : Runner) (options : RunOptions) (sts : list Status) (rec : record) : Prop :=
  exists raw st0 from to st',
    loaded rec = Some raw /\ normalize raw = Ok st0 /\ validateState rn st0 = Ok tt /\
    resolveRunRange rn options = Ok (from, to) /\
    ups rec = (MID <$> pending st0 (range rn from to)) /\ downs rec = [] /\
    grows (take (S to) (migrations rn)) st0 st' /\ sts = statuses rn st' /\
    default st0 (last_saved rec) = st'.

Section run_whole.
Context (w : world) (rn : Runner) (Hwf : runner_wf rn).
#[local] Abbreviation REC := (triple recorder).

Lemma load_rec :
  REC (is_rec blank) (loadState w) (fun r rec' => untouched rec' /\ forall st0, r = Ok st0 ->
    exists raw, rec' = set_loaded raw blank /\ normalize raw = Ok st0).
Proof.
  eapply triple_bind_ok; [apply check_rec| |by intros e rec ->].
  intros []. eapply triple_call_bind. intros r.
  exists (fun rec' => untouched rec' /\ forall raw, r = Ok raw -> rec' = set_loaded raw blank).
  split.
  { intros p ->. eexists. split; [reflexivity|]. split; [by destruct r|]. by intros raw ->. }
  apply triple_ret'. intros p [Hu Hp]. split; [done|]. intros st0 Hr.
  destruct r as [raw|]; [|done]. simpl in Hr.
  exists raw. split; [by apply Hp|]. by destruct (normalize raw); simplify_eq/=.
Qed.

Lemma lift_rec {A} (P : record -> Prop) (r : result merr unit) (k : unit -> op A) Q :
  (r = Ok tt -> REC P (k tt) Q) -> (forall e rec, P rec -> Q (Err e) rec) ->
  REC P (try! u := lift r in k u) Q.
Proof.
  intros Hk He. eapply (triple_bind_ok _ _ _ (fun r' p => r' = r /\ P p)).
  - by apply triple_ret'.
  - intros [] h t b p [Hr Hp]. by apply Hk.
  - intros e p [_ Hp]. auto.
Qed.

Lemma range_nodup from to : NoDup (MID <$> range rn from to).
Proof.
  eapply NoDup_part; [|apply (wf_nodup _ Hwf)]. apply fmap_sublist, range_sublist.
Qed.

Lemma take_nodup n : NoDup (MID <$> take n (migrations rn)).
Proof.
  eapply NoDup_part; [|apply (wf_nodup _ Hwf)]. apply fmap_sublist, sublist_take.
Qed.

(** The record of a phase that took the state from [st] to the one whose
    statuses it returned. *)
Definition phase_effect (rec : record) (u : list string) (ms : list Migration) (st : State)
    (r : result merr (list Status)) (rec' : record) : Prop :=
  forall sts, r = Ok sts -> exists st',
    moved rec u [] st st' rec' /\ grows ms st st' /\ sts = statuses rn st'.

Lemma skip_tail_rec ctx from rec st :
  REC (is_rec rec)
    (try! st3 := skip_before w rn ctx (take from (migrations rn)) st in
     tret (Ok (statuses rn st3)))
    (phase_effect rec [] (take from (migrations rn)) st).
Proof.
  eapply triple_bind_ok; [apply skip_before_rec, take_nodup| |done].
  intros st3. apply triple_ret'. intros rec' H sts [= <-].
  destruct (H st3 eq_refl) as [? ?]. by exists st3.
Qed.

Lemma apply_tail_rec ctx from to rec st :
  from <= to ->
  REC (is_rec rec)
    (try! st2 := apply_pending w rn ctx (range rn from to) st in
     try! st3 := skip_before w rn ctx (take from (migrations rn)) st2 in
     tret (Ok (statuses rn st3)))
    (phase_effect rec (MID <$> pending st (range rn from to)) (take (S to) (migrations rn)) st).
Proof.
  intros Hft. eapply triple_bind_ok; [apply apply_pending_rec, range_nodup| |done].
  intros st2 h t r rec2 H2 E. destruct (H2 st2 eq_refl) as (Hm2 & Hg2).
  destruct (skip_tail_rec ctx from rec2 st2 h t r rec2 eq_refl E) as (rec3 & Hr & HQ).
  exists rec3. split; [done|]. intros sts Hs. destruct (HQ sts Hs) as (st3 & Hm3 & Hg3 & ->).
  exists st3. split_and!; [| |done].
  - pose proof (moved_trans _ _ _ _ _ _ _ _ _ _ Hm2 Hm3) as Hm. by rewrite app_nil_r in Hm.
  - rewrite <- (range_split rn from to) by lia.
    eapply grows_perm; [apply Permutation_app_comm|]. by eapply grows_app.
Qed.

Lemma backfill_tail_rec ctx from to rec st :
  from <= to ->
  REC (is_rec rec)
    (try! st1 := backfillChecksums w rn ctx st in
     try! st2 := apply_pending w rn ctx (range rn from to) st1 in
     try! st3 := skip_before w rn ctx (take from (migrations rn)) st2 in
     tret (Ok (statuses rn st3)))
    (phase_effect rec (MID <$> pending st (range rn from to)) (take (S to) (migrations rn)) st).
Proof.
  intros Hft. eapply triple_bind_ok; [apply backfill_rec| |done].
  intros st1 h t r rec1 H1 E. destruct (H1 st1 eq_refl) as (Hm1 & Hmig & _).
  assert (forall id, timestamp_of st1 id = timestamp_of st id) as Hext
    by (intros id; unfold timestamp_of; by rewrite Hmig).
  destruct (apply_tail_rec ctx from to rec1 st1 Hft h t r rec1 eq_refl E) as (rec3 & Hr & HQ).
  exists rec3. split; [done|]. intros sts Hs. destruct (HQ sts Hs) as (st3 & Hm3 & Hg3 & ->).
  exists st3. split_and!; [| |done].
  - rewrite <- (pending_ext _ st1) by done. exact (moved_trans _ _ _ _ _ _ _ _ _ _ Hm1 Hm3).
  - by eapply grows_ext.
Qed.

Lemma run_rec ctx options :
  REC (is_rec blank) (run_operation w rn options ctx)
    (fun r rec => forall sts, r = Ok sts -> run_effect rn options sts rec).
Proof.
  eapply triple_bind_ok; [apply load_rec| |done].
  intros st0. apply lift_rec; [|done]. intros Hv h t r p Hp E.
  destruct (proj2 Hp st0 eq_refl) as (raw & -> & Hn).
  destruct (resolveRunRange rn options) as [[from to]|e] eqn:Er; [|by injection E as <- <-; eexists].
  destruct (resolveRunRange_bounds _ _ _ _ Hwf Er) as [Hft _].
  destruct (backfill_tail_rec ctx from to (set_loaded raw blank) st0 Hft h t r _ eq_refl E)
    as (rec & Hrec & HQ).
  exists rec. split; [done|]. intros sts Hs.
  destruct (HQ sts Hs) as (st' & (Hu & Hd & Hl & Hsv) & Hg & ->).
  exists raw, st0, from, to, st'. split_and!; try done. by destruct Hsv as [->|[-> ->]].
Qed.

(** The outcomes that come from the operation and not from the lock. *)
Definition from_operation (r : result merr (list Status)) : Prop :=
  match r with Ok _ | Err (ErrIrreversible _) => True | Err _ => False end.

Lemma withLock_inv ctx operation h t r :
  from_operation r -> withLock w rn ctx operation h = (t, r) ->
  exists c h' t', operation c h' = (t', r) /\ recorded t = recorded t'.
Proof.
  intros Hr.
  assert (forall m h t, locked w m h = (t, r) ->
    exists t', m h = (t', r) /\ t = t' ++ [EvUnlock None]) as Hlocked.
  { clear h t. intros m h t (t1 & r1 & t2 & E1 & E2 & ->)%tbind_inv.
    apply tbind_inv in E2 as (t3 & u & t4 & [-> ->]%call_inv & [-> E]%tret_inv & ->).
    destruct r1, (w_unlock w (h ++ t1)); simplify_eq; done || eauto. }
  assert (forall e0 t', note blank e0 = blank ->
    recorded (e0 :: t' ++ [EvUnlock None]) = recorded t') as Hrec.
  { intros e0 t' He0. unfold recorded. simpl. by rewrite He0, foldl_app. }
  assert (forall e (t1 t2 : list event) P, (t1, r) = (t2, Err e : result merr (list Status)) ->
    match e with ErrIrreversible _ => False | _ => True end -> P) as Hno
    by (intros e t1 t2 P [= -> ->] He; by destruct e).
  unfold withLock. destruct (leaseBased rn).
  - intros (t1 & g & t2 & [-> ->]%call_inv & E2 & ->)%tbind_inv.
    destruct (w_lease w h) as [l|e]; [|by eapply Hno; [symmetry; exact E2|]].
    repeat case_match; try (by eapply Hno; [symmetry; exact E2|]).
    1-3: apply tbind_inv in E2 as (? & u & ? & _ & [_ ->]%tret_inv & _); by destruct u.
    apply Hlocked in E2 as (t' & E & ->). do 3 eexists. split; [exact E|]. by apply Hrec.
  - intros (t1 & g & t2 & [-> ->]%call_inv & E2 & ->)%tbind_inv.
    destruct (w_lock w h) as [[]|e]; try (by eapply Hno; [symmetry; exact E2|]).
    apply Hlocked in E2 as (t' & E & ->). do 3 eexists. split; [exact E|]. by apply Hrec.
Qed.
End run_whole.

Lemma Run_recorded ms s l rn w ctx options h t sts :
  NewRunner ms s l = Ok rn -> Run w rn ctx options h = (t, Ok sts) ->
  run_effect rn options sts (recorded t).
Proof.
  intros Hwf%NewRunner_wf (c & h' & t' & E & ->)%withLock_inv; [|done].
  destruct (run_rec w rn Hwf c options h' t' _ blank eq_refl E) as (rec & Hrec & HQ).
  rewrite recorder_run in Hrec. injection Hrec as <-. by apply HQ.
Qed.

(** C2: A successful Run executes exactly the migrations of the requested range
    that the loaded state does not record, in registry order, reverts none,
    leaves every migration up to the target applied and every other one as it
    was, and the last state it wrote (or the loaded one, if it wrote none) is
    the one it reports. *)
Theorem Run_effect ms s l rn w ctx options h t sts :
  NewRunner ms s l = Ok rn -> Run w rn ctx options h = (t, Ok sts) ->
  run_effect rn options sts (recorded t).
Proof. apply Run_recorded. Qed.

(** Running again after a successful Run, on the state the first run wrote
    last, executes no migration. *)
Theorem Run_idempotent ms s l rn w1 w2 c1 c2 options h1 h2 t1 t2 s1 s2 st :
  NewRunner ms s l = Ok rn ->
  Run w1 rn c1 options h1 = (t1, Ok s1) -> last_saved (recorded t1) = Some st ->
  Run w2 rn c2 options h2 = (t2, Ok s2) -> loaded (recorded t2) = Some st ->
  ups (recorded t2) = [].
Proof.
  intros Hn H1 Hst H2 Hlo. pose proof (NewRunner_wf _ _ _ _ Hn) as Hwf.
  destruct (Run_recorded _ _ _ _ _ _ _ _ _ _ Hn H1)
    as (raw1 & st1 & from & to & st1' & _ & _ & _ & Hr1 & _ & _ & (Ha & _) & _ & Hd1).
  destruct (Run_recorded _ _ _ _ _ _ _ _ _ _ Hn H2)
    as (raw2 & st2 & from2 & to2 & st2' & Hl2 & Hn2 & _ & Hr2 & -> & _).
  rewrite Hr1 in Hr2. injection Hr2 as <- <-. rewrite Hst in Hd1. simpl in Hd1. subst st1'.
  rewrite Hlo in Hl2. injection Hl2 as <-.
  rewrite pending_nil; [done|]. intros m Hin.
  assert (m ∈ take (S to) (migrations rn)) as Hin'.
  { destruct (resolveRunRange_bounds _ _ _ _ Hwf Hr1). rewrite <- (range_split rn from to) by lia.
    apply elem_of_app. by right. }
  rewrite Forall_forall in Ha. destruct (Ha _ Hin') as [ts Hts].
  exists ts. unfold timestamp_of in *. destruct (Migrations st !! MID m) as [[ts'|]|] eqn:E; try done.
  simplify_eq. destruct (normalize_contents _ _ Hn2) as (Hk & _).
  rewrite (proj2 (Hk (MID m) (Some ts))); [done|]. exists (MID m). split; [done|].
  assert (m ∈ migrations rn) as Hmm by (eapply elem_of_take in Hin' as (i & ? & _);
    by eapply list_elem_of_lookup_2).
  apply list_elem_of_fmap in Hmm as (e & -> & He).
  pose proof (wf_entries _ Hwf) as Hw. rewrite Forall_forall in Hw.
  destruct (Hw _ He) as (Hid & Emid & _). unfold CanonicalID.
  rewrite Emid. by rewrite (ParseID_String _ Hid).
Qed.

(** ** Revert *)

Definition to_revert (st : State) (ms : list Migration) : list Migration :=
  filter (fun m => is_Some (timestamp_of st (MID m)) /\ is_skipped st m = false) ms.

(** [st'] is [st] with every migration of [ms] unapplied. *)
Definition shrinks (ms : list Migration) (st st' : State) : Prop :=
  Forall (fun m => timestamp_of st' (MID m) = None) ms /\
  (forall id, id ∉ (MID <$> ms) ->
     timestamp_of st' id = timestamp_of st id /\
     SkippedMigrations st' !! id = SkippedMigrations st !! id).

Lemma shrinks_perm ms ms' st st' : ms ≡ₚ ms' -> shrinks ms st st' -> shrinks ms' st st'.
Proof.
  intros Hp (Ha & Ho). split; [by rewrite <- Hp|]. intros id Hid. apply Ho. by rewrite Hp.
Qed.

Section revert.
Context (w : world) (rn : Runner).
#[local] Abbreviation REC := (triple recorder).

Lemma mark_reverted_other m st id :
  id <> MID m -> timestamp_of (mark_reverted rn m st) id = timestamp_of st id /\
    SkippedMigrations (mark_reverted rn m st) !! id = SkippedMigrations st !! id.
Proof.
  intros Hne. unfold mark_reverted. destruct (latestApplied _ _). unfold timestamp_of. simpl.
  by rewrite lookup_insert_ne, lookup_delete_ne.
Qed.

Lemma mark_reverted_same m st : timestamp_of (mark_reverted rn m st) (MID m) = None.
Proof.
  unfold mark_reverted. destruct (latestApplied _ _). unfold timestamp_of. simpl.
  by rewrite lookup_insert_eq.
Qed.

Lemma to_revert_after m st ms :
  MID m ∉ (MID <$> ms) -> to_revert (mark_reverted rn m st) ms = to_revert st ms.
Proof.
  induction ms as [|m' ms IH]; [done|]. simpl. intros Hn.
  apply not_elem_of_cons in Hn as [Hne Hn]. unfold to_revert in *. rewrite !filter_cons, IH by done.
  destruct (mark_reverted_other m st (MID m')) as [E1 E2]; [done|].
  unfold is_skipped in *. repeat case_decide; try done;
    rewrite E1, E2 in *; done.
Qed.

Lemma shrinks_step m st st' ms :
  MID m ∉ (MID <$> ms) -> shrinks ms (mark_reverted rn m st) st' -> shrinks (m :: ms) st st'.
Proof.
  intros Hnin (Ha & Ho). split.
  - constructor; [|done]. destruct (Ho (MID m) Hnin) as [-> _]. apply mark_reverted_same.
  - intros id Hid. simpl in Hid. apply not_elem_of_cons in Hid as [Hne Hid].
    destruct (Ho id Hid) as [-> ->]. by apply mark_reverted_other.
Qed.

Lemma shrinks_skip m st st' ms :
  timestamp_of st (MID m) = None -> MID m ∉ (MID <$> ms) -> shrinks ms st st' ->
  shrinks (m :: ms) st st'.
Proof.
  intros Hm Hnin (Ha & Ho). split.
  - constructor; [|done]. by destruct (Ho (MID m) Hnin) as [-> _].
  - intros id Hid. simpl in Hid. apply not_elem_of_cons in Hid as [_ Hid]. by apply Ho.
Qed.

Lemma down_one_rec rec m :
  REC (is_rec rec) (down_one w m) (fun r rec' => r = Ok tt -> rec' = add_down (MID m) rec).
Proof.
  eapply triple_bind_ok; [apply check_rec| |done].
  intros []. eapply triple_call_bind. intros r.
  exists (is_rec (add_down (MID m) rec)). split; [monitor_step|].
  destruct r; [by apply triple_ret'|].
  eapply triple_bind; [apply check_rec|]. intros [[]|e]; by apply triple_ret'.
Qed.

Lemma revert_applied_rec ctx ms rec st :
  NoDup (MID <$> ms) ->
  REC (is_rec rec) (revert_applied w rn ctx ms st)
    (fun r rec' => forall st', r = Ok st' ->
       moved rec [] (MID <$> to_revert st ms) st st' rec' /\ shrinks ms st st').
Proof.
  revert rec st. induction ms as [|m ms IH]; intros rec st Hn; simpl.
  { apply triple_ret'. intros p -> st' [= <-]. split; [apply moved_refl|]. split; [constructor|done]. }
  simpl in Hn. apply NoDup_cons in Hn as [Hm Hn].
  unfold to_revert. rewrite filter_cons. fold (to_revert st ms).
  destruct (timestamp_of st (MID m)) as [ts|] eqn:Et.
  - set (down := is_skipped st m).
    set (rec0 := if down then rec else add_down (MID m) rec).
    eapply (triple_bind_ok _ _ _ (fun r p => r = Ok tt -> p = rec0)); [| |done].
    { subst rec0 down. destruct (is_skipped st m); [by apply triple_ret'|apply down_one_rec]. }
    intros [] h t r p Hp E. rewrite (Hp eq_refl) in *. clear Hp. revert h t r rec0 E.
    intros h t r rec0 (t1 & a & t2 & E1 & E2 & ->)%tbind_inv.
    destruct (save_rec w rn ctx rec0 (mark_reverted rn m st) _ _ _ rec0 eq_refl E1) as (rec1 & Hr1 & HQ1).
    rewrite (run_monitor_app _ _ _ _ _ Hr1).
    destruct a as [[]|e]; [|injection E2 as <- <-; by exists rec1].
    rewrite (HQ1 eq_refl). set (rec2 := set_saved _ rec0).
    destruct (IH rec2 (mark_reverted rn m st) Hn _ _ _ rec2 eq_refl E2) as (p' & Hp' & HQ).
    exists p'. split; [done|]. intros st' Hr. destruct (HQ st' Hr) as [Hm' Hg].
    split; [|by apply shrinks_step].
    rewrite to_revert_after in Hm' by done. subst rec2 rec0 down.
    destruct (is_skipped st m) eqn:Es.
    + rewrite decide_False by naive_solver.
      exact (moved_trans _ _ _ _ _ _ _ _ _ _ (moved_saved _ st _) Hm').
    + rewrite decide_True by eauto. simpl.
      exact (moved_trans _ _ _ _ _ _ _ _ _ _ (moved_down _ _ st _) Hm').
  - rewrite decide_False by (intros [[? ?] _]; done).
    eapply triple_post; [by apply IH|]. simpl. intros r p H st' Hr. destruct (H st' Hr).
    split; [done|]. by apply shrinks_skip.
Qed.
End revert.

(** *** Revert as a whole *)

(** What a successful Revert down to index [to] did. *)
Definition revert_effect (rn : Runner) (to : nat) (sts : list Status) (rec : record) : Prop :=
  exists raw st0 st',
    loaded rec = Some raw /\ normalize raw = Ok st0 /\ validateState rn st0 = Ok tt /\
    ups rec = [] /\ downs rec = (MID <$> to_revert st0 (rev (drop to (migrations rn)))) /\
    check_reversible st0 (rev (drop to (migrations rn))) = Ok tt /\
    shrinks (drop to (migrations rn)) st0 st' /\ sts = statuses rn st' /\
    default st0 (last_saved rec) = st'.

Section revert_whole.
Context (w : world) (rn : Runner) (Hwf : runner_wf rn).
#[local] Abbreviation REC := (triple recorder).

Lemma rev_drop_nodup to : NoDup (MID <$> rev (drop to (migrations rn))).
Proof.
  rewrite <- Permutation_rev.
  eapply NoDup_part; [|apply (wf_nodup _ Hwf)]. apply fmap_sublist, sublist_drop.
Qed.

(** The second loop never reports an irreversible migration: the first did. *)
Definition reversible_err {A} (r : result merr A) : Prop :=
  match r with Err (ErrIrreversible _) => False | _ => True end.

Lemma down_one_err m h t r : down_one w m h = (t, r) -> reversible_err r.
Proof.
  intros [(e & E & ->)|(t1 & [] & t2 & _ & E & _)]%tbind_ok_inv.
  - apply tbind_inv in E as (? & c & ? & _ & E & _). apply tret_inv in E as [_ E].
    destruct c; by simplify_eq.
  - apply tbind_inv in E as (? & d & ? & _ & E & _).
    destruct d; [by injection E as <- <-|].
    apply tbind_inv in E as (? & c & ? & _ & E & _). apply tret_inv in E as [_ ->].
    by destruct c.
Qed.

Lemma revert_applied_err ctx ms st h t r :
  revert_applied w rn ctx ms st h = (t, r) -> reversible_err r.
Proof.
  revert st h t. induction ms as [|m ms IH]; intros st h t; simpl; [by intros [= <- <-]|].
  destruct (timestamp_of st (MID m)); [|apply IH].
  intros [(e & E & ->)|(t1 & [] & t2 & _ & E & _)]%tbind_ok_inv.
  - destruct (is_skipped st m); [by injection E|]. by apply down_one_err in E.
  - apply tbind_inv in E as (? & s & ? & _ & E & _).
    destruct s; [by eapply IH|by injection E as <- <-].
Qed.

Lemma revert_state_rec ctx raw st to :
  normalize raw = Ok st -> validateState rn st = Ok tt ->
  REC (is_rec (set_loaded raw blank)) (revertState w rn ctx st to)
    (fun r rec => (forall sts, r = Ok sts -> revert_effect rn to sts rec) /\
                  (forall id, r = Err (ErrIrreversible id) -> untouched rec)).
Proof.
  intros Hn Hv. unfold revertState. set (ms := rev (drop to (migrations rn))).
  destruct (check_reversible st ms) as [[]|e] eqn:Ec.
  2: { intros h t r p -> [= <- <-]. eexists. split; [reflexivity|]. split; [done|].
       by intros id _. }
  intros h t r p -> (t1 & a & t2 & E1 & E2 & ->)%tbind_inv. injection E1 as <- <-.
  apply tbind_inv in E2 as (t3 & b & t4 & E2 & E3 & ->).
  destruct (revert_applied_rec w rn ctx ms (set_loaded raw blank) st (rev_drop_nodup to)
    _ _ _ _ eq_refl E2) as (rec & Hr & HQ).
  pose proof (revert_applied_err _ _ _ _ _ _ E2) as He. exists rec.
  destruct b as [st'|e]; injection E3 as <- <-; rewrite app_nil_r; (split; [exact Hr|]).
  - split; [|done]. intros sts [= <-]. destruct (HQ st' eq_refl) as [(Hu & Hd & Hl & Hs) Hg].
    exists raw, st, st'. split_and!; try done.
    + eapply shrinks_perm; [|exact Hg]. subst ms. symmetry. apply Permutation_rev.
    + by destruct Hs as [->|[-> ->]].
  - split; [done|]. by intros id [= ->].
Qed.

Lemma revert_rec ctx target :
  REC (is_rec blank) (revert_operation w rn target ctx)
    (fun r rec =>
       (forall sts, r = Ok sts -> exists to, resolveTarget rn target true = Ok to /\
          revert_effect rn to sts rec) /\
       (forall id, r = Err (ErrIrreversible id) -> untouched rec)).
Proof.
  eapply triple_bind_ok; [apply load_rec| |].
  - intros st0. apply lift_rec; [|by intros e rec [Hu _]].
    intros Hv h t r p [Hu Hp] E. destruct (Hp st0 eq_refl) as (raw & -> & Hn).
    destruct (resolveTarget rn target true) as [to|e] eqn:Et.
    + destruct (revert_state_rec ctx raw st0 to Hn Hv h t r _ eq_refl E) as (rec & ? & Hok & He).
      exists rec. split; [done|]. split; [|done]. eauto.
    + injection E as <- <-. eexists. split; [reflexivity|]. by split.
  - by intros e rec [Hu _].
Qed.
End revert_whole.

(** A successful Revert executes the Down of exactly the applied and not
    skipped migrations from the latest down to the target, in reverse registry
    order, applies none, leaves nothing from the target on applied and
    everything before it as it was, and writes the state it reports last. *)
Theorem Revert_effect ms s l rn w ctx target h t sts :
  NewRunner ms s l = Ok rn -> Revert w rn ctx target h = (t, Ok sts) ->
  exists to, resolveTarget rn target true = Ok to /\ revert_effect rn to sts (recorded t).
Proof.
  intros Hwf%NewRunner_wf. unfold Revert. destruct (String.eqb _ _); [done|].
  intros (c & h' & t' & E & ->)%withLock_inv; [|done].
  destruct (revert_rec w rn Hwf c target h' t' _ blank eq_refl E) as (rec & Hrec & HQ & _).
  rewrite recorder_run in Hrec. injection Hrec as <-. by apply HQ.
Qed.

(** A Revert that meets an irreversible migration refuses before anything is
    done: no Down has run and nothing has been written. *)
Theorem Revert_irreversible ms s l rn w ctx target h t id :
  NewRunner ms s l = Ok rn -> Revert w rn ctx target h = (t, Err (ErrIrreversible id)) ->
  untouched (recorded t).
Proof.
  intros Hwf%NewRunner_wf. unfold Revert. destruct (String.eqb _ _); [done|].
  intros (c & h' & t' & E & ->)%withLock_inv; [|done].
  destruct (revert_rec w rn Hwf c target h' t' _ blank eq_refl E) as (rec & Hrec & _ & HQ).
  rewrite recorder_run in Hrec. injection Hrec as <-. by eapply HQ.
Qed.
