(* ===== verification/MigrationLive.v ===== *)
(** * package migration: drift and progress

    What Run, Revert and RevertOne write passes the drift validation the next
    operation starts with, and a Run whose outside calls succeed completes. *)

From S2P Require Import Prelude.
From S2P Require Import GoStrings.
From S2P Require Import MigrationID.
From S2P Require Import Migration.
From S2P Require Import MigrationProofs.
From S2P Require Import MigrationProtocol.
From S2P Require Import MigrationRun.

(** ** The drift validation as a statement about the state *)

Lemma first_error_ok {A} (f : A -> option merr) l :
  first_error f l = Ok tt <-> Forall (fun a => f a = None) l.
Proof.
  induction l as [|a l IH]; simpl; [by split|]. rewrite Forall_cons, <- IH.
  destruct (f a); naive_solver.
Qed.

Definition state_valid (rn : Runner) (st : State) : Prop :=
  (forall id, is_Some (timestamp_of st id) -> exists m, registered rn !! id = Some m /\
     (checksum_of st id = EmptyString \/ checksum_of st id = Checksum m)) /\
  (forall id, is_Some (SkippedMigrations st !! id) -> is_Some (timestamp_of st id)) /\
  (forall id, is_Some (Checksums st !! id) -> is_Some (registered rn !! id)).

Lemma timestamp_of_Some st id t : timestamp_of st id = Some t <-> Migrations st !! id = Some (Some t).
Proof. unfold timestamp_of. destruct (Migrations st !! id) as [[]|]; naive_solver. Qed.

Lemma validate_applied_ok rn st id t :
  validate_applied rn st (id, Some t) = None <->
  exists m, registered rn !! id = Some m /\
    (checksum_of st id = EmptyString \/ checksum_of st id = Checksum m).
Proof.
  unfold validate_applied. simpl. destruct (registered rn !! id) as [m|].
  2: { split; [done|]. by intros (m & ? & _). }
  split.
  - intros H. exists m. split; [done|].
    destruct (String.eqb_spec (checksum_of st id) EmptyString); [by left|].
    destruct (String.eqb_spec (checksum_of st id) (Checksum m)); [by right|done].
  - intros (m' & [= <-] & [->| ->]); [done|]. rewrite String.eqb_refl, andb_false_r. done.
Qed.

Lemma validateState_ok rn st : validateState rn st = Ok tt <-> state_valid rn st.
Proof.
  assert (validateState rn st = Ok tt <->
    first_error (validate_applied rn st) (map_to_list (Migrations st)) = Ok tt /\
    first_error (validate_skipped st) (map_to_list (SkippedMigrations st)) = Ok tt /\
    first_error (validate_checksum rn) (map_to_list (Checksums st)) = Ok tt) as ->.
  { unfold validateState.
    destruct (first_error _ (map_to_list (Migrations st))) as [[]|]; [|by split; [|intros [? _]]].
    destruct (first_error _ (map_to_list (SkippedMigrations st))) as [[]|];
      [by split; [|intros (_ & _ & ?)]|by split; [|intros (_ & ? & _)]]. }
  rewrite !first_error_ok, !Forall_forall. unfold state_valid.
  assert (forall {V} (m : gmap string V) (P : string * V -> Prop),
    (forall x, x ∈ map_to_list m -> P x) <-> (forall k v, m !! k = Some v -> P (k, v))) as Hml.
  { intros V m P. split.
    - intros H k v Hv. apply H. by apply elem_of_map_to_list.
    - intros H [k v] Hv. apply H. by apply elem_of_map_to_list in Hv. }
  rewrite !Hml. f_equiv; [|f_equiv].
  - split.
    + intros H id [t Ht]. apply (validate_applied_ok rn st id t), H. by apply timestamp_of_Some.
    + intros H id [t|] Hid; [|done]. apply validate_applied_ok, H.
      exists t. by apply timestamp_of_Some.
  - unfold validate_skipped. simpl. split.
    + intros H id [t Ht]. specialize (H _ _ Ht). destruct (timestamp_of st id); [by eexists|done].
    + intros H id t Ht. destruct (H id) as [? ->]; by eexists.
  - unfold validate_checksum. simpl. split.
    + intros H id [t Ht]. specialize (H _ _ Ht). destruct (registered rn !! id); [by eexists|done].
    + intros H id t Ht. destruct (H id) as [? ->]; by eexists.
Qed.

(** Every recorded checksum belongs to an applied migration. *)
Definition tracked (st : State) : Prop :=
  forall id, is_Some (Checksums st !! id) -> is_Some (timestamp_of st id).

Definition clean (rn : Runner) (st : State) : Prop := state_valid rn st /\ tracked st.

Lemma registered_lookup rn m :
  runner_wf rn -> m ∈ migrations rn -> registered rn !! MID m = Some m.
Proof.
  intros Hwf. unfold registered. pose proof (wf_nodup _ Hwf) as Hn. revert Hn.
  assert (forall l (m0 : gmap string Migration) x, MID x ∉ (MID <$> l) ->
    foldl (fun m1 x => <[MID x := x]> m1) m0 l !! MID x = m0 !! MID x) as Hother.
  { induction l as [|y l IH]; intros m0 x Hx; simpl in *; [done|].
    apply not_elem_of_cons in Hx as [??]. rewrite IH by done. by rewrite lookup_insert_ne. }
  generalize (∅ : gmap string Migration). induction (migrations rn) as [|x l IH]; intros m0; simpl.
  - by intros _ ?%elem_of_nil.
  - intros [Hx Hn]%NoDup_cons [->|Hm]%elem_of_cons; [|by apply IH].
    by rewrite Hother, lookup_insert_eq by done.
Qed.

(** ** The transformations of the state keep it clean *)

Section keep_clean.
Context (rn : Runner) (Hwf : runner_wf rn).

Lemma lookup_insert_is_Some' {V} (m : gmap string V) i j v :
  is_Some (<[i := v]> m !! j) <-> i = j \/ is_Some (m !! j).
Proof.
  destruct (decide (i = j)) as [->|].
  - rewrite lookup_insert_eq. naive_solver.
  - rewrite lookup_insert_ne by done. naive_solver.
Qed.

Lemma with_checksum_of m st l ts ms sk id :
  checksum_of (MkState l ts ms sk (with_checksum m (Checksums st))) id =
  if decide (MID m = id /\ Checksum m <> EmptyString) then Checksum m else checksum_of st id.
Proof.
  unfold with_checksum, checksum_of. simpl.
  destruct (String.eqb_spec (Checksum m) EmptyString) as [E|E].
  - by rewrite decide_False by naive_solver.
  - destruct (decide (MID m = id)) as [<-|].
    + by rewrite lookup_insert_eq, decide_True.
    + by rewrite lookup_insert_ne, decide_False by naive_solver.
Qed.

Lemma with_checksum_is_Some m cs id :
  is_Some (with_checksum m cs !! id) -> id = MID m \/ is_Some (cs !! id).
Proof.
  unfold with_checksum. case_match; [by right|]. intros [<-|?]%lookup_insert_is_Some'; auto.
Qed.

(** A migration that was not applied has no checksum recorded, so the new one
    is the compiled one. *)
Lemma mark_clean m now st st' :
  m ∈ migrations rn -> timestamp_of st (MID m) = None -> clean rn st ->
  (forall id, timestamp_of st' id = if decide (MID m = id) then Some now else timestamp_of st id) ->
  Checksums st' = with_checksum m (Checksums st) ->
  (forall id, is_Some (SkippedMigrations st' !! id) -> MID m = id \/ is_Some (SkippedMigrations st !! id)) ->
  clean rn st'.
Proof.
  intros Hm Hnone ((Ha & Hs & Hc) & Ht) Hts Hcs Hsk.
  pose proof (registered_lookup _ _ Hwf Hm) as Hreg.
  assert (forall id, checksum_of st' id = if decide (MID m = id /\ Checksum m <> EmptyString)
    then Checksum m else checksum_of st id) as Hco.
  { intros id. rewrite <- (with_checksum_of m st EmptyString 0 ∅ ∅ id).
    unfold checksum_of. by rewrite Hcs. }
  assert (checksum_of st (MID m) = EmptyString) as Hempty.
  { unfold checksum_of. destruct (Checksums st !! MID m) eqn:E; [|done].
    destruct (Ht (MID m)) as [? ?]; [by eexists|]. congruence. }
  split_and!.
  - split_and!.
    + intros id. rewrite Hts, Hco. destruct (decide (MID m = id)) as [<-|].
      * intros _. exists m. split; [done|]. destruct (decide _); auto.
      * rewrite decide_False by naive_solver. apply Ha.
    + intros id [<-|Hid]%Hsk; rewrite Hts; [by rewrite decide_True|].
      destruct (decide _); [done|]. by apply Hs.
    + intros id. rewrite Hcs. intros [->|Hid]%with_checksum_is_Some; eauto.
  - intros id. rewrite Hcs, Hts. intros [->|Hid]%with_checksum_is_Some.
    + by rewrite decide_True.
    + destruct (decide _); [done|]. by apply Ht.
Qed.

Lemma mark_applied_clean m now st :
  m ∈ migrations rn -> timestamp_of st (MID m) = None -> clean rn st ->
  clean rn (mark_applied m now st).
Proof.
  intros Hm Hn Hc. eapply (mark_clean m now); eauto using timestamp_mark_applied.
  intros id. simpl. rewrite lookup_delete_is_Some. naive_solver.
Qed.

Lemma mark_skipped_clean m now st :
  m ∈ migrations rn -> timestamp_of st (MID m) = None -> clean rn st ->
  clean rn (mark_skipped m now st).
Proof.
  intros Hm Hn Hc. eapply (mark_clean m now); eauto using timestamp_mark_skipped.
  intros id. simpl. by rewrite lookup_insert_is_Some'.
Qed.

Lemma mark_reverted_clean m st : clean rn st -> clean rn (mark_reverted rn m st).
Proof.
  intros ((Ha & Hs & Hc) & Ht).
  assert (forall id, MID m <> id -> timestamp_of (mark_reverted rn m st) id = timestamp_of st id)
    as Hts by (intros id ?; by apply mark_reverted_other).
  assert (Checksums (mark_reverted rn m st) = delete (MID m) (Checksums st)) as Hcs
    by (unfold mark_reverted; by destruct (latestApplied _ _)).
  assert (SkippedMigrations (mark_reverted rn m st) = delete (MID m) (SkippedMigrations st)) as Hsk
    by (unfold mark_reverted; by destruct (latestApplied _ _)).
  split; [split_and!|].
  - intros id Hid. assert (MID m <> id) as Hne.
    { intros <-. rewrite mark_reverted_same in Hid. by destruct Hid. }
    rewrite Hts in Hid by done. destruct (Ha _ Hid) as (m' & ? & Hck). exists m'. split; [done|].
    unfold checksum_of in *. by rewrite Hcs, lookup_delete_ne.
  - intros id. rewrite Hsk, lookup_delete_is_Some. intros [? ?]. rewrite Hts by done. by apply Hs.
  - intros id. rewrite Hcs, lookup_delete_is_Some. intros [? ?]. by apply Hc.
  - intros id. rewrite Hcs, lookup_delete_is_Some. intros [? ?]. rewrite Hts by done. by apply Ht.
Qed.

Lemma backfill_one_clean m acc :
  m ∈ migrations rn -> clean rn acc.1 -> clean rn (backfill_one acc m).1.
Proof.
  destruct acc as [st b]. simpl. intros Hm Hcl. destruct (timestamp_of st (MID m)) eqn:Et; [|done].
  destruct (String.eqb_spec (Checksum m) EmptyString); [done|]. simpl.
  destruct (String.eqb _ _); [|done]. simpl. destruct Hcl as ((Ha & Hs & Hc) & Ht).
  pose proof (registered_lookup _ _ Hwf Hm) as Hreg.
  split; [split_and!|]; simpl.
  - intros id Hid. unfold checksum_of. simpl. destruct (decide (MID m = id)) as [<-|].
    + rewrite lookup_insert_eq. eauto.
    + rewrite lookup_insert_ne by done. by apply Ha.
  - apply Hs.
  - intros id [<-|?]%lookup_insert_is_Some'; eauto.
  - intros id [<-|?]%lookup_insert_is_Some'; [|by apply Ht].
    unfold timestamp_of in *. simpl. by rewrite Et.
Qed.

Lemma backfill_clean ms acc :
  (forall m, m ∈ ms -> m ∈ migrations rn) -> clean rn acc.1 -> clean rn (foldl backfill_one acc ms).1.
Proof.
  revert acc. induction ms as [|m ms IH]; intros acc Hms Hc; simpl; [done|].
  apply IH; [set_solver|]. apply backfill_one_clean; [apply Hms; by left|done].
Qed.
End keep_clean.

(** ** Every state written is clean if the one loaded was *)

#[export] Instance tracked_dec st : Decision (tracked st).
Proof.
  refine (cast_if (decide (map_Forall (fun id _ => is_Some (timestamp_of st id)) (Checksums st))));
    unfold tracked; [intros id [x Hx]; eauto|intros H; apply n; intros id x Hx; eauto].
Defined.

(** The monitor refuses a write of a state that does not validate, unless the
    state loaded last had a checksum nothing applied accounts for. *)
Definition watch (rn : Runner) (armed : bool) (e : event) : option bool :=
  match e with
  | EvLoad (Ok raw) =>
      Some (match normalize raw with Ok st => bool_decide (tracked st) | Err _ => true end)
  | EvSave st _ | EvSaveFenced st _ _ =>
      if negb armed || is_ok (validateState rn st) then Some armed else None
  | _ => Some armed
  end.

Section drift.
Context (w : world) (rn : Runner) (Hwf : runner_wf rn).
#[local] Abbreviation WATCH := (triple (watch rn)).

Definition holds (st : State) (armed : bool) : Prop := armed = true -> clean rn st.
Definition then_holds (r : result merr State) (armed : bool) : Prop :=
  match r with Ok st => holds st armed | Err _ => True end.

(** A call that is neither a load nor a write leaves the monitor alone. *)
Lemma quiet_watch {R A} P (ask : list event -> R) mk (k : R -> op A) Q :
  (forall r armed, watch rn armed (mk r) = Some armed) ->
  (forall r, WATCH P (k r) Q) -> WATCH P (tbind (call ask mk) k) Q.
Proof.
  intros Hq Hk. eapply triple_call_bind. intros r. exists P. split; [|apply Hk].
  intros armed HP. exists armed. by rewrite Hq.
Qed.

Lemma check_watch P : WATCH P (checkExecutionContext w) (fun _ => P).
Proof. apply quiet_watch; [done|]. intros r. by apply triple_ret'. Qed.

Lemma save_watch ctx st : WATCH (holds st) (saveState w rn ctx st) (fun _ => holds st).
Proof.
  assert (forall armed, holds st armed ->
    (if negb armed || is_ok (validateState rn st) then Some armed else None) = Some armed) as Hst.
  { intros [] H; [|done]. simpl. destruct (H eq_refl) as [Hv _].
    by rewrite (proj2 (validateState_ok rn st) Hv). }
  eapply triple_bind_ok; [apply check_watch| |done].
  intros []. repeat case_match; try by apply triple_ret'.
  all: eapply triple_call_bind; intros r; exists (holds st); split; [|by apply triple_ret'].
  all: intros armed Ha; exists armed; split; [by apply Hst|done].
Qed.

Lemma save_then_watch {A} ctx st (wrap : merr -> merr) (k : op A) Q :
  WATCH (holds st) k Q -> (forall e armed, Q (Err e) armed) ->
  WATCH (holds st) (let! s := saveState w rn ctx st in
                    match s with Err e => tret (Err (wrap e)) | Ok _ => k end) Q.
Proof.
  intros Hk He. eapply triple_bind; [apply save_watch|].
  intros [[]|e]; [exact Hk|]. by apply triple_ret'.
Qed.

Lemma load_watch P :
  WATCH P (loadState w) (fun r armed =>
    match r with Ok st => armed = true -> tracked st | Err _ => True end).
Proof.
  eapply (triple_bind_ok _ _ _ (fun _ => P)); [apply check_watch| |done].
  intros []. eapply triple_call_bind. intros [raw|e].
  - exists (fun armed => armed = match normalize raw with Ok st => bool_decide (tracked st) | Err _ => true end).
    split; [by eauto|]. apply triple_ret'. intros armed ->. simpl.
    destruct (normalize raw); simpl; [|done]. by rewrite bool_decide_eq_true.
  - exists (fun _ => True). split; [by eauto|]. by apply triple_ret'.
Qed.

Lemma backfill_watch ctx st :
  WATCH (holds st) (backfillChecksums w rn ctx st) then_holds.
Proof.
  unfold backfillChecksums.
  pose proof (backfill_clean rn Hwf (migrations rn) (st, false) (fun _ Hm => Hm)) as Hcl.
  destruct (foldl _ _ _) as [st' []]; simpl in Hcl.
  - eapply triple_pre; [|eapply triple_bind; [apply save_watch|]].
    + intros armed H Ha. auto.
    + intros [[]|e]; by apply triple_ret'.
  - apply triple_ret'. intros armed H Ha. auto.
Qed.

Lemma apply_one_watch ctx m st :
  m ∈ migrations rn -> timestamp_of st (MID m) = None ->
  WATCH (holds st) (apply_one w rn ctx m st) then_holds.
Proof.
  intros Hm Hn. eapply triple_bind_ok; [apply check_watch| |done].
  intros []. apply quiet_watch; [done|]. intros [e|]; [by apply triple_ret'|].
  eapply triple_bind; [apply check_watch|]. intros [[]|e]; [|by apply triple_ret'].
  apply quiet_watch; [done|]. intros now.
  eapply triple_pre; [|eapply triple_bind; [apply (save_watch _ (mark_applied m now st))|]].
  - intros armed H Ha. apply mark_applied_clean; auto.
  - intros [[]|e]; by apply triple_ret'.
Qed.

Lemma apply_pending_watch ctx ms st :
  (forall m, m ∈ ms -> m ∈ migrations rn) ->
  WATCH (holds st) (apply_pending w rn ctx ms st) then_holds.
Proof.
  revert st. induction ms as [|m ms IH]; intros st Hms; simpl; [by apply triple_ret'|].
  destruct (timestamp_of st (MID m)) eqn:Et; [apply IH; set_solver|].
  eapply triple_bind_ok; [apply apply_one_watch; [set_solver|done]| |done].
  intros st'. apply IH. set_solver.
Qed.

Lemma skip_before_watch ctx ms st :
  (forall m, m ∈ ms -> m ∈ migrations rn) ->
  WATCH (holds st) (skip_before w rn ctx ms st) then_holds.
Proof.
  revert st. induction ms as [|m ms IH]; intros st Hms; simpl; [by apply triple_ret'|].
  destruct (timestamp_of st (MID m)) eqn:Et; [apply IH; set_solver|].
  apply quiet_watch; [done|]. intros now.
  eapply triple_pre; [|apply save_then_watch; [apply IH; set_solver|done]].
  intros armed H Ha. apply mark_skipped_clean; [done|set_solver|done|auto].
Qed.

Lemma down_one_watch P m : WATCH P (down_one w m) (fun _ => P).
Proof.
  eapply triple_bind_ok; [apply check_watch| |done].
  intros []. apply quiet_watch; [done|]. intros [e|]; [by apply triple_ret'|].
  eapply triple_bind; [apply check_watch|]. intros r. by apply triple_ret'.
Qed.

Lemma revert_applied_watch ctx ms st :
  WATCH (holds st) (revert_applied w rn ctx ms st) then_holds.
Proof.
  revert st. induction ms as [|m ms IH]; intros st; simpl; [by apply triple_ret'|].
  destruct (timestamp_of st (MID m)); [|apply IH].
  eapply (triple_bind_ok _ _ _ (fun _ => holds st)); [| |done].
  { destruct (is_skipped st m); [by apply triple_ret'|apply down_one_watch]. }
  intros []. eapply triple_pre; [|apply save_then_watch; [apply IH|done]].
  intros armed H Ha. by apply mark_reverted_clean; auto.
Qed.

Lemma loaded_watch {A} (k : State -> op A) :
  (forall st, WATCH (holds st) (k st) (fun _ _ => True)) ->
  WATCH (fun _ => True) (try! st := loadState w in try! _ := lift (validateState rn st) in k st)
    (fun _ _ => True).
Proof.
  intros Hk. eapply triple_bind_ok; [apply load_watch| |done].
  intros st. simpl. eapply (triple_bind_ok _ _ _ (fun r armed => r = Ok tt -> holds st armed)); [| |done].
  - apply triple_ret'. intros armed Ht Hv Ha. split; [by apply validateState_ok|auto].
  - intros []. eapply triple_pre; [|apply Hk]. auto.
Qed.

Lemma run_watch options ctx : WATCH (fun _ => True) (run_operation w rn options ctx) (fun _ _ => True).
Proof.
  apply loaded_watch. intros st. destruct (resolveRunRange rn options) as [[from to]|]; [|by apply triple_ret'].
  eapply triple_bind_ok; [apply backfill_watch|intros st1|done].
  eapply triple_bind_ok; [apply apply_pending_watch|intros st2|done].
  { intros m. unfold range. intros (i & Hi & _)%elem_of_take. rewrite lookup_drop in Hi.
    by eapply list_elem_of_lookup_2. }
  eapply triple_bind_ok; [apply skip_before_watch|intros st3; by apply triple_ret'|done].
  intros m (i & Hi & _)%elem_of_take. by eapply list_elem_of_lookup_2.
Qed.

Lemma revert_state_watch ctx st to :
  WATCH (holds st) (revertState w rn ctx st to) (fun _ _ => True).
Proof.
  eapply (triple_bind_ok _ _ _ (fun _ => holds st)); [by apply triple_ret'| |done].
  intros []. eapply triple_bind_ok; [apply revert_applied_watch| |done].
  intros st'. by apply triple_ret'.
Qed.

Lemma withLock_watch ctx operation :
  (forall c, WATCH (fun _ => True) (operation c) (fun _ _ => True)) ->
  WATCH (fun _ => True) (withLock w rn ctx operation) (fun _ _ => True).
Proof.
  intros Hop.
  assert (forall c, WATCH (fun _ => True) (locked w (operation c)) (fun _ _ => True)) as Hl.
  { intros c. eapply triple_bind; [apply Hop|]. intros r. apply quiet_watch; [done|].
    intros u. by apply triple_ret'. }
  assert (forall e, WATCH (fun _ => True) (abandon_lease w e) (fun _ _ => True)) as Ha.
  { intros e. apply quiet_watch; [done|]. intros u. by apply triple_ret'. }
  unfold withLock. destruct (leaseBased rn); apply quiet_watch; try done; intros r;
    repeat case_match; auto; by apply triple_ret'.
Qed.

Lemma exec_watch ctx c : WATCH (fun _ => True) (exec w rn ctx c) (fun _ _ => True).
Proof.
  destruct c; simpl.
  - apply withLock_watch. intros c'. apply run_watch.
  - unfold Revert. case_match; [by apply triple_ret'|]. apply withLock_watch. intros c'.
    apply loaded_watch. intros st. destruct (resolveTarget _ _ _);
      [apply revert_state_watch|by apply triple_ret'].
  - apply withLock_watch. intros c'. apply loaded_watch. intros st.
    destruct (find_last_index _ _); [apply revert_state_watch|by apply triple_ret'].
Qed.
End drift.

(** An event that writes (or tries to write) [st]. *)
Definition writes (st : State) (e : event) : Prop :=
  match e with EvSave st' _ | EvSaveFenced st' _ _ => st' = st | _ => False end.

Lemma watch_writes rn t armed armed' st e :
  run_monitor (watch rn) armed t = Some armed' -> armed = true ->
  (forall raw st, EvLoad (Ok raw) ∈ t -> normalize raw = Ok st -> tracked st) ->
  e ∈ t -> writes st e -> validateState rn st = Ok tt.
Proof.
  revert armed. induction t as [|e0 t IH]; intros armed; simpl; [by intros _ _ _ ?%elem_of_nil|].
  destruct (watch rn armed e0) as [a1|] eqn:E0; [|done]. intros Hr -> Hl He Hw.
  assert (a1 = true) as ->.
  { destruct e0 as [| | | |[raw|]| | | | |]; simpl in E0; try (by simplify_eq); repeat case_match; simplify_eq; try done.
    apply bool_decide_eq_true. eapply Hl; [by left|done]. }
  apply elem_of_cons in He as [->|He].
  - assert (is_ok (validateState rn st) = true) as Hok.
    { destruct e0; simpl in Hw; try done; subst; simpl in E0; by destruct (is_ok _). }
    by destruct (validateState rn st) as [[]|].
  - eapply IH; eauto. intros raw st0 Hin. apply Hl. by right.
Qed.

(** C39: Every state a Run, Revert or RevertOne writes, whatever fails on the
    way, passes the drift validation the next operation starts with, provided
    the loaded state keeps checksums of applied migrations only. *)
Theorem checkpoints_validate ms s l rn w ctx c h t r st e :
  NewRunner ms s l = Ok rn -> exec w rn ctx c h = (t, r) ->
  (forall raw st, EvLoad (Ok raw) ∈ t -> normalize raw = Ok st -> tracked st) ->
  e ∈ t -> writes st e -> validateState rn st = Ok tt.
Proof.
  intros Hwf%NewRunner_wf E.
  destruct (exec_watch w rn Hwf ctx c h t r true I E) as (armed & Hr & _).
  by eapply watch_writes.
Qed.

(** ** Progress *)

(** A program that returns a success from every history. *)
Definition completes {E A} (m : TM event (result E A)) : Prop :=
  forall h, exists t a, m h = (t, Ok a).

Lemma completes_ret {E A} (a : A) : completes (tret (Ok a : result E A)).
Proof. intros h. by exists [], a. Qed.

Lemma completes_bind_ok {E A B} (m : TM event (result E A)) (k : A -> TM event (result E B)) :
  completes m -> (forall a, completes (k a)) -> completes (tbind_ok m k).
Proof.
  intros Hm Hk h. destruct (Hm h) as (t1 & a & E1). destruct (Hk a (h ++ t1)) as (t2 & b & E2).
  exists (t1 ++ t2), b. by eapply tbind_run; [exact E1|].
Qed.

Lemma completes_bind {E F A B} (m : TM event (result E A)) (k : result E A -> TM event (result F B)) :
  completes m -> (forall a, completes (k (Ok a))) -> completes (tbind m k).
Proof.
  intros Hm Hk h. destruct (Hm h) as (t1 & a & E1). destruct (Hk a (h ++ t1)) as (t2 & b & E2).
  exists (t1 ++ t2), b. by eapply tbind_run; [exact E1|].
Qed.

Lemma completes_call {E R A} (ask : list event -> R) mk (k : R -> TM event (result E A)) :
  (forall h, completes (k (ask h))) -> completes (tbind (call ask mk) k).
Proof.
  intros Hk h. destruct (Hk h (h ++ [mk (ask h)])) as (t & a & E0).
  eexists _, a. by eapply tbind_run.
Qed.

(** A world in which every call succeeds and the store holds [raw]. *)
Record obliging (w : world) (raw : State) : Prop := {
  ob_lock : forall h, w_lock w h = Ok true;
  ob_lease : forall h, exists l, w_lease w h = Ok l /\ LeaseHasContext l = true /\
    LeaseHasUnlock l = true /\ trim_space (FenceToken l) <> EmptyString;
  ob_unlock : forall h, w_unlock w h = None;
  ob_ctx : forall h, w_ctx w h = None;
  ob_load : forall h, w_load w h = Ok raw;
  ob_save : forall st h, w_save w st h = None;
  ob_save_fenced : forall st token h, w_save_fenced w st token h = None;
  ob_up : forall m h, w_up w m h = None;
  ob_down : forall m h, w_down w m h = None
}.

Section progress.
Context (w : world) (rn : Runner) (raw : State) (Hw : obliging w raw).

Lemma check_completes : completes (checkExecutionContext w).
Proof. apply completes_call. intros h. rewrite (ob_ctx _ _ Hw). apply completes_ret. Qed.

Lemma save_completes ctx st :
  savable rn (FenceTokenFromContext ctx) -> completes (saveState w rn ctx st).
Proof.
  intros Hs. apply completes_bind_ok; [apply check_completes|]. intros [].
  destruct (FenceTokenFromContext ctx) as [token|]; simpl in Hs; rewrite Hs;
    apply completes_call; intros h.
  - rewrite (ob_save_fenced _ _ Hw). apply completes_ret.
  - rewrite (ob_save _ _ Hw). apply completes_ret.
Qed.

Section saving.
Context (ctx : context) (Hs : savable rn (FenceTokenFromContext ctx)).

Lemma backfill_completes st : completes (backfillChecksums w rn ctx st).
Proof.
  unfold backfillChecksums. destruct (foldl _ _ _) as [st' []]; [|apply completes_ret].
  apply completes_bind; [by apply save_completes|]. intros []. apply completes_ret.
Qed.

Lemma apply_pending_completes ms st : completes (apply_pending w rn ctx ms st).
Proof.
  revert st. induction ms as [|m ms IH]; intros st; simpl; [apply completes_ret|].
  destruct (timestamp_of st (MID m)); [apply IH|].
  apply completes_bind_ok; [|intros st'; apply IH].
  apply completes_bind_ok; [apply check_completes|intros []].
  apply completes_call. intros h. rewrite (ob_up _ _ Hw).
  apply completes_bind; [apply check_completes|intros []].
  apply completes_call. intros h'.
  apply completes_bind; [by apply save_completes|intros []; apply completes_ret].
Qed.

Lemma skip_before_completes ms st : completes (skip_before w rn ctx ms st).
Proof.
  revert st. induction ms as [|m ms IH]; intros st; simpl; [apply completes_ret|].
  destruct (timestamp_of st (MID m)); [apply IH|].
  apply completes_call. intros h.
  apply completes_bind; [by apply save_completes|intros []; apply IH].
Qed.

Lemma revert_applied_completes ms st : completes (revert_applied w rn ctx ms st).
Proof.
  revert st. induction ms as [|m ms IH]; intros st; simpl; [apply completes_ret|].
  destruct (timestamp_of st (MID m)); [|apply IH].
  apply completes_bind_ok; [destruct (is_skipped st m); [apply completes_ret|]|intros []].
  - apply completes_bind_ok; [apply check_completes|intros []].
    apply completes_call. intros h. rewrite (ob_down _ _ Hw).
    apply completes_bind; [apply check_completes|intros []; apply completes_ret].
  - apply completes_bind; [by apply save_completes|intros []; apply IH].
Qed.
End saving.

Lemma loaded_completes {A} st (k : State -> op A) :
  normalize raw = Ok st -> validateState rn st = Ok tt -> completes (k st) ->
  completes (try! st := loadState w in try! _ := lift (validateState rn st) in k st).
Proof.
  intros Hn Hv Hk h.
  assert (loadState w h = ([EvCtx None; EvLoad (Ok raw)], Ok st)) as El.
  { unfold loadState, checkExecutionContext, tbind_ok, tbind, call, tret. simpl.
    rewrite (ob_ctx _ _ Hw). simpl. rewrite (ob_load _ _ Hw). simpl. by rewrite Hn. }
  destruct (Hk (h ++ [EvCtx None; EvLoad (Ok raw)])) as (t & a & E).
  eexists _, a. eapply tbind_run; [exact El|]. simpl. unfold lift. rewrite Hv.
  eapply tbind_run; [reflexivity|]. by rewrite app_nil_r.
Qed.

Lemma locked_completes (m : op (list Status)) : completes m -> completes (locked w m).
Proof.
  intros Hm. apply completes_bind; [done|]. intros sts. apply completes_call. intros h.
  rewrite (ob_unlock _ _ Hw). apply completes_ret.
Qed.

Lemma withLock_completes operation :
  runner_wf rn ->
  (forall ctx, savable rn (FenceTokenFromContext ctx) -> completes (operation ctx)) ->
  completes (withLock w rn EmptyString operation).
Proof.
  intros Hwf Hop. unfold withLock. destruct (leaseBased rn) eqn:El.
  - apply completes_call. intros h. destruct (ob_lease _ _ Hw h) as (l & -> & -> & -> & Ht).
    simpl. apply String.eqb_neq in Ht. rewrite Ht, (wf_lease _ Hwf El). simpl.
    apply locked_completes, Hop. rewrite FenceToken_nonempty by done. apply (wf_lease _ Hwf El).
  - apply completes_call. intros h. rewrite (ob_lock _ _ Hw). apply locked_completes, Hop.
    simpl. destruct (fencing_required (store rn)) eqn:E; [|done].
    by rewrite (wf_required _ Hwf E) in El.
Qed.

Lemma revertState_completes ctx st to :
  savable rn (FenceTokenFromContext ctx) ->
  check_reversible st (rev (drop to (migrations rn))) = Ok tt ->
  completes (revertState w rn ctx st to).
Proof.
  intros Hs Hc h. unfold revertState. rewrite Hc.
  assert (completes (try! st' := revert_applied w rn ctx (rev (drop to (migrations rn))) st in
    tret (Ok (statuses rn st')))) as Hk.
  { apply completes_bind_ok; [by apply revert_applied_completes|intros; apply completes_ret]. }
  destruct (Hk (h ++ [])) as (t & a & E). exists t, a. by eapply (tbind_run _ _ _ []).
Qed.
End progress.

(** C38: When every outside call succeeds and the loaded state is valid, a Run
    over a range that resolves completes, with the statuses of the end: no
    error path is taken and nothing gets stuck on what a store may hold. *)
Theorem Run_progress ms s l rn w raw st options from to h :
  NewRunner ms s l = Ok rn -> obliging w raw -> normalize raw = Ok st ->
  validateState rn st = Ok tt -> resolveRunRange rn options = Ok (from, to) ->
  exists t sts, Run w rn EmptyString options h = (t, Ok sts).
Proof.
  intros Hwf%NewRunner_wf Hw Hn Hv Hr. apply (withLock_completes w rn raw Hw); [done|].
  intros ctx Hs. apply (loaded_completes w rn raw Hw st); [done..|]. rewrite Hr.
  apply completes_bind_ok; [by eapply backfill_completes|intros st1].
  apply completes_bind_ok; [by eapply apply_pending_completes|intros st2].
  apply completes_bind_ok; [by eapply skip_before_completes|intros st3].
  apply completes_ret.
Qed.

(** The same for Revert: when everything to revert is reversible, a Revert
    whose outside calls succeed completes. *)
Theorem Revert_progress ms s l rn w raw st target to h :
  NewRunner ms s l = Ok rn -> obliging w raw -> normalize raw = Ok st ->
  validateState rn st = Ok tt -> trim_space target <> EmptyString ->
  resolveTarget rn target true = Ok to ->
  check_reversible st (rev (drop to (migrations rn))) = Ok tt ->
  exists t sts, Revert w rn EmptyString target h = (t, Ok sts).
Proof.
  intros Hwf%NewRunner_wf Hw Hn Hv Ht%String.eqb_neq Hr Hc. unfold Revert. rewrite Ht.
  apply (withLock_completes w rn raw Hw); [done|].
  intros ctx Hs. apply (loaded_completes w rn raw Hw st); [done..|]. rewrite Hr.
  by eapply revertState_completes.
Qed.
