(* ===== verification/MigrationWitness.v ===== *)
(** * package migration: the theorems at concrete inputs

    A runner of three migrations registered out of order, an empty and a
    populated store, and the traces of Run, Revert and RevertOne against them. *)

From S2P Require Import Prelude.
From S2P Require Import GoStrings.
From S2P Require Import MigrationID.
From S2P Require Import Migration.
From S2P Require Import MigrationProofs.
From S2P Require Import MigrationProtocol.
From S2P Require Import MigrationRun.
From S2P Require Import MigrationLive.

Definition m_index : Migration := MkMigration "v1.0.0-2-add_index.go" "index" "c2" true true.
Definition m_users : Migration := MkMigration "v1.0.0-1-users" "users" "c1" true true.
Definition m_purge : Migration := MkMigration "001001000001-purge" "purge" EmptyString true false.

Definition sample_list : list Migration := [m_index; m_purge; m_users].
Definition plain_store : StoreCaps := MkStoreCaps false None.

Definition runner_of (r : result merr Runner) : Runner :=
  match r with Ok rn => rn | Err _ => MkRunner [] plain_store false end.
Definition sample : Runner := runner_of (NewRunner sample_list (Some plain_store) (Some false)).

(** Everything succeeds; the store holds [raw]; time stands at 7. *)
Definition friendly (raw : State) : world :=
  MkWorld (fun _ => Ok true) (fun _ => Ok (MkLease true "t1" true)) (fun _ => None) (fun _ => None)
    (fun _ => Ok raw) (fun _ _ => None) (fun _ _ _ => None) (fun _ _ => None) (fun _ _ => None)
    (fun _ => 7%Z).

Lemma friendly_obliging raw : obliging (friendly raw) raw.
Proof. split; simpl; try done. intros _. by exists (MkLease true "t1" true). Qed.

(** The same, but the context ends after the second check. *)
Definition interrupted : world :=
  MkWorld (fun _ => Ok true) (fun _ => Ok (MkLease true "t1" true)) (fun _ => None)
    (fun h => if 4 <? length h then Some "lease lost" else None)
    (fun _ => Ok NewState) (fun _ _ => None) (fun _ _ _ => None) (fun _ _ => None) (fun _ _ => None)
    (fun _ => 7%Z).

Definition everything : RunOptions := MkRunOptions EmptyString "latest".

Definition run_trace : list event * result merr (list Status) :=
  Run (friendly NewState) sample EmptyString everything [].

(** The state the first run leaves. *)
Definition done_state : State := default NewState (last_saved (recorded run_trace.1)).

Lemma sample_ok : NewRunner sample_list (Some plain_store) (Some false) = Ok sample.
Proof. vm_compute. reflexivity. Defined.

Example sample_order :
  MID <$> migrations sample = ["v1.0.0-1-users"; "v1.0.0-2-add_index"; "v1.1.0-1-purge"].
Proof. vm_compute. reflexivity. Qed.

Example run_executes : ups (recorded run_trace.1) =
  ["v1.0.0-1-users"; "v1.0.0-2-add_index"; "v1.1.0-1-purge"].
Proof. vm_compute. reflexivity. Qed.

Definition sts_of (x : list event * result merr (list Status)) : list Status :=
  match x.2 with Ok sts => sts | Err _ => [] end.

Lemma NewRunner_permutation_witness :
  NewRunner [m_users; m_purge; m_index] (Some plain_store) (Some false) = Ok sample.
Proof.
  apply (NewRunner_permutation sample_list); [exact sample_ok|].
  unfold sample_list. change [m_index; m_purge; m_users] with (rev [m_users; m_purge; m_index]).
  symmetry. apply Permutation_rev.
Defined.

Definition sample_id : ID := MkID 1 20 3 18446744073709551615 "add_users-x".

Lemma ParseID_roundtrip_witness : ParseID (ID_String sample_id) = Ok sample_id.
Proof. apply (ParseID_roundtrip sample_id). repeat split; done. Defined.

Definition raw_state : State :=
  MkState "001001000001-purge" 5 {["v1_0_0-1-users.py" := Some 5%Z]} ∅ {["v1.0.0-1-users" := "c1"]}.
Definition normal_state : State :=
  match normalize raw_state with Ok st => st | Err _ => NewState end.

Lemma raw_normal : normalize raw_state = Ok normal_state.
Proof. vm_compute. reflexivity. Defined.

Lemma normalize_spec_witness :
  Migrations normal_state !! "v1.0.0-1-users" = Some (Some 5%Z) /\
  normalize normal_state = Ok normal_state.
Proof.
  destruct (normalize_spec raw_state normal_state raw_normal) as (Hm & _ & _ & Hi).
  split; [|exact Hi]. apply Hm. exists "v1_0_0-1-users.py". split; vm_compute; reflexivity.
Defined.

Lemma sample_wf : runner_wf sample.
Proof. exact (NewRunner_wf _ _ _ _ sample_ok). Defined.

Lemma resolveTarget_spec_witness :
  1 < length (registry sample) /\ target_names sample "v1_0_0" false 1.
Proof. apply (resolveTarget_spec sample " v1_0_0 " false 1 sample_wf). vm_compute. reflexivity. Defined.

Lemma exec_follows_protocol_witness :
  run_trace.1 = [] \/ run_monitor (protocol EmptyString) Idle run_trace.1 = Some Released.
Proof.
  apply (exec_follows_protocol sample_list (Some plain_store) (Some false) sample
    (friendly NewState) (CRun everything) [] _ run_trace.2 sample_ok).
  vm_compute. reflexivity.
Defined.

Definition interrupted_trace : list event := (Run interrupted sample EmptyString everything []).1.

Lemma no_action_after_context_end_witness :
  exists t1 e t2, interrupted_trace = t1 ++ EvCtx (Some e) :: t2 /\
    Forall (fun ev => is_unlock ev = true) t2.
Proof.
  exists (take 5 interrupted_trace), "lease lost", (drop 6 interrupted_trace).
  assert (interrupted_trace = take 5 interrupted_trace ++ EvCtx (Some "lease lost") :: drop 6 interrupted_trace)
    as E by (vm_compute; reflexivity).
  split; [exact E|].
  apply (no_action_after_context_end sample_list (Some plain_store) (Some false) sample interrupted
    (CRun everything) [] interrupted_trace (Run interrupted sample EmptyString everything []).2
    (take 5 interrupted_trace) "lease lost" _ sample_ok); [|exact E].
  vm_compute. reflexivity.
Defined.

Lemma checkpoint_before_next_witness :
  Exists (saved (fun st => is_Some (timestamp_of st "v1.0.0-1-users"))) (take 5 (drop 5 run_trace.1)).
Proof.
  apply (checkpoint_before_next sample_list (Some plain_store) (Some false) sample (friendly NewState)
    (CRun everything) [] run_trace.1 run_trace.2 (take 4 run_trace.1) "v1.0.0-1-users" _
    "v1.0.0-2-add_index" None (drop 11 run_trace.1) sample_ok);
    vm_compute; reflexivity.
Defined.

Lemma Run_effect_witness : run_effect sample everything (sts_of run_trace) (recorded run_trace.1).
Proof.
  apply (Run_effect sample_list (Some plain_store) (Some false) sample (friendly NewState)
    EmptyString everything [] run_trace.1 _ sample_ok).
  vm_compute. reflexivity.
Defined.

Definition second_trace : list event * result merr (list Status) :=
  Run (friendly done_state) sample EmptyString everything [].

Lemma Run_idempotent_witness : ups (recorded second_trace.1) = [].
Proof.
  apply (Run_idempotent sample_list (Some plain_store) (Some false) sample (friendly NewState)
    (friendly done_state) EmptyString EmptyString everything [] [] run_trace.1 second_trace.1
    (sts_of run_trace) (sts_of second_trace) done_state sample_ok); vm_compute; reflexivity.
Defined.

(** The purge cannot be reverted, so the state reverted from is the one before
    it. *)
Definition until_index : RunOptions := MkRunOptions EmptyString "v1.0.0-2-add_index".
Definition partial_state : State :=
  default NewState (last_saved (recorded (Run (friendly NewState) sample EmptyString until_index []).1)).
Definition revert_trace : list event * result merr (list Status) :=
  Revert (friendly partial_state) sample EmptyString "v1.0.0" [].

Example revert_executes :
  downs (recorded revert_trace.1) = ["v1.0.0-2-add_index"; "v1.0.0-1-users"].
Proof. vm_compute. reflexivity. Qed.

Lemma Revert_effect_witness :
  exists to, resolveTarget sample "v1.0.0" true = Ok to /\
    revert_effect sample to (sts_of revert_trace) (recorded revert_trace.1).
Proof.
  apply (Revert_effect sample_list (Some plain_store) (Some false) sample (friendly partial_state)
    EmptyString "v1.0.0" [] revert_trace.1 (sts_of revert_trace) sample_ok).
  vm_compute. reflexivity.
Defined.

Definition refused_trace : list event * result merr (list Status) :=
  Revert (friendly done_state) sample EmptyString "v1.0.0" [].

Lemma Revert_irreversible_witness : untouched (recorded refused_trace.1).
Proof.
  apply (Revert_irreversible sample_list (Some plain_store) (Some false) sample (friendly done_state)
    EmptyString "v1.0.0" [] refused_trace.1 "v1.1.0-1-purge" sample_ok).
  vm_compute. reflexivity.
Defined.

Lemma new_state_tracked : tracked NewState.
Proof. intros id [x Hx]. done. Defined.

Lemma checkpoints_validate_witness : validateState sample done_state = Ok tt.
Proof.
  apply (checkpoints_validate sample_list (Some plain_store) (Some false) sample (friendly NewState)
    EmptyString (CRun everything) [] run_trace.1 run_trace.2 done_state (EvSave done_state None) sample_ok).
  - vm_compute. reflexivity.
  - intros raw st Hin.
    assert (Forall (fun e => match e with EvLoad (Ok r) => r = NewState | _ => True end) run_trace.1) as Hall
      by (vm_compute; repeat constructor).
    rewrite Forall_forall in Hall. rewrite (Hall _ Hin). vm_compute normalize. intros [= <-].
    exact new_state_tracked.
  - apply (list_elem_of_lookup_2 _ 20). vm_compute. reflexivity.
  - reflexivity.
Defined.

Lemma Run_progress_witness :
  exists t sts, Run (friendly normal_state) sample EmptyString everything [] = (t, Ok sts).
Proof.
  apply (Run_progress sample_list (Some plain_store) (Some false) sample (friendly normal_state)
    normal_state normal_state everything 0 2 [] sample_ok (friendly_obliging _));
    vm_compute; reflexivity.
Defined.

Lemma Revert_progress_witness :
  exists t sts, Revert (friendly partial_state) sample EmptyString "v1.0.0-2-add_index" [] = (t, Ok sts).
Proof.
  apply (Revert_progress sample_list (Some plain_store) (Some false) sample (friendly partial_state)
    partial_state partial_state "v1.0.0-2-add_index" 1 [] sample_ok (friendly_obliging _));
    vm_compute; try reflexivity; discriminate.
Defined.

(** ** A checkpoint the next operation rejects

    A store may hold a checksum for a migration that is not applied (the drift
    validation accepts it as long as the migration is compiled in).  If the
    compiled migration declares no checksum, applying it leaves that checksum
    in place, and the state Run has just checkpointed is drift from then on. *)
Definition stale_state : State := MkState EmptyString 0 ∅ ∅ {["v1.1.0-1-purge" := "old"]}.
Definition stale_trace : list event * result merr (list Status) :=
  Run (friendly stale_state) sample EmptyString everything [].
Definition stale_saved : State := default NewState (last_saved (recorded stale_trace.1)).

Example stale_checksum_locks_out :
  is_ok stale_trace.2 = true /\
  (Run (friendly stale_saved) sample EmptyString everything []).2 =
    Err (ErrStateDriftChecksum "v1.1.0-1-purge").
Proof. split; vm_compute; reflexivity. Qed.
