(* ===== verification/RedisResp.v ===== *)
(** * package redis, the RESP2 codec

    encodeIORedisRESPCommands and the bounded reply reader of
    redis/ioredis_resp.go.  The bytes a connection will still deliver are a
    string, followed by the I/O error [eof] the connection ends with; the
    reader returns what is left of it.  How bufio cuts a line into fragments
    does not show: only the accumulated length is compared with the limit. *)

From S2P Require Import Prelude.
From S2P Require Import GoStrings.

(** ** Limits *)

Definition ioredisRESPMaxBulkBytes : Z := 2 ^ 29.
Definition ioredisRESPMaxAggregateBytes : Z := ioredisRESPMaxBulkBytes + 2 ^ 20.
Definition ioredisRESPMaxValues : Z := 2 ^ 20.
Definition ioredisRESPMaxArrayElements : Z := 2 ^ 20.
Definition ioredisRESPMaxLineBytes : Z := 2 ^ 16.
Definition ioredisRESPMaxDepth : Z := 128.

Definition CR : ascii := ascii_of_nat 13.
Definition LF : ascii := ascii_of_nat 10.
Definition crlf : string := String CR (String LF EmptyString).

(** ** Encoding *)

Definition encode_argument (argument : string) : string :=
  "$" +:+ format_int (Z.of_nat (String.length argument)) +:+ crlf +:+ argument +:+ crlf.

Definition encode_command (command : list string) : string :=
  "*" +:+ format_int (Z.of_nat (length command)) +:+ crlf +:+
  foldr (fun argument wire => encode_argument argument +:+ wire) EmptyString command.

(** A command is refused when it is empty or its name is. *)
Definition command_ok (command : list string) : bool :=
  match command with [] => false | name :: _ => negb (String.eqb name EmptyString) end.

Inductive encode_error := EmptyCommand.

Fixpoint encodeIORedisRESPCommands (commands : list (list string)) : result encode_error string :=
  match commands with
  | [] => Ok EmptyString
  | command :: rest =>
      if command_ok command
      then let? wire := encodeIORedisRESPCommands rest in Ok (encode_command command +:+ wire)
      else Err EmptyCommand
  end.

(** ** Replies *)

(** What [any] holds: a string, an int64, nil, a slice, or (in a slice) an
    error reply. *)
Inductive value :=
| VString (s : string)
| VInt (z : Z)
| VNil
| VArray (l : list value)
| VError (message : string).

(** The pair (value, replyErr). *)
Definition reply : Type := value * option string.

(** The element a reply becomes inside an array. *)
Definition element (r : reply) : value :=
  match r.2 with Some message => VError message | None => r.1 end.

Inductive resp_error :=
| EDepth | EByteBudget | EValueBudget
| EIO (cause : string)
| EInteger
| EBulkLength | EBulkLimit (length : Z) | EBulkOverflow | EBulkTerminator
| EArrayLength | EArrayLimit (length : Z) | EArrayBudget (length : Z) | EArrayOverflow
| EPrefix | ELineLimit | ELineTerminator.

(** The reader and the decode budget it works under. *)
Record rstate := MkRS { rest : string; bytesRemaining : Z; valuesRemaining : Z }.

Definition D (A : Type) : Type := rstate -> result resp_error (A * rstate).

Definition dret {A} (a : A) : D A := fun s => Ok (a, s).
Definition derr {A} (e : resp_error) : D A := fun _ => Err e.
Definition dbind {A B} (d : D A) (k : A -> D B) : D B := fun s =>
  match d s with Ok (a, s') => k a s' | Err e => Err e end.

Notation "'read!' x := d 'in' k" := (dbind d (fun x => k))
  (at level 10, x pattern, d at level 100, k at level 200) : go_scope.

Definition newIORedisRESPDecodeBudget (input : string) : rstate :=
  MkRS input ioredisRESPMaxAggregateBytes ioredisRESPMaxValues.

Definition consumeBytes (count : Z) : D unit := fun s =>
  if (count <? 0)%Z || (bytesRemaining s <? count)%Z then Err EByteBudget
  else Ok (tt, MkRS (rest s) (bytesRemaining s - count) (valuesRemaining s)).

Definition consumeValue : D unit := fun s =>
  if (valuesRemaining s <=? 0)%Z then Err EValueBudget
  else Ok (tt, MkRS (rest s) (bytesRemaining s) (valuesRemaining s - 1)).

Definition set_rest (r : string) (s : rstate) : rstate :=
  MkRS r (bytesRemaining s) (valuesRemaining s).

Section reader.
Context (eof : string).

Definition ReadByte : D ascii := fun s =>
  match rest s with
  | EmptyString => Err (EIO eof)
  | String c r => Ok (c, set_rest r s)
  end.

(** ReadSlice('\n') until a whole line is there. *)
Definition readIORedisRESPLineWithBudget : D string := fun s =>
  let (body, tail) := span (fun c => negb (Ascii.eqb c LF)) (rest s) in
  match tail with
  | EmptyString =>
      if (ioredisRESPMaxLineBytes <? Z.of_nat (String.length body))%Z
      then Err ELineLimit else Err (EIO eof)
  | String _ after =>
      let line := body +:+ String LF EmptyString in
      if (ioredisRESPMaxLineBytes <? Z.of_nat (String.length line))%Z then Err ELineLimit
      else match consumeBytes (Z.of_nat (String.length line)) (set_rest after s) with
           | Err e => Err e
           | Ok (_, s') =>
               if has_suffix crlf line
               then Ok (str_take (String.length line - 2) line, s')
               else Err ELineTerminator
           end
  end.

(** io.CopyN of [n] bytes. *)
Definition copyN (n : Z) : D string := fun s =>
  if (Z.of_nat (String.length (rest s)) <? n)%Z then Err (EIO eof)
  else Ok (str_take (Z.to_nat n) (rest s), set_rest (str_drop (Z.to_nat n) (rest s)) s).

(** io.ReadFull of the two terminator bytes; it turns an EOF between them
    into an unexpected EOF. *)
Definition readTerminator : D (ascii * ascii) := fun s =>
  match rest s with
  | EmptyString => Err (EIO eof)
  | String _ EmptyString => Err (EIO (if String.eqb eof "EOF" then "unexpected EOF" else eof))
  | String a (String b r) => Ok ((a, b), set_rest r s)
  end.

(** The payload of a bulk string whose header announced [length] bytes. *)
Definition readBulk (length : Z) : D string :=
  read! _ := consumeBytes (length + 2) in
  read! payload := copyN length in
  read! terminator := readTerminator in
  if Ascii.eqb terminator.1 CR && Ascii.eqb terminator.2 LF
  then dret payload else derr EBulkTerminator.

(** The byte that says what a reply is, charged to the budget. *)
Definition readPrefix : D ascii :=
  read! prefix := ReadByte in read! _ := consumeBytes 1 in dret prefix.

(** The loop over the elements of an array. *)
Fixpoint readElements (readOne : D reply) (n : nat) : D (list value) :=
  match n with
  | O => dret []
  | S n' =>
      read! r := readOne in
      read! values := readElements readOne n' in
      dret (element r :: values)
  end.

(** A length line of a bulk string or an array: [bad] is the error for a
    text that is not a length. *)
Definition readLength (bad : resp_error) : D Z :=
  read! line := readIORedisRESPLineWithBudget in
  match parse_int64 line with
  | (length, None) => if (length <? -1)%Z then derr bad else dret length
  | (_, Some _) => derr bad
  end.

Definition readBulkValue : D reply :=
  read! length := readLength EBulkLength in
  if (length =? -1)%Z then dret (VNil, None)
  else if (ioredisRESPMaxBulkBytes <? length)%Z then derr (EBulkLimit length)
  else if (max_int64 - 2 <? length)%Z then derr EBulkOverflow
  else read! payload := readBulk length in dret (VString payload, None).

Definition readArrayValue (readOne : D reply) : D reply :=
  read! length := readLength EArrayLength in
  if (length =? -1)%Z then dret (VNil, None)
  else if (ioredisRESPMaxArrayElements <? length)%Z then derr (EArrayLimit length)
  else fun s =>
    (if (valuesRemaining s <? length)%Z then derr (EArrayBudget length)
     else if (max_int64 <? length)%Z then derr EArrayOverflow
     else read! values := readElements readOne (Z.to_nat length) in dret (VArray values, None)) s.

Definition readInteger : D reply :=
  read! line := readIORedisRESPLineWithBudget in
  match parse_int64 line with
  | (integer, None) => dret (VInt integer, None)
  | (_, Some _) => derr EInteger
  end.

(** One reply with [levels] levels of nesting left: [levels] is one more than
    ioredisRESPMaxDepth less the depth, so it is 0 exactly when the depth
    exceeds the limit. *)
Fixpoint readValue (levels : nat) : D reply :=
  match levels with
  | O => derr EDepth
  | S deeper =>
      read! _ := consumeValue in
      read! prefix := readPrefix in
      if Ascii.eqb prefix "+" then
        read! line := readIORedisRESPLineWithBudget in dret (VString line, None)
      else if Ascii.eqb prefix "-" then
        read! line := readIORedisRESPLineWithBudget in dret (VNil, Some line)
      else if Ascii.eqb prefix ":" then readInteger
      else if Ascii.eqb prefix "$" then readBulkValue
      else if Ascii.eqb prefix "*" then readArrayValue (readValue deeper)
      else derr EPrefix
  end.

Definition readIORedisRESPValueWithBudget (depth : Z) : D reply :=
  readValue (Z.to_nat (ioredisRESPMaxDepth + 1 - depth)).

(** One reply under a budget of its own: what is left of the input. *)
Definition readIORedisRESPValue (input : string) : result resp_error (reply * string) :=
  let? (r, s) := readIORedisRESPValueWithBudget 0 (newIORedisRESPDecodeBudget input) in
  Ok (r, rest s).

(** The first [n] turns of readLoop over an input: the replies delivered and
    the input left, or the first error. *)
Fixpoint readReplies (n : nat) (input : string) : result resp_error (list reply * string) :=
  match n with
  | O => Ok ([], input)
  | S n' =>
      let? (r, input') := readIORedisRESPValue input in
      let? (rs, input'') := readReplies n' input' in
      Ok (r :: rs, input'')
  end.
End reader.

(** An error the connection caused, and not the bytes it delivered: the loop
    wraps every other error as a protocol error that ends the client. *)
Definition ioredisRESPIOError (e : resp_error) : bool :=
  match e with EIO _ => true | _ => false end.

Example read_nested :
  readIORedisRESPValue "EOF" ("*3" +:+ crlf +:+ ":-7" +:+ crlf +:+ "-ERR x" +:+ crlf +:+ "$2" +:+ crlf +:+ "hi" +:+ crlf +:+ "+OK")
  = Ok ((VArray [VInt (-7); VError "ERR x"; VString "hi"], None), "+OK").
Proof. vm_compute. reflexivity. Qed.

(** ** Framing

    [framed d]: what [d] consumes is charged byte by byte to the budget, does
    not depend on what follows it, and any strict prefix of it ends in the I/O
    error of the connection, never in a value or a protocol error. *)

Section framing.
Context (eof : string).

Definition io_failure {A} (r : result resp_error A) : Prop :=
  match r with Err (EIO _) => True | _ => False end.

Definition framed {A} (d : D A) : Prop :=
  forall s a s', d s = Ok (a, s') -> exists c,
    rest s = c +:+ rest s' /\
    (bytesRemaining s' = bytesRemaining s - Z.of_nat (String.length c) /\
     (0 <= bytesRemaining s -> 0 <= bytesRemaining s'))%Z /\
    (forall r, d (set_rest (c +:+ r) s) = Ok (a, set_rest r s')) /\
    (forall p q, c = p +:+ q -> q <> EmptyString -> io_failure (d (set_rest p s))).

Lemma set_rest_id s : set_rest (rest s) s = s.
Proof. by destruct s. Qed.

Lemma set_rest_twice r r' s : set_rest r (set_rest r' s) = set_rest r s.
Proof. done. Qed.

(** A split of [c1 ++ c2] cuts one of the two. *)
Lemma sapp_split c1 c2 p q :
  c1 +:+ c2 = p +:+ q ->
  (exists x, x <> EmptyString /\ c1 = p +:+ x) \/ (exists p2, p = c1 +:+ p2 /\ c2 = p2 +:+ q).
Proof.
  revert p. induction c1 as [|c c1 IH]; intros p; simpl.
  - intros ->. right. by exists p.
  - destruct p as [|d p]; simpl.
    + intros _. left. by exists (String c c1).
    + intros [= -> H]. destruct (IH p H) as [(x & ? & ->)|(p2 & -> & ->)]; [left|right]; eauto.
Qed.

Lemma framed_ret {A} (a : A) : framed (dret a).
Proof.
  intros s b s' [= <- <-]. exists EmptyString. simpl. split_and!; [done|lia|lia|done|].
  intros [|? ?] [|? ?]; done.
Qed.

Lemma framed_err {A} e : framed (derr (A := A) e).
Proof. by intros s a s'. Qed.

Lemma framed_bind_post {A B} (P : A -> Prop) (d : D A) (k : A -> D B) :
  framed d -> (forall s a s', d s = Ok (a, s') -> P a) -> (forall a, P a -> framed (k a)) ->
  framed (dbind d k).
Proof.
  intros Hd HP Hk s b s' H. unfold dbind in H. destruct (d s) as [[a s1]|] eqn:E1; [|done].
  destruct (Hd _ _ _ E1) as (c1 & Er1 & [Eb1 Ep1] & Hs1 & Ht1).
  destruct (Hk a (HP _ _ _ E1) _ _ _ H) as (c2 & Er2 & [Eb2 Ep2] & Hs2 & Ht2).
  exists (c1 +:+ c2). unfold dbind. split_and!.
  - by rewrite Er1, Er2, sapp_assoc.
  - rewrite slength_app. lia.
  - auto.
  - intros r. by rewrite sapp_assoc, Hs1, Hs2.
  - intros p q E Hq. destruct (sapp_split _ _ _ _ E) as [(x & Hx & Ec)|(p2 & -> & Ec)].
    + specialize (Ht1 p x Ec Hx). by destruct (d (set_rest p s)) as [[]|[]].
    + rewrite Hs1. by eapply Ht2.
Qed.

Lemma framed_bind {A B} (d : D A) (k : A -> D B) :
  framed d -> (forall a, framed (k a)) -> framed (dbind d k).
Proof. intros Hd Hk. by apply (framed_bind_post (fun _ => True)). Qed.

(** A guard that reads neither the input nor the bytes. *)
Lemma framed_guard {A} (g : rstate -> bool) (d : D A) e :
  (forall r s, g (set_rest r s) = g s) -> framed d ->
  framed (fun s => (if g s then derr e else d) s).
Proof.
  intros Hg Hd s a s'. simpl. destruct (g s) eqn:E; [done|].
  intros H. destruct (Hd _ _ _ H) as (c & ? & [? ?] & Hs & Ht). exists c. split_and!; [done..| |].
  - intros r. rewrite Hg, E. apply Hs.
  - intros p q. rewrite Hg, E. apply Ht.
Qed.

Lemma framed_consumeValue : framed consumeValue.
Proof.
  intros s a s'. unfold consumeValue. destruct (Z.leb_spec (valuesRemaining s) 0); [done|].
  intros [= <- <-]. exists EmptyString. simpl. split_and!; [done|lia|lia| |].
  - intros r. destruct (Z.leb_spec (valuesRemaining s) 0); [lia|done].
  - intros [|? ?] [|? ?]; done.
Qed.

Lemma consumeBytes_inv n s s' :
  consumeBytes n s = Ok (tt, s') ->
  (0 <= n <= bytesRemaining s)%Z /\ s' = MkRS (rest s) (bytesRemaining s - n) (valuesRemaining s).
Proof.
  unfold consumeBytes. destruct (Z.ltb_spec n 0), (Z.ltb_spec (bytesRemaining s) n); simpl; try done.
  intros [= <-]. split; [lia|done].
Qed.

Lemma consumeBytes_ok n s :
  (0 <= n <= bytesRemaining s)%Z ->
  consumeBytes n s = Ok (tt, MkRS (rest s) (bytesRemaining s - n) (valuesRemaining s)).
Proof.
  intros H. unfold consumeBytes.
  destruct (Z.ltb_spec n 0), (Z.ltb_spec (bytesRemaining s) n); simpl; done || lia.
Qed.

Lemma framed_prefix : framed (readPrefix eof).
Proof.
  intros s a s' H. unfold readPrefix, dbind, ReadByte in H.
  destruct (rest s) as [|c r] eqn:Er; [done|]. simpl in H.
  destruct (consumeBytes 1 (set_rest r s)) as [[[] s1]|] eqn:Ec; [|done].
  apply consumeBytes_inv in Ec as [Hb ->]. injection H as <- <-. simpl in Hb.
  exists (String c EmptyString). simpl. split_and!; [done|lia|lia| |].
  - intros r'. unfold readPrefix, dbind, ReadByte. simpl. by rewrite consumeBytes_ok.
  - intros [|d p] q; [done|]. intros [= <- E] Hq. by destruct p, q.
Qed.

Lemma span_stop p a d b :
  str_forallb p a = true -> p d = false -> span p (a +:+ String d b) = (a, String d b).
Proof. intros Ha Hd. apply span_app; [done|]. simpl. by rewrite Hd. Qed.

Lemma framed_line : framed (readIORedisRESPLineWithBudget eof).
Proof.
  intros s a s'. unfold readIORedisRESPLineWithBudget.
  set (p := fun c => negb (Ascii.eqb c LF)).
  destruct (span p (rest s)) as [body tail] eqn:Es.
  destruct (span_spec _ _ _ _ Es) as (Er & Hbody & Hstop).
  destruct tail as [|d after]; [by destruct (_ <? _)%Z|].
  simpl in Hstop. apply negb_true_iff in Hstop. subst p. simpl in Hstop.
  apply negb_false_iff, Ascii.eqb_eq in Hstop as ->.
  set (line := body +:+ String LF EmptyString).
  destruct (Z.ltb_spec ioredisRESPMaxLineBytes (Z.of_nat (String.length line))); [done|].
  destruct (consumeBytes _ _) as [[[] s1]|] eqn:Ec; [|done].
  apply consumeBytes_inv in Ec as [Hb ->]. simpl in Hb.
  destruct (has_suffix crlf line) eqn:Ecr; [|done]. intros [= <- <-].
  exists line. simpl. split_and!.
  - rewrite Er. subst line. by rewrite sapp_assoc.
  - done.
  - lia.
  - intros r. subst line. rewrite sapp_assoc. simpl. rewrite span_stop by done.
    rewrite (proj2 (Z.ltb_ge _ _)) by done. rewrite consumeBytes_ok by done. by rewrite Ecr.
  - intros q1 q2 E Hq. subst line.
    assert (exists x, body = q1 +:+ x) as [x ->].
    { destruct (sapp_split _ _ _ _ E) as [(x & _ & ->)|(p2 & -> & E2)]; [by exists x|].
      destruct p2 as [|d p2]; [exists EmptyString; by rewrite !sapp_nil_r|].
      injection E2 as <- E2. by destruct p2, q2. }
    rewrite str_forallb_app in Hbody. apply andb_true_iff in Hbody as [Hq1 _].
    rewrite (span_all _ q1 Hq1). rewrite !slength_app in H.
    rewrite (proj2 (Z.ltb_ge _ _)) by lia. done.
Qed.

Lemma framed_bulk n : (0 <= n)%Z -> framed (readBulk eof n).
Proof.
  intros Hn s a s'. unfold readBulk, dbind.
  destruct (consumeBytes (n + 2) s) as [[[] s1]|] eqn:Ec; [|done].
  destruct (consumeBytes_inv _ _ _ Ec) as [Hb ->].
  unfold copyN. simpl. destruct (Z.ltb_spec (Z.of_nat (String.length (rest s))) n); [done|].
  unfold readTerminator. simpl.
  destruct (str_drop (Z.to_nat n) (rest s)) as [|x [|y r]] eqn:Ed; [done..|]. simpl.
  destruct (Ascii.eqb_spec x CR) as [->|]; [|done].
  destruct (Ascii.eqb_spec y LF) as [->|]; [|done]. simpl. intros [= <- <-].
  set (payload := str_take (Z.to_nat n) (rest s)).
  assert (rest s = payload +:+ String CR (String LF r) /\ String.length payload = Z.to_nat n)
    as [Er Hlen].
  { rewrite <- Ed. subst payload. split; [apply str_take_drop|]. apply slength_take. lia. }
  exists (payload +:+ crlf). simpl. split_and!.
  - rewrite Er. rewrite sapp_assoc. done.
  - rewrite slength_app. simpl. lia.
  - lia.
  - intros r'. rewrite sapp_assoc. rewrite consumeBytes_ok by done. simpl.
    rewrite slength_app. rewrite (proj2 (Z.ltb_ge _ _)) by lia. rewrite <- Hlen.
    by rewrite str_take_app, str_drop_app.
  - intros p q E Hq. rewrite consumeBytes_ok by done. simpl.
    destruct (Z.ltb_spec (Z.of_nat (String.length p)) n); [done|]. simpl.
    destruct (sapp_split _ _ _ _ E) as [(x & Hx & Ec')|(p2 & -> & Ec')].
    { assert (String.length payload = String.length p + String.length x) as Hl
        by (by rewrite Ec', slength_app). destruct x; [done|]. simpl in Hl. lia. }
    rewrite <- Hlen, str_drop_app. destruct p2 as [|a [|b p2]]; [done..|].
    injection Ec' as -> -> Ec'. by destruct p2, q.
Qed.

Lemma framed_elements readOne n : framed readOne -> framed (readElements readOne n).
Proof.
  intros Hr. induction n as [|n IH]; simpl; [apply framed_ret|].
  apply framed_bind; [done|]. intros r. apply framed_bind; [done|]. intros vs. apply framed_ret.
Qed.

Lemma framed_length bad : framed (readLength eof bad).
Proof.
  apply framed_bind; [apply framed_line|]. intros line.
  destruct (parse_int64 line) as [z [e|]]; [apply framed_err|].
  destruct (_ <? _)%Z; [apply framed_err|apply framed_ret].
Qed.

Lemma framed_array readOne : framed readOne -> framed (readArrayValue eof readOne).
Proof.
  intros Hr. apply framed_bind; [apply framed_length|]. intros n.
  destruct (_ =? _)%Z; [apply framed_ret|]. destruct (_ <? _)%Z; [apply framed_err|].
  apply (framed_guard (fun s => valuesRemaining s <? n)%Z); [done|].
  destruct (_ <? _)%Z; [apply framed_err|].
  apply framed_bind; [by apply framed_elements|]. intros vs. apply framed_ret.
Qed.

(** The length of a bulk string is checked before it is read. *)
Lemma readLength_range bad s n s' : readLength eof bad s = Ok (n, s') -> (-1 <= n)%Z.
Proof.
  unfold readLength, dbind. destruct (readIORedisRESPLineWithBudget _ _) as [[line s1]|]; [|done].
  destruct (parse_int64 line) as [z [e|]]; [done|].
  destruct (Z.ltb_spec z (-1)); [done|]. by intros [= <- _].
Qed.

Lemma framed_bulk_value : framed (readBulkValue eof).
Proof.
  eapply framed_bind_post; [apply framed_length|exact (readLength_range _)|]. intros n Hn.
  destruct (Z.eqb_spec n (-1)); [apply framed_ret|]. destruct (_ <? _)%Z; [apply framed_err|].
  destruct (_ <? _)%Z; [apply framed_err|]. apply framed_bind; [|intros; apply framed_ret].
  apply framed_bulk. lia.
Qed.

Lemma framed_value levels : framed (readValue eof levels).
Proof.
  induction levels as [|deeper IH]; simpl; [apply framed_err|].
  apply framed_bind; [apply framed_consumeValue|]. intros [].
  apply framed_bind; [apply framed_prefix|]. intros prefix.
  repeat (destruct (Ascii.eqb prefix _); [|]).
  - apply framed_bind; [apply framed_line|]. intros. apply framed_ret.
  - apply framed_bind; [apply framed_line|]. intros. apply framed_ret.
  - apply framed_bind; [apply framed_line|]. intros line.
    destruct (parse_int64 line) as [z [e|]]; [apply framed_err|apply framed_ret].
  - apply framed_bulk_value.
  - by apply framed_array.
  - apply framed_err.
Qed.
End framing.

(** ** Bounds *)

(** How many values a decoded value is made of, and the depth of its deepest
    one. *)
Fixpoint nodes (v : value) : Z :=
  match v with
  | VArray l => 1 + foldr (fun x n => nodes x + n)%Z 0%Z l
  | _ => 1
  end.

Fixpoint nesting (v : value) : nat :=
  match v with
  | VArray l => foldr (fun x n => Nat.max (S (nesting x)) n) 0 l
  | _ => 0
  end.

Section bounds.
Context (eof : string).

(** A decoder that only reads bytes leaves the count of values alone. *)
Definition quiet {A} (d : D A) : Prop :=
  forall s a s', d s = Ok (a, s') -> valuesRemaining s' = valuesRemaining s.

Lemma quiet_bind {A B} (d : D A) (k : A -> D B) :
  quiet d -> (forall a, quiet (k a)) -> quiet (dbind d k).
Proof.
  intros Hd Hk s b s' H. unfold dbind in H. destruct (d s) as [[a s1]|] eqn:E; [|done].
  rewrite (Hk _ _ _ _ H). by eapply Hd.
Qed.

Lemma quiet_ret {A} (a : A) : quiet (dret a).
Proof. by intros s b s' [= _ <-]. Qed.

Lemma quiet_err {A} e : quiet (derr (A := A) e).
Proof. by intros s b s'. Qed.

Lemma quiet_consumeBytes n : quiet (consumeBytes n).
Proof. by intros s [] s' [_ ->]%consumeBytes_inv. Qed.

Lemma quiet_line : quiet (readIORedisRESPLineWithBudget eof).
Proof.
  intros s a s'. unfold readIORedisRESPLineWithBudget. destruct (span _ _) as [body [|c after]].
  - by destruct (_ <? _)%Z.
  - destruct (_ <? _)%Z; [done|]. destruct (consumeBytes _ _) as [[[] s1]|] eqn:E; [|done].
    apply consumeBytes_inv in E as [_ ->]. destruct (has_suffix _ _); [|done]. by intros [= _ <-].
Qed.

Lemma quiet_prefix : quiet (readPrefix eof).
Proof.
  apply quiet_bind.
  - intros s a s'. unfold ReadByte. destruct (rest s); [done|]. by intros [= _ <-].
  - intros c. apply quiet_bind; [apply quiet_consumeBytes|]. intros _. apply quiet_ret.
Qed.

Lemma quiet_bulk n : quiet (readBulk eof n).
Proof.
  apply quiet_bind; [apply quiet_consumeBytes|]. intros _. apply quiet_bind.
  - intros s a s'. unfold copyN. destruct (_ <? _)%Z; [done|]. by intros [= _ <-].
  - intros payload. apply quiet_bind.
    + intros s a s'. unfold readTerminator. destruct (rest s) as [|x [|y r]]; [done..|].
      by intros [= _ <-].
    + intros t. destruct (_ && _); [apply quiet_ret|apply quiet_err].
Qed.

Lemma quiet_length bad : quiet (readLength eof bad).
Proof.
  apply quiet_bind; [apply quiet_line|]. intros line. destruct (parse_int64 line) as [z [e|]];
    [apply quiet_err|]. destruct (_ <? _)%Z; [apply quiet_err|apply quiet_ret].
Qed.

(** What one reply costs. *)
Definition counted (levels : nat) (readOne : D reply) : Prop :=
  forall s r s', readOne s = Ok (r, s') -> (0 <= valuesRemaining s)%Z ->
    (valuesRemaining s' = valuesRemaining s - nodes (element r))%Z /\
    (0 <= valuesRemaining s')%Z /\ nesting (element r) < levels.

(** The same for what follows the prefix of a scalar. *)
Definition scalar (d : D reply) : Prop :=
  quiet d /\ forall s r s', d s = Ok (r, s') -> nodes (element r) = 1%Z /\ nesting (element r) = 0.

Lemma scalar_map {A} (d : D A) (f : A -> D reply) :
  quiet d -> (forall a, scalar (f a)) -> scalar (dbind d f).
Proof.
  intros Hd Hf. split; [apply quiet_bind; [done|]; intros a; apply Hf|].
  intros s r s' H. unfold dbind in H. destruct (d s) as [[a s1]|]; [|done]. by eapply Hf.
Qed.

Lemma scalar_ret r : nodes (element r) = 1%Z -> nesting (element r) = 0 -> scalar (dret r).
Proof. intros ??. split; [apply quiet_ret|]. by intros s r' s' [= <- <-]. Qed.

Lemma scalar_err e : scalar (derr e).
Proof. split; [apply quiet_err|]. by intros s r s'. Qed.

Lemma scalar_bulk : scalar (readBulkValue eof).
Proof.
  apply scalar_map; [apply quiet_length|]. intros n.
  repeat case_match; try apply scalar_err; [by apply scalar_ret|].
  apply scalar_map; [apply quiet_bulk|]. intros p. by apply scalar_ret.
Qed.

Lemma elements_counted levels readOne n s vs s' :
  counted levels readOne -> readElements readOne n s = Ok (vs, s') ->
  (0 <= valuesRemaining s)%Z ->
  (valuesRemaining s' = valuesRemaining s - foldr (fun x n => nodes x + n) 0 vs)%Z /\
  (0 <= valuesRemaining s')%Z /\
  foldr (fun x n => Nat.max (S (nesting x)) n) 0 vs <= levels.
Proof.
  intros Hc. revert s vs s'. induction n as [|n IH]; intros s vs s'; simpl.
  - intros [= <- <-] ?. simpl. split_and!; [lia|done|lia].
  - unfold dbind. destruct (readOne s) as [[r s1]|] eqn:E1; [|done].
    destruct (readElements readOne n s1) as [[vs1 s2]|] eqn:E2; [|done].
    intros [= <- <-] Hv. destruct (Hc _ _ _ E1 Hv) as (H1 & H1' & Hn1).
    destruct (IH _ _ _ E2 H1') as (H2 & H2' & Hn2). simpl. split_and!; [lia|done|lia].
Qed.

Lemma value_counted levels : counted levels (readValue eof levels).
Proof.
  induction levels as [|deeper IH]; [done|]. intros s r s'. simpl. unfold dbind at 1.
  unfold consumeValue. destruct (Z.leb_spec (valuesRemaining s) 0) as [|Hpos]; [done|].
  set (s1 := MkRS _ _ _). intros H Hv. unfold dbind at 1 in H.
  destruct (readPrefix eof s1) as [[c s2]|] eqn:Ep; [|done].
  apply quiet_prefix in Ep. simpl in Ep.
  assert (forall d, scalar d -> d s2 = Ok (r, s') ->
    (valuesRemaining s' = valuesRemaining s - nodes (element r))%Z /\
    (0 <= valuesRemaining s')%Z /\ nesting (element r) < S deeper) as Hscalar.
  { intros d [Hq Hd] E. destruct (Hd _ _ _ E) as [-> ->]. rewrite (Hq _ _ _ E). lia. }
  repeat (destruct (Ascii.eqb c _); [|]); [..|done].
  - eapply Hscalar; [|exact H]. apply scalar_map; [apply quiet_line|]. intros. by apply scalar_ret.
  - eapply Hscalar; [|exact H]. apply scalar_map; [apply quiet_line|]. intros. by apply scalar_ret.
  - eapply Hscalar; [|exact H]. apply scalar_map; [apply quiet_line|]. intros line.
    destruct (parse_int64 line) as [z [e|]]; [apply scalar_err|by apply scalar_ret].
  - eapply Hscalar; [|exact H]. apply scalar_bulk.
  - unfold readArrayValue, dbind at 1 in H.
    destruct (readLength eof EArrayLength s2) as [[n s3]|] eqn:El; [|done].
    apply quiet_length in El. destruct (_ =? _)%Z.
    { injection H as <- <-. simpl. lia. }
    destruct (_ <? _)%Z; [done|]. destruct (_ <? _)%Z; [done|]. destruct (_ <? _)%Z; [done|].
    unfold dbind in H. destruct (readElements _ _ s3) as [[vs s4]|] eqn:Ee; [|done].
    injection H as <- <-. destruct (elements_counted _ _ _ _ _ _ IH Ee) as (H1 & H2 & H3); [lia|].
    unfold element. simpl. split_and!; [lia|done|lia].
Qed.
End bounds.

#[local] Arguments readValue : simpl never.
#[local] Arguments Z.to_nat : simpl never.

Definition well_bounded (consumed : string) (r : reply) : Prop :=
  (Z.of_nat (String.length consumed) <= ioredisRESPMaxAggregateBytes)%Z /\
  (nodes (element r) <= ioredisRESPMaxValues)%Z /\
  (Z.of_nat (nesting (element r)) <= ioredisRESPMaxDepth)%Z.

(** Whatever bytes a server sends, a reply the reader accepts is made of a
    prefix of at most ioredisRESPMaxAggregateBytes bytes, holds at most
    ioredisRESPMaxValues values and nests at most ioredisRESPMaxDepth deep;
    the bytes after it are left unread. *)
Theorem decode_bounded eof input r input' :
  readIORedisRESPValue eof input = Ok (r, input') ->
  exists consumed, input = consumed +:+ input' /\ well_bounded consumed r.
Proof.
  unfold readIORedisRESPValue, readIORedisRESPValueWithBudget.
  destruct (readValue _ _ _) as [[r' s']|] eqn:E; [|done]. intros [= <- <-].
  destruct (framed_value eof _ _ _ _ E) as (c & Hc & [Hb Hb'] & _).
  destruct (value_counted eof _ _ _ _ E) as (Hn & Hn' & Hd); [done|].
  exists c. split; [done|].
  assert (0 <= bytesRemaining s')%Z as Hpos by (apply Hb'; done).
  cbn [newIORedisRESPDecodeBudget bytesRemaining valuesRemaining] in Hb, Hn.
  assert (nesting (element r') < 129) as Hd' by exact Hd. clear Hd.
  unfold well_bounded. split_and!; [lia..|]. unfold ioredisRESPMaxDepth. lia.
Qed.

(** The reader never looks past a reply: the same bytes followed by
    anything else give the same reply, so replies pipelined on one connection
    do not influence each other. *)
Theorem decode_stream eof input r input' more :
  readIORedisRESPValue eof input = Ok (r, input') ->
  readIORedisRESPValue eof (input +:+ more) = Ok (r, input' +:+ more).
Proof.
  unfold readIORedisRESPValue, readIORedisRESPValueWithBudget.
  destruct (readValue _ _ _) as [[r' s']|] eqn:E; [|done]. intros [= <- <-].
  destruct (framed_value eof _ _ _ _ E) as (c & Hc & _ & Hs & _).
  simpl in Hc. rewrite Hc, sapp_assoc. specialize (Hs (rest s' +:+ more)). unfold set_rest in Hs.
  simpl in Hs. unfold newIORedisRESPDecodeBudget. by rewrite Hs.
Qed.

(** A reply that arrives incomplete is an I/O error of the connection,
    never a reply and never a protocol error: no strict prefix of the bytes of
    a reply is mistaken for something else. *)
Theorem decode_truncated eof p q r :
  readIORedisRESPValue eof (p +:+ q) = Ok (r, EmptyString) -> q <> EmptyString ->
  exists e, readIORedisRESPValue eof p = Err e /\ ioredisRESPIOError e = true.
Proof.
  unfold readIORedisRESPValue, readIORedisRESPValueWithBudget. intros H Hq.
  destruct (readValue _ _ _) as [[r' s']|] eqn:E; [|done]. injection H as <- Hs.
  destruct (framed_value eof _ _ _ _ E) as (c & Hc & _ & _ & Ht).
  rewrite Hs, sapp_nil_r in Hc. simpl in Hc. specialize (Ht p q (eq_sym Hc) Hq).
  change (set_rest p (newIORedisRESPDecodeBudget (p +:+ q))) with (newIORedisRESPDecodeBudget p) in Ht.
  clear E. destruct (readValue _ _ _) as [x|e]; [destruct Ht|]. exists e. split; [done|].
  by destruct e.
Qed.
