(* ===== verification/RedisWire.v ===== *)
(** * package redis: what the reader makes of the encoder's bytes

    A command the client writes is an array of bulk strings, which is also a
    reply: the reader of redis/ioredis_resp.go gives back exactly the commands
    encodeIORedisRESPCommands was given. *)

From S2P Require Import Prelude.
From S2P Require Import GoStrings.
From S2P Require Import RedisResp.

#[local] Arguments readIORedisRESPValue : simpl never.
#[local] Arguments encode_command : simpl never.

Section roundtrip.
Context (eof : string).
#[local] Arguments readValue : simpl never.

Lemma digits_no_LF a : str_forallb is_digit a = true ->
  str_forallb (fun c => negb (Ascii.eqb c LF)) a = true.
Proof.
  apply str_forallb_weaken. intros c Hc. apply negb_true_iff. by apply is_digit_not.
Qed.

Lemma readLine_ok text r b v :
  str_forallb (fun c => negb (Ascii.eqb c LF)) text = true ->
  (Z.of_nat (String.length text) + 2 <= ioredisRESPMaxLineBytes)%Z ->
  (Z.of_nat (String.length text) + 2 <= b)%Z ->
  readIORedisRESPLineWithBudget eof (MkRS (text +:+ crlf +:+ r) b v) =
  Ok (text, MkRS r (b - (Z.of_nat (String.length text) + 2)) v).
Proof.
  intros Ht Hl Hb. unfold readIORedisRESPLineWithBudget. cbn [rest].
  replace (text +:+ crlf +:+ r) with ((text +:+ String CR EmptyString) +:+ String LF r)
    by (by rewrite sapp_assoc).
  rewrite span_app; [|by rewrite str_forallb_app, Ht|done].
  assert ((text +:+ String CR EmptyString) +:+ String LF EmptyString = text +:+ crlf) as ->
    by (by rewrite sapp_assoc).
  rewrite slength_app. change (String.length crlf) with 2.
  rewrite (proj2 (Z.ltb_ge _ _)) by lia. rewrite consumeBytes_ok by (simpl; lia).
  replace (has_suffix crlf (text +:+ crlf)) with true
    by (symmetry; apply has_suffix_spec; by exists text).
  replace (String.length text + 2 - 2) with (String.length text) by lia.
  rewrite str_take_app. simpl. do 3 f_equal. lia.
Qed.

(** The bytes of a length line. *)
Definition header (c : ascii) (n : Z) : string := String c (format_int n +:+ crlf).

Definition header_cost (n : Z) : Z := Z.of_nat (String.length (format_int n)) + 3.

Lemma header_length c n : Z.of_nat (String.length (header c n)) = header_cost n.
Proof. unfold header, header_cost. simpl. rewrite slength_app. simpl. lia. Qed.

Lemma readLength_ok bad n r b v :
  (0 <= n <= ioredisRESPMaxBulkBytes)%Z -> (header_cost n - 1 <= b)%Z ->
  readLength eof bad (MkRS (format_int n +:+ crlf +:+ r) b v) =
  Ok (n, MkRS r (b - (header_cost n - 1)) v).
Proof.
  intros Hn Hb. unfold header_cost, ioredisRESPMaxBulkBytes in *.
  assert (String.length (format_int n) <= 65) by (apply format_int_length; lia).
  unfold readLength, dbind. rewrite readLine_ok.
  - rewrite parse_int64_format by (unfold max_int64; lia).
    rewrite (proj2 (Z.ltb_ge _ _)) by lia. unfold dret. do 3 f_equal. lia.
  - apply digits_no_LF, format_int_digits. lia.
  - unfold ioredisRESPMaxLineBytes. lia.
  - lia.
Qed.

(** The prefix byte of a reply and what it costs. *)
Lemma readValue_prefix levels c r b v :
  (1 <= b)%Z -> (0 < v)%Z ->
  readValue eof (S levels) (MkRS (String c r) b v) =
  (if Ascii.eqb c "+" then
     read! line := readIORedisRESPLineWithBudget eof in dret (VString line, None)
   else if Ascii.eqb c "-" then
     read! line := readIORedisRESPLineWithBudget eof in dret (VNil, Some line)
   else if Ascii.eqb c ":" then readInteger eof
   else if Ascii.eqb c "$" then readBulkValue eof
   else if Ascii.eqb c "*" then readArrayValue eof (readValue eof levels)
   else derr EPrefix) (MkRS r (b - 1) (v - 1)).
Proof.
  intros Hb Hv. unfold readValue at 1. fold readValue.
  unfold dbind at 1, consumeValue. cbn [valuesRemaining rest bytesRemaining].
  rewrite (proj2 (Z.leb_gt _ _)) by lia.
  unfold dbind at 1, readPrefix, dbind at 1, ReadByte, set_rest. cbn [rest bytesRemaining valuesRemaining].
  unfold dbind at 1. rewrite consumeBytes_ok by (simpl; lia). simpl. reflexivity.
Qed.

Definition argument_cost (a : string) : Z := Z.of_nat (String.length (encode_argument a)).

Lemma argument_cost_eq a :
  argument_cost a = (header_cost (Z.of_nat (String.length a)) + Z.of_nat (String.length a) + 2)%Z.
Proof.
  unfold argument_cost, encode_argument, header_cost. rewrite !slength_app. simpl. lia.
Qed.

Definition argument_fits (a : string) : Prop :=
  (Z.of_nat (String.length a) <= ioredisRESPMaxBulkBytes)%Z.

Lemma read_argument levels a r b v :
  argument_fits a -> (argument_cost a <= b)%Z -> (0 < v)%Z ->
  readValue eof (S levels) (MkRS (encode_argument a +:+ r) b v) =
  Ok ((VString a, None), MkRS r (b - argument_cost a) (v - 1)).
Proof.
  unfold argument_fits. rewrite argument_cost_eq. intros Ha Hb Hv.
  set (n := Z.of_nat (String.length a)) in *. set (h := header_cost n) in *.
  assert (3 <= h)%Z by (unfold h, header_cost; lia). unfold encode_argument. fold n.
  rewrite !sapp_assoc. cbn [String.append]. rewrite readValue_prefix by lia. cbn -[readBulkValue crlf String.append].
  unfold readBulkValue, dbind at 1. rewrite ?sapp_assoc, readLength_ok by (fold h; lia). fold h.
  rewrite (proj2 (Z.eqb_neq _ _)) by lia.
  rewrite (proj2 (Z.ltb_ge _ _)) by lia.
  rewrite (proj2 (Z.ltb_ge _ _)) by (unfold max_int64, ioredisRESPMaxBulkBytes in *; lia).
  unfold dbind at 1, readBulk, dbind at 1. rewrite consumeBytes_ok by (simpl; lia).
  unfold dbind at 1, copyN. cbn [rest bytesRemaining valuesRemaining].
  rewrite slength_app. rewrite (proj2 (Z.ltb_ge _ _)) by lia.
  unfold n. rewrite Nat2Z.id, str_take_app, str_drop_app.
  unfold dbind, readTerminator. simpl. unfold dret, set_rest. simpl.
  do 3 f_equal. lia.
Qed.

Definition arguments_cost (l : list string) : Z :=
  foldr (fun a n => argument_cost a + n)%Z 0%Z l.

Definition wire_of (l : list string) : string :=
  foldr (fun argument wire => encode_argument argument +:+ wire) EmptyString l.

Lemma wire_cost l : Z.of_nat (String.length (wire_of l)) = arguments_cost l.
Proof.
  induction l as [|a l IH]; [done|]. cbn [wire_of arguments_cost foldr].
  fold (wire_of l) (arguments_cost l). rewrite slength_app, Nat2Z.inj_add, IH. done.
Qed.

Lemma arguments_cost_nonneg l : (0 <= arguments_cost l)%Z.
Proof. rewrite <- wire_cost. lia. Qed.

Lemma read_arguments levels l r b v :
  Forall argument_fits l -> (arguments_cost l <= b)%Z -> (Z.of_nat (length l) <= v)%Z ->
  readElements (readValue eof (S levels)) (length l) (MkRS (wire_of l +:+ r) b v) =
  Ok (map VString l, MkRS r (b - arguments_cost l) (v - Z.of_nat (length l))).
Proof.
  intros Hl. revert b v. induction Hl as [|a l Ha Hl IH]; intros b v Hb Hv.
  { simpl. unfold dret. do 3 f_equal; lia. }
  pose proof (arguments_cost_nonneg l). cbn [length readElements wire_of foldr arguments_cost] in *.
  fold (wire_of l) (arguments_cost l) in *.
  rewrite sapp_assoc. unfold dbind at 1. rewrite read_argument by (done || lia).
  unfold dbind at 1. rewrite IH by lia.
  unfold dret. simpl. do 3 f_equal; lia.
Qed.

(** A command one reply can hold. *)
Definition command_fits (command : list string) : Prop :=
  Forall argument_fits command /\ (Z.of_nat (length command) < ioredisRESPMaxValues)%Z /\
  (Z.of_nat (String.length (encode_command command)) <= ioredisRESPMaxAggregateBytes)%Z.

Definition command_reply (command : list string) : reply := (VArray (map VString command), None).

Lemma read_command command r :
  command_fits command ->
  readIORedisRESPValue eof (encode_command command +:+ r) = Ok (command_reply command, r).
Proof.
  intros (Hf & Hn & Hb). unfold encode_command in *. fold (wire_of command) in *.
  rewrite !slength_app, !Nat2Z.inj_add, wire_cost in Hb. change (String.length "*") with 1 in Hb.
  change (String.length crlf) with 2 in Hb.
  set (n := Z.of_nat (length command)) in *. pose proof (arguments_cost_nonneg command).
  unfold readIORedisRESPValue, readIORedisRESPValueWithBudget, newIORedisRESPDecodeBudget.
  change (Z.to_nat (ioredisRESPMaxDepth + 1 - 0)) with (S (S 127)).
  rewrite !sapp_assoc. cbn [String.append].
  rewrite readValue_prefix by done. cbn -[readArrayValue crlf String.append ioredisRESPMaxAggregateBytes ioredisRESPMaxValues].
  unfold readArrayValue, dbind at 1.
  rewrite ?sapp_assoc, readLength_ok
    by (unfold header_cost, ioredisRESPMaxBulkBytes, ioredisRESPMaxValues in *; lia).
  rewrite (proj2 (Z.eqb_neq _ _)) by lia.
  unfold ioredisRESPMaxArrayElements. unfold ioredisRESPMaxValues in *.
  rewrite (proj2 (Z.ltb_ge _ _)) by lia. cbn [valuesRemaining].
  rewrite (proj2 (Z.ltb_ge _ _)) by lia.
  rewrite (proj2 (Z.ltb_ge _ _)) by (unfold max_int64; lia).
  subst n. unfold dbind. rewrite Nat2Z.id.
  rewrite read_arguments; [done|done|unfold header_cost; lia|lia].
Qed.
End roundtrip.

(** C30: The bytes encodeIORedisRESPCommands writes are read back as exactly the
    commands it was given, one reply each and nothing of what follows them, for
    every pipeline whose commands are within the reader's limits: no argument,
    whatever bytes it holds, can pass for a command of its own. *)
Theorem encode_decode eof commands wire more :
  encodeIORedisRESPCommands commands = Ok wire -> Forall command_fits commands ->
  readReplies eof (length commands) (wire +:+ more) = Ok (map command_reply commands, more).
Proof.
  intros He Hf. revert wire He. induction Hf as [|command commands Hc Hf IH]; intros wire;
    cbn [encodeIORedisRESPCommands readReplies length map].
  { by intros [= <-]. }
  destruct (command_ok command); [|done].
  destruct (encodeIORedisRESPCommands commands) as [wire'|]; [|done]. intros He.
  assert (wire = encode_command command +:+ wire') as -> by congruence.
  rewrite (sapp_assoc (encode_command command)), read_command by done. by rewrite IH.
Qed.
