(* ===== verification/RedisQueue.v ===== *)
(** * package redis, the ioredis-compatible client

    The connection-wide FIFO, the duplex session and the reconnect loop of
    redis/ioredis_compat.go as a state machine.  Requests are shared objects:
    the queue, the in-flight ledger and the caller's future all point to one
    request, so requests live in a heap and everything else holds their
    addresses.

    Each handler between two channel operations is one step; Submit, Quit and
    Disconnect are steps of their own that may come between any two.  The
    transport's answers are arguments of the steps.  Tracing spans and the
    wake-up channel carry no state and are left out. *)

From S2P Require Import Prelude.
From S2P Require Import GoStrings.
From S2P Require Import RedisResp.

(** ** Errors, replies, exchanges *)

Inductive cerr :=
| ECanceled | EDeadlineExceeded | EUnexpectedEOF | EEOF
| EClosed                       (** IORedisConnectionClosedError *)
| EAbort                        (** IORedisAbortError *)
| EMaxRetries                   (** IORedisMaxRetriesError *)
| ETerminal (cause : cerr) (closeTransport : bool)
| EWrap (message : string) (cause : cerr)
| EText (message : string).

(** errors.Is and errors.As along Unwrap. *)
Fixpoint err_is (p : cerr -> bool) (e : cerr) : bool :=
  p e || match e with
         | ETerminal cause _ | EWrap _ cause => err_is p cause
         | _ => false
         end.

Fixpoint asIORedisTerminalError (e : cerr) : option (cerr * bool) :=
  match e with
  | ETerminal cause close => Some (cause, close)
  | EWrap _ cause => asIORedisTerminalError cause
  | _ => None
  end.

Definition is_canceled (e : cerr) : bool := match e with ECanceled => true | _ => false end.
Definition is_deadline (e : cerr) : bool := match e with EDeadlineExceeded => true | _ => false end.
Definition is_unexpected_eof (e : cerr) : bool := match e with EUnexpectedEOF => true | _ => false end.
Definition is_eof (e : cerr) : bool := match e with EEOF => true | _ => false end.
Definition is_closed_error (e : cerr) : bool := match e with EClosed => true | _ => false end.

Definition newIORedisSafeError (message : string) (cause : cerr) : cerr :=
  if err_is is_canceled cause then EWrap message ECanceled
  else if err_is is_deadline cause then EWrap message EDeadlineExceeded
  else if err_is is_unexpected_eof cause then EWrap message EUnexpectedEOF
  else if err_is is_eof cause then EWrap message EEOF
  else if err_is is_closed_error cause then EWrap message EClosed
  else EText message.

Record Reply := MkReply { Value : value; RError : option cerr }.

Inductive WriteDisposition := WriteUnknown | NotWritten | PartiallyWritten | FullyWritten.

Record Exchange := MkExchange {
  Replies : list Reply; MayHaveExecuted : bool; Disposition : WriteDisposition;
  BytesWritten : Z; BytesTotal : Z; NetworkBytesWritten : Z; ExError : option cerr
}.

Definition empty_exchange : Exchange := MkExchange [] false WriteUnknown 0 0 0 None.

(** ** Requests *)

Record Completion := MkCompletion {
  CReplies : list Reply; ReplayCount : nat; AmbiguousReplays : nat; CErr : option cerr
}.

Record Request := MkRequest {
  commands : list (list string);
  pipeline : bool; quit : bool; exclusive : bool;
  replays : nat; ambiguousReplays : nat; retryFailures : nat;
  future : option Completion
}.

Definition with_future (f : option Completion) (r : Request) : Request :=
  MkRequest (commands r) (pipeline r) (quit r) (exclusive r) (replays r) (ambiguousReplays r)
    (retryFailures r) f.

Definition replay (ambiguous : bool) (r : Request) : Request :=
  MkRequest (commands r) (pipeline r) (quit r) (exclusive r) (S (replays r))
    (if ambiguous then S (ambiguousReplays r) else ambiguousReplays r) (retryFailures r) (future r).

Definition count_failure (r : Request) : Request :=
  MkRequest (commands r) (pipeline r) (quit r) (exclusive r) (replays r) (ambiguousReplays r)
    (S (retryFailures r)) (future r).

Definition IORedisMaxRetriesPerRequest : nat := 20.

Definition millisecond : Z := 1000000.
Definition second : Z := 1000000000.

(** Go multiplies durations in 64-bit arithmetic. *)
Definition IORedisRetryDelay (times : Z) : Z :=
  if (times <=? 0)%Z then 0
  else let delay := wrap64 (wrap64 (times * 50) * millisecond) in
       if (2 * second <? delay)%Z then (2 * second)%Z else delay.

(** ** The client *)

Record Client := MkClient {
  heap : gmap nat Request;
  queue : list nat;
  closing : bool; disconnecting : bool; closed : bool; ready : bool;
  retryAttempts : nat;
  firstReady : option (option cerr);
  quitFuture : option nat;
  cancelled : bool
}.

Definition newIORedisCompatClient : Client := MkClient ∅ [] false false false false 0 None None false.

Definition set_heap (h : gmap nat Request) (c : Client) : Client :=
  MkClient h (queue c) (closing c) (disconnecting c) (closed c) (ready c) (retryAttempts c)
    (firstReady c) (quitFuture c) (cancelled c).
Definition set_queue (q : list nat) (c : Client) : Client :=
  MkClient (heap c) q (closing c) (disconnecting c) (closed c) (ready c) (retryAttempts c)
    (firstReady c) (quitFuture c) (cancelled c).
Definition set_ready (b : bool) (attempts : nat) (c : Client) : Client :=
  MkClient (heap c) (queue c) (closing c) (disconnecting c) (closed c) b attempts
    (firstReady c) (quitFuture c) (cancelled c).

Definition update_request (id : nat) (f : Request -> Request) (c : Client) : Client :=
  set_heap (alter f id (heap c)) c.

(** settle runs once; a later completion is dropped. *)
Definition settle (replies : list Reply) (err : option cerr) (r : Request) : Request :=
  match future r with
  | Some _ => r
  | None => with_future (Some (MkCompletion replies (replays r) (ambiguousReplays r) err)) r
  end.

Definition complete (id : nat) (replies : list Reply) (err : option cerr) (c : Client) : Client :=
  update_request id (settle replies err) c.

Definition settleFirstReady (err : option cerr) (c : Client) : Client :=
  match firstReady c with
  | Some _ => c
  | None => MkClient (heap c) (queue c) (closing c) (disconnecting c) (closed c) (ready c)
              (retryAttempts c) (Some err) (quitFuture c) (cancelled c)
  end.

Definition peek (c : Client) : option nat := head (queue c).

Definition pop (id : nat) (c : Client) : Client :=
  match queue c with
  | q :: rest => if Nat.eqb q id then set_queue rest c else c
  | [] => c
  end.

(** The first occurrence only, as removeLocked. *)
Fixpoint remove_first (id : nat) (l : list nat) : list nat :=
  match l with
  | [] => []
  | x :: rest => if Nat.eqb x id then rest else x :: remove_first id rest
  end.

Definition remove (id : nat) (c : Client) : Client := set_queue (remove_first id (queue c)) c.

Definition firstUnscheduled (scheduled : gset nat) (c : Client) : option nat :=
  head (filter (fun id => id ∉ scheduled) (queue c)).

Definition stopAfterQuitFailure (c : Client) : Client :=
  MkClient (heap c) (queue c) (closing c) true (closed c) (ready c) (retryAttempts c)
    (firstReady c) (quitFuture c) true.

Definition setNotReady (c : Client) : Client := set_ready false (retryAttempts c) c.

Definition attr {A} (f : Request -> A) (default : A) (c : Client) (id : nat) : A :=
  match heap c !! id with Some r => f r | None => default end.

Definition commands_of (c : Client) (id : nat) : list (list string) := attr commands [] c id.
Definition is_quit (c : Client) (id : nat) : bool := attr quit false c id.
Definition is_exclusive (c : Client) (id : nat) : bool := attr exclusive false c id.
Definition is_pipeline (c : Client) (id : nat) : bool := attr pipeline false c id.
Definition failures_of (c : Client) (id : nat) : nat := attr retryFailures 0 c id.

(** Replies got so far, and an abort for every command without one. *)
Definition aborted (replies : list Reply) (n : nat) : list Reply :=
  replies ++ replicate (n - length replies) (MkReply VNil (Some EAbort)).

(** *** markRequestFailures *)

(** The loop over the queue: what stays, what is given up, the failures
    counted. *)
Fixpoint mark_queue (targets : gset nat) (q : list nat) (c : Client) : list nat * list nat * Client :=
  match q with
  | [] => ([], [], c)
  | id :: rest =>
      if bool_decide (id ∈ targets) then
        let c := update_request id count_failure c in
        let '(retained, exhausted, c') := mark_queue targets rest c in
        if Nat.ltb IORedisMaxRetriesPerRequest (failures_of c id)
        then (retained, id :: exhausted, c') else (id :: retained, exhausted, c')
      else let '(retained, exhausted, c') := mark_queue targets rest c in
           (id :: retained, exhausted, c')
  end.

Definition exhaust_request (c : Client) (id : nat) : Client :=
  if is_pipeline c id
  then complete id (map (fun _ => MkReply VNil (Some EMaxRetries)) (commands_of c id)) None c
  else let c := complete id [] (Some EMaxRetries) c in
       if is_quit c id then stopAfterQuitFailure c else c.

Definition markRequestFailures (requests : list nat) (c : Client) : Client :=
  match requests with
  | [] => c
  | _ => let '(retained, exhausted, c') := mark_queue (list_to_set requests) (queue c) c in
         foldl exhaust_request (set_queue retained c') exhausted
  end.

Definition connectionFailed (affected : list nat) (c : Client) : Client :=
  markRequestFailures affected (set_ready (ready c) (S (retryAttempts c)) c).

(** *** Admission *)

Definition command_empty (command : list string) : bool :=
  match command with [] => true | name :: _ => String.eqb name EmptyString end.

(** What submit answers. *)
Inductive admission :=
| Rejected (err : cerr)       (** a future settled without a request *)
| Enqueued (id : nat).

Definition fresh_id (c : Client) : nat := fresh (dom (heap c) : gset nat).

(** submit from the point where validateIORedisQueuedCommand has classified the
    commands: [exclusive_] says that one of them is a bounded blocking one. *)
Definition submit (cmds : list (list string)) (pipeline_ exclusive_ : bool) (c : Client) :
    admission * Client :=
  if bool_decide (cmds = []) then (Rejected (EText "ioredis command is empty"), c)
  else if existsb command_empty cmds then (Rejected (EText "ioredis command is empty"), c)
  else if exclusive_ && pipeline_ && negb (Nat.eqb (length cmds) 1)
  then (Rejected (EText "redis: ioredis RESP compatibility requires bounded blocking commands to be submitted without other pipeline commands"), c)
  else
    let id := fresh_id c in
    let c := set_heap (<[id := MkRequest cmds pipeline_ false exclusive_ 0 0 0 None]> (heap c)) c in
    if closed c || closing c || disconnecting c
    then (Enqueued id, complete id [] (Some EClosed) c)
    else (Enqueued id, set_queue (queue c ++ [id]) c).

Definition set_closing (id : nat) (c : Client) : Client :=
  MkClient (heap c) (queue c) true (disconnecting c) (closed c) (ready c) (retryAttempts c)
    (firstReady c) (Some id) (cancelled c).

(** Quit up to the point where it waits. *)
Definition Quit (c : Client) : Client :=
  match quitFuture c with
  | Some _ => c
  | None =>
      if closed c || closing c || disconnecting c then c
      else
        let id := fresh_id c in
        let c := set_heap (<[id := MkRequest [["quit"]] false true true 0 0 0 None]> (heap c)) c in
        let c := set_closing id c in
        if bool_decide (queue c = []) && negb (ready c)
        then stopAfterQuitFailure (complete id [MkReply (VString "OK") None] None c)
        else set_queue (queue c ++ [id]) c
  end.

Definition Disconnect (c : Client) : Client :=
  if closed c || disconnecting c then c
  else settleFirstReady (Some EClosed) (stopAfterQuitFailure c).

Definition finishClosed (err : cerr) (c : Client) : Client :=
  if closed c then c
  else
    let requests := queue c in
    let c := MkClient (heap c) [] (closing c) (disconnecting c) true false (retryAttempts c)
               (firstReady c) (quitFuture c) (cancelled c) in
    let c := settleFirstReady (Some err) c in
    foldl (fun c id => complete id [] (Some err) c) c requests.

(** ** The duplex session *)

Record InFlight := MkInFlight { request : nat; replies_so_far : list Reply }.

Record Session := MkSession {
  scheduled : gset nat; writing : option nat; inFlight : list InFlight; reading : bool
}.

Definition new_session : Session := MkSession ∅ None [] false.

Definition ioredisExclusiveInFlight (c : Client) (l : list InFlight) : bool :=
  existsb (fun entry => is_exclusive c (request entry)) l.

Definition ioredisOutstandingReplies (c : Client) (l : list InFlight) : Z :=
  foldr (fun entry n => Z.of_nat (length (commands_of c (request entry))) -
                        Z.of_nat (length (replies_so_far entry)) + n)%Z 0%Z l.

Definition cons_opt (o : option nat) : list nat := match o with Some x => [x] | None => [] end.

(** settleDuplexTerminalFailure *)
Definition settle_entry (err : cerr) (c : Client) (id : nat) : Client :=
  complete id [] (Some err) (remove id c).

Definition settleDuplexTerminalFailure (l : list InFlight) (w : option nat) (err : cerr)
    (c : Client) : Client :=
  let ids := map request l in
  let quitFailed := existsb (is_quit c) (ids ++ cons_opt w) in
  let c := foldl (settle_entry err) c ids in
  let c := match w with
           | Some id => if bool_decide (id ∈ ids) then c else settle_entry err c id
           | None => c
           end in
  if quitFailed then stopAfterQuitFailure c else c.

(** applyDuplexReply: the ledger and the schedule after one reply, and whether
    the session stops.  [closeErr] is what Close answers after a QUIT. *)
Definition quit_outcome (replies : list Reply) (err closeErr : option cerr) : option cerr :=
  let err := match err, replies with
             | None, r :: _ => match Value r with
                               | VString "OK" => None
                               | _ => Some (EText "redis: ioredis QUIT returned an invalid reply")
                               end
             | e, _ => e
             end in
  let err := match err with None => closeErr | e => e end in
  newIORedisSafeError "redis: ioredis QUIT failed" <$> err.

Definition command_error (c : Client) (id : nat) (replies : list Reply) : option cerr :=
  match replies with
  | [r] => if is_pipeline c id then None else RError r
  | _ => None
  end.

Definition applyDuplexReply (l : list InFlight) (sched : gset nat) (reply : Reply)
    (closeErr : option cerr) (c : Client) : list InFlight * gset nat * bool * Client :=
  match l with
  | [] => (l, sched, false, c)
  | entry :: rest =>
      let id := request entry in
      let replies := replies_so_far entry ++ [reply] in
      if negb (Nat.eqb (length replies) (length (commands_of c id)))
      then (MkInFlight id replies :: rest, sched, false, c)
      else
        let c := pop id c in
        let err := command_error c id replies in
        let err := if is_quit c id then quit_outcome replies err closeErr else err in
        (rest, sched ∖ {[id]}, is_quit c id, complete id replies err c)
  end.

(** reconcileDuplexFailure: one entry of the ledger, then the request being
    written. *)
Definition reconcile_entry (acc : list nat * bool * Client) (entry : InFlight) : list nat * bool * Client :=
  let '(retry, quitFailed, c) := acc in
  let id := request entry in
  if is_quit c id then
    (retry, true, complete id [] (Some (newIORedisSafeError "redis: ioredis QUIT failed" EClosed)) (pop id c))
  else if is_pipeline c id && Nat.ltb 0 (length (replies_so_far entry)) then
    (retry, quitFailed,
     complete id (aborted (replies_so_far entry) (length (commands_of c id))) None (pop id c))
  else (retry ++ [id], quitFailed, update_request id (replay true) c).

Definition reconcile_writing (acc : list nat * bool * Client) (w : option nat) (ex : Exchange) :
    list nat * bool * Client :=
  let '(retry, quitFailed, c) := acc in
  match w with
  | None => acc
  | Some id =>
      if is_quit c id then
        let err := newIORedisSafeError "redis: ioredis QUIT failed" (default (EText EmptyString) (ExError ex)) in
        (retry, true, complete id [] (Some err) (pop id c))
      else (retry ++ [id], quitFailed, update_request id (replay (MayHaveExecuted ex)) c)
  end.

Definition reconcileDuplexFailure (l : list InFlight) (w : option nat) (ex : Exchange) (c : Client) :
    Client :=
  let '(retry, quitFailed, c) := reconcile_writing (foldl reconcile_entry ([], false, c) l) w ex in
  let c := markRequestFailures retry c in
  if quitFailed then stopAfterQuitFailure c else c.

(** The request the loop would hand to the writer. *)
Definition nextWrite (s : Session) (c : Client) : option nat :=
  match writing s with
  | Some _ => None
  | None =>
      if ioredisExclusiveInFlight c (inFlight s) then None
      else match firstUnscheduled (scheduled s) c with
           | Some id => if negb (is_exclusive c id) || bool_decide (inFlight s = []) then Some id else None
           | None => None
           end
  end.

(** What the select of the session loop can receive.  A failure on one side
    waits for the result the other side owes: [pending]. *)
Inductive signal :=
| SScheduled
| SWritten (ex : Exchange) (pending : option (cerr + Reply)) (closeErr : option cerr)
| SReading
| SRead (r : cerr + Reply) (pending : option Exchange) (closeErr : option cerr)
| SIdleClosed | SWake | SContextDone.

Inductive outcome :=
| Running (c : Client) (s : Session)
| Ended (c : Client) (stop : bool) (err : option cerr).

Definition blocking_write_error (c : Client) (id : nat) (e : cerr) : cerr :=
  if is_quit c id then newIORedisSafeError "redis: ioredis QUIT failed" e
  else EWrap "redis: bounded blocking command was not replayed after an ambiguous write failure" e.

Definition blocking_read_error (c : Client) (id : nat) (e : cerr) : cerr :=
  if is_quit c id then newIORedisSafeError "redis: ioredis QUIT failed" e
  else EWrap "redis: bounded blocking command was not replayed after a read failure" e.

(** A failed write, after the reply a reader may still have delivered. *)
Definition write_failed (c : Client) (l : list InFlight) (id : nat) (ex : Exchange) (e : cerr) : outcome :=
  if is_exclusive c id && MayHaveExecuted ex
  then Ended (settleDuplexTerminalFailure l (Some id) (blocking_write_error c id e) c) false None
  else Ended (reconcileDuplexFailure l (Some id) ex c) false (Some e).

(** A failed read once no write is pending. *)
Definition read_failed (c : Client) (l : list InFlight) (e : cerr) : outcome :=
  match asIORedisTerminalError e with
  | Some (cause, close) => Ended (settleDuplexTerminalFailure l None (ETerminal cause close) c) false None
  | None =>
      match l with
      | entry :: _ =>
          if is_exclusive c (request entry)
          then Ended (settleDuplexTerminalFailure l None (blocking_read_error c (request entry) e) c) false None
          else Ended (reconcileDuplexFailure l None empty_exchange c) false (Some e)
      | [] => Ended (reconcileDuplexFailure l None empty_exchange c) false (Some e)
      end
  end.

Definition session_step (c : Client) (s : Session) (sig : signal) : option outcome :=
  match sig with
  | SScheduled =>
      match nextWrite s c with
      | Some id => Some (Running c (MkSession ({[id]} ∪ scheduled s) (Some id) (inFlight s) (reading s)))
      | None => None
      end
  | SWritten ex pending closeErr =>
      match writing s with
      | None => None
      | Some id =>
          match ExError ex with
          | None => Some (Running c (MkSession (scheduled s) None (inFlight s ++ [MkInFlight id []]) (reading s)))
          | Some e =>
              if reading s then
                match pending with
                | None => None
                | Some (inl _) => Some (write_failed c (inFlight s) id ex e)
                | Some (inr reply) =>
                    let '(l, _, stop, c') := applyDuplexReply (inFlight s) (scheduled s) reply closeErr c in
                    if stop then Some (Ended c' true None) else Some (write_failed c' l id ex e)
                end
              else Some (write_failed c (inFlight s) id ex e)
          end
      end
  | SReading =>
      if negb (reading s) && (0 <? ioredisOutstandingReplies c (inFlight s))%Z
      then Some (Running c (MkSession (scheduled s) (writing s) (inFlight s) true)) else None
  | SRead r pending closeErr =>
      if negb (reading s) then None else
      match r with
      | inr reply =>
          match inFlight s with
          | [] => Some (Ended c false (Some (EText "ioredis RESP returned a reply without an in-flight command")))
          | _ =>
              let '(l, sched, stop, c') := applyDuplexReply (inFlight s) (scheduled s) reply closeErr c in
              if stop then Some (Ended c' true None)
              else Some (Running c' (MkSession sched (writing s) l false))
          end
      | inl e =>
          match writing s with
          | None => Some (read_failed c (inFlight s) e)
          | Some id =>
              match pending with
              | None => None
              | Some ex =>
                  match ExError ex with
                  | None => Some (read_failed c (inFlight s ++ [MkInFlight id []]) e)
                  | Some _ =>
                      match asIORedisTerminalError e with
                      | Some (cause, close) =>
                          Some (Ended (settleDuplexTerminalFailure (inFlight s) (Some id) (ETerminal cause close) c) false None)
                      | None => Some (Ended (reconcileDuplexFailure (inFlight s) (Some id) ex c) false (Some e))
                      end
                  end
              end
          end
      end
  | SIdleClosed =>
      match writing s, inFlight s with
      | None, [] => if reading s then None else Some (Ended c false (Some (EText "ioredis transport closed")))
      | _, _ => None
      end
  | SWake => Some (Running c s)
  | SContextDone => if cancelled c then Some (Ended c true (Some ECanceled)) else None
  end.

(** ** The reconnect loop *)

Inductive phase :=
| Connecting (needsRetryDelay : bool)
| Duplex (s : Session)
| Simple                        (** a transport with Exchange only *)
| Done.

Inductive connect_result := ConnFailed (e : cerr) | ConnNil | ConnNoSignal | ConnDuplex | ConnSimple.

Inductive label :=
| LSubmit (command : list string) (exclusive_ : bool)
| LSubmitPipeline (cmds : list (list string)) (exclusive_ : bool)
| LQuit | LDisconnect
| LStop                                  (** shouldDisconnect at the loop head *)
| LWaitStopped                           (** the retry delay was cut short *)
| LConnect (r : connect_result)
| LSession (sig : signal)
| LExchange (ex : Exchange) (closeErr : option cerr)
| LClosed | LContextDone.

Definition config : Type := Client * phase.

Definition stopped (c : Client) : config := (finishClosed EClosed c, Done).

Definition connected (ph : phase) (c : Client) : config := (settleFirstReady None (set_ready true 0 c), ph).

Definition connect_failed (e : cerr) (c : Client) : config :=
  let c := settleFirstReady (Some e) c in (connectionFailed (queue c) c, Connecting true).

(** A failed exchange: the transport is closed and the request replayed,
    unless part of its replies arrived. *)
Definition exchange_failed (id : nat) (ex : Exchange) (c : Client) : config :=
  let c := setNotReady c in
  let c := if is_pipeline c id && Nat.ltb 0 (length (Replies ex))
           then complete id (aborted (Replies ex) (length (commands_of c id))) None (pop id c)
           else update_request id (replay (MayHaveExecuted ex)) c in
  (connectionFailed [id] c, Connecting true).

Definition check_reply_count (n : nat) (ex : Exchange) : option cerr :=
  match ExError ex with
  | Some e => Some e
  | None => if Nat.eqb (length (Replies ex)) n then None
            else Some (EText "ioredis transport returned a wrong number of replies")
  end.

(** The part of the loop body after a request was exchanged on a transport
    without a duplex interface. *)
Definition exchanged (id : nat) (ex : Exchange) (closeErr : option cerr) (c : Client) : config :=
  let err := check_reply_count (length (commands_of c id)) ex in
  if is_quit c id then
    let quitErr := match err with
                   | Some e => Some e
                   | None => match Replies ex with r :: _ => RError r | [] => None end
                   end in
    let outcome := match err with
                   | Some e => Some (newIORedisSafeError "redis: ioredis QUIT failed" e)
                   | None => quit_outcome (Replies ex) quitErr closeErr
                   end in
    stopped (complete id (Replies ex) outcome (pop id c))
  else match err with
  | None => (complete id (Replies ex) (command_error c id (Replies ex)) (pop id c), Simple)
  | Some e =>
      match asIORedisTerminalError e with
      | Some (_, close) =>
          let c := if close then setNotReady c else c in
          let c := pop id c in
          let c := if is_pipeline c id && Nat.ltb 0 (length (Replies ex))
                   then complete id (aborted (Replies ex) (length (commands_of c id))) None c
                   else complete id [] (Some e) c in
          (c, if close then Connecting false else Simple)
      | None =>
          if is_exclusive c id && MayHaveExecuted ex then
            (complete id [] (Some (EWrap "redis: bounded blocking command was not replayed after an ambiguous transport failure" e))
               (pop id (setNotReady c)), Connecting false)
          else exchange_failed id ex c
      end
  end.

(** The end of a duplex session as run sees it. *)
Definition session_ended (c : Client) (stop : bool) (err : option cerr) : config :=
  if stop then stopped c
  else let c := setNotReady c in
       match err with
       | Some _ => (connectionFailed [] c, Connecting true)
       | None => (c, Connecting false)
       end.

Definition step (cf : config) (l : label) : option config :=
  let (c, ph) := cf in
  match l, ph with
  | LSubmit command x, _ => Some ((submit [command] false x c).2, ph)
  | LSubmitPipeline cmds x, _ => Some ((submit cmds true x c).2, ph)
  | LQuit, _ => Some (Quit c, ph)
  | LDisconnect, _ => Some (Disconnect c, ph)
  | LStop, (Connecting _ | Simple) => if disconnecting c then Some (stopped c) else None
  | LWaitStopped, Connecting true => if cancelled c then Some (stopped c) else None
  | LConnect r, Connecting _ =>
      Some (match r with
            | ConnFailed e => connect_failed e c
            | ConnNil => connect_failed (EText "ioredis transport factory returned nil transport") c
            | ConnNoSignal => connect_failed (EText "ioredis transport returned nil close signal") c
            | ConnDuplex => connected (Duplex new_session) c
            | ConnSimple => connected Simple c
            end)
  | LSession sig, Duplex s =>
      match session_step c s sig with
      | None => None
      | Some (Running c' s') => Some (c', Duplex s')
      | Some (Ended c' stop err) => Some (session_ended c' stop err)
      end
  | LExchange ex closeErr, Simple =>
      match peek c with Some id => Some (exchanged id ex closeErr c) | None => None end
  | LClosed, Simple => Some (connectionFailed [] (setNotReady c), Connecting true)
  | LContextDone, Simple => if cancelled c then Some (stopped c) else None
  | _, _ => None
  end.

Definition initial : config := (newIORedisCompatClient, Connecting false).

(** Every configuration some history of events leads to. *)
Inductive reachable : config -> Prop :=
| reachable_initial : reachable initial
| reachable_step cf l cf' : reachable cf -> step cf l = Some cf' -> reachable cf'.
