(* ===== verification/RedisQueueProofs.v ===== *)
(** * package redis, the ioredis-compatible client: invariants

    Every request is in the queue exactly while its future is open, the
    in-flight ledger is a prefix of the queue, a blocking command is alone on
    the wire and counts no ambiguous replay, retries are bounded, and a closed
    client owes nobody an answer: for every interleaving of callers, transport
    answers and reconnects. *)

From S2P Require Import Prelude.
From S2P Require Import GoStrings.
From S2P Require Import RedisResp.
From S2P Require Import RedisQueue.

(** ** Requests *)

Definition live (h : gmap nat Request) (id : nat) : Prop :=
  exists r, h !! id = Some r /\ future r = None.

(** What holds of one request.  [slack] is 1 while a replay is recorded and the
    failure behind it is not counted yet; [limit] bounds the failures of an
    open request. *)
Record req_ok (slack limit : nat) (r : Request) : Prop := {
  ro_commands : commands r <> [];
  ro_quit : quit r = true -> exclusive r = true /\ pipeline r = false;
  ro_exclusive : exclusive r = true -> length (commands r) = 1 /\ ambiguousReplays r = 0;
  ro_ambiguous : ambiguousReplays r <= replays r;
  ro_replays : replays r <= retryFailures r + slack;
  ro_failures : future r = None -> retryFailures r <= limit;
  ro_max : retryFailures r <= S IORedisMaxRetriesPerRequest
}.

(** The queue [q] and the heap, with the requests [ex] taken off the queue and
    not settled yet, and the requests [sl] replayed and not counted yet. *)
Record qwf (q ex : list nat) (sl : gset nat) (h : gmap nat Request) : Prop := {
  q_nodup : NoDup (q ++ ex);
  q_live : forall id, id ∈ q ++ ex <-> live h id;
  q_ok : forall id r, h !! id = Some r ->
    req_ok (if bool_decide (id ∈ sl) then 1 else 0)
           (if bool_decide (id ∈ ex) then S IORedisMaxRetriesPerRequest else IORedisMaxRetriesPerRequest) r
}.

Lemma qwf_perm q ex q' ex' sl h :
  qwf q ex sl h -> q ≡ₚ q' -> ex ≡ₚ ex' -> qwf q' ex' sl h.
Proof.
  intros [Hn Hl Ho] Hq He. split.
  - by rewrite <- Hq, <- He.
  - intros id. rewrite <- Hl. by rewrite Hq, He.
  - intros id r Hr. specialize (Ho id r Hr).
    assert (id ∈ ex' <-> id ∈ ex) as Hiff by (by rewrite He).
    by rewrite (bool_decide_ext _ _ Hiff).
Qed.

Lemma req_ok_weaken s l l' r : l <= l' -> req_ok s l r -> req_ok s l' r.
Proof. intros Hl [? ? ? ? ? Hf ?]. split; try done. intros H. specialize (Hf H). lia. Qed.

(** Taking the head off the queue. *)
Lemma qwf_detach id q ex sl h : qwf (id :: q) ex sl h -> qwf q (id :: ex) sl h.
Proof.
  intros [Hn Hl Ho].
  assert (q ++ id :: ex ≡ₚ (id :: q) ++ ex) as Hp by (simpl; by rewrite Permutation_middle).
  split.
  - by rewrite Hp.
  - intros x. rewrite <- Hl. by rewrite Hp.
  - intros x r Hr. specialize (Ho x r Hr). eapply req_ok_weaken; [|exact Ho].
    destruct (decide (x ∈ ex)).
    + rewrite !bool_decide_true; [done|by right|done].
    + rewrite (bool_decide_false (x ∈ ex)) by done. destruct (bool_decide (x ∈ id :: ex)); lia.
Qed.

Lemma live_alter_settle h id replies err x :
  live (alter (settle replies err) id h) x <-> live h x /\ x <> id.
Proof.
  unfold live. setoid_rewrite lookup_alter. split.
  - intros (r & Hr & Hf). destruct (decide (id = x)) as [->|Hne].
    + destruct (h !! x) as [r0|]; [|done]. simpl in Hr. injection Hr as <-.
      unfold settle in Hf. by destruct (future r0) eqn:E; rewrite ?E in Hf.
    + split; [by exists r|congruence].
  - intros [(r & Hr & Hf) Hne]. exists r. rewrite decide_False by congruence. done.
Qed.

Lemma settle_ok s l replies err r : req_ok s l r -> req_ok s IORedisMaxRetriesPerRequest (settle replies err r).
Proof.
  intros [] . unfold settle. destruct (future r) eqn:E; split; simpl; try done.
  by rewrite E.
Qed.

(** Settling a request that is off the queue. *)
Lemma qwf_settle id q ex sl h replies err :
  qwf q (id :: ex) sl h -> qwf q ex sl (alter (settle replies err) id h).
Proof.
  intros [Hn Hl Ho].
  assert (q ++ id :: ex ≡ₚ id :: q ++ ex) as Hp by (by rewrite Permutation_middle).
  rewrite Hp in Hn. apply NoDup_cons in Hn as [Hnin Hn]. split.
  - done.
  - intros x. rewrite live_alter_settle, <- Hl, Hp, elem_of_cons. set_solver.
  - intros x r. rewrite lookup_alter. destruct (decide (id = x)) as [->|Hne].
    + destruct (h !! x) as [r0|] eqn:E; [|done]. simpl. intros [= <-].
      rewrite (bool_decide_false (x ∈ ex)) by set_solver. eapply settle_ok. by apply Ho.
    + intros Hr. specialize (Ho x r Hr).
      assert (x ∈ id :: ex <-> x ∈ ex) as Hiff by set_solver.
      by rewrite (bool_decide_ext _ _ Hiff) in Ho.
Qed.

(** A change of a request that keeps it open or settled. *)
Lemma qwf_update f id q ex sl sl' h :
  (forall r, future (f r) = future r) ->
  (forall x, x <> id -> x ∈ sl' <-> x ∈ sl) ->
  (forall r, h !! id = Some r ->
     req_ok (if bool_decide (id ∈ sl) then 1 else 0)
            (if bool_decide (id ∈ ex) then S IORedisMaxRetriesPerRequest else IORedisMaxRetriesPerRequest) r ->
     req_ok (if bool_decide (id ∈ sl') then 1 else 0)
            (if bool_decide (id ∈ ex) then S IORedisMaxRetriesPerRequest else IORedisMaxRetriesPerRequest) (f r)) ->
  qwf q ex sl h -> qwf q ex sl' (alter f id h).
Proof.
  intros Hf Hsl Hok [Hn Hl Ho]. split; [done| |].
  - intros x. rewrite Hl. unfold live. setoid_rewrite lookup_alter.
    destruct (decide (id = x)) as [->|]; [|done].
    destruct (h !! x) as [r|]; simpl; [|naive_solver]. split.
    + intros (? & [= <-] & ?). exists (f r). by rewrite Hf.
    + intros (? & [= <-] & H). exists r. by rewrite Hf in H.
  - intros x r. rewrite lookup_alter. destruct (decide (id = x)) as [->|Hne].
    + destruct (h !! x) as [r0|] eqn:E; [|done]. simpl. intros [= <-]. auto.
    + intros Hr. specialize (Ho x r Hr). by rewrite (bool_decide_ext _ _ (Hsl x (not_eq_sym Hne))).
Qed.

(** ** The flags do not matter *)

Definition cwf (c : Client) (ex : list nat) (sl : gset nat) : Prop := qwf (queue c) ex sl (heap c).

Lemma settleFirstReady_same e c : queue (settleFirstReady e c) = queue c /\ heap (settleFirstReady e c) = heap c.
Proof. unfold settleFirstReady. by destruct (firstReady c). Qed.

Lemma cwf_settleFirstReady e c ex sl : cwf c ex sl -> cwf (settleFirstReady e c) ex sl.
Proof. unfold cwf. by destruct (settleFirstReady_same e c) as [-> ->]. Qed.

Lemma cwf_complete id c ex sl replies err :
  cwf c (id :: ex) sl -> cwf (complete id replies err c) ex sl.
Proof. apply qwf_settle. Qed.

Lemma pop_head id rest c : queue c = id :: rest -> queue (pop id c) = rest /\ heap (pop id c) = heap c.
Proof. intros E. unfold pop. rewrite E. by rewrite Nat.eqb_refl. Qed.

Lemma cwf_pop id rest c ex sl : queue c = id :: rest -> cwf c ex sl -> cwf (pop id c) (id :: ex) sl.
Proof.
  intros E H. destruct (pop_head id rest c E) as [Hq Hh]. unfold cwf in *. rewrite Hq, Hh.
  rewrite E in H. by apply qwf_detach.
Qed.

Lemma cwf_pop_complete id rest c ex sl replies err :
  queue c = id :: rest -> cwf c ex sl -> cwf (complete id replies err (pop id c)) ex sl.
Proof. intros E H. by eapply cwf_complete, cwf_pop. Qed.

Lemma remove_first_perm id l : id ∈ l -> l ≡ₚ id :: remove_first id l.
Proof.
  induction l as [|x l IH]; simpl; [by intros ?%elem_of_nil|].
  destruct (Nat.eqb_spec x id) as [->|Hne]; [done|].
  intros [?|Hin]%elem_of_cons; [congruence|]. rewrite Permutation_swap. constructor. by apply IH.
Qed.

Lemma cwf_settle_entry id c ex sl err :
  id ∈ queue c -> cwf c ex sl -> cwf (settle_entry err c id) ex sl.
Proof.
  intros Hin H. apply cwf_complete. unfold cwf, remove. simpl. apply qwf_detach.
  eapply qwf_perm; [exact H|by apply remove_first_perm|done].
Qed.

(** ** Attributes that no step changes *)

Definition keeps_shape (f : Request -> Request) : Prop :=
  forall r, commands (f r) = commands r /\ quit (f r) = quit r /\ exclusive (f r) = exclusive r /\
    pipeline (f r) = pipeline r.

Lemma attr_update {A} (g : Request -> A) d f id c x :
  (forall r, g (f r) = g r) -> attr g d (update_request id f c) x = attr g d c x.
Proof.
  intros Hg. unfold attr, update_request. simpl. rewrite lookup_alter.
  destruct (decide (id = x)) as [->|]; [|done]. destruct (heap c !! x); simpl; auto.
Qed.

(** Two clients whose requests differ in counters and futures only. *)
Definition same_shape (c c' : Client) : Prop :=
  forall x, commands_of c' x = commands_of c x /\ is_quit c' x = is_quit c x /\
    is_exclusive c' x = is_exclusive c x /\ is_pipeline c' x = is_pipeline c x.

Lemma same_shape_heap c c' : heap c = heap c' -> same_shape c c'.
Proof. intros E x. unfold commands_of, is_quit, is_exclusive, is_pipeline, attr. by rewrite E. Qed.

Lemma same_shape_update f id c : keeps_shape f -> same_shape c (update_request id f c).
Proof.
  intros Hf x. unfold commands_of, is_quit, is_exclusive, is_pipeline.
  split_and!; apply attr_update; intros r; apply Hf.
Qed.

Lemma same_shape_trans c1 c2 c3 : same_shape c1 c2 -> same_shape c2 c3 -> same_shape c1 c3.
Proof.
  intros H1 H2 x. destruct (H1 x) as (? & ? & ? & ?), (H2 x) as (? & ? & ? & ?).
  split_and!; congruence.
Qed.

Lemma keeps_settle replies err : keeps_shape (settle replies err).
Proof. intros r. unfold settle. by destruct (future r). Qed.
Lemma keeps_replay b : keeps_shape (replay b).
Proof. done. Qed.
Lemma keeps_count : keeps_shape count_failure.
Proof. done. Qed.

Lemma same_shape_pop id c : same_shape c (pop id c).
Proof. apply same_shape_heap. unfold pop. destruct (queue c) as [|q ?]; [done|]. by destruct (Nat.eqb q id). Qed.

Lemma same_shape_pop_complete id replies err c : same_shape c (complete id replies err (pop id c)).
Proof.
  eapply same_shape_trans; [apply (same_shape_pop id)|]. apply same_shape_update, keeps_settle.
Qed.

Create HintDb shape.
#[export] Hint Resolve same_shape_pop_complete same_shape_update same_shape_pop keeps_settle keeps_replay keeps_count : shape.

(** ** markRequestFailures *)

Lemma count_ok r :
  req_ok 1 IORedisMaxRetriesPerRequest r -> retryFailures r <= IORedisMaxRetriesPerRequest ->
  req_ok 0 (S IORedisMaxRetriesPerRequest) (count_failure r).
Proof. intros [? ? ? ? ? ? ?] ?. split; simpl; try done; try lia. Qed.

Lemma req_ok_slack l r : req_ok 0 l r -> req_ok 1 l r.
Proof. intros []. split; try done. lia. Qed.

(** One request of the queue counted: it goes to the end of [ex], where the
    larger limit holds, and comes back if it is not exhausted. *)
Lemma qwf_count id q ex sl h :
  qwf (id :: q) ex sl h -> qwf q (id :: ex) (sl ∖ {[id]}) (alter count_failure id h).
Proof.
  intros Hq. assert (exists r, h !! id = Some r /\ future r = None) as (r & Hr & Hf).
  { apply (q_live _ _ _ _ Hq). by left. }
  assert (id ∉ ex) as Hnin.
  { pose proof (q_nodup _ _ _ _ Hq) as Hn. simpl in Hn. apply NoDup_cons in Hn as [Hn _]. set_solver. }
  pose proof (q_ok _ _ _ _ Hq id r Hr) as Hok. rewrite (bool_decide_false (id ∈ ex)) in Hok by done.
  eapply (qwf_update _ id _ _ sl); [done|set_solver| |by apply qwf_detach].
  intros r' Hr' _. rewrite Hr in Hr'. injection Hr' as <-.
  rewrite (bool_decide_false (id ∈ sl ∖ _)) by set_solver.
  rewrite (bool_decide_true (id ∈ id :: ex)) by by left.
  apply count_ok; [|by apply (ro_failures _ _ _ Hok)].
  destruct (bool_decide (id ∈ sl)); [done|by apply req_ok_slack].
Qed.

Lemma qwf_reattach id q ex sl h :
  qwf q (id :: ex) sl h ->
  (forall r, h !! id = Some r -> retryFailures r <= IORedisMaxRetriesPerRequest) ->
  qwf (id :: q) ex sl h.
Proof.
  intros [Hn Hl Ho] Hle.
  assert (q ++ id :: ex ≡ₚ (id :: q) ++ ex) as Hp by (simpl; by rewrite Permutation_middle).
  rewrite Hp in Hn. split; [done| |].
  - intros x. rewrite <- Hl. by rewrite Hp.
  - intros x r Hr. specialize (Ho x r Hr). destruct (decide (x = id)) as [->|Hne].
    + simpl in Hn. apply NoDup_cons in Hn as [Hn _]. rewrite (bool_decide_false (id ∈ ex)) by set_solver.
      destruct Ho. split; try done. intros _. by apply Hle.
    + assert (x ∈ id :: ex <-> x ∈ ex) as Hiff by set_solver.
      by rewrite (bool_decide_ext _ _ Hiff) in Ho.
Qed.

Lemma failures_of_Some c id r : heap c !! id = Some r -> failures_of c id = retryFailures r.
Proof. unfold failures_of, attr. by intros ->. Qed.

Lemma mark_queue_heap targets q c ret exh c' x :
  mark_queue targets q c = (ret, exh, c') -> x ∉ q -> heap c' !! x = heap c !! x.
Proof.
  revert c ret exh c'. induction q as [|id q IH]; intros c ret exh c'; simpl; [by intros [= _ _ <-]|].
  intros H [Hne Hx]%not_elem_of_cons. case_bool_decide.
  - destruct (mark_queue targets q (update_request id count_failure c)) as [[ret1 exh1] c1] eqn:E.
    assert (c' = c1) as -> by (by destruct (Nat.ltb _ _); injection H).
    rewrite (IH _ _ _ _ E) by done. unfold update_request. simpl. by rewrite lookup_alter_ne.
  - destruct (mark_queue targets q c) as [[ret1 exh1] c1] eqn:E. injection H as _ _ <-. by eapply IH.
Qed.

Lemma mark_queue_wf targets pre q c ex sl ret exh c' :
  mark_queue targets q c = (ret, exh, c') ->
  qwf (pre ++ q) ex sl (heap c) ->
  qwf (pre ++ ret) (exh ++ ex) (sl ∖ (targets ∩ list_to_set q)) (heap c').
Proof.
  revert pre c ex sl ret exh c'.
  induction q as [|id q IH]; intros pre c ex sl ret exh c'; simpl.
  { intros [= <- <- <-] H. replace (sl ∖ _) with sl by set_solver. done. }
  intros H Hq.
  assert (pre ++ id :: q ≡ₚ id :: pre ++ q) as Hp by (by rewrite Permutation_middle).
  case_bool_decide as Ht.
  - destruct (mark_queue targets q (update_request id count_failure c)) as [[ret1 exh1] c1] eqn:E.
    assert (qwf (pre ++ q) (id :: ex) (sl ∖ {[id]}) (heap (update_request id count_failure c))) as Hq1
      by (apply qwf_count; by eapply qwf_perm).
    assert (sl ∖ {[id]} ∖ (targets ∩ list_to_set q) = sl ∖ (targets ∩ ({[id]} ∪ list_to_set q))) as Hsl
      by set_solver.
    apply (IH pre _ _ _ _ _ _ E) in Hq1. rewrite Hsl in Hq1.
    assert (id ∉ q) as Hidq.
    { pose proof (q_nodup _ _ _ _ Hq) as Hn. rewrite Hp in Hn. simpl in Hn.
      apply NoDup_cons in Hn as [Hn _]. set_solver. }
    destruct (Nat.ltb_spec IORedisMaxRetriesPerRequest (failures_of (update_request id count_failure c) id))
      as [|Hle]; injection H as <- <- <-.
    + eapply qwf_perm; [exact Hq1|done|]. simpl. by rewrite Permutation_middle.
    + eapply qwf_perm; [apply (qwf_reattach id)| |done].
      * eapply qwf_perm; [exact Hq1|done|]. by rewrite Permutation_middle.
      * intros r Hr. rewrite (mark_queue_heap _ _ _ _ _ _ _ E) in Hr by done.
        by rewrite <- (failures_of_Some _ _ _ Hr).
      * by rewrite Permutation_middle.
  - destruct (mark_queue targets q c) as [[ret1 exh1] c1] eqn:E. injection H as <- <- <-.
    replace (sl ∖ _) with (sl ∖ (targets ∩ list_to_set q)) by set_solver.
    replace (pre ++ id :: ret1) with ((pre ++ [id]) ++ ret1) by (by rewrite <- app_assoc).
    eapply IH; [exact E|]. by rewrite <- app_assoc.
Qed.

Lemma exhaust_request_wf id c ex sl : cwf c (id :: ex) sl -> cwf (exhaust_request c id) ex sl.
Proof.
  intros H. unfold exhaust_request. destruct (is_pipeline c id); [by apply cwf_complete|].
  destruct (is_quit _ id); by apply cwf_complete.
Qed.

Lemma exhaust_request_all_wf exh c ex sl : cwf c (exh ++ ex) sl -> cwf (foldl exhaust_request c exh) ex sl.
Proof.
  revert c. induction exh as [|id exh IH]; intros c H; simpl; [done|].
  apply IH. by apply exhaust_request_wf.
Qed.

Lemma markRequestFailures_wf requests c ex sl :
  list_to_set requests ⊆@{gset nat} list_to_set (queue c) ->
  cwf c ex sl -> cwf (markRequestFailures requests c) ex (sl ∖ list_to_set requests).
Proof.
  intros Hin H. unfold markRequestFailures. destruct requests as [|r rs].
  { replace (sl ∖ _) with sl by set_solver. done. }
  destruct (mark_queue _ _ c) as [[ret exh] c1] eqn:E.
  apply exhaust_request_all_wf. unfold cwf in *. simpl.
  pose proof (mark_queue_wf _ [] _ _ ex sl _ _ _ E H) as H1. simpl in H1, Hin.
  replace (sl ∖ ({[r]} ∪ list_to_set rs)) with (sl ∖ (({[r]} ∪ list_to_set rs) ∩ list_to_set (queue c)))
    by set_solver. done.
Qed.

Lemma connectionFailed_wf affected c :
  list_to_set affected ⊆@{gset nat} list_to_set (queue c) ->
  cwf c [] (list_to_set affected) -> cwf (connectionFailed affected c) [] ∅.
Proof.
  intros Hin H. unfold connectionFailed.
  pose proof (markRequestFailures_wf affected (set_ready (ready c) (S (retryAttempts c)) c) [] _ Hin H) as Hm.
  by rewrite difference_diag_L in Hm.
Qed.

(** Counting without a replay recorded is fine as well. *)
Lemma qwf_slack q ex sl sl' h : sl ⊆ sl' -> qwf q ex sl h -> qwf q ex sl' h.
Proof.
  intros Hs [Hn Hl Ho]. split; [done..|]. intros id r Hr. specialize (Ho id r Hr).
  destruct (decide (id ∈ sl)).
  - rewrite (bool_decide_true (id ∈ sl)) in Ho by done. by rewrite bool_decide_true by set_solver.
  - rewrite (bool_decide_false (id ∈ sl)) in Ho by done.
    destruct (bool_decide (id ∈ sl')); [by apply req_ok_slack|done].
Qed.

(** ** The session *)

Definition ledger (l : list InFlight) (w : option nat) : list nat := map request l ++ cons_opt w.

(** The requests in flight and the one being written head the queue in the
    order they were sent; only the oldest has replies, and an exclusive one is
    alone. *)
Record lwf (c : Client) (sched : gset nat) (w : option nat) (l : list InFlight) : Prop := {
  l_queue : exists tail, queue c = ledger l w ++ tail;
  l_sched : forall id, id ∈ sched <-> id ∈ ledger l w;
  l_open : Forall (fun e => length (replies_so_far e) < length (commands_of c (request e))) l;
  l_fresh : Forall (fun e => replies_so_far e = []) (tail l);
  l_alone : forall id, id ∈ ledger l w -> is_exclusive c id = true -> ledger l w = [id]
}.

Definition swf (c : Client) (s : Session) : Prop :=
  lwf c (scheduled s) (writing s) (inFlight s) /\ (reading s = true -> inFlight s <> []).

Lemma lwf_in_queue c sched w l id : lwf c sched w l -> id ∈ ledger l w -> id ∈ queue c.
Proof. intros [[t ->] _ _ _ _] H. apply elem_of_app. by left. Qed.

Lemma cwf_nodup c ex sl : cwf c ex sl -> NoDup (queue c).
Proof. intros [Hn _ _]. by apply NoDup_app in Hn as [? _]. Qed.

Lemma lwf_nodup c ex sl sched w l : cwf c ex sl -> lwf c sched w l -> NoDup (ledger l w).
Proof.
  intros Hc%cwf_nodup [[t Ht] _ _ _ _]. rewrite Ht in Hc. by apply NoDup_app in Hc as [? _].
Qed.

Lemma attr_ok {ex sl} c id : cwf c ex sl ->
  (is_quit c id = true -> is_exclusive c id = true /\ is_pipeline c id = false) /\
  (is_exclusive c id = true -> length (commands_of c id) = 1).
Proof.
  intros Hc. unfold is_quit, is_exclusive, is_pipeline, commands_of, attr.
  destruct (heap c !! id) as [r|] eqn:E; [|done].
  destruct (q_ok _ _ _ _ Hc id r E) as [_ Hq He _ _ _ _]. split; [done|]. intros H. by apply He.
Qed.

Lemma commands_nonempty {ex sl} c id : cwf c ex sl -> id ∈ queue c -> commands_of c id <> [].
Proof.
  intros Hc Hid. destruct (proj1 (q_live _ _ _ _ Hc id)) as (r & Hr & _).
  { apply elem_of_app. by left. }
  unfold commands_of, attr. rewrite Hr. apply (ro_commands _ _ _ (q_ok _ _ _ _ Hc id r Hr)).
Qed.

(** Shape alone decides what the ledger looks at. *)
Lemma l_open_shape c c' l :
  same_shape c c' ->
  Forall (fun e => length (replies_so_far e) < length (commands_of c (request e))) l ->
  Forall (fun e => length (replies_so_far e) < length (commands_of c' (request e))) l.
Proof.
  intros Hs H. eapply Forall_impl; [exact H|]. intros e. by destruct (Hs (request e)) as (-> & _).
Qed.

(** *** settleDuplexTerminalFailure *)

Lemma elem_of_remove_first x id l : x ∈ l -> x <> id -> x ∈ remove_first id l.
Proof.
  induction l as [|y l IH]; simpl; [done|]. intros [->|Hx]%elem_of_cons Hne.
  - destruct (Nat.eqb_spec y id); [done|by left].
  - destruct (Nat.eqb_spec y id); [done|]. right. by apply IH.
Qed.

Lemma settle_entries_wf err ids c :
  cwf c [] ∅ -> NoDup ids -> (forall id, id ∈ ids -> id ∈ queue c) ->
  cwf (foldl (settle_entry err) c ids) [] ∅ /\
  (forall x, x ∉ ids -> x ∈ queue c -> x ∈ queue (foldl (settle_entry err) c ids)).
Proof.
  revert c. induction ids as [|id ids IH]; intros c Hc Hn Hin; simpl; [done|].
  apply NoDup_cons in Hn as [Hid Hn].
  destruct (IH (settle_entry err c id)) as [H1 H2]; [|done|..].
  - apply cwf_settle_entry; [apply Hin; by left|done].
  - intros x Hx. simpl. apply elem_of_remove_first; [apply Hin; by right|congruence].
  - split; [done|]. intros x [Hne Hx]%not_elem_of_cons Hq. apply H2; [done|].
    simpl. by apply elem_of_remove_first.
Qed.

Lemma settleDuplexTerminalFailure_wf c l w err :
  cwf c [] ∅ -> NoDup (ledger l w) -> (forall id, id ∈ ledger l w -> id ∈ queue c) ->
  cwf (settleDuplexTerminalFailure l w err c) [] ∅.
Proof.
  unfold ledger, settleDuplexTerminalFailure. intros Hc Hn Hin.
  set (c1 := foldl _ c _). apply NoDup_app in Hn as (Hn & Hd & _).
  destruct (settle_entries_wf err (map request l) c Hc Hn) as [H1 H2]; [set_solver|]. fold c1 in H1, H2.
  assert (cwf (match w with Some id => if bool_decide (id ∈ map request l) then c1 else settle_entry err c1 id
    | None => c1 end) [] ∅) as H.
  { destruct w as [id|]; [|done]. case_bool_decide; [done|]. apply cwf_settle_entry; [|done].
    apply H2; [done|]. apply Hin. set_solver. }
  by destruct (existsb _ _).
Qed.

(** *** applyDuplexReply *)

Lemma applyDuplexReply_wf c sched w l reply closeErr l' sched' stop c' :
  l <> [] -> cwf c [] ∅ -> lwf c sched w l ->
  applyDuplexReply l sched reply closeErr c = (l', sched', stop, c') ->
  cwf c' [] ∅ /\ lwf c' sched' w l' /\ same_shape c c'.
Proof.
  intros Hne Hc Hl. destruct l as [|entry rest]; [done|]. simpl.
  set (id := request entry). set (replies := replies_so_far entry ++ [reply]).
  pose proof (lwf_nodup _ _ _ _ _ _ Hc Hl) as Hn.
  destruct Hl as [[t Ht] Hsch Hopen Hfresh Halone]. simpl in Ht, Hfresh. fold id in Ht.
  apply Forall_cons in Hopen as [Ho Hopen].
  destruct (Nat.eqb_spec (length replies) (length (commands_of c id))) as [El|El]; simpl;
    intros [= <- <- <- <-].
  - set (c1 := complete id replies _ (pop id c)).
    assert (same_shape c c1) as Hs by (unfold c1; auto with shape).
    split_and!; [by eapply cwf_pop_complete| |done].
    unfold ledger in Hn. simpl in Hn. apply NoDup_cons in Hn as [Hnin Hn]. fold (ledger rest w) in Hnin.
    split.
    + exists t. unfold c1. simpl. by rewrite (proj1 (pop_head _ _ _ Ht)).
    + intros x. rewrite elem_of_difference, Hsch, elem_of_singleton. unfold ledger at 1. simpl.
      rewrite elem_of_cons. fold (ledger rest w) id. set_solver.
    + eapply l_open_shape; [exact Hs|done].
    + destruct rest; [done|]. by apply Forall_cons in Hfresh as [_ ?].
    + intros x Hx. destruct (Hs x) as (_ & _ & -> & _). intros Hex.
      assert (ledger (entry :: rest) w = [x]) as E by (apply Halone; [by right|done]).
      unfold ledger in E. simpl in E. injection E as _ E. fold (ledger rest w) in E.
      rewrite E in Hx. by apply elem_of_nil in Hx.
  - split_and!; [done| |by apply same_shape_heap]. split; simpl; try done; eauto.
    constructor; [|done]. simpl. fold id in Ho. unfold replies in *. rewrite length_app in *. simpl in *. lia.
Qed.

(** *** reconcileDuplexFailure *)

Lemma replay_ok l b r :
  req_ok 0 l r -> (b = true -> exclusive r = false) -> req_ok 1 l (replay b r).
Proof.
  intros [? ? He ? ? ? ?] Hb. split; simpl; try done; try (destruct b; lia).
  intros Hx. destruct (He Hx) as [? ?]. split; [done|]. destruct b; [|done].
  by rewrite Hb in Hx.
Qed.

Lemma cwf_replay id b c sl :
  cwf c [] sl -> id ∉ sl -> (b = true -> is_exclusive c id = false) ->
  cwf (update_request id (replay b) c) [] ({[id]} ∪ sl).
Proof.
  intros Hc Hid Hb. eapply (qwf_update _ id _ _ sl); [done|set_solver| |done].
  intros r Hr. rewrite (bool_decide_false (id ∈ sl)), (bool_decide_true (id ∈ {[id]} ∪ sl)) by set_solver.
  intros Hok. apply replay_ok; [done|]. intros Hb'. specialize (Hb Hb').
  unfold is_exclusive, attr in Hb. by rewrite Hr in Hb.
Qed.

Lemma not_exclusive_not_quit {ex sl} c id : cwf c ex sl -> is_exclusive c id = false -> is_quit c id = false.
Proof.
  intros Hc He. destruct (is_quit c id) eqn:E; [|done].
  destruct (proj1 (attr_ok c id Hc) E) as [? _]. congruence.
Qed.

(** Entries without a reply are all replayed. *)
Lemma reconcile_replays t l c retry qf :
  cwf c [] (list_to_set retry) -> queue c = retry ++ map request l ++ t ->
  Forall (fun e => replies_so_far e = []) l ->
  Forall (fun e => is_exclusive c (request e) = false) l ->
  exists c', foldl reconcile_entry (retry, qf, c) l = (retry ++ map request l, qf, c') /\
    cwf c' [] (list_to_set (retry ++ map request l)) /\ queue c' = queue c /\ same_shape c c'.
Proof.
  revert c retry. induction l as [|e l IH]; intros c retry Hc Hq Hr He; simpl.
  { rewrite app_nil_r. exists c. split_and!; done || by apply same_shape_heap. }
  apply Forall_cons in Hr as [Hr0 Hr]. apply Forall_cons in He as [He0 He].
  rewrite (not_exclusive_not_quit c (request e) Hc He0), Hr0, andb_false_r.
  set (id := request e) in *. set (c1 := update_request id (replay true) c).
  assert (same_shape c c1) as Hs by (unfold c1; auto with shape).
  pose proof (cwf_nodup _ _ _ Hc) as Hn. rewrite Hq in Hn. simpl in Hn.
  assert (id ∉ retry) as Hid by (apply NoDup_app in Hn as (_ & Hd & _); set_solver).
  destruct (IH c1 (retry ++ [id])) as (c' & E & Hc' & Hq' & Hs').
  - unfold c1. rewrite list_to_set_app_L. simpl.
    replace (list_to_set retry ∪ ({[id]} ∪ ∅)) with ({[id]} ∪ list_to_set retry : gset nat) by set_solver.
    apply cwf_replay; [done|set_solver|done].
  - unfold c1. simpl. rewrite Hq. by rewrite <- app_assoc.
  - done.
  - eapply Forall_impl; [exact He|]. simpl. intros e'. by destruct (Hs (request e')) as (_ & _ & -> & _).
  - exists c'. rewrite E, <- !app_assoc in *. simpl in *. split_and!; [done|done|by rewrite Hq'|].
    by eapply same_shape_trans.
Qed.

(** Only the oldest entry can have part of its replies, so it is the head of
    the queue when it is settled. *)
Lemma reconcile_entries c sched w l :
  cwf c [] ∅ -> lwf c sched w l -> Forall (fun e => is_exclusive c (request e) = false) l ->
  exists retry c' t, foldl reconcile_entry ([], false, c) l = (retry, false, c') /\
    cwf c' [] (list_to_set retry) /\ queue c' = retry ++ cons_opt w ++ t /\ same_shape c c'.
Proof.
  intros Hc [[t Ht] _ _ Hfresh _] He. unfold ledger in Ht. rewrite <- app_assoc in Ht.
  destruct l as [|e l]; simpl.
  { exists [], c, t. split_and!; done || by apply same_shape_heap. }
  apply Forall_cons in He as [He0 He]. simpl in Ht, Hfresh. set (id := request e) in *.
  rewrite (not_exclusive_not_quit c id Hc He0).
  destruct (is_pipeline c id && (0 <? length (replies_so_far e)))%nat.
  - set (c1 := complete id _ None (pop id c)).
    assert (same_shape c c1) as Hs by (unfold c1; auto with shape).
    destruct (reconcile_replays (cons_opt w ++ t) l c1 [] false) as (c' & E & Hc' & Hq' & Hs').
    + by eapply cwf_pop_complete.
    + unfold c1. simpl. by rewrite (proj1 (pop_head _ _ _ Ht)).
    + done.
    + eapply Forall_impl; [exact He|]. simpl. intros e'. by destruct (Hs (request e')) as (_ & _ & -> & _).
    + exists (map request l), c', t. split_and!; [done|done| |by eapply same_shape_trans].
      rewrite Hq'. unfold c1. simpl. by rewrite (proj1 (pop_head _ _ _ Ht)).
  - set (c1 := update_request id (replay true) c).
    assert (same_shape c c1) as Hs by (unfold c1; auto with shape).
    destruct (reconcile_replays (cons_opt w ++ t) l c1 [id] false) as (c' & E & Hc' & Hq' & Hs').
    + unfold c1. simpl. apply cwf_replay; [done|set_solver|done].
    + done.
    + done.
    + eapply Forall_impl; [exact He|]. simpl. intros e'. by destruct (Hs (request e')) as (_ & _ & -> & _).
    + exists (id :: map request l), c', t. split_and!; [done|done| |by eapply same_shape_trans].
      rewrite Hq'. done.
Qed.

(** A QUIT being written is alone. *)
Lemma quit_writing_alone c sched id l :
  cwf c [] ∅ -> lwf c sched (Some id) l -> is_quit c id = true -> l = [].
Proof.
  intros Hc Hl Hq. destruct (proj1 (attr_ok c id Hc) Hq) as [Hx _].
  assert (ledger l (Some id) = [id]) as El by (apply (l_alone _ _ _ _ Hl); [unfold ledger; set_solver|done]).
  unfold ledger in El. destruct l as [|? [|]]; simpl in El; done.
Qed.

Lemma reconcile_finish retry qf c :
  cwf c [] (list_to_set retry) -> list_to_set retry ⊆@{gset nat} list_to_set (queue c) ->
  cwf (let c := markRequestFailures retry c in if qf : bool then stopAfterQuitFailure c else c) [] ∅.
Proof.
  intros Hc Hsub. pose proof (markRequestFailures_wf _ _ _ _ Hsub Hc) as Hm.
  rewrite difference_diag_L in Hm. by destruct qf.
Qed.

Lemma reconcileDuplexFailure_wf c sched w l ex :
  cwf c [] ∅ -> lwf c sched w l -> Forall (fun e => is_exclusive c (request e) = false) l ->
  (forall id, w = Some id -> is_exclusive c id && MayHaveExecuted ex = false) ->
  cwf (reconcileDuplexFailure l w ex c) [] ∅.
Proof.
  intros Hc Hl He Hw. unfold reconcileDuplexFailure.
  destruct w as [id|]; [destruct (is_quit c id) eqn:Eq|].
  - assert (l = []) as -> by (by eapply quit_writing_alone).
    destruct (l_queue _ _ _ _ Hl) as [t Ht]. cbn [foldl reconcile_writing]. rewrite Eq.
    apply (reconcile_finish [] true); [|set_solver]. by apply (cwf_pop_complete id t).
  - destruct (reconcile_entries c sched (Some id) l Hc Hl He) as (retry & c1 & t & -> & Hc1 & Hq1 & Hs1).
    cbn [reconcile_writing cons_opt] in *. destruct (Hs1 id) as (_ & E1 & Ex & _). rewrite E1, Eq.
    apply (reconcile_finish _ false); rewrite list_to_set_app_L; simpl.
    + replace (list_to_set retry ∪ ({[id]} ∪ ∅)) with ({[id]} ∪ list_to_set retry : gset nat) by set_solver.
      apply cwf_replay; [done| |].
      * pose proof (cwf_nodup _ _ _ Hc1) as Hn. rewrite Hq1 in Hn. apply NoDup_app in Hn as (_ & Hd & _).
        intros Hin. rewrite elem_of_list_to_set in Hin. apply (Hd id Hin). by left.
      * intros Hm. specialize (Hw id eq_refl). rewrite Hm, andb_true_r in Hw. by rewrite Ex.
    + rewrite Hq1. set_solver.
  - destruct (reconcile_entries c sched None l Hc Hl He) as (retry & c1 & t & -> & Hc1 & Hq1 & Hs1).
    cbn [reconcile_writing cons_opt] in *. apply (reconcile_finish _ false); [done|]. rewrite Hq1. set_solver.
Qed.

(** *** One step of the session *)

Lemma in_flight_not_exclusive c sched w l :
  cwf c [] ∅ -> lwf c sched w l ->
  match l, w with e :: _, None => is_exclusive c (request e) = false | _, _ => True end ->
  Forall (fun e => is_exclusive c (request e) = false) l.
Proof.
  intros Hc Hl Hhead. rewrite Forall_forall. intros e He.
  destruct (is_exclusive c (request e)) eqn:Ex; [|done]. exfalso.
  assert (request e ∈ map request l) as Hin by (by apply (list_elem_of_fmap_2 request)).
  assert (ledger l w = [request e]) as El.
  { apply (l_alone _ _ _ _ Hl); [unfold ledger; set_solver|done]. }
  unfold ledger in El. destruct l as [|e0 [|]]; [by apply elem_of_nil in Hin| |done].
  destruct w as [id|]; [done|]. simpl in El. injection El as El. rewrite El in Hhead. congruence.
Qed.

(** What one side of the session leaves behind when it fails. *)
Definition outcome_wf (o : outcome) : Prop :=
  match o with
  | Running c s => cwf c [] ∅ /\ swf c s
  | Ended c _ _ => cwf c [] ∅
  end.

Lemma terminal_wf c sched w l err :
  cwf c [] ∅ -> lwf c sched w l -> cwf (settleDuplexTerminalFailure l w err c) [] ∅.
Proof.
  intros Hc Hl. apply settleDuplexTerminalFailure_wf; [done|by eapply lwf_nodup|].
  intros id. by eapply lwf_in_queue.
Qed.

Lemma write_failed_wf c sched id l ex e :
  cwf c [] ∅ -> lwf c sched (Some id) l -> outcome_wf (write_failed c l id ex e).
Proof.
  intros Hc Hl. unfold write_failed. destruct (is_exclusive c id && MayHaveExecuted ex) eqn:E; simpl.
  - by eapply terminal_wf.
  - eapply reconcileDuplexFailure_wf; [done|done| |].
    + eapply in_flight_not_exclusive; [done|done|by destruct l].
    + intros id' [= <-]. done.
Qed.

Lemma read_failed_wf c sched l e :
  cwf c [] ∅ -> lwf c sched None l -> outcome_wf (read_failed c l e).
Proof.
  intros Hc Hl. unfold read_failed.
  destruct (asIORedisTerminalError e) as [[cause close]|]; simpl; [by eapply terminal_wf|].
  destruct l as [|entry l]; simpl.
  - eapply reconcileDuplexFailure_wf; [done|done|done|done].
  - destruct (is_exclusive c (request entry)) eqn:E; simpl; [by eapply terminal_wf|].
    eapply reconcileDuplexFailure_wf; [done|done| |done].
    eapply in_flight_not_exclusive; [done|done|done].
Qed.

(** A request handed to the reader's side once it is written. *)
Lemma lwf_written c sched id l :
  cwf c [] ∅ -> lwf c sched (Some id) l -> lwf c sched None (l ++ [MkInFlight id []]).
Proof.
  intros Hc Hl. pose proof (lwf_in_queue _ _ _ _ id Hl) as Hin.
  assert (ledger (l ++ [MkInFlight id []]) None = ledger l (Some id)) as E.
  { unfold ledger. by rewrite map_app, app_nil_r. }
  destruct Hl as [[t Ht] Hs Ho Hf Ha]. split; rewrite ?E; eauto.
  - apply Forall_app. split; [done|]. constructor; [|done]. simpl.
    assert (id ∈ queue c) as Hid by (apply Hin; unfold ledger; set_solver).
    pose proof (commands_nonempty c id Hc Hid). destruct (commands_of c id); simpl; [done|lia].
  - destruct l; [done|]. simpl in *. apply Forall_app. by repeat constructor.
Qed.

Lemma firstUnscheduled_next c sched l id :
  lwf c sched None l -> NoDup (queue c) -> firstUnscheduled sched c = Some id ->
  exists tail, queue c = ledger l None ++ id :: tail.
Proof.
  intros [[t Ht] Hs _ _ _] Hn. unfold firstUnscheduled. rewrite Ht, filter_app.
  assert (filter (fun x => x ∉ sched) (ledger l None) = []) as ->.
  { apply filter_none. intros x Hx H. apply H. by apply Hs. }
  rewrite Ht in Hn. apply NoDup_app in Hn as (_ & Hd & _).
  destruct t as [|x t]; [done|]. simpl. rewrite filter_cons, decide_True.
  - intros [= <-]. by exists t.
  - rewrite Hs. intros Hx. apply (Hd x Hx). by left.
Qed.

Lemma existsb_exclusive c l :
  ioredisExclusiveInFlight c l = false -> Forall (fun e => is_exclusive c (request e) = false) l.
Proof.
  induction l as [|e l IH]; simpl; [done|]. intros [? ?]%orb_false_iff. constructor; auto.
Qed.

Lemma schedule_wf c s id :
  cwf c [] ∅ -> swf c s -> nextWrite s c = Some id ->
  swf c (MkSession ({[id]} ∪ scheduled s) (Some id) (inFlight s) (reading s)).
Proof.
  intros Hc [Hl Hr]. unfold nextWrite. destruct (writing s) eqn:Ew; [done|].
  destruct (ioredisExclusiveInFlight c (inFlight s)) eqn:Ex; [done|].
  destruct (firstUnscheduled _ _) as [id'|] eqn:Ef; [|done].
  destruct (_ || _) eqn:Eg; [|done]. intros [= ->].
  destruct (firstUnscheduled_next _ _ _ _ Hl (cwf_nodup _ _ _ Hc) Ef) as [t Ht].
  assert (ledger (inFlight s) (Some id) = ledger (inFlight s) None ++ [id]) as E
    by (unfold ledger; simpl; by rewrite app_nil_r).
  split; [|done]. simpl. destruct Hl as [_ Hs Ho Hf Ha]. split; rewrite ?E; try done.
  - exists t. by rewrite Ht, <- app_assoc.
  - intros x. rewrite elem_of_union, elem_of_singleton, Hs, elem_of_app, list_elem_of_singleton. tauto.
  - intros x. rewrite elem_of_app, list_elem_of_singleton. intros Hx Hxe.
    apply existsb_exclusive in Ex. rewrite Forall_forall in Ex.
    destruct Hx as [Hx| ->].
    + unfold ledger in Hx. simpl in Hx. rewrite app_nil_r in Hx.
      apply (list_elem_of_fmap request) in Hx as (e & -> & He). by rewrite Ex in Hxe.
    + rewrite Hxe in Eg. simpl in Eg. apply bool_decide_eq_true in Eg. by rewrite Eg.
Qed.

Lemma session_step_wf c s sig o :
  cwf c [] ∅ -> swf c s -> session_step c s sig = Some o -> outcome_wf o.
Proof.
  intros Hc Hs. pose proof Hs as [Hl Hr]. destruct sig; simpl.
  - destruct (nextWrite s c) as [id|] eqn:E; [|done]. intros [= <-]. split; [done|by apply schedule_wf].
  - destruct (writing s) as [id|] eqn:Ew; [|done]. destruct (ExError ex) as [e|].
    2: { intros [= <-]. split; [done|]. split; simpl; [by apply lwf_written|].
         intros _ E. by apply app_nil in E as [_ ?]. }
    destruct (reading s) eqn:Er; [|intros [= <-]; by eapply write_failed_wf].
    destruct pending as [[e'|reply]|]; [intros [= <-]; by eapply write_failed_wf| |done].
    destruct (applyDuplexReply _ _ _ _ _) as [[[l' sched'] stop] c'] eqn:Ea.
    destruct (applyDuplexReply_wf _ _ _ _ _ _ _ _ _ _ (Hr eq_refl) Hc Hl Ea) as (Hc' & Hl' & _).
    destruct stop; intros [= <-]; [done|by eapply write_failed_wf].
  - destruct (reading s) eqn:Er; [done|]. simpl. destruct (Z.ltb_spec 0 (ioredisOutstandingReplies c (inFlight s)));
      [|done]. intros [= <-]. split; [done|]. split; [done|]. simpl. intros _ E. by rewrite E in *.
  - destruct (reading s) eqn:Er; [|done]. simpl. destruct r as [e|reply].
    + destruct (writing s) as [id|] eqn:Ew; [|intros [= <-]; by eapply read_failed_wf].
      destruct pending as [ex|]; [|done]. destruct (ExError ex) as [e'|].
      * destruct (asIORedisTerminalError e) as [[cause close]|]; intros [= <-]; simpl; [by eapply terminal_wf|].
        eapply reconcileDuplexFailure_wf; [done|done| |].
        -- eapply in_flight_not_exclusive; [done|done|by destruct (inFlight s)].
        -- intros id' [= <-]. destruct (is_exclusive c id) eqn:Ex; [|done]. exfalso.
           assert (ledger (inFlight s) (Some id) = [id]) as El.
           { apply (l_alone _ _ _ _ Hl); [unfold ledger; set_solver|done]. }
           apply (Hr eq_refl). unfold ledger in El. destruct (inFlight s) as [|? [|]]; done.
      * intros [= <-]. eapply read_failed_wf; [done|by apply lwf_written].
    + destruct (inFlight s) as [|e0 l0] eqn:El; [by destruct Hr|].
      destruct (applyDuplexReply _ _ _ _ _) as [[[l' sched'] stop] c'] eqn:Ea.
      destruct (applyDuplexReply_wf _ _ _ _ _ _ _ _ _ _ (Hr eq_refl) Hc Hl Ea) as (Hc' & Hl' & _).
      destruct stop; intros [= <-]; [done|]. split; [done|]. by split.
  - destruct (writing s), (inFlight s), (reading s); try done. by intros [= <-].
  - intros [= <-]. done.
  - destruct (cancelled c); [|done]. by intros [= <-].
Qed.

(** ** The closed flag *)

Lemma closed_foldl {A} (f : Client -> A -> Client) l c :
  (forall c a, closed (f c a) = closed c) -> closed (foldl f c l) = closed c.
Proof. intros Hf. revert c. induction l as [|a l IH]; intros c; simpl; [done|]. by rewrite IH. Qed.

Lemma closed_pop id c : closed (pop id c) = closed c.
Proof. unfold pop. destruct (queue c) as [|q ?]; [done|]. by destruct (Nat.eqb q id). Qed.

Lemma closed_first e c : closed (settleFirstReady e c) = closed c.
Proof. unfold settleFirstReady. by destruct (firstReady c). Qed.

Lemma closed_mark_queue targets q c ret exh c' :
  mark_queue targets q c = (ret, exh, c') -> closed c' = closed c.
Proof.
  revert c ret exh c'. induction q as [|id q IH]; intros c ret exh c'; simpl; [by intros [= _ _ <-]|].
  case_bool_decide as Ht.
  - destruct (mark_queue targets q _) as [[ret1 exh1] c1] eqn:E. intros H.
    assert (c' = c1) as -> by (by destruct (Nat.ltb _ _); injection H). by rewrite (IH _ _ _ _ E).
  - destruct (mark_queue targets q c) as [[ret1 exh1] c1] eqn:E. intros [= _ _ <-]. by eapply IH.
Qed.

Lemma closed_exhaust_request c id : closed (exhaust_request c id) = closed c.
Proof. unfold exhaust_request. destruct (is_pipeline c id); [done|]. by destruct (is_quit _ id). Qed.

Lemma closed_mark requests c : closed (markRequestFailures requests c) = closed c.
Proof.
  unfold markRequestFailures. destruct requests; [done|].
  destruct (mark_queue _ _ c) as [[ret exh] c1] eqn:E. rewrite closed_foldl by apply closed_exhaust_request.
  simpl. by eapply closed_mark_queue.
Qed.

Lemma closed_connectionFailed l c : closed (connectionFailed l c) = closed c.
Proof. unfold connectionFailed. by rewrite closed_mark. Qed.

Lemma closed_terminal l w e c : closed (settleDuplexTerminalFailure l w e c) = closed c.
Proof.
  unfold settleDuplexTerminalFailure. set (c1 := foldl _ _ _).
  assert (closed c1 = closed c) as <- by (by apply closed_foldl).
  destruct (existsb _ _), w; simpl; try done; by case_bool_decide.
Qed.

Lemma closed_reconcile_entry retry qf c e :
  closed (reconcile_entry (retry, qf, c) e).2 = closed c.
Proof.
  unfold reconcile_entry. destruct (is_quit c _); simpl; [apply closed_pop|].
  destruct (_ && _); simpl; [apply closed_pop|done].
Qed.

Lemma closed_reconcile_entries l acc : closed (foldl reconcile_entry acc l).2 = closed acc.2.
Proof.
  revert acc. induction l as [|e l IH]; intros [[retry qf] c]; cbn [foldl]; [done|].
  rewrite IH. apply closed_reconcile_entry.
Qed.

Lemma closed_reconcile l w ex c : closed (reconcileDuplexFailure l w ex c) = closed c.
Proof.
  unfold reconcileDuplexFailure. pose proof (closed_reconcile_entries l ([], false, c)) as H.
  destruct (foldl reconcile_entry _ l) as [[retry qf] c1]. simpl in H.
  assert (closed (reconcile_writing (retry, qf, c1) w ex).2 = closed c) as H1.
  { rewrite <- H. destruct w as [id|]; simpl; [|done]. destruct (is_quit c1 id); simpl; [apply closed_pop|done]. }
  destruct (reconcile_writing _ w ex) as [[retry' qf'] c2]. simpl in H1.
  rewrite <- H1. transitivity (closed (markRequestFailures retry' c2)); [by destruct qf'|apply closed_mark].
Qed.

Lemma closed_apply l sched reply e c : closed (applyDuplexReply l sched reply e c).2 = closed c.
Proof.
  unfold applyDuplexReply. destruct l as [|entry rest]; [done|]. destruct (negb _); [done|].
  simpl. apply closed_pop.
Qed.

Definition outcome_client (o : outcome) : Client :=
  match o with Running c _ | Ended c _ _ => c end.

Lemma closed_write_failed c l id ex e : closed (outcome_client (write_failed c l id ex e)) = closed c.
Proof. unfold write_failed. destruct (_ && _); simpl; [apply closed_terminal|apply closed_reconcile]. Qed.

Lemma closed_read_failed c l e : closed (outcome_client (read_failed c l e)) = closed c.
Proof.
  unfold read_failed. destruct (asIORedisTerminalError e) as [[? ?]|]; [apply closed_terminal|].
  destruct l; [|destruct (is_exclusive _ _)]; simpl; first [apply closed_terminal|apply closed_reconcile].
Qed.

Lemma closed_session c s sig o : session_step c s sig = Some o -> closed (outcome_client o) = closed c.
Proof.
  destruct sig; simpl.
  - destruct (nextWrite s c); [|done]. by intros [= <-].
  - destruct (writing s) as [id|]; [|done]. destruct (ExError ex) as [e|]; [|by intros [= <-]].
    destruct (reading s); [|intros [= <-]; apply closed_write_failed].
    destruct pending as [[?|reply]|]; [intros [= <-]; apply closed_write_failed| |done].
    pose proof (closed_apply (inFlight s) (scheduled s) reply closeErr c) as H.
    destruct (applyDuplexReply _ _ _ _ _) as [[[l' sched'] stop] c']. simpl in H.
    destruct stop; intros [= <-]; [done|]. by rewrite closed_write_failed.
  - destruct (_ && _); [|done]. by intros [= <-].
  - destruct (negb (reading s)); [done|]. destruct r as [e|reply].
    + destruct (writing s); [|intros [= <-]; apply closed_read_failed].
      destruct pending as [ex|]; [|done]. destruct (ExError ex); [|intros [= <-]; apply closed_read_failed].
      destruct (asIORedisTerminalError e) as [[? ?]|]; intros [= <-]; [apply closed_terminal|apply closed_reconcile].
    + destruct (inFlight s) as [|e0 l0] eqn:El; [by intros [= <-]|]. rewrite <- El.
      pose proof (closed_apply (inFlight s) (scheduled s) reply closeErr c) as H.
      destruct (applyDuplexReply _ _ _ _ _) as [[[l' sched'] stop] c']. simpl in H.
      by destruct stop; intros [= <-].
  - destruct (writing s), (inFlight s), (reading s); try done. by intros [= <-].
  - by intros [= <-].
  - destruct (cancelled c); [|done]. by intros [= <-].
Qed.

(** ** Admission *)

Lemma qwf_insert id r q ex sl h :
  qwf q ex sl h -> h !! id = None -> id ∉ sl -> req_ok 0 IORedisMaxRetriesPerRequest r ->
  future r = None -> qwf q (id :: ex) sl (<[id := r]> h).
Proof.
  intros [Hn Hl Ho] Hid Hsl Hr Hf.
  assert (q ++ id :: ex ≡ₚ id :: q ++ ex) as Hp by (by rewrite Permutation_middle).
  assert (id ∉ q ++ ex) as Hnin by (rewrite Hl; intros (r' & Hr' & _); congruence).
  split.
  - rewrite Hp. by constructor.
  - intros x. rewrite Hp, elem_of_cons, Hl. unfold live. setoid_rewrite lookup_insert_Some. split.
    + intros [->|(r' & Hr' & Hf')]; [by exists r; auto|]. exists r'. split; [|done].
      right. split; [congruence|done].
    + intros (r' & [[<- <-]|[Hne Hr']] & Hf'); [by left|right]. by exists r'.
  - intros x r' [[<- <-]|[Hne Hr']]%lookup_insert_Some.
    + rewrite (bool_decide_false (id ∈ sl)) by done. eapply req_ok_weaken; [|exact Hr].
      destruct (bool_decide (id ∈ id :: ex)); lia.
    + specialize (Ho x r' Hr'). assert (x ∈ id :: ex <-> x ∈ ex) as Hiff by set_solver.
      by rewrite (bool_decide_ext _ _ Hiff).
Qed.

Lemma fresh_id_None c : heap c !! fresh_id c = None.
Proof. apply (not_elem_of_dom (D := gset nat)). unfold fresh_id. apply is_fresh. Qed.

Lemma fresh_id_new c id : is_Some (heap c !! id) -> fresh_id c <> id.
Proof. intros [r Hr] <-. by rewrite fresh_id_None in Hr. Qed.

(** A request appended to the queue of a client. *)
Lemma admit_wf r c :
  cwf c [] ∅ -> req_ok 0 IORedisMaxRetriesPerRequest r -> future r = None ->
  qwf (queue c ++ [fresh_id c]) [] ∅ (<[fresh_id c := r]> (heap c)) /\
  qwf (queue c) [fresh_id c] ∅ (<[fresh_id c := r]> (heap c)).
Proof.
  intros Hc Hr Hf. pose proof (fresh_id_None c) as Hid.
  assert (qwf (queue c) [fresh_id c] ∅ (<[fresh_id c := r]> (heap c))) as H
    by (apply qwf_insert; [done|done|set_solver|done|done]).
  split; [|done]. eapply qwf_perm; [apply (qwf_reattach (fresh_id c) (queue c)); [exact H|]| |done].
  - intros r' [[_ <-]|[? _]]%lookup_insert_Some; [|done]. by apply (ro_failures _ _ _ Hr).
  - by rewrite Permutation_app_comm.
Qed.

Lemma new_request_ok cmds p q x :
  cmds <> [] -> (q = true -> x = true /\ p = false) -> (x = true -> length cmds = 1) ->
  req_ok 0 IORedisMaxRetriesPerRequest (MkRequest cmds p q x 0 0 0 None).
Proof. intros ? ? Hx. split; simpl; try done; try (unfold IORedisMaxRetriesPerRequest; lia). auto. Qed.

(** What admission adds to a client: at most one fresh request, at the end. *)
Definition extends (c c' : Client) : Prop :=
  (exists t, queue c' = queue c ++ t) /\
  (forall id, is_Some (heap c !! id) -> heap c' !! id = heap c !! id) /\ closed c' = closed c /\
  (closed c = true -> queue c' = queue c).

Lemma extends_refl c : extends c c.
Proof. split_and!; [|done..]. exists []. by rewrite app_nil_r. Qed.

Lemma submit_wf cmds p x c :
  cwf c [] ∅ -> (p = false -> length cmds = 1) ->
  cwf (submit cmds p x c).2 [] ∅ /\ extends c (submit cmds p x c).2.
Proof.
  intros Hc Hp. unfold submit. case_bool_decide as Hne; [split; [done|apply extends_refl]|].
  destruct (existsb command_empty cmds); [split; [done|apply extends_refl]|].
  destruct (x && p && negb (length cmds =? 1)) eqn:Eg; [split; [done|apply extends_refl]|].
  set (r := MkRequest cmds p false x 0 0 0 None).
  assert (req_ok 0 IORedisMaxRetriesPerRequest r) as Hr.
  { apply new_request_ok; [done|done|]. intros ->. destruct p; [|auto]. simpl in Eg.
    by destruct (Nat.eqb_spec (length cmds) 1). }
  destruct (admit_wf r c Hc Hr eq_refl) as [H1 H2].
  assert (forall id, is_Some (heap c !! id) -> fresh_id c <> id) as Hfresh.
  { intros id. apply fresh_id_new. }
  destruct (_ || _) eqn:Ec; simpl; (split; [|split_and!; simpl; [|intros id Hid|done|]]).
  - by apply qwf_settle.
  - exists []. by rewrite app_nil_r.
  - rewrite lookup_alter_ne, lookup_insert_ne by auto. done.
  - done.
  - done.
  - eauto.
  - by rewrite lookup_insert_ne by auto.
  - intros Hcl. simpl in Ec. by rewrite Hcl in Ec.
Qed.

Lemma Quit_wf c : cwf c [] ∅ -> cwf (Quit c) [] ∅ /\ extends c (Quit c).
Proof.
  intros Hc. unfold Quit. destruct (quitFuture c); [split; [done|apply extends_refl]|].
  destruct (_ || _) eqn:Ec; [split; [done|apply extends_refl]|].
  set (r := MkRequest [["quit"]] false true true 0 0 0 None).
  destruct (admit_wf r c Hc) as [H1 H2]; [by apply new_request_ok|done|].
  assert (forall id, is_Some (heap c !! id) -> fresh_id c <> id) as Hfresh.
  { intros id. apply fresh_id_new. }
  destruct (_ && _); simpl; (split; [|split_and!; simpl; [|intros id Hid|done|]]).
  - by apply qwf_settle.
  - exists []. by rewrite app_nil_r.
  - rewrite lookup_alter_ne, lookup_insert_ne by auto. done.
  - done.
  - done.
  - eauto.
  - by rewrite lookup_insert_ne by auto.
  - intros Hcl. simpl in Ec. by rewrite Hcl in Ec.
Qed.

Lemma Disconnect_wf c : cwf c [] ∅ -> cwf (Disconnect c) [] ∅ /\ extends c (Disconnect c).
Proof.
  intros Hc. unfold Disconnect. destruct (_ || _); [split; [done|apply extends_refl]|].
  split; [by apply cwf_settleFirstReady|]. unfold extends. rewrite closed_first.
  destruct (settleFirstReady_same (Some EClosed) (stopAfterQuitFailure c)) as [-> ->].
  apply (extends_refl c).
Qed.

(** A session does not notice an admission. *)
Lemma swf_extends c c' s : cwf c [] ∅ -> extends c c' -> swf c s -> swf c' s.
Proof.
  intros Hc ([t' Ht'] & Hh & _ & _) [Hl Hr]. split; [|done].
  assert (forall id, id ∈ ledger (inFlight s) (writing s) -> heap c' !! id = heap c !! id) as Hsame.
  { intros id Hid. apply Hh. destruct (proj1 (q_live _ _ _ _ Hc id)) as (r & Hr' & _); [|by exists r].
    apply elem_of_app. left. by eapply lwf_in_queue. }
  destruct Hl as [[t Ht] Hs Ho Hf Ha]. split; try done.
  - exists (t ++ t'). by rewrite Ht', Ht, app_assoc.
  - rewrite Forall_forall in Ho |- *. intros e He. specialize (Ho e He).
    unfold commands_of, attr in *. rewrite Hsame; [done|].
    unfold ledger. apply elem_of_app. left. by apply (list_elem_of_fmap_2 request).
  - intros id Hid. unfold is_exclusive, attr in *. rewrite Hsame by done. by apply Ha.
Qed.

(** ** The reconnect loop *)

Definition config_wf (cf : config) : Prop :=
  cwf cf.1 [] ∅ /\
  match cf.2 with
  | Duplex s => swf cf.1 s /\ closed cf.1 = false
  | Done => closed cf.1 = true /\ queue cf.1 = []
  | _ => closed cf.1 = false
  end.

Lemma mark_plain_wf requests c ex : cwf c ex ∅ -> cwf (markRequestFailures requests c) ex ∅.
Proof.
  intros H. unfold markRequestFailures. destruct requests as [|r rs]; [done|].
  destruct (mark_queue _ _ c) as [[ret exh] c1] eqn:E.
  apply exhaust_request_all_wf. unfold cwf in *. simpl.
  pose proof (mark_queue_wf _ [] _ _ ex ∅ _ _ _ E H) as H1. revert H1. apply qwf_slack. set_solver.
Qed.

Lemma finishClosed_wf e c :
  cwf c [] ∅ -> closed c = false ->
  cwf (finishClosed e c) [] ∅ /\ closed (finishClosed e c) = true /\ queue (finishClosed e c) = [].
Proof.
  intros Hc Ho. unfold finishClosed. rewrite Ho.
  set (c0 := settleFirstReady _ _).
  assert (cwf c0 (queue c) ∅ /\ closed c0 = true /\ queue c0 = []) as (H0 & H1 & H2).
  { unfold c0. rewrite closed_first. destruct (settleFirstReady_same (Some e)
      (MkClient (heap c) [] (closing c) (disconnecting c) true false (retryAttempts c)
         (firstReady c) (quitFuture c) (cancelled c))) as [Eq Eh].
    unfold cwf. rewrite Eq, Eh. simpl. split; [|done].
    destruct Hc as [Hn Hl Hk]. rewrite app_nil_r in *. split; simpl; [done..|].
    intros id r Hr. eapply req_ok_weaken; [|by apply Hk]. simpl. destruct (bool_decide _); lia. }
  clearbody c0. revert c0 H0 H1 H2. generalize (queue c). clear. intros l.
  induction l as [|id l IH]; intros c0 H0 H1 H2; simpl; [done|].
  apply IH; [by apply cwf_complete|done|done].
Qed.

Lemma stopped_wf c : cwf c [] ∅ -> closed c = false -> config_wf (stopped c).
Proof. intros Hc Ho. destruct (finishClosed_wf EClosed c Hc Ho) as (? & ? & ?). by split. Qed.

Lemma connecting_wf c b : cwf c [] ∅ -> closed c = false -> config_wf (c, Connecting b).
Proof. by split. Qed.

Lemma connection_lost_wf affected c b :
  cwf c [] ∅ -> closed c = false -> config_wf (connectionFailed affected c, Connecting b).
Proof.
  intros Hc Ho. split; cbn [fst snd]; [by apply mark_plain_wf|]. by rewrite closed_connectionFailed.
Qed.

Lemma exchanged_wf id ex closeErr c :
  cwf c [] ∅ -> closed c = false -> peek c = Some id -> config_wf (exchanged id ex closeErr c).
Proof.
  intros Hc Ho Hp. unfold peek in Hp. destruct (queue c) as [|id' rest] eqn:Eq; [done|].
  injection Hp as ->. unfold exchanged.
  assert (forall c0 replies err, queue c0 = id :: rest -> cwf c0 [] ∅ -> closed c0 = false ->
    cwf (complete id replies err (pop id c0)) [] ∅ /\ closed (complete id replies err (pop id c0)) = false) as Hpop.
  { intros c0 replies err Hq0 Hc0 Ho0. split; [by eapply cwf_pop_complete|]. simpl. by rewrite closed_pop. }
  destruct (is_quit c id) eqn:Equit.
  { apply stopped_wf; by apply Hpop. }
  destruct (check_reply_count _ _) as [e|]; [|split; by apply Hpop].
  destruct (asIORedisTerminalError e) as [[cause close]|].
  - set (c0 := if close then setNotReady c else c).
    assert (queue c0 = id :: rest /\ cwf c0 [] ∅ /\ closed c0 = false) as (H1 & H2 & H3)
      by (unfold c0; by destruct close).
    destruct (_ && _), close; split; by apply Hpop.
  - destruct (is_exclusive c id && MayHaveExecuted ex) eqn:Ex; [split; by apply Hpop|].
    unfold exchange_failed. destruct (is_pipeline _ _ && _).
    + destruct (Hpop (setNotReady c) (aborted (Replies ex) (length (commands_of (setNotReady c) id))) None)
        as [H1 H2]; [done..|]. by apply connection_lost_wf.
    + split; cbn [fst snd]; [|by rewrite closed_connectionFailed].
      apply connectionFailed_wf; [simpl; rewrite Eq; set_solver|]. simpl.
      apply (cwf_replay id _ (setNotReady c)); [done|set_solver|].
      intros Hm. by rewrite Hm, andb_true_r in Ex.
Qed.

Lemma connected_wf ph c :
  cwf c [] ∅ -> closed c = false -> ph = Duplex new_session \/ ph = Simple -> config_wf (connected ph c).
Proof.
  intros Hc Ho Hph. unfold connected. split; cbn [fst snd].
  - by apply cwf_settleFirstReady.
  - destruct Hph as [->| ->]; rewrite closed_first; [|done]. split; [|done]. split; [|done].
    split; simpl; try done.
    + exists (queue c). by destruct (settleFirstReady_same None (set_ready true 0 c)) as [-> _].
    + intros id. split; [by intros ?%not_elem_of_empty|by intros ?%elem_of_nil].
    + by intros id ?%elem_of_nil.
Qed.

Lemma connect_failed_wf e c : cwf c [] ∅ -> closed c = false -> config_wf (connect_failed e c).
Proof.
  intros Hc Ho. apply connection_lost_wf; [by apply cwf_settleFirstReady|by rewrite closed_first].
Qed.

Lemma step_wf cf l cf' : config_wf cf -> step cf l = Some cf' -> config_wf cf'.
Proof.
  destruct cf as [c ph]. intros [Hc Hph]. simpl in Hc, Hph.
  assert (forall c', cwf c' [] ∅ /\ extends c c' -> config_wf (c', ph)) as Hext.
  { intros c' [Hc' He]. pose proof He as (_ & _ & Hcl & Hq). split; [done|]. simpl.
    destruct ph; try (by rewrite Hcl).
    - destruct Hph. split; [by apply (swf_extends c)|by rewrite Hcl].
    - destruct Hph as [H1 H2]. rewrite Hcl, Hq by done. done. }
  destruct l; simpl.
  - intros [= <-]. apply Hext. by apply submit_wf.
  - intros [= <-]. apply Hext. by apply submit_wf.
  - intros [= <-]. by apply Hext, Quit_wf.
  - intros [= <-]. by apply Hext, Disconnect_wf.
  - destruct ph; try done; destruct (disconnecting c); try done; intros [= <-]; by apply stopped_wf.
  - destruct ph as [[]| | |]; try done. destruct (cancelled c); [|done]. intros [= <-]. by apply stopped_wf.
  - destruct ph; try done. intros [= <-]. destruct r; try (by apply connect_failed_wf);
      apply connected_wf; auto.
  - destruct ph as [|s| |]; try done. destruct Hph as [Hs Ho].
    destruct (session_step c s sig) as [o|] eqn:E; [|done].
    pose proof (session_step_wf _ _ _ _ Hc Hs E) as Hwf.
    pose proof (closed_session _ _ _ _ E) as Hcl. rewrite Ho in Hcl.
    destruct o as [c' s'|c' stop err]; simpl in Hwf, Hcl; intros [= <-]; [by destruct Hwf|].
    unfold session_ended. destruct stop; [by apply stopped_wf|].
    destruct err; [by apply connection_lost_wf|by apply connecting_wf].
  - destruct ph; try done. destruct (peek c) as [id|] eqn:Ep; [|done]. intros [= <-].
    by apply exchanged_wf.
  - destruct ph; try done. intros [= <-]. by apply (connection_lost_wf [] (setNotReady c)).
  - destruct ph; try done. destruct (cancelled c); [|done]. intros [= <-]. by apply stopped_wf.
Qed.

Lemma reachable_wf cf : reachable cf -> config_wf cf.
Proof.
  induction 1; [|by eapply step_wf]. split; [|done]. split; simpl; try done.
  - constructor.
  - intros id. split; [by intros ?%elem_of_nil|]. intros (r & Hr & _). by rewrite lookup_empty in Hr.
Qed.

(** ** Properties *)

(** C3: Whatever callers, transports and reconnects do, a request waits in the
    queue exactly as long as its future is open, and once: a settled request is
    never sent again, and no request is dropped without an answer. *)
Theorem queue_holds_open_requests c ph :
  reachable (c, ph) ->
  NoDup (queue c) /\
  forall id, id ∈ queue c <-> exists r, heap c !! id = Some r /\ future r = None.
Proof.
  intros [Hc _]%reachable_wf. destruct Hc as [Hn Hl _]. simpl in *. rewrite app_nil_r in *.
  by split.
Qed.

(** The requests a duplex session has sent are the head of the queue, in
    the order they were sent, the one being written last; only the oldest has
    replies, fewer than its commands; and a bounded blocking command or a QUIT
    is alone on the connection. *)
Theorem in_flight_heads_queue c s :
  reachable (c, Duplex s) ->
  (exists waiting, queue c = map request (inFlight s) ++ cons_opt (writing s) ++ waiting /\
     forall id, id ∈ waiting -> id ∉ scheduled s) /\
  Forall (fun e => length (replies_so_far e) < length (commands_of c (request e))) (inFlight s) /\
  Forall (fun e => replies_so_far e = []) (tail (inFlight s)) /\
  (forall id, id ∈ map request (inFlight s) ++ cons_opt (writing s) -> is_exclusive c id = true ->
     map request (inFlight s) ++ cons_opt (writing s) = [id]).
Proof.
  intros [Hc [[Hl _] _]]%reachable_wf. simpl in *. pose proof (cwf_nodup _ _ _ Hc) as Hn.
  destruct Hl as [[t Ht] Hs Ho Hf Ha]. split_and!; [|done..].
  exists t. unfold ledger in *. rewrite Ht, app_assoc. split; [done|].
  rewrite Ht in Hn. apply NoDup_app in Hn as (_ & Hd & _). intros id Hid. rewrite Hs.
  intros Hx. by apply (Hd id Hx).
Qed.

(** Retries are bounded: an open request has failed at most
    IORedisMaxRetriesPerRequest times, and no request is replayed more than
    once per counted failure, ambiguous replays included. *)
Theorem retries_bounded c ph id r :
  reachable (c, ph) -> heap c !! id = Some r ->
  ambiguousReplays r <= replays r /\ replays r <= retryFailures r /\
  retryFailures r <= S IORedisMaxRetriesPerRequest /\
  (future r = None -> retryFailures r <= IORedisMaxRetriesPerRequest).
Proof.
  intros [Hc _]%reachable_wf Hr. destruct (q_ok _ _ _ _ Hc id r Hr) as [_ _ _ Ha Hb Hf Hm].
  rewrite !bool_decide_false in Hb, Hf by set_solver. split_and!; [done|lia|done|done].
Qed.

(** When the loop has ended, every request ever admitted is settled: nobody
    waits for ever, whatever was in flight when the client was closed. *)
Theorem done_settles_everything c id r :
  reachable (c, Done) -> heap c !! id = Some r -> is_Some (future r).
Proof.
  intros [Hc [_ Hq]]%reachable_wf Hr. simpl in *. destruct (future r) eqn:E; [done|]. exfalso.
  assert (id ∈ queue c ++ []) as Hin by (apply (q_live _ _ _ _ Hc); by exists r).
  rewrite Hq in Hin. by apply elem_of_nil in Hin.
Qed.

(** ** Which reply answers which request

    The history of one duplex session: the requests written, the replies read
    and the requests answered, in order. *)

Definition sent (s : Session) (l : label) : list nat :=
  match l with
  | LSession (SWritten ex _ _) => match ExError ex with None => cons_opt (writing s) | Some _ => [] end
  | _ => []
  end.

Definition received (l : label) : list Reply :=
  match l with LSession (SRead (inr reply) _ _) => [reply] | _ => [] end.

Definition answered (c : Client) (s : Session) (l : label) : list (nat * list Reply) :=
  match l, inFlight s with
  | LSession (SRead (inr reply) _ _), entry :: _ =>
      let replies := replies_so_far entry ++ [reply] in
      if Nat.eqb (length replies) (length (commands_of c (request entry)))
      then [(request entry, replies)] else []
  | _, _ => []
  end.

Inductive session_history : list nat -> list Reply -> list (nat * list Reply) -> Client -> Session -> Prop :=
| history_start c b c' :
    reachable (c, Connecting b) -> step (c, Connecting b) (LConnect ConnDuplex) = Some (c', Duplex new_session) ->
    session_history [] [] [] c' new_session
| history_step ws rs log c s l c' s' :
    session_history ws rs log c s -> step (c, Duplex s) l = Some (c', Duplex s') ->
    session_history (ws ++ sent s l) (rs ++ received l) (log ++ answered c s l) c' s'.

(** The request was given exactly these replies. *)
Definition given (c : Client) (id : nat) (replies : list Reply) : Prop :=
  exists r k, heap c !! id = Some r /\ future r = Some k /\ CReplies k = replies /\
    length replies = length (commands r).

Lemma history_reachable ws rs log c s : session_history ws rs log c s -> reachable (c, Duplex s).
Proof.
  induction 1 as [c b c' Hr Hs|ws rs log c s l c' s' _ IH Hs]; [|]; by eapply reachable_step.
Qed.

Lemma given_settle c id replies id' replies' err :
  given c id replies -> given (complete id' replies' err c) id replies.
Proof.
  intros (r & k & Hr & Hf & Hk & Hl). destruct (decide (id' = id)) as [->|Hne].
  - assert (settle replies' err r = r) as E by (unfold settle; by rewrite Hf).
    exists r, k. simpl. rewrite lookup_alter_eq, Hr. simpl. by rewrite E.
  - exists r, k. simpl. by rewrite lookup_alter_ne.
Qed.

Lemma given_heap c c' id replies : heap c' !! id = heap c !! id -> given c id replies -> given c' id replies.
Proof. intros E (r & k & Hr & H). exists r, k. by rewrite E. Qed.

Lemma given_extends c c' id replies : extends c c' -> given c id replies -> given c' id replies.
Proof.
  intros (_ & Hh & _) Hg. eapply given_heap; [|exact Hg]. destruct Hg as (r & k & Hr & _).
  apply Hh. by exists r.
Qed.

Lemma heap_pop id c : heap (pop id c) = heap c.
Proof. unfold pop. destruct (queue c) as [|q ?]; [done|]. by destruct (Nat.eqb q id). Qed.

(** What a reply does to the ledger. *)
Lemma applyDuplexReply_answers c e rest sched reply closeErr l' sched' stop c' :
  cwf c [] ∅ -> request e ∈ queue c ->
  applyDuplexReply (e :: rest) sched reply closeErr c = (l', sched', stop, c') ->
  let replies := replies_so_far e ++ [reply] in
  (forall id rs, given c id rs -> given c' id rs) /\
  ((length replies <> length (commands_of c (request e)) /\ l' = MkInFlight (request e) replies :: rest) \/
   (length replies = length (commands_of c (request e)) /\ l' = rest /\ given c' (request e) replies)).
Proof.
  intros Hc Hin. simpl. set (id := request e) in *. set (replies := replies_so_far e ++ [reply]).
  destruct (Nat.eqb_spec (length replies) (length (commands_of c id))) as [El|El]; simpl;
    intros [= <- <- <- <-]; [|by split; [|left]].
  split.
  - intros id' rs Hg. apply given_settle. eapply given_heap; [|exact Hg]. by rewrite heap_pop.
  - right. split_and!; [done|done|].
    destruct (proj1 (q_live _ _ _ _ Hc id)) as (r & Hr & Hf); [apply elem_of_app; by left|].
    match goal with |- given (complete _ _ ?e _) _ _ => set (err := e) end.
    set (k := MkCompletion replies (replays r) (ambiguousReplays r) err).
    exists (with_future (Some k) r), k. split_and!; try done.
    + simpl. rewrite heap_pop, lookup_alter_eq, Hr. simpl. unfold settle. by rewrite Hf.
    + simpl. rewrite El. unfold commands_of, attr. by rewrite Hr.
Qed.

(** C4: The n-th reply of a connection answers the n-th command written to it:
    the requests written are the answered ones followed by those in flight, the
    replies read are the replies given to the answered ones followed by those
    in flight, in order and without a gap, and each future was settled with
    exactly as many replies as it has commands. *)
Theorem replies_match_requests ws rs log c s :
  session_history ws rs log c s ->
  ws = map fst log ++ map request (inFlight s) /\
  rs = concat (map snd log) ++ concat (map replies_so_far (inFlight s)) /\
  Forall (fun entry => given c entry.1 entry.2) log.
Proof.
  induction 1 as [c b c' Hr Hs|ws rs log c s l c' s' Hh (Hw & Hrs & Hg) Hs]; [done|].
  pose proof (history_reachable _ _ _ _ _ Hh) as [Hc [[Hl Hread] _]]%reachable_wf. simpl in Hc, Hl, Hread.
  assert (forall c1, extends c c1 -> inFlight s' = inFlight s -> sent s l = [] -> received l = [] -> answered c s l = [] ->
    ws ++ sent s l = map fst (log ++ answered c s l) ++ map request (inFlight s') /\
    rs ++ received l = concat (map snd (log ++ answered c s l)) ++ concat (map replies_so_far (inFlight s')) /\
    Forall (fun entry => given c1 entry.1 entry.2) (log ++ answered c s l)) as Hsame.
  { intros c1 He Ei -> -> ->. rewrite Ei, !app_nil_r. split_and!; try done.
    eapply Forall_impl; [exact Hg|]. intros x. by apply given_extends. }
  destruct l; simpl in Hs.
  1: injection Hs as <- <-; apply Hsame; try done; by apply submit_wf.
  1: injection Hs as <- <-; apply Hsame; try done; by apply submit_wf.
  1: injection Hs as <- <-; apply Hsame; try done; by apply Quit_wf.
  1: injection Hs as <- <-; apply Hsame; try done; by apply Disconnect_wf.
  1-3, 5-7: done.
  destruct (session_step c s sig) as [[c1 s1|c1 stop err]|] eqn:E; [|unfold session_ended, stopped in Hs; destruct stop, err; discriminate Hs|done].
  injection Hs as -> ->. destruct sig as [|ex pending ce| |r pending ce| | |]; simpl in E.
  - destruct (nextWrite s c); [|done]. injection E as <- <-. by apply (Hsame c (extends_refl c)).
  - destruct (writing s) as [id|] eqn:Ew; [|done]. simpl. rewrite Ew. destruct (ExError ex) as [e|].
    + destruct (reading s), pending as [[|]|]; try done;
        try (unfold write_failed in E; by destruct (_ && _)).
      destruct (applyDuplexReply _ _ _ _ _) as [[[l' sched'] stop] c2]. destruct stop; [done|].
      unfold write_failed in E. by destruct (_ && _).
    + injection E as <- <-. simpl. rewrite !app_nil_r, map_app, map_app, concat_app. simpl.
      rewrite app_nil_r, app_assoc, <- Hw. done.
  - destruct (_ && _); [|done]. injection E as <- <-. by apply (Hsame c (extends_refl c)).
  - destruct (reading s) eqn:Er; [|done]. simpl in E. destruct r as [e|reply].
    { destruct (writing s), pending as [ex|]; try done; unfold read_failed in E; repeat case_match; done. }
    destruct (inFlight s) as [|entry rest] eqn:El; [done|].
    destruct (applyDuplexReply _ _ _ _ _) as [[[l' sched'] stop] c2] eqn:Ea.
    destruct stop; [done|]. injection E as <- <-. simpl. rewrite El, app_nil_r.
    destruct (applyDuplexReply_answers _ _ _ _ _ _ _ _ _ _ Hc
      (lwf_in_queue _ _ _ _ (request entry) Hl (list_elem_of_here _ _)) Ea) as (Hkeep & Hcase).
    assert (Forall (fun x => given c2 x.1 x.2) log) as Hg2
      by (eapply Forall_impl; [exact Hg|]; intros x; apply Hkeep).
    assert (concat (map replies_so_far rest) = []) as Hrest.
    { pose proof (l_fresh _ _ _ _ Hl) as Hf. simpl in Hf. clear -Hf. induction Hf as [|x l Hx _ IH]; simpl; [done|].
      by rewrite Hx, IH. }
    destruct Hcase as [[Hne ->]|(Heq & -> & Hgiven)].
    + rewrite (proj2 (Nat.eqb_neq _ _)) by done. rewrite app_nil_r. split_and!; [done| |done].
      rewrite Hrs. simpl. rewrite Hrest. by rewrite !app_nil_r, !app_assoc.
    + rewrite (proj2 (Nat.eqb_eq _ _)) by done. rewrite !map_app, concat_app. simpl.
      rewrite app_nil_r. split_and!.
      * rewrite Hw. simpl. by rewrite <- app_assoc.
      * rewrite Hrs. simpl. rewrite Hrest. by rewrite !app_nil_r, !app_assoc.
      * apply Forall_app. split; [done|]. by constructor.
  - by destruct (writing s), (inFlight s), (reading s).
  - injection E as <- <-. by apply (Hsame c (extends_refl c)).
  - by destruct (cancelled c).
Qed.
