(* ===== verification/RedisReplay.v ===== *)
(** * package redis, the ioredis-compatible client: what is sent again

    A bounded blocking command is handed to a transport again only when nothing
    of it can have reached the server: of a history of the loop of [RedisQueue]
    we keep the requests of which bytes may have been written, and show that an
    exclusive one of them is in flight on the present connection or settled, and
    never sent again. *)

From S2P Require Import Prelude.
From S2P Require Import GoStrings.
From S2P Require Import RedisResp.
From S2P Require Import RedisQueue.
From S2P Require Import RedisQueueProofs.

(** ** Sending *)

(** The request a step starts to hand to the transport. *)
Definition sends (cf : config) (l : label) : list nat :=
  match l, cf.2 with
  | LSession SScheduled, Duplex s => cons_opt (nextWrite s cf.1)
  | LExchange _ _, Simple => cons_opt (peek cf.1)
  | _, _ => []
  end.

(** A request was written in full, or the transport says that part of it may
    have reached the server. *)
Definition may_have_reached (ex : Exchange) : bool :=
  match ExError ex with None => true | Some _ => MayHaveExecuted ex end.

(** The request of which a step learns that. *)
Definition reached (cf : config) (l : label) : list nat :=
  match l, cf.2 with
  | LSession (SWritten ex _ _), Duplex s => if may_have_reached ex then cons_opt (writing s) else []
  | LSession (SRead (inl _) (Some ex) _), Duplex s => if may_have_reached ex then cons_opt (writing s) else []
  | LExchange ex _, Simple => if MayHaveExecuted ex then cons_opt (peek cf.1) else []
  | _, _ => []
  end.

Inductive wire_history : list nat -> config -> Prop :=
| wire_initial : wire_history [] initial
| wire_step T cf l cf' : wire_history T cf -> step cf l = Some cf' -> wire_history (T ++ reached cf l) cf'.

Lemma wire_reachable T cf : wire_history T cf -> reachable cf.
Proof. induction 1; [constructor|by eapply reachable_step]. Qed.

(** ** Requests stay, and settled ones stay settled *)

Definition grows (c c' : Client) : Prop :=
  forall id r, heap c !! id = Some r -> exists r', heap c' !! id = Some r' /\ exclusive r' = exclusive r /\
    (is_Some (future r) -> is_Some (future r')).

Lemma grows_heap c c' : heap c' = heap c -> grows c c'.
Proof. intros E id r Hr. exists r. by rewrite E. Qed.

Lemma grows_trans c1 c2 c3 : grows c1 c2 -> grows c2 c3 -> grows c1 c3.
Proof.
  intros H1 H2 id r Hr. destruct (H1 _ _ Hr) as (r2 & Hr2 & E2 & F2). destruct (H2 _ _ Hr2) as (r3 & Hr3 & E3 & F3).
  exists r3. split_and!; [done|congruence|auto].
Qed.

Lemma grows_update f id c : (forall r, exclusive (f r) = exclusive r /\ (is_Some (future r) -> is_Some (future (f r)))) ->
  grows c (update_request id f c).
Proof.
  intros Hf x r Hr. cbn. destruct (decide (x = id)) as [->|Hne]; [|rewrite lookup_alter_ne by done; eauto].
  rewrite lookup_alter_eq, Hr. exists (f r). split; [done|apply Hf].
Qed.

Lemma grows_complete id replies err c : grows c (complete id replies err c).
Proof. apply grows_update. intros r. unfold settle. destruct (future r) eqn:E; [by rewrite E|]. cbn. split; [done|]. by intros [? ?]. Qed.

Lemma grows_replay id b c : grows c (update_request id (replay b) c).
Proof. by apply grows_update. Qed.
Lemma grows_count id c : grows c (update_request id count_failure c).
Proof. by apply grows_update. Qed.

Lemma grows_pop id c : grows c (pop id c).
Proof. apply grows_heap, heap_pop. Qed.

Lemma grows_pop_complete id replies err c : grows c (complete id replies err (pop id c)).
Proof. eapply grows_trans; [apply grows_pop|apply grows_complete]. Qed.

Lemma grows_foldl {A} (f : Client -> A -> Client) l c : (forall c a, grows c (f c a)) -> grows c (foldl f c l).
Proof. intros Hf. revert c. induction l as [|a l IH]; intros c; cbn; [by apply grows_heap|]. eapply grows_trans; [apply Hf|apply IH]. Qed.

Lemma grows_settle_entry err c id : grows c (settle_entry err c id).
Proof. eapply grows_trans; [|apply grows_complete]. by apply grows_heap. Qed.

Lemma grows_mark_queue targets q c : grows c (mark_queue targets q c).2.
Proof.
  revert c. induction q as [|id q IH]; intros c; simpl; [by apply grows_heap|]. case_bool_decide.
  - specialize (IH (update_request id count_failure c)). destruct (mark_queue targets q _) as [[r e] c1]. simpl in IH.
    assert (grows c c1) by (eapply grows_trans; [apply grows_count|done]). by destruct (Nat.ltb _ _).
  - specialize (IH c). by destruct (mark_queue targets q c) as [[r e] c1].
Qed.

Lemma grows_exhaust c id : grows c (exhaust_request c id).
Proof. unfold exhaust_request. destruct (is_pipeline c id); [apply grows_complete|]. destruct (is_quit _ id); apply grows_complete. Qed.

Lemma grows_mark requests c : grows c (markRequestFailures requests c).
Proof.
  unfold markRequestFailures. destruct requests; [by apply grows_heap|]. pose proof (grows_mark_queue (list_to_set (n :: requests)) (queue c) c) as Hm.
  destruct (mark_queue _ _ c) as [[r e] c1]. eapply grows_trans; [exact Hm|]. eapply grows_trans; [by apply (grows_heap c1 (set_queue r c1))|].
  apply grows_foldl. intros. apply grows_exhaust.
Qed.

Lemma grows_connectionFailed l c : grows c (connectionFailed l c).
Proof. unfold connectionFailed. eapply grows_trans; [|apply grows_mark]. by apply grows_heap. Qed.

Lemma grows_terminal l w e c : grows c (settleDuplexTerminalFailure l w e c).
Proof.
  unfold settleDuplexTerminalFailure. set (c1 := foldl _ _ _).
  assert (grows c c1) as H1 by (apply grows_foldl; intros; apply grows_settle_entry).
  assert (grows c (match w with Some id => if bool_decide (id ∈ map request l) then c1 else settle_entry e c1 id | None => c1 end)) as H2.
  { destruct w as [id|]; [|done]. case_bool_decide; [done|]. eapply grows_trans; [exact H1|apply grows_settle_entry]. }
  destruct (existsb _ _); [|done]. eapply grows_trans; [exact H2|]. by apply grows_heap.
Qed.

Lemma grows_reconcile_entry acc e : grows acc.2 (reconcile_entry acc e).2.
Proof.
  destruct acc as [[retry qf] c]. unfold reconcile_entry. destruct (is_quit c _); [apply grows_pop_complete|].
  destruct (_ && _); [apply grows_pop_complete|apply grows_replay].
Qed.

Lemma grows_reconcile l w ex c : grows c (reconcileDuplexFailure l w ex c).
Proof.
  unfold reconcileDuplexFailure. assert (forall acc, grows acc.2 (foldl reconcile_entry acc l).2) as Hf.
  { induction l as [|e l IH]; intros acc; cbn [foldl]; [by apply grows_heap|]. eapply grows_trans; [apply grows_reconcile_entry|apply IH]. }
  specialize (Hf ([], false, c)). destruct (foldl reconcile_entry _ l) as [[retry qf] c1]. cbn in Hf.
  assert (grows c1 (reconcile_writing (retry, qf, c1) w ex).2) as Hw.
  { destruct w as [id|]; cbn; [|by apply grows_heap]. destruct (is_quit c1 id); [apply grows_pop_complete|apply grows_replay]. }
  destruct (reconcile_writing _ w ex) as [[retry' qf'] c2]. cbn in Hw.
  assert (grows c (markRequestFailures retry' c2)) as Hm by (eapply grows_trans; [exact Hf|]; eapply grows_trans; [exact Hw|apply grows_mark]).
  destruct qf'; [|done]. eapply grows_trans; [exact Hm|]. by apply grows_heap.
Qed.

Lemma grows_apply l sched reply e c : grows c (applyDuplexReply l sched reply e c).2.
Proof.
  unfold applyDuplexReply. destruct l as [|entry rest]; [by apply grows_heap|]. destruct (negb _); [by apply grows_heap|]. apply grows_pop_complete.
Qed.

Lemma grows_write_failed c l id ex e : grows c (outcome_client (write_failed c l id ex e)).
Proof. unfold write_failed. destruct (_ && _); [apply grows_terminal|apply grows_reconcile]. Qed.

Lemma grows_read_failed c l e : grows c (outcome_client (read_failed c l e)).
Proof.
  unfold read_failed. destruct (asIORedisTerminalError e) as [[? ?]|]; [apply grows_terminal|].
  destruct l; [apply grows_reconcile|]. destruct (is_exclusive _ _); [apply grows_terminal|apply grows_reconcile].
Qed.

Lemma grows_session c s sig o : session_step c s sig = Some o -> grows c (outcome_client o).
Proof.
  assert (grows c c) as Hc by (by apply grows_heap). destruct sig; cbn.
  - destruct (nextWrite s c); [|done]. by intros [= <-].
  - destruct (writing s) as [id|]; [|done]. destruct (ExError ex) as [e|]; [|by intros [= <-]].
    destruct (reading s); [|intros [= <-]; apply grows_write_failed].
    destruct pending as [[?|reply]|]; [intros [= <-]; apply grows_write_failed| |done].
    pose proof (grows_apply (inFlight s) (scheduled s) reply closeErr c) as Ha.
    destruct (applyDuplexReply _ _ _ _ _) as [[[l' sched'] stop] c']. cbn in Ha.
    destruct stop; intros [= <-]; [done|]. eapply grows_trans; [exact Ha|apply grows_write_failed].
  - destruct (_ && _); [|done]. by intros [= <-].
  - destruct (negb (reading s)); [done|]. destruct r as [e|reply].
    + destruct (writing s); [|intros [= <-]; apply grows_read_failed].
      destruct pending as [ex|]; [|done]. destruct (ExError ex); [|intros [= <-]; apply grows_read_failed].
      destruct (asIORedisTerminalError e) as [[? ?]|]; intros [= <-]; [apply grows_terminal|apply grows_reconcile].
    + destruct (inFlight s) as [|e0 l0] eqn:El; [by intros [= <-]|]. rewrite <- El.
      pose proof (grows_apply (inFlight s) (scheduled s) reply closeErr c) as Ha.
      destruct (applyDuplexReply _ _ _ _ _) as [[[l' sched'] stop] c']. cbn in Ha. by destruct stop; intros [= <-].
  - destruct (writing s), (inFlight s), (reading s); try done. by intros [= <-].
  - by intros [= <-].
  - destruct (cancelled c); [|done]. by intros [= <-].
Qed.

Lemma grows_first e c : grows c (settleFirstReady e c).
Proof. apply grows_heap. by destruct (settleFirstReady_same e c). Qed.

Lemma grows_finishClosed e c : grows c (finishClosed e c).
Proof.
  unfold finishClosed. destruct (closed c); [by apply grows_heap|]. eapply grows_trans; [|apply grows_foldl; intros; apply grows_complete].
  eapply grows_trans; [|apply grows_first]. by apply grows_heap.
Qed.

Lemma grows_extends c c' : extends c c' -> grows c c'.
Proof. intros (_ & Hh & _) id r Hr. exists r. rewrite Hh; [done|by eexists]. Qed.

Lemma grows_exchanged id ex ce c : grows c (exchanged id ex ce c).1.
Proof.
  unfold exchanged, stopped. assert (forall c0 replies err, grows c c0 -> grows c (complete id replies err (pop id c0))) as Hpop.
  { intros c0 replies err Hg. eapply grows_trans; [exact Hg|apply grows_pop_complete]. }
  assert (grows c (setNotReady c)) as Hn by (by apply grows_heap). assert (grows c c) as Hc by (by apply grows_heap).
  destruct (is_quit c id); cbn [fst snd]; [eapply grows_trans; [by apply Hpop|apply grows_finishClosed]|].
  destruct (check_reply_count _ _) as [e|]; cbn [fst snd]; [|by apply Hpop].
  destruct (asIORedisTerminalError e) as [[? close]|]; cbn [fst snd].
  - destruct (_ && _); apply Hpop; by destruct close.
  - destruct (_ && _); cbn [fst snd]; [by apply Hpop|]. unfold exchange_failed. cbn [fst snd]. eapply grows_trans; [|apply grows_connectionFailed].
    destruct (_ && _); [by apply Hpop|]. eapply grows_trans; [exact Hn|apply grows_replay].
Qed.

Lemma grows_lost affected c : grows c (connectionFailed affected (setNotReady c)).
Proof. eapply (grows_trans _ (setNotReady c)); [by apply grows_heap|apply grows_connectionFailed]. Qed.

Lemma grows_connect r c :
  grows c (match r with
           | ConnFailed e => connect_failed e c
           | ConnNil => connect_failed (EText "ioredis transport factory returned nil transport") c
           | ConnNoSignal => connect_failed (EText "ioredis transport returned nil close signal") c
           | ConnDuplex => connected (Duplex new_session) c
           | ConnSimple => connected Simple c
           end).1.
Proof.
  assert (forall e, grows c (connect_failed e c).1) as Hf.
  { intros e. unfold connect_failed. cbn [fst]. eapply grows_trans; [apply (grows_first (Some e))|apply grows_connectionFailed]. }
  assert (forall ph, grows c (connected ph c).1) as Hc.
  { intros ph. unfold connected. cbn [fst]. eapply (grows_trans _ (set_ready true 0 c)); [by apply grows_heap|apply grows_first]. }
  destruct r; auto.
Qed.

Lemma grows_session_ended c stop err : grows c (session_ended c stop err).1.
Proof.
  unfold session_ended. destruct stop; [apply grows_finishClosed|]. destruct err; cbn [fst]; [apply grows_lost|by apply grows_heap].
Qed.

Lemma step_grows cf l cf' : config_wf cf -> step cf l = Some cf' -> grows cf.1 cf'.1.
Proof.
  destruct cf as [c ph]. intros [Hc _]. cbn [fst snd] in *. assert (grows c (stopped c).1) as Hstop by apply grows_finishClosed.
  destruct l; cbn [step].
  - intros [= <-]. apply grows_extends. by apply submit_wf.
  - intros [= <-]. apply grows_extends. by apply submit_wf.
  - intros [= <-]. by apply grows_extends, Quit_wf.
  - intros [= <-]. by apply grows_extends, Disconnect_wf.
  - destruct ph; try done; destruct (disconnecting c); try done; by intros [= <-].
  - destruct ph as [[]| | |]; try done. destruct (cancelled c); [|done]. by intros [= <-].
  - destruct ph; try done. intros [= <-]. apply grows_connect.
  - destruct ph as [|s| |]; try done. destruct (session_step c s sig) as [o|] eqn:E; [|done]. apply grows_session in E.
    destruct o as [c' s'|c' stop err]; cbn [outcome_client] in E; intros [= <-]; [done|].
    eapply grows_trans; [exact E|apply grows_session_ended].
  - destruct ph; try done. destruct (peek c) as [id|]; [|done]. intros [= <-]. apply grows_exchanged.
  - destruct ph; try done. intros [= <-]. apply (grows_lost []).
  - destruct ph; try done. destruct (cancelled c); [|done]. by intros [= <-].
Qed.

(** ** What was reached is in flight or settled *)

Definition settled (c : Client) (id : nat) : Prop := exists r, heap c !! id = Some r /\ is_Some (future r).

(** The requests written in full on the present connection and not answered. *)
Definition in_flight (ph : phase) : list nat :=
  match ph with Duplex s => map request (inFlight s) | _ => [] end.

Lemma settled_grows c c' id : grows c c' -> settled c id -> settled c' id.
Proof. intros Hg (r & Hr & Hf). destruct (Hg _ _ Hr) as (r' & Hr' & _ & Hf'). exists r'. auto. Qed.

Lemma complete_settles id replies err c : is_Some (heap c !! id) -> settled (complete id replies err c) id.
Proof.
  intros [r Hr]. exists (settle replies err r). cbn. rewrite lookup_alter_eq, Hr. split; [done|].
  unfold settle. destruct (future r) eqn:E; [by rewrite E|by eexists].
Qed.

Lemma pop_complete_settles id replies err c : is_Some (heap c !! id) -> settled (complete id replies err (pop id c)) id.
Proof. intros H. apply complete_settles. by rewrite heap_pop. Qed.

Lemma grows_dom c c' id : grows c c' -> is_Some (heap c !! id) -> is_Some (heap c' !! id).
Proof. intros Hg [r Hr]. destruct (Hg _ _ Hr) as (r' & ? & _). by exists r'. Qed.

Lemma grows_exclusive c c' id : grows c c' -> is_Some (heap c !! id) -> is_exclusive c' id = is_exclusive c id.
Proof. intros Hg [r Hr]. destruct (Hg _ _ Hr) as (r' & Hr' & E & _). unfold is_exclusive, attr. by rewrite Hr, Hr', E. Qed.

Lemma settled_entries err ids c id : id ∈ ids -> is_Some (heap c !! id) -> settled (foldl (settle_entry err) c ids) id.
Proof.
  revert c. induction ids as [|x ids IH]; intros c Hin Hs; [by apply elem_of_nil in Hin|]. cbn [foldl].
  apply elem_of_cons in Hin as [->|Hin].
  - eapply settled_grows; [apply grows_foldl, grows_settle_entry|]. by apply complete_settles.
  - apply IH; [done|]. eapply grows_dom; [apply grows_settle_entry|done].
Qed.

Lemma settled_terminal l w err c id :
  id ∈ ledger l w -> is_Some (heap c !! id) -> settled (settleDuplexTerminalFailure l w err c) id.
Proof.
  intros Hin Hs. unfold settleDuplexTerminalFailure. set (c1 := foldl _ _ _).
  assert (settled (match w with Some x => if bool_decide (x ∈ map request l) then c1 else settle_entry err c1 x | None => c1 end) id) as H.
  { destruct (decide (id ∈ map request l)) as [Hl|Hl].
    - assert (settled c1 id) as H1 by (by apply settled_entries).
      destruct w as [x|]; [|done]. case_bool_decide; [done|]. eapply settled_grows; [apply grows_settle_entry|done].
    - apply elem_of_app in Hin as [?|Hin]; [done|]. destruct w as [x|]; [|by apply elem_of_nil in Hin].
      apply list_elem_of_singleton in Hin as ->. rewrite bool_decide_false by done. apply complete_settles. cbn.
      eapply grows_dom; [apply grows_foldl, grows_settle_entry|done]. }
  destruct (existsb _ _); [|done]. eapply settled_grows; [|exact H]. by apply grows_heap.
Qed.

Lemma ledger_dom c s id : cwf c [] ∅ -> swf c s -> id ∈ ledger (inFlight s) (writing s) -> is_Some (heap c !! id).
Proof.
  intros Hc [Hl _] Hin. destruct (proj1 (q_live _ _ _ _ Hc id)) as (r & Hr & _); [|by exists r].
  apply elem_of_app. left. by eapply lwf_in_queue.
Qed.

(** What a step of the session leaves of an exclusive request on the wire. *)
Definition kept (o : outcome) (id : nat) : Prop :=
  settled (outcome_client o) id \/
  match o with Running _ s' => id ∈ map request (inFlight s') | Ended _ stop _ => stop = true end.

Lemma in_flight_kept c s sig o id :
  cwf c [] ∅ -> swf c s -> session_step c s sig = Some o ->
  id ∈ map request (inFlight s) -> is_exclusive c id = true -> kept o id.
Proof.
  intros Hc Hs E Hin Hx. assert (id ∈ ledger (inFlight s) (writing s)) as Hled by (apply elem_of_app; by left).
  pose proof (ledger_dom _ _ _ Hc Hs Hled) as Hdom. destruct Hs as [Hl _].
  pose proof (l_alone _ _ _ _ Hl id Hled Hx) as Halone. unfold ledger in Halone.
  destruct (inFlight s) as [|e [|]] eqn:El; [by apply elem_of_nil in Hin| |done].
  destruct (writing s) as [|] eqn:Ew; [done|]. cbn in Halone. injection Halone as He. unfold kept.
  destruct sig; cbn [session_step] in E; rewrite ?Ew, ?El in E; try done.
  - unfold nextWrite in E. rewrite Ew, El in E. cbn in E. by rewrite He, Hx in E.
  - destruct (_ && _); [|done]. injection E as <-. right. cbn. rewrite ?El. cbn. rewrite He. by left.
  - destruct (negb (reading s)); [done|]. destruct r as [err|reply].
    + injection E as <-. left. unfold read_failed. rewrite He, Hx.
      destruct (asIORedisTerminalError err) as [[? ?]|]; apply settled_terminal; done || (cbn; rewrite He; by left).
    + cbn [applyDuplexReply] in E. rewrite He in E. destruct (negb _).
      * injection E as <-. right. cbn. by left.
      * destruct (is_quit (pop id c) id); cbn in E; injection E as <-; left; by apply pop_complete_settles.
  - injection E as <-. right. rewrite ?El. cbn. rewrite He. by left.
  - destruct (cancelled c); [|done]. injection E as <-. by right.
Qed.

Lemma reached_kept c s sig o id :
  cwf c [] ∅ -> swf c s -> session_step c s sig = Some o ->
  id ∈ reached (c, Duplex s) (LSession sig) -> is_exclusive c id = true -> kept o id.
Proof.
  intros Hc Hs E Hin Hx.
  assert (writing s = Some id) as Ew.
  { destruct sig as [|ex ? ?| |[?|?] [ex|] ?| | |]; cbn in Hin; try (by apply elem_of_nil in Hin);
      (destruct (may_have_reached ex); [|by apply elem_of_nil in Hin]); destruct (writing s); cbn in Hin; set_solver. }
  assert (id ∈ ledger (inFlight s) (writing s)) as Hled by (apply elem_of_app; right; rewrite Ew; by left).
  pose proof (ledger_dom _ _ _ Hc Hs Hled) as Hdom. destruct Hs as [Hl Hread].
  pose proof (l_alone _ _ _ _ Hl id Hled Hx) as Halone. unfold ledger in Halone. rewrite Ew in Halone.
  assert (inFlight s = []) as El by (destruct (inFlight s) as [|? [|]]; done).
  assert (reading s = false) as Er by (destruct (reading s); [by destruct Hread|done]).
  unfold kept. destruct sig as [|ex ? ?| |r ? ?| | |]; cbn [session_step] in E; rewrite ?Ew, ?El, ?Er in E; cbn in Hin;
    try (by apply elem_of_nil in Hin).
  2: by destruct r.
  unfold may_have_reached in Hin. destruct (ExError ex) as [e|].
  - destruct (MayHaveExecuted ex) eqn:Em; [|by apply elem_of_nil in Hin]. injection E as <-. left.
    unfold write_failed. rewrite Hx, Em. cbn. apply settled_terminal; [by left|done].
  - injection E as <-. right. cbn. by left.
Qed.

Lemma exchanged_settles id ex ce c :
  is_Some (heap c !! id) -> is_exclusive c id = true -> MayHaveExecuted ex = true -> settled (exchanged id ex ce c).1 id.
Proof.
  intros Hdom Hx Hm. unfold exchanged, stopped.
  assert (forall c0 replies err, heap c0 = heap c -> settled (complete id replies err (pop id c0)) id) as Hpop.
  { intros c0 replies err E. apply pop_complete_settles. by rewrite E. }
  destruct (is_quit c id); cbn [fst]; [eapply settled_grows; [apply grows_finishClosed|by apply Hpop]|].
  destruct (check_reply_count _ _) as [e|]; cbn [fst]; [|by apply Hpop].
  destruct (asIORedisTerminalError e) as [[? close]|]; cbn [fst].
  - destruct (_ && _); apply Hpop; by destruct close.
  - rewrite Hx, Hm. by apply Hpop.
Qed.

Definition wire_safe (T : list nat) (cf : config) : Prop :=
  forall id, id ∈ T -> is_Some (heap cf.1 !! id) /\ (is_exclusive cf.1 id = true -> settled cf.1 id \/ id ∈ in_flight cf.2).

Lemma closed_queue_settles c id : cwf c [] ∅ -> queue c = [] -> is_Some (heap c !! id) -> settled c id.
Proof.
  intros Hc Hq [r Hr]. exists r. split; [done|]. destruct (future r) eqn:E; [done|]. exfalso.
  assert (id ∈ queue c ++ []) as Hin by (apply (q_live _ _ _ _ Hc); by exists r). by rewrite Hq in Hin; apply elem_of_nil in Hin.
Qed.

Lemma settled_stopped c id : config_wf (stopped c) -> is_Some (heap c !! id) -> settled (stopped c).1 id.
Proof.
  intros [Hc [_ Hq]] Hdom. apply closed_queue_settles; [done|done|]. eapply grows_dom; [apply grows_finishClosed|done].
Qed.

(** A step of the session, for one exclusive request. *)
Lemma session_settles c s sig o cf' id :
  config_wf cf' -> session_step c s sig = Some o -> is_Some (heap c !! id) -> kept o id ->
  step (c, Duplex s) (LSession sig) = Some cf' -> settled cf'.1 id \/ id ∈ in_flight cf'.2.
Proof.
  intros Hwf E Hdom Hk. cbn [step]. rewrite E. pose proof (grows_session _ _ _ _ E) as Hg.
  destruct o as [c' s'|c' stop err]; intros [= <-]; [done|]. left. destruct Hk as [Hk|Hk].
  - eapply settled_grows; [apply grows_session_ended|done].
  - subst stop. cbn [session_ended]. apply settled_stopped; [done|]. by eapply grows_dom.
Qed.

Lemma reached_queued cf l cf' id : config_wf cf -> step cf l = Some cf' -> id ∈ reached cf l -> id ∈ queue cf.1.
Proof.
  destruct cf as [c ph]. intros [Hc Hph] _. cbn [fst snd] in *. destruct l; cbn; try (by intros ?%elem_of_nil).
  - destruct ph as [|s| |]; cbn; try (destruct sig as [|? ? ?| |[?|?] [?|] ?| | |]; by intros ?%elem_of_nil).
    destruct Hph as [[Hl _] _]. intros Hin. assert (writing s = Some id) as Ew.
    { destruct sig as [|ex ? ?| |[?|?] [ex|] ?| | |]; cbn in Hin; try (by apply elem_of_nil in Hin);
        (destruct (may_have_reached ex); [|by apply elem_of_nil in Hin]); destruct (writing s); cbn in Hin; set_solver. }
    eapply lwf_in_queue; [exact Hl|]. unfold ledger. rewrite Ew. set_solver.
  - destruct ph; cbn; try (by intros ?%elem_of_nil). destruct (MayHaveExecuted ex); [|by intros ?%elem_of_nil].
    unfold peek. destruct (queue c) as [|x q]; cbn; [by intros ?%elem_of_nil|]. intros ->%list_elem_of_singleton. by left.
Qed.

Lemma queued_dom c id : cwf c [] ∅ -> id ∈ queue c -> is_Some (heap c !! id).
Proof.
  intros Hc Hid. destruct (proj1 (q_live _ _ _ _ Hc id)) as (r & Hr & _); [|by exists r]. apply elem_of_app. by left.
Qed.

Lemma wire_safe_step T cf l cf' :
  config_wf cf -> wire_safe T cf -> step cf l = Some cf' -> wire_safe (T ++ reached cf l) cf'.
Proof.
  intros Hwf HT E id Hin. pose proof (step_grows _ _ _ Hwf E) as Hg. pose proof (step_wf _ _ _ Hwf E) as Hwf'.
  assert (is_Some (heap cf.1 !! id)) as Hdom.
  { apply elem_of_app in Hin as [Hin|Hin]; [by apply HT|]. apply queued_dom; [by destruct Hwf|by eapply reached_queued]. }
  split; [by eapply grows_dom|]. rewrite (grows_exclusive _ _ _ Hg Hdom). intros Hx.
  destruct cf as [c ph]. destruct Hwf as [Hc Hph]. cbn [fst snd] in *.
  apply elem_of_app in Hin as [Hin|Hin].
  - destruct (HT id Hin) as [_ [Hs|Hw]]; [done|left; by eapply settled_grows|]. cbn [fst snd] in Hw.
    destruct ph as [|s| |]; try (by apply elem_of_nil in Hw). destruct Hph as [Hs _]. cbn in Hw.
    destruct l; try discriminate E; try (injection E as <-; by right).
    destruct (session_step c s sig) as [o|] eqn:Eo; [|cbn in E; by rewrite Eo in E].
    eapply session_settles; [done|exact Eo|done|by eapply in_flight_kept|done].
  - destruct l; try (by apply elem_of_nil in Hin).
    + destruct ph as [|s| |]; try (destruct sig as [|? ? ?| |[?|?] [?|] ?| | |]; by apply elem_of_nil in Hin). destruct Hph as [Hs _].
      destruct (session_step c s sig) as [o|] eqn:Eo; [|cbn in E; by rewrite Eo in E].
      eapply session_settles; [done|exact Eo|done|by eapply reached_kept|done].
    + destruct ph; try (by apply elem_of_nil in Hin). cbn in Hin, E.
      destruct (MayHaveExecuted ex) eqn:Em; [|by apply elem_of_nil in Hin].
      destruct (peek c) as [x|]; [|done]. apply list_elem_of_singleton in Hin as ->. injection E as <-. left.
      by apply exchanged_settles.
Qed.

Lemma wire_history_safe T cf : wire_history T cf -> wire_safe T cf.
Proof.
  induction 1 as [|T cf l cf' Hh IH E]; [by intros id ?%elem_of_nil|]. eapply wire_safe_step; [|done|done].
  by apply reachable_wf, (wire_reachable T).
Qed.

(** What is sent waits in the queue, and is not on the wire. *)
Lemma sends_waiting cf l id : config_wf cf -> id ∈ sends cf l -> id ∈ queue cf.1 /\ id ∉ in_flight cf.2.
Proof.
  destruct cf as [c ph]. intros [Hc Hph]. cbn [fst snd] in *.
  destruct l as [| | | | | | |[]| | |]; destruct ph as [|s| |]; cbn; try (by intros ?%elem_of_nil).
  - destruct Hph as [[Hl _] _]. unfold nextWrite. destruct (writing s) eqn:Ew; [by intros ?%elem_of_nil|].
    destruct (ioredisExclusiveInFlight _ _); [by intros ?%elem_of_nil|].
    destruct (firstUnscheduled (scheduled s) c) as [x|] eqn:Ef; [|by intros ?%elem_of_nil].
    destruct (_ || _); [|by intros ?%elem_of_nil]. intros ->%list_elem_of_singleton.
    unfold firstUnscheduled in Ef. apply head_Some_elem_of, list_elem_of_filter in Ef as [Hn Hq]. split; [done|].
    intros Hin. apply Hn, (l_sched _ _ _ _ Hl). apply elem_of_app. by left.
  - unfold peek. destruct (queue c) as [|x q]; cbn; [by intros ?%elem_of_nil|]. intros ->%list_elem_of_singleton.
    split; [by left|by intros ?%elem_of_nil].
Qed.

(** C29: A bounded blocking command (or a QUIT) is handed to a transport only
    while no byte of it may have reached the server: over any history of
    callers, transport answers and reconnects, what a step starts to send is a
    request still open in the queue, and an exclusive one is none of those that
    were written in full or that a transport reported as possibly executed.
    Each of those is in flight on the present connection or its future is
    settled; and no exclusive request counts an ambiguous replay. *)
Theorem exclusive_never_sent_again T cf :
  wire_history T cf ->
  (forall l id, id ∈ sends cf l ->
     (exists r, heap cf.1 !! id = Some r /\ future r = None) /\ (is_exclusive cf.1 id = true -> id ∉ T)) /\
  (forall id, id ∈ T -> exists r, heap cf.1 !! id = Some r /\
     (exclusive r = true -> is_Some (future r) \/ id ∈ in_flight cf.2)) /\
  (forall id r, heap cf.1 !! id = Some r -> exclusive r = true -> ambiguousReplays r = 0).
Proof.
  intros Hh. pose proof (wire_history_safe _ _ Hh) as Hsafe. pose proof (reachable_wf _ (wire_reachable _ _ Hh)) as Hwf.
  pose proof Hwf as [Hc _]. split_and!.
  - intros l id Hs. destruct (sends_waiting _ _ _ Hwf Hs) as [Hq Hn].
    assert (live (heap cf.1) id) as (r & Hr & Hf) by (apply (q_live _ _ _ _ Hc), elem_of_app; by left).
    split; [by exists r|]. intros Hx Hin. destruct (Hsafe id Hin) as [_ [(r' & Hr' & [? Hf'])|]]; [done| |done].
    rewrite Hr in Hr'. congruence.
  - intros id Hin. destruct (Hsafe id Hin) as [[r Hr] Hor]. exists r. split; [done|]. intros Hx.
    destruct Hor as [(r' & Hr' & Hf)|]; [by unfold is_exclusive, attr; rewrite Hr| |by right]. left. congruence.
  - intros id r Hr Hx. by destruct (ro_exclusive _ _ _ (q_ok _ _ _ _ Hc id r Hr) Hx).
Qed.
