(* ===== verification/RedisTransport.v ===== *)
(** * package redis, the RESP2 transport

    NewIORedisRESPTransportFactory, writeCommands, Exchange and the startup
    sequence of redis/ioredis_resp.go as trace programs over the connection:
    every deadline, write, counter read and reply is an event with its answer.
    Locks and the deadline arithmetic carry no state and are left out; a write
    is cut short exactly when the connection says so. *)

From S2P Require Import Prelude.
From S2P Require Import GoStrings.
From S2P Require Import RedisResp.
From S2P Require Import RedisQueue.

(** ** The factory *)

(** The options startup uses; durations are in nanoseconds. *)
Record Options := MkOptions {
  Addr : string; Username : string; Password : string; DB : Z; ConnectionName : string;
  ConnectTimeout : Z; SocketTimeout : Z; KeepAlive : Z; MaxLoadingRetryTime : Z;
  DisableClientInfo : bool; DisableReadyCheck : bool; clientInfoLibraryVersion : string
}.

Definition ioredisDefaultConnectTimeout : Z := 10 * second.
Definition ioredisDefaultLoadingRetry : Z := 10 * second.
Definition ioredisLibraryVersion : string := "5.11.1".

Definition NewIORedisRESPTransportFactory (o : Options) : result string Options :=
  if String.eqb (trim_space (Addr o)) EmptyString then Err "ioredis RESP address is required"
  else if (DB o <? 0)%Z then Err "ioredis RESP database must be non-negative"
  else if (ConnectTimeout o <? 0)%Z then Err "ioredis RESP connect timeout must be non-negative"
  else if (SocketTimeout o <? 0)%Z then Err "ioredis RESP socket timeout must be non-negative"
  else if (KeepAlive o <? 0)%Z then Err "ioredis RESP keepalive must be non-negative"
  else if (MaxLoadingRetryTime o <? 0)%Z then Err "ioredis RESP loading retry time must be non-negative"
  else Ok (MkOptions (Addr o) (Username o) (Password o) (DB o) (ConnectionName o)
         (if (ConnectTimeout o =? 0)%Z then ioredisDefaultConnectTimeout else ConnectTimeout o)
         (SocketTimeout o) (KeepAlive o)
         (if (MaxLoadingRetryTime o =? 0)%Z then ioredisDefaultLoadingRetry else MaxLoadingRetryTime o)
         (DisableClientInfo o) (DisableReadyCheck o)
         (if String.eqb (clientInfoLibraryVersion o) EmptyString then ioredisLibraryVersion
          else clientInfoLibraryVersion o)).

(** ** The connection *)

Inductive cevent :=
| CDeadline (r : option cerr)
| CWrite (bytes : string) (count : Z) (r : option cerr)
| CCounter (n : Z)
| CContext (r : option cerr)            (** ctx.Err() *)
| CPastDeadline (b : bool)              (** a context deadline that has passed *)
| CClose
| CReply (r : cerr + Reply)
| CReady (eta : string) (b : bool).     (** readyWait for the delay [eta] stands for *)

Record conn := MkConn {
  k_deadline : list cevent -> option cerr;
  k_write : string -> list cevent -> Z * option cerr;
  k_counter : list cevent -> Z;
  k_context : list cevent -> option cerr;
  k_past : list cevent -> bool;
  k_reply : list cevent -> cerr + Reply;
  k_ready : string -> list cevent -> bool
}.

(** io.Writer: a write takes a prefix of the bytes, and says why when it takes
    less than all; the counter of the socket never goes back. *)
Definition writer_contract (k : conn) : Prop :=
  (forall bytes h, 0 <= (k_write k bytes h).1 <= Z.of_nat (String.length bytes))%Z.

Section transport.
Context (k : conn).

Definition set_error (e : cerr) (x : Exchange) : Exchange :=
  MkExchange (Replies x) (MayHaveExecuted x) (Disposition x) (BytesWritten x) (BytesTotal x)
    (NetworkBytesWritten x) (Some e).

(** After [written] bytes were accepted. *)
Definition progressed (written : Z) (x : Exchange) : Exchange :=
  MkExchange (Replies x) true PartiallyWritten written (BytesTotal x) (NetworkBytesWritten x) (ExError x).

(** The bytes of the socket, ciphertext included. *)
Definition with_network (n : Z) (x : Exchange) : Exchange :=
  if (0 <? n)%Z
  then MkExchange (Replies x) true PartiallyWritten (BytesWritten x) (BytesTotal x) n (ExError x)
  else MkExchange (Replies x) (MayHaveExecuted x) (Disposition x) (BytesWritten x) (BytesTotal x) n (ExError x).

Definition fully_written (n : Z) (x : Exchange) : Exchange :=
  MkExchange (Replies x) (MayHaveExecuted x) FullyWritten (BytesWritten x) (BytesTotal x) n (ExError x).

Definition close_with (e : cerr) (x : Exchange) : TM cevent Exchange :=
  let! _ := call (fun _ => tt) (fun _ => CClose) in tret (set_error e x).

(** The error of a failed write: the caller's context first. *)
Definition write_error (e : cerr) : TM cevent cerr :=
  let! c := call (k_context k) CContext in
  match c with
  | Some ce => tret ce
  | None =>
      let! past := call (k_past k) CPastDeadline in
      tret (if past then EDeadlineExceeded else e)
  end.

(** The write loop.  [fuel] bounds the writes; one byte of fuel per byte of
    the wire is enough, since a write that takes nothing ends the loop. *)
Fixpoint write_loop (fuel : nat) (wire : string) (written networkStart : Z) (x : Exchange) :
    TM cevent (option Exchange) :=
  if (Z.of_nat (String.length wire) <=? 0)%Z then
    let! n := call (k_counter k) CCounter in
    tret (Some (fully_written (n - networkStart) x))
  else
  match fuel with
  | O => tret None
  | S fuel' =>
      let! r := call (k_write k wire) (fun r => CWrite wire r.1 r.2) in
      let (count, werr) := r in
      let written' := if (0 <? count)%Z then (written + count)%Z else written in
      let x := if (0 <? count)%Z then progressed written' x else x in
      match werr with
      | Some e =>
          let! n := call (k_counter k) CCounter in
          let! e' := write_error e in
          let! x' := close_with e' (with_network (n - networkStart) x) in tret (Some x')
      | None =>
          if (count =? 0)%Z then
            let! n := call (k_counter k) CCounter in
            let! x' := close_with (EText "multiple Read calls return no data or error")
                         (with_network (n - networkStart) x) in
            tret (Some x')
          else write_loop fuel' (str_drop (Z.to_nat count) wire) written' networkStart x
      end
  end.

Definition not_written (e : cerr) : Exchange := set_error e (MkExchange [] false NotWritten 0 0 0 None).

Definition writeCommands (cmds : list (list string)) : TM cevent (option Exchange) :=
  match cmds with
  | [] => tret (Some (not_written (EText "ioredis RESP exchange is empty")))
  | _ =>
      let! d := call (k_deadline k) CDeadline in
      match d with
      | Some e => let! x := close_with e (MkExchange [] false NotWritten 0 0 0 None) in tret (Some x)
      | None =>
          match encodeIORedisRESPCommands cmds with
          | Err EmptyCommand => tret (Some (not_written (EText "ioredis RESP command is empty")))
          | Ok wire =>
              let! start := call (k_counter k) CCounter in
              write_loop (String.length wire) wire 0 start
                (MkExchange [] false NotWritten 0 (Z.of_nat (String.length wire)) 0 None)
          end
      end
  end.

(** The loop of Exchange over the replies still missing. *)
Fixpoint read_replies (n : nat) (x : Exchange) : TM cevent Exchange :=
  match n with
  | O => tret x
  | S n' =>
      let! r := call (k_reply k) CReply in
      match r with
      | inl e => close_with e x
      | inr reply =>
          read_replies n' (MkExchange (Replies x ++ [reply]) (MayHaveExecuted x) (Disposition x)
            (BytesWritten x) (BytesTotal x) (NetworkBytesWritten x) (ExError x))
      end
  end.

Definition exchange_commands (cmds : list (list string)) : TM cevent (option Exchange) :=
  let! w := writeCommands cmds in
  match w with
  | None => tret None
  | Some x =>
      match ExError x with
      | Some _ => tret (Some x)
      | None => let! x := read_replies (length cmds) x in tret (Some x)
      end
  end.
End transport.

(** ** Startup

    Startup only needs of a transport that an exchange without an error has
    one reply per command; the client below is written against that promise. *)

Class Transport (Ev : Type) := {
  transport_exchange : list (list string) -> TM Ev (option Exchange);
  transport_replies : forall cmds h t x, transport_exchange cmds h = (t, Some x) -> ExError x = None ->
    length (Replies x) = length cmds;
  transport_wait : string -> TM Ev bool;             (** readyWait *)
  transport_context : TM Ev (option cerr)            (** ctx.Err() *)
}.

Definition ioredisToleratesAuthError (message : string) : bool :=
  contains "no password is set" message ||
  contains "without any password configured for the default user" message ||
  contains "wrong number of arguments for 'auth' command" message.

(** The fields of an INFO reply; a later line replaces an earlier one. *)
Definition parseIORedisINFO (text : string) : gmap string string :=
  foldl (fun fields line =>
    match cut ":" line with
    | Some (name, field) => if String.eqb field EmptyString then fields else <[name := field]> fields
    | None => fields
    end) ∅ (split crlf text).

Definition field (fields : gmap string string) (name : string) : string :=
  match fields !! name with Some v => v | None => EmptyString end.

Definition quoted (s : string) : string :=
  String (ascii_of_nat 34) (s +:+ String (ascii_of_nat 34) EmptyString).

(** err.Error() of an error reply. *)
Fixpoint error_text (e : cerr) : string :=
  match e with
  | ECanceled => "context canceled"
  | EDeadlineExceeded => "context deadline exceeded"
  | EUnexpectedEOF => "unexpected EOF"
  | EEOF => "EOF"
  | EClosed => "Connection is closed."
  | EAbort => "Command aborted due to connection close"
  | EMaxRetries => "Reached the max retries per request limit (which is 20). Refer to " +:+
                   quoted "maxRetriesPerRequest" +:+ " option for details."
  | ETerminal cause _ => error_text cause
  | EWrap message cause => message +:+ ": " +:+ error_text cause
  | EText message => message
  end.

Definition auth_commands (o : Options) : list (list string) :=
  if negb (String.eqb (Username o) EmptyString) then [["auth"; Username o; Password o]]
  else if negb (String.eqb (Password o) EmptyString) then [["auth"; Password o]] else [].

Definition select_commands (o : Options) : list (list string) :=
  if negb (DB o =? 0)%Z then [["select"; format_int (DB o)]] else [].

Definition startup_commands (o : Options) : list (list string) :=
  auth_commands o ++ select_commands o ++
  (if negb (String.eqb (ConnectionName o) EmptyString) then [["client"; "setname"; ConnectionName o]] else []) ++
  (if negb (DisableClientInfo o)
   then [["client"; "SETINFO"; "LIB-NAME"; "ioredis"]; ["client"; "SETINFO"; "LIB-VER"; clientInfoLibraryVersion o]]
   else []).

(** The positions startup remembers; -1 in the code is [None] here. *)
Definition authIndex (o : Options) : option nat :=
  match auth_commands o with [] => None | _ => Some 0 end.
Definition selectIndex (o : Options) : option nat :=
  match select_commands o with [] => None | _ => Some (length (auth_commands o)) end.

Definition reply_error (replies : list Reply) (index : option nat) : option cerr :=
  i ← index; r ← replies !! i; RError r.

(** The checks on the replies to the startup commands. *)
Definition bootstrap_error (o : Options) (replies : list Reply) : option cerr :=
  match reply_error replies (authIndex o) with
  | Some e =>
      if ioredisToleratesAuthError (error_text e) then
        newIORedisSafeError "redis: ioredis SELECT failed" <$> reply_error replies (selectIndex o)
      else Some (newIORedisSafeError "redis: ioredis AUTH failed" e)
  | None => newIORedisSafeError "redis: ioredis SELECT failed" <$> reply_error replies (selectIndex o)
  end.

(** What one INFO reply says: ready, an error, or the delay to wait. *)
Inductive readiness := Ready | NotReady (eta : string) | Broken (e : cerr).

Definition info_readiness (r : Reply) : readiness :=
  match RError r with
  | Some e => if contains "NOPERM" (error_text e) then Ready
              else Broken (newIORedisSafeError "redis: ioredis INFO readiness check failed" e)
  | None =>
      match Value r with
      | VString info =>
          let fields := parseIORedisINFO info in
          if String.eqb (field fields "loading") EmptyString || String.eqb (field fields "loading") "0"
          then Ready else NotReady (field fields "loading_eta_seconds")
      | _ => Ready
      end
  end.

(** The INFO loop.  A server may report that it is loading for ever, so the
    loop has fuel; [None] is a loop that goes on (or a write that never ends). *)
Section startup.
Context {Ev : Type} `{Transport Ev}.

Fixpoint ready_loop (fuel : nat) : TM Ev (option (option cerr)) :=
  match fuel with
  | O => tret None
  | S fuel' =>
      let! x := transport_exchange [["info"]] in
      match x with
      | None => tret None
      | Some x =>
          match ExError x with
          | Some e => tret (Some (Some (newIORedisSafeError "redis: ioredis INFO readiness check failed" e)))
          | None =>
              match Replies x with
              | [] => tret None
              | r :: _ =>
                  match info_readiness r with
                  | Ready => tret (Some None)
                  | Broken e => tret (Some (Some e))
                  | NotReady eta =>
                      let! waited := transport_wait eta in
                      if waited then ready_loop fuel'
                      else let! c := transport_context in
                           tret (Some (Some (default (EText "ioredis RESP ready wait stopped") c)))
                  end
              end
          end
      end
  end.

Definition await_ready (o : Options) (fuel : nat) : TM Ev (option (option cerr)) :=
  if DisableReadyCheck o then tret (Some None) else ready_loop fuel.

(** [Some None] is a nil error: the transport is ready. *)
Definition startup (o : Options) (fuel : nat) : TM Ev (option (option cerr)) :=
  match startup_commands o with
  | [] => await_ready o fuel
  | cmds =>
      let! x := transport_exchange cmds in
      match x with
      | None => tret None
      | Some x =>
          match ExError x with
          | Some e => tret (Some (Some (newIORedisSafeError "redis: ioredis bootstrap failed" e)))
          | None =>
              match bootstrap_error o (Replies x) with
              | Some e => tret (Some (Some e))
              | None => await_ready o fuel
              end
          end
      end
  end.
End startup.

(** ** The write loop *)

(** What the trace of writes let through. *)
Definition accepted (t : list cevent) : Z :=
  foldr (fun e n => match e with CWrite _ count _ => count + n | _ => n end)%Z 0%Z t.

Lemma accepted_app t1 t2 : accepted (t1 ++ t2) = (accepted t1 + accepted t2)%Z.
Proof. induction t1 as [|e t1 IH]; [done|]. simpl. rewrite IH. destruct e; lia. Qed.

(** What an exchange says about the bytes of its commands. *)
Record honest (sent : Z) (x : Exchange) : Prop := {
  h_written : BytesWritten x = sent;
  h_total : (sent <= BytesTotal x)%Z;
  h_full : Disposition x = FullyWritten -> sent = BytesTotal x;
  h_untouched : Disposition x = NotWritten -> sent = 0%Z /\ MayHaveExecuted x = false;
  h_executed : MayHaveExecuted x = false -> sent = 0%Z;
  h_outcome : ExError x = None -> Disposition x = FullyWritten
}.

Section write_loop_proofs.
Context (k : conn) (Hk : writer_contract k).

(** The exchange while the loop runs. *)
Record in_progress (written : Z) (x : Exchange) : Prop := {
  ip_written : BytesWritten x = written;
  ip_nonneg : (0 <= written)%Z;
  ip_disposition : Disposition x = if (written =? 0)%Z then NotWritten else PartiallyWritten;
  ip_executed : MayHaveExecuted x = negb (written =? 0)%Z;
  ip_error : ExError x = None
}.

Lemma progressed_in_progress written count x :
  in_progress written x -> (0 < count)%Z -> in_progress (written + count) (progressed (written + count) x).
Proof.
  intros [? ? ? ? ?] Hc. assert ((written + count =? 0)%Z = false) as E by (apply Z.eqb_neq; lia).
  split; simpl; rewrite ?E; try done. lia.
Qed.

Lemma failed_honest written n e x :
  in_progress written x -> (written <= BytesTotal x)%Z ->
  honest written (set_error e (with_network n x)).
Proof.
  intros [Hw Hn Hd He _] Ht. unfold with_network.
  destruct (Z.ltb_spec 0 n), (Z.eqb_spec written 0) as [->|Hne]; simpl in *;
    split; simpl; rewrite ?Hd, ?He; try done; try lia.
Qed.

Lemma close_with_inv e x h t x' : close_with e x h = (t, x') -> t = [CClose] /\ x' = set_error e x.
Proof. by intros [= <- <-]. Qed.

Lemma write_error_inv e h t e' : write_error k e h = (t, e') -> accepted t = 0%Z.
Proof.
  intros (t1 & c & t2 & [-> ->]%call_inv & E & ->)%tbind_inv.
  destruct (k_context k h); [by apply tret_inv in E as [-> _]|].
  apply tbind_inv in E as (t3 & p & t4 & [-> ->]%call_inv & [-> _]%tret_inv & ->). done.
Qed.

Lemma slength_str_drop n s : String.length (str_drop n s) = String.length s - n.
Proof. revert s. induction n as [|n IH]; intros [|c s]; simpl; auto. Qed.

Lemma finished_honest n written x :
  in_progress written x -> BytesTotal x = written -> (0 < BytesTotal x)%Z ->
  honest written (fully_written n x).
Proof.
  intros [Hw Hn Hd He Ho] Ht Hpos. assert ((written =? 0)%Z = false) as E by (apply Z.eqb_neq; lia).
  rewrite E in *. split; simpl; rewrite ?He; try done; lia.
Qed.

Lemma write_loop_honest fuel wire written start x h t r :
  in_progress written x -> BytesTotal x = (written + Z.of_nat (String.length wire))%Z ->
  (0 < BytesTotal x)%Z -> String.length wire <= fuel ->
  write_loop k fuel wire written start x h = (t, r) ->
  exists x', r = Some x' /\ honest (written + accepted t) x'.
Proof.
  revert wire written x h t r. induction fuel as [|fuel IH]; intros wire written x h t r Hx Htot Hpos Hf;
    cbn [write_loop]; (destruct (Z.leb_spec (Z.of_nat (String.length wire)) 0) as [Hz|Hz]).
  1,3: intros (t1 & n & t2 & [_ ->]%call_inv & [-> ->]%tret_inv & ->)%tbind_inv;
       eexists; split; [done|]; simpl; rewrite Z.add_0_r; apply finished_honest; [done|lia|done].
  { lia. }
  intros (t1 & [count werr] & t2 & [Ew ->]%call_inv & E & ->)%tbind_inv. pose proof (Hk wire h) as Hc.
  rewrite <- Ew in Hc. cbn [fst snd] in *. rewrite accepted_app. simpl.
  set (written' := if (0 <? count)%Z then (written + count)%Z else written) in *.
  set (x1 := if (0 <? count)%Z then progressed written' x else x) in *.
  assert (written' = written + count)%Z as Ewr by (unfold written'; destruct (Z.ltb_spec 0 count); lia).
  assert (in_progress written' x1) as Hx1.
  { unfold x1. destruct (Z.ltb_spec 0 count); [|by replace written' with written by lia].
    rewrite Ewr. by apply progressed_in_progress. }
  assert (BytesTotal x1 = BytesTotal x) as Et by (unfold x1; by destruct (0 <? count)%Z).
  replace (written + (count + 0 + accepted t2))%Z with (written' + accepted t2)%Z by lia.
  destruct werr as [e|].
  - apply tbind_inv in E as (t3 & n & t4 & [_ ->]%call_inv & E & ->).
    apply tbind_inv in E as (t5 & e' & t6 & E1%write_error_inv & E & ->).
    apply tbind_inv in E as (t7 & x' & t8 & [-> ->]%close_with_inv & [-> ->]%tret_inv & ->).
    eexists. split; [done|]. rewrite !accepted_app, E1. simpl. rewrite Z.add_0_r.
    apply failed_honest; [done|lia].
  - destruct (Z.eqb_spec count 0) as [->|Hne].
    + apply tbind_inv in E as (t3 & n & t4 & [_ ->]%call_inv & E & ->).
      apply tbind_inv in E as (t5 & x' & t6 & [-> ->]%close_with_inv & [-> ->]%tret_inv & ->).
      eexists. split; [done|]. simpl. rewrite Z.add_0_r. apply failed_honest; [done|lia].
    + eapply IH; [done| | | |exact E]; rewrite ?slength_str_drop; lia.
Qed.

Lemma encode_nonempty cmds wire :
  cmds <> [] -> encodeIORedisRESPCommands cmds = Ok wire -> (0 < Z.of_nat (String.length wire))%Z.
Proof.
  destruct cmds as [|command rest]; [done|]. intros _. cbn [encodeIORedisRESPCommands].
  destruct (command_ok command); [|done].
  destruct (encodeIORedisRESPCommands rest) as [w|]; [|done]. intros E.
  assert (wire = encode_command command +:+ w) as -> by congruence. unfold encode_command.
  rewrite slength_app. simpl. lia.
Qed.

Lemma writeCommands_honest cmds h t r :
  writeCommands k cmds h = (t, r) -> exists x, r = Some x /\ honest (accepted t) x.
Proof.
  unfold writeCommands. destruct cmds as [|command rest].
  { intros [-> ->]%tret_inv. eexists. split; [done|]. by split; simpl; try lia. }
  intros (t1 & d & t2 & [-> ->]%call_inv & E & ->)%tbind_inv. rewrite accepted_app. simpl.
  destruct (k_deadline k h) as [e|].
  - apply tbind_inv in E as (t3 & x & t4 & [-> ->]%close_with_inv & [-> ->]%tret_inv & ->).
    eexists. split; [done|]. by split; simpl; try lia.
  - destruct (encodeIORedisRESPCommands (command :: rest)) as [wire|[]] eqn:Ee.
    2: { apply tret_inv in E as [-> ->]. eexists. split; [done|]. by split; simpl; try lia. }
    pose proof (encode_nonempty (command :: rest) _ ltac:(discriminate) Ee) as Hpos.
    apply tbind_inv in E as (t3 & n & t4 & [-> ->]%call_inv & E & ->). rewrite accepted_app. simpl.
    apply (write_loop_honest _ _ 0) in E; [exact E| |simpl; lia|exact Hpos|done].
    split; simpl; done.
Qed.
End write_loop_proofs.

(** writeCommands always returns, and what it reports about the socket is
    true of every way the connection can behave: the bytes it says were
    written are the bytes the connection took, a batch it calls not written has
    put nothing on the wire, one it calls fully written is, and it reports that
    the commands cannot have executed only when no byte was accepted. *)
Theorem write_disposition_sound k cmds h t r :
  writer_contract k -> writeCommands k cmds h = (t, r) ->
  exists x, r = Some x /\ honest (accepted t) x.
Proof. intros Hk. by apply writeCommands_honest. Qed.

(** ** The transport keeps startup's promise *)

Lemma read_replies_length k n x h t x' :
  read_replies k n x h = (t, x') -> ExError x = None -> ExError x' = None ->
  length (Replies x') = length (Replies x) + n.
Proof.
  revert x h t x'. induction n as [|n IH]; intros x h t x'; simpl; [intros [_ ->]%tret_inv; lia|].
  intros (t1 & r & t2 & [-> ->]%call_inv & E & ->)%tbind_inv Hx Hx'.
  destruct (k_reply k h) as [e|reply]; [by apply close_with_inv in E as [_ ->]|].
  rewrite (IH _ _ _ _ E Hx Hx'). simpl. rewrite length_app. simpl. lia.
Qed.

(** A fresh exchange has no replies. *)
Lemma write_loop_replies k fuel wire written start x h t x' :
  write_loop k fuel wire written start x h = (t, Some x') -> Replies x' = Replies x.
Proof.
  assert (forall n y, Replies (with_network n y) = Replies y) as Hn
    by (intros n y; unfold with_network; by destruct (0 <? n)%Z).
  revert wire written x h t. induction fuel as [|fuel IH]; intros wire written x h t; cbn [write_loop];
    destruct (_ <=? 0)%Z; try (by intros [_ [=]]%tret_inv).
  1,2: intros (t1 & n & t2 & _ & [_ [= ->]]%tret_inv & _)%tbind_inv; done.
  intros (t1 & [count werr] & t2 & _ & E & _)%tbind_inv. cbn [fst snd] in E.
  assert (forall w, Replies (if (0 <? count)%Z then progressed w x else x) = Replies x) as Hp
    by (intros w; by destruct (0 <? count)%Z).
  destruct werr as [e|]; [|destruct (count =? 0)%Z].
  - apply tbind_inv in E as (t3 & n & t4 & _ & E & _). apply tbind_inv in E as (t5 & e' & t6 & _ & E & _).
    apply tbind_inv in E as (t7 & y & t8 & [_ ->]%close_with_inv & [_ [= ->]]%tret_inv & _).
    simpl. by rewrite Hn, Hp.
  - apply tbind_inv in E as (t3 & n & t4 & _ & E & _).
    apply tbind_inv in E as (t7 & y & t8 & [_ ->]%close_with_inv & [_ [= ->]]%tret_inv & _).
    simpl. by rewrite Hn, Hp.
  - by rewrite (IH _ _ _ _ _ E), Hp.
Qed.

Lemma writeCommands_replies k cmds h t x : writeCommands k cmds h = (t, Some x) -> Replies x = [].
Proof.
  unfold writeCommands. destruct cmds as [|command rest]; [by intros [_ [= ->]]%tret_inv|].
  intros (t1 & d & t2 & _ & E & _)%tbind_inv. destruct d.
  - by apply tbind_inv in E as (t3 & y & t4 & [_ ->]%close_with_inv & [_ [= ->]]%tret_inv & _).
  - destruct (encodeIORedisRESPCommands _) as [wire|[]]; [|by apply tret_inv in E as [_ [= ->]]].
    apply tbind_inv in E as (t3 & n & t4 & _ & E & _). by rewrite (write_loop_replies _ _ _ _ _ _ _ _ _ E).
Qed.

Lemma exchange_replies k cmds h t x :
  exchange_commands k cmds h = (t, Some x) -> ExError x = None -> length (Replies x) = length cmds.
Proof.
  intros (t1 & w & t2 & E1 & E & _)%tbind_inv Hx. destruct w as [y|]; [|by apply tret_inv in E as [_ [=]]].
  destruct (ExError y) eqn:Ey; [apply tret_inv in E as [_ [= ->]]; congruence|].
  apply tbind_inv in E as (t3 & z & t4 & E & [_ [= ->]]%tret_inv & _).
  rewrite (read_replies_length _ _ _ _ _ _ E Ey Hx), (writeCommands_replies _ _ _ _ _ E1). done.
Qed.

#[export] Instance resp_transport (k : conn) : Transport cevent := {|
  transport_exchange := exchange_commands k;
  transport_replies := exchange_replies k;
  transport_wait eta := call (k_ready k eta) (CReady eta);
  transport_context := call (k_context k) CContext
|}.

(** ** Startup *)

Section startup_proofs.
Context {Ev : Type} `{Transport Ev}.

(** The reply to the command at a remembered position. *)
Definition replied (cmds : list (list string)) (x : Exchange) (i : nat) (name : string) (r : Reply) : Prop :=
  Replies x !! i = Some r /\ exists args, cmds !! i = Some (name :: args).

Definition bootstrapped (o : Options) (x : Exchange) : Prop :=
  ExError x = None /\
  (forall i, authIndex o = Some i -> exists r, replied (startup_commands o) x i "auth" r /\
     match RError r with None => True | Some e => ioredisToleratesAuthError (error_text e) = true end) /\
  (forall i, selectIndex o = Some i -> exists r, replied (startup_commands o) x i "select" r /\ RError r = None).

(** The calls [t] made after [h] end with an INFO whose reply says ready. *)
Definition answered_ready (h t : list Ev) : Prop :=
  exists before info x r rs, t = before ++ info /\
    transport_exchange [["info"]] (h ++ before) = (info, Some x) /\ ExError x = None /\
    Replies x = r :: rs /\ info_readiness r = Ready.

Lemma answered_ready_later h t1 t2 : answered_ready (h ++ t1) t2 -> answered_ready h (t1 ++ t2).
Proof.
  intros (b & i & x & r & rs & -> & E & Hr). exists (t1 ++ b), i, x, r, rs.
  rewrite <- app_assoc in E. by rewrite <- app_assoc.
Qed.

Lemma ready_loop_ready fuel h t : ready_loop fuel h = (t, Some None) -> answered_ready h t.
Proof.
  revert h t. induction fuel as [|fuel IH]; intros h t; simpl; [by intros [_ [=]]%tret_inv|].
  intros (t1 & x & t2 & E1 & E & ->)%tbind_inv. destruct x as [x|]; [|by apply tret_inv in E as [_ [=]]].
  destruct (ExError x) eqn:Ex; [by apply tret_inv in E as [_ [=]]|].
  destruct (Replies x) as [|r rs] eqn:Er; [by apply tret_inv in E as [_ [=]]|].
  destruct (info_readiness r) as [|eta|e] eqn:Ei.
  - apply tret_inv in E as [-> _]. exists [], t1, x, r, rs. by rewrite !app_nil_r.
  - apply answered_ready_later. apply tbind_inv in E as (t3 & b & t4 & _ & E & ->).
    apply answered_ready_later. destruct b; [by eapply IH|].
    by apply tbind_inv in E as (t5 & c & t6 & _ & [_ [=]]%tret_inv & _).
  - by apply tret_inv in E as [_ [=]].
Qed.

Lemma auth_position o i : authIndex o = Some i -> exists args, startup_commands o !! i = Some ("auth" :: args).
Proof.
  unfold authIndex, startup_commands, auth_commands.
  destruct (negb _); [|destruct (negb _); [|done]]; intros [= <-]; eauto.
Qed.

Lemma select_position o i :
  selectIndex o = Some i -> exists args, startup_commands o !! i = Some ("select" :: args).
Proof.
  unfold selectIndex, startup_commands, select_commands. destruct (negb _); [|done]. intros [= <-].
  rewrite lookup_app_r by lia. rewrite Nat.sub_diag. eauto.
Qed.

Lemma bootstrap_checked o x :
  length (Replies x) = length (startup_commands o) -> ExError x = None ->
  bootstrap_error o (Replies x) = None -> bootstrapped o x.
Proof.
  intros Hlen Hx Hb.
  assert (forall i name args, startup_commands o !! i = Some (name :: args) ->
    exists r, replied (startup_commands o) x i name r /\ reply_error (Replies x) (Some i) = RError r) as Hat.
  { intros i name args Hi. assert (i < length (Replies x)) as Hlt
      by (rewrite Hlen; by eapply lookup_lt_Some).
    apply lookup_lt_is_Some in Hlt as [r Hr]. exists r. split; [split; [done|by exists args]|].
    unfold reply_error. simpl. by rewrite Hr. }
  unfold bootstrap_error in Hb. split_and!; [done| |].
  - intros i Hi. destruct (auth_position _ _ Hi) as [args Ha]. destruct (Hat _ _ _ Ha) as (r & Hr & Er).
    exists r. split; [done|]. rewrite Hi, Er in Hb. destruct (RError r); [|done].
    by destruct (ioredisToleratesAuthError _).
  - intros i Hi. destruct (select_position _ _ Hi) as [args Ha]. destruct (Hat _ _ _ Ha) as (r & Hr & Er).
    exists r. split; [done|]. rewrite Hi, Er in Hb. destruct (RError r); [|done].
    repeat case_match; done.
Qed.
End startup_proofs.

(** A transport is reported ready only if it is: the AUTH command sent was
    accepted (or refused in a way ioredis tolerates), the SELECT command sent
    was accepted, each judged by its own reply, and, unless the ready check is
    off, the last thing asked was an INFO that said the server is not loading
    (or may not say). *)
Theorem startup_ready {Ev} `{Transport Ev} o fuel h t :
  startup o fuel h = (t, Some None) ->
  (startup_commands o <> [] -> exists t1 t2 x, t = t1 ++ t2 /\
     transport_exchange (startup_commands o) h = (t1, Some x) /\ bootstrapped o x) /\
  (DisableReadyCheck o = false -> answered_ready h t).
Proof.
  assert (forall h t, await_ready o fuel h = (t, Some None) ->
    DisableReadyCheck o = false -> answered_ready h t) as Hready.
  { unfold await_ready. intros h' t' E Hd. rewrite Hd in E. by eapply ready_loop_ready. }
  unfold startup. destruct (startup_commands o) as [|cmd cmds] eqn:Ec.
  { intros E. split; [done|]. by eapply Hready. }
  rewrite <- Ec. intros (t1 & x & t2 & E1 & E & ->)%tbind_inv.
  destruct x as [x|]; [|by apply tret_inv in E as [_ [=]]].
  destruct (ExError x) eqn:Ex; [by apply tret_inv in E as [_ [=]]|].
  destruct (bootstrap_error o (Replies x)) eqn:Eb; [by apply tret_inv in E as [_ [=]]|].
  split; [|intros Hd; apply answered_ready_later; by eapply Hready].
  intros _. exists t1, t2, x. split; [done|]. split; [done|].
  apply bootstrap_checked; [by eapply transport_replies|done|done].
Qed.
