(* ===== verification/RedisCluster.v ===== *)
(** * package redis, the Cluster transport

    Hash slots, CLUSTER SLOTS, key routing, pipelines and redirects of
    redis/ioredis_topology.go.  The nodes are outside: connecting to one and
    exchanging commands with one are events with their answers.  The mutex and
    the close notifications carry no state of their own and are left out, and
    so is the concurrent Close that may come between two events (an exchange on
    a closed node is an answer like any other). *)

From S2P Require Import Prelude.
From S2P Require Import GoStrings.
From S2P Require Import RedisResp.
From S2P Require Import RedisQueue.
From S2P Require Import RedisTransport.

(** ** Hash slots *)

(** One shift of the CRC-16 register. *)
Definition crc_shift (crc : Z) : Z :=
  if negb (Z.land crc 0x8000 =? 0)%Z
  then Z.lxor (Z.land (Z.shiftl crc 1) 0xFFFF) 0x1021
  else Z.land (Z.shiftl crc 1) 0xFFFF.

Fixpoint crc_shifts (n : nat) (crc : Z) : Z :=
  match n with O => crc | S n' => crc_shifts n' (crc_shift crc) end.

Definition crc_byte (crc : Z) (b : ascii) : Z :=
  crc_shifts 8 (Z.lxor crc (Z.shiftl (Z.of_N (byte_of b)) 8)).

Fixpoint crc16 (crc : Z) (key : string) : Z :=
  match key with
  | EmptyString => crc
  | String b rest => crc16 (crc_byte crc b) rest
  end.

(** The part of a key that is hashed: the first non-empty {...}. *)
Definition hash_tag (key : string) : string :=
  match cut "{" key with
  | Some (_, after) =>
      match cut "}" after with
      | Some (tag, _) => if String.eqb tag EmptyString then key else tag
      | None => key
      end
  | None => key
  end.

Definition ioredisClusterSlot (key : string) : Z := (crc16 0 (hash_tag key)) mod 16384.

Example slot_check : crc16 0 "123456789" = 0x31C3%Z.
Proof. vm_compute. reflexivity. Qed.
Example slot_tagged : ioredisClusterSlot "{user1000}.following" = ioredisClusterSlot "user1000".
Proof. vm_compute. reflexivity. Qed.

(** ** CLUSTER SLOTS *)

Definition ioredisReplyInt (v : value) : option Z :=
  match v with
  | VInt z => Some z
  | VString s => match parse_int64 s with (z, None) => Some z | (_, Some _) => None end
  | _ => None
  end.

Record SlotRange := MkSlotRange { first_slot : Z; last_slot : Z; address : string }.

Section slots.
(** net.SplitHostPort of the seed address, if it has one; net.JoinHostPort. *)
Context (split_host : string -> option string).

Definition joinHostPort (host : string) (port : Z) : string :=
  if contains ":" host || contains "%" host
  then "[" +:+ host +:+ "]:" +:+ format_int port
  else host +:+ ":" +:+ format_int port.

Inductive slots_error := BadReply | BadRow | BadSeed | BadNode.

Definition host_of (seed : string) (v : value) : result slots_error string :=
  let fallback :=
    match split_host seed with
    | Some h => if String.eqb (trim_space h) EmptyString then Err BadSeed else Ok h
    | None => Err BadSeed
    end in
  match v with
  | VString host => if String.eqb (trim_space host) EmptyString then fallback else Ok host
  | _ => fallback
  end.

Definition parse_row (seed : string) (raw : value) : result slots_error SlotRange :=
  match raw with
  | VArray (first_ :: last_ :: node :: _) =>
      match ioredisReplyInt first_, ioredisReplyInt last_, node with
      | Some first, Some last, VArray (host :: port :: _) =>
          if (first <? 0)%Z || (last <? first)%Z || (16384 <=? last)%Z then Err BadRow
          else
            let? h := host_of seed host in
            match ioredisReplyInt port with
            | Some p => if (p <=? 0)%Z || (65535 <? p)%Z then Err BadNode
                        else Ok (MkSlotRange first last (joinHostPort h p))
            | None => Err BadNode
            end
      | _, _, _ => Err BadRow
      end
  | _ => Err BadRow
  end.

Fixpoint parse_rows (seed : string) (rows : list value) : result slots_error (list SlotRange) :=
  match rows with
  | [] => Ok []
  | raw :: rest =>
      let? r := parse_row seed raw in
      let? rs := parse_rows seed rest in Ok (r :: rs)
  end.

Definition parseIORedisClusterSlots (v : value) (seed : string) : result slots_error (list SlotRange) :=
  match v with
  | VArray [] => Err BadReply
  | VArray rows => parse_rows seed rows
  | _ => Err BadReply
  end.
End slots.

(** [slots[slot] = address] for a whole range; the last range wins. *)
Abbreviation slot_table := (gmap Z string).

Fixpoint fill_from (n : nat) (slot : Z) (addr : string) (t : slot_table) : slot_table :=
  match n with
  | O => t
  | S n' => fill_from n' (slot + 1)%Z addr (<[slot := addr]> t)
  end.

Definition fill_range (r : SlotRange) (t : slot_table) : slot_table :=
  fill_from (Z.to_nat (last_slot r - first_slot r + 1)) (first_slot r) (address r) t.

Definition build_slots (ranges : list SlotRange) : slot_table :=
  foldl (fun t r => fill_range r t) ∅ ranges.

Definition first_address (ranges : list SlotRange) : string :=
  match ranges with r :: _ => address r | [] => EmptyString end.

(** ** Routing *)

(** strings.ToUpper, as far as a comparison with an ASCII word can tell: the
    only letters outside ASCII with an ASCII upper case are the dotless i and
    the long s. *)
Fixpoint to_upper (s : string) : string :=
  match s with
  | EmptyString => EmptyString
  | String a rest =>
      match rest with
      | String b rest' =>
          if byte_is 196 a && byte_is 177 b then String "I" (to_upper rest')
          else if byte_is 197 a && byte_is 191 b then String "S" (to_upper rest')
          else String (upper_byte a) (to_upper rest)
      | EmptyString => String (upper_byte a) EmptyString
      end
  end.

Definition is_one_of (words : list string) (s : string) : bool := existsb (String.eqb s) words.

Definition ioredisClusterNodeCommand (verb : string) : bool :=
  is_one_of ["PING"; "ECHO"; "INFO"; "TIME"; "LASTSAVE"; "ROLE"; "COMMAND"; "CLIENT"; "CLUSTER"; "DBSIZE"] verb.

Definition ioredisClusterKeyedSubcommand (verb subcommand : string) : bool :=
  if String.eqb verb "OBJECT" then is_one_of ["ENCODING"; "FREQ"; "IDLETIME"; "REFCOUNT"] subcommand
  else if String.eqb verb "XGROUP" then is_one_of ["CREATE"; "CREATECONSUMER"; "DELCONSUMER"; "DESTROY"; "SETID"] subcommand
  else if String.eqb verb "XINFO" then is_one_of ["CONSUMERS"; "GROUPS"; "STREAM"] subcommand
  else false.

(** parseIORedisXReadPrefix: the position of STREAMS.  What it says about
    BLOCK does not matter here. *)
Fixpoint xread_prefix (fuel : nat) (group_verb groupSeen : bool) (index : nat) (args : list string) : option nat :=
  match fuel with
  | O => None
  | S fuel' =>
      match args with
      | [] => None
      | a :: rest =>
          let word := to_upper a in
          if String.eqb word "STREAMS" then if group_verb && negb groupSeen then None else Some index
          else if String.eqb word "GROUP" then
            match group_verb, rest with
            | true, _ :: _ :: rest' => xread_prefix fuel' group_verb true (index + 3) rest'
            | _, _ => None
            end
          else if String.eqb word "COUNT" || String.eqb word "BLOCK" then
            match rest with
            | _ :: rest' => xread_prefix fuel' group_verb groupSeen (index + 2) rest'
            | [] => None
            end
          else if String.eqb word "NOACK" then
            if group_verb then xread_prefix fuel' group_verb groupSeen (index + 1) rest else None
          else None
      end
  end.

Inductive route_error :=
| REmpty | RClusterWide (verb : string) | RNoNode | RMissing (verb : string) | RNoRule (verb : string)
| RBadKeyCount (verb : string) | RSpan (first second : Z) | RNotMapped (slot : Z) | RPrefix (verb : string).

Section route.
Context (slots : slot_table) (first : string).

Definition routeFirstNode : result route_error string :=
  if String.eqb first EmptyString then Err RNoNode else Ok first.

Definition routeSlot (slot : Z) : result route_error string :=
  match slots !! slot with
  | Some addr => if String.eqb addr EmptyString then Err (RNotMapped slot) else Ok addr
  | None => Err (RNotMapped slot)
  end.

Definition routeKey (key : string) : result route_error string := routeSlot (ioredisClusterSlot key).

Fixpoint check_keys (firstSlot : Z) (keys : list string) : result route_error unit :=
  match keys with
  | [] => Ok tt
  | key :: rest =>
      let slot := ioredisClusterSlot key in
      if (slot =? firstSlot)%Z then check_keys firstSlot rest else Err (RSpan firstSlot slot)
  end.

Definition routeKeys (keys : list string) : result route_error string :=
  match keys with
  | [] => Err REmpty
  | key :: rest =>
      let? _ := check_keys (ioredisClusterSlot key) rest in routeSlot (ioredisClusterSlot key)
  end.

Definition routeKeyAt (verb : string) (command : list string) (index : nat) : result route_error string :=
  match command !! index with
  | Some key => routeKey key
  | None => Err (RMissing verb)
  end.

Definition routeSubcommandKey (verb : string) (command : list string) : result route_error string :=
  match command !! 1 with
  | None => Err (RMissing verb)
  | Some sub =>
      let sub := to_upper sub in
      if String.eqb sub "HELP" then routeFirstNode
      else if negb (ioredisClusterKeyedSubcommand verb sub) then Err (RNoRule verb)
      else routeKeyAt verb command 2
  end.

Definition routeMemory (command : list string) : result route_error string :=
  match command !! 1 with
  | None => Err (RMissing "MEMORY")
  | Some sub =>
      let sub := to_upper sub in
      if String.eqb sub "USAGE" then routeKeyAt "MEMORY" command 2
      else if is_one_of ["DOCTOR"; "HELP"; "MALLOC-STATS"; "PURGE"; "STATS"] sub then routeFirstNode
      else Err (RNoRule "MEMORY")
  end.

Definition atoi (s : string) : option Z :=
  match parse_int64 s with (z, None) => Some z | (_, Some _) => None end.

Definition routeEval (verb : string) (command : list string) : result route_error string :=
  match command !! 2 with
  | None => Err (RMissing verb)
  | Some count =>
      match atoi count with
      | None => Err (RBadKeyCount verb)
      | Some n =>
          if (n <? 0)%Z then Err (RBadKeyCount verb)
          else if (Z.of_nat (length command) - 3 <? n)%Z then Err (RBadKeyCount verb)
          else if (n =? 0)%Z then routeFirstNode
          else routeKeys (take (Z.to_nat n) (drop 3 command))
      end
  end.

Definition routeCountedKeys (verb : string) (command : list string) : result route_error string :=
  match command !! 2 with
  | None => Err (RMissing verb)
  | Some count =>
      match atoi count with
      | None => Err (RBadKeyCount verb)
      | Some n =>
          if (n <=? 0)%Z || (Z.of_nat (length command) - 3 <? n)%Z then Err (RBadKeyCount verb)
          else routeKeys (take (Z.to_nat n) (drop 3 command))
      end
  end.

Definition routeXRead (verb : string) (command : list string) : result route_error string :=
  match xread_prefix (length command) (String.eqb verb "XREADGROUP") false 1 (drop 1 command) with
  | None => Err (RPrefix verb)
  | Some streams =>
      let remaining := length command - streams - 1 in
      if negb (Nat.even remaining) then Err (RPrefix verb)
      else if Nat.eqb (Nat.div2 remaining) 0 then Err (RMissing verb)
      else routeKeys (take (Nat.div2 remaining) (drop (streams + 1) command))
  end.

Definition route (command : list string) : result route_error string :=
  match command with
  | [] => Err REmpty
  | name :: args =>
      let verb := to_upper name in
      if is_one_of ["SCAN"; "KEYS"; "FLUSHDB"; "FLUSHALL"; "RANDOMKEY"] verb then Err (RClusterWide verb)
      else if ioredisClusterNodeCommand verb || String.eqb verb "SCRIPT" then routeFirstNode
      else if is_one_of ["EVAL"; "EVALSHA"; "FCALL"; "FCALL_RO"] verb then routeEval verb command
      else if is_one_of ["XREAD"; "XREADGROUP"] verb then routeXRead verb command
      else if is_one_of ["OBJECT"; "XGROUP"; "XINFO"] verb then routeSubcommandKey verb command
      else if String.eqb verb "MEMORY" then routeMemory command
      else if is_one_of ["BLPOP"; "BRPOP"; "BZPOPMIN"; "BZPOPMAX"] verb then
        if Nat.ltb (length command) 3 then Err (RMissing verb)
        else routeKeys (take (length command - 2) (drop 1 command))
      else if is_one_of ["BRPOPLPUSH"; "BLMOVE"] verb then
        match args with key :: _ => routeKey key | [] => Err (RMissing verb) end
      else if is_one_of ["BLMPOP"; "BZMPOP"] verb then routeCountedKeys verb command
      else match args with key :: _ => routeKey key | [] => Err (RMissing verb) end
  end.
End route.

(** ** Redirects *)

(** strings.Fields: words between runs of space. *)
Definition starts_with_space (s : string) : bool := negb (String.eqb (trim_left s) s).

Fixpoint word (s : string) : string * string :=
  match s with
  | EmptyString => (EmptyString, EmptyString)
  | String c rest =>
      if starts_with_space s then (EmptyString, s)
      else let (w, after) := word rest in (String c w, after)
  end.

Fixpoint fields_fuel (fuel : nat) (s : string) : list string :=
  match fuel with
  | O => []
  | S fuel' =>
      match trim_left s with
      | EmptyString => []
      | s' => let (w, after) := word s' in w :: fields_fuel fuel' after
      end
  end.

Definition string_fields (s : string) : list string := fields_fuel (String.length s) s.

Record RedirectInfo := MkRedirect { kind : string; redirect_slot : Z; redirect_address : string }.

Definition ioredisClusterMaxRedirects : nat := 16.

Definition parseIORedisClusterRedirect (err : option cerr) : option RedirectInfo :=
  e ← err;
  match string_fields (error_text e) with
  | [k; s; addr] =>
      let kind := to_upper k in
      if negb (String.eqb kind "MOVED") && negb (String.eqb kind "ASK") then None
      else match atoi s with
           | Some slot => if (slot <? 0)%Z || (16384 <=? slot)%Z || String.eqb (trim_space addr) EmptyString
                          then None else Some (MkRedirect kind slot addr)
           | None => None
           end
  | _ => None
  end.

Example redirect_moved :
  parseIORedisClusterRedirect (Some (EText "MOVED 3999 127.0.0.1:6381")) = Some (MkRedirect "MOVED" 3999 "127.0.0.1:6381").
Proof. vm_compute. reflexivity. Qed.

(** ** The transport *)

Record Cluster := MkCluster {
  nodes : gset string; slots : slot_table; first : string; cluster_stopped : bool
}.

Inductive xevent :=
| XConnect (addr : string) (r : option cerr)
| XExchange (addr : string) (cmds : list (list string)) (x : Exchange)
| XContext (r : option cerr)
| XClose (addr : string) (failed : bool).

Record net := MkNet {
  x_connect : string -> list xevent -> option cerr;
  x_exchange : string -> list (list string) -> list xevent -> Exchange;
  x_context : list xevent -> option cerr;
  x_close : string -> list xevent -> bool
}.

Definition refused (e : cerr) : Exchange := MkExchange [] false NotWritten 0 0 0 (Some (ETerminal e false)).

(** The text of a routing error names the verb and never an argument. *)
Definition route_failure (e : route_error) : cerr := EText "redis: ioredis Cluster command has no route".

Definition ioredisRedirectFailure (e : cerr) (mayHaveExecuted : bool) : Exchange :=
  MkExchange [] mayHaveExecuted FullyWritten 0 0 0
    (Some (ETerminal (newIORedisSafeError "redis: ioredis Cluster redirect could not be completed safely" e)
             mayHaveExecuted)).

Definition delivered (replies : list Reply) : Exchange := MkExchange replies true FullyWritten 0 0 0 None.

Definition str_le (a b : string) : Prop := String.leb a b = true.

#[export] Instance str_le_dec : RelDecision str_le.
Proof. intros a b. unfold str_le. apply _. Defined.

Section cluster.
Context (w : net) (split_host : string -> option string).

Definition ask (addr : string) (cmds : list (list string)) : TM xevent Exchange :=
  call (x_exchange w addr cmds) (XExchange addr cmds).

Definition nodeForAddress (t : Cluster) (addr : string) : TM xevent (result cerr Cluster) :=
  if cluster_stopped t then tret (Err EClosed)
  else if bool_decide (addr ∈ nodes t) then tret (Ok t)
  else
    let! r := call (x_connect w addr) (XConnect addr) in
    tret (match r with
          | Some e => Err (newIORedisSafeError "redis: Cluster node connection failed" e)
          | None => Ok (MkCluster ({[addr]} ∪ nodes t) (slots t) (first t) (cluster_stopped t))
          end).

(** A node that was connected stays known when the refresh fails. *)
Definition refreshSlots (t : Cluster) (addr : string) : TM xevent (Cluster * option cerr) :=
  let! n := nodeForAddress t addr in
  match n with
  | Err e => tret (t, Some e)
  | Ok t =>
      let! x := ask addr [["cluster"; "slots"]] in
      tret (match ExError x with
            | Some e => (t, Some (newIORedisSafeError "redis: CLUSTER SLOTS refresh failed" e))
            | None =>
                match Replies x with
                | [r] =>
                    match RError r with
                    | Some e => (t, Some (newIORedisSafeError "redis: CLUSTER SLOTS refresh was rejected" e))
                    | None =>
                        match parseIORedisClusterSlots split_host (Value r) addr with
                        | Err _ => (t, Some (EText "redis: invalid CLUSTER SLOTS reply"))
                        | Ok ranges =>
                            (MkCluster (nodes t) (build_slots ranges) (first_address ranges) (cluster_stopped t), None)
                        end
                    end
                | _ => (t, Some (EText "redis: CLUSTER SLOTS returned a wrong number of replies"))
                end
            end)
  end.

(** One attempt of the ASK branch and of the MOVED branch: the final
    exchange, or the next redirect. *)
Definition ask_once (t : Cluster) (command : list string) (addr : string) :
    TM xevent (Cluster * (Exchange + RedirectInfo)) :=
  let! n := nodeForAddress t addr in
  match n with
  | Err e => tret (t, inl (ioredisRedirectFailure e false))
  | Ok t =>
      let! x := ask addr [["asking"]; command] in
      tret (t, match ExError x with
               | Some e => inl (ioredisRedirectFailure e (MayHaveExecuted x))
               | None =>
                   match Replies x with
                   | [asking; r] =>
                       match RError asking with
                       | Some _ => inl (ioredisRedirectFailure (EText "redis: ASKING failed before the redirected command completed") true)
                       | None => match parseIORedisClusterRedirect (RError r) with
                                 | Some next => inr next
                                 | None => inl (delivered [r])
                                 end
                       end
                   | _ => inl (ioredisRedirectFailure (EText "redis: ASKING failed before the redirected command completed") true)
                   end
               end)
  end.

Definition moved_once (t : Cluster) (command : list string) (addr : string) :
    TM xevent (Cluster * (Exchange + RedirectInfo)) :=
  let! s := refreshSlots t addr in
  match s with
  | (t, Some e) => tret (t, inl (ioredisRedirectFailure e false))
  | (t, None) =>
      match route (slots t) (first t) command with
      | Err e => tret (t, inl (ioredisRedirectFailure (route_failure e) false))
      | Ok target =>
          let! n := nodeForAddress t target in
          match n with
          | Err e => tret (t, inl (ioredisRedirectFailure e false))
          | Ok t =>
              let! x := ask target [command] in
              tret (t, match ExError x with
                       | Some e => inl (ioredisRedirectFailure e (MayHaveExecuted x))
                       | None =>
                           match Replies x with
                           | [r] => match parseIORedisClusterRedirect (RError r) with
                                    | Some next => inr next
                                    | None => inl (delivered [r])
                                    end
                           | _ => inl (ioredisRedirectFailure (EText "redis: redirected Cluster node returned a wrong number of replies") true)
                           end
                       end)
          end
      end
  end.

Fixpoint followSingleRedirect (attempts : nat) (t : Cluster) (command : list string) (r : RedirectInfo) :
    TM xevent (Cluster * Exchange) :=
  match attempts with
  | O => tret (t, ioredisRedirectFailure (EText "redis: Cluster redirect limit reached") false)
  | S n =>
      let! a := (if String.eqb (kind r) "ASK" then ask_once t command (redirect_address r)
                 else moved_once t command (redirect_address r)) in
      match a with
      | (t, inl x) => tret (t, x)
      | (t, inr next) => followSingleRedirect n t command next
      end
  end.

(** The addresses the commands of a pipeline go to. *)
Fixpoint route_all (t : Cluster) (cmds : list (list string)) : result route_error (list string) :=
  match cmds with
  | [] => Ok []
  | c :: rest =>
      let? a := route (slots t) (first t) c in
      let? l := route_all t rest in Ok (a :: l)
  end.

Definition first_redirect (replies : list Reply) : option RedirectInfo :=
  head (omap (fun r => parseIORedisClusterRedirect (RError r)) replies).

Definition answer_pipeline (t : Cluster) (cmds : list (list string)) (x : Exchange) :
    TM xevent (Cluster * Exchange) :=
  match ExError x with
  | Some _ => tret (t, x)
  | None =>
      if negb (Nat.eqb (length (Replies x)) (length cmds))
      then tret (t, MkExchange [] true FullyWritten 0 0 0 (Some (EText "redis: Cluster node returned a wrong number of replies")))
      else match first_redirect (Replies x) with
      | None => tret (t, delivered (Replies x))
      | Some redirect =>
          match cmds with
          | [command] => followSingleRedirect ioredisClusterMaxRedirects t command redirect
          | _ =>
              let several := Nat.ltb 1 (length cmds) in
              tret (t, MkExchange (Replies x) several FullyWritten 0 0 0
                (Some (ETerminal (EText "redis: ioredis Cluster pipeline redirect is not replayed automatically") false)))
          end
      end
  end.

Definition pipeline_exchange (t : Cluster) (cmds : list (list string)) : TM xevent (Cluster * Exchange) :=
  match route_all t cmds with
  | Err e => tret (t, refused (route_failure e))
  | Ok [] => tret (t, delivered [])
  | Ok (addr :: rest) =>
      if negb (forallb (String.eqb addr) rest)
      then tret (t, refused (EText "redis: ioredis Cluster pipeline spans several nodes; split it by hash slot before submitting"))
      else
        let! n := nodeForAddress t addr in
        match n with
        | Err e => tret (t, refused e)
        | Ok t => let! x := ask addr cmds in answer_pipeline t cmds x
        end
  end.

(** *** QUIT *)

Definition sorted_nodes (t : Cluster) : list string :=
  merge_sort str_le (elements (nodes t)).

Definition quit_reply_error (x : Exchange) : option cerr :=
  match ExError x, Replies x with
  | Some e, _ => Some e
  | None, [r] =>
      match RError r with
      | Some e => Some e
      | None => match Value r with
                | VString "OK" => None
                | _ => Some (EText "redis: Cluster node returned an invalid QUIT reply")
                end
      end
  | None, _ => Some (EText "redis: Cluster node returned an invalid QUIT reply count")
  end.

Fixpoint quit_nodes (addrs : list string) (err : option cerr) : TM xevent (option cerr) :=
  match addrs with
  | [] => tret err
  | addr :: rest =>
      let! c := call (x_context w) XContext in
      match c with
      | Some e => tret (Some e)
      | None =>
          let! x := ask addr [["quit"]] in
          let err := match err with
                     | Some e => Some e
                     | None => newIORedisSafeError "redis: Cluster node QUIT failed" <$> quit_reply_error x
                     end in
          quit_nodes rest err
      end
  end.

Fixpoint close_nodes (addrs : list string) : TM xevent bool :=
  match addrs with
  | [] => tret false
  | addr :: rest =>
      let! failed := call (x_close w addr) (XClose addr) in
      let! others := close_nodes rest in tret (failed || others)
  end.

Definition cluster_quit (t : Cluster) : TM xevent (Cluster * Exchange) :=
  if cluster_stopped t then tret (t, MkExchange [] false WriteUnknown 0 0 0 (Some (ETerminal EClosed false)))
  else
    let t := MkCluster (nodes t) (slots t) (first t) true in
    let! err := quit_nodes (sorted_nodes t) None in
    let! failed := close_nodes (elements (nodes t)) in
    let err := match err with
               | Some e => Some e
               | None => if failed : bool then Some (EText "redis: Cluster node connections failed to close") else None
               end in
    tret (t, match err with
             | Some e => MkExchange [] false FullyWritten 0 0 0 (Some (ETerminal e false))
             | None => MkExchange [MkReply (VString "OK") None] false FullyWritten 0 0 0 None
             end).

Definition cluster_exchange (t : Cluster) (cmds : list (list string)) : TM xevent (Cluster * Exchange) :=
  match cmds with
  | [] => tret (t, MkExchange [] false NotWritten 0 0 0 (Some (EText "redis: empty Cluster exchange")))
  | [[name]] => if equal_fold name "QUIT" then cluster_quit t else pipeline_exchange t cmds
  | _ => pipeline_exchange t cmds
  end.
End cluster.
