(* ===== verification/RedisClusterProofs.v ===== *)
(** * package redis, the Cluster transport: theorems

    The hash slot is the CRC-16/XMODEM remainder, a slot table serves what
    CLUSTER SLOTS said, a command is routed by all of its keys, a pipeline is
    sent whole to one node, and a redirected command that is reported as not
    executed was not. *)

From S2P Require Import Prelude.
From S2P Require Import GoStrings.
From S2P Require Import RedisResp.
From S2P Require Import RedisQueue.
From S2P Require Import RedisTransport.
From S2P Require Import RedisCluster.

(** ** CRC-16 is a polynomial remainder

    A number stands for the polynomial over GF(2) of its bits.  [divisible] is
    the ideal of x^16 + x^12 + x^5 + 1. *)

Definition crc_generator : Z := 0x11021.

Inductive divisible : Z -> Prop :=
| div_zero : divisible 0
| div_generator : divisible crc_generator
| div_times_x z : divisible z -> divisible (Z.shiftl z 1)
| div_sum a b : divisible a -> divisible b -> divisible (Z.lxor a b).

(** The bits of a key, first byte first. *)
Definition message (m : Z) (key : string) : Z :=
  fold_left (fun m b => Z.lxor (Z.shiftl m 8) (Z.of_N (byte_of b))) (String.list_ascii_of_string key) m.

Definition word16 (c : Z) : Prop := (0 <= c < 2 ^ 16)%Z.

Lemma testbit_word16 c n : word16 c -> (16 <= n)%Z -> Z.testbit c n = false.
Proof.
  intros Hc Hn. destruct (Z.eq_dec c 0) as [->|]; [apply Z.bits_0|].
  apply Z.bits_above_log2; [unfold word16 in Hc; lia|].
  assert (Z.log2 c < 16)%Z by (apply Z.log2_lt_pow2; unfold word16 in Hc; lia). lia.
Qed.

Lemma word16_bits c : (forall n, (16 <= n)%Z -> Z.testbit c n = false) -> (0 <= c)%Z -> word16 c.
Proof.
  intros Hb Hc. split; [done|]. destruct (Z.eq_dec c 0) as [->|]; [done|].
  apply Z.log2_lt_pow2; [lia|]. destruct (Z.lt_ge_cases (Z.log2 c) 16); [done|].
  pose proof (Z.bit_log2 c ltac:(lia)) as H1. rewrite Hb in H1 by done. done.
Qed.

Lemma word16_lxor a b : word16 a -> word16 b -> word16 (Z.lxor a b).
Proof.
  intros Ha Hb. apply word16_bits.
  - intros n Hn. by rewrite Z.lxor_spec, !testbit_word16.
  - apply Z.lxor_nonneg. unfold word16 in *. lia.
Qed.

(** The top bit decides whether the generator is subtracted. *)
Lemma crc_shift_split c :
  word16 c ->
  Z.lxor (Z.shiftl c 1) (crc_shift c) = (if Z.testbit c 15 then crc_generator else 0%Z) /\ word16 (crc_shift c).
Proof.
  intros Hc. unfold crc_shift.
  assert ((Z.land c 0x8000 =? 0)%Z = negb (Z.testbit c 15)) as ->.
  { destruct (Z.testbit c 15) eqn:E; simpl.
    - apply Z.eqb_neq. intros H0. assert (Z.testbit (Z.land c 0x8000) 15 = true) as H1
        by (rewrite Z.land_spec, E; done). by rewrite H0 in H1.
    - apply Z.eqb_eq. apply Z.bits_inj'. intros n Hn. rewrite Z.land_spec, Z.bits_0.
      destruct (Z.eq_dec n 15) as [->|]; [by rewrite E|].
      replace (Z.testbit 0x8000 n) with false; [apply andb_false_r|].
      change 0x8000%Z with (2 ^ 15)%Z. by rewrite Z.pow2_bits_false. }
  rewrite negb_involutive.
  assert (word16 (Z.land (Z.shiftl c 1) 0xFFFF)) as Hl.
  { apply word16_bits; [|apply Z.land_nonneg; right; lia]. intros n Hn.
    rewrite Z.land_spec. change 0xFFFF%Z with (Z.ones 16). rewrite Z.ones_spec_high by lia. apply andb_false_r. }
  assert (Z.shiftl c 1 = Z.lxor (Z.land (Z.shiftl c 1) 0xFFFF) (if Z.testbit c 15 then 2 ^ 16 else 0))%Z as Hs.
  { apply Z.bits_inj'. intros n Hn. rewrite Z.lxor_spec, Z.land_spec, Z.shiftl_spec by done.
    change 0xFFFF%Z with (Z.ones 16). destruct (Z.lt_ge_cases n 16) as [Hlt|Hge].
    - rewrite Z.ones_spec_low by lia. rewrite andb_true_r.
      assert (Z.testbit (if Z.testbit c 15 then 2 ^ 16 else 0)%Z n = false) as ->.
      { destruct (Z.testbit c 15); [by rewrite Z.pow2_bits_false by lia|apply Z.bits_0]. }
      by rewrite xorb_false_r.
    - rewrite Z.ones_spec_high by lia. rewrite andb_false_r, xorb_false_l.
      destruct (Z.eq_dec n 16) as [->|].
      + change (16 - 1)%Z with 15%Z. by destruct (Z.testbit c 15).
      + rewrite testbit_word16 by (done || lia).
        destruct (Z.testbit c 15); [by rewrite Z.pow2_bits_false by lia|by rewrite Z.bits_0]. }
  split.
  - rewrite Hs at 1. destruct (Z.testbit c 15).
    + set (l := Z.land _ _). rewrite (Z.lxor_comm l), Z.lxor_assoc, <- (Z.lxor_assoc l l), Z.lxor_nilpotent.
      rewrite Z.lxor_0_l. done.
    + rewrite Z.lxor_0_r. apply Z.lxor_nilpotent.
  - destruct (Z.testbit c 15); [|done]. apply word16_lxor; [done|]. unfold word16. lia.
Qed.

Lemma divisible_shiftl n z : (0 <= n)%Z -> divisible z -> divisible (Z.shiftl z n).
Proof.
  intros Hn Hz. revert n Hn. apply natlike_ind; [by rewrite Z.shiftl_0_r|].
  intros n Hn IH. rewrite <- Z.add_1_r, <- Z.shiftl_shiftl by lia. by apply div_times_x.
Qed.

Lemma lxor_cancel a b c : Z.lxor a c = Z.lxor (Z.lxor a b) (Z.lxor b c).
Proof. by rewrite <- Z.lxor_assoc, (Z.lxor_assoc a b b), Z.lxor_nilpotent, Z.lxor_0_r. Qed.

Lemma crc_shifts_divisible n c :
  word16 c -> divisible (Z.lxor (Z.shiftl c (Z.of_nat n)) (crc_shifts n c)) /\ word16 (crc_shifts n c).
Proof.
  revert c. induction n as [|n IH]; intros c Hc; simpl crc_shifts.
  { simpl. rewrite Z.shiftl_0_r, Z.lxor_nilpotent. split; [constructor|done]. }
  destruct (crc_shift_split c Hc) as [Hs Hw]. destruct (IH _ Hw) as [Hd Hw']. split; [|done].
  rewrite (lxor_cancel _ (Z.shiftl (crc_shift c) (Z.of_nat n))). apply div_sum; [|done].
  rewrite Nat2Z.inj_succ, <- Z.add_1_l, <- Z.shiftl_shiftl, <- Z.shiftl_lxor by lia.
  apply divisible_shiftl; [lia|]. rewrite Hs. destruct (Z.testbit c 15); constructor.
Qed.

Lemma word16_byte b : word16 (Z.shiftl (Z.of_N (byte_of b)) 8).
Proof.
  unfold word16, byte_of. rewrite Z.shiftl_mul_pow2 by lia.
  assert (N_of_ascii b < 256)%N by apply N_ascii_bounded. lia.
Qed.

(** The register holds the remainder of what was read so far. *)
Definition remainder_of (m c : Z) : Prop := divisible (Z.lxor (Z.shiftl m 16) c) /\ word16 c.

Lemma crc_byte_remainder m c b :
  remainder_of m c ->
  remainder_of (Z.lxor (Z.shiftl m 8) (Z.of_N (byte_of b))) (crc_byte c b).
Proof.
  intros [Hd Hc]. unfold crc_byte. set (v := Z.of_N (byte_of b)). set (c0 := Z.lxor c (Z.shiftl v 8)).
  assert (word16 c0) as Hc0 by (apply word16_lxor; [done|apply word16_byte]).
  destruct (crc_shifts_divisible 8 c0 Hc0) as [Hd8 Hw8]. split; [|done].
  rewrite (lxor_cancel _ (Z.shiftl c0 8)). apply div_sum; [|exact Hd8].
  unfold c0. rewrite !Z.shiftl_lxor, !Z.shiftl_shiftl by lia.
  change (8 + 16)%Z with (16 + 8)%Z. change (8 + 8)%Z with 16%Z.
  rewrite <- (Z.shiftl_shiftl m) by lia.
  replace (Z.lxor _ _) with (Z.shiftl (Z.lxor (Z.shiftl m 16) c) 8); [by apply divisible_shiftl|].
  rewrite Z.shiftl_lxor. set (x := Z.shiftl (Z.shiftl m 16) 8). set (y := Z.shiftl c 8). set (z := Z.shiftl v 16).
  rewrite (Z.lxor_comm y z), <- Z.lxor_assoc, (Z.lxor_assoc x z z), Z.lxor_nilpotent. by rewrite Z.lxor_0_r.
Qed.

Lemma crc16_remainder_of key m c : remainder_of m c -> remainder_of (message m key) (crc16 c key).
Proof.
  revert m c. induction key as [|b key IH]; intros m c H; [done|]. simpl.
  apply IH. by apply crc_byte_remainder.
Qed.

(** The register after a key is the CRC-16/XMODEM of the key: the remainder,
    of degree below 16, of its bits times x^16 modulo x^16 + x^12 + x^5 + 1, for
    keys of any length and any bytes. *)
Theorem crc16_is_remainder key :
  divisible (Z.lxor (Z.shiftl (message 0 key) 16) (crc16 0 key)) /\ (0 <= crc16 0 key < 2 ^ 16)%Z.
Proof. apply crc16_remainder_of. split; [rewrite Z.lxor_0_r; constructor|unfold word16; lia]. Qed.

(** ** Hash tags *)

Definition without (c : ascii) (s : string) : bool := str_forallb (fun x => negb (Ascii.eqb x c)) s.

Lemma hash_tag_plain tag : without "}" tag = true -> hash_tag tag = tag.
Proof.
  intros Ht. unfold hash_tag. destruct (cut "{" tag) as [[a b]|] eqn:E; [|done].
  apply cut_some in E. subst tag. unfold without in Ht. rewrite str_forallb_app in Ht.
  apply andb_true_iff in Ht as [_ Ht]. simpl in Ht. by rewrite (cut_none "}" b Ht).
Qed.

(** Keys that share a hash tag share a slot: what surrounds the first
    non-empty {tag} of a key does not matter, and the tag alone has that slot. *)
Theorem hash_tag_decides prefix tag suffix :
  without "{" prefix = true -> without "}" tag = true -> tag <> EmptyString ->
  ioredisClusterSlot (prefix +:+ "{" +:+ tag +:+ "}" +:+ suffix) = ioredisClusterSlot tag.
Proof.
  intros Hp Ht Hne. unfold ioredisClusterSlot. f_equal. f_equal. rewrite (hash_tag_plain tag Ht).
  unfold hash_tag.
  replace (prefix +:+ "{" +:+ tag +:+ "}" +:+ suffix) with (prefix +:+ String "{" (tag +:+ String "}" suffix)) by done.
  rewrite (cut_byte "{" prefix _ Hp), (cut_byte "}" tag suffix Ht).
  by rewrite (proj2 (String.eqb_neq tag EmptyString) Hne).
Qed.

(** ** The slot table *)

Definition covers (r : SlotRange) (slot : Z) : bool := (first_slot r <=? slot)%Z && (slot <=? last_slot r)%Z.

(** The address of the last range that covers a slot. *)
Definition slot_owner (ranges : list SlotRange) (slot : Z) : option string :=
  address <$> last (filter (fun r => covers r slot = true) ranges).

Lemma fill_from_lookup n first addr t slot :
  fill_from n first addr t !! slot =
  if (first <=? slot)%Z && (slot <? first + Z.of_nat n)%Z then Some addr else t !! slot.
Proof.
  revert first t. induction n as [|n IH]; intros first t; cbn [fill_from].
  - destruct (Z.leb_spec first slot), (Z.ltb_spec slot (first + Z.of_nat 0)); simpl; done || lia.
  - rewrite IH. destruct (Z.eq_dec first slot) as [->|Hne].
    + rewrite lookup_insert_eq.
      destruct (Z.leb_spec (slot + 1) slot), (Z.leb_spec slot slot), (Z.ltb_spec slot (slot + Z.of_nat (S n)));
        simpl; done || lia.
    + rewrite lookup_insert_ne by done.
      destruct (Z.leb_spec (first + 1) slot), (Z.leb_spec first slot),
        (Z.ltb_spec slot (first + 1 + Z.of_nat n)), (Z.ltb_spec slot (first + Z.of_nat (S n)));
        simpl; done || lia.
Qed.

Lemma fill_range_lookup r t slot :
  fill_range r t !! slot = if covers r slot then Some (address r) else t !! slot.
Proof.
  unfold fill_range, covers. rewrite fill_from_lookup.
  destruct (Z.leb_spec (first_slot r) slot), (Z.leb_spec slot (last_slot r)),
    (Z.ltb_spec slot (first_slot r + Z.of_nat (Z.to_nat (last_slot r - first_slot r + 1)))); simpl; done || lia.
Qed.

Lemma build_slots_owner ranges slot : build_slots ranges !! slot = slot_owner ranges slot.
Proof.
  unfold build_slots, slot_owner. induction ranges as [|r ranges IH] using rev_ind; [done|].
  rewrite foldl_app, filter_app. simpl. rewrite fill_range_lookup, filter_cons, filter_nil.
  case_decide as Hc.
  - rewrite Hc. by rewrite last_snoc.
  - destruct (covers r slot); [done|]. by rewrite app_nil_r.
Qed.

Definition range_ok (r : SlotRange) : Prop :=
  (0 <= first_slot r /\ first_slot r <= last_slot r /\ last_slot r < 16384)%Z /\ address r <> EmptyString.

Lemma joinHostPort_nonempty host port : joinHostPort host port <> EmptyString.
Proof.
  unfold joinHostPort. destruct (_ || _); [done|]. intros E. apply (f_equal String.length) in E.
  rewrite slength_app in E. simpl in E. lia.
Qed.

Lemma parse_row_ok split_host seed raw r : parse_row split_host seed raw = Ok r -> range_ok r.
Proof.
  unfold parse_row. destruct raw as [| | |[|f [|l [|nd more]]]|]; try done.
  destruct (ioredisReplyInt f) as [first|]; [|done]. destruct (ioredisReplyInt l) as [last|]; [|done].
  destruct nd as [| | |[|host [|port rest]]|]; try done.
  destruct ((first <? 0)%Z || (last <? first)%Z || (16384 <=? last)%Z) eqn:Eb; [done|].
  destruct (host_of split_host seed host) as [h|]; [|done].
  destruct (ioredisReplyInt port) as [p|]; [|done].
  destruct ((p <=? 0)%Z || (65535 <? p)%Z); [done|]. intros [= <-].
  bool_hyps. unfold range_ok. cbn [first_slot last_slot address]. split; [lia|apply joinHostPort_nonempty].
Qed.

Lemma parse_rows_ok split_host seed rows ranges :
  parse_rows split_host seed rows = Ok ranges -> Forall range_ok ranges /\ length ranges = length rows.
Proof.
  revert ranges. induction rows as [|raw rows IH]; intros ranges; simpl; [by intros [= <-]|].
  destruct (parse_row _ _ raw) as [r|] eqn:Er; [|done].
  destruct (parse_rows _ _ rows) as [rs|]; [|done]. intros [= <-].
  destruct (IH rs eq_refl) as [Hf Hl]. split; [|simpl; lia].
  constructor; [by eapply parse_row_ok|done].
Qed.

(** A CLUSTER SLOTS reply that parses describes ranges within the 16384
    slots with a usable address, so filling the table never leaves it, and the
    table answers each slot with the address of the last range that covers it. *)
Theorem slot_table_correct split_host v seed ranges :
  parseIORedisClusterSlots split_host v seed = Ok ranges ->
  ranges <> [] /\ Forall range_ok ranges /\ first_address ranges <> EmptyString /\
  (forall slot, build_slots ranges !! slot = slot_owner ranges slot) /\
  (forall slot addr, build_slots ranges !! slot = Some addr ->
     (0 <= slot < 16384)%Z /\ addr <> EmptyString).
Proof.
  unfold parseIORedisClusterSlots. destruct v as [| | |[|row rows]|]; try done.
  intros H. destruct (parse_rows_ok _ _ _ _ H) as [Hf Hl].
  destruct ranges as [|r ranges]; [done|]. split_and!; [done|done| | |].
  - apply Forall_cons in Hf as [[_ ?] _]. done.
  - apply build_slots_owner.
  - intros slot addr. rewrite build_slots_owner. unfold slot_owner. intros (r0 & Hlast & ->)%fmap_Some.
    apply last_Some in Hlast as [l' Hl']. 
    assert (r0 ∈ filter (fun r => covers r slot = true) (r :: ranges)) as Hin by (rewrite Hl'; set_solver).
    apply list_elem_of_filter in Hin as [Hc Hin]. rewrite Forall_forall in Hf.
    destruct (Hf _ Hin) as [? ?]. unfold covers in Hc. bool_hyps. split; [lia|done].
Qed.

(** ** Routing *)

(** The arguments of a command that are keys. *)
Definition counted_keys (command : list string) : list string :=
  match command !! 2 ≫= atoi with
  | Some n => take (Z.to_nat n) (drop 3 command)
  | None => []
  end.

Definition stream_keys (group_verb : bool) (command : list string) : list string :=
  match xread_prefix (length command) group_verb false 1 (drop 1 command) with
  | Some streams => take (Nat.div2 (length command - streams - 1)) (drop (streams + 1) command)
  | None => []
  end.

Definition key_at (index : nat) (command : list string) : list string :=
  match command !! index with Some key => [key] | None => [] end.

Definition subcommand_is (words : list string) (command : list string) : bool :=
  match command !! 1 with Some sub => is_one_of words (to_upper sub) | None => false end.

Definition command_keys (command : list string) : list string :=
  match command with
  | [] => []
  | name :: args =>
      let verb := to_upper name in
      if ioredisClusterNodeCommand verb || String.eqb verb "SCRIPT" then []
      else if is_one_of ["EVAL"; "EVALSHA"; "FCALL"; "FCALL_RO"] verb then counted_keys command
      else if is_one_of ["XREAD"; "XREADGROUP"] verb then stream_keys (String.eqb verb "XREADGROUP") command
      else if is_one_of ["OBJECT"; "XGROUP"; "XINFO"] verb then
        if subcommand_is ["HELP"] command then [] else key_at 2 command
      else if String.eqb verb "MEMORY" then
        if subcommand_is ["USAGE"] command then key_at 2 command else []
      else if is_one_of ["BLPOP"; "BRPOP"; "BZPOPMIN"; "BZPOPMAX"] verb then take (length command - 2) args
      else if is_one_of ["BLMPOP"; "BZMPOP"] verb then counted_keys command
      else key_at 1 command
  end.

(** A command without keys goes to the first node, one with keys to the node
    that owns the slot all of them share. *)
Definition routed (slots : slot_table) (first : string) (keys : list string) (addr : string) : Prop :=
  (keys = [] /\ addr = first /\ addr <> EmptyString) \/
  (keys <> [] /\ exists slot, slots !! slot = Some addr /\ addr <> EmptyString /\
     Forall (fun key => ioredisClusterSlot key = slot) keys).

Section routing.
Context (slots : slot_table) (first : string).

Lemma routeFirstNode_routed addr : routeFirstNode first = Ok addr -> routed slots first [] addr.
Proof.
  unfold routeFirstNode. destruct (String.eqb_spec first EmptyString); [done|]. intros [= <-]. by left.
Qed.

Lemma routeSlot_ok slot addr : routeSlot slots slot = Ok addr -> slots !! slot = Some addr /\ addr <> EmptyString.
Proof.
  unfold routeSlot. destruct (slots !! slot) as [a|]; [|done].
  destruct (String.eqb_spec a EmptyString); [done|]. by intros [= <-].
Qed.

Lemma check_keys_ok slot keys :
  check_keys slot keys = Ok tt -> Forall (fun key => ioredisClusterSlot key = slot) keys.
Proof.
  induction keys as [|key keys IH]; simpl; [done|].
  destruct (Z.eqb_spec (ioredisClusterSlot key) slot); [|done]. constructor; auto.
Qed.

Lemma routeKeys_routed keys addr : routeKeys slots keys = Ok addr -> routed slots first keys addr.
Proof.
  unfold routeKeys. destruct keys as [|key keys]; [done|].
  destruct (check_keys _ keys) as [[]|] eqn:E; [|done]. intros [Hs Ha]%routeSlot_ok.
  right. split; [done|]. exists (ioredisClusterSlot key). split_and!; [done|done|].
  constructor; [done|by apply check_keys_ok].
Qed.

Lemma routeKey_routed key addr : routeKey slots key = Ok addr -> routed slots first [key] addr.
Proof. intros [Hs Ha]%routeSlot_ok. right. split; [done|]. eexists. split_and!; [done|done|]. by constructor. Qed.

Lemma routeKeyAt_routed verb command index addr :
  routeKeyAt slots verb command index = Ok addr -> routed slots first (key_at index command) addr.
Proof. unfold routeKeyAt, key_at. destruct (command !! index); [|done]. apply routeKey_routed. Qed.

Lemma routeEval_routed verb command addr :
  routeEval slots first verb command = Ok addr -> routed slots first (counted_keys command) addr.
Proof.
  unfold routeEval, counted_keys. destruct (command !! 2) as [count|]; [|done]. simpl.
  destruct (atoi count) as [n|]; [|done]. destruct (n <? 0)%Z; [done|]. destruct (_ <? n)%Z; [done|].
  destruct (Z.eqb_spec n 0) as [->|]; [apply routeFirstNode_routed|apply routeKeys_routed].
Qed.

Lemma routeCountedKeys_routed verb command addr :
  routeCountedKeys slots verb command = Ok addr -> routed slots first (counted_keys command) addr.
Proof.
  unfold routeCountedKeys, counted_keys. destruct (command !! 2) as [count|]; [|done]. simpl.
  destruct (atoi count) as [n|]; [|done]. destruct (_ || _); [done|]. apply routeKeys_routed.
Qed.

Lemma routeXRead_routed verb command addr :
  routeXRead slots verb command = Ok addr ->
  routed slots first (stream_keys (String.eqb verb "XREADGROUP") command) addr.
Proof.
  unfold routeXRead, stream_keys. destruct (xread_prefix _ _ _ _ _) as [streams|]; [|done].
  destruct (negb _); [done|]. destruct (Nat.eqb _ 0); [done|]. apply routeKeys_routed.
Qed.

Lemma route_routed command addr :
  route slots first command = Ok addr -> routed slots first (command_keys command) addr.
Proof.
  unfold route, command_keys. destruct command as [|name args]; [done|]. set (verb := to_upper name).
  assert (forall m, (match args with key :: _ => routeKey slots key | [] => Err (RMissing m) end) = Ok addr ->
    routed slots first (key_at 1 (name :: args)) addr) as Hkey.
  { intros m. unfold key_at. destruct args as [|key args]; [done|]. simpl. apply routeKey_routed. }
  destruct (is_one_of ["SCAN"; _; _; _; _] verb); [done|].
  destruct (_ || _); [apply routeFirstNode_routed|].
  destruct (is_one_of ["EVAL"; _; _; _] verb); [apply routeEval_routed|].
  destruct (is_one_of ["XREAD"; _] verb); [apply routeXRead_routed|].
  destruct (is_one_of ["OBJECT"; _; _] verb).
  { unfold routeSubcommandKey, subcommand_is. destruct ((name :: args) !! 1) as [sub|] eqn:E; [|done].
    simpl is_one_of. rewrite orb_false_r. destruct (String.eqb (to_upper sub) "HELP"); [apply routeFirstNode_routed|].
    destruct (negb _); [done|]. apply routeKeyAt_routed. }
  destruct (String.eqb verb "MEMORY").
  { unfold routeMemory, subcommand_is. destruct ((name :: args) !! 1) as [sub|] eqn:E; [|done].
    simpl (is_one_of ["USAGE"] _). rewrite orb_false_r.
    destruct (String.eqb (to_upper sub) "USAGE"); [apply routeKeyAt_routed|].
    destruct (is_one_of _ _); [apply routeFirstNode_routed|done]. }
  destruct (is_one_of ["BLPOP"; _; _; _] verb).
  { destruct (Nat.ltb _ 3); [done|]. apply routeKeys_routed. }
  destruct (is_one_of ["BRPOPLPUSH"; _] verb) eqn:Eb.
  - assert (is_one_of ["BLMPOP"; "BZMPOP"] verb = false) as ->; [|apply Hkey].
    unfold is_one_of in *. simpl in *. rewrite orb_false_r in *.
    destruct (String.eqb_spec verb "BRPOPLPUSH") as [->|]; [done|].
    by destruct (String.eqb_spec verb "BLMOVE") as [->|].
  - destruct (is_one_of ["BLMPOP"; _] verb); [apply routeCountedKeys_routed|apply Hkey].
Qed.
End routing.

(** A command is routed by all of its keys: when route answers, the command
    has no keys and goes to the first node, or all of its keys hash to one slot
    and it goes to the address the table has for that slot; keys that span
    slots, a cluster-wide command and an unmapped slot are errors. *)
Theorem route_owns_all_keys slots first command addr :
  route slots first command = Ok addr -> routed slots first (command_keys command) addr.
Proof. apply route_routed. Qed.

(** ** What reaches the nodes *)

(** The exchanges of a trace that carry a command, with or without ASKING. *)
Definition carries (command : list string) (cmds : list (list string)) : bool :=
  bool_decide (cmds = [command] \/ cmds = [["asking"]; command]).

Definition carried_event (command : list string) (e : xevent) : option Exchange :=
  match e with
  | XExchange _ cmds x => if carries command cmds then Some x else None
  | _ => None
  end.

Definition carried (command : list string) (tr : list xevent) : list Exchange := omap (carried_event command) tr.

(** A redirect answer is authoritative: the node did not run the command. *)
Definition redirected (y : Exchange) : Prop :=
  ExError y = None /\ exists r, last (Replies y) = Some r /\ parseIORedisClusterRedirect (RError r) <> None.

Definition not_executed (y : Exchange) : Prop :=
  redirected y \/ (ExError y <> None /\ MayHaveExecuted y = false).

(** The final answer [x] accounts for the exchanges [ys] that came last. *)
Definition accounts (ys : list Exchange) (x : Exchange) : Prop :=
  length ys <= 1 /\
  (MayHaveExecuted x = false -> Forall not_executed ys) /\
  (ExError x = None -> exists y r, ys = [y] /\ last (Replies y) = Some r /\ Replies x = [r] /\
     parseIORedisClusterRedirect (RError r) = None).

Definition at_most_once (n : nat) (ys : list Exchange) (x : Exchange) : Prop :=
  exists rs rest, ys = rs ++ rest /\ length ys <= n /\ Forall redirected rs /\ accounts rest x.

Lemma carried_app command t1 t2 : carried command (t1 ++ t2) = carried command t1 ++ carried command t2.
Proof. apply omap_app. Qed.

Lemma carries_self command : carries command [command] = true.
Proof. apply bool_decide_eq_true. by left. Qed.

Lemma carries_asking command : carries command [["asking"]; command] = true.
Proof. apply bool_decide_eq_true. by right. Qed.

Lemma accounts_failure e mayHaveExecuted ys :
  length ys <= 1 -> (mayHaveExecuted = false -> Forall not_executed ys) ->
  accounts ys (ioredisRedirectFailure e mayHaveExecuted).
Proof. intros Hl Hf. split_and!; [done|exact Hf|done]. Qed.

Lemma accounts_error y e z :
  ExError y = Some z -> accounts [y] (ioredisRedirectFailure e (MayHaveExecuted y)).
Proof.
  intros Hz. apply accounts_failure; [simpl; lia|]. intros Hm. constructor; [|done]. right. by rewrite Hz.
Qed.

Lemma accounts_delivered y r :
  last (Replies y) = Some r -> parseIORedisClusterRedirect (RError r) = None -> accounts [y] (delivered [r]).
Proof. intros Hl Hr. split_and!; [simpl; lia|done|]. intros _. eauto 10. Qed.

Lemma redirected_reply y r next :
  ExError y = None -> last (Replies y) = Some r -> parseIORedisClusterRedirect (RError r) = Some next -> redirected y.
Proof. intros He Hl Hr. split; [done|]. exists r. by rewrite Hr. Qed.

Lemma at_most_once_accounts n ys x :
  at_most_once n ys x ->
  length ys <= n /\
  (forall i y, ys !! i = Some y -> S i < length ys -> redirected y) /\
  (MayHaveExecuted x = false -> Forall not_executed ys) /\
  (ExError x = None -> exists y r, last ys = Some y /\ last (Replies y) = Some r /\
     Replies x = [r] /\ parseIORedisClusterRedirect (RError r) = None).
Proof.
  intros (rs & rest & -> & Hlen & Hrs & Hl & Hno & Hok). split_and!; [done| | |].
  - intros i y Hy Hi. rewrite length_app in Hi. rewrite Forall_forall in Hrs. apply Hrs.
    rewrite lookup_app_l in Hy by lia. by eapply list_elem_of_lookup_2.
  - intros Hm. apply Forall_app. split; [|auto]. eapply Forall_impl; [exact Hrs|]. by left.
  - intros He. destruct (Hok He) as (y & r & -> & Hr). exists y, r. by rewrite last_snoc.
Qed.

Section cluster.
Context (w : net) (split_host : string -> option string).

Lemma ask_inv addr cmds h tr x :
  ask w addr cmds h = (tr, x) -> tr = [XExchange addr cmds x].
Proof. by intros [-> ->]%call_inv. Qed.

Lemma nodeForAddress_events t addr h tr r command :
  nodeForAddress w t addr h = (tr, r) -> carried command tr = [].
Proof.
  unfold nodeForAddress. destruct (cluster_stopped t); [by intros [-> _]%tret_inv|].
  case_bool_decide; [by intros [-> _]%tret_inv|].
  intros (t1 & a & t2 & [_ ->]%call_inv & [-> _]%tret_inv & ->)%tbind_inv. done.
Qed.

Lemma refreshSlots_events t addr h tr r command :
  command <> ["cluster"; "slots"] -> refreshSlots w split_host t addr h = (tr, r) -> carried command tr = [].
Proof.
  intros Hc (t1 & n & t2 & Hn & H & ->)%tbind_inv. rewrite carried_app.
  rewrite (nodeForAddress_events _ _ _ _ _ _ Hn). destruct n as [t'|e]; [|by apply tret_inv in H as [-> _]].
  apply tbind_inv in H as (t3 & x & t4 & ->%ask_inv & [-> _]%tret_inv & ->).
  cbn. unfold carries. case_bool_decide as H; [destruct H; congruence|done].
Qed.

(** One attempt ends with a final answer for the exchange it made, or with
    one more redirect. *)
Definition attempt_sound (ys : list Exchange) (a : Exchange + RedirectInfo) : Prop :=
  match a with
  | inl x => accounts ys x
  | inr _ => exists y, ys = [y] /\ redirected y
  end.

Lemma ask_once_sound t command addr h tr t' a :
  ask_once w t command addr h = (tr, (t', a)) -> attempt_sound (carried command tr) a.
Proof.
  intros (t1 & n & t2 & Hn & H & ->)%tbind_inv. rewrite carried_app.
  rewrite (nodeForAddress_events _ _ _ _ _ _ Hn). destruct n as [t3|e].
  - apply tbind_inv in H as (t4 & y & t5 & ->%ask_inv & [-> [= -> ->]]%tret_inv & ->).
    cbn. rewrite carries_asking. destruct (ExError y) as [e|] eqn:Ee; [by eapply accounts_error|].
    destruct (Replies y) as [|asking [|r [|]]] eqn:Er; try by (apply accounts_failure; [simpl; lia|done]).
    destruct (RError asking); [by (apply accounts_failure; [simpl; lia|done])|].
    destruct (parseIORedisClusterRedirect (RError r)) as [next|] eqn:Ep.
    + exists y. split; [done|]. eapply redirected_reply; [done|by rewrite Er|done].
    + apply accounts_delivered; [by rewrite Er|done].
  - apply tret_inv in H as [-> [= -> ->]]. apply accounts_failure; [simpl; lia|by constructor].
Qed.

Lemma moved_once_sound t command addr h tr t' a :
  command <> ["cluster"; "slots"] ->
  moved_once w split_host t command addr h = (tr, (t', a)) -> attempt_sound (carried command tr) a.
Proof.
  intros Hc (t1 & s & t2 & Hs & H & ->)%tbind_inv. rewrite carried_app.
  rewrite (refreshSlots_events _ _ _ _ _ _ Hc Hs). destruct s as [t3 [e|]].
  { apply tret_inv in H as [-> [= -> ->]]. apply accounts_failure; [simpl; lia|by constructor]. }
  destruct (route _ _ command) as [target|e].
  2: { apply tret_inv in H as [-> [= -> ->]]. apply accounts_failure; [simpl; lia|by constructor]. }
  apply tbind_inv in H as (t4 & n & t5 & Hn & H & ->). rewrite carried_app.
  rewrite (nodeForAddress_events _ _ _ _ _ _ Hn). destruct n as [t6|e].
  2: { apply tret_inv in H as [-> [= -> ->]]. apply accounts_failure; [simpl; lia|by constructor]. }
  apply tbind_inv in H as (t7 & y & t8 & ->%ask_inv & [-> [= -> ->]]%tret_inv & ->).
  cbn. rewrite carries_self. destruct (ExError y) as [e|] eqn:Ee; [by eapply accounts_error|].
  destruct (Replies y) as [|r [|]] eqn:Er; try by (apply accounts_failure; [simpl; lia|done]).
  destruct (parseIORedisClusterRedirect (RError r)) as [next|] eqn:Ep.
  + exists y. split; [done|]. eapply redirected_reply; [done|by rewrite Er|done].
  + apply accounts_delivered; [by rewrite Er|done].
Qed.

Lemma followSingleRedirect_sound n t command redirect h tr t' x :
  command <> ["cluster"; "slots"] ->
  followSingleRedirect w split_host n t command redirect h = (tr, (t', x)) ->
  at_most_once n (carried command tr) x.
Proof.
  intros Hc. revert t redirect h tr. induction n as [|n IH]; intros t redirect h tr; cbn [followSingleRedirect].
  { intros [-> [= -> ->]]%tret_inv. exists [], []. split_and!; [done|done|done|].
    apply accounts_failure; [simpl; lia|by constructor]. }
  intros (t1 & [t2 a] & t3 & Ha & H & ->)%tbind_inv. rewrite carried_app.
  assert (attempt_sound (carried command t1) a) as Hs
    by (destruct (String.eqb _ _); [by eapply ask_once_sound|by eapply moved_once_sound]).
  destruct a as [y|next].
  - apply tret_inv in H as [-> [= -> ->]]. rewrite app_nil_r. exists [], (carried command t1).
    assert (length (carried command t1) <= 1) by apply Hs.
    split_and!; [done|lia|done|done].
  - destruct Hs as (y & -> & Hy). destruct (IH _ _ _ _ H) as (rs & rest & -> & Hl & Hf & Hr).
    exists (y :: rs), rest. split_and!; [done|simpl; lia|by constructor|done].
Qed.
End cluster.

(** What a pipeline sends. *)
Definition sent_event (e : xevent) : option (string * list (list string)) :=
  match e with XExchange addr cmds _ => Some (addr, cmds) | _ => None end.

Definition sent (tr : list xevent) : list (string * list (list string)) := omap sent_event tr.

Lemma route_all_ok t cmds addrs :
  route_all t cmds = Ok addrs -> Forall2 (fun c addr => route (slots t) (first t) c = Ok addr) cmds addrs.
Proof.
  revert addrs. induction cmds as [|c cmds IH]; intros addrs; cbn [route_all]; [by intros [= <-]|].
  destruct (route _ _ c) as [a|] eqn:Ec; [|done]. destruct (route_all t cmds) as [l|]; [|done].
  intros [= <-]. constructor; [done|by apply IH].
Qed.

Lemma one_node cmds t addr rest :
  route_all t cmds = Ok (addr :: rest) -> forallb (String.eqb addr) rest = true ->
  Forall (fun c => route (slots t) (first t) c = Ok addr) cmds.
Proof.
  intros Hr Ha. apply route_all_ok in Hr.
  assert (Forall (fun a => a = addr) (addr :: rest)) as Hall.
  { constructor; [done|]. rewrite Forall_forall. intros a Hin. apply list_elem_of_In in Hin.
    rewrite forallb_forall in Ha. symmetry. by apply String.eqb_eq, Ha. }
  clear Ha. remember (addr :: rest) as addrs eqn:E. clear E. induction Hr as [|c a cmds addrs Hc Hr IH]; [constructor|].
  apply Forall_cons in Hall as [-> Hall]. constructor; auto.
Qed.

Section pipeline.
Context (w : net) (split_host : string -> option string).

Lemma nodeForAddress_sent t addr h tr r : nodeForAddress w t addr h = (tr, r) -> sent tr = [].
Proof.
  unfold nodeForAddress. destruct (cluster_stopped t); [by intros [-> _]%tret_inv|].
  case_bool_decide; [by intros [-> _]%tret_inv|].
  intros (t1 & a & t2 & [_ ->]%call_inv & [-> _]%tret_inv & ->)%tbind_inv. done.
Qed.

(** A pipeline that sends something sends itself, whole, to the node all of
    its commands route to; the rest is up to [answer_pipeline]. *)
Lemma pipeline_exchange_inv t cmds h tr t' x :
  cmds <> [] ->
  pipeline_exchange w split_host t cmds h = (tr, (t', x)) ->
  (sent tr = [] /\ exists e, x = refused e) \/
  (exists t1 addr y t2 h' tn, Forall (fun c => route (slots t) (first t) c = Ok addr) cmds /\
     sent t1 = [] /\ (forall command, carried command t1 = []) /\
     tr = t1 ++ [XExchange addr cmds y] ++ t2 /\
     answer_pipeline w split_host tn cmds y h' = (t2, (t', x))).
Proof.
  intros Hne. unfold pipeline_exchange. destruct (route_all t cmds) as [addrs|e] eqn:Er.
  2: { intros [-> [= -> ->]]%tret_inv. left. eauto. }
  destruct addrs as [|addr rest].
  { apply route_all_ok in Er. apply Forall2_nil_inv_r in Er. done. }
  destruct (forallb _ rest) eqn:Ef; cbn [negb].
  2: { intros [-> [= -> ->]]%tret_inv. left. eauto. }
  intros (t1 & n & t2 & Hn & H & ->)%tbind_inv. destruct n as [tn|e].
  2: { apply tret_inv in H as [-> [= -> ->]]. left. rewrite app_nil_r.
       split; [by eapply nodeForAddress_sent|eauto]. }
  apply tbind_inv in H as (t3 & y & t4 & ->%ask_inv & H & ->). right.
  exists t1, addr, y, t4, ((h ++ t1) ++ [XExchange addr cmds y]), tn. split_and!.
  - by eapply one_node.
  - by eapply nodeForAddress_sent.
  - intros command. by eapply nodeForAddress_events.
  - done.
  - exact H.
Qed.

(** A pipeline of several commands is never split, reordered or replayed:
    either nothing is sent and the exchange is a terminal error with
    NotWritten, or the pipeline is sent exactly once, whole and in order, to
    the one node all of its commands route to, and the exchange hands on that
    node's replies for all of its commands, or reports that it may have
    executed unless the node said otherwise. *)
Theorem pipeline_sent_once t cmds h tr t' x :
  2 <= length cmds ->
  cluster_exchange w split_host t cmds h = (tr, (t', x)) ->
  (sent tr = [] /\ exists e, x = refused e) \/
  (exists addr y, sent tr = [(addr, cmds)] /\
     Forall (fun c => route (slots t) (first t) c = Ok addr) cmds /\
     match ExError y with
     | Some _ => x = y
     | None => MayHaveExecuted x = true /\
               (Replies x = Replies y /\ length (Replies x) = length cmds \/ ExError x <> None)
     end).
Proof.
  intros Hlen H.
  assert (pipeline_exchange w split_host t cmds h = (tr, (t', x))) as Hp.
  { unfold cluster_exchange in H. destruct cmds as [|c1 [|c2 cmds]]; [simpl in Hlen; lia..|].
    by destruct c1 as [|? [|]]. }
  apply pipeline_exchange_inv in Hp as [?|(t1 & addr & y & t2 & h' & tn & Hr & Hs & _ & -> & Ha)];
    [by left| |destruct cmds; simpl in Hlen; [lia|done]].
  right. exists addr, y. unfold answer_pipeline in Ha.
  assert (t2 = [] /\ match ExError y with
     | Some _ => x = y
     | None => MayHaveExecuted x = true /\
               (Replies x = Replies y /\ length (Replies x) = length cmds \/ ExError x <> None)
     end) as [-> Hx].
  { destruct (ExError y) as [e|]; [by apply tret_inv in Ha as [-> [= -> ->]]|].
    destruct (Nat.eqb_spec (length (Replies y)) (length cmds)) as [Hl|Hl]; cbn [negb] in Ha.
    2: { apply tret_inv in Ha as [-> [= -> ->]]. split; [done|]. split; [done|]. by right. }
    destruct (first_redirect (Replies y)) as [redirect|].
    2: { apply tret_inv in Ha as [-> [= -> ->]]. split; [done|]. split; [done|]. by left. }
    destruct cmds as [|c1 [|c2 cmds]]; [simpl in Hlen; lia..|].
    apply tret_inv in Ha as [-> [= -> ->]]. split; [done|]. split; [done|]. by left. }
  split; [|done]. unfold sent in *. rewrite !omap_app, Hs. done.
Qed.

Lemma pipeline_single_sound t command h tr t' x :
  command <> ["cluster"; "slots"] ->
  pipeline_exchange w split_host t [command] h = (tr, (t', x)) ->
  at_most_once (S ioredisClusterMaxRedirects) (carried command tr) x.
Proof.
  intros Hc [[Hs [e ->]]|(t1 & addr & y & t2 & h' & tn & _ & _ & Hn & -> & Ha)]%pipeline_exchange_inv; [| |done].
  { assert (carried command tr = []) as ->.
    { clear -Hs. induction tr as [|[] tr IH]; cbn in *; done || by apply IH. }
    exists [], []. split_and!; [done|simpl; lia|done|]. split_and!; [simpl; lia|by constructor|done]. }
  rewrite !carried_app, Hn. cbn [app]. change (carried command [XExchange addr [command] y])
    with (omap (carried_event command) [XExchange addr [command] y]). cbn. rewrite carries_self.
  unfold answer_pipeline in Ha.
  assert (forall ys, accounts [y] x -> ys = [y] -> at_most_once (S ioredisClusterMaxRedirects) ys x) as Hlast.
  { intros ys Hacc ->. exists [], [y]. split_and!; [done|simpl; lia|done|done]. }
  destruct (ExError y) as [e|] eqn:Ee.
  { apply tret_inv in Ha as [-> [= -> ->]]. apply Hlast; [|done]. split_and!; [simpl; lia| |by rewrite Ee].
    intros Hm. constructor; [|done]. right. by rewrite Ee. }
  destruct (Replies y) as [|r [|]] eqn:Er.
  1, 3: apply tret_inv in Ha as [-> [= -> ->]]; apply Hlast; [|done]; split_and!; [simpl; lia|done|done].
  cbn [length Nat.eqb negb] in Ha. unfold first_redirect in Ha. cbn [omap list_omap head] in Ha.
  destruct (parseIORedisClusterRedirect (RError r)) as [redirect|] eqn:Ep; cbn [head] in Ha.
  2: { apply tret_inv in Ha as [-> [= -> ->]]. apply Hlast; [|done].
       apply accounts_delivered; [by rewrite Er|done]. }
  apply followSingleRedirect_sound in Ha as (rs & rest & -> & Hl & Hf & Hr); [|done].
  exists (y :: rs), rest. split_and!; [done|simpl in *; lia| |done]. constructor; [|done].
  eapply redirected_reply; [done|by rewrite Er|done].
Qed.

(** C28: A single command runs at most once however often it is redirected: in
    the at most 17 exchanges that carry it, every one but the last was
    answered by a redirect, which a node gives in place of running the
    command; a result that says it has not executed is right about all of
    them, and a result without an error is the reply of the last one. *)
Theorem redirected_command_runs_at_most_once t command h tr t' x :
  command <> ["cluster"; "slots"] ->
  (forall name, command = [name] -> equal_fold name "QUIT" = false) ->
  cluster_exchange w split_host t [command] h = (tr, (t', x)) ->
  length (carried command tr) <= S ioredisClusterMaxRedirects /\
  (forall i y, carried command tr !! i = Some y -> S i < length (carried command tr) -> redirected y) /\
  (MayHaveExecuted x = false -> Forall not_executed (carried command tr)) /\
  (ExError x = None -> exists y r, last (carried command tr) = Some y /\ last (Replies y) = Some r /\
     Replies x = [r] /\ parseIORedisClusterRedirect (RError r) = None).
Proof.
  intros Hc Hq H.
  assert (pipeline_exchange w split_host t [command] h = (tr, (t', x))) as Hp.
  { unfold cluster_exchange in H. destruct command as [|c [|]]; [done| |done]. by rewrite (Hq c eq_refl) in H. }
  by apply at_most_once_accounts, (pipeline_single_sound t command h tr t' x).
Qed.
End pipeline.
