(* ===== verification/RedisWitness.v ===== *)
(** * package redis: concrete runs

    A client, a connection and a cluster with chosen inputs, on which the
    hypotheses of the redis theorems hold. *)

From S2P Require Import Prelude.
From S2P Require Import GoStrings.
From S2P Require Import RedisResp.
From S2P Require Import RedisWire.
From S2P Require Import RedisQueue.
From S2P Require Import RedisQueueProofs.
From S2P Require Import RedisReplay.
From S2P Require Import RedisTransport.
From S2P Require Import RedisCluster.
From S2P Require Import RedisClusterProofs.

(** ** The codec *)

Definition lines (l : list string) : string := foldr (fun s rest => s +:+ crlf +:+ rest) EmptyString l.

Definition sample_reply : string := lines ["*2"; "$3"; "foo"; ":42"].

Lemma decode_bounded_witness :
  exists consumed, sample_reply +:+ "+OK" = consumed +:+ "+OK" /\
    well_bounded consumed (VArray [VString "foo"; VInt 42], None).
Proof. apply (decode_bounded "EOF"). vm_compute. reflexivity. Defined.

Lemma decode_stream_witness :
  readIORedisRESPValue "EOF" (sample_reply +:+ lines ["+OK"]) =
  Ok ((VArray [VString "foo"; VInt 42], None), lines ["+OK"]).
Proof. apply (decode_stream "EOF" sample_reply _ EmptyString). vm_compute. reflexivity. Defined.

Lemma decode_truncated_witness :
  exists e, readIORedisRESPValue "EOF" (lines ["*2"; "$3"] +:+ "fo") = Err e /\ ioredisRESPIOError e = true.
Proof.
  apply (decode_truncated "EOF" _ (lines ["o"; ":42"]) (VArray [VString "foo"; VInt 42], None));
    [vm_compute; reflexivity|discriminate].
Defined.

Definition sample_pipeline : list (list string) := [["set"; "k"; crlf +:+ "*1"]; ["get"; "k"]].
Definition sample_wire : string :=
  lines ["*3"; "$3"; "set"; "$1"; "k"; "$4"; ""; "*1"; "*2"; "$3"; "get"; "$1"; "k"].

Lemma encode_decode_witness :
  readReplies "EOF" 2 (sample_wire +:+ "+OK") = Ok (map command_reply sample_pipeline, "+OK").
Proof.
  apply (encode_decode "EOF" sample_pipeline); [vm_compute; reflexivity|].
  unfold sample_pipeline. apply Forall_cons. split; [|apply Forall_cons; split; [|apply Forall_nil; exact I]].
  - split; [|split; vm_compute; congruence]. repeat constructor; vm_compute; congruence.
  - split; [|split; vm_compute; congruence]. repeat constructor; vm_compute; congruence.
Defined.

(** ** The request queue *)

Fixpoint run (ls : list label) (cf : config) : option config :=
  match ls with
  | [] => Some cf
  | l :: rest => cf' ← step cf l; run rest cf'
  end.

Lemma run_reachable ls cf cf' : reachable cf -> run ls cf = Some cf' -> reachable cf'.
Proof.
  revert cf. induction ls as [|l ls IH]; intros cf Hr; simpl; [by intros [= <-]|].
  destruct (step cf l) as [cf1|] eqn:E; [|done]. simpl. apply IH. by eapply reachable_step.
Qed.

Definition written_ok : Exchange := MkExchange [] true FullyWritten 4 4 4 None.
Definition write_broke : Exchange := MkExchange [] true PartiallyWritten 2 4 2 (Some EEOF).
Definition reply_ok : Reply := MkReply (VString "OK") None.

(** Two requests are written, the first is answered, the second is in flight
    with one of its two replies and a blocking one waits. *)
Definition busy : list label :=
  [LSubmit ["set"; "k"; "v"] false; LConnect ConnDuplex; LSubmitPipeline [["get"; "k"]; ["get"; "l"]] false;
   LSubmit ["blpop"; "q"; "1"] true;
   LSession SScheduled; LSession (SWritten written_ok None None);
   LSession SScheduled; LSession (SWritten written_ok None None);
   LSession SReading; LSession (SRead (inr reply_ok) None None);
   LSession SReading; LSession (SRead (inr reply_ok) None None)].

Definition busy_config : config := default initial (run busy initial).
Definition busy_session : Session :=
  match busy_config.2 with Duplex s => s | _ => new_session end.

Lemma busy_reachable : reachable (busy_config.1, Duplex busy_session).
Proof. apply (run_reachable busy initial); [constructor|]. vm_compute. reflexivity. Qed.

Lemma queue_holds_open_requests_witness :
  queue busy_config.1 = [1; 2] /\
  NoDup (queue busy_config.1) /\
  forall id, id ∈ queue busy_config.1 <-> exists r, heap busy_config.1 !! id = Some r /\ future r = None.
Proof.
  split; [vm_compute; reflexivity|].
  exact (queue_holds_open_requests busy_config.1 (Duplex busy_session) busy_reachable).
Defined.

Lemma in_flight_heads_queue_witness :
  inFlight busy_session = [MkInFlight 1 [reply_ok]] /\
  Forall (fun e => length (replies_so_far e) < length (commands_of busy_config.1 (request e))) (inFlight busy_session).
Proof.
  split; [vm_compute; reflexivity|].
  exact (proj1 (proj2 (in_flight_heads_queue busy_config.1 busy_session busy_reachable))).
Defined.

(** The connection breaks while a blocking command is written: it is settled
    with an error, a plain command is replayed. *)
Definition broken : list label :=
  [LSubmit ["incr"; "k"] false; LConnect ConnDuplex; LSession SScheduled;
   LSession (SWritten write_broke None None); LConnect ConnDuplex; LSession SScheduled;
   LSession (SWritten written_ok None None); LSession SReading; LSession (SRead (inr reply_ok) None None);
   LSubmit ["blpop"; "q"; "1"] true; LSession SScheduled; LSession (SWritten write_broke None None)].

Definition broken_config : config := default initial (run broken initial).

Lemma broken_reachable : reachable (broken_config.1, broken_config.2).
Proof. apply (run_reachable broken initial); [constructor|]. vm_compute. reflexivity. Qed.

Definition broken_request (id : nat) : Request :=
  default (MkRequest [] false false false 0 0 0 None) (heap broken_config.1 !! id).

(** The history of the requests that reached the wire, computed. *)
Fixpoint wire_run (ls : list label) (T : list nat) (cf : config) : option (list nat * config) :=
  match ls with
  | [] => Some (T, cf)
  | l :: rest => match step cf l with Some cf' => wire_run rest (T ++ reached cf l) cf' | None => None end
  end.

Lemma wire_run_history ls T cf T' cf' : wire_history T cf -> wire_run ls T cf = Some (T', cf') -> wire_history T' cf'.
Proof.
  revert T cf. induction ls as [|l ls IH]; intros T cf H; cbn; [by intros [= <- <-]|].
  destruct (step cf l) as [cf1|] eqn:E; [|done]. apply IH. by eapply wire_step.
Qed.

(** After the break another blocking command is submitted and the client
    connects again: it is the one to be sent. *)
Definition again : list label := broken ++ [LSubmit ["blpop"; "r"; "1"] true; LConnect ConnDuplex].
Definition again_end : list nat * config := default ([], initial) (wire_run again [] initial).

Lemma exclusive_never_sent_again_witness :
  again_end.1 = [0; 0; 1] /\ sends again_end.2 (LSession SScheduled) = [2] /\
  is_exclusive again_end.2.1 2 = true /\ (2 ∉ again_end.1) /\ is_Some (heap again_end.2.1 !! 1 ≫= future).
Proof.
  assert (wire_history again_end.1 again_end.2) as Hh.
  { apply (wire_run_history again [] initial); [constructor|]. vm_compute. reflexivity. }
  destruct (exclusive_never_sent_again again_end.1 again_end.2 Hh) as (H1 & H2 & _).
  split_and!; try (vm_compute; reflexivity).
  - apply (H1 (LSession SScheduled) 2); vm_compute; [left|reflexivity].
  - destruct (H2 1) as (r & Hr & Hor); [vm_compute; right; right; left|].
    rewrite Hr. destruct Hor as [Hf|Hin]; [|exact Hf|].
    + vm_compute in Hr. injection Hr as <-. reflexivity.
    + exfalso. vm_compute in Hin. inversion Hin.
Defined.

Lemma retries_bounded_witness :
  replays (broken_request 0) = 1 /\ retryFailures (broken_request 0) <= S IORedisMaxRetriesPerRequest.
Proof.
  split; [vm_compute; reflexivity|].
  apply (retries_bounded broken_config.1 broken_config.2 0 (broken_request 0)).
  - exact broken_reachable.
  - vm_compute. reflexivity.
Defined.

Definition closed_run : list label := busy ++ [LDisconnect; LSession SContextDone].
Definition closed_config : config := default initial (run closed_run initial).

Lemma closed_reachable : reachable (closed_config.1, Done).
Proof. apply (run_reachable closed_run initial); [constructor|]. vm_compute. reflexivity. Qed.

Lemma done_settles_everything_witness :
  is_Some (future (default (broken_request 0) (heap closed_config.1 !! 2))).
Proof.
  apply (done_settles_everything closed_config.1 2 (default (broken_request 0) (heap closed_config.1 !! 2))).
  - exact closed_reachable.
  - vm_compute. reflexivity.
Defined.

(** The same history with its ledger of writes and replies. *)
Fixpoint run_session (ls : list label) (ws : list nat) (rs : list Reply) (log : list (nat * list Reply))
    (c : Client) (s : Session) : option (list nat * list Reply * list (nat * list Reply) * Client * Session) :=
  match ls with
  | [] => Some (ws, rs, log, c, s)
  | l :: rest =>
      match step (c, Duplex s) l with
      | Some (c', Duplex s') =>
          run_session rest (ws ++ RedisQueueProofs.sent s l) (rs ++ received l) (log ++ answered c s l) c' s'
      | _ => None
      end
  end.

Lemma run_session_history ls ws rs log c s ws' rs' log' c' s' :
  session_history ws rs log c s -> run_session ls ws rs log c s = Some (ws', rs', log', c', s') ->
  session_history ws' rs' log' c' s'.
Proof.
  revert ws rs log c s. induction ls as [|l ls IH]; intros ws rs log c s Hh; cbn [run_session].
  { by intros [= <- <- <- <- <-]. }
  destruct (step (c, Duplex s) l) as [[c1 [|s1| |]]|] eqn:E; try done. apply IH. by apply history_step.
Qed.

Definition first_connection : config := connected (Duplex new_session) (submit [["set"; "k"; "v"]] false false newIORedisCompatClient).2.

Lemma first_connection_history : session_history [] [] [] first_connection.1 new_session.
Proof.
  apply (history_start (submit [["set"; "k"; "v"]] false false newIORedisCompatClient).2 false); [|reflexivity].
  apply (run_reachable [LSubmit ["set"; "k"; "v"] false] initial); [constructor|reflexivity].
Qed.

Lemma replies_match_requests_witness :
  [0; 1] = map fst [(0, [reply_ok])] ++ map request (inFlight busy_session) /\
  [reply_ok; reply_ok] = concat (map snd [(0, [reply_ok])]) ++ concat (map replies_so_far (inFlight busy_session)).
Proof.
  assert (session_history [0; 1] [reply_ok; reply_ok] [(0, [reply_ok])] busy_config.1 busy_session) as Hh.
  { apply (run_session_history (drop 2 busy) [] [] [] first_connection.1 new_session).
    - exact first_connection_history.
    - vm_compute. reflexivity. }
  split.
  - exact (proj1 (replies_match_requests _ _ _ _ _ Hh)).
  - exact (proj1 (proj2 (replies_match_requests _ _ _ _ _ Hh))).
Defined.

(** ** The transport *)

Definition is_reply (e : cevent) : bool := match e with CReply _ => true | _ => false end.

(** A connection that takes at most seven bytes at a time and answers OK to
    the startup commands and then INFO. *)
Definition slow_conn (startup_replies : nat) : conn := {|
  k_deadline _ := None;
  k_write bytes _ := (Z.min 7 (Z.of_nat (String.length bytes)), None);
  k_counter h := Z.of_nat (length h);
  k_context _ := None;
  k_past _ := false;
  k_reply h := if Nat.ltb (length (List.filter is_reply h)) startup_replies then inr reply_ok
               else inr (MkReply (VString (lines ["# Persistence"; "loading:0"])) None);
  k_ready _ _ := true
|}.

Lemma slow_conn_contract n : writer_contract (slow_conn n).
Proof. intros bytes h. simpl. lia. Qed.

Definition slow_write := writeCommands (slow_conn 0) sample_pipeline [].

Lemma write_disposition_sound_witness :
  exists x, slow_write.2 = Some x /\ honest (accepted slow_write.1) x /\ accepted slow_write.1 = 50%Z.
Proof.
  destruct (write_disposition_sound (slow_conn 0) sample_pipeline [] slow_write.1 slow_write.2) as (x & Hx & Hh).
  - apply slow_conn_contract.
  - apply surjective_pairing.
  - exists x. split; [exact Hx|]. split; [exact Hh|]. vm_compute. reflexivity.
Defined.

Definition sample_options : Options :=
  MkOptions "localhost:6379" "" "secret" 2 "app" 0 0 0 0 true false "5.11.1".

#[local] Existing Instance resp_transport.

Definition slow_startup : list cevent * option (option cerr) :=
  @startup cevent (resp_transport (slow_conn 3)) sample_options 5 [].

Lemma startup_ready_witness :
  @answered_ready cevent (resp_transport (slow_conn 3)) [] slow_startup.1.
Proof.
  apply (@startup_ready cevent (resp_transport (slow_conn 3)) sample_options 5 [] slow_startup.1).
  - vm_compute. reflexivity.
  - reflexivity.
Defined.

(** ** The Cluster transport *)

Definition no_split (seed : string) : option string := None.

Definition slots_reply : value :=
  VArray [VArray [VInt 0; VInt 8191; VArray [VString "10.0.0.1"; VInt 7000]];
          VArray [VInt 8192; VInt 16383; VArray [VString "10.0.0.2"; VInt 7001]]].

Definition slots_ranges : list SlotRange :=
  [MkSlotRange 0 8191 "10.0.0.1:7000"; MkSlotRange 8192 16383 "10.0.0.2:7001"].

Lemma hash_tag_decides_witness :
  ioredisClusterSlot "{user1000}.following" = ioredisClusterSlot "user1000".
Proof. apply (hash_tag_decides "" "user1000" ".following"); [reflexivity|reflexivity|discriminate]. Defined.

Lemma slot_table_correct_witness :
  build_slots slots_ranges !! 5000%Z = slot_owner slots_ranges 5000.
Proof. apply (slot_table_correct no_split slots_reply "seed"). vm_compute. reflexivity. Defined.

(** A table with the two slots the samples use. *)
Definition small_table : slot_table :=
  list_to_map [(ioredisClusterSlot "a", "10.0.0.1:7000"); (ioredisClusterSlot "{t}x", "10.0.0.2:7001")].

Lemma route_owns_all_keys_witness :
  routed small_table "10.0.0.1:7000" ["{t}x"; "{t}y"] "10.0.0.2:7001".
Proof.
  apply (route_owns_all_keys small_table "10.0.0.1:7000" ["EVAL"; "return 1"; "2"; "{t}x"; "{t}y"; "arg"]).
  vm_compute. reflexivity.
Defined.

(** Every node answers a redirect the first time and OK afterwards. *)
Definition is_exchange (e : xevent) : bool := match e with XExchange _ _ _ => true | _ => false end.

Definition moving_net : net := {|
  x_connect _ _ := None;
  x_exchange _ cmds h :=
    if bool_decide (cmds = [["cluster"; "slots"]])
    then MkExchange [MkReply (VArray [VArray [VInt (ioredisClusterSlot "a"); VInt (ioredisClusterSlot "a");
                       VArray [VString "10.0.0.9"; VInt 7000]]]) None] true FullyWritten 0 0 0 None
    else if existsb is_exchange h then MkExchange (map (fun _ => reply_ok) cmds) true FullyWritten 0 0 0 None
    else MkExchange (map (fun _ => MkReply VNil (Some (EText "MOVED 15495 10.0.0.9:7000"))) cmds) true FullyWritten 0 0 0 None;
  x_context _ := None;
  x_close _ _ := false
|}.

Definition sample_cluster : Cluster := MkCluster {["10.0.0.1:7000"]} small_table "10.0.0.1:7000" false.

Definition pipeline_run := cluster_exchange moving_net no_split sample_cluster [["get"; "{t}x"]; ["get"; "{t}y"]] [].

Lemma pipeline_sent_once_witness :
  (RedisClusterProofs.sent pipeline_run.1 = [] /\ exists e, pipeline_run.2.2 = refused e) \/
  (exists addr y, RedisClusterProofs.sent pipeline_run.1 = [(addr, [["get"; "{t}x"]; ["get"; "{t}y"]])] /\
     Forall (fun c => route (slots sample_cluster) (first sample_cluster) c = Ok addr) [["get"; "{t}x"]; ["get"; "{t}y"]] /\
     match ExError y with
     | Some _ => pipeline_run.2.2 = y
     | None => MayHaveExecuted pipeline_run.2.2 = true /\
               (Replies pipeline_run.2.2 = Replies y /\ length (Replies pipeline_run.2.2) = 2 \/
                ExError pipeline_run.2.2 <> None)
     end).
Proof.
  apply (pipeline_sent_once moving_net no_split sample_cluster [["get"; "{t}x"]; ["get"; "{t}y"]] []
           pipeline_run.1 pipeline_run.2.1 pipeline_run.2.2).
  - vm_compute. lia.
  - fold pipeline_run. destruct pipeline_run as [? []]. reflexivity.
Defined.

Definition moved_run := cluster_exchange moving_net no_split sample_cluster [["get"; "a"]] [].

Lemma redirected_command_runs_at_most_once_witness :
  length (carried ["get"; "a"] moved_run.1) = 2 /\
  (ExError moved_run.2.2 = None -> exists y r, last (carried ["get"; "a"] moved_run.1) = Some y /\
     last (Replies y) = Some r /\ Replies moved_run.2.2 = [r] /\ parseIORedisClusterRedirect (RError r) = None).
Proof.
  split; [vm_compute; reflexivity|].
  apply (redirected_command_runs_at_most_once moving_net no_split sample_cluster ["get"; "a"] []
           moved_run.1 moved_run.2.1 moved_run.2.2).
  - discriminate.
  - intros name. discriminate.
  - fold moved_run. destruct moved_run as [? []]. reflexivity.
Defined.
