(* ===== verification/Crypto.v ===== *)
(** * The parts of Go's standard library that package encryption uses

    encoding/base64's StdEncoding, and AES with Galois/Counter Mode (crypto/aes
    and cipher.NewGCMWithNonceSize) for keys and nonces of every size they
    take.  A []byte is a string here.  Encryption is written against the
    interface [AEAD]; AES-GCM implements it. *)

From S2P Require Import Prelude.
From S2P Require Import GoStrings.

(** ** encoding/base64 *)

Definition b64_char (d : N) : ascii :=
  ascii_of_N (if (d <? 26)%N then d + 65 else if (d <? 52)%N then d + 71
              else if (d <? 62)%N then d - 4 else if (d =? 62)%N then 43 else 47).

Definition b64_digit (c : ascii) : option N :=
  let n := N_of_ascii c in
  if in_range 65 90 c then Some (n - 65)%N
  else if in_range 97 122 c then Some (n - 71)%N
  else if in_range 48 57 c then Some (n + 4)%N
  else if (n =? 43)%N then Some 62%N
  else if (n =? 47)%N then Some 63%N else None.

Definition pad : ascii := "=".

(** base64.StdEncoding.EncodeToString *)
Fixpoint b64_encode (s : string) : string :=
  match s with
  | EmptyString => EmptyString
  | String a EmptyString =>
      let x := N_of_ascii a in
      String (b64_char (x / 4)) (String (b64_char (x mod 4 * 16)) (String pad (String pad EmptyString)))
  | String a (String b EmptyString) =>
      let x := N_of_ascii a in let y := N_of_ascii b in
      String (b64_char (x / 4)) (String (b64_char (x mod 4 * 16 + y / 16))
        (String (b64_char (y mod 16 * 4)) (String pad EmptyString)))
  | String a (String b (String c rest)) =>
      let x := N_of_ascii a in let y := N_of_ascii b in let z := N_of_ascii c in
      String (b64_char (x / 4)) (String (b64_char (x mod 4 * 16 + y / 16))
        (String (b64_char (y mod 16 * 4 + z / 64)) (String (b64_char (z mod 64)) (b64_encode rest))))
  end.

Definition not_newline (c : ascii) : bool := negb (byte_is 10 c || byte_is 13 c).

Fixpoint drop_newlines (s : string) : string :=
  match s with
  | EmptyString => EmptyString
  | String c rest => if not_newline c then String c (drop_newlines rest) else drop_newlines rest
  end.

(** Four characters make three bytes; padding is required and ends the text;
    the bits it leaves over are not looked at. *)
Fixpoint b64_quads (s : string) : option string :=
  match s with
  | EmptyString => Some EmptyString
  | String a (String b (String c (String d rest))) =>
      x ← b64_digit a; y ← b64_digit b;
      let first := ascii_of_N (x * 4 + y / 16) in
      match b64_digit c with
      | None =>
          if Ascii.eqb c pad && Ascii.eqb d pad && String.eqb rest EmptyString
          then Some (String first EmptyString) else None
      | Some z =>
          let second := ascii_of_N (y mod 16 * 16 + z / 4) in
          match b64_digit d with
          | None =>
              if Ascii.eqb d pad && String.eqb rest EmptyString
              then Some (String first (String second EmptyString)) else None
          | Some w =>
              s ← b64_quads rest;
              Some (String first (String second (String (ascii_of_N (z mod 4 * 64 + w)) s)))
          end
      end
  | _ => None
  end.

(** base64.StdEncoding.DecodeString *)
Definition b64_decode (s : string) : option string := b64_quads (drop_newlines s).

Lemma b64_digit_char d : (d < 64)%N -> b64_digit (b64_char d) = Some d.
Proof.
  intros Hd.
  assert (forallb (fun n => bool_decide (b64_digit (b64_char (N.of_nat n)) = Some (N.of_nat n))) (seq 0 64) = true)
    as H by (vm_compute; reflexivity).
  rewrite forallb_forall in H. specialize (H (N.to_nat d)). rewrite N2Nat.id in H.
  apply bool_decide_eq_true in H; [done|]. apply in_seq. lia.
Qed.

Lemma b64_pad : b64_digit pad = None.
Proof. reflexivity. Qed.

(** Characters of the alphabet are no newlines and no dots. *)
Lemma b64_char_plain d : (d < 64)%N -> not_newline (b64_char d) = true /\ Ascii.eqb "." (b64_char d) = false.
Proof.
  intros Hd.
  assert (forallb (fun n => not_newline (b64_char (N.of_nat n)) && negb (Ascii.eqb "." (b64_char (N.of_nat n))))
    (seq 0 64) = true) as H by (vm_compute; reflexivity).
  rewrite forallb_forall in H. specialize (H (N.to_nat d)). rewrite N2Nat.id in H.
  apply andb_true_iff in H as [? H]; [|apply in_seq; lia]. by apply negb_true_iff in H.
Qed.

Lemma byte_bound a : (N_of_ascii a < 256)%N.
Proof. apply N_ascii_bounded. Qed.

Ltac byte_bounds :=
  repeat match goal with
  | a : ascii |- _ =>
      lazymatch goal with
      | _ : (N_of_ascii a < 256)%N |- _ => fail
      | _ => pose proof (byte_bound a)
      end
  end.

Ltac N_lia := zify; Z.to_euclidean_division_equations; lia.

Lemma ascii_from a n : n = N_of_ascii a -> ascii_of_N n = a.
Proof. intros ->. apply ascii_N_embedding. Qed.

Lemma b64_char_kept d : (d < 64)%N -> not_newline (b64_char d) = true.
Proof. apply b64_char_plain. Qed.

Lemma b64_char_no_dot d : (d < 64)%N -> Ascii.eqb "." (b64_char d) = false.
Proof. apply b64_char_plain. Qed.

(** Strings by groups of three bytes. *)
Lemma string_ind3 (P : string -> Prop) :
  P EmptyString -> (forall a, P (String a EmptyString)) -> (forall a b, P (String a (String b EmptyString))) ->
  (forall a b c s, P s -> P (String a (String b (String c s)))) -> forall s, P s.
Proof.
  intros H0 H1 H2 H3. fix IH 1. intros [|a [|b [|c s]]]; [apply H0|apply H1|apply H2|apply H3, IH].
Qed.

Lemma b64_encode_plain s :
  drop_newlines (b64_encode s) = b64_encode s /\
  str_forallb (fun c => negb (Ascii.eqb "." c)) (b64_encode s) = true.
Proof.
  induction s as [|a|a b|a b c s [IH1 IH2]] using string_ind3; [done|..]; cbn [b64_encode];
    byte_bounds; cbn [drop_newlines str_forallb];
    rewrite !b64_char_kept by N_lia; rewrite !b64_char_no_dot by N_lia; cbn.
  - done.
  - done.
  - rewrite IH1. split; [done|]. exact IH2.
Qed.

Lemma b64_quads_encode s : b64_quads (b64_encode s) = Some s.
Proof.
  induction s as [|a|a b|a b c s IH] using string_ind3; [done|..]; cbn [b64_encode];
    byte_bounds; cbn [b64_quads]; rewrite !b64_digit_char by N_lia; cbn [mbind option_bind].
  - rewrite b64_pad. cbn. do 2 f_equal. apply ascii_from; N_lia.
  - rewrite b64_pad. cbn. do 2 f_equal; [|f_equal].
    + apply ascii_from; N_lia.
    + apply ascii_from; N_lia.
  - rewrite IH. cbn. do 2 f_equal; [|f_equal; [|f_equal]].
    + apply ascii_from; N_lia.
    + apply ascii_from; N_lia.
    + apply ascii_from; N_lia.
Qed.

Lemma b64_decode_encode s : b64_decode (b64_encode s) = Some s.
Proof. unfold b64_decode. rewrite (proj1 (b64_encode_plain s)). apply b64_quads_encode. Qed.

(** ** Authenticated encryption, as its clients see it *)

Class AEAD := {
  aead_key_ok : string -> bool;               (** aes.NewCipher succeeds *)
  aead_nonce_ok : Z -> bool;                  (** cipher.NewGCMWithNonceSize succeeds *)
  aead_overhead : nat;
  aead_seal : string -> string -> string -> string;           (** key, nonce, plaintext *)
  aead_open : string -> string -> string -> option string;
  aead_open_seal : forall key nonce plain, aead_open key nonce (aead_seal key nonce plain) = Some plain;
  aead_seal_length : forall key nonce plain,
    String.length (aead_seal key nonce plain) = String.length plain + aead_overhead;
  aead_key_32 : forall key, String.length key = 32 -> aead_key_ok key = true;
  aead_nonce_positive : forall n, (0 < n)%Z -> aead_nonce_ok n = true
}.

(** ** AES *)

Module AES.
Definition xtime (b : N) : N :=
  let s := (2 * b)%N in if (s <? 256)%N then s else N.lxor s 0x11b.

(** Multiplication in GF(2^8), by the bits of the first factor. *)
Fixpoint gmul_bits (n : nat) (a b : N) : N :=
  match n with
  | O => 0%N
  | S n' => N.lxor (if N.odd a then b else 0) (gmul_bits n' (N.div2 a) (xtime b))
  end.
Definition gmul (a b : N) : N := gmul_bits 8 a b.

(** a^254, the inverse. *)
Definition inverse (a : N) : N :=
  let a2 := gmul a a in let a4 := gmul a2 a2 in let a8 := gmul a4 a4 in let a16 := gmul a8 a8 in
  let a32 := gmul a16 a16 in let a64 := gmul a32 a32 in let a128 := gmul a64 a64 in
  gmul a128 (gmul a64 (gmul a32 (gmul a16 (gmul a8 (gmul a4 a2))))).

Definition rotl8 (a : N) (n : N) : N := N.land (N.lor (N.shiftl a n) (N.shiftr a (8 - n))) 255.

Definition sbox_of (a : N) : N :=
  let i := inverse a in
  N.lxor i (N.lxor (rotl8 i 1) (N.lxor (rotl8 i 2) (N.lxor (rotl8 i 3) (N.lxor (rotl8 i 4) 0x63)))).

Definition sbox_table : list N := Eval vm_compute in map sbox_of (map N.of_nat (seq 0 256)).
Definition sbox (a : N) : N := nth (N.to_nat a) sbox_table 0%N.

Definition xor_list (a b : list N) : list N := zip_with N.lxor a b.

Definition shift_rows (s : list N) : list N :=
  map (fun i => nth i s 0%N) [0; 5; 10; 15; 4; 9; 14; 3; 8; 13; 2; 7; 12; 1; 6; 11].

Fixpoint mix_columns (s : list N) : list N :=
  match s with
  | a :: b :: c :: d :: rest =>
      N.lxor (gmul 2 a) (N.lxor (gmul 3 b) (N.lxor c d)) ::
      N.lxor a (N.lxor (gmul 2 b) (N.lxor (gmul 3 c) d)) ::
      N.lxor a (N.lxor b (N.lxor (gmul 2 c) (gmul 3 d))) ::
      N.lxor (gmul 3 a) (N.lxor b (N.lxor c (gmul 2 d))) :: mix_columns rest
  | _ => []
  end.

(** The key schedule: words of four bytes, the last one first. *)
Definition rot_word (w : list N) : list N := match w with a :: rest => rest ++ [a] | [] => [] end.

Fixpoint rcon (n : nat) : N := match n with O => 1%N | S n' => xtime (rcon n') end.

Fixpoint expand (n nk i : nat) (ws : list (list N)) : list (list N) :=
  match n with
  | O => ws
  | S n' =>
      let previous := nth 0 ws [] in
      let w :=
        if Nat.eqb (i mod nk) 0
        then xor_list (map sbox (rot_word previous)) [rcon (i / nk - 1); 0; 0; 0]%N
        else if Nat.ltb 6 nk && Nat.eqb (i mod nk) 4 then map sbox previous
        else previous in
      expand n' nk (S i) (xor_list (nth (nk - 1) ws []) w :: ws)
  end.

Fixpoint words (n : nat) (l : list N) : list (list N) :=
  match n with O => [] | S n' => take 4 l :: words n' (drop 4 l) end.

Definition schedule (key : list N) : list (list N) :=
  let nk := length key / 4 in
  rev (expand (4 * (nk + 7) - nk) nk nk (rev (words nk key))).

Fixpoint round_keys (n : nat) (ws : list (list N)) : list (list N) :=
  match n with O => [] | S n' => concat (take 4 ws) :: round_keys n' (drop 4 ws) end.

Fixpoint rounds (keys : list (list N)) (s : list N) : list N :=
  match keys with
  | [] => s
  | [k] => xor_list (shift_rows (map sbox s)) k
  | k :: rest => rounds rest (xor_list (mix_columns (shift_rows (map sbox s))) k)
  end.

Definition keys_of (key : string) : list (list N) :=
  let bytes := map N_of_ascii (String.list_ascii_of_string key) in
  round_keys (length bytes / 4 + 7) (schedule bytes).

(** One block, as 16 bytes. *)
Definition encrypt_block (keys : list (list N)) (block : list N) : list N :=
  match keys with k :: rest => rounds rest (xor_list block k) | [] => block end.
End AES.

(** ** Galois/Counter Mode *)

Module GCM.
(** 16 bytes and 128-bit numbers, first byte highest. *)
Definition to_number (l : list N) : N := fold_left (fun n b => n * 256 + b)%N l 0%N.

Fixpoint to_bytes (n : nat) (x : N) (acc : list N) : list N :=
  match n with O => acc | S n' => to_bytes n' (x / 256) ((x mod 256)%N :: acc) end.

Fixpoint mul_bits (n : nat) (x z v : N) : N :=
  match n with
  | O => z
  | S n' =>
      mul_bits n' x (if N.testbit x (N.of_nat n') then N.lxor z v else z)
        (if N.odd v then N.lxor (N.div2 v) (N.shiftl 0xe1 120) else N.div2 v)
  end.
Definition mul (x y : N) : N := mul_bits 128 x 0 y.

Definition pad16 (l : list N) : list N := l ++ replicate ((16 - length l mod 16) mod 16) 0%N.

Fixpoint ghash_blocks (n : nat) (h y : N) (l : list N) : N :=
  match n with
  | O => y
  | S n' => ghash_blocks n' h (mul (N.lxor y (to_number (take 16 l))) h) (drop 16 l)
  end.
Definition ghash (h : N) (l : list N) : N := ghash_blocks (length l / 16) h 0 l.

(** The length block has a 64-bit count of bits in its low half. *)
Definition length_block (n : nat) : list N := replicate 8 0%N ++ to_bytes 8 (N.of_nat (8 * n)) [].

Definition initial_counter (h : N) (nonce : list N) : N :=
  if Nat.eqb (length nonce) 12 then to_number (nonce ++ [0; 0; 0; 1]%N)
  else ghash h (pad16 nonce ++ length_block (length nonce)).

Definition increment (c : N) : N :=
  (c / 2 ^ 32 * 2 ^ 32 + (c mod 2 ^ 32 + 1) mod 2 ^ 32)%N.

Fixpoint key_stream (n : nat) (keys : list (list N)) (c : N) : list N :=
  match n with
  | O => []
  | S n' => AES.encrypt_block keys (to_bytes 16 c []) ++ key_stream n' keys (increment c)
  end.

Definition xor_byte (a b : ascii) : ascii :=
  let 'Ascii a0 a1 a2 a3 a4 a5 a6 a7 := a in
  let 'Ascii b0 b1 b2 b3 b4 b5 b6 b7 := b in
  Ascii (xorb a0 b0) (xorb a1 b1) (xorb a2 b2) (xorb a3 b3)
        (xorb a4 b4) (xorb a5 b5) (xorb a6 b6) (xorb a7 b7).

Fixpoint xor_stream (s : string) (stream : list N) : string :=
  match s with
  | EmptyString => EmptyString
  | String a rest => String (xor_byte a (ascii_of_N (hd 0%N stream))) (xor_stream rest (tl stream))
  end.

Definition bytes (s : string) : list N := map N_of_ascii (String.list_ascii_of_string s).

Definition tag_size : nat := 16.

Definition counter_mode (key nonce s : string) : string :=
  let keys := AES.keys_of key in
  let h := to_number (AES.encrypt_block keys (replicate 16 0%N)) in
  xor_stream s (key_stream (String.length s / 16 + 1) keys (increment (initial_counter h (bytes nonce)))).

Fixpoint string_of (n : nat) (l : list N) : string :=
  match n with O => EmptyString | S n' => String (ascii_of_N (hd 0%N l)) (string_of n' (tl l)) end.

Definition tag (key nonce ciphertext : string) : string :=
  let keys := AES.keys_of key in
  let h := to_number (AES.encrypt_block keys (replicate 16 0%N)) in
  let s := ghash h (pad16 (bytes ciphertext) ++ length_block (String.length ciphertext)) in
  let e := to_number (AES.encrypt_block keys (to_bytes 16 (initial_counter h (bytes nonce)) [])) in
  string_of tag_size (to_bytes 16 (N.lxor s e) []).

Definition seal (key nonce plain : string) : string :=
  let c := counter_mode key nonce plain in c +:+ tag key nonce c.

Definition open (key nonce sealed : string) : option string :=
  if Nat.ltb (String.length sealed) tag_size then None
  else
    let c := str_take (String.length sealed - tag_size) sealed in
    let t := str_drop (String.length sealed - tag_size) sealed in
    if String.eqb t (tag key nonce c) then Some (counter_mode key nonce c) else None.

Lemma xor_byte_twice a b : xor_byte (xor_byte a b) b = a.
Proof. destruct a, b. cbn. by rewrite !xorb_assoc, !xorb_nilpotent, !xorb_false_r. Qed.

Lemma xor_stream_length s stream : String.length (xor_stream s stream) = String.length s.
Proof. revert stream. induction s as [|a s IH]; intros stream; cbn; [done|]. by rewrite IH. Qed.

Lemma xor_stream_twice s stream : xor_stream (xor_stream s stream) stream = s.
Proof. revert stream. induction s as [|a s IH]; intros stream; cbn; [done|]. by rewrite xor_byte_twice, IH. Qed.

Lemma counter_mode_length key nonce s : String.length (counter_mode key nonce s) = String.length s.
Proof. apply xor_stream_length. Qed.

Lemma counter_mode_twice key nonce s : counter_mode key nonce (counter_mode key nonce s) = s.
Proof. unfold counter_mode. rewrite xor_stream_length. apply xor_stream_twice. Qed.

Lemma string_of_length n l : String.length (string_of n l) = n.
Proof. revert l. induction n as [|n IH]; intros l; cbn; [done|]. by rewrite IH. Qed.

Lemma tag_length key nonce c : String.length (tag key nonce c) = tag_size.
Proof. apply string_of_length. Qed.

Lemma open_seal key nonce plain : open key nonce (seal key nonce plain) = Some plain.
Proof.
  unfold open, seal. rewrite slength_app, tag_length.
  rewrite (proj2 (Nat.ltb_ge _ _)) by lia. rewrite Nat.add_sub.
  rewrite str_take_app, str_drop_app, String.eqb_refl. by rewrite counter_mode_twice.
Qed.

Lemma seal_length key nonce plain :
  String.length (seal key nonce plain) = String.length plain + tag_size.
Proof. unfold seal. by rewrite slength_app, tag_length, counter_mode_length. Qed.
End GCM.

Definition aes_key_size (key : string) : bool :=
  Nat.eqb (String.length key) 16 || Nat.eqb (String.length key) 24 || Nat.eqb (String.length key) 32.

#[export, refine] Instance aes_gcm : AEAD := {|
  aead_key_ok := aes_key_size;
  aead_nonce_ok n := (0 <? n)%Z;
  aead_overhead := GCM.tag_size;
  aead_seal := GCM.seal;
  aead_open := GCM.open;
  aead_open_seal := GCM.open_seal;
  aead_seal_length := GCM.seal_length
|}.
Proof.
  - intros key Hk. unfold aes_key_size. rewrite Hk. reflexivity.
  - intros n Hn. by apply Z.ltb_lt.
Defined.

(** FIPS 197, appendix C.3. *)
Example aes256_vector :
  AES.encrypt_block (AES.keys_of (String.string_of_list_ascii (map ascii_of_nat (seq 0 32))))
    (map (fun i => N.of_nat (17 * i)) (seq 0 16)) =
  [0x8e; 0xa2; 0xb7; 0xca; 0x51; 0x67; 0x45; 0xbf; 0xea; 0xfc; 0x49; 0x90; 0x4b; 0x49; 0x60; 0x89]%N.
Proof. vm_compute. reflexivity. Qed.

(** A ciphertext of the repository's interoperability test, with its 9-byte
    nonce. *)
Example gcm_vector :
  GCM.seal (String.string_of_list_ascii (map ascii_of_nat (seq 0 32)))
    (String.string_of_list_ascii (map ascii_of_nat (seq 0 9))) "person@example.com" =
  (default EmptyString (b64_decode "3DgQJMHI6nzQ9WgnDE+piMle") +:+
              default EmptyString (b64_decode "zOOeiZiL35jf4IjmimHrHw==")).
Proof. vm_compute. reflexivity. Qed.
