(* ===== verification/EncryptionCache.v ===== *)
(** * package encryption, the LRU cache

    [lruCache] of encryption/encryption.go with its pointers: nodes are cells
    of a heap, [prev] and [next] are addresses or nil.  The reference is a list
    of entries, most recently used first; the theorem is that the linked
    structure implements it.  The mutex serialises the operations and has no
    state of its own; sizes are lengths of strings in memory, far below 2^63. *)

From S2P Require Import Prelude.
From S2P Require Import GoStrings.

(** ** The linked structure *)

Record lruNode := MkNode { key : string; value : string; nsize : Z; prev : option nat; next : option nat }.

Record lruCache := MkCache {
  max_ : Z; maxSize : Z; csize : Z;
  items : gmap string nat; head_ : option nat; tail_ : option nat; nodes : gmap nat lruNode
}.

Definition set_prev (p : option nat) (n : lruNode) : lruNode := MkNode (key n) (value n) (nsize n) p (next n).
Definition set_next (q : option nat) (n : lruNode) : lruNode := MkNode (key n) (value n) (nsize n) (prev n) q.
Definition set_value (v : string) (s : Z) (n : lruNode) : lruNode := MkNode (key n) v s (prev n) (next n).

Definition with_nodes (f : gmap nat lruNode -> gmap nat lruNode) (c : lruCache) : lruCache :=
  MkCache (max_ c) (maxSize c) (csize c) (items c) (head_ c) (tail_ c) (f (nodes c)).
Definition with_head (h : option nat) (c : lruCache) : lruCache :=
  MkCache (max_ c) (maxSize c) (csize c) (items c) h (tail_ c) (nodes c).
Definition with_tail (t : option nat) (c : lruCache) : lruCache :=
  MkCache (max_ c) (maxSize c) (csize c) (items c) (head_ c) t (nodes c).
Definition with_size (s : Z) (c : lruCache) : lruCache :=
  MkCache (max_ c) (maxSize c) s (items c) (head_ c) (tail_ c) (nodes c).
Definition with_items (m : gmap string nat) (c : lruCache) : lruCache :=
  MkCache (max_ c) (maxSize c) (csize c) m (head_ c) (tail_ c) (nodes c).

Definition update (id : nat) (f : lruNode -> lruNode) : lruCache -> lruCache := with_nodes (alter f id).

Definition prev_of (c : lruCache) (id : nat) : option nat := n ← nodes c !! id; prev n.
Definition next_of (c : lruCache) (id : nat) : option nat := n ← nodes c !! id; next n.
Definition size_of (c : lruCache) (id : nat) : Z := match nodes c !! id with Some n => nsize n | None => 0 end.
Definition value_of (c : lruCache) (id : nat) : string :=
  match nodes c !! id with Some n => value n | None => EmptyString end.
Definition key_of (c : lruCache) (id : nat) : string :=
  match nodes c !! id with Some n => key n | None => EmptyString end.

Definition newLRUCache (max maxSize : Z) : lruCache := MkCache max maxSize 0 ∅ None None ∅.

Definition addToHead (id : nat) (c : lruCache) : lruCache :=
  let c := update id (set_prev None) c in
  let c := update id (set_next (head_ c)) c in
  let c := match head_ c with Some h => update h (set_prev (Some id)) c | None => c end in
  let c := with_head (Some id) c in
  match tail_ c with None => with_tail (Some id) c | Some _ => c end.

Definition removeNode (id : nat) (c : lruCache) : lruCache :=
  let c := match prev_of c id with
           | Some p => update p (set_next (next_of c id)) c
           | None => with_head (next_of c id) c
           end in
  match next_of c id with
  | Some q => update q (set_prev (prev_of c id)) c
  | None => with_tail (prev_of c id) c
  end.

Definition moveToHead (id : nat) (c : lruCache) : lruCache :=
  if bool_decide (head_ c = Some id) then c else addToHead id (removeNode id c).

Definition evictTail (c : lruCache) : lruCache :=
  match tail_ c with
  | None => c
  | Some id =>
      let c := removeNode id c in
      let c := with_size (csize c - size_of c id) c in
      with_items (delete (key_of c id) (items c)) c
  end.

Definition over_limit (c : lruCache) : bool :=
  (max_ c <? Z.of_nat (size (items c)))%Z || (maxSize c <? csize c)%Z.

(** The eviction loop; every turn drops a node, so as many turns as there are
    entries are enough. *)
Fixpoint evict (fuel : nat) (c : lruCache) : lruCache :=
  match fuel with
  | O => c
  | S fuel' => if over_limit c && bool_decide (tail_ c <> None) then evict fuel' (evictTail c) else c
  end.

Definition Get (k : string) (c : lruCache) : option string * lruCache :=
  match items c !! k with
  | None => (None, c)
  | Some id => let c := moveToHead id c in (Some (value_of c id), c)
  end.

Definition entry_size (k v : string) : Z := Z.of_nat (String.length k) + Z.of_nat (String.length v).

Definition Set_ (k v : string) (c : lruCache) : lruCache :=
  let entrySize := entry_size k v in
  let c :=
    match items c !! k with
    | Some id =>
        let c := with_size (csize c - size_of c id) c in
        let c := update id (set_value v entrySize) c in
        let c := with_size (csize c + entrySize) c in
        moveToHead id c
    | None =>
        let id := fresh (dom (nodes c) : gset nat) in
        let c := with_nodes (<[id := MkNode k v entrySize None None]>) c in
        let c := with_items (<[k := id]> (items c)) c in
        let c := addToHead id c in
        with_size (csize c + entrySize) c
    end in
  evict (S (size (items c))) c.

(** ** The reference: entries by recency *)

Abbreviation entries := (list (string * string)).

Definition forget (k : string) (l : entries) : entries := filter (fun e => e.1 <> k) l.

Fixpoint find_entry (k : string) (l : entries) : option string :=
  match l with
  | [] => None
  | (k', v) :: rest => if String.eqb k' k then Some v else find_entry k rest
  end.

Definition ref_get (k : string) (l : entries) : option string * entries :=
  match find_entry k l with
  | Some v => (Some v, (k, v) :: forget k l)
  | None => (None, l)
  end.

Fixpoint total (l : entries) : Z :=
  match l with [] => 0 | (k, v) :: rest => entry_size k v + total rest end%Z.

Definition fits (max maxSize : Z) (l : entries) : bool :=
  (Z.of_nat (length l) <=? max)%Z && (total l <=? maxSize)%Z.

(** The longest prefix within the limits; on the reversed list. *)
Fixpoint drop_until_fit (max maxSize : Z) (r : entries) : entries :=
  match r with
  | [] => []
  | e :: rest => if fits max maxSize r then r else drop_until_fit max maxSize rest
  end.

Definition ref_set (max maxSize : Z) (k v : string) (l : entries) : entries :=
  rev (drop_until_fit max maxSize (rev ((k, v) :: forget k l))).

Example lru_demo :
  let c := Set_ "c" "3" (Get "a" (Set_ "b" "2" (Set_ "a" "1" (newLRUCache 2 100)))).2 in
  ((Get "a" c).1, (Get "b" c).1, (Get "c" c).1) = (Some "1", None, Some "3").
Proof. vm_compute. reflexivity. Qed.

(** ** Doubly linked segments *)

Definition links (h : gmap nat lruNode) (id : nat) : option (option nat * option nat) :=
  (fun n => (prev n, next n)) <$> h !! id.

Definition data (h : gmap nat lruNode) (id : nat) : option (string * string * Z) :=
  (fun n => (key n, value n, nsize n)) <$> h !! id.

Definition first_or (n : option nat) (l : list nat) : option nat := match l with [] => n | x :: _ => Some x end.
Definition last_or (p : option nat) (l : list nat) : option nat := match last l with None => p | o => o end.

(** The segment [l] of a list, entered from [p] and left to [n]. *)
Fixpoint dll (h : gmap nat lruNode) (p : option nat) (l : list nat) (n : option nat) : Prop :=
  match l with
  | [] => True
  | x :: rest => links h x = Some (p, first_or n rest) /\ dll h (Some x) rest n
  end.

Lemma last_or_cons p x l : last_or p (x :: l) = last_or (Some x) l.
Proof. unfold last_or. rewrite last_cons. by destruct (last l). Qed.

Lemma last_or_snoc p l x : last_or p (l ++ [x]) = Some x.
Proof. unfold last_or. by rewrite last_snoc. Qed.

Lemma first_or_app n l1 l2 : first_or n (l1 ++ l2) = first_or (first_or n l2) l1.
Proof. by destruct l1. Qed.

Lemma dll_app h p l1 l2 n : dll h p (l1 ++ l2) n <-> dll h p l1 (first_or n l2) /\ dll h (last_or p l1) l2 n.
Proof.
  revert p. induction l1 as [|x l1 IH]; intros p; simpl; [by split; [intros|intros [_ ?]]|].
  rewrite first_or_app, IH, last_or_cons. tauto.
Qed.

Lemma links_alter_ne f x y h : x <> y -> links (alter f x h) y = links h y.
Proof. intros. unfold links. by rewrite lookup_alter_ne. Qed.

Lemma data_alter f x y h : (forall n, (key (f n), value (f n), nsize (f n)) = (key n, value n, nsize n)) ->
  data (alter f x h) y = data h y.
Proof.
  intros Hf. unfold data. destruct (decide (x = y)) as [->|]; [|by rewrite lookup_alter_ne].
  rewrite lookup_alter_eq. destruct (h !! y); simpl; [|done]. by rewrite Hf.
Qed.

Lemma dll_frame f x h p l n : x ∉ l -> dll h p l n -> dll (alter f x h) p l n.
Proof.
  revert p. induction l as [|y l IH]; intros p; simpl; [done|]. intros Hx [Hl Hd].
  apply not_elem_of_cons in Hx as [Hne Hx]. split; [by rewrite links_alter_ne|by apply IH].
Qed.

Lemma dll_enter h p q x l n : x ∉ l -> dll h p (x :: l) n -> dll (alter (set_prev q) x h) q (x :: l) n.
Proof.
  intros Hx [Hl Hd]. split; [|by apply dll_frame]. unfold links in *. rewrite lookup_alter_eq.
  destruct (h !! x); [|done]. simpl in *. congruence.
Qed.

Lemma dll_leave h p l x m n : x ∉ l -> dll h p (l ++ [x]) n -> dll (alter (set_next m) x h) p (l ++ [x]) m.
Proof.
  intros Hx Hd. apply dll_app in Hd as [Hd1 [Hl _]]. apply dll_app. split; [by apply dll_frame|].
  split; [|done]. unfold links in *. rewrite lookup_alter_eq. destruct (h !! x); [|done]. simpl in *. congruence.
Qed.

(** ** The pointer operations on a linked list *)

Record linked (c : lruCache) (ids : list nat) : Prop := {
  l_nodup : NoDup ids;
  l_dll : dll (nodes c) None ids None;
  l_head : head_ c = first_or None ids;
  l_tail : tail_ c = last_or None ids
}.

(** What moving pointers leaves alone. *)
Record same_data (c c' : lruCache) : Prop := {
  s_items : items c' = items c;
  s_size : csize c' = csize c;
  s_limits : max_ c' = max_ c /\ maxSize c' = maxSize c;
  s_data : forall id, data (nodes c') id = data (nodes c) id
}.

Lemma same_data_refl c : same_data c c.
Proof. done. Qed.

Lemma same_data_trans c1 c2 c3 : same_data c1 c2 -> same_data c2 c3 -> same_data c1 c3.
Proof. intros [? ? [? ?] ?] [? ? [? ?] ?]. split; [congruence..| |]; [split; congruence|]. intros. congruence. Qed.

Lemma update_same_data id f c :
  (forall n, (key (f n), value (f n), nsize (f n)) = (key n, value n, nsize n)) -> same_data c (update id f c).
Proof. intros Hf. split; try done. intros id'. by apply data_alter. Qed.

Lemma removeNode_same_data id c : same_data c (removeNode id c).
Proof.
  unfold removeNode.
  set (c1 := match prev_of c id with Some p => update p (set_next (next_of c id)) c | None => with_head (next_of c id) c end).
  apply (same_data_trans _ c1).
  - unfold c1. destruct (prev_of c id); [by apply update_same_data|done].
  - destruct (next_of c1 id); [by apply update_same_data|done].
Qed.

Lemma addToHead_same_data id c : same_data c (addToHead id c).
Proof.
  unfold addToHead. set (c1 := update id (set_prev None) c). set (c2 := update id (set_next (head_ c1)) c1).
  set (c3 := match head_ c2 with Some h => update h (set_prev (Some id)) c2 | None => c2 end).
  apply (same_data_trans _ c1); [by apply update_same_data|].
  apply (same_data_trans _ c2); [by apply update_same_data|].
  apply (same_data_trans _ c3); [unfold c3; destruct (head_ c2); [by apply update_same_data|done]|].
  destruct (tail_ (with_head (Some id) c3)); done.
Qed.

Lemma links_inv c id p n : links (nodes c) id = Some (p, n) -> prev_of c id = p /\ next_of c id = n.
Proof. unfold links, prev_of, next_of. destruct (nodes c !! id); simpl; [|done]. by intros [= <- <-]. Qed.

Lemma prev_of_update c x f y : x <> y -> prev_of (update x f c) y = prev_of c y.
Proof. intros. unfold prev_of, update. simpl. by rewrite lookup_alter_ne. Qed.
Lemma next_of_update c x f y : x <> y -> next_of (update x f c) y = next_of c y.
Proof. intros. unfold next_of, update. simpl. by rewrite lookup_alter_ne. Qed.

(** Unlinking x from either side: the part before it and the part after it. *)
Lemma dll_unlink_before h p l1 x m : x ∉ l1 -> dll h p l1 (Some x) ->
  NoDup l1 ->
  dll (match last_or None l1 with Some y => alter (set_next m) y h | None => h end) p l1 m.
Proof.
  intros Hx Hd Hn. destruct l1 as [|y l1 _] using rev_ind; [done|]. rewrite last_or_snoc.
  apply NoDup_app in Hn as (_ & Hn & _). eapply dll_leave; [|exact Hd].
  intros Hy. by apply (Hn y Hy), list_elem_of_singleton.
Qed.

Lemma dll_unlink_after h q x l2 : NoDup l2 -> dll h (Some x) l2 None ->
  dll (match first_or None l2 with Some y => alter (set_prev q) y h | None => h end) q l2 None.
Proof.
  intros Hn Hd. destruct l2 as [|y l2]; [done|]. simpl. apply NoDup_cons in Hn as [Hy _]. by eapply dll_enter.
Qed.

Lemma removeNode_linked c l1 x l2 : linked c (l1 ++ x :: l2) -> linked (removeNode x c) (l1 ++ l2).
Proof.
  intros [Hn Hd Hh Ht]. apply dll_app in Hd as [Hd1 [Hl Hd2]]. cbn [first_or] in Hd1.
  apply NoDup_app in Hn as (Hn1 & Hdis & Hn2). apply NoDup_cons in Hn2 as [Hx2 Hn2].
  assert (x ∉ l1) as Hx1 by (intros H; by apply (Hdis x H), list_elem_of_here).
  apply links_inv in Hl as [Hp Hq].
  set (c1 := match last_or None l1 with Some p => update p (set_next (first_or None l2)) c
             | None => with_head (first_or None l2) c end).
  assert (forall y, last_or None l1 = Some y -> y ∈ l1) as Hlast.
  { intros y. destruct l1 as [|z l1 _] using rev_ind; [done|]. rewrite last_or_snoc. intros [= ->]. set_solver. }
  assert (prev_of c1 x = last_or None l1 /\ next_of c1 x = first_or None l2) as [Hp1 Hq1].
  { unfold c1. destruct (last_or None l1) as [y|] eqn:E; [|done].
    assert (y <> x) by (intros ->; by apply Hx1, Hlast).
    rewrite prev_of_update, next_of_update by done. by rewrite Hp, Hq. }
  assert (removeNode x c = match first_or None l2 with
    | Some q => update q (set_prev (last_or None l1)) c1 | None => with_tail (last_or None l1) c1 end) as ->.
  { unfold removeNode. rewrite Hp, Hq. fold c1. by rewrite Hp1, Hq1. }
  assert (dll (nodes c1) None l1 (first_or None l2)) as Hd1'.
  { pose proof (dll_unlink_before _ None l1 x (first_or None l2) Hx1 Hd1 Hn1) as H.
    unfold c1. by destruct (last_or None l1). }
  assert (dll (nodes c1) (Some x) l2 None) as Hd2'.
  { unfold c1. destruct (last_or None l1) as [y|]; [|done]. simpl. apply dll_frame; [|done].
    intros Hy. apply (Hdis y); [by apply Hlast|by apply list_elem_of_further]. }
  assert (head_ c1 = first_or None (l1 ++ l2)) as Hh1.
  { unfold c1. destruct l1 as [|z l1]; [done|]. rewrite last_or_cons.
    destruct (last_or (Some z) l1) as [y|] eqn:E; [exact Hh|].
    exfalso. destruct l1 as [|? l1 _] using rev_ind; [done|]. by rewrite last_or_snoc in E. }
  assert (tail_ c1 = tail_ c) as Ht1 by (unfold c1; by destruct (last_or None l1)).
  pose proof (dll_unlink_after _ (last_or None l1) x l2 Hn2 Hd2') as H2.
  assert (NoDup (l1 ++ l2)) as Hnd.
  { apply NoDup_app. split_and!; [done| |done]. intros y Hy Hy2. apply (Hdis y Hy). by apply list_elem_of_further. }
  destruct l2 as [|z l2]; cbn [first_or] in *.
  - split; [done| |by simpl|].
    + rewrite app_nil_r. exact Hd1'.
    + by rewrite app_nil_r.
  - split; [done| |by simpl|].
    + apply dll_app. split; [|exact H2]. simpl. apply dll_frame; [|done].
      intros Hz. apply (Hdis z Hz). set_solver.
    + simpl. rewrite Ht1, Ht. unfold last_or. rewrite !last_app, !last_cons. by destruct (last l2).
Qed.

Lemma addToHead_linked c x l : x ∉ l -> is_Some (nodes c !! x) -> linked c l -> linked (addToHead x c) (x :: l).
Proof.
  intros Hx [n Hnode] [Hn Hd Hh Ht].
  set (h2 := alter (set_next (head_ c)) x (alter (set_prev None) x (nodes c))).
  assert (links h2 x = Some (None, head_ c)) as Hl2.
  { unfold links, h2. rewrite lookup_alter_eq, lookup_alter_eq, Hnode. done. }
  assert (dll h2 None l None) as Hd2 by (unfold h2; by do 2 (apply dll_frame; [done|])).
  assert (nodes (addToHead x c) = match head_ c with Some h => alter (set_prev (Some x)) h h2 | None => h2 end /\
    head_ (addToHead x c) = Some x /\
    tail_ (addToHead x c) = match tail_ c with None => Some x | o => o end) as (En & Eh & Et).
  { unfold addToHead, with_tail, with_head, update, with_nodes. simpl. by destruct (head_ c), (tail_ c); simpl. }
  split; rewrite ?Eh, ?Et; [by constructor| |done|].
  - rewrite En, Hh in *. destruct l as [|y l]; cbn [first_or] in *; [by split|].
    apply not_elem_of_cons in Hx as [Hne Hx]. apply NoDup_cons in Hn as [Hy Hn].
    split; [by rewrite links_alter_ne|]. by eapply dll_enter.
  - rewrite Ht, last_or_cons. unfold last_or. by destruct (last l).
Qed.

Lemma moveToHead_linked c l1 x l2 :
  linked c (l1 ++ x :: l2) -> linked (moveToHead x c) (x :: l1 ++ l2) /\ same_data c (moveToHead x c).
Proof.
  intros Hl. unfold moveToHead. case_bool_decide as Hh.
  - split; [|done]. destruct l1 as [|y l1]; [done|]. pose proof (l_head _ _ Hl) as E. rewrite E in Hh.
    simpl in Hh. injection Hh as ->. pose proof (l_nodup _ _ Hl) as Hn. apply NoDup_cons in Hn as [Hn _]. set_solver.
  - split.
    + apply addToHead_linked; [| |by apply removeNode_linked].
      * pose proof (l_nodup _ _ Hl) as (Hn1 & Hdis & Hn2)%NoDup_app. apply NoDup_cons in Hn2 as [Hx _].
        intros [H|H]%elem_of_app; [|done]. apply (Hdis x H). set_solver.
      * pose proof (s_data _ _ (removeNode_same_data x c) x) as Hs. unfold data in Hs.
        pose proof (l_dll _ _ Hl) as [_ [Hx _]]%dll_app. unfold links in Hx.
        destruct (nodes c !! x); [|done]. simpl in *. destruct (nodes (removeNode x c) !! x); [by eexists|done].
    + eapply same_data_trans; [apply removeNode_same_data|apply addToHead_same_data].
Qed.

(** ** The cache holds a list of entries *)

Abbreviation cell := (nat * string * string)%type.
Definition eid (e : cell) : nat := e.1.1.
Definition ekey (e : cell) : string := e.1.2.
Definition entry (e : cell) : string * string := (e.1.2, e.2).
Definition address_of (e : cell) : string * nat := (ekey e, eid e).

Definition holds (h : gmap nat lruNode) (e : cell) : Prop :=
  data h (eid e) = Some (ekey e, e.2, entry_size (ekey e) e.2).

Record repr (c : lruCache) (es : list cell) : Prop := {
  r_linked : linked c (map eid es);
  r_data : Forall (holds (nodes c)) es;
  r_keys : NoDup (map ekey es);
  r_items : items c = list_to_map (map address_of es);
  r_size : csize c = total (map entry es)
}.

Definition implements (c : lruCache) (l : entries) : Prop := exists es, repr c es /\ map entry es = l.

Lemma total_app l1 l2 : total (l1 ++ l2) = (total l1 + total l2)%Z.
Proof. induction l1 as [|[k v] l1 IH]; simpl; [done|]. rewrite IH. lia. Qed.

Lemma total_perm l1 l2 : l1 ≡ₚ l2 -> total l1 = total l2.
Proof.
  induction 1 as [|[k v] ? ? _ IH|[k1 v1] [k2 v2] ?|? ? ? _ IH1 _ IH2]; simpl; [done|by rewrite IH|lia|congruence].
Qed.

Lemma map_fst_address es : (map address_of es).*1 = map ekey es.
Proof. induction es as [|e es IH]; simpl; [done|]. by f_equal. Qed.

Lemma map_fst_entry es : map fst (map entry es) = map ekey es.
Proof. induction es as [|e es IH]; simpl; [done|]. by f_equal. Qed.

Lemma items_split c es k id :
  repr c es -> items c !! k = Some id ->
  exists es1 v es2, es = es1 ++ (id, k, v) :: es2 /\ k ∉ map ekey es1 /\ k ∉ map ekey es2.
Proof.
  intros [_ _ Hk Hi _] Hl. rewrite Hi in Hl. apply elem_of_list_to_map_2 in Hl.
  apply list_elem_of_fmap in Hl as ([[id' k'] v] & E & Hin). injection E as -> ->. cbn in *.
  apply list_elem_of_split in Hin as (es1 & es2 & ->). exists es1, v, es2.
  rewrite map_app in Hk. apply NoDup_app in Hk as (_ & Hd & Hk). apply NoDup_cons in Hk as [Hk _].
  split_and!; [done| |done]. intros Hin. apply (Hd _ Hin). apply list_elem_of_here.
Qed.

Lemma items_none c es k : repr c es -> items c !! k = None -> k ∉ map ekey es.
Proof.
  intros [_ _ _ Hi _] Hl. rewrite Hi in Hl. apply not_elem_of_list_to_map_2 in Hl. by rewrite map_fst_address in Hl.
Qed.

Lemma forget_absent k l : k ∉ map fst l -> forget k l = l.
Proof.
  induction l as [|[k' v] l IH]; [done|]. cbn [map fst]. intros [Hne Hin]%not_elem_of_cons. unfold forget.
  rewrite filter_cons, decide_True by (cbn; congruence). f_equal. by apply IH.
Qed.

Lemma forget_middle k v l1 l2 :
  k ∉ map fst l1 -> k ∉ map fst l2 -> forget k (l1 ++ (k, v) :: l2) = l1 ++ l2.
Proof.
  intros H1 H2. unfold forget. rewrite filter_app, filter_cons, decide_False by (cbn; tauto).
  fold (forget k l1). fold (forget k l2). by rewrite !forget_absent.
Qed.

Lemma find_absent k l : k ∉ map fst l -> find_entry k l = None.
Proof.
  induction l as [|[k' v] l IH]; [done|]. cbn. intros [Hne Hin]%not_elem_of_cons.
  rewrite (proj2 (String.eqb_neq _ _)) by congruence. by apply IH.
Qed.

Lemma find_middle k v l1 l2 : k ∉ map fst l1 -> find_entry k (l1 ++ (k, v) :: l2) = Some v.
Proof.
  induction l1 as [|[k' v'] l1 IH]; cbn; [by rewrite String.eqb_refl|]. intros [Hne Hin]%not_elem_of_cons.
  rewrite (proj2 (String.eqb_neq _ _)) by congruence. by apply IH.
Qed.

Lemma repr_same_data c c' es es' :
  repr c es -> same_data c c' -> es' ≡ₚ es -> linked c' (map eid es') -> repr c' es'.
Proof.
  intros [_ Hd Hk Hi Hs] [Si Ss _ Sd] Hp Hl. split.
  - done.
  - rewrite Hp. eapply Forall_impl; [exact Hd|]. intros e. unfold holds. by rewrite Sd.
  - by rewrite Hp.
  - rewrite Si, Hi. symmetry. apply list_to_map_proper; [|by rewrite Hp]. by rewrite map_fst_address, Hp.
  - rewrite Ss, Hs. apply total_perm. by rewrite Hp.
Qed.

Lemma moveToHead_repr c es1 e es2 :
  repr c (es1 ++ e :: es2) -> repr (moveToHead (eid e) c) (e :: es1 ++ es2).
Proof.
  intros Hr. pose proof (r_linked _ _ Hr) as Hl. rewrite map_app in Hl. cbn [map] in Hl.
  destruct (moveToHead_linked _ _ _ _ Hl) as [Hl' Hs]. eapply repr_same_data; [exact Hr|exact Hs| |].
  - apply Permutation_middle.
  - cbn [map]. by rewrite map_app.
Qed.

Lemma holds_value c es e : repr c es -> e ∈ es -> value_of c (eid e) = e.2 /\ size_of c (eid e) = entry_size (ekey e) e.2 /\ key_of c (eid e) = ekey e.
Proof.
  intros Hr Hin. pose proof (r_data _ _ Hr) as Hd. rewrite Forall_forall in Hd. specialize (Hd _ Hin).
  unfold holds, data, value_of, size_of, key_of in *. destruct (nodes c !! eid e); [|done]. simpl in Hd.
  by injection Hd as -> -> ->.
Qed.

(** Get implements the reference. *)
Lemma Get_implements k c l :
  implements c l -> (Get k c).1 = (ref_get k l).1 /\ implements (Get k c).2 (ref_get k l).2.
Proof.
  intros (es & Hr & <-). unfold Get, ref_get. destruct (items c !! k) as [id|] eqn:E.
  - destruct (items_split _ _ _ _ Hr E) as (es1 & v & es2 & -> & H1 & H2).
    replace (map entry (es1 ++ (id, k, v) :: es2)) with (map entry es1 ++ (k, v) :: map entry es2)
      by (by rewrite map_app).
    rewrite find_middle by (by rewrite map_fst_entry). rewrite forget_middle by (by rewrite map_fst_entry).
    pose proof (moveToHead_repr _ _ _ _ Hr) as Hr'. cbn [eid fst] in Hr'.
    destruct (holds_value _ _ (id, k, v) Hr' ltac:(apply list_elem_of_here)) as [Hv _]. cbn in Hv |- *.
    split; [by f_equal|]. exists ((id, k, v) :: es1 ++ es2). split; [done|]. cbn. by rewrite map_app.
  - pose proof (items_none _ _ _ Hr E) as Hn. rewrite find_absent by (by rewrite map_fst_entry). cbn.
    split; [done|]. by exists es.
Qed.

(** *** Eviction *)

Lemma linked_same c c' ids :
  nodes c' = nodes c -> head_ c' = head_ c -> tail_ c' = tail_ c -> linked c ids -> linked c' ids.
Proof. intros En Eh Et [? ? ? ?]. split; rewrite ?En, ?Eh, ?Et; done. Qed.

Lemma evictTail_repr c es e : repr c (es ++ [e]) -> repr (evictTail c) es.
Proof.
  intros Hr. pose proof (r_linked _ _ Hr) as Hl. rewrite map_app in Hl. cbn [map] in Hl.
  unfold evictTail. rewrite (l_tail _ _ Hl), last_or_snoc.
  pose proof (removeNode_linked c (map eid es) (eid e) [] Hl) as Hl'. rewrite app_nil_r in Hl'.
  pose proof (removeNode_same_data (eid e) c) as Hs. destruct Hr as [_ Hd Hk Hi Hsz].
  assert (data (nodes (removeNode (eid e) c)) (eid e) = Some (ekey e, e.2, entry_size (ekey e) e.2)) as He.
  { rewrite (s_data _ _ Hs). apply Forall_app in Hd as [_ Hd]. by apply Forall_cons in Hd as [? _]. }
  assert (size_of (removeNode (eid e) c) (eid e) = entry_size (ekey e) e.2 /\
          key_of (removeNode (eid e) c) (eid e) = ekey e) as [Es Ek].
  { unfold size_of, key_of, data in *. destruct (nodes (removeNode (eid e) c) !! eid e); [|done].
    simpl in He. injection He as Ek Ev Es. done. }
  rewrite map_app in Hk. apply NoDup_app in Hk as (Hk & Hdis & _). cbn in Hdis.
  split.
  - by apply (linked_same (removeNode (eid e) c)).
  - apply Forall_app in Hd as [Hd _]. eapply Forall_impl; [exact Hd|]. intros e'. unfold holds. cbn.
    by rewrite (s_data _ _ Hs).
  - done.
  - cbn. unfold key_of in *. cbn. rewrite Ek, (s_items _ _ Hs), Hi, map_app, list_to_map_app. cbn.
    rewrite delete_union. rewrite delete_insert_eq, delete_empty, (right_id ∅ _).
    apply delete_id. apply not_elem_of_list_to_map_1. rewrite map_fst_address.
    intros Hin. apply (Hdis _ Hin). apply list_elem_of_here.
  - cbn. rewrite Es, (s_size _ _ Hs), Hsz, map_app, total_app. destruct e as [[id k] v]. cbn. lia.
Qed.

Lemma over_limit_fits c es : repr c es -> over_limit c = negb (fits (max_ c) (maxSize c) (map entry es)).
Proof.
  intros [_ _ Hk Hi Hs]. unfold over_limit, fits. rewrite Hs, Hi.
  assert (size (list_to_map (map address_of es) : gmap string nat) = length (map entry es)) as ->.
  { rewrite <- (map_fst_address es) in Hk. rewrite length_map, <- (length_map address_of es).
    rewrite <- length_map_to_list. apply Permutation_length, map_to_list_to_map, Hk. }
  rewrite negb_andb, <- !Z.ltb_antisym. done.
Qed.

Lemma evictTail_limits c : max_ (evictTail c) = max_ c /\ maxSize (evictTail c) = maxSize c.
Proof.
  unfold evictTail. destruct (tail_ c) as [id|]; [|done]. cbn.
  destruct (s_limits _ _ (removeNode_same_data id c)). done.
Qed.

(** Enough turns of the loop drop exactly what does not fit. *)
Lemma evict_repr fuel c es :
  repr c es -> length es <= fuel ->
  implements (evict fuel c) (rev (drop_until_fit (max_ c) (maxSize c) (rev (map entry es)))).
Proof.
  revert c es. induction fuel as [|fuel IH]; intros c es Hr Hf.
  { destruct es; [|simpl in Hf; lia]. by exists []. }
  cbn [evict]. rewrite (over_limit_fits _ _ Hr).
  destruct es as [|e es _] using rev_ind.
  { pose proof (l_tail _ _ (r_linked _ _ Hr)) as Ht. rewrite (bool_decide_eq_false_2 (tail_ c <> None)) by (intros Hne; by apply Hne).
    rewrite andb_false_r. by exists []. }
  assert (tail_ c <> None) as Htail.
  { pose proof (l_tail _ _ (r_linked _ _ Hr)) as Ht. rewrite map_app in Ht. cbn in Ht. by rewrite Ht, last_or_snoc. }
  rewrite (bool_decide_eq_true_2 _ Htail), andb_true_r.
  rewrite map_app, rev_app_distr. cbn [map rev app drop_until_fit].
  assert (fits (max_ c) (maxSize c) (entry e :: rev (map entry es)) = fits (max_ c) (maxSize c) (map entry (es ++ [e]))) as ->.
  { assert (entry e :: rev (map entry es) ≡ₚ map entry (es ++ [e])) as Hp.
    { rewrite map_app. cbn. rewrite <- Permutation_cons_append. by rewrite <- Permutation_rev. }
    unfold fits. by rewrite (Permutation_length Hp), (total_perm _ _ Hp). }
  rewrite map_app. cbn [map]. destruct (fits _ _ _); cbn [negb].
  - exists (es ++ [e]). split; [done|]. rewrite map_app. cbn. by rewrite rev_involutive.
  - destruct (evictTail_limits c) as [<- <-]. apply IH; [by eapply evictTail_repr|].
    rewrite length_app in Hf. simpl in Hf. lia.
Qed.

(** *** Set *)

Lemma links_set_value v s x y h : links (alter (set_value v s) x h) y = links h y.
Proof.
  unfold links. destruct (decide (x = y)) as [->|]; [|by rewrite lookup_alter_ne].
  rewrite lookup_alter_eq. by destruct (h !! y).
Qed.

Lemma dll_links h h' p l n : (forall x, x ∈ l -> links h' x = links h x) -> dll h p l n -> dll h' p l n.
Proof.
  revert p. induction l as [|x l IH]; intros p; simpl; [done|]. intros He [Hl Hd]. split.
  - rewrite He; [done|apply list_elem_of_here].
  - apply IH; [|done]. intros y Hy. apply He. by apply list_elem_of_further.
Qed.

(** The entry is rewritten in place, before it moves. *)
Definition rewrite_entry (id : nat) (v : string) (s : Z) (c : lruCache) : lruCache :=
  let c := with_size (csize c - size_of c id) c in
  let c := update id (set_value v s) c in
  with_size (csize c + s) c.

Lemma rewrite_entry_repr c es1 id k v0 v es2 :
  repr c (es1 ++ (id, k, v0) :: es2) -> repr (rewrite_entry id v (entry_size k v) c) (es1 ++ (id, k, v) :: es2).
Proof.
  intros Hr. destruct (holds_value _ _ (id, k, v0) Hr ltac:(set_solver)) as (_ & Hs & _).
  pose proof (l_nodup _ _ (r_linked _ _ Hr)) as Hnd. destruct Hr as [[Hn Hd Hh Ht] Hda Hk Hi Hsz].
  rewrite !map_app in *. cbn [map eid ekey address_of fst snd] in *.
  assert (id ∉ map eid es1 /\ id ∉ map eid es2) as [Hid1 Hid2].
  { apply NoDup_app in Hnd as (_ & Hdis & Hnd). apply NoDup_cons in Hnd as [? _]. split; [|done].
    intros Hin. apply (Hdis _ Hin). apply list_elem_of_here. }
  assert (forall es, id ∉ map eid es -> Forall (holds (nodes c)) es ->
    Forall (holds (alter (set_value v (entry_size k v)) id (nodes c))) es) as Hframe.
  { intros es Hin Hf. induction Hf as [|e es He Hf IH]; [constructor|]. cbn in Hin.
    apply not_elem_of_cons in Hin as [Hne Hin]. constructor; [|by apply IH]. unfold holds, data in *.
    by rewrite lookup_alter_ne. }
  apply Forall_app in Hda as [Hd1 Hd2]. apply Forall_cons in Hd2 as [He Hd2].
  split; rewrite ?map_app; cbn [map eid ekey address_of fst snd rewrite_entry].
  - split; cbn; try done. eapply dll_links; [|exact Hd]. intros x _. apply links_set_value.
  - apply Forall_app. split; [by apply Hframe|]. constructor; [|by apply Hframe].
    unfold holds, data in *. cbn in *. rewrite lookup_alter_eq. destruct (nodes c !! id); [|done].
    simpl in *. by injection He as -> _ _.
  - done.
  - done.
  - cbn. cbn in Hs. rewrite Hs, Hsz, !total_app. cbn. lia.
Qed.

(** A new node is not in the list. *)
Lemma fresh_absent c es : repr c es -> fresh (dom (nodes c) : gset nat) ∉ map eid es.
Proof.
  intros Hr Hin. apply list_elem_of_fmap in Hin as (e & E & He).
  pose proof (r_data _ _ Hr) as Hd. rewrite Forall_forall in Hd. specialize (Hd _ He).
  pose proof (is_fresh (dom (nodes c) : gset nat)) as Hf. apply Hf. apply elem_of_dom.
  unfold holds, data in Hd. rewrite E. destruct (nodes c !! eid e); [by eexists|done].
Qed.

Definition insert_entry (id : nat) (k v : string) (c : lruCache) : lruCache :=
  with_items (<[k := id]> (items c)) (with_nodes (<[id := MkNode k v (entry_size k v) None None]>) c).

Lemma insert_entry_repr c es k v :
  repr c es -> k ∉ map ekey es ->
  let id := fresh (dom (nodes c) : gset nat) in
  let c' := addToHead id (insert_entry id k v c) in
  repr (with_size (csize c' + entry_size k v) c') ((id, k, v) :: es).
Proof.
  intros Hr Hk id c'. pose proof (fresh_absent _ _ Hr) as Hid. fold id in Hid.
  set (c1 := insert_entry id k v c) in *. destruct Hr as [Hl Hda Hks Hi Hsz].
  assert (forall x, x ∈ map eid es -> nodes c1 !! x = nodes c !! x) as Hsame.
  { intros x Hx. cbn. rewrite lookup_insert_ne; [done|]. intros ->. done. }
  assert (linked c1 (map eid es)) as Hl1.
  { destruct Hl as [Hn Hd Hh Ht]. split; try done. eapply dll_links; [|exact Hd].
    intros x Hx. unfold links. by rewrite Hsame. }
  pose proof (addToHead_same_data id c1) as Hs. fold c' in Hs.
  assert (linked c' (id :: map eid es)) as Hl'.
  { apply addToHead_linked; [done| |done]. cbn. rewrite lookup_insert_eq. by eexists. }
  split.
  - by apply (linked_same c').
  - constructor.
    + unfold holds. cbn [with_size nodes]. rewrite (s_data _ _ Hs). unfold data. cbn. by rewrite lookup_insert_eq.
    + rewrite Forall_forall in *. intros e He. specialize (Hda _ He). unfold holds in *. cbn [with_size nodes].
      rewrite (s_data _ _ Hs). unfold data in *. rewrite Hsame; [done|]. by apply list_elem_of_fmap_2.
  - by constructor.
  - cbn [with_size items]. rewrite (s_items _ _ Hs). cbn. by rewrite Hi.
  - cbn [with_size csize]. rewrite (s_size _ _ Hs). cbn. rewrite Hsz. lia.
Qed.

Lemma moveToHead_limits id c : max_ (moveToHead id c) = max_ c /\ maxSize (moveToHead id c) = maxSize c.
Proof.
  unfold moveToHead. case_bool_decide; [done|].
  destruct (s_limits _ _ (addToHead_same_data id (removeNode id c))) as [-> ->].
  apply (s_limits _ _ (removeNode_same_data id c)).
Qed.

Lemma size_items c es : repr c es -> size (items c) = length es.
Proof.
  intros Hr. pose proof (r_keys _ _ Hr) as Hk. rewrite (r_items _ _ Hr).
  rewrite <- (map_fst_address es) in Hk. rewrite <- (length_map address_of es), <- length_map_to_list.
  apply Permutation_length, map_to_list_to_map, Hk.
Qed.

(** Set implements the reference. *)
Lemma Set_implements k v c l :
  implements c l -> implements (Set_ k v c) (ref_set (max_ c) (maxSize c) k v l).
Proof.
  intros (es & Hr & <-). unfold Set_, ref_set. cbv zeta. destruct (items c !! k) as [id|] eqn:E.
  - destruct (items_split _ _ _ _ Hr E) as (es1 & v0 & es2 & -> & H1 & H2).
    replace (map entry (es1 ++ (id, k, v0) :: es2)) with (map entry es1 ++ (k, v0) :: map entry es2)
      by (by rewrite map_app).
    rewrite forget_middle by (by rewrite map_fst_entry). fold (rewrite_entry id v (entry_size k v) c).
    pose proof (moveToHead_repr _ _ _ _ (rewrite_entry_repr _ _ _ _ _ v _ Hr)) as Hr'. cbn [eid fst] in Hr'.
    set (c' := moveToHead id (rewrite_entry id v (entry_size k v) c)) in *.
    assert (max_ c' = max_ c /\ maxSize c' = maxSize c) as [<- <-]
      by exact (moveToHead_limits id (rewrite_entry id v (entry_size k v) c)).
    replace ((k, v) :: map entry es1 ++ map entry es2) with (map entry ((id, k, v) :: es1 ++ es2))
      by (cbn; by rewrite map_app).
    apply evict_repr; [done|]. rewrite (size_items _ _ Hr'). lia.
  - pose proof (items_none _ _ _ Hr E) as Hk. rewrite forget_absent by (by rewrite map_fst_entry).
    pose proof (insert_entry_repr c es k v Hr Hk) as Hr'. cbv zeta in Hr'.
    set (id := fresh (dom (nodes c) : gset nat)) in *.
    fold (insert_entry id k v c). set (c1 := addToHead id (insert_entry id k v c)) in *.
    set (c' := with_size (csize c1 + entry_size k v) c1) in *.
    assert (max_ c' = max_ c /\ maxSize c' = maxSize c) as [<- <-]
      by (unfold c', c1; cbn; apply (s_limits _ _ (addToHead_same_data id (insert_entry id k v c)))).
    replace ((k, v) :: map entry es) with (map entry ((id, k, v) :: es)) by done.
    apply evict_repr; [done|]. change (length ((id, k, v) :: es) <= S (size (items c'))).
    rewrite (size_items _ _ Hr'). lia.
Qed.

Lemma evict_limits fuel c : max_ (evict fuel c) = max_ c /\ maxSize (evict fuel c) = maxSize c.
Proof.
  revert c. induction fuel as [|fuel IH]; intros c; cbn; [done|]. destruct (_ && _); [|done].
  destruct (IH (evictTail c)) as [-> ->]. apply evictTail_limits.
Qed.

Lemma Set_limits k v c : max_ (Set_ k v c) = max_ c /\ maxSize (Set_ k v c) = maxSize c.
Proof.
  unfold Set_. cbv zeta. destruct (items c !! k) as [id|]; rewrite !(proj1 (evict_limits _ _)), !(proj2 (evict_limits _ _)).
  - destruct (moveToHead_limits id (rewrite_entry id v (entry_size k v) c)). done.
  - cbn. by destruct (s_limits _ _ (addToHead_same_data (fresh (dom (nodes c)))
      (insert_entry (fresh (dom (nodes c))) k v c))).
Qed.

Lemma new_implements m s : implements (newLRUCache m s) [].
Proof. exists []. split; [|done]. split; try done; try constructor. - constructor. - done. - done. - done. Qed.

(** ** Theorems *)

Inductive cache_op := OGet (k : string) | OSet (k v : string).

(** What a sequence of operations answers, on the pointers and on the list. *)
Fixpoint run_cache (ops : list cache_op) (c : lruCache) : list (option string) * lruCache :=
  match ops with
  | [] => ([], c)
  | OGet k :: rest => let (r, c) := Get k c in let (rs, c) := run_cache rest c in (r :: rs, c)
  | OSet k v :: rest => let (rs, c) := run_cache rest (Set_ k v c) in (None :: rs, c)
  end.

Fixpoint run_reference (m s : Z) (ops : list cache_op) (l : entries) : list (option string) * entries :=
  match ops with
  | [] => ([], l)
  | OGet k :: rest => let (r, l) := ref_get k l in let (rs, l) := run_reference m s rest l in (r :: rs, l)
  | OSet k v :: rest => let (rs, l) := run_reference m s rest (ref_set m s k v l) in (None :: rs, l)
  end.

Lemma Get_limits k c : max_ (Get k c).2 = max_ c /\ maxSize (Get k c).2 = maxSize c.
Proof. unfold Get. destruct (items c !! k); [apply moveToHead_limits|done]. Qed.

Lemma run_cache_refines ops c l :
  implements c l ->
  (run_cache ops c).1 = (run_reference (max_ c) (maxSize c) ops l).1 /\
  implements (run_cache ops c).2 (run_reference (max_ c) (maxSize c) ops l).2.
Proof.
  revert c l. induction ops as [|[k|k v] ops IH]; intros c l Hi; cbn [run_cache run_reference]; [done| |].
  - destruct (Get_implements k c l Hi) as [Ho Hi']. pose proof (Get_limits k c) as [<- <-].
    destruct (Get k c) as [r c'], (ref_get k l) as [r' l']. cbn in *. destruct (IH c' l' Hi') as [IH1 IH2].
    destruct (run_cache ops c'), (run_reference _ _ ops l'). cbn in *. split; [congruence|done].
  - pose proof (Set_implements k v c l Hi) as Hi'. pose proof (Set_limits k v c) as [Em Es].
    destruct (IH _ _ Hi') as [IH1 IH2]. rewrite Em, Es in *.
    destruct (run_cache ops _), (run_reference _ _ ops _). cbn in *. split; [congruence|done].
Qed.

(** C32: The pointer structure is the LRU list: whatever sequence of Get and Set
    is run on a new cache, with any limits, every answer is the answer of the
    reference list ordered by recency, and the cache ends up holding that
    list, its links, its index and its byte count consistent. *)
Theorem lru_refines_reference m s ops :
  (run_cache ops (newLRUCache m s)).1 = (run_reference m s ops []).1 /\
  implements (run_cache ops (newLRUCache m s)).2 (run_reference m s ops []).2.
Proof. apply (run_cache_refines ops (newLRUCache m s)), new_implements. Qed.

Lemma drop_until_fit_spec m s r :
  exists dropped, r = dropped ++ drop_until_fit m s r /\
    (drop_until_fit m s r = [] \/ fits m s (drop_until_fit m s r) = true) /\
    (forall d1 d2, dropped = d1 ++ d2 -> d2 <> [] -> fits m s (d2 ++ drop_until_fit m s r) = false).
Proof.
  induction r as [|e r (dropped & E & Hf & Hmax)]; cbn [drop_until_fit].
  { exists []. split_and!; [done|by left|]. intros d1 d2 Hd Hne. by destruct d1, d2. }
  destruct (fits m s (e :: r)) eqn:Ef.
  { exists []. split_and!; [done|by right|]. intros d1 d2 Hd Hne. by destruct d1, d2. }
  exists (e :: dropped). split_and!; [cbn; by f_equal|done|].
  intros [|d d1] d2 Hd Hne; cbn in Hd.
  - subst d2. cbn. by rewrite <- E.
  - injection Hd as -> ->. by eapply Hmax.
Qed.

Lemma fits_perm m s l1 l2 : l1 ≡ₚ l2 -> fits m s l1 = fits m s l2.
Proof. intros Hp. unfold fits. by rewrite (Permutation_length Hp), (total_perm _ _ Hp). Qed.

(** Set puts its entry first and evicts only what must go: the cache then
    holds the longest run of its most recently used entries that is within
    both limits, in order, and nothing else; it is within the limits unless
    not even one entry is. *)
Theorem set_keeps_most_recent k v c l :
  implements c l ->
  exists kept evicted, (k, v) :: forget k l = kept ++ evicted /\ implements (Set_ k v c) kept /\
    (kept = [] \/ fits (max_ c) (maxSize c) kept = true) /\
    (forall e1 e2, evicted = e1 ++ e2 -> e1 <> [] -> fits (max_ c) (maxSize c) (kept ++ e1) = false).
Proof.
  intros Hi. set (all := (k, v) :: forget k l).
  destruct (drop_until_fit_spec (max_ c) (maxSize c) (rev all)) as (dropped & E & Hf & Hmax).
  set (r := drop_until_fit (max_ c) (maxSize c) (rev all)) in *.
  exists (rev r), (rev dropped). split_and!.
  - by rewrite <- rev_app_distr, <- E, rev_involutive.
  - by apply Set_implements.
  - destruct Hf as [->|Hf]; [by left|]. right. rewrite <- Hf. apply fits_perm. symmetry. apply Permutation_rev.
  - intros e1 e2 He Hne. rewrite <- (Hmax (rev e2) (rev e1)).
    + apply fits_perm. rewrite Permutation_app_comm. apply Permutation_app; [apply Permutation_rev|].
      symmetry. apply Permutation_rev.
    + by rewrite <- rev_app_distr, <- He, rev_involutive.
    + intros Hr. apply Hne. by rewrite <- (rev_involutive e1), Hr.
Qed.

Definition demo_cache : lruCache := Set_ "b" "2" (Set_ "a" "1" (newLRUCache 2 100)).

Lemma set_keeps_most_recent_witness :
  implements demo_cache [("b", "2"); ("a", "1")] /\
  exists kept evicted, [("c", "3"); ("b", "2"); ("a", "1")] = kept ++ evicted /\ implements (Set_ "c" "3" demo_cache) kept.
Proof.
  assert (implements demo_cache [("b", "2"); ("a", "1")]) as Hi.
  { apply (Set_implements "b" "2" (Set_ "a" "1" (newLRUCache 2 100)) [("a", "1")]).
    apply (Set_implements "a" "1" (newLRUCache 2 100) []). apply new_implements. }
  split; [exact Hi|].
  destruct (set_keeps_most_recent "c" "3" demo_cache _ Hi) as (kept & evicted & E & Hk & _).
  exists kept, evicted. split; [exact E|exact Hk].
Defined.

(** ** What a client may rely on *)

(** A cache may forget, but answers only with what was set last. *)
Class Cache (C : Type) := {
  cache_new : Z -> Z -> C;
  cache_get : string -> C -> option string * C;
  cache_set : string -> string -> C -> C;
  cache_ok : C -> Prop;
  remembers : C -> string -> string -> Prop;
  new_ok m s : cache_ok (cache_new m s);
  get_ok k c : cache_ok c -> cache_ok (cache_get k c).2;
  set_ok k v c : cache_ok c -> cache_ok (cache_set k v c);
  new_remembers m s k v : ~ remembers (cache_new m s) k v;
  get_hit k v c : cache_ok c -> (cache_get k c).1 = Some v -> remembers c k v;
  get_remembers k c k' v' : cache_ok c -> remembers (cache_get k c).2 k' v' -> remembers c k' v';
  set_remembers k v c k' v' : cache_ok c ->
    remembers (cache_set k v c) k' v' -> (k' = k /\ v' = v) \/ (k' <> k /\ remembers c k' v')
}.

Lemma find_entry_in k l v : find_entry k l = Some v -> (k, v) ∈ l.
Proof.
  induction l as [|[k' v'] l IH]; cbn; [done|]. destruct (String.eqb_spec k' k) as [->|].
  - intros [= ->]. apply list_elem_of_here.
  - intros H. apply list_elem_of_further. auto.
Qed.

Lemma ref_get_subset k l k' v' : (k', v') ∈ (ref_get k l).2 -> (k', v') ∈ l.
Proof.
  unfold ref_get. destruct (find_entry k l) as [v|] eqn:E; cbn; [|done].
  intros [[= -> ->]|H]%elem_of_cons; [by apply find_entry_in|]. by apply list_elem_of_filter in H as [_ H].
Qed.

Lemma ref_set_subset m s k v l k' v' :
  (k', v') ∈ ref_set m s k v l -> (k' = k /\ v' = v) \/ (k' <> k /\ (k', v') ∈ l).
Proof.
  unfold ref_set. destruct (drop_until_fit_spec m s (rev ((k, v) :: forget k l))) as (dropped & E & _).
  intros Hin. assert ((k', v') ∈ (k, v) :: forget k l) as [[= -> ->]|H]%elem_of_cons.
  - rewrite <- (rev_involutive ((k, v) :: forget k l)), E, rev_app_distr. set_solver.
  - by left.
  - right. by apply list_elem_of_filter in H.
Qed.

#[export, refine] Instance lru_is_cache : Cache lruCache := {|
  cache_new := newLRUCache;
  cache_get := Get;
  cache_set := Set_;
  cache_ok c := exists l, implements c l;
  remembers c k v := forall l, implements c l -> (k, v) ∈ l
|}.
Proof.
  - intros m s. exists []. apply new_implements.
  - intros k c [l Hl]. eexists. by apply Get_implements.
  - intros k v c [l Hl]. eexists. by apply Set_implements.
  - intros m s k v H. specialize (H [] (new_implements m s)). by apply not_elem_of_nil in H.
  - intros k v c _ Hg l Hl. apply find_entry_in. destruct (Get_implements k c l Hl) as [E _].
    rewrite Hg in E. unfold ref_get in E. destruct (find_entry k l); [by injection E as ->|done].
  - intros k c k' v' _ H l Hl. apply (ref_get_subset k). apply H. by apply Get_implements.
  - intros k v c k' v' [l Hl] H. destruct (decide (k' = k)) as [->|Hne].
    + left. destruct (ref_set_subset _ _ _ _ _ _ _ (H _ (Set_implements k v c l Hl))) as [[_ ->]|[? _]]; done.
    + right. split; [done|]. intros l' Hl'.
      destruct (ref_set_subset _ _ _ _ _ _ _ (H _ (Set_implements k v c l' Hl'))) as [[? _]|[_ ?]]; done.
Defined.
