(* ===== verification/Encryption.v ===== *)
(** * package encryption, the Manager

    [Manager] of encryption/encryption.go over any AEAD and any cache that
    keep their promises (AES-GCM of Crypto and the LRU cache of
    EncryptionCache do).  The environment is a function from names to texts,
    the key providers answer with a key and a nonce or an error.  The mutexes
    are left out: each cache operation is atomic in the code, and what is
    shown of the caches is kept by every single one of them. *)

From S2P Require Import Prelude.
From S2P Require Import GoStrings.
From S2P Require Import Crypto.
From S2P Require Import EncryptionCache.

(** ** Data *)

Inductive enc_error :=
| ErrNotInitialized | ErrInvalidNonceSizes | ErrDecodeDEK | ErrDecodeIV
| ErrUnknownProvider (mode : string) | ErrProvider (cause : string)
| ErrDEKSize (n : Z) | ErrIVSize (n : Z) | ErrIVNotAllowed (n : Z)
| ErrCipherInit | ErrGCMInit | ErrFormat | ErrDecodeCiphertext | ErrDecodeTag | ErrOpen.

Inductive provider_kind := VaultProvider | GCPProvider.

Definition defaultCacheMax : Z := 2000.
Definition defaultCacheMaxSize : Z := 100000.

(** strings.ToLower, as far as a comparison with an ASCII word can tell: the
    only letters outside ASCII with an ASCII lower case are the Kelvin sign
    and the dotted I. *)
Fixpoint to_lower (s : string) : string :=
  match s with
  | EmptyString => EmptyString
  | String a rest =>
      match rest with
      | EmptyString => String (lower_byte a) EmptyString
      | String b more =>
          if byte_is 196 a && byte_is 176 b then String "i" (to_lower more)
          else match more with
               | String c rest' =>
                   if byte_is 226 a && byte_is 132 b && byte_is 170 c then String "k" (to_lower rest')
                   else String (lower_byte a) (to_lower rest)
               | EmptyString => String (lower_byte a) (to_lower rest)
               end
      end
  end.

Section manager.
Context {C : Type} `{Cache C} `{AEAD}.

(** Before Init the caches are nil and not looked at. *)
Record Manager := MkManager {
  initialized : bool; dek : string; iv : string; encryptionCache : C; decryptionCache : C;
  allowedNonceSizes : gset Z; invalidNonceSizes : bool
}.

Definition NewManagerAdvanced (sizes : list Z) : Manager :=
  let explicit := Nat.ltb 0 (length sizes) in
  let sizes := if explicit then sizes else [12%Z] in
  let allowed : gset Z := list_to_set (filter (fun size => (0 < size)%Z) sizes) in
  MkManager false EmptyString EmptyString (cache_new 0 0) (cache_new 0 0) allowed
    (explicit && bool_decide (allowed = ∅)).

Definition NewManager : Manager := NewManagerAdvanced [12%Z].

Definition envInt (env : string -> string) (key : string) (defaultVal : Z) : Z :=
  let v := env key in
  if String.eqb v EmptyString then defaultVal
  else match parse_int64 v with (n, None) => n | (_, Some _) => defaultVal end.

Definition createProvider (env : string -> string) : result enc_error provider_kind :=
  let mode := if String.eqb (env "ENCRYPTION_PROVIDER") EmptyString then "vault" else env "ENCRYPTION_PROVIDER" in
  if String.eqb (to_lower mode) "gcp-kms" then Ok GCPProvider
  else if String.eqb (to_lower mode) "vault" then Ok VaultProvider
  else Err (ErrUnknownProvider mode).

(** *** Init *)

(** The key and the nonce, from the environment or from a provider. *)
Definition load_keys (env : string -> string) (provider : provider_kind -> result string (string * string)) :
    result enc_error (string * string) :=
  let dekEnv := env "PII_DEK_BASE64" in
  let ivEnv := env "PII_IV_BASE64" in
  if negb (String.eqb dekEnv EmptyString) && negb (String.eqb ivEnv EmptyString) then
    match b64_decode dekEnv with
    | None => Err ErrDecodeDEK
    | Some d => match b64_decode ivEnv with None => Err ErrDecodeIV | Some i => Ok (d, i) end
    end
  else
    let? kind := createProvider env in
    match provider kind with Err e => Err (ErrProvider e) | Ok keys => Ok keys end.

Definition nonce_allowed (m : Manager) (n : Z) : bool :=
  if bool_decide (allowedNonceSizes m = ∅) then (n =? 12)%Z else bool_decide (n ∈ allowedNonceSizes m).

Definition nonce_error (m : Manager) (n : Z) : enc_error :=
  if bool_decide (allowedNonceSizes m = ∅) then ErrIVSize n
  else if Nat.eqb (size (allowedNonceSizes m)) 1 && bool_decide (12%Z ∈ allowedNonceSizes m) then ErrIVSize n
  else ErrIVNotAllowed n.

Definition set_keys (d i : string) (m : Manager) : Manager :=
  MkManager (initialized m) d i (encryptionCache m) (decryptionCache m) (allowedNonceSizes m) (invalidNonceSizes m).

Definition str_size (s : string) : Z := Z.of_nat (String.length s).

Definition Init (env : string -> string) (provider : provider_kind -> result string (string * string))
    (m : Manager) : Manager * option enc_error :=
  if initialized m then (m, None)
  else if invalidNonceSizes m then (m, Some ErrInvalidNonceSizes)
  else
    match load_keys env provider with
    | Err e => (m, Some e)
    | Ok (d, i) =>
        let m := set_keys d i m in
        if negb (str_size d =? 32)%Z then (m, Some (ErrDEKSize (str_size d)))
        else if negb (nonce_allowed m (str_size i)) then (m, Some (nonce_error m (str_size i)))
        else
          let cacheMax := envInt env "ENCRYPTION_CACHE_MAX" defaultCacheMax in
          let cacheMaxSize := envInt env "ENCRYPTION_CACHE_MAX_SIZE" defaultCacheMaxSize in
          (MkManager true d i (cache_new cacheMax cacheMaxSize) (cache_new cacheMax cacheMaxSize)
             (allowedNonceSizes m) (invalidNonceSizes m), None)
    end.

(** *** Encrypt and Decrypt *)

Definition set_caches (e d : C) (m : Manager) : Manager :=
  MkManager (initialized m) (dek m) (iv m) e d (allowedNonceSizes m) (invalidNonceSizes m).

(** What Encrypt computes when its cache has no answer. *)
Definition seal_message (key nonce message : string) : result enc_error string :=
  if negb (aead_key_ok key) then Err ErrCipherInit
  else if negb (aead_nonce_ok (str_size nonce)) then Err ErrGCMInit
  else
    let sealed := aead_seal key nonce message in
    let tagSize := aead_overhead in
    let ciphertextBytes := str_take (String.length sealed - tagSize) sealed in
    let tagBytes := str_drop (String.length sealed - tagSize) sealed in
    Ok (b64_encode ciphertextBytes +:+ "." +:+ b64_encode tagBytes).

Definition Encrypt (message : string) (m : Manager) : Manager * result enc_error string :=
  if negb (initialized m) then (m, Err ErrNotInitialized)
  else
    let (cached, e) := cache_get message (encryptionCache m) in
    let m := set_caches e (decryptionCache m) m in
    match cached with
    | Some encrypted => (m, Ok encrypted)
    | None =>
        match seal_message (dek m) (iv m) message with
        | Err err => (m, Err err)
        | Ok encrypted =>
            (set_caches (cache_set message encrypted (encryptionCache m))
               (cache_set encrypted message (decryptionCache m)) m, Ok encrypted)
        end
    end.

(** What Decrypt computes when its cache has no answer. *)
Definition open_message (key nonce encrypted : string) : result enc_error string :=
  match cut "." encrypted with
  | None => Err ErrFormat
  | Some (c64, t64) =>
      match b64_decode c64 with
      | None => Err ErrDecodeCiphertext
      | Some ciphertextBytes =>
          match b64_decode t64 with
          | None => Err ErrDecodeTag
          | Some tagBytes =>
              if negb (aead_key_ok key) then Err ErrCipherInit
              else if negb (aead_nonce_ok (str_size nonce)) then Err ErrGCMInit
              else match aead_open key nonce (ciphertextBytes +:+ tagBytes) with
                   | None => Err ErrOpen
                   | Some plaintext => Ok plaintext
                   end
          end
      end
  end.

Definition Decrypt (encrypted : string) (m : Manager) : Manager * result enc_error string :=
  if negb (initialized m) then (m, Err ErrNotInitialized)
  else
    let (cached, d) := cache_get encrypted (decryptionCache m) in
    let m := set_caches (encryptionCache m) d m in
    match cached with
    | Some decrypted => (m, Ok decrypted)
    | None =>
        match open_message (dek m) (iv m) encrypted with
        | Err err => (m, Err err)
        | Ok decrypted =>
            (set_caches (cache_set decrypted encrypted (encryptionCache m))
               (cache_set encrypted decrypted (decryptionCache m)) m, Ok decrypted)
        end
    end.
End manager.
Arguments Manager C : clear implicits.

(** ** Histories *)

Inductive manager_op :=
| OpInit (env : string -> string) (provider : provider_kind -> result string (string * string))
| OpEncrypt (message : string)
| OpDecrypt (encrypted : string).

Section histories.
Context {C : Type} `{Cache C} `{AEAD}.

Definition apply_op (op : manager_op) (m : Manager C) : Manager C :=
  match op with
  | OpInit env provider => (Init env provider m).1
  | OpEncrypt message => (Encrypt message m).1
  | OpDecrypt encrypted => (Decrypt encrypted m).1
  end.

Definition apply_ops (ops : list manager_op) (m : Manager C) : Manager C := foldl (fun m op => apply_op op m) m ops.

(** Every cached pair is one that decryption confirms. *)
Record sound (m : Manager C) : Prop := {
  s_key : String.length (dek m) = 32;
  s_nonce : (0 < str_size (iv m))%Z;
  s_ok : cache_ok (encryptionCache m) /\ cache_ok (decryptionCache m);
  s_enc : forall k v, remembers (encryptionCache m) k v -> open_message (dek m) (iv m) v = Ok k;
  s_dec : forall k v, remembers (decryptionCache m) k v -> open_message (dek m) (iv m) k = Ok v
}.

Definition good (m : Manager C) : Prop :=
  (forall n, n ∈ allowedNonceSizes m -> (0 < n)%Z) /\ (initialized m = true -> sound m).

(** *** The wire format *)

Lemma seal_open key nonce message :
  String.length key = 32 -> (0 < str_size nonce)%Z ->
  exists e, seal_message key nonce message = Ok e /\ open_message key nonce e = Ok message.
Proof.
  intros Hk Hn. unfold seal_message, open_message.
  rewrite (aead_key_32 _ Hk), (aead_nonce_positive _ Hn). cbn [negb]. eexists. split; [done|].
  set (sealed := aead_seal key nonce message). set (n := String.length sealed - aead_overhead).
  change ("." +:+ b64_encode (str_drop n sealed)) with (String "." (b64_encode (str_drop n sealed))).
  rewrite (cut_byte "." (b64_encode (str_take n sealed)) (b64_encode (str_drop n sealed)))
    by (eapply str_forallb_weaken; [|apply b64_encode_plain]; intros c; by rewrite Ascii.eqb_sym).
  rewrite !b64_decode_encode, <- str_take_drop. unfold sealed. by rewrite aead_open_seal.
Qed.

(** *** The caches stay sound *)

Lemma sound_cached (m : Manager C) k v : sound m ->
  sound (set_caches (cache_get k (encryptionCache m)).2 (decryptionCache m) m) /\
  sound (set_caches (encryptionCache m) (cache_get v (decryptionCache m)).2 m).
Proof.
  intros [Hk Hn [He Hd] Se Sd]. split; split; cbn; try done.
  - split; [by apply get_ok|done].
  - intros k' v' Hr. apply Se. by eapply get_remembers.
  - split; [done|by apply get_ok].
  - intros k' v' Hr. apply Sd. by eapply get_remembers.
Qed.

Lemma sound_set (m : Manager C) plain enc : sound m -> open_message (dek m) (iv m) enc = Ok plain ->
  sound (set_caches (cache_set plain enc (encryptionCache m)) (cache_set enc plain (decryptionCache m)) m).
Proof.
  intros [Hk Hn [He Hd] Se Sd] Ho. split; cbn; try done.
  - split; by apply set_ok.
  - intros k v Hr. destruct (set_remembers _ _ _ _ _ He Hr) as [[-> ->]|[_ ?]]; [done|by apply Se].
  - intros k v Hr. destruct (set_remembers _ _ _ _ _ Hd Hr) as [[-> ->]|[_ ?]]; [done|by apply Sd].
Qed.

(** One Encrypt: the manager keeps its keys and stays sound, and the answer
    decrypts to the message. *)
Lemma Encrypt_sound message (m : Manager C) :
  initialized m = true -> sound m ->
  sound (Encrypt message m).1 /\ initialized (Encrypt message m).1 = true /\
  dek (Encrypt message m).1 = dek m /\ iv (Encrypt message m).1 = iv m /\
  exists e, (Encrypt message m).2 = Ok e /\ open_message (dek m) (iv m) e = Ok message.
Proof.
  intros Hi Hs. pose proof Hs as [Hk Hn [He Hd] Se Sd]. unfold Encrypt. rewrite Hi. cbn [negb].
  destruct (sound_cached m message EmptyString Hs) as [Hs' _].
  assert (forall v, (cache_get message (encryptionCache m)).1 = Some v -> remembers (encryptionCache m) message v)
    as Hg by (intros v; by apply get_hit).
  destruct (cache_get message (encryptionCache m)) as [[v|] e]; cbn [fst snd] in *.
  - split_and!; try done. exists v. split; [done|]. by apply Se, Hg.
  - destruct (seal_open _ _ message Hk Hn) as (v & Es & Eo). cbn [dek iv set_caches].
    rewrite Es. cbn [fst snd]. split_and!; try done; [|by exists v].
    by apply (sound_set (set_caches e (decryptionCache m) m)).
Qed.

Lemma Decrypt_sound encrypted (m : Manager C) :
  initialized m = true -> sound m ->
  sound (Decrypt encrypted m).1 /\ initialized (Decrypt encrypted m).1 = true /\
  dek (Decrypt encrypted m).1 = dek m /\ iv (Decrypt encrypted m).1 = iv m /\
  (Decrypt encrypted m).2 = open_message (dek m) (iv m) encrypted.
Proof.
  intros Hi Hs. pose proof Hs as [Hk Hn [He Hd] Se Sd]. unfold Decrypt. rewrite Hi. cbn [negb].
  destruct (sound_cached m EmptyString encrypted Hs) as [_ Hs'].
  assert (forall v, (cache_get encrypted (decryptionCache m)).1 = Some v -> remembers (decryptionCache m) encrypted v)
    as Hg by (intros v; by apply get_hit).
  destruct (cache_get encrypted (decryptionCache m)) as [[v|] d]; cbn [fst snd] in *.
  - split_and!; try done. symmetry. by apply Sd, Hg.
  - cbn [dek iv set_caches]. destruct (open_message (dek m) (iv m) encrypted) as [plain|err] eqn:Eo; [|done].
    cbn [fst snd]. split_and!; try done. by apply (sound_set (set_caches (encryptionCache m) d m)).
Qed.

(** *** Init *)

Lemma nonce_allowed_positive (m : Manager C) n : good m -> nonce_allowed m n = true -> (0 < n)%Z.
Proof.
  intros [Hg _]. unfold nonce_allowed. case_bool_decide.
  - intros E%Z.eqb_eq. lia.
  - intros E%bool_decide_eq_true. by apply Hg.
Qed.

(** What Init leaves behind. *)
Lemma Init_cases env provider (m : Manager C) m' err :
  Init env provider m = (m', err) ->
  (initialized m = true /\ m' = m /\ err = None) \/
  (initialized m = false /\ initialized m' = false /\ err <> None /\
     allowedNonceSizes m' = allowedNonceSizes m) \/
  (initialized m = false /\ initialized m' = true /\ err = None /\
     load_keys env provider = Ok (dek m', iv m') /\
     String.length (dek m') = 32 /\ nonce_allowed m (str_size (iv m')) = true /\
     allowedNonceSizes m' = allowedNonceSizes m /\
     exists a b, encryptionCache m' = cache_new a b /\ decryptionCache m' = cache_new a b).
Proof.
  unfold Init. destruct (initialized m) eqn:Ei; [intros [= <- <-]; by left|].
  intros E. right. destruct (invalidNonceSizes m); [injection E as <- <-; by left|].
  destruct (load_keys env provider) as [[d i]|e]; [|injection E as <- <-; by left].
  destruct (Z.eqb_spec (str_size d) 32) as [Hd|]; cbn [negb] in E; [|injection E as <- <-; by left].
  destruct (nonce_allowed _ (str_size i)) eqn:En; cbn [negb] in E; [|injection E as <- <-; by left].
  right. injection E as <- <-. cbn. unfold str_size in Hd. split_and!; try done; [lia|by eexists _, _].
Qed.

Lemma Init_good env provider (m : Manager C) : good m -> good (Init env provider m).1.
Proof.
  intros Hg. destruct (Init env provider m) as [m' err] eqn:E. cbn [fst].
  destruct (Init_cases _ _ _ _ _ E) as [(? & -> & _)|[(_ & Ei & _ & Ea)|(_ & Ei & _ & _ & Hd & Hn & Ea & a & b & Ee & Ed)]].
  - done.
  - split; [rewrite Ea; apply Hg|]. by rewrite Ei.
  - split; [rewrite Ea; apply Hg|]. intros _. split; rewrite ?Ee, ?Ed.
    + done.
    + by eapply nonce_allowed_positive.
    + split; apply new_ok.
    + intros k v Hr. by apply new_remembers in Hr.
    + intros k v Hr. by apply new_remembers in Hr.
Qed.

Lemma apply_op_good op (m : Manager C) : good m -> good (apply_op op m).
Proof.
  intros Hg. destruct op as [env provider|message|encrypted]; cbn [apply_op].
  - by apply Init_good.
  - destruct (initialized m) eqn:Ei; [|unfold Encrypt; by rewrite Ei].
    destruct Hg as [Ha Hs]. split; [|intros _; by apply Encrypt_sound; auto].
    unfold Encrypt. rewrite Ei. cbn [negb]. destruct (cache_get _ _) as [[|] ?]; cbn; [done|].
    by destruct (seal_message _ _ _).
  - destruct (initialized m) eqn:Ei; [|unfold Decrypt; by rewrite Ei].
    destruct Hg as [Ha Hs]. split; [|intros _; by apply Decrypt_sound; auto].
    unfold Decrypt. rewrite Ei. cbn [negb]. destruct (cache_get _ _) as [[|] ?]; cbn; [done|].
    by destruct (open_message _ _ _).
Qed.

Lemma apply_ops_good ops (m : Manager C) : good m -> good (apply_ops ops m).
Proof. revert m. induction ops as [|op ops IH]; intros m Hg; [done|]. by apply IH, apply_op_good. Qed.

Lemma new_good sizes : good (NewManagerAdvanced (C := C) sizes).
Proof.
  split; [|done]. cbn. intros n Hn. apply elem_of_list_to_set, list_elem_of_filter in Hn as [? _]. done.
Qed.

(** An initialised manager stays so, with its keys. *)
Lemma apply_ops_keys ops (m : Manager C) :
  good m -> initialized m = true ->
  initialized (apply_ops ops m) = true /\ dek (apply_ops ops m) = dek m /\ iv (apply_ops ops m) = iv m.
Proof.
  revert m. induction ops as [|op ops IH]; intros m Hg Hi; [done|]. cbn.
  assert (initialized (apply_op op m) = true /\ dek (apply_op op m) = dek m /\ iv (apply_op op m) = iv m)
    as (Hi' & <- & <-).
  { destruct op; cbn [apply_op].
    - unfold Init. by rewrite Hi.
    - destruct Hg as [_ Hs]. by destruct (Encrypt_sound message m Hi (Hs Hi)) as (_ & ? & ? & ? & _).
    - destruct Hg as [_ Hs]. by destruct (Decrypt_sound encrypted m Hi (Hs Hi)) as (_ & ? & ? & ? & _). }
  apply IH; [by apply apply_op_good|done].
Qed.
End histories.

(** ** Theorems *)

Section theorems.
Context {C : Type} `{Cache C} `{AEAD}.

(** Init succeeds only with usable keys: after a nil error the manager is
    initialised with the key and nonce of the environment or the provider,
    the key 32 bytes long and the nonce of an allowed, positive size; after
    an error it is still not initialised and may be retried; and once
    initialised it never changes. *)
Theorem Init_usable ops sizes env provider m' err :
  let m := apply_ops ops (NewManagerAdvanced (C := C) sizes) in
  Init env provider m = (m', err) ->
  (err = None <-> initialized m' = true) /\
  (initialized m = true -> m' = m) /\
  (initialized m = false -> initialized m' = true ->
     load_keys env provider = Ok (dek m', iv m') /\ String.length (dek m') = 32 /\
     (0 < str_size (iv m'))%Z /\ nonce_allowed m (str_size (iv m')) = true).
Proof.
  intros m E. pose proof (apply_ops_good ops _ (new_good sizes)) as Hg. fold m in Hg.
  destruct (Init_cases _ _ _ _ _ E) as [(Ei & -> & ->)|[(Ei & Ei' & He & _)|(Ei & Ei' & -> & El & Hd & Hn & _)]];
    rewrite ?Ei, ?Ei'; split_and!; try done.
  intros _ _. split_and!; try done. by eapply nonce_allowed_positive.
Qed.

(** C31: The cache cannot be seen through Decrypt: after any history of Init,
    Encrypt and Decrypt, with caches of any size, Decrypt answers every input
    with exactly what decoding and opening it gives, errors included. *)
Theorem Decrypt_transparent ops sizes encrypted :
  let m := apply_ops ops (NewManagerAdvanced (C := C) sizes) in
  (Decrypt encrypted m).2 =
    if initialized m then open_message (dek m) (iv m) encrypted else Err ErrNotInitialized.
Proof.
  intros m. pose proof (apply_ops_good ops _ (new_good sizes)) as [_ Hs]. fold m in Hs.
  destruct (initialized m) eqn:Ei; [|unfold Decrypt; by rewrite Ei].
  by apply Decrypt_sound; auto.
Qed.

(** What Encrypt returns decrypts to the message: on an initialised
    manager Encrypt never fails, and however many other calls come between,
    Decrypt of its answer gives the message back. *)
Theorem Encrypt_Decrypt ops sizes message later :
  let m := apply_ops ops (NewManagerAdvanced (C := C) sizes) in
  initialized m = true ->
  exists e, (Encrypt message m).2 = Ok e /\
    (Decrypt e (apply_ops later (Encrypt message m).1)).2 = Ok message.
Proof.
  intros m Hi. pose proof (apply_ops_good ops _ (new_good sizes)) as Hg. fold m in Hg.
  destruct (Encrypt_sound message m Hi (proj2 Hg Hi)) as (Hs' & Hi' & Ek & En & e & He & Ho).
  pose proof (apply_op_good (OpEncrypt message) m Hg) as Hg'. cbn [apply_op] in Hg'.
  exists e. split; [done|]. destruct (apply_ops_keys later _ Hg' Hi') as (Hil & Ekl & Enl).
  pose proof (apply_ops_good later _ Hg') as [_ Hsl].
  destruct (Decrypt_sound e _ Hil (Hsl Hil)) as (_ & _ & _ & _ & ->). by rewrite Ekl, Enl, Ek, En.
Qed.
End theorems.

(** ** The vectors of the interoperability test *)

Definition kat_env (name : string) : string :=
  if String.eqb name "PII_DEK_BASE64" then "AAECAwQFBgcICQoLDA0ODxAREhMUFRYXGBkaGxwdHh8="
  else if String.eqb name "PII_IV_BASE64" then "AAECAwQFBgcI"
  else if String.eqb name "ENCRYPTION_CACHE_MAX" then "2" else EmptyString.

Definition no_provider (k : provider_kind) : result string (string * string) := Err "unused".

Definition new_manager : Manager lruCache := NewManagerAdvanced [9%Z; 12%Z].
Definition kat_manager : Manager lruCache := apply_ops [OpInit kat_env no_provider] new_manager.

Example kat_encrypt : (Encrypt "+91-9876543210" kat_manager).2 = Ok "h2RTepeenS+doDZlURo=.TdTP0SGbFiq7Rk1HXG8iGg==".
Proof. vm_compute. reflexivity. Qed.

Example kat_decrypt : (Decrypt ".xmBd2IfyjYoRXmXrg/bJCg==" kat_manager).2 = Ok EmptyString.
Proof. vm_compute. reflexivity. Qed.

Lemma Init_usable_witness :
  String.length (dek kat_manager) = 32 /\ (0 < str_size (iv kat_manager))%Z.
Proof.
  destruct (Init_usable (C := lruCache) [] [9%Z; 12%Z] kat_env no_provider kat_manager
              (Init kat_env no_provider new_manager).2) as (_ & _ & Hnew).
  - apply surjective_pairing.
  - destruct (Hnew eq_refl eq_refl) as (_ & Hd & Hn & _). split; [exact Hd|exact Hn].
Defined.

Lemma Encrypt_Decrypt_witness :
  exists e, (Encrypt "person@example.com" kat_manager).2 = Ok e /\
    (Decrypt e (apply_ops [OpEncrypt "a"; OpDecrypt "b"; OpEncrypt "c"] (Encrypt "person@example.com" kat_manager).1)).2 =
    Ok "person@example.com".
Proof.
  apply (Encrypt_Decrypt (C := lruCache) [OpInit kat_env no_provider] [9%Z; 12%Z]).
  vm_compute. reflexivity.
Defined.
