(* ===== verification/Feature.v ===== *)
(** * package feature, rollout strategies

    murmurHash3, the percentage of a client, attribute matching and
    applyStrategies of feature/strategy.go.  A strategy attribute's values are
    JSON scalars, of which the code only uses what fmt.Sprint prints: a value
    is that text, or null.  A percentage is a whole number of millionths, as
    FeatureHub sends it; sums of them are exact in a float64.  Regular
    expressions, numbers, dates and IP addresses are recognised by Go's
    libraries, which the section is over. *)

From S2P Require Import Prelude.
From S2P Require Import GoStrings.

(** ** MurmurHash3, in 32-bit arithmetic *)

Definition mul32 (a b : Z) : Z := wrap32u (a * b).
Definition RotateLeft32 (x k : Z) : Z := wrap32u (Z.lor (Z.shiftl x k) (Z.shiftr x (32 - k))).

Definition mur_c1 : Z := 0xcc9e2d51.
Definition mur_c2 : Z := 0x1b873593.

Definition mix_value (v : Z) : Z := mul32 (RotateLeft32 (mul32 v mur_c1) 15) mur_c2.

Definition mix_block (hash v : Z) : Z :=
  wrap32u (RotateLeft32 (Z.lxor hash (mix_value v)) 13 * 5 + 0xe6546b64).

Definition byte_z (c : ascii) : Z := Z.of_N (byte_of c).

Definition little_endian (a b c d : ascii) : Z :=
  Z.lor (byte_z a) (Z.lor (Z.shiftl (byte_z b) 8) (Z.lor (Z.shiftl (byte_z c) 16) (Z.shiftl (byte_z d) 24))).

(** The blocks of four bytes, then the tail. *)
Fixpoint mix_blocks (data : string) (hash : Z) : Z :=
  match data with
  | String a (String b (String c (String d rest))) => mix_blocks rest (mix_block hash (little_endian a b c d))
  | String a (String b (String c EmptyString)) =>
      Z.lxor hash (mix_value (Z.lxor (Z.lxor (Z.shiftl (byte_z c) 16) (Z.shiftl (byte_z b) 8)) (byte_z a)))
  | String a (String b EmptyString) => Z.lxor hash (mix_value (Z.lxor (Z.shiftl (byte_z b) 8) (byte_z a)))
  | String a EmptyString => Z.lxor hash (mix_value (byte_z a))
  | EmptyString => hash
  end.

Definition finish (hash length : Z) : Z :=
  let h := Z.lxor hash (wrap32u length) in
  let h := Z.lxor h (Z.shiftr h 16) in
  let h := mul32 h 0x85ebca6b in
  let h := Z.lxor h (Z.shiftr h 13) in
  let h := mul32 h 0xc2b2ae35 in
  Z.lxor h (Z.shiftr h 16).

Definition murmurHash3 (data : string) (seed : Z) : Z :=
  finish (mix_blocks data seed) (Z.of_nat (String.length data)).

Definition maxPercentage : Z := 1000000.

(** float64(hash)/2^32*maxPercentage is exact (46 bits), so Floor is the
    integer quotient. *)
Definition determineClientPercentage (percentageKey featureID : string) : Z :=
  murmurHash3 (percentageKey +:+ featureID) 0 * maxPercentage / 2 ^ 32.

Example percentage_user : determineClientPercentage "user-1" "feature-id" = 200835%Z.
Proof. vm_compute. reflexivity. Qed.
Example percentage_abc : determineClientPercentage "abc" "123" = 55367%Z.
Proof. vm_compute. reflexivity. Qed.

(** ** Strategies *)

Record strategyAttribute := MkAttribute {
  Conditional : string; FieldName : string; Values : option (list (option string)); AttributeType : string
}.

Record rolloutStrategy (V : Type) := MkStrategy {
  Percentage : Z; PercentageAttributes : list string; Attributes : list strategyAttribute; SValue : V
}.
Arguments MkStrategy {V}.
Arguments Percentage {V}.
Arguments PercentageAttributes {V}.
Arguments Attributes {V}.
Arguments SValue {V}.

Abbreviation client := (gmap string (list string)).

Definition attribute_values (context : client) (key : string) : list string :=
  match context !! key with Some l => l | None => [] end.

Definition firstAttribute (context : client) (key fallback : string) : string :=
  match attribute_values context key with v :: _ => v | [] => fallback end.

(** fmt.Sprint of a value. *)
Definition sprint (v : option string) : string := match v with Some s => s | None => "<nil>" end.

Definition attributeStrings (values : list (option string)) : list string := omap id values.

Section matching.
(** regexp.Compile and MatchString; strconv.ParseFloat and the comparisons of
    float64; parseFeatureDate with the two formats; net.ParseIP, Equal,
    net.ParseCIDR and Contains. *)
Context (regexp_match : string -> string -> bool).
Context {float : Type} (parse_float : string -> option float) (flt feq : float -> float -> bool).
Context (parse_number : bool -> string -> option float).
Context (date_text datetime_text : string -> option string).
Context {ip : Type} (parse_ip : string -> option ip) (ip_in : string -> ip -> bool).

Definition candidate_matches (conditional value candidate : string) : bool :=
  if String.eqb conditional "EQUALS" then String.eqb value candidate
  else if String.eqb conditional "ENDS_WITH" then has_suffix candidate value
  else if String.eqb conditional "STARTS_WITH" then has_prefix candidate value
  else if String.eqb conditional "GREATER" then String.ltb candidate value
  else if String.eqb conditional "GREATER_EQUALS" then String.leb candidate value
  else if String.eqb conditional "LESS" then String.ltb value candidate
  else if String.eqb conditional "LESS_EQUALS" then String.leb value candidate
  else if String.eqb conditional "INCLUDES" then contains candidate value
  else if String.eqb conditional "REGEX" then regexp_match candidate value
  else false.

Definition matchString (value : string) (attribute : strategyAttribute) : bool :=
  let values := attributeStrings (default [] (Values attribute)) in
  if existsb (candidate_matches (Conditional attribute) value) values then true
  else if String.eqb (Conditional attribute) "NOT_EQUALS" then forallb (fun c => negb (String.eqb value c)) values
  else if String.eqb (Conditional attribute) "EXCLUDES" then forallb (fun c => negb (contains c value)) values
  else false.

Definition number_matches (conditional value : string) (actual : float) (candidateText : string) (candidate : float) : bool :=
  if String.eqb conditional "EQUALS" then feq actual candidate
  else if String.eqb conditional "GREATER" then flt candidate actual
  else if String.eqb conditional "GREATER_EQUALS" then flt candidate actual || feq actual candidate
  else if String.eqb conditional "LESS" then flt actual candidate
  else if String.eqb conditional "LESS_EQUALS" then flt actual candidate || feq actual candidate
  else if String.eqb conditional "STARTS_WITH" then has_prefix candidateText value
  else if String.eqb conditional "ENDS_WITH" then has_suffix candidateText value
  else if String.eqb conditional "INCLUDES" then contains candidateText value
  else if String.eqb conditional "REGEX" then regexp_match candidateText value
  else false.

(** The candidates that are numbers, with their texts. *)
Definition number_candidates (floatMode : bool) (attribute : strategyAttribute) : list (string * float) :=
  omap (fun raw => n ← parse_number floatMode (sprint raw); Some (sprint raw, n)) (default [] (Values attribute)).

Definition matchNumber (value : string) (attribute : strategyAttribute) : bool :=
  let floatMode := contains "." value in
  match parse_number floatMode value with
  | None => false
  | Some actual =>
      let candidates := number_candidates floatMode attribute in
      if existsb (fun c => number_matches (Conditional attribute) value actual c.1 c.2) candidates then true
      else if String.eqb (Conditional attribute) "NOT_EQUALS" then negb (existsb (fun c => feq actual c.2) candidates)
      else if String.eqb (Conditional attribute) "EXCLUDES" then negb (existsb (fun c => contains c.1 value) candidates)
      else false
  end.

Definition semanticPart (parts : list string) (index : nat) : option float := parts !! index ≫= parse_float.

Fixpoint compare_parts_from (n index : nat) (left right : list string) : Z :=
  match n with
  | O => 0
  | S n' =>
      match semanticPart left index, semanticPart right index with
      | Some l, Some r => if flt r l then 1 else if flt l r then -1 else compare_parts_from n' (S index) left right
      | Some _, None => 1
      | None, Some _ => -1
      | None, None => compare_parts_from n' (S index) left right
      end
  end.

Definition compareSemanticVersion (left right : string) : Z :=
  compare_parts_from 3 0 (split "." left) (split "." right).

Definition version_matches (conditional : string) (comparison : Z) : bool :=
  if String.eqb conditional "EQUALS" || String.eqb conditional "INCLUDES" then (comparison =? 0)%Z
  else if String.eqb conditional "GREATER" then (0 <? comparison)%Z
  else if String.eqb conditional "GREATER_EQUALS" then (0 <=? comparison)%Z
  else if String.eqb conditional "LESS" then (comparison <? 0)%Z
  else if String.eqb conditional "LESS_EQUALS" then (comparison <=? 0)%Z
  else if String.eqb conditional "NOT_EQUALS" || String.eqb conditional "EXCLUDES" then negb (comparison =? 0)%Z
  else false.

Definition matchSemanticVersion (value : string) (attribute : strategyAttribute) : bool :=
  existsb (fun candidate => version_matches (Conditional attribute) (compareSemanticVersion value candidate))
    (attributeStrings (default [] (Values attribute))).

(** [ip_in] stands for one candidate: an address without a slash, a network
    with one. *)
Definition matchIPAddress (value : string) (attribute : strategyAttribute) : bool :=
  match parse_ip value with
  | None => false
  | Some a =>
      let contained := existsb (fun candidate => ip_in candidate a) (attributeStrings (default [] (Values attribute))) in
      if String.eqb (Conditional attribute) "EQUALS" || String.eqb (Conditional attribute) "INCLUDES" then contained
      else if String.eqb (Conditional attribute) "NOT_EQUALS" || String.eqb (Conditional attribute) "EXCLUDES" then negb contained
      else false
  end.

Definition matchBoolean (value : string) (attribute : strategyAttribute) : bool :=
  match default [] (Values attribute) with
  | [] => false
  | first :: _ =>
      let expected := String.eqb (sprint first) "true" in
      let actual := String.eqb value "true" in
      if String.eqb (Conditional attribute) "EQUALS" then Bool.eqb actual expected
      else if String.eqb (Conditional attribute) "NOT_EQUALS" then negb (Bool.eqb actual expected)
      else false
  end.

Definition matchAttributeValue (value : string) (attribute : strategyAttribute) : bool :=
  let type := AttributeType attribute in
  if String.eqb type "BOOLEAN" then matchBoolean value attribute
  else if String.eqb type "NUMBER" then matchNumber value attribute
  else if String.eqb type "DATE" then
    match date_text value with Some d => matchString d attribute | None => false end
  else if String.eqb type "DATETIME" then
    match datetime_text value with Some d => matchString d attribute | None => false end
  else if String.eqb type "SEMANTIC_VERSION" then matchSemanticVersion value attribute
  else if String.eqb type "IP_ADDRESS" then matchIPAddress value attribute
  else if String.eqb type "STRING" then matchString value attribute
  else false.

(** The time of the call in its two formats. *)
Context (now_date now_datetime : string).

Definition supplied_values (context : client) (attribute : strategyAttribute) : list string :=
  match attribute_values context (FieldName attribute) with
  | [] =>
      if equal_fold (FieldName attribute) "now" then
        if String.eqb (AttributeType attribute) "DATE" then [now_date]
        else if String.eqb (AttributeType attribute) "DATETIME" then [now_datetime] else []
      else []
  | l => l
  end.

Definition attribute_holds (context : client) (attribute : strategyAttribute) : bool :=
  match Values attribute, supplied_values context attribute with
  | None, [] => String.eqb (Conditional attribute) "EQUALS"
  | None, _ :: _ => false
  | Some _, [] => false
  | Some _, supplied => existsb (fun value => matchAttributeValue value attribute) supplied
  end.

Definition matchAttributes (context : client) (attributes : list strategyAttribute) : bool :=
  forallb (attribute_holds context) attributes.
End matching.

(** ** applyStrategies *)

Section apply.
Context {V : Type} (context : client) (featureID : string).
Context (matches : list strategyAttribute -> bool).   (** matchAttributes at the context *)

Definition defaultPercentageKey : string := firstAttribute context "session" (firstAttribute context "userkey" EmptyString).

(** What the loop carries: the last key with its percentage, and the base of
    each key. *)
Record walk := MkWalk { last_key : option (string * Z); basePercentages : gmap string Z }.

Definition uses_percentage (s : rolloutStrategy V) : bool :=
  negb (Percentage s =? 0)%Z &&
  (negb (String.eqb defaultPercentageKey EmptyString) || Nat.ltb 0 (length (PercentageAttributes s))).

Definition percentage_key (s : rolloutStrategy V) : string :=
  match PercentageAttributes s with
  | [] => defaultPercentageKey
  | l => join "$" (map (fun a => firstAttribute context a "<none>") l)
  end.

Definition percentage_for (w : walk) (key : string) : Z :=
  match last_key w with
  | Some (k, p) => if String.eqb k key then p else determineClientPercentage key featureID
  | None => determineClientPercentage key featureID
  end.

Definition base_of (bases : gmap string Z) (key : string) : Z := match bases !! key with Some b => b | None => 0 end.

Definition no_attributes (s : rolloutStrategy V) : bool := Nat.eqb (length (Attributes s)) 0.

Fixpoint apply_loop (strategies : list (rolloutStrategy V)) (w : walk) : option V :=
  match strategies with
  | [] => None
  | s :: rest =>
      let by_attributes (w : walk) :=
        if (Percentage s =? 0)%Z && negb (no_attributes s) && matches (Attributes s)
        then Some (SValue s) else apply_loop rest w in
      if uses_percentage s then
        let key := percentage_key s in
        let percentage := percentage_for w key in
        let w := MkWalk (Some (key, percentage)) (basePercentages w) in
        let base := if no_attributes s then base_of (basePercentages w) key else 0%Z in
        if (percentage <=? base + Percentage s)%Z && (no_attributes s || matches (Attributes s))
        then Some (SValue s)
        else
          by_attributes
            (if no_attributes s
             then MkWalk (last_key w) (<[key := (base_of (basePercentages w) key + Percentage s)%Z]> (basePercentages w))
             else w)
      else by_attributes w
  end.

(** ** What a strategy promises *)

(** The share of a key's clients that earlier unqualified strategies took. *)
Definition taken (earlier : list (rolloutStrategy V)) (key : string) : Z :=
  foldr (fun s n => if uses_percentage s && no_attributes s && String.eqb (percentage_key s) key
                    then (Percentage s + n)%Z else n) 0%Z earlier.

(** A strategy applies to the client: by percentage, within the bucket that
    follows what was taken before it (from zero when it has attributes), and
    by its attributes. *)
Definition qualifies (earlier : list (rolloutStrategy V)) (s : rolloutStrategy V) : bool :=
  if (Percentage s =? 0)%Z then negb (no_attributes s) && matches (Attributes s)
  else
    uses_percentage s &&
    (determineClientPercentage (percentage_key s) featureID <=?
       (if no_attributes s then taken earlier (percentage_key s) else 0) + Percentage s)%Z &&
    (no_attributes s || matches (Attributes s)).

Fixpoint first_qualifying (earlier strategies : list (rolloutStrategy V)) : option V :=
  match strategies with
  | [] => None
  | s :: rest => if qualifies earlier s then Some (SValue s) else first_qualifying (earlier ++ [s]) rest
  end.

(** The loop's state says what the definition says. *)
Definition walk_ok (earlier : list (rolloutStrategy V)) (w : walk) : Prop :=
  (forall k p, last_key w = Some (k, p) -> p = determineClientPercentage k featureID) /\
  (forall key, base_of (basePercentages w) key = taken earlier key).

Lemma taken_snoc earlier s key :
  taken (earlier ++ [s]) key =
  (taken earlier key + (if uses_percentage s && no_attributes s && String.eqb (percentage_key s) key
                        then Percentage s else 0))%Z.
Proof.
  unfold taken. induction earlier as [|s' earlier IH]; cbn [app foldr].
  - destruct (_ && _ && _); lia.
  - rewrite IH. destruct (uses_percentage s' && _ && _), (uses_percentage s && _ && _); lia.
Qed.

Lemma percentage_for_ok earlier w key : walk_ok earlier w -> percentage_for w key = determineClientPercentage key featureID.
Proof.
  intros [Hl _]. unfold percentage_for. destruct (last_key w) as [[k p]|] eqn:E; [|done].
  destruct (String.eqb_spec k key) as [->|]; [|done]. by apply Hl.
Qed.

Lemma apply_loop_first earlier strategies w :
  walk_ok earlier w -> apply_loop strategies w = first_qualifying earlier strategies.
Proof.
  revert earlier w. induction strategies as [|s rest IH]; intros earlier w Hw; [done|].
  cbn [apply_loop first_qualifying]. rewrite (percentage_for_ok _ _ _ Hw).
  destruct Hw as [Hl Hb]. unfold qualifies. cbn [basePercentages last_key].
  rewrite (Hb (percentage_key s)).
  destruct (uses_percentage s) eqn:Eu; cbn [andb].
  - assert ((Percentage s =? 0)%Z = false) as Ez
      by (unfold uses_percentage in Eu; apply andb_true_iff in Eu as [Eu _]; by apply negb_true_iff in Eu).
    rewrite Ez. cbn [andb negb].
    destruct ((_ <=? _)%Z && _); [done|]. apply IH. split.
    + intros k p. destruct (no_attributes s); cbn; intros [= <- <-]; done.
    + intros key. rewrite taken_snoc, Eu. cbn [andb]. destruct (no_attributes s) eqn:En; cbn [andb basePercentages].
      * destruct (String.eqb_spec (percentage_key s) key) as [<-|Hne].
        -- unfold base_of. by rewrite lookup_insert_eq.
        -- unfold base_of in *. rewrite lookup_insert_ne by done. rewrite Hb. lia.
      * rewrite Hb. lia.
  - assert (walk_ok (earlier ++ [s]) w) as Hw'.
    { split; [done|]. intros key. rewrite taken_snoc, Eu. cbn [andb]. rewrite Hb. lia. }
    destruct (Percentage s =? 0)%Z; cbn [andb].
    + destruct (negb (no_attributes s) && matches (Attributes s)); [done|by apply IH].
    + by apply IH.
Qed.
End apply.

(** What the code uses of Go's libraries, and the time of a call. *)
Record Libraries := MkLibraries {
  g_regexp : string -> string -> bool;
  g_float : Type; g_parse_float : string -> option g_float;
  g_flt : g_float -> g_float -> bool; g_feq : g_float -> g_float -> bool;
  g_parse_number : bool -> string -> option g_float;
  g_date : string -> option string; g_datetime : string -> option string;
  g_ip : Type; g_parse_ip : string -> option g_ip; g_ip_in : string -> g_ip -> bool
}.

Record Now := MkNow { now_date_text : string; now_datetime_text : string }.

Definition matches_at (L : Libraries) (now : Now) (context : client) (attributes : list strategyAttribute) : bool :=
  matchAttributes (g_regexp L) (g_parse_float L) (g_flt L) (g_feq L) (g_parse_number L) (g_date L) (g_datetime L)
    (g_parse_ip L) (g_ip_in L) (now_date_text now) (now_datetime_text now) context attributes.

Record featureState (V : Type) := MkFeature {
  FeatureID : string; FeatureKey : string; Locked : bool; Version : option Z; FeatureType : string;
  FeatureValue : V; Strategies : list (rolloutStrategy V)
}.
Arguments MkFeature {V}.
Arguments FeatureID {V}.
Arguments FeatureKey {V}.
Arguments Locked {V}.
Arguments Version {V}.
Arguments FeatureType {V}.
Arguments FeatureValue {V}.
Arguments Strategies {V}.

(** featureVersion *)
Definition featureVersion {V} (feature : option (featureState V)) : Z :=
  match feature with None => -1 | Some f => default (-1)%Z (Version f) end.

Definition applyStrategies {V} (L : Libraries) (feature : option (featureState V)) (context : client) (now : Now) :
    option V :=
  match feature with
  | None => None
  | Some f => apply_loop context (FeatureID f) (matches_at L now context) (Strategies f) (MkWalk None ∅)
  end.

(** ** Theorems *)

Lemma lxor_shift_range x k : (0 <= x < 2 ^ 32)%Z -> (0 <= k)%Z -> (0 <= Z.lxor x (Z.shiftr x k) < 2 ^ 32)%Z.
Proof.
  intros Hx Hk. assert (0 <= Z.shiftr x k)%Z as Hs by (apply Z.shiftr_nonneg; lia).
  assert (0 <= Z.lxor x (Z.shiftr x k))%Z as H0 by (apply Z.lxor_nonneg; lia). split; [done|].
  destruct (Z.eq_dec (Z.lxor x (Z.shiftr x k)) 0) as [->|Hne]; [lia|].
  apply Z.log2_lt_pow2; [lia|].
  assert (forall n, (32 <= n)%Z -> Z.testbit x n = false) as Hb.
  { intros n Hn. destruct (Z.eq_dec x 0) as [->|]; [apply Z.bits_0|]. apply Z.bits_above_log2; [lia|].
    assert (Z.log2 x < 32)%Z by (apply Z.log2_lt_pow2; lia). lia. }
  destruct (Z.lt_ge_cases (Z.log2 (Z.lxor x (Z.shiftr x k))) 32) as [|Hge]; [done|].
  pose proof (Z.bit_log2 (Z.lxor x (Z.shiftr x k)) ltac:(lia)) as Ht.
  rewrite Z.lxor_spec, Z.shiftr_spec, !Hb in Ht by lia. done.
Qed.

(** A client's percentage is a number of millionths below one million, so a
    strategy of 1000000 reaches everybody. *)
Theorem determineClientPercentage_range key featureID :
  (0 <= determineClientPercentage key featureID < maxPercentage)%Z.
Proof.
  unfold determineClientPercentage, maxPercentage.
  assert (0 <= murmurHash3 (key +:+ featureID) 0 < 2 ^ 32)%Z as H.
  { unfold murmurHash3, finish. apply lxor_shift_range; [|lia]. unfold mul32, wrap32u. apply Z.mod_pos_bound. lia. }
  set (hash := murmurHash3 _ _) in *. clearbody hash.
  split; [apply Z.div_pos; lia|]. apply Z.div_lt_upper_bound; lia.
Qed.

(** applyStrategies picks the first strategy that applies to the client,
    where a strategy's bucket starts after the shares the earlier strategies
    took of the same key: the remembered hash and the running bases of the
    loop change nothing, whatever keys the strategies use and in whatever
    order, and a strategy with attributes takes no share. *)
Theorem applyStrategies_first_qualifying {V} L (f : featureState V) context now :
  applyStrategies L (Some f) context now =
  first_qualifying context (FeatureID f) (matches_at L now context) [] (Strategies f).
Proof. apply apply_loop_first. split; [by intros k p|]. intros key. done. Qed.

(** Libraries that recognise nothing: the samples need none. *)
Definition no_libraries : Libraries :=
  MkLibraries (fun _ _ => false) unit (fun _ => None) (fun _ _ => false) (fun _ _ => true) (fun _ _ => None)
    (fun _ => None) (fun _ => None) unit (fun _ => None) (fun _ _ => false).

(** The second bucket starts where the first ends; a strategy with attributes
    has a bucket of its own. *)
Definition sample_feature : featureState string := MkFeature "feature-id" "colour" false (Some 1%Z) "STRING" "none"
  [MkStrategy 150000 [] [] "a"; MkStrategy 900000 [] [MkAttribute "EQUALS" "country" (Some [Some "india"]) "STRING"] "in";
   MkStrategy 60000 [] [] "b"; MkStrategy 1000000 [] [] "c"].

Example second_bucket :
  applyStrategies no_libraries (Some sample_feature) (<["userkey" := ["user-1"]]> ∅) (MkNow "" "") = Some "b".
Proof. vm_compute. reflexivity. Qed.

Example by_country :
  applyStrategies no_libraries (Some sample_feature) (<["country" := ["india"]]> (<["userkey" := ["user-1"]]> ∅))
    (MkNow "" "") = Some "in".
Proof. vm_compute. reflexivity. Qed.
