(* ===== verification/Registry.v ===== *)
(** * package instrumentation, the registry

    Register, ParseOptions, Start, rollback and Shutdown of
    instrumentation/registry.go.  Factories and hooks belong to the
    application: creating, starting and stopping one are events with their
    answers.  JSON is recognised by encoding/json, which the section is over;
    the mutexes have no state of their own. *)

From S2P Require Import Prelude.
From S2P Require Import GoStrings.

(** ** The registry *)

Record Registration := MkRegistration {
  Name : string; Aliases : list string; EnabledByDefault : bool; HasFactory : bool
}.

(** [byName] gives positions in [ordered]. *)
Record Registry := MkRegistry { byName : gmap string nat; ordered : list Registration }.

Definition NewRegistry : Registry := MkRegistry ∅ [].

Inductive inst_error :=
| ErrEmptyName | ErrNilFactory (name : string) | ErrEmptyAlias (name : string) | ErrRepeats (name alias : string)
| ErrTaken (alias owner : string) | ErrEmptyEntry | ErrBadConfig | ErrBadConfigFor (name : string)
| ErrNotRegistered (name : string) | ErrConfigNotRegistered (name : string) | ErrSameItem (first second item : string)
| ErrCreate (name : string) (cause : string) | ErrNilHook (name : string) | ErrStart (name : string) (cause : string)
| ErrStop (name : string) (cause : string) | ErrStopAfterStart (name : string) (cause : string)
| ErrJoined (errs : list inst_error).

Fixpoint check_names (owner : string) (seen : gset string) (names : list string) : result inst_error unit :=
  match names with
  | [] => Ok tt
  | n :: rest =>
      if String.eqb n EmptyString then Err (ErrEmptyAlias owner)
      else if bool_decide (n ∈ seen) then Err (ErrRepeats owner n)
      else check_names owner ({[n]} ∪ seen) rest
  end.

Definition name_at (r : Registry) (i : nat) : string :=
  match ordered r !! i with Some item => Name item | None => EmptyString end.

Fixpoint check_free (r : Registry) (names : list string) : result inst_error unit :=
  match names with
  | [] => Ok tt
  | n :: rest =>
      match byName r !! n with
      | Some i => Err (ErrTaken n (name_at r i))
      | None => check_free r rest
      end
  end.

Definition Register (reg : Registration) (r : Registry) : result inst_error Registry :=
  let name := trim_space (Name reg) in
  if String.eqb name EmptyString then Err ErrEmptyName
  else if negb (HasFactory reg) then Err (ErrNilFactory name)
  else
    let names := map trim_space (name :: Aliases reg) in
    let? _ := check_names name ∅ names in
    let? _ := check_free r names in
    Ok (MkRegistry (foldl (fun m n => <[n := length (ordered r)]> m) (byName r) names)
          (ordered r ++ [MkRegistration name (tail names) (EnabledByDefault reg) true])).

(** ** Options *)

Record Options := MkOptions { Extra : list string; Config : gmap string string }.

Section options.
(** json.Unmarshal into a map of raw messages; json.Valid. *)
Context (unmarshal : string -> option (gmap string string)) (json_valid : string -> bool).

Fixpoint parse_extra (items : list string) : result inst_error (list string) :=
  match items with
  | [] => Ok []
  | item :: rest =>
      let item := trim_space item in
      if String.eqb item EmptyString then Err ErrEmptyEntry
      else let? l := parse_extra rest in Ok (item :: l)
  end.

Definition config_bad (value : string) : bool := String.eqb value EmptyString || negb (json_valid value).

Definition ParseOptions (extraValue configValue : string) : result inst_error Options :=
  let? extra := (let raw := trim_space extraValue in
                 if String.eqb raw EmptyString then Ok [] else parse_extra (split "," raw)) in
  let raw := trim_space configValue in
  if String.eqb raw EmptyString then Ok (MkOptions extra ∅)
  else match unmarshal raw with
       | None => Err ErrBadConfig
       | Some config =>
           match List.find (fun kv => config_bad kv.2) (map_to_list config) with
           | Some (k, _) => Err (ErrBadConfigFor k)
           | None => Ok (MkOptions extra config)
           end
       end.

(** ** Start: what is selected and how it is configured *)

Fixpoint select_extra (r : Registry) (extra : list string) (selected : list nat) (names : gset string) :
    result inst_error (list nat) :=
  match extra with
  | [] => Ok selected
  | requested :: rest =>
      let requested := trim_space requested in
      match byName r !! requested with
      | None => Err (ErrNotRegistered requested)
      | Some i =>
          if bool_decide (name_at r i ∈ names) then select_extra r rest selected names
          else select_extra r rest (selected ++ [i]) ({[name_at r i]} ∪ names)
      end
  end.

(** The positions of the default registrations. *)
Fixpoint defaults_from (i : nat) (l : list Registration) : list nat :=
  match l with
  | [] => []
  | item :: rest => if EnabledByDefault item then i :: defaults_from (S i) rest else defaults_from (S i) rest
  end.

Definition select (r : Registry) (extra : list string) : result inst_error (list nat) :=
  let defaults := defaults_from 0 (ordered r) in
  select_extra r extra defaults (list_to_set (map (name_at r) defaults)).

(** Go ranges over the config map in an unspecified order; here it is the
    order of [map_to_list]. *)
Fixpoint normalize_config (r : Registry) (config : list (string * string)) (configured : gmap nat string)
    (normalized : gmap string string) : result inst_error (gmap string string) :=
  match config with
  | [] => Ok normalized
  | (key, value) :: rest =>
      let name := trim_space key in
      match byName r !! name with
      | None => Err (ErrConfigNotRegistered key)
      | Some i =>
          if config_bad value then Err (ErrBadConfigFor key)
          else match configured !! i with
               | Some previous => Err (ErrSameItem previous key (name_at r i))
               | None => normalize_config r rest (<[i := key]> configured) (<[name := value]> normalized)
               end
      end
  end.
End options.

Definition str_order (a b : string) : Prop := String.leb a b = true.
#[export] Instance str_order_dec : RelDecision str_order.
Proof. intros a b. unfold str_order. apply _. Defined.

Definition configFor (item : Registration) (configs : gmap string string) : string :=
  match configs !! Name item with
  | Some c => c
  | None => default "{}" (head (omap (fun alias => configs !! alias) (merge_sort str_order (Aliases item))))
  end.

(** ** Start and Shutdown *)

Inductive create_result := CreateFailed (cause : string) | CreateNil | Created (hook : nat).

Inductive ievent :=
| ICreate (name config : string) (r : create_result)
| IStart (name : string) (hook : nat) (r : option string)
| IShutdown (name : string) (hook : nat) (r : option string).

Record hooks := MkHooks {
  h_create : string -> string -> list ievent -> create_result;
  h_start : string -> nat -> list ievent -> option string;
  h_shutdown : string -> nat -> list ievent -> option string
}.

Record Manager := MkManager {
  started : list (string * nat); shutdownDone : bool; shutdownErr : list inst_error
}.

Definition Names (m : Manager) : list string := map fst (started m).

Section start.
Context (w : hooks).

(** The loop of Shutdown, from the last started hook to the first. *)
Fixpoint stop_all (l : list (string * nat)) : TM ievent (list inst_error) :=
  match l with
  | [] => tret []
  | (name, hook) :: rest =>
      let! r := call (h_shutdown w name hook) (IShutdown name hook) in
      let! errs := stop_all rest in
      tret (match r with Some e => ErrStop name e :: errs | None => errs end)
  end.

Definition Shutdown (m : Manager) : TM ievent (Manager * list inst_error) :=
  if shutdownDone m then tret (m, shutdownErr m)
  else
    let! errs := stop_all (rev (started m)) in
    tret (MkManager (started m) true errs, errs).

Definition rollback (m : Manager) (cause : list inst_error) : TM ievent inst_error :=
  let! r := Shutdown m in tret (ErrJoined (cause ++ r.2)).

Fixpoint start_all (r : Registry) (configs : gmap string string) (selected : list nat) (m : Manager) :
    TM ievent (result inst_error Manager) :=
  match selected with
  | [] => tret (Ok m)
  | i :: rest =>
      match ordered r !! i with
      | None => tret (Ok m)                       (* not a position of the registry *)
      | Some item =>
          let config := configFor item configs in
          let! c := call (h_create w (Name item) config) (ICreate (Name item) config) in
          match c with
          | CreateFailed e => let! err := rollback m [ErrCreate (Name item) e] in tret (Err err)
          | CreateNil => let! err := rollback m [ErrNilHook (Name item)] in tret (Err err)
          | Created hook =>
              let! s := call (h_start w (Name item) hook) (IStart (Name item) hook) in
              match s with
              | Some e =>
                  let! d := call (h_shutdown w (Name item) hook) (IShutdown (Name item) hook) in
                  let errs := ErrStart (Name item) e ::
                              match d with Some e' => [ErrStopAfterStart (Name item) e'] | None => [] end in
                  let! err := rollback m errs in tret (Err err)
              | None =>
                  start_all r configs rest
                    (MkManager (started m ++ [(Name item, hook)]) (shutdownDone m) (shutdownErr m))
              end
          end
      end
  end.

Definition Start (json_valid : string -> bool) (r : Registry) (o : Options) : TM ievent (result inst_error Manager) :=
  match select r (Extra o) with
  | Err e => tret (Err e)
  | Ok selected =>
      match normalize_config json_valid r (map_to_list (Config o)) ∅ ∅ with
      | Err e => tret (Err e)
      | Ok configs => start_all r configs selected (MkManager [] false [])
      end
  end.

(** The explicit configuration over that of the environment. *)
Fixpoint merge_config (json_valid : string -> bool) (explicit : list (string * string)) (config : gmap string string) :
    result inst_error (gmap string string) :=
  match explicit with
  | [] => Ok config
  | (key, value) :: rest =>
      if json_valid value then merge_config json_valid rest (<[key := value]> config) else Err (ErrBadConfigFor key)
  end.

Definition StartFromEnv (unmarshal : string -> option (gmap string string)) (json_valid : string -> bool)
    (env : string -> string) (r : Registry) (explicit : Options) : TM ievent (result inst_error Manager) :=
  match ParseOptions unmarshal json_valid (env "TRACECLUE_EXTRA_INSTRUMENTATIONS")
          (env "TRACECLUE_INSTRUMENTATION_CONFIGS") with
  | Err e => tret (Err e)
  | Ok environment =>
      match merge_config json_valid (map_to_list (Config explicit)) (Config environment) with
      | Err e => tret (Err e)
      | Ok config => Start json_valid r (MkOptions (Extra environment ++ Extra explicit) config)
      end
  end.
End start.

(** ** Registering keeps the registry consistent *)

(** The names a registration answers to. *)
Definition item_names (item : Registration) : list string := trim_space (Name item) :: Aliases item.

(** Every registered name leads to the one registration it is a name of. *)
Definition registry_ok (r : Registry) : Prop :=
  forall n i, byName r !! n = Some i <-> exists item, ordered r !! i = Some item /\ n ∈ item_names item.

Lemma check_names_ok owner seen names :
  check_names owner seen names = Ok tt ->
  NoDup names /\ (forall n, n ∈ names -> n ∉ seen) /\ EmptyString ∉ names.
Proof.
  revert seen. induction names as [|n names IH]; intros seen; cbn.
  { intros _. split_and!; [constructor|intros n Hn; by apply not_elem_of_nil in Hn|apply not_elem_of_nil]. }
  destruct (String.eqb_spec n EmptyString); [done|]. case_bool_decide; [done|].
  intros (Hn & Hs & He)%IH. split_and!; [constructor; [|done]|..]; set_solver.
Qed.

Lemma check_free_ok r names : check_free r names = Ok tt -> forall n, n ∈ names -> byName r !! n = None.
Proof.
  induction names as [|n names IH]; cbn; [set_solver|]. destruct (byName r !! n) eqn:E; [done|].
  intros H m [->|Hm]%elem_of_cons; [done|by apply IH].
Qed.

Lemma insert_names_lookup (i : nat) names (m : gmap string nat) n :
  foldl (fun m n => <[n := i]> m) m names !! n = if bool_decide (n ∈ names) then Some i else m !! n.
Proof.
  revert m. induction names as [|a names IH]; intros m; cbn [foldl].
  - by rewrite bool_decide_eq_false_2 by set_solver.
  - rewrite IH. destruct (decide (n ∈ names)) as [Hin|Hin].
    + rewrite !bool_decide_eq_true_2 by set_solver. done.
    + rewrite (bool_decide_eq_false_2 (n ∈ names)) by done. destruct (decide (n = a)) as [->|Hne].
      * rewrite lookup_insert_eq, bool_decide_eq_true_2 by set_solver. done.
      * rewrite lookup_insert_ne by done. rewrite bool_decide_eq_false_2 by set_solver. done.
Qed.

Lemma Register_inv reg r r' :
  Register reg r = Ok r' ->
  exists item, item_names item = map trim_space (trim_space (Name reg) :: Aliases reg) /\
    NoDup (item_names item) /\ EmptyString ∉ item_names item /\
    (forall n, n ∈ item_names item -> byName r !! n = None) /\
    ordered r' = ordered r ++ [item] /\
    byName r' = foldl (fun m n => <[n := length (ordered r)]> m) (byName r) (item_names item).
Proof.
  unfold Register. destruct (String.eqb (trim_space (Name reg)) EmptyString); [done|].
  destruct (negb (HasFactory reg)); [done|].
  destruct (check_names _ _ _) as [[]|] eqn:Ec; [|done].
  destruct (check_free r _) as [[]|] eqn:Ef; [|done]. intros [= <-].
  apply check_names_ok in Ec as (Hn & _ & He).
  exists (MkRegistration (trim_space (Name reg)) (map trim_space (Aliases reg)) (EnabledByDefault reg) true).
  split_and!; try done. by apply check_free_ok.
Qed.

Lemma Register_ok reg r r' : registry_ok r -> Register reg r = Ok r' -> registry_ok r'.
Proof.
  intros Hr (item & _ & _ & _ & Hfree & Eo & Eb)%Register_inv n i.
  rewrite Eo, Eb, insert_names_lookup. destruct (decide (n ∈ item_names item)) as [Hin|Hin].
  - rewrite bool_decide_eq_true_2 by done. split.
    + intros [= <-]. exists item. by rewrite list_lookup_middle.
    + intros (item' & [Hi|[Hge Hi]]%lookup_app_Some & Hin').
      * pose proof (proj2 (Hr n i) (ex_intro _ item' (conj Hi Hin'))) as H. by rewrite (Hfree n Hin) in H.
      * apply list_lookup_singleton_Some in Hi as [Hz _]. f_equal. lia.
  - rewrite bool_decide_eq_false_2 by done. rewrite (Hr n i). split.
    + intros (item' & Hi & Hin'). exists item'. split; [|done]. by apply lookup_app_l_Some.
    + intros (item' & [Hi|[Hge Hi]]%lookup_app_Some & Hin'); [by exists item'|].
      by apply list_lookup_singleton_Some in Hi as [_ <-].
Qed.

(** ** A start is all or nothing *)

(** The hooks whose Start was called, and those whose Shutdown was, in order. *)
Definition start_event (e : ievent) : option (string * nat) :=
  match e with IStart name hook _ => Some (name, hook) | _ => None end.
Definition stop_event (e : ievent) : option (string * nat) :=
  match e with IShutdown name hook _ => Some (name, hook) | _ => None end.

Definition starts (t : list ievent) : list (string * nat) := omap start_event t.
Definition stops (t : list ievent) : list (string * nat) := omap stop_event t.

Section start_proofs.
Context (w : hooks).

Lemma stop_all_events l h t errs : stop_all w l h = (t, errs) -> starts t = [] /\ stops t = l.
Proof.
  revert h t errs. induction l as [|[name hook] l IH]; intros h t errs; cbn [stop_all].
  - by intros [-> _]%tret_inv.
  - intros (t1 & r & t2 & [_ ->]%call_inv & E & ->)%tbind_inv.
    apply tbind_inv in E as (t3 & es & t4 & E & [-> _]%tret_inv & ->).
    destruct (IH _ _ _ E) as [Hs Hp]. unfold starts, stops in *. cbn. rewrite app_nil_r. by rewrite Hs, Hp.
Qed.

Lemma rollback_events m cause h t err :
  shutdownDone m = false -> rollback w m cause h = (t, err) -> starts t = [] /\ stops t = rev (started m).
Proof.
  intros Hd (t1 & [m' errs] & t2 & E & [-> _]%tret_inv & ->)%tbind_inv. rewrite app_nil_r.
  unfold Shutdown in E. rewrite Hd in E.
  apply tbind_inv in E as (t3 & es & t4 & E & [-> _]%tret_inv & ->). rewrite app_nil_r.
  by eapply stop_all_events.
Qed.

Definition item_name (r : Registry) (i : nat) : option string := Name <$> ordered r !! i.

(** From a manager with some hooks started: success keeps them and adds one
    per selected registration; a failure stops what it started and them. *)
Lemma start_all_events r configs selected m h t res :
  Forall (fun i => is_Some (ordered r !! i)) selected -> shutdownDone m = false ->
  start_all w r configs selected m h = (t, res) ->
  match res with
  | Ok m' => stops t = [] /\ started m' = started m ++ starts t /\ shutdownDone m' = false /\
             map fst (starts t) = map (name_at r) selected
  | Err _ => stops t = rev (started m ++ starts t)
  end.
Proof.
  intros Hsel. revert m h t res. induction Hsel as [|i selected [item Hi] Hsel IH]; intros m h t res Hd;
    cbn [start_all].
  { intros [-> ->]%tret_inv. cbn. by rewrite app_nil_r. }
  rewrite Hi. intros (t1 & c & t2 & [_ ->]%call_inv & E & ->)%tbind_inv.
  destruct c as [e| |hook].
  1, 2: apply tbind_inv in E as (t3 & err & t4 & E & [-> ->]%tret_inv & ->);
    apply rollback_events in E as [Hs Hp]; [|done]; unfold starts, stops in *; cbn;
    rewrite !app_nil_r, Hs, Hp; by rewrite app_nil_r.
  apply tbind_inv in E as (t3 & s & t4 & [_ ->]%call_inv & E & ->). destruct s as [e|].
  - apply tbind_inv in E as (t5 & d & t6 & [_ ->]%call_inv & E & ->).
    apply tbind_inv in E as (t7 & err & t8 & E & [-> ->]%tret_inv & ->).
    apply rollback_events in E as [Hs Hp]; [|done]. unfold starts, stops in *. cbn.
    rewrite !app_nil_r, Hs, Hp. by rewrite rev_app_distr.
  - apply IH in E; [|done]. cbn [started shutdownDone] in E. unfold starts, stops in *. cbn.
    destruct res as [m'|e].
    + destruct E as (Hp & Hs & Hd' & Hn). rewrite Hp, Hs, <- app_assoc. split_and!; try done.
      rewrite Hn. f_equal. unfold name_at. by rewrite Hi.
    + rewrite E. by rewrite <- app_assoc.
Qed.
End start_proofs.

(** ** The selection *)

Definition position (r : Registry) (i : nat) : Prop := is_Some (ordered r !! i).

Lemma name_at_inj r i j : registry_ok r -> position r i -> position r j -> name_at r i = name_at r j -> i = j.
Proof.
  intros Hr [a Ha] [b Hb]. unfold name_at. rewrite Ha, Hb. intros E.
  assert (byName r !! trim_space (Name a) = Some i) as H1
    by (apply Hr; exists a; split; [done|apply list_elem_of_here]).
  assert (byName r !! trim_space (Name b) = Some j) as H2
    by (apply Hr; exists b; split; [done|apply list_elem_of_here]).
  rewrite E in H1. congruence.
Qed.

Lemma defaults_from_spec i l : Forall (fun k => i <= k /\ is_Some (l !! (k - i))) (defaults_from i l) /\ NoDup (defaults_from i l).
Proof.
  revert i. induction l as [|item l IH]; intros i; cbn [defaults_from]; [split; constructor|].
  destruct (IH (S i)) as [Hf Hn].
  assert (Forall (fun k => i <= k /\ is_Some ((item :: l) !! (k - i))) (defaults_from (S i) l)) as Hf'.
  { eapply Forall_impl; [exact Hf|]. intros k [Hk Hs]. split; [lia|].
    by replace (k - i) with (S (k - S i)) by lia. }
  destruct (EnabledByDefault item); [|done]. split.
  - constructor; [|done]. split; [lia|]. rewrite Nat.sub_diag. by eexists.
  - constructor; [|done]. intros Hin. rewrite Forall_forall in Hf. destruct (Hf _ Hin). lia.
Qed.

Lemma select_extra_ok r extra selected names result :
  registry_ok r ->
  Forall (position r) selected -> NoDup (map (name_at r) selected) ->
  (forall n, n ∈ names <-> n ∈ map (name_at r) selected) ->
  select_extra r extra selected names = Ok result ->
  Forall (position r) result /\ NoDup (map (name_at r) result) /\ selected `prefix_of` result.
Proof.
  intros Hr. revert selected names. induction extra as [|e extra IH]; intros selected names Hp Hn Hs; cbn.
  { by intros [= <-]. }
  destruct (byName r !! trim_space e) as [i|] eqn:E; [|done]. case_bool_decide as Hin; [by apply IH|].
  apply Hr in E as (item & Hi & _). intros H. apply IH in H as (? & ? & Hpre).
  - split_and!; [done|done|]. etrans; [|exact Hpre]. by apply prefix_app_r.
  - apply Forall_app. split; [done|]. constructor; [by exists item|done].
  - rewrite map_app. apply NoDup_app. split_and!; [done| |apply NoDup_singleton].
    intros x Hx ->%list_elem_of_singleton. by apply Hin, Hs.
  - intros n. rewrite map_app. cbn. rewrite elem_of_union, elem_of_app, elem_of_singleton, list_elem_of_singleton, Hs. tauto.
Qed.

Lemma select_ok r extra selected :
  registry_ok r -> select r extra = Ok selected ->
  Forall (position r) selected /\ NoDup (map (name_at r) selected) /\ defaults_from 0 (ordered r) `prefix_of` selected.
Proof.
  intros Hr. unfold select. destruct (defaults_from_spec 0 (ordered r)) as [Hf Hn].
  assert (Forall (position r) (defaults_from 0 (ordered r))) as Hp.
  { eapply Forall_impl; [exact Hf|]. intros k [_ Hk]. by rewrite Nat.sub_0_r in Hk. }
  apply select_extra_ok; [done|done| |].
  - apply NoDup_fmap_2_strong; [|done]. intros i j Hi Hj. rewrite Forall_forall in Hp. apply name_at_inj; auto.
  - intros n. by rewrite elem_of_list_to_set.
Qed.

(** The registries a program can build. *)
Fixpoint register_all (regs : list Registration) (r : Registry) : result inst_error Registry :=
  match regs with
  | [] => Ok r
  | reg :: rest => let? r' := Register reg r in register_all rest r'
  end.

Lemma register_all_ok regs r r' : registry_ok r -> register_all regs r = Ok r' -> registry_ok r'.
Proof.
  revert r. induction regs as [|reg regs IH]; intros r Hr; cbn; [by intros [= <-]|].
  destruct (Register reg r) as [r1|] eqn:E; [|done]. apply IH. by eapply Register_ok.
Qed.

Lemma NewRegistry_ok : registry_ok NewRegistry.
Proof. intros n i. split; [done|]. by intros (item & Hi & _). Qed.

(** C40: Starting is all or nothing, whatever factories and hooks answer: when
    Start fails, every hook it started (the one whose start failed first) has
    been shut down once, in reverse order; when it succeeds, nothing was shut
    down, one hook runs per selected registration, the default ones first and
    none twice, and Shutdown stops exactly those, once, in reverse order, a
    second Shutdown calling nothing. *)
Theorem Start_all_or_nothing w json_valid regs r o h t res :
  register_all regs NewRegistry = Ok r ->
  Start w json_valid r o h = (t, res) ->
  match res with
  | Err _ => stops t = rev (starts t)
  | Ok m =>
      stops t = [] /\ started m = starts t /\ NoDup (Names m) /\
      (exists selected, select r (Extra o) = Ok selected /\ Names m = map (name_at r) selected /\
         defaults_from 0 (ordered r) `prefix_of` selected) /\
      forall h' t' m' errs, Shutdown w m h' = (t', (m', errs)) ->
        starts t' = [] /\ stops t' = rev (starts t) /\ forall h'', Shutdown w m' h'' = ([], (m', errs))
  end.
Proof.
  intros Hregs. pose proof (register_all_ok _ _ _ NewRegistry_ok Hregs) as Hr. unfold Start.
  destruct (select r (Extra o)) as [selected|e] eqn:Es; [|by intros [-> ->]%tret_inv].
  destruct (normalize_config _ _ _ _ _) as [configs|e]; [|by intros [-> ->]%tret_inv].
  destruct (select_ok _ _ _ Hr Es) as (Hp & Hn & Hd). intros E. apply start_all_events in E; [|done|done].
  destruct res as [m|e]; [|done]. cbn [started shutdownDone app] in E. destruct E as (Hstop & Hst & Hdone & Hnames).
  assert (Names m = map (name_at r) selected) as En by (unfold Names; by rewrite Hst).
  split_and!; [done|done|by rewrite En|by exists selected|].
  intros h' t' m' errs. unfold Shutdown. rewrite Hdone. rewrite <- Hst.
  intros (t1 & es & t2 & E & [-> [= -> ->]]%tret_inv & ->)%tbind_inv. rewrite app_nil_r.
  apply stop_all_events in E as [-> ->]. done.
Qed.

Definition sample_registrations : list Registration :=
  [MkRegistration "http" ["@otel/http:Http"] true true; MkRegistration "redis" [] false true;
   MkRegistration "mongo" [] true true].

(** Every hook starts but the one of mongo. *)
Definition sample_hooks : hooks :=
  MkHooks (fun name _ _ => Created (String.length name))
          (fun name _ _ => if String.eqb name "mongo" then Some "refused" else None) (fun _ _ _ => None).

Definition failed_start := Start sample_hooks (fun _ => true)
  (match register_all sample_registrations NewRegistry with Ok r => r | Err _ => NewRegistry end)
  (MkOptions ["redis"] ∅) [].

Lemma Start_all_or_nothing_witness :
  starts failed_start.1 = [("http", 4); ("mongo", 5)] /\ stops failed_start.1 = rev (starts failed_start.1).
Proof.
  split; [vm_compute; reflexivity|].
  exact (Start_all_or_nothing sample_hooks (fun _ => true) sample_registrations
    (match register_all sample_registrations NewRegistry with Ok r => r | Err _ => NewRegistry end)
    (MkOptions ["redis"] ∅) [] failed_start.1 (Err (ErrJoined [ErrStart "mongo" "refused"]))
    ltac:(vm_compute; reflexivity) ltac:(vm_compute; reflexivity)).
Defined.
