(* ===== verification/KafkaErrors.v ===== *)
(** * package kafka, consumer errors and rewind plans

    The error values of kafka/consumer.go and the plan a failed run reads off
    them: which offset of which partition has to be fetched again.  An error is
    a tree, as errors.Is, errors.As and errors.Join see it; two error values
    are one when their trees are. *)

From S2P Require Import Prelude.
From S2P Require Import GoStrings.

(** ** Positions *)

(** consumerRecordPosition *)
Record position := MkPosition {
  p_topic : string;
  p_partition : Z;
  p_offset : Z;
  p_leaderEpoch : Z
}.

#[export] Instance position_eq_dec : EqDecision position.
Proof. solve_decision. Defined.

(** A topic with a partition number. *)
Abbreviation tp := (string * Z)%type.
Definition tp_of (p : position) : tp := (p_topic p, p_partition p).

(** The loop body both planners share: keep the earliest offset of a partition,
    in the place its first position took. *)
Fixpoint add_position (p : position) (l : list position) : list position :=
  match l with
  | [] => [p]
  | q :: rest =>
      if bool_decide (tp_of q = tp_of p)
      then (if (p_offset p <? p_offset q)%Z then p else q) :: rest
      else q :: add_position p rest
  end.

Definition mergeConsumerRewindPositions (current added : list position) : list position :=
  foldl (fun merged p => add_position p merged) current added.

(** The order of sort.Slice in consumerRewindPositions. *)
Definition position_le (a b : position) : Prop :=
  if bool_decide (p_topic a = p_topic b) then (p_partition a <= p_partition b)%Z
  else (p_topic a ≤ p_topic b)%string.

#[export] Instance position_le_dec : RelDecision position_le.
Proof. intros a b. unfold position_le. destruct (bool_decide _); apply _. Defined.

(** ** Error values *)

(** Errors that wrap nothing.  [Other] stands for every error of the
    application, the driver and the library that the code does not name. *)
Inductive sentinel :=
| Canceled                  (* context.Canceled *)
| DeadlineExceeded          (* context.DeadlineExceeded *)
| UnresolvedRewound         (* errKafkaJSUnresolvedRecordRewound *)
| WorkerAborted             (* errConsumerWorkerAborted *)
| UnknownMemberID           (* kerr.UnknownMemberID *)
| IllegalGeneration         (* kerr.IllegalGeneration *)
| RebalanceInProgress       (* kerr.RebalanceInProgress *)
| NetError (text : string)  (* a value that implements net.Error *)
| Other (text : string).

#[export] Instance sentinel_eq_dec : EqDecision sentinel.
Proof. solve_decision. Defined.

Inductive gerr :=
| ELeaf (s : sentinel)
| EWrap (message : string) (cause : gerr)                (* fmt.Errorf with %w *)
| EJoin (errs : list gerr)                               (* errors.Join *)
| ETransient (cause : gerr)                              (* TransientConsumerError *)
| EHandler (message : string) (cause : gerr) (failed : option position)  (* consumerHandlerError *)
| ERewind (cause : gerr) (failed : position)             (* consumerRewindError *)
| EPollRewind (cause : gerr) (positions : list position) (* kafkaJSPollRewindError *)
| EAborted (failed : option position)                    (* consumerWorkerAbortedError *)
| EExactCommit (cause : gerr).                           (* exactOffsetCommitError *)

(** Induction with the hypothesis for every joined error. *)
Lemma gerr_ind' (P : gerr -> Prop) :
  (forall s, P (ELeaf s)) -> (forall m c, P c -> P (EWrap m c)) ->
  (forall es, Forall P es -> P (EJoin es)) -> (forall c, P c -> P (ETransient c)) ->
  (forall m c f, P c -> P (EHandler m c f)) -> (forall c f, P c -> P (ERewind c f)) ->
  (forall c ps, P c -> P (EPollRewind c ps)) -> (forall f, P (EAborted f)) ->
  (forall c, P c -> P (EExactCommit c)) -> forall e, P e.
Proof.
  intros Hl Hw Hj Ht Hh Hr Hp Ha Hx.
  fix IH 1. intros [s|m c|es|c|m c f|c f|c ps|f|c].
  - apply Hl.
  - apply Hw, IH.
  - apply Hj. induction es as [|e es IHes]; constructor; [apply IH|exact IHes].
  - apply Ht, IH.
  - apply Hh, IH.
  - apply Hr, IH.
  - apply Hp, IH.
  - apply Ha.
  - apply Hx, IH.
Qed.

(** errors.Is and errors.As search the tree in the same way: a node satisfies
    [here], or something it wraps or joins does. *)
Fixpoint exists_in (here : gerr -> bool) (e : gerr) : bool :=
  here e ||
  match e with
  | ELeaf _ => false
  | EWrap _ c | ETransient c | EHandler _ c _ | ERewind c _ | EPollRewind c _ | EExactCommit c =>
      exists_in here c
  | EJoin es => existsb (exists_in here) es
  | EAborted _ => here (ELeaf WorkerAborted)
  end.

Definition is_sentinel (s : sentinel) (e : gerr) : bool :=
  match e with ELeaf t => bool_decide (t = s) | _ => false end.

(** errors.Is against a variable of a package. *)
Definition errors_Is (e : gerr) (s : sentinel) : bool := exists_in (is_sentinel s) e.

(** Identity of error values. *)
Fixpoint gerr_eqb (a b : gerr) : bool :=
  match a, b with
  | ELeaf s, ELeaf t => bool_decide (s = t)
  | EWrap m c, EWrap m' c' => String.eqb m m' && gerr_eqb c c'
  | EJoin es, EJoin es' =>
      (fix all (l l' : list gerr) : bool :=
         match l, l' with
         | [], [] => true
         | x :: r, y :: r' => gerr_eqb x y && all r r'
         | _, _ => false
         end) es es'
  | ETransient c, ETransient c' => gerr_eqb c c'
  | EHandler m c f, EHandler m' c' f' => String.eqb m m' && gerr_eqb c c' && bool_decide (f = f')
  | ERewind c f, ERewind c' f' => gerr_eqb c c' && bool_decide (f = f')
  | EPollRewind c ps, EPollRewind c' ps' => gerr_eqb c c' && bool_decide (ps = ps')
  | EAborted f, EAborted f' => bool_decide (f = f')
  | EExactCommit c, EExactCommit c' => gerr_eqb c c'
  | _, _ => false
  end.

(** errors.Is against an error value. *)
Definition errors_Is_value (e target : gerr) : bool := exists_in (fun x => gerr_eqb x target) e.

Definition IsTransientConsumerError (e : gerr) : bool :=
  exists_in (fun x => match x with ETransient _ => true | _ => false end) e.

Definition NewTransientConsumerError (e : gerr) : gerr :=
  if IsTransientConsumerError e then e else ETransient e.

(** errors.As with an exactOffsetCommitError target. *)
Definition isExactOffsetCommitError (e : gerr) : bool :=
  exists_in (fun x => match x with EExactCommit _ => true | _ => false end) e.

Definition isConsumerHandlerError (e : gerr) : bool :=
  exists_in (fun x => match x with EHandler _ _ _ => true | _ => false end) e.

(** net.Error is an interface; context.DeadlineExceeded implements it. *)
Definition is_net_error (e : gerr) : bool :=
  exists_in (fun x => match x with ELeaf (NetError _) | ELeaf DeadlineExceeded => true | _ => false end) e.

(** onlyCancellation of isConsumerRunCancellation, for the error
    context.Canceled a cancelled run context ends with. *)
Fixpoint onlyCancellation (e : gerr) : bool :=
  match e with
  | ELeaf s => bool_decide (s = Canceled)
  | EJoin es => match es with [] => false | _ => forallb onlyCancellation es end
  | EWrap _ c | ETransient c | EHandler _ c _ | ERewind c _ | EPollRewind c _ | EExactCommit c =>
      onlyCancellation c
  | EAborted _ => false
  end.

Definition isConsumerRunCancellation (ctx_done : bool) (e : gerr) : bool := ctx_done && onlyCancellation e.

(** ** Rewind plans *)

(** The positions of the first planner on each branch, in the order of the
    walk. *)
Fixpoint plan (e : gerr) : list position :=
  match e with
  | ELeaf _ => []
  | EWrap _ c | ETransient c | EExactCommit c => plan c
  | EJoin es => flat_map plan es
  | EHandler _ _ failed | EAborted failed => match failed with Some p => [p] | None => [] end
  | ERewind _ failed => [failed]
  | EPollRewind _ positions => positions
  end.

Fixpoint decided (e : gerr) : bool :=
  match e with
  | ELeaf _ => false
  | EWrap _ c | ETransient c | EExactCommit c => decided c
  | EJoin es => existsb decided es
  | EHandler _ _ _ | EAborted _ | ERewind _ _ | EPollRewind _ _ => true
  end.

(** consumerRewindPositions *)
Definition consumerRewindPositions (e : gerr) : list position * bool :=
  (merge_sort position_le (mergeConsumerRewindPositions [] (plan e)), decided e).

Definition newConsumerHandlerError (message : string) (cause : gerr) : gerr := EHandler message cause None.
Definition newConsumerHandlerErrorAt (message : string) (cause : gerr) (p : position) : gerr :=
  EHandler message cause (Some p).

Definition newConsumerCommittedHandlerError (message : string) (cause : gerr) (next : option position) : gerr :=
  match next with
  | None => newConsumerHandlerError message cause
  | Some n => ERewind (newConsumerHandlerError message cause) n
  end.

Definition withConsumerRewindPosition (e : option gerr) (p : position) : option gerr :=
  match e with
  | None => None
  | Some e => if (consumerRewindPositions e).2 then Some e else Some (ERewind e p)
  end.

(** isKafkaJSGroupRejoinError *)
Definition isKafkaJSGroupRejoinError (e : gerr) : bool :=
  errors_Is e UnknownMemberID || errors_Is e IllegalGeneration || errors_Is e RebalanceInProgress.

(** classifyKafkaJSTransientConsumerError; [IsRetriable] is kerr.IsRetriable of
    the driver. *)
Definition classifyKafkaJSTransientConsumerError (IsRetriable : gerr -> bool) (e : gerr) : gerr :=
  if IsTransientConsumerError e || errors_Is e Canceled then e
  else if IsRetriable e || isKafkaJSGroupRejoinError e || errors_Is e DeadlineExceeded
  then NewTransientConsumerError e
  else if is_net_error e then NewTransientConsumerError e
  else e.

(** ** The plan keeps the earliest offset of every partition *)

(** [earliest l q]: [q] is the entry of its partition with the smallest offset
    in [l], the first of those with that offset. *)
Definition earliest (l : list position) (q : position) : Prop :=
  q ∈ l /\ forall p, p ∈ l -> tp_of p = tp_of q -> (p_offset q <= p_offset p)%Z.

Lemma add_position_tps p l :
  tp_of <$> add_position p l =
    if bool_decide (tp_of p ∈ tp_of <$> l) then tp_of <$> l else (tp_of <$> l) ++ [tp_of p].
Proof.
  induction l as [|q l IH]; [done|]. cbn [add_position fmap list_fmap].
  destruct (decide (tp_of q = tp_of p)) as [E|E].
  - rewrite (bool_decide_true (tp_of q = tp_of p)), bool_decide_true by (done || (rewrite E; left)).
    cbn. rewrite E. by destruct (_ <? _)%Z; [|rewrite E].
  - rewrite (bool_decide_false (tp_of q = tp_of p)) by done. cbn. rewrite IH.
    destruct (decide (tp_of p ∈ tp_of <$> l)) as [H|H].
    + by rewrite !bool_decide_true by (rewrite ?elem_of_cons; auto).
    + by rewrite !bool_decide_false by (rewrite ?elem_of_cons; intuition congruence).
Qed.

Lemma add_position_nodup p l : NoDup (tp_of <$> l) -> NoDup (tp_of <$> add_position p l).
Proof.
  intros H. rewrite add_position_tps. case_bool_decide as E; [done|].
  apply NoDup_app. split_and!; [done| |apply NoDup_singleton].
  intros x Hx ->%list_elem_of_singleton. done.
Qed.

Lemma add_position_in q p l : q ∈ add_position p l -> q = p \/ q ∈ l.
Proof.
  induction l as [|r l IH]; cbn; [intros ->%list_elem_of_singleton; by left|].
  case_bool_decide; rewrite elem_of_cons.
  - destruct (_ <? _)%Z; intros [->|?]; rewrite ?elem_of_cons; auto.
  - intros [->|[->|?]%IH]; rewrite ?elem_of_cons; auto.
Qed.

(** What was there is still there, or something earlier of its partition. *)
Lemma add_position_covers q p l :
  q = p \/ q ∈ l ->
  exists r, r ∈ add_position p l /\ tp_of r = tp_of q /\ (p_offset r <= p_offset q)%Z.
Proof.
  induction l as [|r l IH]; cbn; intros Hq.
  { destruct Hq as [->|[]%elem_of_nil]. exists p. by rewrite list_elem_of_singleton. }
  case_bool_decide as E.
  - destruct (Z.ltb_spec (p_offset p) (p_offset r)) as [Hlt|Hge].
    + destruct Hq as [->|[->|Hq]%elem_of_cons].
      * exists p. split; [by left|done].
      * exists p. split_and!; [by left|done|lia].
      * exists q. split; [by right|done].
    + destruct Hq as [->|Hq]; [exists r; split_and!; [by left|done|lia]|].
      exists q. done.
  - destruct Hq as [->|[->|Hq]%elem_of_cons].
    + destruct IH as (x & Hx & ?); [by left|]. exists x. split; [by right|done].
    + exists r. split; [by left|done].
    + destruct IH as (x & Hx & ?); [by right|]. exists x. split; [by right|done].
Qed.

Section merge.
Implicit Types l added : list position.

Lemma merge_nodup l added :
  NoDup (tp_of <$> l) -> NoDup (tp_of <$> mergeConsumerRewindPositions l added).
Proof. revert l. induction added as [|p added IH]; intros l H; [done|]. by apply IH, add_position_nodup. Qed.

Lemma merge_in l added q :
  q ∈ mergeConsumerRewindPositions l added -> q ∈ l \/ q ∈ added.
Proof.
  revert l. induction added as [|p added IH]; intros l H; [by left|].
  apply IH in H as [[->|?]%add_position_in|?]; rewrite ?elem_of_cons; auto.
Qed.

Lemma merge_covers l added q :
  q ∈ l \/ q ∈ added ->
  exists r, r ∈ mergeConsumerRewindPositions l added /\ tp_of r = tp_of q /\ (p_offset r <= p_offset q)%Z.
Proof.
  revert l q. induction added as [|p added IH]; intros l q Hq.
  { destruct Hq as [Hq|[]%elem_of_nil]. by exists q. }
  cbn. destruct Hq as [Hq|[->|Hq]%elem_of_cons].
  - destruct (add_position_covers q p l) as (r & Hr & Et & Ho); [by right|].
    destruct (IH _ r (or_introl Hr)) as (x & ? & ? & ?). exists x. split_and!; [done|congruence|lia].
  - destruct (add_position_covers p p l) as (r & Hr & Et & Ho); [by left|].
    destruct (IH _ r (or_introl Hr)) as (x & ? & ? & ?). exists x. split_and!; [done|congruence|lia].
  - by apply IH; right.
Qed.
End merge.

(** Only a planner names positions. *)
Lemma plan_decided p e : p ∈ plan e -> decided e = true.
Proof.
  induction e as [s|m c IH|es IH|c IH|m c f IH|c f IH|c ps IH|f|c IH] using gerr_ind'; cbn; try done;
    [by intros ?%elem_of_nil|].
  intros (x & Hx & Hp)%list_elem_of_In%in_flat_map. apply existsb_exists. exists x. split; [done|].
  rewrite Forall_forall in IH. apply IH; by apply list_elem_of_In.
Qed.

Lemma position_le_trans : Transitive position_le.
Proof.
  intros a b c. unfold position_le. repeat case_bool_decide; try congruence; [lia|..].
  - intros Hle1 Hle2. assert (p_topic a = p_topic b) as E; [|congruence].
    apply (anti_symm String.le); [done|].
    by assert (p_topic a = p_topic c) as -> by congruence.
  - intros ??. by etrans.
Qed.

Lemma position_le_total : Total position_le.
Proof.
  intros a b. unfold position_le. repeat case_bool_decide; try congruence; [lia|].
  apply (total String.le).
Qed.

(** The plan read off a tree of joined and wrapped errors names each
    partition once, in order, and for each partition a planner of the tree
    names it is the earliest offset any of them asks for: no failed record of
    a sibling worker is lost behind a later one. *)
Theorem rewind_plan_earliest e :
  let positions := (consumerRewindPositions e).1 in
  NoDup (tp_of <$> positions) /\ StronglySorted position_le positions /\
  (forall q, q ∈ positions -> earliest (plan e) q) /\
  (forall p, p ∈ plan e -> exists q, q ∈ positions /\ tp_of q = tp_of p /\ (p_offset q <= p_offset p)%Z).
Proof.
  cbn. set (m := mergeConsumerRewindPositions [] (plan e)).
  assert (NoDup (tp_of <$> m)) as Hn by apply merge_nodup, NoDup_nil_2.
  pose proof (merge_sort_Permutation position_le m) as Hp.
  assert (forall p, p ∈ plan e -> exists q, q ∈ m /\ tp_of q = tp_of p /\ (p_offset q <= p_offset p)%Z) as Hc.
  { intros p Hin. apply merge_covers. by right. }
  split_and!.
  - by rewrite Hp.
  - apply StronglySorted_merge_sort; [apply position_le_trans|apply position_le_total].
  - intros q Hq. rewrite Hp in Hq. split; [by apply merge_in in Hq as [[]%elem_of_nil|?]|].
    intros p Hin Et. destruct (Hc p Hin) as (r & Hr & Er & Ho).
    assert (r = q) as ->; [|done].
    apply list_elem_of_lookup in Hr as [i Hi]. apply list_elem_of_lookup in Hq as [j Hj].
    assert (i = j) as ->; [|congruence].
    eapply NoDup_lookup; [exact Hn|..]; rewrite list_lookup_fmap;
      [rewrite Hi|rewrite Hj]; cbn; [reflexivity|congruence].
  - intros p Hin. setoid_rewrite Hp. by apply Hc.
Qed.
