(* ===== verification/KafkaWorker.v ===== *)
(** * package kafka, the workers of the KafkaJS-compatible consumer

    What kafka/franz_kafkajs2_compat_consumer.go does with the records of one
    poll: a worker per topic partition runs the application's handler and
    finalizer and moves the offsets through the driver.  Driver and application
    are a [world] that answers from the history of the calls of this worker; a
    call that ends its goroutine (runtime.Goexit) is an answer too.  Workers
    share no state they read, so a wave of workers is every interleaving of
    their calls. *)

From S2P Require Import Prelude.
From S2P Require Import GoStrings.
From S2P Require Import KafkaErrors.

(** ** Records and options *)

(** kgo.Record, the fields the code reads. *)
Record KRecord := MkKRecord {
  Topic : string;
  Partition : Z;
  Offset : Z;
  LeaderEpoch : Z;
  IsControl : bool;
  Key : option string;
  Value : option string;
  KHeaders : list (string * option string);
  KTimestamp : Z
}.

#[export] Instance KRecord_eq_dec : EqDecision KRecord.
Proof. solve_decision. Defined.

(** MessagePayload; the byte slices are copies, so they are values here. *)
Record MessagePayload := MkMessagePayload {
  m_Topic : string;
  m_Partition : Z;
  m_Offset : Z;
  m_Key : option string;
  m_Value : option string;
  m_Headers : list (string * option string);
  m_Timestamp : Z
}.

Record BatchPayload := MkBatchPayload {
  b_Topic : string;
  b_Partition : Z;
  b_Messages : list MessagePayload;
  b_FirstOffset : Z;
  b_LastOffset : Z
}.

Definition kafkaJSPayload (r : KRecord) : MessagePayload :=
  MkMessagePayload (Topic r) (Partition r) (Offset r) (Key r) (Value r) (KHeaders r) (KTimestamp r).

Definition kafkaJSRecordPosition (r : KRecord) : position :=
  MkPosition (Topic r) (Partition r) (Offset r) (LeaderEpoch r).

Definition tp_of_record (r : KRecord) : tp := (Topic r, Partition r).

(** ConsumerAdvancedOptions; durations are nanoseconds, [OffsetFinalizer] says
    whether one is set. *)
Record ConsumerAdvancedOptions := MkOptions {
  o_AutoCommit : option bool;
  CommitBeforeHandler : bool;
  OffsetFinalizer : bool;
  ResolveAfterSuccessfulFinalizer : bool;
  NullOffsetCommitMetadata : bool;
  RedeliverUnresolvedFinalizer : bool;
  PartitionsConsumedConcurrently : Z;
  PollTimeout : Z;
  MaxRecords : Z
}.

Definition resolveAutoCommit (configDefault : bool) (override : option bool) : bool :=
  match override with Some b => b | None => configDefault end.

(** validateConfluentConsumerOptions: the effective commit mode, the poll
    timeout and the concurrency. *)
Definition validateConfluentConsumerOptions (configAutoCommit : bool) (opts : ConsumerAdvancedOptions)
    (defaultPollTimeout : Z) : result string (bool * Z * Z) :=
  if (PartitionsConsumedConcurrently opts <? 0)%Z then Err "PartitionsConsumedConcurrently must not be negative"
  else if (PollTimeout opts <? 0)%Z then Err "PollTimeout must not be negative"
  else if (MaxRecords opts <? 0)%Z then Err "MaxRecords must not be negative"
  else
    let auto := resolveAutoCommit configAutoCommit (o_AutoCommit opts) in
    let timeout := if (PollTimeout opts =? 0)%Z then defaultPollTimeout else PollTimeout opts in
    let concurrency := if (PartitionsConsumedConcurrently opts =? 0)%Z then 1%Z
                       else PartitionsConsumedConcurrently opts in
    if OffsetFinalizer opts then
      if auto then Err "OffsetFinalizer requires manual commit"
      else if CommitBeforeHandler opts then Err "OffsetFinalizer cannot be combined with CommitBeforeHandler"
      else Ok (auto, timeout, concurrency)
    else if ResolveAfterSuccessfulFinalizer opts then Err "ResolveAfterSuccessfulFinalizer requires OffsetFinalizer"
    else if NullOffsetCommitMetadata opts then Err "NullOffsetCommitMetadata requires OffsetFinalizer"
    else Ok (auto, timeout, concurrency).

(** ** Calls *)

(** An OffsetCommitResponse: topics with their partitions' error codes. *)
Abbreviation commit_response := (list (string * list (Z * Z))).

(** How a call of application code ends. *)
Inductive answer :=
| Returned (e : option gerr)
| Exited.                       (* runtime.Goexit *)

(** What a finalizer does: it may call the commit callback, with any exact
    offset and any number of times, and go on according to its result. *)
Inductive finalizer :=
| FReturn (e : option gerr)
| FExit
| FCommit (exact : Z) (k : option gerr -> finalizer).

Inductive kev :=
| EvCommitRecords (r : KRecord) (e : option gerr)
| EvMarkCommitRecords (r : KRecord)
| EvCommitOffsets (p : tp) (exact : Z) (nullMetadata : bool) (e : option gerr) (response : option commit_response)
| EvSetOffsets (offsets : list position)
| EvHandler (messages : list MessagePayload) (a : answer)
| EvBatchHandler (batch : BatchPayload) (a : answer)
| EvFinalizer (payload : MessagePayload) (handlerErr : option gerr) (a : answer)
| EvRemember (positions : list position)     (* rememberRecoveryPositions *)
| EvComplete (p : position)                  (* completeRecoveryPosition *)
| EvAllowRebalance
| EvCloseClient.                             (* CloseAllowingRebalance *)

Record world := MkWorld {
  w_CommitRecords : list kev -> option gerr;
  w_CommitOffsets : list kev -> option gerr * option commit_response;
  w_handler : list kev -> list MessagePayload -> answer;
  w_batch_handler : list kev -> BatchPayload -> answer;
  w_finalizer : list kev -> MessagePayload -> option gerr -> finalizer
}.

Definition emit (e : kev) : TM kev unit := call (fun _ => tt) (fun _ => e).

(** consumerWorkerProgress: where a worker that stops short has to be resumed. *)
Record progress := MkProgress { at_position : option position; next_position : option position }.

Definition newConsumerWorkerContext (p : option position) : progress := MkProgress p None.
Definition setConsumerWorkerPosition (p : position) (next : option position) : progress := MkProgress (Some p) next.
Definition markConsumerWorkerCommitted (pr : progress) : progress := MkProgress (next_position pr) (next_position pr).

(** kafkaJSOffsetCommitResponseError *)
Definition kafkaJSOffsetCommitResponseError (KafkaError : Z -> gerr) (response : option commit_response) : option gerr :=
  match response with
  | None => Some (ELeaf (Other "broker returned an empty offset commit response"))
  | Some topics =>
      match filter (fun p => p.2 <> 0%Z) (flat_map snd topics) with
      | [] => None
      | (_, code) :: _ => Some (EWrap "broker rejected exact offset commit" (KafkaError code))
      end
  end.

(** ** One record, one partition *)

Section worker.
Context (IsRetriable : gerr -> bool)        (* kerr.IsRetriable *)
        (KafkaError : Z -> gerr)            (* kerr.ErrorForCode *)
        (configAutoCommit : bool)           (* c.config.AutoCommit *)
        (isAutoCommit : bool)
        (opts : ConsumerAdvancedOptions).

Definition classify : gerr -> gerr := classifyKafkaJSTransientConsumerError IsRetriable.

Definition commit_before : bool := negb isAutoCommit && CommitBeforeHandler opts.

Section calls.
Context (w : world).

Definition CommitRecords (message : string) (r : KRecord) : TM kev (option gerr) :=
  let! e := call (w_CommitRecords w) (EvCommitRecords r) in
  tret (option_map (fun e => classify (EWrap message e)) e).

Definition commitKafkaJSExact (r : KRecord) (exact : Z) (nullMetadata : bool) : TM kev (option gerr) :=
  let! a := call (w_CommitOffsets w) (fun a => EvCommitOffsets (tp_of_record r) exact nullMetadata a.1 a.2) in
  let commitErr := match a.1 with
                   | Some e => Some e
                   | None => kafkaJSOffsetCommitResponseError KafkaError a.2
                   end in
  tret (option_map (fun e => classify (EWrap "kafka/kafkajs: exact offset commit failed" e)) commitErr).

Definition resolveKafkaJSRecord (r : KRecord) (nullMetadata : bool) : TM kev (option gerr) :=
  if isAutoCommit && configAutoCommit then let! _ := emit (EvMarkCommitRecords r) in tret None
  else if nullMetadata then commitKafkaJSExact r (wrap64 (Offset r + 1)) true
  else CommitRecords "kafka/kafkajs: post-handler commit failed" r.

(** commitExact of processRecord, and the finalizer that calls it. *)
Fixpoint run_finalizer (r : KRecord) (commitCalled : bool) (f : finalizer) : TM kev answer :=
  match f with
  | FReturn e => tret (Returned e)
  | FExit => tret Exited
  | FCommit exact k =>
      if commitCalled
      then run_finalizer r true (k (Some (ELeaf (Other "kafka/kafkajs: exact offset commit callback called more than once"))))
      else let! e := commitKafkaJSExact r exact (NullOffsetCommitMetadata opts) in run_finalizer r true (k e)
  end.

Definition OffsetFinalizer_call (r : KRecord) (handlerErr : option gerr) : TM kev answer := fun h =>
  (let! a := run_finalizer r false (w_finalizer w h (kafkaJSPayload r) handlerErr) in
   let! _ := emit (EvFinalizer (kafkaJSPayload r) handlerErr a) in
   tret a) h.

Definition handler_failed (e : gerr) (r : KRecord) : gerr :=
  newConsumerHandlerErrorAt "kafka/kafkajs: message handler failed" e (kafkaJSRecordPosition r).

(** The commit before the handler, when asked for: the worker's progress
    afterwards, or the error. *)
Definition pre_commit (pr : progress) (r : KRecord) : TM kev (result gerr progress) :=
  if commit_before then
    let! e := CommitRecords "kafka/kafkajs: pre-handler commit failed" r in
    match e with
    | Some e => tret (Err e)
    | None =>
        let! _ := emit (EvComplete (kafkaJSRecordPosition r)) in
        tret (Ok (markConsumerWorkerCommitted pr))
    end
  else tret (Ok pr).

(** The complete callback of the OffsetFinalizer branch. *)
Definition finalize (pr : progress) (r : KRecord) (handlerErr : option gerr) : TM kev (result progress (option gerr)) :=
  let! a := OffsetFinalizer_call r handlerErr in
  match a with
  | Exited => tret (Err pr)
  | Returned (Some finalizerErr) =>
      match handlerErr with
      | Some he => if errors_Is_value finalizerErr he then tret (Ok (Some (handler_failed finalizerErr r)))
                   else tret (Ok (Some finalizerErr))
      | None => tret (Ok (Some finalizerErr))
      end
  | Returned None =>
      match handlerErr with
      | None =>
          if ResolveAfterSuccessfulFinalizer opts then
            let! e := resolveKafkaJSRecord r (NullOffsetCommitMetadata opts) in tret (Ok e)
          else tret (Ok None)
      | Some _ =>
          if RedeliverUnresolvedFinalizer opts then
            let! _ := emit (EvRemember [kafkaJSRecordPosition r]) in
            let! _ := emit (EvSetOffsets [kafkaJSRecordPosition r]) in
            tret (Ok (Some (ELeaf UnresolvedRewound)))
          else tret (Ok None)
      end
  end.

(** processRecord: [Err] means the worker's goroutine ended, with its progress. *)
Definition processRecord (pr : progress) (r : KRecord) : TM kev (result progress (option gerr)) :=
  if IsControl r then
    let! e := resolveKafkaJSRecord r (NullOffsetCommitMetadata opts) in tret (Ok e)
  else
    let! pre := pre_commit pr r in
    match pre with
    | Err e => tret (Ok (Some e))
    | Ok pr =>
        let! a := call (fun h => w_handler w h [kafkaJSPayload r]) (EvHandler [kafkaJSPayload r]) in
        match a with
        | Exited => tret (Err pr)
        | Returned handlerErr =>
            if OffsetFinalizer opts then finalize pr r handlerErr
            else
              match handlerErr with
              | Some he =>
                  if commit_before
                  then tret (Ok (Some (newConsumerHandlerError "kafka/kafkajs: message handler failed" he)))
                  else tret (Ok (Some (handler_failed he r)))
              | None =>
                  if commit_before then tret (Ok None)
                  else let! e := resolveKafkaJSRecord r false in tret (Ok e)
              end
        end
    end.

(** What the loop of consumeMessages makes of an error of processRecord. *)
Definition record_failure (r : KRecord) (next : option KRecord) (e : gerr) : option gerr :=
  if errors_Is e UnresolvedRewound then Some e
  else if commit_before && isConsumerHandlerError e then
    match next with
    | Some n => Some (ERewind e (kafkaJSRecordPosition n))
    | None => Some e
    end
  else withConsumerRewindPosition (Some e) (kafkaJSRecordPosition r).

(** The callback consumeMessages gives to runKafkaJSRecordGroups. *)
Fixpoint message_group (group : list KRecord) : TM kev (result progress (option gerr)) :=
  match group with
  | [] => tret (Ok None)
  | r :: rest =>
      let pr := setConsumerWorkerPosition (kafkaJSRecordPosition r) (kafkaJSRecordPosition <$> head rest) in
      let! x := processRecord pr r in
      match x with
      | Err pr => tret (Err pr)
      | Ok (Some e) => tret (Ok (record_failure r (head rest) e))
      | Ok None =>
          let! _ := emit (EvComplete (kafkaJSRecordPosition r)) in
          message_group rest
      end
  end.

(** The commit before a batch's handler. *)
Definition pre_commit_batch (pr : progress) (lastFetched : KRecord) : TM kev (result gerr progress) :=
  if commit_before then
    let! e := CommitRecords "kafka/kafkajs: pre-handler batch commit failed" lastFetched in
    match e with
    | Some e => tret (Err e)
    | None =>
        let! _ := emit (EvComplete (kafkaJSRecordPosition lastFetched)) in
        tret (Ok (markConsumerWorkerCommitted pr))
    end
  else tret (Ok pr).

(** resolveKafkaJSRecord of the last record fetched, with the boundary to fetch
    again from when it fails. *)
Definition resolve_batch (lastFetched : KRecord) (retry : position) : TM kev (option gerr) :=
  let! e := resolveKafkaJSRecord lastFetched false in
  match withConsumerRewindPosition e retry with
  | None => let! _ := emit (EvComplete (kafkaJSRecordPosition lastFetched)) in tret None
  | Some e => tret (Some e)
  end.

Definition batch_payload (v0 : KRecord) (visible : list KRecord) : BatchPayload :=
  let lastVisible := List.last visible v0 in
  MkBatchPayload (Topic lastVisible) (Partition lastVisible) (kafkaJSPayload <$> visible)
    (Offset v0) (Offset lastVisible).

Definition visible_records (group : list KRecord) : list KRecord :=
  filter (fun r => IsControl r = false) group.

(** The callback consumeBatches gives to runKafkaJSRecordGroups. *)
Definition batch_group (group : list KRecord) : TM kev (result progress (option gerr)) :=
  match group with
  | [] => tret (Ok None)
  | r0 :: rest =>
      let lastFetched := List.last rest r0 in
      match visible_records group with
      | [] =>
          let! e := resolve_batch lastFetched (kafkaJSRecordPosition lastFetched) in tret (Ok e)
      | v0 :: _ =>
          let firstPosition := kafkaJSRecordPosition v0 in
          let pr := setConsumerWorkerPosition firstPosition None in
          let! pre := pre_commit_batch pr lastFetched in
          match pre with
          | Err e => tret (Ok (withConsumerRewindPosition (Some e) firstPosition))
          | Ok pr =>
              let payload := batch_payload v0 (visible_records group) in
              let! a := call (fun h => w_batch_handler w h payload) (EvBatchHandler payload) in
              match a with
              | Exited => tret (Err pr)
              | Returned (Some he) =>
                  if commit_before
                  then tret (Ok (Some (newConsumerHandlerError "kafka/kafkajs: batch handler failed" he)))
                  else tret (Ok (Some (newConsumerHandlerErrorAt "kafka/kafkajs: batch handler failed" he firstPosition)))
              | Returned None =>
                  if commit_before then tret (Ok None)
                  else let! e := resolve_batch lastFetched firstPosition in tret (Ok e)
              end
          end
      end
  end.
End calls.
End worker.

(** ** The waves of workers *)

(** One goroutine of runKafkaJSRecordGroups that got its slot: what it sends to
    the error channel. *)
Definition worker (process : list KRecord -> TM kev (result progress (option gerr)))
    (group : list KRecord) : TM kev (option gerr) :=
  let! x := process group in
  tret (match x with
        | Ok e => e
        | Err pr => Some (EAborted (at_position pr))   (* reportIncomplete *)
        end).

(** What runKafkaJSRecordGroups returns for the errors its workers sent. *)
Definition collect_errors (errs : list gerr) : option gerr :=
  match filter (fun e => errors_Is e UnresolvedRewound = false) errs with
  | [] => match errs with [] => None | _ => Some (ELeaf UnresolvedRewound) end
  | failures => Some (EJoin failures)
  end.

(** A worker either finds the run's context done before it gets a slot, or runs
    to its end. *)
Inductive outcome :=
| NotStarted
| Finished (t : list kev) (e : option gerr).

Definition trace_of (o : outcome) : list kev := match o with NotStarted => [] | Finished t _ => t end.
Definition error_of (o : outcome) : option gerr := match o with NotStarted => None | Finished _ e => e end.

(** [t] is an interleaving of [ts]. *)
Inductive interleaved {A} : list (list A) -> list A -> Prop :=
| interleaved_done ts : Forall (fun t => t = []) ts -> interleaved ts []
| interleaved_step ts i e t r :
    ts !! i = Some (e :: t) -> interleaved (<[i:=t]> ts) r -> interleaved ts (e :: r).

(** The concurrency limit only takes interleavings away, so it is left out. *)
Inductive runKafkaJSRecordGroups (process : world -> list KRecord -> TM kev (result progress (option gerr)))
    (possible : world -> Prop) (ctx_done : bool) (groups : list (list KRecord)) :
    list kev -> option gerr -> Prop :=
| ran_groups outs errs t :
    Forall2 (fun group o =>
      match o with
      | NotStarted => ctx_done = true
      | Finished tr e => exists w, possible w /\ worker (process w) group [] = (tr, e)
      end) groups outs ->
    interleaved (trace_of <$> outs) t ->
    errs ≡ₚ omap error_of outs ->
    runKafkaJSRecordGroups process possible ctx_done groups t (collect_errors errs).

(** ** Grouping a poll by partition *)

Definition group_key (r : KRecord) : string := Topic r +:+ String "000" EmptyString +:+ format_int (Partition r).

Definition group_step (st : gmap string nat * list (list KRecord)) (r : KRecord) :
    gmap string nat * list (list KRecord) :=
  let (index, groups) := st in
  match index !! group_key r with
  | Some i => (index, alter (fun g => g ++ [r]) i groups)
  | None => (<[group_key r := length groups]> index, groups ++ [[r]])
  end.

Definition groupKafkaJSRecords (records : list KRecord) : list (list KRecord) :=
  (foldl group_step (∅, []) records).2.
