(* ===== verification/KafkaWorkerProofs.v ===== *)
(** * package kafka, what a wave of workers guarantees

    Three facts about the records of one poll: they are handed to the workers
    partition by partition in their order; no offset moves past a record whose
    handler has not succeeded; and a record that was not settled is covered by
    the rewind plan of the error the wave returns. *)

From S2P Require Import Prelude.
From S2P Require Import GoStrings.
From S2P Require Import KafkaErrors.
From S2P Require Import KafkaWorker.

(** ** Grouping *)

(** A byte that is not in the tails separates a string in one way. *)
Lemma separated_inj c a b d d' :
  str_forallb (fun x => negb (Ascii.eqb x c)) d = true ->
  str_forallb (fun x => negb (Ascii.eqb x c)) d' = true ->
  a +:+ String c d = b +:+ String c d' -> a = b /\ d = d'.
Proof.
  assert (forall x s, str_forallb (fun x => negb (Ascii.eqb x c)) (x +:+ String c s) = false) as Hc.
  { intros x s. rewrite str_forallb_app. cbn. rewrite Ascii.eqb_refl. cbn. apply andb_false_r. }
  intros Hd Hd'. revert b. induction a as [|x a IH]; intros [|y b]; cbn; intros H.
  - by injection H as ->.
  - injection H as -> ->. by rewrite Hc in Hd.
  - injection H as -> <-. by rewrite Hc in Hd'.
  - injection H as -> H. by destruct (IH _ H) as [-> ->].
Qed.

Lemma format_int_plain z : str_forallb (fun x => negb (Ascii.eqb x "000")) (format_int z) = true.
Proof.
  assert (forall n, str_forallb (fun x => negb (Ascii.eqb x "000")) (format_N n) = true) as Hn.
  { intros n. eapply str_forallb_weaken; [|apply format_N_digits].
    intros x. destruct (Ascii.eqb_spec x "000") as [->|]; done. }
  destruct z; [apply (Hn 0%N)|apply (Hn (Npos p))|apply (Hn (Npos p))].
Qed.

Lemma format_int_inj a b : format_int a = format_int b -> a = b.
Proof.
  assert (forall n p, format_N n <> String "-" (format_N p)) as Hm.
  { intros n p H. pose proof (format_N_digits n) as Hd. by rewrite H in Hd. }
  destruct a as [|p|p], b as [|q|q]; cbv beta iota delta [format_int]; intros H;
    try (by apply Hm in H); try (symmetry in H; by apply Hm in H);
    try (injection H as H); apply format_N_inj in H; cbn in H; congruence.
Qed.

Lemma group_key_inj r s : group_key r = group_key s <-> tp_of_record r = tp_of_record s.
Proof.
  unfold group_key, tp_of_record. split; [|by intros [= -> ->]].
  cbn. intros [-> E%format_int_inj]%separated_inj; [congruence|apply format_int_plain..].
Qed.

(** A poll is split by a key with a map from keys to positions, as the loops of
    this package do it. *)
Section group_by.
Context {A : Type} (key : A -> string).
Implicit Types (seen : list A) (r : A).

Definition group_add (st : gmap string nat * list (list A)) (r : A) : gmap string nat * list (list A) :=
  let (index, groups) := st in
  match index !! key r with
  | Some i => (index, alter (fun g => g ++ [r]) i groups)
  | None => (<[key r := length groups]> index, groups ++ [[r]])
  end.

Definition group_by (l : list A) : list (list A) := (foldl group_add (∅, []) l).2.

Definition like r : A -> Prop := fun s => key s = key r.
#[export] Instance like_dec r s : Decision (like r s).
Proof. unfold like. apply _. Defined.

(** What the loop keeps after the items [seen]. *)
Definition grouped seen (st : gmap string nat * list (list A)) : Prop :=
  (forall i g, st.2 !! i = Some g -> exists r, r ∈ seen /\ st.1 !! key r = Some i /\ g = filter (like r) seen) /\
  (forall r, r ∈ seen -> exists i, st.1 !! key r = Some i /\ i < length st.2) /\
  (forall k i, st.1 !! k = Some i -> exists r, r ∈ seen /\ key r = k) /\
  (forall k l i, st.1 !! k = Some i -> st.1 !! l = Some i -> k = l).

Lemma like_snoc_same x seen r : key r = key x -> filter (like x) (seen ++ [r]) = filter (like x) seen ++ [r].
Proof. intros H. by rewrite filter_app, filter_cons_True. Qed.

Lemma like_snoc_other x seen r : key r <> key x -> filter (like x) (seen ++ [r]) = filter (like x) seen.
Proof. intros H. by rewrite filter_app, filter_cons_False, filter_nil, app_nil_r. Qed.

Lemma group_add_grouped seen st r : grouped seen st -> grouped (seen ++ [r]) (group_add st r).
Proof.
  destruct st as [index groups]. intros (Hg & Hs & Hk & Hi). cbn in *.
  destruct (index !! key r) as [i|] eqn:E; unfold grouped; cbn.
  - destruct (Hk _ _ E) as (s & Hs' & Es). split_and!.
    + intros j g Hj. destruct (decide (j = i)) as [->|Hne].
      * rewrite list_lookup_alter_eq in Hj. apply fmap_Some in Hj as (g0 & Hg0 & ->).
        destruct (Hg _ _ Hg0) as (x & Hx & Ex & ->). exists x. split_and!; [set_solver|done|].
        rewrite like_snoc_same; [done|]. by eapply Hi.
      * rewrite list_lookup_alter_ne in Hj by done. destruct (Hg _ _ Hj) as (x & Hx & Ex & ->).
        exists x. split_and!; [set_solver|done|]. rewrite like_snoc_other; [done|congruence].
    + intros x [Hx| ->%list_elem_of_singleton]%elem_of_app; rewrite length_alter; [by apply Hs|].
      destruct (Hs _ Hs') as (j & Hj & ?). rewrite Es in Hj. eauto.
    + intros k j Hj. destruct (Hk _ _ Hj) as (x & ? & ?). exists x. set_solver.
    + done.
  - assert (forall x, x ∈ seen -> key x <> key r) as Hnew.
    { intros x Hx Ex. destruct (Hs _ Hx) as (j & Hj & _). congruence. }
    assert (forall k j, index !! k = Some j -> j < length groups) as Hlt.
    { intros k j Hj. destruct (Hk _ _ Hj) as (x & Hx & <-). destruct (Hs _ Hx) as (j' & ? & ?). congruence. }
    split_and!.
    + intros j g Hj. apply lookup_app_Some in Hj as [Hj|[Hge Hj]].
      * destruct (Hg _ _ Hj) as (x & Hx & Ex & ->). exists x. specialize (Hnew _ Hx).
        split_and!; [set_solver|by rewrite lookup_insert_ne|by rewrite like_snoc_other].
      * apply list_lookup_singleton_Some in Hj as [Hj <-]. exists r.
        assert (j = length groups) as -> by lia. split_and!; [set_solver|by rewrite lookup_insert_eq|].
        rewrite like_snoc_same, filter_none; done.
    + intros x [Hx| ->%list_elem_of_singleton]%elem_of_app; rewrite length_app; cbn.
      * destruct (Hs _ Hx) as (j & Hj & ?). exists j. split; [|lia].
        rewrite lookup_insert_ne; [done|]. intros Eq. by apply (Hnew x).
      * exists (length groups). rewrite lookup_insert_eq. split; [done|lia].
    + intros k j [[<- <-]|[? Hj]]%lookup_insert_Some; [exists r; set_solver|].
      destruct (Hk _ _ Hj) as (x & ? & ?). exists x. set_solver.
    + intros k l j [[<- <-]|[? Hk']]%lookup_insert_Some [[<- ?]|[? Hl]]%lookup_insert_Some; [done|..].
      * apply Hlt in Hl. lia.
      * subst. apply Hlt in Hk'. lia.
      * by eapply Hi.
Qed.

Lemma group_by_grouped l : grouped l (foldl group_add (∅, []) l).
Proof.
  cut (forall seen st, grouped seen st -> grouped (seen ++ l) (foldl group_add st l)).
  { intros H. apply (H []). unfold grouped; cbn. split_and!; set_solver. }
  induction l as [|r l IH]; intros seen st H; [by rewrite app_nil_r|].
  cbn [foldl]. rewrite cons_middle, app_assoc. by apply IH, group_add_grouped.
Qed.

Lemma group_by_lookup l i g :
  group_by l !! i = Some g -> g <> [] /\ forall r, r ∈ g -> g = filter (like r) l.
Proof.
  intros Hg. destruct (group_by_grouped l) as (H & _). destruct (H _ _ Hg) as (r & Hr & _ & ->). split.
  - intros E. assert (r ∈ filter (like r) l) as Hin by by apply list_elem_of_filter.
    rewrite E in Hin. by apply elem_of_nil in Hin.
  - intros x [Hx _]%list_elem_of_filter. apply list_filter_iff. intros y. unfold like in *. by rewrite Hx.
Qed.

Lemma group_by_cover l r : r ∈ l -> exists i g, group_by l !! i = Some g /\ r ∈ g.
Proof.
  intros Hr. destruct (group_by_grouped l) as (H & Hs & _ & Hi).
  destruct (Hs _ Hr) as (i & Hk & [g Hg]%lookup_lt_is_Some). exists i, g. split; [done|].
  destruct (H _ _ Hg) as (x & Hx & Ex & ->). apply list_elem_of_filter. split; [|done].
  by eapply Hi.
Qed.

Lemma group_by_distinct l i j g g' r r' :
  group_by l !! i = Some g -> group_by l !! j = Some g' -> r ∈ g -> r' ∈ g' -> key r = key r' -> i = j.
Proof.
  intros Hg Hg' Hr Hr' E. destruct (group_by_grouped l) as (H & _).
  destruct (H _ _ Hg) as (x & _ & Ex & ->), (H _ _ Hg') as (y & _ & Ey & ->).
  apply list_elem_of_filter in Hr as [Hr _], Hr' as [Hr' _]. unfold like in *.
  assert (key x = key y) as Ek by congruence. congruence.
Qed.
End group_by.

Definition of_partition (p : tp) (r : KRecord) : Prop := tp_of_record r = p.
#[export] Instance of_partition_dec p r : Decision (of_partition p r).
Proof. unfold of_partition. apply _. Defined.

Lemma groupKafkaJSRecords_by records : groupKafkaJSRecords records = group_by group_key records.
Proof. done. Qed.

Lemma groups_lookup records i g :
  groupKafkaJSRecords records !! i = Some g ->
  g <> [] /\ forall r, r ∈ g -> g = filter (of_partition (tp_of_record r)) records.
Proof.
  rewrite groupKafkaJSRecords_by. intros [Hne H]%group_by_lookup. split; [done|].
  intros r Hr. rewrite (H r Hr). apply list_filter_iff. intros x. apply group_key_inj.
Qed.

Lemma groups_cover records r :
  r ∈ records -> exists i g, groupKafkaJSRecords records !! i = Some g /\ r ∈ g.
Proof. apply group_by_cover. Qed.

Lemma groups_distinct records i j g g' r r' :
  groupKafkaJSRecords records !! i = Some g -> groupKafkaJSRecords records !! j = Some g' ->
  r ∈ g -> r' ∈ g' -> tp_of_record r = tp_of_record r' -> i = j.
Proof. rewrite <- group_key_inj. apply group_by_distinct. Qed.

(** ** Interleavings *)

Section interleavings.
Context {A : Type}.
Implicit Types (ts : list (list A)) (t : list A).

Lemma interleaved_elem ts t e : interleaved ts t -> e ∈ t -> exists u, u ∈ ts /\ e ∈ u.
Proof.
  induction 1 as [ts H|ts i x t r Hi _ IH]; [by intros ?%elem_of_nil|].
  intros [->|He]%elem_of_cons.
  - exists (x :: t). split; [by eapply list_elem_of_lookup_2|by left].
  - destruct (IH He) as (u & Hu & Heu). apply list_elem_of_lookup in Hu as [j Hj].
    destruct (decide (i = j)) as [->|Hne].
    + rewrite list_lookup_insert_eq in Hj by by eapply lookup_lt_Some. simplify_eq.
      exists (x :: u). split; [by eapply list_elem_of_lookup_2|by right].
    + rewrite list_lookup_insert_ne in Hj by done. exists u. split; [by eapply list_elem_of_lookup_2|done].
Qed.

Lemma interleaved_sub ts t i u e : interleaved ts t -> ts !! i = Some u -> e ∈ u -> e ∈ t.
Proof.
  intros H. revert u. induction H as [ts H|ts j x t r Hj _ IH]; intros u Hu He.
  - rewrite Forall_forall in H. rewrite (H u) in He by by eapply list_elem_of_lookup_2. by apply elem_of_nil in He.
  - destruct (decide (j = i)) as [->|Hne].
    + simplify_eq. apply elem_of_cons in He as [->|He]; [by left|right]. apply (IH t); [|done].
      apply list_lookup_insert_eq. by eapply lookup_lt_Some.
    + right. apply (IH u); [|done]. by rewrite list_lookup_insert_ne.
Qed.

(** What came before an event in its own trace came before it in the
    interleaving. *)
Lemma interleaved_split ts t1 e t2 :
  interleaved ts (t1 ++ e :: t2) ->
  exists i u1 u2, ts !! i = Some (u1 ++ e :: u2) /\ forall x, x ∈ u1 -> x ∈ t1.
Proof.
  revert ts. induction t1 as [|y t1 IH]; intros ts; cbn.
  - intros H. inversion H as [|ts' i x t r Hi Hr]; subst. exists i, [], t. split; [done|]. by intros ? ?%elem_of_nil.
  - intros H. inversion H as [|ts' i x t r Hi Hr]; subst. destruct (IH _ Hr) as (j & u1 & u2 & Hj & Hsub).
    destruct (decide (i = j)) as [->|Hne].
    + rewrite list_lookup_insert_eq in Hj by by eapply lookup_lt_Some. simplify_eq.
      exists j, (y :: u1), u2. split; [done|]. intros x [->|?]%elem_of_cons; [by left|right; auto].
    + rewrite list_lookup_insert_ne in Hj by done. exists j, u1, u2. split; [done|]. right; auto.
Qed.
End interleavings.

(** ** What driver and application return

    Errors made outside this package: they wrap none of its private error
    values. *)
Fixpoint foreign (e : gerr) : bool :=
  match e with
  | ELeaf s => negb (bool_decide (s = UnresolvedRewound)) && negb (bool_decide (s = WorkerAborted))
  | EWrap _ c | ETransient c | EExactCommit c => foreign c
  | EJoin es => forallb foreign es
  | EHandler _ _ _ | ERewind _ _ | EPollRewind _ _ | EAborted _ => false
  end.

Definition foreign_answer (a : answer) : Prop :=
  match a with Returned (Some e) => foreign e = true | _ => True end.

Inductive foreign_finalizer : finalizer -> Prop :=
| foreign_return e : foreign_answer (Returned e) -> foreign_finalizer (FReturn e)
| foreign_exit : foreign_finalizer FExit
| foreign_commit exact k :
    (forall e, foreign_answer (Returned e) -> foreign_finalizer (k e)) -> foreign_finalizer (FCommit exact k).

Record foreign_world (w : world) : Prop := {
  fw_CommitRecords h : foreign_answer (Returned (w_CommitRecords w h));
  fw_CommitOffsets h : foreign_answer (Returned (w_CommitOffsets w h).1);
  fw_handler h ms : foreign_answer (w_handler w h ms);
  fw_batch_handler h b : foreign_answer (w_batch_handler w h b);
  fw_finalizer h m e : foreign_finalizer (w_finalizer w h m e)
}.

Lemma existsb_none {A} (f : A -> bool) l : Forall (fun x => f x = false) l -> existsb f l = false.
Proof. by induction 1 as [|x l H _ IH]; cbn; [|rewrite H, IH]. Qed.

(** A search for something no foreign error has finds nothing. *)
Lemma foreign_exists_in here e :
  (forall e, foreign e = true -> here e = false) -> foreign e = true -> exists_in here e = false.
Proof.
  intros Hh. induction e as [s|m c IH|es IH|c IH|m c f IH|c f IH|c ps IH|f|c IH] using gerr_ind'; intros Hf;
    cbn [exists_in]; rewrite (Hh _ Hf); cbn; try done; try by apply IH.
  apply existsb_none. cbn in Hf. rewrite forallb_forall in Hf.
  rewrite Forall_forall in IH |- *. intros x Hx. apply IH; [done|]. apply Hf. by apply list_elem_of_In.
Qed.

Lemma foreign_unresolved e : foreign e = true -> errors_Is e UnresolvedRewound = false.
Proof.
  apply foreign_exists_in. intros [s| | | | | | | |]; cbn; try done.
  intros [H _]%andb_true_iff. by apply negb_true_iff in H.
Qed.

Lemma foreign_handler e : foreign e = true -> isConsumerHandlerError e = false.
Proof. apply foreign_exists_in. by intros []. Qed.

Lemma foreign_undecided e : foreign e = true -> decided e = false.
Proof.
  induction e as [s|m c IH|es IH|c IH|m c f IH|c f IH|c ps IH|f|c IH] using gerr_ind'; cbn; try done.
  intros Hf. apply existsb_none. rewrite forallb_forall in Hf.
  rewrite Forall_forall in IH |- *. intros x Hx. apply IH; [done|]. apply Hf. by apply list_elem_of_In.
Qed.

Lemma foreign_classify IsRetriable e : foreign e = true -> foreign (classify IsRetriable e) = true.
Proof.
  intros H. unfold classify, classifyKafkaJSTransientConsumerError, NewTransientConsumerError.
  by repeat case_match.
Qed.

(** ** Accounting for records

    A record is settled when a later-or-equal position of its partition was
    completed; it is retried when the wave's error, or a SetOffsets the worker
    made itself, asks for its partition from an offset at or before it. *)

Definition covers (p : position) (r : KRecord) : Prop :=
  tp_of p = tp_of_record r /\ (p_offset p <= Offset r)%Z.

Definition settled (t : list kev) (r : KRecord) : Prop :=
  exists p, EvComplete p ∈ t /\ tp_of p = tp_of_record r /\ (Offset r <= p_offset p)%Z.

Definition retried (t : list kev) (e : option gerr) (r : KRecord) : Prop :=
  match e with
  | None => False
  | Some e =>
      if errors_Is e UnresolvedRewound
      then exists p, covers p r /\ EvRemember [p] ∈ t /\ EvSetOffsets [p] ∈ t
      else exists p, p ∈ plan e /\ covers p r
  end.

(** The records of one partition, in the order of their offsets. *)
Record ordered (group : list KRecord) : Prop := {
  ordered_partition r s : r ∈ group -> s ∈ group -> tp_of_record r = tp_of_record s;
  ordered_offsets : StronglySorted (fun r s => (Offset r < Offset s)%Z) group
}.

(** ** Running the workers' programs *)

Ltac run_inv :=
  repeat match goal with
  | H : (_, _) = (_, _) |- _ => injection H as ? ?
  | H : tbind _ _ _ = (_, _) |- _ =>
      let H1 := fresh "Hrun" in let H2 := fresh "Hrun" in
      apply tbind_inv in H as (? & ? & ? & H1 & H2 & ?)
  | H : call _ _ _ = (_, _) |- _ => apply call_inv in H as [? ?]
  | H : emit _ _ = (_, _) |- _ => apply call_inv in H as [_ ?]
  | H : tret _ _ = (_, _) |- _ => apply tret_inv in H as [? ?]
  end; subst.

Section accounting.
Context (IsRetriable : gerr -> bool) (KafkaError : Z -> gerr) (configAutoCommit isAutoCommit : bool)
        (opts : ConsumerAdvancedOptions).
Context (KafkaError_foreign : forall c, foreign (KafkaError c) = true).
Context (w : world) (w_foreign : foreign_world w).

Abbreviation before := (commit_before isAutoCommit opts).
Abbreviation resolve := (resolveKafkaJSRecord IsRetriable KafkaError configAutoCommit isAutoCommit w).

Lemma foreign_map (e : option gerr) message :
  foreign_answer (Returned e) ->
  foreign_answer (Returned (option_map (fun e => classify IsRetriable (EWrap message e)) e)).
Proof. destruct e; cbn; [|done]. intros H. by apply foreign_classify. Qed.

Lemma CommitRecords_run message r h t e :
  CommitRecords IsRetriable w message r h = (t, e) ->
  foreign_answer (Returned e) /\ exists a, t = [EvCommitRecords r a] /\ (e = None <-> a = None).
Proof.
  intros H. unfold CommitRecords in H. run_inv. split; [apply foreign_map, w_foreign|].
  eexists. split; [done|]. by destruct (w_CommitRecords w h).
Qed.

Lemma response_foreign response : foreign_answer (Returned (kafkaJSOffsetCommitResponseError KafkaError response)).
Proof. destruct response as [l|]; cbn; [|done]. destruct (filter _ _) as [|[? ?] ?]; cbn; [done|apply KafkaError_foreign]. Qed.

Lemma commitKafkaJSExact_run r exact meta h t e :
  commitKafkaJSExact IsRetriable KafkaError w r exact meta h = (t, e) ->
  foreign_answer (Returned e) /\ exists a b, t = [EvCommitOffsets (tp_of_record r) exact meta a b].
Proof.
  intros H. unfold commitKafkaJSExact in H. run_inv. split; [|by do 2 eexists].
  apply foreign_map. pose proof (fw_CommitOffsets _ w_foreign h) as Hf.
  destruct (w_CommitOffsets w h) as [[e|] b]; cbn in *; [done|apply response_foreign].
Qed.

Lemma resolve_foreign r meta h t e : resolve r meta h = (t, e) -> foreign_answer (Returned e).
Proof.
  intros H. unfold resolveKafkaJSRecord in H. repeat case_match; run_inv; [done|..].
  - by apply commitKafkaJSExact_run in H as [? _].
  - by apply CommitRecords_run in H as [? _].
Qed.

Lemma run_finalizer_foreign r called f h t a :
  foreign_finalizer f -> run_finalizer IsRetriable KafkaError opts w r called f h = (t, a) -> foreign_answer a.
Proof.
  intros Hf. revert called h t a. induction Hf as [e He| |exact k Hk IH]; intros called h t a H; cbn in H.
  - by run_inv.
  - by run_inv.
  - destruct called; [by eapply IH in H|]. run_inv. eapply IH; [|done]. by eapply commitKafkaJSExact_run.
Qed.

Lemma pre_commit_run pr r h t x :
  pre_commit IsRetriable isAutoCommit opts w pr r h = (t, x) ->
  match x with
  | Err e => foreign e = true
  | Ok pr' => pr' = pr \/ (before = true /\ EvComplete (kafkaJSRecordPosition r) ∈ t /\ pr' = markConsumerWorkerCommitted pr)
  end /\ (before = true -> is_ok x = true -> EvComplete (kafkaJSRecordPosition r) ∈ t).
Proof.
  unfold pre_commit. destruct before; intros H; run_inv; [|by split; [left|]].
  destruct (CommitRecords_run _ _ _ _ _ Hrun) as [Hf _].
  case_match; run_inv; [done|]. split; [right; split_and!; [done| |done]|intros _ _]; set_solver.
Qed.

(** The record's own position is in the error, or was given back to the driver,
    or the record is behind a commit. *)
Definition rewound (r : KRecord) (t : list kev) (e : gerr) : Prop :=
  e = ELeaf UnresolvedRewound /\
  EvRemember [kafkaJSRecordPosition r] ∈ t /\ EvSetOffsets [kafkaJSRecordPosition r] ∈ t.

Definition failure (r : KRecord) (t : list kev) (e : gerr) : Prop :=
  errors_Is e UnresolvedRewound = false /\
  (decided e = true -> plan e = [kafkaJSRecordPosition r] \/ isConsumerHandlerError e = true /\ before = true) /\
  (before = true -> isConsumerHandlerError e = true -> EvComplete (kafkaJSRecordPosition r) ∈ t).

Definition record_post (r : KRecord) (next : option position) (t : list kev)
    (x : result progress (option gerr)) : Prop :=
  match x with
  | Ok None => True
  | Ok (Some e) => rewound r t e \/ failure r t e
  | Err pr => at_position pr = Some (kafkaJSRecordPosition r) \/
              EvComplete (kafkaJSRecordPosition r) ∈ t /\ at_position pr = next
  end.

Lemma foreign_failure r t e : foreign e = true -> failure r t e.
Proof.
  intros H. split_and!; [by apply foreign_unresolved|by rewrite foreign_undecided|].
  by rewrite foreign_handler.
Qed.

Lemma post_foreign r next t e : foreign_answer (Returned e) -> record_post r next t (Ok e).
Proof. destruct e as [e|]; cbn; [|done]. intros H. right. by apply foreign_failure. Qed.

Lemma foreign_at r m e t :
  (before = true -> EvComplete (kafkaJSRecordPosition r) ∈ t) -> foreign e = true ->
  failure r t (newConsumerHandlerErrorAt m e (kafkaJSRecordPosition r)).
Proof.
  intros Hb H. split_and!; [|by left|by auto]. by apply (foreign_unresolved e) in H.
Qed.

(** Where an exit before the record's end leaves its worker. *)
Definition stopped (r : KRecord) (next : option position) (t : list kev) (pr : progress) : Prop :=
  at_position pr = Some (kafkaJSRecordPosition r) \/
  EvComplete (kafkaJSRecordPosition r) ∈ t /\ at_position pr = next.

Lemma finalize_post pr r next he h t0 t x :
  (before = true -> EvComplete (kafkaJSRecordPosition r) ∈ t0) -> stopped r next t0 pr ->
  foreign_answer (Returned he) ->
  finalize IsRetriable KafkaError configAutoCommit isAutoCommit opts w pr r he h = (t, x) ->
  record_post r next (t0 ++ t) x.
Proof.
  intros Hc Hs Hhe H. unfold finalize, OffsetFinalizer_call in H. run_inv.
  rename Hrun1 into Hf. apply run_finalizer_foreign in Hf; [|apply w_foreign].
  match type of Hf with foreign_answer ?a => destruct a as [[fe|]|] end; cbn in Hf.
  - destruct he as [he|]; run_inv; [|by right; apply foreign_failure].
    destruct (errors_Is_value fe he); run_inv; [|by right; apply foreign_failure].
    right. apply foreign_at; [|done]. set_solver.
  - destruct he as [he|].
    + destruct (RedeliverUnresolvedFinalizer opts); run_inv; [|done]. left. split; [done|]. set_solver.
    + destruct (ResolveAfterSuccessfulFinalizer opts); run_inv; [|done].
      apply post_foreign. by eapply resolve_foreign.
  - run_inv. unfold stopped in Hs. cbn. set_solver.
Qed.

Lemma processRecord_post r next h t x :
  processRecord IsRetriable KafkaError configAutoCommit isAutoCommit opts w
    (setConsumerWorkerPosition (kafkaJSRecordPosition r) next) r h = (t, x) ->
  record_post r next t x.
Proof.
  intros H. unfold processRecord in H. destruct (IsControl r).
  { run_inv. apply post_foreign. by eapply resolve_foreign. }
  run_inv. apply pre_commit_run in Hrun as [Hpre Hb]. match type of Hpre with context [match ?a with Ok _ => _ | Err _ => _ end] => destruct a as [pr|e] end; run_inv.
  2: { right. by apply foreign_failure. }
  assert (stopped r next x0 pr) as Hs.
  { destruct Hpre as [->|(_ & ? & ->)]; [by left|by right]. }
  pose proof (fw_handler _ w_foreign (h ++ x0) [kafkaJSPayload r]) as Hh.
  destruct (w_handler w (h ++ x0) [kafkaJSPayload r]) as [he|]; run_inv; cycle 1.
  { cbn. unfold stopped in Hs. set_solver. }
  destruct (OffsetFinalizer opts).
  { rewrite app_assoc. eapply finalize_post; [..|done]; [set_solver| |done].
    unfold stopped in *. set_solver. }
  destruct he as [he|].
  - destruct before eqn:Eb; run_inv; right.
    + split_and!; [by apply (foreign_unresolved he) in Hh|intros _; by right|intros _ _; set_solver].
    + apply foreign_at; [by rewrite Eb|done].
  - destruct before; run_inv; [done|]. apply post_foreign. by eapply resolve_foreign.
Qed.

(** What a group's program has done for [records] of the group. *)
Definition group_post (records : list KRecord) (t : list kev) (x : result progress (option gerr)) : Prop :=
  forall r, r ∈ records -> settled t r \/
    match x with
    | Ok e => retried t e r
    | Err pr => exists p, at_position pr = Some p /\ covers p r
    end.

Lemma covers_self r : covers (kafkaJSRecordPosition r) r.
Proof. by split. Qed.

Lemma settled_complete r t : EvComplete (kafkaJSRecordPosition r) ∈ t -> settled t r.
Proof. intros H. exists (kafkaJSRecordPosition r). done. Qed.

Lemma settled_weaken t t' r : t ⊆ t' -> settled t r -> settled t' r.
Proof. intros Hs (p & Hp & ?). exists p. auto. Qed.

Lemma ordered_tail r rest : ordered (r :: rest) -> ordered rest.
Proof.
  intros [Hp Ho]. split; [|by inversion Ho]. intros x y Hx Hy. apply Hp; by right.
Qed.

Lemma ordered_covers r rest s : ordered (r :: rest) -> s ∈ r :: rest -> covers (kafkaJSRecordPosition r) s.
Proof.
  intros [Hp Ho] Hs. split; [by apply Hp; [left|]|]. cbn.
  apply elem_of_cons in Hs as [->|Hs]; [lia|]. inversion Ho as [|? ? _ Hf]; subst.
  rewrite Forall_forall in Hf. apply Hf in Hs. lia.
Qed.

(** An error of one record that is attributed to the record covers the rest. *)
Lemma record_failure_retried r rest t e s :
  ordered (r :: rest) -> failure r t e -> s ∈ r :: rest ->
  settled t s \/ retried t (record_failure isAutoCommit opts r (head rest) e) s.
Proof.
  intros Ho (Hu & Hd & Hb) Hs. unfold record_failure. rewrite Hu.
  destruct (before && isConsumerHandlerError e) eqn:E.
  - apply andb_true_iff in E as [E1 E2].
    apply elem_of_cons in Hs as [->|Hs]; [left; by apply settled_complete, Hb|right].
    destruct rest as [|n rest]; [by apply elem_of_nil in Hs|]. cbn [head retried]. unfold errors_Is in *.
    cbn [exists_in is_sentinel orb]. rewrite Hu. exists (kafkaJSRecordPosition n). split; [by left|].
    by eapply ordered_covers; [eapply ordered_tail|].
  - right. cbn. destruct (decided e) eqn:Ed; cbn.
    + rewrite Hu. destruct (Hd eq_refl) as [->|[E1 E2]]; [|by rewrite E1, E2 in E].
      exists (kafkaJSRecordPosition r). split; [by left|]. by eapply ordered_covers.
    + unfold errors_Is in *. cbn [exists_in is_sentinel orb]. rewrite Hu.
      exists (kafkaJSRecordPosition r). split; [by left|]. by eapply ordered_covers.
Qed.

Lemma message_group_post group h t x :
  ordered group ->
  message_group IsRetriable KafkaError configAutoCommit isAutoCommit opts w group h = (t, x) ->
  group_post group t x.
Proof.
  revert h t x. induction group as [|r rest IH]; intros h t x Ho H; cbn [message_group] in H; run_inv.
  { by intros ? ?%elem_of_nil. }
  apply processRecord_post in Hrun. destruct x1 as [[e|]|pr]; run_inv.
  - intros s Hs. destruct Hrun as [(-> & Hr & Hset)|Hf].
    + right. unfold record_failure. cbn. exists (kafkaJSRecordPosition r). split; [by eapply ordered_covers|].
      by rewrite app_nil_r.
    + rewrite app_nil_r. by apply record_failure_retried.
  - intros s [->|Hs]%elem_of_cons.
    { left. apply settled_complete. set_solver. }
    lazymatch goal with Hg : message_group _ _ _ _ _ _ rest _ = _ |- _ =>
      destruct (IH _ _ _ (ordered_tail _ _ Ho) Hg s Hs) as [Hin|Hin] end.
    { left. eapply settled_weaken; [|done]. set_solver. }
    right. destruct x as [[e|]|pr]; cbn in *; [|done..].
    destruct (errors_Is e UnresolvedRewound); [|done].
    destruct Hin as (p & ? & ? & ?). exists p. set_solver.
  - intros s Hs. rewrite app_nil_r. cbn in Hrun. destruct Hrun as [Hp|[Hc Hp]].
    + right. exists (kafkaJSRecordPosition r). split; [done|]. by eapply ordered_covers.
    + apply elem_of_cons in Hs as [->|Hs]; [left; by apply settled_complete|right].
      destruct rest as [|n rest]; [by apply elem_of_nil in Hs|].
      exists (kafkaJSRecordPosition n). split; [done|]. eapply ordered_covers; [by eapply ordered_tail|done].
Qed.

(** Batches *)

Lemma last_cons_eq (r0 s : KRecord) rest : List.last (s :: rest) r0 = List.last rest s.
Proof.
  revert r0 s. induction rest as [|x rest IH]; intros r0 s; [done|].
  change (List.last (x :: rest) r0 = List.last (x :: rest) s). by rewrite !IH.
Qed.

Lemma last_in (r0 : KRecord) rest : List.last rest r0 ∈ r0 :: rest.
Proof.
  revert r0. induction rest as [|r rest IH]; intros r0; [by left|]. rewrite last_cons_eq. right. apply IH.
Qed.

Lemma last_bound r0 rest r :
  ordered (r0 :: rest) -> r ∈ r0 :: rest ->
  tp_of_record (List.last rest r0) = tp_of_record r /\ (Offset r <= Offset (List.last rest r0))%Z.
Proof.
  intros Ho Hr. split; [apply (ordered_partition _ Ho); [apply last_in|done]|].
  revert r0 r Ho Hr. induction rest as [|s rest IH]; intros r0 r Ho Hr.
  { apply list_elem_of_singleton in Hr as ->. cbn. lia. }
  rewrite last_cons_eq. pose proof (ordered_tail _ _ Ho) as Ht.
  apply elem_of_cons in Hr as [->|Hr]; [|by apply IH].
  destruct Ho as [_ Ho]. inversion Ho as [|? ? _ Hf]; subst. rewrite Forall_forall in Hf.
  specialize (Hf s ltac:(left)). specialize (IH s s Ht ltac:(left)). lia.
Qed.

Lemma settled_last t r0 rest r :
  ordered (r0 :: rest) -> r ∈ r0 :: rest ->
  EvComplete (kafkaJSRecordPosition (List.last rest r0)) ∈ t -> settled t r.
Proof.
  intros Ho Hr Hc. destruct (last_bound _ _ _ Ho Hr). eexists. split; [exact Hc|]. done.
Qed.

Lemma resolve_batch_post lastFetched p h t e :
  resolve_batch IsRetriable KafkaError configAutoCommit isAutoCommit w lastFetched p h = (t, e) ->
  match e with
  | None => EvComplete (kafkaJSRecordPosition lastFetched) ∈ t
  | Some e => errors_Is e UnresolvedRewound = false /\ plan e = [p]
  end.
Proof.
  intros H. unfold resolve_batch in H. run_inv. apply resolve_foreign in Hrun.
  match type of Hrun with foreign_answer (Returned ?x) => destruct x as [fe|] end; cbn in *;
    [rewrite foreign_undecided in Hrun0 by done|]; run_inv; [|set_solver].
  by pose proof (foreign_unresolved _ Hrun).
Qed.

Lemma retried_at t e p r : errors_Is e UnresolvedRewound = false -> plan e = [p] -> covers p r -> retried t (Some e) r.
Proof. intros Hu Hp Hc. cbn. rewrite Hu, Hp. exists p. split; [by left|done]. Qed.

Lemma visible_ordered group : ordered group -> ordered (visible_records group).
Proof.
  intros [Hp Ho]. split.
  - intros r s Hr Hs. apply list_elem_of_filter in Hr as [_ Hr], Hs as [_ Hs]. by apply Hp.
  - clear Hp. induction Ho as [|r g Ho IH Hf]; [constructor|]. unfold visible_records in *. rewrite filter_cons.
    case_decide; [|done]. constructor; [done|]. rewrite Forall_forall in Hf |- *.
    intros s [_ Hs]%list_elem_of_filter. by apply Hf.
Qed.

Lemma pre_commit_batch_run pr r h t x :
  pre_commit_batch IsRetriable isAutoCommit opts w pr r h = (t, x) ->
  match x with
  | Err e => foreign e = true
  | Ok pr' => pr' = pr \/ EvComplete (kafkaJSRecordPosition r) ∈ t /\ pr' = markConsumerWorkerCommitted pr
  end /\ (before = true -> is_ok x = true -> EvComplete (kafkaJSRecordPosition r) ∈ t).
Proof.
  unfold pre_commit_batch. destruct before; intros H; run_inv; [|by split; [left|]].
  destruct (CommitRecords_run _ _ _ _ _ Hrun) as [Hf _].
  case_match; run_inv; [done|]. split; [right; split; [|done]|intros _ _]; set_solver.
Qed.

Lemma batch_group_post group h t x :
  ordered group ->
  batch_group IsRetriable KafkaError configAutoCommit isAutoCommit opts w group h = (t, x) ->
  group_post (visible_records group) t x.
Proof.
  intros Ho H. destruct group as [|r0 rest]; [by intros ? ?%elem_of_nil|].
  pose proof (visible_ordered _ Ho) as Hv. unfold batch_group in H.
  destruct (visible_records (r0 :: rest)) as [|v0 vs] eqn:Ev; [by intros ? ?%elem_of_nil|].
  intros r Hr. pose proof (ordered_covers _ _ _ Hv Hr) as Hc.
  assert (r ∈ r0 :: rest) as Hin by (rewrite <- Ev in Hr; by apply list_elem_of_filter in Hr as [_ ?]).
  pose proof (fun t => settled_last t _ _ _ Ho Hin) as Hsettle. clear Hin.
  run_inv. apply pre_commit_batch_run in Hrun as [Hpre Hb].
  match type of Hpre with context [match ?a with Ok _ => _ | Err _ => _ end] => destruct a as [pr|e] end; cbn [is_ok] in *; run_inv; cycle 1.
  { right. cbn. rewrite foreign_undecided by done. eapply retried_at; [|done..]. by apply foreign_unresolved in Hpre. }
  match goal with Hw : context [w_batch_handler w ?h ?b] |- _ =>
    pose proof (fw_batch_handler _ w_foreign h b) as Hh; destruct (w_batch_handler w h b) as [[he|]|] end; cbn [foreign_answer] in Hh.
  - destruct before eqn:Eb; run_inv; [left; apply Hsettle; set_solver|right].
    eapply retried_at; [by apply foreign_unresolved in Hh|done..].
  - destruct before eqn:Eb; run_inv; [left; apply Hsettle; set_solver|].
    match goal with Hx : resolve_batch _ _ _ _ _ _ _ _ = (?t, ?e) |- _ => apply resolve_batch_post in Hx; destruct e as [e|]; [destruct Hx|] end.
    + right. by eapply retried_at.
    + left. apply Hsettle. set_solver.
  - run_inv. destruct Hpre as [->|[Hd ->]]; [right; by exists (kafkaJSRecordPosition v0)|].
    left. apply Hsettle. set_solver.
Qed.
End accounting.

(** ** Waves *)

(** The wave's error, or a worker itself, asks for the record again. *)
Definition wave_retried (t : list kev) (e : option gerr) (r : KRecord) : Prop :=
  (e <> None /\ exists p, covers p r /\ EvRemember [p] ∈ t /\ EvSetOffsets [p] ∈ t) \/
  exists e', e = Some e' /\ errors_Is e' UnresolvedRewound = false /\ exists p, p ∈ plan e' /\ covers p r.

Lemma collect_errors_join errs err :
  err ∈ errs -> errors_Is err UnresolvedRewound = false ->
  exists e', collect_errors errs = Some e' /\ errors_Is e' UnresolvedRewound = false /\ forall p, p ∈ plan err -> p ∈ plan e'.
Proof.
  intros Hin Hu. unfold collect_errors.
  set (fs := filter (fun e => errors_Is e UnresolvedRewound = false) errs).
  assert (err ∈ fs) as Hf by by apply list_elem_of_filter.
  assert (errors_Is (EJoin fs) UnresolvedRewound = false) as Hj.
  { unfold errors_Is. cbn. apply existsb_none. rewrite Forall_forall. by intros x [Hx _]%list_elem_of_filter. }
  assert (forall p, p ∈ plan err -> p ∈ plan (EJoin fs)) as Hp.
  { intros p Hp. cbn. apply list_elem_of_In, in_flat_map. exists err. by rewrite <- !list_elem_of_In. }
  destruct fs as [|f fs']; [by apply elem_of_nil in Hf|]. eauto.
Qed.

Lemma collect_errors_some errs err : err ∈ errs -> collect_errors errs <> None.
Proof.
  unfold collect_errors. destruct (filter _ errs); [|done]. destruct errs; [by intros ?%elem_of_nil|done].
Qed.

Lemma retried_wave t u errs err r :
  err ∈ errs -> u ⊆ t -> retried u (Some err) r -> wave_retried t (collect_errors errs) r.
Proof.
  intros Hin Hs. cbn. destruct (errors_Is err UnresolvedRewound) eqn:Eu.
  - intros (p & Hc & Hr & Hset). left. split; [by eapply collect_errors_some|]. exists p. auto.
  - intros (p & Hp & Hc). right. destruct (collect_errors_join _ _ Hin Eu) as (e' & -> & Hu & Hp').
    exists e'. split_and!; [done..|]. exists p. auto.
Qed.

Section wave.
Context (process : world -> list KRecord -> TM kev (result progress (option gerr)))
        (answered : list KRecord -> list KRecord).
Context (process_post : forall w g t x, foreign_world w -> ordered g ->
           process w g [] = (t, x) -> group_post (answered g) t x).

Lemma worker_post w g t e r :
  foreign_world w -> ordered g -> worker (process w) g [] = (t, e) -> r ∈ answered g ->
  settled t r \/ retried t e r.
Proof.
  intros Hw Ho H Hr. unfold worker in H. run_inv. rewrite app_nil_r.
  destruct (process_post _ _ _ _ Hw Ho Hrun r Hr) as [|Hx]; [by left|right].
  match goal with |- retried _ (match ?x with _ => _ end) _ => destruct x as [e|pr]; [done|] end.
  destruct Hx as (p & Ep & Hc). cbn. rewrite Ep. exists p. split; [by left|done].
Qed.

Lemma wave_post ctx_done groups t e g r :
  runKafkaJSRecordGroups process foreign_world ctx_done groups t e ->
  g ∈ groups -> ordered g -> r ∈ answered g ->
  ctx_done = true \/ settled t r \/ wave_retried t e r.
Proof.
  intros [outs errs t' Houts Ht Herrs] Hg Ho Hr. apply list_elem_of_lookup in Hg as [i Hg].
  destruct (Forall2_lookup_l _ _ _ _ _ Houts Hg) as (o & Ho' & Hrun).
  destruct o as [|u eo]; [by left|]. destruct Hrun as (w & Hw & Hrun). right.
  assert (u ⊆ t') as Hsub.
  { intros x. eapply interleaved_sub; [done|]. rewrite list_lookup_fmap, Ho'. done. }
  destruct (worker_post _ _ _ _ _ Hw Ho Hrun Hr) as [Hs|Hx]; [left; by eapply settled_weaken|right].
  destruct eo as [err|]; [|done]. eapply retried_wave; [|done..].
  rewrite Herrs. apply list_elem_of_omap. exists (Finished u (Some err)).
  split; [by eapply list_elem_of_lookup_2|done].
Qed.
End wave.

(** ** No offset moves past a record whose handler has not succeeded *)

Definition handled_ok (t : list kev) (r : KRecord) : Prop :=
  EvHandler [kafkaJSPayload r] (Returned None) ∈ t \/
  exists b, EvBatchHandler b (Returned None) ∈ t /\ kafkaJSPayload r ∈ b_Messages b.

(** The partition and the offset a call makes the group resume from. *)
Definition moves (ev : kev) : option (tp * Z) :=
  match ev with
  | EvCommitRecords r _ | EvMarkCommitRecords r => Some (tp_of_record r, (Offset r + 1)%Z)
  | EvCommitOffsets p exact _ _ _ => Some (p, exact)
  | _ => None
  end.

Definition careful (records : list KRecord) (t : list kev) : Prop :=
  forall t1 ev t2 p o, t = t1 ++ ev :: t2 -> moves ev = Some (p, o) ->
  (exists s, s ∈ records /\ tp_of_record s = p) /\
  forall r, r ∈ records -> IsControl r = false -> tp_of_record r = p -> (Offset r < o)%Z -> handled_ok t1 r.

Lemma handled_ok_weaken t t' r : t ⊆ t' -> handled_ok t r -> handled_ok t' r.
Proof. unfold handled_ok. set_solver. Qed.

Lemma still_moves t1 ev t2 p o t :
  Forall (fun x => moves x = None) t -> t = t1 ++ ev :: t2 -> moves ev = Some (p, o) -> False.
Proof.
  intros H. apply (quiet_split (fun x => moves x = Some (p, o))).
  eapply Forall_impl; [exact H|]. intros x Hx. congruence.
Qed.

Section careful.
Context (IsRetriable : gerr -> bool) (KafkaError : Z -> gerr) (configAutoCommit isAutoCommit : bool)
        (opts : ConsumerAdvancedOptions).
Context (no_finalizer : OffsetFinalizer opts = false) (no_null : NullOffsetCommitMetadata opts = false)
        (not_before : commit_before isAutoCommit opts = false) (w : world).

Abbreviation resolve := (resolveKafkaJSRecord IsRetriable KafkaError configAutoCommit isAutoCommit w).

Lemma resolve_moves r h t e :
  resolve r false h = (t, e) -> exists ev, t = [ev] /\ moves ev = Some (tp_of_record r, (Offset r + 1)%Z).
Proof.
  unfold resolveKafkaJSRecord, CommitRecords. intros H. destruct (isAutoCommit && configAutoCommit); run_inv; by eexists.
Qed.

(** A trace with one event that moves an offset. *)
Lemma only_moves t0 ev t3 t1 x t2 p o :
  Forall (fun x => moves x = None) t0 -> Forall (fun x => moves x = None) t3 ->
  t0 ++ ev :: t3 = t1 ++ x :: t2 -> moves x = Some (p, o) -> x = ev /\ t1 = t0.
Proof.
  intros H0 H3. apply (sole_split (fun x => moves x = Some (p, o)));
    eapply Forall_impl; eauto; intros y Hy; congruence.
Qed.

Lemma processRecord_careful pr r h t x :
  processRecord IsRetriable KafkaError configAutoCommit isAutoCommit opts w pr r h = (t, x) ->
  (x = Ok None -> IsControl r = false -> handled_ok t r) /\
  (forall t1 ev t2 p o, t = t1 ++ ev :: t2 -> moves ev = Some (p, o) ->
     p = tp_of_record r /\ o = (Offset r + 1)%Z /\ (IsControl r = false -> handled_ok t1 r)).
Proof.
  intros H. unfold processRecord, pre_commit in H. rewrite no_finalizer, not_before, no_null in H.
  destruct (IsControl r) eqn:Ec.
  { run_inv. apply resolve_moves in Hrun as (ev & -> & Hev). split; [done|].
    intros t1 x t2 p o E Hm. apply (only_moves [] _ [] _ _ _ p o) in E as [-> _]; [by simplify_eq|constructor..|done]. }
  run_inv. run_inv. cbn [app]. destruct (w_handler w (h ++ []) [kafkaJSPayload r]) as [[he|]|]; run_inv.
  - split; [done|]. intros t1 ev t2 p o E Hm. exfalso. eapply still_moves; [|exact E|exact Hm]. by repeat constructor.
  - apply resolve_moves in Hrun as (ev & -> & Hev).
    assert (handled_ok [EvHandler [kafkaJSPayload r] (Returned None)] r) as Hh by (left; by left).
    split; [intros _ _; eapply handled_ok_weaken; [|done]; set_solver|].
    intros t1 x t2 p o E Hm. rewrite app_nil_r in E.
    apply (only_moves [_] _ [] _ _ _ p o) in E as [-> ->]; [by simplify_eq|by repeat constructor..|done].
  - split; [done|]. intros t1 ev t2 p o E Hm. exfalso. eapply still_moves; [|exact E|exact Hm]. by repeat constructor.
Qed.

Lemma message_group_careful group h t x :
  ordered group ->
  message_group IsRetriable KafkaError configAutoCommit isAutoCommit opts w group h = (t, x) ->
  careful group t.
Proof.
  revert h t x. induction group as [|r rest IH]; intros h t x Ho H; cbn [message_group] in H; run_inv.
  { intros t1 ev t2 p o E. by destruct t1. }
  apply processRecord_careful in Hrun as [Hok Hmv].
  assert (forall t1 ev t2 p o, x0 = t1 ++ ev :: t2 -> moves ev = Some (p, o) ->
    (exists s, s ∈ r :: rest /\ tp_of_record s = p) /\
    forall s, s ∈ r :: rest -> IsControl s = false -> tp_of_record s = p -> (Offset s < o)%Z -> handled_ok t1 s) as Hhead.
  { intros t1 ev t2 p o E Hm. destruct (Hmv _ _ _ _ _ E Hm) as (-> & -> & Hh).
    split; [exists r; split; [by left|done]|]. intros s [->|Hs]%elem_of_cons Hc _ Hlt; [by apply Hh|].
    destruct Ho as [_ Ho]. inversion Ho as [|? ? _ Hf]; subst. rewrite Forall_forall in Hf. apply Hf in Hs. lia. }
  destruct x1 as [[e|]|pr]; run_inv.
  - intros t1 ev t2 p o E. rewrite app_nil_r in E. by eapply Hhead.
  - lazymatch goal with Hg : message_group _ _ _ _ _ _ rest _ = _ |- _ => pose proof (IH _ _ _ (ordered_tail _ _ Ho) Hg) as Hrest end.
    intros t1 ev t2 p o [(l & E)|(l & -> & E)]%app_split Hm; [by eapply Hhead|].
    destruct l as [|y l]; cbn in E; simplify_eq.
    destruct (Hrest _ _ _ _ _ eq_refl Hm) as [(s & Hs & <-) Hh]. split; [exists s; split; [by right|done]|].
    intros s' [->|Hs']%elem_of_cons Hc Hp Hlt; [apply (handled_ok_weaken x0); [set_solver|by apply Hok]|].
    eapply handled_ok_weaken; [|by apply Hh]. set_solver.
  - intros t1 ev t2 p o E. rewrite app_nil_r in E. by eapply Hhead.
Qed.

Lemma resolve_batch_moves r p h t e :
  resolve_batch IsRetriable KafkaError configAutoCommit isAutoCommit w r p h = (t, e) ->
  exists ev t', t = ev :: t' /\ Forall (fun x => moves x = None) t' /\
    moves ev = Some (tp_of_record r, (Offset r + 1)%Z).
Proof.
  unfold resolve_batch. intros H. run_inv. apply resolve_moves in Hrun as (ev & -> & Hev).
  exists ev. destruct (withConsumerRewindPosition _ p); run_inv; eexists; (split; [done|]); by repeat constructor.
Qed.

Lemma batch_group_careful group h t x :
  ordered group ->
  batch_group IsRetriable KafkaError configAutoCommit isAutoCommit opts w group h = (t, x) ->
  careful group t.
Proof.
  intros Ho H. destruct group as [|r0 rest].
  { cbn in H. run_inv. intros t1 ev t2 p o E. by destruct t1. }
  assert (forall t0 ev t', Forall (fun x => moves x = None) t0 -> Forall (fun x => moves x = None) t' ->
    moves ev = Some (tp_of_record (List.last rest r0), (Offset (List.last rest r0) + 1)%Z) ->
    (forall s, s ∈ visible_records (r0 :: rest) -> handled_ok t0 s) -> careful (r0 :: rest) (t0 ++ ev :: t')) as Hone.
  { intros t0 ev t' H0 H' Hev Hh t1 y t2 p o E Hm.
    apply (only_moves _ _ _ _ _ _ p o) in E as [-> ->]; [|done..]. simplify_eq.
    split; [by eexists; split; [apply last_in|]|]. intros s Hs Hc _ _. apply Hh. by apply list_elem_of_filter. }
  assert (forall t0, Forall (fun x => moves x = None) t0 -> careful (r0 :: rest) t0) as Hnone.
  { intros t0 H0 t1 ev t2 p o E Hm. by destruct (still_moves _ _ _ _ _ _ H0 E Hm). }
  unfold batch_group, pre_commit_batch in H. rewrite not_before in H.
  destruct (visible_records (r0 :: rest)) as [|v0 vs] eqn:Ev; run_inv.
  { apply resolve_batch_moves in Hrun as (ev & t' & -> & Ht' & Hev). rewrite app_nil_r.
    apply (Hone []); [constructor|done..|]. by intros ? ?%elem_of_nil. }
  run_inv. cbn [app]. destruct (w_batch_handler w _ _) as [[he|]|]; run_inv.
  - apply Hnone. by repeat constructor.
  - apply resolve_batch_moves in Hrun as (ev & t' & -> & Ht' & Hev). rewrite app_nil_r.
    apply (Hone [_]); [by repeat constructor|done..|]. intros s Hs. right. eexists. split; [by left|].
    cbn. change (kafkaJSPayload s ∈ kafkaJSPayload <$> v0 :: vs). apply list_elem_of_fmap. by exists s.
  - apply Hnone. by repeat constructor.
Qed.
End careful.

(** ** Commit before the handler: at most once *)

(** The messages a call hands to the application. *)
Definition hands (ev : kev) : list MessagePayload :=
  match ev with
  | EvHandler ms _ => ms
  | EvBatchHandler b _ => b_Messages b
  | _ => []
  end.

(** Each message handed over lies at or before a record committed earlier. *)
Definition committed_first (t : list kev) : Prop :=
  forall t1 ev t2 m, t = t1 ++ ev :: t2 -> m ∈ hands ev ->
  exists r, EvCommitRecords r None ∈ t1 /\
    (m_Topic m, m_Partition m) = tp_of_record r /\ (m_Offset m <= Offset r)%Z.

Lemma committed_first_none t : Forall (fun ev => hands ev = []) t -> committed_first t.
Proof.
  intros H t1 ev t2 m -> Hm. apply Forall_app in H as [_ H]. inversion H as [|? ? He]; subst.
  rewrite He in Hm. by apply elem_of_nil in Hm.
Qed.

Lemma committed_first_app a b : committed_first a -> committed_first b -> committed_first (a ++ b).
Proof.
  intros Ha Hb t1 ev t2 m [(l & E)|(l & -> & E)]%app_split Hm; [by eapply Ha|].
  destruct (Hb _ _ _ _ E Hm) as (r & Hr & ?). exists r. set_solver.
Qed.

(** A handler call behind the commit of a record that bounds its messages. *)
Lemma committed_first_call r ev :
  (forall m, m ∈ hands ev -> (m_Topic m, m_Partition m) = tp_of_record r /\ (m_Offset m <= Offset r)%Z) ->
  forall a b, EvCommitRecords r None ∈ a -> committed_first a -> committed_first b -> committed_first (a ++ ev :: b).
Proof.
  intros Hev a b Hin Ha Hb t1 x t2 m [(l & E)|(l & -> & E)]%app_split Hm; [by eapply Ha|].
  destruct l as [|y l]; cbn in E; simplify_eq.
  - exists r. split; [by rewrite app_nil_r|by apply Hev].
  - destruct (Hb _ _ _ _ eq_refl Hm) as (s & Hs & ?). exists s. set_solver.
Qed.

Section committed.
Context (IsRetriable : gerr -> bool) (KafkaError : Z -> gerr) (configAutoCommit isAutoCommit : bool)
        (opts : ConsumerAdvancedOptions).
Context (before : commit_before isAutoCommit opts = true) (w : world).

Lemma CommitRecords_quiet message r h t e :
  CommitRecords IsRetriable w message r h = (t, e) ->
  Forall (fun ev => hands ev = []) t /\ (e = None -> EvCommitRecords r None ∈ t).
Proof.
  unfold CommitRecords. intros H. run_inv. split; [by repeat constructor|].
  destruct (w_CommitRecords w h); [done|]. intros _. by left.
Qed.

Lemma exact_quiet r exact meta h t e :
  commitKafkaJSExact IsRetriable KafkaError w r exact meta h = (t, e) -> Forall (fun ev => hands ev = []) t.
Proof. unfold commitKafkaJSExact. intros H. run_inv. by repeat constructor. Qed.

Lemma resolve_quiet r meta h t e :
  resolveKafkaJSRecord IsRetriable KafkaError configAutoCommit isAutoCommit w r meta h = (t, e) ->
  Forall (fun ev => hands ev = []) t.
Proof.
  unfold resolveKafkaJSRecord. intros H. repeat case_match; run_inv; [by repeat constructor|by eapply exact_quiet|].
  by eapply CommitRecords_quiet.
Qed.

Lemma run_finalizer_quiet r called f h t a :
  run_finalizer IsRetriable KafkaError opts w r called f h = (t, a) -> Forall (fun ev => hands ev = []) t.
Proof.
  revert called h t a. induction f as [e| |exact k IH]; intros called h t a H; cbn in H; [by run_inv; constructor..|].
  destruct called; [by eapply IH|]. run_inv. apply Forall_app. split; [by eapply exact_quiet|by eapply IH].
Qed.

Lemma finalize_quiet pr r he h t x :
  finalize IsRetriable KafkaError configAutoCommit isAutoCommit opts w pr r he h = (t, x) ->
  Forall (fun ev => hands ev = []) t.
Proof.
  unfold finalize, OffsetFinalizer_call. intros H. run_inv.
  match goal with Hf : run_finalizer _ _ _ _ _ _ _ _ = _ |- _ => apply run_finalizer_quiet in Hf end.
  rewrite !Forall_app. split; [split; [done|by repeat constructor]|].
  repeat case_match; run_inv; repeat constructor. rewrite app_nil_r. by eapply resolve_quiet.
Qed.

Lemma pre_commit_first pr r h t x :
  pre_commit IsRetriable isAutoCommit opts w pr r h = (t, x) ->
  Forall (fun ev => hands ev = []) t /\ (is_ok x = true -> EvCommitRecords r None ∈ t).
Proof.
  unfold pre_commit. rewrite before. intros H. run_inv. apply CommitRecords_quiet in Hrun as [Hq Hin].
  case_match; run_inv; rewrite Forall_app; (split; [split; [done|by repeat constructor]|]); [done|]. set_solver.
Qed.

Lemma pre_commit_batch_first pr r h t x :
  pre_commit_batch IsRetriable isAutoCommit opts w pr r h = (t, x) ->
  Forall (fun ev => hands ev = []) t /\ (is_ok x = true -> EvCommitRecords r None ∈ t).
Proof.
  unfold pre_commit_batch. rewrite before. intros H. run_inv. apply CommitRecords_quiet in Hrun as [Hq Hin].
  case_match; run_inv; rewrite Forall_app; (split; [split; [done|by repeat constructor]|]); [done|]. set_solver.
Qed.

Lemma processRecord_first pr r h t x :
  processRecord IsRetriable KafkaError configAutoCommit isAutoCommit opts w pr r h = (t, x) -> committed_first t.
Proof.
  unfold processRecord. intros H. destruct (IsControl r); run_inv.
  { rewrite app_nil_r. by apply committed_first_none; eapply resolve_quiet. }
  apply pre_commit_first in Hrun as [Hq Hin].
  match type of Hin with is_ok ?y = true -> _ => destruct y as [pr'|e] end; run_inv; cycle 1.
  { rewrite app_nil_r. by apply committed_first_none. }
  cbn [app]. apply (committed_first_call r); [|by apply Hin|by apply committed_first_none|].
  - by intros m ->%list_elem_of_singleton.
  - apply committed_first_none. rewrite before in *.
    repeat case_match; run_inv; try constructor. by eapply finalize_quiet.
Qed.

Lemma message_group_first group h t x :
  message_group IsRetriable KafkaError configAutoCommit isAutoCommit opts w group h = (t, x) -> committed_first t.
Proof.
  revert h t x. induction group as [|r rest IH]; intros h t x H; cbn [message_group] in H; run_inv.
  { by apply committed_first_none. }
  apply committed_first_app; [by eapply processRecord_first|].
  repeat case_match; run_inv; try by apply committed_first_none.
  apply (committed_first_app [_]); [by apply committed_first_none; repeat constructor|by eapply IH].
Qed.

Lemma batch_group_first group h t x :
  ordered group ->
  batch_group IsRetriable KafkaError configAutoCommit isAutoCommit opts w group h = (t, x) -> committed_first t.
Proof.
  intros Ho H. destruct group as [|r0 rest]; [cbn in H; run_inv; by apply committed_first_none|].
  unfold batch_group in H. destruct (visible_records (r0 :: rest)) as [|v0 vs] eqn:Ev; run_inv.
  { rewrite app_nil_r. unfold resolve_batch in Hrun. run_inv. apply resolve_quiet in Hrun0.
    apply committed_first_none, Forall_app. split; [done|]. case_match; run_inv; by repeat constructor. }
  apply pre_commit_batch_first in Hrun as [Hq Hin].
  match type of Hin with is_ok ?y = true -> _ => destruct y as [pr'|e] end; run_inv; cycle 1.
  { rewrite app_nil_r. by apply committed_first_none. }
  cbn [app]. apply (committed_first_call (List.last rest r0)); [|by apply Hin|by apply committed_first_none|].
  - intros m Hm. cbn in Hm. change (m ∈ kafkaJSPayload <$> v0 :: vs) in Hm.
    apply list_elem_of_fmap in Hm as (s & -> & Hs). rewrite <- Ev in Hs. apply list_elem_of_filter in Hs as [_ Hs].
    destruct (last_bound _ _ _ Ho Hs) as [E Hle]. cbn. by rewrite E.
  - apply committed_first_none. rewrite before in *. repeat case_match; run_inv; by repeat constructor.
Qed.
End committed.

(** ** From workers to waves *)

(** An event of a wave is an event of one of its workers, and what that worker
    did before it was done before it. *)
Lemma wave_event process possible ctx_done records t1 ev t2 e :
  (forall p, ordered (filter (of_partition p) records)) ->
  runKafkaJSRecordGroups process possible ctx_done (groupKafkaJSRecords records) (t1 ++ ev :: t2) e ->
  exists w g u1 u2 x, ordered g /\ process w g [] = (u1 ++ ev :: u2, x) /\ u1 ⊆ t1 /\
    g ⊆ records /\ forall r s, s ∈ g -> r ∈ records -> tp_of_record r = tp_of_record s -> r ∈ g.
Proof.
  intros Ho H. inversion H as [outs errs t' Houts Ht _ Et]; subst.
  apply interleaved_split in Ht as (i & u1 & u2 & Hi & Hsub).
  rewrite list_lookup_fmap in Hi. apply fmap_Some in Hi as (out & Hout & Eo).
  destruct (Forall2_lookup_r _ _ _ _ _ Houts Hout) as (g & Hg & Hrun).
  destruct out as [|u eo]; [by destruct u1|]. cbn in Eo. subst u.
  destruct Hrun as (w & _ & Hrun). unfold worker in Hrun. run_inv.
  match goal with Hu : _ = _ ++ [] |- _ => rewrite app_nil_r in Hu; rewrite <- Hu in * end.
  destruct (groups_lookup _ _ _ Hg) as [Hne Hall].
  assert (exists s, s ∈ g) as [s0 Hs0] by (destruct g as [|s g]; [done|exists s; by left]).
  eexists w, g, u1, u2, _. split_and!; [rewrite (Hall _ Hs0); apply Ho|done|done| |].
  - intros r Hr. rewrite (Hall _ Hs0) in Hr. by apply list_elem_of_filter in Hr as [_ ?].
  - intros r s Hs Hr Er. rewrite (Hall s Hs). by apply list_elem_of_filter.
Qed.

Lemma wave_careful process possible ctx_done records t e :
  (forall w g t x, ordered g -> process w g [] = (t, x) -> careful g t) ->
  (forall p, ordered (filter (of_partition p) records)) ->
  runKafkaJSRecordGroups process possible ctx_done (groupKafkaJSRecords records) t e ->
  careful records t.
Proof.
  intros Hp Ho Hrun t1 ev t2 p o -> Hm.
  destruct (wave_event _ _ _ _ _ _ _ _ Ho Hrun) as (w & g & u1 & u2 & x & Hog & Hw & Hsub & Hg & Hin).
  destruct (Hp _ _ _ _ Hog Hw _ _ _ _ _ eq_refl Hm) as [(s & Hs & Es) Hh].
  split; [exists s; auto|]. intros r Hr Hc Er Hlt. apply (handled_ok_weaken u1); [done|].
  apply Hh; [|done..]. apply (Hin r s); [done..|congruence].
Qed.

Lemma wave_first process possible ctx_done records t e :
  (forall w g t x, ordered g -> process w g [] = (t, x) -> committed_first t) ->
  (forall p, ordered (filter (of_partition p) records)) ->
  runKafkaJSRecordGroups process possible ctx_done (groupKafkaJSRecords records) t e ->
  committed_first t.
Proof.
  intros Hp Ho Hrun t1 ev t2 m -> Hm.
  destruct (wave_event _ _ _ _ _ _ _ _ Ho Hrun) as (w & g & u1 & u2 & x & Hog & Hw & Hsub & _).
  destruct (Hp _ _ _ _ Hog Hw _ _ _ _ eq_refl Hm) as (r & Hr & ?). exists r. auto.
Qed.
