(* ===== verification/KafkaConsumer.v ===== *)
(** * package kafka, the KafkaJS-compatible consumer

    The shared state of franzKafkaJS2CompatConsumer
    (kafka/franz_kafkajs2_compat_consumer.go) and everything that changes it:
    Connect, beginRun, the polls and waves of a run, the recovery boundaries
    that outlive an assignment, prepareTransientRunRetry and Close, as a step
    relation.  A step is what one critical section or one driver call does;
    whatever the driver, the application and the other goroutines may do in
    between is another step. *)

From S2P Require Import Prelude.
From S2P Require Import GoStrings.
From S2P Require Import KafkaErrors.
From S2P Require Import KafkaWorker.

(** ** Recovery boundaries *)

(** rememberRecoveryPositions *)
Definition rememberRecoveryPositions (closed : bool) (positions pending : list position) : list position :=
  if closed then pending else mergeConsumerRewindPositions pending positions.

(** completeRecoveryPosition *)
Definition outlives (completed : position) (p : position) : Prop :=
  tp_of p <> tp_of completed \/ (p_offset completed < p_offset p)%Z.
#[export] Instance outlives_dec completed p : Decision (outlives completed p).
Proof. unfold outlives. apply _. Defined.

Definition completeRecoveryPosition (completed : position) (pending : list position) : list position :=
  filter (outlives completed) pending.

(** kgo.Offset: where fetching of a partition starts; a negative offset is one
    of the symbolic ends, which a commit is not. *)
Record FetchOffset := MkFetchOffset { f_offset : Z; f_epoch : Z }.

(** adjustRecoveryOffsets, after the context check: the offsets of the
    assignment and the boundaries that stay pending. *)
Fixpoint adjustRecoveryOffsets (offsets : gmap tp FetchOffset) (pending : list position) :
    gmap tp FetchOffset * list position :=
  match pending with
  | [] => (offsets, [])
  | p :: rest =>
      match offsets !! tp_of p with
      | None => let (o, kept) := adjustRecoveryOffsets offsets rest in (o, p :: kept)
      | Some current =>
          if (0 <=? f_offset current)%Z then
            if (p_offset p <=? f_offset current)%Z
            then adjustRecoveryOffsets offsets rest
            else let (o, kept) := adjustRecoveryOffsets offsets rest in (o, p :: kept)
          else
            let (o, kept) := adjustRecoveryOffsets
                               (<[tp_of p := MkFetchOffset (p_offset p) (p_leaderEpoch p)]> offsets) rest in
            (o, p :: kept)
      end
  end.

(** ** The state *)

Inductive ConsumerShutdownPolicy := ConsumerShutdownCancelInFlight | ConsumerShutdownDrainInFlight.

#[export] Instance ConsumerShutdownPolicy_eq_dec : EqDecision ConsumerShutdownPolicy.
Proof. solve_decision. Defined.

(** A wave in progress: the records polled and the calls made so far. *)
Record Wave := MkWave { wave_records : list KRecord; wave_trace : list kev }.

(** Where a run is: between two polls, in a wave, or returning. *)
Inductive phase :=
| Polling
| InWave (wv : Wave)
| Discarding (after : list kev) (e : option gerr)
    (* CloseAllowingRebalance of prepareTransientRunRetry is due, then [after] *)
| Ending (e : option gerr).

(** What a run was started with; [messages] for consumeMessages, otherwise
    consumeBatches. *)
Record RunOptions := MkRunOptions { messages : bool; options : ConsumerAdvancedOptions }.

Record Run := MkRun {
  run_client : nat;
  run_options : RunOptions;
  cancelled : bool;      (* runCtx *)
  poll_stopped : bool;   (* pollCtx; it is a child of runCtx *)
  run_phase : phase
}.

(** finishClose in progress: what it captured and what it has done. *)
Inductive close_phase := Signalling | AwaitingRun | ClosingClient | CloseDone.

Record Closer := MkCloser {
  close_client : option nat;
  close_run : bool;        (* a run was captured *)
  close_at : close_phase
}.

(** Clients are numbered in the order they are made; [shut] are those closed. *)
Record Consumer := MkConsumer {
  client : option nat;
  made : nat;
  connected : bool;        (* len(topics) > 0 *)
  run : option Run;
  closed : bool;
  closer : option Closer;
  pendingRecovery : list position;
  shut : list nat
}.

Definition new_consumer : Consumer := MkConsumer None 0 false None false None [] [].

Definition set_run (r : option Run) (c : Consumer) : Consumer :=
  MkConsumer (client c) (made c) (connected c) r (closed c) (closer c) (pendingRecovery c) (shut c).
Definition set_pending (l : list position) (c : Consumer) : Consumer :=
  MkConsumer (client c) (made c) (connected c) (run c) (closed c) (closer c) l (shut c).
Definition set_closer (k : Closer) (c : Consumer) : Consumer :=
  MkConsumer (client c) (made c) (connected c) (run c) (closed c) (Some k) (pendingRecovery c) (shut c).
Definition drop_client (c : Consumer) : Consumer :=
  MkConsumer None (made c) (connected c) (run c) (closed c) (closer c) (pendingRecovery c) (shut c).
Definition shut_client (n : nat) (c : Consumer) : Consumer :=
  MkConsumer (client c) (made c) (connected c) (run c) (closed c) (closer c) (pendingRecovery c) (shut c ++ [n]).
Definition add_client (c : Consumer) : Consumer :=
  MkConsumer (Some (made c)) (S (made c)) true (run c) (closed c) (closer c) (pendingRecovery c) (shut c).

(** What a call of a worker changes here. *)
Definition apply_event (ev : kev) (c : Consumer) : Consumer :=
  match ev with
  | EvRemember positions => set_pending (rememberRecoveryPositions (closed c) positions (pendingRecovery c)) c
  | EvComplete p => set_pending (completeRecoveryPosition p (pendingRecovery c)) c
  | _ => c
  end.

Definition set_phase (p : phase) (r : Run) : Run := MkRun (run_client r) (run_options r) (cancelled r) (poll_stopped r) p.

(** ** Starting and closing *)

(** beginRun, once a client is there and no other run is. *)
Definition begin_run (n : nat) (o : RunOptions) (c : Consumer) : Consumer :=
  set_run (Some (MkRun n o false false Polling)) c.

(** The critical section of Close and of requestCloseFromRebalance. *)
Definition request_close (c : Consumer) : Consumer :=
  MkConsumer (client c) (made c) (connected c) (run c) true
    (Some (MkCloser (client c) (bool_decide (is_Some (run c))) Signalling)) (pendingRecovery c) (shut c).

(** finishClose up to its wait: a draining close stops the polls of the run it
    captured, any other cancels the run. *)
Definition signal_run (policy : ConsumerShutdownPolicy) (k : Closer) (c : Consumer) : Consumer :=
  set_closer (MkCloser (close_client k) (close_run k) (if close_run k then AwaitingRun else ClosingClient))
    (match run c with
     | Some r =>
         if close_run k then
           set_run (Some (if bool_decide (policy = ConsumerShutdownDrainInFlight)
                          then MkRun (run_client r) (run_options r) (cancelled r) true (run_phase r)
                          else MkRun (run_client r) (run_options r) true (poll_stopped r) (run_phase r))) c
         else c
     | None => c
     end).

Definition advance_closer (k : Closer) (p : close_phase) (c : Consumer) : Consumer :=
  set_closer (MkCloser (close_client k) (close_run k) p) c.

(** ** Polling *)

(** pollKafkaJSRecords: the records and errors of a poll, and the error it
    returns. *)
Section poll.
Context (IsRetriable : gerr -> bool).

Definition poll_timeout_error (e : gerr) : bool := errors_Is e DeadlineExceeded || errors_Is e Canceled.

Definition pollKafkaJSRecords (ctx_done : bool) (records : list KRecord) (errs : list gerr) : option gerr :=
  if ctx_done then None
  else
    match filter (fun e => poll_timeout_error e = false) errs with
    | [] => None
    | fetchErr :: _ =>
        let err := classify IsRetriable (EWrap "kafka/kafkajs: consume error" fetchErr) in
        if IsTransientConsumerError err && negb (Nat.eqb (length records) 0)
        then Some (EPollRewind err (kafkaJSRecordPosition <$> records))
        else Some err
    end.
End poll.

(** ** After a failure *)

(** prepareTransientRunRetry: the calls it makes and what it changes.  Closing
    the client it drops is a step of its own. *)
Definition prepareTransientRunRetry (runClient : nat) (e : gerr) (c : Consumer) : list kev * Consumer * bool :=
  let (positions, decided) := consumerRewindPositions e in
  if negb (IsTransientConsumerError e) && negb decided then ([], c, false)
  else if decided then
    match positions with
    | [] => ([], c, false)
    | _ => ([EvRemember positions; EvSetOffsets positions],
            set_pending (rememberRecoveryPositions (closed c) positions (pendingRecovery c)) c, false)
    end
  else if closed c || negb (bool_decide (client c = Some runClient)) then ([], c, false)
  else ([], drop_client c, true).

(** The branches after runKafkaJSRecordGroups in consumeMessages and
    consumeBatches. *)
Definition after_wave (r : Run) (e : option gerr) (c : Consumer) : list kev * Consumer * phase :=
  let go := if poll_stopped r || cancelled r then Ending None else Polling in
  match e with
  | None => ([EvAllowRebalance], c, go)
  | Some e =>
      if messages (run_options r) && errors_Is e UnresolvedRewound then ([EvAllowRebalance], c, go)
      else if isConsumerRunCancellation (cancelled r) e then ([EvAllowRebalance], c, Ending None)
      else
        let '(es, c, discard) := prepareTransientRunRetry (run_client r) e c in
        if discard then (es, c, Discarding [EvAllowRebalance] (Some e))
        else (es ++ [EvAllowRebalance], c, Ending (Some e))
  end.

(** ** Steps *)

Section steps.
Context (IsRetriable : gerr -> bool)     (* kerr.IsRetriable *)
        (KafkaError : Z -> gerr)         (* kerr.ErrorForCode *)
        (configAutoCommit : bool)        (* c.config.AutoCommit *)
        (policy : ConsumerShutdownPolicy).
Context (possible : world -> Prop).      (* what driver and application may do *)

Definition isAutoCommit (o : RunOptions) : bool := resolveAutoCommit configAutoCommit (o_AutoCommit (options o)).

(** The checks of consumeMessages and consumeBatches before beginRun. *)
Definition valid_options (o : RunOptions) : bool :=
  (messages o || negb (OffsetFinalizer (options o))) &&
  is_ok (validateConfluentConsumerOptions configAutoCommit (options o)
           (if messages o then 100000000 else 1000000000)%Z).

(** The callback a run gives to runKafkaJSRecordGroups. *)
Definition process_of (o : RunOptions) (w : world) : list KRecord -> TM kev (result progress (option gerr)) :=
  if messages o
  then message_group IsRetriable KafkaError configAutoCommit (isAutoCommit o) (options o) w
  else batch_group IsRetriable KafkaError configAutoCommit (isAutoCommit o) (options o) w.

Inductive cstep : Consumer -> list kev -> Consumer -> Prop :=
(* Connect, when it makes a client *)
| step_connect c :
    closed c = false -> client c = None -> cstep c [] (add_client c)
(* beginRun; a missing client is rebuilt first, which may fail *)
| step_rebuild c :
    closed c = false -> client c = None -> connected c = true -> cstep c [] (add_client c)
| step_begin c n o :
    valid_options o = true -> closed c = false -> client c = Some n -> run c = None ->
    cstep c [] (begin_run n o c)
(* a poll that returns an error *)
| step_poll_failed c r records errs e es c' discard :
    run c = Some r -> run_phase r = Polling ->
    pollKafkaJSRecords IsRetriable (poll_stopped r || cancelled r) records errs = Some e ->
    prepareTransientRunRetry (run_client r) e c = (es, c', discard) ->
    cstep c es (set_run (Some (set_phase (if discard then Discarding [] (Some e) else Ending (Some e)) r)) c')
(* a poll after which the loop returns *)
| step_poll_stopped c r records errs :
    run c = Some r -> run_phase r = Polling ->
    pollKafkaJSRecords IsRetriable (poll_stopped r || cancelled r) records errs = None ->
    cancelled r = true \/ (poll_stopped r = true /\ records = []) ->
    cstep c [] (set_run (Some (set_phase (Ending None) r)) c)
(* a poll whose records go to a wave *)
| step_poll c r records errs :
    run c = Some r -> run_phase r = Polling ->
    pollKafkaJSRecords IsRetriable (poll_stopped r || cancelled r) records errs = None ->
    cancelled r = false -> (poll_stopped r = true -> records <> []) ->
    cstep c [] (set_run (Some (set_phase (InWave (MkWave records [])) r)) c)
(* a call of one of the wave's workers *)
| step_event c r wv ev :
    run c = Some r -> run_phase r = InWave wv ->
    cstep c [ev] (set_run (Some (set_phase (InWave (MkWave (wave_records wv) (wave_trace wv ++ [ev]))) r))
                    (apply_event ev c))
(* all workers have returned *)
| step_wave_end c r wv e es c' p :
    run c = Some r -> run_phase r = InWave wv ->
    runKafkaJSRecordGroups (process_of (run_options r)) possible (cancelled r)
      (groupKafkaJSRecords (wave_records wv)) (wave_trace wv) e ->
    after_wave r e c = (es, c', p) ->
    cstep c es (set_run (Some (set_phase p r)) c')
(* prepareTransientRunRetry closes the client it dropped *)
| step_discard c r after e :
    run c = Some r -> run_phase r = Discarding after e ->
    cstep c (EvCloseClient :: after) (shut_client (run_client r) (set_run (Some (set_phase (Ending e) r)) c))
(* the deferred AllowRebalance, then finish *)
| step_finish c r e :
    run c = Some r -> run_phase r = Ending e -> cstep c [EvAllowRebalance] (set_run None c)
(* the driver assigns partitions: adjustRecoveryOffsets *)
| step_assigned c offsets :
    cstep c [] (set_pending (adjustRecoveryOffsets offsets (pendingRecovery c)).2 c)
(* Close or requestCloseFromRebalance, the first of them *)
| step_close c : closed c = false -> cstep c [] (request_close c)
(* finishClose: stop polling, or cancel the run *)
| step_signal c k :
    closer c = Some k -> close_at k = Signalling -> cstep c [] (signal_run policy k c)
(* finishClose has received from runDone *)
| step_joined c k :
    closer c = Some k -> close_at k = AwaitingRun -> run c = None ->
    cstep c [] (advance_closer k ClosingClient c)
(* finishClose closes the client and is done *)
| step_close_client c k n :
    closer c = Some k -> close_at k = ClosingClient -> close_client k = Some n ->
    cstep c [EvCloseClient] (advance_closer k CloseDone (shut_client n c))
| step_close_none c k :
    closer c = Some k -> close_at k = ClosingClient -> close_client k = None ->
    cstep c [] (advance_closer k CloseDone c).

Inductive reachable : Consumer -> Prop :=
| reachable_new : reachable new_consumer
| reachable_step c t c' : reachable c -> cstep c t c' -> reachable c'.
End steps.
