(* ===== verification/KafkaConsumerProofs.v ===== *)
(** * package kafka, what the KafkaJS-compatible consumer guarantees

    A wave that ends leaves no record behind the fetch position unsettled; the
    offsets follow the handlers; a remembered boundary decides where the next
    assignment starts; Close waits for the run and closes every client once. *)

From S2P Require Import Prelude.
From S2P Require Import GoStrings.
From S2P Require Import KafkaErrors.
From S2P Require Import KafkaWorker.
From S2P Require Import KafkaWorkerProofs.
From S2P Require Import KafkaConsumer.

Section guarantees.
Context (IsRetriable : gerr -> bool) (KafkaError : Z -> gerr) (configAutoCommit : bool)
        (policy : ConsumerShutdownPolicy).

Abbreviation process := (process_of IsRetriable KafkaError configAutoCommit).
Abbreviation reached := (reachable IsRetriable KafkaError configAutoCommit policy foreign_world).

(** ** Waves *)

(** The records a run hands to the application, with the control records whose
    offsets message runs move too. *)
Definition answered (o : RunOptions) (group : list KRecord) : list KRecord :=
  if messages o then group else visible_records group.

Lemma process_post o w g t x :
  (forall c, foreign (KafkaError c) = true) -> foreign_world w -> ordered g -> process o w g [] = (t, x) -> group_post (answered o g) t x.
Proof.
  intros Hk Hw Ho. unfold process_of, answered. destruct (messages o).
  - by apply message_group_post.
  - by apply batch_group_post.
Qed.

Lemma process_careful o w g t x :
  OffsetFinalizer (options o) = false -> NullOffsetCommitMetadata (options o) = false ->
  commit_before (isAutoCommit configAutoCommit o) (options o) = false ->
  ordered g -> process o w g [] = (t, x) -> careful g t.
Proof.
  intros Hf Hn Hb Ho. unfold process_of. destruct (messages o).
  - by apply message_group_careful.
  - by apply batch_group_careful.
Qed.

(** When a plan names a partition, prepareTransientRunRetry gives it back. *)
Lemma prepare_plan n e c es c' discard p r :
  prepareTransientRunRetry n e c = (es, c', discard) -> p ∈ plan e -> covers p r ->
  discard = false /\ exists ps q, es = [EvRemember ps; EvSetOffsets ps] /\ q ∈ ps /\ covers q r /\
  (closed c = false -> exists q', q' ∈ pendingRecovery c' /\ covers q' r).
Proof.
  intros H Hp [Et Ho]. unfold prepareTransientRunRetry, consumerRewindPositions in H.
  rewrite (plan_decided _ _ Hp), andb_false_r in H.
  set (ps := merge_sort position_le (mergeConsumerRewindPositions [] (plan e))) in *.
  assert (exists q, q ∈ ps /\ covers q r) as (q & Hq & Eq & Hqo).
  { destruct (merge_covers [] (plan e) p (or_intror Hp)) as (q & Hq & ? & ?).
    exists q. split; [unfold ps; by rewrite merge_sort_Permutation|]. split; [congruence|lia]. }
  destruct ps as [|p0 ps']; [by apply elem_of_nil in Hq|]. injection H as <- <- <-.
  split; [done|]. eexists _, q. split_and!; [done..|]. intros Hc. cbn. rewrite Hc. cbn [rememberRecoveryPositions].
  destruct (merge_covers (pendingRecovery c) (p0 :: ps') q (or_intror Hq)) as (q' & Hq' & ? & ?).
  exists q'. split; [done|]. split; [congruence|lia].
Qed.

(** How a record of a wave that has ended is accounted for. *)
Inductive accounted (c : Consumer) (r : Run) (t es : list kev) (c' : Consumer) (rec : KRecord) : Prop :=
| acc_cancelled : cancelled r = true -> accounted c r t es c' rec
| acc_settled : settled t rec -> accounted c r t es c' rec
| acc_redelivered p :
    covers p rec -> EvRemember [p] ∈ t -> EvSetOffsets [p] ∈ t -> accounted c r t es c' rec
| acc_rewound ps p :
    p ∈ ps -> covers p rec -> EvRemember ps ∈ es -> EvSetOffsets ps ∈ es ->
    (closed c = false -> exists q, q ∈ pendingRecovery c' /\ covers q rec) -> accounted c r t es c' rec.

Lemma after_wave_accounted r e c es c' ph t rec :
  after_wave r e c = (es, c', ph) ->
  (cancelled r = true \/ settled t rec \/ wave_retried t e rec) -> accounted c r t es c' rec.
Proof.
  intros H [Hc|[Hs|[(He & p & Hp & Hr & Hset)|(e' & -> & Hu & p & Hp & Hcov)]]].
  - by apply acc_cancelled.
  - by apply acc_settled.
  - by apply (acc_redelivered _ _ _ _ _ _ p).
  - unfold after_wave in H. rewrite Hu, andb_false_r in H.
    destruct (isConsumerRunCancellation (cancelled r) e') eqn:Ec.
    { apply acc_cancelled. unfold isConsumerRunCancellation in Ec. by apply andb_true_iff in Ec as [? _]. }
    destruct (prepareTransientRunRetry (run_client r) e' c) as [[es0 c0] discard] eqn:Ep.
    destruct (prepare_plan _ _ _ _ _ _ _ _ Ep Hp Hcov) as (-> & ps & q & -> & Hq & Hqc & Hpend).
    injection H as <- <- <-. apply (acc_rewound _ _ _ _ _ _ ps q); [done..| | |done]; set_solver.
Qed.

(** C5: When a wave ends, every record of its poll that a run answers for is
    settled, or its partition has been given back to the driver from an offset
    at or before it -- by the worker itself or by the failed run, which also
    remembers the boundary for the next assignment -- unless the run was
    cancelled to close the consumer.  So no interleaving of the workers, and no
    failure of a handler, a finalizer, a commit or a goroutine, leaves an
    unresolved record behind the position the next poll fetches from. *)
Theorem nothing_skipped c r wv e es c' ph rec :
  (forall code, foreign (KafkaError code) = true) ->
  (forall p, ordered (filter (of_partition p) (wave_records wv))) ->
  runKafkaJSRecordGroups (process (run_options r)) foreign_world (cancelled r)
    (groupKafkaJSRecords (wave_records wv)) (wave_trace wv) e ->
  after_wave r e c = (es, c', ph) ->
  rec ∈ answered (run_options r) (wave_records wv) ->
  accounted c r (wave_trace wv) es c' rec.
Proof.
  intros Hk Ho Hrun Haw Hrec. eapply after_wave_accounted; [exact Haw|].
  assert (rec ∈ wave_records wv) as Hin.
  { unfold answered in Hrec. destruct (messages _); [done|]. by apply list_elem_of_filter in Hrec as [_ ?]. }
  destruct (groups_cover _ _ Hin) as (i & g & Hg & Hrg). destruct (groups_lookup _ _ _ Hg) as [_ Hall].
  eapply (wave_post (process (run_options r)) (answered (run_options r))).
  - intros w g' t x. by apply process_post.
  - exact Hrun.
  - by eapply list_elem_of_lookup_2.
  - rewrite (Hall _ Hrg). apply Ho.
  - unfold answered in *. destruct (messages _); [done|]. apply list_elem_of_filter.
    by apply list_elem_of_filter in Hrec as [? _].
Qed.

(** C33: In the ordinary modes (no finalizer, no commit before the handler) a
    commit or a commit mark at a record is only made when the handler has
    returned without an error for every visible record of the partition in the
    poll up to it, whatever the other workers of the wave do in between. *)
Theorem commits_follow_handlers r wv e :
  OffsetFinalizer (options (run_options r)) = false ->
  NullOffsetCommitMetadata (options (run_options r)) = false ->
  commit_before (isAutoCommit configAutoCommit (run_options r)) (options (run_options r)) = false ->
  (forall p, ordered (filter (of_partition p) (wave_records wv))) ->
  runKafkaJSRecordGroups (process (run_options r)) foreign_world (cancelled r)
    (groupKafkaJSRecords (wave_records wv)) (wave_trace wv) e ->
  careful (wave_records wv) (wave_trace wv).
Proof.
  intros Hf Hn Hb Ho Hrun. eapply wave_careful; [|exact Ho|exact Hrun].
  intros w g t x. by apply process_careful.
Qed.

(** With a commit before the handler (at-most-once runs) the application is
    only given a message when a commit at it, or at a later record of its
    partition, has succeeded before. *)
Theorem committed_before_handled r wv e :
  commit_before (isAutoCommit configAutoCommit (run_options r)) (options (run_options r)) = true ->
  (forall p, ordered (filter (of_partition p) (wave_records wv))) ->
  runKafkaJSRecordGroups (process (run_options r)) foreign_world (cancelled r)
    (groupKafkaJSRecords (wave_records wv)) (wave_trace wv) e ->
  committed_first (wave_trace wv).
Proof.
  intros Hb Ho Hrun. eapply wave_first; [|exact Ho|exact Hrun]. intros w g t x Hog Hw.
  unfold process_of in Hw. destruct (messages (run_options r)).
  - by eapply message_group_first.
  - by eapply batch_group_first.
Qed.

(** ** Recovery boundaries

    What the list of pending positions means: a map from partitions to the
    boundary known for them. *)

Definition boundaries (pending : list position) : gmap tp position :=
  list_to_map ((fun p => (tp_of p, p)) <$> pending).

Definition earlier (p : position) (known : option position) : position :=
  match known with
  | Some q => if (p_offset p <? p_offset q)%Z then p else q
  | None => p
  end.

Definition spec_remember (m : gmap tp position) (positions : list position) : gmap tp position :=
  foldl (fun m p => <[tp_of p := earlier p (m !! tp_of p)]> m) m positions.

(** The boundary of a partition once [completed] has been processed. *)
Definition spec_complete (completed : position) (m : gmap tp position) (t : tp) : option position :=
  match m !! t with
  | Some p => if decide (t = tp_of completed /\ (p_offset p <= p_offset completed)%Z) then None else Some p
  | None => None
  end.

(** Where an assigned partition starts, and the boundary it keeps. *)
Definition spec_start (m : gmap tp position) (t : tp) (broker : option FetchOffset) : option FetchOffset :=
  match broker, m !! t with
  | Some o, Some p => if (0 <=? f_offset o)%Z then Some o else Some (MkFetchOffset (p_offset p) (p_leaderEpoch p))
  | _, _ => broker
  end.

Definition spec_keep (m : gmap tp position) (t : tp) (broker : option FetchOffset) : option position :=
  match broker, m !! t with
  | Some o, Some p => if (0 <=? f_offset o)%Z && (p_offset p <=? f_offset o)%Z then None else Some p
  | _, b => b
  end.

Lemma boundaries_cons p l : boundaries (p :: l) = <[tp_of p := p]> (boundaries l).
Proof. done. Qed.

Lemma keyed_fst pending : ((fun p => (tp_of p, p)) <$> pending).*1 = tp_of <$> pending.
Proof. rewrite <- list_fmap_compose. by apply list_fmap_ext. Qed.

Lemma boundaries_lookup pending t p :
  NoDup (tp_of <$> pending) -> boundaries pending !! t = Some p <-> p ∈ pending /\ tp_of p = t.
Proof.
  intros Hn. unfold boundaries. rewrite <- elem_of_list_to_map by by rewrite keyed_fst.
  rewrite list_elem_of_fmap. split.
  - by intros (q & [= -> ->] & Hq).
  - intros [Hp <-]. by exists p.
Qed.

Lemma boundaries_add p l :
  boundaries (add_position p l) = <[tp_of p := earlier p (boundaries l !! tp_of p)]> (boundaries l).
Proof.
  induction l as [|q l IH]; [done|]. cbn [add_position]. case_bool_decide as E; rewrite !boundaries_cons.
  - rewrite E, lookup_insert_eq, insert_insert_eq. cbn. destruct (_ <? _)%Z; [done|]. by rewrite E.
  - rewrite IH, lookup_insert_ne by done. by rewrite insert_insert_ne by done.
Qed.

Lemma boundaries_merge l added :
  boundaries (mergeConsumerRewindPositions l added) = spec_remember (boundaries l) added.
Proof.
  revert l. induction added as [|p added IH]; intros l; [done|]. cbn. by rewrite <- boundaries_add, <- IH.
Qed.

Lemma NoDup_filter_tps (P : position -> Prop) `{forall p, Decision (P p)} l :
  NoDup (tp_of <$> l) -> NoDup (tp_of <$> filter P l).
Proof. intros Hn. eapply sublist_NoDup; [exact Hn|]. apply fmap_sublist, sublist_filter. Qed.

Lemma boundaries_complete completed l t :
  NoDup (tp_of <$> l) ->
  boundaries (completeRecoveryPosition completed l) !! t = spec_complete completed (boundaries l) t.
Proof.
  intros Hn. apply option_eq. intros p. unfold completeRecoveryPosition.
  rewrite boundaries_lookup, list_elem_of_filter by by apply NoDup_filter_tps.
  unfold spec_complete, outlives. destruct (boundaries l !! t) as [q|] eqn:E.
  - apply boundaries_lookup in E as [Hq Et]; [|done]. case_decide as Hd.
    + split; [|done]. intros [[Ho Hp] <-].
      assert (boundaries l !! tp_of q = Some p) as E by (by apply boundaries_lookup).
      assert (boundaries l !! tp_of q = Some q) as E' by (by apply boundaries_lookup). simplify_eq.
      destruct Ho as [Ho|Ho]; [by destruct Hd|lia].
    + split.
      * intros [[_ Hp] Ep]. assert (boundaries l !! t = Some p) as E by (by apply boundaries_lookup).
        assert (boundaries l !! t = Some q) as E' by (by apply boundaries_lookup). congruence.
      * intros [= ->]. split; [|done]. split; [|done].
        destruct (decide (tp_of p = tp_of completed)); [right|by left]. apply Z.nle_gt. intros ?. apply Hd. split; [congruence|done].
  - split; [|done]. intros [[_ Hp] Ep].
    assert (boundaries l !! t = Some p) as E' by (by apply boundaries_lookup). congruence.
Qed.

Lemma adjust_sublist offsets l : sublist (adjustRecoveryOffsets offsets l).2 l.
Proof.
  revert offsets. induction l as [|q l IH]; intros offsets; [done|]. cbn [adjustRecoveryOffsets].
  repeat case_match; cbn [snd] in *;
    repeat match goal with H : adjustRecoveryOffsets ?o l = (_, ?k) |- _ =>
      pose proof (IH o) as IHo; rewrite H in IHo; cbn in IHo; clear H end; by constructor.
Qed.

Lemma adjust_kept offsets l p : p ∈ (adjustRecoveryOffsets offsets l).2 -> p ∈ l.
Proof. apply sublist_subseteq, adjust_sublist. Qed.

(** Partitions without a pending boundary keep their offset. *)
Lemma adjust_other offsets l t :
  t ∉ tp_of <$> l -> (adjustRecoveryOffsets offsets l).1 !! t = offsets !! t.
Proof.
  revert offsets. induction l as [|q l IH]; intros offsets Ht; [done|]. cbn [adjustRecoveryOffsets].
  rewrite fmap_cons, not_elem_of_cons in Ht. destruct Ht as [Hne Ht].
  repeat case_match; cbn [fst] in *;
    repeat match goal with H : adjustRecoveryOffsets ?o l = (?o', _) |- _ =>
      pose proof (IH o Ht) as IHo; rewrite H in IHo; cbn in IHo; clear H end; try done; try by apply IH.
  by rewrite IHo, lookup_insert_ne.
Qed.

(** The walk, one boundary at a time. *)
Lemma adjust_spec offsets l p :
  NoDup (tp_of <$> l) -> p ∈ l ->
  (adjustRecoveryOffsets offsets l).1 !! tp_of p =
    match offsets !! tp_of p with
    | Some o => if (0 <=? f_offset o)%Z then Some o else Some (MkFetchOffset (p_offset p) (p_leaderEpoch p))
    | None => None
    end /\
  (p ∈ (adjustRecoveryOffsets offsets l).2 <->
    match offsets !! tp_of p with
    | Some o => ((0 <=? f_offset o) && (p_offset p <=? f_offset o))%Z = false
    | None => True
    end).
Proof.
  revert offsets. induction l as [|q l IH]; intros offsets Hn Hp; [by apply elem_of_nil in Hp|].
  rewrite fmap_cons, NoDup_cons in Hn. destruct Hn as [Hq Hn].
  apply elem_of_cons in Hp as [->|Hp].
  - pose proof (fun o => adjust_other o l (tp_of q) Hq) as Ho.
    assert (forall o, q ∉ (adjustRecoveryOffsets o l).2) as Hk.
    { intros o Hin%adjust_kept. apply Hq. by apply list_elem_of_fmap_2. }
    cbn [adjustRecoveryOffsets]. destruct (offsets !! tp_of q) as [cur|] eqn:E; cycle 1.
    { specialize (Ho offsets). destruct (adjustRecoveryOffsets offsets l). cbn in *. rewrite Ho, E. split; [done|]. set_solver. }
    destruct (0 <=? f_offset cur)%Z; cbn [andb]; cycle 1.
    { set (offsets' := <[tp_of q := _]> offsets). specialize (Ho offsets'). destruct (adjustRecoveryOffsets offsets' l).
      cbn in *. rewrite Ho. unfold offsets'. rewrite lookup_insert_eq. split; [done|]. set_solver. }
    specialize (Ho offsets). specialize (Hk offsets).
    destruct (p_offset q <=? f_offset cur)%Z; [by rewrite Ho, E|].
    destruct (adjustRecoveryOffsets offsets l). cbn in *. rewrite Ho, E. split; [done|]. set_solver.
  - assert (tp_of q <> tp_of p) as Hne by (intros E; apply Hq; rewrite E; by apply list_elem_of_fmap_2).
    assert (q <> p) as Hne' by congruence.
    cbn [adjustRecoveryOffsets]. destruct (offsets !! tp_of q) as [cur|] eqn:E.
    2: { destruct (IH offsets Hn Hp) as [IH1 IH2]. destruct (adjustRecoveryOffsets offsets l). cbn in *.
         split; [done|]. rewrite elem_of_cons, <- IH2. naive_solver. }
    destruct (0 <=? f_offset cur)%Z.
    + destruct (IH offsets Hn Hp) as [IH1 IH2]. destruct (p_offset q <=? f_offset cur)%Z; [done|].
      destruct (adjustRecoveryOffsets offsets l). cbn in *. split; [done|]. rewrite elem_of_cons, <- IH2. naive_solver.
    + set (offsets' := <[tp_of q := _]> offsets). destruct (IH offsets' Hn Hp) as [IH1 IH2].
      assert (offsets' !! tp_of p = offsets !! tp_of p) as Eo by (by apply lookup_insert_ne). rewrite Eo in IH1, IH2.
      destruct (adjustRecoveryOffsets offsets' l). cbn in *. split; [done|]. rewrite elem_of_cons, <- IH2. naive_solver.
Qed.

(** *** One boundary per partition *)

Lemma apply_event_nodup ev c :
  NoDup (tp_of <$> pendingRecovery c) -> NoDup (tp_of <$> pendingRecovery (apply_event ev c)).
Proof.
  intros Hn. destruct ev; cbn; try done.
  - unfold rememberRecoveryPositions. destruct (closed c); [done|by apply merge_nodup].
  - by apply NoDup_filter_tps.
Qed.

Lemma prepare_nodup n e c es c' discard :
  prepareTransientRunRetry n e c = (es, c', discard) ->
  NoDup (tp_of <$> pendingRecovery c) -> NoDup (tp_of <$> pendingRecovery c').
Proof.
  intros H Hn. unfold prepareTransientRunRetry, rememberRecoveryPositions in H.
  repeat case_match; simplify_eq; try done; by apply merge_nodup.
Qed.

Lemma after_wave_nodup r e c es c' ph :
  after_wave r e c = (es, c', ph) -> NoDup (tp_of <$> pendingRecovery c) -> NoDup (tp_of <$> pendingRecovery c').
Proof.
  intros H Hn. unfold after_wave in H. destruct e as [e|]; [|by simplify_eq].
  destruct (_ && _); [by simplify_eq|]. destruct (isConsumerRunCancellation _ _); [by simplify_eq|].
  destruct (prepareTransientRunRetry _ _ _) as [[es0 c0] discard] eqn:E.
  destruct discard; simplify_eq; by eapply prepare_nodup.
Qed.

Lemma reached_nodup c : reached c -> NoDup (tp_of <$> pendingRecovery c).
Proof.
  induction 1 as [|c t c' _ IH Hs]; [constructor|]. destruct Hs; cbn; try done.
  - by eapply prepare_nodup.
  - pose proof (apply_event_nodup ev c IH) as Hn. by destruct ev.
  - by eapply after_wave_nodup.
  - eapply sublist_NoDup; [exact IH|]. apply fmap_sublist, adjust_sublist.
  - by destruct (run c) as [r|]; [destruct (close_run k)|].
Qed.

(** The slice of pending positions implements a map from partitions to
    boundaries: in every state the consumer can reach, remembering keeps the
    earliest boundary of each partition, completing a record removes the
    boundary of its partition at or before it and no other, and an assignment
    starts each partition at the broker's committed offset or, when there is
    none, at the boundary, which is kept until an offset at or past it is
    committed. *)
Theorem recovery_boundaries_refine c positions completed offsets :
  reached c -> closed c = false ->
  let m := boundaries (pendingRecovery c) in
  boundaries (rememberRecoveryPositions (closed c) positions (pendingRecovery c)) = spec_remember m positions /\
  (forall t, boundaries (completeRecoveryPosition completed (pendingRecovery c)) !! t = spec_complete completed m t) /\
  (forall t, let (starts, kept) := adjustRecoveryOffsets offsets (pendingRecovery c) in
     starts !! t = spec_start m t (offsets !! t) /\ boundaries kept !! t = spec_keep m t (offsets !! t)).
Proof.
  intros Hr Hc m. pose proof (reached_nodup _ Hr) as Hn. split_and!.
  - rewrite Hc. apply boundaries_merge.
  - intros t. by apply boundaries_complete.
  - intros t. pose proof (adjust_sublist offsets (pendingRecovery c)) as Hsub.
    pose proof (adjust_other offsets (pendingRecovery c) t) as Hother.
    pose proof (fun p => adjust_spec offsets (pendingRecovery c) p Hn) as Hspec.
    destruct (adjustRecoveryOffsets offsets (pendingRecovery c)) as [starts kept]. cbn in Hsub, Hother, Hspec.
    assert (NoDup (tp_of <$> kept)) as Hk by (eapply sublist_NoDup; [exact Hn|by apply fmap_sublist]).
    unfold spec_start, spec_keep, m. destruct (boundaries (pendingRecovery c) !! t) as [p|] eqn:E.
    + apply boundaries_lookup in E as [Hp <-]; [|done]. destruct (Hspec p Hp) as [Hs Hkept].
      assert (boundaries kept !! tp_of p = None \/ boundaries kept !! tp_of p = Some p) as Hcases.
      { destruct (boundaries kept !! tp_of p) as [q|] eqn:Eq; [right|by left].
        apply boundaries_lookup in Eq as [Hq Et]; [|done].
        assert (boundaries (pendingRecovery c) !! tp_of p = Some q) as E1.
        { apply boundaries_lookup; [done|]. split; [by eapply sublist_subseteq|done]. }
        assert (boundaries (pendingRecovery c) !! tp_of p = Some p) as E2 by (by apply boundaries_lookup).
        congruence. }
      assert (p ∈ kept <-> boundaries kept !! tp_of p = Some p) as Hiff.
      { rewrite boundaries_lookup by done. by intuition. }
      rewrite Hs. destruct (offsets !! tp_of p) as [o|]; (split; [done|]); [|by apply Hiff, Hkept].
      destruct (_ && _) eqn:Eb; [|by apply Hiff, Hkept].
      destruct Hcases as [|Hsome]; [done|]. by apply Hiff, Hkept in Hsome.
    + assert (t ∉ tp_of <$> pendingRecovery c) as Hnot.
      { intros (p & -> & Hp)%list_elem_of_fmap.
        assert (boundaries (pendingRecovery c) !! tp_of p = Some p) as E' by (by apply boundaries_lookup). congruence. }
      rewrite Hother by done. split; [by destruct (offsets !! t)|].
      assert (boundaries kept !! t = None) as ->; [|by destruct (offsets !! t)].
      apply eq_None_not_Some. intros [q [Hq Et]%boundaries_lookup]; [|done]. apply Hnot. rewrite <- Et.
      apply list_elem_of_fmap_2. by eapply sublist_subseteq.
Qed.

(** ** Shutdown *)

(** The client a run's phase relies on. *)
Definition phase_ok (c : Consumer) (r : Run) : Prop :=
  match run_phase r with
  | Polling | InWave _ => client c = Some (run_client r)
  | Discarding _ _ => client c <> Some (run_client r) /\ run_client r ∉ shut c
  | Ending _ => True
  end.

Definition discarding (c : Consumer) (n : nat) : Prop :=
  exists r after e, run c = Some r /\ run_phase r = Discarding after e /\ run_client r = n.

Record inv (c : Consumer) : Prop := {
  inv_shut n : n ∈ shut c -> n < made c;
  inv_current n : client c = Some n -> n < made c;
  inv_run_client r : run c = Some r -> run_client r < made c;
  inv_once : NoDup (shut c);
  inv_open n : client c = Some n -> n ∈ shut c -> exists k, closer c = Some k /\ close_at k = CloseDone;
  inv_phase r : run c = Some r -> phase_ok c r;
  inv_closed : closed c = true <-> is_Some (closer c);
  inv_captured k : closer c = Some k -> close_client k = client c;
  inv_no_run k : closer c = Some k -> close_run k = false -> run c = None;
  inv_joined k : closer c = Some k -> close_at k = ClosingClient \/ close_at k = CloseDone -> run c = None;
  inv_done k n : closer c = Some k -> close_at k = CloseDone -> client c = Some n -> n ∈ shut c;
  inv_kept n : n < made c -> n ∈ shut c \/ client c = Some n \/ discarding c n;
  inv_cancel r : run c = Some r -> cancelled r = true -> closed c = true /\ policy <> ConsumerShutdownDrainInFlight
}.

(** A change of the boundaries and of a run's phase that keeps what the phase
    relies on. *)
Lemma inv_rephase c l r p :
  inv c -> run c = Some r -> (forall a e, run_phase r <> Discarding a e) ->
  match p with Polling | InWave _ => client c = Some (run_client r) | Discarding _ _ => False | Ending _ => True end ->
  inv (set_run (Some (set_phase p r)) (set_pending l c)).
Proof.
  intros [] Hr Hd Hp. split; cbn; try done.
  - intros r' [= <-]. cbn. by apply inv_run_client0.
  - intros r' [= <-]. unfold phase_ok. by destruct p.
  - intros k Hk Hn. by rewrite (inv_no_run0 _ Hk Hn) in Hr.
  - intros k Hk Hn. by rewrite (inv_joined0 _ Hk Hn) in Hr.
  - intros n Hn. destruct (inv_kept0 n Hn) as [|[|(r' & a & e & Hr' & Hph & _)]]; [by left|by right; left|].
    simplify_eq. by destruct (Hd a e).
  - intros r' [= <-]. cbn. by apply inv_cancel0.
Qed.

Lemma set_pending_id c : set_pending (pendingRecovery c) c = c.
Proof. by destruct c. Qed.

Lemma apply_event_pending ev c : exists l, apply_event ev c = set_pending l c.
Proof. destruct ev; cbn; try (exists (pendingRecovery c); by rewrite set_pending_id); by eexists. Qed.

(** prepareTransientRunRetry only moves boundaries, or drops the run's client. *)
Lemma prepare_cases n e c es c' discard :
  prepareTransientRunRetry n e c = (es, c', discard) ->
  (discard = false /\ exists l, c' = set_pending l c) \/
  (discard = true /\ closed c = false /\ client c = Some n /\ c' = drop_client c).
Proof.
  intros H. unfold prepareTransientRunRetry in H.
  destruct (consumerRewindPositions e) as [positions d].
  destruct (_ && _); [simplify_eq; left; split; [done|]; exists (pendingRecovery c'); by rewrite set_pending_id|].
  destruct d.
  { left. destruct positions; simplify_eq; (split; [done|]); [|by eexists].
    exists (pendingRecovery c'). by rewrite set_pending_id. }
  destruct (closed c) eqn:Ec; cbn in H; [simplify_eq; left; split; [done|]; exists (pendingRecovery c'); by rewrite set_pending_id|].
  case_bool_decide; cbn in H; simplify_eq; [by right|].
  left. split; [done|]. exists (pendingRecovery c'). by rewrite set_pending_id.
Qed.

Lemma inv_drop c r after e :
  inv c -> run c = Some r -> (forall a e, run_phase r <> Discarding a e) ->
  closed c = false -> client c = Some (run_client r) ->
  inv (set_run (Some (set_phase (Discarding after e) r)) (drop_client c)).
Proof.
  intros [] Hr Hd Hc Hcl. assert (closer c = None) as Hk.
  { apply eq_None_not_Some. intros H. apply inv_closed0 in H. congruence. }
  split; cbn; try done; try (intros; congruence).
  - intros r' [= <-]. cbn. by apply inv_run_client0.
  - intros r' [= <-]. split; [done|]. intros Hin. destruct (inv_open0 _ Hcl Hin) as (k & ? & _). congruence.
  - intros n Hn. destruct (inv_kept0 n Hn) as [|[|(r' & a & e' & Hr' & Hph & _)]]; [by left| |].
    + right. right. exists (set_phase (Discarding after e) r), after, e. split_and!; [done..|]. cbn. congruence.
    + simplify_eq. by destruct (Hd a e').
  - intros r' [= <-]. cbn. by apply inv_cancel0.
Qed.

Lemma inv_new : inv new_consumer.
Proof.
  split; cbn; try done.
  - by intros ? ?%elem_of_nil.
  - constructor.
  - intros; lia.
Qed.

Lemma inv_add c : inv c -> closed c = false -> client c = None -> inv (add_client c).
Proof.
  intros [] Hc Hcl. split; cbn; try done.
  - intros n Hn. apply inv_shut0 in Hn. lia.
  - intros n [= <-]. lia.
  - intros r Hr. apply inv_run_client0 in Hr. lia.
  - intros n [= <-] Hn. apply inv_shut0 in Hn. lia.
  - intros r Hr. specialize (inv_phase0 r Hr). unfold phase_ok in *. cbn. apply inv_run_client0 in Hr.
    destruct (run_phase r); [congruence..| |done]. destruct inv_phase0. split; [|done]. intros [= E]. lia.
  - intros k Hk. assert (closed c = true) by (apply inv_closed0; by eexists). congruence.
  - intros k n Hk. assert (closed c = true) by (apply inv_closed0; by eexists). congruence.
  - intros n Hn. destruct (decide (n = made c)) as [->|Hne]; [by right; left|].
    destruct (inv_kept0 n) as [|[|Hd]]; [lia|by left|congruence|by right; right].
Qed.

Lemma inv_begin c n o :
  inv c -> client c = Some n -> closed c = false -> run c = None ->
  inv (begin_run n o c).
Proof.
  intros [] Hcl Hc Hr. assert (forall k, closer c <> Some k) as Hk.
  { intros k Hk. assert (closed c = true) by (apply inv_closed0; by eexists). congruence. }
  split; cbn; try done; try (intros k Hk'; by destruct (Hk k)).
  - intros r [= <-]. by apply inv_current0.
  - by intros r [= <-].
  - intros m Hm. destruct (inv_kept0 m Hm) as [|[|(r & ? & ? & ? & _)]]; [by left|by right; left|congruence].
  - by intros r [= <-].
Qed.

Lemma inv_set_pending c l : inv c -> inv (set_pending l c).
Proof. intros []. by split. Qed.

Lemma inv_close c :
  inv c -> closed c = false ->
  inv (request_close c).
Proof.
  intros [] Hc. assert (closer c = None) as Hk.
  { apply eq_None_not_Some. intros H. apply inv_closed0 in H. congruence. }
  split; cbn; try done.
  - intros n Hn Hs. destruct (inv_open0 n Hn Hs) as (k & ? & _). congruence.
  - intros k [= <-]. done.
  - intros k [= <-]. cbn. intros Hb%bool_decide_eq_false. by apply eq_None_not_Some.
  - intros k [= <-]. cbn. by intros [].
  - intros k n [= <-]. done.
  - intros r Hr Hcan. by destruct (inv_cancel0 r Hr Hcan) as [_ ?].
Qed.

(** The closer advances without touching anything else. *)
Lemma inv_advance c k p :
  inv c -> closer c = Some k -> close_at k <> CloseDone -> (p = ClosingClient \/ p = CloseDone -> run c = None) ->
  (p = CloseDone -> close_client k = None) ->
  inv (advance_closer k p c).
Proof.
  intros [] Hk Hat Hp Hd. split; cbn; try done.
  - intros n Hn Hs. destruct (inv_open0 n Hn Hs) as (k' & Hk' & ?). simplify_eq.
  - rewrite inv_closed0, Hk. split; by eexists.
  - intros k' [= <-]. by apply (inv_captured0 k).
  - intros k' [= <-]. by apply (inv_no_run0 k).
  - by intros k' [= <-].
  - intros k' n [= <-]. cbn. intros Hp' Hn. specialize (Hd Hp'). rewrite (inv_captured0 k Hk) in Hd. congruence.
Qed.

Lemma inv_rerun c r r' :
  inv c -> run c = Some r -> run_client r' = run_client r -> run_phase r' = run_phase r ->
  (cancelled r' = true -> closed c = true /\ policy <> ConsumerShutdownDrainInFlight) ->
  inv (set_run (Some r') c).
Proof.
  intros [] Hr Hcl Hp Hcan. split; cbn; try done.
  - intros x [= <-]. rewrite Hcl. by apply inv_run_client0.
  - intros x [= <-]. specialize (inv_phase0 r Hr). unfold phase_ok in *. by rewrite Hp, Hcl.
  - intros k Hk Hn. by rewrite (inv_no_run0 _ Hk Hn) in Hr.
  - intros k Hk Hn. by rewrite (inv_joined0 _ Hk Hn) in Hr.
  - intros n Hn. destruct (inv_kept0 n Hn) as [|[|(x & a & e & Hx & Hph & Hc)]]; [by left|by right; left|].
    simplify_eq. right. right. exists r', a, e. split_and!; [done|by rewrite Hp|done].
  - by intros x [= <-].
Qed.

Lemma inv_step c t c' :
  inv c -> cstep IsRetriable KafkaError configAutoCommit policy foreign_world c t c' -> inv c'.
Proof.
  intros Hi Hs.
  destruct Hs as [c Hc Hcl|c Hc Hcl _|c n o _ Hc Hcl Hr|c r records errs e es c' discard Hr Hp _ He
                 |c r records errs Hr Hp _ _|c r records errs Hr Hp _ _ _|c r wv ev Hr Hp
                 |c r wv e es c' p Hr Hp _ He|c r after e Hr Hp|c r e Hr Hp|c offsets|c Hc
                 |c k Hk Hat|c k Hk Hat Hr|c k n Hk Hat Hn|c k Hk Hat Hn].
  - by apply inv_add.
  - by apply inv_add.
  - by apply inv_begin.
  - pose proof (inv_phase _ Hi r Hr) as Hph. unfold phase_ok in Hph. rewrite Hp in Hph.
    destruct (prepare_cases _ _ _ _ _ _ He) as [(-> & l & ->)|(-> & Hc & Hcl & ->)].
    + apply inv_rephase; [done..|by rewrite Hp|done].
    + apply inv_drop; [done..|by rewrite Hp|done|done].
  - rewrite <- (set_pending_id c) at 1. apply inv_rephase; [done..|by rewrite Hp|done].
  - pose proof (inv_phase _ Hi r Hr) as Hph. unfold phase_ok in Hph. rewrite Hp in Hph.
    rewrite <- (set_pending_id c) at 1. apply inv_rephase; [done..|by rewrite Hp|done].
  - pose proof (inv_phase _ Hi r Hr) as Hph. unfold phase_ok in Hph. rewrite Hp in Hph.
    destruct (apply_event_pending ev c) as [l ->]. apply inv_rephase; [done..|by rewrite Hp|done].
  - pose proof (inv_phase _ Hi r Hr) as Hph. unfold phase_ok in Hph. rewrite Hp in Hph.
    unfold after_wave in He.
    assert (forall ph, match ph with Polling | InWave _ | Ending _ => True | Discarding _ _ => False end ->
      inv (set_run (Some (set_phase ph r)) c)) as Hstay.
    { intros ph Hph'. rewrite <- (set_pending_id c) at 1. apply inv_rephase; [done..|by rewrite Hp|]. by destruct ph. }
    destruct e as [e|]; [|simplify_eq; apply Hstay; by destruct (_ || _)].
    destruct (_ && _); [simplify_eq; apply Hstay; by destruct (_ || _)|].
    destruct (isConsumerRunCancellation _ _); [simplify_eq; by apply Hstay|].
    destruct (prepareTransientRunRetry _ _ _) as [[es0 c0] discard] eqn:E.
    destruct (prepare_cases _ _ _ _ _ _ E) as [(-> & l & ->)|(-> & Hc & Hcl & ->)]; simplify_eq.
    + apply inv_rephase; [done..|by rewrite Hp|done].
    + apply inv_drop; [done..|by rewrite Hp|done|done].
  - pose proof (inv_phase _ Hi r Hr) as Hph. unfold phase_ok in Hph. rewrite Hp in Hph. destruct Hph as [Hne Hns].
    destruct Hi. split; cbn; try done.
    + intros m [Hm| ->%list_elem_of_singleton]%elem_of_app; [by apply inv_shut0|by apply inv_run_client0].
    + intros r' [= <-]. cbn. by apply inv_run_client0.
    + apply NoDup_app. split_and!; [done| |apply NoDup_singleton]. intros m Hm ->%list_elem_of_singleton. done.
    + intros m Hm [Hin| ->%list_elem_of_singleton]%elem_of_app; [by apply inv_open0 in Hin|done].
    + by intros r' [= <-].
    + intros k Hk Hb. by rewrite (inv_no_run0 k Hk Hb) in Hr.
    + intros k Hk Hb. by rewrite (inv_joined0 k Hk Hb) in Hr.
    + intros k m Hk Hb Hm. by rewrite (inv_joined0 k Hk (or_intror Hb)) in Hr.
    + intros m Hm. destruct (inv_kept0 m Hm) as [|[|(r' & a & e' & Hr' & _ & <-)]]; [left; set_solver|by right; left|].
      simplify_eq. left. set_solver.
    + intros r' [= <-]. cbn. by apply inv_cancel0.
  - destruct Hi. split; cbn; try done.
    intros m Hm. destruct (inv_kept0 m Hm) as [|[|(r' & a & e' & Hr' & Hp' & _)]]; [by left|by right; left|]. simplify_eq. congruence.
  - by apply inv_set_pending.
  - by apply inv_close.
  - assert (closed c = true) as Hc by (apply Hi; by eexists). unfold signal_run. destruct (run c) as [r|] eqn:Hr.
    + destruct (close_run k) eqn:Eb; [|by rewrite (inv_no_run _ Hi k Hk Eb) in Hr].
      rewrite <- Eb. apply inv_advance; [|done|congruence|by intros []|done].
      case_bool_decide; (apply (inv_rerun _ r); [done..|]); cbn; [by apply Hi|done].
    + apply inv_advance; [done..|congruence|done|by destruct (close_run k)].
  - apply inv_advance; [done..|congruence|done|done].
  - assert (run c = None) as Hr by (apply (inv_joined _ Hi k Hk); by left).
    assert (client c = Some n) as Hcl by (by rewrite <- (inv_captured _ Hi k Hk)).
    assert (n ∉ shut c) as Hns.
    { intros Hin. destruct (inv_open _ Hi n Hcl Hin) as (k' & ? & ?). congruence. }
    destruct Hi. split; cbn; try done.
    + intros m [Hm| ->%list_elem_of_singleton]%elem_of_app; [by apply inv_shut0|by apply inv_current0].
    + apply NoDup_app. split_and!; [done| |apply NoDup_singleton]. intros m Hm ->%list_elem_of_singleton. done.
    + intros m Hm _. by eexists.
    + intros r Hr'. congruence.
    + rewrite inv_closed0, Hk. split; by eexists.
    + intros k' [= <-]. by apply (inv_captured0 k).
    + intros k' m [= <-] _ Hm. simplify_eq. set_solver.
    + intros m Hm. destruct (inv_kept0 m Hm) as [|[|(r & a & e & Hr' & _)]]; [left; set_solver|by right; left|congruence].
  - apply inv_advance; [done..|congruence| |done]. intros _. apply (inv_joined _ Hi k Hk). by left.
Qed.

Lemma reached_inv c : reached c -> inv c.
Proof. induction 1 as [|c t c' _ IH Hs]; [apply inv_new|by eapply inv_step]. Qed.

(** Whatever Connect, runs, failures that discard the client, rebalances
    and Close do in between: a client is closed at most once and never under a
    run that still polls or works; a draining Close never cancels the work in
    progress; and once Close has finished there is no run and every client the
    consumer ever made is closed. *)
Theorem shutdown_complete c :
  reached c ->
  NoDup (shut c) /\
  (forall r, run c = Some r -> (run_phase r = Polling \/ exists wv, run_phase r = InWave wv) ->
     client c = Some (run_client r) /\ run_client r ∉ shut c) /\
  (forall r, run c = Some r -> policy = ConsumerShutdownDrainInFlight -> cancelled r = false) /\
  (forall k, closer c = Some k -> close_at k = CloseDone ->
     run c = None /\ forall n, n < made c -> n ∈ shut c).
Proof.
  intros Hi%reached_inv. split_and!.
  - apply Hi.
  - intros r Hr Hp. pose proof (inv_phase _ Hi r Hr) as Hph. unfold phase_ok in Hph.
    assert (client c = Some (run_client r)) as Hcl by (by destruct Hp as [Hp|[wv Hp]]; rewrite Hp in Hph).
    split; [done|]. intros Hin. destruct (inv_open _ Hi _ Hcl Hin) as (k & Hk & Hat).
    by rewrite (inv_joined _ Hi k Hk (or_intror Hat)) in Hr.
  - intros r Hr Hd. destruct (cancelled r) eqn:Ec; [|done]. by destruct (inv_cancel _ Hi r Hr Ec).
  - intros k Hk Hat. pose proof (inv_joined _ Hi k Hk (or_intror Hat)) as Hr. split; [done|]. intros n Hn.
    destruct (inv_kept _ Hi n Hn) as [|[Hcl|(r & a & e & Hr' & _)]]; [done|by eapply (inv_done _ Hi)|congruence].
Qed.
End guarantees.
