(* ===== verification/KafkaWitness.v ===== *)
(** * package kafka, the guarantees on concrete polls

    Two partitions; the handler of one of them fails on its second record. *)

From S2P Require Import Prelude.
From S2P Require Import GoStrings.
From S2P Require Import KafkaErrors.
From S2P Require Import KafkaWorker.
From S2P Require Import KafkaWorkerProofs.
From S2P Require Import KafkaConsumer.
From S2P Require Import KafkaConsumerProofs.

(** ** Running waves one worker after the other *)

Lemma interleaved_front {A} (k : nat) (t r : list A) rest :
  interleaved (replicate (S k) [] ++ rest) r -> interleaved (replicate k [] ++ t :: rest) (t ++ r).
Proof.
  intros H. induction t as [|x t IH]; cbn [app].
  - assert (replicate (S k) [] ++ rest = replicate k [] ++ ([] : list A) :: rest) as E; [|by rewrite <- E].
    replace (S k) with (k + 1) by lia. rewrite replicate_add, <- app_assoc. done.
  - apply (interleaved_step _ k x t).
    + rewrite lookup_app_r, length_replicate, Nat.sub_diag by (by rewrite length_replicate). done.
    + rewrite insert_app_r_alt, length_replicate, Nat.sub_diag by (by rewrite length_replicate). exact IH.
Qed.

Lemma interleaved_concat {A} (ts : list (list A)) : interleaved ts (concat ts).
Proof.
  cut (forall k, interleaved (replicate k [] ++ ts) (concat ts)); [intros H; apply (H 0)|].
  induction ts as [|t ts IH]; intros k; cbn [concat].
  - constructor. rewrite app_nil_r. by apply Forall_replicate.
  - apply interleaved_front, IH.
Qed.

(** A poll delivers the records of a partition in the order of their offsets. *)
Lemma ordered_poll records :
  StronglySorted (fun r s => tp_of_record r = tp_of_record s -> (Offset r < Offset s)%Z) records ->
  forall p, ordered (filter (of_partition p) records).
Proof.
  intros H p. split.
  - intros r s [Hr _]%list_elem_of_filter [Hs _]%list_elem_of_filter. unfold of_partition in *. congruence.
  - induction H as [|r l H IH Hf]; [constructor|]. rewrite filter_cons. case_decide as E; [|done].
    constructor; [done|]. rewrite Forall_forall in Hf |- *. intros s [Es Hs]%list_elem_of_filter.
    apply Hf; [done|]. unfold of_partition in *. congruence.
Qed.

(** ** The sample *)

Definition record_at (partition offset : Z) : KRecord :=
  MkKRecord "orders" partition offset 3 false None (Some "{}") [] 0.

Definition sample_poll : list KRecord := [record_at 0 5; record_at 1 9; record_at 0 6; record_at 0 7].

Definition boom : gerr := ELeaf (Other "boom").

(** Commits succeed; the handler refuses the record at offset 6. *)
Definition sample_world : world := {|
  w_CommitRecords _ := None;
  w_CommitOffsets _ := (None, Some []);
  w_handler _ ms := Returned (if existsb (fun m => (m_Offset m =? 6)%Z) ms then Some boom else None);
  w_batch_handler _ b := Returned (if existsb (fun m => (m_Offset m =? 6)%Z) (b_Messages b) then Some boom else None);
  w_finalizer _ _ _ := FReturn None
|}.

Definition no_retry (e : gerr) : bool := false.
Definition broker_error (code : Z) : gerr := ELeaf (Other (format_int code)).

Definition sample_options (before : bool) : ConsumerAdvancedOptions :=
  MkOptions None before false false false false 2 0 0.

Definition sample_run (batch before : bool) : Run :=
  MkRun 0 (MkRunOptions (negb batch) (sample_options before)) false false (InWave (MkWave sample_poll [])).

Abbreviation sample_process := (process_of no_retry broker_error false).

(** The calls and the error of the wave whose workers run one after another. *)
Definition sample_outcomes (o : RunOptions) : list outcome :=
  (fun g => let (t, e) := worker (sample_process o sample_world) g [] in Finished t e) <$> groupKafkaJSRecords sample_poll.
Definition sample_trace (o : RunOptions) : list kev := concat (trace_of <$> sample_outcomes o).
Definition sample_error (o : RunOptions) : option gerr := collect_errors (omap error_of (sample_outcomes o)).

Lemma sample_foreign : foreign_world sample_world.
Proof.
  split; cbn; try done; [by intros _ ms; destruct (existsb _ ms)|by intros _ b; destruct (existsb _ _)|].
  intros _ _ _. by constructor.
Qed.

Lemma sample_runs o :
  runKafkaJSRecordGroups (sample_process o) foreign_world false (groupKafkaJSRecords sample_poll)
    (sample_trace o) (sample_error o).
Proof.
  eapply ran_groups; [|apply interleaved_concat|done].
  unfold sample_outcomes. apply Forall2_fmap_r, Forall_Forall2_diag, Forall_forall. intros g _.
  cbn. destruct (worker (sample_process o sample_world) g []) as [t e] eqn:E.
  exists sample_world. split; [apply sample_foreign|done].
Qed.

Lemma sample_ordered p : ordered (filter (of_partition p) sample_poll).
Proof. apply ordered_poll. repeat constructor; intros; done || lia. Qed.

Definition sample_wave (o : RunOptions) : Wave := MkWave sample_poll (sample_trace o).

Definition sample_consumer : Consumer :=
  MkConsumer (Some 0) 1 true (Some (sample_run false false)) false None [] [].

(** Partition 0 goes back to offset 6; partition 1 is through. *)
Example sample_rewinds :
  (after_wave (sample_run false false) (sample_error (run_options (sample_run false false))) sample_consumer).1.1
  = [EvRemember [MkPosition "orders" 0 6 3]; EvSetOffsets [MkPosition "orders" 0 6 3]; EvAllowRebalance].
Proof. vm_compute. reflexivity. Qed.

Lemma nothing_skipped_witness :
  let r := sample_run false false in
  let after := after_wave r (sample_error (run_options r)) sample_consumer in
  accounted sample_consumer r (sample_trace (run_options r)) after.1.1 after.1.2 (record_at 0 7).
Proof.
  apply (nothing_skipped no_retry broker_error false sample_consumer (sample_run false false)
    (sample_wave (run_options (sample_run false false)))
    (sample_error (run_options (sample_run false false))) _ _
    (after_wave (sample_run false false) (sample_error (run_options (sample_run false false))) sample_consumer).2).
  - intros code. reflexivity.
  - apply sample_ordered.
  - apply sample_runs.
  - vm_compute. reflexivity.
  - cbn. set_solver.
Defined.

Lemma commits_follow_handlers_witness :
  careful sample_poll (sample_trace (run_options (sample_run true false))).
Proof.
  apply (commits_follow_handlers no_retry broker_error false (sample_run true false)
    (sample_wave (run_options (sample_run true false))) (sample_error (run_options (sample_run true false))));
    [reflexivity..|apply sample_ordered|apply sample_runs].
Defined.

Lemma committed_before_handled_witness :
  committed_first (sample_trace (run_options (sample_run false true))).
Proof.
  apply (committed_before_handled no_retry broker_error false (sample_run false true)
    (sample_wave (run_options (sample_run false true))) (sample_error (run_options (sample_run false true))));
    [reflexivity|apply sample_ordered|apply sample_runs].
Defined.

(** ** States a consumer reaches *)

Abbreviation sample_reachable policy := (reachable no_retry broker_error false policy foreign_world).
Abbreviation drain := ConsumerShutdownDrainInFlight.

Definition sample_run_options : RunOptions := MkRunOptions true (sample_options false).

Lemma reach policy c t c1 c2 :
  sample_reachable policy c -> cstep no_retry broker_error false policy foreign_world c t c1 -> c1 = c2 ->
  sample_reachable policy c2.
Proof. intros Hc Hs <-. by eapply reachable_step. Qed.

Lemma running_reached policy :
  sample_reachable policy (set_run (Some (MkRun 0 sample_run_options false false Polling)) (add_client new_consumer)).
Proof.
  eapply reachable_step; [eapply reachable_step; [apply reachable_new|by apply step_connect]|].
  by apply (step_begin _ _ _ _ _ _ 0).
Qed.

(** A poll returned records of two partitions and a network error. *)
Definition interrupted : Consumer :=
  MkConsumer (Some 0) 1 true
    (Some (MkRun 0 sample_run_options false false
       (Ending (Some (EPollRewind (ETransient (EWrap "kafka/kafkajs: consume error" (ELeaf (NetError "reset"))))
                        (kafkaJSRecordPosition <$> sample_poll))))))
    false None [MkPosition "orders" 0 5 3; MkPosition "orders" 1 9 3] [].

Lemma interrupted_reached : sample_reachable drain interrupted.
Proof.
  eapply reach; [apply running_reached| |].
  - by eapply (step_poll_failed _ _ _ _ _ _ _ sample_poll [ELeaf (NetError "reset")] _ _ _ false).
  - reflexivity.
Qed.

(** The next assignment finds no commit for partition 0 and offset 12 for
    partition 1. *)
Lemma recovery_boundaries_refine_witness :
  let offsets := {[ ("orders", 0%Z) := MkFetchOffset (-1) (-1); ("orders", 1%Z) := MkFetchOffset 12 3 ]} in
  let (starts, kept) := adjustRecoveryOffsets offsets (pendingRecovery interrupted) in
  starts !! ("orders", 0%Z) = Some (MkFetchOffset 5 3) /\
  boundaries kept !! ("orders", 0%Z) = Some (MkPosition "orders" 0 5 3) /\
  boundaries kept !! ("orders", 1%Z) = None.
Proof.
  intros offsets.
  pose proof (recovery_boundaries_refine no_retry broker_error false drain interrupted [] (MkPosition "orders" 0 5 3)
    offsets interrupted_reached eq_refl) as (_ & _ & H).
  pose proof (H ("orders", 0%Z)) as H0. pose proof (H ("orders", 1%Z)) as H1.
  destruct (adjustRecoveryOffsets offsets (pendingRecovery interrupted)) as [starts kept].
  destruct H0 as [-> ->], H1 as [_ ->]. vm_compute. auto.
Defined.

Definition finished : Consumer :=
  MkConsumer (Some 0) 1 true None true (Some (MkCloser (Some 0) true CloseDone)) [] [0].

Lemma finished_reached : sample_reachable drain finished.
Proof.
  pose proof (running_reached drain) as H.
  eapply reach in H; [|by apply step_close|reflexivity].
  eapply reach in H; [|by eapply step_signal|reflexivity].
  eapply reach in H; [|eapply (step_poll_stopped _ _ _ _ _ _ _ [] []); [reflexivity..|by right]|reflexivity].
  eapply reach in H; [|by eapply step_finish|reflexivity].
  eapply reach in H; [|by eapply step_joined|reflexivity].
  eapply reach in H; [|by eapply step_close_client|reflexivity].
  exact H.
Qed.

Lemma shutdown_complete_witness : run finished = None /\ 0 ∈ shut finished.
Proof.
  destruct (shutdown_complete no_retry broker_error false drain finished finished_reached) as (_ & _ & _ & H).
  destruct (H (MkCloser (Some 0) true CloseDone) eq_refl eq_refl) as [Hr Hs]. split; [exact Hr|].
  apply Hs. by apply le_n.
Defined.
