(* ===== verification/ConfluentWorker.v ===== *)
(** * package kafka, the workers of the librdkafka consumer

    What kafka/confluent.go does with the messages it has read: their groups,
    and the callback that runs the application's handler and finalizer on a
    group and moves the offsets through the driver.  Driver, application and
    run context are a [cworld] that answers from the history of this worker's
    calls.  Reading the context is recorded as a call, so that a theorem can
    say what a worker that stopped had seen. *)

From S2P Require Import Prelude.
From S2P Require Import GoStrings.
From S2P Require Import KafkaErrors.
From S2P Require Import KafkaWorker.

(** ** Messages and their groups *)

(** ckafka.Message, the fields the code reads. *)
Record CMessage := MkCMessage {
  cm_Topic : option string;
  cm_Partition : Z;
  cm_Offset : Z;
  cm_Metadata : option string;
  cm_Key : option string;
  cm_Value : option string;
  cm_Headers : list (string * option string);
  cm_Timestamp : Z
}.

#[export] Instance CMessage_eq_dec : EqDecision CMessage.
Proof. solve_decision. Defined.

Definition confluentTopicName (topic : option string) : string := default "" topic.

Definition mapConfluentToPayload (m : CMessage) : MessagePayload :=
  MkMessagePayload (confluentTopicName (cm_Topic m)) (cm_Partition m) (cm_Offset m)
    (cm_Key m) (cm_Value m) (cm_Headers m) (cm_Timestamp m).

Definition confluentRecordPosition (m : CMessage) : position :=
  MkPosition (confluentTopicName (cm_Topic m)) (cm_Partition m) (cm_Offset m) 0.

(** The partition a message is of. *)
Definition tp_of_message (m : CMessage) : tp := (confluentTopicName (cm_Topic m), cm_Partition m).

Record confluentAssignmentSnapshot := MkSnapshot { known : bool; generation : Z }.

#[export] Instance snapshot_eq_dec : EqDecision confluentAssignmentSnapshot.
Proof. solve_decision. Defined.

Definition no_snapshot : confluentAssignmentSnapshot := MkSnapshot false 0.

Record confluentBatchGroup := MkGroup {
  payload : BatchPayload;
  g_messages : list CMessage;
  lastMessage : option CMessage;
  assignmentKnown : bool;
  assignmentGeneration : Z
}.

(** The key of a message's group. *)
Definition confluent_key (m : CMessage) (a : confluentAssignmentSnapshot) : string :=
  let p := mapConfluentToPayload m in
  let key := m_Topic p +:+ String "000" (format_int (m_Partition p)) in
  if known a then key +:+ String "000" (format_int (generation a)) else key.

Definition new_group (m : CMessage) (a : confluentAssignmentSnapshot) : confluentBatchGroup :=
  let p := mapConfluentToPayload m in
  MkGroup (MkBatchPayload (m_Topic p) (m_Partition p) [] (m_Offset p) 0) [] None (known a) (generation a).

Definition append_message (m : CMessage) (g : confluentBatchGroup) : confluentBatchGroup :=
  let p := mapConfluentToPayload m in
  let b := payload g in
  MkGroup (MkBatchPayload (b_Topic b) (b_Partition b) (b_Messages b ++ [p]) (b_FirstOffset b) (m_Offset p))
    (g_messages g ++ [m]) (Some m) (assignmentKnown g) (assignmentGeneration g).

Definition confluent_group_step (st : gmap string nat * list confluentBatchGroup)
    (x : option CMessage * confluentAssignmentSnapshot) : gmap string nat * list confluentBatchGroup :=
  match x with
  | (None, _) => st
  | (Some m, a) =>
      let (indexes, groups) := st in
      match indexes !! confluent_key m a with
      | Some i => (indexes, alter (append_message m) i groups)
      | None => (<[confluent_key m a := length groups]> indexes, groups ++ [append_message m (new_group m a)])
      end
  end.

(** The snapshot of each message; a message behind the last snapshot has none. *)
Fixpoint with_assignments (messages : list (option CMessage)) (assignments : list confluentAssignmentSnapshot) :
    list (option CMessage * confluentAssignmentSnapshot) :=
  match messages, assignments with
  | [], _ => []
  | m :: ms, [] => (m, no_snapshot) :: with_assignments ms []
  | m :: ms, a :: rest => (m, a) :: with_assignments ms rest
  end.

Definition groupConfluentBatchMessagesWithAssignments (messages : list (option CMessage))
    (assignments : list confluentAssignmentSnapshot) : list confluentBatchGroup :=
  (foldl confluent_group_step (∅, []) (with_assignments messages assignments)).2.

Definition groupConfluentBatchMessages (messages : list (option CMessage)) : list confluentBatchGroup :=
  groupConfluentBatchMessagesWithAssignments messages [].

(** legacyConfluentBatchGroup: one group whatever the partitions.  Its messages
    are kept without the nil ones: they are only used for a worker position,
    which a legacy run does not have. *)
Definition legacy_step (g : confluentBatchGroup) (m : option CMessage) : confluentBatchGroup :=
  match m with
  | None => g
  | Some m =>
      let p := mapConfluentToPayload m in
      let b := payload g in
      let b := match b_Messages b with
               | [] => MkBatchPayload (m_Topic p) (m_Partition p) [] (m_Offset p) (b_LastOffset b)
               | _ => b
               end in
      MkGroup (MkBatchPayload (b_Topic b) (b_Partition b) (b_Messages b ++ [p]) (b_FirstOffset b) (m_Offset p))
        (g_messages g) (Some m) false 0
  end.

Definition legacyConfluentBatchGroup (messages : list (option CMessage)) : confluentBatchGroup :=
  foldl legacy_step (MkGroup (MkBatchPayload "" 0 [] 0 0) (omap id messages) None false 0) messages.

(** ** Calls *)

Inductive cfev :=
| CfCancelled (done : bool)                    (* ctx.Err() != nil *)
| CfCommitMessage (m : option CMessage) (e : option gerr)
| CfStoreMessage (m : option CMessage) (e : option gerr)
| CfCommitOffsets (p : tp) (offset : Z) (metadata : option string) (e : option gerr)
| CfHandler (m : MessagePayload) (a : answer)
| CfBatchHandler (b : BatchPayload) (a : answer)
| CfFinalizer (m : MessagePayload) (handlerErr : option gerr) (a : answer).

Record cworld := MkCWorld {
  v_cancelled : list cfev -> bool;
  v_CommitMessage : list cfev -> option gerr;
  v_StoreMessage : list cfev -> option gerr;
  v_CommitOffsets : list cfev -> option gerr;
  v_handler : list cfev -> MessagePayload -> answer;
  v_batch_handler : list cfev -> BatchPayload -> answer;
  v_finalizer : list cfev -> MessagePayload -> option gerr -> finalizer
}.

(** How a callback ends: it returns, its goroutine ends under it with its
    progress, or an index is out of range. *)
Inductive ended :=
| WDone (e : option gerr)
| WExit (pr : progress)
| WPanic.

Section worker.
Context (legacy : bool)                     (* cc.legacy *)
        (configAutoCommit : bool)           (* cc.config.AutoCommit *)
        (isAutoCommit : bool)
        (opts : ConsumerAdvancedOptions).

(** The commit in front of the handler is asked for. *)
Definition commits_before : bool := negb isAutoCommit && CommitBeforeHandler opts.

Section calls.
Context (w : cworld).

Definition ctx_cancelled : TM cfev bool := call (v_cancelled w) CfCancelled.

Definition CommitMessage (m : option CMessage) : TM cfev (option gerr) :=
  call (v_CommitMessage w) (CfCommitMessage m).

Definition wrap_error (message : string) (e : option gerr) : option gerr := option_map (EWrap message) e.

Definition resolveMessageOffset (m : option CMessage) (committedBeforeHandler : bool) : TM cfev (option gerr) :=
  if legacy && isAutoCommit then tret None
  else if negb isAutoCommit && committedBeforeHandler then tret None
  else if isAutoCommit && configAutoCommit then
    let! e := call (v_StoreMessage w) (CfStoreMessage m) in
    tret (wrap_error "kafka/confluent: post-handler offset store failed" e)
  else
    let! e := CommitMessage m in
    tret (wrap_error "kafka/confluent: post-handler commit failed" e).

(** commitExact, and the finalizer that calls it. *)
Definition commitExact (m : CMessage) (exact : Z) : TM cfev (option gerr) :=
  let metadata := if NullOffsetCommitMetadata opts then None else cm_Metadata m in
  let! e := call (v_CommitOffsets w) (CfCommitOffsets (tp_of_message m) exact metadata) in
  tret (option_map EExactCommit e).

Fixpoint run_offset_finalizer (m : CMessage) (commitCalled : bool) (f : finalizer) : TM cfev answer :=
  match f with
  | FReturn e => tret (Returned e)
  | FExit => tret Exited
  | FCommit exact k =>
      if commitCalled
      then run_offset_finalizer m true
             (k (Some (ELeaf (Other "kafka/confluent: exact offset commit callback called more than once"))))
      else let! e := commitExact m exact in run_offset_finalizer m true (k e)
  end.

Definition call_finalizer (m : CMessage) (p : MessagePayload) (handlerErr : option gerr) : TM cfev answer := fun h =>
  (let! a := run_offset_finalizer m false (v_finalizer w h p handlerErr) in
   let! _ := call (fun _ => tt) (fun _ => CfFinalizer p handlerErr a) in
   tret a) h.

(** What the callback makes of an error of the finalizer. *)
Definition finalizer_failure (m : CMessage) (finalizerErr : gerr) (handlerErr : option gerr) : gerr :=
  if isExactOffsetCommitError finalizerErr
  then EWrap "kafka/confluent: exact offset commit failed" finalizerErr
  else if match handlerErr with Some he => errors_Is_value finalizerErr he | None => false end
  then newConsumerHandlerErrorAt "kafka/confluent: message handler failed" finalizerErr (confluentRecordPosition m)
  else EWrap "kafka/confluent: offset finalizer failed" finalizerErr.

(** The offset after a finalizer that succeeded. *)
Definition resolve_finalized (m : CMessage) : TM cfev (option gerr) :=
  if NullOffsetCommitMetadata opts then
    let! e := call (v_CommitOffsets w) (CfCommitOffsets (tp_of_message m) (wrap64 (cm_Offset m + 1)) None) in
    tret (wrap_error "kafka/confluent: post-handler commit failed" e)
  else resolveMessageOffset (Some m) false.

(** The complete callback given to runTracedMessageLifecycle; [None] when the
    finalizer ends the goroutine. *)
Definition complete_message (m : CMessage) (p : MessagePayload) (handlerErr : option gerr) :
    TM cfev (option (option gerr)) :=
  let! a := call_finalizer m p handlerErr in
  match a with
  | Exited => tret None
  | Returned (Some finalizerErr) => tret (Some (Some (finalizer_failure m finalizerErr handlerErr)))
  | Returned None =>
      if negb (bool_decide (is_Some handlerErr)) && ResolveAfterSuccessfulFinalizer opts
      then let! e := resolve_finalized m in tret (Some e)
      else tret (Some None)
  end.

(** The commit before the handler, when asked for. *)
Definition commit_first (message : string) (m : option CMessage) (pr : progress) : TM cfev (result gerr progress) :=
  if commits_before then
    let! e := CommitMessage m in
    tret (match e with Some e => Err (EWrap message e) | None => Ok (markConsumerWorkerCommitted pr) end)
  else tret (Ok pr).

(** The handler of a message failed. *)
Definition handler_error (m : CMessage) (next : option position) (he : gerr) : TM cfev (result ended unit) :=
  if legacy then tret (Ok tt)
  else
    let! done := ctx_cancelled in
    if isConsumerRunCancellation done he then tret (Err (WDone None))
    else if commits_before
    then tret (Err (WDone (Some (newConsumerCommittedHandlerError "kafka/confluent: message handler failed" he next))))
    else tret (Err (WDone (Some (newConsumerHandlerErrorAt "kafka/confluent: message handler failed" he
                                   (confluentRecordPosition m))))).

(** Handler, finalizer and offset of one message; [Err] ends the group. *)
Definition handle_message (pr : progress) (m : CMessage) (next : option position) (p : MessagePayload) :
    TM cfev (result ended unit) :=
  let! a := call (fun h => v_handler w h p) (CfHandler p) in
  match a with
  | Exited => tret (Err (WExit pr))
  | Returned handlerErr =>
      if OffsetFinalizer opts then
        let! x := complete_message m p handlerErr in
        tret (match x with
              | None => Err (WExit pr)
              | Some (Some e) => Err (WDone (withConsumerRewindPosition (Some e) (confluentRecordPosition m)))
              | Some None => Ok tt
              end)
      else
        match handlerErr with
        | Some he => handler_error m next he
        | None =>
            let! e := resolveMessageOffset (Some m) (CommitBeforeHandler opts) in
            tret (match e with
                  | Some e => if legacy then Ok tt
                              else Err (WDone (withConsumerRewindPosition (Some e) (confluentRecordPosition m)))
                  | None => Ok tt
                  end)
        end
  end.

(** processMessageGroup, over the messages of the group and their payloads. *)
Fixpoint process_messages (messages : list CMessage) (payloads : list MessagePayload) : TM cfev ended :=
  match messages with
  | [] => tret (WDone None)
  | m :: rest =>
      let! stop := (if legacy then tret false else ctx_cancelled) in
      if stop then tret (WDone None)
      else
        match payloads with
        | [] => tret WPanic
        | p :: payloads =>
            let next := confluentRecordPosition <$> head rest in
            let! pre := commit_first "kafka/confluent: pre-handler commit failed" (Some m)
                          (setConsumerWorkerPosition (confluentRecordPosition m) next) in
            match pre with
            | Err e => tret (WDone (withConsumerRewindPosition (Some e) (confluentRecordPosition m)))
            | Ok pr =>
                let! x := handle_message pr m next p in
                match x with
                | Err x => tret x
                | Ok _ => process_messages rest payloads
                end
            end
        end
  end.

Definition processMessageGroup (g : confluentBatchGroup) : TM cfev ended :=
  process_messages (g_messages g) (b_Messages (payload g)).

(** group.messages[0] *)
Definition at_first (g : confluentBatchGroup) (k : position -> option gerr) : ended :=
  match g_messages g with
  | [] => WPanic
  | m :: _ => WDone (k (confluentRecordPosition m))
  end.

Definition batch_failed (g : confluentBatchGroup) (he : gerr) : TM cfev ended :=
  if legacy then tret (WDone (Some he))
  else
    let! done := ctx_cancelled in
    if isConsumerRunCancellation done he then tret (WDone None)
    else if commits_before then tret (WDone (Some (newConsumerHandlerError "" he)))
    else tret (at_first g (fun p => Some (newConsumerHandlerErrorAt "" he p))).

Definition processBatchGroup (g : confluentBatchGroup) : TM cfev ended :=
  let pr := MkProgress (confluentRecordPosition <$> head (g_messages g)) None in
  let! pre := commit_first "kafka/confluent: pre-handler batch commit failed" (lastMessage g) pr in
  match pre with
  | Err e => tret (at_first g (fun p => withConsumerRewindPosition (Some e) p))
  | Ok pr =>
      let! a := call (fun h => v_batch_handler w h (payload g)) (CfBatchHandler (payload g)) in
      match a with
      | Exited => tret (WExit pr)
      | Returned (Some he) => batch_failed g he
      | Returned None =>
          let! e := resolveMessageOffset (lastMessage g) (CommitBeforeHandler opts) in
          match e with
          | None => tret (WDone None)
          | Some e => if legacy then tret (WDone None)
                      else tret (at_first g (fun p => withConsumerRewindPosition (Some e) p))
          end
      end
  end.
End calls.
End worker.

(** What a goroutine of runConfluentPartitionGroups sends to the error channel;
    a panic ends the program. *)
Definition sent_error (x : ended) : option gerr :=
  match x with
  | WDone e => e
  | WExit pr => Some (EAborted (at_position pr))   (* reportIncomplete *)
  | WPanic => None
  end.

(** errors.Join of what was sent. *)
Definition join_errors (errs : list gerr) : option gerr :=
  match errs with [] => None | _ => Some (EJoin errs) end.

(** ** What a worker's calls mean for its messages *)

(** A position that has the message read again, or for the first time. *)
Definition covers_message (p : position) (m : CMessage) : Prop :=
  tp_of p = tp_of_message m /\ (p_offset p <= cm_Offset m)%Z.

#[export] Instance MessagePayload_eq_dec : EqDecision MessagePayload.
Proof. solve_decision. Defined.

(** A call after which the message is not needed again: its offset or a later
    one of its partition was committed or stored, or the application's
    finalizer took it. *)
Definition settles (ev : cfev) (m : CMessage) : bool :=
  match ev with
  | CfCommitMessage (Some s) None | CfStoreMessage (Some s) None =>
      bool_decide (tp_of_message s = tp_of_message m) && (cm_Offset m <=? cm_Offset s)%Z
  | CfFinalizer p _ (Returned None) => bool_decide (p = mapConfluentToPayload m)
  | _ => false
  end.

Definition settled_message (t : list cfev) (m : CMessage) : bool := existsb (fun ev => settles ev m) t.
