(* ===== verification/ConfluentWorkerProofs.v ===== *)
(** * package kafka, what the workers of the librdkafka consumer guarantee

    Groups hold the messages of one partition read under one assignment, in
    their order.  An advanced worker leaves each message of its group settled
    or covered by the rewind plan of its error, unless it saw its run
    cancelled; and it moves no offset past a message whose handler has not
    succeeded.  A legacy worker never fails on a message. *)

From S2P Require Import Prelude.
From S2P Require Import GoStrings.
From S2P Require Import KafkaErrors.
From S2P Require Import KafkaWorker.
From S2P Require Import KafkaWorkerProofs.
From S2P Require Import ConfluentWorker.

(** ** Grouping *)

Abbreviation item := (CMessage * confluentAssignmentSnapshot)%type.

Definition item_key (x : item) : string := confluent_key x.1 x.2.

(** The group the code makes of items with one key. *)
Definition build_group (l : list item) : confluentBatchGroup :=
  match l with
  | [] => MkGroup (MkBatchPayload "" 0 [] 0 0) [] None false 0
  | x :: _ => foldl (fun g y => append_message y.1 g) (new_group x.1 x.2) l
  end.

(** The messages that are there, with their snapshots. *)
Definition present (l : list (option CMessage * confluentAssignmentSnapshot)) : list item :=
  omap (fun x => (fun m => (m, x.2)) <$> x.1) l.

Lemma build_group_snoc l x : l <> [] -> build_group (l ++ [x]) = append_message x.1 (build_group l).
Proof. destruct l as [|y l]; [done|]. intros _. cbn [app build_group]. by rewrite app_comm_cons, foldl_app. Qed.

Lemma group_fold_built l : forall index gs,
  Forall (fun g => g <> []) gs ->
  foldl confluent_group_step (index, build_group <$> gs) l =
    let st := foldl (group_add item_key) (index, gs) (present l) in (st.1, build_group <$> st.2).
Proof.
  induction l as [|[[m|] a] l IH]; intros index gs Hne; [done| |by apply (IH index gs)].
  change (present ((Some m, a) :: l)) with ((m, a) :: present l).
  cbn [foldl confluent_group_step]. cbn zeta.
  change (group_add item_key (index, gs) (m, a)) with
    (match index !! confluent_key m a with
     | Some i => (index, alter (fun g => g ++ [(m, a)]) i gs)
     | None => (<[confluent_key m a := length gs]> index, gs ++ [[(m, a)]])
     end).
  destruct (index !! confluent_key m a) as [i|].
  - rewrite <- (list_fmap_alter build_group (fun g => g ++ [(m, a)])).
    + apply IH. apply Forall_alter; [done|]. by intros [|].
    + eapply Forall_impl; [exact Hne|]. intros g Hg. cbn. by rewrite build_group_snoc.
  - rewrite length_fmap. change [append_message m (new_group m a)] with (build_group <$> [[(m, a)]]).
    rewrite <- fmap_app. apply IH. apply Forall_app. split; [done|]. by constructor.
Qed.

Lemma groups_built messages assignments :
  groupConfluentBatchMessagesWithAssignments messages assignments =
    build_group <$> group_by item_key (present (with_assignments messages assignments)).
Proof.
  unfold groupConfluentBatchMessagesWithAssignments.
  by rewrite (group_fold_built _ ∅ []) by constructor.
Qed.

(** The fields of a built group. *)
Lemma build_group_fields x l :
  let g := build_group (x :: l) in
  g_messages g = (x :: l).*1 /\ b_Messages (payload g) = mapConfluentToPayload <$> (x :: l).*1 /\
  lastMessage g = last ((x :: l).*1) /\ assignmentKnown g = known x.2 /\ assignmentGeneration g = generation x.2 /\
  (b_Topic (payload g), b_Partition (payload g)) = tp_of_message x.1 /\
  b_FirstOffset (payload g) = cm_Offset x.1 /\
  Some (b_LastOffset (payload g)) = cm_Offset <$> last ((x :: l).*1).
Proof.
  cbn zeta. induction l as [|y l IH] using rev_ind; [done|].
  rewrite app_comm_cons, build_group_snoc by done.
  destruct IH as (Em & Eb & El & Ek & Eg & Et & Ef & _). cbn [append_message payload g_messages lastMessage
    assignmentKnown assignmentGeneration b_Messages b_Topic b_Partition b_FirstOffset b_LastOffset].
  rewrite Em, Eb, !fmap_app, !last_app. cbn. done.
Qed.

(** A topic name has no NUL. *)
Definition plain_topic (s : string) : bool := str_forallb (fun x => negb (Ascii.eqb x "000")) s.

Definition plain_item (x : item) : Prop := plain_topic (confluentTopicName (cm_Topic x.1)) = true.

(** The part of a snapshot the key depends on. *)
Definition effective (a : confluentAssignmentSnapshot) : option Z := if known a then Some (generation a) else None.

Lemma plain_not_separated t s d : plain_topic t = true -> t <> s +:+ String "000" d.
Proof. unfold plain_topic. intros H ->. rewrite str_forallb_app in H. cbn in H. by rewrite andb_false_r in H. Qed.

Lemma item_key_inj x y :
  plain_item x -> plain_item y ->
  item_key x = item_key y <-> tp_of_message x.1 = tp_of_message y.1 /\ effective x.2 = effective y.2.
Proof.
  destruct x as [m a], y as [n b]. intros Hx Hy. unfold item_key, confluent_key, effective, tp_of_message. cbn in *.
  split.
  - destruct (known a), (known b); intros H.
    + apply separated_inj in H as [H Eg%format_int_inj]; [|apply format_int_plain..].
      apply separated_inj in H as [-> ->%format_int_inj]; [|apply format_int_plain..]. by rewrite Eg.
    + apply separated_inj in H as [H _]; [|apply format_int_plain..]. symmetry in H. by apply plain_not_separated in H.
    + apply separated_inj in H as [H _]; [|apply format_int_plain..]. by apply plain_not_separated in H.
    + by apply separated_inj in H as [-> ->%format_int_inj]; [|apply format_int_plain..].
  - intros [[= -> ->] E]. destruct (known a), (known b); congruence.
Qed.

(** A group is the items of one partition and one assignment. *)
Definition same_group (x y : item) : Prop := tp_of_message y.1 = tp_of_message x.1 /\ effective y.2 = effective x.2.
#[export] Instance same_group_dec x y : Decision (same_group x y).
Proof. unfold same_group. apply _. Defined.

(** What the code promises of a group of the items read. *)
Record group_of (items : list item) (g : confluentBatchGroup) (x : item) : Prop := {
  go_in : x ∈ items;
  go_messages : g_messages g = (filter (same_group x) items).*1;
  go_payloads : b_Messages (payload g) = mapConfluentToPayload <$> g_messages g;
  go_last : lastMessage g = last (g_messages g);
  go_known : assignmentKnown g = known x.2;
  go_generation : known x.2 = true -> assignmentGeneration g = generation x.2
}.

Lemma groups_of items i g :
  Forall plain_item items -> (build_group <$> group_by item_key items) !! i = Some g ->
  exists x, group_of items g x.
Proof.
  intros Hp Hg. rewrite list_lookup_fmap in Hg. apply fmap_Some in Hg as (l & Hl & ->).
  apply group_by_lookup in Hl as [Hne Hl]. destruct l as [|x l]; [done|]. exists x.
  pose proof (build_group_fields x l) as (Em & Eb & El & Ek & Eg & _).
  specialize (Hl x ltac:(left)). rewrite Forall_forall in Hp.
  assert (x ∈ items) as Hx.
  { assert (x ∈ x :: l) as Hx by left. rewrite Hl in Hx. by apply list_elem_of_filter in Hx as [_ ?]. }
  split; rewrite ?Eb, ?El, ?Ek, ?Eg, ?Em; try done.
  rewrite Hl at 1. f_equal. apply filter_iff_in. intros y Hy. unfold like, same_group.
  by apply item_key_inj; apply Hp.
Qed.

Lemma present_items items : present (with_assignments (Some <$> items.*1) (items.*2)) = items.
Proof. induction items as [|[m a] items IH]; [done|]. apply (f_equal (cons (m, a))), IH. Qed.

(** The representative of a group is like the items it was built of. *)
Lemma group_rep items i g y :
  (build_group <$> group_by item_key items) !! i = Some g -> group_of items g y ->
  exists l z, group_by item_key items !! i = Some l /\ z ∈ l /\ z ∈ items /\ same_group y z.
Proof.
  intros Hg Ho. rewrite list_lookup_fmap in Hg. apply fmap_Some in Hg as (l & Hl & ->).
  destruct (group_by_lookup _ _ _ _ Hl) as [Hne Hf]. destruct l as [|z l]; [done|].
  pose proof (build_group_fields z l) as (Em & _ & _ & Ek & Eg & _).
  assert (z ∈ z :: l) as Hz by left. exists (z :: l), z. split_and!; [done..| |].
  - rewrite (Hf z Hz) in Hz. by apply list_elem_of_filter in Hz as [_ ?].
  - destruct Ho as [_ Hm _ _ Hk Hgen]. rewrite Em in Hm. rewrite Ek in Hk. rewrite Eg in Hgen. split.
    + assert (z.1 ∈ (filter (same_group y) items).*1) as Hin by (rewrite <- Hm; by left).
      apply list_elem_of_fmap in Hin as (u & -> & [[? _] _]%list_elem_of_filter). done.
    + unfold effective. rewrite Hk. destruct (known y.2); [by rewrite Hgen|done].
Qed.

(** The messages read are split without loss: each group holds the messages
    of one partition read under one assignment, all of them and in the order
    they were read, with their payloads, and each message is in one group. *)
Theorem confluent_groups_exact items :
  Forall plain_item items ->
  let groups := groupConfluentBatchMessagesWithAssignments (Some <$> items.*1) (items.*2) in
  (forall g, g ∈ groups -> exists x, group_of items g x) /\
  forall x, x ∈ items -> exists i g y, groups !! i = Some g /\ group_of items g y /\ same_group y x /\
    forall j g' y', groups !! j = Some g' -> group_of items g' y' -> same_group y' x -> j = i.
Proof.
  intros Hp groups. unfold groups. rewrite groups_built, present_items. split.
  { intros g [i Hi]%list_elem_of_lookup. by eapply groups_of. }
  assert (forall y z x, z ∈ items -> x ∈ items -> same_group y z -> same_group y x -> item_key z = item_key x) as Hkey.
  { intros y z x Hz Hx [Ez1 Ez2] [Ex1 Ex2]. rewrite Forall_forall in Hp.
    apply item_key_inj; [by apply Hp..|]. split; congruence. }
  intros x Hx. destruct (group_by_cover item_key _ _ Hx) as (i & l & Hi & Hl).
  assert ((build_group <$> group_by item_key items) !! i = Some (build_group l)) as Hg by by rewrite list_lookup_fmap, Hi.
  destruct (groups_of _ _ _ Hp Hg) as [y Hy]. destruct (group_rep _ _ _ _ Hg Hy) as (l' & z & Hi' & Hzl & Hz & Hyz).
  rewrite Hi in Hi'. injection Hi' as <-.
  assert (item_key z = item_key x) as Ezx.
  { destruct (group_by_lookup _ _ _ _ Hi) as [_ Hf]. rewrite (Hf x Hl) in Hzl.
    by apply list_elem_of_filter in Hzl as [? _]. }
  exists i, (build_group l), y. split_and!; [done..| |].
  - rewrite Forall_forall in Hp. apply item_key_inj in Ezx as [E1 E2]; [|by apply Hp..].
    destruct Hyz as [E3 E4]. split; congruence.
  - intros j g' y' Hj Hy' Hs'. destruct (group_rep _ _ _ _ Hj Hy') as (l2 & z2 & Hj2 & Hz2l & Hz2 & Hyz2).
    eapply (group_by_distinct item_key items j i l2 l z2 x); [done..|]. by eapply Hkey.
Qed.

(** A well-formed group: what the groups of messages in order are. *)
Record in_order (ms : list CMessage) : Prop := {
  io_partition m n : m ∈ ms -> n ∈ ms -> tp_of_message m = tp_of_message n;
  io_offsets : StronglySorted (fun m n => (cm_Offset m < cm_Offset n)%Z) ms
}.

Record well_grouped (g : confluentBatchGroup) : Prop := {
  wg_order : in_order (g_messages g);
  wg_payloads : b_Messages (payload g) = mapConfluentToPayload <$> g_messages g;
  wg_last : lastMessage g = last (g_messages g);
  wg_some : g_messages g <> []
}.

Lemma in_order_tail m ms : in_order (m :: ms) -> in_order ms.
Proof. intros [Hp Ho]. split; [|by inversion Ho]. intros x y Hx Hy. apply Hp; by right. Qed.

(** ** Settled and covered messages *)

Lemma settled_app t t' m : settled_message (t ++ t') m = settled_message t m || settled_message t' m.
Proof. apply existsb_app. Qed.

Lemma settled_by ev t m : ev ∈ t -> settles ev m = true -> settled_message t m = true.
Proof. intros Hin Hs. apply existsb_exists. exists ev. by rewrite <- list_elem_of_In. Qed.

(** The offset of a message was committed or stored. *)
Definition offset_saved (t : list cfev) (m : CMessage) : Prop :=
  CfCommitMessage (Some m) None ∈ t \/ CfStoreMessage (Some m) None ∈ t.

Lemma settles_self m : settles (CfCommitMessage (Some m) None) m = true /\ settles (CfStoreMessage (Some m) None) m = true.
Proof. cbn. by rewrite bool_decide_true, Z.leb_refl. Qed.

Lemma settled_saved t m : offset_saved t m -> settled_message t m = true.
Proof. destruct (settles_self m) as [E1 E2]. intros [Hin|Hin]; by eapply settled_by. Qed.

Lemma covers_first m ms n : in_order (m :: ms) -> n ∈ m :: ms -> covers_message (confluentRecordPosition m) n.
Proof.
  intros [Hp Ho] Hn. split; [by apply (Hp m n); [left|]|]. cbn.
  apply elem_of_cons in Hn as [->|Hn]; [lia|]. inversion Ho as [|? ? _ Hf]; subst.
  rewrite Forall_forall in Hf. apply Hf in Hn. lia.
Qed.

Record cforeign_world (w : cworld) : Prop := {
  cfw_CommitMessage h : foreign_answer (Returned (v_CommitMessage w h));
  cfw_StoreMessage h : foreign_answer (Returned (v_StoreMessage w h));
  cfw_CommitOffsets h : foreign_answer (Returned (v_CommitOffsets w h));
  cfw_handler h p : foreign_answer (v_handler w h p);
  cfw_batch_handler h b : foreign_answer (v_batch_handler w h b);
  cfw_finalizer h p e : foreign_finalizer (v_finalizer w h p e)
}.

Section advanced.
Context (configAutoCommit isAutoCommit : bool) (opts : ConsumerAdvancedOptions).
Context (w : cworld) (w_foreign : cforeign_world w).

Abbreviation before := (commits_before isAutoCommit opts).
Abbreviation resolve := (resolveMessageOffset false configAutoCommit isAutoCommit w).

Lemma foreign_wrap e message : foreign_answer (Returned e) -> foreign_answer (Returned (wrap_error message e)).
Proof. by destruct e. Qed.

Lemma resolve_run m b h t e :
  resolve (Some m) b h = (t, e) ->
  foreign_answer (Returned e) /\ (e = None -> offset_saved t m \/ (isAutoCommit = false /\ b = true)).
Proof.
  unfold resolveMessageOffset, CommitMessage. cbn [andb]. intros H.
  destruct (negb isAutoCommit && b) eqn:Eb.
  { bool_hyps. run_inv. split; [done|]. by right. }
  destruct (isAutoCommit && configAutoCommit); run_inv.
  - pose proof (cfw_StoreMessage _ w_foreign h) as Hf. split; [by apply foreign_wrap|].
    destruct (v_StoreMessage w h); [done|]. intros _. left. right. by left.
  - pose proof (cfw_CommitMessage _ w_foreign h) as Hf. split; [by apply foreign_wrap|].
    destruct (v_CommitMessage w h); [done|]. intros _. left. left. by left.
Qed.

Lemma commit_first_run message m pr h t x :
  commit_first isAutoCommit opts w message (Some m) pr h = (t, x) ->
  match x with
  | Err e => foreign e = true
  | Ok pr' => (before = false /\ pr' = pr) \/ (before = true /\ offset_saved t m /\ pr' = markConsumerWorkerCommitted pr)
  end.
Proof.
  unfold commit_first, CommitMessage. destruct before; intros H; run_inv; [|by left].
  pose proof (cfw_CommitMessage _ w_foreign h) as Hf. destruct (v_CommitMessage w h); [done|]. right.
  split_and!; [done| |done]. left. by left.
Qed.

Lemma run_offset_finalizer_foreign m called f h t a :
  foreign_finalizer f -> run_offset_finalizer opts w m called f h = (t, a) -> foreign_answer a.
Proof.
  intros Hf. revert called h t a. induction Hf as [e He| |exact k Hk IH]; intros called h t a H; cbn in H.
  - by run_inv.
  - by run_inv.
  - destruct called; [by eapply IH in H|]. run_inv. eapply IH; [|done].
    unfold commitExact in *. run_inv. pose proof (cfw_CommitOffsets _ w_foreign h) as Hc. by destruct (v_CommitOffsets w h).
Qed.

(** A foreign error with a message's position attached asks for that message. *)
Lemma attributed_plan e m :
  foreign e = true -> exists e', withConsumerRewindPosition (Some e) (confluentRecordPosition m) = Some e' /\
    plan e' = [confluentRecordPosition m].
Proof. intros H. cbn. rewrite (foreign_undecided _ H). by eexists. Qed.

Lemma finalizer_failure_plan e m he :
  foreign e = true ->
  exists e', withConsumerRewindPosition (Some (finalizer_failure m e he)) (confluentRecordPosition m) = Some e' /\
    plan e' = [confluentRecordPosition m].
Proof.
  intros H. unfold finalizer_failure. destruct (isExactOffsetCommitError e); [by apply attributed_plan|].
  destruct (match he with Some he => errors_Is_value e he | None => false end); [by eexists|by apply attributed_plan].
Qed.

(** Where an exit leaves its worker. *)
Definition cstopped (m : CMessage) (next : option position) (t : list cfev) (pr : progress) : Prop :=
  at_position pr = Some (confluentRecordPosition m) \/ (settled_message t m = true /\ at_position pr = next).

(** What a message's processing leaves, [t0] being what was done for it
    before. *)
Definition message_post (m : CMessage) (next : option position) (t : list cfev) (x : result ended unit) : Prop :=
  match x with
  | Ok _ => settled_message t m = true
  | Err (WDone None) => CfCancelled true ∈ t
  | Err (WDone (Some e)) => plan e = [confluentRecordPosition m] \/
      (settled_message t m = true /\ plan e = option_list next)
  | Err (WExit pr) => cstopped m next t pr
  | Err WPanic => False
  end.

Lemma cstopped_app m next t t' pr : cstopped m next t pr -> cstopped m next (t ++ t') pr.
Proof. intros [H|[H1 H2]]; [by left|right]. by rewrite settled_app, H1. Qed.

Lemma resolve_finalized_foreign m h t e :
  resolve_finalized false configAutoCommit isAutoCommit opts w m h = (t, e) -> foreign_answer (Returned e).
Proof.
  unfold resolve_finalized. destruct (NullOffsetCommitMetadata opts); intros H; [|by apply resolve_run in H as [? _]].
  run_inv. apply foreign_wrap, w_foreign.
Qed.

Lemma settled_finalized t p he m :
  p = mapConfluentToPayload m -> CfFinalizer p he (Returned None) ∈ t -> settled_message t m = true.
Proof.
  intros -> Hin. apply existsb_exists. eexists. split; [by apply list_elem_of_In|]. cbn. by rewrite bool_decide_true.
Qed.

Lemma complete_message_run m he h t x :
  foreign_answer (Returned he) ->
  complete_message false configAutoCommit isAutoCommit opts w m (mapConfluentToPayload m) he h = (t, x) ->
  match x with
  | None => True
  | Some (Some e) => exists e', withConsumerRewindPosition (Some e) (confluentRecordPosition m) = Some e' /\
      plan e' = [confluentRecordPosition m]
  | Some None => settled_message t m = true
  end.
Proof.
  intros Hhe H. unfold complete_message, call_finalizer in H. run_inv.
  match goal with Hf : run_offset_finalizer _ _ _ _ _ _ = (_, ?a) |- _ =>
    apply run_offset_finalizer_foreign in Hf; [|apply w_foreign]; destruct a as [[fe|]|] end.
  - run_inv. by apply finalizer_failure_plan.
  - destruct (negb (bool_decide (is_Some he)) && ResolveAfterSuccessfulFinalizer opts); run_inv; cycle 1.
    { apply (settled_finalized _ _ he _ eq_refl). set_solver. }
    match goal with |- match ?e with Some _ => _ | None => _ end => destruct e as [e|] end; cycle 1.
    { apply (settled_finalized _ _ he _ eq_refl). set_solver. }
    apply attributed_plan. by apply resolve_finalized_foreign in Hrun.
  - by run_inv.
Qed.

Lemma handler_error_run m next he h t0 t x :
  foreign he = true -> (before = false \/ settled_message t0 m = true) ->
  handler_error false isAutoCommit opts w m next he h = (t, x) -> message_post m next (t0 ++ t) x.
Proof.
  intros Hf Hb. unfold handler_error, ctx_cancelled. intros H. run_inv.
  unfold isConsumerRunCancellation in *. destruct (v_cancelled w h) eqn:Ev; cbn [andb] in *.
  1: destruct (onlyCancellation he); [run_inv; cbn; set_solver|].
  all: destruct before; run_inv; [|by left]; right; destruct Hb as [?|Hb]; [done|];
    rewrite settled_app, Hb; split; [done|]; by destruct next.
Qed.

Lemma handle_message_run pr m next h t0 t x :
  cstopped m next t0 pr -> (before = false \/ settled_message t0 m = true) ->
  handle_message false configAutoCommit isAutoCommit opts w pr m next (mapConfluentToPayload m) h = (t, x) ->
  message_post m next (t0 ++ t) x.
Proof.
  intros Hs Hb H. unfold handle_message in H. run_inv.
  pose proof (cfw_handler _ w_foreign h (mapConfluentToPayload m)) as Hh.
  destruct (v_handler w h (mapConfluentToPayload m)) as [he|]; cycle 1.
  { run_inv. by apply cstopped_app. }
  destruct (OffsetFinalizer opts).
  { run_inv. match goal with Hc : complete_message _ _ _ _ _ _ _ _ _ = _ |- _ => apply complete_message_run in Hc; [|done] end.
    match goal with |- context [match ?y with Some _ => _ | None => _ end] => destruct y as [[e|]|] end; cbn [message_post].
    - destruct Hrun as (e' & -> & ?). by left.
    - rewrite app_nil_r, !settled_app, Hrun. by rewrite !orb_true_r.
    - by apply cstopped_app. }
  destruct he as [he|].
  { match goal with Hc : handler_error _ _ _ _ _ _ _ _ = _ |- _ => eapply handler_error_run in Hc; [|done|] end.
    - rewrite app_assoc. done.
    - destruct Hb as [?|Hb]; [by left|right]. by rewrite settled_app, Hb. }
  run_inv. match goal with Hc : resolve _ _ _ = _ |- _ => apply resolve_run in Hc; destruct Hc as [Hf Hset] end.
  match type of Hset with ?y = None -> _ => destruct y as [e|] end; cbn [message_post].
  - destruct (attributed_plan e m Hf) as (e' & -> & ?). by left.
  - rewrite !settled_app. destruct (Hset eq_refl) as [->%settled_saved|[E1 E2]]; [by rewrite !orb_true_r|].
    destruct Hb as [Hb| ->]; [|done]. unfold commits_before in Hb. by rewrite E1, E2 in Hb.
Qed.

(** What a group's program leaves of its messages. *)
Definition answered_for (ms : list CMessage) (t : list cfev) (x : ended) : Prop :=
  x <> WPanic /\
  forall m, m ∈ ms -> settled_message t m = true \/
    match x with
    | WDone None => CfCancelled true ∈ t
    | WDone (Some e) => exists p, p ∈ plan e /\ covers_message p m
    | WExit pr => exists p, at_position pr = Some p /\ covers_message p m
    | WPanic => False
    end.

(** A position at the first message of a group answers for the group. *)
Lemma answered_from_first m rest t x :
  in_order (m :: rest) -> x <> WPanic ->
  match x with
  | WDone None => CfCancelled true ∈ t
  | WDone (Some e) => plan e = [confluentRecordPosition m]
  | WExit pr => at_position pr = Some (confluentRecordPosition m)
  | WPanic => False
  end -> answered_for (m :: rest) t x.
Proof.
  intros Ho Hp Hx. split; [done|]. intros n Hn. right. pose proof (covers_first _ _ _ Ho Hn) as Hc.
  destruct x as [[e|]|pr|]; [|done| |done].
  - rewrite Hx. exists (confluentRecordPosition m). split; [by left|done].
  - eauto.
Qed.

Lemma message_post_answers m rest t x :
  in_order (m :: rest) -> message_post m (confluentRecordPosition <$> head rest) t (Err x) ->
  answered_for (m :: rest) t x.
Proof.
  intros Ho Hx. assert (x <> WPanic) as Hp by (by intros ->). split; [done|].
  assert (forall n, n ∈ m :: rest -> n = m \/ exists q, confluentRecordPosition <$> head rest = Some q /\ covers_message q n) as Hnext.
  { intros n [->|Hn]%elem_of_cons; [by left|right]. destruct rest as [|s rest]; [by apply elem_of_nil in Hn|].
    eexists. split; [done|]. eapply covers_first; [by eapply in_order_tail|done]. }
  intros n Hn. pose proof (covers_first _ _ _ Ho Hn) as Hc.
  destruct x as [[e|]|pr|]; cbn in Hx; [|by right| |done].
  - destruct Hx as [->|[Hs ->]]; [right; exists (confluentRecordPosition m); split; [by left|done]|].
    destruct (Hnext _ Hn) as [->|(q & -> & Hq)]; [by left|right]. exists q. split; [by left|done].
  - destruct Hx as [->|[Hs ->]]; [right; by eexists|].
    destruct (Hnext _ Hn) as [->|(q & -> & Hq)]; [by left|right]. by exists q.
Qed.

Lemma answered_step m rest t t' x :
  settled_message t m = true -> answered_for rest t' x -> answered_for (m :: rest) (t ++ t') x.
Proof.
  intros Hm [Hp Hr]. split; [done|]. intros n [->|Hn]%elem_of_cons; [left; by rewrite settled_app, Hm|].
  destruct (Hr n Hn) as [Hs|Hx]; [left; by rewrite settled_app, Hs, orb_true_r|right].
  destruct x as [[e|]|pr|]; [done| |done..]. set_solver.
Qed.

Lemma process_messages_run ms h t x :
  in_order ms ->
  process_messages false configAutoCommit isAutoCommit opts w ms (mapConfluentToPayload <$> ms) h = (t, x) ->
  answered_for ms t x.
Proof.
  revert h t x. induction ms as [|m rest IH]; intros h t x Ho H; cbn [process_messages fmap list_fmap] in H.
  { run_inv. split; [done|]. by intros ? ?%elem_of_nil. }
  unfold ctx_cancelled in H. run_inv. destruct (v_cancelled w h); run_inv.
  { apply answered_from_first; [done..|]. by left. }
  match goal with Hc : commit_first _ _ _ _ _ _ _ = (_, ?y) |- _ => apply commit_first_run in Hc as Hpre; destruct y as [pr|e] end;
    run_inv; cycle 1.
  { destruct (attributed_plan e m Hpre) as (e' & -> & Hpl). by apply answered_from_first. }
  match goal with |- answered_for _ ([?c] ++ ?u ++ _) _ => set (t0 := [c] ++ u) in *; rewrite (app_assoc [c] u); fold t0 end.
  assert (cstopped m (confluentRecordPosition <$> head rest) t0 pr /\ (before = false \/ settled_message t0 m = true)) as [Hs Hb].
  { destruct Hpre as [[? ->]|(_ & Hst%settled_saved & ->)]; [split; [by left|by left]|].
    assert (settled_message t0 m = true) as Ht0 by (unfold t0; by rewrite settled_app, Hst, orb_true_r).
    split; [by right|by right]. }
  match goal with Hc : handle_message _ _ _ _ _ _ _ _ _ _ = (_, ?y) |- _ =>
    apply (handle_message_run _ _ _ _ t0) in Hc; [|done..]; destruct y as [[]|y] end; run_inv.
  - rewrite app_assoc. apply answered_step; [done|]. eapply IH; [by eapply in_order_tail|done].
  - rewrite app_nil_r. by apply message_post_answers.
Qed.

(** Saving the offset of the last message of a group settles them all. *)
Lemma saved_last t ms l m :
  in_order ms -> last ms = Some l -> offset_saved t l -> m ∈ ms -> settled_message t m = true.
Proof.
  intros Ho Hl Hs Hm.
  assert (tp_of_message l = tp_of_message m /\ (cm_Offset m <= cm_Offset l)%Z) as [E Hle].
  { revert Ho Hl Hm. induction ms as [|s ms IH] using rev_ind; intros Ho Hl Hm; [done|].
    rewrite last_snoc in Hl. injection Hl as ->. split; [apply (io_partition _ Ho); [|done]; set_solver|].
    apply elem_of_app in Hm as [Hm| ->%list_elem_of_singleton]; [|lia]. destruct Ho as [_ Ho].
    apply StronglySorted_app in Ho as (Ho & _ & _). specialize (Ho m l Hm ltac:(by left)). cbn in Ho. lia. }
  assert (bool_decide (tp_of_message l = tp_of_message m) && (cm_Offset m <=? cm_Offset l)%Z = true) as Hb.
  { apply andb_true_iff. split; [by apply bool_decide_true|by apply Z.leb_le]. }
  by destruct Hs as [Hs|Hs]; eapply settled_by.
Qed.

Lemma processBatchGroup_run g h t x :
  well_grouped g -> processBatchGroup false configAutoCommit isAutoCommit opts w g h = (t, x) ->
  answered_for (g_messages g) t x.
Proof.
  intros [Ho _ Hl Hne] H. unfold processBatchGroup, batch_failed, at_first, ctx_cancelled in H. rewrite Hl in H.
  destruct (g_messages g) as [|m rest] eqn:Em; [done|].
  destruct (last (m :: rest)) as [l|] eqn:El; [|by rewrite last_None in El].
  assert (forall t y, y <> WPanic -> offset_saved t l -> answered_for (m :: rest) t y) as Hsaved.
  { intros t' y Hy Hs. split; [done|]. intros n Hn. left. by eapply saved_last. }
  assert (forall t t', offset_saved t l -> offset_saved (t ++ t') l) as Hgrow by (unfold offset_saved; set_solver).
  assert (forall e t, foreign e = true -> answered_for (m :: rest) t
            (WDone (withConsumerRewindPosition (Some e) (confluentRecordPosition m)))) as Hattr.
  { intros e t' He. destruct (attributed_plan e m He) as (e' & -> & Hpl). by apply answered_from_first. }
  run_inv. match goal with Hc : commit_first _ _ _ _ _ _ _ = (_, ?y) |- _ => apply commit_first_run in Hc as Hpre; destruct y as [pr|e] end;
    run_inv; [|by apply Hattr].
  assert (before = true -> forall t', offset_saved (x0 ++ t') l) as Hb.
  { intros Eb t'. destruct Hpre as [[Ef _]|(_ & Hs & _)]; [congruence|by apply Hgrow]. }
  match goal with |- context [v_batch_handler w ?h ?b] => pose proof (cfw_batch_handler _ w_foreign h b) as Hh;
    destruct (v_batch_handler w h b) as [[he|]|] end; cbn [foreign_answer] in Hh.
  - run_inv. match goal with |- context [v_cancelled w ?h] => destruct (v_cancelled w h) end;
      unfold isConsumerRunCancellation in *; cbn [andb] in *.
    1: destruct (onlyCancellation he); [run_inv; apply answered_from_first; [done..|]; set_solver|].
    all: destruct before eqn:Eb; run_inv.
    1, 3: apply Hsaved; [done|by apply Hb].
    all: by apply answered_from_first.
  - run_inv. match goal with Hc : resolve _ _ _ = _ |- _ => apply resolve_run in Hc; destruct Hc as [Hf Hset] end.
    match type of Hset with ?y = None -> _ => destruct y as [e|] end; run_inv; [by apply Hattr|].
    apply Hsaved; [done|]. destruct (Hset eq_refl) as [Hs|[E1 E2]]; [unfold offset_saved in *; set_solver|].
    apply Hb. unfold commits_before. by rewrite E1, E2.
  - run_inv. destruct Hpre as [[_ ->]|(_ & Hs & ->)]; [by apply answered_from_first|by apply Hsaved, Hgrow].
Qed.
End advanced.

(** ** Offsets follow handlers *)

(** The partition and the offset a call makes the group resume from. *)
Definition cf_moves (ev : cfev) : option (tp * Z) :=
  match ev with
  | CfCommitMessage (Some m) _ | CfStoreMessage (Some m) _ => Some (tp_of_message m, (cm_Offset m + 1)%Z)
  | CfCommitOffsets p o _ _ => Some (p, o)
  | _ => None
  end.

Definition cf_handled (t : list cfev) (m : CMessage) : Prop :=
  CfHandler (mapConfluentToPayload m) (Returned None) ∈ t \/
  exists b, CfBatchHandler b (Returned None) ∈ t /\ mapConfluentToPayload m ∈ b_Messages b.

Lemma cf_handled_weaken t t' m : t ⊆ t' -> cf_handled t m -> cf_handled t' m.
Proof. unfold cf_handled. set_solver. Qed.

(** Every call of [t] that moves an offset moves it in the group's partition,
    past messages whose handler has returned without an error only. *)
Definition cf_careful (ms : list CMessage) (t : list cfev) : Prop :=
  forall t1 ev t2 p o, t = t1 ++ ev :: t2 -> cf_moves ev = Some (p, o) ->
  (exists m, m ∈ ms /\ tp_of_message m = p) /\
  forall m, m ∈ ms -> (cm_Offset m < o)%Z -> cf_handled t1 m.

Abbreviation still := (Forall (fun ev => cf_moves ev = None)).

Lemma still_careful ms t : still t -> cf_careful ms t.
Proof.
  intros H t1 ev t2 p o E Hm. exfalso. eapply (quiet_split (fun x => is_Some (cf_moves x))); [|exact E|by rewrite Hm].
  eapply Forall_impl; [exact H|]. intros x Hx. rewrite Hx. by intros [].
Qed.

(** One call that moves the offset past [l], behind the handlers in [t0]. *)
Lemma sole_careful ms l t0 ev t3 :
  still t0 -> still t3 -> l ∈ ms -> cf_moves ev = Some (tp_of_message l, (cm_Offset l + 1)%Z) ->
  (forall m, m ∈ ms -> (cm_Offset m <= cm_Offset l)%Z -> cf_handled t0 m) ->
  cf_careful ms (t0 ++ ev :: t3).
Proof.
  intros H0 H3 Hl Hev Hh t1 x t2 p o E Hm.
  apply (sole_split (fun x => is_Some (cf_moves x))) in E as [-> ->]; [| | |by rewrite Hm].
  - simplify_eq. split; [by eexists|]. intros m Hin Hlt. apply Hh; [done|lia].
  - eapply Forall_impl; [exact H0|]. intros y Hy. rewrite Hy. by intros [].
  - eapply Forall_impl; [exact H3|]. intros y Hy. rewrite Hy. by intros [].
Qed.

(** A message first, then the rest of its group. *)
Lemma cons_careful m rest t t' :
  in_order (m :: rest) -> cf_careful [m] t -> cf_careful rest t' -> cf_handled t m ->
  (forall t1 ev t2 p o, t = t1 ++ ev :: t2 -> cf_moves ev = Some (p, o) -> (o <= cm_Offset m + 1)%Z) ->
  cf_careful (m :: rest) (t ++ t').
Proof.
  intros [_ Ho] H1 H2 Hm Hle t1 ev t2 p o [(l & E)|(l & -> & E)]%app_split Hev.
  - destruct (H1 _ _ _ _ _ E Hev) as [(s & ->%list_elem_of_singleton & <-) Hh].
    split; [exists m; split; [by left|done]|]. specialize (Hle _ _ _ _ _ E Hev).
    intros s [->|Hs]%elem_of_cons Hlt; [by apply Hh; [left|]|].
    inversion Ho as [|? ? _ Hf]; subst. rewrite Forall_forall in Hf. specialize (Hf s Hs). lia.
  - destruct (H2 _ _ _ _ _ E Hev) as [(s & Hs & <-) Hh]. split; [exists s; split; [by right|done]|].
    intros s' [->|Hs']%elem_of_cons Hlt; [by eapply cf_handled_weaken; [|exact Hm]; set_solver|].
    eapply cf_handled_weaken; [|by apply Hh]. set_solver.
Qed.

Section careful.
Context (configAutoCommit isAutoCommit : bool) (opts : ConsumerAdvancedOptions).
Context (no_finalizer : OffsetFinalizer opts = false) (not_before : commits_before isAutoCommit opts = false) (w : cworld).

Lemma cf_resolve_moves m h t e :
  resolveMessageOffset false configAutoCommit isAutoCommit w (Some m) (CommitBeforeHandler opts) h = (t, e) ->
  exists ev, t = [ev] /\ cf_moves ev = Some (tp_of_message m, (cm_Offset m + 1)%Z).
Proof.
  unfold commits_before in not_before. unfold resolveMessageOffset, CommitMessage. cbn [andb]. rewrite not_before.
  intros H. destruct (isAutoCommit && configAutoCommit); run_inv; by eexists.
Qed.

Lemma commit_first_skipped message m pr h t x :
  commit_first isAutoCommit opts w message m pr h = (t, x) -> t = [] /\ x = Ok pr.
Proof. unfold commit_first. rewrite not_before. intros H. by run_inv. Qed.

Lemma handle_message_moves pr m next h t x :
  handle_message false configAutoCommit isAutoCommit opts w pr m next (mapConfluentToPayload m) h = (t, x) ->
  (still t /\ is_ok x = false) \/
  exists ev, t = [CfHandler (mapConfluentToPayload m) (Returned None); ev] /\
    cf_moves ev = Some (tp_of_message m, (cm_Offset m + 1)%Z).
Proof.
  unfold handle_message. rewrite no_finalizer. intros H. run_inv.
  destruct (v_handler w h (mapConfluentToPayload m)) as [[he|]|]; run_inv.
  - left. unfold handler_error, ctx_cancelled in *. run_inv.
    repeat (case_match; run_inv; try (split; [by repeat constructor|done])).
  - right. match goal with Hc : resolveMessageOffset _ _ _ _ _ _ _ = _ |- _ => apply cf_resolve_moves in Hc as (ev & -> & Hev) end.
    by exists ev.
  - left. split; [by repeat constructor|done].
Qed.

Lemma process_messages_careful ms h t x :
  in_order ms ->
  process_messages false configAutoCommit isAutoCommit opts w ms (mapConfluentToPayload <$> ms) h = (t, x) ->
  cf_careful ms t.
Proof.
  revert h t x. induction ms as [|m rest IH]; intros h t x Ho H; cbn [process_messages fmap list_fmap] in H.
  { run_inv. by apply still_careful. }
  unfold ctx_cancelled in H. run_inv. destruct (v_cancelled w h); run_inv.
  { apply still_careful. by repeat constructor. }
  match goal with Hc : commit_first _ _ _ _ _ _ _ = _ |- _ => apply commit_first_skipped in Hc as [-> ->] end. run_inv.
  match goal with Hc : handle_message _ _ _ _ _ _ _ _ _ _ = (_, ?y) |- _ =>
    apply handle_message_moves in Hc as [[Hst Hx]|(ev & -> & Hev)]; destruct y as [[]|y] end; try done; run_inv.
  - apply still_careful. rewrite app_nil_r. constructor; done.
  - match goal with |- cf_careful _ (_ ++ _ ++ _ ++ ?u) =>
      change (cf_careful (m :: rest) ([CfCancelled false; CfHandler (mapConfluentToPayload m) (Returned None); ev] ++ u)) end.
    apply cons_careful; [done| |by eapply IH; [eapply in_order_tail|]|left; set_solver|].
    + apply (sole_careful _ m [_; _] ev []); [by repeat constructor..|by left|done|].
      intros s ->%list_elem_of_singleton _. left. set_solver.
    + intros t1 y t2 p o E Hy. apply (sole_split (fun x => is_Some (cf_moves x)) [_; _] ev []) in E as [-> ->];
        [simplify_eq; lia|..|by rewrite Hy]; repeat constructor; cbn; by intros [].
  - apply (sole_careful _ m [_; _] ev []); [by repeat constructor..|by left|done|].
    intros s Hs Hle. apply elem_of_cons in Hs as [->|Hs]; [left; set_solver|].
    destruct Ho as [_ Ho]. inversion Ho as [|? ? _ Hf]; subst. rewrite Forall_forall in Hf. specialize (Hf s Hs). lia.
Qed.

Lemma processBatchGroup_careful g h t x :
  well_grouped g -> processBatchGroup false configAutoCommit isAutoCommit opts w g h = (t, x) ->
  cf_careful (g_messages g) t.
Proof.
  intros [Ho Hp Hl Hne] H. unfold processBatchGroup, batch_failed, at_first, ctx_cancelled in H. run_inv.
  match goal with Hc : commit_first _ _ _ _ _ _ _ = _ |- _ => apply commit_first_skipped in Hc as [-> ->] end. run_inv.
  match goal with |- context [v_batch_handler w ?h ?b] => destruct (v_batch_handler w h b) as [[he|]|] end; run_inv.
  - apply still_careful. repeat (case_match; run_inv); by repeat constructor.
  - destruct (last (g_messages g)) as [l|] eqn:El; [|by apply last_None in El]. rewrite Hl in *.
    match goal with Hc : resolveMessageOffset _ _ _ _ _ _ _ = _ |- _ => apply cf_resolve_moves in Hc as (ev & -> & Hev) end.
    match goal with |- cf_careful _ (_ ++ _ ++ _ ++ ?u) => assert (still u) as Hu by (repeat (case_match; run_inv); by repeat constructor) end.
    apply (sole_careful _ l [_] ev); [by repeat constructor|done|by eapply last_Some_elem_of|done|].
    intros m Hm _. right. eexists. split; [by left|]. rewrite Hp. by apply list_elem_of_fmap_2.
  - apply still_careful. by repeat constructor.
Qed.
End careful.

(** ** Legacy workers *)

(** The payloads handed to the application, in order. *)
Definition handed (t : list cfev) : list MessagePayload :=
  omap (fun ev => match ev with CfHandler p _ => Some p | _ => None end) t.

Lemma handed_app t t' : handed (t ++ t') = handed t ++ handed t'.
Proof. apply omap_app. Qed.

Section legacy.
Context (configAutoCommit isAutoCommit : bool) (opts : ConsumerAdvancedOptions) (w : cworld).
Context (no_finalizer : OffsetFinalizer opts = false) (no_before : CommitBeforeHandler opts = false).

Lemma legacy_resolve_quiet m h t e :
  resolveMessageOffset true configAutoCommit isAutoCommit w m false h = (t, e) -> handed t = [].
Proof.
  unfold resolveMessageOffset, CommitMessage. intros H. rewrite andb_false_r in H.
  repeat (case_match; run_inv; try done).
Qed.

Lemma legacy_handle_message pr m next p h t x :
  handle_message true configAutoCommit isAutoCommit opts w pr m next p h = (t, x) ->
  handed t = [p] /\ (x = Ok tt \/ x = Err (WExit pr)).
Proof.
  unfold handle_message, handler_error. rewrite no_finalizer, no_before. intros H. run_inv.
  destruct (v_handler w h p) as [[he|]|]; run_inv; [by auto| |by auto].
  match goal with Hc : resolveMessageOffset _ _ _ _ _ _ _ = _ |- _ => apply legacy_resolve_quiet in Hc as Hq end.
  split; [|by left; case_match]. rewrite !handed_app, Hq. done.
Qed.

Lemma legacy_messages ms ps h t x :
  length ps = length ms ->
  process_messages true configAutoCommit isAutoCommit opts w ms ps h = (t, x) ->
  (x = WDone None /\ handed t = ps) \/ (exists pr, x = WExit pr) /\ handed t `prefix_of` ps.
Proof.
  revert ps h t x. induction ms as [|m rest IH]; intros [|p ps] h t x Hlen H; try done; cbn [process_messages] in H.
  { run_inv. by left. }
  run_inv. unfold commit_first, commits_before in *. rewrite no_before, andb_false_r in *. run_inv. run_inv.
  match goal with Hc : handle_message _ _ _ _ _ _ _ _ _ _ = (_, ?y) |- _ =>
    apply legacy_handle_message in Hc as [Hh [->| ->]] end; run_inv.
  - match goal with Hc : process_messages _ _ _ _ _ _ _ _ = _ |- _ => apply IH in Hc; [|by injection Hlen] end.
    rewrite !handed_app, Hh. destruct Hrun0 as [[-> <-]|[He Hps]]; [by left|right]. split; [done|].
    by apply prefix_cons.
  - right. split; [by eexists|]. rewrite !handed_app, Hh. apply prefix_cons, prefix_nil.
Qed.
End legacy.

(** ** What the consumer relies on *)

(** When the worker of a group ends, each of its messages is settled (its
    offset or a later one of its partition was committed or stored, or the
    application's finalizer took it), or the error asks for the partition from
    an offset at or before it, or the worker saw its run cancelled; an exit of
    its goroutine leaves such an offset too. *)
Theorem confluent_workers_answer configAutoCommit isAutoCommit opts w g t x :
  cforeign_world w -> well_grouped g ->
  processMessageGroup false configAutoCommit isAutoCommit opts w g [] = (t, x) \/
  processBatchGroup false configAutoCommit isAutoCommit opts w g [] = (t, x) ->
  answered_for (g_messages g) t x.
Proof.
  intros Hw Hg [H|H]; [|by eapply processBatchGroup_run].
  unfold processMessageGroup in H. rewrite (wg_payloads _ Hg) in H.
  eapply process_messages_run; [done|apply Hg|done].
Qed.

(** Without a finalizer and without a commit in front of the handler, the
    worker moves the offset of its partition only past messages whose handler
    has returned without an error. *)
Theorem confluent_offsets_follow_handlers configAutoCommit isAutoCommit opts w g t x :
  OffsetFinalizer opts = false -> commits_before isAutoCommit opts = false -> well_grouped g ->
  processMessageGroup false configAutoCommit isAutoCommit opts w g [] = (t, x) \/
  processBatchGroup false configAutoCommit isAutoCommit opts w g [] = (t, x) ->
  cf_careful (g_messages g) t.
Proof.
  intros Hf Hb Hg [H|H]; [|by eapply processBatchGroup_careful].
  unfold processMessageGroup in H. rewrite (wg_payloads _ Hg) in H.
  eapply process_messages_careful; [done..|apply Hg|done].
Qed.

(** A legacy worker hands over every message of its group, in order, and
    reports no error, whatever the handler and the driver return; only the end
    of its goroutine stops it early. *)
Theorem legacy_worker_never_fails configAutoCommit isAutoCommit opts w g t x :
  OffsetFinalizer opts = false -> CommitBeforeHandler opts = false -> well_grouped g ->
  processMessageGroup true configAutoCommit isAutoCommit opts w g [] = (t, x) ->
  (x = WDone None /\ handed t = b_Messages (payload g)) \/
  (exists pr, x = WExit pr) /\ handed t `prefix_of` b_Messages (payload g).
Proof.
  intros Hf Hb Hg. apply legacy_messages; [done..|]. by rewrite (wg_payloads _ Hg), length_fmap.
Qed.
