(* ===== verification/ConfluentConsumer.v ===== *)
(** * package kafka, the librdkafka consumer

    The shared state of ConfluentConsumer (kafka/confluent.go) and everything
    an advanced run, the rebalance callback and Close do to it, as a step
    relation.  A step is one critical section, one driver call or one worker;
    the driver, the application and the other goroutines move in between.
    The field [open] is not the code's: it lists the messages read under an
    assignment this member still has and not settled since, which is what the
    rewinds of the code are there to bring back. *)

From S2P Require Import Prelude.
From S2P Require Import GoStrings.
From S2P Require Import KafkaErrors.
From S2P Require Import KafkaWorker.
From S2P Require Import ConfluentWorker.

(** ** Assignments *)

(** ckafka.TopicPartition of a rebalance event; a topic may be nil. *)
Abbreviation topic_partition := (option string * Z)%type.

(** confluentPartitionKey *)
Definition partition_key (p : topic_partition) : tp := (confluentTopicName p.1, p.2).

(** The fields behind assignmentMu. *)
Record Assignment := MkAssignment {
  assignment_known : bool;
  assignment_generation : Z;
  assigned : gmap tp Z
}.

Definition no_assignment : Assignment := MkAssignment false 0 ∅.

(** assignmentGeneration++ on a uint64. *)
Definition next_generation (a : Assignment) : Z := ((assignment_generation a + 1) mod 2 ^ 64)%Z.

Definition mark_assigned (g : Z) (m : gmap tp Z) (p : topic_partition) : gmap tp Z :=
  match p.1 with
  | None => m
  | Some topic => <[(topic, p.2) := g]> m
  end.

Definition markPartitionsAssigned (partitions : list topic_partition) (cooperative : bool) (a : Assignment) : Assignment :=
  let g := next_generation a in
  MkAssignment true g (foldl (mark_assigned g) (if cooperative then assigned a else ∅) partitions).

Definition mark_revoked (m : gmap tp Z) (p : topic_partition) : gmap tp Z :=
  match p.1 with
  | None => m
  | Some topic => delete (topic, p.2) m
  end.

Definition markPartitionsRevoked (partitions : list topic_partition) (cooperative : bool) (a : Assignment) : Assignment :=
  MkAssignment true (next_generation a)
    (if cooperative then foldl mark_revoked (assigned a) partitions else ∅).

(** beginPartitionDispatch: whether the group may run; the read lease it takes
    is the list [leased] of the state below. *)
Definition beginPartitionDispatch (g : confluentBatchGroup) (a : Assignment) : bool :=
  if assignment_known a then
    match g_messages g with
    | [] => true
    | m :: _ =>
        match cm_Topic m with
        | None => false
        | Some topic =>
            match assigned a !! (topic, cm_Partition m) with
            | None => false
            | Some partitionGeneration =>
                negb (assignmentKnown g && negb (assignmentGeneration g =? partitionGeneration)%Z)
            end
        end
    end
  else true.

Definition assignmentSnapshot (m : CMessage) (a : Assignment) : confluentAssignmentSnapshot :=
  if assignment_known a then
    match cm_Topic m with
    | None => no_snapshot
    | Some topic => MkSnapshot true (default 0%Z (assigned a !! (topic, cm_Partition m)))
    end
  else no_snapshot.

(** ** Rewinds *)

(** The fields pendingRewinds and revokedRewinds. *)
Record Rewinds := MkRewinds { pendingRewinds : list position; revokedRewinds : gset tp }.

Definition clearPendingRewindsForPartitions (revoked : list topic_partition) (r : Rewinds) : Rewinds :=
  match revoked with
  | [] => r
  | _ =>
      let revokedSet : gset tp := list_to_set (partition_key <$> revoked) in
      MkRewinds (filter (fun p => tp_of p ∉ revokedSet) (pendingRewinds r)) (revokedRewinds r ∪ revokedSet)
  end.

Definition markRewindPartitionsAssigned (partitions : list topic_partition) (r : Rewinds) : Rewinds :=
  MkRewinds (pendingRewinds r) (revokedRewinds r ∖ list_to_set (partition_key <$> partitions)).

(** rewindPositionsStillOwned; [current] is the assignment the driver gives,
    [None] when it gives none. *)
Definition still_owned (revoked : gset tp) (current : option (gset tp)) (p : position) : Prop :=
  tp_of p ∉ revoked /\ match current with Some a => tp_of p ∈ a | None => True end.
#[export] Instance still_owned_dec revoked current p : Decision (still_owned revoked current p).
Proof. unfold still_owned. destruct current; apply _. Defined.

Definition rewindPositionsStillOwned (current : option (list topic_partition)) (positions : list position)
    (r : Rewinds) : list position :=
  filter (still_owned (revokedRewinds r) (list_to_set ∘ fmap partition_key <$> current)) positions.

(** The result of SeekPartitions: an error, or what became of each partition. *)
Abbreviation seek_result := (result gerr (list (topic_partition * option gerr))).

(** The loop of seekConfluentPositions over the results. *)
Fixpoint seek_verdict (expected : gset tp) (results : list (topic_partition * option gerr)) : option gerr :=
  match results with
  | [] => if bool_decide (expected = ∅) then None
          else Some (ELeaf (Other "partition seek omitted requested partition(s)"))
  | (p, Some e) :: _ => Some (EWrap "partition seek failed" e)
  | (p, None) :: rest =>
      if bool_decide (partition_key p ∈ expected) then seek_verdict (expected ∖ {[partition_key p]}) rest
      else Some (ELeaf (Other "partition seek returned unexpected result"))
  end.

(** seekConfluentPositions, once the driver is asked. *)
Definition seekConfluentPositions (positions : list position) (answer : seek_result) : option gerr :=
  match positions with
  | [] => None
  | _ =>
      match answer with
      | Err e => Some e
      | Ok results =>
          if Nat.eqb (length results) (length positions)
          then seek_verdict (list_to_set (tp_of <$> positions)) results
          else Some (ELeaf (Other "partition seek returned another number of results"))
      end
  end.

(** What prepareHandlerRunRetry records after a seek that failed. *)
Definition retain_rewinds (positions : list position) (r : Rewinds) : Rewinds :=
  MkRewinds (mergeConsumerRewindPositions (pendingRewinds r) (filter (fun p => tp_of p ∉ revokedRewinds r) positions))
    (revokedRewinds r).

(** What applyPendingRewinds removes after a seek that succeeded. *)
Definition drop_rewinds (positions : list position) (r : Rewinds) : Rewinds :=
  MkRewinds (filter (fun p => p ∉ positions) (pendingRewinds r)) (revokedRewinds r).

(** ** The state *)

Abbreviation item := (CMessage * confluentAssignmentSnapshot)%type.

(** A wave of runConfluentPartitionGroups: groups without a slot, goroutines
    that have one, groups whose goroutine holds a lease, errors sent. *)
Record GroupWave := MkGroupWave {
  waiting : list confluentBatchGroup;
  launched : list confluentBatchGroup;
  leased : list confluentBatchGroup;
  errors : list gerr
}.

(** Where a run is.  [Applying] to [Sought] are applyPendingRewinds, [Salvaging]
    is a poll of consumeBatches that failed with messages in hand, [Owning] to
    [Retaining] are prepareHandlerRunRetry, [Leaving] is the deferred finish. *)
Inductive cphase :=
| Begun
| Applying (positions : list position)
| Seeking (positions owned : list position)
| Sought (positions : list position)
| Gathering (items : list item)
| Waving (wave : GroupWave) (deferred : bool)
| Salvaging (groups : list confluentBatchGroup) (pollErr : gerr) (failures : list gerr)
| Owning (positions : list position)
| Reseeking (positions : list position)
| Retaining (positions : list position)
| Leaving.

(** What the run was started with; [c_batch] for consumeBatches. *)
Record CRunOptions := MkCRunOptions { c_batch : bool; c_options : ConsumerAdvancedOptions }.

Record CRun := MkCRun { c_driver : nat; c_started : CRunOptions; c_cancelled : bool; c_phase : cphase }.

(** finishClose in progress: what it captured and where it is. *)
Inductive cclose := CSignalling | CAwaiting | CClosing | CClosed | CDone.

Record CCloser := MkCCloser { cc_consumer : option nat; cc_run : bool; cc_at : cclose }.

(** Drivers are numbered in the order they are made; [c_shut] are those
    closed. *)
Record CState := MkCState {
  c_consumer : option nat;
  c_made : nat;
  c_topics : list string;
  c_closed : bool;
  c_running : option CRun;
  c_closer : option CCloser;
  c_assignment : Assignment;
  c_rewinds : Rewinds;
  open : list item;
  c_shut : list nat
}.

Definition new_cstate : CState :=
  MkCState None 0 [] false None None no_assignment (MkRewinds [] ∅) [] [].

Definition with_run (r : option CRun) (c : CState) : CState :=
  MkCState (c_consumer c) (c_made c) (c_topics c) (c_closed c) r (c_closer c) (c_assignment c) (c_rewinds c) (open c) (c_shut c).
Definition with_closer (k : CCloser) (c : CState) : CState :=
  MkCState (c_consumer c) (c_made c) (c_topics c) (c_closed c) (c_running c) (Some k) (c_assignment c) (c_rewinds c) (open c) (c_shut c).
Definition with_rewinds (r : Rewinds) (c : CState) : CState :=
  MkCState (c_consumer c) (c_made c) (c_topics c) (c_closed c) (c_running c) (c_closer c) (c_assignment c) r (open c) (c_shut c).
Definition with_open (l : list item) (c : CState) : CState :=
  MkCState (c_consumer c) (c_made c) (c_topics c) (c_closed c) (c_running c) (c_closer c) (c_assignment c) (c_rewinds c) l (c_shut c).
Definition at_phase (p : cphase) (r : CRun) (c : CState) : CState :=
  with_run (Some (MkCRun (c_driver r) (c_started r) (c_cancelled r) p)) c.

(** ** Starting and closing *)

(** Connect, and the part of beginConsumeRun that makes a driver. *)
Definition connect_driver (topics : list string) (c : CState) : CState :=
  MkCState (Some (c_made c)) (S (c_made c)) topics (c_closed c) (c_running c) (c_closer c) (c_assignment c)
    (c_rewinds c) (open c) (c_shut c).

(** A driver whose subscription fails is closed again. *)
Definition connect_failed (c : CState) : CState :=
  MkCState (c_consumer c) (S (c_made c)) (c_topics c) (c_closed c) (c_running c) (c_closer c) (c_assignment c)
    (c_rewinds c) (open c) (c_shut c ++ [c_made c]).

(** The critical section of Close and of requestCloseFromRebalance. *)
Definition request_cclose (c : CState) : CState :=
  MkCState (c_consumer c) (c_made c) (c_topics c) true (c_running c)
    (Some (MkCCloser (c_consumer c) (bool_decide (is_Some (c_running c))) CSignalling)) (c_assignment c)
    (c_rewinds c) (open c) (c_shut c).

Definition move_closer (k : CCloser) (p : cclose) (c : CState) : CState :=
  with_closer (MkCCloser (cc_consumer k) (cc_run k) p) c.

(** cancel() of finishClose, and its wait for runDone when it has one. *)
Definition cancel_run (k : CCloser) (c : CState) : CState :=
  move_closer k (if cc_run k then CAwaiting else CClosing)
    (match c_running c with
     | Some r => if cc_run k then with_run (Some (MkCRun (c_driver r) (c_started r) true (c_phase r))) c else c
     | None => c
     end).

Definition close_driver (k : CCloser) (c : CState) : CState :=
  let c := move_closer k CClosed c in
  match cc_consumer k with
  | Some n => MkCState (c_consumer c) (c_made c) (c_topics c) (c_closed c) (c_running c) (c_closer c) (c_assignment c)
                (c_rewinds c) (open c) (c_shut c ++ [n])
  | None => c
  end.

Definition forget_driver (k : CCloser) (c : CState) : CState :=
  let c := move_closer k CDone c in
  MkCState None (c_made c) (c_topics c) (c_closed c) (c_running c) (c_closer c) (c_assignment c)
    (c_rewinds c) (open c) (c_shut c).

(** ** The rebalance callback *)

(** A message read stays this member's while its partition keeps the
    generation it was read under. *)
Definition still_mine (a : Assignment) (x : item) : Prop :=
  known x.2 = true /\ assigned a !! tp_of_message x.1 = Some (generation x.2).
#[export] Instance still_mine_dec a x : Decision (still_mine a x).
Proof. unfold still_mine. apply _. Defined.

Definition rebalanced (a : Assignment) (r : Rewinds) (c : CState) : CState :=
  MkCState (c_consumer c) (c_made c) (c_topics c) (c_closed c) (c_running c) (c_closer c) a r
    (filter (still_mine a) (open c)) (c_shut c).

(** The critical sections of rebalanceCb for AssignedPartitions and for
    RevokedPartitions. *)
Definition on_assigned (partitions : list topic_partition) (cooperative : bool) (c : CState) : CState :=
  rebalanced (markPartitionsAssigned partitions cooperative (c_assignment c))
    (markRewindPartitionsAssigned partitions (c_rewinds c)) c.

Definition on_revoked (partitions : list topic_partition) (cooperative : bool) (c : CState) : CState :=
  rebalanced (markPartitionsRevoked partitions cooperative (c_assignment c))
    (clearPendingRewindsForPartitions partitions (c_rewinds c)) c.

(** The write lock of the callback waits for the read leases. *)
Definition leases (c : CState) : list confluentBatchGroup :=
  match c_running c with
  | Some (MkCRun _ _ _ (Waving w _)) => leased w
  | _ => []
  end.

(** ** What becomes of the messages read *)

(** The message belongs to a partition this member has. *)
Definition owned_message (a : Assignment) (m : CMessage) : bool :=
  negb (assignment_known a) || bool_decide (is_Some (assigned a !! tp_of_message m)).

Definition read_message (m : CMessage) (c : CState) : item * CState :=
  let x := (m, assignmentSnapshot m (c_assignment c)) in
  (x, if owned_message (c_assignment c) m then with_open (open c ++ [x]) c else c).

(** The driver says which partitions it has. *)
Definition disown (current : option (list topic_partition)) (c : CState) : CState :=
  match current with
  | None => c
  | Some l => with_open (filter (fun x => tp_of_message x.1 ∈ partition_key <$> l) (open c)) c
  end.

(** A seek that succeeds makes the driver read from these positions again. *)
Definition sought_by (positions : list position) (x : item) : Prop :=
  Exists (fun p => covers_message p x.1) positions.
#[export] Instance sought_by_dec positions x : Decision (sought_by positions x).
Proof. unfold sought_by. apply _. Defined.

Definition seek_done (positions : list position) (c : CState) : CState :=
  with_open (filter (fun x => ~ sought_by positions x) (open c)) c.

(** The message went to the group. *)
Definition in_group (g : confluentBatchGroup) (x : item) : Prop :=
  x.1 ∈ g_messages g /\ assignmentKnown g = known x.2 /\
  (known x.2 = true -> assignmentGeneration g = generation x.2).
#[export] Instance in_group_dec g x : Decision (in_group g x).
Proof. unfold in_group. apply _. Defined.

Definition settle (g : confluentBatchGroup) (t : list cfev) (c : CState) : CState :=
  with_open (filter (fun x => ~ (in_group g x /\ settled_message t x.1 = true)) (open c)) c.

(** ** Steps *)

(** What a step shows. *)
Inductive clabel :=
| LSilent
| LRead (m : CMessage)
| LSeek (positions : list position) (e : option gerr)
| LWorker (g : confluentBatchGroup) (t : list cfev)
| LCloseDriver (n : nat).

Section steps.
Context (configAutoCommit : bool)            (* cc.config.AutoCommit *)
        (possible : cworld -> Prop)          (* what driver and application may do *)
        (driver_error : gerr -> Prop).       (* what ReadMessage may fail with *)

Definition run_auto (o : CRunOptions) : bool := resolveAutoCommit configAutoCommit (o_AutoCommit (c_options o)).

(** The checks of consumeMessages and consumeBatches before beginConsumeRun. *)
Definition run_validated (o : CRunOptions) : result string (bool * Z * Z) :=
  if c_batch o && OffsetFinalizer (c_options o)
  then Err "OffsetFinalizer is supported only for message consumption"
  else validateConfluentConsumerOptions configAutoCommit (c_options o)
         (if c_batch o then 1000000000 else 100000000)%Z.

Definition run_concurrency (o : CRunOptions) : Z :=
  match run_validated o with Ok (_, _, concurrency) => concurrency | Err _ => 1 end.

(** waveSize and batchSize. *)
Definition gather_size (o : CRunOptions) : Z :=
  if c_batch o then (if (MaxRecords (c_options o) <=? 0)%Z then 100 else MaxRecords (c_options o))%Z
  else
    let waveSize := if (MaxRecords (c_options o) <=? 0)%Z then run_concurrency o else MaxRecords (c_options o) in
    if (waveSize <? 1)%Z then 1%Z else waveSize.

Definition run_process (o : CRunOptions) (w : cworld) (g : confluentBatchGroup) : TM cfev ended :=
  if c_batch o then processBatchGroup false configAutoCommit (run_auto o) (c_options o) w g
  else processMessageGroup false configAutoCommit (run_auto o) (c_options o) w g.

(** groupConfluentBatchMessagesWithAssignments of what was gathered. *)
Definition groups_of_items (items : list item) : list confluentBatchGroup :=
  groupConfluentBatchMessagesWithAssignments (Some <$> items.*1) (items.*2).

(** runConfluentPartitionGroups lets this many goroutines run. *)
Definition slots (o : CRunOptions) : Z := if (run_concurrency o <? 1)%Z then 1%Z else run_concurrency o.

(** The first lines of prepareHandlerRunRetry. *)
Definition retry_phase (e : gerr) : cphase :=
  match consumerRewindPositions e with
  | (p :: ps, true) => Owning (p :: ps)
  | _ => Leaving
  end.

(** After a wave: the loop goes on, or the run returns. *)
Definition after_groups (cancelled deferred : bool) (errs : list gerr) : cphase :=
  match join_errors errs with
  | None => if deferred then Leaving else Gathering []
  | Some e => if isConsumerRunCancellation cancelled e then Leaving else retry_phase e
  end.

(** After the loop over the groups of a poll that failed. *)
Definition after_salvage (failures : list gerr) : cphase :=
  match join_errors failures with
  | None => Leaving
  | Some e => retry_phase e
  end.

(** What a goroutine with a lease adds for a group of a failed poll. *)
Definition salvage_one (g : confluentBatchGroup) (pollErr : gerr) (a : Assignment) : list gerr :=
  if beginPartitionDispatch g a then
    match g_messages g with
    | [] => []
    | m :: _ => option_list (withConsumerRewindPosition (Some pollErr) (confluentRecordPosition m))
    end
  else [].

(** A message of the driver has its topic, a legal name, and comes behind those
    of its partition that were read under the same assignment. *)
Definition readable (m : CMessage) (items : list item) (a : Assignment) : Prop :=
  is_Some (cm_Topic m) /\ str_forallb (fun x => negb (Ascii.eqb x "000")) (confluentTopicName (cm_Topic m)) = true /\
  forall x, x ∈ items -> tp_of_message x.1 = tp_of_message m -> x.2 = assignmentSnapshot m a ->
    (cm_Offset x.1 < cm_Offset m)%Z.

Definition set_wave (w : GroupWave) (deferred : bool) (r : CRun) (c : CState) : CState :=
  at_phase (Waving w deferred) r c.

Inductive cfstep : CState -> clabel -> CState -> Prop :=
(* Connect *)
| cf_connect c topics :
    c_closed c = false -> c_consumer c = None -> cfstep c LSilent (connect_driver topics c)
| cf_connect_failed c :
    c_closed c = false -> c_consumer c = None -> cfstep c LSilent (connect_failed c)
(* beginConsumeRun: a missing driver is made again, then the run begins *)
| cf_reconnect c :
    c_closed c = false -> c_consumer c = None -> c_topics c <> [] ->
    cfstep c LSilent (connect_driver (c_topics c) c)
| cf_begin c n o :
    is_ok (run_validated o) = true -> c_closed c = false -> c_consumer c = Some n -> c_running c = None ->
    cfstep c LSilent (with_run (Some (MkCRun n o false Begun)) c)
(* applyPendingRewinds *)
| cf_nothing_pending c r :
    c_running c = Some r -> c_phase r = Begun ->
    c_closed c = true \/ c_consumer c <> Some (c_driver r) \/ pendingRewinds (c_rewinds c) = [] ->
    cfstep c LSilent (at_phase (Gathering []) r c)
| cf_pending c r :
    c_running c = Some r -> c_phase r = Begun -> c_closed c = false -> c_consumer c = Some (c_driver r) ->
    pendingRewinds (c_rewinds c) <> [] ->
    cfstep c LSilent (at_phase (Applying (pendingRewinds (c_rewinds c))) r c)
| cf_apply_owned c r positions current :
    c_running c = Some r -> c_phase r = Applying positions ->
    cfstep c LSilent (disown current
      (at_phase (Seeking positions (rewindPositionsStillOwned current positions (c_rewinds c))) r c))
| cf_apply_sought c r positions owned answer :
    c_running c = Some r -> c_phase r = Seeking positions owned -> seekConfluentPositions owned answer = None ->
    cfstep c (LSeek owned None) (seek_done owned (at_phase (Sought positions) r c))
| cf_apply_failed c r positions owned answer e :
    c_running c = Some r -> c_phase r = Seeking positions owned -> seekConfluentPositions owned answer = Some e ->
    cfstep c (LSeek owned (Some e)) (at_phase Leaving r c)
| cf_apply_done c r positions :
    c_running c = Some r -> c_phase r = Sought positions ->
    cfstep c LSilent (at_phase (Gathering []) r
      (if bool_decide (c_consumer c = Some (c_driver r)) then with_rewinds (drop_rewinds positions (c_rewinds c)) c else c))
(* the read loop; cancellation may fall between its check and the read *)
| cf_read c r items m :
    c_running c = Some r -> c_phase r = Gathering items -> (Z.of_nat (length items) < gather_size (c_started r))%Z ->
    readable m items (c_assignment c) ->
    cfstep c (LRead m) (at_phase (Gathering (items ++ [(read_message m c).1])) r (read_message m c).2)
| cf_read_stopped c r items :
    c_running c = Some r -> c_phase r = Gathering items -> c_cancelled r = true ->
    cfstep c LSilent (at_phase Leaving r c)
| cf_read_failed c r :
    c_running c = Some r -> c_phase r = Gathering [] -> cfstep c LSilent (at_phase Leaving r c)
| cf_batch_read_failed c r items e :
    c_running c = Some r -> c_phase r = Gathering items -> items <> [] -> c_batch (c_started r) = true ->
    driver_error e ->
    cfstep c LSilent (at_phase (Salvaging (groups_of_items items) (EWrap "kafka/confluent: consume batch error" e) []) r c)
| cf_salvage c r g groups pollErr failures :
    c_running c = Some r -> c_phase r = Salvaging (g :: groups) pollErr failures ->
    cfstep c LSilent (at_phase (Salvaging groups pollErr (failures ++ salvage_one g pollErr (c_assignment c))) r c)
| cf_salvaged c r pollErr failures :
    c_running c = Some r -> c_phase r = Salvaging [] pollErr failures ->
    cfstep c LSilent (at_phase (after_salvage failures) r c)
(* runConfluentPartitionGroups *)
| cf_wave c r items deferred :
    c_running c = Some r -> c_phase r = Gathering items -> items <> [] -> c_cancelled r = false ->
    (deferred = true -> c_batch (c_started r) = false) ->
    cfstep c LSilent (set_wave (MkGroupWave (groups_of_items items) [] [] []) deferred r c)
| cf_launch c r g waiting launched leased errs d :
    c_running c = Some r -> c_phase r = Waving (MkGroupWave (g :: waiting) launched leased errs) d ->
    (Z.of_nat (length launched + length leased) < slots (c_started r))%Z ->
    cfstep c LSilent (set_wave (MkGroupWave waiting (launched ++ [g]) leased errs) d r c)
| cf_stop_launching c r waiting launched leased errs d :
    c_running c = Some r -> c_phase r = Waving (MkGroupWave waiting launched leased errs) d -> c_cancelled r = true ->
    cfstep c LSilent (set_wave (MkGroupWave [] launched leased errs) d r c)
| cf_dispatch c r g waiting l1 l2 leased errs d :
    c_running c = Some r -> c_phase r = Waving (MkGroupWave waiting (l1 ++ g :: l2) leased errs) d ->
    beginPartitionDispatch g (c_assignment c) = true ->
    cfstep c LSilent (set_wave (MkGroupWave waiting (l1 ++ l2) (leased ++ [g]) errs) d r c)
| cf_discard c r g waiting l1 l2 leased errs d :
    c_running c = Some r -> c_phase r = Waving (MkGroupWave waiting (l1 ++ g :: l2) leased errs) d ->
    beginPartitionDispatch g (c_assignment c) = false ->
    cfstep c LSilent (set_wave (MkGroupWave waiting (l1 ++ l2) leased errs) d r c)
| cf_worker c r g waiting launched l1 l2 errs d w t x :
    c_running c = Some r -> c_phase r = Waving (MkGroupWave waiting launched (l1 ++ g :: l2) errs) d ->
    possible w -> run_process (c_started r) w g [] = (t, x) -> x <> WPanic ->
    (CfCancelled true ∈ t -> c_cancelled r = true) ->
    cfstep c (LWorker g t) (settle g t
      (set_wave (MkGroupWave waiting launched (l1 ++ l2) (errs ++ option_list (sent_error x))) d r c))
| cf_wave_done c r errs d :
    c_running c = Some r -> c_phase r = Waving (MkGroupWave [] [] [] errs) d ->
    cfstep c LSilent (at_phase (after_groups (c_cancelled r) d errs) r c)
(* prepareHandlerRunRetry *)
| cf_retry_owned c r positions current :
    c_running c = Some r -> c_phase r = Owning positions ->
    cfstep c LSilent (disown current
      (at_phase (Reseeking (rewindPositionsStillOwned current positions (c_rewinds c))) r c))
| cf_retry_sought c r positions answer :
    c_running c = Some r -> c_phase r = Reseeking positions -> seekConfluentPositions positions answer = None ->
    cfstep c (LSeek positions None) (seek_done positions (at_phase Leaving r c))
| cf_retry_failed c r positions answer e :
    c_running c = Some r -> c_phase r = Reseeking positions -> seekConfluentPositions positions answer = Some e ->
    cfstep c (LSeek positions (Some e)) (at_phase (Retaining positions) r c)
| cf_retain c r positions :
    c_running c = Some r -> c_phase r = Retaining positions ->
    cfstep c LSilent (at_phase Leaving r
      (if negb (c_closed c) && bool_decide (c_consumer c = Some (c_driver r))
       then with_rewinds (retain_rewinds positions (c_rewinds c)) c else c))
(* finish *)
| cf_leave c r :
    c_running c = Some r -> c_phase r = Leaving -> cfstep c LSilent (with_run None c)
(* rebalanceCb *)
| cf_assigned c partitions cooperative :
    leases c = [] -> Forall (fun p => is_Some p.1) partitions ->
    cfstep c LSilent (on_assigned partitions cooperative c)
| cf_revoked c partitions cooperative :
    leases c = [] -> Forall (fun p => is_Some p.1) partitions ->
    cfstep c LSilent (on_revoked partitions cooperative c)
(* Close *)
| cf_close c : c_closed c = false -> cfstep c LSilent (request_cclose c)
| cf_cancel c k :
    c_closer c = Some k -> cc_at k = CSignalling -> cfstep c LSilent (cancel_run k c)
| cf_joined c k :
    c_closer c = Some k -> cc_at k = CAwaiting -> c_running c = None ->
    cfstep c LSilent (move_closer k CClosing c)
| cf_close_driver c k n :
    c_closer c = Some k -> cc_at k = CClosing -> cc_consumer k = Some n ->
    cfstep c (LCloseDriver n) (close_driver k c)
| cf_close_none c k :
    c_closer c = Some k -> cc_at k = CClosing -> cc_consumer k = None ->
    cfstep c LSilent (close_driver k c)
| cf_close_done c k :
    c_closer c = Some k -> cc_at k = CClosed -> cfstep c LSilent (forget_driver k c).

Inductive cf_reachable : CState -> Prop :=
| cf_new : cf_reachable new_cstate
| cf_then c l c' : cf_reachable c -> cfstep c l c' -> cf_reachable c'.
End steps.
