(* ===== verification/ConfluentConsumerProofs.v ===== *)
(** * package kafka, what the librdkafka consumer guarantees

    While the consumer is not being closed nothing is read past a message that
    still has to be handled: every message read under an assignment this member
    has, and not settled, is in the present gather, with a worker, in the plan
    of an error, or behind a pending rewind. *)

From S2P Require Import Prelude.
From S2P Require Import GoStrings.
From S2P Require Import KafkaErrors.
From S2P Require Import KafkaWorker.
From S2P Require Import KafkaWorkerProofs.
From S2P Require Import ConfluentWorker.
From S2P Require Import ConfluentWorkerProofs.
From S2P Require Import ConfluentConsumer.

(** ** What was gathered, and its groups *)

Record items_ok (items : list item) : Prop := {
  ok_plain : Forall plain_item items;
  ok_topic x : x ∈ items -> is_Some (cm_Topic x.1);
  ok_snapshot x : x ∈ items -> known x.2 = false -> x.2 = no_snapshot;
  ok_sorted : StronglySorted (fun x y => same_group x y -> (cm_Offset x.1 < cm_Offset y.1)%Z) items
}.

Definition group_ok (g : confluentBatchGroup) : Prop :=
  well_grouped g /\ forall m, m ∈ g_messages g -> is_Some (cm_Topic m).

Lemma groups_of_items_built items : groups_of_items items = build_group <$> group_by item_key items.
Proof. unfold groups_of_items. by rewrite groups_built, present_items. Qed.

Lemma StronglySorted_filter {A} (R : A -> A -> Prop) (P : A -> Prop) `{forall x, Decision (P x)} l :
  StronglySorted R l -> StronglySorted R (filter P l).
Proof.
  induction 1 as [|x l Hs IH Hf]; [constructor|]. rewrite filter_cons. case_decide; [|done].
  constructor; [done|]. rewrite Forall_forall in Hf |- *. intros y [_ Hy]%list_elem_of_filter. by apply Hf.
Qed.

Lemma group_messages_in_order items x :
  items_ok items -> in_order ((filter (same_group x) items).*1).
Proof.
  intros [_ _ _ Hs]. split.
  - intros m n Hm Hn. apply list_elem_of_fmap in Hm as (y & -> & [[Ey _] _]%list_elem_of_filter).
    apply list_elem_of_fmap in Hn as (z & -> & [[Ez _] _]%list_elem_of_filter). congruence.
  - apply (StronglySorted_filter _ (same_group x)) in Hs.
    assert (Forall (same_group x) (filter (same_group x) items)) as Hf.
    { rewrite Forall_forall. by intros y [? _]%list_elem_of_filter. }
    revert Hs Hf. generalize (filter (same_group x) items) as l. intros l Hs.
    induction Hs as [|y l Hs IH Hl]; intros Hf; cbn; [constructor|]. apply Forall_cons in Hf as [Hy Hf].
    constructor; [by apply IH|]. apply Forall_forall.
    rewrite Forall_forall in Hl. rewrite Forall_forall in Hf.
    intros m (z & -> & Hz)%list_elem_of_fmap. apply Hl; [done|]. destruct Hy as [E1 E2], (Hf _ Hz) as [E3 E4].
    split; congruence.
Qed.

Lemma items_groups items g : items_ok items -> g ∈ groups_of_items items -> group_ok g.
Proof.
  intros Hok Hg. rewrite groups_of_items_built in Hg. apply list_elem_of_lookup in Hg as [i Hi].
  destruct (groups_of _ _ _ (ok_plain _ Hok) Hi) as [x [Hx Hm Hp Hl _ _]]. split; [split|].
  - rewrite Hm. by apply group_messages_in_order.
  - done.
  - done.
  - rewrite Hm. intros E. assert (x.1 ∈ (filter (same_group x) items).*1) as Hin.
    { apply list_elem_of_fmap_2. by apply list_elem_of_filter. }
    rewrite E in Hin. by apply elem_of_nil in Hin.
  - intros m Hin. rewrite Hm in Hin. apply list_elem_of_fmap in Hin as (y & -> & [_ Hy]%list_elem_of_filter).
    by apply (ok_topic _ Hok).
Qed.

Lemma items_covered items x :
  items_ok items -> x ∈ items -> exists g, g ∈ groups_of_items items /\ in_group g x.
Proof.
  intros Hok Hx. destruct (group_by_cover item_key _ _ Hx) as (i & l & Hi & Hl).
  assert ((build_group <$> group_by item_key items) !! i = Some (build_group l)) as Hg
    by by rewrite list_lookup_fmap, Hi.
  exists (build_group l). split; [rewrite groups_of_items_built; by eapply list_elem_of_lookup_2|].
  destruct l as [|y l]; [by apply elem_of_nil in Hl|].
  pose proof (build_group_fields y l) as (Em & _ & _ & Ek & Eg & _). unfold in_group. rewrite Em, Ek, Eg.
  apply group_by_lookup in Hi as [_ Hi].
  assert (like item_key x y) as E.
  { assert (y ∈ y :: l) as Hy by left. rewrite (Hi x Hl) in Hy. by apply list_elem_of_filter in Hy as [? _]. }
  assert (y ∈ items) as Hy by (specialize (Hi x Hl); assert (y ∈ y :: l) as H by left; rewrite Hi in H;
    by apply list_elem_of_filter in H as [_ ?]).
  pose proof (ok_plain _ Hok) as Hp. rewrite Forall_forall in Hp.
  apply item_key_inj in E as [_ E]; [|by apply Hp..]. unfold effective in E.
  split; [by apply list_elem_of_fmap_2|]. destruct (known x.2), (known y.2); by simplify_eq.
Qed.

(** ** The invariant *)

Definition group_ok_phase (p : cphase) : Prop :=
  match p with
  | Gathering items => items_ok items
  | Waving w _ => Forall group_ok (waiting w ++ launched w ++ leased w)
  | Salvaging groups pollErr _ => Forall group_ok groups /\ foreign pollErr = true
  | _ => True
  end.

Definition planned (errs : list gerr) (x : item) : Prop :=
  exists e, e ∈ errs /\ exists p, p ∈ plan e /\ covers_message p x.1.

(** What brings an open message to a handler. *)
Definition accounted (pending : list position) (r : option cphase) (x : item) : Prop :=
  match r with
  | Some (Applying positions) => sought_by pending x /\ sought_by positions x
  | Some (Seeking _ owned) => sought_by pending x /\ sought_by owned x
  | Some (Sought _) => False
  | Some (Gathering items) => x ∈ items
  | Some (Waving w _) => (exists g, g ∈ waiting w ++ launched w ++ leased w /\ in_group g x) \/ planned (errors w) x
  | Some (Salvaging groups _ failures) => (exists g, g ∈ groups /\ in_group g x) \/ planned failures x
  | Some (Owning positions) | Some (Reseeking positions) | Some (Retaining positions) => sought_by positions x
  | _ => sought_by pending x
  end.

Record Inv (consumer : option nat) (closed : bool) (run : option CRun) (closer : option CCloser)
    (a : Assignment) (rw : Rewinds) (open : list item) : Prop := {
  inv_phase r : run = Some r -> group_ok_phase (c_phase r);
  inv_open x : x ∈ open -> is_Some (cm_Topic x.1) /\ x.2 = assignmentSnapshot x.1 a /\ owned_message a x.1 = true;
  inv_revoked k : k ∈ revokedRewinds rw -> assigned a !! k = None;
  inv_known : assignment_known a = false -> revokedRewinds rw = ∅;
  inv_driver r : closed = false -> run = Some r -> consumer = Some (c_driver r);
  inv_cancel r : run = Some r -> c_cancelled r = true -> closed = true;
  inv_closer : is_Some closer -> closed = true;
  inv_accounted x : closed = false -> x ∈ open -> accounted (pendingRewinds rw) (c_phase <$> run) x
}.

Definition CInv (c : CState) : Prop :=
  Inv (c_consumer c) (c_closed c) (c_running c) (c_closer c) (c_assignment c) (c_rewinds c) (open c).

(** A step of the run itself. *)
Lemma inv_run consumer closed r closer a rw open rw' open' p :
  Inv consumer closed (Some r) closer a rw open ->
  group_ok_phase p -> open' ⊆ open -> revokedRewinds rw' = revokedRewinds rw ->
  (closed = false -> forall x, x ∈ open' -> accounted (pendingRewinds rw') (Some p) x) ->
  Inv consumer closed (Some (MkCRun (c_driver r) (c_started r) (c_cancelled r) p)) closer a rw' open'.
Proof.
  intros [Hp Ho Hr Hk Hd Hc Hcl Ha] Hp' Hs Hrw Hacc. split.
  - by intros r' [= <-].
  - intros x Hx. by apply Ho, Hs.
  - rewrite Hrw. exact Hr.
  - rewrite Hrw. exact Hk.
  - intros r' E [= <-]. cbn. by apply Hd.
  - intros r' [= <-]. cbn. by apply Hc.
  - exact Hcl.
  - intros x E Hx. by apply Hacc.
Qed.

(** An open message is of a partition that is assigned, under the generation it
    was read under. *)
Lemma open_assigned consumer closed run closer a rw open x :
  Inv consumer closed run closer a rw open -> x ∈ open ->
  tp_of_message x.1 ∉ revokedRewinds rw /\
  (assignment_known a = true -> known x.2 = true /\ assigned a !! tp_of_message x.1 = Some (generation x.2)).
Proof.
  intros [_ Ho Hr Hk _ _ _ _] Hx. destruct (Ho x Hx) as ([t Ht] & Es & Hown). unfold owned_message in Hown.
  destruct (assignment_known a) eqn:Ek; cbn in Hown.
  - apply bool_decide_eq_true in Hown as [g Hg]. split; [intros Hin%Hr; congruence|]. intros _.
    rewrite Es. unfold assignmentSnapshot. rewrite Ek, Ht. cbn. unfold tp_of_message in *. rewrite Ht in *. cbn in *.
    by rewrite Hg.
  - split; [|done]. rewrite Hk by done. set_solver.
Qed.

Lemma sought_by_elem positions x p : p ∈ positions -> covers_message p x.1 -> sought_by positions x.
Proof. intros Hp Hc. apply Exists_exists. by exists p. Qed.

Lemma sought_by_inv positions x : sought_by positions x -> exists p, p ∈ positions /\ covers_message p x.1.
Proof. intros (p & ? & ?)%Exists_exists. by exists p. Qed.

Lemma sought_by_filter (P : position -> Prop) `{forall p, Decision (P p)} positions x :
  (forall p, p ∈ positions -> covers_message p x.1 -> P p) -> sought_by positions x -> sought_by (filter P positions) x.
Proof.
  intros HP (p & Hp & Hc)%sought_by_inv. eapply sought_by_elem; [|exact Hc].
  apply list_elem_of_filter. auto.
Qed.

(** The plan of an error, as a retry takes it up. *)
Lemma retry_accounts pending e x :
  (exists p, p ∈ plan e /\ covers_message p x.1) -> accounted pending (Some (retry_phase e)) x.
Proof.
  intros (p & Hp & Et & Ho). unfold retry_phase.
  destruct (rewind_plan_earliest e) as (_ & _ & _ & Hcov). cbn zeta in Hcov.
  destruct (Hcov p Hp) as (q & Hq & Eq & Hle).
  assert ((consumerRewindPositions e).2 = true) as Hd by by eapply plan_decided.
  destruct (consumerRewindPositions e) as [[|p0 ps] d]; cbn in *; [by apply elem_of_nil in Hq|]. subst d.
  eapply sought_by_elem; [exact Hq|]. split; [congruence|lia].
Qed.

Lemma retry_phase_ok e : group_ok_phase (retry_phase e).
Proof. unfold retry_phase. by destruct (consumerRewindPositions e) as [[|] []]. Qed.

Lemma planned_join errs x e : join_errors errs = Some e -> planned errs x -> exists p, p ∈ plan e /\ covers_message p x.1.
Proof.
  intros He (e' & Hin & p & Hp & Hc). assert (e = EJoin errs) as -> by by destruct errs; simplify_eq/=.
  exists p. split; [|done]. cbn. apply list_elem_of_In, in_flat_map. exists e'. by rewrite <- !list_elem_of_In.
Qed.

Lemma planned_none errs x : join_errors errs = None -> ~ planned errs x.
Proof. destruct errs; [|done]. by intros _ (e & ?%elem_of_nil & _). Qed.

(** A retry keeps the positions of the open messages. *)
Lemma still_owned_keeps consumer closed run closer a rw open current x positions :
  Inv consumer closed run closer a rw open -> x ∈ open ->
  (match current with Some l => tp_of_message x.1 ∈ partition_key <$> l | None => True end) ->
  sought_by positions x -> sought_by (rewindPositionsStillOwned current positions rw) x.
Proof.
  intros Hi Hx Hc. destruct (open_assigned _ _ _ _ _ _ _ _ Hi Hx) as [Hr _].
  apply sought_by_filter. intros p _ [Et _]. unfold still_owned. rewrite Et. split; [done|].
  destruct current as [l|]; cbn; [|done]. by apply elem_of_list_to_set.
Qed.

(** ** Rebalances *)

Lemma mark_assigned_lookup g partitions m k :
  k ∉ partition_key <$> partitions -> foldl (mark_assigned g) m partitions !! k = m !! k.
Proof.
  revert m. induction partitions as [|[[t|] n] l IH]; intros m Hk; [done| |].
  - cbn in *. rewrite IH by set_solver. apply lookup_insert_ne. set_solver.
  - cbn in *. apply IH. set_solver.
Qed.

Lemma mark_revoked_lookup partitions m k :
  Forall (fun p : topic_partition => is_Some p.1) partitions ->
  foldl mark_revoked m partitions !! k = if bool_decide (k ∈ partition_key <$> partitions) then None else m !! k.
Proof.
  intros Ht. revert m. induction Ht as [|[[t|] n] l Hp _ IH]; intros m; [done| |by destruct Hp].
  cbn. rewrite IH. destruct (decide (k = (t, n))) as [->|Hne].
  - rewrite (bool_decide_true ((t, n) ∈ _ :: _)) by by left. case_bool_decide; [done|]. apply lookup_delete_eq.
  - rewrite lookup_delete_ne by done. case_bool_decide as E1; case_bool_decide as E2; try done; set_solver.
Qed.

(** What a rebalance leaves: its messages keep their generation, nothing else
    stays open. *)
Lemma rebalance_inv c a rw :
  CInv c -> assignment_known a = true ->
  (forall k, k ∈ revokedRewinds rw -> assigned a !! k = None) ->
  (forall x, x ∈ open c -> still_mine a x -> sought_by (pendingRewinds (c_rewinds c)) x -> sought_by (pendingRewinds rw) x) ->
  CInv (rebalanced a rw c).
Proof.
  intros [Hp Ho Hr Hk Hd Hc Hcl Ha] Ek Hrev Hpend. unfold rebalanced. split; cbn; try done.
  - intros x [[Hkn Hg] Hx]%list_elem_of_filter. destruct (Ho x Hx) as ([t Ht] & _ & _). split; [done|].
    unfold assignmentSnapshot, owned_message, tp_of_message in *. rewrite Ek, Ht in *. cbn in *. rewrite Hg. split.
    + destruct x as [m [kn gn]]. cbn in *. by rewrite Hkn.
    + by apply bool_decide_true.
  - by rewrite Ek.
  - intros x E [Hm Hx]%list_elem_of_filter. pose proof (Hpend x Hx Hm). specialize (Ha x E Hx).
    destruct (c_running c) as [r|]; cbn in *; [|auto].
    destruct (c_phase r); cbn in *; try done; try (by apply Hpend); destruct Ha; auto.
Qed.

Lemma assigned_inv c partitions cooperative :
  CInv c -> CInv (on_assigned partitions cooperative c).
Proof.
  intros Hi. apply rebalance_inv; [done..| |done]. intros k. cbn. intros [Hin Hn]%elem_of_difference.
  rewrite mark_assigned_lookup by (intros Hk; apply Hn; by apply elem_of_list_to_set).
  destruct cooperative; [|apply lookup_empty]. by apply (inv_revoked _ _ _ _ _ _ _ Hi).
Qed.

Lemma revoked_inv c partitions cooperative :
  CInv c -> Forall (fun p => is_Some p.1) partitions -> CInv (on_revoked partitions cooperative c).
Proof.
  intros Hi Ht. apply rebalance_inv; [done..| |].
  - intros k Hk. cbn. destruct cooperative; [|apply lookup_empty]. rewrite mark_revoked_lookup by done.
    case_bool_decide as E; [done|]. apply (inv_revoked _ _ _ _ _ _ _ Hi).
    destruct partitions as [|p l]; [done|]. cbn [clearPendingRewindsForPartitions revokedRewinds] in Hk.
    apply elem_of_union in Hk as [?|Hk%elem_of_list_to_set]; [done|contradiction].
  - intros x Hx [_ Hg] Hs. destruct partitions as [|p l]; [done|].
    cbn [clearPendingRewindsForPartitions pendingRewinds]. apply sought_by_filter; [|done].
    intros q _ [Et _]. rewrite Et, elem_of_list_to_set. intros Hin. cbn [markPartitionsRevoked assigned] in Hg.
    destruct cooperative; [|by rewrite lookup_empty in Hg].
    by rewrite mark_revoked_lookup, bool_decide_true in Hg.
Qed.

(** ** Reading *)

Lemma snapshot_ext (a b : confluentAssignmentSnapshot) : known a = known b -> generation a = generation b -> a = b.
Proof. destruct a, b. cbn. by intros -> ->. Qed.

Lemma read_inv c r items m :
  CInv c -> c_running c = Some r -> c_phase r = Gathering items -> readable m items (c_assignment c) ->
  CInv (at_phase (Gathering (items ++ [(read_message m c).1])) r (read_message m c).2).
Proof.
  intros [Hp Ho Hr Hk Hd Hc Hcl Ha] Er Eph (Ht & Hplain & Hord). set (x := (m, assignmentSnapshot m (c_assignment c))).
  assert (items_ok items) as [Hok1 Hok2 Hok3 Hok4] by (specialize (Hp r Er); by rewrite Eph in Hp).
  assert (known x.2 = false -> x.2 = no_snapshot) as Hsnap.
  { unfold x, assignmentSnapshot. cbn. by repeat case_match. }
  assert (group_ok_phase (Gathering (items ++ [x]))) as Hnew.
  { split.
    - apply Forall_app. split; [done|]. by repeat constructor.
    - intros y [Hy| ->%list_elem_of_singleton]%elem_of_app; [by apply Hok2|done].
    - intros y [Hy| ->%list_elem_of_singleton]%elem_of_app; [by apply Hok3|done].
    - apply StronglySorted_app. split_and!; [|done|by repeat constructor].
      intros y z Hy ->%list_elem_of_singleton [Et Ee]. apply Hord; [done|done|].
      unfold effective in Ee. destruct (known y.2) eqn:Ey, (known x.2) eqn:Ex; simplify_eq/=.
      + change (y.2 = x.2). by apply snapshot_ext; [rewrite Ey|].
      + change (y.2 = x.2). rewrite (Hok3 y Hy Ey). symmetry. by apply Hsnap. }
  unfold read_message. fold x. cbn [fst snd]. unfold CInv, at_phase, with_run. cbn.
  assert (forall l, (forall y, y ∈ l -> y = x \/ y ∈ open c) ->
    (x ∈ l -> owned_message (c_assignment c) m = true) ->
    Inv (c_consumer c) (c_closed c) (Some (MkCRun (c_driver r) (c_started r) (c_cancelled r) (Gathering (items ++ [x]))))
      (c_closer c) (c_assignment c) (c_rewinds c) l) as Hgoal.
  { intros l Hl Hx. split; try done.
    - by intros r' [= <-].
    - intros y Hy. destruct (Hl y Hy) as [->|Hy']; [|by apply Ho]. split_and!; [done|done|by apply Hx].
    - intros r' E [= <-]. cbn. by apply Hd.
    - intros r' [= <-]. cbn. by apply Hc.
    - intros y E Hy. cbn. apply elem_of_app. destruct (Hl y Hy) as [->|Hy']; [right; by left|left].
      specialize (Ha y E Hy'). by rewrite Er in Ha; cbn in Ha; rewrite Eph in Ha. }
  destruct (owned_message (c_assignment c) m) eqn:Eown; cbn.
  - apply Hgoal; [|done]. intros y [?| ->%list_elem_of_singleton]%elem_of_app; auto.
  - apply Hgoal; [auto|]. intros Hx. destruct (Ho x Hx) as (_ & _ & Hw). cbn in Hw. congruence.
Qed.

(** ** Steps of a run *)

Lemma inv_move c r p rw l :
  CInv c -> c_running c = Some r -> group_ok_phase p -> l ⊆ open c -> revokedRewinds rw = revokedRewinds (c_rewinds c) ->
  (c_closed c = false -> (forall x, x ∈ open c -> accounted (pendingRewinds (c_rewinds c)) (Some (c_phase r)) x) ->
   forall x, x ∈ l -> accounted (pendingRewinds rw) (Some p) x) ->
  Inv (c_consumer c) (c_closed c) (Some (MkCRun (c_driver r) (c_started r) (c_cancelled r) p)) (c_closer c)
    (c_assignment c) rw l.
Proof.
  unfold CInv. intros Hi Er Hp Hs Hrw Hacc. rewrite Er in Hi. eapply inv_run; [exact Hi|done..|].
  intros Ec. apply Hacc; [done|]. intros x Hx. by apply (inv_accounted _ _ _ _ _ _ _ Hi).
Qed.

(** The phase changes and nothing else. *)
Lemma inv_phase_only c r p :
  CInv c -> c_running c = Some r -> group_ok_phase p ->
  (c_closed c = false -> (forall x, x ∈ open c -> accounted (pendingRewinds (c_rewinds c)) (Some (c_phase r)) x) ->
   forall x, x ∈ open c -> accounted (pendingRewinds (c_rewinds c)) (Some p) x) ->
  CInv (at_phase p r c).
Proof. intros. by apply (inv_move c r p). Qed.

Lemma phase_ok_of c r : CInv c -> c_running c = Some r -> group_ok_phase (c_phase r).
Proof. intros Hi Er. by apply (inv_phase _ _ _ _ _ _ _ Hi). Qed.

Lemma disown_inv c r p current :
  CInv c -> c_running c = Some r -> group_ok_phase p ->
  (c_closed c = false -> (forall x, x ∈ open c -> accounted (pendingRewinds (c_rewinds c)) (Some (c_phase r)) x) ->
   forall x, x ∈ open c -> (match current with Some l => tp_of_message x.1 ∈ partition_key <$> l | None => True end) ->
   accounted (pendingRewinds (c_rewinds c)) (Some p) x) ->
  CInv (disown current (at_phase p r c)).
Proof.
  intros Hi Er Hp Hacc. destruct current as [l|]; cbn [disown].
  - apply (inv_move c r p); [done..| |done|].
    + by intros x [_ ?]%list_elem_of_filter.
    + intros Ec Hold x [Hin Hx]%list_elem_of_filter. by apply Hacc.
  - apply (inv_phase_only c r p); [done..|]. intros Ec Hold x Hx. by apply Hacc.
Qed.

Lemma seek_done_inv c r p positions :
  CInv c -> c_running c = Some r -> group_ok_phase p ->
  (forall x, accounted (pendingRewinds (c_rewinds c)) (Some (c_phase r)) x -> sought_by positions x) ->
  CInv (seek_done positions (at_phase p r c)).
Proof.
  intros Hi Er Hp Hs. apply (inv_move c r p); [done..| |done|].
  - by intros x [_ ?]%list_elem_of_filter.
  - intros Ec Hold x [Hn Hx]%list_elem_of_filter. destruct Hn. by apply Hs, Hold.
Qed.

(** The group of an open message may run. *)
Lemma open_dispatched c g x :
  CInv c -> group_ok g -> x ∈ open c -> in_group g x -> beginPartitionDispatch g (c_assignment c) = true.
Proof.
  intros Hi [Hw Ht] Hx (Hin & Hk & Hg). unfold beginPartitionDispatch.
  destruct (assignment_known (c_assignment c)) eqn:Ek; [|done].
  destruct (g_messages g) as [|m ms] eqn:Em; [done|].
  destruct (Ht m ltac:(by left)) as [t Et]. rewrite Et.
  destruct (open_assigned _ _ _ _ _ _ _ _ Hi Hx) as [_ Hown]. destruct (Hown Ek) as [Hkx Hax].
  assert (tp_of_message m = tp_of_message x.1) as E.
  { apply (io_partition _ (wg_order _ Hw)); rewrite Em; [by left|done]. }
  rewrite <- E in Hax. unfold tp_of_message in Hax. rewrite Et in Hax. cbn in Hax. rewrite Hax, Hk, Hkx, (Hg Hkx).
  by rewrite Z.eqb_refl.
Qed.

Lemma planned_app errs errs' x : planned errs x \/ planned errs' x -> planned (errs ++ errs') x.
Proof. unfold planned. intros [(e & ? & ?)|(e & ? & ?)]; exists e; set_solver. Qed.

Lemma salvage_planned c g e x :
  CInv c -> group_ok g -> foreign e = true -> x ∈ open c -> in_group g x ->
  planned (salvage_one g e (c_assignment c)) x.
Proof.
  intros Hi Hg He Hx Hin. unfold salvage_one. rewrite (open_dispatched c g x) by done.
  destruct (g_messages g) as [|m ms] eqn:Em; [by destruct (wg_some _ (proj1 Hg))|].
  destruct (attributed_plan e m He) as (e' & -> & Hpl). exists e'. split; [by left|].
  exists (confluentRecordPosition m). split; [rewrite Hpl; by left|].
  destruct Hin as [Hin _]. rewrite Em in Hin. eapply covers_first; [|done]. rewrite <- Em. apply Hg.
Qed.

Section preserved.
Context (configAutoCommit : bool) (possible : cworld -> Prop) (driver_error : gerr -> Prop).
Context (possible_foreign : forall w, possible w -> cforeign_world w)
        (driver_foreign : forall e, driver_error e -> foreign e = true).

Lemma run_process_answers o w g t x :
  possible w -> group_ok g -> run_process configAutoCommit o w g [] = (t, x) -> answered_for (g_messages g) t x.
Proof.
  intros Hw [Hg _] H. unfold run_process in H. destruct (c_batch o).
  - by eapply processBatchGroup_run; [apply possible_foreign| |].
  - unfold processMessageGroup in H. rewrite (wg_payloads _ Hg) in H.
    eapply process_messages_run; [by apply possible_foreign|apply Hg|done].
Qed.

(** A worker's group leaves each of its open messages in the errors. *)
Lemma worker_inv c r g waiting launched l1 l2 errs d w t x :
  CInv c -> c_running c = Some r -> c_phase r = Waving (MkGroupWave waiting launched (l1 ++ g :: l2) errs) d ->
  possible w -> run_process configAutoCommit (c_started r) w g [] = (t, x) ->
  (CfCancelled true ∈ t -> c_cancelled r = true) ->
  CInv (settle g t (set_wave (MkGroupWave waiting launched (l1 ++ l2) (errs ++ option_list (sent_error x))) d r c)).
Proof.
  intros Hi Er Eph Hw Hrun Hcan. pose proof (phase_ok_of _ _ Hi Er) as Hok. rewrite Eph in Hok. cbn in Hok.
  assert (group_ok g) as Hg by (rewrite Forall_forall in Hok; apply Hok; set_solver).
  eapply (inv_move c r); [done..| | |done|].
  - cbn. rewrite !Forall_app, Forall_cons in *. naive_solver.
  - by intros y [_ ?]%list_elem_of_filter.
  - intros Ec Hold y [Hn Hy]%list_elem_of_filter. specialize (Hold y Hy). rewrite Eph in Hold. cbn in Hold |- *.
    destruct Hold as [(g' & Hg' & Hin)|Hpl]; [|right; apply planned_app; by left].
    assert ((exists g', g' ∈ waiting ++ launched ++ l1 ++ l2 /\ in_group g' y) \/ g' = g) as [?| ->] by set_solver; [by left|].
    right. apply planned_app. right. destruct (run_process_answers _ _ _ _ _ Hw Hg Hrun) as [_ Hans].
    destruct (Hans y.1 (proj1 Hin)) as [Hs|Hx]; [by destruct Hn|].
    destruct x as [[e|]|pr|]; cbn [sent_error option_list]; [| | |done].
    + exists e. split; [by left|done].
    + pose proof (inv_cancel _ _ _ _ _ _ _ Hi r Er (Hcan Hx)). congruence.
    + destruct Hx as (p & Hp & Hc). eexists. split; [by left|]. exists p. cbn. rewrite Hp. split; [by left|done].
Qed.

Abbreviation step := (cfstep configAutoCommit possible driver_error).

(** Without a driver an open consumer has no run. *)
Lemma no_driver_no_run c : CInv c -> c_closed c = false -> c_consumer c = None -> c_running c = None.
Proof.
  intros Hi Ec En. destruct (c_running c) as [r|] eqn:Er; [|done].
  pose proof (inv_driver _ _ _ _ _ _ _ Hi r Ec Er). congruence.
Qed.

Lemma connect_inv c topics : CInv c -> c_closed c = false -> c_consumer c = None -> CInv (connect_driver topics c).
Proof.
  intros Hi Ec En. pose proof (no_driver_no_run c Hi Ec En) as Er. destruct Hi as [Hp Ho Hr Hk Hd Hc Hcl Ha].
  split; cbn; try done. intros r _ E. congruence.
Qed.

Lemma closed_inv c c' :
  CInv c -> c_closed c' = true -> c_running c' = c_running c -> c_assignment c' = c_assignment c ->
  c_rewinds c' = c_rewinds c -> open c' = open c -> CInv c'.
Proof.
  intros [Hp Ho Hr Hk _ _ _ _] Ec Er Ea Erw Eo. split; rewrite ?Er, ?Ea, ?Erw, ?Eo; try done; congruence.
Qed.

Lemma cancel_inv c k : CInv c -> c_closer c = Some k -> CInv (cancel_run k c).
Proof.
  intros Hi Ek. assert (c_closed c = true) as Ec by (apply (inv_closer _ _ _ _ _ _ _ Hi); by rewrite Ek).
  destruct Hi as [Hp Ho Hr Hk _ _ _ _]. unfold cancel_run. destruct (c_running c) as [r|] eqn:Er.
  - specialize (Hp r eq_refl). destruct (cc_run k); split; cbn; rewrite ?Ec; try done.
    + by intros r' [= <-].
    + rewrite Er. by intros r' [= <-].
  - split; cbn; rewrite ?Ec, ?Er; done.
Qed.

(** The retry of a failed wave or poll. *)
Lemma errors_inv c r errs p :
  CInv c -> c_running c = Some r -> group_ok_phase p ->
  (forall x, accounted (pendingRewinds (c_rewinds c)) (Some (c_phase r)) x -> planned errs x) ->
  (c_closed c = false -> forall e, join_errors errs = Some e -> p = retry_phase e) ->
  CInv (at_phase p r c).
Proof.
  intros Hi Er Hp Hpl He. apply (inv_phase_only c r p); [done..|]. intros Ec Hold x Hx.
  specialize (Hpl x (Hold x Hx)). destruct (join_errors errs) as [e|] eqn:Ej.
  - rewrite (He Ec e eq_refl). apply retry_accounts. by eapply planned_join.
  - by destruct (planned_none _ _ Ej Hpl).
Qed.

Lemma wave_done_inv c r errs d :
  CInv c -> c_running c = Some r -> c_phase r = Waving (MkGroupWave [] [] [] errs) d ->
  CInv (at_phase (after_groups (c_cancelled r) d errs) r c).
Proof.
  intros Hi Er Eph. apply (errors_inv c r errs); [done..| | |].
  - unfold after_groups. destruct (join_errors errs).
    + destruct (isConsumerRunCancellation _ _); [done|apply retry_phase_ok].
    + destruct d; [done|]. split; [done|..|constructor]; by intros x ?%elem_of_nil.
  - rewrite Eph. cbn. intros x [(g & ?%elem_of_nil & _)|?]; done.
  - intros Ec e Ej. unfold after_groups, isConsumerRunCancellation. rewrite Ej. destruct (c_cancelled r) eqn:Ecan; [|done].
    pose proof (inv_cancel _ _ _ _ _ _ _ Hi r Er Ecan). congruence.
Qed.

(** Groups that only move within a wave. *)
Lemma wave_inv c r w w' d :
  CInv c -> c_running c = Some r -> c_phase r = Waving w d ->
  (forall g, g ∈ waiting w' ++ launched w' ++ leased w' -> g ∈ waiting w ++ launched w ++ leased w) ->
  errors w' = errors w ->
  (c_closed c = false -> forall g, g ∈ waiting w ++ launched w ++ leased w ->
     g ∈ waiting w' ++ launched w' ++ leased w' \/ beginPartitionDispatch g (c_assignment c) = false) ->
  CInv (set_wave w' d r c).
Proof.
  intros Hi Er Eph Hsub He Hall. pose proof (phase_ok_of _ _ Hi Er) as Hok. rewrite Eph in Hok. cbn in Hok.
  rewrite Forall_forall in Hok. apply (inv_phase_only c r); [done..| |].
  - cbn. apply Forall_forall. auto.
  - rewrite Eph. cbn. intros Ec Hold x Hx. rewrite He. destruct (Hold x Hx) as [(g & Hg & Hin)|?]; [left|by right].
    destruct (Hall Ec g Hg) as [?|Hd]; [eauto|].
    by rewrite (open_dispatched c g x Hi (Hok g Hg) Hx Hin) in Hd.
Qed.

Lemma gathered_inv c r items p :
  CInv c -> c_running c = Some r -> c_phase r = Gathering items -> group_ok_phase p ->
  (forall x, (exists g, g ∈ groups_of_items items /\ in_group g x) -> accounted (pendingRewinds (c_rewinds c)) (Some p) x) ->
  CInv (at_phase p r c).
Proof.
  intros Hi Er Eph Hp Hx. pose proof (phase_ok_of _ _ Hi Er) as Hok. rewrite Eph in Hok.
  apply (inv_phase_only c r p); [done..|]. intros Ec Hold x Ho. apply Hx. apply items_covered; [done|].
  specialize (Hold x Ho). by rewrite Eph in Hold.
Qed.

Lemma gathered_groups c r items :
  CInv c -> c_running c = Some r -> c_phase r = Gathering items -> Forall group_ok (groups_of_items items).
Proof.
  intros Hi Er Eph. pose proof (phase_ok_of _ _ Hi Er) as Hok. rewrite Eph in Hok.
  apply Forall_forall. intros g. by apply items_groups.
Qed.

Lemma nothing_open c : CInv c -> c_closed c = false ->
  (forall x, ~ accounted (pendingRewinds (c_rewinds c)) (c_phase <$> c_running c) x) -> open c = [].
Proof.
  intros Hi Ec Hn. destruct (open c) as [|x l] eqn:E; [done|]. destruct (Hn x).
  apply (inv_accounted _ _ _ _ _ _ _ Hi); [done|]. rewrite E. by left.
Qed.

Lemma cfstep_inv c l c' : CInv c -> step c l c' -> CInv c'.
Proof.
  intros Hi Hs.
  assert (forall k, c_closer c = Some k -> c_closed c = true) as Hclosed.
  { intros k Ek. apply (inv_closer _ _ _ _ _ _ _ Hi). by rewrite Ek. }
  destruct Hs as
    [c topics Ec En|c Ec En|c Ec En Et|c n o Ho Ec En Er|c r Er Eph Hor|c r Er Eph Ec En Hp|c r ps cur Er Eph
    |c r ps owned ans Er Eph Ev|c r ps owned ans e Er Eph Ev|c r ps Er Eph|c r items m Er Eph Hsz Hrd
    |c r items Er Eph Hcan|c r Er Eph|c r items e Er Eph Hne Hb He|c r g groups pe fs Er Eph|c r pe fs Er Eph
    |c r items d Er Eph Hne Hcan Hd|c r g wa la le errs d Er Eph Hlt|c r wa la le errs d Er Eph Hcan
    |c r g wa l1 l2 le errs d Er Eph Hdis|c r g wa l1 l2 le errs d Er Eph Hdis
    |c r g wa la l1 l2 errs d w t x Er Eph Hw Hrun Hx Hcan|c r errs d Er Eph
    |c r ps cur Er Eph|c r ps ans Er Eph Ev|c r ps ans e Er Eph Ev|c r ps Er Eph|c r Er Eph
    |c ps co Hl Ht|c ps co Hl Ht|c Ec|c k Ek Eat|c k Ek Eat Er|c k n Ek Eat En|c k Ek Eat En|c k Ek Eat].
  - by apply connect_inv.
  - exact Hi.
  - by apply connect_inv.
  - unfold CInv in *. rewrite Er in Hi. destruct Hi as [Hp2 Ho2 Hr Hk Hd Hc Hcl Ha]. split; cbn; try done.
    + by intros r [= <-].
    + by intros r _ [= <-].
    + by intros r [= <-].
  - (* cf_nothing_pending *)
    apply (inv_phase_only c r); [done..| |].
    + split; [done|..|constructor]; by intros x ?%elem_of_nil.
    + rewrite Eph. cbn. intros Ec Hold x Hx. specialize (Hold x Hx). destruct Hor as [?|[Hn|Hn]]; [congruence| |].
      * destruct Hn. by apply (inv_driver _ _ _ _ _ _ _ Hi).
      * rewrite Hn in Hold. by apply Exists_nil in Hold.
  - apply (inv_phase_only c r); [done..|]. rewrite Eph. cbn. auto.
  - apply disown_inv; [done..|]. rewrite Eph. cbn. intros Ec Hold x Hx Hc. destruct (Hold x Hx).
    split; [done|]. by eapply still_owned_keeps.
  - apply seek_done_inv; [done..|]. rewrite Eph. cbn. by intros x [_ ?].
  - apply (inv_phase_only c r); [done..|]. rewrite Eph. cbn. intros Ec Hold x Hx. by destruct (Hold x Hx).
  - (* cf_apply_done *)
    assert (forall rw, revokedRewinds rw = revokedRewinds (c_rewinds c) ->
      Inv (c_consumer c) (c_closed c) (Some (MkCRun (c_driver r) (c_started r) (c_cancelled r) (Gathering [])))
        (c_closer c) (c_assignment c) rw (open c)) as Hgo.
    { intros rw Hrw. apply (inv_move c r); [done..| |done|done|].
      - split; [done|..|constructor]; by intros x ?%elem_of_nil.
      - rewrite Eph. cbn. intros Ec Hold x Hx. by destruct (Hold x Hx). }
    case_bool_decide; by apply Hgo.
  - by apply read_inv.
  - apply (inv_phase_only c r); [done..|]. intros Ec. pose proof (inv_cancel _ _ _ _ _ _ _ Hi r Er Hcan). congruence.
  - apply (inv_phase_only c r); [done..|]. rewrite Eph. cbn. intros Ec Hold x Hx. by apply Hold, elem_of_nil in Hx.
  - (* cf_batch_read_failed *)
    apply (gathered_inv c r items); [done..| |].
    + split; [by eapply gathered_groups|]. cbn. by apply driver_foreign.
    + intros x ?. by left.
  - (* cf_salvage *)
    pose proof (phase_ok_of _ _ Hi Er) as Hok. rewrite Eph in Hok. destruct Hok as [[Hg Hgs]%Forall_cons Hpe].
    apply (inv_phase_only c r); [done..|]. rewrite Eph. cbn. intros Ec Hold x Hx.
    destruct (Hold x Hx) as [(g' & [->|Hg']%elem_of_cons & Hin)|?]; [right|left; eauto|right].
    + apply planned_app. right. by eapply salvage_planned.
    + apply planned_app. by left.
  - (* cf_salvaged *)
    apply (errors_inv c r fs); [done..| | |].
    + unfold after_salvage. destruct (join_errors fs); [apply retry_phase_ok|done].
    + rewrite Eph. cbn. intros x [(g & ?%elem_of_nil & _)|?]; done.
    + intros Ec e Ej. unfold after_salvage. by rewrite Ej.
  - (* cf_wave *)
    apply (gathered_inv c r items); [done..| |].
    + cbn. rewrite !app_nil_r. by eapply gathered_groups.
    + intros x ?. left. cbn. by rewrite !app_nil_r.
  - apply (wave_inv c r (MkGroupWave (g :: wa) la le errs)); [done..| |done|]; cbn; intros *; [|left]; set_solver.
  - apply (wave_inv c r (MkGroupWave wa la le errs)); [done..| |done|]; cbn; [set_solver|].
    intros Ec. pose proof (inv_cancel _ _ _ _ _ _ _ Hi r Er Hcan). congruence.
  - apply (wave_inv c r (MkGroupWave wa (l1 ++ g :: l2) le errs)); [done..| |done|]; cbn; intros *; [|left]; set_solver.
  - apply (wave_inv c r (MkGroupWave wa (l1 ++ g :: l2) le errs)); [done..| |done|]; cbn; [set_solver|].
    intros Ec g' Hg'. assert (g' = g \/ g' ∈ wa ++ (l1 ++ l2) ++ le) as [->|?] by set_solver; [by right|by left].
  - by eapply worker_inv.
  - by apply wave_done_inv.
  - apply disown_inv; [done..|]. rewrite Eph. cbn. intros Ec Hold x Hx Hc. eapply still_owned_keeps; [done..|]. by apply Hold.
  - apply seek_done_inv; [done..|]. by rewrite Eph.
  - apply (inv_phase_only c r); [done..|]. by rewrite Eph.
  - (* cf_retain *)
    destruct (negb (c_closed c) && bool_decide (c_consumer c = Some (c_driver r))) eqn:Ecc.
    + apply (inv_move c r); [done..|]. rewrite Eph. cbn. intros Ec Hold x Hx.
      destruct (sought_by_inv _ _ (Hold x Hx)) as (p & Hp & Et & Hle).
      destruct (open_assigned _ _ _ _ _ _ _ _ Hi Hx) as [Hr _].
      destruct (merge_covers (pendingRewinds (c_rewinds c)) (filter (fun p => tp_of p ∉ revokedRewinds (c_rewinds c)) ps) p)
        as (q & Hq & Eq & Hqle); [right; apply list_elem_of_filter; by rewrite Et|].
      eapply sought_by_elem; [exact Hq|]. split; [congruence|lia].
    + apply (inv_phase_only c r); [done..|]. intros Ec _ x Hx.
      rewrite Ec, bool_decide_true in Ecc; [done|]. by apply (inv_driver _ _ _ _ _ _ _ Hi).
  - (* cf_leave *)
    unfold CInv in *. rewrite Er in Hi. destruct Hi as [Hp Ho Hr Hk Hd Hc Hcl Ha]. split; cbn; try done.
    intros x Ec Hx. specialize (Ha x Ec Hx). cbn in Ha. by rewrite Eph in Ha.
  - by apply assigned_inv.
  - by apply revoked_inv.
  - by apply (closed_inv c).
  - by apply cancel_inv.
  - apply (closed_inv c); [done| |done..]. by eapply Hclosed.
  - apply (closed_inv c); [done|unfold close_driver; rewrite En; by eapply Hclosed|..]; unfold close_driver; by rewrite En.
  - apply (closed_inv c); [done|unfold close_driver; rewrite En; by eapply Hclosed|..]; unfold close_driver; by rewrite En.
  - apply (closed_inv c); [done| |done..]. by eapply Hclosed.
Qed.

Lemma cf_reachable_inv c : cf_reachable configAutoCommit possible driver_error c -> CInv c.
Proof.
  induction 1 as [|c l c' _ IH Hs]; [|by eapply cfstep_inv].
  split; cbn; try done; [by intros x ?%elem_of_nil|by intros x _ ?%elem_of_nil].
Qed.
End preserved.

(** ** Nothing is read past a message that still has to be handled *)

(** C6: When the consumer reads a message and is not being closed, every
    message it read before under an assignment it still has, and has not
    settled since, is in the same gather; one of the same partition has a lower
    offset.  So a failed handler, a failed commit, an exit, a failed poll or a
    failed seek never lets a record of its partition be overtaken: the run
    first returns, and the next one first seeks back. *)
Theorem no_record_overtaken configAutoCommit possible driver_error c m c' :
  (forall w, possible w -> cforeign_world w) -> (forall e, driver_error e -> foreign e = true) ->
  cf_reachable configAutoCommit possible driver_error c -> c_closed c = false ->
  cfstep configAutoCommit possible driver_error c (LRead m) c' ->
  exists r items, c_running c = Some r /\ c_phase r = Gathering items /\
  forall x, x ∈ open c -> x ∈ items /\ (tp_of_message x.1 = tp_of_message m -> (cm_Offset x.1 < cm_Offset m)%Z).
Proof.
  intros Hw He Hr Ec Hs. apply cf_reachable_inv in Hr as Hi; [|done..]. inversion Hs; subst.
  rename select (c_running c = Some r) into Er. rename select (c_phase r = Gathering items) into Eph.
  rename select (readable m items (c_assignment c)) into Hrd.
  exists r, items. split_and!; [done..|]. intros x Hx.
  pose proof (inv_accounted _ _ _ _ _ _ _ Hi x Ec Hx) as Ha. rewrite Er in Ha. cbn in Ha. rewrite Eph in Ha.
  split; [done|]. intros Et. destruct Hrd as (Htm & _ & Hord). apply Hord; [done..|].
  destruct (inv_open _ _ _ _ _ _ _ Hi x Hx) as ([t Ht] & -> & _). unfold assignmentSnapshot, tp_of_message in *.
  destruct Htm as [t' Ht']. rewrite Ht, Ht' in *. cbn in Et. by injection Et as -> ->.
Qed.
