(* ===== verification/ConfluentCloseProofs.v ===== *)
(** * package kafka, leases, rewinds and the end of the librdkafka consumer

    Workers run under the assignment their messages were read under; pending
    rewinds are of partitions this member may still have; a seek is taken as
    done when the driver says so of every partition; Close ends the run before
    it closes the driver, once. *)

From S2P Require Import Prelude.
From S2P Require Import GoStrings.
From S2P Require Import KafkaErrors.
From S2P Require Import KafkaWorker.
From S2P Require Import ConfluentWorker.
From S2P Require Import ConfluentConsumer.

(** ** Leases *)

(** What holds of the groups of a wave: those that run were let through under
    the present assignment, and they and the goroutines before them fit in the
    slots. *)
Definition wave_leased (configAutoCommit : bool) (a : Assignment) (r : CRun) : Prop :=
  match c_phase r with
  | Waving w _ => Forall (fun g => beginPartitionDispatch g a = true) (leased w) /\
      (Z.of_nat (length (launched w) + length (leased w)) <= slots configAutoCommit (c_started r))%Z
  | _ => True
  end.

Definition LInv (configAutoCommit : bool) (c : CState) : Prop :=
  forall r, c_running c = Some r -> wave_leased configAutoCommit (c_assignment c) r.

Lemma slots_positive configAutoCommit o : (1 <= slots configAutoCommit o)%Z.
Proof. unfold slots. destruct (Z.ltb_spec (run_concurrency configAutoCommit o) 1); lia. Qed.

(** Steps outside a wave, and those that leave it. *)
Definition no_wave (p : cphase) : bool := match p with Waving _ _ => false | _ => true end.

Lemma no_wave_leased configAutoCommit a r : no_wave (c_phase r) = true -> wave_leased configAutoCommit a r.
Proof. unfold wave_leased. by destruct (c_phase r). Qed.

Lemma after_groups_no_wave cancelled d errs : no_wave (after_groups cancelled d errs) = true.
Proof.
  unfold after_groups, retry_phase. destruct (join_errors errs) as [e|]; [|by destruct d].
  destruct (isConsumerRunCancellation cancelled e); [done|]. by destruct (consumerRewindPositions e) as [[|] []].
Qed.

Lemma after_salvage_no_wave errs : no_wave (after_salvage errs) = true.
Proof.
  unfold after_salvage, retry_phase. destruct (join_errors errs) as [e|]; [|done].
  by destruct (consumerRewindPositions e) as [[|] []].
Qed.

(** A rebalance waits until there is no lease, so it spoils none. *)
Lemma rebalanced_leased configAutoCommit a rw c : leases c = [] -> LInv configAutoCommit c -> LInv configAutoCommit (rebalanced a rw c).
Proof.
  intros Hl Hi r Er. cbn in Er. specialize (Hi r Er). unfold wave_leased, leases in *. rewrite Er in Hl.
  destruct r as [? ? ? p]. cbn in *. destruct p; try done. destruct Hi as [_ Hn]. rewrite Hl in *. by split.
Qed.

Lemma leased_no_wave configAutoCommit c r :
  c_running c = Some r -> no_wave (c_phase r) = true -> LInv configAutoCommit c.
Proof. intros Er Hp r' Er'. rewrite Er in Er'. injection Er' as <-. by apply no_wave_leased. Qed.

Lemma leased_running configAutoCommit c c' :
  c_assignment c' = c_assignment c -> c_running c' = c_running c -> LInv configAutoCommit c -> LInv configAutoCommit c'.
Proof. intros Ea Er Hi r Hr. rewrite Ea. apply Hi. congruence. Qed.

(** A wave whose running groups were let through, and that has not more
    goroutines. *)
Lemma set_wave_leased configAutoCommit c c' r w w' d :
  LInv configAutoCommit c -> c_running c = Some r -> c_phase r = Waving w d -> c_assignment c' = c_assignment c ->
  c_running c' = c_running (set_wave w' d r c) ->
  (forall g, g ∈ leased w' -> g ∈ leased w \/ beginPartitionDispatch g (c_assignment c) = true) ->
  length (launched w') + length (leased w') <= length (launched w) + length (leased w) \/
    (Z.of_nat (length (launched w') + length (leased w')) <= slots configAutoCommit (c_started r))%Z ->
  LInv configAutoCommit c'.
Proof.
  intros Hi Er Eph Ea Er' Hg Hn r' Hr'. rewrite Er' in Hr'. cbn in Hr'. injection Hr' as <-. rewrite Ea.
  specialize (Hi r Er). unfold wave_leased in *. rewrite Eph in Hi. cbn. destruct Hi as [Hv Hs].
  rewrite Forall_forall in Hv. split; [|lia]. apply Forall_forall. intros g Hin. destruct (Hg g Hin); auto.
Qed.

Lemma cfstep_leased configAutoCommit possible driver_error c l c' :
  LInv configAutoCommit c -> cfstep configAutoCommit possible driver_error c l c' -> LInv configAutoCommit c'.
Proof.
  intros Hi Hs. destruct Hs; try exact Hi;
    try (by eapply leased_no_wave); try (by apply rebalanced_leased);
    try (by (eapply set_wave_leased; [exact Hi|done..| |]; cbn; [set_solver|left; rewrite ?length_app; cbn; lia])).
  - destruct current; by eapply leased_no_wave.
  - eapply leased_no_wave; [done|]. apply after_salvage_no_wave.
  - intros r' [= <-]. unfold wave_leased. cbn. split; [done|]. pose proof (slots_positive configAutoCommit (c_started r)). lia.
  - eapply set_wave_leased; [exact Hi|done..| |]; cbn; [auto|right]. rewrite length_app. cbn. lia.
  - eapply leased_no_wave; [done|]. apply after_groups_no_wave.
  - destruct current; by eapply leased_no_wave.
  - by intros r' [=].
  - unfold cancel_run. intros r'. destruct (c_running c) as [r|] eqn:Er; cbn; [|congruence].
    specialize (Hi r Er). destruct (cc_run k); cbn; [intros [= <-]; exact Hi|rewrite Er; intros [= <-]; exact Hi].
  - unfold close_driver. destruct (cc_consumer k); by eapply leased_running.
  - unfold close_driver. destruct (cc_consumer k); by eapply leased_running.
Qed.

Lemma cf_reachable_leased configAutoCommit possible driver_error c :
  cf_reachable configAutoCommit possible driver_error c -> LInv configAutoCommit c.
Proof. induction 1 as [|c l c' _ IH Hs]; [by intros r|by eapply cfstep_leased]. Qed.

(** C34: While a group's callback runs, its partition is assigned to this member
    under the generation its messages were read under, so no message is with
    the application after a rebalance has taken its partition away; and there
    are never more callbacks than PartitionsConsumedConcurrently allows. *)
Theorem groups_run_under_their_assignment configAutoCommit possible driver_error c r w d :
  cf_reachable configAutoCommit possible driver_error c ->
  c_running c = Some r -> c_phase r = Waving w d ->
  (Z.of_nat (length (leased w)) <= slots configAutoCommit (c_started r))%Z /\
  forall g m rest, g ∈ leased w -> g_messages g = m :: rest -> assignment_known (c_assignment c) = true ->
  exists topic n, cm_Topic m = Some topic /\ assigned (c_assignment c) !! (topic, cm_Partition m) = Some n /\
    (assignmentKnown g = true -> assignmentGeneration g = n).
Proof.
  intros Hr Er Eph. apply cf_reachable_leased in Hr. specialize (Hr r Er). unfold wave_leased in Hr. rewrite Eph in Hr.
  destruct Hr as [Hv Hn]. split; [lia|]. intros g m rest Hg Em Ek. rewrite Forall_forall in Hv.
  specialize (Hv g Hg). unfold beginPartitionDispatch in Hv. rewrite Ek, Em in Hv.
  destruct (cm_Topic m) as [topic|]; [|done]. destruct (assigned (c_assignment c) !! (topic, cm_Partition m)) as [n|] eqn:Ea; [|done].
  exists topic, n. split_and!; [done|exact Ea|]. intros Eg. rewrite Eg in Hv. cbn in Hv. bool_hyps. by apply Z.eqb_eq.
Qed.

(** ** Pending rewinds *)

Lemma NoDup_filter_fmap (P : position -> Prop) `{forall p, Decision (P p)} l :
  NoDup (tp_of <$> l) -> NoDup (tp_of <$> filter P l).
Proof.
  induction l as [|p l IH]; [done|]. rewrite fmap_cons, NoDup_cons. intros [Hn Hd]. rewrite filter_cons.
  case_decide; [|by apply IH]. rewrite fmap_cons, NoDup_cons. split; [|by apply IH].
  intros (q & E & [_ Hq]%list_elem_of_filter)%list_elem_of_fmap. apply Hn. rewrite E. by apply list_elem_of_fmap_2.
Qed.

(** One pending rewind per partition, and none of a partition marked as
    revoked. *)
Definition rewinds_ok (r : Rewinds) : Prop :=
  NoDup (tp_of <$> pendingRewinds r) /\ forall p, p ∈ pendingRewinds r -> tp_of p ∉ revokedRewinds r.

Lemma filter_rewinds_ok (P : position -> Prop) `{forall p, Decision (P p)} (r : Rewinds) (revoked : gset tp) :
  rewinds_ok r -> (forall p, p ∈ pendingRewinds r -> P p -> tp_of p ∉ revokedRewinds r -> tp_of p ∉ revoked) ->
  rewinds_ok (MkRewinds (filter P (pendingRewinds r)) revoked).
Proof.
  intros [Hn Hr] Hp. split; cbn; [by apply NoDup_filter_fmap|].
  intros p [HP Hin]%list_elem_of_filter. by apply Hp; [..|apply Hr].
Qed.

(** Whatever happens, there is at most one pending rewind per partition,
    and none of a partition that was revoked and not assigned again: a seek
    retained for a partition the group has moved elsewhere cannot pin the
    consumer. *)
Theorem pending_rewinds_owned configAutoCommit possible driver_error c :
  cf_reachable configAutoCommit possible driver_error c -> rewinds_ok (c_rewinds c).
Proof.
  induction 1 as [|c l c' _ IH Hs]; [split; [constructor|by intros p ?%elem_of_nil]|].
  destruct Hs; try exact IH; try (by destruct current); try (unfold close_driver; by destruct (cc_consumer k)).
  - case_bool_decide; [|done]. by apply filter_rewinds_ok.
  - unfold read_message. by destruct (owned_message _ _).
  - destruct (negb (c_closed c) && _); [|done]. destruct IH as [Hn Hr]. split; cbn; [by apply merge_nodup|].
    intros p [?|[? _]%list_elem_of_filter]%merge_in; [by apply Hr|done].
  - destruct IH as [Hn Hr]. split; [done|]. cbn. intros p Hp. specialize (Hr p Hp). set_solver.
  - destruct partitions as [|q l]; [done|]. apply filter_rewinds_ok; [done|]. intros p _ Hp Hr. cbn. set_solver.
  - unfold cancel_run. by destruct (c_running c) as [r|]; [destruct (cc_run k)|].
Qed.

(** ** The verdict on a seek *)

Lemma seek_verdict_none expected results :
  seek_verdict expected results = None <->
  Forall (fun x => x.2 = None) results /\ NoDup (partition_key <$> results.*1) /\
  expected = list_to_set (partition_key <$> results.*1).
Proof.
  revert expected. induction results as [|[p [e|]] rest IH]; intros expected; cbn.
  - case_bool_decide as E; split; try done; [intros _; split_and!; [done|constructor|done]|naive_solver].
  - split; [done|]. intros [H _]. by inversion H.
  - rewrite Forall_cons, NoDup_cons. case_bool_decide as E.
    + rewrite IH. split.
      * intros (Hf & Hn & Ee). assert (partition_key p ∉ partition_key <$> rest.*1) as Hp.
        { rewrite <- (elem_of_list_to_set (C:=gset tp)), <- Ee. set_solver. }
        split_and!; [done..|]. rewrite <- Ee. by rewrite <- union_difference_singleton_L.
      * intros ([_ Hf] & [Hp Hn] & ->). split_and!; [done..|].
        rewrite <- (elem_of_list_to_set (C:=gset tp)) in Hp. clear IH Hf Hn E.
        apply set_eq. intros k. rewrite elem_of_difference, elem_of_union, elem_of_singleton.
        destruct (decide (k = partition_key p)) as [->|]; naive_solver.
    + split; [done|]. intros (_ & _ & ->). destruct E. set_solver.
Qed.

(** A seek for distinct partitions is taken as done exactly when the driver
    answers without an error, with a result for each partition asked for and
    no other, and none of the results has an error. *)
Theorem seek_verdict_exact positions answer :
  positions <> [] -> NoDup (tp_of <$> positions) ->
  seekConfluentPositions positions answer = None <->
  exists results, answer = Ok results /\ Forall (fun x => x.2 = None) results /\
    partition_key <$> results.*1 ≡ₚ tp_of <$> positions.
Proof.
  intros Hne Hn. unfold seekConfluentPositions. destruct positions as [|p l]; [done|]. clear Hne.
  destruct answer as [results|e]; [|split; [done|naive_solver]].
  destruct (Nat.eqb_spec (length results) (length (p :: l))) as [El|El].
  - rewrite seek_verdict_none. split.
    + intros (Hf & Hr & Hs). exists results. split_and!; [done..|]. apply NoDup_Permutation; [done..|].
      intros k. rewrite <- (elem_of_list_to_set (C:=gset tp)), <- Hs. by rewrite elem_of_list_to_set.
    + intros (? & [= <-] & Hf & Hp). split_and!; [done|by rewrite Hp|]. by rewrite Hp.
  - split; [done|]. intros (? & [= <-] & _ & Hp). destruct El.
    apply Permutation_length in Hp. by rewrite !length_fmap in Hp.
Qed.

(** ** Closing *)

#[export] Instance cclose_eq_dec : EqDecision cclose.
Proof. solve_decision. Defined.

Record KInv (c : CState) : Prop := {
  k_all n : n < c_made c -> n ∈ c_shut c \/ c_consumer c = Some n;
  k_shut n : n ∈ c_shut c -> n < c_made c;
  k_consumer n : c_consumer c = Some n -> n < c_made c;
  k_nodup : NoDup (c_shut c);
  k_open n : c_closer c = None -> c_closed c = false /\ (c_consumer c = Some n -> n ∉ c_shut c);
  k_closed k : c_closer c = Some k -> c_closed c = true;
  k_captured k : c_closer c = Some k -> cc_at k <> CDone -> c_consumer c = cc_consumer k;
  k_done k : c_closer c = Some k -> cc_at k = CDone -> c_consumer c = None;
  k_shutting k n : c_closer c = Some k -> cc_consumer k = Some n ->
    if bool_decide (cc_at k = CClosed \/ cc_at k = CDone) then n ∈ c_shut c else n ∉ c_shut c;
  k_idle k : c_closer c = Some k -> (cc_run k = false \/ cc_at k <> CSignalling /\ cc_at k <> CAwaiting) -> c_running c = None;
  k_bound k n : c_closer c = Some k -> cc_consumer k = Some n -> n < c_made c;
  k_run r : c_running c = Some r -> c_consumer c = Some (c_driver r)
}.

(** What Close looks at. *)
Definition closing_view (c : CState) : option nat * nat * bool * option CCloser * list nat :=
  (c_consumer c, c_made c, c_closed c, c_closer c, c_shut c).

Lemma kinv_view c c' :
  KInv c -> closing_view c' = closing_view c -> c_running c' = None \/ c_driver <$> c_running c' = c_driver <$> c_running c ->
  KInv c'.
Proof.
  intros [H1 H2 H3 H4 H5 H6 H7 H8 H9 H10 H11 H12] E Hrun. unfold closing_view in E. injection E as E1 E2 E3 E4 E5.
  split; rewrite ?E1, ?E2, ?E3, ?E4, ?E5; try done; [|].
  - intros k Hk Hi. specialize (H10 k Hk Hi). destruct Hrun as [?|Hrun]; [done|]. rewrite H10 in Hrun.
    by destruct (c_running c').
  - intros r Er. rewrite Er in Hrun. destruct Hrun as [?|Hrun]; [done|].
    destruct (c_running c) as [r0|]; [|done]. injection Hrun as ->. by apply H12.
Qed.

Lemma kinv_connect c topics :
  KInv c -> c_closed c = false -> c_consumer c = None -> KInv (connect_driver topics c).
Proof.
  intros [H1 H2 H3 H4 H5 H6 H7 H8 H9 H10 H11 H12] Ec En.
  assert (c_closer c = None) as Ek by (destruct (c_closer c) eqn:Ek; [specialize (H6 _ eq_refl); congruence|done]).
  split; cbn; rewrite ?Ek; try done.
  - intros n Hn. destruct (decide (n = c_made c)) as [->|]; [by right|left]. destruct (H1 n) as [?|?]; [lia|done|congruence].
  - intros n Hn. apply H2 in Hn. lia.
  - intros n [= <-]. lia.
  - intros n _. split; [done|]. intros [= <-] Hin. apply H2 in Hin. lia.
  - intros r Er. specialize (H12 r Er). congruence.
Qed.

Lemma kinv_connect_failed c :
  KInv c -> c_closed c = false -> c_consumer c = None -> KInv (connect_failed c).
Proof.
  intros [H1 H2 H3 H4 H5 H6 H7 H8 H9 H10 H11 H12] Ec En.
  assert (c_closer c = None) as Ek by (destruct (c_closer c) eqn:Ek; [specialize (H6 _ eq_refl); congruence|done]).
  split; cbn; rewrite ?Ek, ?En; try done.
  - intros n Hn. left. destruct (decide (n = c_made c)) as [->|]; [set_solver|].
    destruct (H1 n) as [?|?]; [lia|set_solver|congruence].
  - intros n [Hn%H2| ->%list_elem_of_singleton]%elem_of_app; lia.
  - apply NoDup_app. split_and!; [done| |apply NoDup_singleton]. intros n Hn%H2 ->%list_elem_of_singleton. lia.
  - intros r Er. specialize (H12 r Er). congruence.
Qed.

Lemma kinv_close c : KInv c -> c_closed c = false -> KInv (request_cclose c).
Proof.
  intros [H1 H2 H3 H4 H5 H6 H7 H8 H9 H10 H11 H12] Ec.
  assert (c_closer c = None) as Ek by (destruct (c_closer c) eqn:Ek; [specialize (H6 _ eq_refl); congruence|done]).
  split; cbn; try done.
  - by intros k [= <-].
  - by intros k [= <-].
  - intros k n [= <-]. cbn. intros En. rewrite bool_decide_false by naive_solver. by apply (H5 n).
  - intros k [= <-]. cbn. intros [E|[? _]]; [|done]. by destruct (c_running c).
  - intros k n [= <-]. apply H3.
Qed.

(** A move of the closer on its way. *)
Lemma kinv_move c c' k p :
  KInv c -> c_closer c = Some k -> c_closer c' = Some (MkCCloser (cc_consumer k) (cc_run k) p) ->
  c_made c' = c_made c -> c_closed c' = c_closed c ->
  (p <> CDone -> c_consumer c' = cc_consumer k) -> (p = CDone -> c_consumer c' = None) ->
  NoDup (c_shut c') -> (forall n, n ∈ c_shut c' <-> n ∈ c_shut c \/ (p = CClosed /\ cc_consumer k = Some n)) ->
  (forall n, cc_consumer k = Some n -> if bool_decide (p = CClosed \/ p = CDone) then n ∈ c_shut c' else n ∉ c_shut c') ->
  (cc_run k = false \/ p <> CSignalling /\ p <> CAwaiting -> c_running c' = None) ->
  c_driver <$> c_running c' = c_driver <$> c_running c -> KInv c'.
Proof.
  intros [H1 H2 H3 H4 H5 H6 H7 H8 H9 H10 H11 H12] Ek Ek' Em Ec Hco Hdo Hnd Hsh Hst Hid Hdr.
  assert (cc_at k <> CDone -> c_consumer c = cc_consumer k) as Hcap by (intros; by apply H7).
  assert (forall n, c_consumer c = Some n -> cc_consumer k = Some n) as Hsame.
  { intros n Hn. destruct (decide (cc_at k = CDone)) as [Ed|Ed]; [rewrite (H8 k Ek Ed) in Hn; done|].
    by rewrite <- Hcap. }
  split.
  - intros n Hn. rewrite Em in Hn. destruct (H1 n Hn) as [Hin|Hn2]; [left; apply Hsh; by left|].
    apply Hsame in Hn2. destruct (decide (p = CDone)) as [Ep|Ep]; [|right; by rewrite Hco].
    left. specialize (Hst n Hn2). rewrite bool_decide_true in Hst by by right. done.
  - intros n. rewrite Em. intros [Hin|[_ Hn]]%Hsh; [by apply H2|by eapply H11].
  - intros n Hn. rewrite Em. destruct (decide (p = CDone)) as [Ep|Ep]; [by rewrite Hdo in Hn|]. rewrite Hco in Hn by done. by eapply H11.
  - done.
  - congruence.
  - intros k' Hk'. rewrite Ec. by eapply H6.
  - intros k'. rewrite Ek'. intros [= <-]. done.
  - intros k'. rewrite Ek'. intros [= <-]. done.
  - intros k' n. rewrite Ek'. intros [= <-]. apply Hst.
  - intros k'. rewrite Ek'. intros [= <-]. done.
  - intros k' n. rewrite Ek', Em. intros [= <-]. cbn. apply (H11 k n Ek).
  - intros r Er. rewrite Er in Hdr. destruct (c_running c) as [r0|] eqn:Er0; [|done]. injection Hdr as E.
    rewrite E. rewrite <- (Hsame (c_driver r0)) by by apply H12. apply Hco. intros ->.
    by rewrite Hid in Er by by right.
Qed.

Lemma kinv_step configAutoCommit possible driver_error c l c' :
  KInv c -> cfstep configAutoCommit possible driver_error c l c' -> KInv c'.
Proof.
  intros Hi Hs. destruct Hs;
    try (apply (kinv_view c); [done|done|by right]);
    try (apply (kinv_view c); [done|done|right; cbn; by match goal with H : c_running c = _ |- _ => rewrite H end]).
  - by apply kinv_connect.
  - by apply kinv_connect_failed.
  - by apply kinv_connect.
  - (* cf_begin *)
    destruct Hi as [H1' H2' H3' H4' H5' H6' H7' H8' H9' H10' H11' H12']. split; cbn; try done.
    + intros k Ek. specialize (H6' k Ek). congruence.
    + by intros r [= <-].
  - apply (kinv_view c); [done|by destruct current|right; rewrite H; by destruct current].
  - apply (kinv_view c); [done|by case_bool_decide|right; rewrite H; by case_bool_decide].
  - apply (kinv_view c); [done| |right; rewrite H]; unfold read_message; by destruct (owned_message _ _).
  - apply (kinv_view c); [done|by destruct current|right; rewrite H; by destruct current].
  - apply (kinv_view c); [done| |right; rewrite H]; by destruct (_ && _).
  - apply (kinv_view c); [done|done|by left].
  - by apply kinv_close.
  - (* cf_cancel *)
    assert (forall n, cc_consumer k = Some n -> n ∉ c_shut c) as Hn.
    { intros n En. pose proof (k_shutting c Hi k n H En) as Hs. rewrite H0 in Hs. by rewrite bool_decide_false in Hs by naive_solver. }
    assert (c_driver <$> c_running (cancel_run k c) = c_driver <$> c_running c) as Hd.
    { unfold cancel_run. destruct (c_running c) as [r|] eqn:Er; cbn; [|by rewrite Er].
      destruct (cc_run k); cbn; [done|by rewrite Er]. }
    pose proof (k_captured c Hi k H ltac:(congruence)) as Hcap.
    apply (kinv_view (move_closer k (if cc_run k then CAwaiting else CClosing) c)).
    + apply (kinv_move c _ k (if cc_run k then CAwaiting else CClosing)); try done.
      * by destruct (cc_run k).
      * apply Hi.
      * intros n. cbn. destruct (cc_run k); naive_solver.
      * intros n En. rewrite bool_decide_false by (destruct (cc_run k); naive_solver). by apply Hn.
      * intros Hid. apply (k_idle c Hi k H). left. destruct (cc_run k); naive_solver.
    + unfold cancel_run. destruct (c_running c); [|done]. by destruct (cc_run k).
    + right. exact Hd.
  - (* cf_joined *)
    pose proof (k_captured c Hi k H ltac:(congruence)) as Hcap.
    apply (kinv_move c _ k CClosing); try done; [apply Hi|naive_solver|].
    intros n En. pose proof (k_shutting c Hi k n H En) as Hs. rewrite H0 in Hs.
    rewrite bool_decide_false in Hs by naive_solver. by rewrite bool_decide_false by naive_solver.
  - (* cf_close_driver *)
    pose proof (k_captured c Hi k H ltac:(congruence)) as Hcap. pose proof (k_shutting c Hi k n H H1) as Hs.
    rewrite H0 in Hs. rewrite bool_decide_false in Hs by naive_solver.
    assert (c_running c = None) as Er by (apply (k_idle c Hi k H); right; by rewrite H0).
    unfold close_driver. rewrite H1. apply (kinv_move c _ k CClosed); try done; cbn.
    + apply NoDup_app. split_and!; [apply Hi| |apply NoDup_singleton]. by intros x Hx ->%list_elem_of_singleton.
    + intros x. rewrite elem_of_app, list_elem_of_singleton. naive_solver.
    + intros x Ex. rewrite bool_decide_true by naive_solver. set_solver.
  - (* cf_close_none *)
    pose proof (k_captured c Hi k H ltac:(congruence)) as Hcap.
    assert (c_running c = None) as Er by (apply (k_idle c Hi k H); right; by rewrite H0).
    unfold close_driver. rewrite H1. apply (kinv_move c _ k CClosed); try done; cbn; [apply Hi|naive_solver|naive_solver].
  - (* cf_close_done *)
    assert (c_running c = None) as Er by (apply (k_idle c Hi k H); right; by rewrite H0).
    apply (kinv_move c _ k CDone); try done; cbn; [apply Hi|naive_solver|].
    intros n En. pose proof (k_shutting c Hi k n H En) as Hs. rewrite H0 in Hs.
    rewrite bool_decide_true in Hs by naive_solver. by rewrite bool_decide_true by naive_solver.
Qed.

Lemma cf_reachable_kinv configAutoCommit possible driver_error c :
  cf_reachable configAutoCommit possible driver_error c -> KInv c.
Proof.
  induction 1 as [|c l c' _ IH Hs]; [|by eapply kinv_step].
  split; cbn; try done; [lia|by intros n ?%elem_of_nil|constructor].
Qed.

(** A driver is closed by Close, or because its own subscription failed. *)
Lemma shut_by configAutoCommit possible driver_error c l c' n :
  KInv c -> cfstep configAutoCommit possible driver_error c l c' -> n ∈ c_shut c' -> n ∉ c_shut c ->
  l = LCloseDriver n \/ (n = c_made c /\ c_closed c = false /\ c_consumer c = None /\ c_consumer c' = None).
Proof.
  intros Hi Hs Hin Hn. inversion Hs; subst; unfold disown, cancel_run, read_message, close_driver in Hin; repeat case_match; cbn in Hin;
    try (by destruct (Hn Hin)); try (apply elem_of_app in Hin as [Hin|Hin%list_elem_of_singleton]; [by destruct (Hn Hin)|subst]).
  all: first [right; by split_and!|left; congruence].
Qed.

(** C35: Close closes a driver only after it was asked for and no run is left;
    the one other way a driver is closed is that its own subscription failed,
    while the consumer was open and had no driver, and then it was never used.
    No driver is closed twice, and a run never holds a closed one; and when
    Close has returned there is no run, no driver is kept, and every driver
    ever made is closed. *)
Theorem close_joins_run configAutoCommit possible driver_error c :
  cf_reachable configAutoCommit possible driver_error c ->
  NoDup (c_shut c) /\
  (forall r, c_running c = Some r -> c_driver r ∉ c_shut c) /\
  (forall n c', cfstep configAutoCommit possible driver_error c (LCloseDriver n) c' ->
     c_closed c = true /\ c_running c = None /\ n ∉ c_shut c) /\
  (forall l c' n, cfstep configAutoCommit possible driver_error c l c' -> n ∈ c_shut c' -> n ∉ c_shut c ->
     l = LCloseDriver n \/ (n = c_made c /\ c_closed c = false /\ c_consumer c = None /\ c_consumer c' = None)) /\
  (forall k, c_closer c = Some k -> cc_at k = CDone ->
     c_running c = None /\ c_consumer c = None /\ forall n, n < c_made c -> n ∈ c_shut c).
Proof.
  intros Hr%cf_reachable_kinv. split_and!.
  - apply Hr.
  - intros r Er. pose proof (k_run c Hr r Er) as Ec. destruct (c_closer c) as [k|] eqn:Ek; [|by apply (k_open c Hr)].
    assert (cc_at k = CSignalling \/ cc_at k = CAwaiting) as Hat.
    { destruct (decide (cc_at k = CSignalling)); [by left|]. destruct (decide (cc_at k = CAwaiting)); [by right|].
      pose proof (k_idle c Hr k Ek) as Hid. rewrite Hid in Er by by right. done. }
    rewrite (k_captured c Hr k Ek) in Ec by (destruct Hat; congruence). pose proof (k_shutting c Hr k _ Ek Ec) as Hs.
    rewrite bool_decide_false in Hs; [done|]. destruct Hat as [-> | ->]; by intros [|].
  - intros n c' Hs. inversion Hs; subst. rename select (c_closer c = Some k) into Ek. rename select (cc_at k = CClosing) into Eat.
    rename select (cc_consumer k = Some n) into En. split_and!.
    + by eapply k_closed.
    + apply (k_idle c Hr k Ek). right. by rewrite Eat.
    + pose proof (k_shutting c Hr k n Ek En) as Hs'. rewrite Eat in Hs'. by rewrite bool_decide_false in Hs' by naive_solver.
  - intros l c' n. by apply shut_by.
  - intros k Ek Eat. pose proof (k_done c Hr k Ek Eat) as Ec. split_and!; [|done|].
    + apply (k_idle c Hr k Ek). right. by rewrite Eat.
    + intros n Hn. destruct (k_all c Hr n Hn); [done|congruence].
Qed.
