(* ===== verification/ConfluentWitness.v ===== *)
(** * package kafka, the librdkafka consumer on concrete runs

    A handler that fails on the first of two messages: its offset is sought
    again, or, when the seek fails too, retained for the next run.  The last
    run starts while Close has marked the consumer as closed and has not yet
    cancelled the run, and reads past the message that failed. *)

From S2P Require Import Prelude.
From S2P Require Import GoStrings.
From S2P Require Import KafkaErrors.
From S2P Require Import KafkaWorker.
From S2P Require Import KafkaWorkerProofs.
From S2P Require Import ConfluentWorker.
From S2P Require Import ConfluentWorkerProofs.
From S2P Require Import ConfluentConsumer.
From S2P Require Import ConfluentConsumerProofs.
From S2P Require Import ConfluentCloseProofs.

Definition message_at (offset : Z) : CMessage :=
  MkCMessage (Some "t") 0 offset None None (Some "v") [] 0.
Definition m5 : CMessage := message_at 5.
Definition m6 : CMessage := message_at 6.

Definition failing : cworld :=
  MkCWorld (fun _ => false) (fun _ => None) (fun _ => None) (fun _ => None)
    (fun _ _ => Returned (Some (ELeaf (Other "boom")))) (fun _ _ => Returned None) (fun _ _ _ => FReturn None).

Lemma failing_foreign : cforeign_world failing.
Proof. split; intros; cbn; try done. constructor. done. Qed.

Definition manual : ConsumerAdvancedOptions := MkOptions (Some false) false false false false false 0 0 2.
Definition message_run : CRunOptions := MkCRunOptions false manual.

Definition gen1 : confluentAssignmentSnapshot := MkSnapshot true 1.
Definition the_group : confluentBatchGroup := build_group [(m5, gen1); (m6, gen1)].

Abbreviation reach := (cf_reachable false (fun w => w = failing) (fun _ => False)).
Abbreviation go := (cfstep false (fun w => w = failing) (fun _ => False)).

Definition state_with (closed : bool) (run : option cphase) (pending : list position) (open : list item) : CState :=
  MkCState (Some 0) 1 ["t"] closed (MkCRun 0 message_run false <$> run)
    (if closed then Some (MkCCloser (Some 0) true CSignalling) else None)
    (MkAssignment true 1 {[("t", 0%Z) := 1%Z]}) (MkRewinds pending ∅) open [].

Definition p5 : position := confluentRecordPosition m5.

Lemma reach_idle : reach (state_with false None [] []).
Proof.
  apply (cf_then _ _ _ (connect_driver ["t"] new_cstate) LSilent).
  - apply (cf_then _ _ _ new_cstate LSilent); [constructor|by apply cf_connect].
  - apply (cf_assigned _ _ _ (connect_driver ["t"] new_cstate) [(Some "t", 0%Z)] false); [done|by repeat constructor].
Qed.

Definition run_at (p : cphase) : CRun := MkCRun 0 message_run false p.
Definition at_ (p : cphase) (pending : list position) (open : list item) : CState := state_with false (Some p) pending open.

(** One more step, to a state that is convertible. *)
Ltac then_step H s := exact (cf_then _ _ _ _ _ _ H s).

Lemma reach_gathering : reach (at_ (Gathering []) [] []).
Proof.
  assert (reach (at_ Begun [] [])) as H.
  { then_step reach_idle (cf_begin false (fun w => w = failing) (fun _ => False) (state_with false None [] []) 0 message_run
      eq_refl eq_refl eq_refl eq_refl). }
  then_step H (cf_nothing_pending false (fun w => w = failing) (fun _ => False) (at_ Begun [] []) (run_at Begun)
    eq_refl eq_refl (or_intror (or_intror eq_refl))).
Qed.

(** Reading a message in a state with nothing else open but what was read. *)
Lemma read_step items m pending open :
  (Z.of_nat (length items) < 2)%Z -> readable m items (MkAssignment true 1 {[("t", 0%Z) := 1%Z]}) ->
  m = m5 \/ m = m6 ->
  go (at_ (Gathering items) pending open) (LRead m) (at_ (Gathering (items ++ [(m, gen1)])) pending (open ++ [(m, gen1)])).
Proof.
  intros Hn Hr Hm.
  assert (at_phase (Gathering (items ++ [(read_message m (at_ (Gathering items) pending open)).1])) (run_at (Gathering items))
            (read_message m (at_ (Gathering items) pending open)).2
          = at_ (Gathering (items ++ [(m, gen1)])) pending (open ++ [(m, gen1)])) as <-.
  { by destruct Hm as [->| ->]. }
  by eapply cf_read.
Qed.

Lemma m5_readable : readable m5 [] (MkAssignment true 1 {[("t", 0%Z) := 1%Z]}).
Proof. split_and!; [by eexists|done|by intros x ?%elem_of_nil]. Qed.

Lemma m6_readable : readable m6 [(m5, gen1)] (MkAssignment true 1 {[("t", 0%Z) := 1%Z]}).
Proof. split_and!; [by eexists|done|]. by intros x ->%list_elem_of_singleton _ _. Qed.

Lemma gather_both pending : reach (at_ (Gathering []) pending []) ->
  reach (at_ (Gathering [(m5, gen1); (m6, gen1)]) pending [(m5, gen1); (m6, gen1)]).
Proof.
  intros H. assert (reach (at_ (Gathering [(m5, gen1)]) pending [(m5, gen1)])) as H5.
  { then_step H (read_step [] m5 pending [] ltac:(cbn; lia) m5_readable (or_introl eq_refl)). }
  then_step H5 (read_step [(m5, gen1)] m6 pending [(m5, gen1)] ltac:(cbn; lia) m6_readable (or_intror eq_refl)).
Qed.

(** The wave: one group, whose handler fails. *)
Definition both : list item := [(m5, gen1); (m6, gen1)].
Definition wave_of (waiting launched leased : list confluentBatchGroup) (errs : list gerr) : cphase :=
  Waving (MkGroupWave waiting launched leased errs) false.
Definition boom : gerr := newConsumerHandlerErrorAt "kafka/confluent: message handler failed" (ELeaf (Other "boom")) p5.

Lemma reach_leased : reach (at_ (wave_of [] [] [the_group] []) [] both).
Proof.
  assert (reach (at_ (wave_of [the_group] [] [] []) [] both)) as H1.
  { then_step (gather_both [] reach_gathering) (cf_wave false (fun w => w = failing) (fun _ => False)
      (at_ (Gathering both) [] both) (run_at (Gathering both)) both false eq_refl eq_refl ltac:(done) eq_refl ltac:(done)). }
  assert (reach (at_ (wave_of [] [the_group] [] []) [] both)) as H2.
  { then_step H1 (cf_launch false (fun w => w = failing) (fun _ => False) (at_ (wave_of [the_group] [] [] []) [] both)
      (run_at (wave_of [the_group] [] [] [])) the_group [] [] [] [] false eq_refl eq_refl ltac:(vm_compute; reflexivity)). }
  then_step H2 (cf_dispatch false (fun w => w = failing) (fun _ => False) (at_ (wave_of [] [the_group] [] []) [] both)
    (run_at (wave_of [] [the_group] [] [])) the_group [] [] [] [] [] false eq_refl eq_refl ltac:(vm_compute; reflexivity)).
Qed.

Definition failed_trace : list cfev := (run_process false message_run failing the_group []).1.

Abbreviation failed_run := (state_with false None [p5] both).

(** The seek fails: the offset is kept for the next run. *)
Lemma reach_retained : reach failed_run.
Proof.
  assert (reach (at_ (wave_of [] [] [] [boom]) [] both)) as H1.
  { pose proof (cf_worker false (fun w => w = failing) (fun _ => False) (at_ (wave_of [] [] [the_group] []) [] both)
      (run_at (wave_of [] [] [the_group] [])) the_group [] [] [] [] [] false failing failed_trace (WDone (Some boom))
      eq_refl eq_refl eq_refl ltac:(vm_compute; reflexivity) ltac:(done)) as Hstep.
    assert (CfCancelled true ∈ failed_trace -> c_cancelled (run_at (wave_of [] [] [the_group] [])) = true) as Hc.
    { assert (failed_trace = [CfCancelled false; CfHandler (mapConfluentToPayload m5) (Returned (Some (ELeaf (Other "boom"))));
        CfCancelled false]) as -> by by vm_compute. set_solver. }
    assert (settle the_group failed_trace (set_wave (MkGroupWave [] [] ([] ++ []) ([] ++ option_list (sent_error (WDone (Some boom))))) false
      (run_at (wave_of [] [] [the_group] [])) (at_ (wave_of [] [] [the_group] []) [] both))
      = at_ (wave_of [] [] [] [boom]) [] both) as E by by vm_compute.
    specialize (Hstep Hc). rewrite E in Hstep. then_step reach_leased Hstep. }
  assert (reach (at_ (Owning [p5]) [] both)) as H2.
  { pose proof (cf_wave_done false (fun w => w = failing) (fun _ => False) (at_ (wave_of [] [] [] [boom]) [] both)
      (run_at (wave_of [] [] [] [boom])) [boom] false eq_refl eq_refl) as Hstep.
    assert (after_groups false false [boom] = Owning [p5]) as E by by vm_compute. cbn [c_cancelled run_at] in Hstep.
    rewrite E in Hstep. then_step H1 Hstep. }
  assert (reach (at_ (Reseeking [p5]) [] both)) as H3.
  { pose proof (cf_retry_owned false (fun w => w = failing) (fun _ => False) (at_ (Owning [p5]) [] both)
      (run_at (Owning [p5])) [p5] None eq_refl eq_refl) as Hstep. cbn [disown] in Hstep.
    assert (rewindPositionsStillOwned None [p5] (c_rewinds (at_ (Owning [p5]) [] both)) = [p5]) as E by by vm_compute.
    rewrite E in Hstep. then_step H2 Hstep. }
  assert (reach (at_ (Retaining [p5]) [] both)) as H4.
  { then_step H3 (cf_retry_failed false (fun w => w = failing) (fun _ => False) (at_ (Reseeking [p5]) [] both)
      (run_at (Reseeking [p5])) [p5] (Err (ELeaf (Other "no broker"))) (ELeaf (Other "no broker")) eq_refl eq_refl eq_refl). }
  assert (reach (at_ Leaving [p5] both)) as H5.
  { pose proof (cf_retain false (fun w => w = failing) (fun _ => False) (at_ (Retaining [p5]) [] both)
      (run_at (Retaining [p5])) [p5] eq_refl eq_refl) as Hstep.
    assert (retain_rewinds [p5] (MkRewinds [] ∅) = MkRewinds [p5] ∅) as E by by vm_compute. cbn in Hstep.
    rewrite E in Hstep. then_step H4 Hstep. }
  then_step H5 (cf_leave false (fun w => w = failing) (fun _ => False) (at_ Leaving [p5] both) (run_at Leaving) eq_refl eq_refl).
Qed.

(** The next run seeks back before it reads. *)
Lemma reach_sought : reach (at_ (Gathering []) [] []).
Proof.
  assert (reach (at_ Begun [p5] both)) as H1.
  { then_step reach_retained (cf_begin false (fun w => w = failing) (fun _ => False) failed_run 0 message_run
      eq_refl eq_refl eq_refl eq_refl). }
  assert (reach (at_ (Applying [p5]) [p5] both)) as H2.
  { then_step H1 (cf_pending false (fun w => w = failing) (fun _ => False) (at_ Begun [p5] both) (run_at Begun)
      eq_refl eq_refl eq_refl eq_refl ltac:(done)). }
  assert (reach (at_ (Seeking [p5] [p5]) [p5] both)) as H3.
  { pose proof (cf_apply_owned false (fun w => w = failing) (fun _ => False) (at_ (Applying [p5]) [p5] both)
      (run_at (Applying [p5])) [p5] None eq_refl eq_refl) as Hstep. cbn [disown] in Hstep.
    assert (rewindPositionsStillOwned None [p5] (c_rewinds (at_ (Applying [p5]) [p5] both)) = [p5]) as E by by vm_compute.
    rewrite E in Hstep. then_step H2 Hstep. }
  assert (reach (at_ (Sought [p5]) [p5] [])) as H4.
  { pose proof (cf_apply_sought false (fun w => w = failing) (fun _ => False) (at_ (Seeking [p5] [p5]) [p5] both)
      (run_at (Seeking [p5] [p5])) [p5] [p5] (Ok [((Some "t", 0%Z), None)]) eq_refl eq_refl ltac:(vm_compute; reflexivity)) as Hstep.
    assert (seek_done [p5] (at_phase (Sought [p5]) (run_at (Seeking [p5] [p5])) (at_ (Seeking [p5] [p5]) [p5] both))
      = at_ (Sought [p5]) [p5] []) as E by by vm_compute.
    rewrite E in Hstep. then_step H3 Hstep. }
  pose proof (cf_apply_done false (fun w => w = failing) (fun _ => False) (at_ (Sought [p5]) [p5] [])
    (run_at (Sought [p5])) [p5] eq_refl eq_refl) as Hstep.
  assert (drop_rewinds [p5] (MkRewinds [p5] ∅) = MkRewinds [] ∅) as E by by vm_compute. cbn in Hstep.
  rewrite bool_decide_true, E in Hstep by done. then_step H4 Hstep.
Qed.

Lemma no_record_overtaken_witness :
  let c := at_ (Gathering [(m5, gen1)]) [] [(m5, gen1)] in
  reach c /\ c_closed c = false /\ go c (LRead m6) (at_ (Gathering both) [] both) /\
  exists r items, c_running c = Some r /\ c_phase r = Gathering items /\
    forall x, x ∈ open c -> x ∈ items /\ (tp_of_message x.1 = tp_of_message m6 -> (cm_Offset x.1 < cm_Offset m6)%Z).
Proof.
  assert (reach (at_ (Gathering [(m5, gen1)]) [] [(m5, gen1)])) as H.
  { then_step reach_sought (read_step [] m5 [] [] ltac:(cbn; lia) m5_readable (or_introl eq_refl)). }
  pose proof (read_step [(m5, gen1)] m6 [] [(m5, gen1)] ltac:(cbn; lia) m6_readable (or_intror eq_refl)) as Hs.
  split; [exact H|]. split; [done|]. split; [exact Hs|].
  apply (no_record_overtaken false (fun w => w = failing) (fun _ => False) _ m6 (at_ (Gathering both) [] both)).
  - intros w ->. apply failing_foreign.
  - done.
  - exact H.
  - done.
  - exact Hs.
Defined.

Lemma groups_run_under_their_assignment_witness :
  let c := at_ (wave_of [] [] [the_group] []) [] both in
  reach c /\
  (Z.of_nat (length [the_group]) <= slots false message_run)%Z /\
  forall g m rest, g ∈ [the_group] -> g_messages g = m :: rest -> assignment_known (c_assignment c) = true ->
  exists topic n, cm_Topic m = Some topic /\ assigned (c_assignment c) !! (topic, cm_Partition m) = Some n /\
    (assignmentKnown g = true -> assignmentGeneration g = n).
Proof.
  split; [exact reach_leased|].
  exact (groups_run_under_their_assignment false (fun w => w = failing) (fun _ => False)
    (at_ (wave_of [] [] [the_group] []) [] both) (run_at (wave_of [] [] [the_group] []))
    (MkGroupWave [] [] [the_group] []) false reach_leased eq_refl eq_refl).
Defined.

Lemma pending_rewinds_owned_witness : reach failed_run /\ rewinds_ok (c_rewinds failed_run).
Proof. split; [exact reach_retained|]. exact (pending_rewinds_owned _ _ _ _ reach_retained). Defined.

Definition sought_ok : list (topic_partition * option gerr) := [((Some "t", 0%Z), None)].

Lemma seek_verdict_exact_witness :
  [p5] <> [] /\ NoDup (tp_of <$> [p5]) /\
  (seekConfluentPositions [p5] (Ok sought_ok) = None <->
   exists results, Ok sought_ok = Ok (E:=gerr) results /\ Forall (fun x => x.2 = None) results /\
     partition_key <$> results.*1 ≡ₚ tp_of <$> [p5]).
Proof.
  split; [done|]. assert (NoDup (tp_of <$> [p5])) as H by apply NoDup_singleton. split; [exact H|].
  exact (seek_verdict_exact [p5] (Ok sought_ok) ltac:(done) H).
Defined.

(** Close from the first driver to the end. *)
Definition closer_at (p : cclose) : CCloser := MkCCloser (Some 0) false p.
Definition closed_state (p : cclose) (consumer : option nat) (shut : list nat) : CState :=
  MkCState consumer 1 ["t"] true None (Some (closer_at p)) no_assignment (MkRewinds [] ∅) [] shut.

Lemma reach_closed : reach (closed_state CDone None [0]).
Proof.
  assert (reach (connect_driver ["t"] new_cstate)) as H0.
  { apply (cf_then _ _ _ new_cstate LSilent); [constructor|by apply cf_connect]. }
  assert (reach (closed_state CSignalling (Some 0) [])) as H1.
  { then_step H0 (cf_close false (fun w => w = failing) (fun _ => False) (connect_driver ["t"] new_cstate) eq_refl). }
  assert (reach (closed_state CClosing (Some 0) [])) as H2.
  { then_step H1 (cf_cancel false (fun w => w = failing) (fun _ => False) (closed_state CSignalling (Some 0) []) (closer_at CSignalling) eq_refl eq_refl). }
  assert (reach (closed_state CClosed (Some 0) [0])) as H3.
  { then_step H2 (cf_close_driver false (fun w => w = failing) (fun _ => False) (closed_state CClosing (Some 0) []) (closer_at CClosing) 0 eq_refl eq_refl eq_refl). }
  then_step H3 (cf_close_done false (fun w => w = failing) (fun _ => False) (closed_state CClosed (Some 0) [0]) (closer_at CClosed) eq_refl eq_refl).
Qed.

Lemma close_joins_run_witness :
  let c := closed_state CDone None [0] in
  reach c /\ NoDup (c_shut c) /\
  (forall r, c_running c = Some r -> c_driver r ∉ c_shut c) /\
  (forall n c', go c (LCloseDriver n) c' -> c_closed c = true /\ c_running c = None /\ n ∉ c_shut c) /\
  (forall l c' n, go c l c' -> n ∈ c_shut c' -> n ∉ c_shut c ->
     l = LCloseDriver n \/ (n = c_made c /\ c_closed c = false /\ c_consumer c = None /\ c_consumer c' = None)) /\
  (forall k, c_closer c = Some k -> cc_at k = CDone ->
     c_running c = None /\ c_consumer c = None /\ forall n, n < c_made c -> n ∈ c_shut c).
Proof. split; [exact reach_closed|]. exact (close_joins_run _ _ _ _ reach_closed). Defined.

Lemma the_group_ok : well_grouped the_group.
Proof.
  split; [|done|done|done]. split.
  - intros m n Hm Hn. change (m ∈ [m5; m6]) in Hm. change (n ∈ [m5; m6]) in Hn.
    apply elem_of_cons in Hm as [-> | ->%list_elem_of_singleton], Hn as [-> | ->%list_elem_of_singleton]; done.
  - change (StronglySorted (fun m n => (cm_Offset m < cm_Offset n)%Z) [m5; m6]). by repeat constructor.
Qed.

Lemma confluent_workers_answer_witness :
  cforeign_world failing /\ well_grouped the_group /\
  processMessageGroup false false false manual failing the_group [] = (failed_trace, WDone (Some boom)) /\
  answered_for (g_messages the_group) failed_trace (WDone (Some boom)).
Proof.
  split; [exact failing_foreign|]. split; [exact the_group_ok|]. split; [vm_compute; reflexivity|].
  apply (confluent_workers_answer false false manual failing the_group failed_trace (WDone (Some boom))).
  - exact failing_foreign.
  - exact the_group_ok.
  - left. vm_compute. reflexivity.
Defined.

(** A handler that accepts everything. *)
Definition accepting : cworld :=
  MkCWorld (fun _ => false) (fun _ => None) (fun _ => None) (fun _ => None)
    (fun _ _ => Returned None) (fun _ _ => Returned None) (fun _ _ _ => FReturn None).

Definition accepted_trace : list cfev := (processMessageGroup false false false manual accepting the_group []).1.

Example accepted_commits : omap cf_moves accepted_trace = [(("t", 0%Z), 6%Z); (("t", 0%Z), 7%Z)].
Proof. vm_compute. reflexivity. Qed.

Lemma confluent_offsets_follow_handlers_witness :
  OffsetFinalizer manual = false /\ commits_before false manual = false /\ well_grouped the_group /\
  cf_careful (g_messages the_group) accepted_trace.
Proof.
  split; [done|]. split; [done|]. split; [exact the_group_ok|].
  apply (confluent_offsets_follow_handlers false false manual accepting the_group accepted_trace (WDone None)).
  - done.
  - done.
  - exact the_group_ok.
  - left. vm_compute. reflexivity.
Defined.

Definition legacy_trace : list cfev := (processMessageGroup true false false manual failing the_group []).1.

Lemma legacy_worker_never_fails_witness :
  well_grouped the_group /\
  ((WDone None = WDone None /\ handed legacy_trace = b_Messages (payload the_group)) \/
   (exists pr, WDone None = WExit pr) /\ handed legacy_trace `prefix_of` b_Messages (payload the_group)).
Proof.
  split; [exact the_group_ok|].
  apply (legacy_worker_never_fails false false manual failing the_group legacy_trace (WDone None)).
  - done.
  - done.
  - exact the_group_ok.
  - vm_compute. reflexivity.
Defined.

Lemma confluent_groups_exact_witness :
  Forall plain_item both /\
  let groups := groupConfluentBatchMessagesWithAssignments (Some <$> both.*1) (both.*2) in
  (forall g, g ∈ groups -> exists x, group_of both g x) /\
  forall x, x ∈ both -> exists i g y, groups !! i = Some g /\ group_of both g y /\ same_group y x /\
    forall j g' y', groups !! j = Some g' -> group_of both g' y' -> same_group y' x -> j = i.
Proof.
  assert (Forall plain_item both) as H by by repeat constructor. split; [exact H|].
  exact (confluent_groups_exact both H).
Defined.

(** Between the two halves of Close, the mark and the cancel, a run that starts
    with a pending rewind skips it: it reads offset 6 while offset 5, whose
    handler failed, is still to be read again, and may commit past it. *)
Example closing_run_overtakes :
  exists c c', reach c /\ c_closed c = true /\ pendingRewinds (c_rewinds c) = [p5] /\
    c_phase <$> c_running c = Some (Gathering []) /\ (m5, gen1) ∈ open c /\ go c (LRead m6) c'.
Proof.
  assert (reach (at_ Begun [p5] both)) as H1.
  { then_step reach_retained (cf_begin false (fun w => w = failing) (fun _ => False) failed_run 0 message_run
      eq_refl eq_refl eq_refl eq_refl). }
  assert (reach (state_with true (Some Begun) [p5] both)) as H2.
  { then_step H1 (cf_close false (fun w => w = failing) (fun _ => False) (at_ Begun [p5] both) eq_refl). }
  set (c := state_with true (Some (Gathering [])) [p5] both).
  assert (reach c) as H3.
  { then_step H2 (cf_nothing_pending false (fun w => w = failing) (fun _ => False) (state_with true (Some Begun) [p5] both)
      (run_at Begun) eq_refl eq_refl (or_introl eq_refl)). }
  exists c, (at_phase (Gathering [(read_message m6 c).1]) (run_at (Gathering [])) (read_message m6 c).2).
  split_and!; [exact H3|done..|by left|].
  apply (cf_read _ _ _ c (run_at (Gathering [])) []); [done|done|by vm_compute|].
  split_and!; [by eexists|done|by intros x ?%elem_of_nil].
Qed.
