(* ===== verification/FeatureRepo.v ===== *)
(** * package feature, the feature repository

    How the events of a stream change the map of features of a Client
    (feature/flags.go): versions, identities and namespaces.  A feature is
    known by its key; its ID changes when it is deleted and made again under
    the same key, and only within one identity do versions order the events.
    The map of the code holds pointers to features that are never written
    again, so it is a map of values here. *)

From S2P Require Import Prelude.
From S2P Require Import GoStrings.
From S2P Require Import Feature.

Section repository.
Context {V : Type}.
Abbreviation feature := (featureState V).

(** The fields of Client the events change: features and
    featureContextRevision.  A revision counts the context changes of a
    process, which do not reach 2^64. *)
Record repository := MkRepository {
  features : gmap string feature;
  featureContextRevision : N
}.

Definition prepareFeatureNamespaceLocked (clientEvaluated : bool) (revision : N) (r : repository) : repository :=
  MkRepository
    (if negb clientEvaluated && negb (featureContextRevision r =? revision)%N then ∅ else features r)
    revision.

Definition named (s : string) : bool := negb (String.eqb s EmptyString).

Definition featureIdentityChanged (current incoming : feature) : bool :=
  named (FeatureID current) && named (FeatureID incoming) && negb (String.eqb (FeatureID current) (FeatureID incoming)).

(** The condition under which an event replaces the current feature. *)
Definition replaces (current : option feature) (incoming : feature) : bool :=
  match current with
  | None => true
  | Some c => featureIdentityChanged c incoming || (featureVersion current <=? featureVersion (Some incoming))%Z
  end.

Definition store (m : gmap string feature) (f : feature) : gmap string feature :=
  if replaces (m !! FeatureKey f) f then <[FeatureKey f := f]> m else m.

(** The entries of a features event the loop does not skip: not null, with a
    key. *)
Definition usable (states : list (option feature)) : list feature :=
  omap (fun s => f ← s; if named (FeatureKey f) then Some f else None) states.

(** The two loops of applyFullFeatureSet. *)
Definition full_set (states : list (option feature)) (m : gmap string feature) : gmap string feature :=
  let incoming := FeatureKey <$> usable states in
  filter (fun kv => kv.1 ∈ incoming) (foldl store m (usable states)).

(** The condition of deleteFeature. *)
Definition deletes (current : option feature) (f : feature) : bool :=
  match current with
  | None => true
  | Some c =>
      (negb (named (FeatureID f)) || negb (named (FeatureID c)) || String.eqb (FeatureID f) (FeatureID c)) &&
      match Version f with
      | None => true
      | Some v => (v =? 0)%Z || (featureVersion current <=? v)%Z
      end
  end.

Definition delete_feature (m : gmap string feature) (f : feature) : gmap string feature :=
  if deletes (m !! FeatureKey f) f then delete (FeatureKey f) m else m.

(** What applyFullFeatureSet, applyFeature and deleteFeature do to the
    repository once the revision of the stream is the current one. *)
Inductive update :=
| Full (states : list (option feature))
| Incremental (f : feature)
| Removal (f : feature).

Definition update_features (u : update) (m : gmap string feature) : gmap string feature :=
  match u with
  | Full states => full_set states m
  | Incremental f => store m f
  | Removal f => delete_feature m f
  end.

(** applyFeature and deleteFeature return at once for an event without a
    key. *)
Definition ignored (u : update) : bool :=
  match u with
  | Full _ => false
  | Incremental f | Removal f => negb (named (FeatureKey f))
  end.

Definition apply_update (clientEvaluated : bool) (revision : N) (u : update) (r : repository) : repository :=
  let r := prepareFeatureNamespaceLocked clientEvaluated revision r in
  MkRepository (update_features u (features r)) (featureContextRevision r).

(** ** Lemmas *)

Lemma store_lookup_ne m f k : k <> FeatureKey f -> store m f !! k = m !! k.
Proof. intros Hne. unfold store. destruct (replaces _ _); [|done]. by rewrite lookup_insert_ne. Qed.

Lemma store_lookup m f :
  store m f !! FeatureKey f = if replaces (m !! FeatureKey f) f then Some f else m !! FeatureKey f.
Proof. unfold store. destruct (replaces _ _) eqn:E; [|done]. by rewrite lookup_insert_eq. Qed.

(** A key of the map is kept by [store]. *)
Lemma store_is_Some m f k : is_Some (m !! k) -> is_Some (store m f !! k).
Proof.
  intros H. destruct (decide (k = FeatureKey f)) as [->|Hne]; [|by rewrite store_lookup_ne].
  rewrite store_lookup. by destruct (replaces _ _).
Qed.

(** Versions order the features of one identity; a change of identity forgets
    the order. *)
Definition newer_or_other (old new : feature) : Prop :=
  featureIdentityChanged old new = true \/ (featureVersion (Some old) <= featureVersion (Some new))%Z.

Lemma replaces_spec c f : replaces (Some c) f = true <-> newer_or_other c f.
Proof. unfold newer_or_other. cbn [replaces]. rewrite orb_true_iff, Z.leb_le. done. Qed.

Lemma same_identity (f g : feature) : FeatureID f = FeatureID g -> featureIdentityChanged f g = false.
Proof. unfold featureIdentityChanged. intros ->. by rewrite String.eqb_refl, andb_false_r. Qed.

Lemma identity_same_id (c f g : feature) :
  FeatureID f = FeatureID g -> featureIdentityChanged c f = featureIdentityChanged c g.
Proof. unfold featureIdentityChanged. by intros ->. Qed.

(** Two events of one identity, or of different keys, commute unless they tie. *)
Lemma store_comm m f g :
  (FeatureKey f = FeatureKey g ->
   FeatureID f = FeatureID g /\ featureVersion (Some f) <> featureVersion (Some g)) ->
  store (store m f) g = store (store m g) f.
Proof.
  intros H. apply map_eq. intros k.
  destruct (decide (FeatureKey f = FeatureKey g)) as [E|Hne].
  - destruct (H E) as [Hid Hv]. destruct (decide (k = FeatureKey f)) as [->|Hk].
    2:{ by rewrite !store_lookup_ne by congruence. }
    rewrite (store_lookup (store m g) f), E, (store_lookup (store m f) g), (store_lookup m g), <-E, (store_lookup m f).
    pose proof (same_identity _ _ Hid) as Hfg. pose proof (same_identity _ _ (eq_sym Hid)) as Hgf.
    destruct (m !! FeatureKey f) as [c|]; cbn [replaces].
    + pose proof (identity_same_id c _ _ Hid) as Hc. rewrite <-Hc.
      destruct (featureIdentityChanged c f) eqn:Ef; cbn [orb replaces]; rewrite ?Hfg, ?Hgf; cbn [orb].
      * repeat case_match; solve [congruence | lia].
      * destruct (featureVersion (Some c) <=? featureVersion (Some f))%Z eqn:E1,
          (featureVersion (Some c) <=? featureVersion (Some g))%Z eqn:E2; cbn [replaces];
          rewrite ?Hfg, ?Hgf, <-?Hc, ?Ef, ?E1, ?E2; cbn [orb]; repeat case_match; solve [congruence | lia].
    + rewrite Hfg, Hgf. cbn [orb]. repeat case_match; solve [congruence | lia].
  - destruct (decide (k = FeatureKey f)) as [->|Hkf].
    + by rewrite store_lookup, !(store_lookup_ne _ g), store_lookup by congruence.
    + destruct (decide (k = FeatureKey g)) as [->|Hkg].
      * by rewrite store_lookup, !(store_lookup_ne _ f), store_lookup by congruence.
      * by rewrite !store_lookup_ne.
Qed.

(** Events of different versions, with one identity per key. *)
Definition orderly (l : list feature) : Prop :=
  NoDup ((fun f => (FeatureKey f, featureVersion (Some f))) <$> l) /\
  forall f g, f ∈ l -> g ∈ l -> FeatureKey f = FeatureKey g -> FeatureID f = FeatureID g.

Lemma orderly_perm l l' : l ≡ₚ l' -> orderly l -> orderly l'.
Proof. intros Hp [Hn Hi]. split; [by rewrite <-Hp|]. intros f g. rewrite <-Hp. apply Hi. Qed.

Lemma orderly_tail f l : orderly (f :: l) -> orderly l.
Proof. intros [[_ Hn]%NoDup_cons Hi]. split; [done|]. intros g h Hg Hh. apply Hi; by right. Qed.

Lemma orderly_head f g l : orderly (f :: l) -> g ∈ l -> FeatureKey f = FeatureKey g ->
  FeatureID f = FeatureID g /\ featureVersion (Some f) <> featureVersion (Some g).
Proof.
  intros [[Hn _]%NoDup_cons Hi] Hg E. split; [apply Hi; [by left|by right|done]|].
  intros Ev. apply Hn, list_elem_of_fmap. exists g. by rewrite E, Ev.
Qed.

Lemma foldl_store_perm l l' m : l ≡ₚ l' -> orderly l -> foldl store m l = foldl store m l'.
Proof.
  intros Hp. revert m. induction Hp as [|f l l' Hp IH|f g l|l1 l2 l3 Hp1 IH1 Hp2 IH2]; intros m Ho; cbn; [done|..].
  - apply IH. by eapply orderly_tail.
  - f_equal. apply store_comm. intros E. eapply orderly_head; [exact Ho|by left|done].
  - rewrite IH1 by done. apply IH2. by eapply orderly_perm.
Qed.

(** What [foldl store] leaves at a key: an event, or what was there when no
    event replaces it. *)
Lemma foldl_store_lookup l m k :
  match foldl store m l !! k with
  | Some f => (f ∈ l /\ FeatureKey f = k) \/
              (m !! k = Some f /\ forall g, g ∈ l -> FeatureKey g = k -> replaces (Some f) g = false)
  | None => m !! k = None /\ forall g, g ∈ l -> FeatureKey g <> k
  end.
Proof.
  revert m. induction l as [|a l IH]; intros m; cbn [foldl].
  { destruct (m !! k) eqn:E; [right|]; split; try done; intros g []%elem_of_nil. }
  specialize (IH (store m a)). destruct (foldl store (store m a) l !! k) as [f|].
  - destruct IH as [[Hf Hk]|[Hm Hl]]; [left; split; [by right|done]|].
    destruct (decide (k = FeatureKey a)) as [->|Hne].
    + rewrite store_lookup in Hm. destruct (replaces (m !! FeatureKey a) a) eqn:Er.
      * injection Hm as <-. left. split; [by left|done].
      * right. split; [done|]. rewrite Hm in Er. intros g [->|Hg]%elem_of_cons Hk; [done|by apply Hl].
    + rewrite store_lookup_ne in Hm by done. right. split; [done|].
      intros g [->|Hg]%elem_of_cons Hk; [congruence|by apply Hl].
  - destruct IH as [Hm Hl]. destruct (decide (k = FeatureKey a)) as [->|Hne].
    + rewrite store_lookup in Hm. destruct (m !! FeatureKey a); [by destruct (replaces _ _)|done].
    + rewrite store_lookup_ne in Hm by done. split; [done|].
      intros g [->|Hg]%elem_of_cons; [congruence|by apply Hl].
Qed.

Lemma elem_of_usable f states : f ∈ usable states <-> Some f ∈ states /\ FeatureKey f <> EmptyString.
Proof.
  unfold usable, named. rewrite list_elem_of_omap. split.
  - intros ([g|] & Hin & Hg); [cbn in Hg|done]. destruct (String.eqb_spec (FeatureKey g) ""); by simplify_eq/=.
  - intros [Hin Hne]. exists (Some f). split; [done|]. cbn. by destruct (String.eqb_spec (FeatureKey f) "").
Qed.

(** One update moves the feature of a key forward: through versions that do
    not decrease, or on to another identity. *)
Lemma foldl_store_forward l m k old new :
  m !! k = Some old -> foldl store m l !! k = Some new -> rtc newer_or_other old new.
Proof.
  revert m old. induction l as [|a l IH]; intros m old Hm; cbn [foldl].
  { rewrite Hm. by intros [= <-]. }
  destruct (decide (k = FeatureKey a)) as [->|Hne].
  - destruct (replaces (m !! FeatureKey a) a) eqn:Er.
    + intros Hn. rewrite Hm in Er. eapply rtc_l; [by apply replaces_spec|].
      eapply IH; [|exact Hn]. by rewrite store_lookup, Hm, Er.
    + intros Hn. eapply IH; [|exact Hn]. by rewrite store_lookup, Er.
  - intros Hn. eapply IH; [|exact Hn]. by rewrite store_lookup_ne.
Qed.

Lemma foldl_store_kept l m k c :
  m !! k = Some c -> (forall g, g ∈ l -> FeatureKey g = k -> replaces (Some c) g = false) ->
  foldl store m l !! k = Some c.
Proof.
  revert m. induction l as [|a l IH]; intros m Hm Hl; cbn [foldl]; [done|].
  apply IH; [|intros g Hg; apply Hl; by right].
  destruct (decide (k = FeatureKey a)) as [->|Hne]; [|by rewrite store_lookup_ne].
  rewrite store_lookup, Hm, Hl; [done|by left|done].
Qed.

Lemma delete_feature_lookup m f :
  delete_feature m f !! FeatureKey f = if deletes (m !! FeatureKey f) f then None else m !! FeatureKey f.
Proof. unfold delete_feature. destruct (deletes _ _); [|done]. by rewrite lookup_delete_eq. Qed.

Lemma spares_spec (c f : feature) :
  deletes (Some c) f = false <->
  featureIdentityChanged c f = true \/ exists v, Version f = Some v /\ v <> 0%Z /\ (v < featureVersion (Some c))%Z.
Proof.
  cbn [deletes]. unfold featureIdentityChanged. rewrite andb_false_iff, !orb_false_iff, !andb_true_iff, !negb_false_iff, negb_true_iff.
  rewrite (String.eqb_sym (FeatureID c)).
  destruct (Version f) as [v|].
  - rewrite orb_false_iff, Z.eqb_neq, Z.leb_gt. naive_solver.
  - naive_solver.
Qed.

(** Feature events of one identity per key leave the same repository in
    whatever order they arrive: every key ends with the event of the highest
    version, or keeps what it had when that is newer and of the same identity.
    So a reconnect that replays or reorders events does no harm. *)
Theorem feature_events_any_order m l l' :
  orderly l -> l ≡ₚ l' ->
  foldl store m l = foldl store m l' /\
  (forall f, f ∈ l ->
     (forall g, g ∈ l -> FeatureKey g = FeatureKey f -> (featureVersion (Some g) <= featureVersion (Some f))%Z) ->
     foldl store m l !! FeatureKey f = if replaces (m !! FeatureKey f) f then Some f else m !! FeatureKey f).
Proof.
  intros Ho Hp. split; [by apply foldl_store_perm|]. intros f Hf Hmax.
  apply elem_of_Permutation in Hf as [l0 Hl0].
  assert (l ≡ₚ l0 ++ [f]) as Hp' by by rewrite Hl0, Permutation_app_comm.
  rewrite (foldl_store_perm _ _ m Hp' Ho), foldl_app. cbn [foldl]. rewrite store_lookup.
  pose proof (orderly_perm _ _ Hl0 Ho) as Ho0.
  assert (forall g, g ∈ l0 -> FeatureKey g = FeatureKey f -> replaces (Some g) f = true) as Hg.
  { intros g Hg E. apply replaces_spec. right. apply Hmax; [rewrite Hl0; by right|done]. }
  destruct (replaces (m !! FeatureKey f) f) eqn:Er.
  - pose proof (foldl_store_lookup l0 m (FeatureKey f)) as Hk.
    destruct (foldl store m l0 !! FeatureKey f) as [x|].
    + destruct Hk as [[Hx Ex]|[<- _]]; [by rewrite (Hg x Hx Ex)|by rewrite Er].
    + destruct Hk as [Hk _]. by rewrite Hk in Er.
  - destruct (m !! FeatureKey f) as [c|] eqn:Ec; [|done].
    rewrite (foldl_store_kept l0 m (FeatureKey f) c); [by rewrite Er|done|].
    intros g Hin E. destruct (orderly_head _ _ _ Ho0 Hin (eq_sym E)) as [Hid _].
    pose proof (Hmax g ltac:(rewrite Hl0; by right) E) as Hle.
    cbn [replaces] in *. apply orb_false_iff in Er as [Er1 Er2%Z.leb_gt].
    rewrite (identity_same_id c _ _ Hid) in Er1. rewrite Er1. apply Z.leb_gt. lia.
Qed.

(** After a features event the repository holds exactly the keys of the
    event; a key holds a feature of the event or, when the event is stale for
    it, the feature it had.  No event of any kind takes a feature back to an
    older version of the same identity, and a delete event spares a feature
    only when that has another identity or is newer. *)
Theorem full_set_exact states m :
  (forall k, is_Some (full_set states m !! k) <-> exists f, Some f ∈ states /\ FeatureKey f = k /\ k <> EmptyString) /\
  (forall k f, full_set states m !! k = Some f ->
     (Some f ∈ states /\ FeatureKey f = k) \/
     (m !! k = Some f /\ forall g, Some g ∈ states -> FeatureKey g = k -> ~ newer_or_other f g)) /\
  (forall u k old new, m !! k = Some old -> update_features u m !! k = Some new -> rtc newer_or_other old new) /\
  (forall f c, delete_feature m f !! FeatureKey f = Some c <->
     m !! FeatureKey f = Some c /\
     (featureIdentityChanged c f = true \/
      exists v, Version f = Some v /\ v <> 0%Z /\ (v < featureVersion (Some c))%Z)).
Proof.
  assert (forall k, k ∈ FeatureKey <$> usable states <-> exists f, Some f ∈ states /\ FeatureKey f = k /\ k <> EmptyString) as Hkeys.
  { intros k. rewrite list_elem_of_fmap. setoid_rewrite elem_of_usable.
    split; intros (f & ?); exists f; naive_solver. }
  split_and!.
  - intros k. rewrite <-Hkeys. unfold full_set. split.
    + intros [f [_ Hin]%map_lookup_filter_Some]. done.
    + intros Hin. pose proof (foldl_store_lookup (usable states) m k) as Hl.
      destruct (foldl store m (usable states) !! k) as [f|] eqn:E.
      * exists f. by apply map_lookup_filter_Some.
      * destruct Hl as [_ Hl]. apply list_elem_of_fmap in Hin as (g & -> & Hg). by destruct (Hl g).
  - intros k f [Hf Hin]%map_lookup_filter_Some. cbn in Hin.
    pose proof (foldl_store_lookup (usable states) m k) as Hl. rewrite Hf in Hl.
    destruct Hl as [[[Hu _]%elem_of_usable Ek]|[Hm Hl]]; [by left|]. right. split; [done|].
    intros g Hg Ek Hnew%replaces_spec.
    apply Hkeys in Hin as (_ & _ & _ & Hne). rewrite Hl in Hnew; [done|apply elem_of_usable; by subst|done].
  - intros [states'|f|f] k old new Hm; cbn [update_features].
    + intros [Hn _]%map_lookup_filter_Some. by eapply foldl_store_forward.
    + intros Hn. by eapply (foldl_store_forward [f]).
    + unfold delete_feature. destruct (deletes _ _); rewrite ?lookup_delete_Some, Hm; [intros [_ [= <-]]|intros [= <-]]; done.
  - intros f c. rewrite delete_feature_lookup. destruct (m !! FeatureKey f) as [c'|]; [|naive_solver].
    destruct (deletes (Some c') f) eqn:Ed; split.
    + done.
    + intros [[= ->] Hs]. apply spares_spec in Hs. congruence.
    + intros [= ->]. split; [done|]. by apply spares_spec.
    + by intros [[= ->] _].
Qed.
End repository.
Arguments repository : clear implicits.
Arguments update : clear implicits.

(** ** Samples *)

Definition sample (id : string) (version : Z) (value : string) : featureState string :=
  MkFeature id "colour" false (Some version) "STRING" value [].

Example stale_update : store (store ∅ (sample "a" 3 "red")) (sample "a" 2 "blue") = {["colour" := sample "a" 3 "red"]}.
Proof. reflexivity. Qed.
Example recreated : store (store ∅ (sample "a" 3 "red")) (sample "b" 1 "blue") = {["colour" := sample "b" 1 "blue"]}.
Proof. reflexivity. Qed.

Lemma feature_events_any_order_witness :
  let l := [sample "a" 3 "red"; sample "a" 2 "blue"] in
  foldl store ∅ l = foldl store ∅ (reverse l) /\
  foldl store ∅ l !! "colour" = Some (sample "a" 3 "red").
Proof.
  cbn zeta. set (l := [_; _]).
  assert (orderly l) as Ho.
  { split; [by apply (bool_decide_unpack _); vm_compute|].
    intros f g Hf%list_elem_of_In Hg%list_elem_of_In _. cbn in Hf, Hg.
    destruct Hf as [<-|[<-|[]]], Hg as [<-|[<-|[]]]; reflexivity. }
  destruct (feature_events_any_order ∅ l (reverse l) Ho (symmetry (reverse_Permutation l))) as [H1 H2].
  split; [exact H1|]. apply (H2 (sample "a" 3 "red")); [by left|].
  intros g Hg%list_elem_of_In _. cbn in Hg. destruct Hg as [<-|[<-|[]]]; vm_compute; congruence.
Defined.
