(* ===== verification/FeatureSSE.v ===== *)
(** * package feature, server-sent events

    The line scanner and the event builder of feature/sse.go, and the loop of
    consumeStream that feeds one with the other.  The bufio.Scanner under the
    split function is modelled as the code uses it: it hands the split function
    what it holds, drops what the function says it used, and reads more when
    there is no token.  A read returns what it returns: the bytes of a stream
    come in any pieces. *)

From S2P Require Import Prelude.
From S2P Require Import GoStrings.

Definition LF : ascii := ascii_of_nat 10.
Definition CR : ascii := ascii_of_nat 13.
Definition bom : string :=
  String (ascii_of_nat 239) (String (ascii_of_nat 187) (String (ascii_of_nat 191) EmptyString)).
Definition maxSSEEventSize : Z := 16 * 2 ^ 20.

Definition len (s : string) : Z := Z.of_nat (String.length s).

(** ** Lines *)

(** The variables the split function closes over. *)
Record framing := MkFraming { leading : bool; skipLF : bool }.

Definition is_end (c : ascii) : bool := Ascii.eqb c LF || Ascii.eqb c CR.

(** The loop over the data: the text before the first end of line, whether that
    is a CR, and what follows. *)
Fixpoint find_end (data : string) : option (string * bool * string) :=
  match data with
  | EmptyString => None
  | String c r =>
      if Ascii.eqb c LF then Some (EmptyString, false, r)
      else if Ascii.eqb c CR then Some (EmptyString, true, r)
      else match find_end r with
           | Some (t, cr, rest) => Some (String c t, cr, rest)
           | None => None
           end
  end.

Definition drop_lf (s : string) : string :=
  match s with
  | String c r => if Ascii.eqb c LF then r else s
  | EmptyString => EmptyString
  end.

Definition is_empty (s : string) : bool := match s with EmptyString => true | _ => false end.

(** The split function: the token, and the data it does not advance over. *)
Definition split_line (s : framing) (data : string) (atEOF : bool) : framing * option string * string :=
  if is_empty data then (s, None, EmptyString)
  else if leading s && (len data <? len bom)%Z && has_prefix data bom && negb atEOF then (s, None, data)
  else
    let data := if leading s then trim_prefix bom data else data in
    let skips := skipLF s && negb (is_empty data) in
    let data := if skips then drop_lf data else data in
    let skip := skipLF s && negb skips in
    if is_empty data then (MkFraming false skip, None, EmptyString)
    else
      match find_end data with
      | Some (t, cr, rest) => (MkFraming false (cr || skip), Some t, rest)
      | None => if atEOF then (MkFraming false skip, Some data, EmptyString)
                else (MkFraming false skip, None, data)
      end.

(** Scan until there is no token; every token takes a byte, so the length of
    the data is fuel enough. *)
Fixpoint drain (fuel : nat) (s : framing) (data : string) (atEOF : bool) : list string * framing * string :=
  match fuel with
  | O => ([], s, data)
  | S fuel =>
      match split_line s data atEOF with
      | (s', Some t, rest) => let '(ts, s'', p) := drain fuel s' rest atEOF in (t :: ts, s'', p)
      | (s', None, rest) => ([], s', rest)
      end
  end.

Definition drain_all (s : framing) (data : string) (atEOF : bool) : list string * framing * string :=
  drain (S (String.length data)) s data atEOF.

(** bufio.ErrTooLong *)
Inductive scan_error := TooLong.

(** The scanner from a state and the data it holds: [reads] are what the next
    reads return, [final] the bytes that come with the error that ends the
    stream.  A buffer that is full without a token is an error. *)
Fixpoint scan (s : framing) (held : string) (reads : list string) (final : string) : list string * option scan_error :=
  if (maxSSEEventSize <=? len held)%Z then ([], Some TooLong)
  else
    match reads with
    | [] => ((drain_all s (held +:+ final) true).1.1, None)
    | c :: reads =>
        let '(ts, s', p) := drain_all s (held +:+ c) false in
        let (ts', e) := scan s' p reads final in
        (ts ++ ts', e)
    end.

Definition newFeatureSSEScanner (reads : list string) (final : string) : list string * option scan_error :=
  scan (MkFraming true false) EmptyString reads final.

(** ** Events *)

Record featureSSEEvent := MkEvent {
  event_name : string;
  event_data : string;
  event_bytes : Z;
  event_dataLines : Z
}.

Definition no_event : featureSSEEvent := MkEvent EmptyString EmptyString 0 0.

(** errFeatureSSEEventTooLarge *)
Inductive event_error := EventTooLarge.

Definition appendLine (line : string) (e : featureSSEEvent) : result event_error featureSSEEvent :=
  if has_prefix ":" line then Ok e
  else if (maxSSEEventSize - event_bytes e <=? len line)%Z then Err EventTooLarge
  else
    let bytes := (event_bytes e + (len line + 1))%Z in
    let (field, value) := match cut ":" line with
                          | Some (field, value) => (field, trim_prefix " " value)
                          | None => (line, EmptyString)
                          end in
    if String.eqb field "event" then Ok (MkEvent value (event_data e) bytes (event_dataLines e))
    else if String.eqb field "data" then
      Ok (MkEvent (event_name e)
            (event_data e +:+ (if (0 <? event_dataLines e)%Z then String LF value else value))
            bytes (event_dataLines e + 1))
    else Ok (MkEvent (event_name e) (event_data e) bytes (event_dataLines e)).

(** featureSSEEvent.empty *)
Definition event_empty (e : featureSSEEvent) : bool :=
  String.eqb (event_name e) EmptyString && (event_dataLines e =? 0)%Z.

(** What stops the loop before the lines end: a line that is too much, or the
    error of handleEvent. *)
Inductive stop {E : Type} := BadLine (err : event_error) | Refused (err : E).
Arguments stop : clear implicits.

Section loop.
(** The error of handleEvent for an event's name and data. *)
Context {E : Type} (handle : string -> string -> option E).

(** The loop of consumeStream over the lines: the events it hands to
    handleEvent, and what stops it.  An event that handleEvent refuses is the
    last one; one that is not ended by an empty line is dropped. *)
Fixpoint dispatched (e : featureSSEEvent) (lines : list string) : list (string * string) * option (stop E) :=
  match lines with
  | [] => ([], None)
  | line :: lines =>
      if is_empty line then
        if event_empty e then dispatched no_event lines
        else
          match handle (event_name e) (event_data e) with
          | Some err => ([(event_name e, event_data e)], Some (Refused err))
          | None => let (l, err) := dispatched no_event lines in ((event_name e, event_data e) :: l, err)
          end
      else
        match appendLine line e with
        | Ok e => dispatched e lines
        | Err err => ([], Some (BadLine err))
        end
  end.

(** Events handed over one by one until one is refused. *)
Fixpoint handed (events : list (string * string)) : list (string * string) * option (stop E) :=
  match events with
  | [] => ([], None)
  | event :: events =>
      match handle event.1 event.2 with
      | Some err => ([event], Some (Refused err))
      | None => let (l, err) := handed events in (event :: l, err)
      end
  end.
End loop.

(** ** The lines of a text *)

(** A text is cut at every LF, CR and CR LF; what follows the last of them is
    a line when it is not empty. *)
Fixpoint text_lines (s : string) : list string :=
  match s with
  | EmptyString => []
  | String c r =>
      if Ascii.eqb c LF then EmptyString :: text_lines r
      else if Ascii.eqb c CR then
        EmptyString :: match r with
                       | String d r' => if Ascii.eqb d LF then text_lines r' else text_lines r
                       | EmptyString => []
                       end
      else match text_lines r with
           | l :: ls => String c l :: ls
           | [] => [String c EmptyString]
           end
  end.

(** What is left of a text in a state of the split function. *)
Definition left_of (s : framing) (t : string) : string :=
  let t := if leading s then trim_prefix bom t else t in
  if skipLF s then drop_lf t else t.

Lemma is_empty_true s : is_empty s = true -> s = EmptyString.
Proof. by destruct s. Qed.

Lemma is_end_false c : is_end c = false -> Ascii.eqb c LF = false /\ Ascii.eqb c CR = false.
Proof. unfold is_end. by rewrite orb_false_iff. Qed.

Lemma find_end_some data t cr rest f :
  find_end data = Some (t, cr, rest) ->
  text_lines (data +:+ f) = t :: text_lines (if cr then drop_lf (rest +:+ f) else rest +:+ f) /\
  String.length rest < String.length data.
Proof.
  revert t. induction data as [|c r IH]; intros t; cbn [find_end String.append text_lines]; [done|].
  destruct (Ascii.eqb c LF) eqn:E1; [intros [= <- <- <-]; split; [done|cbn; lia]|].
  destruct (Ascii.eqb c CR) eqn:E2.
  - intros [= <- <- <-]. split; [|cbn; lia]. by destruct (r +:+ f) as [|d x]; [|cbn [drop_lf]; destruct (Ascii.eqb d LF)].
  - destruct (find_end r) as [[[t' cr'] rest']|]; [|done]. intros [= <- -> ->].
    destruct (IH t' eq_refl) as [-> Hl]. split; [done|cbn; lia].
Qed.

Lemma find_end_none data : find_end data = None -> data <> EmptyString -> text_lines data = [data].
Proof.
  induction data as [|c r IH]; cbn [find_end text_lines]; [done|]. intros H _.
  destruct (Ascii.eqb c LF); [done|]. destruct (Ascii.eqb c CR); [done|].
  destruct (find_end r) as [[[]]|] eqn:E; [done|]. destruct r as [|d r]; [done|]. by rewrite IH.
Qed.

(** Text without an end of line begins a line. *)
Lemma find_end_none_line data f :
  find_end data = None -> data <> EmptyString ->
  exists l, l ∈ text_lines (data +:+ f) /\ String.length data <= String.length l.
Proof.
  intros H Hne. enough (exists l ls, text_lines (data +:+ f) = l :: ls /\ String.length data <= String.length l) as (l & ls & -> & ?).
  { exists l. split; [by left|done]. }
  revert H Hne. induction data as [|c r IH]; cbn [find_end text_lines String.append]; [done|]. intros H _.
  destruct (Ascii.eqb c LF); [done|]. destruct (Ascii.eqb c CR); [done|].
  destruct (find_end r) as [[[]]|] eqn:E; [done|]. destruct r as [|d r].
  - cbn [String.append]. destruct (text_lines f); do 2 eexists; (split; [reflexivity|cbn; lia]).
  - destruct IH as (l & ls & -> & ?); [done..|]. do 2 eexists. split; [reflexivity|]. cbn in *. lia.
Qed.

Lemma trim_bom_app data f :
  data <> EmptyString -> (len data <? len bom)%Z && has_prefix data bom = false ->
  trim_prefix bom (data +:+ f) = trim_prefix bom data +:+ f.
Proof.
  intros Hne H. unfold trim_prefix. destruct data as [|a [|b [|c r]]]; [done|..];
    cbn [has_prefix bom String.append len String.length] in *; unfold len in H; cbn in H;
    repeat match goal with |- context [Ascii.eqb ?x ?y] => destruct (Ascii.eqb_spec x y); subst; cbn in *; try done end.
Qed.

Lemma drop_lf_app x f : x <> EmptyString -> drop_lf (x +:+ f) = drop_lf x +:+ f.
Proof. destruct x; [done|]. intros _. cbn. by destruct (Ascii.eqb _ _). Qed.

Lemma drop_lf_length x : String.length (drop_lf x) <= String.length x.
Proof. destruct x as [|c x]; [done|]. cbn [drop_lf]. destruct (Ascii.eqb c LF); cbn; lia. Qed.

Lemma trim_bom_length x : String.length (trim_prefix bom x) <= String.length x.
Proof.
  unfold trim_prefix. destruct (has_prefix bom x) eqn:E; [|done].
  apply has_prefix_spec in E as [r ->]. rewrite str_drop_app, slength_app. lia.
Qed.

(** What is held when there is no token: less than a mark, or the start of a
    line. *)
Definition waiting (s : framing) (held : string) : Prop :=
  held = EmptyString \/
  (leading s = true /\ (len held < len bom)%Z) \/
  (leading s = false /\ skipLF s = false /\ find_end held = None).

(** The data after the mark and after the LF of a CR LF that was cut in two. *)
Lemma split_line_step s data atEOF f :
  let '(s', tok, rest) := split_line s data atEOF in
  (atEOF = true -> f = EmptyString) ->
  match tok with
  | Some t => text_lines (left_of s (data +:+ f)) = t :: text_lines (left_of s' (rest +:+ f)) /\
              String.length rest < String.length data
  | None => left_of s (data +:+ f) = left_of s' (rest +:+ f) /\ waiting s' rest /\
            (atEOF = true -> rest = EmptyString /\ left_of s data = EmptyString)
  end.
Proof.
  unfold split_line. destruct (is_empty data) eqn:Ed.
  { apply is_empty_true in Ed as ->. intros _. split_and!; [done|by left|]. intros _. split; [done|].
    unfold left_of. by destruct (leading s), (skipLF s). }
  destruct (leading s && _ && _ && _) eqn:Em.
  { intros _. bool_hyps. split_and!; [done| |by intros ->].
    right; left. split; [done|by apply Z.ltb_lt]. }
  set (x := if leading s then trim_prefix bom data else data).
  assert ((atEOF = true -> f = EmptyString) -> (if leading s then trim_prefix bom (data +:+ f) else data +:+ f) = x +:+ f) as Hx.
  { intros Hf. subst x. destruct (leading s); [|done]. destruct atEOF.
    - rewrite Hf by done. by rewrite !sapp_nil_r.
    - apply trim_bom_app; [by destruct data|]. by rewrite andb_true_r in Em. }
  assert (String.length x <= String.length data) as Hlx by (subst x; destruct (leading s); [apply trim_bom_length|done]).
  clearbody x. set (skips := skipLF s && negb (is_empty x)). set (y := if skips then drop_lf x else x).
  set (skip := skipLF s && negb skips).
  assert ((atEOF = true -> f = EmptyString) -> left_of s (data +:+ f) = left_of (MkFraming false skip) (y +:+ f)) as Hy.
  { intros Hf. unfold left_of. rewrite (Hx Hf). subst skip y skips. cbn [leading skipLF].
    destruct (skipLF s); [|done]. cbn [andb]. destruct (is_empty x) eqn:Ex; cbn [negb andb]; [done|].
    rewrite drop_lf_app; [done|by destruct x]. }
  assert (String.length y <= String.length x) as Hly by (subst y; destruct skips; [apply drop_lf_length|done]).
  assert (y <> EmptyString -> skip = false) as Hs.
  { subst y skip skips. destruct (skipLF s); [|done]. by destruct x. }
  clearbody y skip skips. destruct (is_empty y) eqn:Ey.
  { apply is_empty_true in Ey as ->. intros Hf. split_and!; [by apply Hy|by left|]. intros ->.
    split; [done|]. rewrite (Hf eq_refl), !sapp_nil_r in Hy. rewrite Hy by done. unfold left_of. by destruct skip. }
  assert (y <> EmptyString) as Hne by (by destruct y). rewrite (Hs Hne) in *.
  destruct (find_end y) as [[[t cr] rest]|] eqn:Ef.
  - intros Hf. destruct (find_end_some _ _ _ _ f Ef) as [Ht Hl]. split; [|lia].
    rewrite (Hy Hf). unfold left_of at 1. cbn [leading skipLF]. rewrite Ht, orb_false_r. unfold left_of. by destruct cr.
  - destruct atEOF; intros Hf.
    + split; [|destruct data; [done|]; cbn; lia]. rewrite (Hy Hf), (Hf eq_refl). rewrite !sapp_nil_r. unfold left_of. cbn.
      by apply find_end_none.
    + split_and!; [by apply Hy| |done]. right; right. done.
Qed.

Lemma drain_spec fuel s data atEOF f :
  String.length data < fuel -> (atEOF = true -> f = EmptyString) ->
  let '(ts, s', p) := drain fuel s data atEOF in
  text_lines (left_of s (data +:+ f)) = ts ++ text_lines (left_of s' (p +:+ f)) /\ waiting s' p /\
  (atEOF = true -> p = EmptyString /\ text_lines (left_of s' p) = []).
Proof.
  revert s data. induction fuel as [|fuel IH]; intros s data Hl Hf; [lia|]. cbn [drain].
  pose proof (split_line_step s data atEOF f) as Hstep.
  destruct (split_line s data atEOF) as [[s' [t|]] rest] eqn:Es; specialize (Hstep Hf).
  - destruct Hstep as [Ht Hlen]. specialize (IH s' rest ltac:(lia) Hf).
    destruct (drain fuel s' rest atEOF) as [[ts s''] p]. destruct IH as (IH & Hw & He).
    split_and!; [by rewrite Ht, IH|done|done].
  - destruct Hstep as (-> & Hw & He). split_and!; [done|done|].
    intros Ht. destruct (He Ht) as [-> _]. split; [done|]. unfold left_of.
    by destruct (leading s'), (skipLF s').
Qed.

(** What is held is part of a line. *)
Lemma waiting_short s held f :
  waiting s held -> Forall (fun l => len l < maxSSEEventSize)%Z (text_lines (left_of s (held +:+ f))) ->
  (len held < maxSSEEventSize)%Z.
Proof.
  intros [->|[[_ H]|(Hl & Hs & Hn)]] Hall.
  - done.
  - unfold len in *. cbn in H. unfold maxSSEEventSize. lia.
  - destruct held as [|c r] eqn:E; [done|]. rewrite <-E in *. unfold left_of in Hall. rewrite Hl, Hs in Hall.
    destruct (find_end_none_line _ f Hn) as (l & Hin & Hlen); [by subst|].
    rewrite Forall_forall in Hall. specialize (Hall l Hin). unfold len in *. cbn in Hall. lia.
Qed.

Definition short_lines (lines : list string) : Prop := Forall (fun l => len l < maxSSEEventSize)%Z lines.

(** What the reads bring, put together. *)
Definition stream_of (reads : list string) (final : string) : string := foldr String.append final reads.

Lemma scan_lines s held reads final :
  waiting s held -> short_lines (text_lines (left_of s (held +:+ stream_of reads final))) ->
  scan s held reads final = (text_lines (left_of s (held +:+ stream_of reads final)), None).
Proof.
  revert s held. induction reads as [|c reads IH]; intros s held Hw Hs; cbn [scan stream_of foldr] in *;
    rewrite (proj2 (Z.leb_gt _ _) (waiting_short _ _ _ Hw Hs)); unfold drain_all.
  - pose proof (drain_spec (S (String.length (held +:+ final))) s (held +:+ final) true EmptyString ltac:(lia) ltac:(done)) as Hd.
    destruct (drain _ _ _ _) as [[ts s'] p]. rewrite !sapp_nil_r in Hd. destruct Hd as (Hd & _ & He).
    destruct (He eq_refl) as [_ Hp]. by rewrite Hd, Hp, app_nil_r.
  - pose proof (drain_spec (S (String.length (held +:+ c))) s (held +:+ c) false (stream_of reads final) ltac:(lia) ltac:(done)) as Hd.
    destruct (drain _ _ _ _) as [[ts s'] p]. destruct Hd as (Hd & Hw' & _). rewrite sapp_assoc in Hd.
    unfold short_lines in Hs. unfold stream_of in *. rewrite Hd in Hs |- *. apply Forall_app in Hs as [_ Hs].
    by rewrite (IH s' p Hw' Hs).
Qed.

(** ** Delivery *)

(** An event as a server writes it: its name, its data by lines, and the end
    of line it uses. *)
Record written := MkWritten { w_name : string; w_lines : list string }.

Definition plain_text (s : string) : bool := str_forallb (fun c => negb (is_end c)) s.

Definition is_eol (eol : string) : Prop := eol = String LF EmptyString \/ eol = String CR EmptyString \/ eol = String CR (String LF EmptyString).

Definition written_lines (w : written) : list string :=
  ("event: " +:+ w_name w) :: (String.append "data: " <$> w_lines w) ++ [EmptyString].

Definition write_lines (eol : string) (lines : list string) : string :=
  foldr (fun l t => l +:+ eol +:+ t) EmptyString lines.

Definition write_events (eol : string) (l : list written) : string := write_lines eol (flat_map written_lines l).

(** An event within the limits of the client: its texts have no end of line,
    and its lines are smaller than an event may be. *)
Definition sendable (w : written) : Prop :=
  w_name w <> EmptyString /\ plain_text (w_name w) = true /\ Forall (fun l => plain_text l = true) (w_lines w) /\
  (foldr (fun l n => len l + 1 + n)%Z 0%Z (written_lines w) <= maxSSEEventSize)%Z.

(** What the application of the stream is given. *)
Definition event_of (w : written) : string * string := (w_name w, join (String LF EmptyString) (w_lines w)).

Lemma text_lines_line l eol t :
  plain_text l = true -> is_eol eol -> (eol = String CR EmptyString -> drop_lf t = t) ->
  text_lines (l +:+ eol +:+ t) = l :: text_lines t.
Proof.
  intros Hl He Ht. induction l as [|c l IH]; cbn [String.append].
  - destruct He as [->|[->| ->]]; [done| |done]. cbn [String.append text_lines]. specialize (Ht eq_refl).
    destruct t as [|d t]; [done|]. cbn [drop_lf] in Ht. cbn.
    destruct (Ascii.eqb d LF); [|done]. apply (f_equal String.length) in Ht. cbn in Ht. lia.
  - cbn in Hl. apply andb_true_iff in Hl as [Hc%negb_true_iff Hl]. apply is_end_false in Hc as [H1 H2].
    cbn [text_lines]. by rewrite H1, H2, (IH Hl).
Qed.

Lemma drop_lf_plain l t : plain_text l = true -> drop_lf t = t -> drop_lf (l +:+ t) = l +:+ t.
Proof.
  destruct l as [|c l]; [done|]. cbn. intros [Hc%negb_true_iff _]%andb_true_iff _.
  by apply is_end_false in Hc as [-> _].
Qed.

Lemma text_lines_written eol lines :
  Forall (fun l => plain_text l = true) lines -> is_eol eol -> text_lines (write_lines eol lines) = lines.
Proof.
  intros Hl He. induction Hl as [|l lines Hp Hl IH]; [done|].
  change (write_lines eol (l :: lines)) with (l +:+ eol +:+ write_lines eol lines).
  rewrite text_lines_line; [by rewrite IH|done|done|]. intros ->. destruct Hl as [|x lines Hx Hl]; [done|].
  cbn. by apply drop_lf_plain.
Qed.

Lemma str_forallb_lit p a b : str_forallb p a = true -> str_forallb p b = true -> str_forallb p (a +:+ b) = true.
Proof. intros H1 H2. by rewrite str_forallb_app, H1, H2. Qed.

Lemma written_lines_plain w : sendable w -> Forall (fun l => plain_text l = true) (written_lines w).
Proof.
  intros (_ & Hn & Hl & _). constructor; [by apply str_forallb_lit|]. apply Forall_app. split; [|by constructor].
  apply Forall_fmap. eapply Forall_impl; [exact Hl|]. intros l ?. by apply str_forallb_lit.
Qed.

Lemma len_nonneg s : (0 <= len s)%Z.
Proof. unfold len. lia. Qed.

Definition size_of (lines : list string) : Z := foldr (fun l n => len l + 1 + n)%Z 0%Z lines.

Lemma size_of_cons l lines : size_of (l :: lines) = (len l + 1 + size_of lines)%Z.
Proof. done. Qed.

Lemma size_of_nonneg lines : (0 <= size_of lines)%Z.
Proof. induction lines as [|l lines IH]; [done|]. rewrite size_of_cons. pose proof (len_nonneg l). lia. Qed.

Lemma size_of_short l lines : l ∈ lines -> (len l < size_of lines)%Z.
Proof.
  induction lines as [|x lines IH]; [by intros ?%elem_of_nil|]. rewrite size_of_cons.
  pose proof (size_of_nonneg lines). pose proof (len_nonneg x).
  intros [->|Hin]%elem_of_cons; [lia|]. specialize (IH Hin). lia.
Qed.

(** The data lines of an event, from its second on. *)
Definition more_data (ls : list string) : string := foldr (fun l t => String LF (l +:+ t)) EmptyString ls.

Lemma join_more_data a ls : join (String LF EmptyString) (a :: ls) = a +:+ more_data ls.
Proof.
  revert a. induction ls as [|b ls IH]; intros a; [by rewrite sapp_nil_r|].
  change (join (String LF EmptyString) (a :: b :: ls)) with (a +:+ String LF EmptyString +:+ join (String LF EmptyString) (b :: ls)).
  by rewrite IH.
Qed.

Lemma append_data l e :
  (event_bytes e + len ("data: " +:+ l) < maxSSEEventSize)%Z ->
  appendLine ("data: " +:+ l) e =
  Ok (MkEvent (event_name e) (event_data e +:+ (if (0 <? event_dataLines e)%Z then String LF l else l))
        (event_bytes e + (len ("data: " +:+ l) + 1)) (event_dataLines e + 1)).
Proof.
  intros H. unfold appendLine. change (has_prefix ":" ("data: " +:+ l)) with false. cbv match.
  destruct (Z.leb_spec (maxSSEEventSize - event_bytes e) (len ("data: " +:+ l))); [lia|]. reflexivity.
Qed.

Section deliver.
Context {E : Type} (handle : string -> string -> option E).

Lemma dispatched_data ls e rest :
  event_name e <> EmptyString -> (0 < event_dataLines e)%Z ->
  (event_bytes e + size_of (String.append "data: " <$> ls) < maxSSEEventSize)%Z ->
  dispatched handle e ((String.append "data: " <$> ls) ++ EmptyString :: rest) =
  let event := (event_name e, event_data e +:+ more_data ls) in
  match handle event.1 event.2 with
  | Some err => ([event], Some (Refused err))
  | None => let (l, err) := dispatched handle no_event rest in (event :: l, err)
  end.
Proof.
  revert e. induction ls as [|l ls IH]; intros e Hn Hd Hs.
  - cbn [fmap list_fmap app dispatched is_empty]. unfold event_empty.
    destruct (String.eqb_spec (event_name e) EmptyString); [done|]. cbn [andb]. cbn. by rewrite sapp_nil_r.
  - rewrite fmap_cons in *. rewrite size_of_cons in Hs. pose proof (size_of_nonneg (String.append "data: " <$> ls)).
    cbn [app dispatched]. change (is_empty ("data: " +:+ l)) with false. cbv match. rewrite append_data by lia.
    rewrite (proj2 (Z.ltb_lt _ _) Hd), IH by (cbn [event_name event_dataLines event_bytes]; done || lia).
    cbn [event_name event_data more_data foldr]. by rewrite sapp_assoc.
Qed.

Lemma dispatched_event w rest :
  sendable w ->
  dispatched handle no_event (written_lines w ++ rest) =
  match handle (event_of w).1 (event_of w).2 with
  | Some err => ([event_of w], Some (Refused err))
  | None => let (l, err) := dispatched handle no_event rest in (event_of w :: l, err)
  end.
Proof.
  intros (Hn & _ & _ & Hs). fold (size_of (written_lines w)) in Hs. unfold written_lines in *.
  rewrite size_of_cons in Hs. cbn [app dispatched]. change (is_empty ("event: " +:+ w_name w)) with false. cbv match.
  pose proof (size_of_nonneg ((String.append "data: " <$> w_lines w) ++ [EmptyString])).
  assert (appendLine ("event: " +:+ w_name w) no_event =
          Ok (MkEvent (w_name w) EmptyString (len ("event: " +:+ w_name w) + 1) 0)) as ->.
  { unfold appendLine. change (has_prefix ":" ("event: " +:+ w_name w)) with false. cbv match.
    destruct (Z.leb_spec (maxSSEEventSize - event_bytes no_event) (len ("event: " +:+ w_name w))); [cbn in *; lia|].
    reflexivity. }
  rewrite <-app_assoc. unfold event_of. destruct (w_lines w) as [|a ls].
  - cbn [fmap list_fmap app dispatched is_empty]. unfold event_empty. cbn [event_name].
    by destruct (String.eqb_spec (w_name w) EmptyString).
  - rewrite fmap_cons in *. cbn [app] in *. rewrite size_of_cons in Hs. cbn [dispatched].
    change (is_empty ("data: " +:+ a)) with false. cbv match.
    assert (forall x y, size_of (x ++ y) = size_of x + size_of y)%Z as Happ.
    { intros x y. induction x as [|z x IHx]; [done|]. cbn [app]. rewrite !size_of_cons, IHx. lia. }
    rewrite Happ in Hs. change (size_of [EmptyString]) with 1%Z in Hs.
    pose proof (size_of_nonneg (String.append "data: " <$> ls)). pose proof (len_nonneg ("data: " +:+ a)).
    rewrite append_data by (cbn [event_bytes]; lia). cbn [event_name event_data event_bytes event_dataLines].
    change (0 <? 0)%Z with false. cbv match. change (EmptyString +:+ a) with a.
    rewrite (dispatched_data ls) by (cbn [event_name event_dataLines event_bytes]; done || lia).
    cbn [event_name event_data]. by rewrite join_more_data.
Qed.

Lemma dispatched_events l :
  Forall sendable l -> dispatched handle no_event (flat_map written_lines l) = handed handle (event_of <$> l).
Proof.
  induction 1 as [|w l Hw Hl IH]; [done|]. cbn [flat_map]. by rewrite dispatched_event, IH.
Qed.
End deliver.

(** Whatever pieces the connection delivers the stream in -- a CR LF or the
    byte-order mark cut in two included -- the scanner hands out the lines of
    the text, as long as they fit its buffer. *)
Theorem scanner_ignores_pieces reads final :
  short_lines (text_lines (trim_prefix bom (stream_of reads final))) ->
  newFeatureSSEScanner reads final = (text_lines (trim_prefix bom (stream_of reads final)), None).
Proof. intros Hs. apply (scan_lines (MkFraming true false) EmptyString reads final); [by left|done]. Qed.

(** A stream of events is handed on as it was sent, whichever end of line the
    server uses, with or without a byte-order mark and in whatever pieces it
    arrives, up to the first event that is refused, provided each event fits
    the limit of 16 MiB. *)
Lemma events_handed {E} (handle : string -> string -> option E) l eol (mark : bool) reads final :
  Forall sendable l -> is_eol eol ->
  stream_of reads final = (if mark then bom else EmptyString) +:+ write_events eol l ->
  exists lines, newFeatureSSEScanner reads final = (lines, None) /\
                dispatched handle no_event lines = handed handle (event_of <$> l).
Proof.
  intros Hl He Hst.
  assert (trim_prefix bom (stream_of reads final) = write_events eol l) as Ht.
  { rewrite Hst. destruct mark.
    - unfold trim_prefix. by rewrite has_prefix_app, str_drop_app.
    - destruct l; [done|]. by destruct He as [->|[->| ->]]. }
  assert (Forall (fun t => plain_text t = true) (flat_map written_lines l)) as Hp.
  { clear -Hl. induction Hl as [|w l Hw Hl IH]; [done|]. cbn [flat_map]. apply Forall_app. split; [by apply written_lines_plain|done]. }
  exists (flat_map written_lines l). split; [|by apply dispatched_events].
  pose proof (scan_lines (MkFraming true false) EmptyString reads final) as Hsc.
  change (left_of (MkFraming true false) (EmptyString +:+ stream_of reads final)) with (trim_prefix bom (stream_of reads final)) in Hsc.
  rewrite Ht in Hsc.
  unfold write_events in Hsc. rewrite text_lines_written in Hsc by done. apply Hsc; [by left|].
  apply Forall_forall. intros t Hin. clear -Hl Hin. induction Hl as [|w l Hw Hl IH]; [by apply elem_of_nil in Hin|].
  cbn [flat_map] in Hin. apply elem_of_app in Hin as [Hin|Hin]; [|by apply IH]. destruct Hw as (_ & _ & _ & Hs).
  apply size_of_short in Hin. fold (size_of (written_lines w)) in Hs. lia.
Qed.

(** ** Samples *)

Definition crlf : string := String CR (String LF EmptyString).

(** The CR LF that ends the first line comes in two reads, and so does the
    mark. *)
Definition sample_reads : list string :=
  [String (ascii_of_nat 239) EmptyString;
   String (ascii_of_nat 187) (String (ascii_of_nat 191) ("event: features" +:+ String CR EmptyString));
   String LF "data: [";
   "1]" +:+ crlf +:+ "data: x" +:+ crlf +:+ crlf +:+ "event: bye"].

Example sample_lines :
  newFeatureSSEScanner sample_reads EmptyString = (["event: features"; "data: [1]"; "data: x"; EmptyString; "event: bye"], None).
Proof. vm_compute. reflexivity. Qed.

Example sample_events :
  dispatched (fun _ _ => @None unit) no_event (newFeatureSSEScanner sample_reads EmptyString).1 =
  ([("features", "[1]" +:+ String LF "x")], None).
Proof. vm_compute. reflexivity. Qed.

Lemma scanner_ignores_pieces_witness :
  newFeatureSSEScanner sample_reads EmptyString = (["event: features"; "data: [1]"; "data: x"; EmptyString; "event: bye"], None).
Proof.
  rewrite (scanner_ignores_pieces sample_reads EmptyString); [vm_compute; reflexivity|].
  unfold short_lines. apply (bool_decide_unpack _). vm_compute. reflexivity.
Defined.
