(* ===== verification/FeatureStream.v ===== *)
(** * package feature, what a stream tells and how long to wait

    handleEvent and consumeStream -- one request of the stream, from its
    response to its error --, the delays between two requests (staleDelay,
    retryDelay, retryDelayForAttempt, equalRetryJitter, featureRetryAfter) and
    the permanent statuses of feature/flags.go.  Durations are nanoseconds, numbers
    of JSON are binary64 floats as SpecFloat defines them, and the parsers of
    encoding/json, strconv and net/http are arguments. *)

From S2P Require Import Prelude.
From S2P Require Import GoStrings.
From S2P Require Import Feature.
From S2P Require Import FeatureRepo.
From S2P Require Import FeatureSSE.
From Stdlib Require Import SpecFloat.

Definition Second : Z := 1000000000.
Definition defaultReconnectInterval : Z := Second.
Definition maxReconnectInterval : Z := 30 * Second.
Definition maxRetainedSnapshotAge : Z := 30 * Second.

(** ** Errors of a stream *)

Inductive stream_error :=
| EdgeStale (delay : Z)                      (* edgeStaleError *)
| HTTPError (status retryAfter : Z)          (* featureHubHTTPError *)
| RequestError                               (* featureHubRequestError *)
| Emitted (name : string)
| Undecodable (what : string)
| StreamEOF                                  (* io.EOF *)
| TooLarge                                   (* errFeatureSSEEventTooLarge, bufio.ErrTooLong *)
| ReadError                                  (* the error of a read; that of a cancelled request *)
| SnapshotExpired.

#[export] Instance stream_error_eq_dec : EqDecision stream_error.
Proof. solve_decision. Defined.

Definition isPermanentFeatureHTTPStatus (status : Z) : bool :=
  if (status <? 400)%Z || (500 <=? status)%Z then false
  else negb ((status =? 408)%Z || (status =? 429)%Z || (status =? 425)%Z).

(** ** float64 *)

Abbreviation float64 := spec_float.
Definition float_of (z : Z) : float64 := binary_normalize 53 1024 z 0 false.
Definition float_mul (x y : float64) : float64 := SFmul 53 1024 x y.
Definition float_le (x y : float64) : bool := SFleb x y.
Definition IsNaN (x : float64) : bool := match x with S754_nan => true | _ => false end.
Definition IsInf (x : float64) : bool := match x with S754_infinity _ => true | _ => false end.

(** time.Duration(x): the fraction is dropped. *)
Definition duration_of (x : float64) : Z :=
  match x with
  | S754_finite s m e =>
      let v := if (0 <=? e)%Z then (Zpos m * 2 ^ e)%Z else (Zpos m / 2 ^ (- e))%Z in
      if s then (- v)%Z else v
  | _ => 0
  end.

(** ** Delays *)

Section delays.
Context (reconnectDelay : Z).                     (* Client.reconnectDelay *)

Definition stale_of (e : option stream_error) : option Z :=
  match e with Some (EdgeStale d) => Some d | _ => None end.

Definition retryDelay (e : option stream_error) : Z :=
  let delay := match stale_of e with
               | Some d => if (0 <? d)%Z then d else reconnectDelay
               | None => reconnectDelay
               end in
  if (delay <=? 0)%Z then defaultReconnectInterval else delay.

Definition staleDelay (seconds : float64) : Z :=
  let minimum := Z.min (retryDelay None) maxReconnectInterval in
  if IsNaN seconds || float_le seconds (float_of 0) then minimum
  else if float_le (float_of 30) seconds then maxReconnectInterval
  else
    let delay := duration_of (float_mul seconds (float_of Second)) in
    if (delay <? minimum)%Z then minimum else delay.

(** The loop of retryDelayForAttempt. *)
Fixpoint backoff (n : nat) (delay maximum : Z) : Z :=
  match n with
  | O => delay
  | S n =>
      if (delay <? maximum)%Z then
        if (Z.quot maximum 2 <? delay)%Z then maximum
        else backoff n (wrap64 (delay * 2)) maximum
      else delay
  end.

Definition retryDelayForAttempt (jitter : Z -> Z) (e : stream_error) (attempt : Z) : Z :=
  let delay := retryDelay (Some e) in
  match e with
  | EdgeStale _ => delay
  | _ =>
      let maximum := if (maxReconnectInterval <? delay)%Z then delay else maxReconnectInterval in
      let delay := backoff (Z.to_nat (attempt - 1)) delay maximum in
      let delay := if (maximum <? delay)%Z then maximum else delay in
      let delay := if (0 <? jitter delay)%Z then jitter delay else delay in
      match e with
      | HTTPError _ retryAfter =>
          if (delay <? retryAfter)%Z then (if (maximum <? retryAfter)%Z then maximum else retryAfter) else delay
      | _ => delay
      end
  end.

(** [Int64N n] is the next number of math/rand below [n]. *)
Definition equalRetryJitter (Int64N : Z -> Z) (delay : Z) : Z :=
  if (delay <=? 1)%Z then delay
  else
    let half := Z.quot delay 2 in
    let span := (delay - half)%Z in
    if (span <=? 1)%Z then delay else (half + Int64N span)%Z.
End delays.

(** featureRetryAfter; [ParseTime] answers with the time in nanoseconds. *)
Definition featureRetryAfter (ParseTime : string -> option Z) (value : string) (now : Z) : Z :=
  let value := trim_space value in
  if String.eqb value EmptyString then 0
  else
    match parse_uint64 value with
    | (seconds, None) =>
        if (Z.quot maxReconnectInterval Second <=? seconds)%Z then maxReconnectInterval else (seconds * Second)%Z
    | (_, Some _) =>
        match ParseTime value with
        | Some retryAt =>
            let delay := (retryAt - now)%Z in
            if (delay <=? 0)%Z then 0 else if (maxReconnectInterval <? delay)%Z then maxReconnectInterval else delay
        | None => if str_forallb is_digit value then maxReconnectInterval else 0
        end
    end.

(** ** Events *)

(** What json.Unmarshal makes of a value. *)
Inductive json :=
| JNull
| JBool (b : bool)
| JNumber (x : float64)
| JString (s : string)
| JOther.                    (* an array or an object *)

Section events.
Context {V : Type}.
(** json.Unmarshal of an object, with the texts of its values, of a value, of a
    list of features (null entries are nil) and of one feature;
    strconv.ParseFloat. *)
Context (parse_object : string -> option (gmap string string)) (parse_value : string -> option json)
        (parse_features : string -> option (list (option (featureState V)))) (parse_feature : string -> option (featureState V))
        (ParseFloat : string -> option float64).
Context (reconnectDelay : Z).

(** edgeStaleSeconds: the seconds, if the stream is stale. *)
Definition edgeStaleSeconds (raw : string) : result stream_error (option float64) :=
  match parse_value raw with
  | None => Err (Undecodable "edge.stale")
  | Some JNull => Ok None
  | Some (JBool b) => Ok (if b then Some (float_of 1) else None)
  | Some (JNumber x) => Ok (if float_le x (float_of 0) then None else Some x)
  | Some (JString s) =>
      if String.eqb (trim_space s) EmptyString then Ok None
      else
        match ParseFloat (trim_space s) with
        | None => Err (Undecodable "edge.stale")
        | Some x => if IsNaN x || IsInf x then Err (Undecodable "edge.stale")
                    else Ok (if float_le x (float_of 0) then None else Some x)
        end
  | Some JOther => Err (Undecodable "edge.stale")
  end.

(** What an event asks for. *)
Inductive handled :=
| Nothing
| Failed (e : stream_error)
| Update (u : update V).

Definition handleEvent (name data : string) : handled :=
  if String.eqb name "" || String.eqb name "ack" then Nothing
  else if String.eqb name "bye" then Failed StreamEOF
  else if String.eqb name "failure" || String.eqb name "error" then Failed (Emitted name)
  else if String.eqb name "config" then
    match parse_object data with
    | None => Failed (Undecodable "config")
    | Some config =>
        match config !! "edge.stale" with
        | None => Nothing
        | Some raw =>
            match edgeStaleSeconds raw with
            | Err e => Failed e
            | Ok (Some seconds) => Failed (EdgeStale (staleDelay reconnectDelay seconds))
            | Ok None => Nothing
            end
        end
    end
  else if String.eqb name "features" then
    match parse_features data with Some l => Update (Full l) | None => Failed (Undecodable "features") end
  else if String.eqb name "feature" then
    match parse_feature data with Some f => Update (Incremental f) | None => Failed (Undecodable "feature") end
  else if String.eqb name "delete_feature" then
    match parse_feature data with Some f => Update (Removal f) | None => Failed (Undecodable "delete") end
  else Nothing.

(** The error return of handleEvent, and the update it applied. *)
Definition handled_error (h : handled) : option stream_error := match h with Failed e => Some e | _ => None end.
Definition handled_update (h : handled) : option (update V) := match h with Update u => Some u | _ => None end.

(** ** One request of the stream *)

(** What the HTTP client makes of the request: it could not be built, there was
    no response, or a status with its Retry-After header and a body, the bytes
    of its reads, those that come with the error that ends it and whether that
    error is another than io.EOF. *)
Inductive reply :=
| NoRequest
| NoResponse
| Response (status : Z) (retryAfter : string) (reads : list string) (final : string) (read_error : bool).

(** http.ParseTime in Unix nanoseconds, and the time of the reply. *)
Context (ParseTime : string -> option Z) (now : Z).

(** consumeStream: the updates it applied, in order, whether the failure is
    permanent, and its error, which is never nil.  A handler's error stops the
    loop before the scanner is asked for more. *)
Definition consumeStream (r : reply) : list (update V) * bool * stream_error :=
  match r with
  | NoRequest => ([], true, RequestError)
  | NoResponse => ([], false, RequestError)
  | Response status retryAfter reads final read_error =>
      if negb (status =? 200)%Z
      then ([], isPermanentFeatureHTTPStatus status, HTTPError status (featureRetryAfter ParseTime retryAfter now))
      else
        let (lines, scan_err) := newFeatureSSEScanner reads final in
        let (events, stopped) := dispatched (fun name data => handled_error (handleEvent name data)) no_event lines in
        (omap (fun ev => handled_update (handleEvent ev.1 ev.2)) events, false,
         match stopped with
         | Some (Refused e) => e
         | Some (BadLine EventTooLarge) => TooLarge
         | None => match scan_err with
                   | Some TooLong => TooLarge
                   | None => if read_error then ReadError else StreamEOF
                   end
         end)
  end.
End events.
Arguments handled : clear implicits.

(** ** Bounds *)

Lemma backoff_spec n delay maximum :
  (0 < delay <= maximum)%Z -> (maximum < 2 ^ 63)%Z ->
  backoff n delay maximum = Z.min maximum (delay * 2 ^ Z.of_nat n).
Proof.
  revert delay. induction n as [|n IH]; intros delay Hd Hm; cbn [backoff]; [cbn; lia|].
  rewrite Nat2Z.inj_succ, Z.pow_succ_r by lia. pose proof (Z.pow_pos_nonneg 2 (Z.of_nat n) ltac:(lia) ltac:(lia)) as Hp.
  destruct (Z.ltb_spec delay maximum).
  - destruct (Z.ltb_spec (Z.quot maximum 2) delay) as [Hq|Hq].
    + rewrite Z.quot_div_nonneg in Hq by lia. pose proof (Z.mod_pos_bound maximum 2 ltac:(lia)).
      pose proof (Z.div_mod maximum 2 ltac:(lia)). nia.
    + rewrite Z.quot_div_nonneg in Hq by lia. pose proof (Z.mul_div_le maximum 2 ltac:(lia)).
      assert (wrap64 (delay * 2) = delay * 2)%Z as -> by (unfold wrap64; rewrite Z.mod_small; lia).
      rewrite IH by lia. f_equal. lia.
  - nia.
Qed.

Lemma retryDelay_pos base e : (0 < retryDelay base e)%Z.
Proof. unfold retryDelay. repeat case_match; repeat case_bool_decide; unfold defaultReconnectInterval, Second in *; lia. Qed.

(** A source of random numbers, as Int64N promises. *)
Definition random (Int64N : Z -> Z) : Prop := forall n, (0 < n)%Z -> (0 <= Int64N n < n)%Z.

Lemma jitter_bounds Int64N delay :
  random Int64N -> (0 < delay)%Z ->
  (0 < equalRetryJitter Int64N delay <= delay)%Z /\ (delay - 1 <= 2 * equalRetryJitter Int64N delay)%Z.
Proof.
  intros Hr Hd. unfold equalRetryJitter. destruct (Z.leb_spec delay 1); [lia|].
  rewrite Z.quot_div_nonneg by lia.
  pose proof (Z.div_mod delay 2 ltac:(lia)). pose proof (Z.mod_pos_bound delay 2 ltac:(lia)).
  destruct (Z.leb_spec (delay - delay / 2) 1); [lia|]. specialize (Hr (delay - delay / 2)%Z ltac:(lia)). lia.
Qed.

(** The hint of the server in an error. *)
Definition retry_after (e : stream_error) : Z := match e with HTTPError _ r => r | _ => 0 end.

(** The wait before the next request.  After the n-th failure in a row it
    lies in the upper half of the window base * 2^(n-1), which no overflow
    spoils and which is capped at 30 s (or at the base, when that is longer),
    unless the server asked for more within the cap; a stale reply waits what
    the edge said, and the edge cannot make the client poll faster than its
    base interval (up to the cap). *)
Theorem retry_delay_bounds base Int64N e attempt seconds :
  random Int64N -> (base < 2 ^ 63)%Z -> stale_of (Some e) = None ->
  let b := retryDelay base None in
  let maximum := Z.max maxReconnectInterval b in
  let window := Z.min maximum (b * 2 ^ Z.max 0 (attempt - 1)) in
  let d := retryDelayForAttempt base (equalRetryJitter Int64N) e attempt in
  (0 < d <= maximum)%Z /\
  (window - 1 <= 2 * d)%Z /\ (Z.min maximum (retry_after e) <= d)%Z /\ (d <= Z.max window (retry_after e))%Z /\
  (Z.min b maxReconnectInterval <= staleDelay base seconds)%Z /\
  (forall jitter delay, (0 < delay)%Z -> retryDelayForAttempt base jitter (EdgeStale delay) attempt = delay).
Proof.
  intros Hr Hb He b maximum window d.
  assert (0 < b < 2 ^ 63)%Z as Hb0.
  { split; [apply retryDelay_pos|]. subst b. unfold retryDelay. cbn. destruct (base <=? 0)%Z; [|lia].
    unfold defaultReconnectInterval, Second. lia. }
  assert (retryDelay base (Some e) = b) as Eb by (unfold b, retryDelay; by rewrite He).
  assert (maxReconnectInterval = 30000000000)%Z as Hmax by done.
  set (w := backoff (Z.to_nat (attempt - 1)) b maximum).
  assert (w = window) as Hw.
  { subst w window. rewrite backoff_spec by lia. do 3 f_equal. lia. }
  assert (0 < window <= maximum)%Z as Hwin.
  { split; [|lia]. apply Z.min_glb_lt; [lia|]. apply Z.mul_pos_pos; [lia|]. apply Z.pow_pos_nonneg; lia. }
  destruct (jitter_bounds Int64N window Hr ltac:(lia)) as [Hj1 Hj2].
  assert (d = if (equalRetryJitter Int64N window <? retry_after e)%Z then Z.min maximum (retry_after e)
              else equalRetryJitter Int64N window) as Hd.
  { subst d. unfold retryDelayForAttempt. rewrite Eb.
    assert ((if (maxReconnectInterval <? b)%Z then b else maxReconnectInterval) = maximum) as ->.
    { subst maximum. destruct (Z.ltb_spec maxReconnectInterval b); lia. }
    fold w. rewrite Hw. destruct (Z.ltb_spec maximum window); [lia|].
    destruct (Z.ltb_spec 0 (equalRetryJitter Int64N window)); [|lia].
    destruct e; try done; cbn [retry_after]; repeat case_match; lia. }
  rewrite Hd. split_and!.
  - destruct (Z.ltb_spec (equalRetryJitter Int64N window) (retry_after e)); lia.
  - destruct (Z.ltb_spec (equalRetryJitter Int64N window) (retry_after e)); lia.
  - destruct (Z.ltb_spec (equalRetryJitter Int64N window) (retry_after e)); lia.
  - destruct (Z.ltb_spec (equalRetryJitter Int64N window) (retry_after e)); lia.
  - destruct (Z.ltb_spec (equalRetryJitter Int64N window) (retry_after e)); lia.
  - unfold staleDelay. fold b. destruct (_ || _); [lia|]. destruct (float_le _ _); [lia|].
    destruct (Z.ltb_spec (duration_of (float_mul seconds (float_of Second))) (Z.min b maxReconnectInterval)); lia.
  - intros jitter delay Hdelay. unfold retryDelayForAttempt, retryDelay. cbn.
    destruct (Z.ltb_spec 0 delay); [|lia]. destruct (Z.leb_spec delay 0); lia.
Qed.

(** ** A stream is served up to its first failure *)

Section served.
Context {V : Type}.
Context (parse_object : string -> option (gmap string string)) (parse_value : string -> option json)
        (parse_features : string -> option (list (option (featureState V)))) (parse_feature : string -> option (featureState V))
        (ParseFloat : string -> option float64) (reconnectDelay : Z).

(** What handleEvent makes of an event as the server wrote it. *)
Definition handle (w : written) : handled V :=
  handleEvent parse_object parse_value parse_features parse_feature ParseFloat reconnectDelay (event_of w).1 (event_of w).2.

Definition refuse (name data : string) : option stream_error :=
  handled_error (handleEvent parse_object parse_value parse_features parse_feature ParseFloat reconnectDelay name data).

Lemma handed_all (l : list written) : Forall (fun w => handled_error (handle w) = None) l -> handed refuse (event_of <$> l) = (event_of <$> l, None).
Proof.
  induction 1 as [|w l Hw Hl IH]; [done|]. rewrite fmap_cons. cbn [handed]. unfold refuse in *. fold (handle w). by rewrite Hw, IH.
Qed.

Lemma handed_failing (pre : list written) w post e :
  Forall (fun w => handled_error (handle w) = None) pre -> handled_error (handle w) = Some e ->
  handed refuse (event_of <$> pre ++ w :: post) = (event_of <$> pre ++ [w], Some (Refused e)).
Proof.
  intros Hp Hw. induction Hp as [|x pre Hx Hp IH]; cbn [app]; rewrite fmap_cons; cbn [handed]; unfold refuse in *.
  - fold (handle w). by rewrite Hw.
  - fold (handle x). by rewrite Hx, IH.
Qed.

Lemma updates_of_written (l : list written) :
  omap (fun ev : string * string => handled_update (handleEvent parse_object parse_value parse_features parse_feature ParseFloat reconnectDelay ev.1 ev.2))
    (event_of <$> l) = omap (fun w => handled_update (handle w)) l.
Proof. induction l as [|w l IH]; [done|]. cbn. fold (handle w). by rewrite <-IH. Qed.

(** C37: A stream of events that each fit the limit of 16 MiB is served as it
    was sent, whichever end of line the server uses, with or without a
    byte-order mark and in whatever pieces it arrives: while no event fails,
    the updates of all of them are applied, in order, and the end of the
    stream is returned; the first event that fails -- a "bye", a "failure" or
    "error", a stale configuration, data that does not decode -- ends it: the
    updates of the events before it are applied, none of those after it, and
    its error is returned. *)
Theorem events_delivered ParseTime now retryAfter l eol (mark : bool) reads final read_error :
  Forall sendable l -> is_eol eol ->
  stream_of reads final = (if mark then bom else EmptyString) +:+ write_events eol l ->
  let served := consumeStream parse_object parse_value parse_features parse_feature ParseFloat reconnectDelay ParseTime now
                  (Response 200 retryAfter reads final read_error) in
  (Forall (fun w => handled_error (handle w) = None) l ->
   served = (omap (fun w => handled_update (handle w)) l, false, if read_error then ReadError else StreamEOF)) /\
  (forall pre w post e,
     l = pre ++ w :: post -> Forall (fun w => handled_error (handle w) = None) pre -> handled_error (handle w) = Some e ->
     served = (omap (fun w => handled_update (handle w)) pre, false, e)).
Proof.
  intros Hl He Hst. destruct (events_handed refuse l eol mark reads final Hl He Hst) as (lines & Hsc & Hd).
  cbn zeta. unfold consumeStream. cbn [Z.eqb negb]. rewrite Hsc. fold refuse. rewrite Hd. split.
  - intros Hn. rewrite handed_all by done. by rewrite updates_of_written.
  - intros pre w post e -> Hp Hw. rewrite (handed_failing _ _ _ e) by done. rewrite updates_of_written, omap_app. cbn.
    destruct (handle w); cbn in Hw |- *; [done|by rewrite app_nil_r|done].
Qed.
End served.

(** ** Samples *)

Example stale_quarter : staleDelay Second (binary_normalize 53 1024 10 (-2) false) = (5 * Second / 2)%Z.
Proof. vm_compute. reflexivity. Qed.
Example stale_short : staleDelay Second (binary_normalize 53 1024 1 (-2) false) = Second.
Proof. vm_compute. reflexivity. Qed.
Example stale_long : staleDelay Second (float_of 3600) = maxReconnectInterval.
Proof. vm_compute. reflexivity. Qed.
Example third_failure : retryDelayForAttempt Second (fun d => d) RequestError 3 = (4 * Second)%Z.
Proof. vm_compute. reflexivity. Qed.
Example retry_after_hint : retryDelayForAttempt Second (fun d => d) (HTTPError 503 (7 * Second)) 1 = (7 * Second)%Z.
Proof. vm_compute. reflexivity. Qed.
Example retry_after_huge : featureRetryAfter (fun _ => None) " 99999999999999999999999 " 0 = maxReconnectInterval.
Proof. vm_compute. reflexivity. Qed.

Lemma retry_delay_bounds_witness :
  let d := retryDelayForAttempt Second (equalRetryJitter (fun _ => 0%Z)) RequestError 40 in
  (maxReconnectInterval - 1 <= 2 * d <= 2 * maxReconnectInterval)%Z.
Proof.
  cbn zeta.
  destruct (retry_delay_bounds Second (fun _ => 0%Z) RequestError 40 (float_of 1)) as (H1 & H2 & _);
    [intros n Hn; lia|vm_compute; reflexivity|reflexivity|].
  split; [|clear H2; vm_compute in H1 |- *; destruct H1; assumption].
  clear H1. vm_compute in H2 |- *. exact H2.
Defined.
