(* ===== verification/FeatureClient.v ===== *)
(** * package feature, the streaming client

    The Client of feature/flags.go while it runs: the run loop and the stream
    it reads, context changes, the stale timer, Stop and WaitReady, as a step
    relation.  A step is what happens between two points at which goroutines
    can meet: a critical section of Client.mu is split where it stores a value
    that is read without the mutex, a section of staleTimerMu is one step, and
    an atomic load is a step of its own where the code acts on it later.

    The state of run is where it is ([pc]) with its variables ([loop_state]);
    the stream goroutine runs only while run waits for it, so it is part of
    where run is. *)

From S2P Require Import Prelude.
From S2P Require Import GoStrings.
From S2P Require Import Feature.
From S2P Require Import FeatureRepo.
From S2P Require Import FeatureStream.

(** ** Values of the run loop *)

Record loop_state := MkLoop {
  retryAttempt : Z;
  staleWindowEnd : option Z;        (* None is the zero time *)
  staleRegimeDelay : Z;
  staleInterrupted : bool
}.

(** The select of run around a stream. *)
Inductive mode := Running | Refreshed | Stopping.

(** Where the stream goroutine is: reading, or inside applyFullFeatureSet
    before it stores readyRevision, before it publishes, before it signals. *)
Inductive stream_pc := Reading | StoreRevision | Publish | SignalReady.

Record stream := MkStream {
  s_revision : N;                   (* contextRevision when run started it *)
  s_before : N;                     (* featureEventsBefore *)
  s_mode : mode;
  s_sent : option client;           (* the attributes its request carried, once sent *)
  s_at : stream_pc
}.

(** How a stream that run was waiting for ended. *)
Record outcome := MkOutcome {
  o_permanent : bool;
  o_err : stream_error;
  o_stale : bool;                   (* isStale *)
  o_event : bool                    (* featureEventReceived *)
}.

Inductive pc :=
| Top                               (* the head of the loop *)
| InStream (s : stream)
| Fail (o : outcome)                (* setLastError and the look at ready *)
| Retain (o : outcome)              (* a ready client got a stale reply *)
| Count (o : outcome)               (* failTerminal, or retryAttempt *)
| Prepare (e : stream_error) (isStale : bool)
| Wait (until : Z) (isStale : bool)
| Exit.

(** A call of WaitReady: the loads of its loop one by one. *)
Inductive waiter_pc :=
| FirstLook                         (* c.ready.Load() *)
| FirstRevision                     (* it was true: c.readyRevision.Load() *)
| TakeSignal                        (* currentReadySignal *)
| SecondLook (signal : N)
| SecondRevision (signal : N)
| Select (signal : N)
| WReturned (ok : bool).

Record waiter := MkWaiter { targetRevision : N; w_at : waiter_pc }.

Inductive holder := ByStream | ByContext.

Section client.
Context {V : Type}.

(** The fields of Client that change, and the run loop. *)
Record Client := MkClient {
  repo : repository V;                  (* the features and their namespace *)
  attributes : client;
  contextRevision : N;
  readyRevision : N;
  ready : bool;
  receivedInitial : bool;
  lastError : option stream_error;
  featureEvents : N;
  staleTimer : option N;                (* the generation of the armed timer *)
  staleGeneration : N;
  callbacks : list (N * Z);             (* expiries that may still run: generation and deadline *)
  terminalFailure : bool;               (* the channel is closed *)
  refresh : bool;                       (* the channel of capacity 1 holds a token *)
  cancelled : bool;                     (* Client.ctx is done *)
  signals : N;                          (* how many readySignal channels have been closed *)
  mu : option holder;
  notifying : nat;                      (* context changes between their unlock and the send on refresh *)
  clock : Z;
  loop : loop_state;                    (* the variables of run *)
  run_at : pc;                          (* where run is *)
  waiters : gmap nat waiter            (* calls of WaitReady *)
}.

Definition set_repo (x : repository V) (c : Client) : Client :=
  MkClient x (attributes c) (contextRevision c) (readyRevision c) (ready c) (receivedInitial c) (lastError c)
    (featureEvents c) (staleTimer c) (staleGeneration c) (callbacks c) (terminalFailure c) (refresh c) (cancelled c)
    (signals c) (mu c) (notifying c) (clock c) (loop c) (run_at c) (waiters c).
Definition set_attributes (x : client) (c : Client) : Client :=
  MkClient (repo c) x (contextRevision c) (readyRevision c) (ready c) (receivedInitial c) (lastError c)
    (featureEvents c) (staleTimer c) (staleGeneration c) (callbacks c) (terminalFailure c) (refresh c) (cancelled c)
    (signals c) (mu c) (notifying c) (clock c) (loop c) (run_at c) (waiters c).
Definition set_contextRevision (x : N) (c : Client) : Client :=
  MkClient (repo c) (attributes c) x (readyRevision c) (ready c) (receivedInitial c) (lastError c) (featureEvents c)
    (staleTimer c) (staleGeneration c) (callbacks c) (terminalFailure c) (refresh c) (cancelled c) (signals c)
    (mu c) (notifying c) (clock c) (loop c) (run_at c) (waiters c).
Definition set_readyRevision (x : N) (c : Client) : Client :=
  MkClient (repo c) (attributes c) (contextRevision c) x (ready c) (receivedInitial c) (lastError c)
    (featureEvents c) (staleTimer c) (staleGeneration c) (callbacks c) (terminalFailure c) (refresh c) (cancelled c)
    (signals c) (mu c) (notifying c) (clock c) (loop c) (run_at c) (waiters c).
Definition set_ready (x : bool) (c : Client) : Client :=
  MkClient (repo c) (attributes c) (contextRevision c) (readyRevision c) x (receivedInitial c) (lastError c)
    (featureEvents c) (staleTimer c) (staleGeneration c) (callbacks c) (terminalFailure c) (refresh c) (cancelled c)
    (signals c) (mu c) (notifying c) (clock c) (loop c) (run_at c) (waiters c).
Definition set_receivedInitial (x : bool) (c : Client) : Client :=
  MkClient (repo c) (attributes c) (contextRevision c) (readyRevision c) (ready c) x (lastError c) (featureEvents c)
    (staleTimer c) (staleGeneration c) (callbacks c) (terminalFailure c) (refresh c) (cancelled c) (signals c)
    (mu c) (notifying c) (clock c) (loop c) (run_at c) (waiters c).
Definition set_lastError (x : option stream_error) (c : Client) : Client :=
  MkClient (repo c) (attributes c) (contextRevision c) (readyRevision c) (ready c) (receivedInitial c) x
    (featureEvents c) (staleTimer c) (staleGeneration c) (callbacks c) (terminalFailure c) (refresh c) (cancelled c)
    (signals c) (mu c) (notifying c) (clock c) (loop c) (run_at c) (waiters c).
Definition set_featureEvents (x : N) (c : Client) : Client :=
  MkClient (repo c) (attributes c) (contextRevision c) (readyRevision c) (ready c) (receivedInitial c) (lastError c)
    x (staleTimer c) (staleGeneration c) (callbacks c) (terminalFailure c) (refresh c) (cancelled c) (signals c)
    (mu c) (notifying c) (clock c) (loop c) (run_at c) (waiters c).
Definition set_staleTimer (x : option N) (c : Client) : Client :=
  MkClient (repo c) (attributes c) (contextRevision c) (readyRevision c) (ready c) (receivedInitial c) (lastError c)
    (featureEvents c) x (staleGeneration c) (callbacks c) (terminalFailure c) (refresh c) (cancelled c) (signals c)
    (mu c) (notifying c) (clock c) (loop c) (run_at c) (waiters c).
Definition set_staleGeneration (x : N) (c : Client) : Client :=
  MkClient (repo c) (attributes c) (contextRevision c) (readyRevision c) (ready c) (receivedInitial c) (lastError c)
    (featureEvents c) (staleTimer c) x (callbacks c) (terminalFailure c) (refresh c) (cancelled c) (signals c)
    (mu c) (notifying c) (clock c) (loop c) (run_at c) (waiters c).
Definition set_callbacks (x : list (N * Z)) (c : Client) : Client :=
  MkClient (repo c) (attributes c) (contextRevision c) (readyRevision c) (ready c) (receivedInitial c) (lastError c)
    (featureEvents c) (staleTimer c) (staleGeneration c) x (terminalFailure c) (refresh c) (cancelled c) (signals c)
    (mu c) (notifying c) (clock c) (loop c) (run_at c) (waiters c).
Definition set_terminalFailure (x : bool) (c : Client) : Client :=
  MkClient (repo c) (attributes c) (contextRevision c) (readyRevision c) (ready c) (receivedInitial c) (lastError c)
    (featureEvents c) (staleTimer c) (staleGeneration c) (callbacks c) x (refresh c) (cancelled c) (signals c)
    (mu c) (notifying c) (clock c) (loop c) (run_at c) (waiters c).
Definition set_refresh (x : bool) (c : Client) : Client :=
  MkClient (repo c) (attributes c) (contextRevision c) (readyRevision c) (ready c) (receivedInitial c) (lastError c)
    (featureEvents c) (staleTimer c) (staleGeneration c) (callbacks c) (terminalFailure c) x (cancelled c)
    (signals c) (mu c) (notifying c) (clock c) (loop c) (run_at c) (waiters c).
Definition set_cancelled (x : bool) (c : Client) : Client :=
  MkClient (repo c) (attributes c) (contextRevision c) (readyRevision c) (ready c) (receivedInitial c) (lastError c)
    (featureEvents c) (staleTimer c) (staleGeneration c) (callbacks c) (terminalFailure c) (refresh c) x (signals c)
    (mu c) (notifying c) (clock c) (loop c) (run_at c) (waiters c).
Definition set_signals (x : N) (c : Client) : Client :=
  MkClient (repo c) (attributes c) (contextRevision c) (readyRevision c) (ready c) (receivedInitial c) (lastError c)
    (featureEvents c) (staleTimer c) (staleGeneration c) (callbacks c) (terminalFailure c) (refresh c) (cancelled c)
    x (mu c) (notifying c) (clock c) (loop c) (run_at c) (waiters c).
Definition set_mu (x : option holder) (c : Client) : Client :=
  MkClient (repo c) (attributes c) (contextRevision c) (readyRevision c) (ready c) (receivedInitial c) (lastError c)
    (featureEvents c) (staleTimer c) (staleGeneration c) (callbacks c) (terminalFailure c) (refresh c) (cancelled c)
    (signals c) x (notifying c) (clock c) (loop c) (run_at c) (waiters c).
Definition set_notifying (x : nat) (c : Client) : Client :=
  MkClient (repo c) (attributes c) (contextRevision c) (readyRevision c) (ready c) (receivedInitial c) (lastError c)
    (featureEvents c) (staleTimer c) (staleGeneration c) (callbacks c) (terminalFailure c) (refresh c) (cancelled c)
    (signals c) (mu c) x (clock c) (loop c) (run_at c) (waiters c).
Definition set_clock (x : Z) (c : Client) : Client :=
  MkClient (repo c) (attributes c) (contextRevision c) (readyRevision c) (ready c) (receivedInitial c) (lastError c)
    (featureEvents c) (staleTimer c) (staleGeneration c) (callbacks c) (terminalFailure c) (refresh c) (cancelled c)
    (signals c) (mu c) (notifying c) x (loop c) (run_at c) (waiters c).
Definition set_loop (x : loop_state) (c : Client) : Client :=
  MkClient (repo c) (attributes c) (contextRevision c) (readyRevision c) (ready c) (receivedInitial c) (lastError c)
    (featureEvents c) (staleTimer c) (staleGeneration c) (callbacks c) (terminalFailure c) (refresh c) (cancelled c)
    (signals c) (mu c) (notifying c) (clock c) x (run_at c) (waiters c).
Definition set_run_at (x : pc) (c : Client) : Client :=
  MkClient (repo c) (attributes c) (contextRevision c) (readyRevision c) (ready c) (receivedInitial c) (lastError c)
    (featureEvents c) (staleTimer c) (staleGeneration c) (callbacks c) (terminalFailure c) (refresh c) (cancelled c)
    (signals c) (mu c) (notifying c) (clock c) (loop c) x (waiters c).
Definition set_waiters (x : gmap nat waiter) (c : Client) : Client :=
  MkClient (repo c) (attributes c) (contextRevision c) (readyRevision c) (ready c) (receivedInitial c) (lastError c)
    (featureEvents c) (staleTimer c) (staleGeneration c) (callbacks c) (terminalFailure c) (refresh c) (cancelled c)
    (signals c) (mu c) (notifying c) (clock c) (loop c) (run_at c) x.


(** ** Operations *)

Context (clientEvaluated : bool).
Context (defaults : client).
Context (reconnectDelay : Z) (jitter : Z -> Z) (staleRetention : Z).

Definition no_loop : loop_state := MkLoop 0 None 0 false.

(** InitWithOptions, when run starts. *)
Definition new_client (now : Z) : Client :=
  MkClient (MkRepository ∅ 0) defaults 1 0 false false None 0 None 0 [] false false false 0 None 0 now no_loop Top ∅.

Definition clearStaleRetention (c : Client) : Client :=
  set_staleGeneration (staleGeneration c + 1) (set_staleTimer None c).

(** retainReadyDuringStaleWindow *)
Definition retention_window : Z :=
  if (staleRetention <=? 0)%Z || (maxRetainedSnapshotAge <? staleRetention)%Z then maxRetainedSnapshotAge
  else staleRetention.

Definition retainReadyDuringStaleWindow (c : Client) : Client :=
  if cancelled c then c
  else
    match staleTimer c with
    | Some _ => c
    | None =>
        let generation := (staleGeneration c + 1)%N in
        set_callbacks ((generation, clock c + retention_window)%Z :: callbacks c)
          (set_staleTimer (Some generation) (set_staleGeneration generation c))
    end.

(** The function it gives to time.AfterFunc. *)
Definition stale_expired (generation : N) (c : Client) : Client :=
  if negb (generation =? staleGeneration c)%N || cancelled c then c
  else
    set_signals (signals c + 1) (set_ready false (set_lastError (Some SnapshotExpired) (set_staleTimer None c))).

Definition at_stream (s : stream) (p : stream_pc) : pc :=
  InStream (MkStream (s_revision s) (s_before s) (s_mode s) (s_sent s) p).

(** applyFullFeatureSet up to its first store, applyFeature and deleteFeature,
    for the stream [s]. *)
Definition apply_event (s : stream) (u : update V) (c : Client) : Client :=
  if ignored u || negb (contextRevision c =? s_revision s)%N then c
  else
    let c := set_repo (apply_update clientEvaluated (s_revision s) u (repo c)) c in
    let c := set_featureEvents (featureEvents c + 1) (clearStaleRetention c) in
    match u with
    | Full _ => set_mu (Some ByStream) (set_run_at (at_stream s StoreRevision) c)
    | _ => c
    end.

(** The publication of a full set. *)
Definition publish_ready (s : stream) (c : Client) : Client :=
  set_mu None (set_lastError None (set_receivedInitial true (set_ready true (set_run_at (at_stream s SignalReady) c)))).

(** The writes a context setter makes. *)
Inductive context_change :=
| SetValues (key : string) (values : list string)
| ResetContext.

Definition stringSlicesEqual (left right : list string) : bool := bool_decide (left = right).

(** attributeMapsEqual; the values of a missing key are the nil slice. *)
Definition attributeMapsEqual (left right : client) : bool :=
  Nat.eqb (size left) (size right) &&
  forallb (fun kv => stringSlicesEqual kv.2 (attribute_values right kv.1)) (map_to_list left).

(** setAttributeValues, and replaceAttributes with the defaults: the new attributes, and whether
    they changed. *)
Definition change_attributes (ch : context_change) (a : client) : client * bool :=
  match ch with
  | SetValues key values =>
      if String.eqb (trim_space key) EmptyString then (a, false)
      else
        ((match values with [] => delete key a | _ => <[key := values]> a end),
         negb (stringSlicesEqual (attribute_values a key) values))
  | ResetContext => if attributeMapsEqual a defaults then (a, false) else (defaults, true)
  end.

(** Up to the increment of the revision; the mutex is kept for the store of
    ready. *)
Definition begin_context (ch : context_change) (c : Client) : Client :=
  let (a, changed) := change_attributes ch (attributes c) in
  let c := set_attributes a c in
  if changed && negb clientEvaluated then set_mu (Some ByContext) (set_contextRevision (contextRevision c + 1) c)
  else c.

Definition end_context (c : Client) : Client :=
  set_notifying (S (notifying c)) (set_mu None (set_ready false c)).

(** ** The run loop *)

Definition before_end (now : Z) (ls : loop_state) : bool :=
  match staleWindowEnd ls with Some t => (now <? t)%Z | None => false end.

(** A feature event resets the backoff and the stale window. *)
Definition note_events (received : bool) (ls : loop_state) : loop_state := if received then no_loop else ls.

(** The branches for a stream that a context change cut short: go on at
    once? *)
Definition on_refreshed (now : Z) (ls : loop_state) : loop_state * bool :=
  if (staleRegimeDelay ls <=? 0)%Z then (ls, true)
  else if negb (before_end now ls)
  then (MkLoop (retryAttempt ls) (Some (now + staleRegimeDelay ls)%Z) (staleRegimeDelay ls) true, true)
  else if negb (staleInterrupted ls)
  then (MkLoop (retryAttempt ls) (staleWindowEnd ls) (staleRegimeDelay ls) true, true)
  else (ls, false).

(** The stale window after a reply that was not cut short. *)
Definition note_reply (now : Z) (e : stream_error) (ls : loop_state) : loop_state :=
  match e with
  | EdgeStale delay =>
      if before_end now ls
      then MkLoop (retryAttempt ls) (staleWindowEnd ls) delay (staleInterrupted ls)
      else MkLoop (retryAttempt ls) (Some (now + delay)%Z) delay false
  | _ => MkLoop (retryAttempt ls) None 0 false
  end.

Definition is_stale (e : stream_error) : bool := match e with EdgeStale _ => true | _ => false end.

(** From the end of a stream to the branches on its error. *)
Definition after_stream (now : Z) (refreshed permanent : bool) (e : stream_error) (received : bool) (ls : loop_state) :
    loop_state * pc :=
  let ls := note_events received ls in
  if refreshed then
    let (ls', again) := if (retryAttempt ls =? 0)%Z then on_refreshed now ls else (ls, false) in
    (ls', if again then Top else Prepare e false)
  else (note_reply now e ls, Fail (MkOutcome permanent e (is_stale e) received)).

Definition count_failure (o : outcome) (ls : loop_state) : loop_state :=
  if negb (o_stale o) && negb (o_event o)
  then MkLoop (retryAttempt ls + 1) (staleWindowEnd ls) (staleRegimeDelay ls) (staleInterrupted ls)
  else ls.

(** The delay of the timer. *)
Definition wait_delay (now : Z) (e : stream_error) (ls : loop_state) : Z :=
  match staleWindowEnd ls with
  | Some t => if staleInterrupted ls && (now <? t)%Z then (t - now)%Z
              else retryDelayForAttempt reconnectDelay jitter e (retryAttempt ls)
  | None => retryDelayForAttempt reconnectDelay jitter e (retryAttempt ls)
  end.

Definition interrupted (ls : loop_state) : loop_state :=
  MkLoop (retryAttempt ls) (staleWindowEnd ls) (staleRegimeDelay ls) true.

Definition set_loop_at (p : loop_state * pc) (c : Client) : Client := set_loop p.1 (set_run_at p.2 c).

(** ** WaitReady *)

Definition new_enough (w : waiter) (c : Client) : bool := (targetRevision w <=? readyRevision c)%N.

(** The next point of a call of WaitReady that is not blocked in its select. *)
Definition look (w : waiter) (c : Client) : waiter_pc :=
  match w_at w with
  | FirstLook => if ready c then (if clientEvaluated then WReturned true else FirstRevision) else TakeSignal
  | FirstRevision => if new_enough w c then WReturned true else TakeSignal
  | TakeSignal => SecondLook (signals c)
  | SecondLook n => if ready c then (if clientEvaluated then WReturned true else SecondRevision n) else Select n
  | SecondRevision n => if new_enough w c then WReturned true else Select n
  | Select n => if (n <? signals c)%N then FirstLook else Select n
  | WReturned b => WReturned b
  end.

Definition move_waiter (i : nat) (w : waiter) (p : waiter_pc) (c : Client) : Client :=
  set_waiters (<[i := MkWaiter (targetRevision w) p]> (waiters c)) c.

(** ** Evaluation *)

(** evaluatedValue of a client that is not nil: the value, its type and whether
    there is one; [strategy_value] is applyStrategies at the time of the
    call. *)
Definition evaluatedValue (is_nil : V -> bool) (strategy_value : featureState V -> client -> option V)
    (c : Client) (key : string) : option (V * string * bool) :=
  match features (repo c) !! key with
  | None => None
  | Some f =>
      let value := if clientEvaluated then default (FeatureValue f) (strategy_value f (attributes c)) else FeatureValue f in
      Some (value, FeatureType f, negb (is_nil value))
  end.

(** ** Steps *)

(** What the edge sends on a stream whose request carried [a]: any events about
    features it evaluated for [a]. *)
Context (evaluated : client -> featureState V -> Prop).

Definition carried (u : update V) : list (featureState V) :=
  match u with Full states => usable states | Incremental f => [f] | Removal _ => [] end.

Inductive fstep : Client -> Client -> Prop :=
(* run: load the revision, start the stream *)
| step_top c :
    run_at c = Top ->
    fstep c (set_run_at (InStream (MkStream (contextRevision c) (featureEvents c) Running None Reading)) c)
(* newStreamRequest reads the attributes under the mutex *)
| step_request c s :
    run_at c = InStream s -> s_sent s = None -> mu c = None ->
    fstep c (set_run_at (InStream (MkStream (s_revision s) (s_before s) (s_mode s) (Some (attributes c)) (s_at s))) c)
(* an event of the stream *)
| step_event c s a u :
    run_at c = InStream s -> s_sent s = Some a -> s_at s = Reading -> mu c = None ->
    (forall f, f ∈ carried u -> evaluated a f) ->
    fstep c (apply_event s u c)
| step_store_revision c s :
    run_at c = InStream s -> s_at s = StoreRevision ->
    fstep c (set_readyRevision (s_revision s) (set_run_at (at_stream s Publish) c))
| step_publish c s :
    run_at c = InStream s -> s_at s = Publish -> fstep c (publish_ready s c)
| step_signal c s :
    run_at c = InStream s -> s_at s = SignalReady ->
    fstep c (set_signals (signals c + 1) (set_run_at (at_stream s Reading) c))
(* the select of run *)
| step_refresh c s :
    run_at c = InStream s -> s_mode s = Running -> refresh c = true ->
    fstep c (set_refresh false
               (set_run_at (InStream (MkStream (s_revision s) (s_before s) Refreshed (s_sent s) (s_at s))) c))
| step_stopping c s :
    run_at c = InStream s -> s_mode s = Running -> cancelled c = true ->
    fstep c (set_run_at (InStream (MkStream (s_revision s) (s_before s) Stopping (s_sent s) (s_at s))) c)
(* the stream has ended *)
| step_stopped c s :
    run_at c = InStream s -> s_at s = Reading -> cancelled c = true ->
    fstep c (set_run_at Exit c)
| step_ended c s permanent e :
    run_at c = InStream s -> s_at s = Reading -> s_mode s <> Stopping -> cancelled c = false ->
    (forall delay, e = EdgeStale delay -> (0 < delay)%Z) ->      (* as staleDelay computes it *)
    let refreshed := match s_mode s with Refreshed => true | _ => false end in
    fstep c (set_loop_at (after_stream (clock c) refreshed permanent e (negb (featureEvents c =? s_before s)%N) (loop c))
               (if refreshed then set_refresh false c else c))
| step_fail c o :
    run_at c = Fail o ->
    fstep c (set_lastError (Some (o_err o))
               (if o_stale o && ready c then set_run_at (Retain o) c else set_ready false (set_run_at (Count o) c)))
| step_retain c o :
    run_at c = Retain o -> fstep c (set_run_at (Count o) (retainReadyDuringStaleWindow c))
| step_count c o :
    run_at c = Count o ->
    fstep c (if o_permanent o then set_terminalFailure true (set_run_at Exit c)
             else set_loop_at (count_failure o (loop c), Prepare (o_err o) (o_stale o)) c)
| step_prepare c e isStale :
    run_at c = Prepare e isStale ->
    fstep c (set_run_at (Wait (clock c + wait_delay (clock c) e (loop c)) isStale) c)
(* the select of run around its timer *)
| step_wait_refresh c until isStale :
    run_at c = Wait until isStale -> refresh c = true ->
    fstep c (set_refresh false
               (if isStale && negb (staleInterrupted (loop c)) then set_loop_at (interrupted (loop c), Top) c else c))
| step_wait_timer c until isStale :
    run_at c = Wait until isStale -> (until <= clock c)%Z -> fstep c (set_run_at Top c)
| step_wait_stop c until isStale :
    run_at c = Wait until isStale -> cancelled c = true -> fstep c (set_run_at Exit c)
(* setAttributeValues, replaceAttributes and notifyContextChanged *)
| step_context c ch : mu c = None -> fstep c (begin_context ch c)
| step_context_end c : mu c = Some ByContext -> fstep c (end_context c)
| step_notify c n : notifying c = S n -> fstep c (set_refresh true (set_notifying n c))
(* a timer fires, at its deadline or later *)
| step_expired c generation deadline :
    (generation, deadline) ∈ callbacks c -> (deadline <= clock c)%Z ->
    fstep c (set_callbacks (filter (.≠ (generation, deadline)) (callbacks c)) (stale_expired generation c))
(* Stop *)
| step_cancel c : fstep c (set_cancelled true c)
| step_stop_clear c : cancelled c = true -> fstep c (clearStaleRetention c)
(* WaitReady *)
| step_wait_begin c i :
    waiters c !! i = None ->
    fstep c (set_waiters (<[i := MkWaiter (contextRevision c) FirstLook]> (waiters c)) c)
| step_look c i w : waiters c !! i = Some w -> fstep c (move_waiter i w (look w c) c)
| step_wait_cancelled c i w n :
    waiters c !! i = Some w -> w_at w = Select n -> fstep c (move_waiter i w (WReturned false) c)
| step_tick c t : (clock c <= t)%Z -> fstep c (set_clock t c).

Definition reachable (c : Client) : Prop := exists now, rtc fstep (new_client now) c.
End client.
