(* ===== verification/FeatureClientProofs.v ===== *)
(** * package feature, what the streaming client guarantees

    Invariants of the step relation of [FeatureClient]: a ready client of a
    server-evaluated key shows values of the current context only, WaitReady
    sleeps through no readiness, a stale edge cannot keep a snapshot ready
    beyond the retention bound, and a stale window lets through one early
    request. *)

From S2P Require Import Prelude.
From S2P Require Import GoStrings.
From S2P Require Import Feature.
From S2P Require Import FeatureRepo.
From S2P Require Import FeatureStream.
From S2P Require Import FeatureClient.

Section proofs.
Context {V : Type} (clientEvaluated : bool) (defaults : client) (reconnectDelay : Z) (jitter : Z -> Z) (staleRetention : Z).
Context (evaluated : client -> featureState V -> Prop).

Abbreviation Client := (@Client V).
Abbreviation step := (@fstep V clientEvaluated defaults reconnectDelay jitter staleRetention evaluated).
Abbreviation reached := (@reachable V clientEvaluated defaults reconnectDelay jitter staleRetention evaluated).

(** ** Values of the current context *)

(** The stream goroutine holds the mutex. *)
Definition holds (p : pc) : bool :=
  match p with
  | InStream s => match s_at s with StoreRevision | Publish => true | _ => false end
  | _ => false
  end.

(** Attributes whose lists are not empty. *)
Definition proper (a : client) : Prop := forall k, a !! k <> Some [].

Record isolated (c : Client) : Prop := {
  i_mu : mu c = Some ByStream <-> holds (run_at c) = true;
  i_proper : proper (attributes c);
  i_bounds : (readyRevision c <= contextRevision c)%N /\ (featureContextRevision (repo c) <= contextRevision c)%N;
  i_stream s : run_at c = InStream s -> (s_revision s <= contextRevision c)%N;
  i_held s : run_at c = InStream s -> holds (InStream s) = true ->
    s_revision s = contextRevision c /\ featureContextRevision (repo c) = contextRevision c /\
    (s_at s = Publish -> readyRevision c = contextRevision c);
  i_ready : clientEvaluated = false -> ready c = true -> mu c <> Some ByContext ->
    readyRevision c = contextRevision c /\ featureContextRevision (repo c) = contextRevision c;
  i_sent s a : clientEvaluated = false -> run_at c = InStream s -> s_sent s = Some a ->
    s_revision s = contextRevision c -> a = attributes c;
  i_values k f : clientEvaluated = false -> featureContextRevision (repo c) = contextRevision c ->
    features (repo c) !! k = Some f -> evaluated (attributes c) f
}.

Lemma foldl_store_Forall (P : featureState V -> Prop) l m k f :
  (forall k f, m !! k = Some f -> P f) -> (forall f, f ∈ l -> P f) -> foldl store m l !! k = Some f -> P f.
Proof.
  intros Hm Hl Hf. pose proof (foldl_store_lookup l m k) as H. rewrite Hf in H.
  destruct H as [[Hin _]|[Hk _]]; eauto.
Qed.

(** An update leaves features of the namespace and features it carried. *)
Lemma update_features_Forall (P : featureState V -> Prop) u m k f :
  (forall k f, m !! k = Some f -> P f) -> (forall f, f ∈ carried u -> P f) ->
  update_features u m !! k = Some f -> P f.
Proof.
  intros Hm Hu. destruct u as [states|g|g]; cbn in *.
  - intros [Hf _]%map_lookup_filter_Some. by eapply foldl_store_Forall.
  - intros Hf. by eapply (foldl_store_Forall P [g]).
  - unfold delete_feature. destruct (deletes _ _); [intros [_ Hf]%lookup_delete_Some|intros Hf]; eauto.
Qed.

Lemma change_unchanged ch a a' : proper a -> change_attributes defaults ch a = (a', false) -> a' = a.
Proof.
  intros Ha. destruct ch as [key values|]; cbn.
  - destruct (String.eqb _ _); [by intros [= <-]|]. intros [= <- Hs].
    apply negb_false_iff, bool_decide_eq_true in Hs. unfold attribute_values in Hs. specialize (Ha key).
    destruct values; destruct (a !! key) as [l|] eqn:E; subst; try done.
    + by apply delete_id.
    + by apply insert_id.
  - destruct (attributeMapsEqual _ _); [by intros [= <-]|done].
Qed.

Lemma change_proper ch a : proper defaults -> proper a -> proper (change_attributes defaults ch a).1.
Proof.
  intros Hd Ha k. destruct ch as [key values|]; cbn.
  - destruct (String.eqb _ _); [apply Ha|]. cbn. destruct values as [|v values].
    + destruct (decide (k = key)) as [->|]; [by rewrite lookup_delete_eq|]. rewrite lookup_delete_ne by done. apply Ha.
    + destruct (decide (k = key)) as [->|]; [by rewrite lookup_insert_eq|]. rewrite lookup_insert_ne by done. apply Ha.
  - destruct (attributeMapsEqual _ _); cbn; [apply Ha|apply Hd].
Qed.

(** A step that leaves the repository, the context and the mutex alone, does
    not raise ready, and keeps run in its stream or leaves it. *)
Lemma isolated_frame c c' :
  isolated c ->
  repo c' = repo c -> attributes c' = attributes c -> contextRevision c' = contextRevision c ->
  readyRevision c' = readyRevision c -> mu c' = mu c -> (ready c' = true -> ready c = true) ->
  (forall s, run_at c' = InStream s -> exists s0, run_at c = InStream s0 /\
     s_revision s = s_revision s0 /\ (holds (InStream s) = true -> s_at s = s_at s0) /\ s_sent s = s_sent s0) ->
  holds (run_at c') = holds (run_at c) -> isolated c'.
Proof.
  intros [] E1 E2 E3 E4 E5 Hr Hs Hh. constructor; rewrite ?E1, ?E2, ?E3, ?E4, ?E5, ?Hh; auto.
  - intros s E. destruct (Hs s E) as (s0 & E0 & -> & _). auto.
  - intros s E Hheld. destruct (Hs s E) as (s0 & E0 & -> & Eat & _). rewrite (Eat Hheld). apply i_held0; [done|].
    cbn in *. by rewrite <-(Eat Hheld).
  - intros s a Hc E Hsent. destruct (Hs s E) as (s0 & E0 & -> & _ & Es). rewrite Es in Hsent. eauto.
Qed.

(** The steps that do not touch what the invariant is about; [H] says where run
    was. *)
Ltac framed H :=
  eapply isolated_frame;
  [eassumption|reflexivity|reflexivity|reflexivity|reflexivity|reflexivity
  |first [done|by intros [=]|by intros []%andb_true_iff]
  |intros ? Hrun; cbn in Hrun; rewrite ?H in *; simplify_eq/=; eauto 6
  |cbn; rewrite ?H; cbn; try done; by match goal with Hat : s_at _ = _ |- _ => rewrite Hat end].

Lemma apply_event_isolated c s a u :
  isolated c -> run_at c = InStream s -> s_sent s = Some a -> mu c = None -> s_at s = Reading ->
  (forall f, f ∈ carried u -> evaluated a f) -> isolated (apply_event clientEvaluated s u c).
Proof.
  intros Hi H Ha Hm Hat Hu. unfold apply_event.
  destruct (ignored u || negb (contextRevision c =? s_revision s)%N) eqn:E; [done|].
  apply orb_false_iff in E as [_ E%negb_false_iff%N.eqb_eq].
  set (c1 := set_featureEvents _ _).
  assert (forall k f, clientEvaluated = false -> features (repo c1) !! k = Some f -> evaluated (attributes c) f) as Hval.
  { intros k f Hce Hf. cbn in Hf. eapply update_features_Forall; [| |exact Hf].
    - intros k' f' Hf'. rewrite Hce in Hf'. cbn in Hf'.
      destruct (N.eqb_spec (featureContextRevision (repo c)) (s_revision s)) as [E1|E1]; [|done].
      eapply (i_values c Hi); [done|congruence|exact Hf'].
    - intros g Hg. rewrite <-(i_sent c Hi s a Hce H Ha (eq_sym E)). by apply Hu. }
  assert (featureContextRevision (repo c1) = contextRevision c) as Hfcr by done.
  assert (clientEvaluated = false -> ready c = true -> mu c <> Some ByContext -> readyRevision c = contextRevision c) as Hrr
    by (intros; by apply (i_ready c Hi)).
  destruct Hi. rewrite H in i_mu0.
  destruct u; constructor; unfold at_stream in *; cbn -[update_features] in *; intros; simplify_eq/=; eauto 2; try lia.
  all: try (split; [apply Hrr; [done..|by rewrite Hm]|congruence]).
  all: try (rewrite H; cbn; rewrite Hat, Hm; done).
  all: rewrite H in *; simplify_eq/=; by rewrite Hat in *.
Qed.

Lemma after_stream_leaves now refreshed permanent e received ls :
  let p := (after_stream now refreshed permanent e received ls).2 in
  (forall s, p <> InStream s) /\ holds p = false.
Proof.
  cbn. unfold after_stream. destruct refreshed; [|done].
  destruct (if (retryAttempt _ =? 0)%Z then _ else _) as [ls' []]; done.
Qed.

Lemma isolated_step c c' : proper defaults -> isolated c -> step c c' -> isolated c'.
Proof.
  intros Hd Hi Hstep.
  destruct Hstep as [c H|c s H Hsn Hm|c s a u H Ha Hat Hm Hu|c s H Hat|c s H Hat|c s H Hat|c s H Hm Hrf|c s H Hm Hc|c s H Hat Hc
    |c s permanent e H Hat Hm Hc Hpos refreshed|c o H|c o H|c o H|c e b H|c u b H Hrf|c u b H Ht|c u b H Hc|c ch H|c H|c n H
    |c g d Hin Ht|c|c Hc|c i Hi'|c i w Hi'|c i w n Hi' Hw|c t Ht].
  all: try solve [framed H].
  - (* top *)
    destruct Hi. constructor; cbn; try done; try (intros; simplify_eq/=; lia).
    by rewrite i_mu0, H.
  - (* request *)
    destruct Hi. constructor; cbn; try done.
    + by rewrite i_mu0, H.
    + intros s' [= <-]. cbn. by apply i_stream0.
    + intros s' [= <-]. cbn. by apply i_held0.
    + intros s' a Hce [= <-]. cbn. by intros [= <-].
  - by eapply apply_event_isolated.
  - (* store *)
    destruct Hi. destruct (i_held0 s H ltac:(cbn; by rewrite Hat)) as (E1 & E2 & _).
    constructor; cbn; try done.
    + rewrite i_mu0, H. cbn. by rewrite Hat.
    + lia.
    + intros s' [= <-]. cbn. lia.
    + intros s' [= <-] _. cbn. done.
    + intros s' a Hce [= <-]. cbn. eauto.
  - (* publish *)
    destruct Hi. destruct (i_held0 s H ltac:(cbn; by rewrite Hat)) as (E1 & E2 & E3).
    constructor; cbn; try done.
    + intros s' [= <-]. cbn. lia.
    + intros s' [= <-]. done.
    + intros _ _ _. auto.
    + intros s' a Hce [= <-]. cbn. eauto.
  - (* signal *)
    eapply isolated_frame; [exact Hi|reflexivity..|done| |by cbn; rewrite H; cbn; rewrite Hat].
    intros s' [= <-]. by exists s.
  - destruct (after_stream_leaves (clock c) refreshed permanent e (negb (featureEvents c =? s_before s)%N) (loop c)) as [Hl1 Hl2].
    destruct refreshed; (eapply isolated_frame; [exact Hi|reflexivity..|done| |]); cbn -[after_stream].
    1,3: intros s' E; by apply Hl1 in E.
    all: rewrite Hl2, H; cbn; by rewrite Hat.
  - destruct (o_stale o && ready c); framed H.
  - unfold retainReadyDuringStaleWindow. destruct (cancelled c); [framed H|]. destruct (staleTimer c); framed H.
  - destruct (o_permanent o); framed H.
  - destruct (b && negb (staleInterrupted (loop c))); framed H.
  - (* context *)
    unfold begin_context. destruct (change_attributes defaults ch (attributes c)) as [a changed] eqn:Ec.
    pose proof (change_proper ch (attributes c) Hd ltac:(apply Hi)) as Hp. rewrite Ec in Hp. cbn in Hp.
    destruct (changed && negb clientEvaluated) eqn:Eb.
    + apply andb_true_iff in Eb as [_ Eb%negb_true_iff]. destruct Hi. destruct i_bounds0.
      assert (holds (run_at c) = false) as Hno by (destruct (holds (run_at c)); [by rewrite (proj2 i_mu0) in H|done]).
      constructor; cbn; try done; try lia.
      * by rewrite Hno.
      * intros s E. specialize (i_stream0 s E). lia.
      * intros s E Hs. rewrite E in Hno. cbn in Hno. congruence.
      * intros s b Hce E _ Erev. specialize (i_stream0 s E). lia.
    + destruct clientEvaluated eqn:Ece.
      * destruct Hi. constructor; cbn; auto; intros; congruence.
      * rewrite andb_true_r in Eb. subst changed. apply change_unchanged in Ec as ->; [|apply Hi]. framed H.
  - (* context end *)
    destruct Hi. assert (holds (run_at c) = false) as Hno by (destruct (holds (run_at c)); [by rewrite (proj2 i_mu0) in H|done]).
    constructor; cbn; try done. by rewrite Hno.
  - unfold stale_expired. destruct (_ || _); framed H.
Qed.

Lemma reached_ind (P : Client -> Prop) :
  (forall now, P (new_client defaults now)) -> (forall c c', P c -> step c c' -> P c') -> forall c, reached c -> P c.
Proof.
  intros H0 Hs c [now Hrun]. remember (new_client defaults now) as c0 eqn:E0.
  assert (P c0) as Hp by (subst; apply H0). clear E0. induction Hrun; eauto.
Qed.

Lemma isolated_reached c : proper defaults -> reached c -> isolated c.
Proof.
  intros Hd. apply reached_ind; [|intros; by eapply isolated_step]. intros now. by constructor.
Qed.

(** C7: While a server-evaluated client says it is ready and no context change
    is under way, its repository belongs to the current context revision and
    holds only features the edge evaluated for the attributes the client has
    now, provided no default attribute has an empty list of values ([proper]):
    neither a context change racing with a request, nor a buffered event of an
    old stream, nor a reconnect makes it show the values of another user.
    [evaluated a f] stands for what the edge sends about [a]. *)
Theorem ready_values_of_context c :
  proper defaults -> clientEvaluated = false -> reached c ->
  ready c = true -> mu c <> Some ByContext ->
  readyRevision c = contextRevision c /\
  (forall key f, features (repo c) !! key = Some f -> evaluated (attributes c) f).
Proof.
  intros Hd Hce Hc%isolated_reached Hr Hm; [|done]. destruct (i_ready c Hc Hce Hr Hm) as [E1 E2].
  split; [done|]. intros key f Hf. by eapply (i_values c Hc).
Qed.

(** ** WaitReady *)

(** The condition WaitReady waits for. *)
Definition satisfied (w : waiter) (c : Client) : bool := ready c && (clientEvaluated || new_enough w c).

(** The stream goroutine is about to signal. *)
Definition pending (p : pc) : bool :=
  match p with
  | InStream s => match s_at s with Publish | SignalReady => true | _ => false end
  | _ => false
  end.

(** What holds of a call of WaitReady wherever it is. *)
Definition waiter_ok (c : Client) (w : waiter) : Prop :=
  match w_at w with
  | FirstRevision => clientEvaluated = false /\ receivedInitial c = true
  | SecondLook n => (n <= signals c)%N
  | SecondRevision n => clientEvaluated = false /\ receivedInitial c = true /\ (n <= signals c)%N
  | Select n => (n <= signals c)%N /\ (n = signals c -> satisfied w c = true -> pending (run_at c) = true)
  | WReturned true => receivedInitial c = true /\ (clientEvaluated = false -> new_enough w c = true)
  | _ => True
  end.

Record awake (c : Client) : Prop := {
  a_ready : ready c = true -> receivedInitial c = true;
  a_waiters i w : waiters c !! i = Some w -> waiter_ok c w
}.

Lemma waiter_ok_frame c c' w :
  (receivedInitial c = true -> receivedInitial c' = true) -> (readyRevision c <= readyRevision c')%N ->
  (signals c <= signals c')%N ->
  (satisfied w c' = true -> signals c' = signals c ->
     (satisfied w c = true /\ (pending (run_at c) = true -> pending (run_at c') = true)) \/ pending (run_at c') = true) ->
  waiter_ok c w -> waiter_ok c' w.
Proof.
  intros Hi Hr Hs Hp. unfold waiter_ok. destruct (w_at w) as [| | |n|n|n|[]]; [done|naive_solver|done|lia|naive_solver lia| | |done].
  - intros [Hn Hw]. split; [lia|]. intros -> Hsat. assert (signals c' = signals c) as E by lia.
    destruct (Hp Hsat E) as [[H1 H2]|?]; [|done]. apply H2, Hw; [done|done].
  - intros [? H]. split; [auto|]. intros Hce. specialize (H Hce). unfold new_enough in *. apply N.leb_le in H. apply N.leb_le. lia.
Qed.

Lemma awake_frame c c' :
  awake c -> waiters c' = waiters c ->
  (receivedInitial c = true -> receivedInitial c' = true) -> (ready c' = true -> receivedInitial c' = true) ->
  (readyRevision c <= readyRevision c')%N -> (signals c <= signals c')%N ->
  (forall w, satisfied w c' = true -> signals c' = signals c ->
     (satisfied w c = true /\ (pending (run_at c) = true -> pending (run_at c') = true)) \/ pending (run_at c') = true) ->
  awake c'.
Proof.
  intros [Hr Hw] Ew Hi Hr' Hrev Hs Hp. constructor; [done|]. rewrite Ew. intros i w Hin.
  eapply waiter_ok_frame; eauto.
Qed.

Lemma look_ok c w : (ready c = true -> receivedInitial c = true) -> waiter_ok c w ->
  waiter_ok c (MkWaiter (targetRevision w) (look clientEvaluated w c)).
Proof.
  intros Hr. unfold waiter_ok, look, satisfied. cbn [w_at targetRevision].
  destruct (w_at w) as [| | |n|n|n|b] eqn:Ew.
  - intros _. destruct (ready c); [|done]. destruct clientEvaluated; naive_solver.
  - intros [Hce Hrec]. destruct (new_enough w c) eqn:En; [|done]. eauto.
  - intros _. lia.
  - intros Hn. destruct (ready c); [|done]. destruct clientEvaluated; naive_solver.
  - intros (Hce & Hrec & Hn). destruct (new_enough w c) eqn:En; [by eauto|]. split; [done|]. intros _.
    unfold new_enough in *. cbn in *. rewrite Hce, En, andb_false_r. done.
  - intros [Hn Hs]. destruct (N.ltb_spec n (signals c)); [done|]. split; [done|].
    intros -> . apply Hs. done.
  - by destruct b.
Qed.

Lemma insert_waiter_awake c i w :
  awake c -> waiter_ok c w -> awake (set_waiters (<[i := w]> (waiters c)) c).
Proof.
  intros [Hr Hw] Hok. constructor; [done|]. intros j w'. cbn. rewrite lookup_insert_Some.
  intros [[_ <-]|[_ Hj]]; [exact Hok|]. exact (Hw j w' Hj).
Qed.

Ltac waits H :=
  eapply awake_frame;
  [eassumption|reflexivity|cbn; auto|cbn; eauto using a_ready|cbn; lia|cbn; lia
  |intros w' Hsat ?; left; split;
   [first [exact Hsat|done]
   |cbn; rewrite ?H; cbn; first [done|by match goal with Hat : s_at _ = _ |- _ => rewrite Hat end]]].

Lemma awake_step c c' : isolated c -> awake c -> step c c' -> awake c'.
Proof.
  intros Hi Hw Hstep.
  destruct Hstep as [c H|c s H Hsn Hm|c s a u H Ha Hat Hm Hu|c s H Hat|c s H Hat|c s H Hat|c s H Hm Hrf|c s H Hm Hc|c s H Hat Hc
    |c s permanent e H Hat Hm Hc Hpos refreshed|c o H|c o H|c o H|c e b H|c u b H Hrf|c u b H Ht|c u b H Hc|c ch H|c H|c n H
    |c g d Hin Ht|c|c Hc|c i Hi'|c i w Hi'|c i w n Hi' Hw'|c t Ht].
  all: try solve [waits H].
  - (* event *)
    unfold apply_event. destruct (ignored u || _); [done|]. destruct u; waits H.
  - (* store *)
    destruct (i_held c Hi s H ltac:(cbn; by rewrite Hat)) as (E & _ & _). destruct (i_bounds c Hi) as [Hb _].
    eapply awake_frame; [exact Hw|reflexivity|done|apply Hw|cbn; lia|cbn; lia|]. intros w' _ _. by right.
  - (* publish *)
    eapply awake_frame; [exact Hw|reflexivity|done|done|cbn; lia|cbn; lia|]. intros w' _ _. by right.
  - (* signal *)
    eapply awake_frame; [exact Hw|reflexivity|done|apply Hw|cbn; lia|cbn; lia|]. cbn. intros w' _ ?. lia.
  - destruct refreshed; waits H.
  - destruct (o_stale o && ready c); [waits H|].
    eapply awake_frame; [exact Hw|reflexivity|done|done|cbn; lia|cbn; lia|]. done.
  - unfold retainReadyDuringStaleWindow. destruct (cancelled c); [waits H|]. destruct (staleTimer c); waits H.
  - destruct (o_permanent o); waits H.
  - destruct (b && negb (staleInterrupted (loop c))); waits H.
  - unfold begin_context. destruct (change_attributes _ _ _) as [a changed].
    destruct (changed && negb clientEvaluated); waits H.
  - (* context end *)
    eapply awake_frame; [exact Hw|reflexivity|done|done|cbn; lia|cbn; lia|]. done.
  - unfold stale_expired. destruct (_ || _); [waits H|].
    eapply awake_frame; [exact Hw|reflexivity|done|done|cbn; lia|cbn; lia|]. done.
  - by apply insert_waiter_awake.
  - apply insert_waiter_awake; [done|]. apply look_ok; [apply Hw|]. by eapply a_waiters.
  - by apply insert_waiter_awake.
Qed.

Lemma awake_reached c : proper defaults -> reached c -> isolated c /\ awake c.
Proof.
  intros Hd. apply (reached_ind (fun c => isolated c /\ awake c)).
  - intros now. split; [by constructor|]. constructor; [done|]. intros j x E. cbn in E. by rewrite lookup_empty in E.
  - intros c1 c2 [Hi Ha] Hs. split; [by eapply isolated_step|by eapply awake_step].
Qed.

(** C36: WaitReady is sound and sleeps through nothing.  When it returns nil a
    full set has been accepted, for a server-evaluated client one of the
    context of the call or a later one; and a call blocked in its select on the
    signal channel of now, although its condition holds, is about to be woken:
    the stream goroutine is on its way to the signal.  As above, no default
    attribute has an empty list of values. *)
Theorem WaitReady_not_missed c i w :
  proper defaults -> reached c -> waiters c !! i = Some w ->
  (w_at w = WReturned true ->
     receivedInitial c = true /\ (clientEvaluated = false -> (targetRevision w <= readyRevision c)%N)) /\
  (forall n, w_at w = Select n ->
     (n <= signals c)%N /\ (n = signals c -> satisfied w c = true -> pending (run_at c) = true)).
Proof.
  intros Hd Hc Hw. destruct (awake_reached c Hd Hc) as [_ Ha].
  pose proof (a_waiters c Ha i w Hw) as Hok. unfold waiter_ok in Hok. split.
  - intros E. rewrite E in Hok. destruct Hok as [H1 H2]. split; [done|]. intros Hce. by apply N.leb_le, H2.
  - intros n E. by rewrite E in Hok.
Qed.

(** ** The stale window *)

(** The timer of a generation is armed for a deadline. *)
Definition armed (generation : N) (deadline : Z) (c : Client) : Prop :=
  staleTimer c = Some generation /\ staleGeneration c = generation /\ (generation, deadline) ∈ callbacks c.

Definition expiring (generation : N) (deadline : Z) (c : Client) : Prop :=
  holds (run_at c) = false /\ (ready c = false \/ armed generation deadline c).

Lemma step_monotone c c' : step c c' ->
  (featureEvents c <= featureEvents c')%N /\ (cancelled c = true -> cancelled c' = true).
Proof.
  intros [].
  all: unfold apply_event, retainReadyDuringStaleWindow, begin_context, stale_expired, set_loop_at;
    repeat case_match; cbn; split; (done || lia).
Qed.

Lemma expiring_step g d c c' :
  expiring g d c -> step c c' -> featureEvents c' = featureEvents c -> cancelled c' = false -> expiring g d c'.
Proof.
  intros [Hh Hr] Hstep Hev Hcan. unfold expiring, armed in *.
  destruct Hstep as [c H|c s H Hsn Hm|c s a u H Ha Hat Hm Hu|c s H Hat|c s H Hat|c s H Hat|c s H Hm Hrf|c s H Hm Hc|c s H Hat Hc
    |c s permanent e H Hat Hm Hc Hpos refreshed|c o H|c o H|c o H|c e b H|c u b H Hrf|c u b H Ht|c u b H Hc|c ch H|c H|c n H
    |c g' d' Hin Ht|c|c Hc|c i Hi'|c i w Hi'|c i w n Hi' Hw'|c t Ht].
  all: try solve [cbn in *; rewrite ?H in *; cbn in *; split; auto].
  - unfold apply_event in *. destruct (ignored u || _); [done|]. exfalso. destruct u; cbn in Hev; lia.
  - rewrite H in Hh. cbn in Hh. by rewrite Hat in Hh.
  - rewrite H in Hh. cbn in Hh. by rewrite Hat in Hh.
  - destruct (after_stream_leaves (clock c) refreshed permanent e (negb (featureEvents c =? s_before s)%N) (loop c)) as [_ Hl].
    destruct refreshed; cbn -[after_stream]; rewrite Hl; auto.
  - destruct (o_stale o && ready c); cbn; auto.
  - unfold retainReadyDuringStaleWindow in *. split; [by destruct (cancelled c), (staleTimer c)|].
    destruct Hr as [Hr|(E & Eg & Hin)]; [left; by destruct (cancelled c), (staleTimer c)|].
    right. rewrite E. by destruct (cancelled c).
  - destruct (o_permanent o); cbn; auto.
  - destruct (b && _); cbn; auto.
  - unfold begin_context in *. destruct (change_attributes _ _ _) as [a changed]. destruct (changed && _); cbn; auto.
  - unfold stale_expired in *. destruct (negb (g' =? staleGeneration c)%N || cancelled c) eqn:E; cbn in *; [|auto].
    split; [done|]. destruct Hr as [Hr|(Et & Eg & Hin')]; [auto|]. right. split_and!; [done..|].
    apply list_elem_of_filter. split; [|done]. intros [= -> ->].
    apply orb_true_iff in E as [E|E]; [|congruence]. by rewrite Eg, N.eqb_refl in E.
  - cbn in Hcan. congruence.
Qed.

(** A stale edge cannot keep a snapshot ready for longer than the retention
    bound.  From the first stale reply that finds a ready client, and until an
    event about features arrives, the client is not ready or a timer is armed
    for the deadline that reply fixed, at most 30 s after it: later stale
    replies never move it, and once it has passed the expiry can run and takes
    the readiness away. *)
Theorem stale_snapshot_expires c0 o c :
  run_at c0 = Retain o -> cancelled c0 = false -> staleTimer c0 = None ->
  rtc step (set_run_at (Count o) (retainReadyDuringStaleWindow staleRetention c0)) c ->
  featureEvents c = featureEvents c0 -> cancelled c = false -> ready c = true ->
  exists generation deadline,
    (deadline <= clock c0 + maxRetainedSnapshotAge)%Z /\ armed generation deadline c /\
    ((deadline <= clock c)%Z -> exists c', step c c' /\ ready c' = false).
Proof.
  intros H0 Hc0 Ht0 Hrun Hev Hcan Hready.
  set (g := (staleGeneration c0 + 1)%N). set (d := (clock c0 + retention_window staleRetention)%Z).
  set (c1 := set_run_at _ _) in Hrun.
  assert (expiring g d c1) as Hc1.
  { unfold c1, retainReadyDuringStaleWindow. rewrite Hc0, Ht0. split; [done|]. right. split_and!; [done..|by left]. }
  assert (featureEvents c = featureEvents c1) as Hev1.
  { rewrite Hev. unfold c1, retainReadyDuringStaleWindow. by rewrite Hc0, Ht0. }
  assert (expiring g d c) as [_ [Hr|Ha]].
  { clear Hev Hready. clearbody c1 g d. clear -Hrun Hc1 Hev1 Hcan. induction Hrun as [c|c1 c2 c3 Hs Hrun IH]; [done|].
    assert ((featureEvents c2 <= featureEvents c3)%N /\ (cancelled c2 = true -> cancelled c3 = true)) as [Hm1 Hm2].
    { clear -Hrun. induction Hrun as [|x y z Hs _ IH]; [done|]. apply step_monotone in Hs. split; [lia|]. intros; apply IH, Hs; done. }
    pose proof (step_monotone _ _ Hs) as [Hm3 _].
    apply IH; [done| |lia]. eapply expiring_step; [exact Hc1|exact Hs|lia|].
    destruct (cancelled c2); [|done]. rewrite Hm2 in Hcan; done. }
  { congruence. }
  exists g, d. split_and!; [|done|].
  - subst d. unfold retention_window. destruct (Z.leb_spec staleRetention 0); cbn; [lia|].
    destruct (Z.ltb_spec maxRetainedSnapshotAge staleRetention); lia.
  - intros Hd. destruct Ha as (_ & Eg & Hin). eexists. split; [by eapply step_expired|].
    unfold stale_expired. by rewrite Eg, N.eqb_refl, Hcan.
Qed.

(** ** Pacing in a stale window *)

Context (base_small : (reconnectDelay < 2 ^ 63)%Z).

Lemma retryDelayForAttempt_pos e n : (0 < retryDelayForAttempt reconnectDelay jitter e n)%Z.
Proof.
  pose proof (retryDelay_pos reconnectDelay (Some e)) as Hp. unfold retryDelayForAttempt.
  set (b := retryDelay reconnectDelay (Some e)) in *. destruct (is_stale e) eqn:Ee; [by destruct e|].
  assert (b < 2 ^ 63)%Z as Hb.
  { subst b. unfold retryDelay. assert (stale_of (Some e) = None) as -> by by destruct e.
    destruct (reconnectDelay <=? 0)%Z; [unfold defaultReconnectInterval, Second|]; lia. }
  set (m := if (maxReconnectInterval <? b)%Z then b else maxReconnectInterval).
  assert (b <= m < 2 ^ 63)%Z as Hm.
  { subst m. destruct (Z.ltb_spec maxReconnectInterval b); [lia|]. unfold maxReconnectInterval, Second in *. lia. }
  set (w := backoff (Z.to_nat (n - 1)) b m).
  assert (0 < w)%Z as Hw.
  { subst w. rewrite backoff_spec by lia. apply Z.min_glb_lt; [lia|]. apply Z.mul_pos_pos; [done|]. apply Z.pow_pos_nonneg; lia. }
  set (w' := if (m <? w)%Z then m else w). assert (0 < w')%Z as Hw' by (subst w'; destruct (m <? w)%Z; lia).
  set (j := if (0 <? jitter w')%Z then jitter w' else w').
  assert (0 < j)%Z as Hj by (subst j; destruct (Z.ltb_spec 0 (jitter w')); lia).
  clearbody j m w' w. destruct e; try done. destruct (Z.ltb_spec j retryAfter); [|done].
  destruct (m <? retryAfter)%Z; lia.
Qed.

Lemma stale_wait d n : (0 < d)%Z -> retryDelayForAttempt reconnectDelay jitter (EdgeStale d) n = d.
Proof.
  intros Hd. unfold retryDelayForAttempt, retryDelay. cbn. destruct (Z.ltb_spec 0 d); [|lia].
  destruct (Z.leb_spec d 0); lia.
Qed.

(** Where run may be while a window that ends at [e] has not let a request
    through. *)
Definition paced_at (now e : Z) (p : pc) : Prop :=
  match p with
  | Top | InStream _ => (e <= now)%Z
  | Fail o | Retain o | Count o => exists d, o_err o = EdgeStale d /\ (0 < d)%Z /\ (e <= now + d)%Z
  | Prepare err _ => (e <= now)%Z \/ exists d, err = EdgeStale d /\ (0 < d)%Z /\ (e <= now + d)%Z
  | Wait until _ => (e <= until)%Z
  | Exit => True
  end.

Record paced (c : Client) : Prop := {
  p_regime : staleWindowEnd (loop c) <> None -> (0 < staleRegimeDelay (loop c))%Z;
  p_window e : staleWindowEnd (loop c) = Some e -> staleInterrupted (loop c) = false -> paced_at (clock c) e (run_at c)
}.

Lemma paced_frame c c' : paced c -> loop c' = loop c -> run_at c' = run_at c -> (clock c <= clock c')%Z -> paced c'.
Proof.
  intros [Hr Hw] El Ep Ht. constructor; rewrite El; [done|]. intros e He Hi. specialize (Hw e He Hi). rewrite Ep.
  destruct (run_at c); cbn in *; try lia; naive_solver lia.
Qed.

Lemma paced_move c c' : paced c -> loop c' = loop c -> clock c' = clock c ->
  (forall e, paced_at (clock c) e (run_at c) -> paced_at (clock c) e (run_at c')) -> paced c'.
Proof. intros [Hr Hw] El Et Hp. constructor; rewrite El; [done|]. intros e He Hi. rewrite Et. auto. Qed.

Lemma after_stream_paced c s permanent e received :
  paced c -> run_at c = InStream s -> (forall d, e = EdgeStale d -> (0 < d)%Z) ->
  forall refreshed c', clock c' = clock c ->
  paced (set_loop_at (after_stream (clock c) refreshed permanent e received (loop c)) c').
Proof.
  intros [Hr Hw] H Hpos refreshed c' Et. rewrite H in Hw. cbn in Hw. unfold after_stream.
  set (ls := note_events received (loop c)).
  assert (staleWindowEnd ls <> None -> (0 < staleRegimeDelay ls)%Z) as Hr' by (subst ls; by destruct received).
  assert (forall t, staleWindowEnd ls = Some t -> staleInterrupted ls = false -> (t <= clock c)%Z) as Hw'
    by (subst ls; destruct received; cbn; [done|exact Hw]).
  clearbody ls. destruct refreshed.
  - destruct (if (retryAttempt ls =? 0)%Z then _ else _) as [ls' again] eqn:E.
    assert ((staleWindowEnd ls' <> None -> (0 < staleRegimeDelay ls')%Z) /\
            (forall t, staleWindowEnd ls' = Some t -> staleInterrupted ls' = false -> (t <= clock c)%Z)) as [H1 H2].
    { destruct (retryAttempt ls =? 0)%Z; [|by simplify_eq]. unfold on_refreshed in E.
      destruct (Z.leb_spec (staleRegimeDelay ls) 0); [by simplify_eq|].
      repeat case_match; simplify_eq/=; by split. }
    constructor; cbn; [exact H1|]. intros t E1 E2. rewrite Et. destruct again; cbn; [|left]; by apply H2.
  - constructor; cbn; unfold note_reply; destruct e; cbn; try done.
    + destruct (before_end (clock c) ls); cbn; intros _; by apply Hpos.
    + intros t. destruct (before_end (clock c) ls) eqn:Eb; cbn.
      * intros E1 E2. specialize (Hw' t E1 E2). unfold before_end in Eb. rewrite E1 in Eb. apply Z.ltb_lt in Eb. lia.
      * intros [= <-] _. exists delay. rewrite Et. split_and!; [done|by apply Hpos|lia].
Qed.

Lemma paced_step c c' : paced c -> step c c' -> paced c'.
Proof.
  intros Hp Hstep.
  destruct Hstep as [c H|c s H Hsn Hm|c s a u H Ha Hat Hm Hu|c s H Hat|c s H Hat|c s H Hat|c s H Hm Hrf|c s H Hm Hc|c s H Hat Hc
    |c s permanent e H Hat Hm Hc Hpos refreshed|c o H|c o H|c o H|c e b H|c u b H Hrf|c u b H Ht|c u b H Hc|c ch H|c H|c n H
    |c g' d' Hin Ht|c|c Hc|c i Hi'|c i w Hi'|c i w n Hi' Hw'|c t Ht].
  all: try solve [eapply paced_frame; [exact Hp|done..|cbn; lia]
                 |eapply paced_move; [exact Hp|done..|intros e'; cbn; rewrite ?H; done]].
  - unfold apply_event. destruct (ignored u || _); [done|].
    destruct u; (eapply paced_move; [exact Hp|done..|intros e'; cbn; rewrite H; done]).
  - eapply after_stream_paced; [exact Hp|exact H|exact Hpos|by destruct refreshed].
  - destruct (o_stale o && ready c); (eapply paced_move; [exact Hp|done..|intros e'; cbn; rewrite H; done]).
  - eapply paced_move; [exact Hp|..]; unfold retainReadyDuringStaleWindow; [by destruct (cancelled c), (staleTimer c)..|].
    intros e'. cbn. by rewrite H.
  - destruct (o_permanent o); [eapply paced_move; [exact Hp|done..|intros e'; done]|].
    destruct Hp as [Hr Hw]. constructor; cbn; unfold count_failure; destruct (_ && _); cbn; try done.
    all: intros e' E1 E2; specialize (Hw e' E1 E2); rewrite H in Hw; cbn in Hw; by right.
  - destruct Hp as [Hr Hw]. constructor; cbn; [done|]. intros e' E1 E2. specialize (Hw e' E1 E2). rewrite H in Hw. cbn in Hw.
    unfold wait_delay. rewrite E1, E2. cbn.
    destruct Hw as [Hw|(d & -> & Hd & Hw)].
    + pose proof (retryDelayForAttempt_pos e (retryAttempt (loop c))). lia.
    + rewrite stale_wait; lia.
  - destruct (b && _); [|by eapply paced_frame]. destruct Hp as [Hr Hw]. by constructor.
  - eapply paced_move; [exact Hp|done..|]. intros e'. rewrite H. cbn. lia.
  - unfold begin_context. destruct (change_attributes _ _ _) as [a changed]. destruct (changed && _); by eapply paced_frame.
  - unfold stale_expired. destruct (_ || _); by eapply paced_frame.
Qed.

Lemma paced_reached c : reached c -> paced c.
Proof. apply reached_ind; [intros now; by constructor|intros; by eapply paced_step]. Qed.

(** The window that ends at [e] has let its request through, and no event about
    features has come since there were [k]. *)
Definition spent (e : Z) (k : N) (c : Client) : Prop :=
  staleInterrupted (loop c) = true /\
  match run_at c with
  | Top => False
  | InStream s => s_before s = k
  | Wait until _ => (e <= until)%Z
  | _ => True
  end.

(** The window that ends at [e] is open. *)
Definition in_window (e : Z) (k : N) (c : Client) : Prop :=
  staleWindowEnd (loop c) = Some e /\ (clock c < e)%Z /\ featureEvents c = k.

Lemma spent_frame e k c c' : spent e k c -> loop c' = loop c -> run_at c' = run_at c -> spent e k c'.
Proof. unfold spent. by intros H -> ->. Qed.

Lemma spent_move e k c c' : spent e k c -> loop c' = loop c ->
  match run_at c' with Top | Wait _ _ | InStream _ => False | _ => True end -> spent e k c'.
Proof. unfold spent. intros [Hi _] -> Hp. split; [done|]. by destruct (run_at c'). Qed.

Lemma after_stream_spent now refreshed permanent err ls :
  staleInterrupted ls = true -> (0 < staleRegimeDelay ls)%Z -> before_end now ls = true ->
  let (ls', p) := after_stream now refreshed permanent err false ls in
  staleWindowEnd ls' <> None ->
  staleInterrupted ls' = true /\ match p with Top | Wait _ _ | InStream _ => False | _ => True end.
Proof.
  intros Hi Hr Hb. unfold after_stream. cbn [note_events]. destruct refreshed.
  - unfold on_refreshed. destruct (Z.leb_spec (staleRegimeDelay ls) 0); [lia|]. rewrite Hb, Hi. cbn.
    by destruct (retryAttempt ls =? 0)%Z.
  - unfold note_reply. destruct err; try done. by rewrite Hb.
Qed.

Lemma spent_step e k c c' :
  paced c -> spent e k c -> in_window e k c -> step c c' -> in_window e k c' -> spent e k c'.
Proof.
  intros [Hreg _] Hsp (Hw & Ht & Hk) Hstep (Hw' & _ & Hk').
  destruct Hstep as [c H|c s H Hsn Hm|c s a u H Ha Hat Hm Hu|c s H Hat|c s H Hat|c s H Hat|c s H Hm Hrf|c s H Hm Hc|c s H Hat Hc
    |c s permanent err H Hat Hm Hc Hpos refreshed|c o H|c o H|c o H|c err b H|c u b H Hrf|c u b H Htm|c u b H Hc|c ch H|c H|c n H
    |c g' d' Hin Htm|c|c Hc|c i Hi'|c i w Hi'|c i w n Hi' Hw''|c t Htm].
  all: try solve [eapply spent_frame; [exact Hsp|done..]|eapply spent_move; [exact Hsp|done..]
                 |unfold spent in *; cbn in *; rewrite ?H in *; cbn in *; tauto].
  - unfold apply_event in *. destruct (ignored u || _); [done|]. exfalso. destruct u; cbn in Hk'; lia.
  - unfold spent in *. rewrite H in Hsp. destruct Hsp as [Hi Hs].
    pose proof (after_stream_spent (clock c) refreshed permanent err (loop c) Hi ltac:(apply Hreg; by rewrite Hw)
      ltac:(unfold before_end; rewrite Hw; by apply Z.ltb_lt)) as Ha.
    assert (featureEvents c =? s_before s = true)%N as E by (apply N.eqb_eq; congruence).
    rewrite E in *. cbn -[after_stream] in *. destruct (after_stream _ _ _ _ _ _) as [ls' p].
    assert (staleWindowEnd ls' = Some e) as Hls by by destruct refreshed.
    destruct Ha as [Ha1 Ha2]; [by rewrite Hls|]. split; [by destruct refreshed|].
    destruct refreshed; cbn; by destruct p.
  - destruct (o_stale o && ready c); (eapply spent_move; [exact Hsp|done..]).
  - eapply spent_move; [exact Hsp|..]; unfold retainReadyDuringStaleWindow; by destruct (cancelled c), (staleTimer c).
  - destruct (o_permanent o); [eapply spent_move; [exact Hsp|done..]|]. destruct Hsp as [Hi _]. unfold spent, count_failure.
    by destruct (_ && _).
  - unfold spent in *. cbn. destruct Hsp as [Hi _]. split; [done|]. unfold wait_delay. rewrite Hw, Hi.
    apply Z.ltb_lt in Ht. rewrite Ht. cbn. lia.
  - destruct Hsp as [Hi Hp]. rewrite Hi, andb_false_r. by eapply spent_frame.
  - unfold spent in *. rewrite H in Hsp. lia.
  - unfold begin_context in *. destruct (change_attributes _ _ _) as [a changed]. destruct (changed && _); by eapply spent_frame.
  - unfold stale_expired. destruct (_ || _); by eapply spent_frame.
Qed.

(** Context changes cannot turn a stale regime into a reconnect storm.  A
    request that starts before the end of a stale window is the interrupt of
    that window, and until the window ends or is closed by an event about
    features or by another kind of failure, no second request starts, however
    many context changes, refused or cancelled streams and stale replies there
    are. *)
Theorem one_request_per_stale_window c e :
  reached c -> run_at c = Top -> staleWindowEnd (loop c) = Some e -> (clock c < e)%Z ->
  staleInterrupted (loop c) = true /\
  (forall c1 c2, step c c1 -> run_at c1 <> Top -> in_window e (featureEvents c) c1 ->
     rtc (fun a b => step a b /\ in_window e (featureEvents c) b) c1 c2 -> run_at c2 <> Top).
Proof.
  intros Hc Hat Hw Ht. pose proof (paced_reached c Hc) as Hp.
  assert (staleInterrupted (loop c) = true) as Hi.
  { destruct (staleInterrupted (loop c)) eqn:E; [done|]. pose proof (p_window c Hp e Hw E) as H. rewrite Hat in H. cbn in H. lia. }
  split; [done|]. intros c1 c2 Hs Htop Hin Hrun.
  assert (spent e (featureEvents c) c1) as Hsp.
  { assert (run_at c1 = InStream (MkStream (contextRevision c) (featureEvents c) Running None Reading) /\ loop c1 = loop c) as [E1 E2].
    { destruct Hs; try congruence; try (by rewrite Hat in *); try done.
      - unfold begin_context in *. destruct (change_attributes _ _ _). by destruct (_ && _).
      - unfold stale_expired in *. by destruct (_ || _). }
    unfold spent. by rewrite E1, E2. }
  pose proof (paced_step _ _ Hp Hs) as Hp1. clear -Hsp Hin Hrun Hp1 base_small. induction Hrun as [c1|c1 c2 c3 [Hs Hw] Hrun IH].
  - intros E. unfold spent in Hsp. rewrite E in Hsp. tauto.
  - apply IH; [done|by eapply spent_step|by eapply paced_step].
Qed.
End proofs.
