(* ===== verification/FeatureContext.v ===== *)
(** * package feature, evaluation contexts

    The x-featurehub header and EvaluationContext of feature/context.go, with
    consumeEvaluationSnapshot of feature/flags.go.  A context is a step
    relation: setters, Clear, and any number of Builds that take their snapshot
    of the attributes, wait for the outside world, and store its answer. *)

From S2P Require Import Prelude.
From S2P Require Import GoStrings.
From S2P Require Import Feature.
From S2P Require Import FeatureRepo.
From S2P Require Import FeatureSSE.
From S2P Require Import FeatureStream.

(** ** The header *)

Definition isURIComponentByte (value : ascii) : bool :=
  is_lower value || is_upper value || is_digit value || contains (String value EmptyString) "-_.!~*'()".

Definition hexadecimal : string := "0123456789ABCDEF".

(** hexadecimal[n] *)
Definition hex_digit (n : N) : ascii :=
  match String.get (N.to_nat n) hexadecimal with Some c => c | None => ascii_of_nat 0 end.

Fixpoint encodeURIComponent (value : string) : string :=
  match value with
  | EmptyString => EmptyString
  | String c r =>
      if isURIComponentByte c then String c (encodeURIComponent r)
      else String "%" (String (hex_digit (N.shiftr (byte_of c) 4))
             (String (hex_digit (N.land (byte_of c) 15)) (encodeURIComponent r)))
  end.

Definition header_entry (kv : string * list string) : string :=
  kv.1 +:+ "=" +:+ encodeURIComponent (join "," kv.2).

(** The entries are sorted, so the order in which Go visits the map does not
    matter. *)
Definition featureHubContextHeader (attributes : client) : string :=
  join "," (merge_sort String.le (header_entry <$> map_to_list attributes)).

(** ** The snapshot of a context *)

Section snapshot.
Context {V : Type}.
Context (parse_object : string -> option (gmap string string)) (parse_value : string -> option json)
        (parse_features : string -> option (list (option (featureState V)))) (ParseFloat : string -> option float64).
Context (reconnectDelay : Z).

(** The map consumeEvaluationSnapshot builds: a later entry of a key wins. *)
Definition snapshot_features (states : list (option (featureState V))) : gmap string (featureState V) :=
  foldl (fun m f => <[FeatureKey f := f]> m) ∅ (usable states).

(** consumeEvaluationSnapshot on the lines of its response: it answers at the
    first features event, and fails with the stream. *)
Fixpoint consumeEvaluationSnapshot (e : featureSSEEvent) (lines : list string) :
    result stream_error (gmap string (featureState V)) :=
  match lines with
  | [] => Err StreamEOF
  | line :: lines =>
      if negb (is_empty line) then
        match appendLine line e with
        | Err EventTooLarge => Err TooLarge
        | Ok e => consumeEvaluationSnapshot e lines
        end
      else if String.eqb (event_name e) "features" then
        match parse_features (event_data e) with
        | Some states => Ok (snapshot_features states)
        | None => Err (Undecodable "features")
        end
      else if String.eqb (event_name e) "failure" || String.eqb (event_name e) "error" then Err (Emitted (event_name e))
      else if String.eqb (event_name e) "bye" then Err StreamEOF
      else
        let stale :=
          if String.eqb (event_name e) "config" then
            config ← parse_object (event_data e);
            raw ← config !! "edge.stale";
            match edgeStaleSeconds parse_value ParseFloat raw with Ok seconds => seconds | Err _ => None end
          else None in
        match stale with
        | Some seconds => Err (EdgeStale (staleDelay reconnectDelay seconds))
        | None => consumeEvaluationSnapshot no_event lines
        end
  end.
End snapshot.

(** ** Contexts *)

(** Which client a context belongs to: one of Init, or a streaming one. *)
Inductive client_kind := Legacy | ClientEvaluated | ServerEvaluated.

Section context.
Context {V W : Type}.          (* feature values; values of the polling client *)

(** A Build between its two critical sections. *)
Record build := MkBuild { b_attributes : client; b_revision : N }.

Record EvaluationContext := MkContext {
  x_attributes : client;
  x_features : option (gmap string (featureState V));
  x_legacyValues : option W;
  x_built : bool;
  x_revision : N;
  x_builds : gmap nat build     (* Builds under way *)
}.

Definition NewContext (defaults : client) : EvaluationContext := MkContext defaults None None false 0 ∅.

(** What every change of the attributes does. *)
Definition changed (a : client) (c : EvaluationContext) : EvaluationContext :=
  MkContext a None None false (x_revision c + 1) (x_builds c).

Definition AttributeValues (key : string) (values : list string) (c : EvaluationContext) : EvaluationContext :=
  if String.eqb (trim_space key) EmptyString then c
  else changed (match values with [] => delete key (x_attributes c) | _ => <[key := values]> (x_attributes c) end) c.

Definition Clear (defaults : client) (c : EvaluationContext) : EvaluationContext := changed defaults c.

Definition Build_start (i : nat) (c : EvaluationContext) : EvaluationContext :=
  MkContext (x_attributes c) (x_features c) (x_legacyValues c) (x_built c) (x_revision c)
    (<[i := MkBuild (x_attributes c) (x_revision c)]> (x_builds c)).

(** What a Build waits for: the values of legacyClient.snapshotFor, WaitReady,
    or evaluatedFeaturesForContext. *)
Inductive answer :=
| Values (v : W)
| Ready
| Snapshot (m : gmap string (featureState V)).

(** The second critical section of Build, and whether it returns nil. *)
Definition Build_end (i : nat) (b : build) (a : answer) (c : EvaluationContext) : EvaluationContext * bool :=
  let builds := delete i (x_builds c) in
  if negb (x_revision c =? b_revision b)%N
  then (MkContext (x_attributes c) (x_features c) (x_legacyValues c) (x_built c) (x_revision c) builds, false)
  else
    (match a with
     | Values v => MkContext (x_attributes c) None (Some v) true (x_revision c) builds
     | Ready => MkContext (x_attributes c) (x_features c) (x_legacyValues c) true (x_revision c) builds
     | Snapshot m => MkContext (x_attributes c) (Some m) (x_legacyValues c) true (x_revision c) builds
     end, true).

(** A Build whose wait failed. *)
Definition Build_failed (i : nat) (c : EvaluationContext) : EvaluationContext :=
  MkContext (x_attributes c) (x_features c) (x_legacyValues c) (x_built c) (x_revision c) (delete i (x_builds c)).

Context (kind : client_kind) (defaults : client).
(** What the server may answer to a request with these attributes; the polling
    client sends the first user key and session key of them. *)
Context (evaluates : client -> gmap string (featureState V) -> Prop) (polls : string -> string -> W -> Prop).

Definition first_of (a : client) (key : string) : string :=
  match attribute_values a key with v :: _ => v | [] => EmptyString end.

Definition answers (b : build) (a : answer) : Prop :=
  match kind, a with
  | Legacy, Values v => polls (first_of (b_attributes b) "userkey") (first_of (b_attributes b) "session") v
  | ClientEvaluated, Ready => True
  | ServerEvaluated, Snapshot m => evaluates (b_attributes b) m
  | _, _ => False
  end.

Inductive xstep : EvaluationContext -> EvaluationContext -> Prop :=
| x_values c key values : xstep c (AttributeValues key values c)
| x_clear c : xstep c (Clear defaults c)
| x_start c i : x_builds c !! i = None -> xstep c (Build_start i c)
| x_end c i b a : x_builds c !! i = Some b -> answers b a -> xstep c (Build_end i b a c).1
| x_failed c i b : x_builds c !! i = Some b -> xstep c (Build_failed i c).

(** evaluatedValue: the value, its type and whether there is one, of a context
    of a client; [shared] is evaluatedValueFor of the client. *)
Definition context_value (value_of : W -> string -> option V) (is_nil : V -> bool) (type_of : V -> string)
    (shared : string -> client -> option (V * string * bool)) (c : EvaluationContext) (key : string) :
    option (V * string * bool) :=
  match kind with
  | Legacy =>
      if negb (x_built c) then None
      else v ← x_legacyValues c ≫= (fun w => value_of w key); Some (v, type_of v, negb (is_nil v))
  | ServerEvaluated =>
      if negb (x_built c) then None
      else f ← x_features c ≫= (.!! key); Some (FeatureValue f, FeatureType f, negb (is_nil (FeatureValue f)))
  | ClientEvaluated => shared key (x_attributes c)
  end.

(** ** What a built context holds *)

Record built_for (c : EvaluationContext) : Prop := {
  x_pending i b : x_builds c !! i = Some b ->
    (b_revision b <= x_revision c)%N /\ (b_revision b = x_revision c -> b_attributes b = x_attributes c);
  x_current : x_built c = true ->
    match kind with
    | Legacy => exists v, x_legacyValues c = Some v /\
                          polls (first_of (x_attributes c) "userkey") (first_of (x_attributes c) "session") v
    | ClientEvaluated => True
    | ServerEvaluated => exists m, x_features c = Some m /\ evaluates (x_attributes c) m
    end
}.

Lemma built_for_changed a c : built_for c -> built_for (changed a c).
Proof. intros [Hp _]. constructor; cbn; [|done]. intros i b H. destruct (Hp i b H). lia. Qed.

Lemma built_for_delete c i : built_for c -> built_for (Build_failed i c).
Proof. intros [Hp Hc]. constructor; cbn; [|done]. intros j b [_ H]%lookup_delete_Some. by eapply Hp. Qed.

Lemma built_for_step c c' : built_for c -> xstep c c' -> built_for c'.
Proof.
  intros Hb Hs. destruct Hs as [c key values|c|c i Hi|c i b a Hi Ha|c i b Hi]; cbn -[AttributeValues Clear].
  - unfold AttributeValues. destruct (String.eqb (trim_space key) _); [done|by apply built_for_changed].
  - by apply built_for_changed.
  - destruct Hb as [Hp Hc]. constructor; cbn; [|done].
    intros j b [[-> <-]|[_ Hj]]%lookup_insert_Some; [done|by eapply Hp].
  - unfold Build_end. destruct (N.eqb_spec (x_revision c) (b_revision b)) as [E|E]; cbn.
    2:{ exact (built_for_delete c i Hb). }
    pose proof (built_for_delete c i Hb) as Hd. destruct (x_pending c Hb i b Hi) as [_ Hat].
    specialize (Hat (eq_sym E)). unfold answers in Ha. rewrite Hat in Ha. destruct Hd as [Hp _].
    destruct a; (constructor; cbn; [exact Hp|intros _]); destruct kind; naive_solver.
  - by apply built_for_delete.
Qed.

(** Whatever setters, Clears and other Builds run at the same time, a
    context that is built holds the server's answer to a request with exactly
    the attributes the context has now; and a Build that returns nil was made
    for them, while one the attributes overtook fails and changes nothing. *)
Theorem context_built_for_attributes c :
  rtc xstep (NewContext defaults) c ->
  (x_built c = true ->
     match kind with
     | Legacy => exists v, x_legacyValues c = Some v /\
                           polls (first_of (x_attributes c) "userkey") (first_of (x_attributes c) "session") v
     | ClientEvaluated => True
     | ServerEvaluated => exists m, x_features c = Some m /\ evaluates (x_attributes c) m
     end) /\
  (forall i b a, x_builds c !! i = Some b ->
     let (c', ok) := Build_end i b a c in
     (ok = true -> b_attributes b = x_attributes c /\ x_built c' = true) /\
     (ok = false -> x_features c' = x_features c /\ x_legacyValues c' = x_legacyValues c /\ x_built c' = x_built c)).
Proof.
  intros Hrun. assert (built_for c) as Hb.
  { remember (NewContext defaults) as c0 eqn:E0. assert (built_for c0) as H0.
    { subst. constructor; cbn; [|done]. intros i b H. by rewrite lookup_empty in H. }
    clear E0. induction Hrun as [|c1 c2 c3 Hs _ IH]; [done|]. apply IH. by eapply built_for_step. }
  split; [apply Hb|]. intros i b a Hi. unfold Build_end.
  destruct (N.eqb_spec (x_revision c) (b_revision b)) as [E|E]; cbn; [|done].
  split; [|done]. intros _. split; [by apply (x_pending c Hb i b Hi)|by destruct a].
Qed.
End context.

(** ** The header tells contexts apart *)

Definition hex_value (c : ascii) : N :=
  if is_digit c then (byte_of c - 48)%N else (byte_of c - 55)%N.

(** decodeURIComponent of JavaScript, for what the encoder prints. *)
Fixpoint decodeURIComponent (s : string) : string :=
  match s with
  | EmptyString => EmptyString
  | String p rest =>
      if Ascii.eqb p "%" then
        match rest with
        | String a (String b r) => String (ascii_of_N (16 * hex_value a + hex_value b)) (decodeURIComponent r)
        | _ => s
        end
      else String p (decodeURIComponent rest)
  end.

Lemma encode_byte_all :
  forallb (fun n =>
    let c := ascii_of_nat n in
    if isURIComponentByte c then negb (Ascii.eqb c "%") && negb (Ascii.eqb c ",") && negb (Ascii.eqb c "=")
    else
      let a := hex_digit (N.shiftr (byte_of c) 4) in
      let b := hex_digit (N.land (byte_of c) 15) in
      Ascii.eqb (ascii_of_N (16 * hex_value a + hex_value b)) c &&
      negb (Ascii.eqb a ",") && negb (Ascii.eqb b ",") && negb (Ascii.eqb a "=") && negb (Ascii.eqb b "="))
    (seq 0 256) = true.
Proof. vm_compute. reflexivity. Qed.

(** Neither of the characters the header uses for itself. *)
Definition bare (c : ascii) : bool := negb (Ascii.eqb c ",") && negb (Ascii.eqb c "=").

Lemma encode_byte c :
  if isURIComponentByte c then Ascii.eqb c "%" = false /\ bare c = true
  else
    let a := hex_digit (N.shiftr (byte_of c) 4) in
    let b := hex_digit (N.land (byte_of c) 15) in
    ascii_of_N (16 * hex_value a + hex_value b) = c /\ bare a = true /\ bare b = true.
Proof.
  pose proof encode_byte_all as H. rewrite forallb_forall in H. specialize (H (nat_of_ascii c)).
  rewrite ascii_nat_embedding in H. cbn zeta in H. unfold bare.
  assert (In (nat_of_ascii c) (seq 0 256)) as Hin by (apply in_seq; pose proof (nat_ascii_bounded c); lia).
  specialize (H Hin). destruct (isURIComponentByte c).
  - bool_hyps. split; [done|]. by rewrite H1, H0.
  - bool_hyps. split_and!; [by apply Ascii.eqb_eq| |]; by repeat match goal with E : Ascii.eqb _ _ = false |- _ => rewrite E; clear E end.
Qed.

Lemma decode_encode s : decodeURIComponent (encodeURIComponent s) = s.
Proof.
  induction s as [|c s IH]; [done|]. cbn [encodeURIComponent]. pose proof (encode_byte c) as Hc.
  destruct (isURIComponentByte c); cbn [decodeURIComponent].
  - destruct Hc as [-> _]. by rewrite IH.
  - destruct Hc as [-> _]. by rewrite IH.
Qed.

Lemma encode_bare s : str_forallb bare (encodeURIComponent s) = true.
Proof.
  induction s as [|c s IH]; [done|]. cbn [encodeURIComponent]. pose proof (encode_byte c) as Hc.
  destruct (isURIComponentByte c); cbn [str_forallb].
  - destruct Hc as [_ ->]. done.
  - destruct Hc as (_ & -> & ->). done.
Qed.

Lemma join_comma_inj l l' :
  Forall (fun x => x <> EmptyString /\ str_forallb (fun c => negb (Ascii.eqb c ",")) x = true) l ->
  Forall (fun x => x <> EmptyString /\ str_forallb (fun c => negb (Ascii.eqb c ",")) x = true) l' ->
  join "," l = join "," l' -> l = l'.
Proof.
  intros Hl. revert l'. induction Hl as [|x l [Hx1 Hx2] Hl IH]; intros l' Hl'.
  - destruct Hl' as [|y l' [Hy _] Hl']; [done|]. cbn. destruct l'; [by intros <-|]. by destruct y.
  - destruct Hl' as [|y l' [Hy1 Hy2] Hl'].
    { cbn. destruct l; [by intros ->|]. by destruct x. }
    intros E. pose proof (f_equal (cut ",") E) as Ec. destruct l as [|x2 l], l' as [|y2 l'].
    + cbn in E. by subst.
    + change (join "," [x]) with x in Ec. change (join "," (y :: y2 :: l')) with (y +:+ "," +:+ join "," (y2 :: l')) in Ec.
      cbn [String.append] in Ec. rewrite (cut_none _ x) in Ec by done. by rewrite cut_byte in Ec.
    + change (join "," [y]) with y in Ec. change (join "," (x :: x2 :: l)) with (x +:+ "," +:+ join "," (x2 :: l)) in Ec.
      cbn [String.append] in Ec. rewrite (cut_none _ y) in Ec by done. by rewrite cut_byte in Ec.
    + change (join "," (x :: x2 :: l)) with (x +:+ "," +:+ join "," (x2 :: l)) in Ec.
      change (join "," (y :: y2 :: l')) with (y +:+ "," +:+ join "," (y2 :: l')) in Ec.
      cbn [String.append] in Ec. rewrite !cut_byte in Ec by done. injection Ec as -> Ej. f_equal. by apply IH.
Qed.

(** Keys without a comma and an equals sign. *)
Definition plain_keys (a : client) : Prop := forall k, is_Some (a !! k) -> str_forallb bare k = true.

Lemma header_entry_inj k k' vs vs' :
  str_forallb bare k = true -> str_forallb bare k' = true ->
  header_entry (k, vs) = header_entry (k', vs') -> k = k' /\ join "," vs = join "," vs'.
Proof.
  intros Hk Hk' E. unfold header_entry in E. cbn in E. apply (f_equal (cut "=")) in E.
  rewrite !cut_byte in E by (eapply str_forallb_weaken; [|eassumption]; intros c [_ H]%andb_true_iff; exact H).
  injection E as -> E. split; [done|]. rewrite <-(decode_encode (join "," vs)), E. apply decode_encode.
Qed.

Lemma header_entries_plain a :
  plain_keys a ->
  Forall (fun x => x <> EmptyString /\ str_forallb (fun c => negb (Ascii.eqb c ",")) x = true)
    (merge_sort String.le (header_entry <$> map_to_list a)).
Proof.
  intros Ha. rewrite merge_sort_Permutation. apply Forall_fmap, Forall_forall. intros [k vs] Hin%elem_of_map_to_list.
  unfold header_entry. cbn. split.
  - by destruct k.
  - rewrite !str_forallb_app. cbn. apply andb_true_iff. split; (eapply str_forallb_weaken; [|first [apply encode_bare|by apply Ha]]);
      intros c [H _]%andb_true_iff; exact H.
Qed.

(** The header a request carries tells contexts apart: it prints every
    attribute with its values, whatever bytes they hold, and two attribute maps
    with the same header send the same text for every key. *)
Theorem header_tells_contexts_apart a b :
  plain_keys a -> plain_keys b -> featureHubContextHeader a = featureHubContextHeader b ->
  forall k, (join "," <$> a !! k) = (join "," <$> b !! k).
Proof.
  intros Ha Hb E%join_comma_inj; [|by apply header_entries_plain..].
  assert (header_entry <$> map_to_list a ≡ₚ header_entry <$> map_to_list b) as Hp.
  { by rewrite <-(merge_sort_Permutation String.le (header_entry <$> map_to_list a)), E, merge_sort_Permutation. }
  clear E. assert (forall a b, plain_keys a -> plain_keys b ->
    header_entry <$> map_to_list a ≡ₚ header_entry <$> map_to_list b ->
    forall k vs, a !! k = Some vs -> exists vs', b !! k = Some vs' /\ join "," vs = join "," vs') as Hone.
  { clear. intros a b Ha Hb Hp k vs Hk.
    assert (header_entry (k, vs) ∈ header_entry <$> map_to_list b) as Hin.
    { rewrite <-Hp. apply list_elem_of_fmap_2. by apply elem_of_map_to_list. }
    apply list_elem_of_fmap in Hin as ([k' vs'] & E & Hin%elem_of_map_to_list).
    apply header_entry_inj in E as [-> E]; eauto. }
  intros k. destruct (a !! k) as [vs|] eqn:Ea.
  - destruct (Hone a b Ha Hb Hp k vs Ea) as (vs' & -> & E). cbn. by rewrite E.
  - destruct (b !! k) as [vs'|] eqn:Eb; [|done].
    destruct (Hone b a Hb Ha (symmetry Hp) k vs' Eb) as (? & ? & _). congruence.
Qed.
