(* ===== verification/FeatureWitness.v ===== *)
(** * package feature, executions of the streaming client

    Concrete executions that reach the states the theorems of
    [FeatureClientProofs] and [FeatureContext] speak about. *)

From S2P Require Import Prelude.
From S2P Require Import GoStrings.
From S2P Require Import Feature.
From S2P Require Import FeatureRepo.
From S2P Require Import FeatureSSE.
From S2P Require Import FeatureStream.
From S2P Require Import FeatureClient.
From S2P Require Import FeatureClientProofs.
From S2P Require Import FeatureContext.

(** The edge gives each user a colour. *)
Definition colour_of (a : client) : string := if String.eqb (firstAttribute a "userkey" "") "alice" then "red" else "blue".
Definition by_colour (a : client) (f : featureState string) : Prop := FeatureValue f = colour_of a.

Abbreviation demo_step := (@fstep string false ∅ Second (fun d => d) 0 by_colour).
Abbreviation demo_reachable := (@reachable string false ∅ Second (fun d => d) 0 by_colour).

Definition red : featureState string := MkFeature "id" "colour" false (Some 1%Z) "STRING" "red" [].

Lemma demo_rtc c c' : demo_reachable c -> demo_step c c' -> demo_reachable c'.
Proof. intros [now H] Hs. exists now. eapply rtc_r; eauto. Qed.

(** The same, with the state it ends in computed. *)
Lemma demo_end c c' c'' : demo_reachable c -> demo_step c c' -> c' = c'' -> demo_reachable c''.
Proof. intros H Hs <-. by eapply demo_rtc. Qed.

(** A caller waits for the context of alice; run starts a stream, which sends
    her features. *)
Definition start : Client (V := string) := new_client ∅ 0.
Definition alice_set : Client := end_context (begin_context false ∅ (SetValues "userkey" ["alice"]) start).
Definition waiting_for_alice : Client :=
  let w p := MkWaiter 2 p in
  move_waiter 0 (w FirstLook) (Select 0) (move_waiter 0 (w FirstLook) (SecondLook 0)
    (move_waiter 0 (w FirstLook) TakeSignal (set_waiters (<[0 := w FirstLook]> ∅) alice_set))).
Definition alice_stream (sent : option client) (p : stream_pc) : stream := MkStream 2 0 Running sent p.
Definition alice_attributes : client := <["userkey" := ["alice"]]> ∅.
Definition requested : Client :=
  set_run_at (InStream (alice_stream (Some alice_attributes) Reading)) (set_run_at (InStream (alice_stream None Reading)) waiting_for_alice).
Definition full : Client := apply_event false (alice_stream (Some alice_attributes) Reading) (Full [Some red]) requested.
Definition published : Client :=
  publish_ready (alice_stream (Some alice_attributes) Publish)
    (set_readyRevision 2 (set_run_at (at_stream (alice_stream (Some alice_attributes) StoreRevision) Publish) full)).

Lemma waiting_reachable : demo_reachable waiting_for_alice.
Proof.
  assert (demo_reachable start) as H0 by (exists 0%Z; apply rtc_refl).
  assert (demo_reachable alice_set) as H1.
  { eapply demo_rtc; [eapply demo_rtc; [exact H0|]|].
    - by apply (step_context _ _ _ _ _ _ start (SetValues "userkey" ["alice"])).
    - by apply step_context_end. }
  eapply demo_end; [eapply demo_rtc; [eapply demo_rtc; [eapply demo_rtc; [exact H1|]|]|]| |].
  - by apply (step_wait_begin _ _ _ _ _ _ alice_set 0).
  - by apply (step_look _ _ _ _ _ _ _ 0 (MkWaiter 2 FirstLook)).
  - by apply (step_look _ _ _ _ _ _ _ 0 (MkWaiter 2 TakeSignal)).
  - by apply (step_look _ _ _ _ _ _ _ 0 (MkWaiter 2 (SecondLook 0))).
  - reflexivity.
Qed.

Lemma published_reachable : demo_reachable published.
Proof.
  eapply demo_end; [eapply demo_rtc; [eapply demo_rtc; [eapply demo_rtc; [eapply demo_rtc; [exact waiting_reachable|]|]|]|]| |].
  - by apply step_top.
  - by apply (step_request _ _ _ _ _ _ _ (alice_stream None Reading)).
  - apply (step_event _ _ _ _ _ _ requested (alice_stream (Some alice_attributes) Reading) alice_attributes (Full [Some red])); try done.
    intros f Hf%list_elem_of_In. cbn in Hf. by destruct Hf as [<-|[]].
  - by apply (step_store_revision _ _ _ _ _ _ full (alice_stream (Some alice_attributes) StoreRevision)).
  - by apply (step_publish _ _ _ _ _ _ _ (alice_stream (Some alice_attributes) Publish)).
  - reflexivity.
Qed.

Lemma proper_empty : proper ∅.
Proof. intros k. by rewrite lookup_empty. Qed.

Lemma ready_values_of_context_witness :
  ready published = true /\ features (repo published) !! "colour" = Some red /\
  (forall key f, features (repo published) !! key = Some f -> by_colour alice_attributes f).
Proof.
  split_and!; [reflexivity|reflexivity|].
  destruct (ready_values_of_context false ∅ Second (fun d => d) 0 by_colour published) as [_ H];
    [apply proper_empty|reflexivity|exact published_reachable|reflexivity|discriminate|exact H].
Defined.

Lemma WaitReady_not_missed_witness :
  exists w, waiters published !! 0 = Some w /\ w_at w = Select 0 /\
    satisfied false w published = true /\ pending (run_at published) = true.
Proof.
  exists (MkWaiter 2 (Select 0)). split_and!; [reflexivity|reflexivity|reflexivity|].
  destruct (WaitReady_not_missed false ∅ Second (fun d => d) 0 by_colour published 0 (MkWaiter 2 (Select 0))) as [_ H];
    [apply proper_empty|exact published_reachable|reflexivity|].
  apply (H 0%N); reflexivity.
Defined.

(** A ready client gets a stale reply. *)
Definition stale_outcome : outcome := MkOutcome false (EdgeStale (5 * Second)) true false.
Definition stale_now : Client (V := string) := set_ready true (set_run_at (Retain stale_outcome) (new_client ∅ 100)).
Definition stale_later : Client :=
  set_clock (100 + 31 * Second) (set_run_at (Count stale_outcome) (retainReadyDuringStaleWindow 0 stale_now)).

Lemma stale_snapshot_expires_witness :
  ready stale_later = true /\ exists c', demo_step stale_later c' /\ ready c' = false.
Proof.
  split; [reflexivity|].
  destruct (stale_snapshot_expires false ∅ Second (fun d => d) 0 by_colour stale_now stale_outcome stale_later)
    as (g & d & Hd & _ & Hs); [reflexivity..| |reflexivity|reflexivity|reflexivity|].
  - apply rtc_once, step_tick. vm_compute. discriminate.
  - apply Hs. etrans; [exact Hd|]. vm_compute. discriminate.
Defined.

(** A stale reply, and a context change that interrupts its window. *)
Definition first_reply : Client :=
  set_loop_at (after_stream 0 false false (EdgeStale (5 * Second)) false no_loop)
    (set_run_at (InStream (MkStream 1 0 Running None Reading)) start).
Definition after_reply : Client :=
  set_run_at (Wait (5 * Second) true)
    (set_loop_at (count_failure stale_outcome (loop first_reply), Prepare (EdgeStale (5 * Second)) true)
       (set_lastError (Some (EdgeStale (5 * Second))) (set_ready false (set_run_at (Count stale_outcome) first_reply)))).
Definition changed_context : Client :=
  set_refresh true (set_notifying 0 (end_context (begin_context false ∅ (SetValues "userkey" ["bob"]) after_reply))).
Definition interrupting : Client :=
  set_refresh false (set_loop_at (FeatureClient.interrupted (loop changed_context), Top) changed_context).

Lemma interrupting_reachable : demo_reachable interrupting.
Proof.
  assert (demo_reachable first_reply) as H1.
  { eapply demo_end; [eapply demo_rtc; [exists 0%Z; apply rtc_refl|]| |].
    - by apply step_top.
    - apply (step_ended _ _ _ _ _ _ _ (MkStream 1 0 Running None Reading) false (EdgeStale (5 * Second))); try reflexivity; [discriminate|].
      by intros d [= <-].
    - reflexivity. }
  assert (demo_reachable after_reply) as H2.
  { eapply demo_end; [eapply demo_rtc; [eapply demo_rtc; [exact H1|]|]| |].
    - by apply (step_fail _ _ _ _ _ _ _ stale_outcome).
    - by apply (step_count _ _ _ _ _ _ _ stale_outcome).
    - by apply (step_prepare _ _ _ _ _ _ _ (EdgeStale (5 * Second)) true).
    - reflexivity. }
  eapply demo_end; [eapply demo_rtc; [eapply demo_rtc; [eapply demo_rtc; [exact H2|]|]|]| |].
  - by apply (step_context _ _ _ _ _ _ after_reply (SetValues "userkey" ["bob"])).
  - by apply step_context_end.
  - by apply (step_notify _ _ _ _ _ _ _ 0).
  - by apply (step_wait_refresh _ _ _ _ _ _ changed_context (5 * Second) true).
  - reflexivity.
Qed.

Lemma one_request_per_stale_window_witness :
  clock interrupting = 0%Z /\ staleWindowEnd (loop interrupting) = Some (5 * Second)%Z /\
  staleInterrupted (loop interrupting) = true.
Proof.
  split; [reflexivity|]. split; [reflexivity|].
  destruct (one_request_per_stale_window false ∅ Second (fun d => d) 0 by_colour ltac:(vm_compute; reflexivity)
    interrupting (5 * Second)) as [H _];
    [exact interrupting_reachable|reflexivity|reflexivity|vm_compute; reflexivity|exact H].
Defined.

(** A Build overtaken by a setter, and one that is not. *)
Definition red_snapshot (a : client) (m : gmap string (featureState string)) : Prop :=
  m = <["colour" := MkFeature "id" "colour" false (Some 1%Z) "STRING" (colour_of a) []]> ∅.
Definition context0 : EvaluationContext (V := string) (W := unit) := NewContext ∅.
Definition context1 : EvaluationContext := Build_start 0 context0.
Definition context2 : EvaluationContext := AttributeValues "userkey" ["alice"] context1.
Definition context3 : EvaluationContext := Build_start 1 context2.
Definition red_features : gmap string (featureState string) := <["colour" := red]> ∅.
Definition context4 : EvaluationContext :=
  (Build_end 1 (MkBuild alice_attributes 1) (Snapshot red_features) context3).1.

Lemma context_built_for_attributes_witness :
  x_built context4 = true /\ (exists m, x_features context4 = Some m /\ red_snapshot alice_attributes m) /\
  (Build_end 0 (MkBuild ∅ 0) (Snapshot ∅) context4).2 = false.
Proof.
  split; [reflexivity|].
  destruct (context_built_for_attributes (V := string) (W := unit) ServerEvaluated ∅ red_snapshot (fun _ _ _ => False) context4)
    as [H _]; [|split; [exact (H eq_refl)|reflexivity]].
  eapply rtc_l; [by apply (x_start _ _ _ _ context0 0)|].
  eapply rtc_l; [by apply (x_values _ _ _ _ context1 "userkey" ["alice"])|].
  eapply rtc_l; [by apply (x_start _ _ _ _ context2 1)|].
  eapply rtc_l; [by apply (x_end _ _ _ _ context3 1 (MkBuild alice_attributes 1) (Snapshot red_features))|apply rtc_refl].
Defined.

Lemma header_tells_contexts_apart_witness :
  featureHubContextHeader (<["userkey" := ["a,b=c%"; "d"]]> (<["country" := ["in"]]> ∅)) = "country=in,userkey=a%2Cb%3Dc%25%2Cd" /\
  (join "," <$> (<["userkey" := ["a,b"]]> ∅ : client) !! "userkey") = (join "," <$> (<["userkey" := ["a"; "b"]]> ∅ : client) !! "userkey").
Proof.
  split; [vm_compute; reflexivity|].
  apply (header_tells_contexts_apart (<["userkey" := ["a,b"]]> ∅) (<["userkey" := ["a"; "b"]]> ∅)); [| |vm_compute; reflexivity].
  - intros k [v [[<- _]|[_ H]]%lookup_insert_Some]; [reflexivity|by rewrite lookup_empty in H].
  - intros k [v [[<- _]|[_ H]]%lookup_insert_Some]; [reflexivity|by rewrite lookup_empty in H].
Defined.

(** A stream of four events in pieces that cut the mark and a CR LF in two; the
    third one says goodbye, so the fourth is not applied. *)
Definition sent_value (data : string) : option (featureState string) :=
  Some (MkFeature "id" "colour" false (Some 1%Z) "STRING" data []).

Definition goodbye_reads : list string :=
  [bom; "event: ack" +:+ crlf +:+ crlf +:+ "event: feature" +:+ String CR EmptyString;
   String LF "data: red" +:+ crlf +:+ "data: wine" +:+ crlf +:+ crlf +:+ "event: by";
   "e" +:+ crlf +:+ crlf +:+ "event: feature" +:+ crlf +:+ "data: blue" +:+ crlf].

Definition goodbye : list written :=
  [MkWritten "ack" []; MkWritten "feature" ["red"; "wine"]; MkWritten "bye" []; MkWritten "feature" ["blue"]].

Lemma events_delivered_witness :
  consumeStream (fun _ => None) (fun _ => None) (fun _ => None) sent_value (fun _ => None) Second (fun _ => None) 0
    (Response 200 "" goodbye_reads crlf true) =
  ([Incremental (MkFeature "id" "colour" false (Some 1%Z) "STRING" ("red" +:+ String LF "wine") [])], false, StreamEOF).
Proof.
  pose proof (events_delivered (fun _ => None) (fun _ => None) (fun _ => None) sent_value (fun _ => None) Second
    (fun _ => None) 0 "" goodbye crlf true goodbye_reads crlf true) as H.
  destruct H as [_ H].
  - repeat constructor; try reflexivity; vm_compute; congruence.
  - by right; right.
  - vm_compute. reflexivity.
  - apply (H (take 2 goodbye) (MkWritten "bye" []) (drop 3 goodbye) StreamEOF); [reflexivity| |reflexivity].
    repeat constructor.
Defined.
