(* ===== verification/RedactBytes.v ===== *)
(** * package redact, bytes, labels and masks

    The scanners of redact/redact.go work on indices into a byte string.  Here
    a text is a list of bytes and a guarded access such as
    [position < len(value) && p(value[position])] is [is_at p value position].
    The look-back and look-ahead loops of the source are [back] and [ahead];
    [splice] is what every scanner builds in its strings.Builder. *)

From S2P Require Import Prelude.
From S2P Require Import GoStrings.

#[global] Arguments Nat.ltb : simpl never.
#[global] Arguments Nat.leb : simpl never.

Notation text := (list ascii).

Definition lit (s : string) : text := String.list_ascii_of_string s.
Definition to_string (t : text) : string := String.string_of_list_ascii t.

Definition Mask : text := lit "[REDACTED]".

(** ** Classes of bytes *)

Definition isASCIIDigit (c : ascii) : bool := is_digit c.
Definition isASCIIWord (c : ascii) : bool :=
  isASCIIDigit c || is_lower c || is_upper c || byte_is 95 c.
Definition isASCIISpace (c : ascii) : bool :=
  byte_is 32 c || byte_is 9 c || byte_is 13 c || byte_is 10 c.
Definition isCardSeparator (c : ascii) : bool := byte_is 32 c || byte_is 45 c || byte_is 46 c.
Definition is_quote (c : ascii) : bool := byte_is 34 c || byte_is 39 c.

(** ** Indexing *)

(** [i < len(value) && p(value[i])] *)
Definition is_at (p : ascii -> bool) (value : text) (i : nat) : bool :=
  match value !! i with Some c => p c | None => false end.

(** [i > 0 && p(value[i-1])] *)
Definition is_before (p : ascii -> bool) (value : text) (i : nat) : bool :=
  match i with S n => is_at p value n | O => false end.

(** [value[i:j]] *)
Definition slice (value : text) (i j : nat) : text := take (j - i) (drop i value).

(** [for position > 0 && p(value[position-1]) { position-- }], for at most
    [budget] steps. *)
Fixpoint back (p : ascii -> bool) (value : text) (budget position : nat) : nat :=
  match budget, position with
  | S b, S n => if is_at p value n then back p value b n else position
  | _, _ => position
  end.

(** [for position < len(value) && p(value[position]) { position++ }], for at
    most [budget] steps; the length of the text is always enough. *)
Fixpoint ahead (p : ascii -> bool) (value : text) (budget position : nat) : nat :=
  match budget with
  | S b => if is_at p value position then ahead p value b (S position) else position
  | O => position
  end.

(** strings.Trim, TrimLeft and TrimRight for a set of ASCII bytes. *)
Fixpoint trim_left_set (p : ascii -> bool) (t : text) : text :=
  match t with
  | c :: r => if p c then trim_left_set p r else t
  | [] => []
  end.
Definition trim_right_set (p : ascii -> bool) (t : text) : text := rev (trim_left_set p (rev t)).
Definition trim_set (p : ascii -> bool) (t : text) : text := trim_right_set p (trim_left_set p t).

Definition byte_in (cutset : string) (c : ascii) : bool :=
  existsb (Ascii.eqb c) (String.list_ascii_of_string cutset).

Definition EqualFold (a : text) (b : string) : bool := equal_fold (to_string a) b.
Definition TrimSpace (t : text) : text := lit (trim_space (to_string t)).
Definition text_eqb (a b : text) : bool := bool_decide (a = b).
Definition has_text_prefix (p : string) (t : text) : bool := has_prefix p (to_string t).

(** strings.ToLower as far as a comparison with an ASCII text can tell: the two
    characters past ASCII whose lower case is in ASCII are U+212A and U+0130. *)
Fixpoint lower_text (t : text) : text :=
  match t with
  | [] => []
  | a :: r1 =>
      match r1 with
      | b :: r2 =>
          if byte_is 196 a && byte_is 176 b then "i"%char :: lower_text r2
          else match r2 with
               | c :: r3 =>
                   if byte_is 226 a && byte_is 132 b && byte_is 170 c
                   then "k"%char :: lower_text r3
                   else lower_byte a :: lower_text r1
               | [] => lower_byte a :: lower_text r1
               end
      | [] => [lower_byte a]
      end
  end.

(** strings.ReplaceAll of one byte by another. *)
Definition replace_byte (a b : ascii) (t : text) : text :=
  map (fun c => if Ascii.eqb c a then b else c) t.

Definition normalizePathKey (value : text) : text :=
  replace_byte "_"%char "-"%char (lower_text (TrimSpace value)).

(** ** Labels before a number *)

Definition quote : ascii := ascii_of_N 34.

Definition is_label_byte (c : ascii) : bool :=
  isASCIIWord c || byte_is 45 c || byte_is 46 c || byte_is 32 c.

(** The start of the label and its end, before the value at [start]. *)
Definition skip_value_delimiters (value : text) (start : nat) : nat :=
  let position := back isASCIISpace value start start in
  let position := back is_quote value position position in
  if is_before (fun c => byte_is 58 c || byte_is 61 c) value position then
    let position := position - 1 in
    back (fun c => isASCIISpace c || is_quote c) value position position
  else position.

Definition labelBeforeNumericValue (value : text) (start : nat) : text :=
  match start with
  | O => []
  | _ =>
      let stop := skip_value_delimiters value start in
      let position := back is_label_byte value 64 stop in
      trim_set (fun c => isASCIISpace c || is_quote c) (slice value position stop)
  end.

Definition normalizeNumericLabel (value : text) : text :=
  List.filter (fun c => is_lower c || isASCIIDigit c) (map lower_byte value).

Fixpoint normalizedNumericLabelEqual_from (value want : text) : bool :=
  match value with
  | [] => match want with [] => true | _ => false end
  | c :: value =>
      let ch := lower_byte c in
      if negb (is_lower ch) && negb (isASCIIDigit ch)
      then normalizedNumericLabelEqual_from value want
      else match want with
           | [] => false
           | w :: want => if Ascii.eqb ch w then normalizedNumericLabelEqual_from value want
                          else false
           end
  end.
Definition normalizedNumericLabelEqual (value : text) (want : string) : bool :=
  normalizedNumericLabelEqual_from value (lit want).

Definition hasDelimitedOrCamelLabelSuffix (label : text) (suffix : string) : bool :=
  let label := trim_right_set (byte_in "_-. ") label in
  let n := String.length suffix in
  if (length label <? n) || negb (EqualFold (drop (length label - n) label) suffix) then false
  else if length label =? n then true
  else
    let boundary := length label - n in
    if is_at (byte_in "_-. ") label (boundary - 1) then true
    else is_at is_upper label boundary &&
         is_at (fun c => is_lower c || isASCIIDigit c) label (boundary - 1).

Definition hasOperationalNumericLabelBefore (value : text) (start : nat) : bool :=
  let label := labelBeforeNumericValue value start in
  if existsb (fun k => text_eqb (normalizeNumericLabel label) (lit k))
       ["amount"; "build"; "bytes"; "count"; "duration"; "durationms"; "id"; "identifier"; "index";
        "invoiceid"; "latency"; "latencyms"; "offset"; "orderid"; "partition"; "quantity"; "qty";
        "seq"; "sequence"; "size"; "version"]%string
  then true
  else hasDelimitedOrCamelLabelSuffix label "id".

(** ** Masks

    The scanners copy the text up to a span, write a mask, and go on after the
    span; [out] is what the builder holds and [last] the end of the span masked
    last. *)

Definition span : Type := (nat * nat)%type.

Fixpoint splice (mask : text) (value : text) (last : nat) (spans : list span) : text :=
  match spans with
  | [] => drop last value
  | (s, e) :: rest => slice value last s ++ mask ++ splice mask value e rest
  end.

(** A loop over start positions: [tryAt start] is the end of the span to mask,
    when the body of the loop does not continue; after a span the scan goes on
    at its end. *)
Fixpoint scan_from (mask : text) (tryAt : nat -> option nat) (value : text) (limit : nat)
    (fuel start last : nat) (out : text) : text * nat :=
  match fuel with
  | O => (out, last)
  | S fuel =>
      if start <? limit then
        match tryAt start with
        | None => scan_from mask tryAt value limit fuel (S start) last out
        | Some stop =>
            scan_from mask tryAt value limit fuel stop stop (out ++ slice value last start ++ mask)
        end
      else (out, last)
  end.

Definition scan (mask : text) (tryAt : nat -> option nat) (value : text) (limit : nat) : text :=
  let '(out, last) := scan_from mask tryAt value limit limit 0 0 [] in
  if last =? 0 then value else out ++ drop last value.

(** ** The spans of a scan *)

(** The spans [scan] masks, in order. *)
Fixpoint scan_spans (tryAt : nat -> option nat) (limit fuel start : nat) : list span :=
  match fuel with
  | O => []
  | S fuel =>
      if start <? limit then
        match tryAt start with
        | None => scan_spans tryAt limit fuel (S start)
        | Some stop => (start, stop) :: scan_spans tryAt limit fuel stop
        end
      else []
  end.

(** Spans that follow each other from [last] on. *)
Fixpoint in_order (last : nat) (spans : list span) : Prop :=
  match spans with
  | [] => True
  | (s, e) :: rest => last <= s /\ s < e /\ in_order e rest
  end.

Section Scan.
Context (mask value : text) (tryAt : nat -> option nat) (limit : nat).
Hypothesis tryAt_forward : forall s e, tryAt s = Some e -> s < e.

Lemma scan_from_spans fuel start last out out' last' :
  scan_from mask tryAt value limit fuel start last out = (out', last') ->
  out' ++ drop last' value = out ++ splice mask value last (scan_spans tryAt limit fuel start) /\
  (last' = 0 -> last = 0 /\ scan_spans tryAt limit fuel start = []).
Proof.
  revert start last out; induction fuel as [|fuel IH]; intros start last out; cbn.
  { intros [= <- <-]. auto. }
  destruct (start <? limit); [|intros [= <- <-]; auto].
  destruct (tryAt start) as [stop|] eqn:E; [|apply IH].
  intros (H1 & H2)%IH. split.
  - by rewrite H1, <- !(assoc_L (++)).
  - intros (? & _)%H2. apply tryAt_forward in E. lia.
Qed.

Lemma scan_splice :
  scan mask tryAt value limit = splice mask value 0 (scan_spans tryAt limit limit 0).
Proof.
  unfold scan. destruct (scan_from _ _ _ _ _ _ _ _) as [out last] eqn:E.
  apply scan_from_spans in E as [E E0].
  destruct (Nat.eqb_spec last 0) as [->|_]; [|exact E].
  by destruct (E0 eq_refl) as [_ ->].
Qed.

Lemma scan_spans_in_order fuel start :
  in_order start (scan_spans tryAt limit fuel start).
Proof.
  assert (W : forall l a b, a <= b -> in_order b l -> in_order a l)
    by (intros [|[s e] l] a b ? ?; cbn in *; intuition lia).
  revert start; induction fuel as [|fuel IH]; intros start; cbn; [done|].
  destruct (start <? limit); [|done].
  destruct (tryAt start) as [stop|] eqn:E; cbn.
  - split_and!; [lia|eauto|apply IH].
  - eapply W, IH; lia.
Qed.

Lemma scan_spans_sound fuel start s e :
  (s, e) ∈ scan_spans tryAt limit fuel start -> s < limit /\ tryAt s = Some e.
Proof.
  revert start; induction fuel as [|fuel IH]; intros start; cbn; [set_solver|].
  destruct (Nat.ltb_spec start limit); [|set_solver].
  destruct (tryAt start) as [stop|] eqn:E; [|apply IH].
  intros [[= -> ->]|]%elem_of_cons; eauto.
Qed.

(** A position the scan passes over without a span is one it looked at. *)
Lemma scan_spans_complete fuel start p :
  limit <= start + fuel -> start <= p < limit ->
  tryAt p = None \/
  exists s e, (s, e) ∈ scan_spans tryAt limit fuel start /\ s <= p < e.
Proof.
  revert start; induction fuel as [|fuel IH]; intros start Hf Hp; cbn; [lia|].
  destruct (Nat.ltb_spec start limit); [|lia].
  destruct (tryAt start) as [stop|] eqn:E.
  - pose proof (tryAt_forward _ _ E) as ?.
    destruct (decide (p < stop)).
    + right. exists start, stop. split; [left|lia].
    + destruct (IH stop) as [|(s & e & ? & ?)]; [lia..|by left|].
      right. exists s, e. split; [by right|done].
  - destruct (decide (p = start)) as [->|]; [by left|].
    destruct (IH (S start)) as [|(s & e & ? & ?)]; [lia..|by left|]. right; eauto.
Qed.
End Scan.

(** ** Indexing lemmas *)

Lemma is_at_lt p value i : is_at p value i = true -> i < length value.
Proof.
  unfold is_at. destruct (value !! i) eqn:E; [|done]. intros _. by eapply lookup_lt_Some.
Qed.

Lemma is_at_slice p value i j k :
  i <= k < j -> is_at p value k = is_at p (slice value i j) (k - i).
Proof.
  intros H. unfold is_at, slice. rewrite lookup_take_lt, lookup_drop by lia.
  by replace (i + (k - i)) with k by lia.
Qed.

Lemma slice_length value i j : j <= length value -> length (slice value i j) = j - i.
Proof. intros. unfold slice. rewrite length_take, length_drop. lia. Qed.

Lemma slice_app value i j k :
  i <= j <= k -> slice value i k = slice value i j ++ slice value j k.
Proof.
  intros H. unfold slice.
  replace (drop j value) with (drop (j - i) (drop i value)) by (rewrite drop_drop; f_equal; lia).
  rewrite <- (take_drop (j - i) (take (k - i) (drop i value))) at 1.
  rewrite take_take, Nat.min_l by lia. f_equal. rewrite (take_drop_commute (drop i value)).
  by replace (j - i + (k - j)) with (k - i) by lia.
Qed.

(** ** Runs *)

Lemma ahead_ge p value budget i : i <= ahead p value budget i.
Proof.
  revert i; induction budget as [|b IH]; intros i; cbn; [lia|].
  case_match; [specialize (IH (S i))|]; lia.
Qed.

Lemma ahead_run p value budget i k :
  i <= k < ahead p value budget i -> is_at p value k = true.
Proof.
  revert i; induction budget as [|b IH]; intros i; cbn; [lia|].
  case_match eqn:E; [|lia]. intros H. destruct (decide (k = i)) as [->|]; [done|].
  apply (IH (S i)). lia.
Qed.

(** With enough budget the run is maximal. *)
Lemma ahead_stop p value budget i :
  length value < i + budget \/ i + budget = length value ->
  is_at p value (ahead p value budget i) = false.
Proof.
  revert i; induction budget as [|b IH]; intros i H; cbn.
  - unfold is_at. by rewrite lookup_ge_None_2 by lia.
  - case_match eqn:E; [|done]. apply IH. lia.
Qed.

Lemma ahead_max p value i :
  is_at p value (ahead p value (length value) i) = false.
Proof. apply ahead_stop. destruct i; lia. Qed.

(** A maximal run is found from its start. *)
Lemma ahead_exact p value i j :
  i <= j -> (forall k, i <= k < j -> is_at p value k = true) -> is_at p value j = false ->
  ahead p value (length value) i = j.
Proof.
  intros Hij Hrun Hj.
  pose proof (ahead_ge p value (length value) i).
  pose proof (ahead_max p value i) as Hm.
  destruct (lt_eq_lt_dec (ahead p value (length value) i) j) as [[?|?]|?]; [|done|].
  - by rewrite Hrun in Hm by lia.
  - by rewrite (ahead_run p value (length value) i j) in Hj by lia.
Qed.

Lemma back_le p value budget i : back p value budget i <= i.
Proof.
  revert i; induction budget as [|b IH]; intros [|i]; cbn; try lia.
  case_match; [specialize (IH i)|]; lia.
Qed.

(** A budget that reaches the end of the run is as good as any other. *)
Lemma back_budget p value b1 b2 i :
  i - back p value b2 i < b1 \/ i <= b1 -> b1 <= b2 -> back p value b1 i = back p value b2 i.
Proof.
  revert b2 i; induction b1 as [|b1 IH]; intros [|b2] [|i]; cbn -[Nat.sub]; try lia.
  case_match; [|done]. intros Hd Hb. pose proof (back_le p value b2 i). apply IH; lia.
Qed.

(** Bytes of a slice. *)
Lemma slice_Forall (P : ascii -> Prop) (p : ascii -> bool) value i j :
  (forall c, p c = true -> P c) ->
  (forall k, i <= k < j -> is_at p value k = true) -> Forall P (slice value i j).
Proof.
  intros HP Hrun. apply Forall_lookup_2. intros k c Hk.
  unfold slice in Hk. apply lookup_take_Some in Hk as [Hk ?]. rewrite lookup_drop in Hk.
  apply HP. specialize (Hrun (i + k)). unfold is_at in Hrun. rewrite Hk in Hrun.
  apply Hrun. lia.
Qed.

Lemma slice_nil value i j : j <= i -> slice value i j = [].
Proof. intros. unfold slice. by replace (j - i) with 0 by lia. Qed.

Lemma slice_snoc value i j c :
  i <= j -> value !! j = Some c -> slice value i (S j) = slice value i j ++ [c].
Proof.
  intros H Hc. rewrite (slice_app value i j (S j)) by lia. f_equal.
  unfold slice. replace (S j - j) with 1 by lia. by rewrite (drop_S _ _ _ Hc).
Qed.

Lemma back_run p value budget i k :
  back p value budget i <= k < i -> is_at p value k = true.
Proof.
  revert i; induction budget as [|b IH]; intros [|i]; cbn; try lia.
  case_match eqn:E; [|lia]. intros H. destruct (decide (k = i)) as [->|]; [done|].
  apply (IH i). lia.
Qed.

Lemma take_slice value i j : i <= j -> take j value = take i value ++ slice value i j.
Proof.
  intros H. pose proof (slice_app value 0 i j ltac:(lia)) as E.
  unfold slice at 1 2 in E. by rewrite drop_0, !Nat.sub_0_r in E.
Qed.

Lemma skip_value_delimiters_le value start : skip_value_delimiters value start <= start.
Proof.
  unfold skip_value_delimiters. cbv zeta.
  pose proof (back_le isASCIISpace value start start) as H1. revert H1.
  generalize (back isASCIISpace value start start) as p1. intros p1 H1.
  pose proof (back_le is_quote value p1 p1) as H2. revert H2.
  generalize (back is_quote value p1 p1) as p2. intros p2 H2. case_match; [|lia].
  pose proof (back_le (fun c => isASCIISpace c || is_quote c) value (p2 - 1) (p2 - 1)). lia.
Qed.

(** ** Splicing *)

Lemma slice_slice value i j k l :
  k <= l -> i + l <= j -> slice (slice value i j) k l = slice value (i + k) (i + l).
Proof.
  intros Hk Hl. unfold slice. rewrite skipn_firstn_comm, take_take, drop_drop.
  by replace ((l - k) `min` (j - i - k)) with (i + l - (i + k)) by lia.
Qed.

Lemma drop_slice value i j k : drop k (slice value i j) = slice value (i + k) j.
Proof. unfold slice. rewrite skipn_firstn_comm, drop_drop.
  by replace (j - i - k) with (j - (i + k)) by lia. Qed.

Lemma drop_slice_split value i j : i <= j -> drop i value = slice value i j ++ drop j value.
Proof.
  intros H. unfold slice. rewrite <- (take_drop (j - i) (drop i value)) at 1.
  rewrite drop_drop. by replace (i + (j - i)) with j by lia.
Qed.

Lemma splice_skip mask value a b spans :
  a <= b -> in_order b spans -> splice mask value a spans = slice value a b ++ splice mask value b spans.
Proof.
  intros Hab. destruct spans as [|[s e] spans]; cbn; [by intros _; apply drop_slice_split|].
  intros (? & _). rewrite (slice_app value a b s) by lia. by rewrite <- (assoc_L (++)).
Qed.

Definition shift (n : nat) (p : span) : span := (n + p.1, n + p.2).

(** Splicing a part of a text and going on behind it. *)
Lemma splice_part mask value start stop t0 part rest :
  start + t0 <= stop -> in_order t0 part -> (forall p, p ∈ part -> start + p.2 <= stop) ->
  in_order stop rest ->
  splice mask value (start + t0) (map (shift start) part ++ rest) =
  splice mask (slice value start stop) t0 part ++ splice mask value stop rest.
Proof.
  revert t0; induction part as [|[s e] part IH]; intros t0 Ht Ho Hb Hr; cbn.
  - rewrite drop_slice. by apply splice_skip.
  - destruct Ho as (? & ? & Ho). pose proof (Hb _ (list_elem_of_here _ _)) as Hse. cbn in Hse.
    rewrite slice_slice by lia. rewrite <- !(assoc_L (++)). do 2 f_equal.
    apply IH; [lia|done| |done]. intros p Hp. apply Hb. by right.
Qed.

Lemma in_order_weaken a b spans : a <= b -> in_order b spans -> in_order a spans.
Proof. destruct spans as [|[s e] spans]; cbn; [done|]. intros ? (? & ? & ?). split_and!; [lia|done|done]. Qed.

Lemma in_order_shift n a spans : in_order a spans -> in_order (n + a) (map (shift n) spans).
Proof.
  revert a; induction spans as [|[s e] spans IH]; intros a; cbn; [done|].
  intros (? & ? & ?). split_and!; [lia|lia|]. by apply IH.
Qed.

Lemma in_order_app a b l1 l2 :
  in_order a l1 -> (forall p, p ∈ l1 -> p.2 <= b) -> a <= b -> in_order b l2 -> in_order a (l1 ++ l2).
Proof.
  revert a; induction l1 as [|[s e] l1 IH]; intros a; cbn.
  { intros _ _ ?. by apply in_order_weaken. }
  intros (? & ? & ?) Hb ? ?. pose proof (Hb _ (list_elem_of_here _ _)) as He. cbn in He.
  split_and!; [done|done|]. apply IH; [done| |done|done]. intros p Hp. apply Hb. by right.
Qed.
