(* ===== verification/GoIP.v ===== *)
(** * net.ParseIP

    Whether net.ParseIP accepts a text: a dotted IPv4 address, or an IPv6
    address without a zone, as netip.ParseAddr reads them.  Only the answer is
    modelled; the callers discard the address. *)

From S2P Require Import Prelude.
From S2P Require Import GoStrings.
From S2P Require Import RedactBytes.

Definition digit_value (c : ascii) : nat := N.to_nat (byte_of c) - 48.

Definition is_hex (c : ascii) : bool := is_digit c || in_range 97 102 c || in_range 65 70 c.

(** parseIPv4Fields.  [previous] is the byte before, [pos] the fields finished,
    [val] and [digLen] the field being read. *)
Fixpoint ipv4_fields (s : text) (previous : option ascii) (pos val digLen : nat) : bool :=
  match s with
  | [] => 3 <=? pos
  | c :: r =>
      if is_digit c then
        if (digLen =? 1) && (val =? 0) then false
        else
          let val := val * 10 + digit_value c in
          if 255 <? val then false else ipv4_fields r (Some c) pos val (S digLen)
      else if byte_is 46 c then
        match previous, r with
        | None, _ | _, [] => false
        | Some p, _ => if byte_is 46 p then false
                       else if pos =? 3 then false
                       else ipv4_fields r (Some c) (S pos) 0 0
        end
      else false
  end.

Definition parse_ipv4 (s : text) : bool := ipv4_fields s None 0 0 0.

(** The loop of parseIPv6: [i] is the number of bytes filled, [ellipsis]
    whether a :: was seen.  A round reads one group of at most four digits. *)
Fixpoint ipv6_groups (fuel : nat) (s : text) (i : nat) (ellipsis : bool) : bool :=
  let finished (s : text) (i : nat) (ellipsis : bool) :=
    match s with
    | _ :: _ => false
    | [] => if i <? 16 then ellipsis else negb ellipsis
    end in
  match fuel with
  | O => false
  | S fuel =>
      if 16 <=? i then finished s i ellipsis
      else
        let off := ahead is_hex s (length s) 0 in
        if 4 <? off then false
        else if off =? 0 then false
        else if is_at (byte_is 46) s off then
          if negb ellipsis && negb (i =? 12) then false
          else if 16 <? i + 4 then false
          else if parse_ipv4 s then finished [] (i + 4) ellipsis else false
        else
          let i := i + 2 in
          match drop off s with
          | [] => finished [] i ellipsis
          | c :: r =>
              if negb (byte_is 58 c) then false
              else match r with
                   | [] => false
                   | d :: r' =>
                       if byte_is 58 d then
                         if ellipsis then false
                         else match r' with
                              | [] => finished [] i true
                              | _ => ipv6_groups fuel r' i true
                              end
                       else ipv6_groups fuel r i ellipsis
                   end
          end
  end.

(** A group fills two bytes, so nine rounds see the end. *)
Definition parse_ipv6 (s : text) : bool :=
  match s with
  | a :: b :: r =>
      if byte_is 58 a && byte_is 58 b
      then match r with [] => true | _ => ipv6_groups 9 r 0 true end
      else ipv6_groups 9 s 0 false
  | _ => ipv6_groups 9 s 0 false
  end.

(** The first '.', ':' or '%' decides; an address with a zone is refused. *)
Fixpoint parse_kind (s : text) (whole : text) : bool :=
  match s with
  | [] => false
  | c :: r =>
      if byte_is 46 c then parse_ipv4 whole
      else if byte_is 58 c then
        if existsb (byte_is 37) whole then false else parse_ipv6 whole
      else if byte_is 37 c then false
      else parse_kind r whole
  end.

Definition ParseIP (s : text) : bool := parse_kind s s.

Example ParseIP_loopback : ParseIP (lit "127.0.0.1") = true.
Proof. reflexivity. Qed.
Example ParseIP_leading_zero : ParseIP (lit "127.0.0.01") = false.
Proof. reflexivity. Qed.
Example ParseIP_mapped : ParseIP (lit "::ffff:10.0.0.1") = true.
Proof. reflexivity. Qed.
Example ParseIP_unspecified : ParseIP (lit "::") = true.
Proof. reflexivity. Qed.
Example ParseIP_full : ParseIP (lit "2001:db8:0:0:1:0:0:1") = true.
Proof. reflexivity. Qed.
Example ParseIP_too_long : ParseIP (lit "1:2:3:4:5:6:7:8:9") = false.
Proof. reflexivity. Qed.
Example ParseIP_empty_ellipsis : ParseIP (lit "1:2:3:4::5:6:7:8") = false.
Proof. reflexivity. Qed.
Example ParseIP_zone : ParseIP (lit "fe80::1%eth0") = false.
Proof. reflexivity. Qed.
