(* ===== verification/RedactCards.v ===== *)
(** * package redact, payment cards

    redactPaymentCards and what it asks of the text around a number
    (redact/redact.go): the boundaries, the labels before the number with the
    pre-filter that skips most of them, timestamps, addresses, the layouts of
    separated numbers and the Luhn sum.  Arrays of group sizes are lists without
    the zeros that fill them. *)

From S2P Require Import Prelude.
From S2P Require Import GoStrings.
From S2P Require Import RedactBytes.
From S2P Require Import GoIP.

(** ** Digits *)

Definition allSameDigit (digits : text) : bool :=
  match digits with
  | [] => true
  | d :: rest => forallb (fun digit => Ascii.eqb digit d) rest
  end.

(** The digits from the last to the first, every second one doubled. *)
Fixpoint luhn_sum (double : bool) (reversed : text) : nat :=
  match reversed with
  | [] => 0
  | c :: rest =>
      let value := digit_value c in
      let value := if double then (let value := value * 2 in if 9 <? value then value - 9 else value)
                   else value in
      value + luhn_sum (negb double) rest
  end.

Definition validLuhn (digits : text) : bool := luhn_sum false (rev digits) mod 10 =? 0.

(** [!allSameDigit(digits) && validLuhn(digits)] *)
Definition card_digits (digits : text) : bool := negb (allSameDigit digits) && validLuhn digits.

(** ** Labels *)

Definition paymentCardLabelTails : list string :=
  ["card"; "cards"; "cardno"; "cardnumber"; "cardpan"; "cardholder"; "pan"; "panno";
   "pannumber"]%string.

Definition maxCardLabelTail : nat := 10.

(** The reversed, lower-case letters and digits that end the label, none when
    the last of them ends no tail. *)
Fixpoint label_tail (budget : nat) (value : text) (position : nat) (tail : text) : option text :=
  match budget, position with
  | S budget, S n =>
      if length tail <? maxCardLabelTail then
        match value !! n with
        | None => Some tail
        | Some c =>
            let ch := lower_byte c in
            if is_lower ch || isASCIIDigit ch then
              if (length tail =? 0) && negb (byte_in "dsonr" ch) then None
              else label_tail budget value n (tail ++ [ch])
            else if negb (byte_in "_-. " ch) then Some tail
            else label_tail budget value n tail
        end
      else Some tail
  | _, _ => Some tail
  end.

Definition ends_with_tail (tail : text) (want : string) : bool :=
  if length tail <? String.length want then false
  else text_eqb (take (String.length want) tail) (rev (lit want)).

(** The loops of the pre-filter share the bound [start-position < 64]. *)
Definition mayHavePaymentCardLabelBefore (value : text) (start : nat) : bool :=
  let bounded p position := back p value (64 - (start - position)) position in
  let position := bounded isASCIISpace start in
  let position := bounded is_quote position in
  let position :=
    if is_before (fun c => byte_is 58 c || byte_is 61 c) value position
    then bounded (fun c => isASCIISpace c || is_quote c) (position - 1)
    else position in
  match label_tail (3 * maxCardLabelTail) value position [] with
  | None => false
  | Some tail => existsb (ends_with_tail tail) paymentCardLabelTails
  end.

Definition is_card_label (label : text) : bool :=
  existsb (normalizedNumericLabelEqual label)
    ["card"; "cards"; "cardno"; "cardnumber"; "cardpan"; "creditcard"; "debitcard";
     "giftcard"; "mycard"; "paymentcard"; "pan"; "panno"; "pannumber"; "cardholder"]%string
  || hasDelimitedOrCamelLabelSuffix label "card" || hasDelimitedOrCamelLabelSuffix label "pan".

Definition hasPaymentCardLabelBefore (value : text) (start : nat) : bool :=
  if negb (mayHavePaymentCardLabelBefore value start) then false
  else is_card_label (labelBeforeNumericValue value start).

Definition hasTimestampLabelBefore (value : text) (start : nat) : bool :=
  let label := labelBeforeNumericValue value start in
  if existsb (normalizedNumericLabelEqual label)
       ["epoch"; "epochms"; "epochmillis"; "epochmilliseconds"; "eventtime"; "eventts";
        "sentat"; "time"; "timestamp"; "timestampms"; "timestampmillis";
        "timestampmilliseconds"; "createdat"; "updatedat"]%string
  then true
  else hasDelimitedOrCamelLabelSuffix label "ts" || hasDelimitedOrCamelLabelSuffix label "timestamp".

Definition isPlausibleEpochMillis (value : text) : bool :=
  if negb (length value =? 13) then false
  else match parse_int64 (to_string value) with
       | (_, Some _) => false
       | (millis, None) => (946684800000 <=? millis)%Z && (millis <? 4102444800000)%Z
       end.

Definition isTimestampPathValue (previousKey value : text) : bool :=
  if existsb (fun k => text_eqb previousKey (lit k)) ["event"; "events"; "timestamp"; "timestamps"]%string
  then isPlausibleEpochMillis value
  else false.

Definition not_slash_or_space (c : ascii) : bool := negb (byte_is 47 c) && negb (isASCIISpace c).

Definition hasTimestampPathBefore (value : text) (start : nat) : bool :=
  let prefixStart := back not_slash_or_space value 24 start in
  if negb (is_before (byte_is 47) value prefixStart) then false
  else
    let segmentEnd := prefixStart - 1 in
    let segmentStart := back not_slash_or_space value 64 segmentEnd in
    isTimestampPathValue (normalizePathKey (slice value segmentStart segmentEnd))
                         (slice value start (Nat.min (start + 13) (length value))).

(** ** Boundaries *)

Definition validPaymentCardLeftBoundary (value : text) (start : nat) (labelled : bool) : bool :=
  if start =? 0 then true
  else if is_before isASCIIDigit value start then false
  else if is_before (fun previous => negb (isASCIIWord previous) && negb (byte_is 46 previous) &&
                                     negb (byte_is 45 previous)) value start
  then true
  else labelled.

Definition validPaymentCardRightBoundary (value : text) (stop : nat) : bool :=
  (stop =? length value) ||
  is_at (fun c => negb (isASCIIDigit c) && negb (byte_is 46 c) && negb (byte_is 45 c)) value stop.

(** ** Addresses *)

Definition maxAddressTokenLength : nat := 64.

Definition isIPAddressTokenByte (c : ascii) : bool :=
  isASCIIDigit c || in_range 97 102 c || in_range 65 70 c || byte_in ".:()[]" c.

(** A token of more than [maxAddressTokenLength] bytes is not looked at. *)
Definition looksLikeIPAddressAt (value : text) (start : nat) : bool :=
  let tokenEnd := ahead isIPAddressTokenByte value (S maxAddressTokenLength) start in
  if maxAddressTokenLength <? tokenEnd - start then false
  else
    let token := slice value start tokenEnd in
    if negb (existsb (byte_in ".:") token) then false
    else ParseIP (trim_set (byte_in "()[]{}") token).

(** ** Layouts *)

(** [groupSize] digits from [position] on. *)
Fixpoint read_digits (value : text) (position groupSize : nat) (digits : text)
    : option (nat * text) :=
  match groupSize with
  | O => Some (position, digits)
  | S n =>
      match value !! position with
      | Some c => if isASCIIDigit c then read_digits value (S position) n (digits ++ [c]) else None
      | None => None
      end
  end.

(** The groups of groupedPaymentCard; [separator] is the one in use, none
    before the second group. *)
Fixpoint grouped_from (value : text) (position : nat) (first : bool) (separator : option ascii)
    (groups : list nat) (digits : text) : option (nat * text) :=
  match groups with
  | [] => Some (position, digits)
  | groupSize :: groups =>
      let read position separator :=
        match read_digits value position groupSize digits with
        | Some (position, digits) => grouped_from value position false separator groups digits
        | None => None
        end in
      if first then read position separator
      else match value !! position with
           | Some c =>
               if negb (isCardSeparator c) then None
               else match separator with
                    | None => read (S position) (Some c)
                    | Some s => if Ascii.eqb c s then read (S position) separator else None
                    end
           | None => None
           end
  end.

Definition groupedPaymentCard (value : text) (start : nat) (groups : list nat) : option (nat * text) :=
  grouped_from value start true None groups [].

(** The groups of flexibleGroupedPaymentCardEnd, one or two separators between. *)
Fixpoint flexible_from (value : text) (position : nat) (first : bool) (groups : list nat)
    (digits : text) : option (nat * text) :=
  match groups with
  | [] => Some (position, digits)
  | groupSize :: groups =>
      let next := if first then position else ahead isCardSeparator value 2 position in
      if negb first && (next =? position) then None
      else match read_digits value next groupSize digits with
           | Some (position, digits) => flexible_from value position false groups digits
           | None => None
           end
  end.

Definition established_groupings : list (list nat) :=
  [[4; 4; 4; 4; 3]; [4; 4; 4; 4]; [4; 6; 5]; [4; 4; 4; 1]].

Definition flexible_groupings : list (list nat) :=
  [[4; 4; 4; 4; 3]; [4; 4; 4; 4]; [8; 8]; [4; 6; 5]; [4; 6; 4]].

(** The first layout that reads a card with a boundary after it. *)
Fixpoint first_layout (value : text) (read : list nat -> option (nat * text))
    (groupings : list (list nat)) : option nat :=
  match groupings with
  | [] => None
  | groups :: rest =>
      match read groups with
      | Some (stop, digits) =>
          if card_digits digits && validPaymentCardRightBoundary value stop then Some stop
          else first_layout value read rest
      | None => first_layout value read rest
      end
  end.

Definition flexibleGroupedPaymentCardEnd (value : text) (start : nat) : option nat :=
  first_layout value (fun groups => flexible_from value start true groups []) flexible_groupings.

(** The loop of labelledPaymentCardEnd; every round moves on, so a round per
    byte and one more is enough. *)
Fixpoint labelled_loop (fuel : nat) (value : text) (position : nat) (digits : text)
    (lastDigitEnd : nat) : option nat :=
  let finish :=
    if (length digits <? 13) || (19 <? length digits) || allSameDigit digits ||
       negb (validLuhn digits)
    then None else Some lastDigitEnd in
  match fuel with
  | O => None
  | S fuel =>
      match value !! position with
      | None => finish
      | Some c =>
          if isASCIIDigit c then
            if length digits =? 19 then None
            else labelled_loop fuel value (S position) (digits ++ [c]) (S position)
          else if negb (isCardSeparator c) then finish
          else
            let next := ahead isCardSeparator value (length value) position in
            if negb (is_at isASCIIDigit value next) then finish
            else if byte_is 46 c && (13 <=? length digits) && validLuhn digits then
              let nextEnd := ahead isASCIIDigit value (length value) next in
              if nextEnd - next <? 4 then
                (if negb (allSameDigit digits) then Some lastDigitEnd else None)
              else labelled_loop fuel value next digits lastDigitEnd
            else labelled_loop fuel value next digits lastDigitEnd
      end
  end.

Definition labelledPaymentCardEnd (value : text) (start : nat) : option nat :=
  if looksLikeIPAddressAt value start then None
  else labelled_loop (S (length value)) value start [] start.

(** ** The scanner *)

Definition paymentCardEnd (value : text) (start : nat) (labelled : bool) : option nat :=
  let stop := ahead isASCIIDigit value (length value) start in
  let run := slice value start stop in
  let digits := stop - start in
  if (digits =? 13) && isPlausibleEpochMillis run &&
     (hasTimestampLabelBefore value start || hasTimestampPathBefore value start)
  then None
  else if (13 <=? digits) && (digits <=? 19) && hasOperationalNumericLabelBefore value start &&
          negb labelled
  then None
  else if (13 <=? digits) && (digits <=? 19) && validPaymentCardRightBoundary value stop &&
          card_digits run
  then Some stop
  else
    match first_layout value (groupedPaymentCard value start) established_groupings with
    | Some stop => Some stop
    | None =>
        match flexibleGroupedPaymentCardEnd value start with
        | Some stop => Some stop
        | None => if labelled then labelledPaymentCardEnd value start else None
        end
    end.

(** The body of the loop of redactPaymentCards. *)
Definition card_at (value : text) (start : nat) : option nat :=
  if negb (is_at isASCIIDigit value start) || is_before isASCIIDigit value start then None
  else
    let labelled := hasPaymentCardLabelBefore value start in
    if negb (validPaymentCardLeftBoundary value start labelled) then None
    else paymentCardEnd value start labelled.

Definition card_mask : text := lit "[REDACTED_CARD]".

Definition redactPaymentCards (value : text) : text :=
  scan card_mask (card_at value) value (length value).

Definition containsPaymentCard (value : text) : bool :=
  negb (text_eqb (redactPaymentCards value) value).
