(* ===== verification/RedactCardsProofs.v ===== *)
(** * Payment cards: what is masked

    Every span the scanner masks is a card number: thirteen to nineteen digits
    with nothing but separators between them, that satisfy the Luhn sum, taken
    whole out of the text; and a card number written without separators is
    always inside a masked span, unless the text calls it something else.  The
    Luhn sum tells a digit from another, and the pre-filter of the labels
    rejects no label the full check accepts within its look-back. *)

From S2P Require Import Prelude.
From S2P Require Import GoStrings.
From S2P Require Import RedactBytes.
From S2P Require Import GoIP.
From S2P Require Import RedactCards.

(** ** Card spans *)

Definition digits_of (value : text) (s e : nat) : text :=
  List.filter isASCIIDigit (slice value s e).

Definition card_byte (c : ascii) : bool := isASCIIDigit c || isCardSeparator c.

Record card_span (value : text) (s e : nat) : Prop := {
  card_bounds : s < e <= length value;
  card_first : is_at isASCIIDigit value s = true;
  card_last : is_at isASCIIDigit value (e - 1) = true;
  card_whole_left : is_before isASCIIDigit value s = false;
  card_whole_right : is_at isASCIIDigit value e = false;
  card_bytes : Forall (fun c => card_byte c = true) (slice value s e);
  card_length : 13 <= length (digits_of value s e) <= 19;
  card_luhn : validLuhn (digits_of value s e) = true;
  card_varied : allSameDigit (digits_of value s e) = false
}.

(** What a layout has read from [start] to [pos]. *)
Record has_read (value : text) (start pos : nat) (digits : text) : Prop := {
  read_bounds : start <= pos <= length value;
  read_value : digits = digits_of value start pos;
  read_bytes : forall k, start <= k < pos -> is_at card_byte value k = true
}.

Lemma digit_not_separator c : isASCIIDigit c = true -> isCardSeparator c = false.
Proof.
  unfold isASCIIDigit, isCardSeparator, is_digit, in_range, byte_is. intros H.
  apply andb_true_iff in H as [?%N.leb_le ?%N.leb_le].
  rewrite !orb_false_iff, !N.eqb_neq. lia.
Qed.

Lemma separator_not_digit c : isCardSeparator c = true -> isASCIIDigit c = false.
Proof.
  destruct (isASCIIDigit c) eqn:E; [|done]. by rewrite (digit_not_separator _ E).
Qed.

Lemma has_read_nil value start : start <= length value -> has_read value start start [].
Proof.
  split; [lia| |lia]. unfold digits_of. by rewrite slice_nil.
Qed.

Lemma has_read_digit value start pos digits c :
  has_read value start pos digits -> value !! pos = Some c -> isASCIIDigit c = true ->
  has_read value start (S pos) (digits ++ [c]).
Proof.
  intros [Hb -> Hk] Hc Hd. pose proof (lookup_lt_Some _ _ _ Hc).
  split; [lia| |].
  - unfold digits_of. rewrite (slice_snoc _ _ _ c) by (lia || done).
    rewrite List.filter_app. cbn. by rewrite Hd.
  - intros k Hk'. destruct (decide (k = pos)) as [->|]; [|apply Hk; lia].
    unfold is_at. by rewrite Hc; unfold card_byte; rewrite Hd.
Qed.

Lemma has_read_separator value start pos digits :
  has_read value start pos digits -> is_at isCardSeparator value pos = true ->
  has_read value start (S pos) digits.
Proof.
  intros [Hb -> Hk] Hs. pose proof (is_at_lt _ _ _ Hs).
  unfold is_at in Hs. destruct (value !! pos) as [c|] eqn:Hc; [|done].
  split; [lia| |].
  - unfold digits_of. rewrite (slice_snoc _ _ _ c) by (lia || done).
    rewrite List.filter_app. cbn. by rewrite (separator_not_digit _ Hs), app_nil_r.
  - intros k Hk'. destruct (decide (k = pos)) as [->|]; [|apply Hk; lia].
    unfold is_at. rewrite Hc. unfold card_byte. by rewrite Hs, orb_true_r.
Qed.

Lemma has_read_separators value start pos pos' digits :
  has_read value start pos digits -> pos <= pos' ->
  (forall k, pos <= k < pos' -> is_at isCardSeparator value k = true) ->
  has_read value start pos' digits.
Proof.
  intros H Hle. revert H. induction Hle as [|pos' Hle IH]; [done|].
  intros H Hs. apply has_read_separator; [apply IH; [done|]|]; intros; apply Hs; lia.
Qed.

(** ** Layouts *)

(** A reader that stands behind a digit. *)
Definition read_group (value : text) (start pos n : nat) (digits digits' : text) (pos' : nat) : Prop :=
  has_read value start pos' digits' /\ length digits' = length digits + n /\ pos <= pos' /\
  (0 < n -> start < pos' /\ is_at isASCIIDigit value (pos' - 1) = true).

Lemma read_digits_spec value start n pos digits pos' digits' :
  has_read value start pos digits -> read_digits value pos n digits = Some (pos', digits') ->
  read_group value start pos n digits digits' pos'.
Proof.
  unfold read_group. revert pos digits; induction n as [|n IH]; intros pos digits Hr; cbn.
  { intros [= <- <-]. split_and!; [done|lia..]. }
  destruct (value !! pos) as [c|] eqn:Hc; [|done].
  destruct (isASCIIDigit c) eqn:Hd; [|done]. intros H.
  pose proof (has_read_digit _ _ _ _ _ Hr Hc Hd) as Hr'.
  pose proof (read_bounds _ _ _ _ Hr).
  pose proof (IH _ _ Hr' H) as (? & Hl & ? & Hlast). rewrite length_app in Hl. cbn in Hl.
  split_and!; [done|lia|lia|]. intros _. destruct n; [|apply Hlast; lia].
  cbn in H. injection H as <- <-. split; [lia|]. cbn. rewrite Nat.sub_0_r. unfold is_at. by rewrite Hc.
Qed.

Lemma grouped_from_spec value start groups first separator pos digits pos' digits' :
  Forall (fun n => 0 < n) groups -> has_read value start pos digits ->
  grouped_from value pos first separator groups digits = Some (pos', digits') ->
  read_group value start pos (sum_list groups) digits digits' pos'.
Proof.
  intros Hg. revert first separator pos digits.
  induction Hg as [|n groups Hn Hg IH]; intros first separator pos digits Hr; cbn -[read_group].
  { intros [= <- <-]. unfold read_group. split_and!; [done|lia..]. }
  assert (Hread : forall pos0 separator, has_read value start pos0 digits -> pos <= pos0 ->
    match read_digits value pos0 n digits with
    | Some (position, digits) => grouped_from value position false separator groups digits
    | None => None
    end = Some (pos', digits') ->
    read_group value start pos (n + sum_list groups) digits digits' pos').
  { intros pos0 sep0 Hr0 Hle. destruct (read_digits _ _ _ _) as [[p1 d1]|] eqn:E; [|done].
    intros H. pose proof (read_digits_spec _ _ _ _ _ _ _ Hr0 E) as (Hr1 & ? & ? & Hlast).
    pose proof (IH _ _ _ _ Hr1 H) as (? & ? & ? & Hlast').
    destruct groups as [|m groups'].
    - cbn in H. injection H as <- <-. split_and!; [done|cbn in *; lia|lia|].
      intros _. by apply Hlast.
    - split_and!; [done|lia|lia|]. intros _. apply Hlast'. inversion Hg; subst. cbn. lia. }
  destruct first; [apply Hread; [done|lia]|].
  destruct (value !! pos) as [c|] eqn:Hc; [|done].
  destruct (isCardSeparator c) eqn:Hs; [|done]. cbn [negb].
  assert (has_read value start (S pos) digits)
    by (apply has_read_separator; [done|]; unfold is_at; by rewrite Hc).
  destruct separator as [s|]; [case_match; [|done]|]; apply Hread; done || lia.
Qed.

Lemma flexible_from_spec value start groups first pos digits pos' digits' :
  Forall (fun n => 0 < n) groups -> has_read value start pos digits ->
  flexible_from value pos first groups digits = Some (pos', digits') ->
  read_group value start pos (sum_list groups) digits digits' pos'.
Proof.
  intros Hg. revert first pos digits.
  induction Hg as [|n groups Hn Hg IH]; intros first pos digits Hr.
  { intros [= <- <-]. unfold read_group; cbn. split_and!; [done|lia..]. }
  cbn -[read_group ahead].
  set (next := if first then pos else ahead isCardSeparator value 2 pos).
  assert (pos <= next /\ forall k, pos <= k < next -> is_at isCardSeparator value k = true)
    as [Hle Hs].
  { subst next. destruct first; [split; lia|]. split; [apply ahead_ge|apply ahead_run]. }
  case_match; [done|]. pose proof (has_read_separators _ _ _ _ _ Hr Hle Hs) as Hr0.
  destruct (read_digits _ _ _ _) as [[p1 d1]|] eqn:E; [|done].
  intros H0. pose proof (read_digits_spec _ _ _ _ _ _ _ Hr0 E) as (Hr1 & ? & ? & Hlast).
  pose proof (IH _ _ _ Hr1 H0) as (? & ? & ? & Hlast').
  destruct groups as [|m groups'].
  - cbn in H0. injection H0 as <- <-. split_and!; [done|cbn in *; lia|lia|].
    intros _. by apply Hlast.
  - split_and!; [done|lia|lia|]. intros _. apply Hlast'. inversion Hg; subst. cbn. lia.
Qed.

Lemma first_layout_spec value read groupings stop :
  first_layout value read groupings = Some stop ->
  exists groups digits, In groups groupings /\ read groups = Some (stop, digits) /\
    card_digits digits = true /\ validPaymentCardRightBoundary value stop = true.
Proof.
  induction groupings as [|g rest IH]; cbn; [done|].
  destruct (read g) as [[p d]|] eqn:E; [destruct (card_digits d && _) eqn:Hc|].
  - intros [= <-]. apply andb_true_iff in Hc as []. exists g, d. auto.
  - intros (gs & ds & ? & ?)%IH. exists gs, ds. auto.
  - intros (gs & ds & ? & ?)%IH. exists gs, ds. auto.
Qed.

Lemma right_boundary_not_digit value stop :
  validPaymentCardRightBoundary value stop = true -> is_at isASCIIDigit value stop = false.
Proof.
  unfold validPaymentCardRightBoundary, is_at. intros H. destruct (value !! stop) as [c|] eqn:E; [|done].
  apply orb_true_iff in H as [H%Nat.eqb_eq|H].
  - apply lookup_lt_Some in E. lia.
  - by destruct (isASCIIDigit c).
Qed.

(** ** From what was read to a span *)

Lemma card_span_intro value start stop digits :
  has_read value start stop digits -> start < stop ->
  is_at isASCIIDigit value start = true -> is_at isASCIIDigit value (stop - 1) = true ->
  is_before isASCIIDigit value start = false -> is_at isASCIIDigit value stop = false ->
  13 <= length digits <= 19 -> card_digits digits = true -> card_span value start stop.
Proof.
  intros [Hb -> Hk] Hlt Hf Hl Hbef Haft Hlen [Hv Hs]%andb_true_iff.
  split; try done; [lia| |].
  - by apply (slice_Forall _ card_byte).
  - by apply negb_true_iff in Hv.
Qed.

(** A number written without separators. *)
Lemma digit_run_read value start stop :
  start <= stop <= length value ->
  (forall k, start <= k < stop -> is_at isASCIIDigit value k = true) ->
  has_read value start stop (slice value start stop).
Proof.
  intros Hle Hrun. split; [done| |].
  - unfold digits_of. assert (H : Forall (fun c => isASCIIDigit c = true) (slice value start stop))
      by (by apply (slice_Forall _ isASCIIDigit)).
    induction H as [|c l Hc _ IH]; cbn; [done|]. rewrite Hc. by f_equal.
  - intros k Hk%Hrun. unfold is_at, card_byte in *. destruct (value !! k); [|done]. by rewrite Hk.
Qed.

(** The reader of labelledPaymentCardEnd stands behind a digit, or on the digit
    after separators that follow one. *)
Definition labelled_at (value : text) (start position lastDigitEnd : nat) (digits : text) : Prop :=
  has_read value start lastDigitEnd digits /\ has_read value start position digits /\
  is_at isASCIIDigit value start = true /\
  (start < lastDigitEnd -> is_at isASCIIDigit value (lastDigitEnd - 1) = true) /\
  length digits <= 19 /\
  (position = lastDigitEnd \/
   is_at isASCIIDigit value position = true /\ is_at isCardSeparator value lastDigitEnd = true).

Lemma labelled_span value start position lastDigitEnd digits :
  labelled_at value start position lastDigitEnd digits ->
  is_before isASCIIDigit value start = false ->
  is_at isASCIIDigit value lastDigitEnd = false ->
  13 <= length digits -> card_digits digits = true -> card_span value start lastDigitEnd.
Proof.
  intros (Hr & _ & Hf & Hl & Hlen & _) Hbef Haft Hn Hc.
  assert (start < lastDigitEnd).
  { destruct Hr as [[Hb _] -> _]. destruct (decide (start = lastDigitEnd)) as [->|]; [|lia].
    unfold digits_of in Hn. rewrite slice_nil in Hn by lia. cbn in Hn. lia. }
  apply (card_span_intro _ _ _ digits); auto; lia.
Qed.

Lemma is_at_some p value i c : value !! i = Some c -> is_at p value i = p c.
Proof. intros H. unfold is_at. by rewrite H. Qed.

Lemma labelled_loop_spec value start fuel position digits lastDigitEnd stop :
  labelled_at value start position lastDigitEnd digits ->
  is_before isASCIIDigit value start = false ->
  labelled_loop fuel value position digits lastDigitEnd = Some stop -> card_span value start stop.
Proof.
  intros Hat Hbef. revert position digits lastDigitEnd Hat.
  induction fuel as [|fuel IH]; intros position digits lastDigitEnd Hat; cbn -[ahead Nat.eqb]; [done|].
  assert (Hfin : is_at isASCIIDigit value lastDigitEnd = false ->
    (if (length digits <? 13) || (19 <? length digits) || allSameDigit digits ||
        negb (validLuhn digits) then None else Some lastDigitEnd) = Some stop ->
    card_span value start stop).
  { intros Haft H. case_match eqn:Hc; [done|]. injection H as <-.
    rewrite !orb_false_iff in Hc. destruct Hc as [[[H1%Nat.ltb_ge H2] H3] H4].
    eapply labelled_span; eauto. unfold card_digits. by rewrite H3, <- (negb_involutive (validLuhn _)), H4. }
  pose proof Hat as (Hr & Hr' & Hf & Hl & Hlen & Hpos).
  destruct (value !! position) as [c|] eqn:Hc.
  2:{ apply Hfin. destruct Hpos as [<-|[H _]]; unfold is_at in *; by rewrite Hc in *. }
  destruct (isASCIIDigit c) eqn:Hd.
  - destruct (length digits =? 19) eqn:H19; [done|]. apply Nat.eqb_neq in H19. apply IH.
    pose proof (has_read_digit _ _ _ _ _ Hr' Hc Hd).
    split_and!; try done; [|rewrite length_app; cbn; lia|by left].
    intros _. cbn. by rewrite Nat.sub_0_r, (is_at_some _ _ _ _ Hc).
  - assert (position = lastDigitEnd) as -> by (destruct Hpos as [|[H _]]; [done|]; by rewrite (is_at_some _ _ _ _ Hc), Hd in H).
    assert (Haft : is_at isASCIIDigit value lastDigitEnd = false) by (by rewrite (is_at_some _ _ _ _ Hc)).
    destruct (isCardSeparator c) eqn:Hs; cbn [negb]; [|by apply Hfin].
    set (next := ahead isCardSeparator value (length value) lastDigitEnd).
    destruct (is_at isASCIIDigit value next) eqn:Hn; cbn [negb]; [|by apply Hfin].
    assert (labelled_at value start next lastDigitEnd digits) as Hat'.
    { split_and!; try done.
      - eapply has_read_separators; [exact Hr| |]; [apply ahead_ge|apply ahead_run].
      - right. split; [done|]. by rewrite (is_at_some _ _ _ _ Hc). }
    destruct (byte_is 46 c && _ && _) eqn:Hdot; [|by apply IH].
    destruct (_ <? 4); [|by apply IH].
    destruct (negb (allSameDigit digits)) eqn:Hv; [|done]. intros [= <-].
    apply andb_true_iff in Hdot as [[_ H13%Nat.leb_le]%andb_true_iff Hluhn].
    eapply labelled_span; eauto. unfold card_digits. by rewrite Hv.
Qed.

Lemma labelled_loop_start value start :
  is_at isASCIIDigit value start = true -> labelled_at value start start start [].
Proof.
  intros Hf. pose proof (is_at_lt _ _ _ Hf). assert (has_read value start start []) by (apply has_read_nil; lia).
  split_and!; try done; cbn; lia || by left.
Qed.

(** ** The scanner *)

Lemma layout_span value start read groupings stop :
  is_at isASCIIDigit value start = true -> is_before isASCIIDigit value start = false ->
  (forall groups pos digits, In groups groupings -> read groups = Some (pos, digits) ->
     read_group value start start (sum_list groups) [] digits pos) ->
  Forall (fun groups => 13 <= sum_list groups <= 19) groupings ->
  first_layout value read groupings = Some stop -> card_span value start stop.
Proof.
  intros Hf Hbef Hread Hsum (groups & digits & Hin & Hrd & Hc & Hrb)%first_layout_spec.
  pose proof (Hread _ _ _ Hin Hrd) as (Hr & Hlen & _ & Hlast).
  rewrite List.Forall_forall in Hsum. apply Hsum in Hin. cbn [length Nat.add] in Hlen.
  destruct Hlast as [? ?]; [lia|].
  apply (card_span_intro _ _ _ digits); try done; [by apply right_boundary_not_digit|lia].
Qed.

Lemma paymentCardEnd_span value start labelled stop :
  is_at isASCIIDigit value start = true -> is_before isASCIIDigit value start = false ->
  paymentCardEnd value start labelled = Some stop -> card_span value start stop.
Proof.
  intros Hf Hbef. pose proof (is_at_lt _ _ _ Hf) as Hlt. unfold paymentCardEnd.
  set (e := ahead isASCIIDigit value (length value) start).
  assert (Hpos : forall gs : list (list nat), gs = established_groupings \/ gs = flexible_groupings ->
    forall g, In g gs -> Forall (fun n => 0 < n) g).
  { intros gs [-> | ->] g Hg; cbn in Hg; intuition (subst; repeat constructor). }
  case_match; [done|]. case_match; [done|]. case_match eqn:Hrun.
  { intros [= <-]. rewrite !andb_true_iff, !Nat.leb_le in Hrun.
    destruct Hrun as [[[H13 H19] Hrb] Hc].
    assert (e <= length value).
    { assert (is_at isASCIIDigit value (e - 1) = true) as ?%is_at_lt
        by (apply (ahead_run _ value (length value) start); fold e; lia). lia. }
    apply (card_span_intro _ _ _ (slice value start e)); try done.
    - apply digit_run_read; [lia|apply ahead_run].
    - lia.
    - apply (ahead_run _ value (length value) start). fold e. lia.
    - apply ahead_max.
    - rewrite slice_length by lia. lia. }
  destruct (first_layout value _ established_groupings) as [s1|] eqn:E1.
  { intros [= <-]. apply (layout_span _ _ _ _ _ Hf Hbef) in E1; [done| |].
    - intros gs pos ds Hin Hrd. eapply grouped_from_spec; [| |exact Hrd].
      + eapply (Hpos established_groupings); auto.
      + apply has_read_nil. lia.
    - repeat constructor; cbn; lia. }
  destruct (flexibleGroupedPaymentCardEnd value start) as [s2|] eqn:E2.
  { intros [= <-]. apply (layout_span _ _ _ _ _ Hf Hbef) in E2; [done| |].
    - intros gs pos ds Hin Hrd. eapply flexible_from_spec; [| |exact Hrd].
      + eapply (Hpos flexible_groupings); auto.
      + apply has_read_nil. lia.
    - repeat constructor; cbn; lia. }
  destruct labelled; [|done]. unfold labelledPaymentCardEnd. case_match; [done|].
  apply labelled_loop_spec; [by apply labelled_loop_start|done].
Qed.

Lemma card_at_span value start stop : card_at value start = Some stop -> card_span value start stop.
Proof.
  unfold card_at. case_match eqn:H; [done|]. apply orb_false_iff in H as [H%negb_false_iff Hbef].
  case_match; [done|]. by apply paymentCardEnd_span.
Qed.

Lemma card_at_forward value s e : card_at value s = Some e -> s < e.
Proof. intros H%card_at_span. apply (card_bounds _ _ _ H). Qed.

(** The spans redactPaymentCards masks. *)
Definition card_spans (value : text) : list span :=
  scan_spans (card_at value) (length value) (length value) 0.

(** A maximal run of digits, and the reasons the scanner has to leave it. *)
Definition digit_run (value : text) (s e : nat) : Prop :=
  s < e /\ (forall k, s <= k < e -> is_at isASCIIDigit value k = true) /\
  is_before isASCIIDigit value s = false /\ is_at isASCIIDigit value e = false.

Definition called_otherwise (value : text) (s e : nat) : bool :=
  (e - s =? 13) && isPlausibleEpochMillis (slice value s e) &&
    (hasTimestampLabelBefore value s || hasTimestampPathBefore value s)
  || hasOperationalNumericLabelBefore value s && negb (hasPaymentCardLabelBefore value s).

Lemma card_at_run value s e :
  digit_run value s e -> 13 <= e - s <= 19 -> card_digits (slice value s e) = true ->
  validPaymentCardLeftBoundary value s (hasPaymentCardLabelBefore value s) = true ->
  validPaymentCardRightBoundary value e = true -> called_otherwise value s e = false ->
  card_at value s = Some e.
Proof.
  intros (Hlt & Hrun & Hbef & Haft) [H13 H19] Hc Hl Hr [Ht Ho]%orb_false_iff.
  unfold card_at. rewrite (Hrun s), Hbef, Hl by lia. cbn [negb orb]. unfold paymentCardEnd.
  rewrite (ahead_exact _ _ _ e) by (done || lia).
  apply Nat.leb_le in H13, H19. by rewrite Ht, <- (andb_assoc _ _ (negb _)), Ho, andb_false_r, Hr, H13, H19, Hc.
Qed.

(** A span that covers the first digit of a run covers the run. *)
Lemma span_covers_run value s e s' e' :
  digit_run value s e -> card_span value s' e' -> s' <= s < e' -> e <= e'.
Proof.
  intros (_ & Hrun & _ & _) Hs Hin. destruct (decide (e <= e')); [done|].
  pose proof (card_whole_right _ _ _ Hs) as H. rewrite Hrun in H by lia. done.
Qed.

(** ** The Luhn sum *)

Definition luhn_weight (double : bool) (c : ascii) : nat := luhn_sum double [c].

Lemma luhn_sum_app double a b :
  luhn_sum double (a ++ b) = luhn_sum double a + luhn_sum (xorb double (Nat.odd (length a))) b.
Proof.
  revert double; induction a as [|c a IH]; intros double; cbn -[Nat.odd].
  { by rewrite xorb_false_r. }
  rewrite IH, Nat.odd_succ, <- Nat.negb_odd.
  destruct double, (Nat.odd (length a)); cbn; lia.
Qed.

Lemma digit_cases c : isASCIIDigit c = true -> digit_value c <= 9 /\ c = ascii_of_N (N.of_nat (48 + digit_value c)).
Proof.
  unfold isASCIIDigit, is_digit, in_range, digit_value, byte_of. intros H.
  apply andb_true_iff in H as [H1%N.leb_le H2%N.leb_le]. split; [lia|].
  rewrite <- (ascii_N_embedding c) at 1. f_equal. lia.
Qed.

Lemma luhn_weight_inj double c d :
  isASCIIDigit c = true -> isASCIIDigit d = true ->
  luhn_weight double c mod 10 = luhn_weight double d mod 10 -> c = d.
Proof.
  intros [Hc Ec]%digit_cases [Hd Ed]%digit_cases H.
  assert (digit_value c = digit_value d) as Hv; [|by rewrite Ec, Ed, Hv].
  revert H. unfold luhn_weight, luhn_sum. rewrite !Nat.add_0_r.
  destruct double; repeat case_match; bool_hyps; rewrite ?Nat.ltb_lt, ?Nat.ltb_ge in *;
    rewrite !Nat.mod_small by lia; lia.
Qed.

(** ** The properties *)

(** C8: redactPaymentCards changes nothing but card numbers: its result is
    the text with disjoint spans replaced by [REDACTED_CARD], in order, and each
    span is a whole number of 13 to 19 digits, not all equal, that satisfies the
    Luhn sum, with nothing but card separators between its digits. *)
Theorem redactPaymentCards_masks_cards value :
  redactPaymentCards value = splice card_mask value 0 (card_spans value) /\
  in_order 0 (card_spans value) /\
  forall s e, (s, e) ∈ card_spans value -> card_span value s e.
Proof.
  split_and!.
  - apply scan_splice, card_at_forward.
  - apply scan_spans_in_order, card_at_forward.
  - intros s e [_ H]%(scan_spans_sound _ _ (card_at_forward value)). by apply card_at_span.
Qed.

(** no card number written without separators survives: a whole run of 13
    to 19 digits that satisfies the Luhn sum and has boundaries on both sides
    lies inside a span that redactPaymentCards masks, unless the text before it
    calls it a timestamp or an operational number. *)
Theorem compact_cards_masked value s e :
  digit_run value s e -> 13 <= e - s <= 19 -> card_digits (slice value s e) = true ->
  validPaymentCardLeftBoundary value s (hasPaymentCardLabelBefore value s) = true ->
  validPaymentCardRightBoundary value e = true -> called_otherwise value s e = false ->
  exists s' e', (s', e') ∈ card_spans value /\ s' <= s /\ e <= e'.
Proof.
  intros Hrun Hlen Hc Hl Hr Ho. pose proof (card_at_run _ _ _ Hrun Hlen Hc Hl Hr Ho) as Hat.
  assert (s < length value) by (eapply is_at_lt, (proj1 (proj2 Hrun)); destruct Hrun; lia).
  destruct (scan_spans_complete (card_at value) (length value) (card_at_forward value)
              (length value) 0 s) as [H'|(s' & e' & Hin & Hs')]; [lia..|congruence|].
  exists s', e'. split; [done|]. split; [lia|].
  apply (scan_spans_sound _ _ (card_at_forward value)) in Hin as [_ Hat']. eapply span_covers_run; [done| |exact Hs'].
  by apply card_at_span.
Qed.

(** the Luhn check notices a changed digit: when a string of digits
    passes validLuhn, it no longer does with another digit in any one place. *)
Theorem validLuhn_one_digit a c d b :
  isASCIIDigit c = true -> isASCIIDigit d = true -> c <> d ->
  validLuhn (a ++ c :: b) = true -> validLuhn (a ++ d :: b) = false.
Proof.
  intros Hc Hd Hne H1. apply not_true_is_false. intros H2. apply Hne. revert H1 H2.
  unfold validLuhn.
  assert (Hsplit : forall x, rev (a ++ x :: b) = rev b ++ [x] ++ rev a)
    by (intros x; rewrite rev_app_distr; cbn; by rewrite <- (assoc_L (++))).
  rewrite !Hsplit, !luhn_sum_app, !Nat.eqb_eq. intros H1 H2.
  cbn [length] in H1, H2. fold (luhn_weight (xorb false (Nat.odd (length (rev b)))) c) in H1.
  fold (luhn_weight (xorb false (Nat.odd (length (rev b)))) d) in H2.
  set (p := luhn_sum false (rev b)) in *. set (w := xorb false _) in *.
  apply (luhn_weight_inj w); [done..|].
  set (q := luhn_sum (xorb w _) (rev a)) in *.
  revert H1 H2. generalize (luhn_weight w c) as x, (luhn_weight w d) as y. clear. intros x y H1 H2.
  apply Nat.Div0.mod_divides in H1 as [m Hm], H2 as [n Hn].
  assert (exists k, x = y + 10 * k \/ y = x + 10 * k) as [k [-> | ->]].
  { destruct (le_ge_dec n m); [exists (m - n); left|exists (n - m); right]; lia. }
  all: rewrite (Nat.mul_comm 10), Nat.Div0.mod_add; done.
Qed.
