(* ===== verification/RedactLabels.v ===== *)
(** * Labels: the pre-filter against the full check

    mayHavePaymentCardLabelBefore looks at a few bytes before a number to spare
    the scanner labelBeforeNumericValue and its fourteen comparisons.  It is a
    filter only if it lets every card label through: it does, for a label whose
    delimiters and separators fit into the bytes it looks at. *)

From S2P Require Import Prelude.
From S2P Require Import GoStrings.
From S2P Require Import RedactBytes.
From S2P Require Import RedactCards.

(** ** Normalised labels *)

Definition is_label_alnum (c : ascii) : bool := is_lower (lower_byte c) || isASCIIDigit (lower_byte c).

Lemma normalize_cons c t :
  normalizeNumericLabel (c :: t) =
  if is_label_alnum c then lower_byte c :: normalizeNumericLabel t else normalizeNumericLabel t.
Proof. done. Qed.

Lemma normalize_app a b :
  normalizeNumericLabel (a ++ b) = normalizeNumericLabel a ++ normalizeNumericLabel b.
Proof. unfold normalizeNumericLabel. by rewrite map_app, List.filter_app. Qed.

Lemma normalize_rev t : normalizeNumericLabel (rev t) = rev (normalizeNumericLabel t).
Proof.
  induction t as [|c t IH]; [done|]. cbn [rev]. rewrite normalize_app, IH, !normalize_cons.
  destruct (is_label_alnum c); cbn; [done|by rewrite app_nil_r].
Qed.

Lemma normalize_trim_left p t :
  (forall c, p c = true -> is_label_alnum c = false) ->
  normalizeNumericLabel (trim_left_set p t) = normalizeNumericLabel t.
Proof.
  intros Hp. induction t as [|c t IH]; [done|]. cbn [trim_left_set].
  destruct (p c) eqn:E; [|done]. by rewrite IH, normalize_cons, (Hp _ E).
Qed.

Lemma normalize_trim_right p t :
  (forall c, p c = true -> is_label_alnum c = false) ->
  normalizeNumericLabel (trim_right_set p t) = normalizeNumericLabel t.
Proof.
  intros Hp. unfold trim_right_set. by rewrite normalize_rev, normalize_trim_left, normalize_rev, rev_involutive.
Qed.

(** The comparison that builds nothing is the comparison of the normalised
    label. *)
Lemma label_equal_normalize value want :
  normalizedNumericLabelEqual value want = text_eqb (normalizeNumericLabel value) (lit want).
Proof.
  unfold normalizedNumericLabelEqual, text_eqb. generalize (lit want); clear want.
  induction value as [|c value IH]; intros want.
  { destruct want; by rewrite ?bool_decide_eq_true_2, ?bool_decide_eq_false_2 by done. }
  rewrite normalize_cons. unfold is_label_alnum. cbn.
  destruct (is_lower _), (isASCIIDigit _); cbn; try apply IH;
    (destruct want as [|w want]; [by rewrite bool_decide_eq_false_2|]);
    destruct (Ascii.eqb_spec (lower_byte c) w) as [->|Hne];
    try (by rewrite bool_decide_eq_false_2 by congruence);
    rewrite IH; apply bool_decide_ext; split; congruence.
Qed.

(** ** The suffix rule *)

Definition folds_alone (c : ascii) : bool := negb (byte_is 115 (lower_byte c)) && negb (byte_is 107 (lower_byte c)).

Lemma equal_fold_lower t s :
  str_forallb folds_alone t = true -> equal_fold s t = true ->
  map lower_byte (lit s) = map lower_byte (lit t).
Proof.
  revert s; induction t as [|c t IH]; intros s; cbn.
  { intros _. by destruct s. }
  intros [[Hs Hk]%andb_true_iff Ht]%andb_true_iff.
  apply negb_true_iff in Hs, Hk. destruct s as [|a s]; [done|]. cbn [equal_fold].
  destruct (Ascii.eqb_spec (lower_byte a) (lower_byte c)) as [E|_].
  { intros H. exact (f_equal2 cons E (IH _ Ht H)). }
  rewrite Hs, Hk. cbn [andb]. repeat case_match; done.
Qed.

Lemma suffix_normalize label suffix :
  str_forallb folds_alone suffix = true ->
  normalizeNumericLabel (lit suffix) = map lower_byte (lit suffix) ->
  hasDelimitedOrCamelLabelSuffix label suffix = true ->
  exists x, normalizeNumericLabel label = x ++ map lower_byte (lit suffix).
Proof.
  intros Hf Hn. unfold hasDelimitedOrCamelLabelSuffix.
  set (l := trim_right_set _ label). set (n := length l - String.length suffix).
  destruct (_ || _) eqn:E; [done|]. intros _. bool_hyps.
  assert (normalizeNumericLabel l = normalizeNumericLabel label) as <-.
  { apply normalize_trim_right. intros c. by destruct c as [[] [] [] [] [] [] [] []]. }
  exists (normalizeNumericLabel (take n l)). rewrite <- (take_drop n l) at 1.
  rewrite normalize_app. f_equal.
  assert (Hd : map lower_byte (drop n l) = map lower_byte (lit suffix)).
  { unfold EqualFold, to_string in *. pose proof (equal_fold_lower suffix _ Hf H0) as Hd.
    unfold lit in *. by rewrite String.list_ascii_of_string_of_list_ascii in Hd. }
  unfold normalizeNumericLabel in *. rewrite Hd. exact Hn.
Qed.

(** ** The reverse scan of the pre-filter

    The text before a position, read backwards, is a list; [tail_of] is
    [label_tail] on it. *)

Definition before (value : text) (position : nat) : text := rev (take position value).

Fixpoint tail_of (budget : nat) (r : text) (tail : text) : option text :=
  match budget, r with
  | S budget, c :: r =>
      if length tail <? maxCardLabelTail then
        let ch := lower_byte c in
        if is_lower ch || isASCIIDigit ch then
          if (length tail =? 0) && negb (byte_in "dsonr" ch) then None
          else tail_of budget r (tail ++ [ch])
        else if negb (byte_in "_-. " ch) then Some tail
        else tail_of budget r tail
      else Some tail
  | _, _ => Some tail
  end.

Lemma before_S value n c : value !! n = Some c -> before value (S n) = c :: before value n.
Proof. intros H. unfold before. by rewrite (take_S_r _ _ _ H), rev_app_distr. Qed.

Lemma label_tail_before budget value position tail :
  position <= length value ->
  label_tail budget value position tail = tail_of budget (before value position) tail.
Proof.
  revert position tail; induction budget as [|b IH]; intros [|n] tail Hn; try done.
  destruct (lookup_lt_is_Some_2 value n) as [c Hc]; [lia|].
  rewrite (before_S _ _ _ Hc). cbn -[Nat.eqb maxCardLabelTail]. rewrite Hc.
  repeat case_match; try done; apply IH; lia.
Qed.

Definition separators (u : text) : nat := length (List.filter (fun c => negb (is_label_alnum c)) u).

Lemma label_byte_kind c :
  is_label_byte c = true -> is_label_alnum c = false -> byte_in "_-. " (lower_byte c) = true.
Proof. by destruct c as [[] [] [] [] [] [] [] []]. Qed.

(** What was collected stays. *)
Lemma tail_of_extends budget r tail :
  tail <> [] -> exists t, tail_of budget r tail = Some t /\ tail `prefix_of` t.
Proof.
  revert r tail; induction budget as [|b IH]; intros [|c r] tail Hne;
    cbn -[Nat.eqb maxCardLabelTail]; try (by eexists).
  assert (length tail =? 0 = false) as -> by (apply Nat.eqb_neq; by destruct tail).
  cbn [andb]. repeat case_match; try (by eexists); [|by apply IH].
  destruct (IH r (tail ++ [lower_byte c])) as (t & -> & Ht); [by destruct tail|].
  exists t. split; [done|]. etrans; [|exact Ht]. by apply prefix_app_r.
Qed.

(** The first letters and digits of a run of label bytes are all collected,
    when the budget covers the separators among them. *)
Lemma tail_of_label u rest budget tail :
  Forall (fun c => is_label_byte c = true) u ->
  length tail <= maxCardLabelTail -> separators u + (maxCardLabelTail - length tail) <= budget ->
  tail ++ normalizeNumericLabel u <> [] ->
  (forall c, head (tail ++ normalizeNumericLabel u) = Some c -> byte_in "dsonr" c = true) ->
  exists t, tail_of budget (u ++ rest) tail = Some t /\
    take maxCardLabelTail (tail ++ normalizeNumericLabel u) `prefix_of` t.
Proof.
  intros Hu. revert budget tail.
  induction Hu as [|c u Hc Hu IH]; intros budget tail Hlen Hb Hne Hhead.
  { cbn [app normalizeNumericLabel map List.filter] in *. rewrite app_nil_r in *.
    destruct (tail_of_extends budget rest tail Hne) as (t & -> & Ht). exists t. split; [done|].
    by rewrite take_ge. }
  destruct (Nat.ltb_spec (length tail) maxCardLabelTail) as [Hlt|Hge].
  2:{ assert (tail <> []) as Hn by (intros ->; cbn in Hge; unfold maxCardLabelTail in Hge; lia).
      destruct (tail_of_extends budget ((c :: u) ++ rest) tail Hn) as (t & -> & Ht).
      exists t. split; [done|]. rewrite take_app_le by lia. by rewrite take_ge by lia. }
  destruct budget as [|budget]; [unfold maxCardLabelTail in *; lia|].
  rewrite normalize_cons in *. unfold separators in Hb. cbn [List.filter] in Hb.
  cbn -[Nat.eqb maxCardLabelTail normalizeNumericLabel byte_in]. rewrite (proj2 (Nat.ltb_lt _ _) Hlt).
  fold (is_label_alnum c). destruct (is_label_alnum c) eqn:Ha.
  - cbn [negb] in Hb.
    destruct ((length tail =? 0) && _) eqn:Hx.
    { bool_hyps. apply Nat.eqb_eq, length_zero_iff_nil in H as ->.
      by rewrite (Hhead _ eq_refl) in H0. }
    destruct (IH budget (tail ++ [lower_byte c])) as (t & -> & Ht).
    + rewrite length_app. cbn. lia.
    + rewrite length_app. cbn [length]. fold (separators u) in Hb. lia.
    + by destruct tail.
    + by rewrite <- (assoc_L (++)).
    + exists t. split; [done|]. by rewrite <- (assoc_L (++)) in Ht.
  - rewrite (label_byte_kind _ Hc Ha). cbn [negb length] in *. fold (separators u) in Hb.
    apply IH; auto; lia.
Qed.

(** ** The pre-filter *)

Definition filter_position (value : text) (start : nat) : nat :=
  let bounded p position := back p value (64 - (start - position)) position in
  let position := bounded isASCIISpace start in
  let position := bounded is_quote position in
  if is_before (fun c => byte_is 58 c || byte_is 61 c) value position
  then bounded (fun c => isASCIISpace c || is_quote c) (position - 1)
  else position.

(** Less than sixty-four bytes of delimiters are skipped alike. *)
Lemma filter_position_skip value start :
  start - skip_value_delimiters value start < 64 ->
  filter_position value start = skip_value_delimiters value start.
Proof.
  unfold filter_position, skip_value_delimiters. cbv zeta. intros H.
  set (p1 := back isASCIISpace value start start) in *.
  pose proof (back_le isASCIISpace value start start : p1 <= start).
  set (p2 := back is_quote value p1 p1) in *.
  pose proof (back_le is_quote value p1 p1 : p2 <= p1).
  assert (start - p2 < 64 /\ forall q, q <= p2 - 1 ->
    is_before (fun c => byte_is 58 c || byte_is 61 c) value p2 = true ->
    q = back (fun c => isASCIISpace c || is_quote c) value (p2 - 1) (p2 - 1) -> start - q < 64) as [Hp2 Hq].
  { destruct (is_before _ value p2) eqn:E; [|split; [lia|done]].
    pose proof (back_le (fun c => isASCIISpace c || is_quote c) value (p2 - 1) (p2 - 1)).
    split; [lia|]. by intros q _ _ ->. }
  assert (E1 : back isASCIISpace value (64 - (start - start)) start = p1).
  { subst p1. destruct (decide (64 - (start - start) <= start)); [apply back_budget; lia|].
    symmetry. apply back_budget; lia. }
  rewrite E1.
  assert (E2 : back is_quote value (64 - (start - p1)) p1 = p2).
  { subst p2. destruct (decide (64 - (start - p1) <= p1)); [apply back_budget; lia|].
    symmetry. apply back_budget; lia. }
  rewrite E2. destruct (is_before _ value p2) eqn:E; [|done].
  pose proof (back_le (fun c => isASCIISpace c || is_quote c) value (p2 - 1) (p2 - 1)).
  specialize (Hq _ H2 eq_refl eq_refl).
  destruct (decide (64 - (start - (p2 - 1)) <= p2 - 1)); [apply back_budget; lia|].
  symmetry. apply back_budget; lia.
Qed.

(** The bytes the label is trimmed from. *)
Definition label_run (value : text) (start : nat) : text :=
  let stop := skip_value_delimiters value start in
  slice value (back is_label_byte value 64 stop) stop.

Lemma normalize_label value start :
  0 < start -> normalizeNumericLabel (labelBeforeNumericValue value start) =
               normalizeNumericLabel (label_run value start).
Proof.
  intros H. destruct start as [|n]; [lia|]. unfold labelBeforeNumericValue, trim_set.
  assert (Hq : forall c, isASCIISpace c || is_quote c = true -> is_label_alnum c = false)
    by (intros c; by destruct c as [[] [] [] [] [] [] [] []]).
  by rewrite normalize_trim_right, normalize_trim_left.
Qed.

(** A card label ends in one of the tails. *)
Lemma card_label_tail label :
  is_card_label label = true ->
  exists x w, In w paymentCardLabelTails /\ normalizeNumericLabel label = x ++ lit w.
Proof.
  unfold is_card_label. rewrite !orb_true_iff. intros [[H|H]|H].
  - apply existsb_exists in H as (w & Hin & Hw). rewrite label_equal_normalize in Hw.
    apply bool_decide_eq_true in Hw. rewrite Hw.
    pose (cut_at t := String.length w - String.length t).
    assert (existsb (fun t => text_eqb (drop (cut_at t) (lit w)) (lit t)) paymentCardLabelTails = true)
      as (t & Ht & Et%bool_decide_eq_true)%existsb_exists.
    { subst cut_at. revert w Hin Hw. rewrite <- List.Forall_forall. repeat constructor. }
    exists (take (cut_at t) (lit w)), t. split; [done|]. by rewrite <- Et, take_drop.
  - apply suffix_normalize in H as [x Hx]; [|done..]. exists x, "card"%string. split; [cbn; auto|done].
  - apply suffix_normalize in H as [x Hx]; [|done..]. exists x, "pan"%string. split; [cbn; auto 20|done].
Qed.

Lemma ends_with_tail_prefix t w n :
  lit w <> [] -> length (lit w) <= n -> take n (rev (lit w)) `prefix_of` t ->
  ends_with_tail t w = true.
Proof.
  intros Hne Hn [k ->]. unfold ends_with_tail.
  assert (String.length w = length (lit w)) as ->.
  { clear. unfold lit. induction w as [|c w IH]; [done|]. cbn. by rewrite IH. }
  rewrite (take_ge (rev (lit w))) by (rewrite length_rev; lia).
  rewrite length_app, length_rev. case_match eqn:E; [apply Nat.ltb_lt in E; lia|].
  apply bool_decide_eq_true. rewrite take_app_le by (rewrite length_rev; lia).
  by rewrite take_ge by (rewrite length_rev; lia).
Qed.

Lemma tails_in_reach w :
  In w paymentCardLabelTails ->
  length (lit w) <= maxCardLabelTail /\
  forall c, head (rev (lit w)) = Some c -> byte_in "dsonr" c = true.
Proof.
  revert w. rewrite <- List.Forall_forall.
  repeat constructor; unfold maxCardLabelTail; try (cbn; lia); by intros c [= <-].
Qed.

(** The pre-filter lets through every label the full check accepts when fewer
    than 64 bytes lie between the label and the number and at most 20 of the
    bytes of the label are separators. *)
Lemma prefilter_lets_labels_through value start :
  0 < start <= length value ->
  start - skip_value_delimiters value start < 64 ->
  separators (label_run value start) <= 20 ->
  is_card_label (labelBeforeNumericValue value start) = true ->
  mayHavePaymentCardLabelBefore value start = true.
Proof.
  intros Hstart Hskip Hsep (x & w & Hin & Hn)%card_label_tail.
  rewrite normalize_label in Hn by lia.
  change (match label_tail (3 * maxCardLabelTail) value (filter_position value start) [] with
          | None => false
          | Some tail => existsb (ends_with_tail tail) paymentCardLabelTails
          end = true).
  rewrite (filter_position_skip _ _ Hskip).
  unfold label_run in *. set (stop := skip_value_delimiters value start) in *.
  set (lo := back is_label_byte value 64 stop) in *.
  pose proof (back_le is_label_byte value 64 stop : lo <= stop).
  pose proof (skip_value_delimiters_le value start : stop <= start).
  rewrite label_tail_before by lia.
  assert (before value stop = rev (slice value lo stop) ++ before value lo) as ->.
  { unfold before. rewrite <- rev_app_distr. f_equal.
    by apply take_slice. }
  destruct (tails_in_reach _ Hin) as [Hlen Hhead].
  assert (normalizeNumericLabel (rev (slice value lo stop)) = rev (lit w) ++ rev x) as Hrev
    by (by rewrite normalize_rev, Hn, rev_app_distr).
  assert (lit w <> []) as Hne by (clear -Hin; cbn in Hin; intuition (subst; done)).
  destruct (tail_of_label (rev (slice value lo stop)) (before value lo) (3 * maxCardLabelTail) [])
    as (t & -> & Ht).
  - apply Forall_rev. apply (slice_Forall _ is_label_byte); [done|]. apply back_run.
  - cbn. lia.
  - unfold separators in *. rewrite List.filter_rev, length_rev. unfold maxCardLabelTail. cbn [length]. lia.
  - rewrite Hrev. cbn. intros [E _]%app_eq_nil. apply (f_equal (@rev _)) in E.
    by rewrite rev_involutive in E.
  - rewrite Hrev. cbn [app]. intros c Hc. apply Hhead.
    destruct (rev (lit w)) eqn:E; [|done]. apply (f_equal (@rev _)) in E.
    by rewrite rev_involutive in E.
  - apply existsb_exists. exists w. split; [done|].
    apply (ends_with_tail_prefix _ _ (length (lit w))); [done|done|].
    etrans; [|exact Ht]. rewrite Hrev. cbn [app].
    rewrite (take_ge (rev (lit w))) by (by rewrite length_rev).
    rewrite take_app, (take_ge (rev (lit w))) by (by rewrite length_rev). by eexists.
Qed.

(** the cheap pre-filter before the label check changes no answer: when
    fewer than 64 bytes of delimiters lie between a label and its number and at
    most 20 bytes of the label are separators, hasPaymentCardLabelBefore is the
    full check of the label alone. *)
Theorem card_label_prefilter_exact value start :
  0 < start <= length value ->
  start - skip_value_delimiters value start < 64 ->
  separators (label_run value start) <= 20 ->
  hasPaymentCardLabelBefore value start = is_card_label (labelBeforeNumericValue value start).
Proof.
  intros Hs Hd Hn. unfold hasPaymentCardLabelBefore.
  destruct (mayHavePaymentCardLabelBefore value start) eqn:E; [done|]. cbn [negb].
  destruct (is_card_label _) eqn:Hc; [|done].
  by rewrite (prefilter_lets_labels_through _ _ Hs Hd Hn Hc) in E.
Qed.

Lemma card_label_prefilter_exact_witness :
  hasPaymentCardLabelBefore (lit "my_card: 411") 9 = is_card_label (labelBeforeNumericValue (lit "my_card: 411") 9) /\
  is_card_label (labelBeforeNumericValue (lit "my_card: 411") 9) = true.
Proof.
  split; [|vm_compute; reflexivity].
  apply card_label_prefilter_exact; apply (bool_decide_unpack _); vm_compute; exact I.
Defined.

(** Past those bytes the two differ: a card label 70 spaces before its number
    is a label to labelBeforeNumericValue and none to the pre-filter. *)
Definition far_label (n : nat) : text :=
  lit "card:" ++ replicate n " "%char ++ lit "41111 11111 111111".

Example far_label_is_label :
  is_card_label (labelBeforeNumericValue (far_label 70) 75) = true.
Proof. reflexivity. Qed.
Example far_label_is_filtered : hasPaymentCardLabelBefore (far_label 70) 75 = false.
Proof. vm_compute. reflexivity. Qed.
Example near_card_masked : redactPaymentCards (far_label 3) = lit "card:   [REDACTED_CARD]".
Proof. vm_compute. reflexivity. Qed.
Example far_card_kept : redactPaymentCards (far_label 70) = far_label 70.
Proof. vm_compute. reflexivity. Qed.
