(* ===== verification/Regexp.v ===== *)
(** * package regexp, as the patterns of the repository use it

    A pattern is a tree over classes of bytes; [ends] lists the ends of its
    matches at a position in the order in which a backtracking search meets
    them, so the first of them is the match package regexp reports (leftmost,
    and among the matches there the one preferred by alternatives and greedy
    repetitions).  [matches] says what a match is without an order.  The
    patterns match no empty text, so FindAll and ReplaceAll go on at the end of
    each match. *)

From S2P Require Import Prelude.
From S2P Require Import GoStrings.
From S2P Require Import RedactBytes.

Inductive re : Type :=
| RByte (p : ascii -> bool)        (* one byte of a class *)
| REmpty
| RSeq (a b : re)
| RAlt (a b : re)                  (* a|b *)
| RStar (a : re)                   (* a*  *)
| RBoundary                        (* \b  *)
| RBegin                           (* ^   *)
| REnd                             (* $   *)
| RGroup (n : nat) (a : re).       (* the n-th ( ) *)

Declare Scope re_scope.
Delimit Scope re_scope with re.
Bind Scope re_scope with re.
Infix "++" := RSeq : re_scope.
Infix "||" := RAlt : re_scope.

(** ** Derived forms *)

Definition ROpt (a : re) : re := RAlt a REmpty.
Definition RPlus (a : re) : re := RSeq a (RStar a).
Fixpoint RTimes (n : nat) (a : re) : re :=
  match n with O => REmpty | S n => RSeq a (RTimes n a) end.
Fixpoint RUpTo (n : nat) (a : re) : re :=
  match n with O => REmpty | S n => ROpt (RSeq a (RUpTo n a)) end.
Definition RRange (m n : nat) (a : re) : re := RSeq (RTimes m a) (RUpTo (n - m) a).
Definition RAtLeast (n : nat) (a : re) : re := RSeq (RTimes n a) (RStar a).
Fixpoint RAny (l : list re) : re :=
  match l with [] => RByte (fun _ => false) | [a] => a | a :: l => RAlt a (RAny l) end.

Definition RClass (bytes : string) : re := RByte (byte_in bytes).
Definition RNot (bytes : string) : re := RByte (fun c => negb (byte_in bytes c)).
Definition RDigit : re := RByte isASCIIDigit.

Fixpoint RLit (s : string) : re :=
  match s with
  | EmptyString => REmpty
  | String c EmptyString => RByte (Ascii.eqb c)
  | String c s => RSeq (RByte (Ascii.eqb c)) (RLit s)
  end.

Definition white_bytes : string :=
  String (ascii_of_N 9) (String (ascii_of_N 10) (String (ascii_of_N 12) (String (ascii_of_N 13) " "))).
Definition is_white (c : ascii) : bool := byte_in white_bytes c.   (* \s *)
Definition RWhite : re := RByte is_white.

(** A byte under (?i): the other case of a letter, and the characters U+017F
    and U+212A, whose case folds into ASCII. *)
Definition bytes_of (l : list N) : re :=
  fold_right (fun n r => RSeq (RByte (byte_is n)) r) REmpty l.
Definition RFold (c : ascii) : re :=
  let plain := RByte (fun a => Ascii.eqb (lower_byte a) (lower_byte c)) in
  if byte_is 115 (lower_byte c) then RAlt plain (bytes_of [197; 191]%N)
  else if byte_is 107 (lower_byte c) then RAlt plain (bytes_of [226; 132; 170]%N)
  else plain.
Fixpoint RFoldLit (s : string) : re :=
  match s with
  | EmptyString => REmpty
  | String c EmptyString => RFold c
  | String c s => RSeq (RFold c) (RFoldLit s)
  end.

(** ** Matching *)

Definition captures : Type := list (nat * span).
Definition state : Type := (nat * captures)%type.

Definition at_boundary (value : text) (i : nat) : bool :=
  xorb (is_before isASCIIWord value i) (is_at isASCIIWord value i).

(** Greedy repetition; a round that matches nothing adds nothing. *)
Fixpoint star_ends (f : state -> list state) (fuel : nat) (st : state) : list state :=
  match fuel with
  | O => [st]
  | S fuel =>
      flat_map (fun st' => if st'.1 =? st.1 then [] else star_ends f fuel st') (f st) ++ [st]
  end.

Fixpoint ends (value : text) (r : re) (st : state) : list state :=
  match r with
  | RByte p => if is_at p value st.1 then [(S st.1, st.2)] else []
  | REmpty => [st]
  | RSeq a b => flat_map (ends value b) (ends value a st)
  | RAlt a b => ends value a st ++ ends value b st
  | RStar a => star_ends (ends value a) (S (length value)) st
  | RBoundary => if at_boundary value st.1 then [st] else []
  | RBegin => if st.1 =? 0 then [st] else []
  | REnd => if st.1 =? length value then [st] else []
  | RGroup n a => map (fun st' => (st'.1, (n, (st.1, st'.1)) :: st'.2)) (ends value a st)
  end.

(** A match: its span and the groups set last. *)
Record rmatch : Type := RMatch { m_start : nat; m_end : nat; m_groups : captures }.

Definition match_at (r : re) (value : text) (i : nat) : option rmatch :=
  match ends value r (i, []) with
  | (e, groups) :: _ => Some (RMatch i e groups)
  | [] => None
  end.

(** The leftmost match from [i] on; a position per byte and the end. *)
Fixpoint find_from (r : re) (value : text) (fuel i : nat) : option rmatch :=
  match fuel with
  | O => None
  | S fuel =>
      match match_at r value i with
      | Some m => Some m
      | None => find_from r value fuel (S i)
      end
  end.

Definition find (r : re) (value : text) (i : nat) : option rmatch :=
  find_from r value (S (length value) - i) i.

Definition MatchString (r : re) (value : text) : bool :=
  match find r value 0 with Some _ => true | None => false end.

(** FindAllStringIndex and FindAllStringSubmatchIndex with n < 0. *)
Fixpoint find_all_from (r : re) (value : text) (fuel i : nat) : list rmatch :=
  match fuel with
  | O => []
  | S fuel =>
      match find r value i with
      | Some m => m :: find_all_from r value fuel (Nat.max (m_end m) (S i))
      | None => []
      end
  end.

Definition FindAll (r : re) (value : text) : list rmatch :=
  find_all_from r value (S (length value)) 0.

Definition group (n : nat) (m : rmatch) : option span :=
  match List.find (fun g => g.1 =? n) (m_groups m) with
  | Some (_, s) => Some s
  | None => None
  end.

Definition group_text (value : text) (n : nat) (m : rmatch) : text :=
  match group n m with Some (s, e) => slice value s e | None => [] end.

Definition matched (value : text) (m : rmatch) : text := slice value (m_start m) (m_end m).

(** The text with spans replaced. *)
Fixpoint substitute (value : text) (last : nat) (repl : rmatch -> text) (ms : list rmatch) : text :=
  match ms with
  | [] => drop last value
  | m :: ms => slice value last (m_start m) ++ repl m ++ substitute value (m_end m) repl ms
  end.

(** ReplaceAllString and ReplaceAllStringFunc. *)
Definition ReplaceAll (r : re) (repl : text -> rmatch -> text) (value : text) : text :=
  substitute value 0 (repl value) (FindAll r value).

(** ** What a match is *)

Inductive matches (value : text) : re -> nat -> nat -> Prop :=
| m_byte p i : is_at p value i = true -> matches value (RByte p) i (S i)
| m_empty i : matches value REmpty i i
| m_seq a b i j k : matches value a i j -> matches value b j k -> matches value (RSeq a b) i k
| m_alt_l a b i j : matches value a i j -> matches value (RAlt a b) i j
| m_alt_r a b i j : matches value b i j -> matches value (RAlt a b) i j
| m_star_nil a i : matches value (RStar a) i i
| m_star_cons a i j k :
    matches value a i j -> i < j -> matches value (RStar a) j k -> matches value (RStar a) i k
| m_boundary i : at_boundary value i = true -> matches value RBoundary i i
| m_begin : matches value RBegin 0 0
| m_end' : matches value REnd (length value) (length value)
| m_group n a i j : matches value a i j -> matches value (RGroup n a) i j.

Create HintDb regexp.
#[export] Hint Constructors matches : regexp.

(** A pattern that matches no empty text. *)
Fixpoint nonempty (r : re) : bool :=
  match r with
  | RByte _ => true
  | REmpty | RStar _ | RBoundary | RBegin | REnd => false
  | RSeq a b => (nonempty a || nonempty b)%bool
  | RAlt a b => nonempty a && nonempty b
  | RGroup _ a => nonempty a
  end.

(** ** The engine finds the matches *)

Lemma matches_le value r i j : matches value r i j -> i <= j.
Proof. induction 1; lia. Qed.

Lemma matches_bound value r i j : i <= length value -> matches value r i j -> j <= length value.
Proof.
  intros Hi H; revert Hi. induction H as [? ? H| | | | | | | | | | ]; intros; auto.
  apply is_at_lt in H. lia.
Qed.

Lemma nonempty_lt value r i j : nonempty r = true -> matches value r i j -> i < j.
Proof.
  intros Hr H; revert Hr. induction H as [|?|a b i j k Ha IHa Hb IHb| | | | | | | |]; cbn; try done; try lia.
  - apply matches_le in Ha, Hb. intros [?%IHa|?%IHb]%orb_true_iff; lia.
  - intros [? ?]%andb_true_iff. auto.
  - intros [? ?]%andb_true_iff. auto.
Qed.

Lemma ends_sound value r st st' : In st' (ends value r st) -> matches value r st.1 st'.1.
Proof.
  revert st st'. induction r as [p| |a IHa b IHb|a IHa b IHb|a IHa| | | |n a IHa]; intros [i g] st'; cbn.
  - case_match; [|done]. intros [<-|[]]. by constructor.
  - intros [<-|[]]. constructor.
  - intros (st1 & H1%IHa & H2%IHb)%in_flat_map. eauto with regexp.
  - intros [?%IHa|?%IHb]%in_app_iff; eauto with regexp.
  - generalize (length value) as n.
    assert (H : forall n i g, In st' (star_ends (ends value a) n (i, g)) -> matches value (RStar a) i st'.1).
    { clear i g. induction n as [|n IH]; intros i g; cbn.
      - intros [<-|[]]. constructor.
      - intros [([j g'] & H1%IHa & H2)%in_flat_map|[<-|[]]]%in_app_iff; [|constructor].
        destruct (Nat.eqb_spec (j, g').1 i); [done|]. cbn in *. pose proof (matches_le _ _ _ _ H1).
        econstructor; [exact H1|lia|by eapply IH]. }
    intros n. apply (H (S n)).
  - case_match; [|done]. intros [<-|[]]. by constructor.
  - destruct (Nat.eqb_spec i 0) as [->|]; [|done]. intros [<-|[]]. constructor.
  - destruct (Nat.eqb_spec i (length value)) as [->|]; [|done]. intros [<-|[]]. constructor.
  - intros (st1 & <- & H%IHa)%in_map_iff. by constructor.
Qed.

Lemma ends_complete value r i j g :
  i <= length value -> matches value r i j -> exists g', In (j, g') (ends value r (i, g)).
Proof.
  revert i j g. induction r as [p| |a IHa b IHb|a IHa b IHb|a IHa| | | |n a IHa]; intros i j g Hi Hm.
  - inversion Hm; subst. exists g. cbn. case_match; [by left|congruence].
  - inversion Hm; subst. exists g. by left.
  - inversion Hm as [| |? ? ? k ? Ha Hb| | | | | | | |]; subst.
    destruct (IHa _ _ g Hi Ha) as [g1 H1].
    destruct (IHb _ _ g1 (matches_bound _ _ _ _ Hi Ha) Hb) as [g2 H2].
    exists g2. apply in_flat_map. eauto.
  - inversion Hm as [| | |? ? ? ? Ha|? ? ? ? Hb| | | | | |]; subst;
      [destruct (IHa _ _ g Hi Ha) as [g' ?]|destruct (IHb _ _ g Hi Hb) as [g' ?]];
      exists g'; cbn; apply in_app_iff; auto.
  - cbn [ends]. assert (H : forall n i j g, i <= length value -> length value < i + n ->
      matches value (RStar a) i j -> exists g', In (j, g') (star_ends (ends value a) n (i, g))).
    { clear -IHa. induction n as [|n IH]; intros i j g Hi Hn Hm; [lia|]. cbn.
      inversion Hm as [| | | | | |? ? k ? Ha Hlt Hs| | | |]; subst.
      - exists g. apply in_app_iff. right. by left.
      - destruct (IHa _ _ g Hi Ha) as [g1 H1]. pose proof (matches_bound _ _ _ _ Hi Ha).
        destruct (IH k j g1) as [g2 H2]; [done|lia|done|].
        exists g2. apply in_app_iff. left. apply in_flat_map. exists (k, g1). split; [done|].
        cbn. destruct (Nat.eqb_spec k i); [lia|done]. }
    apply H; [done|lia|done].
  - inversion Hm as [| | | | | | |? Hb| | |]; subst. exists g. cbn. rewrite Hb. by left.
  - inversion Hm; subst. exists g. by left.
  - inversion Hm; subst. exists g. cbn. rewrite Nat.eqb_refl. by left.
  - inversion Hm as [| | | | | | | | | |? ? ? ? Ha]; subst. destruct (IHa _ _ g Hi Ha) as [g' H].
    eexists. cbn. apply in_map_iff. exists (j, g'). split; [done|exact H].
Qed.

Lemma match_at_some r value i m :
  match_at r value i = Some m -> m_start m = i /\ matches value r i (m_end m).
Proof.
  unfold match_at. destruct (ends value r (i, [])) as [|[e g] l] eqn:E; [done|].
  intros [= <-]. split; [done|].
  apply (ends_sound value r (i, []) (e, g)). rewrite E. by left.
Qed.

Lemma match_at_none r value i j :
  i <= length value -> match_at r value i = None -> ~ matches value r i j.
Proof.
  unfold match_at. intros Hi H Hm. destruct (ends_complete value r i j [] Hi Hm) as [g Hg].
  unfold state, captures in *.
  destruct (ends value r (i, [])) as [|[] ?]; [exact Hg|done].
Qed.

(** The positions a search without an answer has tried. *)
Lemma find_from_spec r value fuel i :
  i + fuel <= S (length value) ->
  match find_from r value fuel i with
  | Some m => i <= m_start m < i + fuel /\ matches value r (m_start m) (m_end m) /\
              forall k j, i <= k < m_start m -> ~ matches value r k j
  | None => forall k j, i <= k < i + fuel -> ~ matches value r k j
  end.
Proof.
  revert i; induction fuel as [|fuel IH]; intros i Hf; cbn; [intros; lia|].
  destruct (match_at r value i) as [m|] eqn:E.
  { apply match_at_some in E as [-> ?]. split_and!; [lia|lia|done|]. intros; lia. }
  assert (Hi : forall j, ~ matches value r i j) by (intros j; apply match_at_none; [lia|done]).
  specialize (IH (S i) ltac:(lia)). destruct (find_from r value fuel (S i)) as [m|].
  - destruct IH as (? & ? & Hk). split_and!; [lia|lia|done|]. intros k j Hkj.
    destruct (decide (k = i)) as [->|]; [apply Hi|apply Hk; lia].
  - intros k j Hkj. destruct (decide (k = i)) as [->|]; [apply Hi|apply IH; lia].
Qed.

Lemma find_some r value i m :
  find r value i = Some m ->
  i <= m_start m <= length value /\ matches value r (m_start m) (m_end m) /\
  forall k j, i <= k < m_start m -> ~ matches value r k j.
Proof.
  unfold find. intros H. destruct (decide (i <= length value)).
  - pose proof (find_from_spec r value (S (length value) - i) i ltac:(lia)) as Hs.
    rewrite H in Hs. destruct Hs as (? & ? & ?). split_and!; [lia|lia|done|done].
  - by replace (S (length value) - i) with 0 in H by lia.
Qed.

Lemma find_none r value i k j :
  find r value i = None -> i <= k <= length value -> ~ matches value r k j.
Proof.
  unfold find. intros H Hk.
  pose proof (find_from_spec r value (S (length value) - i) i ltac:(lia)) as Hs.
  rewrite H in Hs. apply Hs. lia.
Qed.

(** ** All matches *)

Definition m_span (m : rmatch) : span := (m_start m, m_end m).

Section FindAll.
Context (r : re) (value : text).
Hypothesis r_nonempty : nonempty r = true.

Lemma find_step i m :
  find r value i = Some m ->
  i <= m_start m /\ m_start m < m_end m <= length value /\ Nat.max (m_end m) (S i) = m_end m.
Proof.
  intros (? & Hm & _)%find_some. pose proof (nonempty_lt _ _ _ _ r_nonempty Hm).
  pose proof (matches_bound _ _ _ _ (proj2 H) Hm). lia.
Qed.

Lemma find_all_in_order fuel i : in_order i (map m_span (find_all_from r value fuel i)).
Proof.
  revert i; induction fuel as [|fuel IH]; intros i; cbn; [done|].
  destruct (find r value i) as [m|] eqn:E; cbn; [|done].
  apply find_step in E as (? & ? & ->). split_and!; [lia|lia|apply IH].
Qed.

Lemma find_all_sound fuel i m :
  In m (find_all_from r value fuel i) ->
  matches value r (m_start m) (m_end m) /\ m_start m < m_end m <= length value.
Proof.
  revert i; induction fuel as [|fuel IH]; intros i; cbn; [done|].
  destruct (find r value i) as [m'|] eqn:E; [|done]. intros [<-|Hin]; [|by eapply IH].
  split; [apply (find_some _ _ _ _ E)|]. apply find_step in E. lia.
Qed.

(** Every match overlaps one that is reported. *)
Lemma find_all_complete fuel i k j :
  length value < i + fuel -> i <= k -> matches value r k j -> k <= length value ->
  exists m, In m (find_all_from r value fuel i) /\ m_start m <= k < m_end m.
Proof.
  revert i; induction fuel as [|fuel IH]; intros i Hf Hk Hm Hlen; cbn; [lia|].
  destruct (find r value i) as [m|] eqn:E.
  - pose proof (find_step _ _ E) as (? & ? & ->). apply find_some in E as (? & ? & Hleft).
    destruct (decide (k < m_start m)); [by destruct (Hleft k j ltac:(lia))|].
    destruct (decide (k < m_end m)); [exists m; split; [by left|lia]|].
    destruct (IH (m_end m)) as (m' & ? & ?); [lia|lia|done|done|]. exists m'. split; [by right|done].
  - by destruct (find_none _ _ _ k j E ltac:(lia)).
Qed.
End FindAll.

(** Whether a pattern matches a whole text. *)
Lemma MatchString_spec r value :
  MatchString r value = true <-> exists i j, i <= length value /\ matches value r i j.
Proof.
  unfold MatchString. destruct (find r value 0) as [m|] eqn:E; split; try done.
  - intros _. apply find_some in E as (? & ? & _). exists (m_start m), (m_end m). split; [lia|done].
  - intros (i & j & Hi & Hm). by destruct (find_none _ _ _ i j E ltac:(lia)).
Qed.
