(* ===== verification/RedactPhones.v ===== *)
(** * package redact, phone numbers

    redactBareIndianMobiles, redactPhoneCandidate with the merged candidates it
    splits, and redactPhoneCandidates, which decides for every match of the
    phone pattern (redact/redact.go).  redactPhoneCandidate and
    redactMergedPhoneCandidate call each other; the depth is an argument here,
    and two levels are enough, because the parts a merged candidate is split
    into are too short to be merged candidates. *)

From S2P Require Import Prelude.
From S2P Require Import GoStrings.
From S2P Require Import RedactBytes.
From S2P Require Import GoIP.
From S2P Require Import RedactCards.
From S2P Require Import Regexp.

(** ** Patterns *)

Definition D (n : nat) : re := RTimes n RDigit.
Definition D13 : re := RRange 1 3 RDigit.
Definition sep_sp : re := RClass " -".                     (* [ -] *)

Definition textPhonePattern : re :=
  (ROpt (RClass "+") ++ RDigit ++
   RAtLeast 7 (RByte (fun c => isASCIIDigit c || byte_in " ()-." c)%bool) ++ RDigit)%re.

Definition textDottedPhonePattern : re :=
  (RBegin ++
   ((ROpt (RClass "+") ++ ROpt (D13 ++ RClass ".") ++ D 3 ++ RClass "." ++ D 3 ++ RClass "." ++ D 4)
    || (ROpt (RClass "+" ++ D13 ++ RClass ".") ++ RByte (in_range 54 57) ++ D 4 ++ RClass "." ++ D 5))
   ++ REnd)%re.

Definition textFormattedPhonePattern : re :=
  (RBegin ++
   ((ROpt (RClass "+") ++ D 3 ++ sep_sp ++ D 3 ++ sep_sp ++ D 4)
    || (RClass "+" ++ D13 ++ sep_sp ++ D 5 ++ sep_sp ++ D 5)
    || (RDigit ++ sep_sp ++ D 3 ++ sep_sp ++ D 3 ++ sep_sp ++ D 4)
    || (RClass "+" ++ D13 ++ sep_sp ++ D 3 ++ sep_sp ++ D 3 ++ sep_sp ++ D 4)
    || (ROpt (RClass "+") ++ D13 ++ ROpt sep_sp ++ RClass "(" ++ D 3 ++ RClass ")" ++
        ROpt sep_sp ++ D 3 ++ sep_sp ++ D 4))
   ++ REnd)%re.

Definition textParenAreaPhonePattern : re :=
  (RBegin ++ RClass "(" ++ D 3 ++ RClass ")" ++ ROpt sep_sp ++ D 3 ++ ROpt (RClass " .-") ++ D 4 ++
   REnd)%re.

Definition textDatePrefixPattern : re :=
  (RBegin ++ D 4 ++ RClass "-/." ++ RRange 1 2 RDigit ++ RClass "-/." ++ RRange 1 2 RDigit ++
   ROpt (RClass " T" ++ RRange 1 2 RDigit) ++ REnd)%re.

Definition textEpochMillisPattern : re := (RBoundary ++ D 13 ++ RBoundary)%re.

Definition textEpochSecondsPattern : re :=
  (RBoundary ++
   ((RFoldLit "epoch" ++ ROpt (RFoldLit "_seconds")) || RFoldLit "timestamp" ||
    RFoldLit "created_at" || RFoldLit "updated_at") ++
   RStar RWhite ++ RClass ":=" ++ RStar RWhite ++ D 10 ++ RBoundary)%re.

Definition RHex : re := RByte is_hex.
Definition textUUIDPattern : re :=
  (RBoundary ++ RTimes 8 RHex ++ RClass "-" ++ RTimes 4 RHex ++ RClass "-" ++ RTimes 4 RHex ++
   RClass "-" ++ RTimes 4 RHex ++ RClass "-" ++ RTimes 12 RHex ++ RBoundary)%re.

(** ** Shapes *)

Definition phone_mask : text := lit "[REDACTED_PHONE]".

Definition phoneDigits (value : text) : text := List.filter isASCIIDigit value.

Definition validPhonePunctuation (value : text) : bool :=
  forallb (fun ch => isASCIIDigit ch || byte_in "+ ()-." ch || byte_is 9 ch) value.

(** The maximal runs of digits; [group] is the run being read. *)
Fixpoint phoneDigitGroups_from (value group : text) : list text :=
  match value with
  | [] => match group with [] => [] | _ => [group] end
  | c :: value =>
      if isASCIIDigit c then phoneDigitGroups_from value (group ++ [c])
      else match group with
           | [] => phoneDigitGroups_from value []
           | _ => group :: phoneDigitGroups_from value []
           end
  end.
Definition phoneDigitGroups (value : text) : list text := phoneDigitGroups_from value [].

Definition group_length (groups : list text) (i : nat) : nat :=
  match groups !! i with Some g => length g | None => 0 end.

Definition plausibleInternationalPhone (value digits : text) : bool :=
  if (length digits <? 10) || (15 <? length digits) || negb (validPhonePunctuation value) then false
  else if has_text_prefix "00" value then 12 <=? length digits
  else if negb (has_text_prefix "+" value) then false
  else
    let groups := phoneDigitGroups (drop 1 value) in
    if 5 <? length groups then false
    else (length groups =? 1) || (2 <=? length groups) && (group_length groups 0 <=? 3).

Definition is_mobile_lead (c : ascii) : bool := in_range 54 57 c.   (* '6'..'9' *)

Definition plausibleIndianGroupedPhone (value digits : text) : bool :=
  let trimmed := TrimSpace value in
  if negb (length digits =? 10) || negb (is_at is_mobile_lead digits 0) then false
  else
    let groups := phoneDigitGroups trimmed in
    (length groups =? 1) ||
    (length groups =? 2) && (group_length groups 0 =? 5) && (group_length groups 1 =? 5).

Definition plausibleUKLocalPhone (value digits : text) : bool :=
  if negb (length digits =? 11) || negb (has_text_prefix "0" digits) then false
  else
    let groups := phoneDigitGroups value in
    (length groups =? 3) && (3 <=? group_length groups 0) && (group_length groups 0 <=? 5).

Definition preservePhoneWhitespace (value : text) : text :=
  let left := length value - length (trim_left_set isASCIISpace value) in
  let right := length (trim_right_set isASCIISpace value) in
  take left value ++ phone_mask ++ drop right value.

Definition hasPhoneLabelBefore (value : text) (start : nat) : bool :=
  let label := labelBeforeNumericValue value start in
  if existsb (fun k => text_eqb (normalizeNumericLabel label) (lit k))
       ["contactphone"; "mobile"; "mobilenumber"; "msisdn"; "phone"; "phonenumber"; "phones";
        "tel"; "telephone"; "telephonenumber"; "whatsapp"; "whatsappnumber"]%string
  then true
  else existsb (hasDelimitedOrCamelLabelSuffix label)
         ["phone"; "mobile"; "tel"; "whatsapp"; "msisdn"]%string.

(** ** Bare Indian mobiles *)

(** The body of the loop of redactBareIndianMobiles. *)
Definition mobile_at (value : text) (start : nat) : option nat :=
  if negb (is_at is_mobile_lead value start) then None
  else
    let stop := start + 10 in
    if negb (forallb isASCIIDigit (slice value (start + 1) stop)) ||
       is_before isASCIIWord value start || is_at isASCIIWord value stop
    then None
    else
      let phoneLabel := hasPhoneLabelBefore value start in
      if hasOperationalNumericLabelBefore value start && negb phoneLabel then None
      else Some stop.

(** [start+10 <= len(value)] *)
Definition redactBareIndianMobiles (value : text) : text :=
  scan phone_mask (mobile_at value) value (length value - 9).

(** ** Candidates *)

Definition maxPhoneDigits : nat := 15.
Definition maxPhoneSpanTokens : nat := 5.
Definition maxPhoneSpanBytes : nat := 40.

Record token : Type := Token { t_start : nat; t_end : nat; t_digits : nat }.

(** The words of a text; [word] is the start of the one being read and its
    digits so far. *)
Fixpoint tokens_from (value : text) (index : nat) (word : option (nat * nat)) : list token :=
  match value with
  | [] => match word with Some (start, digits) => [Token start index digits] | None => [] end
  | c :: value =>
      if isASCIISpace c then
        match word with
        | Some (start, digits) => Token start index digits :: tokens_from value (S index) None
        | None => tokens_from value (S index) None
        end
      else
        let '(start, digits) := match word with Some w => w | None => (index, 0) end in
        tokens_from value (S index) (Some (start, if isASCIIDigit c then S digits else digits))
  end.
Definition tokens (value : text) : list token := tokens_from value 0 None.

Section Merged.
(** redactPhoneCandidate *)
Context (candidate : text -> bool -> bool -> text).

(** The inner loop: the last token of the longest run from [first] that has a
    phone layout, and of the longest one only a label makes a phone. *)
Fixpoint run_ends (value : text) (toks : list token) (from budget next digits : nat)
    (labelled operational : bool) (matchedEnd lenientEnd : option nat) : option nat * option nat :=
  match budget with
  | O => (matchedEnd, lenientEnd)
  | S budget =>
      match toks !! next with
      | None => (matchedEnd, lenientEnd)
      | Some t =>
          let digits := digits + t_digits t in
          if (maxPhoneDigits <? digits) || (maxPhoneSpanBytes <? t_end t - from)
          then (matchedEnd, lenientEnd)
          else
            let continue := run_ends value toks from budget (S next) digits labelled operational in
            if digits <? 8 then continue matchedEnd lenientEnd
            else
              let span := slice value from (t_end t) in
              if negb (text_eqb (candidate span false (operational && negb labelled)) span)
              then continue (Some next) lenientEnd
              else if labelled && negb (text_eqb (candidate span true false) span)
              then continue matchedEnd (Some next)
              else continue matchedEnd lenientEnd
      end
  end.

Definition merged_run (value : text) (toks : list token) (first : nat)
    (phoneLabel operationalLabel : bool) : option nat :=
  match toks !! first with
  | None => None
  | Some t =>
      let labelled := (first =? 0) && phoneLabel in
      let operational := (first =? 0) && operationalLabel in
      let '(matchedEnd, lenientEnd) :=
        run_ends value toks (t_start t) maxPhoneSpanTokens first 0 labelled operational None None in
      match matchedEnd with Some _ => matchedEnd | None => lenientEnd end
  end.

(** The outer loop; every round passes a token. *)
Fixpoint merged_spans (fuel : nat) (value : text) (toks : list token) (first : nat)
    (phoneLabel operationalLabel : bool) : list span :=
  match fuel with
  | O => []
  | S fuel =>
      match toks !! first with
      | None => []
      | Some t =>
          match merged_run value toks first phoneLabel operationalLabel with
          | None => merged_spans fuel value toks (S first) phoneLabel operationalLabel
          | Some last =>
              match toks !! last with
              | Some t' =>
                  (t_start t, t_end t') ::
                  merged_spans fuel value toks (S last) phoneLabel operationalLabel
              | None => []
              end
          end
      end
  end.

Definition redactMergedPhoneCandidate (value : text) (phoneLabel operationalLabel : bool) : text :=
  let toks := tokens value in
  if length toks <? 2 then value
  else splice phone_mask value 0
         (merged_spans (length toks) value toks 0 phoneLabel operationalLabel).
End Merged.

(** The test redactPhoneCandidate applies to a candidate of at most fifteen
    digits. *)
Definition phone_shaped (candidate compact : text) (phoneLabel : bool) : bool :=
  let explicitCountryCode := has_text_prefix "+" candidate || has_text_prefix "00" candidate in
  phoneLabel && validPhonePunctuation candidate ||
  explicitCountryCode && plausibleInternationalPhone candidate compact ||
  MatchString textDottedPhonePattern candidate || MatchString textFormattedPhonePattern candidate ||
  MatchString textParenAreaPhonePattern candidate ||
  plausibleIndianGroupedPhone candidate compact || plausibleUKLocalPhone candidate compact ||
  (length candidate =? 10) && (length compact =? 10) && is_at is_mobile_lead compact 0.

Fixpoint redactPhoneCandidate_depth (depth : nat) (value : text) (phoneLabel operationalLabel : bool)
    : text :=
  match depth with
  | O => value
  | S depth =>
      let candidate := TrimSpace value in
      if ParseIP candidate || MatchString textDatePrefixPattern candidate then value
      else
        let compact := phoneDigits candidate in
        let digits := length compact in
        if maxPhoneDigits <? digits then
          redactMergedPhoneCandidate (redactPhoneCandidate_depth depth) value phoneLabel operationalLabel
        else if existsb (byte_is 46) candidate && negb (MatchString textDottedPhonePattern candidate)
        then value
        else if digits <? 8 then value
        else
          let explicitCountryCode := has_text_prefix "+" candidate || has_text_prefix "00" candidate in
          if operationalLabel && negb phoneLabel && negb explicitCountryCode then value
          else if phone_shaped candidate compact phoneLabel then preservePhoneWhitespace value
          else value
  end.

Definition redactPhoneCandidate : text -> bool -> bool -> text := redactPhoneCandidate_depth 2.

(** ** All candidates of a text *)

Definition maxCallArgumentLength : nat := 32.

Definition isPhoneShapedArgument (argument : text) : bool :=
  let argument := TrimSpace argument in
  if (length argument =? 0) || (maxCallArgumentLength <? length argument) then false
  else negb (text_eqb (redactPhoneCandidate argument false false) argument).

(** strings.IndexByte in [value[start:limit]], as an index of [value]. *)
Fixpoint index_byte (p : ascii -> bool) (value : text) (budget position : nat) : option nat :=
  match budget with
  | O => None
  | S budget => if is_at p value position then Some position
                else index_byte p value budget (S position)
  end.

Definition operationalCallArgumentEnd (value : text) (start stop : nat) (phoneLabel : bool)
    : option nat :=
  if phoneLabel || (start <? 2) || negb (is_before (byte_is 40) value start) ||
     negb (is_at isASCIIWord value (start - 2))
  then None
  else
    let limit := Nat.min (length value) (start + maxCallArgumentLength + 1) in
    let argumentEnd :=
      match index_byte (byte_is 41) value (limit - start) start with
      | Some closing => if closing <? stop then closing else stop
      | None => stop
      end in
    if isPhoneShapedArgument (slice value start argumentEnd) then None
    else Some (if argumentEnd <? stop then S argumentEnd else argumentEnd).

Definition span_le (a b : span) : Prop := a.1 < b.1 \/ a.1 = b.1 /\ a.2 <= b.2.
#[export] Instance span_le_dec a b : Decision (span_le a b).
Proof. unfold span_le. apply _. Defined.

(** The spans no phone may overlap, in order. *)
Definition protected_spans (value : text) : list span :=
  merge_sort span_le
    (map m_span (FindAll textUUIDPattern value) ++ map m_span (FindAll textEpochMillisPattern value) ++
     map m_span (FindAll textEpochSecondsPattern value)).

(** [for protected[protectedIndex][1] <= match[0] { protectedIndex++ }] *)
Fixpoint skip_protected (start : nat) (protected : list span) : list span :=
  match protected with
  | p :: rest => if p.2 <=? start then skip_protected start rest else protected
  | [] => []
  end.

Definition overlaps_first (protected : list span) (start stop : nat) : bool :=
  match protected with
  | p :: _ => (start <? p.2) && (p.1 <? stop)
  | [] => false
  end.

(** What a match writes, after the text up to the match: the last byte of that
    text may belong to the number. *)
Inductive decision : Type :=
| Keep                                   (* protected *)
| MaskParen                              (* from the parenthesis before *)
| KeepArgument (argumentEnd : nat)       (* a call argument, and what follows it *)
| Judge (phoneLabel operationalLabel : bool).

Definition decide_match (value : text) (protected : list span) (last start stop : nat) : decision :=
  if overlaps_first protected start stop then Keep
  else if (last <? start) && is_before (byte_is 40) value start && (stop - start <=? 16) &&
          MatchString textParenAreaPhonePattern (slice value (start - 1) stop)
  then MaskParen
  else
    let phoneLabel := hasPhoneLabelBefore value start in
    let operationalLabel := hasOperationalNumericLabelBefore value start in
    match operationalCallArgumentEnd value start stop phoneLabel with
    | Some argumentEnd => KeepArgument argumentEnd
    | None => Judge phoneLabel operationalLabel
    end.

Definition write_match (value : text) (last start stop : nat) (d : decision) : text :=
  match d with
  | Keep => slice value last start ++ slice value start stop
  | MaskParen => slice value last (start - 1) ++ phone_mask
  | KeepArgument argumentEnd =>
      slice value last start ++ slice value start argumentEnd ++
      (if argumentEnd <? stop then redactPhoneCandidate (slice value argumentEnd stop) false false
       else [])
  | Judge phoneLabel operationalLabel =>
      slice value last start ++ redactPhoneCandidate (slice value start stop) phoneLabel operationalLabel
  end.

Fixpoint phone_loop (value : text) (ms : list rmatch) (protected : list span) (last : nat) : text :=
  match ms with
  | [] => drop last value
  | m :: ms =>
      let protected := skip_protected (m_start m) protected in
      let d := decide_match value protected last (m_start m) (m_end m) in
      write_match value last (m_start m) (m_end m) d ++ phone_loop value ms protected (m_end m)
  end.

Definition redactPhoneCandidates (value : text) : text :=
  let value := redactBareIndianMobiles value in
  let ms := FindAll textPhonePattern value in
  match ms with
  | [] => value
  | _ => phone_loop value ms (protected_spans value) 0
  end.

Definition containsSensitivePhone (value : text) : bool :=
  negb (text_eqb (redactPhoneCandidates value) value).
