(* ===== verification/RedactPhonesProofs.v ===== *)
(** * Phone numbers: what is masked and what is kept

    The pass over bare Indian mobiles masks exactly the ten-digit words that
    are one and have no operational label.  The two functions that call each
    other end after two levels.  What a merged candidate loses is bounded.  A
    match that touches an identifier or an epoch is copied. *)

From S2P Require Import Prelude.
From S2P Require Import GoStrings.
From S2P Require Import RedactBytes.
From S2P Require Import GoIP.
From S2P Require Import RedactCards.
From S2P Require Import Regexp.
From S2P Require Import RedactPhones.

(** ** Bare mobiles *)

(** Ten digits from 6 to 9 on, with no word character on either side. *)
Definition bare_mobile (value : text) (s e : nat) : Prop :=
  e = s + 10 /\ is_at is_mobile_lead value s = true /\
  (forall k, s <= k < e -> is_at isASCIIDigit value k = true) /\
  is_before isASCIIWord value s = false /\ is_at isASCIIWord value e = false.

Definition only_operational (value : text) (start : nat) : bool :=
  hasOperationalNumericLabelBefore value start && negb (hasPhoneLabelBefore value start).

Lemma mobile_lead_digit c : is_mobile_lead c = true -> isASCIIDigit c = true.
Proof. by destruct c as [[] [] [] [] [] [] [] []]. Qed.

Lemma digit_word c : isASCIIDigit c = true -> isASCIIWord c = true.
Proof. unfold isASCIIWord. by intros ->. Qed.

Lemma is_at_impl (p q : ascii -> bool) value i :
  (forall c, p c = true -> q c = true) -> is_at p value i = true -> is_at q value i = true.
Proof. intros H. unfold is_at. destruct (value !! i); [apply H|done]. Qed.

Lemma forallb_slice p value i j :
  j <= length value ->
  forallb p (slice value i j) = true <-> forall k, i <= k < j -> is_at p value k = true.
Proof.
  intros Hj. rewrite forallb_forall, <- List.Forall_forall. split.
  - intros H k Hk. rewrite (is_at_slice _ _ i j) by lia. unfold is_at.
    destruct (lookup_lt_is_Some_2 (slice value i j) (k - i)) as [c Hc].
    { rewrite slice_length; lia. }
    rewrite Hc. by eapply (Forall_lookup_1 _ _ _ _ H).
  - by apply slice_Forall.
Qed.

Lemma mobile_at_spec value s e :
  s + 10 <= length value ->
  mobile_at value s = Some e <-> bare_mobile value s e /\ only_operational value s = false.
Proof.
  intros Hlen. unfold mobile_at, bare_mobile, only_operational.
  pose proof (forallb_slice isASCIIDigit value (s + 1) (s + 10) Hlen) as Hd.
  destruct (is_at is_mobile_lead value s) eqn:Hl; cbn [negb]; [|split; [done|by intros [(_ & [=] & _) _]]].
  pose proof (is_at_impl _ _ _ _ mobile_lead_digit Hl) as H0.
  destruct (forallb _ _); cbn [negb orb].
  - assert (forall k, s <= k < s + 10 -> is_at isASCIIDigit value k = true) as Hrun.
    { intros k Hk. destruct (decide (k = s)) as [->|]; [done|]. apply (proj1 Hd); [done|lia]. }
    destruct (is_before _ _ _), (is_at isASCIIWord value (s + 10)) eqn:Ha; cbn [orb];
      try (split; [done|]; intros [(-> & _ & _ & Hb & Hc) _]; congruence).
    destruct (_ && _); split; try done.
    + by intros [_ [=]].
    + intros [= <-]. by split_and!.
    + by intros [[-> _] _].
  - split; [done|]. intros [(-> & _ & Hrun & _) _].
    assert (false = true) as [=]. apply Hd. intros k Hk. apply Hrun. lia.
Qed.

Lemma mobile_at_forward value s e : mobile_at value s = Some e -> s < e.
Proof. unfold mobile_at. repeat case_match; try done. intros [= <-]. lia. Qed.

(** The spans redactBareIndianMobiles masks. *)
Definition mobile_spans (value : text) : list span :=
  scan_spans (mobile_at value) (length value - 9) (length value - 9) 0.

Lemma bare_mobile_bounds value s e : bare_mobile value s e -> s + 10 <= length value.
Proof.
  intros (-> & _ & Hrun & _). specialize (Hrun (s + 9) ltac:(lia)).
  apply is_at_lt in Hrun. lia.
Qed.

(** Two bare mobiles that share a byte are the same. *)
Lemma bare_mobile_unique value s e s' e' :
  bare_mobile value s e -> bare_mobile value s' e' -> s' <= s < e' -> s = s' /\ e = e'.
Proof.
  intros (-> & _ & _ & Hb & _) (-> & _ & Hrun' & _) Hin.
  destruct (decide (s = s')) as [->|]; [done|].
  destruct s as [|s]; [lia|]. cbn in Hb.
  rewrite (is_at_impl _ _ _ _ digit_word (Hrun' s ltac:(lia))) in Hb. done.
Qed.

(** redactBareIndianMobiles masks exactly the bare mobiles, ten digits
    from 6 to 9 on with no word character on either side, whose label, if any,
    is not an operational one; a phone label overrules that. *)
Theorem redactBareIndianMobiles_exact value :
  redactBareIndianMobiles value = splice phone_mask value 0 (mobile_spans value) /\
  in_order 0 (mobile_spans value) /\
  forall s e, (s, e) ∈ mobile_spans value <->
    bare_mobile value s e /\ only_operational value s = false.
Proof.
  split_and!.
  - apply scan_splice, mobile_at_forward.
  - apply scan_spans_in_order, mobile_at_forward.
  - intros s e. split.
    + intros [Hlt Hat]%(scan_spans_sound _ _ (mobile_at_forward value)).
      apply mobile_at_spec; [lia|done].
    + intros [Hm Ho]. pose proof (bare_mobile_bounds _ _ _ Hm).
      pose proof (proj2 (mobile_at_spec value s e ltac:(lia)) (conj Hm Ho)) as Hat.
      destruct (scan_spans_complete _ (length value - 9) (mobile_at_forward value)
                  (length value - 9) 0 s) as [?|(s' & e' & Hin & Hs)]; [lia..|congruence|].
      pose proof (scan_spans_sound _ _ (mobile_at_forward value) _ _ _ _ Hin) as [Hlt' Hat'].
      apply mobile_at_spec in Hat' as [Hm' _]; [|lia].
      by destruct (bare_mobile_unique _ _ _ _ _ Hm Hm' Hs) as [-> ->].
Qed.

(** ** Digits of a text *)

Definition ndigits (t : text) : nat := length (phoneDigits t).

Lemma ndigits_app a b : ndigits (a ++ b) = ndigits a + ndigits b.
Proof. unfold ndigits, phoneDigits. by rewrite List.filter_app, length_app. Qed.

Lemma ndigits_cons c t : ndigits (c :: t) = (if isASCIIDigit c then 1 else 0) + ndigits t.
Proof. unfold ndigits, phoneDigits. cbn. by destruct (isASCIIDigit c). Qed.

Lemma ndigits_slice value i j k :
  i <= j <= k -> ndigits (slice value i k) = ndigits (slice value i j) + ndigits (slice value j k).
Proof. intros H. by rewrite (slice_app value i j k H), ndigits_app. Qed.

Lemma ndigits_rev t : ndigits (rev t) = ndigits t.
Proof. unfold ndigits, phoneDigits. by rewrite List.filter_rev, length_rev. Qed.

(** strings.TrimSpace adds no digits: both of its loops drop a space of one,
    two or three bytes from the front of a text. *)
Section Trim.
Context (trim : string -> string).
Hypothesis trim_step : forall s,
  trim s = s \/
  exists a r, s = String a r /\ (trim s = trim r \/ exists b r', r = String b r' /\
    (trim s = trim r' \/ exists c r'', r' = String c r'' /\ trim s = trim r'')).

Lemma ndigits_trim s : ndigits (lit (trim s)) <= ndigits (lit s).
Proof.
  assert (H : forall n s, String.length s <= n -> ndigits (lit (trim s)) <= ndigits (lit s)).
  { clear s. induction n as [|n IH]; intros s Hn;
      (destruct (trim_step s) as [-> | (a & r & -> & [E|(b & r' & -> & [E|(c & r'' & -> & E)])])];
       [done|..]); cbn in Hn; try lia; rewrite E; unfold lit; cbn [String.list_ascii_of_string];
      rewrite !ndigits_cons; (etrans; [apply IH; lia|unfold lit; lia]). }
  by apply (H (String.length s)).
Qed.
End Trim.

(** One step of a trimming loop, its answer given by the next text. *)
Ltac trim_cases f :=
  let a := fresh "a" in let r := fresh "r" in
  intros [|a r]; [by left|cbn [f]]; case_match; [right; do 2 eexists; split; [reflexivity|by left]|];
  let b := fresh "b" in let r' := fresh "r'" in
  destruct r as [|b r']; [by left|]; case_match;
  [right; do 2 eexists; split; [reflexivity|]; right; do 2 eexists; split; [reflexivity|by left]|];
  let c := fresh "c" in let r'' := fresh "r''" in
  destruct r' as [|c r'']; [by left|]; case_match;
  [right; do 2 eexists; split; [reflexivity|]; right; do 2 eexists; split; [reflexivity|];
   right; do 2 eexists; split; reflexivity|by left].

Lemma lit_srev s : lit (srev s) = rev (lit s).
Proof.
  induction s as [|c s IH]; [done|]. rewrite srev_cons. unfold lit in *. cbn. rewrite <- IH.
  generalize (srev s) as u. clear. induction u as [|a u IH]; [done|]. cbn. by rewrite IH.
Qed.

Lemma ndigits_TrimSpace t : ndigits (TrimSpace t) <= ndigits t.
Proof.
  unfold TrimSpace, trim_space, trim_right. rewrite lit_srev, ndigits_rev.
  etrans; [apply (ndigits_trim trim_left_rev); trim_cases trim_left_rev|].
  rewrite lit_srev, ndigits_rev.
  etrans; [apply (ndigits_trim trim_left); trim_cases trim_left|].
  unfold lit, to_string. by rewrite String.list_ascii_of_string_of_list_ascii.
Qed.

(** ** Words *)

Fixpoint tokens_ok (value : text) (last : nat) (toks : list token) : Prop :=
  match toks with
  | [] => True
  | t :: rest =>
      last <= t_start t /\ t_start t < t_end t <= length value /\
      ndigits (slice value last (t_start t)) = 0 /\
      ndigits (slice value (t_start t) (t_end t)) = t_digits t /\
      tokens_ok value (t_end t) rest
  end.

Lemma space_no_digit c : isASCIISpace c = true -> isASCIIDigit c = false.
Proof. by destruct c as [[] [] [] [] [] [] [] []]. Qed.

Lemma ndigits_slice_snoc value i j c :
  i <= j -> value !! j = Some c ->
  ndigits (slice value i (S j)) = ndigits (slice value i j) + (if isASCIIDigit c then 1 else 0).
Proof. intros Hij Hc. rewrite (slice_snoc _ _ _ _ Hij Hc), ndigits_app, ndigits_cons. cbn. lia. Qed.

Lemma ndigits_slice_empty value i : ndigits (slice value i i) = 0.
Proof. by rewrite slice_nil. Qed.

Lemma tokens_from_ok whole rest index last :
  rest = drop index whole -> index <= length whole -> last <= index ->
  (ndigits (slice whole last index) = 0 -> tokens_ok whole last (tokens_from rest index None)) /\
  (forall start digits, last <= start < index -> ndigits (slice whole last start) = 0 ->
     ndigits (slice whole start index) = digits ->
     tokens_ok whole last (tokens_from rest index (Some (start, digits)))).
Proof.
  revert index last. induction rest as [|c rest IH]; intros index last Hrest Hindex Hlast.
  { split; [done|]. intros start digits Hs H0 Hd. cbn. split_and!; auto; lia. }
  assert (whole !! index = Some c) as Hc by (rewrite <- (Nat.add_0_r index), <- lookup_drop, <- Hrest; done).
  assert (rest = drop (S index) whole) as Hrest'.
  { rewrite <- (Nat.add_1_r index), <- drop_drop, <- Hrest. done. }
  pose proof (lookup_lt_Some _ _ _ Hc).
  destruct (IH (S index) last Hrest' ltac:(lia) ltac:(lia)) as [IHn IHs].
  split.
  - intros H0. cbn. destruct (isASCIISpace c) eqn:Hs.
    + apply IHn. rewrite (ndigits_slice_snoc _ _ _ c), (space_no_digit _ Hs) by (lia || done). lia.
    + apply IHs; [lia|done|]. rewrite (ndigits_slice_snoc _ _ _ c), ndigits_slice_empty by (lia || done).
      by destruct (isASCIIDigit c).
  - intros start digits Hs H0 Hd. cbn. destruct (isASCIISpace c) eqn:Hsp.
    + cbn. split_and!; try done; [lia..|].
      apply (IH (S index) index); [done|lia|lia|].
      rewrite (ndigits_slice_snoc _ _ _ c), ndigits_slice_empty, (space_no_digit _ Hsp) by (lia || done). done.
    + apply IHs; [lia|done|]. rewrite (ndigits_slice_snoc _ _ _ c) by (lia || done).
      rewrite Hd. destruct (isASCIIDigit c); lia.
Qed.

Lemma tokens_ok_tokens value : tokens_ok value 0 (tokens value).
Proof.
  apply (tokens_from_ok value value 0 0); [done|lia|lia|apply ndigits_slice_empty].
Qed.

Lemma tokens_ok_lookup value last toks i t :
  tokens_ok value last toks -> toks !! i = Some t ->
  last <= t_start t /\ t_start t < t_end t <= length value /\
  ndigits (slice value (t_start t) (t_end t)) = t_digits t.
Proof.
  revert last i; induction toks as [|u toks IH]; intros last [|i]; cbn; try done.
  - intros (? & ? & ? & ? & ?) [= ->]. lia.
  - intros (? & ? & ? & ? & H) Hi. destruct (IH _ _ H Hi) as (? & ? & ?). lia.
Qed.

Lemma tokens_ok_next value last toks i t t' :
  tokens_ok value last toks -> toks !! i = Some t -> toks !! S i = Some t' ->
  t_end t <= t_start t' /\ ndigits (slice value (t_end t) (t_start t')) = 0.
Proof.
  revert last i; induction toks as [|u toks IH]; intros last i; [done|].
  intros (? & ? & ? & ? & H). destruct i as [|i].
  - intros [= ->] Ht'. destruct toks as [|v toks]; [done|]. cbn in *. injection Ht' as ->. tauto.
  - intros Ht Ht'. by apply (IH _ i H).
Qed.

(** The digits of a run of words, counted word by word. *)
Definition counted (value : text) (toks : list token) (from next digits : nat) : Prop :=
  forall t, toks !! next = Some t ->
    from <= t_start t /\ digits + t_digits t = ndigits (slice value from (t_end t)).

Lemma counted_start value toks first t :
  tokens_ok value 0 toks -> toks !! first = Some t -> counted value toks (t_start t) first 0.
Proof.
  intros Hok Ht t' Ht'. rewrite Ht in Ht'. injection Ht' as <-. split; [done|].
  by destruct (tokens_ok_lookup _ _ _ _ _ Hok Ht) as (_ & _ & ->).
Qed.

Lemma counted_next value toks from next digits t :
  tokens_ok value 0 toks -> counted value toks from next digits -> toks !! next = Some t ->
  counted value toks from (S next) (digits + t_digits t).
Proof.
  intros Hok Hc Ht t' Ht'. destruct (Hc _ Ht) as [Hf ->].
  destruct (tokens_ok_lookup _ _ _ _ _ Hok Ht) as (_ & ? & _).
  destruct (tokens_ok_lookup _ _ _ _ _ Hok Ht') as (_ & ? & Hd').
  destruct (tokens_ok_next _ _ _ _ _ _ Hok Ht Ht') as [Hle Hgap]. split; [lia|].
  rewrite (ndigits_slice value from (t_end t) (t_end t')) by lia.
  rewrite (ndigits_slice value (t_end t) (t_start t') (t_end t')) by lia. lia.
Qed.

(** ** Two levels are enough *)

Section Depth.
Context (c1 c2 : text -> bool -> bool -> text).
Hypothesis agree : forall span l o, ndigits span <= maxPhoneDigits -> c1 span l o = c2 span l o.

Lemma run_ends_ext value toks from budget next digits labelled operational m l :
  tokens_ok value 0 toks -> counted value toks from next digits ->
  run_ends c1 value toks from budget next digits labelled operational m l =
  run_ends c2 value toks from budget next digits labelled operational m l.
Proof.
  intros Hok. revert next digits m l.
  induction budget as [|b IH]; intros next digits m l Hc; cbn -[maxPhoneDigits maxPhoneSpanBytes]; [done|].
  destruct (toks !! next) as [t|] eqn:Ht; [|done].
  pose proof (counted_next _ _ _ _ _ _ Hok Hc Ht) as Hc'.
  destruct (Hc _ Ht) as [_ Hd].
  destruct (_ || _) eqn:E; [done|]. apply orb_false_iff in E as [E%Nat.ltb_ge _].
  rewrite !agree by lia. repeat case_match; by apply IH.
Qed.

Lemma merged_spans_ext value toks fuel first pl ol :
  tokens_ok value 0 toks ->
  merged_spans c1 fuel value toks first pl ol = merged_spans c2 fuel value toks first pl ol.
Proof.
  intros Hok. revert first; induction fuel as [|fuel IH]; intros first; cbn; [done|].
  destruct (toks !! first) as [t|] eqn:Ht; [|done].
  assert (merged_run c1 value toks first pl ol = merged_run c2 value toks first pl ol) as ->.
  { unfold merged_run. rewrite Ht.
    by rewrite run_ends_ext by (done || by apply counted_start). }
  repeat case_match; by rewrite ?IH.
Qed.

Lemma merged_ext value pl ol :
  redactMergedPhoneCandidate c1 value pl ol = redactMergedPhoneCandidate c2 value pl ol.
Proof.
  unfold redactMergedPhoneCandidate. case_match; [done|].
  by rewrite merged_spans_ext by apply tokens_ok_tokens.
Qed.
End Depth.

(** A text of at most fifteen digits is judged at once, a longer one is split. *)
Lemma depth_short n m value pl ol :
  ndigits (TrimSpace value) <= maxPhoneDigits ->
  redactPhoneCandidate_depth (S n) value pl ol = redactPhoneCandidate_depth (S m) value pl ol.
Proof.
  intros Hd. cbn -[maxPhoneDigits]. destruct (_ || _); [done|]. fold (ndigits (TrimSpace value)).
  destruct (Nat.ltb_spec maxPhoneDigits (ndigits (TrimSpace value))); [lia|done].
Qed.

Lemma depth_long n value pl ol :
  maxPhoneDigits < ndigits (TrimSpace value) ->
  redactPhoneCandidate_depth (S n) value pl ol =
  if ParseIP (TrimSpace value) || MatchString textDatePrefixPattern (TrimSpace value) then value
  else redactMergedPhoneCandidate (redactPhoneCandidate_depth n) value pl ol.
Proof.
  intros Hd. cbn -[maxPhoneDigits]. destruct (_ || _); [done|]. fold (ndigits (TrimSpace value)).
  destruct (Nat.ltb_spec maxPhoneDigits (ndigits (TrimSpace value))); [done|lia].
Qed.

(** redactPhoneCandidate and redactMergedPhoneCandidate, which call each
    other, end: at every depth of two calls or more the answer is the one of
    redactPhoneCandidate, since no part of a merged candidate is merged. *)
Theorem redactPhoneCandidate_terminates n value phoneLabel operationalLabel :
  redactPhoneCandidate_depth (2 + n) value phoneLabel operationalLabel =
  redactPhoneCandidate value phoneLabel operationalLabel.
Proof.
  unfold redactPhoneCandidate.
  destruct (le_lt_dec (ndigits (TrimSpace value)) maxPhoneDigits) as [H|H].
  - by apply depth_short.
  - change (2 + n) with (S (S n)). rewrite !depth_long by done.
    destruct (_ || _); [done|]. apply merged_ext. intros span l o Hs.
    apply depth_short. pose proof (ndigits_TrimSpace span). lia.
Qed.

(** ** What a merged candidate loses *)

Record phone_run (value : text) (toks : list token) (first last : nat) : Prop := {
  run_tokens : first <= last < first + maxPhoneSpanTokens;
  run_span : exists t t', toks !! first = Some t /\ toks !! last = Some t' /\
    t_end t' - t_start t <= maxPhoneSpanBytes /\
    8 <= ndigits (slice value (t_start t) (t_end t')) <= maxPhoneDigits
}.

Lemma run_ends_spec c value toks first t budget next digits labelled operational m l m' l' :
  tokens_ok value 0 toks -> toks !! first = Some t ->
  counted value toks (t_start t) next digits -> first <= next ->
  next + budget <= first + maxPhoneSpanTokens ->
  (forall k, m = Some k \/ l = Some k -> phone_run value toks first k) ->
  run_ends c value toks (t_start t) budget next digits labelled operational m l = (m', l') ->
  forall k, m' = Some k \/ l' = Some k -> phone_run value toks first k.
Proof.
  intros Hok Ht. revert next digits m l.
  induction budget as [|b IH]; intros next digits m l Hc Hn Hb Hml; cbn -[maxPhoneDigits maxPhoneSpanBytes].
  { by intros [= <- <-]. }
  destruct (toks !! next) as [u|] eqn:Hu; [|by intros [= <- <-]].
  pose proof (counted_next _ _ _ _ _ _ Hok Hc Hu) as Hc'. destruct (Hc _ Hu) as [_ Hd].
  destruct (_ || _) eqn:E; [by intros [= <- <-]|].
  apply orb_false_iff in E as [E1%Nat.ltb_ge E2%Nat.ltb_ge].
  destruct (Nat.ltb_spec (digits + t_digits u) 8) as [|H8]; [apply IH; [done|lia|lia|done]|].
  assert (phone_run value toks first next) as Hrun.
  { split; [lia|]. exists t, u. rewrite <- Hd. split_and!; [done..|lia|lia]. }
  repeat case_match; apply IH; try done; try lia; intros k [Hk|Hk]; try (injection Hk as <-); auto.
Qed.

Lemma merged_run_spec c value toks first pl ol last :
  tokens_ok value 0 toks -> merged_run c value toks first pl ol = Some last ->
  phone_run value toks first last.
Proof.
  intros Hok. unfold merged_run. destruct (toks !! first) as [t|] eqn:Ht; [|done].
  destruct (run_ends _ _ _ _ _ _ _ _ _ _ _) as [m l] eqn:E.
  intros H. eapply (run_ends_spec _ _ _ _ _ _ _ _ _ _ _ _ _ _ Hok Ht); [| | | |exact E|].
  - by apply counted_start.
  - done.
  - lia.
  - intros k [[=]|[=]].
  - destruct m; auto.
Qed.

Lemma tokens_ok_order value last toks i j t t' :
  tokens_ok value last toks -> toks !! i = Some t -> toks !! j = Some t' -> i < j ->
  t_end t <= t_start t'.
Proof.
  intros Hok Ht. revert t'. induction j as [|j IH]; intros t' Ht' Hij; [lia|].
  destruct (lookup_lt_is_Some_2 toks j) as [u Hu]; [apply lookup_lt_Some in Ht'; lia|].
  destruct (tokens_ok_next _ _ _ _ _ _ Hok Hu Ht') as [Hn _].
  destruct (decide (i = j)) as [->|]; [rewrite Ht in Hu; by injection Hu as ->|].
  specialize (IH _ Hu ltac:(lia)). destruct (tokens_ok_lookup _ _ _ _ _ Hok Hu) as (_ & ? & _). lia.
Qed.

(** Spans of words, each a run of at most five. *)
Definition bounded_span (value : text) (p : span) : Prop :=
  p.1 < p.2 <= length value /\ p.2 - p.1 <= maxPhoneSpanBytes /\
  8 <= ndigits (slice value p.1 p.2) <= maxPhoneDigits.

Lemma merged_spans_spec c value toks fuel first pl ol last :
  tokens_ok value 0 toks ->
  (forall t, toks !! first = Some t -> last <= t_start t) ->
  in_order last (merged_spans c fuel value toks first pl ol) /\
  Forall (bounded_span value) (merged_spans c fuel value toks first pl ol).
Proof.
  intros Hok. revert first last; induction fuel as [|fuel IH]; intros first last Hlast; cbn; [done|].
  destruct (toks !! first) as [t|] eqn:Ht; [|done].
  destruct (merged_run c value toks first pl ol) as [k|] eqn:Hk.
  2:{ apply IH. intros t' Ht'. specialize (Hlast _ eq_refl).
      pose proof (tokens_ok_order _ _ _ _ _ _ _ Hok Ht Ht' ltac:(lia)).
      destruct (tokens_ok_lookup _ _ _ _ _ Hok Ht) as (_ & ? & _). lia. }
  apply merged_run_spec in Hk as [Hfk (u & t' & Hu & Ht' & Hbytes & Hdigits)]; [|done].
  rewrite Ht in Hu. injection Hu as <-. rewrite Ht'.
  assert (t_start t < t_end t' <= length value) as Hse.
  { destruct (tokens_ok_lookup _ _ _ _ _ Hok Ht) as (_ & ? & _).
    destruct (tokens_ok_lookup _ _ _ _ _ Hok Ht') as (_ & ? & _).
    destruct (decide (first = k)) as [->|]; [rewrite Ht in Ht'; injection Ht' as <-; lia|].
    pose proof (tokens_ok_order _ _ _ _ _ _ _ Hok Ht Ht' ltac:(lia)). lia. }
  destruct (IH (S k) (t_end t')) as [Ho Hf].
  { intros u Hu. apply (tokens_ok_order _ _ _ _ _ _ _ Hok Ht' Hu). lia. }
  split.
  - cbn. split_and!; [by apply Hlast|lia|done].
  - constructor; [|done]. unfold bounded_span. cbn [fst snd]. lia.
Qed.

(** what redactMergedPhoneCandidate takes out of a candidate that holds
    several numbers: disjoint spans, in order, each of at most 40 bytes and with
    8 to 15 digits; the rest of the candidate is kept as it is. *)
Theorem merged_candidate_bounded candidate value phoneLabel operationalLabel :
  exists spans,
    redactMergedPhoneCandidate candidate value phoneLabel operationalLabel =
      splice phone_mask value 0 spans /\
    in_order 0 spans /\ Forall (bounded_span value) spans.
Proof.
  unfold redactMergedPhoneCandidate. case_match; [by exists []|].
  eexists. split; [done|]. apply merged_spans_spec; [apply tokens_ok_tokens|lia].
Qed.

(** ** Protected text *)

Definition overlaps (p : span) (start stop : nat) : Prop := start < p.2 /\ p.1 < stop.

(** The matches with what is decided for each. *)
Fixpoint phone_decisions (value : text) (ms : list rmatch) (protected : list span) (last : nat)
    : list (rmatch * decision) :=
  match ms with
  | [] => []
  | m :: ms =>
      let protected := skip_protected (m_start m) protected in
      (m, decide_match value protected last (m_start m) (m_end m)) ::
      phone_decisions value ms protected (m_end m)
  end.

Fixpoint write_decisions (value : text) (ds : list (rmatch * decision)) (last : nat) : text :=
  match ds with
  | [] => drop last value
  | (m, d) :: ds => write_match value last (m_start m) (m_end m) d ++ write_decisions value ds (m_end m)
  end.

Lemma phone_loop_decisions value ms protected last :
  phone_loop value ms protected last = write_decisions value (phone_decisions value ms protected last) last.
Proof.
  revert protected last; induction ms as [|m ms IH]; intros protected last; cbn; [done|]. by rewrite IH.
Qed.

Lemma skip_protected_spec start protected p :
  p ∈ protected -> start < p.2 -> p ∈ skip_protected start protected.
Proof.
  intros Hp Hs. induction protected as [|q l IH]; [done|]. cbn.
  destruct (Nat.leb_spec q.2 start); [|done].
  apply elem_of_cons in Hp as [->|]; [lia|auto].
Qed.

Lemma skip_protected_sub start protected p : p ∈ skip_protected start protected -> p ∈ protected.
Proof.
  induction protected as [|q l IH]; [done|]. cbn. case_match; [|done]. intros ?%IH. by right.
Qed.

Lemma skip_protected_sorted start protected :
  StronglySorted span_le protected -> StronglySorted span_le (skip_protected start protected).
Proof.
  induction 1 as [|q l Hl IH Hq]; cbn; [constructor|]. case_match; [done|by constructor].
Qed.

(** In a sorted list the first span not yet passed decides. *)
Lemma overlaps_first_spec start stop protected :
  StronglySorted span_le protected ->
  overlaps_first (skip_protected start protected) start stop = true <->
  exists p, p ∈ protected /\ overlaps p start stop.
Proof.
  intros Hs. pose proof (skip_protected_sorted start _ Hs) as Hs'. split.
  - destruct (skip_protected start protected) as [|q l] eqn:E; cbn; [done|].
    rewrite andb_true_iff, !Nat.ltb_lt. intros [? ?]. exists q. split; [|done].
    apply (skip_protected_sub start). rewrite E. by left.
  - intros (p & Hp & Ho1 & Ho2). pose proof (skip_protected_spec start _ _ Hp Ho1) as Hin.
    assert (Hfirst : match skip_protected start protected with q :: _ => start < q.2 | [] => True end).
    { clear. induction protected as [|q l IH]; cbn; [done|].
      destruct (Nat.leb_spec q.2 start); [done|lia]. }
    destruct (skip_protected start protected) as [|q l]; [by apply elem_of_nil in Hin|].
    cbn. rewrite andb_true_iff, !Nat.ltb_lt. split; [done|].
    apply elem_of_cons in Hin as [->|Hin]; [done|]. inversion Hs' as [|? ? _ Hq]; subst.
    rewrite List.Forall_forall in Hq. apply list_elem_of_In in Hin.
    destruct (Hq _ Hin) as [|[? _]]; lia.
Qed.

Lemma decide_match_keep value protected last start stop :
  decide_match value protected last start stop = Keep <-> overlaps_first protected start stop = true.
Proof. unfold decide_match. repeat case_match; split; done. Qed.

Lemma phone_decisions_keep value ms protected last m d :
  in_order last (map m_span ms) -> StronglySorted span_le protected ->
  (m, d) ∈ phone_decisions value ms protected last ->
  d = Keep <-> exists p, p ∈ protected /\ overlaps p (m_start m) (m_end m).
Proof.
  revert protected last. induction ms as [|m' ms IH]; intros protected last; cbn -[decide_match].
  { by intros _ _ ?%elem_of_nil. }
  intros (_ & Hlt & Ho) Hs [[= -> ->]|Hin]%elem_of_cons.
  { by rewrite decide_match_keep, overlaps_first_spec. }
  rewrite (IH _ _ Ho (skip_protected_sorted _ _ Hs) Hin).
  assert (m_start m' < m_start m) as Hafter.
  { assert (H : forall ms pr last, in_order last (map m_span ms) -> (m, d) ∈ phone_decisions value ms pr last ->
      last <= m_start m).
    { clear. induction ms as [|m1 ms IH]; intros pr last; cbn -[decide_match]; [by intros _ ?%elem_of_nil|].
      intros (? & ? & Ho) [[= -> ->]|Hin]%elem_of_cons; [done|]. specialize (IH _ _ Ho Hin). lia. }
    specialize (H _ _ _ Ho Hin). lia. }
  split; intros (p & Hp & Hov); exists p; (split; [|done]).
  - by eapply skip_protected_sub.
  - apply skip_protected_spec; [done|]. destruct Hov. lia.
Qed.

Lemma protected_sorted value : StronglySorted span_le (protected_spans value).
Proof.
  apply Sorted_StronglySorted; [|apply Sorted_merge_sort].
  - intros a b c. unfold span_le. lia.
  - intros a b. unfold span_le. destruct (lt_eq_lt_dec a.1 b.1) as [[?|?]|?]; lia.
Qed.

(** phone redaction leaves identifiers and times alone: after the pass
    over bare mobiles, a match of the phone pattern is copied as it is exactly
    when it overlaps a UUID, a thirteen-digit number or a labelled epoch; the
    index the loop keeps into the sorted spans passes none that still matters. *)
Theorem protected_matches_kept value :
  let v := redactBareIndianMobiles value in
  let ds := phone_decisions v (FindAll textPhonePattern v) (protected_spans v) 0 in
  redactPhoneCandidates value = write_decisions v ds 0 /\
  forall m d, (m, d) ∈ ds ->
    (d = Keep <-> exists p, p ∈ protected_spans v /\ overlaps p (m_start m) (m_end m)).
Proof.
  intros v ds. split.
  - unfold redactPhoneCandidates. fold v. subst ds. rewrite <- phone_loop_decisions.
    by destruct (FindAll textPhonePattern v).
  - intros m d. apply phone_decisions_keep; [|apply protected_sorted].
    by apply find_all_in_order.
Qed.
