(* ===== verification/RedactText.v ===== *)
(** * package redact, text, URLs, headers and queries

    The rest of redact/redact.go: JWTs and JWEs, URLs and paths, query values,
    headers, the order of passes of Text, and ErrorMessage.  The parsers of
    net/url and encoding/json are parameters; regular expressions are those of
    [Regexp]. *)

From S2P Require Import Prelude.
From S2P Require Import GoStrings.
From S2P Require Import RedactBytes.
From S2P Require Import GoIP.
From S2P Require Import RedactCards.
From S2P Require Import Regexp.
From S2P Require Import RedactPhones.

(** ** Patterns *)

Definition opt_dash : re := ROpt (RClass "_-").             (* [_-]? *)
(** A class with letters under (?i). *)
Definition RFoldClass (extra : string) : re :=
  RAny [RByte (fun c => is_alnum c || byte_in extra c); bytes_of [197; 191]%N; bytes_of [226; 132; 170]%N].
Definition RFoldAlpha : re :=
  RAny [RByte (fun c => is_lower c || is_upper c); bytes_of [197; 191]%N; bytes_of [226; 132; 170]%N].
Definition dashed (a b : string) : re := (RFoldLit a ++ opt_dash ++ RFoldLit b)%re.

Definition quotes : string := String quote "'".
Definition not_space_in (extra : string) : re := RByte (fun c => negb (is_white c || byte_in extra c)).

Definition textURLPattern : re :=
  (RBoundary ++
   RAny [RFoldLit "http" ++ ROpt (RFoldLit "s"); RFoldLit "mongodb" ++ ROpt (RClass "+" ++ RFoldLit "srv");
         RFoldLit "postgres" ++ ROpt (RFoldLit "ql"); RFoldLit "redis" ++ ROpt (RFoldLit "s");
         RFoldLit "mysql"] ++
   RLit "://" ++ RPlus (not_space_in (quotes +:+ "<>")))%re.

Definition textRelativeQueryPattern : re :=
  (RGroup 1 (RAlt RBegin (RByte (fun c => is_white c || byte_in "(=:" c)%bool)) ++
   RGroup 2 (RClass "/" ++ RStar (not_space_in (quotes +:+ "<>?"))) ++
   RClass "?" ++ RPlus (not_space_in (quotes +:+ "<>")))%re.

Definition textSensitivePathPattern : re :=
  (RGroup 1
     (RClass "/" ++
      RAny [dashed "api" "key"; dashed "access" "token"; dashed "auth" "token"; dashed "client" "secret";
            RFoldLit "credential"; RFoldLit "one" ++ opt_dash ++ dashed "time" "password";
            RFoldLit "otp"; RFoldLit "pass"; RFoldLit "password"; RFoldLit "passwd"; RFoldLit "pwd";
            dashed "refresh" "token";
            RFoldLit "reset" ++ opt_dash ++ RAny [RFoldLit "password"; RFoldLit "token"];
            RFoldLit "secret"; RFoldLit "session"; RFoldLit "token"; dashed "verification" "code"] ++
      RClass "/") ++
   RGroup 2 (RPlus (not_space_in ("/" +:+ quotes +:+ "<>"))))%re.

Definition textUserInfoPattern : re :=
  (RGroup 1 (RAlt RBegin (RByte (fun c => is_white c || byte_in "(=" c)%bool)) ++
   RPlus (not_space_in ":/@") ++ RClass ":" ++ RPlus (not_space_in "/@") ++ RClass "@" ++
   RGroup 2 (RByte (fun c => is_alnum c || byte_in "[(" c)%bool))%re.

Definition textEmailPattern : re :=
  (RBoundary ++ RPlus (RFoldClass "._%+-") ++ RClass "@" ++ RPlus (RFoldClass ".-") ++ RClass "." ++
   RAtLeast 2 RFoldAlpha ++ RBoundary)%re.

Definition textBearerPattern : re :=
  (RBoundary ++ RFoldLit "bearer" ++ RPlus RWhite ++ RPlus (RFoldClass "._~+-/="))%re.

Definition textBasicPattern : re :=
  (RBoundary ++ RFoldLit "basic" ++ RPlus RWhite ++ RPlus (RFoldClass "+/="))%re.

(** The keys textSecretPattern and textSecretJSONPattern share. *)
Definition secret_keys : re :=
  RAny [dashed "api" "key"; dashed "access" "token"; dashed "auth" "token"; RFoldLit "authorization";
        dashed "client" "secret"; RFoldLit "credential"; RFoldLit "cvv";
        (RFoldLit "one" ++ opt_dash ++ dashed "time" "password")%re; RFoldLit "otp";
        (RStar (RPlus (RFoldClass "") ++ RClass "_-") ++
         RAny [RFoldLit "pass"; RFoldLit "passphrase"; RFoldLit "password"; RFoldLit "passwd";
               RFoldLit "pwd"])%re;
        RFoldLit "pin"; dashed "refresh" "token"; RFoldLit "secret"; dashed "session" "token";
        RFoldLit "token"; (RFoldLit "user" ++ ROpt (RFoldLit "name"))%re; dashed "verification" "code"].

Definition in_quotes (q : ascii) : re :=
  (RByte (Ascii.eqb q) ++ RStar (RByte (fun c => negb (Ascii.eqb q c))) ++ RByte (Ascii.eqb q))%re.

Definition textSecretPattern : re :=
  (RBoundary ++ RGroup 1 secret_keys ++ RStar RWhite ++ RGroup 2 (RClass ":=") ++ RStar RWhite ++
   RGroup 3 (RAny [in_quotes quote; in_quotes "'"; RPlus (not_space_in "&,;}")]))%re.

Definition textLooseNumericSecretPattern : re :=
  (RBoundary ++ RGroup 1 (RAny [RFoldLit "cvv"; RFoldLit "otp"; RFoldLit "pin"]) ++ RPlus RWhite ++
   RGroup 2 (RRange 3 8 RDigit) ++ RBoundary)%re.

Definition RQuote : re := RByte (Ascii.eqb quote).
Definition json_string : re :=
  (RQuote ++
   RStar (RAlt (RClass "\" ++ RByte (fun c => negb (byte_is 10 c)))
               (RByte (fun c => negb (Ascii.eqb quote c || byte_is 92 c)))) ++
   RQuote)%re.

Definition textSecretJSONPattern : re :=
  (RGroup 1 (RQuote ++ secret_keys ++ RQuote ++ RStar RWhite ++ RClass ":" ++ RStar RWhite) ++
   RAny [json_string; in_quotes "'";
         ROpt (RClass "-+") ++ RPlus RDigit ++ ROpt (RClass "." ++ RPlus RDigit);
         RFoldLit "true"; RFoldLit "false"; RFoldLit "null"])%re.

Definition textSensitiveHeaderPattern : re :=
  (RBoundary ++
   RGroup 1
     (RAny [RFoldLit "authorization"; dashed "proxy" "authorization"; RFoldLit "cookie";
            dashed "set" "cookie"; RFoldLit "authentication"; dashed "api" "key";
            RFoldLit "x" ++ RClass "-_" ++ RStar (RFoldClass "_-") ++
            RAny [dashed "api" "key"; dashed "auth" "token"; dashed "access" "token";
                  dashed "csrf" "token"; dashed "xsrf" "token"; RFoldLit "credential";
                  RFoldLit "password"; RFoldLit "secret"; dashed "session" "token";
                  RFoldLit "signature"]]) ++
   RStar RWhite ++ RClass ":" ++ RStar RWhite ++
   RPlus (RByte (fun c => negb (byte_is 13 c || byte_is 10 c || byte_in ",}" c))))%re.

(** ** Headers *)

Definition sensitiveHeaders : list string :=
  ["authorization"; "proxy-authorization"; "cookie"; "set-cookie"; "x-api-key"; "x-auth-token";
   "x-access-token"; "x-csrf-token"; "x-xsrf-token"; "api-key"; "authentication";
   "x-amz-security-token"; "x-application-data"; "x-client-cert"; "x-forwarded-client-cert";
   "x-goog-api-key"; "x-session-token"; "x-signature"; "x-user-data"]%string.

Definition IsSensitiveHeader (name : text) : bool :=
  let name := replace_byte "_"%char "-"%char (lower_text (TrimSpace name)) in
  if existsb (fun h => text_eqb name (lit h)) sensitiveHeaders then true
  else existsb (fun suffix => has_suffix suffix (to_string name))
         ["-api-key"; "-authorization"; "-cookie"; "-credential"; "-password"; "-secret";
          "-signature"; "-token"]%string.

Definition HeaderValue (name value : text) : text :=
  if IsSensitiveHeader name then Mask else value.

(** ** Queries *)

Notation values := (gmap string (list string)).

Definition DefaultQueryAllowlist : gmap string bool :=
  list_to_map (map (fun k => (k, true))
    ["limit"; "page"; "page_size"; "pageSize"; "per_page"; "perPage"; "size"; "offset"; "cursor";
     "sort"; "order"; "order_by"; "orderBy"; "dir"; "direction"; "fields"]%string).

Definition allowed (allow : gmap string bool) (k : string) : bool := default false (allow !! k).

(** A nil allowlist is the default one; an empty query gives a nil map. *)
Definition QueryMap (vs : values) (allow : option (gmap string bool)) : option (gmap string string) :=
  if decide (vs = ∅) then None
  else
    let allow := default DefaultQueryAllowlist allow in
    Some (map_imap (fun k l => Some (if allowed allow k then join "," l else to_string Mask)) vs).

Fixpoint render_query (m : gmap string string) (keys : list string) (first : bool) : string :=
  match keys with
  | [] => ""
  | k :: keys =>
      (if first then "" else "&") +:+ k +:+ "=" +:+ default "" (m !! k) +:+ render_query m keys false
  end.

(** The keys come out of the map in the order [keys]. *)
Definition render_sorted (m : gmap string string) (keys : list string) : string :=
  render_query m (merge_sort String.le keys) true.

Section Query.
(** url.ParseQuery, nothing for an error. *)
Context (ParseQuery : string -> option values).

Definition Query (rawQuery : string) (allow : option (gmap string bool)) : string :=
  if String.eqb rawQuery "" then ""
  else match ParseQuery rawQuery with
       | None => to_string Mask
       | Some vs =>
           let m := default ∅ (QueryMap vs allow) in
           render_sorted m (map_to_list m).*1
       end.
End Query.

(** ** encoding/base64, RawURLEncoding *)

Definition url64_digit (c : ascii) : option nat :=
  if is_upper c then Some (N.to_nat (byte_of c) - 65)
  else if is_lower c then Some (N.to_nat (byte_of c) - 71)
  else if is_digit c then Some (N.to_nat (byte_of c) + 4)
  else if byte_is 45 c then Some 62
  else if byte_is 95 c then Some 63
  else None.

Definition byte_nat (n : nat) : ascii := ascii_of_nat (n mod 256).

Fixpoint rawurl_quads (s : text) : option text :=
  match s with
  | [] => Some []
  | [_] => None
  | [a; b] =>
      match url64_digit a, url64_digit b with
      | Some x, Some y => Some [byte_nat (x * 4 + y / 16)]
      | _, _ => None
      end
  | [a; b; c] =>
      match url64_digit a, url64_digit b, url64_digit c with
      | Some x, Some y, Some z => Some [byte_nat (x * 4 + y / 16); byte_nat (y * 16 + z / 4)]
      | _, _, _ => None
      end
  | a :: b :: c :: d :: rest =>
      match url64_digit a, url64_digit b, url64_digit c, url64_digit d, rawurl_quads rest with
      | Some x, Some y, Some z, Some w, Some rest =>
          Some (byte_nat (x * 4 + y / 16) :: byte_nat (y * 16 + z / 4) :: byte_nat (z * 64 + w) :: rest)
      | _, _, _, _, _ => None
      end
  end.

(** Line breaks are skipped. *)
Definition RawURLDecode (s : text) : option text :=
  rawurl_quads (List.filter (fun c => negb (byte_is 10 c || byte_is 13 c)) s).

(** strings.Split(_, ".") *)
Fixpoint split_dots (s part : text) : list text :=
  match s with
  | [] => [part]
  | c :: s => if byte_is 46 c then part :: split_dots s [] else split_dots s (part ++ [c])
  end.

(** A member of a JSON object, as far as the code looks at it. *)
Inductive member : Type := JNull | JValue.

Definition isJWTTokenByte (c : ascii) : bool := is_alnum c || byte_in "-_." c.

Section JWT.
(** json.Unmarshal into a map[string]interface{}, nothing for an error. *)
Context (Unmarshal : text -> option (gmap string member)).

Definition decode_object (part : text) : option (gmap string member) :=
  match RawURLDecode part with Some bytes => Unmarshal bytes | None => None end.

Definition validJWT (candidate : text) : bool :=
  match split_dots candidate [] with
  | [h; c; _] =>
      match decode_object h with
      | None => false
      | Some header =>
          match header !! "alg"%string with
          | None => false
          | Some _ => match decode_object c with Some _ => true | None => false end
          end
      end
  | _ => false
  end.

Definition not_nil (header : gmap string member) (k : string) : bool :=
  match header !! k with Some JValue => true | _ => false end.

Definition decodes (part : text) : bool :=
  match RawURLDecode part with Some _ => true | None => false end.

(** Only the encrypted key, the second part, may be empty. *)
Definition validJWE (candidate : text) : bool :=
  match split_dots candidate [] with
  | [h; key; iv; ciphertext; tag] =>
      match decode_object h with
      | None => false
      | Some header =>
          if negb (not_nil header "alg") || negb (not_nil header "enc") then false
          else ((length key =? 0) || decodes key) &&
               forallb (fun p => negb (length p =? 0) && decodes p) [iv; ciphertext; tag]
      end
  | _ => false
  end.

(** The segments between the dots of a token, as spans. *)
Fixpoint segments_from (token : text) (segmentStart index : nat) : list span :=
  match token with
  | [] => [(segmentStart, index)]
  | c :: token =>
      if byte_is 46 c then (segmentStart, index) :: segments_from token (S index) (S index)
      else segments_from token segmentStart (S index)
  end.

(** The span of [width] segments from [index] on. *)
Definition window (segments : list span) (index width : nat) : option span :=
  match segments !! index, segments !! (index + width - 1) with
  | Some a, Some b => Some (a.1, b.2)
  | _, _ => None
  end.

Definition matched_width (token : text) (segments : list span) (index : nat) : option (nat * span) :=
  let try width :=
    match window segments index width with
    | Some (s, e) =>
        let candidate := slice token s e in
        if (if width =? 5 then validJWE candidate else validJWT candidate)
        then Some (width, (s, e)) else None
    | None => None
    end in
  match try 5 with Some r => Some r | None => try 3 end.

Fixpoint jwt_windows (fuel : nat) (token : text) (segments : list span) (index : nat) : list span :=
  match fuel with
  | O => []
  | S fuel =>
      if index <? length segments then
        match matched_width token segments index with
        | Some (width, p) => p :: jwt_windows fuel token segments (index + width)
        | None => jwt_windows fuel token segments (S index)
        end
      else []
  end.

Definition jwtSpans (token : text) : list span :=
  let segments := segments_from token 0 0 in
  jwt_windows (length segments) token segments 0.

(** The loop over the tokens of a text; every round moves on. *)
Fixpoint jwt_loop (fuel : nat) (value : text) (start last : nat) (output : text) : text * nat :=
  match fuel with
  | O => (output, last)
  | S fuel =>
      if start <? length value then
        if negb (is_at isJWTTokenByte value start) then jwt_loop fuel value (S start) last output
        else
          let stop := ahead isJWTTokenByte value (length value) (S start) in
          let token := slice value start stop in
          match jwtSpans token with
          | [] => jwt_loop fuel value stop last output
          | replacements =>
              jwt_loop fuel value stop stop
                (output ++ slice value last start ++ splice Mask token 0 replacements)
          end
      else (output, last)
  end.

Definition redactJWTs (value : text) : text :=
  let '(output, last) := jwt_loop (length value) value 0 0 [] in
  if last =? 0 then value else output ++ drop last value.

Definition containsValidJWT (value : text) : bool := negb (text_eqb (redactJWTs value) value).

(** ** URLs *)

(** What the code reads of a url.URL. *)
Record URL : Type := { u_Scheme : text; u_Host : text; u_EscapedPath : text }.

Definition isDatabaseScheme (scheme : text) : bool :=
  existsb (fun s => text_eqb (lower_text scheme) (lit s))
    ["mongodb"; "mongodb+srv"; "mysql"; "postgres"; "postgresql"; "redis"; "rediss"]%string.

Definition hex_value (c : ascii) : nat :=
  if is_digit c then N.to_nat (byte_of c) - 48
  else if is_lower c then N.to_nat (byte_of c) - 87 else N.to_nat (byte_of c) - 55.

(** url.PathUnescape *)
Fixpoint PathUnescape (s : text) : option text :=
  match s with
  | [] => Some []
  | c :: r =>
      if byte_is 37 c then
        match r with
        | a :: b :: r' =>
            if is_hex a && is_hex b then
              match PathUnescape r' with
              | Some t => Some (byte_nat (hex_value a * 16 + hex_value b) :: t)
              | None => None
              end
            else None
        | _ => None
        end
      else match PathUnescape r with Some t => Some (c :: t) | None => None end
  end.

Definition sensitivePathKeys : list string :=
  ["api-key"; "access-token"; "auth-token"; "client-secret"; "credential"; "credentials"; "email";
   "one-time-password"; "otp"; "pass"; "passwd"; "password"; "password-reset"; "phone"; "pwd";
   "refresh-token"; "reset-password"; "reset-token"; "secret"; "session"; "session-token"; "token";
   "verification-code"]%string.

Definition is_sensitive_key (key : text) : bool :=
  existsb (fun k => text_eqb key (lit k)) sensitivePathKeys.

Definition sensitivePathValue (value : text) : bool :=
  MatchString textEmailPattern value || containsSensitivePhone value ||
  MatchString textBearerPattern value || MatchString textBasicPattern value ||
  MatchString textSecretPattern value || containsValidJWT value || containsPaymentCard value.

Fixpoint safe_segments (segments : list text) (redactNext : bool) (previousKey : text) : list text :=
  match segments with
  | [] => []
  | raw :: segments =>
      match raw with
      | [] => raw :: safe_segments segments redactNext previousKey
      | _ =>
          match PathUnescape raw with
          | None => Mask :: safe_segments segments false previousKey
          | Some decoded =>
              if redactNext || sensitivePathValue decoded && negb (isTimestampPathValue previousKey decoded)
              then Mask :: safe_segments segments false []
              else
                let previousKey := normalizePathKey decoded in
                raw :: safe_segments segments (is_sensitive_key previousKey) previousKey
          end
      end
  end.

Fixpoint split_slashes (s part : text) : list text :=
  match s with
  | [] => [part]
  | c :: s => if byte_is 47 c then part :: split_slashes s [] else split_slashes s (part ++ [c])
  end.

Fixpoint join_slashes (l : list text) : text :=
  match l with [] => [] | [a] => a | a :: l => a ++ lit "/" ++ join_slashes l end.

Definition safePath (path : text) : text :=
  match path with
  | [] => lit "/"
  | _ => join_slashes (safe_segments (split_slashes path []) false [])
  end.

Definition SafeURL (u : option URL) : text :=
  match u with
  | None => []
  | Some u =>
      let scheme := match u_Scheme u with [] => [] | s => s ++ lit "://" end in
      let path := u_EscapedPath u in
      let path :=
        if isDatabaseScheme (u_Scheme u) && negb (text_eqb path []) && negb (text_eqb path (lit "/"))
        then lit "/" ++ Mask else safePath path in
      scheme ++ u_Host u ++ (match path with [] => lit "/" | _ => path end)
  end.

(** url.Parse, nothing for an error. *)
Context (Parse : text -> option URL).

Definition trimURLPunctuation (value : text) : text * text :=
  let kept := trim_right_set (byte_in ".,;!?)]}") value in
  (kept, drop (length kept) value).

Definition redactRelativeQuery (raw : text) : text :=
  let '(prefix, candidate) :=
    match raw with
    | c :: r => if byte_is 47 c then ([], raw) else ([c], r)
    | [] => ([], raw)
    end in
  let '(candidate, trailing) := trimURLPunctuation candidate in
  match Parse candidate with
  | None => prefix ++ lit "[REDACTED_URL]" ++ trailing
  | Some parsed => prefix ++ safePath (u_EscapedPath parsed) ++ trailing
  end.

(** ** Text *)

Definition hasImmediateWordBefore (value : text) (start : nat) (word : string) : bool :=
  let stop := back isASCIISpace value 64 start in
  let n := String.length word in
  if (stop <? n) || negb (EqualFold (slice value (stop - n) stop) word) then false
  else negb (is_before isASCIIWord value (stop - n)).

Definition isUnsignedDecimal (value : text) : bool :=
  let value := trim_set is_quote value in
  match value with [] => false | _ => forallb isASCIIDigit value end.

Definition redact_secret (value : text) (m : rmatch) : text :=
  let key := group_text value 1 m in
  let delimiter := group_text value 2 m in
  let secret := group_text value 3 m in
  if text_eqb delimiter (lit ":") && EqualFold key "pass" && isUnsignedDecimal secret &&
     hasImmediateWordBefore value (m_start m) "retry"
  then matched value m
  else key ++ delimiter ++ Mask.

Definition redactTextSecrets (value : text) : text := ReplaceAll textSecretPattern redact_secret value.

Definition redact_url (value : text) (m : rmatch) : text :=
  let '(candidate, trailing) := trimURLPunctuation (matched value m) in
  match Parse candidate with
  | None => lit "[REDACTED_URL]" ++ trailing
  | Some parsed =>
      if text_eqb (u_Host parsed) [] then lit "[REDACTED_URL]" ++ trailing
      else SafeURL (Some parsed) ++ trailing
  end.

Definition redact_header (value : text) (m : rmatch) : text :=
  let raw := matched value m in
  match index_byte (byte_is 58) raw (length raw) 0 with
  | None => Mask
  | Some idx => take (S idx) raw ++ lit " " ++ Mask
  end.

(** The passes of Text, in the order in which they run. *)
Definition Text (value : text) : text :=
  let value := ReplaceAll textURLPattern redact_url value in
  let value := ReplaceAll textRelativeQueryPattern
                 (fun v m => redactRelativeQuery (matched v m)) value in
  let value := ReplaceAll textSensitivePathPattern (fun v m => group_text v 1 m ++ Mask) value in
  let value := ReplaceAll textUserInfoPattern
                 (fun v m => group_text v 1 m ++ Mask ++ lit "@" ++ group_text v 2 m) value in
  let value := ReplaceAll textSensitiveHeaderPattern redact_header value in
  let value := ReplaceAll textBearerPattern (fun _ _ => lit "Bearer " ++ Mask) value in
  let value := ReplaceAll textBasicPattern (fun _ _ => lit "Basic " ++ Mask) value in
  let value := ReplaceAll textSecretJSONPattern
                 (fun v m => group_text v 1 m ++ [quote] ++ Mask ++ [quote]) value in
  let value := redactTextSecrets value in
  let value := ReplaceAll textLooseNumericSecretPattern
                 (fun v m => group_text v 1 m ++ lit " " ++ Mask) value in
  let value := redactJWTs value in
  let value := ReplaceAll textEmailPattern (fun _ _ => lit "[REDACTED_EMAIL]") value in
  let value := redactPaymentCards value in
  redactPhoneCandidates value.

(** ** Errors *)

Inductive error_kind : Type :=
| KCanceled | KDeadlineExceeded
| KURL (op url : text)           (* *url.Error *)
| KNet (timeout : bool)          (* another net.Error *)
| KOther.

(** An error with its text and the error it wraps. *)
Inductive log_error : Type := LError (kind : error_kind) (message : text) (cause : option log_error).

Fixpoint error_is (p : error_kind -> bool) (e : log_error) : bool :=
  let '(LError kind _ cause) := e in
  p kind || match cause with Some c => error_is p c | None => false end.

Definition is_canceled (k : error_kind) : bool := match k with KCanceled => true | _ => false end.
Definition is_deadline (k : error_kind) : bool := match k with KDeadlineExceeded => true | _ => false end.

(** Timeout() of an error that has it; a *url.Error asks the error it holds. *)
Fixpoint error_timeout (e : log_error) : bool :=
  let '(LError kind _ cause) := e in
  match kind with
  | KDeadlineExceeded => true
  | KNet timeout => timeout
  | KURL _ _ => match cause with Some c => error_timeout c | None => false end
  | _ => false
  end.

(** errors.As for *url.Error and for net.Error. *)
Fixpoint as_url (e : log_error) : option (text * text * option log_error) :=
  let '(LError kind _ cause) := e in
  match kind with
  | KURL op url => Some (op, url, cause)
  | _ => match cause with Some c => as_url c | None => None end
  end.

Fixpoint as_net (e : log_error) : option log_error :=
  let '(LError kind _ cause) := e in
  match kind with
  | KURL _ _ | KNet _ | KDeadlineExceeded => Some e
  | _ => match cause with Some c => as_net c | None => None end
  end.

Definition transportErrorClass (err : option log_error) : text :=
  match err with
  | None => lit "request failed"
  | Some e =>
      if error_is is_canceled e then lit "operation canceled"
      else if error_is is_deadline e then lit "operation timed out"
      else match as_net e with
           | Some n => if error_timeout n then lit "network timeout" else lit "network error"
           | None => lit "operation failed"
           end
  end.

(** strings.ToUpper *)
Context (ToUpper : text -> text).

Definition ErrorMessage (err : option log_error) : text :=
  match err with
  | None => []
  | Some e =>
      if error_is is_canceled e then lit "operation canceled"
      else if error_is is_deadline e then lit "operation timed out"
      else match as_url e with
           | Some (op, url, cause) =>
               let op := ToUpper (TrimSpace op) in
               let op := match op with [] => lit "HTTP" | _ => op end in
               let safeURL := match Parse url with Some parsed => SafeURL (Some parsed) | None => [] end in
               let classification := transportErrorClass cause in
               match safeURL with
               | [] => op ++ lit ": " ++ classification
               | _ => op ++ lit " " ++ safeURL ++ lit ": " ++ classification
               end
           | None =>
               let '(LError _ raw _) := e in
               let message := TrimSpace (Text raw) in
               match message with [] => lit "operation failed" | _ => message end
           end
  end.
End JWT.
