(* ===== verification/RedactTextProofs.v ===== *)
(** * Text, URLs and queries: what is masked

    JWTs and JWEs are masked wherever a token holds one; a path loses the
    segment behind a sensitive key; a query shows the values of allowed keys
    only, in one order; a secret assignment loses its value. *)

From S2P Require Import Prelude.
From S2P Require Import GoStrings.
From S2P Require Import RedactBytes.
From S2P Require Import GoIP.
From S2P Require Import RedactCards.
From S2P Require Import Regexp.
From S2P Require Import RedactPhones.
From S2P Require Import RedactText.

(** ** Tokens *)

Section JWT.
Context (Unmarshal : text -> option (gmap string member)).

Definition valid_token (candidate : text) : Prop :=
  validJWT Unmarshal candidate = true \/ validJWE Unmarshal candidate = true.

(** Segments follow each other, a dot between them. *)
Fixpoint segments_ok (last : nat) (segments : list span) : Prop :=
  match segments with
  | [] => True
  | (s, e) :: rest => last <= s /\ s <= e /\ segments_ok (S e) rest
  end.

Lemma segments_from_ok token segmentStart index :
  segmentStart <= index -> segments_ok segmentStart (segments_from token segmentStart index).
Proof.
  revert segmentStart index; induction token as [|c token IH]; intros ss i Hi; cbn; [lia|].
  case_match; [|apply IH; lia]. cbn. split_and!; [lia|lia|]. by apply IH.
Qed.

Lemma segments_ok_lookup last segments i p :
  segments_ok last segments -> segments !! i = Some p -> last <= p.1 <= p.2.
Proof.
  revert last i; induction segments as [|[s e] rest IH]; intros last [|i]; cbn; try done.
  - intros (? & ? & _) [= <-]. cbn. lia.
  - intros (? & ? & H) Hi. specialize (IH _ _ H Hi). lia.
Qed.

Lemma segments_ok_order last segments i j p q :
  segments_ok last segments -> segments !! i = Some p -> segments !! j = Some q -> i < j -> p.2 < q.1.
Proof.
  revert last i j; induction segments as [|[s e] rest IH]; intros last i j; [done|].
  intros (? & ? & H) Hi Hj Hij. destruct j as [|j]; [lia|]. cbn in Hj. destruct i as [|i].
  - cbn in Hi. injection Hi as <-. pose proof (segments_ok_lookup _ _ _ _ H Hj). cbn. lia.
  - apply (IH _ i j H); [done|done|lia].
Qed.

Lemma segments_from_bound token segmentStart index i p :
  segments_from token segmentStart index !! i = Some p -> segmentStart <= index ->
  p.2 <= index + length token.
Proof.
  revert segmentStart index i; induction token as [|c token IH]; intros ss k i; cbn.
  { destruct i; [|done]. intros [= <-] ?. cbn. lia. }
  case_match.
  - destruct i as [|i]; cbn; [intros [= <-] ?; cbn; lia|].
    intros Hp ?. specialize (IH _ _ _ Hp). lia.
  - intros Hp ?. specialize (IH _ _ _ Hp). lia.
Qed.

Lemma matched_width_spec token segments index width p :
  matched_width Unmarshal token segments index = Some (width, p) ->
  (width = 3 \/ width = 5) /\ window segments index width = Some p /\
  valid_token (slice token p.1 p.2).
Proof.
  unfold matched_width, valid_token.
  destruct (window segments index 5) as [[s5 e5]|] eqn:E5;
    [cbn [Nat.eqb]; destruct (validJWE _ _) eqn:H5; [intros [= <- <-]; auto|]|];
    (destruct (window segments index 3) as [[s3 e3]|] eqn:E3; [|done]);
    cbn [Nat.eqb]; (destruct (validJWT _ _) eqn:H3; [|done]); intros [= <- <-]; auto.
Qed.

Lemma matched_width_complete token segments index width s e :
  width = 3 /\ validJWT Unmarshal (slice token s e) = true \/
  width = 5 /\ validJWE Unmarshal (slice token s e) = true ->
  window segments index width = Some (s, e) -> matched_width Unmarshal token segments index <> None.
Proof.
  unfold matched_width. intros [[-> Hv]|[-> Hv]] Hw; rewrite Hw; cbn [Nat.eqb]; rewrite Hv;
    repeat case_match; done.
Qed.

Lemma window_inv segments index width s e :
  window segments index width = Some (s, e) ->
  exists a b, segments !! index = Some a /\ segments !! (index + width - 1) = Some b /\
    s = a.1 /\ e = b.2.
Proof. unfold window. repeat case_match; try done. intros [= <- <-]. eauto 10. Qed.

Section Windows.
Context (token : text) (segments : list span).
Hypothesis segments_wf : segments_ok 0 segments.

Lemma window_order i width s e j a :
  window segments i width = Some (s, e) -> 0 < width -> segments !! j = Some a -> i <= j ->
  s <= a.1 /\ (j < i + width -> a.1 <= e) /\ (i + width <= j -> e < a.1).
Proof.
  intros (p & q & Hp & Hq & -> & ->)%window_inv Hw Hj Hij.
  pose proof (segments_ok_lookup _ _ _ _ segments_wf Hp).
  pose proof (segments_ok_lookup _ _ _ _ segments_wf Hj).
  pose proof (segments_ok_lookup _ _ _ _ segments_wf Hq).
  split_and!.
  - destruct (decide (i = j)) as [->|]; [rewrite Hp in Hj; injection Hj as <-; done|].
    pose proof (segments_ok_order _ _ _ _ _ _ segments_wf Hp Hj ltac:(lia)). lia.
  - intros ?. destruct (decide (j = i + width - 1)) as [->|];
      [rewrite Hj in Hq; injection Hq as <-; lia|].
    pose proof (segments_ok_order _ _ _ _ _ _ segments_wf Hj Hq ltac:(lia)). lia.
  - intros ?. apply (segments_ok_order _ _ _ _ _ _ segments_wf Hq Hj). lia.
Qed.

Lemma jwt_windows_sound fuel index last :
  (forall a, segments !! index = Some a -> last <= a.1) ->
  in_order last (jwt_windows Unmarshal fuel token segments index) /\
  Forall (fun p => valid_token (slice token p.1 p.2) /\
                   exists b, b ∈ segments /\ p.2 = b.2)
         (jwt_windows Unmarshal fuel token segments index).
Proof.
  revert index last; induction fuel as [|fuel IH]; intros index last Hlast; cbn; [done|].
  destruct (Nat.ltb_spec index (length segments)) as [Hlt|]; [|done].
  destruct (lookup_lt_is_Some_2 _ _ Hlt) as [a Ha]. specialize (Hlast _ Ha).
  destruct (matched_width _ _ _ _) as [[width [s e]]|] eqn:E.
  - apply matched_width_spec in E as (Hw & Hwin & Hv).
    pose proof (window_inv _ _ _ _ _ Hwin) as (a' & b & Ha' & Hb & -> & ->).
    pose proof (eq_trans (eq_sym Ha) Ha') as [= <-].
    destruct (IH (index + width) b.2) as [Ho Hf].
    { intros c Hc. destruct (window_order _ _ _ _ _ _ Hwin ltac:(lia) Hc ltac:(lia)) as (_ & _ & H).
      specialize (H ltac:(lia)). lia. }
    pose proof (segments_ok_order _ _ _ _ _ _ segments_wf Ha Hb ltac:(lia)).
    pose proof (segments_ok_lookup _ _ _ _ segments_wf Ha).
    pose proof (segments_ok_lookup _ _ _ _ segments_wf Hb).
    split; [cbn; split_and!; [lia|lia|done]|]. constructor; [|done]. split; [done|].
    exists b. split; [by eapply list_elem_of_lookup_2|done].
  - apply IH. intros b Hb. pose proof (segments_ok_order _ _ _ _ _ _ segments_wf Ha Hb ltac:(lia)).
    pose proof (segments_ok_lookup _ _ _ _ segments_wf Ha). lia.
Qed.

(** A window that holds a token shares a segment with a masked one. *)
Lemma jwt_windows_complete fuel index i width s e :
  length segments <= index + fuel -> index <= i ->
  window segments i width = Some (s, e) ->
  width = 3 /\ validJWT Unmarshal (slice token s e) = true \/
  width = 5 /\ validJWE Unmarshal (slice token s e) = true ->
  exists p, p ∈ jwt_windows Unmarshal fuel token segments index /\ p.1 <= e /\ s <= p.2.
Proof.
  revert index; induction fuel as [|fuel IH]; intros index Hf Hi Hwin Hv.
  { apply window_inv in Hwin as (a & _ & Ha & _).
    pose proof (lookup_lt_Some (A:=span) _ _ _ Ha). lia. }
  cbn. pose proof (window_inv _ _ _ _ _ Hwin) as (a & b & Ha & Hb & -> & ->).
  pose proof (lookup_lt_Some (A:=span) _ _ _ Ha).
  destruct (Nat.ltb_spec index (length segments)) as [Hlt|]; [|lia].
  destruct (matched_width _ _ _ _) as [[w [s' e']]|] eqn:E.
  - apply matched_width_spec in E as (Hw & Hwin' & _).
    destruct (decide (i < index + w)) as [Hin|].
    + exists (s', e'). split; [by left|].
      destruct (window_order _ _ _ _ _ _ Hwin' ltac:(lia) Ha Hi) as (? & Hle & _).
      specialize (Hle Hin). pose proof (segments_ok_lookup _ _ _ _ segments_wf Ha).
      assert (a.1 <= b.2); [|cbn; lia].
      destruct (window_order _ _ _ _ _ _ Hwin ltac:(lia) Ha (le_n _)) as (_ & H' & _). apply H'. lia.
    + destruct (IH (index + w) ltac:(lia) ltac:(lia) Hwin Hv) as (p & Hp & Hov).
      exists p. split; [by right|done].
  - destruct (decide (i = index)) as [->|].
    + by apply (matched_width_complete _ _ _ _ _ _ Hv) in Hwin.
    + apply IH; [lia|lia|done|done].
Qed.
End Windows.

Lemma jwtSpans_sound token :
  in_order 0 (jwtSpans Unmarshal token) /\
  forall p, p ∈ jwtSpans Unmarshal token -> valid_token (slice token p.1 p.2) /\ p.2 <= length token.
Proof.
  pose proof (segments_from_ok token 0 0 (le_n 0)) as Hok.
  destruct (jwt_windows_sound token _ Hok (length (segments_from token 0 0)) 0 0) as [Ho Hf]; [lia|].
  split; [done|]. intros p Hp. rewrite List.Forall_forall in Hf.
  destruct (Hf p) as (Hv & b & Hb & Hpb); [by apply list_elem_of_In|]. split; [done|]. rewrite Hpb.
  apply list_elem_of_lookup in Hb as [i Hi]. apply segments_from_bound in Hi; lia.
Qed.

(** The tokens of a text, and what is masked in them. *)
Fixpoint text_spans (fuel : nat) (value : text) (start : nat) : list span :=
  match fuel with
  | O => []
  | S fuel =>
      if start <? length value then
        if negb (is_at isJWTTokenByte value start) then text_spans fuel value (S start)
        else
          let stop := ahead isJWTTokenByte value (length value) (S start) in
          map (shift start) (jwtSpans Unmarshal (slice value start stop)) ++ text_spans fuel value stop
      else []
  end.

Definition token_spans (value : text) : list span := text_spans (length value) value 0.

Lemma ahead_bound p value budget i : i <= length value -> ahead p value budget i <= length value.
Proof.
  revert i; induction budget as [|b IH]; intros i Hi; cbn; [done|].
  case_match eqn:E; [|done]. apply IH. apply is_at_lt in E. lia.
Qed.

Lemma text_spans_spec fuel value start :
  start <= length value ->
  in_order start (text_spans fuel value start) /\
  Forall (fun p => valid_token (slice value p.1 p.2) /\
    forall k, p.1 <= k < p.2 -> is_at isJWTTokenByte value k = true) (text_spans fuel value start).
Proof.
  revert start; induction fuel as [|fuel IH]; intros start Hs; cbn [text_spans]; [done|].
  destruct (Nat.ltb_spec start (length value)) as [Hlt|]; [|done].
  destruct (is_at isJWTTokenByte value start) eqn:Ht; cbn [negb].
  2:{ destruct (IH (S start)) as [Ho Hf]; [lia|]. split; [|done]. eapply in_order_weaken; [|exact Ho]. lia. }
  set (stop := ahead isJWTTokenByte value (length value) (S start)).
  pose proof (ahead_ge isJWTTokenByte value (length value) (S start) : S start <= stop).
  pose proof (ahead_bound isJWTTokenByte value (length value) (S start) Hlt : stop <= length value).
  assert (Hlen : length (slice value start stop) = stop - start) by (by apply slice_length).
  destruct (jwtSpans_sound (slice value start stop)) as [Ho Hv].
  destruct (IH stop) as [Ho' Hf']; [done|]. split.
  - apply (in_order_app _ stop); [|  |lia|done].
    + rewrite <- (Nat.add_0_r start) at 1. by apply in_order_shift.
    + intros p Hp. apply list_elem_of_In, in_map_iff in Hp as (q & <- & Hq%list_elem_of_In).
      destruct (Hv _ Hq) as [_ Hb]. cbn. lia.
  - apply Forall_app. split; [|done]. apply List.Forall_forall. intros p Hp.
    apply in_map_iff in Hp as (q & <- & Hq%list_elem_of_In).
    destruct (Hv _ Hq) as [Hq1 Hb]. cbn [shift fst snd]. split.
    + destruct (le_lt_dec q.1 q.2).
      * by rewrite slice_slice in Hq1 by lia.
      * rewrite slice_nil in Hq1 by lia. by rewrite slice_nil by lia.
    + intros k Hk. destruct (decide (k = start)) as [->|]; [done|].
      apply (ahead_run _ value (length value) (S start)). fold stop. lia.
Qed.

Lemma jwt_loop_spec fuel value start last output out last' :
  start <= length value -> last <= start ->
  jwt_loop Unmarshal fuel value start last output = (out, last') ->
  out ++ drop last' value = output ++ splice Mask value last (text_spans fuel value start) /\
  (last' = 0 -> last = 0 /\ text_spans fuel value start = []).
Proof.
  revert start last output; induction fuel as [|fuel IH]; intros start last output Hs Hl;
    cbn [jwt_loop text_spans].
  { intros [= <- <-]. auto. }
  destruct (Nat.ltb_spec start (length value)) as [Hlt|]; [|intros [= <- <-]; auto].
  destruct (is_at isJWTTokenByte value start) eqn:Ht; cbn [negb]; [|apply IH; lia].
  set (stop := ahead isJWTTokenByte value (length value) (S start)).
  pose proof (ahead_ge isJWTTokenByte value (length value) (S start) : S start <= stop).
  pose proof (ahead_bound isJWTTokenByte value (length value) (S start) Hlt : stop <= length value).
  assert (Hlen : length (slice value start stop) = stop - start) by (by apply slice_length).
  destruct (jwtSpans_sound (slice value start stop)) as [Ho Hv].
  destruct (text_spans_spec fuel value stop) as [Hr _]; [done|].
  pose proof (splice_part Mask value start stop 0 (jwtSpans Unmarshal (slice value start stop))
                (text_spans fuel value stop) ltac:(lia) Ho) as Hsp.
  rewrite Nat.add_0_r in Hsp.
  assert (Hin : forall p, p ∈ jwtSpans Unmarshal (slice value start stop) -> start + p.2 <= stop).
  { intros p Hp. destruct (Hv _ Hp) as [_ Hb]. lia. }
  specialize (Hsp Hin Hr).
  assert (Hall : in_order start (map (shift start) (jwtSpans Unmarshal (slice value start stop)) ++
                                 text_spans fuel value stop)).
  { apply (in_order_app _ stop); [| |lia|done].
    - rewrite <- (Nat.add_0_r start) at 1. by apply in_order_shift.
    - intros p Hp. apply list_elem_of_In, in_map_iff in Hp as (q & <- & Hq%list_elem_of_In).
      by apply Hin. }
  rewrite (splice_skip _ _ last start) by done. rewrite Hsp.
  destruct (jwtSpans Unmarshal (slice value start stop)) as [|q qs] eqn:E.
  - intros (H1 & H2)%IH; [|lia|lia]. cbn [splice map app]. split; [|exact H2].
    rewrite H1. rewrite (splice_skip _ _ last stop) by (lia || done).
    rewrite (slice_app value last start stop) by lia. rewrite <- !(assoc_L (++)). do 2 f_equal.
  - intros (H1 & H2)%IH; [|lia|lia]. split; [|intros [? _]%H2; lia].
    rewrite H1. by rewrite <- !(assoc_L (++)).
Qed.

(** C9: redactJWTs masks tokens and nothing else: its result is the text
    with disjoint spans replaced by the mask, in order, each of which is a
    JWT or a JWE inside one run of token characters; and three or five
    segments of such a run that are a JWT or a JWE never survive whole. *)
Theorem redactJWTs_masks_tokens value :
  redactJWTs Unmarshal value = splice Mask value 0 (token_spans value) /\
  in_order 0 (token_spans value) /\
  (forall p, p ∈ token_spans value -> valid_token (slice value p.1 p.2) /\
     forall k, p.1 <= k < p.2 -> is_at isJWTTokenByte value k = true) /\
  forall token i width s e, window (segments_from token 0 0) i width = Some (s, e) ->
    width = 3 /\ validJWT Unmarshal (slice token s e) = true \/
    width = 5 /\ validJWE Unmarshal (slice token s e) = true ->
    exists p, p ∈ jwtSpans Unmarshal token /\ p.1 <= e /\ s <= p.2.
Proof.
  destruct (text_spans_spec (length value) value 0) as [Ho Hf]; [lia|]. split_and!.
  - unfold redactJWTs. destruct (jwt_loop _ _ _ _ _ _) as [out last] eqn:E.
    apply jwt_loop_spec in E as [E E0]; [|lia..].
    destruct (Nat.eqb_spec last 0) as [Hl|_]; [|exact E].
    unfold token_spans. by destruct (E0 Hl) as [_ ->].
  - done.
  - intros p Hp. rewrite List.Forall_forall in Hf. by apply Hf, list_elem_of_In.
  - intros token i width s e Hw Hv. apply (jwt_windows_complete token _ (segments_from_ok token 0 0 (le_n 0)) _ 0 i width); [lia|lia|done|done].
Qed.
End JWT.

(** ** Paths *)

Section Path.
Context (Unmarshal : text -> option (gmap string member)).

Lemma safe_segments_app pre rest redactNext previousKey :
  exists redactNext' previousKey',
    safe_segments Unmarshal (pre ++ rest) redactNext previousKey =
    safe_segments Unmarshal pre redactNext previousKey ++
    safe_segments Unmarshal rest redactNext' previousKey'.
Proof.
  revert redactNext previousKey; induction pre as [|raw pre IH]; intros r k; [by exists r, k|].
  cbn -[sensitivePathValue]. destruct raw as [|c raw].
  - destruct (IH r k) as (r' & k' & ->). by exists r', k'.
  - destruct (PathUnescape _); [case_match|];
      edestruct IH as (r' & k' & ->); by exists r', k'.
Qed.

Lemma safe_segments_each segments redactNext previousKey :
  Forall2 (fun raw out => out = raw \/ out = Mask) segments
          (safe_segments Unmarshal segments redactNext previousKey).
Proof.
  revert redactNext previousKey; induction segments as [|raw segments IH]; intros r k; [constructor|].
  cbn -[sensitivePathValue]. destruct raw as [|c raw]; [constructor; auto|].
  destruct (PathUnescape _); [case_match|]; constructor; auto.
Qed.

Lemma safe_segments_length segments redactNext previousKey :
  length (safe_segments Unmarshal segments redactNext previousKey) = length segments.
Proof. symmetry. apply (Forall2_length _ _ _ (safe_segments_each segments redactNext previousKey)). Qed.

Lemma safe_segments_empties empties rest redactNext previousKey :
  Forall (eq []) empties ->
  safe_segments Unmarshal (empties ++ rest) redactNext previousKey =
  empties ++ safe_segments Unmarshal rest redactNext previousKey.
Proof. induction 1 as [|e l <- _ IH]; cbn -[sensitivePathValue]; [done|]. by rewrite IH. Qed.

Lemma split_slashes_some path part : split_slashes path part <> [].
Proof. revert part; induction path as [|c path IH]; intros part; cbn; [done|]. by case_match. Qed.

Lemma join_split path part : join_slashes (split_slashes path part) = part ++ path.
Proof.
  revert part; induction path as [|c path IH]; intros part; cbn; [by rewrite app_nil_r|].
  destruct (byte_is 47 c) eqn:E.
  - assert (c = "/"%char) as -> by (revert E; by destruct c as [[] [] [] [] [] [] [] []]).
    assert (split_slashes path [] <> []) by (apply split_slashes_some).
    specialize (IH []). cbn. destruct (split_slashes path []); [done|]. by rewrite IH.
  - rewrite IH. by rewrite <- (assoc_L (++)).
Qed.

(** safePath keeps the shape of a path, a segment of which is kept or
    masked, and never shows the value behind a sensitive key: of a segment
    that spells such a key and the next segment that is not empty at least
    one is masked. *)
Theorem safePath_masks_after_key path pre key empties raw post decoded :
  path <> [] -> split_slashes path [] = pre ++ key :: empties ++ raw :: post ->
  key <> [] -> raw <> [] -> Forall (eq []) empties ->
  PathUnescape key = Some decoded -> is_sensitive_key (normalizePathKey decoded) = true ->
  exists out, safePath Unmarshal path = join_slashes out /\
    path = join_slashes (pre ++ key :: empties ++ raw :: post) /\
    Forall2 (fun r o => o = r \/ o = Mask) (pre ++ key :: empties ++ raw :: post) out /\
    (out !! length pre = Some Mask \/ out !! (length pre + S (length empties)) = Some Mask).
Proof.
  intros Hpath Hsplit Hkey Hraw He Hdec Hs.
  exists (safe_segments Unmarshal (split_slashes path []) false []).
  rewrite <- Hsplit, join_split. split_and!.
  - by destruct path.
  - done.
  - apply safe_segments_each.
  - rewrite Hsplit. destruct (safe_segments_app pre (key :: empties ++ raw :: post) false [])
      as (r & k & ->).
    rewrite <- (safe_segments_length pre false []).
    rewrite lookup_app_r, Nat.sub_diag by lia. rewrite lookup_app_r by lia.
    replace (_ + _ - _) with (S (length empties)) by lia.
    destruct key as [|c key]; [done|]. cbn [safe_segments]. rewrite Hdec.
    case_match; [by left|]. right. rewrite Hs.
    rewrite lookup_cons_ne_0 by done. cbn [Nat.pred]. rewrite safe_segments_empties by done.
    rewrite lookup_app_r, Nat.sub_diag by lia.
    destruct raw as [|d raw]; [done|]. cbn [safe_segments]. by case_match.
Qed.
End Path.

(** ** Queries *)

(** Two queries that differ in values the allowlist hides. *)
Definition same_shown (allow : option (gmap string bool)) (a b : values) : Prop :=
  forall k, (is_Some (a !! k) <-> is_Some (b !! k)) /\
    (allowed (default DefaultQueryAllowlist allow) k = true -> a !! k = b !! k).

Lemma QueryMap_same_shown allow a b :
  same_shown allow a b -> QueryMap a allow = QueryMap b allow.
Proof.
  intros H. unfold QueryMap.
  assert (Hempty : a = ∅ <-> b = ∅).
  { rewrite !map_empty. split; intros Hn k; apply eq_None_not_Some; intros Hk;
      apply (H k) in Hk; rewrite Hn in Hk; by destruct Hk. }
  do 2 case_decide; [done|tauto|tauto|]. f_equal.
  apply map_eq. intros k. rewrite !map_lookup_imap. destruct (H k) as [Hk Hv].
  destruct (allowed _ k) eqn:Hal; [by rewrite Hv|].
  destruct (a !! k), (b !! k); cbn; try done; exfalso.
  - destruct (proj1 Hk ltac:(by eexists)) as [? [=]].
  - destruct (proj2 Hk ltac:(by eexists)) as [? [=]].
Qed.

(** Query shows no value that is not allowed: two raw queries with the
    same keys whose allowed values agree are rendered alike. *)
Theorem Query_hides_values ParseQuery allow raw1 raw2 a b :
  raw1 <> EmptyString -> raw2 <> EmptyString ->
  ParseQuery raw1 = Some a -> ParseQuery raw2 = Some b -> same_shown allow a b ->
  Query ParseQuery raw1 allow = Query ParseQuery raw2 allow.
Proof.
  intros H1 H2 Ha Hb Hs. unfold Query.
  rewrite (proj2 (String.eqb_neq _ _) H1), (proj2 (String.eqb_neq _ _) H2), Ha, Hb.
  by rewrite (QueryMap_same_shown _ _ _ Hs).
Qed.

(** the order in which the runtime visits the map does not reach the
    result: every order of the keys is rendered alike, each key once. *)
Theorem render_sorted_order m keys :
  keys ≡ₚ (map_to_list m).*1 ->
  render_sorted m keys = render_sorted m (map_to_list m).*1 /\ NoDup keys.
Proof.
  intros Hp. split; [|rewrite Hp; apply NoDup_fst_map_to_list].
  unfold render_sorted. f_equal.
  apply (StronglySorted_unique String.le).
  - apply (StronglySorted_merge_sort _).
  - apply (StronglySorted_merge_sort _).
  - by rewrite !merge_sort_Permutation.
Qed.

(** ** Secrets *)

(** The only assignment that is kept: a counter of retries. *)
Definition retry_counter (value : text) (m : rmatch) : bool :=
  text_eqb (group_text value 2 m) (lit ":") && EqualFold (group_text value 1 m) "pass" &&
  isUnsignedDecimal (group_text value 3 m) && hasImmediateWordBefore value (m_start m) "retry".

(** no secret assignment is missed: whatever in a text the pattern of
    secrets matches overlaps a span that redactTextSecrets rewrites to the key,
    its delimiter and the mask, or that is a numeric retry counter; the spans
    are disjoint, and the text between them is kept. *)
Theorem secrets_masked value :
  let ms := FindAll textSecretPattern value in
  redactTextSecrets value = substitute value 0 (redact_secret value) ms /\
  in_order 0 (map m_span ms) /\
  forall k j, k <= length value -> matches value textSecretPattern k j ->
    exists m, In m ms /\ m_start m <= k < m_end m /\
      (retry_counter value m = true \/
       redact_secret value m = group_text value 1 m ++ group_text value 2 m ++ Mask).
Proof.
  intros ms. split_and!; [done|by apply find_all_in_order|].
  intros k j Hk Hm.
  destruct (find_all_complete textSecretPattern value eq_refl (S (length value)) 0 k j)
    as (m & Hin & Hov); [lia|lia|done|done|].
  exists m. split_and!; [done|lia|lia|]. unfold redact_secret. fold (retry_counter value m).
  destruct (retry_counter value m); auto.
Qed.
