(* ===== verification/RedactWitness.v ===== *)
(** * Redaction on concrete texts

    The theorems about redaction applied to texts of the kind the code meets,
    and runs of the definitions on the examples of its comments. *)

From S2P Require Import Prelude.
From S2P Require Import GoStrings.
From S2P Require Import RedactBytes.
From S2P Require Import GoIP.
From S2P Require Import RedactCards.
From S2P Require Import RedactCardsProofs.
From S2P Require Import Regexp.
From S2P Require Import RedactPhones.
From S2P Require Import RedactPhonesProofs.
From S2P Require Import RedactText.
From S2P Require Import RedactTextProofs.

(** ** Cards *)

Example redact_compact : redactPaymentCards (lit "pan 4111111111111111, ok") = lit "pan [REDACTED_CARD], ok".
Proof. vm_compute. reflexivity. Qed.
Example redact_amex : redactPaymentCards (lit "3782 822463 10005") = lit "[REDACTED_CARD]".
Proof. vm_compute. reflexivity. Qed.
Example keep_reference : redactPaymentCards (lit "ref-4111111111111111") = lit "ref-4111111111111111".
Proof. vm_compute. reflexivity. Qed.
Example keep_order : redactPaymentCards (lit "order_id=4111111111111111") = lit "order_id=4111111111111111".
Proof. vm_compute. reflexivity. Qed.
Example keep_epoch : redactPaymentCards (lit "timestamp: 1700000000006") = lit "timestamp: 1700000000006".
Proof. vm_compute. reflexivity. Qed.
Example camel_label : redactPaymentCards (lit "my_card4111111111111111") = lit "my_card[REDACTED_CARD]".
Proof. vm_compute. reflexivity. Qed.

Lemma run_decide value s e :
  bool_decide (s < e) && forallb (is_at isASCIIDigit value) (seq s (e - s)) &&
  negb (is_before isASCIIDigit value s) && negb (is_at isASCIIDigit value e) = true ->
  digit_run value s e.
Proof.
  rewrite !andb_true_iff, !negb_true_iff, forallb_forall, bool_decide_eq_true.
  intros [[[? Hrun] ?] ?]. split_and!; try done. intros k Hk. apply Hrun, in_seq. lia.
Qed.

Lemma compact_cards_masked_witness :
  exists s' e', (s', e') ∈ card_spans (lit "pan 4111111111111111, ok") /\ s' <= 4 /\ 20 <= e'.
Proof.
  apply (compact_cards_masked (lit "pan 4111111111111111, ok") 4 20).
  - apply run_decide. vm_compute. reflexivity.
  - lia.
  - vm_compute. reflexivity.
  - vm_compute. reflexivity.
  - vm_compute. reflexivity.
  - vm_compute. reflexivity.
Defined.

Lemma validLuhn_one_digit_witness :
  validLuhn (lit "41111111" ++ "1"%char :: lit "1111111") = true /\
  validLuhn (lit "41111111" ++ "7"%char :: lit "1111111") = false.
Proof.
  split; [vm_compute; reflexivity|].
  apply (validLuhn_one_digit (lit "41111111") "1" "7" (lit "1111111"));
    [vm_compute; reflexivity|vm_compute; reflexivity|discriminate|vm_compute; reflexivity].
Defined.

(** ** Phones *)

Example bare_mobile_masked : redactBareIndianMobiles (lit "call 9876543210 now") = lit "call [REDACTED_PHONE] now".
Proof. vm_compute. reflexivity. Qed.
Example order_number_kept : redactBareIndianMobiles (lit "order_id: 9876543210") = lit "order_id: 9876543210".
Proof. vm_compute. reflexivity. Qed.
Example two_phones : redactPhoneCandidates (lit "phone: 98765 43210 98765 43211") = lit "phone: [REDACTED_PHONE] [REDACTED_PHONE]".
Proof. vm_compute. reflexivity. Qed.
Example area_code : redactPhoneCandidates (lit "tel (415) 555-1234") = lit "tel [REDACTED_PHONE]".
Proof. vm_compute. reflexivity. Qed.
Example call_argument : redactPhoneCandidates (lit "f(1234567890)") = lit "f(1234567890)".
Proof. vm_compute. reflexivity. Qed.
Example uuid_kept :
  redactPhoneCandidates (lit "id 550e8400-e29b-41d4-a716-446655440000") =
  lit "id 550e8400-e29b-41d4-a716-446655440000".
Proof. vm_compute. reflexivity. Qed.

(** ** Texts *)

(** A decoder that finds the member alg in whatever it is given, and a parser
    that finds one URL. *)
Definition some_object (bytes : text) : option (gmap string member) := Some {[ "alg"%string := JValue ]}.
Definition one_url (raw : text) : option URL := Some (Build_URL (lit "https") (lit "h.example") (lit "/v1/token/abc")).

Example text_redacted :
  Text some_object one_url (lit "https://h.example/v1/token/abc?q=1 password: 'x' retry pass: 3 mail a.b@c.io eyJh.eyJi.s") =
  lit "https://h.example/v1/token/[REDACTED] password:[REDACTED] retry pass: 3 mail [REDACTED_EMAIL] [REDACTED]".
Proof. vm_compute. reflexivity. Qed.
Example header_redacted :
  Text some_object one_url (lit "Cookie: a=b") = lit "Cookie: [REDACTED]".
Proof. vm_compute. reflexivity. Qed.
Example header_value : HeaderValue (lit "X-Api_Key") (lit "k") = Mask.
Proof. vm_compute. reflexivity. Qed.
Example error_message :
  ErrorMessage some_object one_url (map upper_byte)
    (Some (LError (KURL (lit "Get") (lit "https://u:p@h.example/v1/token/abc?q=1")) []
             (Some (LError (KNet true) (lit "i/o timeout") None)))) =
  lit "GET https://h.example/v1/token/[REDACTED]: network timeout".
Proof. vm_compute. reflexivity. Qed.

Lemma safePath_masks_after_key_witness :
  exists out, safePath some_object (lit "/v1/Token/abc") = join_slashes out /\
    lit "/v1/Token/abc" = join_slashes ([[]; lit "v1"] ++ lit "Token" :: [] ++ lit "abc" :: []) /\
    Forall2 (fun r o => o = r \/ o = Mask) ([[]; lit "v1"] ++ lit "Token" :: [] ++ lit "abc" :: []) out /\
    (out !! 2 = Some Mask \/ out !! 3 = Some Mask).
Proof.
  apply (safePath_masks_after_key some_object (lit "/v1/Token/abc") [[]; lit "v1"] (lit "Token") []
           (lit "abc") [] (lit "Token")); try discriminate; try reflexivity.
  constructor.
Defined.

(** A parser of one key and one value. *)
Definition parse_pair (raw : string) : option (gmap string (list string)) :=
  match cut "=" raw with Some (k, v) => Some {[ k := [v] ]} | None => None end.

Lemma Query_hides_values_witness :
  Query parse_pair "email=a" None = Query parse_pair "email=b" None /\
  Query parse_pair "email=a" None = "email=[REDACTED]"%string.
Proof.
  split; [|vm_compute; reflexivity].
  apply (Query_hides_values parse_pair None "email=a" "email=b"
           {[ "email"%string := ["a"%string] ]} {[ "email"%string := ["b"%string] ]});
    [discriminate|discriminate|reflexivity|reflexivity|].
  intros k. destruct (decide (k = "email"%string)) as [->|Hk].
  - split; [split; intros _; eexists; reflexivity|]. vm_compute. discriminate.
  - rewrite !lookup_singleton_ne by congruence. done.
Defined.

Lemma render_sorted_order_witness :
  render_sorted {[ "a"%string := "1"%string; "b"%string := "2"%string ]} ["b"%string; "a"%string] =
  render_sorted {[ "a"%string := "1"%string; "b"%string := "2"%string ]}
    (map_to_list (M := gmap string string) {[ "a"%string := "1"%string; "b"%string := "2"%string ]}).*1 /\
  NoDup ["b"%string; "a"%string].
Proof.
  apply (render_sorted_order {[ "a"%string := "1"%string; "b"%string := "2"%string ]} ["b"%string; "a"%string]).
  apply (bool_decide_unpack _). vm_compute. exact I.
Defined.
