(* ===== verification/ProtoPath.v ===== *)
(** * package protofetch: lexical paths

    The operations of path/filepath the fetcher uses, on Unix paths: Clean,
    Join, Rel, and escapesRoot of protofetch/fetch.go.  A path is a string, its
    components what strings.Split gives for the separator. *)

From S2P Require Import Prelude.
From S2P Require Import GoStrings.

(** ** Components *)

Definition is_slash (c : ascii) : bool := Ascii.eqb c "/".

(** strings.Split(path, "/") *)
Fixpoint components (s : string) : list string :=
  match s with
  | EmptyString => [EmptyString]
  | String c r =>
      if is_slash c then EmptyString :: components r
      else match components r with x :: l => String c x :: l | [] => [String c EmptyString] end
  end.

Definition slashless (x : string) : Prop := str_forallb (fun c => negb (is_slash c)) x = true.

(** ** Clean, Join and Rel *)

Definition rooted (path : string) : bool := has_prefix "/" path.

(** The components Clean keeps, in reverse. *)
Fixpoint clean_onto (abs : bool) (l : list string) (stack : list string) : list string :=
  match l with
  | [] => stack
  | x :: l =>
      clean_onto abs l
        (if bool_decide (x = EmptyString \/ x = ".") then stack
         else if bool_decide (x = "..") then
           match stack with
           | [] => if abs then [] else [".."]
           | y :: rest => if bool_decide (y = "..") then ".." :: stack else rest
           end
         else x :: stack)
  end.

Definition clean_components (path : string) : list string :=
  reverse (clean_onto (rooted path) (components path) []).

(** The path with these components. *)
Definition render (abs : bool) (l : list string) : string :=
  if abs then "/" +:+ join "/" l else match l with [] => "." | _ => join "/" l end.

Definition Clean (path : string) : string := render (rooted path) (clean_components path).

(** filepath.Join of two elements. *)
Definition Join (a b : string) : string :=
  if bool_decide (a = EmptyString) then (if bool_decide (b = EmptyString) then EmptyString else Clean b)
  else Clean (a +:+ "/" +:+ b).

(** The components of a clean path; Rel counts those of "." as none for its
    base and as one for its target. *)
Definition path_components (path : string) : list string := filter (fun x => x <> EmptyString) (components path).

(** The first differing elements of Rel. *)
Fixpoint first_difference (base targ : list string) : list string * list string :=
  match base, targ with
  | b :: base', t :: targ' => if bool_decide (b = t) then first_difference base' targ' else (base, targ)
  | _, _ => (base, targ)
  end.

(** filepath.Rel; [None] for its error. *)
Definition Rel (basepath targpath : string) : option string :=
  let base := Clean basepath in
  let targ := Clean targpath in
  if bool_decide (targ = base) then Some "."
  else if negb (Bool.eqb (rooted base) (rooted targ)) then None
  else
    let '(b, t) := first_difference (if bool_decide (base = ".") then [] else path_components base) (path_components targ) in
    match b with
    | [] => Some (join "/" t)
    | x :: _ => if bool_decide (x = "..") then None else Some (join "/" (replicate (length b) ".." ++ t))
    end.

Definition IsAbs (path : string) : bool := rooted path.

(** Go's [escapesRoot]. *)
Definition escapesRoot (path : string) : bool :=
  let clean := Clean path in
  bool_decide (clean = "..") || has_prefix "../" clean.

(** ** Splitting and joining *)

Lemma components_nonempty s : components s <> [].
Proof. destruct s as [|c r]; cbn; [done|]. destruct (is_slash c); [done|]. by destruct (components r). Qed.

Lemma components_slashless s : Forall slashless (components s).
Proof.
  induction s as [|c r IH]; cbn; [by repeat constructor|]. destruct (is_slash c) eqn:Ec; [by constructor|].
  destruct (components r) as [|x l]; inversion IH; subst; constructor; try done; unfold slashless in *; cbn; by rewrite Ec.
Qed.

Lemma components_app x s : slashless x ->
  components (x +:+ s) = match components s with y :: l => (x +:+ y) :: l | [] => [x] end.
Proof.
  induction x as [|c x IH]; cbn; intros Hx; [by destruct (components s) eqn:E; [destruct (components_nonempty s)|]|].
  unfold slashless in Hx. cbn in Hx. destruct (is_slash c); [done|]. rewrite IH by done.
  destruct (components s) eqn:E; [by destruct (components_nonempty s)|done].
Qed.

Lemma join_components s : join "/" (components s) = s.
Proof.
  induction s as [|c r IH]; [done|]. cbn [components]. destruct (is_slash c) eqn:Ec.
  - apply Ascii.eqb_eq in Ec as ->. destruct (components r) as [|y l] eqn:E; [by destruct (components_nonempty r)|].
    change (join "/" ("" :: y :: l)) with ("/" +:+ join "/" (y :: l)). by rewrite IH.
  - destruct (components r) as [|y l] eqn:E; [by destruct (components_nonempty r)|].
    rewrite <- IH. by destruct l.
Qed.

Lemma components_join l : l <> [] -> Forall slashless l -> components (join "/" l) = l.
Proof.
  induction l as [|x l IH]; [done|]. intros _ Hl. inversion Hl as [|? ? Hx Hl']; subst. destruct l as [|y l].
  - cbn. pose proof (components_app x "" Hx) as H. rewrite sapp_nil_r in H. cbn in H. by rewrite sapp_nil_r in H.
  - change (join "/" (x :: y :: l)) with (x +:+ String "/" (join "/" (y :: l))).
    rewrite components_app by done.
    change (components (String "/" (join "/" (y :: l)))) with (EmptyString :: components (join "/" (y :: l))).
    by rewrite IH, sapp_nil_r.
Qed.

(** ** Clean paths *)

Definition plain_component (x : string) : Prop := slashless x /\ x <> EmptyString /\ x <> "." /\ x <> "..".

(** Components in the form Clean leaves them: parents of a relative path first. *)
Definition cleaned (abs : bool) (l : list string) : Prop :=
  exists n l', l = replicate n ".." ++ l' /\ Forall plain_component l' /\ (abs = true -> n = 0).

Lemma cleaned_snoc abs l x : cleaned abs l -> plain_component x -> cleaned abs (l ++ [x]).
Proof.
  intros (n & l' & -> & Hl & Hn) Hx. exists n, (l' ++ [x]). rewrite app_assoc. split_and!; [done| |done].
  apply Forall_app. split; [done|]. by constructor.
Qed.

Lemma cleaned_nil abs : cleaned abs [].
Proof. by exists 0, []. Qed.

Lemma cleaned_parents n : cleaned false (replicate n "..").
Proof. exists n, []. by rewrite app_nil_r. Qed.

(** A parent removes the last component that is not one. *)
Lemma cleaned_parent abs y stack : cleaned abs (reverse (y :: stack)) ->
  cleaned abs (reverse (if bool_decide (y = "..") then ".." :: y :: stack else stack)).
Proof.
  rewrite !reverse_cons. intros (n & l' & E & Hl & Hn). destruct l' as [|z l'] using rev_ind.
  - rewrite app_nil_r in E. destruct n as [|n]; [by apply app_eq_nil in E as [_ ?]|]. rewrite replicate_S_end in E.
    apply app_inj_tail in E as [Er ->]. rewrite bool_decide_true by done. rewrite !reverse_cons, Er, <- !replicate_S_end.
    destruct abs; [by specialize (Hn eq_refl)|]. apply cleaned_parents.
  - rewrite app_assoc in E. apply app_inj_tail in E as [Er ->]. apply Forall_app in Hl as [Hl Hz].
    inversion Hz as [|? ? (_ & _ & _ & Hy)]; subst. rewrite bool_decide_false by done. rewrite Er. by exists n, l'.
Qed.

Lemma clean_onto_cleaned abs l stack : Forall slashless l -> cleaned abs (reverse stack) ->
  cleaned abs (reverse (clean_onto abs l stack)).
Proof.
  revert stack. induction l as [|x l IH]; intros stack Hl Hs; [done|]. inversion Hl; subst. cbn [clean_onto]. apply IH; [done|].
  case_bool_decide as Hd1; [done|]. case_bool_decide as Hd2; [subst|].
  - destruct stack as [|y rest]; [|by apply cleaned_parent]. destruct abs; [apply cleaned_nil|]. by apply (cleaned_parents 1).
  - rewrite reverse_cons. apply cleaned_snoc; [done|]. split_and!; [done|..]; tauto.
Qed.

Lemma clean_components_cleaned path : cleaned (rooted path) (clean_components path).
Proof. apply clean_onto_cleaned; [apply components_slashless|apply cleaned_nil]. Qed.

Lemma clean_onto_plain abs l stack : Forall plain_component l -> clean_onto abs l stack = reverse l ++ stack.
Proof.
  revert stack. induction l as [|x l IH]; intros stack Hl; [done|]. inversion Hl as [|? ? (_ & H1 & H2 & H3)]; subst.
  cbn [clean_onto]. rewrite (bool_decide_false (_ \/ _)), bool_decide_false, IH, reverse_cons by tauto. by rewrite <- app_assoc.
Qed.

Lemma clean_onto_parents n l : clean_onto false (replicate n ".." ++ l) [] = clean_onto false l (replicate n "..").
Proof.
  assert (forall m, clean_onto false (replicate n ".." ++ l) (replicate m "..") = clean_onto false l (replicate (n + m) "..")) as H.
  { induction n as [|n IH]; intros m; [done|]. cbn [replicate app clean_onto].
    rewrite (bool_decide_false (_ \/ _)) by (intros [?|?]; done). rewrite (bool_decide_true (".." = "..")) by done.
    assert (match replicate m ".." with [] => [".."] | y :: rest => if bool_decide (y = "..") then ".." :: replicate m ".." else rest end
            = replicate (S m) "..") as -> by by destruct m.
    rewrite IH. f_equal. f_equal. lia. }
  specialize (H 0). by rewrite Nat.add_0_r in H.
Qed.

Lemma cleaned_slashless abs l : cleaned abs l -> Forall slashless l.
Proof.
  intros (n & l' & -> & Hl & _). apply Forall_app. split; [by apply Forall_replicate|]. eapply Forall_impl; [exact Hl|]. by intros x [? _].
Qed.

Lemma cleaned_fixed abs l : cleaned abs l -> reverse (clean_onto abs l []) = l.
Proof.
  intros (n & l' & -> & Hl & Hn). destruct abs.
  - rewrite (Hn eq_refl). cbn [replicate app]. by rewrite clean_onto_plain, app_nil_r, reverse_involutive.
  - rewrite clean_onto_parents, clean_onto_plain by done. rewrite reverse_app, reverse_replicate, reverse_involutive. done.
Qed.

(** A component is neither empty nor begins with a separator. *)
Lemma cleaned_head abs x l : cleaned abs (x :: l) -> rooted x = false.
Proof.
  intros H. apply cleaned_slashless in H as Hs. inversion Hs as [|? ? Hx _]; subst.
  destruct x as [|c x]; [done|]. unfold slashless in Hx. cbn in Hx. unfold is_slash in Hx.
  unfold rooted, has_prefix. destruct (Ascii.eqb_spec "/" c) as [<-|]; [done|done].
Qed.

Lemma cleaned_nonempty abs l : cleaned abs l -> Forall (fun x => x <> EmptyString) l.
Proof.
  intros (n & l' & -> & Hl & _). apply Forall_app. split; [by apply Forall_replicate|].
  eapply Forall_impl; [exact Hl|]. by intros x (_ & ? & _).
Qed.

Lemma rooted_render abs l : cleaned abs l -> rooted (render abs l) = abs.
Proof.
  intros H. destruct abs; [done|]. destruct l as [|x l]; [done|]. unfold render.
  pose proof (cleaned_head _ _ _ H) as Hx. pose proof (cleaned_nonempty _ _ H) as Hn. inversion Hn; subst.
  destruct x as [|c x]; [done|]. by destruct l.
Qed.

Lemma components_render abs l : cleaned abs l ->
  components (render abs l) =
    if abs then EmptyString :: (match l with [] => [EmptyString] | _ => l end)
    else match l with [] => ["."] | _ => l end.
Proof.
  intros H%cleaned_slashless. destruct abs; cbn -[join].
  - destruct l as [|x l]; [done|]. change ("/" +:+ join "/" (x :: l)) with (String "/" (join "/" (x :: l))).
    change (components (String "/" (join "/" (x :: l)))) with (EmptyString :: components (join "/" (x :: l))).
    by rewrite components_join.
  - destruct l as [|x l]; [done|]. by apply components_join.
Qed.

Lemma clean_components_render abs l : cleaned abs l -> clean_components (render abs l) = l.
Proof.
  intros H. unfold clean_components. rewrite rooted_render, components_render by done.
  transitivity (reverse (clean_onto abs l [])); [by destruct abs, l|by apply cleaned_fixed].
Qed.

Lemma Clean_components path : clean_components (Clean path) = clean_components path.
Proof. apply clean_components_render, clean_components_cleaned. Qed.

Lemma rooted_Clean path : rooted (Clean path) = rooted path.
Proof. apply rooted_render, clean_components_cleaned. Qed.

(** filepath.Clean returns a path that it does not change. *)
Lemma Clean_idempotent path : Clean (Clean path) = Clean path.
Proof. unfold Clean at 1. by rewrite Clean_components, rooted_Clean. Qed.

Lemma cleaned_path_components abs l : cleaned abs l -> l <> [] -> path_components (render abs l) = l.
Proof.
  intros H Hne. unfold path_components. rewrite components_render by done.
  assert (filter (fun x => x <> EmptyString) l = l) as Hf.
  { apply cleaned_nonempty in H. induction l as [|x l IH]; [done|]. inversion H; subst. rewrite filter_cons, decide_True by done.
    f_equal. destruct l; [done|]. by apply IH. }
  destruct abs, l; try done.
Qed.

(** ** Staying inside *)

(** A relative path that does not escape has no parent in it. *)
Lemma escapesRoot_false path : rooted path = false -> escapesRoot path = false -> Forall plain_component (clean_components path).
Proof.
  intros Hr He. destruct (clean_components_cleaned path) as (n & l' & E & Hl & _). rewrite E.
  destruct n as [|n]; [done|]. exfalso. unfold escapesRoot, Clean in He. rewrite Hr, E in He.
  apply orb_false_iff in He as [H1 H2]. destruct n as [|n], l' as [|x l']; try done; cbn in H2; done.
Qed.

Lemma first_difference_spec base targ b t : first_difference base targ = (b, t) ->
  exists l, base = l ++ b /\ targ = l ++ t /\ (forall x y b' t', b = x :: b' -> t = y :: t' -> x <> y).
Proof.
  revert targ. induction base as [|x base IH]; intros targ E; [by injection E as <- <-; exists []|].
  destruct targ as [|y targ]; [by injection E as <- <-; exists []|]. cbn in E. case_bool_decide as Exy.
  - destruct (IH _ E) as (l & -> & -> & H). subst. by exists (y :: l).
  - injection E as <- <-. exists []. split_and!; [done..|]. by intros ? ? ? ? [= <- <-] [= <- <-].
Qed.

Lemma cleaned_plain l : cleaned true l -> Forall plain_component l.
Proof. intros (n & l' & -> & Hl & Hn). by rewrite (Hn eq_refl). Qed.

Lemma plain_cleaned abs l : Forall plain_component l -> cleaned abs l.
Proof. intros H. by exists 0, l. Qed.

Lemma Clean_render abs l : cleaned abs l -> Clean (render abs l) = render abs l.
Proof. intros H. unfold Clean. by rewrite clean_components_render, rooted_render. Qed.

Lemma components_plain_join l : Forall plain_component l -> l <> [] -> components (join "/" l) = l.
Proof. intros H Hne. apply components_join; [done|]. eapply Forall_impl; [exact H|]. by intros x [? _]. Qed.

(** A path that goes up escapes. *)
Lemma escapesRoot_up n l : Forall plain_component l -> escapesRoot (join "/" (replicate (S n) ".." ++ l)) = true.
Proof.
  intros Hl. assert (cleaned false (replicate (S n) ".." ++ l)) as H by by exists (S n), l.
  change (join "/" (replicate (S n) ".." ++ l)) with (render false (replicate (S n) ".." ++ l)).
  unfold escapesRoot. rewrite Clean_render by done. apply orb_true_iff. by destruct n as [|n], l as [|x l]; [left|right..].
Qed.

Lemma path_components_Clean path : rooted path = true -> path_components (Clean path) = clean_components path.
Proof.
  intros Hr. pose proof (clean_components_cleaned path) as Hc. unfold Clean. rewrite Hr in *.
  destruct (clean_components path) as [|x l] eqn:E; [done|]. by apply cleaned_path_components.
Qed.

(** What filepath.Rel gives for two absolute paths stays inside the base only
    when the target is below it, and then it is the rest of its components. *)
Lemma Rel_below base targ rel :
  rooted base = true -> rooted targ = true -> Rel base targ = Some rel -> rel <> "." -> escapesRoot rel = false ->
  exists l, l <> [] /\ clean_components targ = clean_components base ++ l /\ Forall plain_component l /\ rel = join "/" l.
Proof.
  intros Hb Ht HR Hne He. unfold Rel in HR. case_bool_decide as Heq; [by injection HR as <-|].
  rewrite !rooted_Clean, Hb, Ht in HR. cbn [Bool.eqb negb] in HR.
  rewrite (bool_decide_false (Clean base = ".")) in HR.
  2:{ intros E. pose proof (rooted_Clean base) as Hr. by rewrite E, Hb in Hr. }
  rewrite !path_components_Clean in HR by done.
  destruct (first_difference _ _) as [b t] eqn:Ed. apply first_difference_spec in Ed as (l & El & Et & _).
  pose proof (clean_components_cleaned targ) as Hc. rewrite Ht in Hc. apply cleaned_plain in Hc. rewrite Et in Hc.
  apply Forall_app in Hc as [_ Hc]. destruct b as [|x b].
  - injection HR as <-. rewrite app_nil_r in El. exists t. split_and!; [|by rewrite El|done..].
    intros ->. rewrite app_nil_r in Et. destruct Heq. unfold Clean. by rewrite Hb, Ht, El, Et.
  - case_bool_decide; [done|]. apply (inj Some) in HR as <-. pose proof (escapesRoot_up (length b) t Hc) as Hup. destruct (eq_true_false_abs _ Hup He).
Qed.

Lemma Join_plain x l : plain_component x -> Forall plain_component l -> l <> [] -> Join x (join "/" l) = join "/" (x :: l).
Proof.
  intros Hx Hl Hne. unfold Join. rewrite bool_decide_false by apply Hx. destruct l as [|y l]; [done|].
  change (x +:+ "/" +:+ join "/" (y :: l)) with (render false (x :: y :: l)).
  apply Clean_render, plain_cleaned. by constructor.
Qed.

Lemma escapesRoot_plain l : Forall plain_component l -> l <> [] -> escapesRoot (join "/" l) = false.
Proof.
  intros Hl Hne. assert (Clean (join "/" l) = join "/" l) as E.
  { destruct l as [|x l]; [done|]. change (join "/" (x :: l)) with (render false (x :: l)). by apply Clean_render, plain_cleaned. }
  unfold escapesRoot. rewrite E. pose proof (components_plain_join l Hl Hne) as Hc. apply orb_false_iff. split.
  - apply bool_decide_eq_false. intros E'. rewrite E' in Hc. cbn in Hc. subst. inversion Hl as [|? ? (_ & _ & _ & ?)]; subst. done.
  - destruct (has_prefix "../" (join "/" l)) eqn:Ep; [|done]. apply has_prefix_spec in Ep as [r Er]. rewrite Er in Hc.
    cbn in Hc. subst. inversion Hl as [|? ? (_ & _ & _ & ?)]; subst. done.
Qed.
