(* ===== verification/ProtoConfig.v ===== *)
(** * package protofetch: specifications

    Specification and its validation (protofetch/config.go): what may be
    fetched, before anything runs.  url.Parse and strings.ToLower are
    arguments. *)

From S2P Require Import Prelude.
From S2P Require Import GoStrings.
From S2P Require Import RedactBytes.
From S2P Require Import Regexp.

(** ** Errors of the package *)

(** One constructor per message, with what it quotes; [ext] is an error that
    came from outside. *)
Definition ext := string.

Inductive perr :=
| EConflict | ENoRepository | EUnsafeURI | EBadScheme | EQueryOrFragment | EPassword
| EUnsafeBranch (branch : string) | EInvalidFileName (name : string)
| ENoFolders | EInvalidFolder (name : string) | EDuplicateFolder (name : string) | EUnsupportedMode (mode : string)
| ESymlink (path : list string) | EUnreadable (path : list string) | ENotRegular (path : list string)
| ECannotInfer (path : list string) | EInvalidServerType (name : string) | EEscapesContracts (path : list string)
| ENoCompanion (path : list string) | ENotFound (name : string) | EDuplicateProto (name serverType : string)
| EFolderTwice (name : string) | EFolderMissing (name : string) | ENothingSelected
| EFileTooLarge | EOverBudget | EExists (path : string) | EFileChanged | ECopy (cause : ext)
| ETooManyEntries | ETooManyBytes
| EOutside (what : string) (cause : ext)        (* an outside call, wrapped *)
| EContractsPath | ENotDescendant (path : string) | EOutputSymlink | EOutputNotDirectory
| EOutputContainsSource | ESourceContainsOutput | ELockNotAcquired | EBadLockFile | EStaleBackup
| EBadBackup | EBadInterrupted
| EJoined (es : list perr).

(** ** Specifications *)

Record Specification := MkSpecification {
  GitLabURI : string; GitURI : string; Branch : string; FileName : string; FolderNames : list string
}.

(** Mode; any other text is refused. *)
Inductive Mode := Get | GetAll | OtherMode (mode : string).

Definition Repository (spec : Specification) : string :=
  if bool_decide (trim_space (GitURI spec) <> EmptyString) then trim_space (GitURI spec) else trim_space (GitLabURI spec).

(** A class of letters, digits and these bytes. *)
Definition alnum_or (bytes : string) (c : ascii) : bool := is_alnum c || byte_in bytes c.

(** The bytes of a character past ASCII are refused like the character. *)
Definition safeName (value : string) : bool :=
  negb (bool_decide (value = EmptyString \/ value = "." \/ value = "..")) && str_forallb (alnum_or "_-") value.

Definition refPattern : re :=
  (RBegin ++ RByte is_alnum ++ RStar (RByte (alnum_or "._/-")) ++ REnd)%re.

Definition scpRepositoryPattern : re :=
  (RBegin ++ RPlus (RByte (alnum_or "._-")) ++ RLit "@" ++ RPlus (RByte (alnum_or ".-")) ++ RLit ":" ++
   RPlus (RByte (alnum_or "._~/-")) ++ REnd)%re.

Definition matches_pattern (r : re) (s : string) : bool := MatchString r (String.list_ascii_of_string s).

(** strings.ContainsAny *)
Definition contains_any (bytes s : string) : bool := negb (str_forallb (fun c => negb (byte_in bytes c)) s).

(** The fields of a parsed URL the code reads; [r_password] for a user with a
    password. *)
Record parsed_url := MkURL {
  r_Scheme : string; r_Host : string; r_Path : string; r_RawQuery : string; r_Fragment : string; r_password : bool
}.

Definition control_bytes : string := String "013" (String "010" (String "000" EmptyString)).

Section config.
Context (url_Parse : string -> option parsed_url) (ToLower : string -> string).

Definition validateRepositoryURI (repository : string) : result perr unit :=
  let repository := trim_space repository in
  if has_prefix "-" repository || contains_any control_bytes repository then Err EUnsafeURI
  else if matches_pattern scpRepositoryPattern repository then Ok tt
  else
    match url_Parse repository with
    | None => Err EBadScheme
    | Some u =>
        if negb (bool_decide (r_Scheme u = "https") || bool_decide (r_Scheme u = "ssh")) ||
           bool_decide (r_Host u = EmptyString) || bool_decide (r_Path u = EmptyString) || bool_decide (r_Path u = "/")
        then Err EBadScheme
        else if bool_decide (r_RawQuery u <> EmptyString) || bool_decide (r_Fragment u <> EmptyString) then Err EQueryOrFragment
        else if r_password u then Err EPassword
        else Ok tt
    end.

(** The loop over FolderNames with the names seen. *)
Fixpoint validate_folders (folders : list string) (seen : gset string) : result perr unit :=
  match folders with
  | [] => Ok tt
  | folder :: rest =>
      let folder := ToLower (trim_space folder) in
      if negb (safeName folder) then Err (EInvalidFolder folder)
      else if bool_decide (folder ∈ seen) then Err (EDuplicateFolder folder)
      else validate_folders rest ({[folder]} ∪ seen)
  end.

Definition validate_mode (spec : Specification) (mode : Mode) : result perr unit :=
  match mode with
  | Get => if safeName (FileName spec) then Ok tt else Err (EInvalidFileName (FileName spec))
  | GetAll => match FolderNames spec with [] => Err ENoFolders | folders => validate_folders folders ∅ end
  | OtherMode m => Err (EUnsupportedMode m)
  end.

Definition unsafe_branch (branch : string) : bool :=
  negb (matches_pattern refPattern branch) || has_prefix "-" branch || contains ".." branch.

Definition validate (spec : Specification) (mode : Mode) (sourceDirectory : string) : result perr unit :=
  let gitURI := trim_space (GitURI spec) in
  let gitLabURI := trim_space (GitLabURI spec) in
  let no_source := bool_decide (trim_space sourceDirectory = EmptyString) in
  if bool_decide (gitURI <> EmptyString) && bool_decide (gitLabURI <> EmptyString) && bool_decide (gitURI <> gitLabURI)
  then Err EConflict
  else if no_source && bool_decide (Repository spec = EmptyString) then Err ENoRepository
  else
    let? _ := (if no_source then validateRepositoryURI (Repository spec) else Ok tt) in
    let branch := trim_space (Branch spec) in
    if bool_decide (branch <> EmptyString) && unsafe_branch branch then Err (EUnsafeBranch branch)
    else validate_mode spec mode.

(** ** What validation gives *)

Lemma validate_folders_spec folders seen :
  validate_folders folders seen = Ok tt <->
  Forall (fun x => safeName x = true) (ToLower <$> (trim_space <$> folders)) /\
  NoDup (ToLower <$> (trim_space <$> folders)) /\
  Forall (fun x => x ∉ seen) (ToLower <$> (trim_space <$> folders)).
Proof.
  revert seen. induction folders as [|f l IH]; intros seen; cbn [fmap list_fmap validate_folders].
  { split; [|done]. intros _. split_and!; constructor. }
  rewrite !Forall_cons, NoDup_cons. destruct (safeName (ToLower (trim_space f))) eqn:Es; cbn [negb].
  2:{ split; [done|]. by intros ([? _] & _). }
  case_bool_decide as Hin; [split; [done|]; by intros (_ & _ & ? & _)|].
  rewrite IH. split.
  - intros (H1 & H2 & H3). rewrite Forall_forall in H3. split_and!; try done.
    + intros H. apply (H3 _ H). set_solver.
    + apply Forall_forall. intros x Hx. specialize (H3 x Hx). set_solver.
  - intros ((_ & H1) & (H2 & H3) & _ & H4). split_and!; [done..|]. apply Forall_forall. intros x Hx.
    rewrite Forall_forall in H4. specialize (H4 x Hx). apply not_elem_of_union. split; [|done].
    intros ->%elem_of_singleton. done.
Qed.
End config.
