(* ===== verification/ProtoSelect.v ===== *)
(** * package protofetch: selecting and copying contracts

    What protofetch/fetch.go copies from a source repository into the stage:
    copyNamedProto, copyFolders, copyRegularFile with its budget, listFiles and
    validateCloneSize.  A directory is a tree as WalkDir lists it; the stage is
    the map of the files in it.  Errors of the operating system while a copy is
    written are an argument. *)

From S2P Require Import Prelude.
From S2P Require Import GoStrings.
From S2P Require Import ProtoPath.
From S2P Require Import ProtoConfig.

(** ** Trees *)

(** What Lstat finds: a regular file, with its size and what reading it gives;
    a symbolic link, and whether Stat finds a directory behind it; a directory
    that cannot be listed; a directory with its entries as os.ReadDir lists
    them; anything else. *)
Inductive ftree :=
| File (size : Z) (data : string)
| Symlink (to_directory : bool)
| Special
| Unreadable
| Dir (entries : list (string * ftree)).

Definition is_dir (t : ftree) : bool := match t with Dir _ | Unreadable => true | _ => false end.

(** os.Stat followed by IsDir. *)
Definition stat_is_dir (t : ftree) : bool := match t with Symlink to_directory => to_directory | _ => is_dir t end.

Fixpoint node_at (t : ftree) (path : list string) {struct path} : option ftree :=
  match path with
  | [] => Some t
  | name :: path =>
      match t with
      | Dir entries =>
          (fix find l := match l with
                         | [] => None
                         | (n, t') :: l => if bool_decide (n = name) then node_at t' path else find l
                         end) entries
      | _ => None
      end
  end.

(** ** filepath.WalkDir *)

(** What a callback returns: nil, SkipDir or another error. *)
Inductive visit (A : Type) :=
| Next (a : A)
| SkipDir (a : A)
| Stop (e : perr).
Arguments Next {A}.
Arguments SkipDir {A}.
Arguments Stop {A}.

Section walk.
Context {St : Type} (fn : list string -> string -> ftree -> St -> visit St).

(** [path] is relative to the root of the walk.  A callback called again with
    the error of a listing returns it. *)
Fixpoint WalkDir (path : list string) (name : string) (t : ftree) (st : St) : result perr St :=
  match fn path name t st with
  | Stop e => Err e
  | SkipDir st => Ok st
  | Next st =>
      match t with
      | Unreadable => Err (EUnreadable path)
      | Dir entries =>
          (fix each (l : list (string * ftree)) (st : St) : result perr St :=
             match l with
             | [] => Ok st
             | (n, t') :: l => let? st := WalkDir (path ++ [n]) n t' st in each l st
             end) entries st
      | _ => Ok st
      end
  end.
End walk.

(** The nodes of a tree in the order of a walk. *)
Fixpoint visits (path : list string) (name : string) (t : ftree) : list (list string * string * ftree) :=
  (path, name, t) ::
  match t with
  | Dir l =>
      (fix each (l : list (string * ftree)) :=
         match l with [] => [] | (n, t) :: l => visits (path ++ [n]) n t ++ each l end) l
  | _ => []
  end.

(** ** The budget *)

Definition maxClonedSourceBytes : Z := 2 ^ 30.
Definition maxCloneEntries : Z := 200000.
Definition maxSelectedFileBytes : Z := 32 * 2 ^ 20.
Definition maxSelectedBytes : Z := 256 * 2 ^ 20.
Definition maxSelectedFiles : Z := 10000.

Record copyBudget := MkBudget { b_files : Z; b_bytes : Z }.

Definition reserve (size : Z) (budget : copyBudget) : result perr copyBudget :=
  if (size <? 0)%Z || (maxSelectedFileBytes <? size)%Z then Err EFileTooLarge
  else if (maxSelectedFiles <? wrap64 (b_files budget + 1))%Z || (maxSelectedBytes <? wrap64 (b_bytes budget + size))%Z
  then Err EOverBudget
  else Ok (MkBudget (wrap64 (b_files budget + 1)) (wrap64 (b_bytes budget + size))).

(** validateCloneSize, on a clone nothing is removed from meanwhile; the state
    is [(bytesUsed, entries)]. *)
Definition clone_visit (path : list string) (name : string) (t : ftree) (st : Z * Z) : visit (Z * Z) :=
  let entries := wrap64 (st.2 + 1) in
  if (maxCloneEntries <? entries)%Z then Stop ETooManyEntries
  else
    match t with
    | Dir _ | Unreadable => Next (st.1, entries)
    | File size _ =>
        let bytesUsed := wrap64 (st.1 + size) in
        if (maxClonedSourceBytes <? bytesUsed)%Z then Stop ETooManyBytes else Next (bytesUsed, entries)
    | Symlink _ | Special => Next (st.1, entries)
    end.

Definition validateCloneSize (name : string) (root : ftree) : result perr unit :=
  let? _ := WalkDir clone_visit [] name root (0, 0)%Z in Ok tt.

(** ** Copying *)

(** The files of the stage under their relative names, the budget used and the
    names in the order they were copied. *)
Record copies := MkCopies { stage : gmap string string; budget : copyBudget; copied : list string }.

Definition no_copies : copies := MkCopies ∅ (MkBudget 0 0) [].

(** A file or a directory of the stage is in the way of this name. *)
Definition in_the_way (destination k : string) : Prop :=
  k = destination \/ has_prefix (k +:+ "/") destination = true \/ has_prefix (destination +:+ "/") k = true.
#[export] Instance in_the_way_dec destination k : Decision (in_the_way destination k).
Proof. unfold in_the_way. apply _. Defined.

Section copy.
Context (copy_error : string -> option ext)   (* of writing or syncing this file of the stage *)
        (ToLower : string -> string).

Definition copyRegularFile (path : list string) (t : ftree) (destination : string) (c : copies) : result perr copies :=
  match t with
  | File size data =>
      let? b := reserve size (budget c) in
      if bool_decide (Exists (in_the_way destination) (map_to_list (stage c)).*1) then Err (EExists destination)
      else match copy_error destination with
           | Some e => Err (ECopy e)
           | None =>
               if bool_decide (Z.min (Z.of_nat (String.length data)) (maxSelectedFileBytes + 1) <> size) then Err EFileChanged
               else Ok (MkCopies (<[destination := data]> (stage c)) b (copied c ++ [destination]))
           end
  | _ => Err (ENotRegular path)
  end.

(** ** One named proto *)

(** filepath.Rel of a path of the walk to its root. *)
Definition relative (path : list string) : string := match path with [] => "." | _ => join "/" path end.

Fixpoint infer_from (path parts : list string) (index : nat) : result perr string :=
  match index with
  | O => Err (ECannotInfer path)
  | S i =>
      if equal_fold (nth (S i) parts EmptyString) "proto" then
        let serverType := ToLower (nth i parts EmptyString) in
        if safeName serverType then Ok serverType else Err (EInvalidServerType serverType)
      else infer_from path parts i
  end.

Definition inferServerType (path : list string) : result perr string :=
  if escapesRoot (relative path) then Err (EEscapesContracts path)
  else let parts := components (relative path) in infer_from path parts (length parts - 2).

Record candidate := MkCandidate {
  proto : list string; proto_node : ftree; typeJSON : list string; type_node : ftree; serverType : string
}.

Definition companion (path : list string) : list string :=
  match reverse path with
  | [] => []
  | name :: up => reverse up ++ [trim_suffix ".proto" name +:+ ".type.json"]
  end.

Definition named_visit (contracts : ftree) (fileName : string) (path : list string) (name : string) (t : ftree)
    (candidates : list candidate) : visit (list candidate) :=
  match t with
  | Symlink _ => Stop (ESymlink path)
  | _ =>
      if is_dir t || bool_decide (name <> fileName +:+ ".proto") then Next candidates
      else
        match inferServerType path with
        | Err e => Stop e
        | Ok serverType =>
            match node_at contracts (companion path) with
            | Some (File size data) =>
                Next (candidates ++ [MkCandidate path t (companion path) (File size data) serverType])
            | _ => Stop (ENoCompanion path)
            end
        end
  end.

Fixpoint copy_candidates (fileName : string) (l : list candidate) (seen : gset string) (c : copies) : result perr copies :=
  match l with
  | [] => Ok c
  | item :: rest =>
      let destination := Join (serverType item) (fileName +:+ ".proto") in
      if bool_decide (destination ∈ seen) then Err (EDuplicateProto fileName (serverType item))
      else
        let? c := copyRegularFile (proto item) (proto_node item) destination c in
        let? c := copyRegularFile (typeJSON item) (type_node item) (Join (serverType item) (fileName +:+ ".type.json")) c in
        copy_candidates fileName rest ({[destination]} ∪ seen) c
  end.

(** copyNamedProto; [name] is the name of the contracts directory. *)
Definition copyNamedProto (name : string) (contracts : ftree) (fileName : string) : result perr copies :=
  let? candidates := WalkDir (named_visit contracts fileName) [] name contracts [] in
  match candidates with
  | [] => Err (ENotFound fileName)
  | _ => copy_candidates fileName candidates ∅ no_copies
  end.

(** ** Whole folders *)

Record selectedFolder := MkFolder { f_name : string; f_at : list string; f_source : ftree }.

Definition wanted_folders (folderNames : list string) : gset string :=
  list_to_set ((fun folder => ToLower (trim_space folder)) <$> folderNames).

Definition folder_visit (wanted : gset string) (path : list string) (name : string) (t : ftree)
    (found : gmap string selectedFolder) : visit (gmap string selectedFolder) :=
  match t with
  | Symlink _ => Stop (ESymlink path)
  | _ =>
      let key := ToLower name in
      if negb (is_dir t) || bool_decide (key ∉ wanted) then Next found
      else
        match node_at t ["proto"] with
        | Some source =>
            if stat_is_dir source then
              match found !! key with
              | Some _ => Stop (EFolderTwice key)
              | None => SkipDir (<[key := MkFolder name (path ++ ["proto"]) source]> found)
              end
            else Next found
        | None => Next found
        end
  end.

Definition wanted_suffix (name : string) : bool := has_suffix ".proto" name || has_suffix ".type.json" name.

Definition copy_visit (folder : selectedFolder) (path : list string) (name : string) (t : ftree) (c : copies) : visit copies :=
  match t with
  | Symlink _ => Stop (ESymlink (f_at folder ++ path))
  | _ =>
      if is_dir t || negb (wanted_suffix name) then Next c
      else if escapesRoot (relative path) then Stop (EEscapesContracts path)
      else match copyRegularFile (f_at folder ++ path) t (Join (f_name folder) (relative path)) c with
           | Ok c => Next c
           | Err e => Stop e
           end
  end.

(** The loop over the folders found, in the order it meets them. *)
Fixpoint copy_selected (l : list selectedFolder) (c : copies) : result perr copies :=
  match l with
  | [] => Ok c
  | folder :: rest =>
      let? c := WalkDir (copy_visit folder) [] "proto" (f_source folder) c in
      copy_selected rest c
  end.

(** copyFolders, when the loops over its maps go through [wanted_order] and
    [found_order]. *)
Definition find_folders (name : string) (contracts : ftree) (folderNames : list string) :
    result perr (gmap string selectedFolder) :=
  WalkDir (folder_visit (wanted_folders folderNames)) [] name contracts ∅.

Definition copy_found (wanted_order : list string) (found_order : list selectedFolder)
    (found : gmap string selectedFolder) : result perr copies :=
  match list_find (fun n => found !! n = None) wanted_order with
  | Some (_, n) => Err (EFolderMissing n)
  | None =>
      let? c := copy_selected found_order no_copies in
      match copied c with [] => Err ENothingSelected | _ => Ok c end
  end.

Definition copyFolders (name : string) (contracts : ftree) (folderNames : list string) : result perr copies :=
  let? found := find_folders name contracts folderNames in
  copy_found (elements (wanted_folders folderNames)) (map_to_list found).*2 found.
End copy.

(** ** The stage *)

(** listFiles, on the stage as a tree. *)
Definition list_visit (path : list string) (name : string) (t : ftree) (st : copyBudget * list string) :
    visit (copyBudget * list string) :=
  match t with
  | Symlink _ => Stop (ESymlink path)
  | Dir _ | Unreadable => Next st
  | Special => Stop (ENotRegular path)
  | File size _ =>
      match reserve size st.1 with
      | Err e => Stop e
      | Ok b => Next (b, st.2 ++ [relative path])
      end
  end.

Definition listFiles (name : string) (root : ftree) : result perr (list string) :=
  let? st := WalkDir list_visit [] name root (MkBudget 0 0, []) in Ok st.2.
