(* ===== verification/ProtoSelectProofs.v ===== *)
(** * package protofetch: what is selected and copied

    A walk is a fold over the nodes it meets; a series of copies succeeds under
    a condition that does not mention its order, and then stages exactly its
    files.  So the order in which the loops over maps run cannot be seen, the
    budget holds, and everything staged is below the stage. *)

From S2P Require Import Prelude.
From S2P Require Import GoStrings.
From S2P Require Import ProtoPath.
From S2P Require Import ProtoConfig.
From S2P Require Import ProtoSelect.

(** ** Trees *)

(** Induction with the hypothesis for every entry. *)
Lemma ftree_ind' (P : ftree -> Prop) :
  (forall size data, P (File size data)) -> (forall b, P (Symlink b)) -> P Special -> P Unreadable ->
  (forall l, Forall (fun x => P x.2) l -> P (Dir l)) -> forall t, P t.
Proof.
  intros Hf Hs Hx Hu Hd. fix IH 1. intros [size data|b| | |l]; [apply Hf|apply Hs|done|done|].
  apply Hd. induction l as [|[n t] l IHl]; constructor; [apply IH|exact IHl].
Qed.

(** Entries have names of their own, each one component. *)
Fixpoint wf_tree (t : ftree) : Prop :=
  match t with
  | Dir l =>
      NoDup (map fst l) /\
      (fix each (l : list (string * ftree)) : Prop :=
         match l with [] => True | (n, t) :: l => plain_component n /\ wf_tree t /\ each l end) l
  | _ => True
  end.

Lemma wf_Dir l : wf_tree (Dir l) <-> NoDup l.*1 /\ Forall (fun x => plain_component x.1 /\ wf_tree x.2) l.
Proof.
  assert (forall l, (fix each (l : list (string * ftree)) : Prop :=
         match l with [] => True | (n, t) :: l => plain_component n /\ wf_tree t /\ each l end) l <->
       Forall (fun x => plain_component x.1 /\ wf_tree x.2) l) as He.
  { clear l. induction l as [|[n t] l IH]; [by split|]. rewrite Forall_cons, <- IH. cbn. tauto. }
  cbn [wf_tree]. by rewrite He.
Qed.

Lemma node_at_Dir l n path : node_at (Dir l) (n :: path) =
  match list_find (fun x => x.1 = n) l with Some (_, x) => node_at x.2 path | None => None end.
Proof.
  induction l as [|[m t] l IH]; [done|]. cbn [list_find fst]. change (node_at (Dir ((m, t) :: l)) (n :: path)) with
    (if bool_decide (m = n) then node_at t path else node_at (Dir l) (n :: path)).
  case_bool_decide; [by rewrite decide_True|]. rewrite decide_False by done. rewrite IH.
  by destruct (list_find _ l) as [[i x]|].
Qed.

Lemma node_at_entry l n t path : NoDup l.*1 -> (n, t) ∈ l -> node_at (Dir l) (n :: path) = node_at t path.
Proof.
  intros Hn Hin. rewrite node_at_Dir. destruct (list_find (fun x => x.1 = n) l) as [[i x]|] eqn:E.
  - apply list_find_Some in E as (Hi & Hx & _). destruct x as [m t']. cbn in Hx. subst.
    f_equal. assert (exists j, l !! j = Some (n, t)) as [j Hj] by by apply list_elem_of_lookup.
    assert (i = j) as ->.
    { eapply NoDup_lookup; [exact Hn|by rewrite list_lookup_fmap, Hi|by rewrite list_lookup_fmap, Hj]. }
    by simplify_eq.
  - apply list_find_None in E. rewrite Forall_forall in E. by destruct (E _ Hin).
Qed.

Lemma node_at_app t path path' : node_at t (path ++ path') = node_at t path ≫= fun t' => node_at t' path'.
Proof.
  revert t. induction path as [|n path IH]; intros t; [done|]. destruct t as [| | | |l]; try done.
  cbn [app]. rewrite !node_at_Dir. destruct (list_find _ l) as [[i x]|]; [apply IH|done].
Qed.

Lemma node_at_wf t path t' : wf_tree t -> node_at t path = Some t' -> wf_tree t' /\ Forall plain_component path.
Proof.
  revert t. induction path as [|n path IH]; intros t Hw E; [injection E as <-; by split|].
  destruct t as [| | | |l]; try done. rewrite node_at_Dir in E. destruct (list_find _ l) as [[i x]|] eqn:Ef; [|done].
  apply wf_Dir in Hw as [_ Hw]. apply list_find_Some in Ef as (Hi & Hx & _). cbn in Hx.
  rewrite Forall_forall in Hw. destruct (Hw x) as [Hp Hwx]; [by eapply list_elem_of_lookup_2|].
  destruct (IH _ Hwx E). split; [done|]. constructor; [by subst|done].
Qed.

(** ** Walks *)

Lemma visits_Dir path name l :
  visits path name (Dir l) = (path, name, Dir l) :: (l ≫= fun x => visits (path ++ [x.1]) x.1 x.2).
Proof. cbn [visits]. f_equal. induction l as [|[n t] l IH]; [done|]. cbn. by rewrite IH. Qed.

(** Where the nodes met are: below the root, at their paths. *)
Lemma visits_at path name t x : wf_tree t -> x ∈ visits path name t ->
  exists below, x.1.1 = path ++ below /\ node_at t below = Some x.2 /\
    x.1.2 = match last below with Some n => n | None => name end.
Proof.
  revert path name x. induction t as [| | | |l IH] using ftree_ind'; intros path name x Hw Hx;
    try (apply list_elem_of_singleton in Hx as ->; exists []; by rewrite app_nil_r).
  rewrite visits_Dir in Hx. apply elem_of_cons in Hx as [->|Hx]; [exists []; by rewrite app_nil_r|].
  apply list_elem_of_bind in Hx as ([n t] & Hx & Hin). cbn in Hx. apply wf_Dir in Hw as [Hn Hw].
  rewrite Forall_forall in IH, Hw. destruct (Hw _ Hin) as [_ Hwt].
  destruct (IH _ Hin _ _ _ Hwt Hx) as (below & E1 & E2 & E3). exists (n :: below).
  rewrite E1, <- app_assoc. split_and!; [done|by erewrite node_at_entry|]. rewrite E3. by destruct below using rev_ind; rewrite ?app_comm_cons, ?last_snoc.
Qed.

(** And every node is met. *)
Lemma visits_complete path name t below t' : node_at t below = Some t' ->
  (path ++ below, match last below with Some n => n | None => name end, t') ∈ visits path name t.
Proof.
  revert path name t. induction below as [|n below IH]; intros path name t E.
  { injection E as ->. rewrite app_nil_r. destruct t'; by left. }
  destruct t as [| | | |l]; try done. rewrite node_at_Dir in E. destruct (list_find _ l) as [[i [m t]]|] eqn:Ef; [|done].
  apply list_find_Some in Ef as (Hi & Hx & _). cbn in Hx, E. subst.
  rewrite visits_Dir. right. apply list_elem_of_bind. exists (n, t). split; [|by eapply list_elem_of_lookup_2].
  specialize (IH (path ++ [n]) n t E). rewrite <- app_assoc in IH. cbn in IH |- *.
  destruct below as [|y below] using rev_ind; [done|]. by rewrite ?app_comm_cons, !last_snoc in *.
Qed.

(** Each node is met once. *)
Lemma visits_nodup path name t : wf_tree t -> NoDup ((fun x => x.1.1) <$> visits path name t).
Proof.
  revert path name. induction t as [| | | |l IH] using ftree_ind'; intros path name Hw; try by apply NoDup_singleton.
  rewrite visits_Dir. cbn. apply wf_Dir in Hw as [Hn Hw].
  assert (forall x, x ∈ (l ≫= fun x => visits (path ++ [x.1]) x.1 x.2) -> exists n t below, (n, t) ∈ l /\ x.1.1 = path ++ n :: below) as Hat.
  { intros x ([n t] & Hx & Hin)%list_elem_of_bind. cbn in Hx. rewrite Forall_forall in Hw. destruct (Hw _ Hin) as [_ Ht].
    destruct (visits_at _ _ _ _ Ht Hx) as (below & E & _). exists n, t, below. by rewrite E, <- app_assoc. }
  apply NoDup_cons. split.
  { intros (x & E & (n & t & below & _ & Ex)%Hat)%list_elem_of_fmap. rewrite Ex in E. apply (f_equal length) in E. rewrite length_app in E. cbn in E. lia. }
  clear Hat. induction IH as [|[n t] l Ht _ IHl]; [constructor|]. inversion Hn as [|? ? Hnin Hn']; subst. inversion Hw as [|? ? [_ Hwt] Hw']; subst.
  cbn [mbind list_bind]. rewrite fmap_app. apply NoDup_app. split_and!; [by apply Ht| |by apply IHl].
  intros p (x & -> & Hx)%list_elem_of_fmap (y & E & Hy)%list_elem_of_fmap. cbn in Hx.
  destruct (visits_at _ _ _ _ Hwt Hx) as (below & Ex & _). apply list_elem_of_bind in Hy as ([m u] & Hy & Hin). cbn in Hy.
  rewrite Forall_forall in Hw'. destruct (Hw' _ Hin) as [_ Hwu]. destruct (visits_at _ _ _ _ Hwu Hy) as (below' & Ey & _).
  rewrite Ex, Ey, <- !app_assoc in E. apply app_inv_head in E. injection E as -> _.
  apply Hnin, list_elem_of_fmap. by exists (m, u).
Qed.

Section walks.
Context {St : Type} (fn : list string -> string -> ftree -> St -> visit St).

(** A callback that never skips is folded over the nodes. *)
Fixpoint visit_all (l : list (list string * string * ftree)) (st : St) : result perr St :=
  match l with
  | [] => Ok st
  | (path, name, t) :: l =>
      match fn path name t st with
      | Stop e => Err e
      | Next st | SkipDir st => match t with Unreadable => Err (EUnreadable path) | _ => visit_all l st end
      end
  end.

Lemma visit_all_app l1 l2 st : visit_all (l1 ++ l2) st = (let? st := visit_all l1 st in visit_all l2 st).
Proof.
  revert st. induction l1 as [|[[path name] t] l1 IH]; intros st; [done|]. cbn.
  destruct (fn path name t st) as [st'|st'|e]; [destruct t; try done; apply IH..|done].
Qed.

Lemma WalkDir_visits path name t st :
  (forall path name t st st', fn path name t st <> SkipDir st') ->
  WalkDir fn path name t st = visit_all (visits path name t) st.
Proof.
  intros Hs. revert path name st. induction t as [| | | |l IH] using ftree_ind'; intros path name st;
    try (cbn; destruct (fn path name _ st) as [st'|st'|e] eqn:E; [done|by destruct (Hs _ _ _ _ _ E)|done]).
  rewrite visits_Dir. cbn. destruct (fn path name (Dir l) st) as [st'|st'|e] eqn:E; [|by destruct (Hs _ _ _ _ _ E)|done].
  clear E st. revert st'. induction IH as [|[n t] l Ht _ IHl]; intros st; [done|]. cbn [mbind list_bind].
  rewrite visit_all_app, <- Ht. cbn. by destruct (WalkDir fn (path ++ [n]) n t st).
Qed.

(** What a callback keeps at the nodes of the walk, the walk keeps. *)
Lemma WalkDir_invariant (P : St -> Prop) path name t st st' :
  (forall p n u st, (p, n, u) ∈ visits path name t -> P st ->
     match fn p n u st with Next st' | SkipDir st' => P st' | Stop _ => True end) ->
  P st -> WalkDir fn path name t st = Ok st' -> P st'.
Proof.
  revert path name st st'. induction t as [| | | |l IH] using ftree_ind'; intros path name st st' Hp Hst E;
    cbn in E; match type of E with context [fn path name ?u st] =>
      pose proof (Hp path name u st ltac:(by left) Hst) as Hn; destruct (fn path name u st) as [st1|st1|e] end; try by simplify_eq.
  clear Hst st. rewrite visits_Dir in Hp.
  assert (forall p n u st, (p, n, u) ∈ (l ≫= fun x => visits (path ++ [x.1]) x.1 x.2) -> P st ->
    match fn p n u st with Next st' | SkipDir st' => P st' | Stop _ => True end) as Hl by (intros; apply Hp; [by right|done]).
  clear Hp. revert st1 Hn E. induction IH as [|[n t] l Ht _ IHl]; intros st1 Hn E; [by simplify_eq|].
  cbn in E, Hl. destruct (WalkDir fn (path ++ [n]) n t st1) as [st2|e] eqn:E2; [|done].
  eapply IHl; [|eapply Ht; [|exact Hn|exact E2]|exact E]; intros; apply Hl; try done; apply elem_of_app; auto.
Qed.
End walks.

(** ** Copies *)

Lemma wrap64_small z : (0 <= z < 2 ^ 63)%Z -> wrap64 z = z.
Proof. intros Hz. unfold wrap64. rewrite Z.mod_small; lia. Qed.

(** A file to copy: where it was found, what it is, its name in the stage. *)
Abbreviation job := (list string * ftree * string)%type.

Definition size_of_job (x : job) : Z := match x.1.2 with File size _ => size | _ => 0%Z end.
Definition data_of_job (x : job) : string := match x.1.2 with File _ data => data | _ => EmptyString end.
Definition total_size (l : list job) : Z := foldr (fun x z => (size_of_job x + z)%Z) 0%Z l.

(** No name is a file and a directory, or used twice. *)
Definition clash_free (l : list string) : Prop :=
  forall i j d k, i <> j -> l !! i = Some d -> l !! j = Some k -> ~ in_the_way d k.

Lemma in_the_way_sym d k : in_the_way d k <-> in_the_way k d.
Proof. unfold in_the_way. intuition auto. Qed.

Lemma clash_free_perm l l' : l ≡ₚ l' -> clash_free l -> clash_free l'.
Proof.
  intros Hp Hc. symmetry in Hp. apply Permutation_inj in Hp as (_ & f & Hf & Hl). intros i j d k Hij Hi Hj. rewrite Hl in Hi, Hj.
  apply (Hc (f i) (f j)); [|done..]. intros E. by apply Hij, Hf.
Qed.

Lemma clash_free_nodup l : clash_free l -> NoDup l.
Proof. intros Hc. apply NoDup_alt. intros i j x Hi Hj. destruct (decide (i = j)) as [|Hn]; [done|]. destruct (Hc _ _ _ _ Hn Hi Hj). by left. Qed.

Lemma clash_free_snoc l d : clash_free (l ++ [d]) <-> clash_free l /\ Forall (fun k => ~ in_the_way d k) l.
Proof.
  split.
  - intros H. split.
    + intros i j x k Hij Hi Hj. apply (H i j); [done|by apply lookup_app_l_Some..].
    + apply Forall_lookup. intros i k Hi. apply (H (length l) i); [|by rewrite lookup_app_r, Nat.sub_diag|by apply lookup_app_l_Some].
      apply lookup_lt_Some in Hi. lia.
  - intros [H Hd] i j x k Hij Hi Hj. rewrite Forall_lookup in Hd.
    apply lookup_snoc_Some in Hi as [[Hi1 Hi2]|[-> <-]], Hj as [[Hj1 Hj2]|[-> <-]].
    + by apply (H i j).
    + rewrite in_the_way_sym. by eapply Hd.
    + by eapply Hd.
    + lia.
Qed.

Lemma total_size_app l1 l2 : total_size (l1 ++ l2) = (total_size l1 + total_size l2)%Z.
Proof. unfold total_size. induction l1 as [|x l1 IH]; cbn in *; lia. Qed.

Lemma total_size_perm l l' : l ≡ₚ l' -> total_size l = total_size l'.
Proof. unfold total_size. induction 1; cbn in *; lia. Qed.

Lemma reserve_spec size files bytes b :
  (0 <= files <= maxSelectedFiles)%Z -> (0 <= bytes <= maxSelectedBytes)%Z ->
  reserve size (MkBudget files bytes) = Ok b <->
  (0 <= size <= maxSelectedFileBytes)%Z /\ (files + 1 <= maxSelectedFiles)%Z /\ (bytes + size <= maxSelectedBytes)%Z /\
  b = MkBudget (files + 1) (bytes + size).
Proof.
  unfold reserve, maxSelectedFiles, maxSelectedBytes, maxSelectedFileBytes. intros Hf Hb. cbn [b_files b_bytes].
  destruct (Z.ltb_spec size 0); cbn [orb]; [split; [done|lia]|].
  destruct (Z.ltb_spec (32 * 2 ^ 20) size); [split; [done|lia]|]. rewrite !wrap64_small by lia.
  destruct (Z.ltb_spec 10000 (files + 1)); cbn [orb]; [split; [done|lia]|].
  destruct (Z.ltb_spec (256 * 2 ^ 20) (bytes + size)); [split; [done|lia]|].
  split; [intros [= <-]; split_and!; lia || done|by intros (_ & _ & _ & ->)].
Qed.

Section copying.
Context (copy_error : string -> option ext).

(** A regular file within the limit that does not change while it is copied,
    and no error of the system. *)
Definition fits (x : job) : Prop :=
  (exists size data, x.1.2 = File size data /\ size = Z.of_nat (String.length data) /\ (size <= maxSelectedFileBytes)%Z) /\
  copy_error x.2 = None.

(** The files can be copied, in whatever order. *)
Definition can_copy (l : list job) : Prop :=
  Forall fits l /\ clash_free l.*2 /\ (Z.of_nat (length l) <= maxSelectedFiles)%Z /\ (total_size l <= maxSelectedBytes)%Z.

(** The copies of these files. *)
Definition copies_of (l : list job) : copies :=
  MkCopies (list_to_map ((fun x => (x.2, data_of_job x)) <$> l)) (MkBudget (Z.of_nat (length l)) (total_size l)) l.*2.

Fixpoint copy_all (l : list job) (c : copies) : result perr copies :=
  match l with
  | [] => Ok c
  | x :: l => let? c := copyRegularFile copy_error x.1.1 x.1.2 x.2 c in copy_all l c
  end.

Lemma fits_size x : fits x -> (0 <= size_of_job x)%Z.
Proof. intros [(size & data & E & Hs & _) _]. unfold size_of_job. rewrite E. lia. Qed.

Lemma total_size_nonneg l : Forall fits l -> (0 <= total_size l)%Z.
Proof. unfold total_size. induction 1 as [|x l Hx%fits_size _ IH]; cbn in *; lia. Qed.

Lemma total_size_data l : Forall fits l -> Z.of_nat (sum_list_with String.length (data_of_job <$> l)) = total_size l.
Proof.
  unfold total_size. induction 1 as [|x l [(size & data & E & -> & _) _] _ IH]; [done|].
  cbn. rewrite <- IH. unfold size_of_job, data_of_job. rewrite E. lia.
Qed.

Lemma can_copy_app l1 l2 : can_copy (l1 ++ l2) -> can_copy l1.
Proof.
  intros (Hf & Hc & Hn & Ht). apply Forall_app in Hf as [Hf1 Hf2]. split_and!; [done| |rewrite length_app in Hn; lia|].
  - rewrite fmap_app in Hc. intros i j d k Hij Hi Hj. apply (Hc i j); [done|by apply lookup_app_l_Some..].
  - rewrite total_size_app in Ht. pose proof (total_size_nonneg _ Hf2). lia.
Qed.

Lemma can_copy_perm l l' : l ≡ₚ l' -> can_copy l -> can_copy l'.
Proof.
  intros Hp (Hf & Hc & Hn & Ht). split_and!; [by rewrite <- Hp|apply (clash_free_perm l.*2); [by rewrite Hp|done]|by rewrite <- Hp|].
  by rewrite <- (total_size_perm _ _ Hp).
Qed.

Lemma copy_keys l : can_copy l -> (map_to_list (stage (copies_of l))).*1 ≡ₚ l.*2.
Proof.
  intros (_ & Hc%clash_free_nodup & _). cbn. rewrite map_to_list_to_map.
  - by rewrite <- list_fmap_compose.
  - by rewrite <- list_fmap_compose.
Qed.

Lemma copies_of_snoc l x : x.2 ∉ l.*2 ->
  copies_of (l ++ [x]) = MkCopies (<[x.2 := data_of_job x]> (stage (copies_of l)))
    (MkBudget (Z.of_nat (length l) + 1) (total_size l + size_of_job x)) (l.*2 ++ [x.2]).
Proof.
  intros Hx. unfold copies_of. f_equal.
  - cbn [stage]. rewrite fmap_app. cbn. rewrite list_to_map_snoc; [done|]. by rewrite <- list_fmap_compose.
  - rewrite total_size_app, length_app. unfold total_size at 2. cbn. f_equal; lia.
  - by rewrite fmap_app.
Qed.

(** One more file. *)
Lemma copyRegularFile_spec l p t d c : can_copy l ->
  copyRegularFile copy_error p t d (copies_of l) = Ok c <-> can_copy (l ++ [(p, t, d)]) /\ c = copies_of (l ++ [(p, t, d)]).
Proof.
  intros Hl. pose proof Hl as (Hf & Hc & Hn & Ht). pose proof (total_size_nonneg _ Hf) as H0. pose proof (copy_keys _ Hl) as Hk.
  assert (can_copy (l ++ [(p, t, d)]) <-> fits (p, t, d) /\ Forall (fun k => ~ in_the_way d k) l.*2 /\
    (Z.of_nat (length l) + 1 <= maxSelectedFiles)%Z /\ (total_size l + size_of_job (p, t, d) <= maxSelectedBytes)%Z) as ->.
  { unfold can_copy. rewrite fmap_app, Forall_app, Forall_singleton, total_size_app, length_app. cbn [fmap list_fmap snd].
    rewrite clash_free_snoc. unfold total_size at 2. cbn [foldr length]. split; intuition lia. }
  unfold fits. cbn [fst snd]. destruct t as [size data| | | |]; cbn [copyRegularFile];
    try (split; [done|]; intros [[[(? & ? & ? & _) _] _] _]; done).
  unfold copies_of at 1. cbn [budget]. destruct (reserve size _) as [b|e] eqn:Er.
  2:{ split; [done|]. intros [[[(? & ? & [= <- <-] & ? & ?) _] (_ & ? & ?)] _]. 
      assert (reserve size (MkBudget (Z.of_nat (length l)) (total_size l)) =
              Ok (MkBudget (Z.of_nat (length l) + 1) (total_size l + size))) as Ho; [|congruence].
      unfold size_of_job in *. cbn in *. apply reserve_spec; lia || (split_and!; [lia..|done]). }
  apply reserve_spec in Er as (Hs & Hn' & Ht' & ->); [|lia..]. unfold size_of_job. cbn [fst snd].
  case_bool_decide as Hex.
  { split; [done|]. intros [(_ & Hfree & _) _]. rewrite Hk in Hex. apply Exists_exists in Hex as (k & Hin & Hw).
    rewrite Forall_forall in Hfree. by destruct (Hfree k Hin). }
  rewrite Hk in Hex. apply not_Exists_Forall in Hex; [|apply _].
  destruct (copy_error d) as [e|]; [split; [done|]; by intros [[[_ ?] _] _]|].
  case_bool_decide as Hd; [split; [done|]; intros [[[(? & ? & [= <- <-] & ? & ?) _] _] _]; unfold maxSelectedFileBytes in *; lia|].
  assert (size = Z.of_nat (String.length data)) as Hsd by (unfold maxSelectedFileBytes in *; lia).
  rewrite copies_of_snoc.
  2:{ intros Hin. rewrite Forall_forall in Hex. apply (Hex d); [done|by left]. }
  cbn [size_of_job data_of_job fst snd]. split; [|by intros [_ ->]].
  intros [= <-]. split; [|done]. split; [split; [exists size, data; split_and!; [done|done|lia]|done]|].
  split_and!; [done|lia..].
Qed.

(** A series of copies, from those already made. *)
Lemma copy_all_spec l done c : can_copy done ->
  copy_all l (copies_of done) = Ok c <-> can_copy (done ++ l) /\ c = copies_of (done ++ l).
Proof.
  revert done. induction l as [|[[p t] d] l IH]; intros done Hd; cbn [copy_all fst snd].
  { rewrite app_nil_r. split; [by intros [= <-]|by intros [_ ->]]. }
  change (done ++ (p, t, d) :: l) with (done ++ [(p, t, d)] ++ l). rewrite app_assoc.
  destruct (copyRegularFile copy_error p t d (copies_of done)) as [c1|e] eqn:E.
  - apply copyRegularFile_spec in E as [Hd1 ->]; [|done]. by apply IH.
  - split; [done|]. intros [Hc _]. apply can_copy_app in Hc.
    assert (copyRegularFile copy_error p t d (copies_of done) = Ok (copies_of (done ++ [(p, t, d)]))) as Ho; [|congruence].
    by apply copyRegularFile_spec.
Qed.

Lemma can_copy_nil : can_copy [].
Proof. split_and!; [constructor|by intros i j d k _ ?|unfold maxSelectedFiles; cbn; lia|unfold maxSelectedBytes; cbn; lia]. Qed.

Lemma copies_of_perm l l' : can_copy l -> l ≡ₚ l' ->
  stage (copies_of l) = stage (copies_of l') /\ budget (copies_of l) = budget (copies_of l') /\
  copied (copies_of l) ≡ₚ copied (copies_of l').
Proof.
  intros (_ & Hc%clash_free_nodup & _) Hp. split_and!; cbn.
  - apply list_to_map_proper; [by rewrite <- list_fmap_compose|by rewrite Hp].
  - by rewrite (total_size_perm _ _ Hp), Hp.
  - by rewrite Hp.
Qed.

(** What is staged. *)
Lemma copies_of_stage l d data : can_copy l ->
  stage (copies_of l) !! d = Some data <-> exists p size, (p, File size data, d) ∈ l.
Proof.
  intros (Hf & Hc%clash_free_nodup & _). cbn. rewrite <- elem_of_list_to_map by by rewrite <- list_fmap_compose.
  rewrite list_elem_of_fmap. rewrite Forall_forall in Hf. split.
  - intros ([[p t] d'] & [= -> ->] & Hin). destruct (Hf _ Hin) as [(size & data & E & _) _]. cbn in E. subst. by exists p, size.
  - intros (p & size & Hin). by exists (p, File size data, d).
Qed.

End copying.

(** ** Whole folders *)

Section folders.
Context (copy_error : string -> option ext) (ToLower : string -> string).

(** What is copied from a folder. *)
Definition selected (x : list string * string * ftree) : bool := negb (is_dir x.2) && wanted_suffix x.1.2.

Definition job_of (folder : selectedFolder) (x : list string * string * ftree) : job :=
  (f_at folder ++ x.1.1, x.2, Join (f_name folder) (relative x.1.1)).

Definition jobs_of (folder : selectedFolder) (l : list (list string * string * ftree)) : list job :=
  job_of folder <$> filter (fun x => selected x = true) l.

Definition folder_jobs (folder : selectedFolder) : list job := jobs_of folder (visits [] "proto" (f_source folder)).

(** No node of the folder stops the walk. *)
Definition passable (x : list string * string * ftree) : Prop :=
  match x.2 with Symlink _ | Unreadable => False | _ => selected x = true -> escapesRoot (relative x.1.1) = false end.

Definition walkable (folder : selectedFolder) : Prop := Forall passable (visits [] "proto" (f_source folder)).

Lemma copy_visit_all folder l c c' :
  visit_all (copy_visit copy_error folder) l c = Ok c' <->
  Forall passable l /\ copy_all copy_error (jobs_of folder l) c = Ok c'.
Proof.
  revert c. induction l as [|[[p n] t] l IH]; intros c; cbn [visit_all].
  { split; [by intros [= <-]|by intros [_ [= <-]]]. }
  rewrite Forall_cons. unfold passable at 1, jobs_of. rewrite filter_cons. unfold selected. cbn [fst snd].
  destruct t as [size data|b| | |es]; cbn [copy_visit is_dir negb andb orb].
  - destruct (wanted_suffix n) eqn:Ew; cbn [negb].
    + rewrite decide_True by done. cbn [fmap list_fmap copy_all job_of fst snd].
      destruct (escapesRoot (relative p)); [split; [done|]; by intros [[H _] _]; specialize (H eq_refl)|].
      destruct (copyRegularFile _ _ _ _ c) as [c1|e]; [rewrite IH; tauto|]. split; [done|by intros [_ ?]].
    + rewrite decide_False by done. rewrite IH. split; [intros [? ?]|intros [[_ ?] ?]]; done.
  - split; [done|by intros [[[] _] _]].
  - destruct (wanted_suffix n) eqn:Ew; cbn [negb].
    + rewrite decide_True by done. cbn [fmap list_fmap copy_all job_of fst snd].
      destruct (escapesRoot (relative p)); [split; [done|]; by intros [[H _] _]; specialize (H eq_refl)|].
      cbn. split; [done|by intros [_ ?]].
    + rewrite decide_False by done. rewrite IH. split; [intros [? ?]|intros [[_ ?] ?]]; done.
  - split; [done|by intros [[[] _] _]].
  - rewrite decide_False by done. rewrite IH. split; [intros [? ?]|intros [[_ ?] ?]]; done.
Qed.

Lemma copy_walk folder c c' :
  WalkDir (copy_visit copy_error folder) [] "proto" (f_source folder) c = Ok c' <->
  walkable folder /\ copy_all copy_error (folder_jobs folder) c = Ok c'.
Proof.
  rewrite WalkDir_visits; [apply copy_visit_all|]. intros p n t st st'. unfold copy_visit.
  destruct t; try done; case_match; try done; case_match; try done; by case_match.
Qed.

Lemma copy_all_app l1 l2 c :
  copy_all copy_error (l1 ++ l2) c = (let? c := copy_all copy_error l1 c in copy_all copy_error l2 c).
Proof. revert c. induction l1 as [|x l1 IH]; intros c; [done|]. cbn. destruct (copyRegularFile _ _ _ _ c); [apply IH|done]. Qed.

Lemma copy_selected_spec l c c' :
  copy_selected copy_error l c = Ok c' <-> Forall walkable l /\ copy_all copy_error (l ≫= folder_jobs) c = Ok c'.
Proof.
  revert c. induction l as [|f l IH]; intros c; cbn [copy_selected mbind list_bind].
  { split; [by intros [= <-]|by intros [_ [= <-]]]. }
  rewrite Forall_cons, copy_all_app. destruct (WalkDir _ _ _ _ c) as [c1|e] eqn:E.
  - apply copy_walk in E as [Hw E]. rewrite E, IH. tauto.
  - split; [done|]. intros [[Hw _] H]. destruct (copy_all copy_error (folder_jobs f) c) as [c1|e'] eqn:E1; [|done].
    assert (WalkDir (copy_visit copy_error f) [] "proto" (f_source f) c = Ok c1) as Ho by by apply copy_walk.
    congruence.
Qed.

(** When the folders found are copied, and what that gives. *)
Lemma copy_found_spec wanted_order found_order found c :
  copy_found copy_error wanted_order found_order found = Ok c <->
  Forall (fun n => is_Some (found !! n)) wanted_order /\ Forall walkable found_order /\
  can_copy copy_error (found_order ≫= folder_jobs) /\ found_order ≫= folder_jobs <> [] /\
  c = copies_of (found_order ≫= folder_jobs).
Proof.
  unfold copy_found. destruct (list_find (fun n => found !! n = None) wanted_order) as [[i n]|] eqn:Ef.
  { split; [done|]. intros [H _]. apply list_find_Some in Ef as (Hi & Hn & _). rewrite Forall_lookup in H.
    destruct (H _ _ Hi) as [x Hx]. congruence. }
  apply list_find_None in Ef.
  assert (Forall (fun n => is_Some (found !! n)) wanted_order) as Hall.
  { eapply Forall_impl; [exact Ef|]. intros n Hn. by apply not_eq_None_Some. }
  change no_copies with (copies_of []).
  destruct (copy_selected copy_error found_order (copies_of [])) as [c1|e] eqn:E.
  - apply copy_selected_spec in E as [Hw E]. apply copy_all_spec in E as [Hc ->]; [|apply can_copy_nil].
    cbn [app] in *. destruct (found_order ≫= folder_jobs) as [|x l] eqn:Ej; cbn [copied copies_of fmap list_fmap].
    + split; [done|]. by intros (_ & _ & _ & ? & _).
    + split; [intros [= <-]; by split_and!|by intros (_ & _ & _ & _ & ->)].
  - split; [done|]. intros (_ & Hw & Hc & _ & ->).
    assert (copy_selected copy_error found_order (copies_of []) = Ok (copies_of (found_order ≫= folder_jobs))) as Ho; [|congruence].
    apply copy_selected_spec. split; [done|]. apply copy_all_spec; [apply can_copy_nil|by cbn [app]].
Qed.

(** The folders found are where WalkDir met them, one for each name wanted. *)
Definition found_at (name : string) (contracts : ftree) (wanted : gset string) (found : gmap string selectedFolder) : Prop :=
  forall key folder, found !! key = Some folder ->
  key ∈ wanted /\ key = ToLower (f_name folder) /\ node_at contracts (f_at folder) = Some (f_source folder) /\
  stat_is_dir (f_source folder) = true /\
  exists up, f_at folder = up ++ ["proto"] /\ f_name folder = default name (last up).

Lemma find_folders_at name contracts folderNames found :
  wf_tree contracts -> find_folders ToLower name contracts folderNames = Ok found ->
  found_at name contracts (wanted_folders ToLower folderNames) found.
Proof.
  intros Hw. apply (WalkDir_invariant _ (found_at name contracts (wanted_folders ToLower folderNames))); [|by intros ? ? ?].
  intros p n u st Hin Hst. destruct (visits_at _ _ _ _ Hw Hin) as (below & Ep & Eu & En). cbn in Ep, Eu, En. subst p.
  unfold folder_visit. destruct u as [| | | |l]; try done; cbn [is_dir negb orb]; case_bool_decide as Hk; try done.
  destruct (node_at (Dir l) ["proto"]) as [source|] eqn:Es; [|done].
  destruct (stat_is_dir source) eqn:Ed; [|done]. destruct (st !! ToLower n) eqn:Ef; [done|].
  intros key folder [[<- <-]|[_ H]]%lookup_insert_Some; [|by apply Hst]. cbn [f_name f_at f_source].
  split_and!; [by destruct (decide (ToLower n ∈ wanted_folders ToLower folderNames))|done| |done|].
  - by rewrite node_at_app, Eu.
  - exists below. split; [done|]. rewrite En. by destruct (last below).
Qed.

(** A walkable folder is a directory whose files have plain names. *)
Lemma folder_jobs_spec folder x :
  wf_tree (f_source folder) -> plain_component (f_name folder) -> stat_is_dir (f_source folder) = true -> walkable folder ->
  x ∈ folder_jobs folder <->
  exists rel file t, x = (f_at folder ++ rel ++ [file], t, join "/" (f_name folder :: rel ++ [file])) /\
    node_at (f_source folder) (rel ++ [file]) = Some t /\ is_dir t = false /\ wanted_suffix file = true.
Proof.
  intros Hw Hn Hd Hwk. unfold folder_jobs, jobs_of. rewrite list_elem_of_fmap.
  assert (forall rel file t, node_at (f_source folder) (rel ++ [file]) = Some t ->
    Join (f_name folder) (relative (rel ++ [file])) = join "/" (f_name folder :: rel ++ [file])) as Hj.
  { intros rel file t Ht. destruct (node_at_wf _ _ _ Hw Ht) as [_ Hp].
    assert (relative (rel ++ [file]) = join "/" (rel ++ [file])) as -> by by destruct rel.
    apply Join_plain; [done..|]. by destruct rel. }
  split.
  - intros ([[p n] t] & -> & [Hs Hin]%list_elem_of_filter). destruct (visits_at _ _ _ _ Hw Hin) as (below & Ep & Et & En).
    cbn in Ep, Et, En. subst p. unfold selected in Hs. cbn [fst snd] in Hs. apply andb_true_iff in Hs as [Hs1 Hs2].
    apply negb_true_iff in Hs1. destruct below as [|file rel _] using rev_ind.
    + exfalso. injection Et as <-. unfold walkable in Hwk. destruct (f_source folder) as [|b| | |]; try done.
      by apply Forall_cons in Hwk as [[] _].
    + rewrite last_snoc in En. subst n. exists rel, file, t. unfold job_of. cbn [fst snd]. by erewrite Hj.
  - intros (rel & file & t & -> & Ht & Hdt & Hsuf). pose proof (visits_complete [] "proto" _ _ _ Ht) as Hin.
    rewrite last_snoc in Hin. exists (rel ++ [file], file, t). split; [unfold job_of; cbn [fst snd]; by erewrite Hj|].
    apply list_elem_of_filter. split; [|done]. unfold selected. cbn [fst snd]. by rewrite Hdt, Hsuf.
Qed.

(** A file below a folder found is in the contracts, under plain names. *)
Lemma found_plain name contracts wanted found key folder :
  wf_tree contracts -> plain_component name -> found_at name contracts wanted found -> found !! key = Some folder ->
  wf_tree (f_source folder) /\ plain_component (f_name folder) /\ stat_is_dir (f_source folder) = true.
Proof.
  intros Hw Hn Hat Hf. destruct (Hat _ _ Hf) as (_ & _ & Hnode & Hd & up & Eup & En).
  destruct (node_at_wf _ _ _ Hw Hnode) as [Hwf Hpl]. split_and!; [done| |done].
  rewrite En. rewrite Eup in Hpl. apply Forall_app in Hpl as [Hpl _]. destruct up as [|y up _] using rev_ind; [done|].
  rewrite last_snoc. apply Forall_app in Hpl as [_ Hy]. by inversion Hy.
Qed.

(** ** One named proto *)

Lemma safeName_plain v : safeName v = true -> plain_component v.
Proof.
  unfold safeName. intros [Hv Hs]%andb_true_iff. apply negb_true_iff, bool_decide_eq_false in Hv.
  split_and!; [|tauto..]. eapply str_forallb_weaken; [|exact Hs]. intros c Hc. destruct (is_slash c) eqn:E; [|done].
  apply Ascii.eqb_eq in E as ->. done.
Qed.

Lemma plain_extended v e : plain_component v -> slashless e -> 2 < String.length e -> plain_component (v +:+ e).
Proof.
  intros (Hs & _) He Hl. split_and!; [unfold slashless in *; by rewrite str_forallb_app, Hs|..];
    intros E; apply (f_equal String.length) in E; rewrite slength_app in E; cbn in E; lia.
Qed.

Definition candidate_ok (contracts : ftree) (item : candidate) : Prop :=
  node_at contracts (proto item) = Some (proto_node item) /\ node_at contracts (typeJSON item) = Some (type_node item) /\
  safeName (serverType item) = true.

Lemma infer_safe path parts index serverType : infer_from ToLower path parts index = Ok serverType -> safeName serverType = true.
Proof.
  induction index as [|i IH]; cbn [infer_from]; [done|]. destruct (equal_fold _ _); [|exact IH].
  destruct (safeName (ToLower _)) eqn:E; [|done]. by intros [= <-].
Qed.

Lemma named_candidates name contracts fileName candidates :
  wf_tree contracts -> WalkDir (named_visit ToLower contracts fileName) [] name contracts [] = Ok candidates ->
  Forall (candidate_ok contracts) candidates.
Proof.
  intros Hw. apply (WalkDir_invariant _ (Forall (candidate_ok contracts))); [|constructor].
  intros p n u st Hin Hst. destruct (visits_at _ _ _ _ Hw Hin) as (below & Ep & Eu & _). cbn in Ep, Eu. subst p.
  unfold named_visit. destruct u as [size data|b| | |l]; try done; cbn [is_dir orb]; try done.
  all: case_bool_decide; [done|]; destruct (inferServerType ToLower below) as [st'|e] eqn:Ei; [|done];
    destruct (node_at contracts (companion below)) as [[size' data'| | | |]|] eqn:Ec; try done;
    apply Forall_app; split; [done|]; apply Forall_singleton; split_and!; try done;
    unfold inferServerType in Ei; destruct (escapesRoot _); [done|]; by apply infer_safe in Ei.
Qed.

Definition candidate_jobs (fileName : string) (item : candidate) : list job :=
  [(proto item, proto_node item, Join (serverType item) (fileName +:+ ".proto"));
   (typeJSON item, type_node item, Join (serverType item) (fileName +:+ ".type.json"))].

Lemma copy_candidates_all fileName l seen c c' :
  copy_candidates copy_error fileName l seen c = Ok c' -> copy_all copy_error (l ≫= candidate_jobs fileName) c = Ok c'.
Proof.
  revert seen c. induction l as [|item l IH]; intros seen c; cbn [copy_candidates mbind list_bind]; [done|].
  case_bool_decide; [done|]. rewrite copy_all_app. unfold candidate_jobs at 1. cbn [copy_all fst snd].
  destruct (copyRegularFile _ _ _ _ c) as [c1|e]; [|done]. destruct (copyRegularFile _ _ _ _ c1) as [c2|e]; [|done].
  apply IH.
Qed.

(** ** Both *)

(** A file of the contracts, copied under plain names. *)
Definition job_inside (contracts : ftree) (x : job) : Prop :=
  node_at contracts x.1.1 = Some x.1.2 /\ exists l, l <> [] /\ Forall plain_component l /\ x.2 = join "/" l.

Lemma named_jobs name contracts fileName c :
  wf_tree contracts -> safeName fileName = true -> copyNamedProto copy_error ToLower name contracts fileName = Ok c ->
  exists jobs, can_copy copy_error jobs /\ Forall (job_inside contracts) jobs /\ c = copies_of jobs.
Proof.
  intros Hw Hf H. unfold copyNamedProto in H. destruct (WalkDir _ _ _ _ _) as [candidates|e] eqn:Ew; [|done].
  apply named_candidates in Ew; [|done].
  assert (copy_candidates copy_error fileName candidates ∅ no_copies = Ok c) as Hc by by destruct candidates.
  apply copy_candidates_all in Hc. change no_copies with (copies_of []) in Hc.
  apply copy_all_spec in Hc as [Hc ->]; [|apply can_copy_nil]. cbn [app] in *.
  exists (candidates ≫= candidate_jobs fileName). split_and!; [done| |done].
  apply Forall_forall. intros x Hx. apply list_elem_of_bind in Hx as (item & Hx & Hi).
  rewrite Forall_forall in Ew. destruct (Ew _ Hi) as (Hp & Ht & Hs%safeName_plain). apply safeName_plain in Hf.
  assert (forall e, slashless e -> 2 < String.length e ->
    exists l, l <> [] /\ Forall plain_component l /\ Join (serverType item) (fileName +:+ e) = join "/" l) as Hj.
  { intros e He Hl. exists [serverType item; fileName +:+ e]. pose proof (plain_extended _ _ Hf He Hl).
    split_and!; [done|apply Forall_cons; split; [done|by apply Forall_singleton]|].
    apply (Join_plain _ [fileName +:+ e]); [done|by apply Forall_singleton|done]. }
  unfold candidate_jobs in Hx. apply elem_of_cons in Hx as [->|Hx%list_elem_of_singleton]; [|subst x];
    (split; [done|apply Hj; [done|cbn; lia]]).
Qed.

Lemma folders_jobs name contracts folderNames c :
  wf_tree contracts -> plain_component name -> copyFolders copy_error ToLower name contracts folderNames = Ok c ->
  exists jobs, can_copy copy_error jobs /\ Forall (job_inside contracts) jobs /\ c = copies_of jobs.
Proof.
  intros Hw Hn H. unfold copyFolders in H. destruct (find_folders _ _ _ _) as [found|e] eqn:Ef; [|done].
  apply copy_found_spec in H as (_ & Hwk & Hc & _ & ->). apply find_folders_at in Ef as Hat; [|done].
  eexists. split_and!; [exact Hc| |done]. apply Forall_forall. intros x Hx.
  apply list_elem_of_bind in Hx as (folder & Hx & Hf). rewrite Forall_forall in Hwk. specialize (Hwk _ Hf).
  apply list_elem_of_fmap in Hf as ([key folder'] & -> & Hf%elem_of_map_to_list). cbn [snd] in *.
  destruct (found_plain _ _ _ _ _ _ Hw Hn Hat Hf) as (H1 & H2 & H3). destruct (Hat _ _ Hf) as (_ & _ & Hnode & _).
  apply folder_jobs_spec in Hx as (rel & file & t & -> & Ht & _); [|done..]. split; cbn [fst snd].
  - by rewrite node_at_app, Hnode.
  - exists (f_name folder' :: rel ++ [file]). split_and!; [done| |done]. constructor; [done|].
    by destruct (node_at_wf _ _ _ H1 Ht).
Qed.

(** The loops of copyFolders over its maps can run in any order: if one
    order succeeds so does every other, with the same files staged, the same
    budget used and, once sorted, the same names. *)
Theorem folders_in_any_order wanted_order wanted_order' found_order found_order' found c :
  wanted_order ≡ₚ wanted_order' -> found_order ≡ₚ found_order' ->
  copy_found copy_error wanted_order found_order found = Ok c ->
  exists c', copy_found copy_error wanted_order' found_order' found = Ok c' /\ stage c' = stage c /\ budget c' = budget c /\
    merge_sort String.le (copied c') = merge_sort String.le (copied c).
Proof.
  intros Hpw Hpf (Hn & Hw & Hc & Hne & ->)%copy_found_spec.
  assert (found_order' ≫= folder_jobs ≡ₚ found_order ≫= folder_jobs) as Hp by by rewrite Hpf.
  destruct (copies_of_perm copy_error (found_order ≫= folder_jobs) (found_order' ≫= folder_jobs)) as (Es & Eb & Ec); [done..|].
  exists (copies_of (found_order' ≫= folder_jobs)). split_and!; [|done..|].
  - apply copy_found_spec. split_and!; [by rewrite <- Hpw|by rewrite <- Hpf|by eapply can_copy_perm| |done].
    intros E. rewrite E in Hp. by apply Hne, Permutation_nil.
  - apply (Sorted_unique String.le); [apply (Sorted_merge_sort _)..|]. by rewrite !merge_sort_Permutation, Ec.
Qed.

(** copyFolders stages exactly the .proto and .type.json files below the
    proto directories of one folder for each name wanted, each under the
    folder's name and its path, with its contents. *)
Theorem folders_staged_exactly name contracts folderNames c :
  wf_tree contracts -> plain_component name -> copyFolders copy_error ToLower name contracts folderNames = Ok c ->
  exists found, find_folders ToLower name contracts folderNames = Ok found /\
    dom found = wanted_folders ToLower folderNames /\
    found_at name contracts (wanted_folders ToLower folderNames) found /\
    forall d data, stage c !! d = Some data <->
      exists key folder rel file size, found !! key = Some folder /\
        node_at (f_source folder) (rel ++ [file]) = Some (File size data) /\ wanted_suffix file = true /\
        d = join "/" (f_name folder :: rel ++ [file]).
Proof.
  intros Hw Hn H. unfold copyFolders in H. destruct (find_folders _ _ _ _) as [found|e] eqn:Ef; [|done].
  exists found. apply copy_found_spec in H as (Hall & Hwk & Hc & _ & ->). apply find_folders_at in Ef as Hat; [|done].
  split_and!; [done| |done|].
  - apply set_eq. intros key. rewrite elem_of_dom. split; [intros [f Hf]; by destruct (Hat _ _ Hf)|].
    intros Hk. rewrite Forall_forall in Hall. by apply Hall, elem_of_elements.
  - intros d data. rewrite copies_of_stage by done.
    assert (forall key folder, found !! key = Some folder -> wf_tree (f_source folder) /\ plain_component (f_name folder) /\
      stat_is_dir (f_source folder) = true /\ walkable folder) as Hfo.
    { intros key folder Hf. destruct (found_plain _ _ _ _ _ _ Hw Hn Hat Hf) as (? & ? & ?). split_and!; [done..|].
      rewrite Forall_forall in Hwk. apply Hwk, list_elem_of_fmap. exists (key, folder). by rewrite elem_of_map_to_list. }
    split.
    + intros (p & size & Hin). apply list_elem_of_bind in Hin as (folder & Hin & Hf).
      apply list_elem_of_fmap in Hf as ([key folder'] & -> & Hf%elem_of_map_to_list). cbn [snd] in *.
      destruct (Hfo _ _ Hf) as (H1 & H2 & H3 & H4). apply folder_jobs_spec in Hin as (rel & file & t & [= -> <- ->] & Ht & _ & Hs); [|done..].
      by exists key, folder', rel, file, size.
    + intros (key & folder & rel & file & size & Hf & Ht & Hs & ->). destruct (Hfo _ _ Hf) as (H1 & H2 & H3 & H4).
      exists (f_at folder ++ rel ++ [file]), size. apply list_elem_of_bind. exists folder. split.
      * apply folder_jobs_spec; [done..|]. by exists rel, file, (File size data).
      * apply list_elem_of_fmap. exists (key, folder). by rewrite elem_of_map_to_list.
Qed.
(** C12: Whatever is selected, at most 10000 files of together at most 256 MiB
    are staged, none above 32 MiB, each under a name of its own that stays
    below the stage, and each with the contents of a regular file of the
    contracts that is reached without a symbolic link. *)
Theorem selection_within_bounds name contracts c :
  wf_tree contracts -> plain_component name ->
  (exists fileName, safeName fileName = true /\ copyNamedProto copy_error ToLower name contracts fileName = Ok c) \/
  (exists folderNames, copyFolders copy_error ToLower name contracts folderNames = Ok c) ->
  copied c ≡ₚ (map_to_list (stage c)).*1 /\
  (Z.of_nat (length (copied c)) <= 10000)%Z /\
  (Z.of_nat (sum_list_with String.length (map_to_list (stage c)).*2) <= 268435456)%Z /\
  forall d data, stage c !! d = Some data ->
    (Z.of_nat (String.length data) <= 33554432)%Z /\
    (exists l, l <> [] /\ Forall plain_component l /\ d = join "/" l) /\
    exists p size, node_at contracts p = Some (File size data).
Proof.
  intros Hw Hn Hsel.
  assert (exists jobs, can_copy copy_error jobs /\ Forall (job_inside contracts) jobs /\ c = copies_of jobs) as (jobs & Hc & Hi & ->).
  { destruct Hsel as [(fileName & Hs & H)|(folderNames & H)]; [by eapply named_jobs|by eapply folders_jobs]. }
  pose proof (copy_keys _ _ Hc) as Hk. pose proof Hc as (Hf & Hcf%clash_free_nodup & Hlen & Htot).
  unfold maxSelectedFiles, maxSelectedBytes in *. split_and!.
  - by rewrite Hk.
  - cbn [copied copies_of]. by rewrite length_fmap.
  - assert ((map_to_list (stage (copies_of jobs))).*2 ≡ₚ data_of_job <$> jobs) as Hd.
    { cbn. rewrite map_to_list_to_map; [by rewrite <- list_fmap_compose|by rewrite <- list_fmap_compose]. }
    rewrite Hd. rewrite (total_size_data copy_error) by done. lia.
  - intros d data Hd. apply (copies_of_stage copy_error) in Hd as (p & size & Hin); [|done].
    rewrite Forall_forall in Hf, Hi.
    destruct (Hf _ Hin) as [(size' & data' & [= <- <-] & -> & Hs) _]. destruct (Hi _ Hin) as [Hp Hl].
    unfold maxSelectedFileBytes in Hs. split_and!; [lia|done|eexists _, _; exact Hp].
Qed.
End folders.

(** ** The files of a tree *)

(** The name of a file in a walk's result. *)
Definition file_name (x : list string * string * ftree) : option string :=
  match x.2 with File _ _ => Some (relative x.1.1) | _ => None end.

Lemma relative_inj p q : Forall plain_component p -> Forall plain_component q -> relative p = relative q -> p = q.
Proof.
  intros Hp Hq E. destruct p as [|x p], q as [|y q]; [done| | |].
  - apply (f_equal components) in E. cbn [relative] in E. rewrite (components_plain_join (y :: q)) in E by done.
    cbn in E. injection E as <- <-. by inversion Hq as [|? ? (_ & _ & ? & _)].
  - apply (f_equal components) in E. cbn [relative] in E. rewrite (components_plain_join (x :: p)) in E by done.
    cbn in E. injection E as -> ->. by inversion Hp as [|? ? (_ & _ & ? & _)].
  - apply (f_equal components) in E. cbn [relative] in E. by rewrite !components_plain_join in E.
Qed.

Lemma file_names_nodup path name t : wf_tree t -> Forall plain_component path -> NoDup (omap file_name (visits path name t)).
Proof.
  intros Hw Hp. pose proof (visits_nodup path name t Hw) as Hn.
  assert (Forall (fun x => Forall plain_component x.1.1) (visits path name t)) as Hall.
  { apply Forall_forall. intros x Hx. destruct (visits_at _ _ _ _ Hw Hx) as (below & -> & Hb & _).
    apply Forall_app. split; [done|]. by destruct (node_at_wf _ _ _ Hw Hb). }
  revert Hn Hall. generalize (visits path name t) as l. clear. intros l. induction l as [|x l IH]; intros Hn Hall; [constructor|].
  cbn in Hn. inversion Hn as [|? ? Hx Hn']; subst. inversion Hall as [|? ? Hpx Hall']; subst. cbn.
  destruct (file_name x) as [d|] eqn:Ed; [|by apply IH]. apply NoDup_cons. split; [|by apply IH].
  intros (y & Hy & Ey)%list_elem_of_omap. apply Hx. apply list_elem_of_fmap. exists y. split; [|done].
  rewrite Forall_forall in Hall'. unfold file_name in Ed, Ey. destruct (x.2); simplify_eq. destruct (y.2); simplify_eq.
  apply relative_inj; auto.
Qed.

Lemma list_visit_all l st st' : visit_all list_visit l st = Ok st' -> st'.2 = st.2 ++ omap file_name l.
Proof.
  revert st. induction l as [|[[p n] t] l IH]; intros st; cbn [visit_all]; [intros [= ->]; by rewrite app_nil_r|].
  destruct t as [size data|b| | |es]; cbn [list_visit]; try done.
  - destruct (reserve size st.1) as [b|e]; [|done]. intros E%IH. rewrite E. cbn. by rewrite <- app_assoc.
  - intros E%IH. by rewrite E.
Qed.

Lemma listFiles_spec name t files : listFiles name t = Ok files -> files = omap file_name (visits [] name t).
Proof.
  unfold listFiles. rewrite WalkDir_visits.
  - destruct (visit_all _ _ _) as [st|e] eqn:E; [|done]. intros [= <-]. apply list_visit_all in E. by rewrite E.
  - intros p n u st st'. unfold list_visit. destruct u; try done. by destruct (reserve _ _).
Qed.
