(* ===== verification/ProtoFetch.v ===== *)
(** * package protofetch: replacing the output

    Fetch, replaceDirectory and recoverOutput of protofetch/fetch.go as programs
    over the calls they make, and the directory they work in as a state that
    these calls change.

    The state is the parent of the output: what its names stand for, and how
    whole each tree in it is.  Its metadata reaches the disk in order, as on a
    journalling file system: after a power loss the parent is as it was at some
    moment since it was last synced.  File contents are on disk only once they
    are synced.  A call may fail at any time; what it answered is part of the
    trace, and a trace is possible when the answers agree with the state. *)

From S2P Require Import Prelude.
From S2P Require Import GoStrings.
From S2P Require Import ProtoPath.
From S2P Require Import ProtoConfig.
From S2P Require Import ProtoSelect.

(** ** The parent directory *)

(** What a directory holds: the contents of its files under their relative
    names; the names in the parent are full paths. *)
Abbreviation contents := (gmap string string).

(** A tree being written, synced, or partly removed or lost. *)
Inductive tree_state := Building (c : contents) | Whole (c : contents) | Damaged.

Inductive node := NDir (tree : nat) | NFile | NLink.

Record Disk := MkDisk { names : gmap string node; trees : gmap nat tree_state }.

(** The present state, those that may be on disk instead, the next tree's
    number, and every contents ever written to a stage. *)
Record FS := MkFS { now : Disk; since : list Disk; next : nat; written : list contents }.

Definition lost (s : tree_state) : tree_state := match s with Building _ => Damaged | s => s end.

(** What is found after the power was lost. *)
Inductive power_loss (fs : FS) : FS -> Prop :=
| loss d : d ∈ now fs :: since fs ->
    power_loss fs (MkFS (MkDisk (names d) (lost <$> trees d)) [] (next fs) (written fs)).

(** The next state, from which a power loss may go back. *)
Definition change (d : Disk) (fs : FS) : FS := MkFS d (now fs :: since fs) (next fs) (written fs).

(** ** Calls *)

Inductive kind := KDir | KFile | KLink.

#[export] Instance kind_eq_dec : EqDecision kind.
Proof. solve_decision. Defined.

Definition kind_of (n : node) : kind := match n with NDir _ => KDir | NFile => KFile | NLink => KLink end.

(** [Ok None] of Lstat is os.ErrNotExist.  [FCheck] is a call that changes
    nothing in the parent.  os.RemoveAll shows as two events, its first
    removal and its return. *)
Inductive fev :=
| FCheck (what : string) (e : option ext)
| FLstat (name : string) (r : result ext (option kind))
| FTryLock (name : string) (r : result ext bool)
| FUnlock (e : option ext)
| FMkdirTemp (r : result ext string)
| FAcquire (r : result ext (string * ftree))
| FResolve (r : result ext string)
| FWritten (name : string) (c : contents)
| FGenerate (r : result ext ftree)
| FSyncTree (name : string) (e : option ext)
| FRename (from to : string) (e : option ext)
| FSyncParent (e : option ext)
| FRemoving (name : string)
| FRemoved (name : string) (e : option ext).

Definition Base (path : string) : string := default EmptyString (last (components path)).

(** os.MkdirTemp(parent, ".proto-stage-*") *)
Definition temp_name (path : string) : bool := has_prefix ".proto-stage-" (Base path).

Definition set_tree (name : string) (f : tree_state -> tree_state) (d : Disk) : Disk :=
  match names d !! name with
  | Some (NDir i) => MkDisk (names d) (alter f i (trees d))
  | _ => d
  end.

Definition rename_in (from to : string) (d : Disk) : Disk :=
  match names d !! from with
  | Some n => MkDisk (<[to := n]> (delete from (names d))) (trees d)
  | None => d
  end.

Definition synced (s : tree_state) : tree_state := match s with Building c => Whole c | s => s end.

(** The state after a call; [None] for an answer that is not possible. *)
Definition fs_step (fs : FS) (e : fev) : option FS :=
  match e with
  | FLstat name (Ok k) => if bool_decide (kind_of <$> names (now fs) !! name = k) then Some fs else None
  | FTryLock name (Ok _) =>
      if bool_decide (names (now fs) !! name = None)
      then Some (change (MkDisk (<[name := NFile]> (names (now fs))) (trees (now fs))) fs) else Some fs
  | FMkdirTemp (Ok name) =>
      if temp_name name && bool_decide (names (now fs) !! name = None) then
        Some (MkFS (MkDisk (<[name := NDir (next fs)]> (names (now fs))) (<[next fs := Building ∅]> (trees (now fs))))
                (now fs :: since fs) (S (next fs)) (written fs))
      else None
  | FWritten name c =>
      let fs := change (set_tree name (fun _ => Building c) (now fs)) fs in
      Some (MkFS (now fs) (since fs) (next fs) (written fs ++ [c]))
  | FSyncTree name None => Some (change (set_tree name synced (now fs)) fs)
  | FRename from to None =>
      if bool_decide (is_Some (names (now fs) !! from)) then Some (change (rename_in from to (now fs)) fs) else None
  | FSyncParent None => Some (MkFS (now fs) [] (next fs) (written fs))
  | FRemoving name => Some (change (set_tree name (fun _ => Damaged) (now fs)) fs)
  | FRemoved name None => Some (change (MkDisk (delete name (names (now fs))) (trees (now fs))) fs)
  | _ => Some fs
  end.

Definition fs_run : FS -> list fev -> option FS := run_monitor fs_step.

(** ** Programs *)

(** The answers of the system, of the lock, of the source and of the generator,
    from the calls so far. *)
Record fworld := MkFWorld {
  w_check : string -> list fev -> option ext;
  w_Lstat : string -> list fev -> result ext (option kind);
  w_TryLock : list fev -> result ext bool;
  w_Unlock : list fev -> option ext;
  w_MkdirTemp : list fev -> result ext string;
  w_acquire : list fev -> result ext (string * ftree);
  w_resolve : list fev -> result ext string;
  w_copy_error : list fev -> string -> option ext;
  w_Generate : list fev -> result ext ftree;
  w_SyncTree : list fev -> option ext;
  w_Rename : string -> string -> list fev -> option ext;
  w_SyncParent : list fev -> option ext;
  w_RemoveAll : string -> list fev -> option ext
}.

Definition fop (A : Type) : Type := TM fev (result perr A).

Section fetch.
Context (w : fworld) (url_Parse : string -> option parsed_url) (ToLower : string -> string).

Definition Lstat (name : string) : TM fev (result ext (option kind)) := call (w_Lstat w name) (FLstat name).
Definition Rename (from to : string) : TM fev (option ext) := call (w_Rename w from to) (FRename from to).
Definition syncParent : TM fev (option ext) := call (w_SyncParent w) FSyncParent.
Definition RemoveAll (name : string) : TM fev (option ext) :=
  let! _ := call (fun _ => tt) (fun _ => FRemoving name) in
  call (w_RemoveAll w name) (FRemoved name).

(** An effect-free call whose error ends the function. *)
Definition check (what : string) : fop unit :=
  let! e := call (w_check w what) (FCheck what) in
  tret (match e with Some e => Err (EOutside what e) | None => Ok tt end).

(** A call that ends the function when it fails. *)
Definition or_fail (what : string) (m : TM fev (option ext)) : fop unit :=
  let! e := m in
  tret (match e with Some e => Err (EOutside what e) | None => Ok tt end).

Definition wrapReplaceError (action : string) (e : option ext) : list perr :=
  match e with None => [] | Some e => [EOutside action e] end.

Section output.
Context (output : string).

Definition backup : string := output +:+ ".backup".

(** The rollback after the sync of the staged old output failed. *)
Definition unstage : TM fev (option ext) :=
  let! e := Rename backup output in
  match e with None => syncParent | Some e => tret (Some e) end.

Definition rollbackInstalledDirectory (stage : string) (hadOutput : bool) : fop unit :=
  let! e := Rename output stage in
  match e with
  | Some e => tret (Err (EOutside "rollback unsynced output" e))
  | None =>
      let! r := (if hadOutput then Rename backup output else tret None) in
      match r with
      | Some e =>
          let! reinstallErr := Rename stage output in
          tret (Err (EJoined (EOutside "restore previous output after sync failure" e ::
                              wrapReplaceError "restore installed output after failed rollback" reinstallErr)))
      | None => or_fail "sync output rollback" syncParent
      end
  end.

(** Installing the staged output did not succeed. *)
Definition install_failed (hadOutput : bool) (e : ext) : fop unit :=
  let failure := EOutside "install staged output" e in
  if hadOutput then
    let! r := Rename backup output in
    match r with
    | Some r => tret (Err (EJoined [failure; EOutside "restore previous output" r]))
    | None =>
        let! s := syncParent in
        tret (Err (match s with
                   | Some s => EJoined [failure; EOutside "sync restored previous output" s]
                   | None => failure
                   end))
    end
  else tret (Err failure).

Definition errors_of (r : result perr unit) : list perr := match r with Err e => [e] | Ok _ => [] end.

(** replaceDirectory from the rename of the stage on. *)
Definition install (stage : string) (hadOutput : bool) : fop unit :=
  let! e := Rename stage output in
  match e with
  | Some e => install_failed hadOutput e
  | None =>
      let! s := syncParent in
      match s with
      | Some s =>
          let! r := rollbackInstalledDirectory stage hadOutput in
          tret (Err (EJoined (EOutside "sync installed output" s :: errors_of r)))
      | None =>
          if hadOutput then
            try! _ := or_fail "remove old output backup" (RemoveAll backup) in
            or_fail "sync removed output backup" syncParent
          else tret (Ok tt)
      end
  end.

Definition replaceDirectory (stage : string) : fop unit :=
  let! b := Lstat backup in
  match b with
  | Ok (Some _) => tret (Err EStaleBackup)
  | Err e => tret (Err (EOutside "inspect backup" e))
  | Ok None =>
      let! o := Lstat output in
      match o with
      | Err e => tret (Err (EOutside "inspect old output" e))
      | Ok None => install stage false
      | Ok (Some _) =>
          let! e := Rename output backup in
          match e with
          | Some e => tret (Err (EOutside "stage old output" e))
          | None =>
              let! s := syncParent in
              match s with
              | None => install stage true
              | Some s =>
                  let! r := unstage in
                  tret (Err (EJoined (EOutside "sync staged old output" s :: wrapReplaceError "restore previous output" r)))
              end
          end
      end
  end.

Definition recoverOutput : fop unit :=
  let! b := Lstat backup in
  match b with
  | Ok None => tret (Ok tt)
  | Err e => tret (Err (EOutside "inspect recovery backup" e))
  | Ok (Some KDir) =>
      let! o := Lstat output in
      match o with
      | Ok None =>
          try! _ := or_fail "restore interrupted output" (Rename backup output) in
          or_fail "sync restored output" syncParent
      | Err e => tret (Err (EOutside "inspect interrupted output" e))
      | Ok (Some KDir) =>
          try! _ := or_fail "finish interrupted output replacement" (RemoveAll backup) in
          or_fail "sync recovered output replacement" syncParent
      | Ok (Some _) => tret (Err EBadInterrupted)
      end
  | Ok (Some _) => tret (Err EBadBackup)
  end.

Definition inspectOutput : fop unit :=
  let! r := Lstat output in
  tret (match r with
        | Ok None | Ok (Some KDir) => Ok tt
        | Err e => Err (EOutside "inspect output" e)
        | Ok (Some KLink) => Err EOutputSymlink
        | Ok (Some KFile) => Err EOutputNotDirectory
        end).
Definition validateLockPath : fop unit :=
  let! r := Lstat (output +:+ ".lock") in
  tret (match r with
        | Ok None | Ok (Some KFile) => Ok tt
        | Err e => Err (EOutside "inspect output lock" e)
        | Ok (Some _) => Err EBadLockFile
        end).

(** ** Fetch *)

Definition rejectOutputSourceOverlap (resolved : result ext string) : result perr unit :=
  match resolved with
  | Err e => Err (EOutside "resolve source for output safety" e)
  | Ok source =>
      let inside rel := match rel with Some r => bool_decide (r = ".") || negb (escapesRoot r) | None => false end in
      if inside (Rel output source) then Err EOutputContainsSource
      else if inside (Rel source output) then Err ESourceContainsOutput
      else Ok tt
  end.

(** containedDirectory, on the tree of the source; no link is followed. *)
Fixpoint contained (name : string) (t : ftree) (path : list string) : result perr (string * ftree) :=
  match path with
  | [] => Ok (name, t)
  | n :: path =>
      match node_at t [n] with
      | None => Err (EOutside "inspect contracts path" n)
      | Some (Symlink _) => Err (ESymlink (n :: path))
      | Some t => contained n t path
      end
  end.

Definition containedDirectory (source : string) (t : ftree) (relative : string) : result perr (string * ftree) :=
  contained (Base source) t (clean_components relative).

Record Options := MkOptions {
  o_Mode : Mode; o_Specification : Specification; OutputDirectory : string; OutputRoot : string;
  SourceDirectory : string; ContractsPath : string; has_generator : bool
}.

Definition contracts_of (o : Options) (source : string) (t : ftree) : result perr (string * ftree) :=
  let contractsPath := if bool_decide (ContractsPath o = EmptyString) then "contracts" else ContractsPath o in
  if IsAbs contractsPath || escapesRoot contractsPath then Err EContractsPath
  else
    let? c := containedDirectory source t contractsPath in
    if stat_is_dir c.2 then Ok c else Err (EOutside "contracts directory" "not a directory").

Definition select (o : Options) (copy_error : string -> option ext) (name : string) (contracts : ftree) :
    result perr copies :=
  match o_Mode o with
  | Get => copyNamedProto copy_error ToLower name contracts (FileName (o_Specification o))
  | GetAll => copyFolders copy_error ToLower name contracts (FolderNames (o_Specification o))
  | OtherMode _ => Ok no_copies
  end.

Definition contents_of (t : ftree) : contents :=
  list_to_map (omap (fun x => match x.2 with File _ data => Some (relative x.1.1, data) | _ => None end)
    (visits [] EmptyString t)).

Definition write_stage (stage : string) (c : contents) : TM fev unit := call (fun _ => tt) (fun _ => FWritten stage c).

(** The generator, and the files it leaves. *)
Definition generate (stage : string) (files : list string) (o : Options) : fop (list string) :=
  if has_generator o then
    let! g := call (w_Generate w) FGenerate in
    match g with
    | Err e => tret (Err (EOutside "generate" e))
    | Ok t =>
        let! _ := write_stage stage (contents_of t) in
        tret (listFiles (Base stage) t)
    end
  else tret (Ok files).

(** From the selection on. *)
Definition fill_and_install (o : Options) (stage name : string) (contracts : ftree) : fop (list string) :=
  let! copy_error := (fun h => ([], w_copy_error w h)) in
  match select o copy_error name contracts with
  | Err e => tret (Err e)
  | Ok c =>
      let! _ := write_stage stage (ProtoSelect.stage c) in
      try! files := generate stage (copied c) o in
      try! _ := or_fail "sync staged file" (call (w_SyncTree w) (FSyncTree stage)) in
      try! _ := replaceDirectory stage in
      tret (Ok (merge_sort String.le files))
  end.

(** From the source on. *)
Definition from_source (o : Options) (stage : string) : fop (list string) :=
  let! a := call (w_acquire w) FAcquire in
  match a with
  | Err e => tret (Err (EOutside "source directory" e))
  | Ok (source, t) =>
      let! r :=
        (let! resolved := call (w_resolve w) FResolve in
         match rejectOutputSourceOverlap resolved with
         | Err e => tret (Err e)
         | Ok _ =>
             match contracts_of o source t with
             | Err e => tret (Err e)
             | Ok (name, contracts) => fill_and_install o stage name contracts
             end
         end) in
      let! _ := call (w_check w "cleanup") (FCheck "cleanup") in
      tret r
  end.

(** With the lock held; the stage is removed whatever happens. *)
Definition locked (o : Options) : fop (list string) :=
  try! _ := recoverOutput in
  try! _ := inspectOutput in
  let! s := call (w_MkdirTemp w) FMkdirTemp in
  match s with
  | Err e => tret (Err (EOutside "create stage" e))
  | Ok stage =>
      let! r := (try! _ := check "set staged output permissions" in from_source o stage) in
      let! _ := RemoveAll stage in
      tret r
  end.

Definition fetch_locked (o : Options) : fop (list string) :=
  try! _ := check "create output parent" in
  try! _ := validateLockPath in
  let! l := call (w_TryLock w) (FTryLock (output +:+ ".lock")) in
  match l with
  | Err e => tret (Err (EOutside "acquire output lock" e))
  | Ok false => tret (Err ELockNotAcquired)
  | Ok true =>
      let! r := locked o in
      let! u := call (w_Unlock w) FUnlock in
      tret (match u with
            | None => r
            | Some u => match r with
                        | Ok _ => Err (EOutside "release output lock" u)
                        | Err e => Err (EJoined [e; EOutside "release output lock" u])
                        end
            end)
  end.
End output.

(** The path functions of the system, which look above the parent too. *)
Record path_env := MkPaths {
  p_Getwd : result ext string;
  p_Abs : string -> result ext string;
  p_EvalSymlinks : string -> result ext string;
  p_is_dir : string -> result ext bool;
  p_Lstat : string -> result ext (option kind)
}.

(** The loop of cleanOutputPath over the components below the root. *)
Fixpoint no_link_on (env : path_env) (current : string) (l : list string) : result perr unit :=
  match l with
  | [] => Ok tt
  | x :: l =>
      let current := Join current x in
      match p_Lstat env current with
      | Ok None => Ok tt
      | Err e => Err (EOutside "inspect output path" e)
      | Ok (Some KLink) => Err EOutputSymlink
      | Ok (Some _) => no_link_on env current l
      end
  end.

Definition output_below (declaredRoot root outputPath : string) : string :=
  if IsAbs outputPath then
    let absoluteOutput := Clean outputPath in
    match Rel declaredRoot absoluteOutput with
    | Some r => if bool_decide (r <> ".") && negb (escapesRoot r) then Join root r else absoluteOutput
    | None => absoluteOutput
    end
  else Join root (Clean outputPath).

Definition resolve_root (env : path_env) (rootPath : string) : result perr (string * string) :=
  let? rootPath := (if bool_decide (trim_space rootPath = EmptyString)
                    then result_map_err (EOutside "resolve output root") (p_Getwd env) else Ok rootPath) in
  let? declaredRoot := result_map_err (EOutside "resolve output root") (p_Abs env rootPath) in
  let? root := result_map_err (EOutside "resolve output root") (p_EvalSymlinks env declaredRoot) in
  match p_is_dir env root with
  | Ok true => Ok (declaredRoot, root)
  | Ok false => Err (EOutside "output root" "not a directory")
  | Err e => Err (EOutside "output root" e)
  end.

Definition cleanOutputPath (env : path_env) (outputPath rootPath : string) : result perr string :=
  let? roots := resolve_root env rootPath in
  let root := roots.2 in
  let outputPath := if bool_decide (trim_space outputPath = EmptyString) then "proto" else outputPath in
  let output := output_below roots.1 root outputPath in
  match Rel root output with
  | None => Err (ENotDescendant outputPath)
  | Some rel =>
      if bool_decide (rel = ".") || escapesRoot rel then Err (ENotDescendant outputPath)
      else let? _ := no_link_on env root (components rel) in Ok output
  end.

(** Fetch; the result is the output directory and its files. *)
Definition Fetch (env : path_env) (o : Options) : fop (string * list string) :=
  match validate url_Parse ToLower (o_Specification o) (o_Mode o) (SourceDirectory o) with
  | Err e => tret (Err e)
  | Ok _ =>
      match cleanOutputPath env (OutputDirectory o) (OutputRoot o) with
      | Err e => tret (Err e)
      | Ok output =>
          try! files := fetch_locked output o in
          tret (Ok (output, files))
      end
  end.
End fetch.
