(* ===== verification/ProtoFetchProofs.v ===== *)
(** * package protofetch: the output is never lost

    Whatever fails and wherever a fetch is cut, the output or its backup holds a
    whole tree: one that was there before, or one that a fetch had finished to
    stage; and a fetch that returns without an error leaves its own, also after
    a power loss. *)

From S2P Require Import Prelude.
From S2P Require Import GoStrings.
From S2P Require Import ProtoPath.
From S2P Require Import ProtoConfig.
From S2P Require Import ProtoSelect.
From S2P Require Import ProtoSelectProofs.
From S2P Require Import ProtoFetch.

(** ** Programs and the states they go through *)

(** From a state in [P], every state a possible trace of the program passes is
    in [S], and the last one is related to the value by [Q]. *)
Definition stays {A} (S P : FS -> Prop) (m : TM fev A) (Q : A -> FS -> Prop) : Prop :=
  forall h t a fs, P fs -> m h = (t, a) ->
  forall t1 t2 fs1, t = t1 ++ t2 -> fs_run fs t1 = Some fs1 -> S fs1 /\ (t2 = [] -> Q a fs1).

Section stays.
Context (S : FS -> Prop).

Lemma stays_ret {A} (a : A) P (Q : A -> FS -> Prop) :
  (forall fs, P fs -> S fs) -> (forall fs, P fs -> Q a fs) -> stays S P (tret a) Q.
Proof.
  intros HS HQ h t b fs HP [-> ->]%tret_inv t1 t2 fs1 E Hr. symmetry in E. apply app_eq_nil in E as [-> ->].
  injection Hr as <-. split; [by apply HS|intros _; by apply HQ].
Qed.

(** A call, of which [F] is known whatever it answers. *)
Lemma stays_asked {R} (F : R -> Prop) P (ask : list fev -> R) (mk : R -> fev) (Q : R -> FS -> Prop) :
  (forall h, F (ask h)) -> (forall fs, P fs -> S fs) ->
  (forall fs r fs', F r -> P fs -> fs_step fs (mk r) = Some fs' -> S fs' /\ Q r fs') -> stays S P (call ask mk) Q.
Proof.
  intros HF HS HQ h t r fs HP [-> ->]%call_inv t1 t2 fs1 E Hr. destruct t1 as [|e t1].
  - injection Hr as <-. split; [by apply HS|]. intros ->. done.
  - injection E as <- E. symmetry in E. apply app_eq_nil in E as [-> ->]. cbn in Hr.
    destruct (fs_step fs (mk (ask h))) as [fs'|] eqn:Es; [|done]. injection Hr as <-.
    destruct (HQ _ _ _ (HF h) HP Es). by split.
Qed.

Lemma stays_call {R} P (ask : list fev -> R) (mk : R -> fev) (Q : R -> FS -> Prop) :
  (forall fs, P fs -> S fs) -> (forall fs r fs', P fs -> fs_step fs (mk r) = Some fs' -> S fs' /\ Q r fs') ->
  stays S P (call ask mk) Q.
Proof. intros HS HQ. apply (stays_asked (fun _ => True)); [done..|]. eauto. Qed.

Lemma stays_bind {A B} P (m : TM fev A) (R : A -> FS -> Prop) (k : A -> TM fev B) Q :
  stays S P m R -> (forall a, stays S (R a) (k a) Q) -> stays S P (tbind m k) Q.
Proof.
  intros Hm Hk h t b fs HP (t1 & a & t2 & E1 & E2 & ->)%tbind_inv u1 u2 fs1 E Hr.
  apply app_eq_inv in E as [(l & -> & ->)|(l & -> & ->)].
  - destruct (Hm _ _ _ _ HP E1 u1 l fs1 eq_refl Hr) as [HS HR]. split; [done|].
    intros [-> ->]%app_eq_nil. rewrite app_nil_r in *. by eapply (Hk a _ _ _ _ (HR eq_refl) E2 [] []).
  - unfold fs_run in Hr. destruct (run_monitor fs_step fs t1) as [fs2|] eqn:Em.
    + rewrite (run_monitor_app _ _ _ _ _ Em) in Hr.
      destruct (Hm _ _ _ _ HP E1 t1 [] fs2) as [_ HR]; [by rewrite app_nil_r|done|].
      by eapply (Hk a _ _ _ _ (HR eq_refl) E2).
    + exfalso. clear - Em Hr. revert fs Em Hr. induction t1 as [|e t1 IH]; intros fs; cbn; [done|].
      destruct (fs_step fs e); [apply IH|done].
Qed.

Lemma stays_bind_ok {E A B} P (m : TM fev (result E A)) (R : result E A -> FS -> Prop) (k : A -> TM fev (result E B)) Q :
  stays S P m R -> (forall a, stays S (R (Ok a)) (k a) Q) ->
  (forall e fs, R (Err e) fs -> S fs /\ Q (Err e) fs) -> stays S P (tbind_ok m k) Q.
Proof.
  intros Hm Hk He. eapply stays_bind; [exact Hm|]. intros [a|e]; [apply Hk|].
  apply stays_ret; intros fs H; by apply He in H as [? ?].
Qed.

Lemma stays_conseq {A} (P P' : FS -> Prop) (m : TM fev A) (Q Q' : A -> FS -> Prop) :
  stays S P' m Q' -> (forall fs, P fs -> P' fs) -> (forall a fs, Q' a fs -> Q a fs) -> stays S P m Q.
Proof. intros Hm HP HQ h t a fs Hs E t1 t2 fs1 Et Hr. destruct (Hm _ _ _ _ (HP _ Hs) E _ _ _ Et Hr). auto. Qed.

Lemma stays_pre {A X} (P : X -> FS -> Prop) (m : TM fev A) Q :
  (forall x, stays S (P x) m Q) -> stays S (fun fs => exists x, P x fs) m Q.
Proof. intros H h t a fs [x Hx]. by apply (H x). Qed.

Lemma stays_weaken {A} (S' P : FS -> Prop) (m : TM fev A) Q : (forall fs, S fs -> S' fs) -> stays S P m Q -> stays S' P m Q.
Proof. intros HS Hm h t a fs HP E t1 t2 fs1 Et Hr. destruct (Hm _ _ _ _ HP E _ _ _ Et Hr). auto. Qed.

Lemma stays_absurd {A} (P : FS -> Prop) (m : TM fev A) Q : (forall fs, ~ P fs) -> stays S P m Q.
Proof. intros H h t a fs HP. by destruct (H _ HP). Qed.

(** A pure fact that holds at the start is available. *)
Lemma stays_given {A} (P : FS -> Prop) (F : Prop) (m : TM fev A) Q :
  (forall fs, P fs -> F) -> (F -> stays S P m Q) -> stays S P m Q.
Proof. intros HF H h t a fs HP. by apply (H (HF _ HP)). Qed.

(** A call that leaves the state alone. *)
Lemma stays_quiet {R} P (ask : list fev -> R) (mk : R -> fev) (Q : R -> FS -> Prop) :
  (forall fs, P fs -> S fs) -> (forall r fs fs', fs_step fs (mk r) = Some fs' -> fs' = fs) ->
  (forall r fs, P fs -> fs_step fs (mk r) = Some fs -> Q r fs) -> stays S P (call ask mk) Q.
Proof.
  intros HS Hq HQ. apply stays_call; [done|]. intros fs r fs' HP E. pose proof (Hq _ _ _ E) as ->. auto.
Qed.
End stays.

(** ** Disks *)

(** What a name stands for, if anything, and how whole that is. *)
Definition has (d : Disk) (p : string) (s : option tree_state) : Prop :=
  match s with
  | None => names d !! p = None
  | Some s => exists i, names d !! p = Some (NDir i) /\ trees d !! i = Some s
  end.

(** Names stand for trees of their own, with the numbers used so far. *)
Definition wf_disk (n : nat) (d : Disk) : Prop :=
  (forall p q i, names d !! p = Some (NDir i) -> names d !! q = Some (NDir i) -> p = q) /\
  (forall p i, names d !! p = Some (NDir i) -> i < n).

Lemma has_inj d p s s' : has d p s -> has d p s' -> s = s'.
Proof. destruct s as [s|], s' as [s'|]; cbn; try done; naive_solver. Qed.

Lemma wf_rename n d p q : wf_disk n d -> wf_disk n (rename_in p q d).
Proof.
  intros [Hi Hn]. unfold rename_in. destruct (names d !! p) as [x|] eqn:Ep; [|done]. split; cbn.
  - intros a b i Ha Hb.
    apply lookup_insert_Some in Ha as [[<- ->]|[Hqa [Hpa Ha]%lookup_delete_Some]],
      Hb as [[<- Eb]|[Hqb [Hpb Hb]%lookup_delete_Some]]; try done.
    + by destruct Hpb; apply (Hi _ _ i).
    + subst. by destruct Hpa; apply (Hi _ _ i).
    + by apply (Hi _ _ i).
  - intros a i [[_ ->]|[_ [_ Ha]%lookup_delete_Some]]%lookup_insert_Some; by eapply Hn.
Qed.

Lemma has_rename d p q s : p <> q -> has d p (Some s) ->
  has (rename_in p q d) q (Some s) /\ has (rename_in p q d) p None /\
  forall r u, r <> p -> r <> q -> has d r u -> has (rename_in p q d) r u.
Proof.
  intros Hpq (i & Ei & Et). unfold rename_in. rewrite Ei. cbn. split_and!.
  - exists i. by rewrite lookup_insert_eq.
  - by rewrite lookup_insert_ne, lookup_delete_eq.
  - intros r [u|] Hp Hq; cbn; by rewrite lookup_insert_ne, lookup_delete_ne by done.
Qed.

Lemma wf_set_tree n d p f : wf_disk n d -> wf_disk n (set_tree p f d).
Proof. unfold set_tree. by destruct (names d !! p) as [[i| |]|]. Qed.

Lemma has_set_tree n d p f s : wf_disk n d -> has d p (Some s) ->
  has (set_tree p f d) p (Some (f s)) /\ forall r u, r <> p -> has d r u -> has (set_tree p f d) r u.
Proof.
  intros [Hi _] (i & Ei & Et). unfold set_tree. rewrite Ei. split.
  - exists i. cbn. split; [done|]. by rewrite lookup_alter_eq, Et.
  - intros r [u|] Hr; cbn; [|done]. intros (j & Ej & Eu). exists j. split; [done|]. rewrite lookup_alter_ne; [done|].
    intros ->. by apply Hr, (Hi _ _ j).
Qed.

Lemma has_set_tree_other n d p f r u : wf_disk n d -> r <> p -> has d r u -> has (set_tree p f d) r u.
Proof.
  intros [Hi _] Hr H. unfold set_tree. destruct (names d !! p) as [[i| |]|] eqn:Ep; try done.
  destruct u as [u|]; [|done]. destruct H as (j & Ej & Eu). exists j. split; [done|]. cbn. rewrite lookup_alter_ne; [done|].
  intros ->. by apply Hr, (Hi _ _ j).
Qed.

Lemma wf_delete n d p : wf_disk n d -> wf_disk n (MkDisk (delete p (names d)) (trees d)).
Proof.
  intros [Hi Hn]. split; cbn.
  - intros a b i [_ Ha]%lookup_delete_Some [_ Hb]%lookup_delete_Some. by eapply Hi.
  - intros a i [_ Ha]%lookup_delete_Some. by eapply Hn.
Qed.

Lemma has_delete d p : has (MkDisk (delete p (names d)) (trees d)) p None /\
  forall r u, r <> p -> has d r u -> has (MkDisk (delete p (names d)) (trees d)) r u.
Proof. split; [cbn; by rewrite lookup_delete_eq|]. intros r [u|] Hr; cbn; by rewrite lookup_delete_ne by done. Qed.

Lemma wf_weaken n n' d : n <= n' -> wf_disk n d -> wf_disk n' d.
Proof. intros Hn [Hi Hd]. split; [done|]. intros p i H. specialize (Hd _ _ H). lia. Qed.

(** ** What a disk holds for the output *)

Section output.
Context (output : string).
Local Abbreviation backup := (backup output).

Lemma backup_ne : backup <> output.
Proof. unfold backup. intros E. apply (f_equal String.length) in E. rewrite slength_app in E. cbn in E. lia. Qed.

(** The tree recovery finds: the output, or the backup when there is none. *)
Definition recovers (o b : option tree_state) (x : option contents) : Prop :=
  match o, b with
  | Some (Whole c), _ | None, Some (Whole c) => x = Some c
  | None, None => x = None
  | _, _ => False
  end.

Lemma recovers_inj o b x y : recovers o b x -> recovers o b y -> x = y.
Proof. destruct o as [[| |]|], b as [[| |]|]; cbn; intros; subst; done. Qed.

(** The disk holds a tree of [X]. *)
Definition disk_ok (X : option contents -> Prop) (n : nat) (d : Disk) : Prop :=
  wf_disk n d /\ exists o b x, has d output o /\ has d backup b /\ recovers o b x /\ X x.

(** Now, and after a power loss. *)
Definition fs_ok (X : option contents -> Prop) (fs : FS) : Prop := Forall (disk_ok X (next fs)) (now fs :: since fs).

Lemma disk_ok_mono (X Y : option contents -> Prop) n d : (forall x, X x -> Y x) -> disk_ok X n d -> disk_ok Y n d.
Proof. intros H (Hw & o & b & x & Ho & Hb & Hr & Hx). split; [done|]. exists o, b, x. auto. Qed.

Lemma fs_ok_mono (X Y : option contents -> Prop) fs : (forall x, X x -> Y x) -> fs_ok X fs -> fs_ok Y fs.
Proof. intros H Hf. eapply Forall_impl; [exact Hf|]. intros d. by apply disk_ok_mono. Qed.

Lemma fs_ok_now X fs : fs_ok X fs -> disk_ok X (next fs) (now fs).
Proof. intros H. by inversion H. Qed.

Lemma fs_ok_change X fs d : fs_ok X fs -> disk_ok X (next fs) d -> fs_ok X (change d fs).
Proof. intros Hf Hd. by constructor. Qed.

Lemma fs_ok_x X fs o b x : fs_ok X fs -> has (now fs) output o -> has (now fs) backup b -> recovers o b x -> X x.
Proof.
  intros (_ & o' & b' & y & Ho' & Hb' & Hr' & Hx)%fs_ok_now Ho Hb Hr.
  rewrite (has_inj _ _ _ _ Ho Ho'), (has_inj _ _ _ _ Hb Hb') in Hr. by rewrite (recovers_inj _ _ _ _ Hr Hr').
Qed.

(** What another name does matters to neither. *)
Lemma disk_ok_other X n d d' : disk_ok X n d -> wf_disk n d' ->
  (forall u, has d output u -> has d' output u) -> (forall u, has d backup u -> has d' backup u) -> disk_ok X n d'.
Proof. intros (_ & o & b & x & Ho & Hb & Hr & Hx) Hw H1 H2. split; [done|]. exists o, b, x. auto. Qed.

(** A power loss keeps what may be found. *)
Lemma power_loss_ok X fs fs' : fs_ok X fs -> power_loss fs fs' -> fs_ok X fs'.
Proof.
  intros Hf [d Hd]. unfold fs_ok in Hf. rewrite Forall_forall in Hf.
  destruct (Hf d Hd) as ((Hi & Hn) & o & b & x & Ho & Hb & Hr & Hx). apply Forall_singleton. split; [done|].
  assert (forall p u, has d p u -> has (MkDisk (names d) (lost <$> trees d)) p (lost <$> u)) as Hl.
  { intros p [u|]; [|done]. intros (i & Ei & Et). exists i. split; [done|]. cbn. by rewrite lookup_fmap, Et. }
  exists (lost <$> o), (lost <$> b), x. split_and!; [by apply Hl..| |done]. by destruct o as [[| |]|], b as [[| |]|].
Qed.

(** ** The steps of a replacement *)

Section replacing.
Context (stage : string) (Hso : stage <> output) (Hsb : stage <> backup) (c : contents).
Context (X : option contents -> Prop) (HX : X (Some c)) (W : list contents).

(** All that happens stays within [X]. *)
Definition inside (fs : FS) : Prop := fs_ok X fs /\ written fs = W.

(** What the three names stand for, and that a power loss stays in [Y]. *)
Definition pt (Y : option contents -> Prop) (o b s : option tree_state) (fs : FS) : Prop :=
  fs_ok Y fs /\ written fs = W /\ has (now fs) output o /\ has (now fs) backup b /\ has (now fs) stage s.

Lemma pt_inside Y o b s fs : (forall x, Y x -> X x) -> pt Y o b s fs -> inside fs.
Proof. intros H (Hf & Hw & _). split; [by eapply fs_ok_mono|done]. Qed.

Lemma pt_change Y o b s o' b' s' x fs d : pt Y o b s fs -> wf_disk (next fs) d ->
  has d output o' -> has d backup b' -> has d stage s' -> recovers o' b' x -> Y x -> pt Y o' b' s' (change d fs).
Proof.
  intros (Hf & Hw & _) Hd Ho Hb Hs Hr Hx. split_and!; try done. apply fs_ok_change; [done|]. split; [done|]. by exists o', b', x.
Qed.

Lemma pt_wf Y o b s fs : pt Y o b s fs -> wf_disk (next fs) (now fs).
Proof. intros (Hf%fs_ok_now & _). apply Hf. Qed.

(** A rename between two of the names. *)
Lemma rename_step w Y from to o b s o' b' s' x :
  (forall y, Y y -> X y) -> from <> to ->
  (forall fs, pt Y o b s fs -> exists u, has (now fs) from (Some u)) ->
  (forall fs, pt Y o b s fs -> let d := rename_in from to (now fs) in has d output o' /\ has d backup b' /\ has d stage s') ->
  recovers o' b' x -> (forall fs, pt Y o b s fs -> Y x) ->
  stays inside (pt Y o b s) (Rename w from to) (fun e => match e with None => pt Y o' b' s' | Some _ => pt Y o b s end).
Proof.
  intros HY Hne Hfrom Hto Hr Hx. apply stays_call; [intros fs; by apply pt_inside, HY|].
  intros fs [e|] fs' Hp E; cbn in E; [injection E as <-; split; [eapply pt_inside; [exact HY|done]|done]|].
  case_bool_decide; [|done]. injection E as <-. destruct (Hto _ Hp) as (Ho & Hb & Hs).
  assert (pt Y o' b' s' (change (rename_in from to (now fs)) fs)) as Hp'.
  { eapply pt_change; [done|by eapply wf_rename, pt_wf|done..|by eapply Hx]. }
  split; [eapply pt_inside; [exact HY|done]|done].
Qed.

Lemma output_to_backup w Y u s : (forall y, Y y -> X y) ->
  stays inside (pt Y (Some (Whole u)) None s) (Rename w output backup)
    (fun e => match e with None => pt Y None (Some (Whole u)) s | Some _ => pt Y (Some (Whole u)) None s end).
Proof.
  intros HY. pose proof backup_ne. apply (rename_step w Y _ _ _ _ _ None (Some (Whole u)) s (Some u)); try done.
  - intros fs (_ & _ & Ho & _). by exists (Whole u).
  - intros fs (_ & _ & Ho & Hb & Hs). destruct (has_rename _ output backup _ ltac:(congruence) Ho) as (? & ? & H3).
    split_and!; [done..|]. by apply H3.
  - intros fs (Hf & _ & Ho & Hb & _). by eapply fs_ok_x.
Qed.

Lemma backup_to_output w Y u s : (forall y, Y y -> X y) ->
  stays inside (pt Y None (Some (Whole u)) s) (Rename w backup output)
    (fun e => match e with None => pt Y (Some (Whole u)) None s | Some _ => pt Y None (Some (Whole u)) s end).
Proof.
  intros HY. pose proof backup_ne. apply (rename_step w Y _ _ _ _ _ (Some (Whole u)) None s (Some u)); try done.
  - intros fs (_ & _ & _ & Hb & _). by exists (Whole u).
  - intros fs (_ & _ & Ho & Hb & Hs). destruct (has_rename _ backup output _ ltac:(congruence) Hb) as (? & ? & H3).
    split_and!; [done..|]. by apply H3.
  - intros fs (Hf & _ & Ho & Hb & _). by eapply fs_ok_x.
Qed.

Lemma stage_to_output w b : 
  stays inside (pt X None b (Some (Whole c))) (Rename w stage output)
    (fun e => match e with None => pt X (Some (Whole c)) b None | Some _ => pt X None b (Some (Whole c)) end).
Proof.
  pose proof backup_ne. apply (rename_step w X _ _ _ _ _ (Some (Whole c)) b None (Some c)); try done.
  - intros fs (_ & _ & _ & _ & Hs). by exists (Whole c).
  - intros fs (_ & _ & Ho & Hb & Hs). destruct (has_rename _ stage output _ ltac:(congruence) Hs) as (? & ? & H3).
    split_and!; [done| |done]. by apply H3.
Qed.

Lemma output_to_stage w b x : recovers None b x -> X x ->
  stays inside (pt X (Some (Whole c)) b None) (Rename w output stage)
    (fun e => match e with None => pt X None b (Some (Whole c)) | Some _ => pt X (Some (Whole c)) b None end).
Proof.
  intros Hr Hx. pose proof backup_ne. apply (rename_step w X _ _ _ _ _ None b (Some (Whole c)) x); [done|by apply not_eq_sym| | |done|done].
  - intros fs (_ & _ & Ho & _). by exists (Whole c).
  - intros fs (_ & _ & Ho & Hb & Hs). destruct (has_rename _ output stage _ ltac:(congruence) Ho) as (? & ? & H3).
    split_and!; [done| |done]. apply H3; congruence.
Qed.

(** A sync that succeeds leaves the present state alone on the disk. *)
Lemma sync_step w Y o b s x : (forall y, Y y -> X y) -> recovers o b x ->
  stays inside (pt Y o b s) (syncParent w)
    (fun e => match e with None => fun fs => pt (eq x) o b s fs /\ Y x | Some _ => pt Y o b s end).
Proof.
  intros HY Hr. apply stays_call; [intros fs; by apply pt_inside, HY|].
  intros fs [e|] fs' Hp E; cbn in E; injection E as <-; [split; [eapply pt_inside; [exact HY|done]|done]|].
  pose proof Hp as (Hf & Hw & Ho & Hb & Hs). pose proof (fs_ok_x _ _ _ _ _ Hf Ho Hb Hr) as Hx.
  assert (pt (eq x) o b s (MkFS (now fs) [] (next fs) (written fs))) as Hp'.
  { split_and!; try done. apply Forall_singleton. split; [exact (pt_wf _ _ _ _ _ Hp)|]. by exists o, b, x. }
  split; [|done]. eapply pt_inside; [|exact Hp']. intros y <-. auto.
Qed.

(** The backup is removed while the output stands. *)
Lemma remove_backup w Y u s v : (forall y, Y y -> X y) ->
  stays inside (pt Y (Some (Whole u)) (Some v) s) (RemoveAll w backup)
    (fun e => match e with None => pt Y (Some (Whole u)) None s | Some _ => fun fs => exists v, pt Y (Some (Whole u)) (Some v) s fs end).
Proof.
  intros HY. pose proof backup_ne. unfold RemoveAll.
  apply (stays_bind _ _ _ (fun _ => pt Y (Some (Whole u)) (Some Damaged) s)).
  - apply stays_call; [intros fs; by apply pt_inside, HY|]. intros fs r fs' Hp E. cbn in E. injection E as <-.
    pose proof Hp as (Hf & Hw & Ho & Hb & Hs). pose proof (pt_wf _ _ _ _ _ Hp) as Hwf.
    destruct (has_set_tree _ _ _ (fun _ => Damaged) _ Hwf Hb) as (H1 & H2).
    assert (pt Y (Some (Whole u)) (Some Damaged) s (change (set_tree backup (fun _ => Damaged) (now fs)) fs)) as Hp'.
    { eapply (pt_change _ _ _ _ _ _ _ (Some u)); [done|by apply wf_set_tree|apply H2; done || congruence|done|by apply H2|done|].
      by eapply fs_ok_x. }
    split; [eapply pt_inside; [exact HY|done]|done].
  - intros _. apply stays_call; [intros fs; by apply pt_inside, HY|]. intros fs [e|] fs' Hp E; cbn in E; injection E as <-.
    { split; [eapply pt_inside; [exact HY|done]|]. by exists Damaged. }
    pose proof Hp as (Hf & Hw & Ho & Hb & Hs). pose proof (pt_wf _ _ _ _ _ Hp) as Hwf.
    destruct (has_delete (now fs) backup) as (H1 & H2).
    assert (pt Y (Some (Whole u)) None s (change (MkDisk (delete backup (names (now fs))) (trees (now fs))) fs)) as Hp'.
    { eapply (pt_change _ _ _ _ _ _ _ (Some u)); [done|by apply wf_delete|apply H2; done || congruence|done|by apply H2|done|].
      by eapply fs_ok_x. }
    split; [eapply pt_inside; [exact HY|done]|done].
Qed.
(** ** replaceDirectory *)

(** A function that ends here leaves the state inside. *)
Lemma end_inside {A} Y o b s (a : A) : (forall y, Y y -> X y) -> stays inside (pt Y o b s) (tret a) (fun _ => inside).
Proof. intros HY. apply stays_ret; intros fs Hp; eapply pt_inside; [exact HY|exact Hp|exact HY|exact Hp]. Qed.

Lemma inside_id : forall y, X y -> X y.
Proof. done. Qed.

Hint Resolve inside_id : core.

Lemma sync_end {A} w Y o b s x (k : option ext -> A) : (forall y, Y y -> X y) -> recovers o b x ->
  stays inside (pt Y o b s) (let! e := syncParent w in tret (k e)) (fun _ => inside).
Proof.
  intros HY Hr. eapply stays_bind; [by apply (sync_step w Y o b s x)|]. intros [e|]; [by eapply end_inside|].
  apply stays_ret; intros fs [Hp Hx]; (eapply pt_inside; [|exact Hp]); intros y <-; auto.
Qed.

(** The old output, if there was one, is the backup. *)
Definition staged_old (hadOutput : bool) (b : option tree_state) : Prop :=
  if hadOutput then exists u, b = Some (Whole u) else b = None.

Lemma staged_old_recovers hadOutput b : staged_old hadOutput b -> exists x, recovers None b x.
Proof. destruct hadOutput; [intros [u ->]; by exists (Some u)|intros ->; by exists None]. Qed.

Lemma rollback_stays w hadOutput b x : staged_old hadOutput b -> recovers None b x -> X x ->
  stays inside (pt X (Some (Whole c)) b None) (rollbackInstalledDirectory w output stage hadOutput) (fun _ => inside).
Proof.
  intros Hb Hr Hx. unfold rollbackInstalledDirectory.
  eapply stays_bind; [by apply (output_to_stage w b x)|]. intros [e|]; [by apply (end_inside X (Some (Whole c)) b None)|].
  destruct hadOutput; [destruct Hb as [u ->]|cbn in Hb; subst b].
  - eapply stays_bind; [by apply backup_to_output|]. intros [e|]; [|by eapply sync_end].
    eapply stays_bind; [apply stage_to_output|]. intros [e'|]; by eapply end_inside.
  - eapply (stays_bind _ _ _ (fun r fs => r = None /\ pt X None None (Some (Whole c)) fs)).
    { apply stays_ret; [intros fs Hp; by eapply pt_inside|done]. }
    intros [e|]; [by apply stays_absurd; intros fs [? _]|]. eapply stays_conseq; [by eapply (sync_end w X None None _ None)|by intros fs [_ ?]|done].
Qed.

Lemma install_failed_stays w hadOutput b e : staged_old hadOutput b ->
  stays inside (pt X None b (Some (Whole c))) (install_failed w output hadOutput e) (fun r fs => is_ok r = false /\ inside fs).
Proof.
  intros Hb. unfold install_failed. destruct hadOutput; [destruct Hb as [u ->]|cbn in Hb; subst b].
  - eapply stays_bind; [by apply backup_to_output|]. intros [e'|].
    + apply stays_ret; intros fs Hp; [|split; [done|]]; by eapply pt_inside.
    + eapply stays_bind; [by eapply (sync_step w X)|]. intros s. apply stays_ret; intros fs Hp.
      * destruct s; [by eapply pt_inside|]. destruct Hp as [Hp Hx]. eapply pt_inside; [|exact Hp]. by intros y <-.
      * split; [done|]. destruct s; [by eapply pt_inside|]. destruct Hp as [Hp Hx]. eapply pt_inside; [|exact Hp]. by intros y <-.
  - apply stays_ret; intros fs Hp; [|split; [done|]]; by eapply pt_inside.
Qed.

(** A replacement that succeeds leaves its own tree, and nothing else for a
    power loss to find; one that fails leaves what was there, or its own. *)
Definition replaced (r : result perr unit) (fs : FS) : Prop :=
  inside fs /\ (is_ok r = true -> fs_ok (eq (Some c)) fs).

Lemma replaced_pt o b s fs r : pt (eq (Some c)) o b s fs -> replaced r fs.
Proof. intros Hp. split; [|intros _; apply Hp]. eapply pt_inside; [|exact Hp]. by intros y <-. Qed.

Lemma or_fail_stays what P (m : TM fev (option ext)) (Q : option ext -> FS -> Prop) :
  stays inside P m Q -> (forall e fs, Q e fs -> inside fs) ->
  stays inside P (or_fail what m) (fun r => match r with Ok _ => Q None | Err _ => inside end).
Proof.
  intros Hm Hi. eapply stays_bind; [exact Hm|]. intros [e|]; apply stays_ret; intros fs H; eauto.
Qed.

Lemma installed_stays w hadOutput b : staged_old hadOutput b ->
  stays inside (pt (eq (Some c)) (Some (Whole c)) b None)
    (if hadOutput then
       try! _ := or_fail "remove old output backup" (RemoveAll w backup) in
       or_fail "sync removed output backup" (syncParent w)
     else tret (Ok tt)) replaced.
Proof.
  intros Hb. assert (forall y, Some c = y -> X y) as HY by by intros y <-.
  destruct hadOutput; [destruct Hb as [u ->]|cbn in Hb; subst b].
  2:{ apply stays_ret; intros fs Hp; [by eapply pt_inside|by eapply replaced_pt]. }
  eapply (stays_bind_ok _ _ _ (fun r => match r with Ok _ => pt (eq (Some c)) (Some (Whole c)) None None | Err _ => inside end)).
  - eapply stays_conseq; [apply (or_fail_stays _ _ _ _ (remove_backup w _ c None (Whole u) HY))|done|by intros [[]|e] fs Hp].
    intros [e|] fs; [intros [v Hp]|intros Hp]; by eapply pt_inside.
  - intros []. eapply stays_conseq; [apply (or_fail_stays _ _ _ _ (sync_step w (eq (Some c)) (Some (Whole c)) None None (Some c) HY eq_refl))|done|].
    + intros [e|] fs Hp; [by eapply pt_inside|]. destruct Hp as [Hp _]. by eapply pt_inside.
    + intros [[]|e] fs Hp; [|by split]. destruct Hp as [Hp _]. by eapply replaced_pt.
  - intros e fs Hi. split; [done|]. by split.
Qed.

Lemma install_stays w hadOutput b : staged_old hadOutput b ->
  stays inside (pt X None b (Some (Whole c))) (install w output stage hadOutput) replaced.
Proof.
  intros Hb. destruct (staged_old_recovers _ _ Hb) as [x Hr].
  assert (forall fs, pt X None b (Some (Whole c)) fs -> X x) as Hx.
  { intros fs (Hf & _ & Ho & Hbk & _). exact (fs_ok_x _ _ _ _ _ Hf Ho Hbk Hr). }
  intros h t a fs Hp. specialize (Hx _ Hp). revert h t a fs Hp.
  change (stays inside (pt X None b (Some (Whole c))) (install w output stage hadOutput) replaced). unfold install.
  eapply stays_bind; [apply stage_to_output|]. intros [e|].
  { eapply stays_conseq; [by apply install_failed_stays|done|]. intros r fs [Hr' Hi]. split; [done|]. congruence. }
  eapply stays_bind; [by apply (sync_step w X _ _ _ (Some c))|]. intros [e|].
  - eapply stays_bind; [by eapply rollback_stays|]. intros r. apply stays_ret; [done|]. intros fs Hi. by split.
  - eapply stays_conseq; [by apply installed_stays|by intros fs [? _]|done].
Qed.

Lemma end_replaced o b s e : stays inside (pt X o b s) (tret (Err e)) replaced.
Proof. apply stays_ret; intros fs Hp; [|split; [|done]]; by eapply pt_inside. Qed.

(** Lstat tells whether the name is there. *)
Lemma lstat_stays w P p s : (forall fs, P fs -> inside fs) -> (forall fs, P fs -> has (now fs) p s) ->
  stays inside P (Lstat w p) (fun r fs => P fs /\ (r = Ok None -> s = None) /\ (forall k, r = Ok (Some k) -> s <> None)).
Proof.
  intros Hi Hs. apply stays_quiet; [done|by intros [k|e] fs fs'; cbn; [case_bool_decide; [|done]|]; intros [= ->]|].
  intros [k|e] fs HP E; (split; [done|]); [|done]. cbn in E. case_bool_decide as Hk; [|done]. subst k. apply Hs in HP.
  destruct s as [s|]; cbn in HP; [destruct HP as (i & -> & _)|rewrite HP]; by split.
Qed.

Lemma replaceDirectory_stays w :
  stays inside (fun fs => exists o b, pt X o b (Some (Whole c)) fs) (replaceDirectory w output stage) replaced.
Proof.
  apply stays_pre. intros o. apply stays_pre. intros b. unfold replaceDirectory.
  eapply stays_bind; [apply (lstat_stays w (pt X o b (Some (Whole c))) backup b); [intros fs; by apply pt_inside|by intros fs (_ & _ & _ & ? & _)]|].
  intros [[k|]|e]; [eapply stays_conseq; [apply end_replaced|by intros fs [? _]|done]| |
    eapply stays_conseq; [apply end_replaced|by intros fs [? _]|done]].
  apply (stays_given _ _ (b = None)); [by intros fs (_ & H & _); apply H|]. intros ->.
  eapply stays_bind.
  { eapply stays_conseq; [apply (lstat_stays w (pt X o None (Some (Whole c))) output o); [intros fs; by apply pt_inside|by intros fs (_ & _ & ? & _)]
      |by intros fs [? _]|]. intros r fs H. exact H. }
  intros [[k|]|e]; [| |eapply stays_conseq; [apply end_replaced|by intros fs [? _]|done]].
  - apply (stays_given _ _ (exists u, o = Some (Whole u))).
    { intros fs ((Hf & _ & Ho & Hb & _) & _ & Hk). destruct (fs_ok_now _ _ Hf) as (_ & o' & b' & x & Ho' & Hb' & Hr & _).
      rewrite (has_inj _ _ _ _ Ho Ho') in *. rewrite <- (has_inj _ _ _ _ Hb Hb') in Hr. specialize (Hk k eq_refl).
      destruct o' as [[|u|]|]; try done. by exists u. }
    intros [u ->]. eapply stays_bind; [eapply stays_conseq; [by apply (output_to_backup w X u (Some (Whole c)))|by intros fs [? _]|intros r fs H; exact H]|].
    intros [e|]; [apply end_replaced|]. eapply stays_bind; [by apply (sync_step w X None (Some (Whole u)) (Some (Whole c)) (Some u))|]. intros [e|].
    + eapply (stays_bind _ _ _ (fun _ => inside)).
      * unfold unstage. eapply stays_bind; [by apply (backup_to_output w X u (Some (Whole c)))|]. intros [e'|]; [by apply (end_inside X None (Some (Whole u)) (Some (Whole c)))|].
        eapply stays_conseq; [by apply (sync_step w X (Some (Whole u)) None (Some (Whole c)) (Some u))|done|].
        intros [e'|] fs Hp; [by eapply pt_inside|]. destruct Hp as [Hp Hx]. eapply pt_inside; [|exact Hp]. by intros y <-.
      * intros r. apply stays_ret; [done|]. intros fs Hi. by split.
    + eapply stays_conseq; [apply (install_stays w true (Some (Whole u))); by exists u| |done].
      intros fs [Hp Hx]. destruct Hp as (Hf & Hp). split; [|exact Hp]. eapply fs_ok_mono; [|exact Hf]. by intros y <-.
  - apply (stays_given _ _ (o = None)); [by intros fs (_ & H & _); apply H|]. intros ->.
    eapply stays_conseq; [by apply (install_stays w false None)|by intros fs [? _]|done].
Qed.
End replacing.

(** ** recoverOutput *)

Section recovering.
Context (X : option contents -> Prop) (W : list contents).

Definition steady (fs : FS) : Prop := fs_ok X fs /\ written fs = W.

(** A state in which nothing is lost, seen with a name that is free. *)
Lemma steady_pt fs : steady fs -> exists spare o b x, spare <> output /\ spare <> backup /\ recovers o b x /\ X x /\
  pt spare W X o b None fs.
Proof.
  intros [Hf Hw]. destruct (fs_ok_now _ _ Hf) as (_ & o & b & x & Ho & Hb & Hr & Hx).
  set (spare := fresh (dom (names (now fs)) ∪ {[output; backup]})).
  assert (spare ∉ dom (names (now fs)) ∪ {[output; backup]}) as Hn by apply is_fresh.
  exists spare, o, b, x. split_and!; [set_solver..|done|done|]. split_and!; try done. cbn. apply not_elem_of_dom. set_solver.
Qed.

(** Recovery that succeeds leaves no backup, and the tree there was. *)
Definition recovered (x : option contents) (r : result perr unit) (fs : FS) : Prop :=
  steady fs /\ (is_ok r = true -> exists o, has (now fs) output o /\ has (now fs) backup None /\ recovers o None x).

Section with_spare.
Context (spare : string) (Hso : spare <> output) (Hsb : spare <> backup) (w : fworld).
Local Abbreviation spot := (pt spare W X).

Lemma spot_steady o b fs : spot o b None fs -> steady fs.
Proof. intros (Hf & Hw & _). by split. Qed.

Lemma recover_end x e o b : stays steady (spot o b None) (tret (Err e)) (recovered x).
Proof. apply stays_ret; intros fs Hp; [|split; [|done]]; by eapply spot_steady. Qed.

(** The last sync of a recovery. *)
Lemma recover_sync what u :
  stays steady (spot (Some (Whole u)) None None) (or_fail what (syncParent w)) (recovered (Some u)).
Proof.
  assert (forall fs, pt spare W (eq (Some u)) (Some (Whole u)) None None fs /\ X (Some u) -> steady fs) as Hi.
  { intros fs [(Hf & Hw & _) Hx]. split; [|done]. eapply fs_ok_mono; [|exact Hf]. by intros y <-. }
  eapply stays_conseq;
    [apply (or_fail_stays X W _ _ _ _ (sync_step spare X W w X (Some (Whole u)) None None (Some u) (inside_id X) eq_refl))|done|].
  - intros [e|] fs Hp; [by eapply spot_steady|by apply Hi].
  - intros [[]|e] fs Hp; [|by split]. split; [by apply Hi|]. intros _. destruct Hp as [(_ & _ & Ho & Hb & _) _]. by exists (Some (Whole u)).
Qed.

(** One step of a recovery, and its last sync. *)
Lemma recover_then o b u what what' (m : TM fev (option ext)) (Q : option ext -> FS -> Prop) :
  stays steady (spot o b None) m Q -> (forall e fs, Q e fs -> steady fs) ->
  (forall fs, Q None fs -> spot (Some (Whole u)) None None fs) ->
  stays steady (spot o b None) (try! _ := or_fail what m in or_fail what' (syncParent w)) (recovered (Some u)).
Proof.
  intros Hm Hi Hq. eapply stays_bind_ok; [by apply (or_fail_stays X W _ _ _ _ Hm)|intros []|intros e fs H; by split; [|split]].
  eapply stays_conseq; [apply recover_sync|exact Hq|done].
Qed.

Lemma recover_finish u v :
  stays steady (spot (Some (Whole u)) (Some v) None)
    (try! _ := or_fail "finish interrupted output replacement" (RemoveAll w backup) in
     or_fail "sync recovered output replacement" (syncParent w)) (recovered (Some u)).
Proof.
  eapply recover_then; [apply (remove_backup spare Hsb X W w X u None v (inside_id X))| |done].
  intros [e|] fs; [intros [v' Hp]|intros Hp]; by eapply spot_steady.
Qed.

Lemma recover_restore u :
  stays steady (spot None (Some (Whole u)) None)
    (try! _ := or_fail "restore interrupted output" (Rename w backup output) in
     or_fail "sync restored output" (syncParent w)) (recovered (Some u)).
Proof.
  eapply recover_then; [apply (backup_to_output spare Hso Hsb X W w X u None (inside_id X))| |done].
  intros [e|] fs Hp; by eapply spot_steady.
Qed.

Lemma recover_spot o b x : recovers o b x -> stays steady (spot o b None) (recoverOutput w output) (recovered x).
Proof.
  intros Hr. unfold recoverOutput.
  eapply stays_bind; [apply (lstat_stays X W w (spot o b None) backup b); [by apply spot_steady|by intros fs (_ & _ & _ & ? & _)]|].
  intros [[k|]|e]; [| |eapply stays_conseq; [apply recover_end|by intros fs [? _]|done]].
  2:{ apply (stays_given _ _ (b = None)); [by intros fs (_ & H & _); apply H|]. intros ->.
      apply stays_ret; intros fs [Hp _]; [by eapply spot_steady|]. split; [by eapply spot_steady|]. intros _.
      destruct Hp as (_ & _ & Ho & Hb & _). by exists o. }
  destruct k; [|eapply stays_conseq; [apply recover_end|by intros fs [? _]|done]..].
  apply (stays_given _ _ (b <> None)); [intros fs (_ & _ & H); by eapply H|]. intros Hb.
  eapply stays_bind.
  { eapply stays_conseq; [apply (lstat_stays X W w (spot o b None) output o); [by apply spot_steady|by intros fs (_ & _ & ? & _)]
      |by intros fs [? _]|intros r fs H; exact H]. }
  intros [[k|]|e]; [| |eapply stays_conseq; [apply recover_end|by intros fs [? _]|done]].
  - destruct k; [|eapply stays_conseq; [apply recover_end|by intros fs [? _]|done]..].
    apply (stays_given _ _ (o <> None)); [intros fs (_ & _ & H); by eapply H|]. intros Ho.
    destruct o as [[|u|]|], b as [v|]; try done. cbn in Hr. subst x.
    eapply stays_conseq; [apply recover_finish|by intros fs [? _]|done].
  - apply (stays_given _ _ (o = None)); [by intros fs (_ & H & _); apply H|]. intros ->.
    destruct b as [[|u|]|]; try done. cbn in Hr. subst x.
    eapply stays_conseq; [apply recover_restore|by intros fs [? _]|done].
Qed.
End with_spare.

Lemma recoverOutput_stays w x :
  stays steady (fun fs => steady fs /\ exists o b, has (now fs) output o /\ has (now fs) backup b /\ recovers o b x)
    (recoverOutput w output) (recovered x).
Proof.
  intros h t a fs (Hs & o & b & Ho & Hb & Hr). destruct (steady_pt _ Hs) as (spare & o' & b' & x' & H1 & H2 & _ & _ & Hp).
  pose proof Hp as (_ & _ & Ho' & Hb' & _). rewrite (has_inj _ _ _ _ Ho Ho'), (has_inj _ _ _ _ Hb Hb') in Hr.
  by apply (recover_spot spare H1 H2 w _ _ _ Hr).
Qed.
End recovering.

(** ** Fetch *)

Section fetching.
Context (Hout : temp_name output = false) (Hbak : temp_name backup = false).
Context (X0 : option contents -> Prop) (W0 : list contents).

(** What may be found: what was there, or what this run wrote. *)
Definition or_written (W1 : list contents) (x : option contents) : Prop := X0 x \/ exists c, c ∈ W1 /\ x = Some c.

Definition grown (fs : FS) : Prop := exists W1, written fs = W0 ++ W1 /\ fs_ok (or_written W1) fs.

(** A run that succeeds leaves what it wrote last, and nothing else. *)
Definition outcome {A} (good : A -> contents -> Prop) (r : result perr A) (fs : FS) : Prop :=
  grown fs /\ forall a, r = Ok a -> exists c, last (written fs) = Some c /\ fs_ok (eq (Some c)) fs /\ good a c.

Lemma steady_grown fs : steady X0 W0 fs -> grown fs.
Proof. intros [Hf Hw]. exists []. rewrite app_nil_r. split; [done|]. eapply fs_ok_mono; [|exact Hf]. by left. Qed.

Lemma inside_grown W1 fs : inside (or_written W1) (W0 ++ W1) fs -> grown fs.
Proof. intros [Hf Hw]. by exists W1. Qed.

Lemma end_error {A} (good : A -> contents -> Prop) P (e : perr) : (forall fs, P fs -> grown fs) -> stays grown P (tret (Err e)) (@outcome A good).
Proof. intros HP. apply stays_ret; [done|]. intros fs H. by split; [apply HP|]. Qed.

(** A change to a name that is neither the output nor its backup. *)
Lemma fs_ok_aside X fs d : fs_ok X fs -> wf_disk (next fs) d ->
  (forall p u, p = output \/ p = backup -> has (now fs) p u -> has d p u) -> fs_ok X (change d fs).
Proof. intros Hf Hd Hp. apply fs_ok_change; [done|]. eapply disk_ok_other; [by apply fs_ok_now|done|..]; intros u; apply Hp; auto. Qed.

Lemma fs_ok_wf X fs : fs_ok X fs -> wf_disk (next fs) (now fs).
Proof. intros H%fs_ok_now. apply H. Qed.

Lemma fs_ok_set_tree X fs p f : p <> output -> p <> backup -> fs_ok X fs -> fs_ok X (change (set_tree p f (now fs)) fs).
Proof.
  intros Ho Hb Hf. pose proof (fs_ok_wf _ _ Hf) as Hw. apply fs_ok_aside; [done|by apply wf_set_tree|].
  intros q u [->| ->]; by eapply has_set_tree_other.
Qed.

Lemma fs_ok_delete X fs p : p <> output -> p <> backup -> fs_ok X fs ->
  fs_ok X (change (MkDisk (delete p (names (now fs))) (trees (now fs))) fs).
Proof.
  intros Ho Hb Hf. pose proof (fs_ok_wf _ _ Hf) as Hw. apply fs_ok_aside; [done|by apply wf_delete|].
  intros q u [->| ->]; by apply has_delete.
Qed.

(** The stage is removed: what was found, or left, stays. *)
Lemma outcome_change {A} good (r : result perr A) fs d :
  (forall X, fs_ok X fs -> fs_ok X (change d fs)) -> outcome good r fs -> outcome good r (change d fs).
Proof.
  intros Hd [(W1 & Hw & Hf) Hok]. split; [exists W1; split; [done|by apply Hd]|].
  intros a E. destruct (Hok a E) as (c & Hc & Hfc & Hg). exists c. split_and!; [done|by apply Hd|done].
Qed.

Lemma remove_stage {A} good w p (r : result perr A) : p <> output -> p <> backup ->
  stays grown (outcome good r) (RemoveAll w p) (fun _ => outcome good r).
Proof.
  intros Ho Hb. unfold RemoveAll. eapply (stays_bind _ _ _ (fun _ => outcome good r)).
  - apply stays_call; [by intros fs [? _]|]. intros fs x fs' Hp E. cbn in E. injection E as <-.
    assert (outcome good r (change (set_tree p (fun _ => Damaged) (now fs)) fs)) as H; [|split; [apply H|done]].
    apply outcome_change; [|done]. intros X. by apply fs_ok_set_tree.
  - intros _. apply stays_call; [by intros fs [? _]|]. intros fs [e|] fs' Hp E; cbn in E; injection E as <-; [split; [apply Hp|done]|].
    assert (outcome good r (change (MkDisk (delete p (names (now fs))) (trees (now fs))) fs)) as H; [|split; [apply H|done]].
    apply outcome_change; [|done]. intros X. by apply fs_ok_delete.
Qed.

(** ** The stage while it is filled *)

Definition staging (stage : string) (W1 : list contents) (s : tree_state) (fs : FS) : Prop :=
  fs_ok X0 fs /\ written fs = W0 ++ W1 /\ has (now fs) stage (Some s).

Lemma staging_grown stage W1 s fs : staging stage W1 s fs -> grown fs.
Proof. intros (Hf & Hw & _). exists W1. split; [done|]. eapply fs_ok_mono; [|exact Hf]. by left. Qed.

Lemma mkdir_stays w :
  stays grown (steady X0 W0) (call (w_MkdirTemp w) FMkdirTemp)
    (fun r => match r with
              | Ok stage => fun fs => stage <> output /\ stage <> backup /\ staging stage [] (Building ∅) fs
              | Err _ => steady X0 W0
              end).
Proof.
  apply stays_call; [by apply steady_grown|]. intros fs [stage|e] fs' [Hf Hw] E; cbn [fs_step] in E.
  2:{ injection E as <-. assert (steady X0 W0 fs) as H by by split. split; [by apply steady_grown|done]. }
  destruct (temp_name stage) eqn:Et; cbn [andb] in E; [|done]. case_bool_decide as Hn; [|done]. injection E as <-.
  assert (stage <> output /\ stage <> backup) as [Ho Hb] by (split; congruence).
  assert (staging stage [] (Building ∅) (MkFS (MkDisk (<[stage := NDir (next fs)]> (names (now fs)))
    (<[next fs := Building ∅]> (trees (now fs)))) (now fs :: since fs) (S (next fs)) (written fs))) as Hs.
  { pose proof (fs_ok_wf _ _ Hf) as [Hi Hx]. split_and!; [|by rewrite app_nil_r|cbn; exists (next fs); by rewrite !lookup_insert_eq].
    assert (forall d, disk_ok X0 (next fs) d -> disk_ok X0 (S (next fs)) d) as Hup.
    { intros d [Hwd H]. split; [|done]. eapply wf_weaken; [|exact Hwd]. lia. }
    unfold fs_ok. cbn [now since next]. apply Forall_cons. split; [|eapply Forall_impl; [exact Hf|exact Hup]].
    eapply disk_ok_other; [apply Hup, fs_ok_now, Hf| |..].
    - split; cbn.
      + intros p q i [[<- [= <-]]|[Hp Hpi]]%lookup_insert_Some [[<- Eq]|[Hq Hqi]]%lookup_insert_Some; try done.
        * apply Hx in Hqi. lia.
        * injection Eq as <-. apply Hx in Hpi. lia.
        * by eapply Hi.
      + intros p i [[_ [= <-]]|[_ Hp%Hx]]%lookup_insert_Some; lia.
    - intros [u|]; cbn; rewrite lookup_insert_ne by done; [|done]. intros (i & Ei & Eu). exists i. split; [done|].
      rewrite lookup_insert_ne; [done|]. apply Hx in Ei. lia.
    - intros [u|]; cbn; rewrite lookup_insert_ne by done; [|done]. intros (i & Ei & Eu). exists i. split; [done|].
      rewrite lookup_insert_ne; [done|]. apply Hx in Ei. lia. }
  split; [by eapply staging_grown|done].
Qed.

Section stage.
Context (stage : string) (Hso : stage <> output) (Hsb : stage <> backup).

Lemma write_stays W1 s c :
  stays grown (staging stage W1 s) (write_stage stage c) (fun _ => staging stage (W1 ++ [c]) (Building c)).
Proof.
  apply stays_call; [by apply staging_grown|]. intros fs r fs' (Hf & Hw & Hs) E. cbn in E. injection E as <-.
  assert (staging stage (W1 ++ [c]) (Building c) (MkFS (set_tree stage (fun _ => Building c) (now fs)) (now fs :: since fs) (next fs)
    (written fs ++ [c]))) as H; [|split; [by eapply staging_grown|done]].
  split_and!; [by apply (fs_ok_set_tree X0 fs stage)|cbn; by rewrite Hw, app_assoc|].
  exact (proj1 (has_set_tree _ _ _ (fun _ => Building c) _ (fs_ok_wf _ _ Hf) Hs)).
Qed.

Lemma sync_tree_stays w W1 c :
  stays grown (staging stage W1 (Building c)) (or_fail "sync staged file" (call (w_SyncTree w) (FSyncTree stage)))
    (fun r => match r with Ok _ => staging stage W1 (Whole c) | Err _ => grown end).
Proof.
  eapply (stays_bind _ _ _ (fun e => match e with None => staging stage W1 (Whole c) | Some _ => grown end)).
  - apply stays_call; [by apply staging_grown|]. intros fs [e|] fs' (Hf & Hw & Hs) E; cbn in E; injection E as <-.
    { assert (grown fs) by (by eapply (staging_grown stage W1)). done. }
    assert (staging stage W1 (Whole c) (change (set_tree stage synced (now fs)) fs)) as H; [|split; [by eapply staging_grown|done]].
    split_and!; [by apply fs_ok_set_tree|done|]. exact (proj1 (has_set_tree _ _ _ synced _ (fs_ok_wf _ _ Hf) Hs)).
  - intros [e|]; apply stays_ret; try done. by apply staging_grown.
Qed.

Lemma replace_stays w W1 c :
  stays grown (staging stage (W1 ++ [c]) (Whole c)) (replaceDirectory w output stage)
    (outcome (fun _ c' => c' = c)).
Proof.
  eapply stays_conseq; [eapply stays_weaken; [apply (inside_grown (W1 ++ [c]))|]|..].
  - apply (replaceDirectory_stays stage Hso Hsb c (or_written (W1 ++ [c]))). right. exists c. split; [|done].
    apply elem_of_app. right. by apply list_elem_of_singleton.
  - intros fs (Hf & Hw & Hs). destruct (fs_ok_now _ _ Hf) as (_ & o & b & x & Ho & Hb & _). exists o, b. split_and!; try done.
    eapply fs_ok_mono; [|exact Hf]. by left.
  - intros r fs [Hi Hok]. split; [by eapply inside_grown|]. intros a ->. exists c. split_and!; [|by apply Hok|done].
    destruct Hi as [_ ->]. by rewrite app_assoc, last_snoc.
Qed.
End stage.

(** ** The files of the result *)

Context (ToLower : string -> string).

Lemma contained_wf name t path name' t' : wf_tree t -> plain_component name -> Forall plain_component path ->
  contained name t path = Ok (name', t') -> wf_tree t' /\ plain_component name'.
Proof.
  revert name t. induction path as [|n path IH]; intros name t Ht Hn Hp; cbn [contained]; [by intros [= <- <-]|].
  destruct (node_at t [n]) as [u|] eqn:En; [|done]. inversion Hp; subst.
  destruct (node_at_wf _ _ _ Ht En) as [Hu _]. destruct u as [| | | |]; try done; intros E; by eapply (IH n).
Qed.

Lemma contracts_of_wf o source t name contracts :
  wf_tree t -> plain_component (Base source) -> contracts_of o source t = Ok (name, contracts) ->
  wf_tree contracts /\ plain_component name.
Proof.
  intros Ht Hb. unfold contracts_of. destruct (IsAbs _ || escapesRoot _) eqn:Ee; [done|]. apply orb_false_iff in Ee as [Ea Ee].
  destruct (containedDirectory _ _ _) as [[name' t']|] eqn:Ec; [|done]. destruct (stat_is_dir _); [|done]. intros [= <- <-].
  unfold containedDirectory in Ec. eapply contained_wf; [exact Ht|exact Hb|by apply escapesRoot_false|exact Ec].
Qed.

(** The names of a selection are those of the files it staged. *)
Lemma select_keys o copy_error name contracts c :
  (o_Mode o = Get -> safeName (FileName (o_Specification o)) = true) -> wf_tree contracts -> plain_component name ->
  select ToLower o copy_error name contracts = Ok c -> copied c ≡ₚ (map_to_list (stage c)).*1.
Proof.
  intros Hs Hw Hn H.
  assert (exists jobs, can_copy copy_error jobs /\ Forall (job_inside contracts) jobs /\ c = copies_of jobs) as (jobs & Hc & _ & ->).
  { unfold select in H. destruct (o_Mode o); [eapply named_jobs; eauto|by eapply folders_jobs|].
    injection H as <-. exists []. split_and!; [|constructor|done]. by split_and!; [constructor|intros i j d k _ ?| |]. }
  by rewrite (copy_keys copy_error).
Qed.

(** What may be relied on of the sources and of the generator: directories list
    distinct plain names. *)
Definition orderly (w : fworld) : Prop :=
  (forall h source t, w_acquire w h = Ok (source, t) -> wf_tree t /\ plain_component (Base source)) /\
  (forall h t, w_Generate w h = Ok t -> wf_tree t).

(** The files named are those of the contents. *)
Definition names_of (files : list string) (c : contents) : Prop := files ≡ₚ (map_to_list c).*1.

(** The stage is filled, and the names are right. *)
Definition filled (stage : string) (f : contents -> tree_state) (r : result perr (list string)) (fs : FS) : Prop :=
  match r with
  | Ok files => exists W1 c, names_of files c /\ staging stage (W1 ++ [c]) (f c) fs
  | Err _ => grown fs
  end.

(** The files of a result are those of the contents, sorted. *)
Definition sorted_names (files : list string) (c : contents) : Prop := files = merge_sort String.le (map_to_list c).*1.

Lemma names_sorted files c : names_of files c -> sorted_names (merge_sort String.le files) c.
Proof. intros H. apply (Sorted_unique String.le); [apply (Sorted_merge_sort _)..|]. by rewrite !merge_sort_Permutation. Qed.

Lemma listFiles_names name t files : wf_tree t -> listFiles name t = Ok files -> names_of files (contents_of t).
Proof.
  intros Hw ->%listFiles_spec. unfold names_of, contents_of.
  assert ((omap (fun x => match x.2 with File _ data => Some (relative x.1.1, data) | _ => None end) (visits [] EmptyString t)).*1 =
    omap file_name (visits [] name t)) as E.
  { transitivity (omap file_name (visits [] EmptyString t)); [|by destruct t].
    generalize (visits [] EmptyString t) as l. induction l as [|x l IH]; [done|]. cbn. unfold file_name at 1.
    destruct (x.2); cbn; by rewrite IH. }
  rewrite map_to_list_to_map; [by rewrite E|]. rewrite E. by apply file_names_nodup.
Qed.

Lemma generate_stays w stage o files W1 c : orderly w -> stage <> output -> stage <> backup -> names_of files c ->
  stays grown (staging stage (W1 ++ [c]) (Building c)) (generate w stage files o) (filled stage Building).
Proof.
  intros [_ Hgen] Hso Hsb Hf. unfold generate. destruct (has_generator o).
  2:{ apply stays_ret; [by apply staging_grown|]. intros fs Hs. by exists W1, c. }
  eapply (stays_bind _ _ _ (fun g fs => (forall t, g = Ok t -> wf_tree t) /\ staging stage (W1 ++ [c]) (Building c) fs)).
  { apply (stays_asked grown (fun g => forall t, g = Ok t -> wf_tree t)); [by intros h t; apply Hgen|by apply staging_grown|].
    intros fs r fs' Hr Hs E. cbn in E. injection E as <-. split; [by eapply staging_grown|done]. }
  intros [t|e]; [|apply stays_ret; [by intros fs [_ ?%staging_grown]|by intros fs [_ ?%staging_grown]]].
  apply (stays_given _ _ (wf_tree t)); [by intros fs [H _]; apply H|]. intros Ht.
  eapply stays_bind; [eapply stays_conseq; [by apply (write_stays stage Hso Hsb (W1 ++ [c]))|by intros fs [_ ?]|intros r fs H; exact H]|].
  intros []. apply stays_ret; [by apply staging_grown|]. intros fs Hs.
  destruct (listFiles (Base stage) t) as [names|e] eqn:El; [|by eapply staging_grown].
  exists (W1 ++ [c]), (contents_of t). split; [|done]. by eapply listFiles_names.
Qed.

Lemma fill_stays w o stage name contracts : orderly w ->
  (o_Mode o = Get -> safeName (FileName (o_Specification o)) = true) -> wf_tree contracts -> plain_component name ->
  stage <> output -> stage <> backup ->
  stays grown (staging stage [] (Building ∅)) (fill_and_install w ToLower output o stage name contracts)
    (outcome sorted_names).
Proof.
  intros Hord Hsafe Hw Hn Hso Hsb. unfold fill_and_install.
  eapply (stays_bind _ _ _ (fun _ => staging stage [] (Building ∅))).
  { intros h t a fs Hs [= <- <-] t1 t2 fs1 E Hr. symmetry in E. apply app_eq_nil in E as [-> ->]. injection Hr as <-.
    split; [by eapply staging_grown|done]. }
  intros copy_error. destruct (select ToLower o copy_error name contracts) as [c|e] eqn:Es; [|apply end_error; by apply staging_grown].
  apply select_keys in Es; [|done..].
  eapply stays_bind; [by apply write_stays|]. intros [].
  eapply (stays_bind_ok _ _ _ (filled stage Building)); [by apply (generate_stays w stage o (copied c) [] (ProtoSelect.stage c))|
    |by intros e fs H; split; [|split]].
  intros files. apply stays_pre. intros W1. apply stays_pre. intros c'.
  apply (stays_given _ _ (names_of files c')); [by intros fs [? _]|]. intros Hnames.
  eapply stays_bind_ok; [eapply stays_conseq; [by apply (sync_tree_stays stage Hso Hsb w (W1 ++ [c']) c')|by intros fs [_ ?]|
    intros r fs H; exact H]| |by intros e fs H; split; [|split]].
  intros []. eapply stays_bind_ok; [by apply (replace_stays stage Hso Hsb w W1 c')| |].
  - intros []. apply stays_ret; [by intros fs [? _]|]. intros fs [Hg Hok]. split; [done|]. intros files' [= <-].
    destruct (Hok tt eq_refl) as (c'' & Hl & Hc'' & ->). exists c'. split_and!; [done..|]. by apply names_sorted.
  - intros e fs [Hg _]. split; [done|]. by split.
Qed.

(** ** The whole of Fetch *)

(** A call without an effect on the parent keeps every fact about it. *)
Lemma quiet_keeps {R} (P : FS -> Prop) (ask : list fev -> R) (mk : R -> fev) :
  (forall fs, P fs -> grown fs) -> (forall r fs fs', fs_step fs (mk r) = Some fs' -> fs' = fs) ->
  stays grown P (call ask mk) (fun _ => P).
Proof. intros HP Hq. by apply stays_quiet. Qed.

Lemma check_keeps (P : FS -> Prop) w what : (forall fs, P fs -> grown fs) ->
  stays grown P (check w what) (fun r => P).
Proof.
  intros HP. eapply stays_bind; [by apply (quiet_keeps P); [|intros r fs fs' [= ->]]|]. intros e. by apply stays_ret.
Qed.

Lemma from_source_stays w o stage : orderly w -> (o_Mode o = Get -> safeName (FileName (o_Specification o)) = true) ->
  stage <> output -> stage <> backup ->
  stays grown (staging stage [] (Building ∅)) (from_source w ToLower output o stage) (outcome sorted_names).
Proof.
  intros Hord Hsafe Hso Hsb. unfold from_source.
  eapply (stays_bind _ _ _ (fun a fs => (forall source t, a = Ok (source, t) -> wf_tree t /\ plain_component (Base source)) /\
    staging stage [] (Building ∅) fs)).
  { apply (stays_asked grown (fun a => forall source t, a = Ok (source, t) -> wf_tree t /\ plain_component (Base source)));
      [intros h source t; apply Hord|by apply staging_grown|].
    intros fs r fs' Hr Hs E. cbn in E. injection E as <-. split; [by eapply staging_grown|done]. }
  intros [[source t]|e].
  2:{ eapply stays_conseq; [apply (end_error sorted_names (staging stage [] (Building ∅))); by apply staging_grown|by intros fs [_ ?]|done]. }
  apply (stays_given _ _ (wf_tree t /\ plain_component (Base source))); [by intros fs [H _]; apply H|]. intros [Ht Hb].
  eapply (stays_bind _ _ _ (outcome sorted_names)).
  - eapply stays_bind; [eapply stays_conseq; [by apply (quiet_keeps (staging stage [] (Building ∅))); [apply staging_grown|intros r fs fs' [= ->]]|
      by intros fs [_ ?]|intros r fs H; exact H]|].
    intros resolved. destruct (rejectOutputSourceOverlap output resolved) as [u|e]; [|apply end_error; by apply staging_grown].
    destruct (contracts_of o source t) as [[name contracts]|e] eqn:Ec; [|apply end_error; by apply staging_grown].
    apply contracts_of_wf in Ec as [Hc Hn]; [|done..]. by apply fill_stays.
  - intros r. eapply stays_bind; [by apply (quiet_keeps (outcome sorted_names r)); [intros fs [? _]|intros e fs fs' [= ->]]|].
    intros e. by apply stays_ret; [intros fs [? _]|].
Qed.

Lemma recover_steady w : stays grown (steady X0 W0) (recoverOutput w output) (fun _ => steady X0 W0).
Proof.
  eapply stays_weaken; [apply steady_grown|]. intros h t a fs Hs E t1 t2 fs1 Et Hr.
  destruct (steady_pt _ _ _ Hs) as (_ & o & b & x & _ & _ & Hrec & _ & (_ & _ & Ho & Hb & _)).
  destruct (recoverOutput_stays X0 W0 w x h t a fs (conj Hs (ex_intro _ o (ex_intro _ b (conj Ho (conj Hb Hrec))))) E t1 t2 fs1 Et Hr) as [H1 H2].
  split; [done|]. intros E2. by apply H2.
Qed.

Lemma locked_stays w o : orderly w -> (o_Mode o = Get -> safeName (FileName (o_Specification o)) = true) ->
  stays grown (steady X0 W0) (locked w ToLower output o) (outcome sorted_names).
Proof.
  intros Hord Hsafe. unfold locked.
  assert (forall e fs, steady X0 W0 fs -> grown fs /\ outcome sorted_names (Err e) fs) as Herr.
  { intros e fs H%steady_grown. split; [done|]. by split. }
  eapply stays_bind_ok; [apply recover_steady| |by intros e fs; apply Herr]. intros [].
  eapply (stays_bind_ok _ _ _ (fun _ => steady X0 W0)); [| |by intros e fs; apply Herr].
  { unfold inspectOutput. eapply stays_bind; [apply (quiet_keeps (steady X0 W0)); [apply steady_grown|]|].
    - intros [k|e] fs fs'; cbn; [case_bool_decide; [|done]|]; by intros [= ->].
    - intros r. by apply stays_ret; [apply steady_grown|]. }
  intros []. eapply stays_bind; [apply mkdir_stays|]. intros [stage|e]; [|by apply end_error, steady_grown].
  apply (stays_given _ _ (stage <> output /\ stage <> backup)); [by intros fs (? & ? & _)|]. intros [Hso Hsb].
  eapply (stays_bind _ _ _ (outcome sorted_names)).
  - eapply stays_conseq; [|intros fs (_ & _ & H); exact H|intros a fs H; exact H].
    eapply stays_bind_ok; [by apply (check_keeps (staging stage [] (Building ∅))), staging_grown| |].
    + intros []. by apply from_source_stays.
    + intros e fs H%staging_grown. split; [done|]. by split.
  - intros r. eapply stays_bind; [by apply (remove_stage sorted_names w stage r)|]. intros e. by apply stays_ret; [intros fs [? _]|].
Qed.

Lemma lock_stays w :
  stays grown (steady X0 W0) (call (w_TryLock w) (FTryLock (output +:+ ".lock"))) (fun _ => steady X0 W0).
Proof.
  apply stays_call; [apply steady_grown|]. intros fs r fs' Hs E.
  enough (steady X0 W0 fs') as H by (split; [by apply steady_grown|done]). destruct r as [b|e]; cbn in E; [|by injection E as <-].
  case_bool_decide as Hn; injection E as <-; [|done]. destruct Hs as [Hf Hw]. split; [|done].
  pose proof (fs_ok_wf _ _ Hf) as [Hi Hx].
  assert (output +:+ ".lock" <> output /\ output +:+ ".lock" <> backup) as [Hlo Hlb].
  { unfold ProtoFetch.backup. split; intros E; apply (f_equal String.length) in E; rewrite !slength_app in E; cbn in E; lia. }
  apply fs_ok_aside; [done| |].
  - split; cbn.
    + intros p q i [[_ ?]|[Hp Hpi]]%lookup_insert_Some [[_ ?]|[Hq Hqi]]%lookup_insert_Some; try done. by eapply Hi.
    + intros p i [[_ ?]|[_ Hp]]%lookup_insert_Some; [done|by eapply Hx].
  - intros p [u|] [->| ->]; cbn; by rewrite lookup_insert_ne.
Qed.

Lemma fetch_locked_stays w o : orderly w -> (o_Mode o = Get -> safeName (FileName (o_Specification o)) = true) ->
  stays grown (steady X0 W0) (fetch_locked w ToLower output o) (outcome sorted_names).
Proof.
  intros Hord Hsafe. unfold fetch_locked.
  assert (forall e fs, steady X0 W0 fs -> grown fs /\ outcome sorted_names (Err e) fs) as Herr.
  { intros e fs H%steady_grown. split; [done|]. by split. }
  eapply stays_bind_ok; [by apply (check_keeps (steady X0 W0)), steady_grown| |by intros e fs; apply Herr]. intros [].
  eapply (stays_bind_ok _ _ _ (fun _ => steady X0 W0)); [| |by intros e fs; apply Herr].
  { unfold validateLockPath. eapply stays_bind; [apply (quiet_keeps (steady X0 W0)); [apply steady_grown|]|].
    - intros [k|e] fs fs'; cbn; [case_bool_decide; [|done]|]; by intros [= ->].
    - intros r. by apply stays_ret; [apply steady_grown|]. }
  intros []. eapply stays_bind; [apply lock_stays|]. intros [[]|e]; [|by apply end_error, steady_grown..].
  eapply stays_bind; [by apply locked_stays|]. intros r.
  eapply stays_bind; [by apply (quiet_keeps (outcome sorted_names r)); [intros fs [? _]|intros e fs fs' [= ->]]|].
  intros [u|]; apply stays_ret; try (by intros fs [? _]); try done. intros fs [Hg _]. split; [done|]. by destruct r.
Qed.
End fetching.
End output.
