(* ===== verification/ProtoOutput.v ===== *)
(** * package protofetch: what a fetch promises

    A whole fetch, a history of fetches that are cut anywhere and of power
    losses, what recovery leaves, and where the output may be. *)

From S2P Require Import Prelude.
From S2P Require Import GoStrings.
From S2P Require Import ProtoPath.
From S2P Require Import ProtoConfig.
From S2P Require Import ProtoSelect.
From S2P Require Import ProtoFetch.
From S2P Require Import ProtoFetchProofs.

(** ** Names of stages *)

Lemma components_end s y : slashless y ->
  exists l x, components s = l ++ [x] /\ components (s +:+ y) = l ++ [x +:+ y].
Proof.
  intros Hy. induction s as [|c s (l & x & E1 & E2)].
  - exists [], EmptyString. split; [done|]. pose proof (components_app y EmptyString Hy) as E. cbn in E. by rewrite !sapp_nil_r in E.
  - change (String c s +:+ y) with (String c (s +:+ y)). cbn [components]. rewrite E1, E2. destruct (is_slash c); [by exists (EmptyString :: l), x|].
    destruct l as [|a l]; [by exists [], (String c x)|by exists (String c a :: l), x].
Qed.

Lemma has_prefix_cons a p b s : has_prefix (String a p) (String b s) = Ascii.eqb a b && has_prefix p s.
Proof. done. Qed.

(** A backup is named like a stage only if the output is. *)
Lemma temp_name_backup output : temp_name output = false -> temp_name (backup output) = false.
Proof.
  unfold temp_name, Base, backup. destruct (components_end output ".backup" eq_refl) as (l & x & -> & ->). rewrite !last_snoc. cbn [default id].
  repeat (destruct x as [|? x]; [done|]; cbn [String.append];
    rewrite !has_prefix_cons; destruct (Ascii.eqb _ _); [cbn [andb]|done]).
  done.
Qed.

(** ** One fetch, cut anywhere *)

Section fetches.
Context (url_Parse : string -> option parsed_url) (ToLower : string -> string).

Lemma validate_get spec source : validate url_Parse ToLower spec Get source = Ok tt -> safeName (FileName spec) = true.
Proof.
  unfold validate. intros H. case_match; [done|]. case_match; [done|]. destruct (if _ : bool then _ else _) as [[]|]; [|done]. cbn in H.
  case_match; [done|]. by destruct (safeName (FileName spec)).
Qed.

Lemma Fetch_stays w env o output X W : orderly w -> temp_name output = false ->
  cleanOutputPath env (OutputDirectory o) (OutputRoot o) = Ok output ->
  stays (grown output X W) (steady output X W) (Fetch w url_Parse ToLower env o)
    (outcome output X W (fun a c => a.1 = output /\ sorted_names a.2 c)).
Proof.
  intros Hw Ht Ho. unfold Fetch. assert (forall fs, steady output X W fs -> grown output X W fs) as Hs by apply steady_grown.
  destruct (validate _ _ _ _ _) as [[]|e] eqn:Hv; [|by apply end_error]. rewrite Ho.
  eapply stays_bind_ok; [apply fetch_locked_stays; [done|by apply temp_name_backup|done|]| |].
  - intros Em. rewrite Em in Hv. by apply validate_get in Hv.
  - intros files. apply stays_ret; [by intros fs [? _]|]. intros fs [Hg Hr]. split; [done|]. intros a [= <-].
    destruct (Hr _ eq_refl) as (c & ? & ? & ?). by exists c.
  - intros e fs [Hg _]. split; [done|]. by split.
Qed.

(** C11: However the calls of a fetch are answered and wherever it is cut, the
    output is, or recovery would restore, a whole tree: one that could be there
    before it or one it had finished writing to its stage, also after a power
    loss.  When it returns files, the output is the last contents it wrote, on
    disk, no backup could be taken for it, and the files are the sorted names of
    those contents. *)
Theorem Fetch_keeps_output w env o output X fs t r :
  orderly w -> temp_name output = false -> cleanOutputPath env (OutputDirectory o) (OutputRoot o) = Ok output ->
  fs_ok output X fs -> Fetch w url_Parse ToLower env o [] = (t, r) ->
  (forall t1 t2 fs1, t = t1 ++ t2 -> fs_run fs t1 = Some fs1 ->
     exists W, written fs1 = written fs ++ W /\ fs_ok output (fun x => X x \/ exists c, c ∈ W /\ x = Some c) fs1) /\
  (forall out files fs1, r = Ok (out, files) -> fs_run fs t = Some fs1 ->
     exists c, out = output /\ last (written fs1) = Some c /\ fs_ok output (eq (Some c)) fs1 /\
       files = merge_sort String.le (map_to_list c).*1).
Proof.
  intros Hw Ht Ho Hf Hr. assert (steady output X (written fs) fs) as Hs by done.
  pose proof (Fetch_stays w env o output X (written fs) Hw Ht Ho [] t r fs Hs Hr) as H. split.
  - intros t1 t2 fs1 E E1. destruct (H _ _ _ E E1) as [Hg _]. exact Hg.
  - intros out files fs1 -> E1. destruct (H t [] fs1) as [_ H']; [by rewrite app_nil_r|done|].
    destruct (H' eq_refl) as [_ Hc]. destruct (Hc _ eq_refl) as (c & Hl & Hok & Eo & Es). by exists c.
Qed.

(** ** Histories *)

(** Fetches into one output, each cut anywhere or finished, and power losses. *)
Inductive history (output : string) (fs0 : FS) : FS -> Prop :=
| untouched : history output fs0 fs0
| fetched fs w env o t r t1 t2 fs1 :
    history output fs0 fs -> orderly w -> cleanOutputPath env (OutputDirectory o) (OutputRoot o) = Ok output ->
    Fetch w url_Parse ToLower env o [] = (t, r) -> t = t1 ++ t2 -> fs_run fs t1 = Some fs1 -> history output fs0 fs1
| lost_power fs fs1 : history output fs0 fs -> power_loss fs fs1 -> history output fs0 fs1.

(** C10: Through any history of fetches cut anywhere and of power losses, the
    output is, or recovery would restore, either what it was at first or the
    whole of a tree that some fetch had written. *)
Theorem output_survives output fs0 fs x0 :
  temp_name output = false -> fs_ok output (eq x0) fs0 -> history output fs0 fs ->
  exists W, written fs = written fs0 ++ W /\ fs_ok output (fun x => x0 = x \/ exists c, c ∈ W /\ x = Some c) fs.
Proof.
  intros Ht Hf. induction 1 as [|fs w env o t r t1 t2 fs1 _ IH Hw Ho Hr E E1|fs fs1 _ (W & E & Hok) Hp].
  - exists []. rewrite app_nil_r. split; [done|]. eapply fs_ok_mono; [|exact Hf]. by left.
  - destruct IH as (W & EW & Hok).
    pose proof (Fetch_stays w env o output _ (written fs) Hw Ht Ho [] t r fs (conj Hok eq_refl) Hr t1 t2 fs1 E E1) as [(W1 & E2 & H) _].
    exists (W ++ W1). rewrite E2, EW, app_assoc. split; [done|]. eapply fs_ok_mono; [|exact H].
    intros x [[->|(c & Hc & ->)]|(c & Hc & ->)]; [by left|right; exists c; set_solver..].
  - exists W. destruct Hp. split; [done|]. by eapply power_loss_ok; [exact Hok|constructor].
Qed.

(** Recovery that succeeds leaves the tree that the output or its backup
    held, under the output's name, and no backup; until it returns nothing
    more is lost to a power loss than before. *)
Theorem recovery_restores w output X fs t r o b x fs1 :
  fs_ok output X fs -> has (now fs) output o -> has (now fs) (backup output) b -> recovers o b x ->
  recoverOutput w output [] = (t, r) -> fs_run fs t = Some fs1 ->
  fs_ok output X fs1 /\
  (r = Ok tt -> exists o1, has (now fs1) output o1 /\ has (now fs1) (backup output) None /\ recovers o1 None x).
Proof.
  intros Hf Ho Hb Hx Hr E. destruct (recoverOutput_stays output X (written fs) w x [] t r fs) with (t1 := t) (t2 := @nil fev) (fs1 := fs1)
    as [[Hk _] Hq]; [by split; [|exists o, b]|done|by rewrite app_nil_r|done|].
  split; [done|]. intros ->. destruct (Hq eq_refl) as [_ H]. by apply H.
Qed.
End fetches.

(** ** Where the output is *)

Lemma components_slash a b : components (a +:+ String "/" b) = components a ++ components b.
Proof.
  induction a as [|c a IH]; [done|]. cbn [String.append components]. rewrite IH. destruct (is_slash c); [done|].
  by destruct (components a) eqn:E; [destruct (components_nonempty a)|].
Qed.

Lemma clean_onto_app abs l l' stack : clean_onto abs (l ++ l') stack = clean_onto abs l' (clean_onto abs l stack).
Proof. revert stack. induction l as [|x l IH]; intros stack; [done|]. cbn. apply IH. Qed.

Lemma rooted_slash a b : rooted a = true -> rooted (a +:+ b) = true.
Proof. by intros [r ->]%has_prefix_spec. Qed.

(** Joining plain components to an absolute path appends them. *)
Lemma Join_below a l : rooted a = true -> Forall plain_component l -> l <> [] ->
  Join a (join "/" l) = render true (clean_components a ++ l).
Proof.
  intros Ha Hl Hne. unfold Join. rewrite bool_decide_false by (by intros ->). unfold Clean.
  change ("/" +:+ join "/" l) with (String "/" (join "/" l)).
  assert (rooted (a +:+ String "/" (join "/" l)) = true) as Hr by by apply rooted_slash. rewrite Hr. f_equal.
  unfold clean_components. rewrite Hr, Ha, components_slash, clean_onto_app, components_plain_join by done.
  by rewrite clean_onto_plain, reverse_app, reverse_involutive.
Qed.

Lemma cleaned_below a l : rooted a = true -> Forall plain_component l -> cleaned true (clean_components a ++ l).
Proof.
  intros Ha Hl. apply plain_cleaned, Forall_app. split; [|done]. apply cleaned_plain. rewrite <- Ha. apply clean_components_cleaned.
Qed.

(** The path [l] below [root]. *)
Definition below (root : string) (l : list string) : string := render true (clean_components root ++ l).

Lemma below_rooted root l : rooted root = true -> Forall plain_component l -> rooted (below root l) = true.
Proof. intros. by apply rooted_render, cleaned_below. Qed.

Lemma below_components root l : rooted root = true -> Forall plain_component l ->
  clean_components (below root l) = clean_components root ++ l.
Proof. intros. by apply clean_components_render, cleaned_below. Qed.

Lemma below_join root current l x : rooted current = true -> clean_components current = clean_components root ++ l ->
  plain_component x -> Join current x = below root (l ++ [x]).
Proof. intros Hr E Hx. change x with (join "/" [x]) at 1. rewrite Join_below, E, <- app_assoc by (done || by constructor). done. Qed.

(** Only what does not exist, or is below it, may be a link. *)
Definition link_free (env : path_env) (root : string) (l0 l : list string) : Prop :=
  forall l1 x l2, l = l1 ++ x :: l2 ->
  (forall l3, l3 `prefix_of` l1 -> l3 <> [] -> p_Lstat env (below root (l0 ++ l3)) <> Ok None) ->
  p_Lstat env (below root (l0 ++ l1 ++ [x])) <> Ok (Some KLink).

Lemma no_link_on_free env root current l0 l : rooted root = true -> rooted current = true ->
  clean_components current = clean_components root ++ l0 -> Forall plain_component l0 -> Forall plain_component l ->
  no_link_on env current l = Ok tt -> link_free env root l0 l.
Proof.
  intros Hr. revert current l0. induction l as [|y l IH]; intros current l0 Hc E Hl0 Hl H l1 x l2 El Hex; [by destruct l1|].
  inversion Hl as [|? ? Hy Hl']; subst. cbn [no_link_on] in H. rewrite (below_join _ _ _ _ Hc E Hy) in H.
  destruct l1 as [|z l1]; injection El as <- El.
  - cbn [app]. intros E'. by rewrite E' in H.
  - assert (p_Lstat env (below root (l0 ++ [y])) <> Ok None) as Hn by (apply Hex; [by exists l1|done]).
    assert (no_link_on env (below root (l0 ++ [y])) l = Ok tt) as H'.
    { destruct (p_Lstat env (below root (l0 ++ [y]))) as [[[| |]|]|]; try done. }
    assert (Forall plain_component (l0 ++ [y])) as Hy' by (apply Forall_app; split; [done|by constructor]).
    assert (link_free env root (l0 ++ [y]) l) as Hf.
    { apply (IH (below root (l0 ++ [y]))); [by apply below_rooted|by apply below_components|done..]. }
    assert (forall m, l0 ++ y :: m = (l0 ++ [y]) ++ m) as Ea by (intros; by rewrite <- app_assoc).
    cbn [app]. rewrite Ea. apply (Hf l1 x l2 El).
    intros l3 Hp Hne. rewrite <- Ea. apply (Hex (y :: l3)); [by apply prefix_cons|done].
Qed.

Lemma output_below_rooted declaredRoot root outputPath : rooted root = true ->
  rooted (output_below declaredRoot root outputPath) = true.
Proof.
  intros Hr. unfold output_below. assert (forall x, rooted (Join root x) = true) as Hj.
  { intros x. unfold Join. rewrite bool_decide_false by (by intros ->). rewrite rooted_Clean. by apply rooted_slash. }
  destruct (IsAbs outputPath) eqn:Ea; [|done]. assert (rooted (Clean outputPath) = true) by by rewrite rooted_Clean.
  destruct (Rel _ _); [|done]. by case_match.
Qed.

(** The output directory is strictly below the resolved root, along plain
    components, and no existing component on the way is a symbolic link. *)
Theorem output_within_root env outputPath rootPath declaredRoot root output :
  resolve_root env rootPath = Ok (declaredRoot, root) -> rooted root = true ->
  cleanOutputPath env outputPath rootPath = Ok output ->
  exists l, l <> [] /\ Forall plain_component l /\ clean_components output = clean_components root ++ l /\
    link_free env root [] l.
Proof.
  intros Er Hr H. unfold cleanOutputPath in H. rewrite Er in H. cbn [tbind_ok fst snd] in H.
  set (out := output_below _ _ _) in H. assert (rooted out = true) as Ho by by apply output_below_rooted.
  cbv beta iota zeta in H. cbn in H. fold out in H.
  destruct (Rel root out) as [rel|] eqn:El; [|done]. case_bool_decide as Hd; [done|]. cbn [orb] in H.
  destruct (escapesRoot rel) eqn:Ee; [done|]. destruct (no_link_on env root (components rel)) as [[]|] eqn:En; [|done].
  injection H as <-. destruct (Rel_below _ _ _ Hr Ho El Hd Ee) as (l & Hne & Hc & Hl & ->). exists l. split_and!; try done.
  rewrite components_plain_join in En by done. apply (no_link_on_free env root root []); [done..|by rewrite app_nil_r|constructor|done|done].
Qed.
