(* ===== verification/ProtoWitness.v ===== *)
(** * package protofetch: the theorems at concrete inputs

    A repository with one service, fetched into a directory that holds older
    contracts, with every call succeeding, with a sync that fails, and on a disk
    that may keep an old directory with newer files. *)

From S2P Require Import Prelude.
From S2P Require Import GoStrings.
From S2P Require Import ProtoPath.
From S2P Require Import ProtoConfig.
From S2P Require Import ProtoSelect.
From S2P Require Import ProtoSelectProofs.
From S2P Require Import ProtoFetch.
From S2P Require Import ProtoFetchProofs.
From S2P Require Import ProtoOutput.

(** ** Sources *)

Definition orders : ftree := Dir [("order.proto", File 5 "order"); ("order.type.json", File 2 "{}")].
Definition the_contracts : ftree := Dir [("orders", Dir [("proto", orders)]); ("readme.md", File 4 "text")].
Definition repository : ftree := Dir [("contracts", the_contracts)].

Definition no_copy_error : string -> option ext := fun _ => None.
Definition same_case : string -> string := fun s => s.

Ltac tree_ok := cbn [wf_tree repository the_contracts orders map fst]; repeat match goal with
  | |- _ /\ _ => split
  | |- NoDup _ => apply (bool_decide_unpack _); by vm_compute
  | |- plain_component _ => by repeat split
  | _ => done
  end.

Lemma repository_wf : wf_tree repository.
Proof. tree_ok. Qed.

Lemma contracts_wf : wf_tree the_contracts.
Proof. tree_ok. Qed.

Lemma contracts_plain : plain_component "contracts".
Proof. by repeat split. Qed.

Lemma repository_plain : plain_component (Base "/src/repository").
Proof. change (plain_component "repository"). split_and!; done. Qed.

Definition staged_orders : contents := {["orders/order.proto" := "order"; "orders/order.type.json" := "{}"]}.

Definition got : result perr copies := copyNamedProto no_copy_error same_case "contracts" the_contracts "order".
Definition got_all : result perr copies := copyFolders no_copy_error same_case "contracts" the_contracts ["orders"].

Definition the_copies : copies :=
  MkCopies staged_orders (MkBudget 2 7) ["orders/order.proto"; "orders/order.type.json"].

Lemma got_copies : got = Ok the_copies.
Proof. by vm_compute. Qed.

Lemma got_all_copies : got_all = Ok the_copies.
Proof. by vm_compute. Qed.

(** ** A fetch *)

Definition output : string := "/work/proto".
Definition the_stage : string := "/work/.proto-stage-1".
Definition another_stage : string := "/work/.proto-stage-2".

(** Only the syncs of the parent with these numbers fail; Lstat finds what there
    is. *)
Definition is_sync (e : fev) : bool := match e with FSyncParent _ => true | _ => false end.

Definition world (fs : FS) (failing : list nat) : fworld := MkFWorld
  (fun _ _ => None)
  (fun p h => match fs_run fs h with Some fs => Ok (kind_of <$> names (now fs) !! p) | None => Err "lstat" end)
  (fun _ => Ok true) (fun _ => None) (fun h => Ok (match fs_run fs h with
     | Some fs => if bool_decide (names (now fs) !! the_stage = None) then the_stage else another_stage
     | None => the_stage end)) (fun _ => Ok ("/src/repository", repository))
  (fun _ => Ok "/src/repository") (fun _ => no_copy_error) (fun _ => Ok (Dir []))
  (fun _ => None) (fun _ _ _ => None)
  (fun h => if bool_decide (length (filter (fun e => is_sync e = true) h) ∈ failing) then Some "io" else None)
  (fun _ _ => None).

Lemma world_orderly fs failing : orderly (world fs failing).
Proof. split; [intros h source t [= <- <-]; split; [apply repository_wf|apply repository_plain]|intros h t [= <-]; split; [constructor|done]]. Qed.

Definition paths : path_env := MkPaths (Ok "/work") (fun p => Ok p) (fun p => Ok p) (fun _ => Ok true)
  (fun p => Ok (if bool_decide (p = output) then Some KDir else None)).

Definition the_options : Options :=
  MkOptions Get (MkSpecification EmptyString EmptyString EmptyString "order" []) EmptyString EmptyString "/src/repository" EmptyString false.

(** The output with older contracts. *)
Definition old_contracts : contents := {["orders/order.proto" := "old"]}.

Definition start : FS := MkFS (MkDisk {[output := NDir 0]} {[0 := Whole old_contracts]}) [] 1 [].

Lemma output_named : cleanOutputPath paths (OutputDirectory the_options) (OutputRoot the_options) = Ok output.
Proof. by vm_compute. Qed.

Lemma start_ok : fs_ok output (eq (Some old_contracts)) start.
Proof.
  constructor; [|constructor]. split.
  - split; cbn; [intros p q i [<- _]%lookup_singleton_Some [<- _]%lookup_singleton_Some; done|].
    intros p i [_ [= <-]]%lookup_singleton_Some. lia.
  - exists (Some (Whole old_contracts)), None, (Some old_contracts). split_and!; [by exists 0|by vm_compute|done..].
Qed.

Definition no_url : string -> option parsed_url := fun _ => None.
Definition run (fs : FS) (failing : list nat) : list fev * result perr (string * list string) :=
  Fetch (world fs failing) no_url same_case paths the_options [].

Definition fetched_state (fs : FS) (failing : list nat) : FS := default fs (fs_run fs (run fs failing).1).

(** Every call succeeds: the new contracts are installed. *)
Example fetch_installs : (run start []).2 = Ok (output, ["orders/order.proto"; "orders/order.type.json"]).
Proof. by vm_compute. Qed.

(** The sync of the installed output fails: the old contracts come back. *)
Example fetch_rolls_back :
  is_ok (run start [1]).2 = false /\
  names (now (fetched_state start [1])) !! output = Some (NDir 0) /\
  trees (now (fetched_state start [1])) !! 0 = Some (Whole old_contracts).
Proof. by vm_compute. Qed.

Lemma Fetch_keeps_output_witness :
  temp_name output = false /\
  (exists W, written (fetched_state start []) = written start ++ W /\
     fs_ok output (fun x => Some old_contracts = x \/ exists c, c ∈ W /\ x = Some c) (fetched_state start [])) /\
  exists c, output = output /\ last (written (fetched_state start [])) = Some c /\ fs_ok output (eq (Some c)) (fetched_state start []) /\
    ["orders/order.proto"; "orders/order.type.json"] = merge_sort String.le (map_to_list c).*1.
Proof.
  split; [done|].
  assert (fs_run start (run start []).1 = Some (fetched_state start [])) as Hr by by vm_compute.
  destruct (Fetch_keeps_output no_url same_case (world start []) paths the_options output (eq (Some old_contracts)) start
    (run start []).1 (run start []).2 (world_orderly start []) eq_refl output_named start_ok eq_refl) as [H1 H2].
  split; [apply (H1 (run start []).1 []); [by rewrite app_nil_r|exact Hr]|].
  apply (H2 output _ (fetched_state start [])); [exact fetch_installs|exact Hr].
Defined.

(** ** A history: cut after the new output was installed, a power loss that
    brings the old name back, and another fetch. *)

Definition cut : list fev := take 16 (run start []).1.
Definition cut_state : FS := default start (fs_run start cut).

(** The installing rename did not reach the disk. *)
Definition after_loss (k : nat) (fs : FS) : FS :=
  let d := default (now fs) ((now fs :: since fs) !! k) in
  MkFS (MkDisk (names d) (lost <$> trees d)) [] (next fs) (written fs).

Example loss_leaves_backup :
  names (now (after_loss 1 cut_state)) !! output = None /\
  names (now (after_loss 1 cut_state)) !! (output +:+ ".backup") = Some (NDir 0).
Proof. by vm_compute. Qed.

Lemma cut_history : history no_url same_case output start (after_loss 1 cut_state).
Proof.
  apply (lost_power no_url same_case output start cut_state).
  - apply (fetched no_url same_case output start start (world start []) paths the_options (run start []).1 (run start []).2 cut (drop 16 (run start []).1));
      [apply untouched|apply world_orderly|exact output_named|by rewrite <- surjective_pairing|symmetry; apply take_drop|by vm_compute].
  - unfold after_loss. apply loss. change (default ?a ?b) with (default a b).
    destruct ((now cut_state :: since cut_state) !! 1) as [d|] eqn:E; [by apply list_elem_of_lookup_2 in E|by apply elem_of_cons; left].
Qed.

Lemma output_survives_witness :
  temp_name output = false /\
  exists W, written (after_loss 1 cut_state) = written start ++ W /\
    fs_ok output (fun x => Some old_contracts = x \/ exists c, c ∈ W /\ x = Some c) (after_loss 1 cut_state).
Proof.
  split; [done|].
  exact (output_survives no_url same_case output start (after_loss 1 cut_state) (Some old_contracts) eq_refl start_ok cut_history).
Defined.

(** The next fetch restores the old contracts and installs the new ones. *)
Example fetch_after_loss :
  (run (after_loss 1 cut_state) []).2 = Ok (output, ["orders/order.proto"; "orders/order.type.json"]).
Proof. by vm_compute. Qed.

Definition backed_up : FS :=
  MkFS (MkDisk {[backup output := NDir 0]} {[0 := Whole old_contracts]}) [] 1 [].

Lemma backed_up_ok : fs_ok output (eq (Some old_contracts)) backed_up.
Proof.
  constructor; [|constructor]. split.
  - split; cbn; [intros p q i [<- _]%lookup_singleton_Some [<- _]%lookup_singleton_Some; done|].
    intros p i [_ [= <-]]%lookup_singleton_Some. lia.
  - exists None, (Some (Whole old_contracts)), (Some old_contracts). split_and!; [by vm_compute|by exists 0|done..].
Qed.

Definition restoring : list fev * result perr unit := recoverOutput (world backed_up []) output [].
Definition restored : FS := default backed_up (fs_run backed_up restoring.1).

Lemma recovery_restores_witness :
  fs_ok output (eq (Some old_contracts)) restored /\
  exists o1, has (now restored) output o1 /\ has (now restored) (backup output) None /\ recovers o1 None (Some old_contracts).
Proof.
  destruct (recovery_restores (world backed_up []) output (eq (Some old_contracts)) backed_up restoring.1 restoring.2
    None (Some (Whole old_contracts)) (Some old_contracts) restored backed_up_ok) as [H1 H2].
  - by vm_compute.
  - by exists 0.
  - done.
  - reflexivity.
  - by vm_compute.
  - split; [exact H1|]. apply H2. by vm_compute.
Defined.

(** ** Where the output is *)

Lemma output_within_root_witness :
  rooted "/work" = true /\
  exists l, l <> [] /\ Forall plain_component l /\ clean_components output = clean_components "/work" ++ l /\
    link_free paths "/work" [] l.
Proof.
  split; [done|]. apply (output_within_root paths EmptyString EmptyString "/work" "/work" output).
  - by vm_compute.
  - done.
  - by vm_compute.
Defined.

(** A path above the root, and one through a link, are refused. *)
Example escape_refused : is_ok (cleanOutputPath paths "../elsewhere" "/work") = false.
Proof. by vm_compute. Qed.

(** ** Selection *)

Definition the_folder : selectedFolder := MkFolder "orders" ["orders"; "proto"] orders.

Definition other_folder : selectedFolder := MkFolder "users" ["users"; "proto"] (Dir [("user.proto", File 4 "user")]).

Definition both_folders : gmap string selectedFolder := {["orders" := the_folder; "users" := other_folder]}.

Definition both_copies : copies :=
  MkCopies (<["users/user.proto" := "user"]> staged_orders) (MkBudget 3 11)
    ["orders/order.proto"; "orders/order.type.json"; "users/user.proto"].

Lemma folders_in_any_order_witness :
  copy_found no_copy_error ["orders"; "users"] [the_folder; other_folder] both_folders = Ok both_copies /\
  exists c', copy_found no_copy_error ["users"; "orders"] [other_folder; the_folder] both_folders = Ok c' /\
    stage c' = stage both_copies /\ budget c' = budget both_copies /\
    merge_sort String.le (copied c') = merge_sort String.le (copied both_copies).
Proof.
  assert (copy_found no_copy_error ["orders"; "users"] [the_folder; other_folder] both_folders = Ok both_copies) as H by by vm_compute.
  split; [exact H|].
  exact (folders_in_any_order no_copy_error same_case ["orders"; "users"] ["users"; "orders"] [the_folder; other_folder]
    [other_folder; the_folder] _ _ (perm_swap _ _ _) (perm_swap _ _ _) H).
Defined.

Lemma folders_staged_exactly_witness :
  exists found, find_folders same_case "contracts" the_contracts ["orders"] = Ok found /\
    dom found = wanted_folders same_case ["orders"] /\
    found_at same_case "contracts" the_contracts (wanted_folders same_case ["orders"]) found /\
    forall d data, stage the_copies !! d = Some data <->
      exists key folder rel file size, found !! key = Some folder /\
        node_at (f_source folder) (rel ++ [file]) = Some (File size data) /\ wanted_suffix file = true /\
        d = join "/" (f_name folder :: rel ++ [file]).
Proof.
  exact (folders_staged_exactly no_copy_error same_case "contracts" the_contracts ["orders"] the_copies
    contracts_wf contracts_plain got_all_copies).
Defined.

Lemma selection_within_bounds_witness :
  copied the_copies ≡ₚ (map_to_list (stage the_copies)).*1 /\ (Z.of_nat (length (copied the_copies)) <= 10000)%Z.
Proof.
  destruct (selection_within_bounds no_copy_error same_case "contracts" the_contracts the_copies contracts_wf contracts_plain)
    as (H1 & H2 & _ & _); [left; by exists "order"|].
  by split.
Defined.

(** ** A disk that keeps an old directory with newer files *)

(** After a power loss the parent is as at some moment since its last sync, its
    trees as they are now: removals inside a directory are not ordered after a
    rename of it. *)
Inductive unordered_loss (fs : FS) : FS -> Prop :=
| stale_names d : d ∈ now fs :: since fs ->
    unordered_loss fs (MkFS (MkDisk (names d) (lost <$> trees (now fs))) [] (next fs) (written fs)).

(** A fetch is killed before it synced the installed output; the next one
    removes the backup without syncing the parent first.  A power loss then
    brings the old name of the backup back, which is half removed, and no output:
    nothing recovers either tree. *)
Definition removing : list fev := take 3 (recoverOutput (world cut_state []) output []).1.
Definition removing_state : FS := default start (fs_run cut_state removing).

Example recovery_before_sync :
  last removing = Some (FRemoving (backup output)) /\ fs_run cut_state removing = Some removing_state /\
  exists fs1, unordered_loss removing_state fs1 /\
    has (now fs1) output None /\ has (now fs1) (backup output) (Some Damaged) /\
    forall x, ~ recovers None (Some Damaged) x.
Proof.
  split; [by vm_compute|]. split; [by vm_compute|].
  destruct ((now removing_state :: since removing_state) !! 2) as [d|] eqn:E; [|by vm_compute in E].
  exists (MkFS (MkDisk (names d) (lost <$> trees (now removing_state))) [] (next removing_state) (written removing_state)).
  split; [apply stale_names; by eapply list_elem_of_lookup_2|]. vm_compute in E. injection E as <-.
  split; [by vm_compute|]. split; [exists 0; by vm_compute|by intros x []].
Qed.
