(* ===== verification/OwnerChain.v ===== *)
(** * Owners of a process-wide setting

    The packages tracing and logging install values in variables of the process
    and give each installation an owner, which can be ended in any order.  An
    owner points to the one it replaced; ending the current one goes back past
    owners that have ended meanwhile.  This is the pointer structure they share:
    globalTracerOwners and otelOwners of tracing/tracing.go, slogDefaultOwners of
    logging/sloghandler.go. *)

From S2P Require Import Prelude.

Section chains.
Context {P : Type}.

(** An owner in the heap, and the variables [current] and [active]. *)
Record owner := MkOwner { previous : option nat; active : bool; data : P }.
Record owners := MkOwners { heap : gmap nat owner; next_address : nat; current : option nat; actives : gset nat }.

Definition no_owners : owners := MkOwners ∅ 0 None ∅.

(** A new owner over [p] becomes the current one. *)
Definition install_owner (p : option nat) (d : P) (c : owners) : owners :=
  MkOwners (<[next_address c := MkOwner p true d]> (heap c)) (S (next_address c)) (Some (next_address c))
    ({[next_address c]} ∪ actives c).

(** owner.active = false, and delete from the active ones. *)
Definition end_owner (i : nat) (c : owners) : owners :=
  MkOwners (alter (fun o => MkOwner (previous o) false (data o)) i (heap c)) (next_address c) (current c) (actives c ∖ {[i]}).

Definition set_current (p : option nat) (c : owners) : owners := MkOwners (heap c) (next_address c) p (actives c).

(** for previous != nil && !previous.active { body; previous = previous.previous } *)
Fixpoint skip_ended {A} (body : P -> A -> A) (h : gmap nat owner) (fuel : nat) (p : option nat) (a : A) : option nat * A :=
  match fuel, p with
  | S fuel, Some i =>
      match h !! i with
      | Some o => if active o then (p, a) else skip_ended body h fuel (previous o) (body (data o) a)
      | None => (p, a)
      end
  | _, _ => (p, a)
  end.

(** The loop from the owner [o] on. *)
Definition predecessor {A} (body : P -> A -> A) (c : owners) (o : owner) (a : A) : option nat * A :=
  skip_ended body (heap c) (next_address c) (previous o) a.

(** ** Paths *)

(** The owners from [p] on, ended ones included. *)
Inductive path (h : gmap nat owner) : option nat -> list nat -> Prop :=
| path_nil : path h None []
| path_cons i o l : h !! i = Some o -> path h (previous o) l -> path h (Some i) (i :: l).

Definition is_active (h : gmap nat owner) (i : nat) : bool := match h !! i with Some o => active o | None => false end.

Record wf_owners (c : owners) : Prop := {
  address_bound : forall i o, heap c !! i = Some o -> i < next_address c;
  previous_older : forall i o j, heap c !! i = Some o -> previous o = Some j -> j < i /\ is_Some (heap c !! j);
  actives_spec : forall i, i ∈ actives c <-> is_active (heap c) i = true;
  current_known : forall i, current c = Some i -> is_Some (heap c !! i)
}.

(** No owner that has ended is the current one. *)
Definition settled (c : owners) : Prop := forall i, current c = Some i -> is_active (heap c) i = true.

Lemma path_inj h p l l' : path h p l -> path h p l' -> l = l'.
Proof.
  intros H. revert l'. induction H as [|i o l Hi _ IH]; intros l' H'; inversion H' as [|? o' ? Hi' Hl']; subst; [done|].
  f_equal. apply IH. congruence.
Qed.

Lemma path_in h p l i : path h p l -> i ∈ l -> is_Some (h !! i).
Proof.
  induction 1 as [|j o l Hj _ IH]; [by intros ?%elem_of_nil|]. intros [->|Hi]%elem_of_cons; [by eexists|by apply IH].
Qed.

Lemma path_exists c p : wf_owners c -> (forall i, p = Some i -> is_Some (heap c !! i)) -> exists l, path (heap c) p l.
Proof.
  intros Hw. destruct p as [i|]; [|by exists []; constructor]. intros H. specialize (H i eq_refl). revert H.
  induction (lt_wf i) as [i _ IH]. intros [o Ho]. destruct (previous o) as [j|] eqn:Ep.
  - destruct (previous_older _ Hw _ _ _ Ho Ep) as [Hlt Hj]. destruct (IH j Hlt Hj) as [l Hl]. exists (i :: l).
    apply (path_cons _ _ o); [done|by rewrite Ep].
  - exists [i]. apply (path_cons _ _ o); [done|]. rewrite Ep. constructor.
Qed.

(** Owners of a path get older. *)
Lemma path_bound c i l j : wf_owners c -> path (heap c) (Some i) (i :: l) -> j ∈ l -> j < i.
Proof.
  intros Hw. revert i. induction l as [|k l IH]; intros i Hp Hj; [by apply elem_of_nil in Hj|].
  inversion Hp as [|? o ? Hi Hl]; subst. inversion Hl as [|? o' ? Hk Hl' Ek]; subst.
  destruct (previous_older _ Hw _ _ k Hi) as [Hlt _]; [done|]. apply elem_of_cons in Hj as [->|Hj]; [done|].
  enough (j < k) by lia. apply IH; [|done]. by econstructor.
Qed.

Lemma path_length c i l : wf_owners c -> path (heap c) (Some i) l -> length l <= S i.
Proof.
  intros Hw. revert i. induction l as [|k l IH]; intros i Hp; [cbn; lia|].
  inversion Hp as [|? o ? Hi Hl]; subst. cbn. destruct (previous o) as [j|] eqn:Ep.
  - destruct (previous_older _ Hw _ _ _ Hi Ep). specialize (IH j Hl). lia.
  - inversion Hl; subst. cbn. lia.
Qed.

(** The loop stops at the first owner that has not ended, past the others. *)
Lemma skip_ended_spec {A} (body : P -> A -> A) h fuel p l (a : A) : path h p l -> length l <= fuel ->
  exists ended rest, l = ended ++ rest /\ Forall (fun i => is_active h i = false) ended /\
    path h (skip_ended body h fuel p a).1 rest /\
    (forall i, (skip_ended body h fuel p a).1 = Some i -> is_active h i = true) /\
    (skip_ended body h fuel p a).2 = foldl (fun a d => body d a) a (omap (fun i => data <$> h !! i) ended).
Proof.
  intros Hp. revert fuel a. induction Hp as [|i o l Hi Hp IH]; intros fuel a Hf.
  - exists [], []. split_and!; [done|apply Forall_nil_2| | |]; by destruct fuel; try apply path_nil.
  - destruct fuel as [|fuel]; [cbn in Hf; lia|]. cbn [skip_ended]. rewrite Hi. destruct (active o) eqn:Ea.
    + exists [], (i :: l). split_and!; [done|constructor|by econstructor| |done].
      intros j [= <-]. unfold is_active. by rewrite Hi.
    + destruct (IH fuel (body (data o) a)) as (ended & rest & -> & Hn & Hr & Hs & Hb); [cbn in Hf; lia|].
      exists (i :: ended), rest. split_and!; [done| |done|done|].
      * constructor; [|done]. unfold is_active. by rewrite Hi.
      * rewrite Hb. cbn. by rewrite Hi.
Qed.

(** ** What the operations keep *)

Lemma is_active_install p d c i : is_active (heap (install_owner p d c)) i = bool_decide (i = next_address c) || is_active (heap c) i.
Proof.
  unfold is_active. cbn. case_bool_decide as E; [subst; by rewrite lookup_insert_eq|by rewrite lookup_insert_ne].
Qed.

Lemma is_active_end i c j : is_active (heap (end_owner i c)) j = bool_decide (j <> i) && is_active (heap c) j.
Proof.
  unfold is_active. cbn. case_bool_decide as E; [by rewrite lookup_alter_ne|]. destruct (decide (j = i)) as [->|]; [|done].
  rewrite lookup_alter_eq. by destruct (heap c !! i).
Qed.

Lemma no_owners_wf : wf_owners no_owners.
Proof.
  split; cbn; [by intros ? ? ?%lookup_empty_Some|by intros ? ? ? ?%lookup_empty_Some| |done].
  intros i. unfold is_active. rewrite lookup_empty. split; [by intros ?%elem_of_empty|done].
Qed.

Lemma next_fresh c : wf_owners c -> heap c !! next_address c = None.
Proof. intros Hw. destruct (heap c !! next_address c) eqn:E; [|done]. apply (address_bound _ Hw) in E. lia. Qed.

Lemma install_owner_wf p d c : wf_owners c -> (forall i, p = Some i -> is_Some (heap c !! i)) -> wf_owners (install_owner p d c).
Proof.
  intros Hw Hp. pose proof (next_fresh _ Hw) as Hn. split; cbn.
  - intros i o [[<- _]|[_ Hi]]%lookup_insert_Some; [lia|]. apply (address_bound _ Hw) in Hi. lia.
  - assert (forall j, is_Some (heap c !! j) -> j < next_address c) as Hb.
    { intros j [o Ho]. by apply (address_bound _ Hw) in Ho. }
    intros i o j [[<- <-]|[_ Hi]]%lookup_insert_Some Ej; cbn in Ej.
    + specialize (Hp _ Ej). specialize (Hb _ Hp). split; [done|]. rewrite lookup_insert_ne by lia. done.
    + destruct (previous_older _ Hw _ _ _ Hi Ej) as [Hlt Hj]. split; [done|]. specialize (Hb _ Hj). by rewrite lookup_insert_ne by lia.
  - intros i. pose proof (is_active_install p d c i) as E. cbn in E. rewrite E, orb_true_iff, bool_decide_eq_true, <- (actives_spec _ Hw). set_solver.
  - intros i [= <-]. by rewrite lookup_insert_eq.
Qed.

Lemma end_owner_wf i c : wf_owners c -> wf_owners (end_owner i c).
Proof.
  intros Hw. assert (forall j, is_Some (heap (end_owner i c) !! j) <-> is_Some (heap c !! j)) as Hd by (intros j; apply lookup_alter_is_Some).
  assert (forall j o, heap (end_owner i c) !! j = Some o -> exists o', heap c !! j = Some o' /\ previous o = previous o') as Ho.
  { intros j o. cbn. intros [(<- & o' & E & ->)|[_ E]]%lookup_alter_Some; eauto. }
  split.
  - intros j o (o' & E & _)%Ho. by apply (address_bound _ Hw) in E.
  - intros j o k (o' & E & ->)%Ho Ek. rewrite Hd. by apply (previous_older _ Hw _ _ _ E).
  - intros j. rewrite is_active_end, andb_true_iff, bool_decide_eq_true, <- (actives_spec _ Hw). cbn. set_solver.
  - intros j. rewrite Hd. apply (current_known _ Hw).
Qed.

Lemma set_current_wf p c : wf_owners c -> (forall i, p = Some i -> is_Some (heap c !! i)) -> wf_owners (set_current p c).
Proof. intros Hw Hp. by split; [apply Hw..|]. Qed.

Lemma path_install p d c q l : wf_owners c -> path (heap c) q l -> path (heap (install_owner p d c)) q l.
Proof.
  intros Hw. induction 1 as [|i o l Hi _ IH]; [constructor|]. apply (path_cons _ _ o); [|done]. cbn.
  rewrite lookup_insert_ne; [done|]. intros E. by rewrite <- E, next_fresh in Hi.
Qed.

Lemma path_end i c q l : path (heap c) q l -> path (heap (end_owner i c)) q l.
Proof.
  induction 1 as [|j o l Hj _ IH]; [constructor|]. destruct (decide (j = i)) as [->|Hne].
  - apply (path_cons _ _ (MkOwner (previous o) false (data o))); [|done]. cbn. by rewrite lookup_alter_eq, Hj.
  - apply (path_cons _ _ o); [|done]. cbn. by rewrite lookup_alter_ne.
Qed.

(** From an owner on its own path, the loop has enough steps. *)
Lemma predecessor_spec {A} (body : P -> A -> A) c i o l (a : A) :
  wf_owners c -> path (heap c) (Some i) (i :: l) -> heap c !! i = Some o ->
  exists ended rest, l = ended ++ rest /\ Forall (fun j => is_active (heap c) j = false) ended /\
    path (heap c) (predecessor body c o a).1 rest /\
    (forall j, (predecessor body c o a).1 = Some j -> is_active (heap c) j = true) /\
    (predecessor body c o a).2 = foldl (fun a d => body d a) a (omap (fun j => data <$> heap c !! j) ended).
Proof.
  intros Hw Hp Hi. inversion Hp as [|? o' ? Hi' Hl]; subst. replace o' with o in * by congruence.
  apply skip_ended_spec; [done|]. pose proof (address_bound _ Hw _ _ Hi). pose proof (path_length _ _ _ Hw Hp) as H1. cbn in H1. lia.
Qed.

(** ** Chains *)

(** The path of the current owner. *)
Definition chain (c : owners) (l : list nat) : Prop := wf_owners c /\ path (heap c) (current c) l.

Lemma chain_exists c : wf_owners c -> exists l, chain c l.
Proof. intros Hw. destruct (path_exists c (current c) Hw (current_known _ Hw)) as [l Hl]. by exists l. Qed.

Lemma chain_install c l p d : chain c l -> p = current c -> chain (install_owner p d c) (next_address c :: l).
Proof.
  intros [Hw Hp] ->. split; [apply install_owner_wf; [done|apply (current_known _ Hw)]|].
  apply (path_cons _ _ (MkOwner (current c) true d)); cbn; [by rewrite lookup_insert_eq|by apply path_install].
Qed.

Lemma chain_restart c d : wf_owners c -> chain (install_owner None d c) [next_address c].
Proof.
  intros Hw. split; [by apply install_owner_wf|]. apply (path_cons _ _ (MkOwner None true d)); cbn; [by rewrite lookup_insert_eq|constructor].
Qed.

Lemma chain_end c l i : chain c l -> chain (end_owner i c) l.
Proof. intros [Hw Hp]. split; [by apply end_owner_wf|by apply path_end]. Qed.

(** Going back from the current owner. *)
Lemma chain_back {A} (body : P -> A -> A) c l i o (a : A) : chain c l -> current c = Some i -> heap c !! i = Some o ->
  exists ended rest, l = i :: ended ++ rest /\ Forall (fun j => is_active (heap c) j = false) ended /\
    chain (set_current (predecessor body c o a).1 c) rest /\
    settled (set_current (predecessor body c o a).1 c) /\
    (predecessor body c o a).2 = foldl (fun a d => body d a) a (omap (fun j => data <$> heap c !! j) ended).
Proof.
  intros [Hw Hp] Hc Hi. rewrite Hc in Hp. inversion Hp as [|? ? l' _ _]; subst.
  destruct (predecessor_spec body _ _ _ _ a Hw Hp Hi) as (ended & rest & -> & He & Hr & Hs & Hb).
  exists ended, rest. split_and!; [done|done| |done|done]. split; [|done]. apply set_current_wf; [done|].
  intros j Ej. destruct (heap c !! j) eqn:E; [done|]. specialize (Hs _ Ej). unfold is_active in Hs. by rewrite E in Hs.
Qed.

(** The oldest owner of a path. *)
Lemma path_last h p l : path h p l -> match last l with Some r => exists o, h !! r = Some o /\ previous o = None | None => p = None end.
Proof.
  induction 1 as [|i o l Hi Hp IH]; [done|]. destruct l as [|j l].
  2:{ change (last (i :: j :: l)) with (last (j :: l)). destruct (last (j :: l)) eqn:E; [done|]. by apply last_None in E. }
  cbn. exists o. split; [done|].
  by inversion Hp.
Qed.

(** What the owners hold never changes. *)
Lemma install_owner_data p d c i o : heap c !! i = Some o -> wf_owners c -> heap (install_owner p d c) !! i = Some o.
Proof. intros Hi Hw. cbn. rewrite lookup_insert_ne; [done|]. intros E. by rewrite <- E, next_fresh in Hi. Qed.

Lemma end_owner_data i c j o : heap c !! j = Some o ->
  exists o', heap (end_owner i c) !! j = Some o' /\ previous o' = previous o /\ data o' = data o.
Proof.
  intros Hj. cbn. destruct (decide (j = i)) as [->|]; [|rewrite lookup_alter_ne by done; eauto].
  rewrite lookup_alter_eq, Hj. by eexists.
Qed.

Lemma end_owner_data_inv i c j o' : heap (end_owner i c) !! j = Some o' ->
  exists o, heap c !! j = Some o /\ previous o' = previous o /\ data o' = data o.
Proof. cbn. intros [(<- & o & E & ->)|[_ E]]%lookup_alter_Some; eauto. Qed.
End chains.
Arguments owner P : clear implicits.
Arguments owners P : clear implicits.
