(* ===== verification/TracingOwners.v ===== *)
(** * package tracing: process-wide lifecycles

    What New, Init, SetGlobal, its restore function and Shutdown of
    tracing/tracing.go do to the variables of the process: the global tracer,
    the tracer provider and the propagator of OpenTelemetry, and the owners of
    both.  A step is one critical section of one goroutine; goroutines and
    components outside the package, which may replace either OpenTelemetry
    value, move in between. *)

From S2P Require Import Prelude.
From S2P Require Import OwnerChain.

(** ** Tracers and the values of OpenTelemetry *)

(** A tracer provider: the delegate OpenTelemetry starts with, the no-op one,
    another component's, or that of a tracer. *)
Inductive provider := PDelegate | PNoop | PForeign (n : nat) | PTracer (t : nat).

(** A propagator: likewise; an installed one is known by its owner
    (ownedTextMapPropagator). *)
Inductive propagator := GDelegate | GEmpty | GForeign (n : nat) | GOwned (o : nat).

#[export] Instance provider_eq_dec : EqDecision provider.
Proof. solve_decision. Defined.
#[export] Instance propagator_eq_dec : EqDecision propagator.
Proof. solve_decision. Defined.

(** Tracer; [has_provider] for a provider that is not nil, [shutdownOnce] for
    its sync.Once having begun. *)
Record Tracer := MkTracer {
  upstream : bool;
  enabled : bool;
  implicitLogContext : bool;
  has_provider : bool;
  closed : bool;
  globalLifecycle : bool;
  shutdownOnce : bool;
  published : bool                          (* returned to a caller *)
}.

(** otelGlobalOwner: its provider is that of the tracer, its propagator is known
    by its address. *)
Record otelGlobalOwner := MkOTelOwner {
  ot_tracer : nat; baselineTP : provider; baselinePropagator : propagator; primary : bool
}.

Definition error := string.

Record globalTracerOwner := MkGlobalOwner {
  gl_tracer : option nat;
  gl_initErr : option error;
  gl_baseline : option nat;
  gl_baselineErr : option error;
  gl_baselineRetired : option nat
}.

(** ** OpenTelemetry's globals *)

(** What otelOwners guards.  The last four fields are not the code's: whether
    the provider and the propagator are still what the package put there, and
    what it found when the present chain of owners was begun. *)
Record OTel := MkOTel {
  tp : provider;
  pr : propagator;
  otelOwners : owners otelGlobalOwner;
  tp_ours : bool;
  pr_ours : bool;
  base_tp : provider;
  base_pr : propagator
}.

Definition snapshotTracerProvider (p : provider) : provider := match p with PDelegate => PNoop | p => p end.
Definition snapshotPropagator (p : propagator) : propagator := match p with GDelegate => GEmpty | p => p end.

(** installOTelGlobals with its lock held; the address of the owner. *)
Definition installOTelGlobals (t : nat) (prim : bool) (x : OTel) : OTel * nat :=
  let c := otelOwners x in
  let previous :=
    match current c with
    | Some i =>
        match heap c !! i with
        | Some o => if bool_decide (tp x = PTracer (ot_tracer (data o))) && bool_decide (pr x = GOwned i) then Some i else None
        | None => None
        end
    | None => None
    end in
  let owner := MkOTelOwner t (snapshotTracerProvider (tp x)) (snapshotPropagator (pr x)) prim in
  let o := next_address c in
  (MkOTel (PTracer t) (GOwned o) (install_owner previous owner c) true true
     (match previous with Some _ => base_tp x | None => snapshotTracerProvider (tp x) end)
     (match previous with Some _ => base_pr x | None => snapshotPropagator (pr x) end), o).

Definition effectiveOTelPredecessor (o : owner otelGlobalOwner) (x : OTel) : option nat * (provider * propagator) :=
  predecessor (fun d _ => (baselineTP d, baselinePropagator d)) (otelOwners x) o (baselineTP (data o), baselinePropagator (data o)).

(** What an owner installed; only the addresses of owners are asked for. *)
Definition provider_of (c : owners otelGlobalOwner) (i : nat) : provider :=
  match heap c !! i with Some o => PTracer (ot_tracer (data o)) | None => PNoop end.

Definition restoreOTelOwnerGlobalsLocked (i : nat) (preserveProvider preservePropagator : bool) (x : OTel) : OTel :=
  match heap (otelOwners x) !! i with
  | Some o =>
      if bool_decide (current (otelOwners x) = Some i) then
        let '(previous, (fallbackTP, fallbackPropagator)) := effectiveOTelPredecessor o x in
        let put_tp := negb preserveProvider && bool_decide (tp x = PTracer (ot_tracer (data o))) in
        let put_pr := negb preservePropagator && bool_decide (pr x = GOwned i) in
        MkOTel
          (if put_tp then match previous with Some p => provider_of (otelOwners x) p | None => fallbackTP end else tp x)
          (if put_pr then match previous with Some p => GOwned p | None => fallbackPropagator end else pr x)
          (set_current previous (otelOwners x)) put_tp put_pr (base_tp x) (base_pr x)
      else x
  | None => x
  end.

Definition with_otel_owners (c : owners otelGlobalOwner) (x : OTel) : OTel :=
  MkOTel (tp x) (pr x) c (tp_ours x) (pr_ours x) (base_tp x) (base_pr x).

(** deactivateOTelOwner of an owner that is not nil; whether it was active. *)
Definition deactivateOTelOwner (i : nat) (x : OTel) : OTel * bool :=
  if is_active (heap (otelOwners x)) i
  then (restoreOTelOwnerGlobalsLocked i false false (with_otel_owners (end_owner i (otelOwners x)) x), true)
  else (x, false).

(** The loop over the active owners that ends those of a tracer. *)
Definition is_mine {P} (mine : P -> bool) (c : owners P) (i : nat) : bool :=
  match heap c !! i with Some o => mine (data o) | None => false end.

Definition end_owners_of {P} (mine : P -> bool) (c : owners P) : owners P :=
  foldr end_owner c (filter (fun i => is_mine mine c i = true) (elements (actives c))).

Definition relinquishOTelGlobals (t : nat) (keep_provider : bool) (x : OTel) : OTel :=
  let x := with_otel_owners (end_owners_of (fun d => bool_decide (ot_tracer d = t)) (otelOwners x)) x in
  match current (otelOwners x) with
  | Some i => if is_active (heap (otelOwners x)) i then x else restoreOTelOwnerGlobalsLocked i keep_provider true x
  | None => x
  end.

(** ** The global tracer *)

(** What globalTracerMu guards. *)
Record Global := MkGlobal {
  globalTracer : option nat;
  globalInitErr : option error;
  globalInitFailed : bool;
  retiredGlobalTracer : option nat;
  globalTracerOwners : owners globalTracerOwner
}.

Definition installGlobalTracerLocked (t : option nat) (initErr : option error) (x : Global) : Global * nat :=
  let c := globalTracerOwners x in
  let previous :=
    match current c with
    | Some i =>
        match heap c !! i with
        | Some o => if bool_decide (globalTracer x = gl_tracer (data o)) then Some i else None
        | None => None
        end
    | None => None
    end in
  let owner := MkGlobalOwner t initErr (globalTracer x) (globalInitErr x) (retiredGlobalTracer x) in
  (MkGlobal t initErr (globalInitFailed x) None (install_owner previous owner c), next_address c).

Section globals.
Context (ts : gmap nat Tracer).

(** previous.tracer.globalLifecycle.Load() && previous.tracer.closed.Load() *)
Definition retired_lifecycle (t : option nat) : bool :=
  match t with
  | Some t => match ts !! t with Some tr => globalLifecycle tr && closed tr | None => false end
  | None => false
  end.

(** One round of the loop of effectiveGlobalTracerPredecessor; the last value is
    retiredFromChain. *)
Definition past_global (d : globalTracerOwner) (a : option nat * option error * option nat * bool) :
    option nat * option error * option nat * bool :=
  let '(_, _, fallbackRetired, fromChain) := a in
  if negb fromChain && retired_lifecycle (gl_tracer d) then (gl_baseline d, gl_baselineErr d, gl_tracer d, true)
  else if negb fromChain then (gl_baseline d, gl_baselineErr d, gl_baselineRetired d, false)
  else (gl_baseline d, gl_baselineErr d, fallbackRetired, true).

Definition effectiveGlobalTracerPredecessor (o : owner globalTracerOwner) (x : Global) :
    option nat * (option nat * option error * option nat * bool) :=
  predecessor past_global (globalTracerOwners x) o
    (gl_baseline (data o), gl_baselineErr (data o), gl_baselineRetired (data o), false).

Definition restoreGlobalTracerOwnerLocked (i : nat) (x : Global) : Global :=
  match heap (globalTracerOwners x) !! i with
  | Some o =>
      if bool_decide (current (globalTracerOwners x) = Some i) then
        let '(previous, (fallback, fallbackErr, fallbackRetired, _)) := effectiveGlobalTracerPredecessor o x in
        let c := set_current previous (globalTracerOwners x) in
        if bool_decide (globalTracer x <> gl_tracer (data o))
        then MkGlobal (globalTracer x) (globalInitErr x) (globalInitFailed x) (retiredGlobalTracer x) c
        else
          match previous with
          | Some p =>
              match heap (globalTracerOwners x) !! p with
              | Some q => MkGlobal (gl_tracer (data q)) (gl_initErr (data q)) (globalInitFailed x) (gl_baselineRetired (data q)) c
              | None => x
              end
          | None => MkGlobal fallback fallbackErr (globalInitFailed x) fallbackRetired c
          end
      else x
  | None => x
  end.

Definition with_global_owners (c : owners globalTracerOwner) (x : Global) : Global :=
  MkGlobal (globalTracer x) (globalInitErr x) (globalInitFailed x) (retiredGlobalTracer x) c.

Definition deactivateGlobalTracerOwner (i : nat) (x : Global) : Global :=
  if is_active (heap (globalTracerOwners x)) i
  then restoreGlobalTracerOwnerLocked i (with_global_owners (end_owner i (globalTracerOwners x)) x)
  else x.

Definition relinquishGlobalTracer (t : nat) (x : Global) : Global :=
  let x := with_global_owners (end_owners_of (fun d => bool_decide (gl_tracer d = Some t)) (globalTracerOwners x)) x in
  let x :=
    match current (globalTracerOwners x) with
    | Some i => if is_active (heap (globalTracerOwners x)) i then x else restoreGlobalTracerOwnerLocked i x
    | None =>
        if bool_decide (globalTracer x = Some t)
        then MkGlobal None None (globalInitFailed x) (retiredGlobalTracer x) (globalTracerOwners x) else x
    end in
  match ts !! t with
  | Some tr =>
      if globalLifecycle tr
      then MkGlobal (globalTracer x) (globalInitErr x) (globalInitFailed x) (Some t) (globalTracerOwners x) else x
  | None => x
  end.
End globals.

(** What initWithOptions and GlobalWithError do before anything is created:
    return a tracer and an error, or go on. *)
Inductive lookup_global := Found (t : option nat) (e : option error) | Create.

Definition initWithOptions (upstreamDefaults : bool) (x : Global) : lookup_global :=
  match globalTracer x with
  | Some t => Found (Some t) (globalInitErr x)
  | None =>
      if upstreamDefaults then
        match retiredGlobalTracer x with
        | Some t => Found (Some t) None
        | None => if globalInitFailed x then Found None None else Create
        end
      else Create
  end.

Definition GlobalWithError (x : Global) : lookup_global :=
  match globalTracer x with
  | Some t => Found (Some t) (globalInitErr x)
  | None =>
      match retiredGlobalTracer x with
      | Some t => Found (Some t) (globalInitErr x)
      | None => if globalInitFailed x then Found None (globalInitErr x) else Create
      end
  end.

(** ** Goroutines *)

(** Who installs: initOTel for New, for Init, or SetGlobal. *)
Inductive purpose := ForNew | ForInit | ForGlobal.

Definition is_primary (p : purpose) : bool := match p with ForGlobal => false | _ => true end.

(** What a goroutine has still to do, a critical section each. *)
Inductive action :=
| AInstallOTel (t : nat) (p : purpose)             (* installOTelGlobals, past its early checks *)
| AInstallGlobal (t : option nat) (otelOwner : option nat)   (* SetGlobal with globalTracerMu *)
| AReturnRestore (owner : nat) (otelOwner : option nat)
| AEndGlobal (owner : nat)                         (* deactivateGlobalTracerOwner *)
| AEndOTel (otelOwner : option nat)                (* deactivateOTelOwner *)
| ARefresh                                         (* refreshImplicitTraceEnabled *)
| ARefreshOwners                                   (* the same, with implicitTraceMu, from otelOwners.Lock on *)
| ASetImplicit (value : bool)                      (* its last call *)
| ARelinquishGlobal (t : nat)
| ARelinquishOTel (t : nat)
| AInitInstall (t : nat)                           (* initWithOptions once the tracer is made *)
| AInitReturn
| APublish (t : nat).                              (* New returns its tracer *)

#[export] Instance purpose_eq_dec : EqDecision purpose.
Proof. solve_decision. Defined.
#[export] Instance action_eq_dec : EqDecision action.
Proof. solve_decision. Defined.

Record state := MkState {
  tracers : gmap nat Tracer;
  next_tracer : nat;
  otel : OTel;
  global : Global;
  globalTracerMu : bool;                   (* held over several sections, by initWithOptions *)
  implicitTraceMu : bool;
  implicitTraceEnabled : bool;             (* of package logging *)
  restores : list (nat * option nat);      (* functions SetGlobal returned, not called yet *)
  goroutines : list (list action)
}.

Definition with_otel (x : OTel) (s : state) : state :=
  MkState (tracers s) (next_tracer s) x (global s) (globalTracerMu s) (implicitTraceMu s) (implicitTraceEnabled s)
    (restores s) (goroutines s).
Definition with_global (x : Global) (s : state) : state :=
  MkState (tracers s) (next_tracer s) (otel s) x (globalTracerMu s) (implicitTraceMu s) (implicitTraceEnabled s)
    (restores s) (goroutines s).
Definition with_tracer (t : nat) (f : Tracer -> Tracer) (s : state) : state :=
  MkState (alter f t (tracers s)) (next_tracer s) (otel s) (global s) (globalTracerMu s) (implicitTraceMu s)
    (implicitTraceEnabled s) (restores s) (goroutines s).
Definition with_locks (mu imu : bool) (s : state) : state :=
  MkState (tracers s) (next_tracer s) (otel s) (global s) mu imu (implicitTraceEnabled s) (restores s) (goroutines s).
Definition with_implicit (b : bool) (s : state) : state :=
  MkState (tracers s) (next_tracer s) (otel s) (global s) (globalTracerMu s) (implicitTraceMu s) b (restores s) (goroutines s).
Definition with_restores (l : list (nat * option nat)) (s : state) : state :=
  MkState (tracers s) (next_tracer s) (otel s) (global s) (globalTracerMu s) (implicitTraceMu s) (implicitTraceEnabled s)
    l (goroutines s).
Definition with_goroutines (l : list (list action)) (s : state) : state :=
  MkState (tracers s) (next_tracer s) (otel s) (global s) (globalTracerMu s) (implicitTraceMu s) (implicitTraceEnabled s)
    (restores s) l.
Definition add_tracer (tr : Tracer) (s : state) : state :=
  MkState (<[next_tracer s := tr]> (tracers s)) (S (next_tracer s)) (otel s) (global s) (globalTracerMu s) (implicitTraceMu s)
    (implicitTraceEnabled s) (restores s) (goroutines s).

Definition close (tr : Tracer) : Tracer :=
  MkTracer (upstream tr) (enabled tr) (implicitLogContext tr) (has_provider tr) true (globalLifecycle tr) true (published tr).
Definition publish (tr : Tracer) : Tracer :=
  MkTracer (upstream tr) (enabled tr) (implicitLogContext tr) (has_provider tr) (closed tr) (globalLifecycle tr) (shutdownOnce tr) true.
Definition publish_global (tr : Tracer) : Tracer :=
  MkTracer (upstream tr) (enabled tr) (implicitLogContext tr) (has_provider tr) (closed tr) true (shutdownOnce tr) true.

Definition flag_of (f : Tracer -> bool) (s : state) (t : nat) : bool :=
  match tracers s !! t with Some tr => f tr | None => false end.

(** The two conditions of refreshImplicitTraceEnabled. *)
Definition global_implicit (s : state) : bool :=
  match globalTracer (global s) with
  | Some t => flag_of enabled s t && negb (flag_of closed s t) && flag_of implicitLogContext s t
  | None => false
  end.

Definition owner_implicit (s : state) : bool :=
  match current (otelOwners (otel s)) with
  | Some i =>
      match heap (otelOwners (otel s)) !! i with
      | Some o => active o && negb (flag_of closed s (ot_tracer (data o))) && flag_of implicitLogContext s (ot_tracer (data o))
      | None => false
      end
  | None => false
  end.

(** One critical section, with what the goroutine does next; [None] while a lock
    is held by another. *)
Definition perform (a : action) (s : state) : option (list action * state) :=
  match a with
  | AInstallOTel t p =>
      let '(x, o) := installOTelGlobals t (is_primary p) (otel s) in
      Some (match p with
            | ForNew => [ARefresh; APublish t]
            | ForInit => [ARefresh; AInitInstall t]
            | ForGlobal => [AInstallGlobal (Some t) (Some o)]
            end, with_otel x s)
  | AInstallGlobal t oo =>
      if globalTracerMu s then None
      else if match t with Some t => flag_of closed s t | None => false end then Some ([AEndOTel oo], s)
      else let '(x, g) := installGlobalTracerLocked t None (global s) in
           Some ([ARefresh; AReturnRestore g oo], with_global x s)
  | AReturnRestore g oo => Some ([], with_restores ((g, oo) :: restores s) s)
  | AEndGlobal g =>
      if globalTracerMu s then None
      else Some ([ARefresh], with_global (deactivateGlobalTracerOwner (tracers s) g (global s)) s)
  | AEndOTel None => Some ([], s)
  | AEndOTel (Some o) =>
      let '(x, was_active) := deactivateOTelOwner o (otel s) in
      Some (if was_active then [ARefresh] else [], with_otel x s)
  | ARefresh =>
      if implicitTraceMu s then None
      else Some ([if global_implicit s then ASetImplicit true else ARefreshOwners], with_locks (globalTracerMu s) true s)
  | ARefreshOwners => Some ([ASetImplicit (owner_implicit s)], s)
  | ASetImplicit b => Some ([], with_locks (globalTracerMu s) false (with_implicit b s))
  | ARelinquishGlobal t =>
      if globalTracerMu s then None
      else Some ([ARefresh], with_global (relinquishGlobalTracer (tracers s) t (global s)) s)
  | ARelinquishOTel t =>
      Some ([ARefresh], with_otel (relinquishOTelGlobals t (flag_of upstream s t) (otel s)) s)
  | AInitInstall t =>
      let '(x, _) := installGlobalTracerLocked (Some t) None (global s) in
      Some ([ARefresh; AInitReturn], with_global x (with_tracer t publish_global s))
  | AInitReturn => Some ([], with_locks false (implicitTraceMu s) s)
  | APublish t => Some ([], with_tracer t publish s)
  end.

Definition spawn (l : list action) (s : state) : state := with_goroutines (l :: goroutines s) s.

(** A tracer made by newTracer; [built] when its SDK was. *)
Definition new_tracer (up enab built : bool) : Tracer :=
  MkTracer up (if built then enab else enab && up) (negb up) (enab && built) false false false false.

(** Calls of the package, one section of a goroutine, and what others do to
    OpenTelemetry's globals. *)
Inductive tstep (s : state) : state -> Prop :=
| t_new (up enab built : bool) :
    tstep s (spawn [if enab && built then AInstallOTel (next_tracer s) ForNew else APublish (next_tracer s)]
      (add_tracer (new_tracer up enab built) s))
| t_init (up enab : bool) :
    globalTracerMu s = false -> initWithOptions up (global s) = Create ->
    tstep s (spawn [if enab then AInstallOTel (next_tracer s) ForInit else AInitInstall (next_tracer s)]
      (with_locks true (implicitTraceMu s)
        (with_global (MkGlobal (globalTracer (global s)) (globalInitErr (global s)) false (retiredGlobalTracer (global s))
           (globalTracerOwners (global s))) (add_tracer (new_tracer up enab true) s))))
| t_init_failed up e :
    globalTracerMu s = false -> initWithOptions up (global s) = Create ->
    tstep s (with_global (MkGlobal (globalTracer (global s)) (Some e) true (retiredGlobalTracer (global s))
      (globalTracerOwners (global s))) s)
| t_set_global t :
    match t with Some t => flag_of published s t = true | None => True end ->
    tstep s (spawn [match t with
                    | Some t' => if flag_of has_provider s t' && negb (flag_of closed s t') then AInstallOTel t' ForGlobal
                                 else AInstallGlobal t None
                    | None => AInstallGlobal None None
                    end] s)
| t_restore g oo l1 l2 :
    restores s = l1 ++ (g, oo) :: l2 -> tstep s (spawn [AEndGlobal g; AEndOTel oo] (with_restores (l1 ++ l2) s))
| t_shutdown t :
    flag_of published s t = true -> flag_of shutdownOnce s t = false ->
    tstep s (spawn [ARelinquishGlobal t; ARelinquishOTel t] (with_tracer t close s))
| t_run l1 a rest l2 next s' :
    goroutines s = l1 ++ (a :: rest) :: l2 -> perform a s = Some (next, s') ->
    tstep s (with_goroutines (l1 ++ (next ++ rest) :: l2) s')
| t_foreign_provider p :
    tstep s (with_otel (MkOTel p (pr (otel s)) (otelOwners (otel s)) false (pr_ours (otel s)) (base_tp (otel s)) (base_pr (otel s))) s)
| t_foreign_propagator p :
    tstep s (with_otel (MkOTel (tp (otel s)) p (otelOwners (otel s)) (tp_ours (otel s)) false (base_tp (otel s)) (base_pr (otel s))) s).

(** Before the package does anything. *)
Definition initial (p : provider) (g : propagator) : state :=
  MkState ∅ 0 (MkOTel p g no_owners false false p g) (MkGlobal None None false None no_owners) false false false [] [].

Inductive reachable : state -> Prop :=
| reach_initial p g : reachable (initial p g)
| reach_step s s' : reachable s -> tstep s s' -> reachable s'.
