(* ===== verification/TracingOwnersProofs.v ===== *)
(** * package tracing: what the owners guarantee

    The global tracer is that of the newest owner that has not ended; so are the
    values of OpenTelemetry, as long as nobody else replaced them; a process-wide
    tracer is made once; nothing shut down stays installed. *)

From S2P Require Import Prelude.
From S2P Require Import OwnerChain.
From S2P Require Import TracingOwners.

(** ** Ending all owners of a tracer *)

Section ends.
Context {P : Type} (mine : P -> bool).

Lemma foldr_end_chain (js : list nat) (c : owners P) l : chain c l -> chain (foldr end_owner c js) l.
Proof. intros H. induction js as [|j js IH]; [done|]. by apply chain_end. Qed.

Lemma foldr_end_active (js : list nat) (c : owners P) i :
  is_active (heap (foldr end_owner c js)) i = bool_decide (i ∉ js) && is_active (heap c) i.
Proof.
  induction js as [|j js IH]; cbn [foldr].
  - rewrite bool_decide_true; [done|]. by intros ?%elem_of_nil.
  - rewrite is_active_end, IH, andb_assoc. f_equal. rewrite <- bool_decide_and. apply bool_decide_ext. set_solver.
Qed.

Lemma foldr_end_data (js : list nat) (c : owners P) i o : heap c !! i = Some o ->
  exists o', heap (foldr end_owner c js) !! i = Some o' /\ previous o' = previous o /\ data o' = data o.
Proof.
  intros Hi. induction js as [|j js (o' & E & E1 & E2)]; [by exists o|].
  destruct (end_owner_data j _ _ _ E) as (o2 & H1 & H2 & H3). exists o2. split_and!; [done|congruence..].
Qed.

Lemma foldr_end_data_inv (js : list nat) (c : owners P) i o' : heap (foldr end_owner c js) !! i = Some o' ->
  exists o, heap c !! i = Some o /\ previous o' = previous o /\ data o' = data o.
Proof.
  revert o'. induction js as [|j js IH]; intros o' Hi; [by exists o'|].
  apply end_owner_data_inv in Hi as (o2 & (o & E & E1 & E2)%IH & H2 & H3). exists o. split_and!; [done|congruence..].
Qed.

Lemma foldr_end_current (js : list nat) (c : owners P) : current (foldr end_owner c js) = current c.
Proof. induction js as [|j js IH]; [done|]. cbn. exact IH. Qed.

Lemma foldr_end_next (js : list nat) (c : owners P) : next_address (foldr end_owner c js) = next_address c.
Proof. induction js as [|j js IH]; [done|]. cbn. exact IH. Qed.

(** Those of the tracer, and only those, end. *)
Lemma end_owners_of_active (c : owners P) i : wf_owners c ->
  is_active (heap (end_owners_of mine c)) i = is_active (heap c) i && negb (is_mine mine c i).
Proof.
  intros Hw. unfold end_owners_of. rewrite foldr_end_active. destruct (is_active (heap c) i) eqn:Ea; [|by rewrite andb_false_r].
  rewrite andb_true_r, andb_true_l. apply (actives_spec _ Hw) in Ea. destruct (is_mine mine c i) eqn:Em.
  - apply bool_decide_eq_false. intros H. apply H. apply list_elem_of_filter. by rewrite elem_of_elements.
  - apply bool_decide_eq_true. rewrite list_elem_of_filter. intros [? _]. congruence.
Qed.
End ends.

(** ** The global tracer *)

Definition tracer_at (c : owners globalTracerOwner) (p : option nat) : option nat :=
  match p with
  | Some i => match heap c !! i with Some o => gl_tracer (data o) | None => None end
  | None => None
  end.

(** The owners that have not ended are in the chain, the global tracer is that
    of the first, and there was none under the last. *)
Record global_ok (x : Global) (l : list nat) : Prop := {
  gk_chain : chain (globalTracerOwners x) l;
  gk_settled : settled (globalTracerOwners x);
  gk_in : forall i, is_active (heap (globalTracerOwners x)) i = true -> i ∈ l;
  gk_tracer : globalTracer x = tracer_at (globalTracerOwners x) (current (globalTracerOwners x));
  gk_root : forall i o, heap (globalTracerOwners x) !! i = Some o -> previous o = None -> gl_baseline (data o) = None
}.

Lemma global_previous x l : global_ok x l ->
  match current (globalTracerOwners x) with
  | Some i => match heap (globalTracerOwners x) !! i with
              | Some o => if bool_decide (globalTracer x = gl_tracer (data o)) then Some i else None
              | None => None
              end
  | None => None
  end = current (globalTracerOwners x).
Proof.
  intros [[Hw _] _ _ Ht _]. destruct (current (globalTracerOwners x)) as [i|] eqn:Ec; [|done].
  destruct (current_known _ Hw _ Ec) as [o Ho]. rewrite Ho. rewrite bool_decide_true; [done|]. rewrite Ht. cbn. by rewrite Ho.
Qed.

Lemma install_global_ok t e x l : global_ok x l ->
  global_ok (installGlobalTracerLocked t e x).1 (next_address (globalTracerOwners x) :: l) /\
  (installGlobalTracerLocked t e x).2 = next_address (globalTracerOwners x).
Proof.
  intros H. split; [|done]. pose proof (global_previous _ _ H) as Ep. destruct H as [Hc Hs Hi Ht Hr]. pose proof Hc as [Hw Hp].
  unfold installGlobalTracerLocked. rewrite Ep. split; cbn [globalTracerOwners globalTracer fst].
  - by apply chain_install.
  - intros i [= <-]. by rewrite is_active_install, bool_decide_true.
  - intros i. rewrite is_active_install, orb_true_iff, bool_decide_eq_true, elem_of_cons. intros [->|Ha]; [by left|right; by apply Hi].
  - cbn. by rewrite lookup_insert_eq.
  - intros i o. cbn. intros [[<- <-]|[_ Ho]]%lookup_insert_Some; [|by apply (Hr i o)]. cbn. intros Ec. by rewrite Ht, Ec.
Qed.

Section retired.
Context (ts : gmap nat Tracer).

(** The value of the loop after these owners. *)
Definition fallbacks (c : owners globalTracerOwner) (o : owner globalTracerOwner) (ended : list nat) :
    option nat * option error * option nat * bool :=
  foldl (fun a d => past_global ts d a) (gl_baseline (data o), gl_baselineErr (data o), gl_baselineRetired (data o), false)
    (omap (fun j => data <$> heap c !! j) ended).

Lemma past_global_baseline d a : (past_global ts d a).1.1.1 = gl_baseline d.
Proof. destruct a as [[[? ?] ?] ?]. unfold past_global. by repeat case_match. Qed.

(** Back from an owner that has ended. *)
Lemma restore_global_ok x l i o :
  chain (globalTracerOwners x) l -> (forall j, is_active (heap (globalTracerOwners x)) j = true -> j ∈ l) ->
  (forall j q, heap (globalTracerOwners x) !! j = Some q -> previous q = None -> gl_baseline (data q) = None) ->
  current (globalTracerOwners x) = Some i -> heap (globalTracerOwners x) !! i = Some o ->
  is_active (heap (globalTracerOwners x)) i = false -> globalTracer x = gl_tracer (data o) ->
  exists ended rest, l = i :: ended ++ rest /\ Forall (fun j => is_active (heap (globalTracerOwners x)) j = false) ended /\
    global_ok (restoreGlobalTracerOwnerLocked ts i x) rest /\
    heap (globalTracerOwners (restoreGlobalTracerOwnerLocked ts i x)) = heap (globalTracerOwners x) /\
    (rest = [] -> retiredGlobalTracer (restoreGlobalTracerOwnerLocked ts i x) = (fallbacks (globalTracerOwners x) o ended).1.2).
Proof.
  intros Hc Hin Hroot Ecur Ho Ha Et. pose proof Hc as [Hw Hp].
  destruct (chain_back (past_global ts) _ _ _ _ (gl_baseline (data o), gl_baselineErr (data o), gl_baselineRetired (data o), false) Hc Ecur Ho)
    as (ended & rest & -> & He & Hr & Hs & Hb).
  exists ended, rest. split; [done|]. split; [done|]. unfold restoreGlobalTracerOwnerLocked, effectiveGlobalTracerPredecessor.
  rewrite Ho, bool_decide_true by done. change (predecessor _ _ _ _) with (predecessor (past_global ts) (globalTracerOwners x) o
    (gl_baseline (data o), gl_baselineErr (data o), gl_baselineRetired (data o), false)).
  destruct (predecessor _ _ _ _) as [p [[[fb fe] fr] fc]] eqn:Ep. cbn [fst snd] in *. rewrite bool_decide_false by auto.
  assert (forall j, is_active (heap (globalTracerOwners x)) j = true -> j ∈ rest) as Hin'.
  { intros j Hj. specialize (Hin j Hj). apply elem_of_cons in Hin as [->|Hin]; [congruence|].
    apply elem_of_app in Hin as [Hin|]; [|done]. rewrite Forall_forall in He. by rewrite He in Hj. }
  pose proof Hr as [_ Hpr]. cbn in Hpr. destruct p as [p|].
  - destruct (current_known _ (proj1 Hr) p eq_refl) as [q Hq]. cbn in Hq. rewrite Hq. split_and!; [split; try done|done|].
    + cbn. by rewrite Hq.
    + inversion Hpr; subst; done.
  - inversion Hpr; subst. split_and!; [split; try done|done|].
    + cbn. assert (fb = (fallbacks (globalTracerOwners x) o ended).1.1.1) as -> by (unfold fallbacks; by rewrite <- Hb).
      rewrite app_nil_r in *. rewrite Ecur in Hp. inversion Hp as [|? o' ? Ho' Hp']; subst. replace o' with o in * by congruence.
      pose proof (path_last _ _ _ Hp') as Hl. destruct ended as [|e ended _] using rev_ind.
      * cbn. apply (Hroot i); [done|by inversion Hp'].
      * rewrite last_snoc in Hl. destruct Hl as (q & Hq & Eq). unfold fallbacks. rewrite omap_app. cbn. rewrite Hq. cbn.
        rewrite foldl_app. cbn. rewrite past_global_baseline. by eapply Hroot.
    + intros _. cbn. unfold fallbacks. by rewrite <- Hb.
Qed.

(** End these owners and go back from the current one if it is among them. *)
Definition leave_global (js : list nat) (x : Global) : Global :=
  let x := with_global_owners (foldr end_owner (globalTracerOwners x) js) x in
  match current (globalTracerOwners x) with
  | Some i => if is_active (heap (globalTracerOwners x)) i then x else restoreGlobalTracerOwnerLocked ts i x
  | None => x
  end.

Lemma leave_global_ok js x l : global_ok x l ->
  exists gone rest, l = gone ++ rest /\ global_ok (leave_global js x) rest /\
    heap (globalTracerOwners (leave_global js x)) = heap (foldr end_owner (globalTracerOwners x) js) /\
    (gone = [] -> leave_global js x = with_global_owners (foldr end_owner (globalTracerOwners x) js) x) /\
    (forall i ended, gone = i :: ended -> i ∈ js /\
       Forall (fun j => is_active (heap (foldr end_owner (globalTracerOwners x) js)) j = false) ended /\
       (rest = [] -> exists o, heap (foldr end_owner (globalTracerOwners x) js) !! i = Some o /\
          retiredGlobalTracer (leave_global js x) = (fallbacks (foldr end_owner (globalTracerOwners x) js) o ended).1.2)).
Proof.
  intros [Hc Hs Hi Ht Hr]. set (c := foldr end_owner (globalTracerOwners x) js). set (x' := with_global_owners c x).
  assert (chain c l) as Hc' by by apply foldr_end_chain.
  assert (forall j, is_active (heap c) j = true -> j ∈ l) as Hi'.
  { intros j. unfold c. rewrite foldr_end_active, andb_true_iff. intros [_ H]. by apply Hi. }
  assert (forall j q, heap c !! j = Some q -> previous q = None -> gl_baseline (data q) = None) as Hr'.
  { intros j q (o & Ho & E1 & E2)%foldr_end_data_inv Eq. rewrite E2. apply (Hr j); [done|congruence]. }
  assert (current c = current (globalTracerOwners x)) as Ec by apply foldr_end_current.
  assert (tracer_at c (current c) = tracer_at (globalTracerOwners x) (current (globalTracerOwners x))) as Et.
  { rewrite Ec. destruct (current (globalTracerOwners x)) as [i|] eqn:E; [|done]. cbn.
    destruct (current_known _ (proj1 Hc) _ E) as [o Ho]. destruct (foldr_end_data js _ _ _ Ho) as (o' & Ho' & _ & Ed).
    change (heap (foldr end_owner (globalTracerOwners x) js)) with (heap c) in Ho'. by rewrite Ho, Ho', Ed. }
  unfold leave_global. fold c. fold x'. change (globalTracerOwners x') with c.
  assert ((forall i, current c = Some i -> is_active (heap c) i = true) -> global_ok x' l) as Hstay.
  { intros H. split; cbn; [done|exact H|done| |done]. by rewrite Ht, <- Et. }
  destruct (current c) as [i|] eqn:E.
  - destruct (is_active (heap c) i) eqn:Ea.
    + exists [], l. split_and!; [done|apply Hstay; by intros ? [= <-]|done..].
    + destruct (current_known _ (proj1 Hc') _ E) as [o Ho].
      assert (globalTracer x' = gl_tracer (data o)) as Eg by (cbn; rewrite Ht, <- Et; cbn; by rewrite Ho).
      destruct (restore_global_ok x' l i o Hc' Hi' Hr' E Ho Ea Eg) as (ended & rest & -> & He & Hok & Hh & Hret).
      exists (i :: ended), rest. split_and!; [done..|]. intros i' ended' [= <- <-]. split_and!; [|done|].
      * assert (is_active (heap (globalTracerOwners x)) i = true) as Ha by (apply Hs; by rewrite <- Ec).
        unfold c in Ea. rewrite foldr_end_active, Ha, andb_true_r in Ea. apply bool_decide_eq_false in Ea. by apply dec_stable in Ea.
      * intros Er. exists o. split; [done|by apply Hret].
  - exists [], l. split_and!; [done|apply Hstay; by intros ?|done..].
Qed.

Lemma deactivate_global_leaves x l i : global_ok x l ->
  deactivateGlobalTracerOwner ts i x = if is_active (heap (globalTracerOwners x)) i then leave_global [i] x else x.
Proof.
  intros [Hc Hs _ _ _]. unfold deactivateGlobalTracerOwner, leave_global. destruct (is_active (heap (globalTracerOwners x)) i) eqn:Ea; [|done].
  cbn [foldr]. change (current (globalTracerOwners (with_global_owners (end_owner i (globalTracerOwners x)) x))) with (current (globalTracerOwners x)).
  set (x' := with_global_owners _ x).
  assert (forall k, is_active (heap (globalTracerOwners x')) k = bool_decide (k <> i) && is_active (heap (globalTracerOwners x)) k) as Eact.
  { intros k. apply is_active_end. }
  assert (current (globalTracerOwners x) <> Some i -> restoreGlobalTracerOwnerLocked ts i x' = x') as Hstay.
  { intros Hne. unfold restoreGlobalTracerOwnerLocked. destruct (heap _ !! i); [|done]. by rewrite bool_decide_false. }
  destruct (current (globalTracerOwners x)) as [k|] eqn:Ek; [|by apply Hstay].
  destruct (decide (k = i)) as [->|Hne].
  - by rewrite Eact, bool_decide_false by auto.
  - rewrite Eact, bool_decide_true, (Hs _ Ek) by done. cbn. apply Hstay. congruence.
Qed.

Definition owners_of (t : nat) (x : Global) : list nat :=
  filter (fun i => is_mine (fun d => bool_decide (gl_tracer d = Some t)) (globalTracerOwners x) i = true)
    (elements (actives (globalTracerOwners x))).

Definition retire (t : nat) (x : Global) : Global :=
  match ts !! t with
  | Some tr => if globalLifecycle tr
               then MkGlobal (globalTracer x) (globalInitErr x) (globalInitFailed x) (Some t) (globalTracerOwners x) else x
  | None => x
  end.

Lemma relinquish_global_leaves x l t : global_ok x l -> relinquishGlobalTracer ts t x = retire t (leave_global (owners_of t x) x).
Proof.
  intros [Hc Hs _ Ht _]. unfold relinquishGlobalTracer, retire, leave_global, end_owners_of.
  change (filter _ (elements (actives (globalTracerOwners x)))) with (owners_of t x).
  set (x' := with_global_owners _ x). destruct (current (globalTracerOwners x')) as [i|] eqn:E; [done|].
  rewrite bool_decide_false; [done|]. cbn. rewrite Ht. cbn in E. rewrite foldr_end_current in E. by rewrite E.
Qed.

Lemma retire_ok t x l : global_ok x l -> global_ok (retire t x) l.
Proof. intros [H1 H2 H3 H4 H5]. unfold retire. destruct (ts !! t) as [tr|]; [|done]. by destruct (globalLifecycle tr). Qed.
End retired.

Lemma relinquish_global_ok ts t x l : global_ok x l -> exists l', global_ok (relinquishGlobalTracer ts t x) l'.
Proof.
  intros H. destruct (leave_global_ok ts (owners_of t x) x l H) as (_ & rest & _ & Hok & _).
  exists rest. rewrite (relinquish_global_leaves _ _ _ _ H). by apply retire_ok.
Qed.

Lemma deactivate_global_ok ts i x l : global_ok x l -> exists l', global_ok (deactivateGlobalTracerOwner ts i x) l'.
Proof.
  intros H. rewrite (deactivate_global_leaves _ _ _ _ H). destruct (is_active _ _); [|by exists l].
  destruct (leave_global_ok ts [i] x l H) as (_ & rest & _ & Hok & _). by exists rest.
Qed.

(** What a section does to the global tracer. *)
Inductive global_change (s : state) : action -> Global -> Prop :=
| unchanged a :
    match a with
    | AInstallGlobal t _ => match t with Some t => flag_of closed s t | None => false end = true
    | AInitInstall _ | AEndGlobal _ | ARelinquishGlobal _ => False
    | _ => True
    end -> global_change s a (global s)
| installed_global t oo : globalTracerMu s = false -> match t with Some t => flag_of closed s t | None => false end = false ->
    global_change s (AInstallGlobal t oo) (installGlobalTracerLocked t None (global s)).1
| installed_init t : global_change s (AInitInstall t) (installGlobalTracerLocked (Some t) None (global s)).1
| deactivated_global g : globalTracerMu s = false ->
    global_change s (AEndGlobal g) (deactivateGlobalTracerOwner (tracers s) g (global s))
| relinquished_global t : globalTracerMu s = false ->
    global_change s (ARelinquishGlobal t) (relinquishGlobalTracer (tracers s) t (global s)).

Lemma perform_global a s next s' : perform a s = Some (next, s') -> global_change s a (global s').
Proof.
  intros H. destruct a; cbn in H.
  - injection H as <- <-. by refine (unchanged s _ _).
  - destruct (globalTracerMu s) eqn:Em; [done|]. destruct (match t with Some _ => _ | None => _ end) eqn:Ec.
    + injection H as <- <-. exact (unchanged s (AInstallGlobal t otelOwner) Ec).
    + injection H as <- <-. by apply installed_global.
  - injection H as <- <-. by refine (unchanged s _ _).
  - destruct (globalTracerMu s) eqn:Em; [done|]. injection H as <- <-. by apply deactivated_global.
  - destruct otelOwner as [o|]; [|injection H as <- <-; by refine (unchanged s _ _)].
    destruct (deactivateOTelOwner o (otel s)) as [x b]. injection H as <- <-. by refine (unchanged s _ _).
  - destruct (implicitTraceMu s); [done|]. injection H as <- <-. by refine (unchanged s _ _).
  - injection H as <- <-. by refine (unchanged s _ _).
  - injection H as <- <-. by refine (unchanged s _ _).
  - destruct (globalTracerMu s) eqn:Em; [done|]. injection H as <- <-. by apply relinquished_global.
  - injection H as <- <-. by refine (unchanged s _ _).
  - injection H as <- <-. by apply installed_init.
  - injection H as <- <-. by refine (unchanged s _ _).
  - injection H as <- <-. by refine (unchanged s _ _).
Qed.

Lemma global_change_ok s a x l : global_change s a x -> global_ok (global s) l -> exists l', global_ok x l'.
Proof.
  intros Hch Hok. destruct Hch.
  - by exists l.
  - eexists. by apply install_global_ok.
  - eexists. by apply install_global_ok.
  - by eapply deactivate_global_ok.
  - by eapply relinquish_global_ok.
Qed.

Lemma global_ok_err e f r x l : global_ok x l ->
  global_ok (MkGlobal (globalTracer x) e f r (globalTracerOwners x)) l.
Proof. by intros [H1 H2 H3 H4 H5]. Qed.

Lemma initial_global_ok : global_ok (MkGlobal None None false None no_owners) [].
Proof.
  split; cbn; [split; [apply no_owners_wf|constructor]|by intros ?| |done|by intros ? ? ?%lookup_empty_Some].
  intros i. unfold is_active. by rewrite lookup_empty.
Qed.

Lemma reachable_global s : reachable s -> exists l, global_ok (global s) l.
Proof.
  induction 1 as [p g|s s' _ [l IH] Hstep]; [exists []; apply initial_global_ok|].
  destruct Hstep as [up en bu|up en Em Ei|up e Em Ei|t Ht|g oo l1 l2 Er|t Hp Hs|l1 a rest l2 next s' Eg Ea|p|p]; cbn;
    try (by exists l); try (exists l; by apply global_ok_err).
  by eapply global_change_ok; [eapply perform_global|].
Qed.

(** C14: The global tracer is always the one the newest owner that has not ended
    was given, in whatever order SetGlobal, its restore functions, Init and
    Shutdown take effect, and none when all have ended. *)
Theorem global_tracer_is_newest s : reachable s ->
  let c := globalTracerOwners (global s) in
  (actives c = ∅ /\ current c = None /\ globalTracer (global s) = None) \/
  exists i o, current c = Some i /\ i ∈ actives c /\ (forall j, j ∈ actives c -> j <= i) /\
    heap c !! i = Some o /\ globalTracer (global s) = gl_tracer (data o).
Proof.
  intros [l [[Hw Hp] Hs Hi Ht _]]%reachable_global c. fold c in Hw, Hp, Hs, Hi, Ht.
  assert (forall j, j ∈ actives c -> j ∈ l) as Hal by (intros j Hj; by apply Hi, (actives_spec _ Hw)).
  destruct (current c) as [i|] eqn:Ec.
  - right. destruct (current_known _ Hw _ Ec) as [o Ho]. exists i, o. split_and!; try done.
    + apply (actives_spec _ Hw). by apply Hs.
    + intros j Hj%Hal. inversion Hp as [|? o' l' Hi' Hl']; subst. apply elem_of_cons in Hj as [->|Hj]; [done|].
      pose proof (path_bound _ _ _ _ Hw Hp Hj). lia.
    + rewrite Ht. cbn. by rewrite Ho.
  - left. inversion Hp; subst. split_and!; [|done..]. apply set_eq. intros j. split; [by intros ?%Hal%elem_of_nil|by intros ?%elem_of_empty].
Qed.

(** ** OpenTelemetry's globals *)

Record otel_ok (x : OTel) : Prop := {
  ok_wf : wf_owners (otelOwners x);
  ok_settled : settled (otelOwners x);
  ok_tp : tp_ours x = true -> tp x = match current (otelOwners x) with Some i => provider_of (otelOwners x) i | None => base_tp x end;
  ok_pr : pr_ours x = true -> pr x = match current (otelOwners x) with Some i => GOwned i | None => base_pr x end;
  ok_root : forall l r o, path (heap (otelOwners x)) (current (otelOwners x)) l -> last l = Some r ->
    heap (otelOwners x) !! r = Some o -> baselineTP (data o) = base_tp x /\ baselinePropagator (data o) = base_pr x
}.

Lemma install_otel_ok t prim x : otel_ok x -> otel_ok (installOTelGlobals t prim x).1.
Proof.
  intros [Hw Hs Htp Hpr Hr]. unfold installOTelGlobals. set (p := match current (otelOwners x) with Some i => _ | None => None end).
  assert (p = None \/ p = current (otelOwners x)) as Ep.
  { unfold p. destruct (current (otelOwners x)) as [i|]; [|by left]. destruct (heap _ !! i); [|by left].
    destruct (bool_decide _ && bool_decide _); [by right|by left]. }
  clearbody p. set (d := MkOTelOwner _ _ _ _). cbn [fst]. pose proof (next_fresh _ Hw) as Hn.
  assert (forall i, p = Some i -> is_Some (heap (otelOwners x) !! i)) as Hp.
  { intros i Ei. destruct Ep as [Ep|Ep]; rewrite Ei in Ep; [done|]. by apply (current_known _ Hw). }
  split; cbn [otelOwners tp pr tp_ours pr_ours base_tp base_pr].
  - by apply install_owner_wf.
  - intros i [= <-]. by rewrite is_active_install, bool_decide_true.
  - intros _. cbn. unfold provider_of. cbn. by rewrite lookup_insert_eq.
  - done.
  - intros l r o Hl Er Ho. cbn in Hl. inversion Hl as [|? o' l' Ho' Hl']; subst. cbn in Ho'. rewrite lookup_insert_eq in Ho'. injection Ho' as <-.
    cbn in Hl'. destruct l' as [|j l'].
    + injection Er as <-. cbn in Ho. rewrite lookup_insert_eq in Ho. injection Ho as <-. by inversion Hl'.
    + assert (path (heap (otelOwners x)) p (j :: l')) as Hl2.
      { destruct (path_exists _ p Hw Hp) as [l2 H2]. by rewrite (path_inj _ _ _ _ Hl' (path_install p d _ _ _ Hw H2)). }
      change (last (next_address (otelOwners x) :: j :: l')) with (last (j :: l')) in Er.
      destruct Ep as [Ep|Ep]; rewrite Ep in Hl2; [by inversion Hl2|]. destruct p as [i|] eqn:E; [|by rewrite <- Ep in Hl2; inversion Hl2].
      apply (Hr _ _ _ Hl2 Er). cbn in Ho. rewrite lookup_insert_ne in Ho; [done|]. intros E'. subst r.
      assert (next_address (otelOwners x) ∈ j :: l') as Hin by (apply last_Some in Er as [? ->]; set_solver).
      destruct (path_in _ _ _ _ Hl2 Hin) as [? H']. by rewrite Hn in H'.
Qed.

Lemma with_otel_ok js x : otel_ok x ->
  (forall i, current (otelOwners x) = Some i -> is_active (heap (foldr end_owner (otelOwners x) js)) i = true) ->
  otel_ok (with_otel_owners (foldr end_owner (otelOwners x) js) x).
Proof.
  intros [Hw Hs Htp Hpr Hr] Hact. destruct (chain_exists _ Hw) as [l0 Hc0]. pose proof (foldr_end_chain js _ _ Hc0) as Hc.
  split; cbn; [apply Hc| |rewrite foldr_end_current..].
  - intros i. rewrite foldr_end_current. apply Hact.
  - intros H. rewrite (Htp H). destruct (current (otelOwners x)) as [i|] eqn:E; [|done]. unfold provider_of.
    destruct (current_known _ Hw _ E) as [o Ho]. destruct (foldr_end_data js _ _ _ Ho) as (o' & Ho' & _ & Ed). by rewrite Ho, Ho', Ed.
  - exact Hpr.
  - intros l r o Hl Er Ho. destruct Hc as [_ Hc]. rewrite foldr_end_current in Hc. pose proof (path_inj _ _ _ _ Hl Hc) as ->.
    apply foldr_end_data_inv in Ho as (o' & Ho' & _ & ->). by apply (Hr _ _ _ (proj2 Hc0) Er).
Qed.

(** Back from an owner that has ended. *)
Lemma restore_otel_ok i o keep_tp keep_pr x l :
  chain (otelOwners x) l -> current (otelOwners x) = Some i -> heap (otelOwners x) !! i = Some o ->
  (forall r q, last l = Some r -> heap (otelOwners x) !! r = Some q ->
     baselineTP (data q) = base_tp x /\ baselinePropagator (data q) = base_pr x) ->
  otel_ok (restoreOTelOwnerGlobalsLocked i keep_tp keep_pr x).
Proof.
  intros Hc Ecur Ho Hroot. unfold restoreOTelOwnerGlobalsLocked, effectiveOTelPredecessor. rewrite Ho, bool_decide_true by done.
  destruct (chain_back (fun d _ => (baselineTP d, baselinePropagator d)) _ _ _ _ (baselineTP (data o), baselinePropagator (data o)) Hc Ecur Ho)
    as (ended & rest & -> & _ & Hr & Hs & Hb).
  destruct (predecessor _ _ _ _) as [p [ft fp]]. cbn [fst snd] in *. pose proof Hc as [Hw Hp].
  assert (rest = [] -> ft = base_tp x /\ fp = base_pr x) as Hbase.
  { intros ->. rewrite app_nil_r in *. rewrite Ecur in Hp. inversion Hp as [|? o' ? Ho' Hp']; subst. replace o' with o in * by congruence.
    destruct ended as [|e ended _] using rev_ind; [injection Hb as -> ->; by apply (Hroot i)|].
    assert (is_Some (heap (otelOwners x) !! e)) as [q Hq] by (apply (path_in _ _ _ _ Hp'); set_solver).
    rewrite omap_app in Hb. cbn in Hb. rewrite Hq in Hb. cbn in Hb. rewrite foldl_app in Hb. injection Hb as -> ->.
    apply (Hroot e); [by rewrite app_comm_cons, last_snoc|done]. }
  destruct Hr as [Hwr Hpr]. cbn in Hpr. split; cbn; [done|done| | |].
  - intros ->. destruct p as [p|]; [done|]. inversion Hpr; subst. by apply Hbase.
  - intros ->. destruct p as [p|]; [done|]. inversion Hpr; subst. by apply Hbase.
  - intros l r q Hl Er Hq. pose proof (path_inj _ _ _ _ Hl Hpr) as ->. apply (Hroot r); [|done].
    apply last_Some in Er as [rest' ->]. by rewrite app_comm_cons, app_assoc, last_snoc.
Qed.

Lemma leave_otel_ok js i keep_tp keep_pr x : otel_ok x -> current (otelOwners x) = Some i ->
  otel_ok (restoreOTelOwnerGlobalsLocked i keep_tp keep_pr (with_otel_owners (foldr end_owner (otelOwners x) js) x)).
Proof.
  intros [Hw Hs Htp Hpr Hr] Ecur. destruct (chain_exists _ Hw) as [l Hc]. pose proof (foldr_end_chain js _ _ Hc) as Hc'.
  destruct (current_known _ Hw _ Ecur) as [o Ho]. destruct (foldr_end_data js _ _ _ Ho) as (o' & Ho' & _ & _).
  apply (restore_otel_ok i o' _ _ _ l); cbn; [done|by rewrite foldr_end_current|done|].
  intros r q Er (q' & Hq' & _ & ->)%foldr_end_data_inv. by apply (Hr _ _ _ (proj2 Hc) Er).
Qed.

Lemma deactivate_otel_ok i x : otel_ok x -> otel_ok (deactivateOTelOwner i x).1.
Proof.
  intros H. unfold deactivateOTelOwner. destruct (is_active _ i) eqn:Ea; [|done]. cbn [fst].
  destruct (decide (current (otelOwners x) = Some i)) as [E|Hne]; [by apply (leave_otel_ok [i])|].
  assert (restoreOTelOwnerGlobalsLocked i false false (with_otel_owners (end_owner i (otelOwners x)) x) =
    with_otel_owners (end_owner i (otelOwners x)) x) as ->.
  { unfold restoreOTelOwnerGlobalsLocked. destruct (heap _ !! i); [|done]. by rewrite bool_decide_false. }
  apply (with_otel_ok [i]); [done|]. intros j Ej. cbn [foldr]. rewrite is_active_end, bool_decide_true by congruence. by apply (ok_settled _ H).
Qed.

Lemma relinquish_otel_ok t keep x : otel_ok x -> otel_ok (relinquishOTelGlobals t keep x).
Proof.
  intros H. unfold relinquishOTelGlobals, end_owners_of. set (js := filter _ _).
  set (x' := with_otel_owners _ _). destruct (current (otelOwners x')) as [i|] eqn:E.
  - destruct (is_active (heap (otelOwners x')) i) eqn:Ea.
    + apply with_otel_ok; [done|]. intros j Ej. cbn in E. rewrite foldr_end_current, Ej in E. by injection E as ->.
    + apply leave_otel_ok; [done|]. cbn in E. by rewrite foldr_end_current in E.
  - apply with_otel_ok; [done|]. intros j Ej. cbn in E. by rewrite foldr_end_current, Ej in E.
Qed.

(** What a section does to OpenTelemetry's globals. *)
Inductive otel_change (s : state) : action -> OTel -> Prop :=
| same_otel a :
    match a with AInstallOTel _ _ | AEndOTel (Some _) | ARelinquishOTel _ => False | _ => True end -> otel_change s a (otel s)
| installed_otel t p : otel_change s (AInstallOTel t p) (installOTelGlobals t (is_primary p) (otel s)).1
| deactivated_otel o : otel_change s (AEndOTel (Some o)) (deactivateOTelOwner o (otel s)).1
| relinquished_otel t : otel_change s (ARelinquishOTel t) (relinquishOTelGlobals t (flag_of upstream s t) (otel s)).

Lemma perform_otel a s next s' : perform a s = Some (next, s') -> otel_change s a (otel s').
Proof.
  intros H. destruct a; cbn in H.
  - injection H as <- <-. apply installed_otel.
  - destruct (globalTracerMu s); [done|]. destruct (match t with Some _ => _ | None => _ end); injection H as <- <-; by refine (same_otel s _ _).
  - injection H as <- <-. by refine (same_otel s _ _).
  - destruct (globalTracerMu s); [done|]. injection H as <- <-. by refine (same_otel s _ _).
  - destruct otelOwner as [o|]; [|injection H as <- <-; by refine (same_otel s _ _)].
    destruct (deactivateOTelOwner o (otel s)) as [x b] eqn:E. injection H as <- <-.
    pose proof (deactivated_otel s o) as Hd. by rewrite E in Hd.
  - destruct (implicitTraceMu s); [done|]. injection H as <- <-. by refine (same_otel s _ _).
  - injection H as <- <-. by refine (same_otel s _ _).
  - injection H as <- <-. by refine (same_otel s _ _).
  - destruct (globalTracerMu s); [done|]. injection H as <- <-. by refine (same_otel s _ _).
  - injection H as <- <-. apply relinquished_otel.
  - injection H as <- <-. by refine (same_otel s _ _).
  - injection H as <- <-. by refine (same_otel s _ _).
  - injection H as <- <-. by refine (same_otel s _ _).
Qed.

Lemma otel_change_ok s a x : otel_change s a x -> otel_ok (otel s) -> otel_ok x.
Proof.
  intros Hch Hok. destruct Hch; [done|by apply install_otel_ok|by apply deactivate_otel_ok|by apply relinquish_otel_ok].
Qed.

Lemma reachable_otel s : reachable s -> otel_ok (otel s).
Proof.
  induction 1 as [p g|s s' _ IH Hstep].
  { split; cbn; [apply no_owners_wf|by intros ?|done..|]. intros l r o Hl. by inversion Hl; subst. }
  destruct Hstep as [up en bu|up en Em Ei|up e Em Ei|t Ht|g oo l1 l2 Er|t Hp Hs|l1 a rest l2 next s' Eg Ea|p|p]; cbn; try done.
  - eapply otel_change_ok; [by eapply perform_otel|done].
  - by destruct IH.
  - by destruct IH.
Qed.

(** The provider of OpenTelemetry, unless another component or a Shutdown
    that keeps it came after the package put it there, is that of the current
    owner, which has not ended; when no owner is left it is what was found when
    the chain of owners was begun.  The propagator likewise, on its own. *)
Theorem otel_globals_follow_owners s : reachable s ->
  let x := otel s in
  (forall i, current (otelOwners x) = Some i -> i ∈ actives (otelOwners x)) /\
  (tp_ours x = true -> tp x = match current (otelOwners x) with Some i => provider_of (otelOwners x) i | None => base_tp x end) /\
  (pr_ours x = true -> pr x = match current (otelOwners x) with Some i => GOwned i | None => base_pr x end).
Proof.
  intros [Hw Hs Htp Hpr _]%reachable_otel x. split; [|by split]. intros i Hi. by apply (actives_spec _ Hw), Hs.
Qed.

(** ** Owners through a section *)

Lemma restore_global_heap ts i x : heap (globalTracerOwners (restoreGlobalTracerOwnerLocked ts i x)) = heap (globalTracerOwners x).
Proof.
  unfold restoreGlobalTracerOwnerLocked. destruct (heap _ !! i); [|done]. case_bool_decide; [|done].
  destruct (effectiveGlobalTracerPredecessor _ _ _) as [p [[[fb fe] fr] fc]]. case_bool_decide; [done|].
  destruct p as [p|]; [|done]. by destruct (heap _ !! p).
Qed.

Lemma restore_otel_heap i a b x : heap (otelOwners (restoreOTelOwnerGlobalsLocked i a b x)) = heap (otelOwners x).
Proof.
  unfold restoreOTelOwnerGlobalsLocked. destruct (heap _ !! i); [|done]. case_bool_decide; [|done].
  by destruct (effectiveOTelPredecessor _ _) as [p [ft fp]].
Qed.

(** [c'] has the owners of [c], of which some may have ended. *)
Definition later {P} (c c' : gmap nat (owner P)) : Prop :=
  forall i o', c' !! i = Some o' -> exists o, c !! i = Some o /\ data o' = data o /\ (active o' = true -> active o = true).

Lemma later_refl {P} (c : gmap nat (owner P)) : later c c.
Proof. intros i o Ho. by exists o. Qed.

Lemma later_ends {P} (js : list nat) (c : owners P) : later (heap c) (heap (foldr end_owner c js)).
Proof.
  intros i o' Ho'. destruct (foldr_end_data_inv js _ _ _ Ho') as (o & Ho & _ & E). exists o. split_and!; [done..|].
  intros Ha. pose proof (foldr_end_active js c i) as H. unfold is_active in H. rewrite Ho', Ho, Ha in H.
  symmetry in H. by apply andb_true_iff in H as [_ H].
Qed.

Lemma ends_active {P} (mine : P -> bool) (c : owners P) i o' : wf_owners c ->
  heap (end_owners_of mine c) !! i = Some o' -> active o' = true -> mine (data o') = false.
Proof.
  intros Hw Ho' Ha. pose proof (end_owners_of_active mine c i Hw) as H. unfold is_active, is_mine in H.
  destruct (foldr_end_data_inv _ _ _ _ Ho') as (o & Ho & _ & E). unfold end_owners_of in *. rewrite Ho', Ho, Ha in H.
  symmetry in H. apply andb_true_iff in H as [_ H]. rewrite E. by apply negb_true_iff in H.
Qed.

Definition installs_global (s : state) (a : action) (t : option nat) : Prop :=
  (exists oo, a = AInstallGlobal t oo /\ match t with Some t => flag_of closed s t | None => false end = false) \/
  (exists t', t = Some t' /\ a = AInitInstall t').

(** An owner of the global tracer after a section was one before, or is the one
    the section installed. *)
Lemma global_owner_after s a x l i o' : global_change s a x -> global_ok (global s) l ->
  heap (globalTracerOwners x) !! i = Some o' ->
  (exists o, heap (globalTracerOwners (global s)) !! i = Some o /\ data o' = data o /\ (active o' = true -> active o = true) /\
     (forall t, a = ARelinquishGlobal t -> active o' = true -> gl_tracer (data o') <> Some t)) \/
  (i = next_address (globalTracerOwners (global s)) /\ installs_global s a (gl_tracer (data o'))).
Proof.
  intros Hch Hok Ho'. pose proof (proj1 (gk_chain _ _ Hok)) as Hw.
  destruct Hch as [a Ha|t oo Hm Hc|t|g Hm|t Hm].
  - left. exists o'. split_and!; try done. by intros t ->.
  - cbn in Ho'. apply lookup_insert_Some in Ho' as [[<- <-]|[_ Ho']]; [|left; by exists o'].
    right. split; [done|]. left. by exists oo.
  - cbn in Ho'. apply lookup_insert_Some in Ho' as [[<- <-]|[_ Ho']]; [|left; by exists o'].
    right. split; [done|]. right. by exists t.
  - left. rewrite (deactivate_global_leaves _ _ _ _ Hok) in Ho'. destruct (is_active _ g); [|by exists o'].
    destruct (leave_global_ok (tracers s) [g] _ _ Hok) as (_ & _ & _ & _ & Hh & _). rewrite Hh in Ho'.
    destruct (later_ends [g] _ _ _ Ho') as (o & ? & ? & ?). by exists o.
  - left. rewrite (relinquish_global_leaves _ _ _ _ Hok) in Ho'.
    destruct (leave_global_ok (tracers s) (owners_of t (global s)) _ _ Hok) as (_ & _ & _ & _ & Hh & _).
    assert (heap (foldr end_owner (globalTracerOwners (global s)) (owners_of t (global s))) !! i = Some o') as Ho2.
    { rewrite <- Hh. unfold retire in Ho'. destruct (tracers s !! t) as [tr|]; [|done]. by destruct (globalLifecycle tr). }
    destruct (later_ends _ _ _ _ Ho2) as (o & ? & ? & ?). exists o. split_and!; [done..|]. intros t' [= <-] Ha.
    pose proof (ends_active (fun d => bool_decide (gl_tracer d = Some t)) _ _ _ Hw Ho2 Ha) as E. by apply bool_decide_eq_false in E.
Qed.

(** The same for the owners of OpenTelemetry's globals. *)
Lemma otel_owner_after s a x i o' : otel_change s a x -> otel_ok (otel s) -> heap (otelOwners x) !! i = Some o' ->
  (exists o, heap (otelOwners (otel s)) !! i = Some o /\ data o' = data o /\ (active o' = true -> active o = true) /\
     (forall t, a = ARelinquishOTel t -> active o' = true -> ot_tracer (data o') <> t) /\
     (a = AEndOTel (Some i) -> active o' = false)) \/
  (i = next_address (otelOwners (otel s)) /\ exists p, a = AInstallOTel (ot_tracer (data o')) p).
Proof.
  intros Hch Hok Ho'. pose proof (ok_wf _ Hok) as Hw. destruct Hch as [a Ha|t p|o|t].
  - left. exists o'. split_and!; try done; [by intros t ->|by intros ->].
  - cbn in Ho'. apply lookup_insert_Some in Ho' as [[<- <-]|[_ Ho']]; [|left; by exists o'].
    right. split; [done|]. by exists p.
  - left. unfold deactivateOTelOwner in Ho'. destruct (is_active (heap (otelOwners (otel s))) o) eqn:Ea.
    + cbn [fst] in Ho'. rewrite restore_otel_heap in Ho'. destruct (later_ends [o] _ _ _ Ho') as (o1 & H1 & H2 & H3).
      exists o1. split_and!; try done. intros [= ->]. cbn in Ho'. rewrite lookup_alter_eq, H1 in Ho'. by injection Ho' as <-.
    + exists o'. split_and!; try done. intros [= ->]. cbn in Ho'. unfold is_active in Ea. by rewrite Ho' in Ea.
  - left. assert (heap (end_owners_of (fun d => bool_decide (ot_tracer d = t)) (otelOwners (otel s))) !! i = Some o') as Ho2.
    { unfold relinquishOTelGlobals in Ho'. destruct (current _) as [k|]; [|done]. destruct (is_active _ k); [done|]. by rewrite restore_otel_heap in Ho'. }
    destruct (later_ends _ _ _ _ Ho2) as (o & ? & ? & ?). exists o. split_and!; try done. intros t' [= <-] Ha.
    pose proof (ends_active (fun d => bool_decide (ot_tracer d = t)) _ _ _ Hw Ho2 Ha) as E. by apply bool_decide_eq_false in E.
Qed.

(** ** Counting what goroutines have still to do *)

Definition weight (f : action -> nat) (s : state) : nat := sum_list_with (sum_list_with f) (goroutines s).

Definition pending (s : state) (a : action) : Prop := exists gr, gr ∈ goroutines s /\ a ∈ gr.

Lemma perform_goroutines a s next s' : perform a s = Some (next, s') -> goroutines s' = goroutines s.
Proof.
  intros H. destruct a; cbn in H; repeat (case_match; try done); try (injection H as <- <-; done).
Qed.

Section run.
Context (s : state) (l1 : list (list action)) (a : action) (rest : list action) (l2 : list (list action)) (next : list action) (s' : state).
Context (Hg : goroutines s = l1 ++ (a :: rest) :: l2) (Hp : perform a s = Some (next, s')).

Definition after_run : state := with_goroutines (l1 ++ (next ++ rest) :: l2) s'.

Lemma run_weight f : weight f after_run + f a = weight f s + sum_list_with f next.
Proof. unfold weight, after_run. rewrite Hg. cbn. rewrite !sum_list_with_app. cbn. rewrite sum_list_with_app. lia. Qed.

Lemma run_pending b : pending s b -> b <> a -> pending after_run b.
Proof.
  intros (gr & Hgr & Hb) Hne. rewrite Hg in Hgr. apply elem_of_app in Hgr as [H|[->|H]%elem_of_cons].
  - exists gr. split; [cbn; apply elem_of_app; by left|done].
  - exists (next ++ rest). split; [cbn; apply elem_of_app; right; by left|]. apply elem_of_cons in Hb as [->|Hb]; [done|].
    apply elem_of_app. by right.
  - exists gr. split; [cbn; apply elem_of_app; right; by right|done].
Qed.

Lemma run_next b : b ∈ next -> pending after_run b.
Proof. intros Hb. exists (next ++ rest). split; [cbn; apply elem_of_app; right; by left|]. apply elem_of_app. by left. Qed.

Lemma run_pending_inv b : pending after_run b -> b ∈ next \/ pending s b.
Proof.
  intros (gr & Hgr & Hb). cbn in Hgr. apply elem_of_app in Hgr as [H|[->|H]%elem_of_cons].
  - right. exists gr. split; [|done]. rewrite Hg. apply elem_of_app. by left.
  - apply elem_of_app in Hb as [Hb|Hb]; [by left|right]. exists (a :: rest). split; [rewrite Hg; apply elem_of_app; right; by left|by right].
  - right. exists gr. split; [|done]. rewrite Hg. apply elem_of_app. right. by right.
Qed.

Lemma run_was_pending : pending s a.
Proof. exists (a :: rest). split; [rewrite Hg; apply elem_of_app; right; by left|by left]. Qed.
End run.

Lemma weight_pending f s a : pending s a -> f a <= weight f s.
Proof.
  intros (gr & Hgr & Ha). unfold weight. apply list_elem_of_split in Hgr as (l1 & l2 & ->). rewrite sum_list_with_app. cbn.
  apply list_elem_of_split in Ha as (r1 & r2 & ->). rewrite sum_list_with_app. cbn. lia.
Qed.

Lemma pending_spawn l s b : pending (spawn l s) b <-> b ∈ l \/ pending s b.
Proof.
  unfold pending. cbn. split.
  - intros (gr & [->|H]%elem_of_cons & Hb); [by left|right; eauto].
  - intros [Hb|(gr & H & Hb)]; [exists l; split; [by left|done]|exists gr; split; [by right|done]].
Qed.

Lemma weight_spawn f l s : weight f (spawn l s) = sum_list_with f l + weight f s.
Proof. done. Qed.

(** ** Tracers *)

(** Before New or Init has returned it, one section deals with a tracer. *)
Definition making (t : nat) (a : action) : nat :=
  match a with
  | AInstallOTel t' ForNew | AInstallOTel t' ForInit | AInitInstall t' | APublish t' => if bool_decide (t = t') then 1 else 0
  | _ => 0
  end.

Definition action_tracer (a : action) : option nat :=
  match a with
  | AInstallOTel t _ | ARelinquishGlobal t | ARelinquishOTel t | AInitInstall t | APublish t => Some t
  | AInstallGlobal t _ => t
  | _ => None
  end.

Record tracers_ok (s : state) : Prop := {
  known_bound : forall t tr, tracers s !! t = Some tr -> t < next_tracer s;
  closed_published : forall t, flag_of closed s t = true -> flag_of published s t = true;
  made_once : forall t, weight (making t) s + (if flag_of published s t then 1 else 0) <= 1;
  named_known : forall a t, pending s a -> action_tracer a = Some t -> t < next_tracer s;
  global_known : forall i o t, heap (globalTracerOwners (global s)) !! i = Some o -> gl_tracer (data o) = Some t -> t < next_tracer s;
  otel_known : forall i o, heap (otelOwners (otel s)) !! i = Some o -> ot_tracer (data o) < next_tracer s
}.

Lemma flag_alter f g t s u : (forall tr, f (g tr) = f tr) ->
  flag_of f (with_tracer t g s) u = flag_of f s u.
Proof.
  intros H. unfold flag_of. cbn. destruct (decide (u = t)) as [->|]; [|by rewrite lookup_alter_ne].
  rewrite lookup_alter_eq. destruct (tracers s !! t); [apply H|done].
Qed.

Lemma flag_alter_at f g t s u : flag_of f (with_tracer t g s) u = match tracers s !! u with
  | Some tr => f (if decide (u = t) then g tr else tr) | None => false end.
Proof.
  unfold flag_of. cbn. destruct (decide (u = t)) as [->|]; [|by rewrite lookup_alter_ne].
  rewrite lookup_alter_eq. by destruct (tracers s !! t).
Qed.

Lemma flag_add f tr s u : flag_of f (add_tracer tr s) u = if decide (u = next_tracer s) then f tr else flag_of f s u.
Proof. unfold flag_of. cbn. destruct (decide (u = next_tracer s)) as [->|]; [by rewrite lookup_insert_eq|by rewrite lookup_insert_ne]. Qed.

(** What a section does to the tracers. *)
Lemma perform_tracers a s next s' : perform a s = Some (next, s') ->
  next_tracer s' = next_tracer s /\ tracers s' = match a with
    | AInitInstall t => alter publish_global t (tracers s)
    | APublish t => alter publish t (tracers s)
    | _ => tracers s
    end.
Proof.
  intros H. destruct a; cbn in H; repeat (case_match; try done); try (injection H as <- <-; done).
Qed.

Lemma perform_flag f a s next s' t : (forall tr, f (publish tr) = f tr) -> (forall tr, f (publish_global tr) = f tr) ->
  perform a s = Some (next, s') -> flag_of f s' t = flag_of f s t.
Proof.
  intros H1 H2 [_ E]%perform_tracers. unfold flag_of. rewrite E. destruct a; try done.
  - exact (flag_alter f publish_global _ s t H2).
  - exact (flag_alter f publish _ s t H1).
Qed.

Lemma perform_published t a s next s' : perform a s = Some (next, s') -> flag_of published s' t = true ->
  flag_of published s t = true \/ a = AInitInstall t \/ a = APublish t.
Proof.
  intros [_ E]%perform_tracers H. unfold flag_of in *. rewrite E in H. destruct a; try (by left).
  - destruct (decide (t = t0)) as [->|Hne]; [by right; left|]. rewrite lookup_alter_ne in H by done. by left.
  - destruct (decide (t = t0)) as [->|Hne]; [by right; right|]. rewrite lookup_alter_ne in H by done. by left.
Qed.

(** The sections that deal with a new tracer follow one another. *)
Lemma perform_next t a s next s' : perform a s = Some (next, s') ->
  sum_list_with (making t) next = match a with AInstallOTel _ ForNew | AInstallOTel _ ForInit => making t a | _ => 0 end.
Proof.
  intros H. destruct a as [t' []| | | | | | | | | | | | ]; cbn in H; try (injection H as <- <-; cbn; try case_bool_decide; done).
  - destruct (globalTracerMu s); [done|]. by destruct (match t0 with Some _ => _ | None => _ end); injection H as <- <-.
  - destruct (globalTracerMu s); [done|]. by injection H as <- <-.
  - destruct otelOwner; [|by injection H as <- <-]. destruct (deactivateOTelOwner _ _) as [? []]; by injection H as <- <-.
  - destruct (implicitTraceMu s); [done|]. injection H as <- <-. by destruct (global_implicit s).
  - destruct (globalTracerMu s); [done|]. by injection H as <- <-.
Qed.

Lemma perform_making t a s next s' : perform a s = Some (next, s') ->
  sum_list_with (making t) next + (if flag_of published s' t then 1 else 0) <= making t a + (if flag_of published s t then 1 else 0).
Proof.
  intros H. rewrite (perform_next _ _ _ _ _ H). pose proof (perform_published t _ _ _ _ H) as Hp.
  destruct (flag_of published s' t).
  - destruct (Hp eq_refl) as [->|[->| ->]]; [|cbn; rewrite bool_decide_true by done; lia..].
    destruct a as [? []| | | | | | | | | | | | ]; cbn; lia.
  - destruct a as [? []| | | | | | | | | | | | ]; cbn; lia.
Qed.

(** What a section names next it named before, or installed itself. *)
Lemma perform_named a s next s' b t : perform a s = Some (next, s') -> b ∈ next -> action_tracer b = Some t -> action_tracer a = Some t.
Proof.
  intros H Hb Ht. destruct a as [t' p|t' oo|g oo|g|[o|]| | |v|t'|t'|t'| |t']; cbn in H.
  - injection H as <- <-. destruct p; cbn in Hb; set_unfold; destruct_or!; subst; try done; by injection Ht as ->.
  - destruct (globalTracerMu s); [done|]. destruct (match t' with Some _ => _ | None => _ end); injection H as <- <-; set_unfold; destruct_or!; by subst.
  - injection H as <- <-. set_solver.
  - destruct (globalTracerMu s); [done|]. injection H as <- <-. set_unfold. destruct_or!; by subst.
  - destruct (deactivateOTelOwner o (otel s)) as [x []]; injection H as <- <-; set_unfold; destruct_or?; by subst.
  - injection H as <- <-. set_solver.
  - destruct (implicitTraceMu s); [done|]. injection H as <- <-. destruct (global_implicit s); set_unfold; destruct_or!; by subst.
  - injection H as <- <-. set_unfold. destruct_or!; by subst.
  - injection H as <- <-. set_solver.
  - destruct (globalTracerMu s); [done|]. injection H as <- <-. set_unfold. destruct_or!; by subst.
  - injection H as <- <-. set_unfold. destruct_or!; by subst.
  - injection H as <- <-. set_unfold. destruct_or!; by subst.
  - injection H as <- <-. set_solver.
  - injection H as <- <-. set_solver.
Qed.

Lemma run_tracers_ok s l1 a rest l2 next s' l : tracers_ok s -> global_ok (global s) l -> otel_ok (otel s) ->
  goroutines s = l1 ++ (a :: rest) :: l2 -> perform a s = Some (next, s') ->
  tracers_ok (with_goroutines (l1 ++ (next ++ rest) :: l2) s').
Proof.
  intros [H1 H2 H3 H4 H5 H6] Hgl Hot Hg Hp. pose proof (perform_tracers _ _ _ _ Hp) as [En Et].
  assert (forall t, action_tracer a = Some t -> t < next_tracer s) as Ha.
  { intros t. apply H4. by eapply run_was_pending. }
  split; cbn [next_tracer with_goroutines tracers global otel].
  - intros t tr Ht. rewrite En. rewrite Et in Ht. destruct a; try by eapply H1.
    + apply lookup_alter_Some in Ht as [(-> & tr' & Ht & _)|[_ Ht]]; by eapply H1.
    + apply lookup_alter_Some in Ht as [(-> & tr' & Ht & _)|[_ Ht]]; by eapply H1.
  - intros t Hc. change (flag_of closed s' t = true) in Hc. change (flag_of published s' t = true).
    rewrite (perform_flag closed _ _ _ _ t (fun _ => eq_refl) (fun _ => eq_refl) Hp) in Hc. apply H2 in Hc.
    unfold flag_of in *. rewrite Et. destruct a; try done.
    + destruct (decide (t = t0)) as [->|]; [|by rewrite lookup_alter_ne]. rewrite lookup_alter_eq. by destruct (tracers s !! t0).
    + destruct (decide (t = t0)) as [->|]; [|by rewrite lookup_alter_ne]. rewrite lookup_alter_eq. by destruct (tracers s !! t0).
  - intros t. pose proof (run_weight _ _ _ _ _ next s' Hg (making t)) as Hw. unfold after_run in Hw.
    change (flag_of published (with_goroutines _ s') t) with (flag_of published s' t).
    pose proof (perform_making t _ _ _ _ Hp). specialize (H3 t). lia.
  - intros b t Hb Ht. rewrite En. destruct (run_pending_inv _ _ _ _ _ _ _ Hg _ Hb) as [Hn|Hn]; [|by eapply H4].
    apply Ha. by eapply perform_named.
  - intros i o t Ho Hot'. rewrite En. destruct (global_owner_after _ _ _ _ _ _ (perform_global _ _ _ _ Hp) Hgl Ho)
      as [(o1 & Ho1 & Ed & _)|[_ [(oo & -> & _)|(t' & Et' & ->)]]].
    + rewrite Ed in Hot'. by eapply H5.
    + apply Ha. by rewrite <- Hot'.
    + apply Ha. cbn. congruence.
  - intros i o Ho. rewrite En. destruct (otel_owner_after _ _ _ _ _ (perform_otel _ _ _ _ Hp) Hot Ho)
      as [(o1 & Ho1 & Ed & _)|[_ (p & ->)]].
    + rewrite Ed. by eapply H6.
    + by apply Ha.
Qed.

Lemma spawn_tracers_ok l s : tracers_ok s -> (forall t, sum_list_with (making t) l = 0) ->
  (forall a t, a ∈ l -> action_tracer a = Some t -> t < next_tracer s) -> tracers_ok (spawn l s).
Proof.
  intros [H1 H2 H3 H4 H5 H6] Hm Hn. split; try done.
  - intros t. rewrite weight_spawn, Hm. apply H3.
  - intros a t [Ha|Ha]%pending_spawn; [by apply Hn|by apply H4].
Qed.

(** A new tracer, with the section that deals with it. *)
Lemma add_tracer_ok a tr s : tracers_ok s -> closed tr = false -> published tr = false ->
  (forall t, making t a = if bool_decide (t = next_tracer s) then 1 else 0) -> action_tracer a = Some (next_tracer s) ->
  tracers_ok (spawn [a] (add_tracer tr s)).
Proof.
  intros [H1 H2 H3 H4 H5 H6] Hc Hp Hm Ht. split; cbn [next_tracer spawn add_tracer with_goroutines tracers global otel].
  - intros t tr' [[<- _]|[_ E]]%lookup_insert_Some; [lia|]. apply H1 in E. lia.
  - intros t. change (flag_of closed (add_tracer tr s) t = true -> flag_of published (add_tracer tr s) t = true).
    rewrite !flag_add. case_decide; [congruence|]. apply H2.
  - intros t. rewrite weight_spawn. change (weight (making t) (add_tracer tr s)) with (weight (making t) s).
    change (flag_of published (spawn [a] (add_tracer tr s)) t) with (flag_of published (add_tracer tr s) t).
    rewrite flag_add. cbn [sum_list_with]. rewrite Hm. specialize (H3 t).
    destruct (decide (t = next_tracer s)) as [->|Hne]; [|rewrite bool_decide_false by done; lia]. rewrite bool_decide_true, Hp by done.
    enough (weight (making (next_tracer s)) s = 0) by lia.
    destruct (weight (making (next_tracer s)) s) eqn:E; [done|]. exfalso.
    assert (exists b, pending s b /\ making (next_tracer s) b <> 0) as (b & Hb & Hmb).
    { clear - E. unfold weight, pending in *. induction (goroutines s) as [|gr l IH]; [done|]. cbn in E.
      destruct (sum_list_with (making (next_tracer s)) gr) eqn:Eg.
      - destruct (IH E) as (b & (g & Hg & Hb) & Hm). exists b. split; [|done]. exists g. split; [by right|done].
      - clear - Eg. assert (exists b, b ∈ gr /\ making (next_tracer s) b <> 0) as (b & Hb & Hm).
        { induction gr as [|b gr IH]; [done|]. cbn in Eg. destruct (making (next_tracer s) b) eqn:Em.
          - destruct (IH Eg) as (b' & ? & ?). exists b'. split; [by right|done].
          - exists b. split; [by left|by rewrite Em]. }
        exists b. split; [|done]. exists gr. split; [by left|done]. }
    enough (next_tracer s < next_tracer s) by lia. apply (H4 b); [done|].
    destruct b as [? []| | | | | | | | | | | | ]; cbn in Hmb |- *; try done; by case_bool_decide; subst.
  - intros b t [Hb|Hb]%pending_spawn Hbt; [apply list_elem_of_singleton in Hb as ->; replace t with (next_tracer s) by congruence; lia|].
    specialize (H4 _ _ Hb Hbt). lia.
  - intros i o t Ho Hot. specialize (H5 _ _ _ Ho Hot). lia.
  - intros i o Ho. specialize (H6 _ _ Ho). lia.
Qed.

Lemma close_tracers_ok t s : tracers_ok s -> flag_of published s t = true -> tracers_ok (with_tracer t close s).
Proof.
  intros [H1 H2 H3 H4 H5 H6] Hp. split; cbn [next_tracer with_tracer tracers global otel]; try done.
  - intros u tr Hu. apply lookup_alter_Some in Hu as [(-> & tr' & Hu & _)|[_ Hu]]; by eapply H1.
  - intros u. rewrite (flag_alter published close) by done. rewrite flag_alter_at. intros Hu.
    destruct (decide (u = t)) as [->|Hne]; [done|]. apply H2. unfold flag_of. by destruct (tracers s !! u).
  - intros u. rewrite (flag_alter published close) by done. apply H3.
Qed.

Lemma reachable_tracers s : reachable s -> tracers_ok s.
Proof.
  induction 1 as [p g|s s' Hr IH Hstep].
  { split; cbn; [by intros ? ? ?%lookup_empty_Some| | | |by intros ? ? ? ?%lookup_empty_Some|by intros ? ? ?%lookup_empty_Some].
    - intros t. unfold flag_of. cbn. by rewrite lookup_empty.
    - intros t. unfold flag_of, weight. cbn. rewrite lookup_empty. lia.
    - intros a t (gr & Hgr & _). by apply elem_of_nil in Hgr. }
  assert (forall t, flag_of published s t = true -> t < next_tracer s) as Hpub.
  { intros t Ht. unfold flag_of in Ht. destruct (tracers s !! t) eqn:E; [|done]. by eapply known_bound. }
  destruct Hstep as [up en bu|up en Em Ei|up e Em Ei|t Ht|g oo l1 l2 Er|t Hp Hs|l1 a rest l2 next s' Eg Ea|p|p].
  - by destruct (en && bu); apply add_tracer_ok.
  - assert (tracers_ok (spawn [if en then AInstallOTel (next_tracer s) ForInit else AInitInstall (next_tracer s)]
      (add_tracer (new_tracer up en true) s))) as [H1 H2 H3 H4 H5 H6] by (by destruct en; apply add_tracer_ok). by split.
  - by destruct IH.
  - apply spawn_tracers_ok; [done| |].
    + intros t'. cbn. destruct t as [t|]; [|done]. by destruct (_ && _).
    + intros a t' ->%list_elem_of_singleton Ha. apply Hpub. destruct t as [t|]; [|done]. destruct (_ && _); cbn in Ha; by injection Ha as <-.
  - apply (spawn_tracers_ok _ (with_restores (l1 ++ l2) s)); [by destruct IH|done|].
    intros a t Ha Hat. set_unfold. destruct_or!; by subst.
  - apply spawn_tracers_ok; [by apply close_tracers_ok|done|].
    intros a t' Ha Hat. apply Hpub. set_unfold. destruct_or!; subst; by injection Hat as <-.
  - destruct (reachable_global _ Hr) as [l Hl]. eapply run_tracers_ok; eauto using reachable_otel.
  - by destruct IH.
  - by destruct IH.
Qed.

(** ** Shutdown *)

(** An owner of a tracer that was shut down is about to be ended. *)
Record shutdown_ok (s : state) : Prop := {
  global_ending : forall i o t, heap (globalTracerOwners (global s)) !! i = Some o -> active o = true ->
    gl_tracer (data o) = Some t -> flag_of closed s t = true -> pending s (ARelinquishGlobal t);
  otel_ending : forall i o, heap (otelOwners (otel s)) !! i = Some o -> active o = true -> flag_of closed s (ot_tracer (data o)) = true ->
    pending s (ARelinquishOTel (ot_tracer (data o))) \/ pending s (AInstallGlobal (Some (ot_tracer (data o))) (Some i)) \/
    pending s (AEndOTel (Some i))
}.

Lemma making_open s t a : tracers_ok s -> pending s a -> making t a = 1 -> flag_of closed s t = false.
Proof.
  intros H Ha Hm. pose proof (weight_pending (making t) _ _ Ha) as Hw. pose proof (made_once _ H t) as H1.
  destruct (flag_of closed s t) eqn:Ec; [|done]. apply (closed_published _ H) in Ec. rewrite Ec in H1. lia.
Qed.

Lemma run_shutdown_ok s l1 a rest l2 next s' l : tracers_ok s -> global_ok (global s) l -> otel_ok (otel s) -> shutdown_ok s ->
  goroutines s = l1 ++ (a :: rest) :: l2 -> perform a s = Some (next, s') ->
  shutdown_ok (with_goroutines (l1 ++ (next ++ rest) :: l2) s').
Proof.
  intros Htr Hgl Hot [H1 H2] Hg Hp.
  assert (forall t, flag_of closed s' t = flag_of closed s t) as Hcl by (intros t; by eapply perform_flag).
  pose proof (run_pending _ _ _ _ _ next s' Hg) as Hk. pose proof (run_next l1 rest l2 next s') as Hn.
  pose proof (run_was_pending _ _ _ _ _ Hg) as Ha. unfold after_run in *.
  split; cbn [global otel with_goroutines].
  - intros i o t Ho Hact Hot' Hc. change (flag_of closed s' t = true) in Hc. rewrite Hcl in Hc.
    destruct (global_owner_after _ _ _ _ _ _ (perform_global _ _ _ _ Hp) Hgl Ho) as [(o1 & Ho1 & Ed & Hact' & Hne)|[_ [(oo & -> & Hopen)|(t' & Et' & ->)]]].
    + apply Hk; [eapply H1; eauto; congruence|]. intros E. by apply (Hne t).
    + rewrite Hot' in Hopen. congruence.
    + rewrite Hot' in Et'. injection Et' as <-. rewrite (making_open _ t _ Htr Ha) in Hc; [done|]. cbn. by rewrite bool_decide_true.
  - intros i o Ho Hact Hc. change (flag_of closed s' (ot_tracer (data o)) = true) in Hc. rewrite Hcl in Hc.
    destruct (otel_owner_after _ _ _ _ _ (perform_otel _ _ _ _ Hp) Hot Ho) as [(o1 & Ho1 & Ed & Hact' & Hne & Hend)|[Ei (p & ->)]].
    + rewrite Ed in Hc |- *. destruct (H2 i o1 Ho1 (Hact' Hact) Hc) as [H|[H|H]].
      * left. apply Hk; [done|]. intros <-. apply (Hne _ eq_refl Hact). by rewrite Ed.
      * destruct (decide (a = AInstallGlobal (Some (ot_tracer (data o1))) (Some i))) as [->|]; [|right; left; by apply Hk].
        right. right. apply Hn. cbn in Hp. destruct (globalTracerMu s); [done|]. rewrite Hc in Hp. injection Hp as <- <-. by left.
      * right. right. apply Hk; [done|]. intros <-. by rewrite Hend in Hact.
    + destruct p.
      * rewrite (making_open _ (ot_tracer (data o)) _ Htr Ha) in Hc; [done|]. cbn. by rewrite bool_decide_true.
      * rewrite (making_open _ (ot_tracer (data o)) _ Htr Ha) in Hc; [done|]. cbn. by rewrite bool_decide_true.
      * right. left. apply Hn. injection Hp as <- <-. subst i. by left.
Qed.

Lemma shutdown_ok_more s s' : shutdown_ok s ->
  heap (globalTracerOwners (global s')) = heap (globalTracerOwners (global s)) ->
  heap (otelOwners (otel s')) = heap (otelOwners (otel s)) ->
  (forall t, flag_of closed s' t = true -> flag_of closed s t = true \/
     pending s' (ARelinquishGlobal t) /\ pending s' (ARelinquishOTel t)) ->
  (forall b, pending s b -> pending s' b) -> shutdown_ok s'.
Proof.
  intros [H1 H2] Eg Eo Hc Hp. split.
  - intros i o t Ho Ha Ht Hcl. rewrite Eg in Ho. destruct (Hc _ Hcl) as [H|[H _]]; [|done]. apply Hp. by eapply H1.
  - intros i o Ho Ha Hcl. rewrite Eo in Ho. destruct (Hc _ Hcl) as [H|[_ H]]; [|by left].
    destruct (H2 _ _ Ho Ha H) as [H'|[H'|H']]; [left|right; left|right; right]; by apply Hp.
Qed.

Lemma reachable_shutdown s : reachable s -> shutdown_ok s.
Proof.
  induction 1 as [p g|s s' Hr IH Hstep]; [split; cbn; [by intros ? ? ? ?%lookup_empty_Some|by intros ? ? ?%lookup_empty_Some]|].
  assert (forall l (s1 : state) b, goroutines s1 = goroutines s -> pending s b -> pending (spawn l s1) b) as Hsp.
  { intros l s1 b E (gr & Hgr & Hb). apply pending_spawn. right. exists gr. by rewrite E. }
  assert (forall tr t, closed tr = false -> flag_of closed (add_tracer tr s) t = true -> flag_of closed s t = true) as Hadd.
  { intros tr t Hc. rewrite flag_add. case_decide; [by rewrite Hc|done]. }
  destruct Hstep as [up en bu|up en Em Ei|up e Em Ei|t Ht|g oo l1 l2 Er|t Hp Hs|l1 a rest l2 next s' Eg Ea|p|p].
  - eapply shutdown_ok_more; [exact IH|done|done| |by intros b Hb; apply Hsp]. intros t Ht. left.
    by apply (Hadd (new_tracer up en bu)).
  - eapply shutdown_ok_more; [exact IH|done|done| |by intros b Hb; apply Hsp]. intros t Ht. left.
    by apply (Hadd (new_tracer up en true)).
  - eapply shutdown_ok_more; [exact IH|done..| |done]. intros t Ht. by left.
  - eapply shutdown_ok_more; [exact IH|done|done| |by intros b Hb; apply Hsp]. intros u Hu. by left.
  - eapply shutdown_ok_more; [exact IH|done|done| |by intros b Hb; apply Hsp]. intros u Hu. by left.
  - eapply shutdown_ok_more; [exact IH|done|done| |by intros b Hb; apply Hsp]. intros u Hu.
    change (flag_of closed (with_tracer t close s) u = true) in Hu. rewrite flag_alter_at in Hu.
    destruct (decide (u = t)) as [->|Hne].
    + right. split; apply pending_spawn; left; set_solver.
    + left. unfold flag_of. by destruct (tracers s !! u).
  - destruct (reachable_global _ Hr) as [l Hl]. eapply run_shutdown_ok; eauto using reachable_otel, reachable_tracers.
  - eapply shutdown_ok_more; [exact IH|done..| |done]. intros t Ht. by left.
  - eapply shutdown_ok_more; [exact IH|done..| |done]. intros t Ht. by left.
Qed.

(** No goroutine is inside the package. *)
Definition quiescent (s : state) : Prop := Forall (fun gr => gr = []) (goroutines s).

Lemma quiescent_pending s a : quiescent s -> ~ pending s a.
Proof. intros Hq (gr & Hgr & Ha). unfold quiescent in Hq. rewrite Forall_forall in Hq. rewrite (Hq _ Hgr) in Ha. by apply elem_of_nil in Ha. Qed.

(** C13: Once every call into the package has returned, no owner that is still
    active, of the global tracer or of OpenTelemetry's globals, is one of a
    tracer that was shut down, even if it was being installed meanwhile. *)
Theorem nothing_shut_down_stays s : reachable s -> quiescent s ->
  (forall i o t, heap (globalTracerOwners (global s)) !! i = Some o -> active o = true ->
     gl_tracer (data o) = Some t -> flag_of closed s t = false) /\
  (forall i o, heap (otelOwners (otel s)) !! i = Some o -> active o = true -> flag_of closed s (ot_tracer (data o)) = false) /\
  (forall t, globalTracer (global s) = Some t -> flag_of closed s t = false).
Proof.
  intros Hr Hq. pose proof (reachable_shutdown _ Hr) as [H1 H2]. pose proof (fun a => quiescent_pending s a Hq) as Hn.
  assert (forall i o t, heap (globalTracerOwners (global s)) !! i = Some o -> active o = true ->
     gl_tracer (data o) = Some t -> flag_of closed s t = false) as Hgl.
  { intros i o t Ho Ha Ht. destruct (flag_of closed s t) eqn:Ec; [|done]. by destruct (Hn _ (H1 _ _ _ Ho Ha Ht Ec)). }
  split_and!; [done| |].
  - intros i o Ho Ha. destruct (flag_of closed s (ot_tracer (data o))) eqn:Ec; [|done].
    destruct (H2 _ _ Ho Ha Ec) as [H|[H|H]]; by destruct (Hn _ H).
  - intros t Ht. destruct (reachable_global _ Hr) as [l [[Hw _] Hs _ Et _]]. rewrite Ht in Et.
    destruct (current (globalTracerOwners (global s))) as [i|] eqn:Ec; [|done]. cbn in Et. specialize (Hs _ Ec). unfold is_active in Hs.
    destruct (heap _ !! i) as [o|] eqn:Ho; [|done]. by eapply Hgl.
Qed.
