(* ===== verification/TracingLifecycle.v ===== *)
(** * package tracing: the flag of the logs, and the one tracer of the process

    When all calls have returned, package logging stamps implicit trace contexts
    exactly if a tracer that asks for it is in force; and a process-wide tracer
    is made at most once by the calls that make one lazily. *)

From S2P Require Import Prelude.
From S2P Require Import OwnerChain.
From S2P Require Import TracingOwners.
From S2P Require Import TracingOwnersProofs.

(** ** refreshImplicitTraceEnabled *)

Definition implicit_now (s : state) : bool := global_implicit s || owner_implicit s.

Definition otel_active (s : state) (o : nat) : bool := is_active (heap (otelOwners (otel s))) o.

(** Sections that will be followed by a refresh. *)
Definition refreshes (s : state) (a : action) : bool :=
  match a with
  | AInstallOTel _ _ | AEndGlobal _ | ARefresh | ARelinquishGlobal _ | ARelinquishOTel _ | AInitInstall _ => true
  | AInstallGlobal t oo =>
      negb (match t with Some t => flag_of closed s t | None => false end) || match oo with Some o => otel_active s o | None => false end
  | AEndOTel (Some o) => otel_active s o
  | _ => false
  end.

Definition promised (s : state) : Prop := exists a, pending s a /\ refreshes s a = true.

(** One goroutine at a time is between the reads and the end of a refresh. *)
Definition refreshing (a : action) : nat := match a with ARefreshOwners | ASetImplicit _ => 1 | _ => 0 end.

Record implicit_ok (s : state) : Prop := {
  one_refresh : weight refreshing s = if implicitTraceMu s then 1 else 0;
  flag_settles : promised s \/ (implicitTraceMu s = false /\ implicitTraceEnabled s = implicit_now s) \/
    pending s (ASetImplicit (implicit_now s)) \/ (pending s ARefreshOwners /\ global_implicit s = false)
}.

Lemma weight_two f s a b : pending s a -> pending s b -> a <> b -> f a + f b <= weight f s.
Proof.
  intros (ga & Hga & Ha) (gb & Hgb & Hb) Hne. unfold weight.
  assert (forall l (x y : action), x ∈ l -> y ∈ l -> x <> y -> f x + f y <= sum_list_with f l) as Hin.
  { intros l x y Hx Hy Hxy. apply list_elem_of_split in Hx as (l1 & l2 & ->). rewrite sum_list_with_app. cbn.
    apply elem_of_app in Hy as [Hy|[->|Hy]%elem_of_cons]; [|done|];
      apply list_elem_of_split in Hy as (r1 & r2 & ->); rewrite sum_list_with_app; cbn; lia. }
  assert (forall l x, x ∈ l -> f x <= sum_list_with f l) as Hone.
  { intros l x Hx. apply list_elem_of_split in Hx as (l1 & l2 & ->). rewrite sum_list_with_app. cbn. lia. }
  apply list_elem_of_split in Hga as (l1 & l2 & Eg). rewrite Eg, sum_list_with_app in *. cbn.
  apply elem_of_app in Hgb as [H|[->|H]%elem_of_cons].
  - apply list_elem_of_split in H as (r1 & r2 & ->). rewrite sum_list_with_app. cbn. pose proof (Hone _ _ Ha). pose proof (Hone _ _ Hb). lia.
  - specialize (Hin _ _ _ Ha Hb Hne). lia.
  - apply list_elem_of_split in H as (r1 & r2 & ->). rewrite sum_list_with_app. cbn. pose proof (Hone _ _ Ha). pose proof (Hone _ _ Hb). lia.
Qed.

(** A step that changes nothing the flag depends on. *)
Lemma implicit_ok_same s s' : implicit_ok s -> weight refreshing s' = weight refreshing s ->
  implicitTraceMu s' = implicitTraceMu s -> implicitTraceEnabled s' = implicitTraceEnabled s ->
  global_implicit s' = global_implicit s -> owner_implicit s' = owner_implicit s ->
  (forall b, pending s b -> pending s' b) -> (forall b, pending s b -> refreshes s b = true -> refreshes s' b = true) -> implicit_ok s'.
Proof.
  intros [Hw Hf] Ew Em Ee Eg Eo Hp Hr. assert (implicit_now s' = implicit_now s) as Ei by (unfold implicit_now; congruence).
  split; [by rewrite Ew, Em|]. rewrite Em, Ee, Ei, Eg.
  destruct Hf as [(b & Hb & H)|[H|[H|[H1 H2]]]]; [left; exists b; auto|by right; left|right; right; left; auto|right; right; right; auto].
Qed.

(** A step after which a refresh is still to come. *)
Lemma implicit_ok_promised s s' b : implicit_ok s -> weight refreshing s' = weight refreshing s ->
  implicitTraceMu s' = implicitTraceMu s -> pending s' b -> refreshes s' b = true -> implicit_ok s'.
Proof. intros [Hw _] Ew Em Hb Hr. split; [by rewrite Ew, Em|]. left. by exists b. Qed.

Lemma perform_mutex a s next s' : perform a s = Some (next, s') ->
  match a with
  | ARefresh => implicitTraceMu s = false /\ implicitTraceMu s' = true /\ sum_list_with refreshing next = 1
  | ARefreshOwners => implicitTraceMu s' = implicitTraceMu s /\ sum_list_with refreshing next = 1
  | ASetImplicit _ => implicitTraceMu s' = false /\ sum_list_with refreshing next = 0
  | _ => implicitTraceMu s' = implicitTraceMu s /\ sum_list_with refreshing next = 0 /\ implicitTraceEnabled s' = implicitTraceEnabled s
  end.
Proof.
  intros H. destruct a as [t' p|t' oo|g oo|g|[o|]| | |v|t'|t'|t'| |t']; cbn in H.
  - injection H as <- <-. by destruct p.
  - destruct (globalTracerMu s); [done|]. by destruct (match t' with Some _ => _ | None => _ end); injection H as <- <-.
  - by injection H as <- <-.
  - destruct (globalTracerMu s); [done|]. by injection H as <- <-.
  - destruct (deactivateOTelOwner _ _) as [? []]; by injection H as <- <-.
  - by injection H as <- <-.
  - destruct (implicitTraceMu s); [done|]. injection H as <- <-. by destruct (global_implicit s).
  - by injection H as <- <-.
  - by injection H as <- <-.
  - destruct (globalTracerMu s); [done|]. by injection H as <- <-.
  - by injection H as <- <-.
  - by injection H as <- <-.
  - by injection H as <- <-.
  - by injection H as <- <-.
Qed.

Lemma run_one_refresh s l1 a rest l2 next s' : implicit_ok s -> goroutines s = l1 ++ (a :: rest) :: l2 -> perform a s = Some (next, s') ->
  weight refreshing (after_run l1 rest l2 next s') = if implicitTraceMu (after_run l1 rest l2 next s') then 1 else 0.
Proof.
  intros [Hw _] Hg Hp. pose proof (run_weight _ _ _ _ _ next s' Hg refreshing) as E. rewrite Hw in E.
  pose proof (perform_mutex _ _ _ _ Hp) as Hm. change (implicitTraceMu (after_run _ _ _ _ s')) with (implicitTraceMu s').
  pose proof (weight_pending refreshing s a (run_was_pending _ _ _ _ _ Hg)) as Hle. rewrite Hw in Hle.
  generalize dependent (weight refreshing (after_run l1 rest l2 next s')). intros W E.
  destruct a; cbn in E, Hle, Hm; destruct_and?; repeat case_match; try done; try congruence; lia.
Qed.

(** ** Sections *)

Section sections.
Context (s : state) (l1 : list (list action)) (a : action) (rest : list action) (l2 : list (list action)) (next : list action) (s' : state).
Context (Hok : implicit_ok s) (Hg : goroutines s = l1 ++ (a :: rest) :: l2) (Hp : perform a s = Some (next, s')).
Local Abbreviation after := (after_run l1 rest l2 next s').

Lemma run_promised b : b ∈ next -> refreshes s' b = true -> implicit_ok after.
Proof.
  intros Hb Hr. split; [by eapply run_one_refresh|]. left. exists b. split; [by apply run_next|exact Hr].
Qed.

(** The section changes none of what the flag depends on. *)
Lemma run_idle : refreshing a = 0 -> implicitTraceMu s' = implicitTraceMu s -> implicitTraceEnabled s' = implicitTraceEnabled s ->
  global_implicit s' = global_implicit s -> owner_implicit s' = owner_implicit s ->
  (forall b, refreshes s b = true -> refreshes s' b = true) ->
  (refreshes s a = true -> exists b, b ∈ next /\ refreshes s' b = true) -> implicit_ok after.
Proof.
  intros H0 Em Ee Eg Eo Hr Ha. split; [by eapply run_one_refresh|].
  assert (implicit_now after = implicit_now s) as Ei by (unfold implicit_now; cbn; by rewrite <- Eg, <- Eo).
  change (implicitTraceMu after) with (implicitTraceMu s'). change (implicitTraceEnabled after) with (implicitTraceEnabled s').
  change (global_implicit after) with (global_implicit s'). rewrite Em, Ee, Ei, Eg.
  destruct (flag_settles _ Hok) as [(b & Hb & Hrb)|[H|[H|[H1 H2]]]].
  - left. destruct (decide (b = a)) as [->|Hne].
    + destruct (Ha Hrb) as (b & Hb' & Hrb'). exists b. split; [by apply run_next|exact Hrb'].
    + exists b. split; [by eapply run_pending|by apply Hr].
  - by right; left.
  - right; right; left. eapply run_pending; [done|done|]. by intros <-.
  - right; right; right. split; [|done]. eapply run_pending; [done|done|]. by intros <-.
Qed.
End sections.

Lemma perform_refresh_begin s l1 rest l2 next s' : implicit_ok s -> goroutines s = l1 ++ (ARefresh :: rest) :: l2 ->
  perform ARefresh s = Some (next, s') -> implicit_ok (after_run l1 rest l2 next s').
Proof.
  intros Hok Hg Hp. split; [by eapply run_one_refresh|]. cbn in Hp. destruct (implicitTraceMu s); [done|]. injection Hp as <- <-.
  right; right. destruct (global_implicit s) eqn:E.
  - left. apply run_next. unfold implicit_now. change (global_implicit (after_run _ _ _ _ _)) with (global_implicit s). rewrite E. by left.
  - right. split; [apply run_next; by left|exact E].
Qed.

Lemma perform_refresh_owners s l1 rest l2 next s' : implicit_ok s -> goroutines s = l1 ++ (ARefreshOwners :: rest) :: l2 ->
  perform ARefreshOwners s = Some (next, s') -> implicit_ok (after_run l1 rest l2 next s').
Proof.
  intros Hok Hg Hp. split; [by eapply run_one_refresh|]. pose proof (run_was_pending _ _ _ _ _ Hg) as Ha. injection Hp as <- <-.
  pose proof (weight_pending refreshing _ _ Ha) as Hw. rewrite (one_refresh _ Hok) in Hw. cbn in Hw.
  change (implicit_now (after_run _ _ _ _ _)) with (implicit_now s). change (implicitTraceMu (after_run _ _ _ _ _)) with (implicitTraceMu s).
  destruct (flag_settles _ Hok) as [(b & Hb & Hrb)|[[H _]|[H|[_ H]]]].
  - left. exists b. split; [|exact Hrb]. eapply run_pending; [done|done|]. by intros ->.
  - rewrite H in Hw. lia.
  - right; right; left. by eapply run_pending.
  - right; right; left. unfold implicit_now. rewrite H. apply run_next. by left.
Qed.

Lemma perform_set_implicit v s l1 rest l2 next s' : implicit_ok s -> goroutines s = l1 ++ (ASetImplicit v :: rest) :: l2 ->
  perform (ASetImplicit v) s = Some (next, s') -> implicit_ok (after_run l1 rest l2 next s').
Proof.
  intros Hok Hg Hp. split; [by eapply run_one_refresh|]. pose proof (run_was_pending _ _ _ _ _ Hg) as Ha. injection Hp as <- <-.
  pose proof (weight_pending refreshing _ _ Ha) as Hw. rewrite (one_refresh _ Hok) in Hw. cbn in Hw.
  assert (forall b, pending s b -> b <> ASetImplicit v -> refreshing b = 0) as Hone.
  { intros b Hb Hne. pose proof (weight_two refreshing _ _ _ Hb Ha Hne) as H2. rewrite (one_refresh _ Hok) in H2. cbn in H2.
    destruct (implicitTraceMu s); lia. }
  destruct (flag_settles _ Hok) as [(b & Hb & Hrb)|[[H _]|[H|[H _]]]].
  - left. exists b. split; [|exact Hrb]. eapply run_pending; [done|done|]. by intros ->.
  - rewrite H in Hw. lia.
  - right; left. split; [done|]. destruct (decide (ASetImplicit (implicit_now s) = ASetImplicit v)) as [[= E]|Hne]; [by rewrite <- E|].
    by specialize (Hone _ H Hne).
  - assert (refreshing ARefreshOwners = 0) as E by by apply Hone. done.
Qed.

Lemma otel_active_install t prim s : otel_active (with_otel (installOTelGlobals t prim (otel s)).1 s) (next_address (otelOwners (otel s))) = true.
Proof. unfold otel_active. cbn. unfold is_active. by rewrite lookup_insert_eq. Qed.

Lemma run_implicit_ok s l1 a rest l2 next s' : implicit_ok s -> goroutines s = l1 ++ (a :: rest) :: l2 ->
  perform a s = Some (next, s') -> implicit_ok (after_run l1 rest l2 next s').
Proof.
  intros Hok Hg Hp.
  assert (forall b, b ∈ next -> refreshes s' b = true -> implicit_ok (after_run l1 rest l2 next s')) as Hprom by by eapply run_promised.
  assert (ARefresh ∈ next -> implicit_ok (after_run l1 rest l2 next s')) as Hr by (intros H; by apply (Hprom ARefresh)).
  pose proof (run_idle s l1 a rest l2 next s' Hok Hg Hp) as Hidle.
  destruct a as [t p|t oo|g oo|g|[o|]| | |v|t|t|t| |t].
  - cbn in Hp. injection Hp as <- <-. destruct p; try (apply Hr; by left).
    eapply Hprom; [by left|]. cbn [refreshes]. apply orb_true_iff. right. apply (otel_active_install t false s).
  - cbn in Hp. destruct (globalTracerMu s); [done|]. destruct (match t with Some _ => _ | None => _ end) eqn:Ec.
    + injection Hp as <- <-. apply Hidle; try done. cbn [refreshes]. rewrite Ec. cbn [negb orb]. intros H.
      exists (AEndOTel oo). split; [by left|]. by destruct oo.
    + injection Hp as <- <-. apply Hr. by left.
  - injection Hp as <- <-. by apply Hidle.
  - cbn in Hp. destruct (globalTracerMu s); [done|]. injection Hp as <- <-. apply Hr. by left.
  - cbn in Hp. destruct (deactivateOTelOwner o (otel s)) as [x []] eqn:E; injection Hp as <- <-; [apply Hr; by left|].
    unfold deactivateOTelOwner in E. destruct (is_active (heap (otelOwners (otel s))) o) eqn:Ea; [done|]. injection E as <-.
    assert (with_otel (otel s) s = s) as Es by by destruct s. rewrite Es in *. apply Hidle; try done. cbn. unfold otel_active. by rewrite Ea.
  - injection Hp as <- <-. by apply Hidle.
  - by eapply perform_refresh_begin.
  - by eapply perform_refresh_owners.
  - by eapply perform_set_implicit.
  - cbn in Hp. destruct (globalTracerMu s); [done|]. injection Hp as <- <-. apply Hr. by left.
  - cbn in Hp. injection Hp as <- <-. apply Hr. by left.
  - cbn in Hp. injection Hp as <- <-. apply Hr. by left.
  - injection Hp as <- <-. by apply Hidle.
  - cbn in Hp. injection Hp as <- <-. pose proof (fun f u => flag_alter f publish t s u) as Hf.
    apply Hidle; try done.
    + unfold global_implicit. cbn [global with_tracer]. destruct (globalTracer (global s)); [|done]. by rewrite !Hf.
    + unfold owner_implicit. cbn [otel with_tracer]. destruct (current _); [|done]. destruct (heap _ !! _); [|done]. by rewrite !Hf.
    + intros [? ?|[t'|] ?|? ?|?|[?|]| | |?|?|?|?| |?]; try done. cbn. by rewrite Hf.
Qed.

Lemma add_tracer_implicit tr s : tracers_ok s -> (exists l, global_ok (global s) l) ->
  global_implicit (add_tracer tr s) = global_implicit s /\ owner_implicit (add_tracer tr s) = owner_implicit s.
Proof.
  intros Ht [l [[Hw _] _ _ Et _]]. split.
  - unfold global_implicit. cbn [global add_tracer]. destruct (globalTracer (global s)) as [t|] eqn:E; [|done].
    assert (t < next_tracer s) as Hlt.
    { destruct (current (globalTracerOwners (global s))) as [i|]; [|done]. cbn in Et. destruct (heap _ !! i) as [o|] eqn:Ho; [|done].
      by eapply (global_known _ Ht). }
    rewrite !flag_add, !decide_False by lia. done.
  - unfold owner_implicit. cbn [otel add_tracer]. destruct (current (otelOwners (otel s))) as [i|]; [|done]. destruct (heap (otelOwners (otel s)) !! i) as [o|] eqn:Ho; [|done].
    apply (otel_known _ Ht) in Ho. by rewrite !flag_add, !decide_False by lia.
Qed.

Lemma refreshes_add b tr s : closed tr = false -> refreshes s b = true -> refreshes (add_tracer tr s) b = true.
Proof.
  intros Hc. destruct b as [? ?|[t'|] ?|? ?|?|[?|]| | |?|?|?|?| |?]; try done. cbn [refreshes]. rewrite flag_add. case_decide; [by rewrite Hc|]. by intros HH.
Qed.

Lemma spawn_implicit_ok l s : implicit_ok s -> sum_list_with refreshing l = 0 -> implicit_ok (spawn l s).
Proof.
  intros Hok Hl. apply (implicit_ok_same s); try done; [by rewrite weight_spawn, Hl|]. intros b Hb. apply pending_spawn. by right.
Qed.

Lemma reachable_implicit s : reachable s -> implicit_ok s.
Proof.
  induction 1 as [p g|s s' Hr IH Hstep]; [split; [done|right; left; by split]|].
  pose proof (reachable_tracers _ Hr) as Ht. pose proof (reachable_global _ Hr) as Hgl.
  destruct Hstep as [up en bu|up en Em Ei|up e Em Ei|t Hpub|g oo l1 l2 Er|t Hp Hs|l1 a rest l2 next s' Eg Ea|p|p].
  - apply spawn_implicit_ok; [|by destruct (en && bu)]. destruct (add_tracer_implicit (new_tracer up en bu) s Ht Hgl).
    apply (implicit_ok_same s); try done. intros b _. by apply refreshes_add.
  - eapply (implicit_ok_promised s _ (if en then AInstallOTel (next_tracer s) ForInit else AInitInstall (next_tracer s))); try done.
    + rewrite weight_spawn. by destruct en.
    + apply pending_spawn. left. by left.
    + by destruct en.
  - by apply (implicit_ok_same s).
  - apply spawn_implicit_ok; [done|]. destruct t as [t|]; [|done]. by destruct (_ && _).
  - apply (spawn_implicit_ok _ (with_restores (l1 ++ l2) s)); [|done]. by apply (implicit_ok_same s).
  - eapply (implicit_ok_promised s _ (ARelinquishGlobal t)); try done. apply pending_spawn. left. by left.
  - by eapply run_implicit_ok.
  - by apply (implicit_ok_same s).
  - by apply (implicit_ok_same s).
Qed.

(** When every call into the package has returned, package logging stamps
    implicit trace contexts exactly if the global tracer, or the current owner of
    OpenTelemetry's globals, has a tracer in force that asks for it, whatever the
    order in which the calls changed and looked. *)
Theorem implicit_flag_settles s : reachable s -> quiescent s -> implicitTraceEnabled s = implicit_now s.
Proof.
  intros Hr Hq. destruct (flag_settles _ (reachable_implicit _ Hr)) as [(b & Hb & _)|[[_ H]|[H|[H _]]]]; [|done|..].
  all: by destruct (quiescent_pending _ _ Hq Hb) || destruct (quiescent_pending _ _ Hq H).
Qed.

(** ** The tracer of the process *)

(** Sections of a call that holds globalTracerMu while it makes a tracer. *)
Definition initing (a : action) : nat :=
  match a with AInitInstall _ | AInitReturn | AInstallOTel _ ForInit => 1 | _ => 0 end.

Definition will_install (a : action) : Prop := match a with AInitInstall _ | AInstallOTel _ ForInit => True | _ => False end.

(** An owner that SetGlobal's restore function can end. *)
Definition handled (s : state) (g : nat) : Prop :=
  exists oo, (g, oo) ∈ restores s \/ pending s (AEndGlobal g) \/ pending s (AReturnRestore g oo).

(** What the oldest owner of the chain gives back when all have ended: the
    tracer Init installed with it, or the one retired before. *)
Definition root_keeps (s : state) (l : list nat) : Prop :=
  exists r o, last l = Some r /\ heap (globalTracerOwners (global s)) !! r = Some o /\
    ((exists t, gl_tracer (data o) = Some t /\ flag_of globalLifecycle s t = true /\
        (active o = true \/ flag_of closed s t = true) /\ ~ handled s r) \/
     gl_baselineRetired (data o) <> None).

Record life_ok (s : state) (l : list nat) : Prop := {
  life_mutex : weight initing s = if globalTracerMu s then 1 else 0;
  life_init : forall a, pending s a -> will_install a -> globalTracer (global s) = None;
  life_closed : forall t, pending s (ARelinquishGlobal t) -> flag_of closed s t = true;
  life_handled : forall g, handled s g -> g < next_address (globalTracerOwners (global s));
  life_kept : (exists t, flag_of globalLifecycle s t = true) ->
    match l with [] => retiredGlobalTracer (global s) <> None | _ => root_keeps s l end
}.

(** Every owner was given a tracer. *)
Definition only_tracers (s : state) : Prop :=
  forall i o, heap (globalTracerOwners (global s)) !! i = Some o -> gl_tracer (data o) <> None.

Section walk.
Context (ts : gmap nat Tracer).

Lemma past_global_kept d a : (a.2 = true -> a.1.2 <> None) -> (past_global ts d a).2 = true -> (past_global ts d a).1.2 <> None.
Proof.
  destruct a as [[[? ?] fr] fc]. unfold past_global. cbn. intros H. destruct fc; cbn [negb andb]; [done|].
  destruct (retired_lifecycle ts (gl_tracer d)) eqn:E; [|done]. intros _. cbn. by destruct (gl_tracer d).
Qed.

Lemma fallbacks_kept c o ended r q : heap c !! r = Some q -> last ended = Some r ->
  retired_lifecycle ts (gl_tracer (data q)) = true \/ gl_baselineRetired (data q) <> None ->
  (fallbacks ts c o ended).1.2 <> None.
Proof.
  intros Hq Hl Hk. apply last_Some in Hl as [e ->]. unfold fallbacks. rewrite omap_app, foldl_app. cbn. rewrite Hq. cbn.
  set (a0 := (gl_baseline (data o), gl_baselineErr (data o), gl_baselineRetired (data o), false)).
  assert (forall l (a : option nat * option error * option nat * bool), (a.2 = true -> a.1.2 <> None) ->
    (foldl (fun a d => past_global ts d a) a l).2 = true -> (foldl (fun a d => past_global ts d a) a l).1.2 <> None) as Hfold.
  { induction l as [|d l IH]; intros a Ha; [exact Ha|]. cbn. apply IH. by apply past_global_kept. }
  specialize (Hfold (omap (fun j => data <$> heap c !! j) e) a0 ltac:(done)).
  destruct (foldl _ a0 _) as [[[? ?] fr] fc]. unfold past_global. cbn in Hfold. destruct fc; cbn [negb andb]; [by apply Hfold|].
  destruct (retired_lifecycle ts (gl_tracer (data q))) eqn:E; cbn; [by destruct (gl_tracer (data q))|]. by destruct Hk.
Qed.
End walk.

(** Nothing of the kind is among the sections that follow. *)
Ltac not_handed := set_unfold; destruct_or?; subst; repeat match goal with H : exists _, _ |- _ => destruct H end; done.

(** ** What a section does to it *)

Lemma global_owner_kept s a x l i o : global_change s a x -> global_ok (global s) l ->
  heap (globalTracerOwners (global s)) !! i = Some o -> exists o', heap (globalTracerOwners x) !! i = Some o' /\ data o' = data o.
Proof.
  intros Hch Hok Ho. pose proof (proj1 (gk_chain _ _ Hok)) as Hw.
  assert (forall js, exists o', heap (foldr end_owner (globalTracerOwners (global s)) js) !! i = Some o' /\ data o' = data o) as Hends.
  { intros js. destruct (foldr_end_data js _ _ _ Ho) as (o' & ? & _ & ?). by exists o'. }
  destruct Hch as [a Ha|t oo Hm Hc|t|g Hm|t Hm].
  - by exists o.
  - exists o. split; [|done]. by apply install_owner_data.
  - exists o. split; [|done]. by apply install_owner_data.
  - rewrite (deactivate_global_leaves _ _ _ _ Hok). destruct (is_active _ g); [|by exists o].
    destruct (leave_global_ok (tracers s) [g] _ _ Hok) as (_ & _ & _ & _ & Hh & _). rewrite Hh. apply Hends.
  - rewrite (relinquish_global_leaves _ _ _ _ Hok).
    destruct (leave_global_ok (tracers s) (owners_of t (global s)) _ _ Hok) as (_ & _ & _ & _ & Hh & _).
    assert (globalTracerOwners (retire (tracers s) t (leave_global (tracers s) (owners_of t (global s)) (global s))) =
      globalTracerOwners (leave_global (tracers s) (owners_of t (global s)) (global s))) as ->.
    { unfold retire. destruct (tracers s !! t) as [tr|]; [|done]. by destruct (globalLifecycle tr). }
    rewrite Hh. apply Hends.
Qed.

Definition keeps_of (s : state) (h : gmap nat (owner globalTracerOwner)) (l : list nat) : Prop :=
  exists r o, last l = Some r /\ h !! r = Some o /\
    ((exists t, gl_tracer (data o) = Some t /\ flag_of globalLifecycle s t = true /\
        (active o = true \/ flag_of closed s t = true) /\ ~ handled s r) \/
     gl_baselineRetired (data o) <> None).

(** Owners are ended and the chain goes back, when its oldest owner is only ended
    with its tracer shut down. *)
Lemma leave_keeps s l js gone rest : global_ok (global s) l -> root_keeps s l ->
  (forall r o t, r ∈ js -> heap (globalTracerOwners (global s)) !! r = Some o -> gl_tracer (data o) = Some t -> ~ handled s r ->
     flag_of closed s t = true) ->
  l = gone ++ rest ->
  (gone = [] -> leave_global (tracers s) js (global s) =
     with_global_owners (foldr end_owner (globalTracerOwners (global s)) js) (global s)) ->
  (forall i ended, gone = i :: ended -> i ∈ js /\
     Forall (fun j => is_active (heap (foldr end_owner (globalTracerOwners (global s)) js)) j = false) ended /\
     (rest = [] -> exists o, heap (foldr end_owner (globalTracerOwners (global s)) js) !! i = Some o /\
        retiredGlobalTracer (leave_global (tracers s) js (global s)) =
          (fallbacks (tracers s) (foldr end_owner (globalTracerOwners (global s)) js) o ended).1.2)) ->
  (rest <> [] -> keeps_of s (heap (foldr end_owner (globalTracerOwners (global s)) js)) rest) /\
  (rest = [] -> retiredGlobalTracer (leave_global (tracers s) js (global s)) <> None \/
     exists r o t, r ∈ js /\ heap (globalTracerOwners (global s)) !! r = Some o /\ gl_tracer (data o) = Some t /\
       flag_of globalLifecycle s t = true /\ ~ handled s r).
Proof.
  intros Hgl (r & o & Hl & Ho & Hk) Hjs -> _ Hg.
  destruct (foldr_end_data js _ _ _ Ho) as (o' & Ho' & _ & Ed).
  assert (is_active (heap (foldr end_owner (globalTracerOwners (global s)) js)) r = bool_decide (r ∉ js) && active o) as Ea.
  { rewrite foldr_end_active. unfold is_active. by rewrite Ho. }
  unfold is_active in Ea. rewrite Ho' in Ea.
  assert ((exists t, gl_tracer (data o') = Some t /\ flag_of globalLifecycle s t = true /\
        (active o' = true \/ flag_of closed s t = true) /\ ~ handled s r) \/ gl_baselineRetired (data o') <> None) as Hk'.
  { rewrite Ed. destruct Hk as [(t & Ht & Hlf & Hact & Hh)|Hk]; [left|by right]. exists t. split_and!; [done|done| |done].
    destruct (decide (r ∈ js)) as [Hr|Hr]; [right; by eapply Hjs|]. rewrite Ea, bool_decide_true by done. exact Hact. }
  split; intros Hrest.
  - exists r, o'. split_and!; [|done|done]. rewrite <- Hl. destruct (last rest) as [x|] eqn:E; [|by apply last_None in E].
    apply last_Some in E as [? ->]. by rewrite app_assoc, last_snoc.
  - subst rest. rewrite app_nil_r in *. destruct gone as [|i ended]; [done|]. destruct (Hg i ended eq_refl) as (Hi & He & Hret).
    destruct (Hret eq_refl) as (oi & Hoi & ->). destruct ended as [|e ended _] using rev_ind.
    + injection Hl as ->. cbn. replace oi with o' in * by congruence. destruct Hk' as [(t & Ht & Hlf & _ & Hh)|Hk']; [right|by left].
      exists r, o, t. rewrite Ed in Ht. by split_and!.
    + rewrite app_comm_cons, last_snoc in Hl. injection Hl as ->. left. eapply fallbacks_kept; [exact Ho'|by rewrite last_snoc|].
      destruct Hk' as [(t & Ht & Hlf & Hact & _)|Hk']; [left|by right]. rewrite Ht. unfold flag_of in *. cbn.
      apply Forall_app in He as [_ He]. inversion He as [|? ? Hr _]; subst. unfold is_active in Hr. rewrite Ho' in Hr.
      destruct (tracers s !! t) as [tr|]; [|done]. destruct Hact as [Hact|Hact]; [congruence|]. by rewrite Hlf, Hact.
Qed.

Section life.
Context (s : state) (l1 : list (list action)) (a : action) (rest : list action) (l2 : list (list action)) (next : list action) (s' : state).
Context (Hg : goroutines s = l1 ++ (a :: rest) :: l2) (Hp : perform a s = Some (next, s')).
Local Abbreviation after := (after_run l1 rest l2 next s').

Lemma perform_restores : restores s' = match a with AReturnRestore g oo => (g, oo) :: restores s | _ => restores s end.
Proof using Hp.
  clear Hg. destruct a as [t' p|t' oo|g oo|g|[o|]| | |v|t'|t'|t'| |t']; cbn in Hp; try (by injection Hp as <- <-).
  - destruct (globalTracerMu s); [done|]. by destruct (match t' with Some _ => _ | None => _ end); injection Hp as <- <-.
  - destruct (globalTracerMu s); [done|]. by injection Hp as <- <-.
  - destruct (deactivateOTelOwner _ _) as [? []]; by injection Hp as <- <-.
  - destruct (implicitTraceMu s); [done|]. by injection Hp as <- <-.
  - destruct (globalTracerMu s); [done|]. by injection Hp as <- <-.
Qed.

(** Only SetGlobal hands out owners. *)
Lemma perform_hands b g : b ∈ next -> b = AEndGlobal g \/ (exists oo, b = AReturnRestore g oo) ->
  g = next_address (globalTracerOwners (global s)) /\ next_address (globalTracerOwners (global s')) = S g.
Proof using Hp.
  clear Hg. intros Hb Hbg. destruct a as [t' p|t' oo|g' oo|g'|[o|]| | |v|t'|t'|t'| |t']; cbn in Hp.
  - injection Hp as <- <-. destruct p; not_handed.
  - destruct (globalTracerMu s); [done|]. destruct (match t' with Some _ => _ | None => _ end); injection Hp as <- <-; [not_handed|].
    apply elem_of_cons in Hb as [->|Hb]; [by destruct Hbg as [?|[? ?]]|]. apply list_elem_of_singleton in Hb as ->.
    by destruct Hbg as [?|[oo' [= <- _]]].
  - injection Hp as <- <-. not_handed.
  - destruct (globalTracerMu s); [done|]. injection Hp as <- <-. not_handed.
  - destruct (deactivateOTelOwner _ _) as [? []]; injection Hp as <- <-; not_handed.
  - injection Hp as <- <-. not_handed.
  - destruct (implicitTraceMu s); [done|]. injection Hp as <- <-. destruct (global_implicit s); not_handed.
  - injection Hp as <- <-. not_handed.
  - injection Hp as <- <-. not_handed.
  - destruct (globalTracerMu s); [done|]. injection Hp as <- <-. not_handed.
  - injection Hp as <- <-. not_handed.
  - injection Hp as <- <-. not_handed.
  - injection Hp as <- <-. not_handed.
  - injection Hp as <- <-. not_handed.
Qed.

Lemma run_handled g : handled after g ->
  handled s g \/ g = next_address (globalTracerOwners (global s)) /\ next_address (globalTracerOwners (global s')) = S g.
Proof using Hg Hp.
  intros (oo & H). change (restores after) with (restores s') in H. rewrite perform_restores in H. destruct H as [H|[H|H]].
  - left. assert ((g, oo) ∈ restores s \/ a = AReturnRestore g oo) as [H'|H'].
    { destruct a; try (by left). apply elem_of_cons in H as [[= -> ->]|H]; [by right|by left]. }
    + exists oo. by left.
    + exists oo. right. right. rewrite <- H'. by eapply run_was_pending.
  - destruct (run_pending_inv _ _ _ _ _ next s' Hg _ H) as [Hn|Hn]; [right|left; exists oo; by right; left].
    by apply (perform_hands _ g Hn (or_introl eq_refl)).
  - destruct (run_pending_inv _ _ _ _ _ next s' Hg _ H) as [Hn|Hn]; [right|left; exists oo; by right; right].
    by apply (perform_hands _ g Hn (or_intror (ex_intro _ oo eq_refl))).
Qed.

(** The lock of initWithOptions. *)
Lemma perform_init : sum_list_with initing next + (if globalTracerMu s then 1 else 0) =
  match a with AInitReturn => if globalTracerMu s then 1 else 0 | _ => initing a + (if globalTracerMu s' then 1 else 0) end /\
  (a = AInitReturn -> globalTracerMu s' = false).
Proof using Hp.
  clear Hg. destruct a as [t' p|t' oo|g oo|g|[o|]| | |v|t'|t'|t'| |t']; cbn in Hp.
  - injection Hp as <- <-. destruct p; cbn; split; try done; lia.
  - destruct (globalTracerMu s) eqn:E; [done|]. destruct (match t' with Some _ => _ | None => _ end); injection Hp as <- <-; cbn; rewrite ?E; by split.
  - injection Hp as <- <-. by split.
  - destruct (globalTracerMu s) eqn:E; [done|]. injection Hp as <- <-. cbn. rewrite E. by split.
  - destruct (deactivateOTelOwner _ _) as [? []]; injection Hp as <- <-; by split.
  - injection Hp as <- <-. by split.
  - destruct (implicitTraceMu s); [done|]. injection Hp as <- <-. cbn. by destruct (global_implicit s).
  - injection Hp as <- <-. by split.
  - injection Hp as <- <-. by split.
  - destruct (globalTracerMu s) eqn:E; [done|]. injection Hp as <- <-. cbn. rewrite E. by split.
  - injection Hp as <- <-. by split.
  - injection Hp as <- <-. cbn. split; [lia|done].
  - injection Hp as <- <-. by split.
  - injection Hp as <- <-. by split.
Qed.

Lemma run_init_ok l : life_ok s l ->
  weight initing after = (if globalTracerMu after then 1 else 0) /\
  (forall b, pending after b -> will_install b -> globalTracer (global after) = None).
Proof using Hg Hp.
  intros [Hw Hi _ _ _]. pose proof (run_weight _ _ _ _ _ next s' Hg initing) as E. rewrite Hw in E. destruct perform_init as [E1 E2].
  pose proof (weight_pending initing _ _ (run_was_pending _ _ _ _ _ Hg)) as Hle. rewrite Hw in Hle.
  change (globalTracerMu after) with (globalTracerMu s'). change (global after) with (global s').
  assert (weight initing after = if globalTracerMu s' then 1 else 0) as Hw'.
  { generalize dependent (weight initing after). intros W E. destruct a; try (cbn in E, E1, Hle |- *; destruct (globalTracerMu s), (globalTracerMu s'); lia).
    rewrite (E2 eq_refl). cbn in E, Hle. destruct (globalTracerMu s); lia. }
  split; [exact Hw'|]. intros b Hb Hbw.
  assert (forall c, pending s c -> will_install c -> globalTracerMu s = true) as Hmu.
  { intros c Hc Hcw. pose proof (weight_pending initing _ _ Hc) as H. rewrite Hw in H. destruct c as [? []| | | | | | | | | | | | ]; try done; cbn in H; destruct (globalTracerMu s); (done || lia). }
  assert (globalTracer (global s) = None -> globalTracerMu s = true -> (forall t, a <> AInitInstall t) -> globalTracer (global s') = None) as Hsame.
  { intros HN Hm Hne. destruct (perform_global _ _ _ _ Hp); try congruence. }
  assert ((forall t, a <> AInitInstall t) -> globalTracer (global s') = None) as Hnot.
  { intros Hne. destruct (run_pending_inv _ _ _ _ _ next s' Hg _ Hb) as [Hn|Hn]; [|apply Hsame; [by eapply Hi|by eapply Hmu|done]].
    assert (exists t, a = AInstallOTel t ForInit) as [t Ea].
    { clear - Hp Hn Hbw. destruct a as [t' []|t' oo|g oo|g|[o|]| | |v|t'|t'|t'| |t']; cbn in Hp.
      all: try (injection Hp as <- <-; set_unfold; destruct_or?; subst; done).
      - by exists t'.
      - destruct (globalTracerMu s); [done|]. destruct (match t' with Some _ => _ | None => _ end); injection Hp as <- <-; set_unfold; destruct_or?; by subst.
      - destruct (globalTracerMu s); [done|]. injection Hp as <- <-; set_unfold; destruct_or?; by subst.
      - destruct (deactivateOTelOwner _ _) as [? []]; injection Hp as <- <-; set_unfold; destruct_or?; by subst.
      - destruct (implicitTraceMu s); [done|]. injection Hp as <- <-. destruct (global_implicit s); set_unfold; destruct_or?; by subst.
      - destruct (globalTracerMu s); [done|]. injection Hp as <- <-; set_unfold; destruct_or?; by subst. }
    assert (pending s a) as Ha by by eapply run_was_pending.
    apply Hsame; [by eapply (Hi a); [|rewrite Ea]|by eapply (Hmu a); [|rewrite Ea]|done]. }
  destruct a as [t p|t oo|g oo|g|oo| | |v|t|t|t| |t]; try (by apply Hnot).
  exfalso. assert (AInitReturn ∈ next) as Hin by (cbn in Hp; injection Hp as <- _; right; by left).
  assert (pending after AInitReturn) as Hr by by apply run_next.
  assert (b <> AInitReturn) as Hne by by intros ->.
  pose proof (weight_two initing _ _ _ Hb Hr Hne) as H2. rewrite Hw' in H2.
  destruct b as [? []| | | | | | | | | | | | ]; try done; cbn in H2; destruct (globalTracerMu s'); lia.
Qed.
End life.

Lemma perform_lifecycle a s next s' t : perform a s = Some (next, s') -> flag_of globalLifecycle s' t = true ->
  flag_of globalLifecycle s t = true \/ a = AInitInstall t.
Proof.
  intros [_ E]%perform_tracers H. unfold flag_of in *. rewrite E in H. destruct a; try (by left).
  - destruct (decide (t = t0)) as [->|Hne]; [by right|]. rewrite lookup_alter_ne in H by done. by left.
  - left. destruct (decide (t = t0)) as [->|Hne]; [|by rewrite lookup_alter_ne in H]. rewrite lookup_alter_eq in H. by destruct (tracers s !! t0).
Qed.

Lemma perform_lifecycle_kept a s next s' t : perform a s = Some (next, s') -> flag_of globalLifecycle s t = true ->
  flag_of globalLifecycle s' t = true.
Proof.
  intros [_ E]%perform_tracers H. unfold flag_of in *. rewrite E. destruct a; try done.
  - destruct (decide (t = t0)) as [->|Hne]; [|by rewrite lookup_alter_ne]. rewrite lookup_alter_eq. by destruct (tracers s !! t0).
  - destruct (decide (t = t0)) as [->|Hne]; [|by rewrite lookup_alter_ne]. rewrite lookup_alter_eq. by destruct (tracers s !! t0).
Qed.

(** The oldest owner as it is kept from one state to the next. *)
Lemma keeps_more s s' h h' l : keeps_of s h l ->
  (forall r o, h !! r = Some o -> exists o', h' !! r = Some o' /\ data o' = data o /\ (active o = true -> active o' = true)) ->
  (forall t, flag_of globalLifecycle s t = true -> flag_of globalLifecycle s' t = true) ->
  (forall t, flag_of closed s t = true -> flag_of closed s' t = true) ->
  (forall r, is_Some (h !! r) -> handled s' r -> handled s r) -> keeps_of s' h' l.
Proof.
  intros (r & o & Hl & Ho & Hk) Hh Hlf Hcl Hhd. destruct (Hh _ _ Ho) as (o' & Ho' & Ed & Ha). exists r, o'. split_and!; [done|done|].
  rewrite Ed. destruct Hk as [(t & Ht & H1 & H2 & H3)|Hk]; [left|by right]. exists t. split_and!; [done|by apply Hlf| |].
  - destruct H2 as [H2|H2]; [left; by apply Ha|right; by apply Hcl].
  - intros H. apply H3, Hhd; [by eexists|done].
Qed.

Lemma lifecycle_or_none s : (exists t, flag_of globalLifecycle s t = true) \/ forall t, flag_of globalLifecycle s t <> true.
Proof.
  destruct (decide (map_Exists (fun _ tr => globalLifecycle tr = true) (tracers s))) as [(t & tr & Ht & H)|Hn].
  - left. exists t. unfold flag_of. by rewrite Ht.
  - right. intros t H. apply Hn. unfold flag_of in H. destruct (tracers s !! t) as [tr|] eqn:E; [|done]. by exists t, tr.
Qed.

Section life_step.
Context (s : state) (l1 : list (list action)) (a : action) (rest : list action) (l2 : list (list action)) (next : list action) (s' : state).
Context (Hg : goroutines s = l1 ++ (a :: rest) :: l2) (Hp : perform a s = Some (next, s')).
Context (l : list nat) (Hgl : global_ok (global s) l) (Hlife : life_ok s l) (Hot : only_tracers s).
Local Abbreviation after := (after_run l1 rest l2 next s').

Lemma closed_after t : flag_of closed s t = true -> flag_of closed after t = true.
Proof using All. change (flag_of closed after t) with (flag_of closed s' t). by rewrite (perform_flag closed _ _ _ _ t (fun _ => eq_refl) (fun _ => eq_refl) Hp). Qed.

Lemma lifecycle_after t : flag_of globalLifecycle s t = true -> flag_of globalLifecycle after t = true.
Proof using All. intros H. change (flag_of globalLifecycle s' t = true). by eapply perform_lifecycle_kept. Qed.

Lemma handled_old r : is_Some (heap (globalTracerOwners (global s)) !! r) -> handled after r -> handled s r.
Proof using All.
  intros [o Ho] H. destruct (run_handled _ _ _ _ _ _ _ Hg Hp r H) as [|[-> _]]; [done|].
  pose proof (address_bound _ (proj1 (gk_chain _ _ Hgl)) _ _ Ho). lia.
Qed.

(** The chain grows, over an owner or on the ground. *)
Lemma kept_install t e : (forall u, flag_of globalLifecycle after u = true -> flag_of globalLifecycle s u = true \/ l = [] /\ t = Some u) ->
  ~ handled after (next_address (globalTracerOwners (global s))) \/ (forall u, flag_of globalLifecycle after u = true -> flag_of globalLifecycle s u = true) ->
  (exists u, flag_of globalLifecycle after u = true) ->
  keeps_of after (heap (globalTracerOwners (installGlobalTracerLocked t e (global s)).1)) (next_address (globalTracerOwners (global s)) :: l).
Proof using All.
  intros Hnew Hhd [u Hu]. pose proof (proj1 (gk_chain _ _ Hgl)) as Hw. pose proof handled_old as Hho. pose proof lifecycle_after as Hla.
  pose proof closed_after as Hca.  pose proof (life_kept _ _ Hlife) as Hkept. clear Hgl Hlife. destruct l as [|i l'] eqn:El.
  - exists (next_address (globalTracerOwners (global s))). eexists. split_and!; [done|cbn; by rewrite lookup_insert_eq|]. cbn.
    destruct (Hnew _ Hu) as [Hold|[_ ->]].
    + right. apply Hkept. by exists u.
    + destruct Hhd as [Hhd|Hhd]; [left; exists u; by split_and!; [| |left|]|right]. apply Hkept. exists u. by apply Hhd.
  - assert (flag_of globalLifecycle s u = true) as Hold by (by destruct (Hnew _ Hu) as [|[? _]]).
    pose proof (Hkept (ex_intro _ u Hold)) as Hk.
    assert (keeps_of after (heap (globalTracerOwners (installGlobalTracerLocked t e (global s)).1)) (i :: l')) as (r & o & Hr & Hrest).
    { eapply keeps_more; [exact Hk| |apply Hla|apply Hca|apply Hho].
      intros r o Ho. exists o. split_and!; [|done..]. by apply install_owner_data. }
    exists r, o. split; [|done]. by change (last (next_address (globalTracerOwners (global s)) :: i :: l')) with (last (i :: l')).
Qed.

Lemma restore_global_next ts i x : next_address (globalTracerOwners (restoreGlobalTracerOwnerLocked ts i x)) = next_address (globalTracerOwners x).
Proof using.
  clear. unfold restoreGlobalTracerOwnerLocked. destruct (heap _ !! i); [|done]. case_bool_decide; [|done].
  destruct (effectiveGlobalTracerPredecessor _ _ _) as [p [[[fb fe] fr] fc]]. case_bool_decide; [done|].
  destruct p as [p|]; [|done]. by destruct (heap _ !! p).
Qed.

Lemma leave_global_next ts js x : next_address (globalTracerOwners (leave_global ts js x)) = next_address (globalTracerOwners x).
Proof using.
  clear. unfold leave_global. set (x' := with_global_owners _ x).
  assert (next_address (globalTracerOwners x') = next_address (globalTracerOwners x)) as <- by apply foldr_end_next.
  destruct (current _) as [i|]; [|done]. destruct (is_active _ i); [done|]. apply restore_global_next.
Qed.

Lemma global_change_next x : global_change s a x -> next_address (globalTracerOwners (global s)) <= next_address (globalTracerOwners x).
Proof using All.
  intros Hch. destruct Hch as [b Hb|t oo Hm Hc|t|g Hm|t Hm]; [done|cbn; lia|cbn; lia|..].
  - rewrite (deactivate_global_leaves _ _ _ _ Hgl). destruct (is_active _ g); [|done]. by rewrite leave_global_next.
  - rewrite (relinquish_global_leaves _ _ _ _ Hgl). unfold retire.
    destruct (tracers s !! t) as [tr|]; [destruct (globalLifecycle tr)|]; cbn; by rewrite leave_global_next.
Qed.

(** With no tracer in force there is no owner. *)
Lemma none_in_force : globalTracer (global s) = None -> l = [].
Proof using All.
  intros E. destruct Hgl as [[Hw Hpath] _ _ Et _]. rewrite E in Et. destruct (current (globalTracerOwners (global s))) as [i|]; [|by inversion Hpath].
  inversion Hpath as [|? o ? Ho _]; subst. cbn in Et. rewrite Ho in Et. symmetry in Et. by destruct (Hot _ _ Ho).
Qed.

(** Ending owners keeps what the chain gives back. *)
Lemma kept_leave js : (exists t, flag_of globalLifecycle s t = true) ->
  (forall r o t, r ∈ js -> heap (globalTracerOwners (global s)) !! r = Some o -> gl_tracer (data o) = Some t -> ~ handled s r ->
     flag_of closed s t = true) ->
  exists l', global_ok (leave_global (tracers s) js (global s)) l' /\
    (l' <> [] -> keeps_of after (heap (globalTracerOwners (leave_global (tracers s) js (global s)))) l') /\
    (l' = [] -> retiredGlobalTracer (leave_global (tracers s) js (global s)) <> None \/
       exists r o t, r ∈ js /\ heap (globalTracerOwners (global s)) !! r = Some o /\ gl_tracer (data o) = Some t /\
         flag_of globalLifecycle s t = true /\ ~ handled s r).
Proof using All.
  intros Hex Hjs. destruct (leave_global_ok (tracers s) js _ _ Hgl) as (gone & l' & El & Hok & Hh & Hg0 & Hg1).
  exists l'. split; [done|]. rewrite Hh. pose proof (life_kept _ _ Hlife Hex) as Hk. pose proof handled_old as Hho.
  pose proof lifecycle_after as Hla. pose proof closed_after as Hca.
  destruct l as [|i lt] eqn:E.
  - symmetry in El. apply app_eq_nil in El as [-> ->]. split; [done|]. intros _. left. by rewrite Hg0.
  - destruct (leave_keeps s (i :: lt) js gone l' Hgl Hk Hjs El Hg0 Hg1) as [H1 H2]. split; [|exact H2].
    intros Hne. eapply keeps_more; [by apply H1| |apply Hla|apply Hca|].
    + intros r o Ho. by exists o.
    + intros r [o' Ho'] Hd. apply Hho; [|done]. destruct (foldr_end_data_inv _ _ _ _ Ho') as (o & Ho & _). by exists o.
Qed.

Lemma no_relinquish_next t : ARelinquishGlobal t ∉ next.
Proof using Hp.
  clear - Hp. intros Hn. destruct a as [t' p|t' oo|g oo|g|[o|]| | |v|t'|t'|t'| |t']; cbn in Hp.
  - injection Hp as <- <-. destruct p; not_handed.
  - destruct (globalTracerMu s); [done|]. destruct (match t' with Some _ => _ | None => _ end); injection Hp as <- <-; not_handed.
  - injection Hp as <- <-. not_handed.
  - destruct (globalTracerMu s); [done|]. injection Hp as <- <-. not_handed.
  - destruct (deactivateOTelOwner _ _) as [? []]; injection Hp as <- <-; not_handed.
  - injection Hp as <- <-. not_handed.
  - destruct (implicitTraceMu s); [done|]. injection Hp as <- <-. destruct (global_implicit s); not_handed.
  - injection Hp as <- <-. not_handed.
  - injection Hp as <- <-. not_handed.
  - destruct (globalTracerMu s); [done|]. injection Hp as <- <-. not_handed.
  - injection Hp as <- <-. not_handed.
  - injection Hp as <- <-. not_handed.
  - injection Hp as <- <-. not_handed.
  - injection Hp as <- <-. not_handed.
Qed.

Definition kept_in (x : Global) (l : list nat) : Prop :=
  match l with [] => retiredGlobalTracer x <> None | _ => keeps_of after (heap (globalTracerOwners x)) l end.

Lemma run_kept x : global_change s a x -> exists l', global_ok x l' /\
  ((exists t, flag_of globalLifecycle after t = true) -> kept_in x l').
Proof using All.
  pose proof (run_was_pending _ _ _ _ _ Hg) as Ha. pose proof handled_old as Hho. pose proof lifecycle_after as Hla.
  pose proof closed_after as Hca. pose proof kept_install as Hinst. pose proof kept_leave as Hleave. pose proof none_in_force as Hnone.
  assert ((forall t, a <> AInitInstall t) -> forall t, flag_of globalLifecycle after t = true -> flag_of globalLifecycle s t = true) as Hsame.
  { intros Hne t Ht. by destruct (perform_lifecycle _ _ _ _ t Hp Ht) as [|E]; [|destruct (Hne t E)]. }
  intros Hch. destruct Hch as [b Hb|t oo Hm Hc|t|g Hm|t Hm].
  - exists l. split; [done|]. intros [t Ht]. assert (forall u, b <> AInitInstall u) as Hne by by intros u ->.
    pose proof (life_kept _ _ Hlife (ex_intro _ t (Hsame Hne _ Ht))) as Hk. unfold kept_in. destruct l as [|i lt]; [done|].
    eapply keeps_more; [exact Hk| |done..]. intros r o Ho. by exists o.
  - eexists. split; [by apply install_global_ok|]. intros Hex. apply Hinst; [|by right; apply Hsame|done]. left. by apply Hsame.
  - eexists. split; [by apply install_global_ok|]. intros Hex.
    assert (l = []) as El by (apply Hnone; by eapply (life_init _ _ Hlife)). apply Hinst; [| |done].
    + intros u Hu. destruct (perform_lifecycle _ _ _ _ u Hp Hu) as [|[= ->]]; [by left|right; by split].
    + left. intros Hh. destruct (run_handled _ _ _ _ _ _ _ Hg Hp _ Hh) as [H|[_ E]].
      * apply (life_handled _ _ Hlife) in H. lia.
      * destruct Hh as (oo & H). change (restores after) with (restores s') in H. rewrite (perform_restores _ _ _ _ Hp) in H.
        assert (forall b, (b = AEndGlobal (next_address (globalTracerOwners (global s))) \/ exists oo, b = AReturnRestore (next_address (globalTracerOwners (global s))) oo) ->
          pending after b -> handled s (next_address (globalTracerOwners (global s)))) as Hold.
        { intros b Hb Hpb. destruct (run_pending_inv _ _ _ _ _ next s' Hg _ Hpb) as [Hn|Hn].
          - exfalso. cbn in Hp. injection Hp as <- _. not_handed.
          - destruct Hb as [->|[oo' ->]]; [exists None; by right; left|exists oo'; by right; right]. }
        enough (handled s (next_address (globalTracerOwners (global s)))) as H' by (apply (life_handled _ _ Hlife) in H'; lia).
        destruct H as [H|[H|H]]; [exists oo; by left|by eapply Hold; [left|]|by eapply Hold; [right; exists oo|]].
  - rewrite (deactivate_global_leaves _ _ _ _ Hgl). destruct (is_active (heap (globalTracerOwners (global s))) g) eqn:Eact.
    + destruct (lifecycle_or_none s) as [Hex|Hno]; [|destruct (leave_global_ok (tracers s) [g] _ _ Hgl) as (_ & l' & _ & Hok & _);
        exists l'; split; [done|]; intros [t Ht]; destruct (Hno t); by apply Hsame].
      destruct (Hleave [g] Hex) as (l' & Hok & H1 & H2).
      { intros r o t ->%list_elem_of_singleton _ _ Hnh. destruct Hnh. exists None. by right; left. }
      exists l'. split; [done|]. intros _. unfold kept_in. destruct l' as [|i lt]; [|by apply H1].
      destruct (H2 eq_refl) as [H|(r & o & t & ->%list_elem_of_singleton & _ & _ & _ & Hnh)]; [done|]. destruct Hnh. exists None. by right; left.
    + exists l. split; [done|]. intros [t Ht]. pose proof (life_kept _ _ Hlife (ex_intro _ t (Hsame ltac:(done) _ Ht))) as Hk.
      unfold kept_in. destruct l as [|i lt]; [done|]. eapply keeps_more; [exact Hk| |done..]. intros r o Ho. by exists o.
  - rewrite (relinquish_global_leaves _ _ _ _ Hgl). 
    destruct (lifecycle_or_none s) as [Hex|Hno].
    + destruct (Hleave (owners_of t (global s)) Hex) as (l' & Hok & H1 & H2).
      { intros r o u Hr Ho Hu _. assert (u = t) as ->; [|by apply (life_closed _ _ Hlife)].
        apply list_elem_of_filter in Hr as [Hr _]. unfold is_mine in Hr. rewrite Ho in Hr. apply bool_decide_eq_true in Hr. congruence. }
      exists l'. split; [by apply retire_ok|]. intros _. unfold kept_in, retire. destruct l' as [|i lt].
      * destruct (H2 eq_refl) as [H|(r & o & u & Hr & Ho & Hu & Hlf & _)].
        { destruct (tracers s !! t) as [tr|]; [|done]. by destruct (globalLifecycle tr). }
        assert (u = t) as ->.
        { apply list_elem_of_filter in Hr as [Hr _]. unfold is_mine in Hr. rewrite Ho in Hr. apply bool_decide_eq_true in Hr. congruence. }
        unfold flag_of in Hlf. destruct (tracers s !! t) as [tr|]; [|done]. by rewrite Hlf.
      * assert (keeps_of after (heap (globalTracerOwners (leave_global (tracers s) (owners_of t (global s)) (global s)))) (i :: lt)) as Hk by by apply H1.
        destruct (tracers s !! t) as [tr|]; [|done]. by destruct (globalLifecycle tr).
    + destruct (leave_global_ok (tracers s) (owners_of t (global s)) _ _ Hgl) as (_ & l' & _ & Hok & _).
      exists l'. split; [by apply retire_ok|]. intros [u Hu]. destruct (Hno u). by apply Hsame.
Qed.
End life_step.

Lemma run_life_ok s l1 a rest l2 next s' l : goroutines s = l1 ++ (a :: rest) :: l2 -> perform a s = Some (next, s') ->
  global_ok (global s) l -> life_ok s l -> only_tracers s ->
  exists l', global_ok (global (after_run l1 rest l2 next s')) l' /\ life_ok (after_run l1 rest l2 next s') l'.
Proof.
  intros Hg Hp Hgl Hlife Hot. pose proof (perform_global _ _ _ _ Hp) as Hch.
  destruct (run_kept s l1 a rest l2 next s' Hg Hp l Hgl Hlife Hot _ Hch) as (l' & Hok & Hk). exists l'. split; [done|].
  destruct (run_init_ok s l1 a rest l2 next s' Hg Hp l Hlife) as [H1 H2].
  pose proof (global_change_next s l1 a rest l2 next s' Hg Hp l Hgl Hlife Hot _ Hch) as Hnext. split; [done|done| | |].
  - intros t Ht. destruct (run_pending_inv _ _ _ _ _ next s' Hg _ Ht) as [Hn|Hn]; [by destruct (no_relinquish_next _ _ _ _ Hp t)|].
    apply (life_closed _ _ Hlife) in Hn. change (flag_of closed s' t = true). by erewrite perform_flag.
  - intros g Hh. change (g < next_address (globalTracerOwners (global s'))).
    destruct (run_handled _ _ _ _ _ _ _ Hg Hp g Hh) as [H|[_ ->]]; [apply (life_handled _ _ Hlife) in H|]; lia.
  - exact Hk.
Qed.

(** A step that leaves the global tracer alone. *)
Lemma life_ok_same s s' l : life_ok s l -> heap (globalTracerOwners (global s')) = heap (globalTracerOwners (global s)) ->
  next_address (globalTracerOwners (global s')) = next_address (globalTracerOwners (global s)) ->
  globalTracer (global s') = globalTracer (global s) -> retiredGlobalTracer (global s') = retiredGlobalTracer (global s) ->
  weight initing s' = (if globalTracerMu s' then 1 else 0) ->
  (forall a, pending s' a -> will_install a -> globalTracer (global s) = None) ->
  (forall t, pending s' (ARelinquishGlobal t) -> flag_of closed s' t = true) ->
  (forall g, handled s' g -> handled s g) ->
  (forall t, flag_of globalLifecycle s' t = flag_of globalLifecycle s t) ->
  (forall t, flag_of closed s t = true -> flag_of closed s' t = true) -> life_ok s' l.
Proof.
  intros [H1 H2 H3 H4 H5] Eh En Et Er Hw Hi Hc Hh Hl Hcl. split; [done| |done| |].
  - intros a Ha Hb. rewrite Et. by eapply Hi.
  - intros g Hg%Hh. rewrite En. by apply H4.
  - intros [t Ht]. rewrite Hl in Ht. specialize (H5 (ex_intro _ t Ht)). destruct l as [|i lt]; [by rewrite Er|].
    eapply keeps_more; [exact H5| | |done|auto].
    + intros r o Ho. exists o. by rewrite Eh.
    + intros u Hu. by rewrite Hl.
Qed.

Lemma handled_spawn l (s s1 : state) g : goroutines s1 = goroutines s ->
  (forall b, b ∈ l -> b <> AEndGlobal g /\ forall oo, b <> AReturnRestore g oo) ->
  restores s1 = restores s -> handled (spawn l s1) g -> handled s g.
Proof.
  intros Eg Hl Er (oo & H). change (restores (spawn l s1)) with (restores s1) in H. rewrite Er in H.
  assert (forall b, pending s1 b -> pending s b) as Hp by (intros b (gr & Hgr & Hb); exists gr; by rewrite <- Eg).
  exists oo. destruct H as [H|[H|H]]; [by left|right; left|right; right]; apply pending_spawn in H as [H|H]; try (by apply Hp); destruct (Hl _ H) as [Hne Hne']; [by destruct Hne|by destruct (Hne' oo)].
Qed.

(** The sections a call begins with. *)
Definition harmless (s s1 : state) (a : action) : Prop :=
  (will_install a -> globalTracer (global s) = None) /\ (forall t, a = ARelinquishGlobal t -> flag_of closed s1 t = true) /\
  (forall g, a <> AEndGlobal g) /\ (forall g oo, a <> AReturnRestore g oo).

Lemma life_spawn acts s s1 l : life_ok s l -> goroutines s1 = goroutines s -> restores s1 = restores s ->
  globalTracerOwners (global s1) = globalTracerOwners (global s) -> globalTracer (global s1) = globalTracer (global s) ->
  retiredGlobalTracer (global s1) = retiredGlobalTracer (global s) ->
  sum_list_with initing acts + weight initing s = (if globalTracerMu s1 then 1 else 0) ->
  Forall (harmless s s1) acts ->
  (forall t, flag_of globalLifecycle s1 t = flag_of globalLifecycle s t) ->
  (forall t, flag_of closed s t = true -> flag_of closed s1 t = true) -> life_ok (spawn acts s1) l.
Proof.
  intros IH Eg Er Eo Et Ert Hw Ha Hl Hcl. rewrite Forall_forall in Ha.
  assert (forall b, pending s1 b -> pending s b) as Hp by (intros b (gr & Hgr & Hb); exists gr; by rewrite <- Eg).
  apply (life_ok_same s); try done; cbn; try (by rewrite Eo).
  - change (weight initing (spawn acts s1)) with (sum_list_with initing acts + weight initing s1). rewrite <- Hw. unfold weight. by rewrite Eg.
  - intros a [H|H]%pending_spawn Hi; [by apply (Ha _ H)|by apply (life_init _ _ IH a), Hi; apply Hp].
  - intros t [H|H]%pending_spawn; [by apply (Ha _ H)|]. by apply Hcl, (life_closed _ _ IH), Hp.
  - intros g. apply handled_spawn; [done| |done]. intros b Hb. destruct (Ha _ Hb) as (_ & _ & H1 & H2). by split; [apply H1|intros oo; apply H2].
Qed.

Lemma life_add tr acts s s1 l : tracers_ok s -> life_ok s l -> closed tr = false -> globalLifecycle tr = false ->
  s1 = add_tracer tr s \/ (exists f b, s1 = with_locks true (implicitTraceMu s) (with_global
    (MkGlobal (globalTracer (global s)) f b (retiredGlobalTracer (global s)) (globalTracerOwners (global s))) (add_tracer tr s))) ->
  sum_list_with initing acts + weight initing s = (if globalTracerMu s1 then 1 else 0) ->
  Forall (harmless s s1) acts -> life_ok (spawn acts s1) l.
Proof.
  intros Ht IH Hc Hg Hs Hw Ha.
  assert (forall f t, f tr = false -> flag_of f s1 t = flag_of f s t) as Hf.
  { intros f t Hf. transitivity (flag_of f (add_tracer tr s) t); [by destruct Hs as [->|(? & ? & ->)]|].
    rewrite flag_add. case_decide as E; [|done]. subst t. unfold flag_of.
    destruct (tracers s !! next_tracer s) eqn:E; [|done]. apply (known_bound _ Ht) in E. lia. }
  eapply life_spawn; try done; try (by destruct Hs as [->|(? & ? & ->)]).
  - intros t. by apply Hf.
  - intros t. by rewrite (Hf closed).
Qed.

Lemma life_restore g oo l1 l2 s l : life_ok s l -> restores s = l1 ++ (g, oo) :: l2 ->
  life_ok (spawn [AEndGlobal g; AEndOTel oo] (with_restores (l1 ++ l2) s)) l.
Proof.
  intros IH Er. apply (life_ok_same s); try done.
  - apply (life_mutex _ _ IH).
  - intros a [Ha|Ha]%pending_spawn Hw; [|by eapply (life_init _ _ IH)]. apply elem_of_cons in Ha as [-> | ->%list_elem_of_singleton]; done.
  - intros u [H|H]%pending_spawn; [|by apply (life_closed _ _ IH)]. by apply elem_of_cons in H as [|H%list_elem_of_singleton].
  - intros g' (oo' & [H|[H|H]]).
    + exists oo'. left. cbn in H. rewrite Er, elem_of_app, elem_of_cons. apply elem_of_app in H as [H|H]; auto.
    + apply pending_spawn in H as [H|H]; [|exists oo'; by right; left]. exists oo. left. rewrite Er, elem_of_app.
      apply elem_of_cons in H as [E|H%list_elem_of_singleton]; [injection E as ->; right; by left|done].
    + apply pending_spawn in H as [H|H]; [|exists oo'; by right; right]. by apply elem_of_cons in H as [|H%list_elem_of_singleton].
Qed.

Lemma life_shutdown t s l : life_ok s l -> flag_of published s t = true ->
  life_ok (spawn [ARelinquishGlobal t; ARelinquishOTel t] (with_tracer t close s)) l.
Proof.
  intros IH Hp.
  assert (forall u, flag_of closed (with_tracer t close s) u = if decide (u = t) then true else flag_of closed s u) as Hcl.
  { intros u. rewrite flag_alter_at. unfold flag_of in *. case_decide; [subst|]; by destruct (tracers s !! _). }
  apply (life_spawn _ s); try done.
  - apply (life_mutex _ _ IH).
  - repeat constructor; try done. intros u [= <-]. rewrite Hcl. by rewrite decide_True.
  - intros u. by apply (flag_alter globalLifecycle close).
  - intros u Hu. rewrite Hcl. by case_decide.
Qed.

Lemma life_run s s' l1 a rest l2 next l : global_ok (global s) l -> (only_tracers s -> life_ok s l) ->
  goroutines s = l1 ++ (a :: rest) :: l2 -> perform a s = Some (next, s') ->
  exists l', global_ok (global (after_run l1 rest l2 next s')) l' /\
    (only_tracers (after_run l1 rest l2 next s') -> life_ok (after_run l1 rest l2 next s') l').
Proof.
  intros Hgl IH Eg Ea. destruct (global_change_ok _ _ _ _ (perform_global _ _ _ _ Ea) Hgl) as [l0 Hl0].
  exists l0. split; [done|]. intros Hot.
  assert (only_tracers s) as Hback.
  { intros i o Ho. destruct (global_owner_kept _ _ _ _ _ _ (perform_global _ _ _ _ Ea) Hgl Ho) as (o' & Ho' & Ed). rewrite <- Ed. by apply (Hot i o'). }
  destruct (run_life_ok _ _ _ _ _ _ _ _ Eg Ea Hgl (IH Hback) Hback) as (l' & Hl' & Hlife).
  by rewrite (path_inj _ _ _ _ (proj2 (gk_chain _ _ Hl0)) (proj2 (gk_chain _ _ Hl'))).
Qed.

Lemma reachable_life s : reachable s -> exists l, global_ok (global s) l /\ (only_tracers s -> life_ok s l).
Proof.
  induction 1 as [p g|s s' Hr (l & Hgl & IH) Hstep].
  { exists []. split; [apply initial_global_ok|]. intros _. split; cbn; [done| | | |].
    - intros a (gr & Hgr & _). by apply elem_of_nil in Hgr.
    - intros t (gr & Hgr & _). by apply elem_of_nil in Hgr.
    - intros g' (oo & [H|[(gr & H & _)|(gr & H & _)]]); by apply elem_of_nil in H.
    - intros [t Ht]. unfold flag_of in Ht. cbn in Ht. by rewrite lookup_empty in Ht. }
  pose proof (reachable_tracers _ Hr) as Htr.
  destruct Hstep as [up en bu|up en Em Ei|up e Em Ei|t Ht|g oo l1 l2 Er|t Hp Hs|l1 a rest l2 next s' Eg Ea|p|p];
    [| | | | | |by eapply life_run|..]; exists l.
  - split; [done|]. intros Hot. specialize (IH Hot). eapply life_add; [done|done| | |by left| |]; try done.
    + cbn. destruct (en && bu); apply (life_mutex _ _ IH).
    + repeat constructor; by destruct (en && bu).
  - assert (globalTracer (global s) = None) as Hnone by (unfold initWithOptions in Ei; by destruct (globalTracer (global s))).
    split; [by apply global_ok_err|]. intros Hot. specialize (IH Hot).
    eapply life_add; [done|done| | |right; by eexists _, _| |]; try done.
    + cbn. pose proof (life_mutex _ _ IH) as H. rewrite Em in H. rewrite H. by destruct en.
    + repeat constructor; by destruct en.
  - split; [by apply global_ok_err|]. intros Hot. specialize (IH Hot).
    apply (life_ok_same s); try done; [apply (life_mutex _ _ IH)|apply (life_init _ _ IH)|apply (life_closed _ _ IH)].
  - split; [done|]. intros Hot. specialize (IH Hot). eapply (life_spawn _ s); try done.
    + cbn. destruct t as [t|]; [destruct (_ && _)|]; apply (life_mutex _ _ IH).
    + repeat constructor; destruct t as [t|]; try done; by destruct (_ && _).
  - split; [done|]. intros Hot. by apply life_restore, Er; apply IH.
  - split; [done|]. intros Hot. by apply life_shutdown, Hp; apply IH.
  - split; [done|]. intros Hot. by destruct (IH Hot).
  - split; [done|]. intros Hot. by destruct (IH Hot).
Qed.

(** C15: As long as SetGlobal is only given tracers, once Init has made a tracer
    for the process neither Global nor Init makes another lazily, not even after
    it was shut down and whatever SetGlobal and its restore functions did
    meanwhile: there is always a tracer to return. *)
Theorem process_tracer_made_once s t : reachable s -> only_tracers s -> flag_of globalLifecycle s t = true ->
  exists u e, GlobalWithError (global s) = Found (Some u) e /\ initWithOptions true (global s) <> Create.
Proof.
  intros Hr Hot Ht. destruct (reachable_life _ Hr) as (l & Hgl & IH). specialize (IH Hot).
  pose proof (life_kept _ _ IH (ex_intro _ t Ht)) as Hk. unfold GlobalWithError, initWithOptions.
  destruct (globalTracer (global s)) as [u|] eqn:E; [by exists u, (globalInitErr (global s))|].
  assert (l = []) as ->.
  { destruct Hgl as [[Hw Hpath] _ _ Et _]. rewrite E in Et. destruct (current (globalTracerOwners (global s))) as [i|]; [|by inversion Hpath].
    inversion Hpath as [|? o ? Ho _]; subst. cbn in Et. rewrite Ho in Et. symmetry in Et. by destruct (Hot _ _ Ho). }
  destruct (retiredGlobalTracer (global s)) as [u|]; [|done]. by exists u, (globalInitErr (global s)).
Qed.
