(* ===== verification/TracingWitness.v ===== *)
(** * package tracing: runs of the lifecycles

    Concrete runs of the processes of TracingOwners: the premises of the
    theorems of TracingOwnersProofs and TracingLifecycle hold in them, and two
    runs end in states the comments of the source exclude. *)

From S2P Require Import Prelude.
From S2P Require Import OwnerChain.
From S2P Require Import TracingOwners.
From S2P Require Import TracingOwnersProofs.
From S2P Require Import TracingLifecycle.

(** ** Scripts *)

Inductive call :=
| New (up enab built : bool)
| Init (up enab : bool)
| SetGlobal (t : option nat)
| RestoreFn (n : nat)                       (* the n-th function still to be called *)
| Shutdown (t : nat)
| Run (n : nat)                             (* a section of the n-th goroutine *)
| SetTracerProvider (p : provider).

(** A section of the n-th goroutine. *)
Definition section (n : nat) (s : state) : option state :=
  match drop n (goroutines s) with
  | (a :: rest) :: l2 =>
      match perform a s with
      | Some (next, s') => Some (with_goroutines (take n (goroutines s) ++ (next ++ rest) :: l2) s')
      | None => None
      end
  | _ => None
  end.

Definition make (c : call) (s : state) : option state :=
  match c with
  | New up en built =>
      Some (spawn [if en && built then AInstallOTel (next_tracer s) ForNew else APublish (next_tracer s)]
        (add_tracer (new_tracer up en built) s))
  | Init up en =>
      if globalTracerMu s then None
      else match initWithOptions up (global s) with
           | Create =>
               Some (spawn [if en then AInstallOTel (next_tracer s) ForInit else AInitInstall (next_tracer s)]
                 (with_locks true (implicitTraceMu s)
                   (with_global (MkGlobal (globalTracer (global s)) (globalInitErr (global s)) false (retiredGlobalTracer (global s))
                      (globalTracerOwners (global s))) (add_tracer (new_tracer up en true) s))))
           | Found _ _ => None
           end
  | SetGlobal t =>
      if match t with Some t => flag_of published s t | None => true end
      then Some (spawn [match t with
                        | Some t' => if flag_of has_provider s t' && negb (flag_of closed s t') then AInstallOTel t' ForGlobal
                                     else AInstallGlobal t None
                        | None => AInstallGlobal None None
                        end] s)
      else None
  | RestoreFn n =>
      match drop n (restores s) with
      | (g, oo) :: l2 => Some (spawn [AEndGlobal g; AEndOTel oo] (with_restores (take n (restores s) ++ l2) s))
      | [] => None
      end
  | Shutdown t =>
      if flag_of published s t && negb (flag_of shutdownOnce s t)
      then Some (spawn [ARelinquishGlobal t; ARelinquishOTel t] (with_tracer t close s)) else None
  | Run n => section n s
  | SetTracerProvider p =>
      Some (with_otel (MkOTel p (pr (otel s)) (otelOwners (otel s)) false (pr_ours (otel s)) (base_tp (otel s)) (base_pr (otel s))) s)
  end.

(** A call followed, unless it is a section, by the goroutine it starts until it
    is done. *)
Fixpoint until_done (fuel : nat) (s : state) : state :=
  match fuel with
  | 0 => s
  | S fuel => match section 0 s with Some s' => until_done fuel s' | None => s end
  end.

Fixpoint script (cs : list (call * bool)) (s : state) : option state :=
  match cs with
  | [] => Some s
  | (c, whole) :: cs =>
      match make c s with
      | Some s' => script cs (if whole then until_done 20 s' else s')
      | None => None
      end
  end.

Lemma section_reachable n s s' : reachable s -> section n s = Some s' -> reachable s'.
Proof.
  intros Hr H. unfold section in H. destruct (drop n (goroutines s)) as [|[|a rest] l2] eqn:E; [done..|].
  destruct (perform a s) as [[next s1]|] eqn:Ep; [|done]. injection H as <-. eapply reach_step; [done|].
  apply (t_run _ _ a); [|done]. rewrite <- (take_drop n (goroutines s)) at 1. by rewrite E.
Qed.

Lemma make_reachable c s s' : reachable s -> make c s = Some s' -> reachable s'.
Proof.
  intros Hr. destruct c as [up en built|up en|t|n|t|n|p]; cbn; intros H.
  - injection H as <-. eapply reach_step; [done|constructor].
  - destruct (globalTracerMu s) eqn:Em; [done|]. destruct (initWithOptions up (global s)) eqn:Ei; [done|].
    injection H as <-. eapply reach_step; [done|]. by apply t_init.
  - destruct (match t with Some t => _ | None => _ end) eqn:Et; [|done]. injection H as <-.
    eapply reach_step; [done|]. apply t_set_global. by destruct t.
  - destruct (drop n (restores s)) as [|[g oo] l2] eqn:E; [done|]. injection H as <-. eapply reach_step; [done|].
    apply t_restore. by rewrite <- E, take_drop.
  - destruct (flag_of published s t && _) eqn:E; [|done]. apply andb_true_iff in E as [E1 E2%negb_true_iff].
    injection H as <-. eapply reach_step; [done|]. by apply t_shutdown.
  - by eapply section_reachable.
  - injection H as <-. eapply reach_step; [done|constructor].
Qed.

Lemma script_reachable cs s s' : reachable s -> script cs s = Some s' -> reachable s'.
Proof.
  assert (forall fuel s, reachable s -> reachable (until_done fuel s)) as Hd.
  { induction fuel as [|fuel IH]; intros s0 H0; cbn; [done|]. destruct (section 0 s0) eqn:E; [|done].
    apply IH. by eapply section_reachable. }
  revert s. induction cs as [|[c w] cs IH]; cbn [script]; intros s Hr H; [by injection H as <-|].
  destruct (make c s) as [s1|] eqn:E; [|done]. apply make_reachable in E; [|done].
  eapply IH; [|done]. destruct w; [by apply Hd|done].
Qed.

Definition before : state := initial PDelegate GDelegate.
Definition ends (cs : list (call * bool)) : state := default before (script cs before).

Lemma ends_reachable cs : is_Some (script cs before) -> reachable (ends cs).
Proof. intros [s E]. unfold ends. rewrite E. eapply script_reachable; [constructor|done]. Qed.

Ltac runs := apply ends_reachable; vm_compute; by eexists.

(** ** Overlapping calls *)

(** Init, New and SetGlobal of the second tracer; the first one is shut down
    while another SetGlobal of it is between its two sections. *)
Definition overlapping : list (call * bool) :=
  [(Init true true, true); (New false true true, true); (SetGlobal (Some 1), true);
   (SetGlobal (Some 0), false); (Run 0, false); (Shutdown 0, true)].

(** The same, once the call has finished. *)
Definition finished : list (call * bool) := overlapping ++ [(Run 1, false); (Run 1, false)].

Lemma global_tracer_is_newest_witness : reachable (ends overlapping) /\
  (let c := globalTracerOwners (global (ends overlapping)) in
   (actives c = ∅ /\ current c = None /\ globalTracer (global (ends overlapping)) = None) \/
   exists i o, current c = Some i /\ i ∈ actives c /\ (forall j, j ∈ actives c -> j <= i) /\
     heap c !! i = Some o /\ globalTracer (global (ends overlapping)) = gl_tracer (data o)).
Proof. assert (reachable (ends overlapping)) as H by runs. split; [done|]. by apply (global_tracer_is_newest (ends overlapping)). Defined.

Lemma otel_globals_follow_owners_witness : reachable (ends overlapping) /\
  (let x := otel (ends overlapping) in
   (forall i, current (otelOwners x) = Some i -> i ∈ actives (otelOwners x)) /\
   (tp_ours x = true -> tp x = match current (otelOwners x) with Some i => provider_of (otelOwners x) i | None => base_tp x end) /\
   (pr_ours x = true -> pr x = match current (otelOwners x) with Some i => GOwned i | None => base_pr x end)).
Proof. assert (reachable (ends overlapping)) as H by runs. split; [done|]. by apply (otel_globals_follow_owners (ends overlapping)). Defined.

(** What happened in the first run and the second: the tracer of the process is
    retired, the tracer set before is the global one. *)
Example overlapping_state : let s := ends finished in
  goroutines s = [[]; []; []; []; []] /\ flag_of closed s 0 = true /\ retiredGlobalTracer (global s) = Some 0 /\
  globalTracer (global s) = Some 1 /\ restores s = [(1, Some 2)] /\ implicitTraceEnabled s = true.
Proof. vm_compute. done. Qed.

Lemma finished_quiet : quiescent (ends finished).
Proof. vm_compute. by repeat constructor. Qed.

Lemma nothing_shut_down_stays_witness : reachable (ends finished) /\ quiescent (ends finished) /\
  (forall t, globalTracer (global (ends finished)) = Some t -> flag_of closed (ends finished) t = false).
Proof.
  assert (reachable (ends finished)) as H by runs. split; [done|]. split; [apply finished_quiet|].
  apply (nothing_shut_down_stays (ends finished)); [done|apply finished_quiet].
Defined.

Lemma implicit_flag_settles_witness : reachable (ends finished) /\ quiescent (ends finished) /\
  implicitTraceEnabled (ends finished) = implicit_now (ends finished).
Proof.
  assert (reachable (ends finished)) as H by runs. split; [done|]. split; [apply finished_quiet|].
  apply (implicit_flag_settles (ends finished)); [done|apply finished_quiet].
Defined.

Lemma process_tracer_made_once_witness : reachable (ends finished) /\ flag_of globalLifecycle (ends finished) 0 = true /\
  exists u e, GlobalWithError (global (ends finished)) = Found (Some u) e /\ initWithOptions true (global (ends finished)) <> Create.
Proof.
  assert (reachable (ends finished)) as H by runs. split; [done|]. split; [done|].
  apply (process_tracer_made_once (ends finished) 0); [done| |done]. intros i o Hi.
  assert (forallb (fun '(_, o) => bool_decide (is_Some (gl_tracer (data o)))) (map_to_list (heap (globalTracerOwners (global (ends finished))))) = true) as E by by vm_compute.
  rewrite forallb_forall in E. apply elem_of_map_to_list, list_elem_of_In, E, bool_decide_eq_true in Hi. by destruct Hi as [? ->].
Defined.

(** ** Restoring what is shut down *)

(** P and A install in turn and A, whose propagator stays, is shut down; B finds
    a propagator that is not P's and starts a chain of its own over P's provider.
    When P is shut down and then B, the provider of P is put back
    (restoreOTelOwnerGlobalsLocked). *)
Definition revived : list (call * bool) :=
  [(New false true true, true); (New false true true, true); (Shutdown 1, true); (New false true true, true);
   (Shutdown 0, true); (Shutdown 2, true)].

Example shut_down_provider_revived : let s := ends revived in
  goroutines s = [[]; []; []; []; []; []] /\ flag_of closed s 0 = true /\ tp (otel s) = PTracer 0.
Proof. vm_compute. done. Qed.

(** The tracer of the process is shut down while SetGlobal(nil) is in force;
    restoring another SetGlobal then puts back the retired tracer of before the
    shutdown, which is none (restoreGlobalTracerOwnerLocked), and the next Global
    makes a second tracer. *)
Definition forgotten : list (call * bool) :=
  [(Init true true, true); (New false true true, true); (SetGlobal None, true); (Shutdown 0, true);
   (SetGlobal (Some 1), true); (RestoreFn 0, true)].

Example retired_tracer_forgotten : let s := ends forgotten in
  goroutines s = [[]; []; []; []; []; []] /\ flag_of globalLifecycle s 0 = true /\
  GlobalWithError (global s) = Create /\ initWithOptions true (global s) = Create.
Proof. vm_compute. done. Qed.
