(* ===== verification/ConfigClone.v ===== *)
(** * package config: copies of resolved values

    cloneReflectValue of config/schema.go, over a memory.  Values are what
    package reflect shows of them: pointers, maps and slices are references to
    places of the memory, which may be shared and may lead back to themselves;
    two references see the same thing when their type, address and length agree,
    which is also what cloneVisit remembers.  Other overlaps (a slice of a part of
    another, a pointer into a struct) are places of their own, as the code makes
    copies of their own of them.  Copying reads the places there are and writes
    new ones.

    The type of a pointer is the *T that reflect.New makes for its elements.  A
    defined pointer type (type P *T) is outside the model: the code makes a *T
    of it, which turns into a P again where it is stored in a place of type P,
    and stays a *T in an interface. *)

From S2P Require Import Prelude.

(** ** Values and memory *)

Definition address := nat.
Definition typ := string.                        (* reflect.Type *)

(** reflect.Value by its Kind. *)
Inductive value :=
| VInvalid                                       (* the zero reflect.Value *)
| VPlain (t : typ) (x : string)                  (* booleans, numbers and strings, with their bits *)
| VNaN (t : typ)                                 (* a number that differs from itself *)
| VTime (x : string)                             (* time.Time *)
| VOpaque (t : typ) (x : string)                 (* channels, functions, unsafe pointers *)
| VInterface (t : typ) (elem : option value)
| VPointer (t : typ) (p : option address)         (* t is *T, not a defined pointer type *)
| VMap (t : typ) (p : option address)
| VSlice (t : typ) (p : option (address * nat))
| VArray (t : typ) (elems : list value)
| VStruct (t : typ) (fields : list (string * bool * value)).  (* name, whether it is exported *)

(** Where a reference leads. *)
Inductive place := PPointer (t : typ) (a : address) | PMap (t : typ) (a : address) | PSlice (t : typ) (a : address) (n : nat).

Inductive object := OCell (v : value) | OMap (entries : list (value * value)) | OElems (elems : list value).

Inductive kind := KPointer | KMap | KSlice.
Record cloneVisit := Visit { typeOf : typ; visit_kind : kind; pointer : address; visit_length : nat }.

#[export] Instance place_eq_dec : EqDecision place.
Proof. solve_decision. Defined.
#[export] Instance kind_eq_dec : EqDecision kind.
Proof. solve_decision. Defined.
#[export] Instance cloneVisit_eq_dec : EqDecision cloneVisit.
Proof. solve_decision. Defined.

#[export] Instance place_countable : Countable place.
Proof.
  apply (inj_countable' (fun p => match p with PPointer t a => inl (t, a) | PMap t a => inr (inl (t, a)) | PSlice t a n => inr (inr (t, a, n)) end)
    (fun x => match x with inl (t, a) => PPointer t a | inr (inl (t, a)) => PMap t a | inr (inr (t, a, n)) => PSlice t a n end)).
  by intros [].
Defined.
#[export] Instance kind_countable : Countable kind.
Proof.
  apply (inj_countable' (fun k => match k with KPointer => 0 | KMap => 1 | KSlice => 2 end)
    (fun n => match n with 0 => KPointer | 1 => KMap | _ => KSlice end)).
  by intros [].
Defined.
#[export] Instance cloneVisit_countable : Countable cloneVisit.
Proof.
  apply (inj_countable' (fun v => (typeOf v, visit_kind v, pointer v, visit_length v)) (fun '(t, k, a, n) => Visit t k a n)). by intros [].
Defined.

Abbreviation memory := (gmap place object).

(** The place a reference that is not nil leads to. *)
Definition place_of (v : value) : option place :=
  match v with
  | VPointer t (Some a) => Some (PPointer t a)
  | VMap t (Some a) => Some (PMap t a)
  | VSlice t (Some (a, n)) => Some (PSlice t a n)
  | _ => None
  end.

Definition address_of (p : place) : address := match p with PPointer _ a | PMap _ a | PSlice _ a _ => a end.

(** value.Len() of a map *)
Definition map_len (m : memory) (t : typ) (a : address) : nat :=
  match m !! PMap t a with Some (OMap l) => length l | _ => 0 end.

Definition visit_of (m : memory) (p : place) : cloneVisit :=
  match p with
  | PPointer t a => Visit t KPointer a 0
  | PMap t a => Visit t KMap a (map_len m t a)
  | PSlice t a n => Visit t KSlice a n
  end.

(** Equality of keys (==); a key that is not comparable cannot be in a map. *)
Fixpoint key_eq (v w : value) {struct v} : bool :=
  match v, w with
  | VPlain t x, VPlain t' x' => bool_decide (t = t') && bool_decide (x = x')
  | VTime x, VTime x' => bool_decide (x = x')
  | VOpaque t x, VOpaque t' x' => bool_decide (t = t') && bool_decide (x = x')
  | VInterface _ None, VInterface _ None => true
  | VInterface _ (Some a), VInterface _ (Some b) => key_eq a b
  | VPointer t p, VPointer t' p' => bool_decide (t = t') && bool_decide (p = p')
  | VArray t l, VArray t' l' =>
      bool_decide (t = t') &&
      (fix go l l' := match l, l' with
                      | [], [] => true
                      | a :: l, b :: l' => key_eq a b && go l l'
                      | _, _ => false
                      end) l l'
  | VStruct t l, VStruct t' l' =>
      bool_decide (t = t') &&
      (fix go l l' := match l, l' with
                      | [], [] => true
                      | (n, _, a) :: l, (n', _, b) :: l' => bool_decide (n = n') && key_eq a b && go l l'
                      | _, _ => false
                      end) l l'
  | _, _ => false
  end.

(** reflect.Value.SetMapIndex *)
Fixpoint set_map_index (k v : value) (l : list (value * value)) : list (value * value) :=
  match l with
  | [] => [(k, v)]
  | (k', v') :: l => if key_eq k k' then (k', v) :: l else (k', v') :: set_map_index k v l
  end.

#[local] Open Scope go_scope.

(** ** cloneReflectValue *)

Inductive clone_error := ErrUnexported (t : typ) (field : string) | ErrUnsafe (t : typ).

Record cstate := MkC { mem : memory; next : address; visited : gmap cloneVisit value }.

(** A result and what was written; [None] when the fuel has run out or a place
    does not exist. *)
Definition CM (A : Type) : Type := cstate -> option (result clone_error A * cstate).

Definition cret {A} (a : A) : CM A := fun s => Some (Ok a, s).
Definition cfail {A} (e : clone_error) : CM A := fun s => Some (Err e, s).
Definition cbind {A B} (m : CM A) (k : A -> CM B) : CM B := fun s =>
  match m s with
  | Some (Ok a, s') => k a s'
  | Some (Err e, s') => Some (Err e, s')
  | None => None
  end.

Notation "'do!' x := m 'in' k" := (cbind m (fun x => k)) 
  (at level 10, x pattern, m at level 100, k at level 200) : go_scope.

Definition read (p : place) : CM object := fun s => match mem s !! p with Some o => Some (Ok o, s) | None => None end.

(** The reference to a new place with the first contents of it, and the entry of
    [visited]. *)
Definition allocate (make : address -> value) (o : object) (visit : cloneVisit) : CM value := fun s =>
  let v := make (next s) in
  Some (Ok v, MkC (match place_of v with Some p => <[p := o]> (mem s) | None => mem s end) (S (next s)) (<[visit := v]> (visited s))).

Definition update (v : value) (f : object -> object) : CM unit := fun s =>
  Some (Ok tt, MkC (match place_of v with Some p => alter f p (mem s) | None => mem s end) (next s) (visited s)).

Definition previous (visit : cloneVisit) : CM (option value) := fun s => Some (Ok (visited s !! visit), s).

Definition set_cell (c : value) (o : object) : object := match o with OCell _ => OCell c | o => o end.
Definition set_index (i : nat) (c : value) (o : object) : object := match o with OElems l => OElems (<[i := c]> l) | o => o end.
Definition set_entry (k c : value) (o : object) : object := match o with OMap l => OMap (set_map_index k c l) | o => o end.

Section clone.
Context (zero : typ -> value).              (* of the elements of a type *)

Section loops.
Context (clone : value -> CM value).

(** The elements of a slice from the i-th on. *)
Fixpoint clone_elems (r : value) (i : nat) (l : list value) : CM unit :=
  match l with
  | [] => cret tt
  | v :: l => do! c := clone v in do! _ := update r (set_index i c) in clone_elems r (S i) l
  end.

Fixpoint clone_entries (r : value) (l : list (value * value)) : CM unit :=
  match l with
  | [] => cret tt
  | (k, v) :: l =>
      do! key := clone k in do! entry := clone v in do! _ := update r (set_entry key entry) in clone_entries r l
  end.

(** The elements of an array are set in a value, not in a place. *)
Fixpoint clone_array (l : list value) : CM (list value) :=
  match l with
  | [] => cret []
  | v :: l => do! c := clone v in do! cs := clone_array l in cret (c :: cs)
  end.

Fixpoint clone_fields (t : typ) (l : list (string * bool * value)) : CM (list (string * bool * value)) :=
  match l with
  | [] => cret []
  | (name, exported, v) :: l =>
      if negb exported then cfail (ErrUnexported t name)
      else do! c := clone v in do! cs := clone_fields t l in cret ((name, exported, c) :: cs)
  end.
End loops.

Fixpoint cloneReflectValue (fuel : nat) (v : value) : CM value :=
  match fuel with
  | 0 => fun _ => None
  | S fuel =>
      let clone := cloneReflectValue fuel in
      match v with
      | VInvalid => cret VInvalid
      | VPlain _ _ | VNaN _ | VTime _ => cret v
      | VOpaque t _ => cfail (ErrUnsafe t)
      | VInterface t None | VPointer t None | VMap t None | VSlice t None => cret v
      | VInterface t (Some e) => do! c := clone e in cret (VInterface t (Some c))
      | VPointer t (Some a) =>
          let visit := Visit t KPointer a 0 in
          do! p := previous visit in
          match p with
          | Some v' => cret v'
          | None =>
              do! r := allocate (fun a' => VPointer t (Some a')) (OCell (zero t)) visit in
              do! o := read (PPointer t a) in
              match o with
              | OCell e => do! c := clone e in do! _ := update r (set_cell c) in cret r
              | _ => fun _ => None
              end
          end
      | VMap t (Some a) => fun s =>
          let visit := Visit t KMap a (map_len (mem s) t a) in
          (do! p := previous visit in
           match p with
           | Some v' => cret v'
           | None =>
               do! r := allocate (fun a' => VMap t (Some a')) (OMap []) visit in
               do! o := read (PMap t a) in
               match o with OMap l => do! _ := clone_entries clone r l in cret r | _ => fun _ => None end
           end) s
      | VSlice t (Some (a, n)) =>
          let visit := Visit t KSlice a n in
          do! p := previous visit in
          match p with
          | Some v' => cret v'
          | None =>
              do! r := allocate (fun a' => VSlice t (Some (a', n))) (OElems (replicate n (zero t))) visit in
              do! o := read (PSlice t a n) in
              match o with OElems l => do! _ := clone_elems clone r 0 l in cret r | _ => fun _ => None end
          end
      | VArray t l => do! cs := clone_array clone l in cret (VArray t cs)
      | VStruct t l => do! cs := clone_fields clone t l in cret (VStruct t cs)
      end
  end.
End clone.

(** cloneValue without a cloner of the field: nothing is visited yet. *)
Definition cloneValue (zero : typ -> value) (fuel : nat) (v : value) (m : memory) (a : address) :=
  cloneReflectValue zero fuel v (MkC m a ∅).
