(* ===== verification/ConfigCloneProofs.v ===== *)
(** * package config: copies of values are copies

    What cloneReflectValue returns is the value with every place it can reach
    renamed to a new one: the same graph, with its sharing and its cycles, none
    of it shared with the original. *)

From S2P Require Import Prelude.
From S2P Require Import ConfigClone.

#[local] Open Scope go_scope.

(** ** Induction on values *)

Section value_ind.
Context (P : value -> Prop).
Context (Hinv : P VInvalid) (Hplain : forall t x, P (VPlain t x)) (Hnan : forall t, P (VNaN t)) (Htime : forall x, P (VTime x))
  (Hopaque : forall t x, P (VOpaque t x)) (Hnil : forall t, P (VInterface t None)) (Hinterface : forall t e, P e -> P (VInterface t (Some e)))
  (Hpointer : forall t p, P (VPointer t p)) (Hmap : forall t p, P (VMap t p)) (Hslice : forall t p, P (VSlice t p))
  (Harray : forall t l, Forall P l -> P (VArray t l)) (Hstruct : forall t l, Forall (fun f => P f.2) l -> P (VStruct t l)).

Fixpoint value_ind' (v : value) : P v.
Proof.
  refine (match v with
    | VInvalid => Hinv | VPlain t x => Hplain t x | VNaN t => Hnan t | VTime x => Htime x | VOpaque t x => Hopaque t x
    | VInterface t None => Hnil t | VInterface t (Some e) => Hinterface t e (value_ind' e)
    | VPointer t p => Hpointer t p | VMap t p => Hmap t p | VSlice t p => Hslice t p
    | VArray t l => Harray t l _ | VStruct t l => Hstruct t l _
    end).
  - exact ((fix go l : Forall P l := match l with [] => Forall_nil_2 _ | v :: l => Forall_cons_2 _ _ _ (value_ind' v) (go l) end) l).
  - exact ((fix go l : Forall (fun f => P f.2) l :=
      match l with [] => Forall_nil_2 _ | x :: l => Forall_cons_2 _ _ _ (value_ind' x.2) (go l) end) l).
Defined.
End value_ind.

(** ** References, offences, renaming *)

(** The references in a value, not those behind them. *)
Fixpoint refs (v : value) : list place :=
  match v with
  | VInterface _ (Some e) => refs e
  | VArray _ l => flat_map refs l
  | VStruct _ l => flat_map (fun f : string * bool * value => refs f.2) l
  | v => match place_of v with Some p => [p] | None => [] end
  end.

(** What cannot be copied in a value. *)
Fixpoint offences (v : value) : list clone_error :=
  match v with
  | VOpaque t _ => [ErrUnsafe t]
  | VInterface _ (Some e) => offences e
  | VArray _ l => flat_map offences l
  | VStruct t l => flat_map (fun f : string * bool * value => if f.1.2 then offences f.2 else [ErrUnexported t f.1.1]) l
  | _ => []
  end.

Definition redirect (v : value) (q : place) : value :=
  match v, q with
  | VPointer t _, PPointer _ a => VPointer t (Some a)
  | VMap t _, PMap _ a => VMap t (Some a)
  | VSlice t _, PSlice _ a n => VSlice t (Some (a, n))
  | v, _ => v
  end.

Fixpoint rename (f : place -> place) (v : value) : value :=
  match v with
  | VInterface t (Some e) => VInterface t (Some (rename f e))
  | VArray t l => VArray t (map (rename f) l)
  | VStruct t l => VStruct t (map (fun x : string * bool * value => (x.1, rename f x.2)) l)
  | v => match place_of v with Some p => redirect v (f p) | None => v end
  end.

Definition object_values (o : object) : list value :=
  match o with OCell v => [v] | OMap l => flat_map (fun e : value * value => [e.1; e.2]) l | OElems l => l end.

Definition rename_object (f : place -> place) (o : object) : object :=
  match o with
  | OCell v => OCell (rename f v)
  | OMap l => OMap (map (fun e : value * value => (rename f e.1, rename f e.2)) l)
  | OElems l => OElems (map (rename f) l)
  end.

Definition object_refs (o : object) : list place := flat_map refs (object_values o).
Definition object_offences (o : object) : list clone_error := flat_map offences (object_values o).

(** What can be reached. *)
Inductive reach (m : memory) (l : list place) : place -> Prop :=
| reach_here p : p ∈ l -> reach m l p
| reach_on p o q : reach m l p -> m !! p = Some o -> q ∈ object_refs o -> reach m l q.

Definition same_shape (p q : place) : Prop :=
  match p, q with
  | PPointer t _, PPointer t' _ => t = t'
  | PMap t _, PMap t' _ => t = t'
  | PSlice t _ n, PSlice t' _ n' => t = t' /\ n = n'
  | _, _ => False
  end.

(** A memory as Go has it: below the next address, each place with contents of its
    kind, no two entries of a map with equal keys, nothing dangling. *)
Definition fits (p : place) (o : object) : Prop :=
  match p, o with
  | PPointer _ _, OCell _ => True
  | PMap _ _, OMap l => ForallOrdPairs (fun x y : value * value => key_eq y.1 x.1 = false) l
  | PSlice _ _ n, OElems l => length l = n
  | _, _ => False
  end.

Definition closed (m : memory) (l : list place) : Prop := Forall (fun p => is_Some (m !! p)) l.

Record wf_memory (m : memory) (n : address) : Prop := {
  below : forall p o, m !! p = Some o -> address_of p < n;
  contents_fit : forall p o, m !! p = Some o -> fits p o;
  contents_closed : forall p o, m !! p = Some o -> closed m (object_refs o)
}.

(** ** Renaming *)

Lemma rename_ext f g v : (forall p, p ∈ refs v -> f p = g p) -> rename f v = rename g v.
Proof.
  induction v as [|t x|t|x|t x|t|t e IH|t p|t p|t p|t l IH|t l IH] using value_ind'; cbn; intros H; try done.
  - by rewrite IH.
  - destruct p; [|done]. rewrite H; [done|by left].
  - destruct p; [|done]. rewrite H; [done|by left].
  - destruct p as [[a n]|]; [|done]. rewrite H; [done|by left].
  - f_equal. induction IH as [|v l Hv _ IHl]; cbn in *; [done|]. rewrite Hv, IHl; [done|..]; intros p Hp; apply H, elem_of_app; auto.
  - f_equal. induction IH as [|v l Hv _ IHl]; cbn in *; [done|]. rewrite Hv, IHl; [done|..]; intros p Hp; apply H, elem_of_app; auto.
Qed.

Lemma place_of_redirect v p q : place_of v = Some p -> same_shape p q -> place_of (redirect v q) = Some q.
Proof.
  destruct v as [| | | | | |? [?|]|? [?|]|? [[? ?]|]| |]; cbn; intros [= <-]; destruct q; cbn; try done.
  - by intros ->.
  - by intros ->.
  - by intros [-> ->].
Qed.

Section injective.
Context (f : place -> place) (D : place -> Prop).
Context (Hshape : forall p, D p -> same_shape p (f p)) (Hinj : forall p q, D p -> D q -> f p = f q -> p = q).

Local Ltac moved := match goal with |- context [f ?p] => destruct (f p); intros ?; discriminate end.

(** Renamed keys are equal only if the keys were. *)
Lemma key_eq_rename v w : Forall D (refs v) -> Forall D (refs w) -> key_eq (rename f v) (rename f w) = true -> key_eq v w = true.
Proof using All.
  revert w. induction v as [|t x|t|x|t x|t|t e IH|t p|t p|t p|t l IH|t l IH] using value_ind'; intros w Hv Hw; try done.
  - destruct w as [| | | | |? [?|]|? [?|]|? [?|]|? [[? ?]|]| |]; cbn; try done; moved.
  - by destruct w as [| | | | |? [?|]|? [?|]|? [?|]|? [[? ?]|]| |]; cbn; try done; destruct (f _).
  - by destruct w as [| | | | |? [?|]|? [?|]|? [?|]|? [[? ?]|]| |]; cbn; try done; destruct (f _).
  - by destruct w as [| | | | |? [?|]|? [?|]|? [?|]|? [[? ?]|]| |]; cbn; try done; destruct (f _).
  - destruct w as [| | | | |? [?|]|? [?|]|? [?|]|? [[? ?]|]| |]; cbn; try done; [by apply IH|..]; moved.
  - destruct p as [a|]; cbn in *.
    + inversion Hv as [|? ? Ha _]; subst. pose proof (Hshape _ Ha) as Ea. destruct (f (PPointer t a)) as [t1 a1| |] eqn:Efa; cbn in Ea; try done. subst t1.
      destruct w as [| | | | |? [?|]|t' [b|]|? [?|]|? [[? ?]|]| |]; cbn in *; try done; try moved.
      inversion Hw as [|? ? Hb _]; subst. pose proof (Hshape _ Hb) as Eb. destruct (f (PPointer t' b)) as [t2 b2| |] eqn:Efb; cbn in Eb; try done. subst t2.
      intros H. apply andb_true_iff in H as [H1%bool_decide_eq_true H2%bool_decide_eq_true]. simplify_eq. assert (PPointer t' a = PPointer t' b) as [= <-] by (apply Hinj; [done..|congruence]).
      by rewrite !bool_decide_eq_true_2.
    + destruct w as [| | | | |? [?|]|t' [b|]|? [?|]|? [[? ?]|]| |]; cbn in *; try done; try moved.
      inversion Hw as [|? ? Hb _]; subst. pose proof (Hshape _ Hb) as Eb. destruct (f (PPointer t' b)) as [t2 b2| |] eqn:Efb; cbn in Eb; try done.
  - destruct p; cbn; [moved|done].
  - destruct p as [[? ?]|]; cbn; [moved|done].
  - destruct w as [| | | | |? [?|]|? [?|]|? [?|]|? [[? ?]|]|t' l'|]; cbn in *; try done; try moved.
    intros [-> H]%andb_true_iff. cbn. revert l' Hw H. induction IH as [|v l Hv' _ IHl]; intros [|w l']; cbn in *; try done.
    intros Hw [H1 H2]%andb_true_iff. apply Forall_app in Hv as [? ?], Hw as [? ?]. by rewrite Hv', IHl.
  - destruct w as [| | | | |? [?|]|? [?|]|? [?|]|? [[? ?]|]| |t' l']; cbn in *; try done; try moved.
    intros [-> H]%andb_true_iff. cbn. revert l' Hw H. induction IH as [|[[n b] v] l Hv' _ IHl]; intros [|[[n' b'] w] l']; cbn in *; try done.
    intros Hw [[-> H1]%andb_true_iff H2]%andb_true_iff. apply Forall_app in Hv as [? ?], Hw as [? ?]. by rewrite Hv', IHl.
Qed.
End injective.

(** ** The invariant of a copy *)

Section copy.
Context (m0 : memory) (n0 : address) (Hwf : wf_memory m0 n0).

Lemma visit_of_inj p q : visit_of m0 p = visit_of m0 q -> p = q.
Proof using Type. destruct p, q; cbn; intros; by simplify_eq. Qed.

Definition seen (s : cstate) (p : place) : Prop := is_Some (visited s !! visit_of m0 p).

(** Where a place that was seen is copied to. *)
Definition moved_to (s : cstate) (p : place) : place :=
  match visited s !! visit_of m0 p with Some v => default p (place_of v) | None => p end.

Record copy_inv (s : cstate) : Prop := {
  old_kept : m0 ⊆ mem s;
  new_fresh : forall p o, mem s !! p = Some o -> m0 !! p = Some o \/ n0 <= address_of p < next s;
  next_above : n0 <= next s;
  visits_moved : forall vi v, visited s !! vi = Some v -> exists p q, vi = visit_of m0 p /\ is_Some (m0 !! p) /\
    place_of v = Some q /\ same_shape p q /\ n0 <= address_of q < next s /\ is_Some (mem s !! q);
  visits_apart : forall vi vi' v v' q q', visited s !! vi = Some v -> visited s !! vi' = Some v' ->
    place_of v = Some q -> place_of v' = Some q' -> address_of q = address_of q' -> vi = vi'
}.

(** What has become of a value, and of what a place holds. *)
Definition copied (s : cstate) (v w : value) : Prop :=
  w = rename (moved_to s) v /\ Forall (seen s) (refs v) /\ offences v = [].

Definition complete (s : cstate) (p : place) : Prop := exists o, m0 !! p = Some o /\
  mem s !! moved_to s p = Some (rename_object (moved_to s) o) /\ Forall (seen s) (object_refs o) /\ object_offences o = [].

(** From one state of a copy to a later one: only [open] may have been written,
    and whatever was seen meanwhile has been copied. *)
Record advances (open : option place) (s s' : cstate) : Prop := {
  keeps_visits : visited s ⊆ visited s';
  keeps_next : next s <= next s';
  keeps_places : forall p o, Some p <> open -> mem s !! p = Some o -> mem s' !! p = Some o;
  completes : forall p, seen s' p -> seen s p \/ complete s' p
}.

Lemma seen_mono s s' p : visited s ⊆ visited s' -> seen s p -> seen s' p.
Proof using Type. intros H [v Hv]. exists v. by eapply lookup_weaken. Qed.

Lemma moved_mono s s' p : visited s ⊆ visited s' -> seen s p -> moved_to s' p = moved_to s p.
Proof using Type. intros H [v Hv]. unfold moved_to. by rewrite Hv, (lookup_weaken _ _ _ _ Hv H). Qed.

Lemma rename_mono s s' v : visited s ⊆ visited s' -> Forall (seen s) (refs v) -> rename (moved_to s') v = rename (moved_to s) v.
Proof using Type. intros H Hs. rewrite Forall_forall in Hs. apply rename_ext. intros p Hp. by apply moved_mono, Hs. Qed.

Lemma rename_object_ext f g o : (forall p, p ∈ object_refs o -> f p = g p) -> rename_object f o = rename_object g o.
Proof using Type.
  unfold object_refs. destruct o as [v|l|l]; cbn; intros H.
  - f_equal. apply rename_ext. intros p Hp. apply H. by rewrite app_nil_r.
  - f_equal. induction l as [|[k v] l IH]; cbn in *; [done|]. rewrite (rename_ext f g k), (rename_ext f g v), IH; [done|..];
      intros p Hp; apply H; rewrite !elem_of_app; auto.
  - f_equal. induction l as [|v l IH]; cbn in *; [done|]. rewrite (rename_ext f g v), IH; [done|..]; intros p Hp; apply H, elem_of_app; auto.
Qed.

Lemma copied_mono s s' v w : visited s ⊆ visited s' -> copied s v w -> copied s' v w.
Proof using Type.
  intros H (-> & Hs & Ho). split; [by rewrite (rename_mono s s')|]. split; [|done].
  eapply Forall_impl; [exact Hs|]. intros p. by apply seen_mono.
Qed.

(** A place that is complete stays so while it is not written. *)
Lemma complete_mono s s' p : visited s ⊆ visited s' -> seen s p -> complete s p ->
  (forall o, mem s !! moved_to s p = Some o -> mem s' !! moved_to s p = Some o) -> complete s' p.
Proof using Type.
  intros H Hp (o & Ho & Hm & Hs & Hn) Hk. exists o. split; [done|]. rewrite (moved_mono s s') by done.
  assert (rename_object (moved_to s') o = rename_object (moved_to s) o) as ->.
  { apply rename_object_ext. intros q Hq. rewrite Forall_forall in Hs. by apply moved_mono, Hs. }
  split; [by apply Hk|]. split; [|done]. eapply Forall_impl; [exact Hs|]. intros q. by apply seen_mono.
Qed.

Lemma advances_refl x s : advances x s s.
Proof using Type. split; auto. Qed.

(** [open] is where something seen before is copied to. *)
Lemma advances_trans x s s1 s2 : copy_inv s1 -> (forall q, x = Some q -> exists p, seen s p /\ moved_to s p = q) ->
  advances x s s1 -> advances x s1 s2 -> advances x s s2.
Proof using Type.
  intros Hi Hx [V1 N1 K1 C1] [V2 N2 K2 C2]. split; [by etrans|lia|auto|].
  intros p Hp. destruct (C2 p Hp) as [Hp1|]; [|by right]. destruct (C1 p Hp1) as [|Hc]; [by left|].
  destruct (decide (seen s p)) as [|Hn]; [by left|]. right. eapply complete_mono; [done..|]. intros o Ho. apply K2; [|done].
  intros E. destruct (Hx _ (eq_sym E)) as (p' & Hp' & E'). apply Hn. rewrite <- (moved_mono s s1 p') in E' by done.
  apply (seen_mono _ _ _ V1) in Hp' as Hp1'. destruct Hp1 as [v Hv], Hp1' as [v' Hv']. unfold moved_to in E'. rewrite Hv, Hv' in E'.
  destruct (visits_moved _ Hi _ _ Hv) as (? & q & _ & _ & Eq & _), (visits_moved _ Hi _ _ Hv') as (? & q' & _ & _ & Eq' & _).
  rewrite Eq, Eq' in E'. cbn in E'. subst q'. pose proof (visits_apart _ Hi _ _ _ _ _ _ Hv Hv' Eq Eq' eq_refl) as Evi.
  unfold seen. by rewrite Evi.
Qed.
Lemma advances_open x s s' : advances None s s' -> advances x s s'.
Proof using Type. intros [V N K C]. split; auto. Qed.

(** ** Steps *)

Lemma seen_moved s p : copy_inv s -> seen s p -> is_Some (m0 !! p) /\ same_shape p (moved_to s p) /\
  n0 <= address_of (moved_to s p) < next s /\ is_Some (mem s !! moved_to s p) /\
  exists v, visited s !! visit_of m0 p = Some v /\ place_of v = Some (moved_to s p).
Proof using Type.
  intros Hi [v Hv]. destruct (visits_moved _ Hi _ _ Hv) as (p' & q & ->%visit_of_inj & Hp & Hq & Hsh & Hr & Hm).
  unfold moved_to. rewrite Hv, Hq. cbn. eauto 10.
Qed.

Lemma moved_inj s p p' : copy_inv s -> seen s p -> seen s p' -> moved_to s p = moved_to s p' -> p = p'.
Proof using Type.
  intros Hi Hp Hp' E. destruct (seen_moved _ _ Hi Hp) as (_ & _ & _ & _ & v & Hv & Hq), (seen_moved _ _ Hi Hp') as (_ & _ & _ & _ & v' & Hv' & Hq').
  apply visit_of_inj. eapply (visits_apart _ Hi); [exact Hv|exact Hv'|exact Hq|exact Hq'|by rewrite E].
Qed.

Lemma redirect_place v v' p q : place_of v = Some p -> place_of v' = Some q -> same_shape p q -> redirect v q = v'.
Proof using Type.
  destruct v as [| | | | | |? [?|]|? [?|]|? [[? ?]|]| |]; cbn; intros [= <-];
    destruct v' as [| | | | | |? [?|]|? [?|]|? [[? ?]|]| |]; cbn; intros [= <-]; cbn; try done; [by intros -> | by intros -> |by intros [-> ->]].
Qed.

Lemma refs_place v p : place_of v = Some p -> refs v = [p] /\ offences v = [] /\ forall f, rename f v = redirect v (f p).
Proof using Type. destruct v as [| | | | | |? [?|]|? [?|]|? [[? ?]|]| |]; cbn; by intros [= <-]. Qed.

(** A reference to a place seen before. *)
Lemma copied_seen s v p w : copy_inv s -> place_of v = Some p -> visited s !! visit_of m0 p = Some w -> copied s v w.
Proof using Type.
  intros Hi Hv Hw. destruct (refs_place _ _ Hv) as (Er & Eo & Hf). assert (seen s p) as Hs by by exists w.
  destruct (seen_moved _ _ Hi Hs) as (_ & Hsh & _ & _ & w' & Hw' & Hq). assert (w' = w) as -> by congruence.
  split; [|split; [rewrite Er; by repeat constructor|done]]. rewrite Hf. symmetry. by eapply redirect_place.
Qed.

Lemma new_place_absent s p : copy_inv s -> address_of p = next s -> mem s !! p = None /\ m0 !! p = None.
Proof using Hwf.
  intros Hi Ha. assert (m0 !! p = None) as Hn.
  { destruct (m0 !! p) eqn:E; [|done]. apply (below _ _ Hwf) in E. pose proof (next_above _ Hi). lia. }
  split; [|done]. destruct (mem s !! p) eqn:E; [|done]. apply (new_fresh _ Hi) in E as [|]; [congruence|lia].
Qed.

(** allocate *)
Definition allocated (make : address -> value) (o : object) (p : place) (s : cstate) : cstate :=
  MkC (match place_of (make (next s)) with Some q => <[q := o]> (mem s) | None => mem s end) (S (next s))
    (<[visit_of m0 p := make (next s)]> (visited s)).

Section allocation.
Context (make : address -> value) (o : object) (p q : place) (s : cstate).
Context (Hi : copy_inv s) (Hp : is_Some (m0 !! p)) (Hn : visited s !! visit_of m0 p = None).
Context (Hq : place_of (make (next s)) = Some q) (Ha : address_of q = next s) (Hsh : same_shape p q).
Local Abbreviation s1 := (allocated make o p s).

Lemma allocated_eq : mem s1 = <[q := o]> (mem s).
Proof using Hq. unfold allocated. change (match place_of (make (next s)) with Some q => <[q := o]> (mem s) | None => mem s end = <[q := o]> (mem s)). by rewrite Hq. Qed.

Lemma allocated_seen : seen s1 p /\ moved_to s1 p = q.
Proof using Hq. unfold seen, moved_to. cbn. rewrite lookup_insert_eq, Hq. split; [by eexists|done]. Qed.

Lemma allocated_mem : mem s1 !! q = Some o /\ (forall p o, mem s !! p = Some o -> p <> q /\ mem s1 !! p = Some o).
Proof using All.
  rewrite allocated_eq. split; [by rewrite lookup_insert_eq|]. intros p' o' H. destruct (new_place_absent _ _ Hi Ha) as [E _].
  assert (p' <> q) as Hne by congruence. by rewrite lookup_insert_ne.
Qed.

Lemma allocated_inv : copy_inv s1.
Proof using All.
  destruct (new_place_absent _ _ Hi Ha) as [Em E0]. destruct allocated_mem as [Hmq Hm]. pose proof (next_above _ Hi) as Hna. split.
  - intros p'. specialize (old_kept _ Hi p'). destruct (m0 !! p') eqn:E; [|by destruct (mem s1 !! p')].
    assert (mem s !! p' = Some o0) as H by exact (lookup_weaken _ _ _ _ E (old_kept _ Hi)). apply Hm in H as [_ ->]. done.
  - intros p' o'. rewrite allocated_eq. cbn. destruct (decide (p' = q)) as [->|]; [right; lia|]. rewrite lookup_insert_ne by done.
    intros H. apply (new_fresh _ Hi) in H as [|]; [by left|right; lia].
  - cbn. lia.
  - intros vi v H. cbn in H. destruct (decide (vi = visit_of m0 p)) as [->|Hne].
    + rewrite lookup_insert_eq in H. injection H as <-. exists p, q. split_and!; try done; cbn; lia.
    + rewrite lookup_insert_ne in H by done. destruct (visits_moved _ Hi _ _ H) as (p' & q' & ? & ? & ? & ? & ? & [o' Ho']).
      exists p', q'. split_and!; try done; try (cbn; lia). exists o'. by apply Hm.
  - intros vi vi' v v' r r' H H' Hr Hr' Er. cbn in H, H'.
    assert (forall vi v r, visited s !! vi = Some v -> place_of v = Some r -> address_of r <> next s) as Hold.
    { intros u w t Hu Ht. destruct (visits_moved _ Hi _ _ Hu) as (? & ? & _ & _ & Et & _ & ? & _). assert (x0 = t) by congruence. subst. lia. }
    apply lookup_insert_Some in H as [[<- <-]|[Hne H]], H' as [[<- <-]|[Hne' H']]; [done|..|by eapply (visits_apart _ Hi)].
    + edestruct Hold; [exact H'|exact Hr'|]. congruence.
    + edestruct Hold; [exact H|exact Hr|]. congruence.
Qed.

(** Once the place has been copied the whole step is done. *)
Lemma allocated_done s2 : copy_inv s2 -> advances (Some q) s1 s2 -> complete s2 p -> advances None s s2.
Proof using All.
  intros Hi2 [V N K C] Hc. destruct allocated_mem as [Hmq Hm].
  assert (visited s ⊆ visited s1) as Hv by by apply insert_subseteq.
  split; [by etrans|cbn in N; lia| |].
  - intros p' o' _ H. apply Hm in H as [Hne H]. apply K; [congruence|done].
  - intros p' H. destruct (C p' H) as [H1|]; [|by right]. destruct (decide (p' = p)) as [->|Hne]; [by right|]. left.
    destruct H1 as [v Hv1]. cbn in Hv1. rewrite lookup_insert_ne in Hv1; [by exists v|]. intros E. by apply visit_of_inj in E.
Qed.
End allocation.

(** update *)
Lemma update_ok s v q f o : copy_inv s -> place_of v = Some q -> n0 <= address_of q < next s -> mem s !! q = Some o ->
  exists s', update v f s = Some (Ok tt, s') /\ copy_inv s' /\ advances (Some q) s s' /\ visited s' = visited s /\ mem s' !! q = Some (f o).
Proof using Hwf.
  intros Hi Hv Hq Ho. eexists. split; [done|]. rewrite Hv. cbn. split_and!; [|split; cbn; [done|done| |by left]|done|by rewrite lookup_alter_eq, Ho].
  - destruct Hi as [H1 H2 H3 H4 H5]. split; cbn; [| |done| |done].
    + intros p. destruct (decide (q = p)) as [->|]; [|rewrite lookup_alter_ne by done; apply H1].
      destruct (m0 !! p) eqn:E; [|by destruct (alter _ _ _ !! p)]. apply (below _ _ Hwf) in E. lia.
    + intros p o'. destruct (decide (q = p)) as [->|]; [by right|]. rewrite lookup_alter_ne by done. apply H2.
    + intros vi w Hw. destruct (H4 _ _ Hw) as (p & r & ? & ? & ? & ? & ? & [o' Ho']). exists p, r. split_and!; try done; try lia.
      destruct (decide (q = r)) as [->|]; [rewrite lookup_alter_eq, Ho'|rewrite lookup_alter_ne, Ho' by done]; by eexists.
  - intros p o' Hne. rewrite lookup_alter_ne by congruence. done.
Qed.

(** ** Loops *)

(** An offence in a value or behind its references. *)
Definition offends (v : value) (e : clone_error) : Prop :=
  e ∈ offences v \/ exists p o, reach m0 (refs v) p /\ m0 !! p = Some o /\ e ∈ object_offences o.

Definition outcome (s : cstate) (v : value) (r : result clone_error value) (s' : cstate) : Prop :=
  match r with
  | Ok w => copy_inv s' /\ advances None s s' /\ copied s' v w
  | Err e => offends v e
  end.

(** The reference being filled. *)
Definition filling (s : cstate) (r : value) (q : place) : Prop :=
  place_of r = Some q /\ exists p, seen s p /\ moved_to s p = q.

Lemma filling_mono s s' r q : visited s ⊆ visited s' -> filling s r q -> filling s' r q.
Proof using Type.
  intros H (Hr & p & Hp & Hq). split; [done|]. exists p. split; [by eapply seen_mono|]. by rewrite (moved_mono s s').
Qed.

Lemma filling_place s r q : copy_inv s -> filling s r q -> n0 <= address_of q < next s.
Proof using Type. intros Hi (_ & p & Hp & <-). by apply seen_moved. Qed.

Lemma fill_trans s r q s1 s2 : filling s r q -> copy_inv s1 -> advances (Some q) s s1 -> advances (Some q) s1 s2 -> advances (Some q) s s2.
Proof using Type. intros (_ & p & Hp & Hq) Hi. apply advances_trans; [done|]. intros q' [= <-]. eauto. Qed.

Lemma copied_list_mono s s' l ws : visited s ⊆ visited s' -> Forall2 (copied s) l ws -> Forall2 (copied s') l ws.
Proof using Type. intros H Hl. eapply Forall2_impl; [exact Hl|]. intros v w. by apply copied_mono. Qed.

Section loops.
Context (clone : value -> CM value).
Context (Hclone : forall v s r s', copy_inv s -> closed m0 (refs v) -> clone v s = Some (r, s') -> outcome s v r s').

(** An element copied and written. *)
Lemma clone_then_update s v r q f res s' o : copy_inv s -> closed m0 (refs v) -> filling s r q -> mem s !! q = Some o ->
  (do! c := clone v in update r (f c)) s = Some (res, s') ->
  match res with
  | Ok _ => copy_inv s' /\ advances (Some q) s s' /\ exists c, mem s' !! q = Some (f c o) /\ copied s' v c
  | Err e => offends v e
  end.
Proof using Hclone Hwf.
  intros Hi Hc Hf Ho H. unfold cbind in H. destruct (clone v s) as [[[c|e] s1]|] eqn:E; [..|done].
  2: { injection H as <- <-. by apply (Hclone _ _ _ _ Hi Hc) in E. }
  apply (Hclone _ _ _ _ Hi Hc) in E as (Hi1 & Ha1 & Hv). pose proof (filling_mono _ _ _ _ (keeps_visits _ _ _ Ha1) Hf) as Hf1.
  assert (mem s1 !! q = Some o) as Ho1 by by apply (keeps_places _ _ _ Ha1).
  destruct (update_ok s1 r q (f c) o Hi1 (proj1 Hf1) (filling_place _ _ _ Hi1 Hf1) Ho1) as (s2 & E2 & Hi2 & Ha2 & Ev & Em).
  rewrite E2 in H. injection H as <- <-. split; [done|]. split; [apply (fill_trans _ r q s1); [done..|by apply advances_open|done]|].
  exists c. split; [done|]. eapply copied_mono; [|done]. by rewrite Ev.
Qed.

Lemma clone_elems_ok r q l : forall i s res s' cur, copy_inv s -> closed m0 (flat_map refs l) -> filling s r q ->
  mem s !! q = Some (OElems cur) -> length cur = i + length l -> clone_elems clone r i l s = Some (res, s') ->
  match res with
  | Ok _ => copy_inv s' /\ advances (Some q) s s' /\ exists ws, mem s' !! q = Some (OElems (take i cur ++ ws)) /\ Forall2 (copied s') l ws
  | Err e => exists v, v ∈ l /\ offends v e
  end.
Proof using Hclone Hwf.
  induction l as [|v l IH]; intros i s res s' cur Hi Hc Hf Hq Hl H; cbn in H.
  { injection H as <- <-. split; [done|]. split; [apply advances_refl|]. exists []. split; [|constructor].
    rewrite app_nil_r, take_ge; [done|]. cbn in Hl. lia. }
  apply Forall_app in Hc as [Hcv Hcl].
  assert (exists res1 s1, (do! c := clone v in update r (set_index i c)) s = Some (res1, s1) /\
    match res1 with Ok _ => clone_elems clone r (S i) l s1 = Some (res, s') | Err e => res = Err e end) as (res1 & s1 & E1 & H1).
  { unfold cbind in *. destruct (clone v s) as [[[c|e] s1]|]; [|injection H as <- <-; by eexists _, _|done]. eexists _, _. split; [done|exact H]. }
  apply (clone_then_update _ _ _ _ _ _ _ _ Hi Hcv Hf Hq) in E1. destruct res1 as [[]|e]; [|subst; exists v; split; [by left|done]].
  destruct E1 as (Hi1 & Ha1 & c & Hq1 & Hv). cbn in Hq1.
  apply (IH _ _ _ _ (<[i := c]> cur)) in H1; [|done..|by eapply filling_mono; [apply (keeps_visits _ _ _ Ha1)|]|done|rewrite length_insert; cbn in Hl; lia].
  destruct res as [[]|e]; [|destruct H1 as (u & Hu & ?); exists u; split; [by right|done]].
  destruct H1 as (Hi' & Ha' & ws & Hq' & Hws). split; [done|]. split; [by apply (fill_trans _ r q s1)|]. exists (c :: ws). split.
  - rewrite Hq'. do 2 f_equal. rewrite (take_S_r _ _ c) by (apply list_lookup_insert_eq; cbn in Hl; lia).
    rewrite take_insert_ge by lia. by rewrite <- app_assoc.
  - constructor; [|done]. eapply copied_mono; [apply (keeps_visits _ _ _ Ha')|done].
Qed.

Lemma clone_array_ok l : forall s res s', copy_inv s -> closed m0 (flat_map refs l) -> clone_array clone l s = Some (res, s') ->
  match res with
  | Ok ws => copy_inv s' /\ advances None s s' /\ Forall2 (copied s') l ws
  | Err e => exists v, v ∈ l /\ offends v e
  end.
Proof using Hclone.
  induction l as [|v l IH]; intros s res s' Hi Hc H; cbn in H.
  { injection H as <- <-. split; [done|]. split; [apply advances_refl|constructor]. }
  apply Forall_app in Hc as [Hcv Hcl]. unfold cbind, cret in H.
  destruct (clone v s) as [[[c|e] s1]|] eqn:E; [|injection H as <- <-; exists v; split; [by left|by apply (Hclone _ _ _ _ Hi Hcv) in E]|done].
  apply (Hclone _ _ _ _ Hi Hcv) in E as (Hi1 & Ha1 & Hv). destruct (clone_array clone l s1) as [[[cs|e] s2]|] eqn:E2; [..|done];
    injection H as <- <-; apply (IH _ _ _ Hi1 Hcl) in E2.
  - destruct E2 as (Hi2 & Ha2 & Hws). split; [done|]. split; [by apply (advances_trans None s s1)|]. constructor; [|done].
    eapply copied_mono; [apply (keeps_visits _ _ _ Ha2)|done].
  - destruct E2 as (u & Hu & ?). exists u. split; [by right|done].
Qed.

Definition copied_field (s : cstate) (x y : string * bool * value) : Prop := x.1.2 = true /\ y.1 = x.1 /\ copied s x.2 y.2.

Lemma clone_fields_ok t l : forall s res s', copy_inv s -> closed m0 (flat_map (fun f : string * bool * value => refs f.2) l) ->
  clone_fields clone t l s = Some (res, s') ->
  match res with
  | Ok ws => copy_inv s' /\ advances None s s' /\ Forall2 (copied_field s') l ws
  | Err e => exists f : string * bool * value, f ∈ l /\ (if f.1.2 then offends f.2 e else e = ErrUnexported t f.1.1)
  end.
Proof using Hclone.
  induction l as [|[[n b] v] l IH]; intros s res s' Hi Hc H; cbn in H.
  { injection H as <- <-. split; [done|]. split; [apply advances_refl|constructor]. }
  apply Forall_app in Hc as [Hcv Hcl]. cbn in Hcv. destruct b; cbn in H; [|injection H as <- <-; exists (n, false, v); split; [by left|done]].
  unfold cbind, cret in H.
  destruct (clone v s) as [[[c|e] s1]|] eqn:E; [|injection H as <- <-; exists (n, true, v); split; [by left|by apply (Hclone _ _ _ _ Hi Hcv) in E]|done].
  apply (Hclone _ _ _ _ Hi Hcv) in E as (Hi1 & Ha1 & Hv). destruct (clone_fields clone t l s1) as [[[cs|e] s2]|] eqn:E2; [..|done];
    injection H as <- <-; apply (IH _ _ _ Hi1 Hcl) in E2.
  - destruct E2 as (Hi2 & Ha2 & Hws). split; [done|]. split; [by apply (advances_trans None s s1)|]. constructor; [|done].
    split_and!; [done|done|]. eapply copied_mono; [apply (keeps_visits _ _ _ Ha2)|done].
  - destruct E2 as (u & Hu & ?). exists u. split; [by right|done].
Qed.

Lemma set_map_index_new k v l : Forall (fun x => key_eq k x.1 = false) l -> set_map_index k v l = l ++ [(k, v)].
Proof using Type. induction 1 as [|[k' v'] l Hk _ IH]; cbn in *; [done|]. by rewrite Hk, IH. Qed.

Lemma copied_keys_apart s k w k' w' : copy_inv s -> copied s k w -> copied s k' w' -> key_eq k k' = false -> key_eq w w' = false.
Proof using Type.
  intros Hi (-> & Hk & _) (-> & Hk' & _) H. destruct (key_eq (rename _ k) _) eqn:E; [|done].
  apply (key_eq_rename _ (seen s)) in E; [congruence| | |done..].
  - intros p Hp. by apply seen_moved.
  - intros p q Hp Hq. by apply moved_inj.
Qed.

Definition copied_entry (s : cstate) (x y : value * value) : Prop := copied s x.1 y.1 /\ copied s x.2 y.2.

Lemma copied_entries_mono s s' l ws : visited s ⊆ visited s' -> Forall2 (copied_entry s) l ws -> Forall2 (copied_entry s') l ws.
Proof using Type. intros H Hl. eapply Forall2_impl; [exact Hl|]. intros x y [H1 H2]. split; by eapply copied_mono. Qed.

Lemma new_key_apart s pre acc k w rest : copy_inv s -> Forall2 (copied_entry s) pre acc -> copied s k.1 w ->
  ForallOrdPairs (fun x y : value * value => key_eq y.1 x.1 = false) (pre ++ k :: rest) -> Forall (fun x => key_eq w x.1 = false) acc.
Proof using Type.
  intros Hi Hacc Hw. induction Hacc as [|x y pre acc [Hx _] _ IH]; cbn; intros H; [done|].
  inversion H as [|? ? Hall Hord]; subst. constructor; [|by apply IH]. eapply copied_keys_apart; [done|exact Hw|exact Hx|].
  rewrite Forall_forall in Hall. apply (Hall k). apply elem_of_app. right. by left.
Qed.

Lemma clone_entries_ok r q l : forall pre s res s' acc, copy_inv s -> closed m0 (flat_map refs (flat_map (fun e : value * value => [e.1; e.2]) l)) ->
  filling s r q -> mem s !! q = Some (OMap acc) -> Forall2 (copied_entry s) pre acc ->
  ForallOrdPairs (fun x y : value * value => key_eq y.1 x.1 = false) (pre ++ l) -> clone_entries clone r l s = Some (res, s') ->
  match res with
  | Ok _ => copy_inv s' /\ advances (Some q) s s' /\ exists ws, mem s' !! q = Some (OMap ws) /\ Forall2 (copied_entry s') (pre ++ l) ws
  | Err e => exists v, v ∈ flat_map (fun e : value * value => [e.1; e.2]) l /\ offends v e
  end.
Proof using Hclone Hwf.
  induction l as [|[k v] l IH]; intros pre s res s' acc Hi Hc Hf Hq Hacc Hord H; cbn in H.
  { injection H as <- <-. split; [done|]. split; [apply advances_refl|]. exists acc. by rewrite app_nil_r. }
  cbn in Hc. apply Forall_app in Hc as [Hck Hc]. apply Forall_app in Hc as [Hcv Hcl]. unfold cbind at 1 in H.
  destruct (clone k s) as [[[w|e] s1]|] eqn:E; [|injection H as <- <-; exists k; split; [by left|by apply (Hclone _ _ _ _ Hi Hck) in E]|done].
  apply (Hclone _ _ _ _ Hi Hck) in E as (Hi1 & Ha1 & Hw).
  assert (exists res1 s2, (do! c := clone v in update r (set_entry w c)) s1 = Some (res1, s2) /\
    match res1 with Ok _ => clone_entries clone r l s2 = Some (res, s') | Err e => res = Err e end) as (res1 & s2 & E1 & H1).
  { unfold cbind in *. destruct (clone v s1) as [[[c|e] s2]|]; [|injection H as <- <-; by eexists _, _|done]. eexists _, _. split; [done|exact H]. }
  pose proof (filling_mono _ _ _ _ (keeps_visits _ _ _ Ha1) Hf) as Hf1.
  apply (clone_then_update _ _ _ q _ _ _ (OMap acc)) in E1; [|done..|by apply (keeps_places _ _ _ Ha1)].
  destruct res1 as [[]|e]; [|subst; exists v; split; [right; by left|done]]. destruct E1 as (Hi2 & Ha2 & c & Hq2 & Hv). cbn in Hq2.
  rewrite set_map_index_new in Hq2 by (eapply (new_key_apart s1 pre acc (k, v)); [done|by eapply copied_entries_mono; [apply (keeps_visits _ _ _ Ha1)|]|done|exact Hord]).
  apply (IH (pre ++ [(k, v)]) s2 res s' (acc ++ [(w, c)])) in H1; [|done..|by eapply filling_mono; [apply (keeps_visits _ _ _ Ha2)|]|done| |by rewrite <- app_assoc].
  - destruct res as [[]|e]; [|destruct H1 as (u & Hu & ?); exists u; split; [by do 2 right|done]].
    destruct H1 as (Hi' & Ha' & ws & Hq' & Hws). split; [done|]. rewrite <- app_assoc in Hws. split; [|by exists ws].
    apply (fill_trans _ r q s1); [done..|by apply advances_open|]. by apply (fill_trans _ r q s2).
  - apply Forall2_app; [|constructor; [split|constructor]].
    + eapply copied_entries_mono; [|exact Hacc]. etrans; [apply (keeps_visits _ _ _ Ha1)|apply (keeps_visits _ _ _ Ha2)].
    + cbn. eapply copied_mono; [apply (keeps_visits _ _ _ Ha2)|done].
    + done.
Qed.
End loops.

(** ** The whole of a copy *)

Lemma copied_list s l ws : Forall2 (copied s) l ws ->
  ws = map (rename (moved_to s)) l /\ Forall (seen s) (flat_map refs l) /\ flat_map offences l = [].
Proof using Type.
  induction 1 as [|v w l ws (-> & Hs & Ho) _ (-> & Hs' & Ho')]; cbn; [done|]. rewrite Ho, Ho'. split_and!; [done|by apply Forall_app|done].
Qed.

Lemma copied_entries s l ws : Forall2 (copied_entry s) l ws ->
  ws = map (fun e : value * value => (rename (moved_to s) e.1, rename (moved_to s) e.2)) l /\
  Forall (seen s) (object_refs (OMap l)) /\ object_offences (OMap l) = [].
Proof using Type.
  unfold object_refs, object_offences. cbn.
  induction 1 as [|[k v] [k' v'] l ws [(Ek & Hk & Hk') (Ev & Hv & Hv')] _ (-> & Hs & Ho)]; cbn in *; [done|]. subst.
  rewrite Hk', Hv', Ho. split_and!; [done| |done]. rewrite !Forall_app. done.
Qed.

Lemma copied_fields s t l ws : Forall2 (copied_field s) l ws -> copied s (VStruct t l) (VStruct t ws).
Proof using Type.
  intros H. enough (ws = map (fun x : string * bool * value => (x.1, rename (moved_to s) x.2)) l /\
    Forall (seen s) (refs (VStruct t l)) /\ offences (VStruct t l) = []) as (-> & ? & ?) by done.
  cbn. induction H as [|[[n b] v] [nb w] l ws (Eb & En & Ew & Hs & Ho) _ (-> & Hs' & Ho')]; cbn in *; [done|]. subst. rewrite Ho, Ho'.
  split_and!; [done|by apply Forall_app|done].
Qed.

Lemma closed_object p o : m0 !! p = Some o -> closed m0 (object_refs o).
Proof using Hwf. apply (contents_closed _ _ Hwf). Qed.

Lemma reach_mono l l' p : (forall q, q ∈ l -> q ∈ l') -> reach m0 l p -> reach m0 l' p.
Proof using Type. intros H. induction 1 as [a Ha|a o b _ IH Ho Hb]; [constructor; auto|by eapply reach_on]. Qed.

Lemma offends_in v u e : (forall x, x ∈ offences u -> x ∈ offences v) -> (forall p, p ∈ refs u -> p ∈ refs v) -> offends u e -> offends v e.
Proof using Type.
  intros Ho Hr [H|(p & o & Hp & H)]; [left; auto|]. right. exists p, o. split; [|done]. by eapply reach_mono.
Qed.

Lemma offends_behind v p o u e : p ∈ refs v -> m0 !! p = Some o -> u ∈ object_values o -> offends u e -> offends v e.
Proof using Type.
  intros Hp Ho Hu [H|(q & o' & Hq & H)]; right.
  - exists p, o. split_and!; [by constructor|done|]. unfold object_offences. apply list_elem_of_In, in_flat_map. exists u. by rewrite <- !list_elem_of_In.
  - exists q, o'. split; [|done]. clear H. induction Hq as [a Ha|a o2 b _ IH Ho2 Hb]; [|by eapply reach_on].
    apply (reach_on _ _ p o); [by constructor|done|]. apply list_elem_of_In, in_flat_map. exists u. by rewrite <- !list_elem_of_In.
Qed.

Lemma in_flat_map_of {A B} (f : A -> list B) l x y : x ∈ l -> y ∈ f x -> y ∈ flat_map f l.
Proof using Type. intros Hx Hy. apply list_elem_of_In, in_flat_map. exists x. by rewrite <- !list_elem_of_In. Qed.

(** What the contents of a place have become when they were filled in. *)
Definition filled (s1 : cstate) (q : place) (o : object) (r : result clone_error unit) (s2 : cstate) : Prop :=
  match r with
  | Ok _ => copy_inv s2 /\ advances (Some q) s1 s2 /\ mem s2 !! q = Some (rename_object (moved_to s2) o) /\
      Forall (seen s2) (object_refs o) /\ object_offences o = []
  | Err e => exists u, u ∈ object_values o /\ offends u e
  end.

(** A reference: its place is new, and gets its contents. *)
Lemma place_copied make o1 p q s fill r s' o v : copy_inv s -> m0 !! p = Some o -> visited s !! visit_of m0 p = None ->
  place_of (make (next s)) = Some q -> address_of q = next s -> same_shape p q -> place_of v = Some p ->
  (forall s1 r' s2, copy_inv s1 -> filling s1 (make (next s)) q -> mem s1 !! q = Some o1 -> fill s1 = Some (r', s2) -> filled s1 q o r' s2) ->
  (do! _ := fill in cret (make (next s))) (allocated make o1 p s) = Some (r, s') -> outcome s v r s'.
Proof using Hwf.
  intros Hi Ho Hn Hq Ha Hsh Hv Hfill H. assert (is_Some (m0 !! p)) as Hp by by exists o.
  destruct (allocated_seen make o1 p q s Hq) as [Hsn Hmv]. destruct (allocated_mem make o1 p q s) as [Hmq _]; [done..|].
  pose proof (allocated_inv make o1 p q s Hi Hp Hn Hq Ha Hsh) as Hi1.
  unfold cbind, cret in H. destruct (fill (allocated make o1 p s)) as [[[[]|e] s2]|] eqn:E; [..|done]; injection H as <- <-;
    apply Hfill in E; try done; try (by split; [|exists p]).
  - destruct E as (Hi2 & Hadv & Hm & Hs & Hoff). pose proof (keeps_visits _ _ _ Hadv) as HV.
    assert (moved_to s2 p = q) as Hmv2 by by rewrite (moved_mono (allocated make o1 p s)).
    split; [done|]. split.
    + apply (allocated_done make o1 p q s); try done. exists o. by rewrite Hmv2.
    + apply (copied_seen _ _ p); [done..|]. eapply lookup_weaken; [|exact HV]. cbn. by rewrite lookup_insert_eq.
  - destruct E as (u & Hu & Hoff). eapply offends_behind; [|done..]. destruct (refs_place _ _ Hv) as [-> _]. by left.
Qed.

Section contents.
Context (clone : value -> CM value) (s : cstate).
Context (Hclone : forall v s r s', copy_inv s -> closed m0 (refs v) -> clone v s = Some (r, s') -> outcome s v r s').

Lemma cell_filled r q e z s1 r' s2 : closed m0 (object_refs (OCell e)) -> copy_inv s1 -> filling s1 r q -> mem s1 !! q = Some (OCell z) ->
  (do! c := clone e in update r (set_cell c)) s1 = Some (r', s2) -> filled s1 q (OCell e) r' s2.
Proof using Hclone Hwf.
  unfold object_refs. cbn. rewrite app_nil_r. intros Hc Hi Hf Hq H.
  apply (clone_then_update _ Hclone _ _ _ q _ _ _ (OCell z)) in H; [|done..]. destruct r' as [[]|x]; [|exists e; split; [by left|done]].
  destruct H as (Hi2 & Ha & c & Hm & -> & Hs & Ho). unfold filled, object_refs, object_offences. cbn. rewrite !app_nil_r. by split_and!.
Qed.

Lemma elems_filled r q l z n s1 r' s2 : closed m0 (object_refs (OElems l)) -> copy_inv s1 -> filling s1 r q -> length l = n ->
  mem s1 !! q = Some (OElems (replicate n z)) -> clone_elems clone r 0 l s1 = Some (r', s2) -> filled s1 q (OElems l) r' s2.
Proof using Hclone Hwf.
  intros Hc Hi Hf Hl Hq H.
  apply (clone_elems_ok _ Hclone _ q) with (cur := replicate n z) in H; [|done..|by rewrite length_replicate].
  destruct r' as [[]|x]; [|done]. destruct H as (Hi2 & Ha & ws & Hm & Hws). destruct (copied_list _ _ _ Hws) as (-> & Hs & Ho).
  by split_and!.
Qed.

Lemma entries_filled r q l s1 r' s2 : closed m0 (object_refs (OMap l)) -> copy_inv s1 -> filling s1 r q ->
  ForallOrdPairs (fun x y : value * value => key_eq y.1 x.1 = false) l ->
  mem s1 !! q = Some (OMap []) -> clone_entries clone r l s1 = Some (r', s2) -> filled s1 q (OMap l) r' s2.
Proof using Hclone Hwf.
  intros Hc Hi Hf Hl Hq H. apply (clone_entries_ok _ Hclone _ q) with (pre := []) (acc := []) in H; [|done..|constructor|done].
  destruct r' as [[]|x]; [|done]. destruct H as (Hi2 & Ha & ws & Hm & Hws). destruct (copied_entries _ _ _ Hws) as (-> & Hs & Ho).
  by split_and!.
Qed.
End contents.

Lemma cbind_assoc {A B C} (m : CM A) (f : A -> CM B) (g : B -> CM C) s :
  (do! x := m in do! y := f x in g y) s = (do! y := (do! x := m in f x) in g y) s.
Proof using Type. unfold cbind. by destruct (m s) as [[[] ?]|]. Qed.

Lemma allocate_and_read make o1 p q s o {B} (k : value -> object -> CM B) : copy_inv s -> m0 !! p = Some o -> visited s !! visit_of m0 p = None ->
  place_of (make (next s)) = Some q -> address_of q = next s -> same_shape p q ->
  (do! r := allocate make o1 (visit_of m0 p) in do! o := read p in k r o) s = k (make (next s)) o (allocated make o1 p s).
Proof using Hwf.
  intros Hi Ho Hn Hq Ha Hsh. assert (is_Some (m0 !! p)) as Hp by by exists o.
  pose proof (allocated_inv make o1 p q s Hi Hp Hn Hq Ha Hsh) as Hi1.
  change ((do! o := read p in k (make (next s)) o) (allocated make o1 p s) = k (make (next s)) o (allocated make o1 p s)).
  unfold cbind, read. by rewrite (lookup_weaken _ _ _ _ Ho (old_kept _ Hi1)).
Qed.

Lemma map_len_old s t a : copy_inv s -> is_Some (m0 !! PMap t a) -> Visit t KMap a (map_len (mem s) t a) = visit_of m0 (PMap t a).
Proof using Type. intros Hi [o Ho]. cbn. unfold map_len. by rewrite Ho, (lookup_weaken _ _ _ _ Ho (old_kept _ Hi)). Qed.

Lemma clone_correct zero fuel : forall v s r s', copy_inv s -> closed m0 (refs v) ->
  cloneReflectValue zero fuel v s = Some (r, s') -> outcome s v r s'.
Proof using Hwf.
  induction fuel as [|fuel IH]; [done|]. intros v s r s' Hi Hc H. cbn in H.
  assert (forall v, offences v = [] -> refs v = [] -> rename (moved_to s) v = v -> outcome s v (Ok v) s) as Hleaf.
  { intros u H1 H2 H3. split; [done|]. split; [apply advances_refl|]. split; [done|]. by rewrite H1, H2. }
  assert (forall v p w, place_of v = Some p -> visited s !! visit_of m0 p = Some w -> outcome s v (Ok w) s) as Hseen.
  { intros u p w Hu Hw. split; [done|]. split; [apply advances_refl|]. by apply (copied_seen _ _ p). }
  destruct v as [|t x|t|x|t x|t [e|]|t [a|]|t [a|]|t [[a n]|]|t l|t l]; try (injection H as <- <-; by apply Hleaf).
  - injection H as <- <-. left. cbn. by left.
  - unfold cbind, cret in H. destruct (cloneReflectValue zero fuel e s) as [[[c|x] s1]|] eqn:E; [| |done]; injection H as <- <-;
      apply (IH e _ _ _ Hi Hc) in E; [|done]. destruct E as (? & ? & -> & ? & ?). by split_and!.
  - inversion Hc as [|? ? [o Ho] _]; subst. pose proof (contents_fit _ _ Hwf _ _ Ho) as Hfit. destruct o as [e|l|l]; [|done..].
    unfold cbind at 1, previous in H. destruct (visited s !! Visit t KPointer a 0) as [w|] eqn:Ev; [injection H as <- <-; by apply (Hseen _ (PPointer t a))|].
    change (Visit t KPointer a 0) with (visit_of m0 (PPointer t a)) in *.
    rewrite (allocate_and_read (fun a' => VPointer t (Some a')) (OCell (zero t)) (PPointer t a) (PPointer t (next s)) s (OCell e)
      (fun r o => match o with OCell e => do! c := cloneReflectValue zero fuel e in do! _ := update r (set_cell c) in cret r | _ => fun _ => None end)) in H by done.
    cbv beta iota in H. rewrite cbind_assoc in H.
    eapply (place_copied (fun a' => VPointer t (Some a'))); [done|exact Ho|try done..|exact H].
    intros. eapply cell_filled; eauto using closed_object.
  - inversion Hc as [|? ? [o Ho] _]; subst. pose proof (contents_fit _ _ Hwf _ _ Ho) as Hfit. destruct o as [e|l|l]; [done| |done].
    rewrite map_len_old in H by eauto. set (vi := visit_of m0 (PMap t a)) in *.
    destruct (visited s !! vi) as [w|] eqn:Ev; [injection H as <- <-; by apply (Hseen _ (PMap t a))|].
    subst vi. cbv beta iota in H. rewrite (allocate_and_read (fun a' => VMap t (Some a')) (OMap []) (PMap t a) (PMap t (next s)) s (OMap l)
      (fun r o => match o with OMap l => do! _ := clone_entries (cloneReflectValue zero fuel) r l in cret r | _ => fun _ => None end)) in H by done.
    cbv beta iota in H.
    eapply (place_copied (fun a' => VMap t (Some a'))); [done|exact Ho|try done..|exact H].
    intros. eapply entries_filled; eauto using closed_object.
  - inversion Hc as [|? ? [o Ho] _]; subst. pose proof (contents_fit _ _ Hwf _ _ Ho) as Hfit. destruct o as [e|l|l]; [done..|].
    unfold cbind at 1, previous in H. destruct (visited s !! Visit t KSlice a n) as [w|] eqn:Ev; [injection H as <- <-; by apply (Hseen _ (PSlice t a n))|].
    change (Visit t KSlice a n) with (visit_of m0 (PSlice t a n)) in *.
    rewrite (allocate_and_read (fun a' => VSlice t (Some (a', n))) (OElems (replicate n (zero t))) (PSlice t a n) (PSlice t (next s) n) s (OElems l)
      (fun r o => match o with OElems l => do! _ := clone_elems (cloneReflectValue zero fuel) r 0 l in cret r | _ => fun _ => None end)) in H by done.
    cbv beta iota in H.
    eapply (place_copied (fun a' => VSlice t (Some (a', n)))); [done|exact Ho|try done..|exact H].
    intros. eapply elems_filled; eauto using closed_object.
  - unfold cbind, cret in H. destruct (clone_array (cloneReflectValue zero fuel) l s) as [[[cs|x] s1]|] eqn:E; [| |done]; injection H as <- <-;
      apply (clone_array_ok _ IH _ _ _ _ Hi Hc) in E.
    + destruct E as (? & ? & (-> & ? & ?)%copied_list). by split_and!.
    + destruct E as (u & Hu & Ho). eapply offends_in; [..|exact Ho]; intros y Hy; by eapply in_flat_map_of.
  - unfold cbind, cret in H. destruct (clone_fields (cloneReflectValue zero fuel) t l s) as [[[cs|x] s1]|] eqn:E; [| |done]; injection H as <- <-;
      apply (clone_fields_ok _ IH _ _ _ _ _ Hi Hc) in E.
    + destruct E as (? & ? & ?). split_and!; [done|done|by apply copied_fields].
    + destruct E as ([[nm b] u] & Hu & Ho). cbn in Ho. destruct b.
      * eapply offends_in; [..|exact Ho]; intros y Hy; [|by apply (in_flat_map_of _ _ (nm, true, u))].
        by apply (in_flat_map_of (fun f : string * bool * value => if f.1.2 then offences f.2 else [ErrUnexported t f.1.1]) _ (nm, true, u)).
      * subst. left. apply (in_flat_map_of (fun f : string * bool * value => if f.1.2 then offences f.2 else [ErrUnexported t f.1.1]) _ (nm, false, u)); [done|by left].
Qed.

(** ** Enough fuel *)

Definition object_depth_of (depth : value -> nat) (o : object) : nat := max_list_with depth (object_values o).

Fixpoint depth (v : value) : nat :=
  match v with
  | VInterface _ (Some e) => S (depth e)
  | VArray _ l => S (max_list_with depth l)
  | VStruct _ l => S (max_list_with (fun f : string * bool * value => depth f.2) l)
  | _ => 1
  end.

Definition object_depth : object -> nat := object_depth_of depth.

(** What the places not seen yet may still cost. *)
Definition cost_in (s : cstate) (x : place * object) : nat :=
  match visited s !! visit_of m0 x.1 with Some _ => 0 | None => S (object_depth x.2) end.

Definition cost (s : cstate) : nat := sum_list_with (cost_in s) (map_to_list m0).

Lemma cost_in_mono s s' x : visited s ⊆ visited s' -> cost_in s' x <= cost_in s x.
Proof using Type.
  intros H. unfold cost_in. destruct (visited s !! _) eqn:E; [by rewrite (lookup_weaken _ _ _ _ E H)|]. destruct (visited s' !! _); lia.
Qed.

Lemma cost_mono s s' : visited s ⊆ visited s' -> cost s' <= cost s.
Proof using Type.
  intros H. unfold cost. induction (map_to_list m0) as [|x l IH]; cbn; [done|]. pose proof (cost_in_mono _ _ x H). lia.
Qed.

(** A place visited pays for what is behind it. *)
Lemma cost_visit s s1 p o : m0 !! p = Some o -> visited s !! visit_of m0 p = None -> visited s ⊆ visited s1 -> seen s1 p ->
  S (object_depth o) + cost s1 <= cost s.
Proof using Type.
  intros Hp Hn H [w Hw]. apply elem_of_map_to_list, list_elem_of_split in Hp as (l1 & l2 & E). unfold cost. rewrite E, !sum_list_with_app. cbn.
  assert (cost_in s (p, o) = S (object_depth o)) as -> by (unfold cost_in; cbn; by rewrite Hn).
  assert (cost_in s1 (p, o) = 0) as -> by (unfold cost_in; cbn; by rewrite Hw).
  assert (forall l, sum_list_with (cost_in s1) l <= sum_list_with (cost_in s) l) as Hle.
  { induction l as [|x l IH]; cbn; [done|]. pose proof (cost_in_mono _ _ x H). lia. }
  pose proof (Hle l1). pose proof (Hle l2). lia.
Qed.

Lemma max_list_in {A} (f : A -> nat) l x : x ∈ l -> f x <= max_list_with f l.
Proof using Type. induction 1 as [|? ? ? _ IH]; cbn; lia. Qed.

Section returns.
Context (clone : value -> CM value) (C D : nat).
Context (Hclone : forall v s r s', copy_inv s -> closed m0 (refs v) -> clone v s = Some (r, s') -> outcome s v r s').
Context (Hret : forall v s, copy_inv s -> closed m0 (refs v) -> depth v <= D -> cost s <= C -> is_Some (clone v s)).

Lemma step_returns v s r q f o : copy_inv s -> closed m0 (refs v) -> depth v <= D -> cost s <= C -> filling s r q -> mem s !! q = Some o ->
  exists res s', (do! c := clone v in update r (f c)) s = Some (res, s') /\
    match res with Ok _ => copy_inv s' /\ cost s' <= C /\ filling s' r q /\ exists c, mem s' !! q = Some (f c o) | Err _ => True end.
Proof using Hclone Hret Hwf.
  intros Hi Hc Hd HC Hf Ho.
  assert (exists res s', (do! c := clone v in update r (f c)) s = Some (res, s')) as (res & s' & E).
  { unfold cbind. destruct (Hret v s Hi Hc Hd HC) as [[[c|e] s1] E]; rewrite E; by eexists _, _. }
  exists res, s'. split; [done|]. destruct res as [[]|e]; [|done].
  apply (clone_then_update _ Hclone _ _ _ q _ _ _ o) in E as (Hi' & Ha & c & Hm & _); [|done..]. split_and!; [done| |by eapply filling_mono; [apply (keeps_visits _ _ _ Ha)|]|by exists c].
  etrans; [apply cost_mono, (keeps_visits _ _ _ Ha)|done].
Qed.

Lemma elems_return r q l : forall i s o, copy_inv s -> closed m0 (flat_map refs l) -> max_list_with depth l <= D -> cost s <= C -> filling s r q ->
  mem s !! q = Some o -> is_Some (clone_elems clone r i l s).
Proof using Hclone Hret Hwf.
  induction l as [|v l IH]; intros i s o Hi Hc Hd HC Hf Hm; cbn in *; [by eexists|]. apply Forall_app in Hc as [Hcv Hcl].
  destruct (step_returns v s r q (set_index i) o) as (res & s' & E & H); [done..|lia|done|done|done|].
  rewrite cbind_assoc. unfold cbind at 1. rewrite E. destruct res as [[]|e]; [|by eexists]. destruct H as (Hi' & HC' & Hf' & c & Hm'). eapply IH; eauto. lia.
Qed.

Lemma array_returns l : forall s, copy_inv s -> closed m0 (flat_map refs l) -> max_list_with depth l <= D -> cost s <= C ->
  is_Some (clone_array clone l s).
Proof using Hclone Hret.
  induction l as [|v l IH]; intros s Hi Hc Hd HC; cbn in *; [by eexists|]. apply Forall_app in Hc as [Hcv Hcl].
  destruct (Hret v s Hi Hcv) as [[[c|e] s1] E]; [lia|done| |unfold cbind; rewrite E; by eexists].
  apply Hclone in E as Ho; [|done..]. destruct Ho as (Hi1 & Ha & _). destruct (IH s1) as [[[cs|e] s2] E2]; [done|done|lia| |..].
  - etrans; [apply cost_mono, (keeps_visits _ _ _ Ha)|done].
  - unfold cbind, cret. rewrite E, E2. by eexists.
  - unfold cbind, cret. rewrite E, E2. by eexists.
Qed.

Lemma fields_return t l : forall s, copy_inv s -> closed m0 (flat_map (fun f : string * bool * value => refs f.2) l) ->
  max_list_with (fun f : string * bool * value => depth f.2) l <= D -> cost s <= C -> is_Some (clone_fields clone t l s).
Proof using Hclone Hret.
  induction l as [|[[n []] v] l IH]; intros s Hi Hc Hd HC; cbn in *; [by eexists| |by eexists]. apply Forall_app in Hc as [Hcv Hcl].
  destruct (Hret v s Hi Hcv) as [[[c|e] s1] E]; [lia|done| |unfold cbind; rewrite E; by eexists].
  apply Hclone in E as Ho; [|done..]. destruct Ho as (Hi1 & Ha & _). destruct (IH s1) as [[[cs|e] s2] E2]; [done|done|lia| |..].
  - etrans; [apply cost_mono, (keeps_visits _ _ _ Ha)|done].
  - unfold cbind, cret. rewrite E, E2. by eexists.
  - unfold cbind, cret. rewrite E, E2. by eexists.
Qed.

Lemma entries_return r q l : forall s o, copy_inv s -> closed m0 (flat_map refs (flat_map (fun e : value * value => [e.1; e.2]) l)) ->
  max_list_with depth (flat_map (fun e : value * value => [e.1; e.2]) l) <= D -> cost s <= C -> filling s r q -> mem s !! q = Some o ->
  is_Some (clone_entries clone r l s).
Proof using Hclone Hret Hwf.
  induction l as [|[k v] l IH]; intros s o Hi Hc Hd HC Hf Hm; cbn in *; [by eexists|]. apply Forall_app in Hc as [Hck [Hcv Hcl]%Forall_app].
  unfold cbind at 1. destruct (Hret k s Hi Hck) as [[[w|e] s1] E]; [lia|done| |rewrite E; by eexists]. rewrite E.
  apply Hclone in E; [|done..]. destruct E as (Hi1 & Ha & _). pose proof (keeps_visits _ _ _ Ha) as HV. pose proof (cost_mono _ _ HV).
  destruct (step_returns v s1 r q (set_entry w) o) as (res & s' & E & H'); [done|done|lia|lia|by eapply filling_mono|by apply (keeps_places _ _ _ Ha)|].
  rewrite cbind_assoc. unfold cbind at 1. rewrite E. destruct res as [[]|e]; [|by eexists]. destruct H' as (Hi' & HC' & Hf' & c & Hm'). eapply IH; eauto. lia.
Qed.
End returns.

(** A reference returns when filling its place does. *)
Lemma place_returns make o1 p q s o {B} (fill : CM B) (k : CM value) : copy_inv s -> m0 !! p = Some o -> visited s !! visit_of m0 p = None ->
  place_of (make (next s)) = Some q -> address_of q = next s -> same_shape p q ->
  (forall s1, copy_inv s1 -> filling s1 (make (next s)) q -> mem s1 !! q = Some o1 -> S (object_depth o) + cost s1 <= cost s -> is_Some (fill s1)) ->
  (forall s, is_Some (k s)) -> is_Some ((do! _ := fill in k) (allocated make o1 p s)).
Proof using Hwf.
  intros Hi Ho Hn Hq Ha Hsh Hfill Hk. assert (is_Some (m0 !! p)) as Hp by by exists o.
  destruct (allocated_seen make o1 p q s Hq) as [Hsn Hmv]. destruct (allocated_mem make o1 p q s) as [Hmq _]; [done..|].
  unfold cbind. destruct (Hfill (allocated make o1 p s)) as [[[b|e] s2] E]; [by eapply allocated_inv| |done| |rewrite E..].
  - split; [done|]. by exists p.
  - eapply cost_visit; [done|done| |done]. by apply insert_subseteq.
  - apply Hk.
  - by eexists.
Qed.

Lemma clone_returns zero fuel : forall v s, copy_inv s -> closed m0 (refs v) -> depth v + cost s <= fuel ->
  is_Some (cloneReflectValue zero fuel v s).
Proof using Hwf.
  induction fuel as [|fuel IH]; intros v s Hi Hc Hd.
  { exfalso. by destruct v as [| | | | |? [?|]| | | | |]; cbn in Hd; lia. }
  assert (forall C D, D + C <= fuel -> forall v s, copy_inv s -> closed m0 (refs v) -> depth v <= D -> cost s <= C ->
    is_Some (cloneReflectValue zero fuel v s)) as IH' by (intros; apply IH; [done..|lia]).
  destruct v as [|t x|t|x|t x|t [e|]|t [a|]|t [a|]|t [[a n]|]|t l|t l]; try (by eexists); cbn [cloneReflectValue].
  - cbn in Hd. destruct (IH e s Hi Hc) as [[[c|x] s1] E]; [lia| |]; unfold cbind, cret; rewrite E; by eexists.
  - inversion Hc as [|? ? [o Ho] _]; subst. pose proof (contents_fit _ _ Hwf _ _ Ho) as Hfit. destruct o as [e|l|l]; [|done..].
    unfold cbind at 1, previous. destruct (visited s !! Visit t KPointer a 0) as [w|] eqn:Ev; [by eexists|].
    change (Visit t KPointer a 0) with (visit_of m0 (PPointer t a)) in *.
    rewrite (allocate_and_read (fun a' => VPointer t (Some a')) (OCell (zero t)) (PPointer t a) (PPointer t (next s)) s (OCell e)
      (fun r o => match o with OCell e => do! c := cloneReflectValue zero fuel e in do! _ := update r (set_cell c) in cret r | _ => fun _ => None end)) by done.
    cbv beta iota. rewrite cbind_assoc.
    apply (place_returns _ _ _ (PPointer t (next s)) _ (OCell e)); [done|done|done|done|done|done| |by eexists].
    intros s1 Hi1 Hf Hm Hcost. pose proof (closed_object _ _ Ho) as Hco. unfold object_refs in Hco. cbn in Hco, Hcost, Hd. rewrite app_nil_r in Hco.
    unfold object_depth, object_depth_of in Hcost. cbn in Hcost.
    unfold cbind. destruct (IH e s1 Hi1 Hco) as [[[c|x] s2] E]; [lia| |]; rewrite E; by eexists.
  - inversion Hc as [|? ? [o Ho] _]; subst. pose proof (contents_fit _ _ Hwf _ _ Ho) as Hfit. destruct o as [e|l|l]; [done| |done].
    rewrite map_len_old by eauto. set (vi := visit_of m0 (PMap t a)).
    unfold cbind at 1, previous. destruct (visited s !! vi) as [w|] eqn:Ev; [by eexists|]. subst vi.
    rewrite (allocate_and_read (fun a' => VMap t (Some a')) (OMap []) (PMap t a) (PMap t (next s)) s (OMap l)
      (fun r o => match o with OMap l => do! _ := clone_entries (cloneReflectValue zero fuel) r l in cret r | _ => fun _ => None end)) by done.
    apply (place_returns _ _ _ (PMap t (next s)) _ (OMap l)); [done|done|done|done|done|done| |by eexists].
    intros s1 Hi1 Hf Hm Hcost. cbn in Hd.
    apply (entries_return _ (cost s1) (object_depth (OMap l)) (clone_correct zero fuel) (IH' (cost s1) (object_depth (OMap l)) ltac:(lia)) _ (PMap t (next s)) _ _ (OMap []));
      [done|by apply (closed_object _ _ Ho)|done|done|done|done].
  - inversion Hc as [|? ? [o Ho] _]; subst. pose proof (contents_fit _ _ Hwf _ _ Ho) as Hfit. destruct o as [e|l|l]; [done..|].
    unfold cbind at 1, previous. destruct (visited s !! Visit t KSlice a n) as [w|] eqn:Ev; [by eexists|].
    change (Visit t KSlice a n) with (visit_of m0 (PSlice t a n)) in *.
    rewrite (allocate_and_read (fun a' => VSlice t (Some (a', n))) (OElems (replicate n (zero t))) (PSlice t a n) (PSlice t (next s) n) s (OElems l)
      (fun r o => match o with OElems l => do! _ := clone_elems (cloneReflectValue zero fuel) r 0 l in cret r | _ => fun _ => None end)) by done.
    apply (place_returns _ _ _ (PSlice t (next s) n) _ (OElems l)); [done|done|done|done|done|done| |by eexists].
    intros s1 Hi1 Hf Hm Hcost. cbn in Hd.
    apply (elems_return _ (cost s1) (object_depth (OElems l)) (clone_correct zero fuel) (IH' (cost s1) (object_depth (OElems l)) ltac:(lia)) _ (PSlice t (next s) n) _ _ _ (OElems (replicate n (zero t))));
      [done|by apply (closed_object _ _ Ho)|done|done|done|done].
  - cbn in Hd. destruct (array_returns _ (cost s) (max_list_with depth l) (clone_correct zero fuel) (IH' (cost s) (max_list_with depth l) ltac:(lia)) l s)
      as [[[c|x] s1] E]; [done..| |]; unfold cbind, cret; rewrite E; by eexists.
  - cbn in Hd. destruct (fields_return _ (cost s) (max_list_with (fun f : string * bool * value => depth f.2) l) (clone_correct zero fuel)
      (IH' (cost s) (max_list_with (fun f : string * bool * value => depth f.2) l) ltac:(lia)) t l s) as [[[c|x] s1] E]; [done..| |]; unfold cbind, cret; rewrite E; by eexists.
Qed.

(** ** From nothing visited *)

Lemma copy_begins : copy_inv (MkC m0 n0 ∅).
Proof using Hwf. split; cbn; [done|by left|done|..]; by intros ? ? *; rewrite ?lookup_empty. Qed.

Lemma all_reached v w s' p : advances None (MkC m0 n0 ∅) s' -> copied s' v w -> reach m0 (refs v) p -> seen s' p /\ complete s' p.
Proof using Type.
  intros Ha (_ & Hs & _). assert (forall q, seen s' q -> seen s' q /\ complete s' q) as Hseen.
  { intros q Hq. split; [done|]. destruct (completes _ _ _ Ha q Hq) as [[? H]|]; [|done]. cbn in H. by rewrite lookup_empty in H. }
  rewrite Forall_forall in Hs. induction 1 as [a H|a o b _ [_ (o' & Ho' & _ & Hall & _)] Ho Hb]; apply Hseen; [by apply Hs|].
  assert (o' = o) as -> by congruence. rewrite Forall_forall in Hall. by apply Hall.
Qed.
End copy.

Definition copy_fuel (m : memory) (v : value) : nat := depth v + sum_list_with (fun x => S (object_depth x.2)) (map_to_list m).

(** C16: A copy is the value with every place it can reach renamed, by an
    injection, to a new place that holds the renamed contents: the same graph,
    its sharing and its cycles kept; nothing that was in memory has changed.
    (Pointers are of types *T, see [ConfigClone].) *)
Theorem clone_is_isomorphic zero fuel v m n w s' : wf_memory m n -> closed m (refs v) ->
  cloneValue zero fuel v m n = Some (Ok w, s') ->
  m ⊆ mem s' /\ exists f, w = rename f v /\
    (forall p q, reach m (refs v) p -> reach m (refs v) q -> f p = f q -> p = q) /\
    (forall p, reach m (refs v) p -> same_shape p (f p) /\ m !! f p = None /\
       exists o, m !! p = Some o /\ mem s' !! f p = Some (rename_object f o)).
Proof.
  intros Hwf Hc H. pose proof (copy_begins _ _ Hwf) as Hi0. apply (clone_correct _ _ Hwf) in H as (Hi & Ha & Hw); [|done..].
  pose proof (fun p => all_reached _ _ v w s' p Ha Hw) as Hall. destruct Hw as (Ew & _).
  split; [apply (old_kept _ _ _ Hi)|]. exists (moved_to m s'). split_and!; [done|..].
  - intros p q [Hp _]%Hall [Hq _]%Hall. by eapply moved_inj.
  - intros p [Hp (o & Ho & Hm & _)]%Hall. destruct (seen_moved _ _ _ _ Hi Hp) as (_ & Hsh & Hr & _).
    split_and!; [done| |by exists o]. destruct (m !! moved_to m s' p) eqn:E; [|done]. apply (below _ _ Hwf) in E. lia.
Qed.

(** What a copied value or object refers to is what the original did, moved. *)
Lemma refs_rename f v : (forall p, p ∈ refs v -> same_shape p (f p)) -> refs (rename f v) = map f (refs v).
Proof.
  induction v as [|t x|t|x|t x|t|t e IH|t p|t p|t p|t l IH|t l IH] using value_ind'; cbn; intros H; try done.
  - by apply IH.
  - destruct p as [a|]; [|done]. simpl map. generalize (H (PPointer t a) ltac:(by left)). destruct (f (PPointer t a)); cbn; [by intros ->|done|done].
  - destruct p as [a|]; [|done]. simpl map. generalize (H (PMap t a) ltac:(by left)). destruct (f (PMap t a)); cbn; [done|by intros ->|done].
  - destruct p as [[a n]|]; [|done]. simpl map. generalize (H (PSlice t a n) ltac:(by left)). destruct (f (PSlice t a n)); cbn; [done..|]. by intros [-> ->].
  - induction IH as [|v l Hv _ IHl]; cbn in *; [done|]. rewrite map_app, Hv, IHl; [done|..]; intros p Hp; apply H, elem_of_app; auto.
  - induction IH as [|v l Hv _ IHl]; cbn in *; [done|]. rewrite map_app, Hv, IHl; [done|..]; intros p Hp; apply H, elem_of_app; auto.
Qed.

Lemma object_refs_rename f o : (forall p, p ∈ object_refs o -> same_shape p (f p)) -> object_refs (rename_object f o) = map f (object_refs o).
Proof.
  unfold object_refs. destruct o as [v|l|l]; cbn; intros H.
  - rewrite !app_nil_r in *. by apply refs_rename.
  - induction l as [|[k v] l IH]; cbn in *; [done|]. rewrite !map_app, IH, !refs_rename; [done|..]; intros p Hp; apply H; rewrite !elem_of_app; auto.
  - induction l as [|v l IH]; cbn in *; [done|]. rewrite map_app, IH, refs_rename; [done|..]; intros p Hp; apply H, elem_of_app; auto.
Qed.

(** C17: Nothing that can be reached from a copy was in memory before: whoever
    writes through the original, or through the copy, does not change the other. *)
Theorem clone_shares_nothing zero fuel v m n w s' q : wf_memory m n -> closed m (refs v) ->
  cloneValue zero fuel v m n = Some (Ok w, s') -> reach (mem s') (refs w) q -> m !! q = None /\ is_Some (mem s' !! q).
Proof.
  intros Hwf Hc H. pose proof (copy_begins _ _ Hwf) as Hi0. apply (clone_correct _ _ Hwf) in H as (Hi & Ha & Hw); [|done..].
  pose proof (fun p => all_reached _ _ v w s' p Ha Hw) as Hall.
  assert (forall p, reach m (refs v) p -> same_shape p (moved_to m s' p)) as Hsh by (intros p [Hp _]%Hall; by eapply seen_moved).
  intros Hq. assert (exists p, reach m (refs v) p /\ q = moved_to m s' p) as (p & [Hp _]%Hall & ->).
  { destruct Hw as (-> & _). induction Hq as [a Ha'|a o b _ (p & Hp & ->) Ho Hb].
    - rewrite refs_rename in Ha' by (intros; apply Hsh; by constructor).
      apply list_elem_of_fmap in Ha' as (p & -> & Hp). exists p. split; [by constructor|done].
    - destruct (Hall _ Hp) as [_ (o' & Ho' & Hm & _)]. assert (o = rename_object (moved_to m s') o') as -> by congruence.
      rewrite object_refs_rename in Hb by (intros; apply Hsh; by eapply reach_on).
      apply list_elem_of_fmap in Hb as (p' & -> & Hp'). exists p'. split; [by eapply reach_on|done]. }
  destruct (seen_moved _ _ _ _ Hi Hp) as (_ & _ & Hr & Hm & _). split; [|done].
  destruct (m !! moved_to m s' p) eqn:E; [|done]. apply (below _ _ Hwf) in E. lia.
Qed.

(** C18: Copying ends on every memory, cyclic or not, and fails exactly when a
    struct with an unexported field or a channel, function or unsafe pointer can
    be reached, with an error that names one. *)
Theorem clone_ends zero v m n : wf_memory m n -> closed m (refs v) ->
  exists r s', cloneValue zero (copy_fuel m v) v m n = Some (r, s') /\
    match r with Ok _ => forall e, ~ offends m v e | Err e => offends m v e end.
Proof.
  intros Hwf Hc. pose proof (copy_begins _ _ Hwf) as Hi0.
  destruct (clone_returns m n Hwf zero (copy_fuel m v) v (MkC m n ∅)) as [[r s'] E]; [done|done| |].
  { unfold copy_fuel, cost, cost_in. cbn. apply Nat.add_le_mono_l. clear. induction (map_to_list m) as [|x l IH]; cbn; [done|].
    rewrite lookup_empty. lia. }
  exists r, s'. split; [done|]. apply (clone_correct _ _ Hwf) in E; [|done..]. destruct r as [w|e]; [|done].
  destruct E as (Hi & Ha & Hw). intros e [He|(p & o & Hp & Ho & He)].
  - destruct Hw as (_ & _ & Hw). rewrite Hw in He. by apply elem_of_nil in He.
  - destruct (all_reached _ _ v w s' p Ha Hw Hp) as [_ (o' & Ho' & _ & _ & Hoff)]. assert (o' = o) as -> by congruence.
    rewrite Hoff in He. by apply elem_of_nil in He.
Qed.
