(* ===== verification/ConfigSchema.v ===== *)
(** * package config: schemas

    NewSchema and ApplySchema of config/schema.go.  Floating point is that of
    Stdlib's SpecFloat, with the precision of float64; parsers of floats,
    durations and JSON, regular expressions, case folding and the functions an
    application gives are arguments.  ApplySchema takes its snapshot and installs
    its defaults under two locks, between which others may change the
    configuration.  What is behind a parsed value is the subject of ConfigClone;
    here a copy of a value of the code's own kinds is that value. *)

From Stdlib Require Import SpecFloat.
From S2P Require Import Prelude.
From S2P Require Import GoStrings.

(** ** Values *)

Definition float := spec_float.
Definition float_of_int (z : Z) : float := binary_normalize 53 1024 z 0 false.
Definition IsNaN (f : float) : bool := match f with S754_nan => true | _ => false end.
Definition IsInf (f : float) : bool := match f with S754_infinity _ => true | _ => false end.
Definition less (x y : float) : bool := SFltb x y.

Inductive ValueKind := StringKind | IntKind | Int64Kind | FloatKind | BoolKind | DurationKind | StringSliceKind | JSONKind
| UnsetKind | OtherKind (name : string).

Inductive json_value :=
| JNull | JBool (b : bool) | JNumber (f : float) | JString (s : string) | JArray (l : list json_value)
| JObject (l : list (string * json_value)).

(** What parseSchemaValue makes; the values of an application's Parser are [V]. *)
Inductive parsed_value {V : Type} :=
| AString (s : string) | AInt (z : Z) | AInt64 (z : Z) | AFloat (f : float) | ABool (b : bool) | ADuration (z : Z)
| AStrings (l : list string) | AJSON (j : json_value) | ACustom (v : V).
Arguments parsed_value : clear implicits.

(** Default any, by the cases of stringifyDefault. *)
Inductive default_value :=
| DString (s : string) | DBytes (s : string) | DStringer (text : string)   (* time.Duration is one *)
| DNil | DOther (encoded : option string).                                 (* json.Marshal *)

(** utf8.DecodeRuneInString: the width of the first rune. *)
Definition continues (lo hi : N) (s : string) : option string :=
  match s with String c s => if in_range lo hi c then Some s else None | EmptyString => None end.

Definition more_runes (s : string) (steps : list (N * N)) : option string :=
  foldl (fun o '(lo, hi) => match o with Some s => continues lo hi s | None => None end) (Some s) steps.

Definition rune_steps (c : ascii) : list (N * N) :=
  let any := (128, 191)%N in
  if in_range 194 223 c then [any]
  else if in_range 224 224 c then [(160, 191)%N; any]
  else if in_range 225 236 c || in_range 238 239 c then [any; any]
  else if in_range 237 237 c then [(128, 159)%N; any]
  else if in_range 240 240 c then [(144, 191)%N; any; any]
  else if in_range 241 243 c then [any; any; any]
  else if in_range 244 244 c then [(128, 143)%N; any; any]
  else [].

(** len([]rune(s)); an invalid byte is a rune of its own. *)
Fixpoint rune_count_fuel (fuel : nat) (s : string) : nat :=
  match fuel, s with
  | S fuel, String c rest =>
      S (rune_count_fuel fuel (match more_runes rest (rune_steps c) with Some s => s | None => rest end))
  | _, _ => 0
  end.
Definition rune_count (s : string) : nat := rune_count_fuel (String.length s) s.

(** ** Fields *)

Section schema.
Context {V : Type}.

Record SchemaField := MkField {
  Key : string;
  Kind : ValueKind;
  Required : bool;
  Default : default_value;
  HasDefault : bool;
  AllowedValues : list string;
  Pattern : string;
  Min : option float;
  Max : option float;
  MinLength : option Z;
  MaxLength : option Z;
  Parser : option (string -> option (parsed_value V));
  Clone : option (parsed_value V -> option (parsed_value V));
  Validate : option (parsed_value V -> option string);      (* the text of an error *)
  Description : string;
  Sensitive : bool;
  compiledPattern : option (string -> bool);
  defaultRaw : string
}.

(** What is wrong with a field; the messages of the code with their arguments. *)
Inductive violation :=
| IsRequired | MustNotBeEmpty | HasInvalidValue (k : ValueKind) | NotOwned
| NotAllowed | PatternMismatch | TooShort (n : Z) | TooLong (n : Z) | NotFinite | TooSmall (m : float) | TooLarge (m : float)
| NotCopied | FailedValidation (text : option string).

Inductive schema_error :=
| ErrNoFields | ErrEmptyKey | ErrDuplicate (k : string) | ErrUnsupportedKind (k : string) | ErrPattern (k : string)
| ErrMinExceedsMax (k : string) | ErrNegativeLength (k : string) | ErrLengths (k : string) | ErrDefault (k : string)
| ErrDefaultOwned (k : string) | ErrDefaultInvalid (k : string) (v : violation) | ErrDefaultEmpty (k : string).

Context (ParseFloat : string -> option float) (ParseDuration : string -> option Z)
  (unmarshal_strings : string -> option (list string)) (unmarshal : string -> option json_value)
  (Compile : string -> option (string -> bool)) (EqualFold : string -> string -> bool) (ToLower : string -> string)
  (clone_custom : V -> option V) (custom_length : V -> option Z).

Definition ParseInt (raw : string) : option Z := match parse_int64 raw with (z, None) => Some z | _ => None end.

Definition parse_bool (raw : string) : option bool :=
  let s := ToLower (trim_space raw) in
  if existsb (String.eqb s) ["true"; "1"; "yes"; "on"]%string then Some true
  else if existsb (String.eqb s) ["false"; "0"; "no"; "off"]%string then Some false
  else None.

Definition split_trimmed (raw : string) : list string :=
  filter (fun x => x <> EmptyString) (trim_space <$> split "," raw).

Definition Millisecond : Z := 1000000.

(** Quotients of Go truncate; a product wraps around. *)
Definition parse_duration (raw : string) : option Z :=
  match ParseDuration raw with
  | Some d => Some d
  | None =>
      match ParseInt raw with
      | Some ms =>
          if (Z.quot max_int64 Millisecond <? ms)%Z || (ms <? Z.quot min_int64 Millisecond)%Z then None
          else Some (wrap64 (ms * Millisecond))
      | None => None
      end
  end.

Definition parseSchemaValue (field : SchemaField) (raw : string) : option (parsed_value V) :=
  match Parser field with
  | Some parse => parse raw
  | None =>
      match Kind field with
      | StringKind => Some (AString raw)
      | IntKind => AInt <$> ParseInt raw
      | Int64Kind => AInt64 <$> ParseInt raw
      | FloatKind =>
          match ParseFloat raw with
          | Some f => if IsNaN f || IsInf f then None else Some (AFloat f)
          | None => None
          end
      | BoolKind => ABool <$> parse_bool raw
      | DurationKind => ADuration <$> parse_duration raw
      | StringSliceKind =>
          if has_prefix "[" (trim_space raw) then AStrings <$> unmarshal_strings raw else Some (AStrings (split_trimmed raw))
      | JSONKind => AJSON <$> unmarshal raw
      | UnsetKind | OtherKind _ => None
      end
  end.

(** cloneReflectValue of a parsed value. *)
Definition reflect_clone (v : parsed_value V) : option (parsed_value V) :=
  match v with ACustom x => ACustom <$> clone_custom x | v => Some v end.

Definition cloneSchemaValue (field : SchemaField) (v : parsed_value V) : option (parsed_value V) :=
  match Clone field with Some cloner => cloner v | None => reflect_clone v end.

Definition numericValue (v : parsed_value V) : option float :=
  match v with
  | AInt z | AInt64 z | ADuration z => Some (float_of_int z)
  | AFloat f | AJSON (JNumber f) => Some f
  | _ => None
  end.

(** -1 where there is no length. *)
Definition valueLength (v : parsed_value V) : Z :=
  match v with
  | AString s | AJSON (JString s) => Z.of_nat (rune_count s)
  | AStrings l => Z.of_nat (length l)
  | AJSON (JArray l) => Z.of_nat (length l)
  | AJSON (JObject l) => Z.of_nat (length l)
  | ACustom x => match custom_length x with Some n => n | None => (-1)%Z end
  | _ => (-1)%Z
  end.

(** The first of the checks in order that fails. *)
Definition orelse (c : option violation) (rest : option violation) : option violation := match c with Some v => Some v | None => rest end.
Definition fails (b : bool) (v : violation) : option violation := if b then Some v else None.

Definition bound_by {A} (bound : option A) (check : A -> option violation) : option violation :=
  match bound with Some b => check b | None => None end.

Definition validateSchemaValue (field : SchemaField) (raw : string) (parsed : parsed_value V) : option violation :=
  orelse (fails (negb (bool_decide (AllowedValues field = [])) && negb (existsb (EqualFold raw) (AllowedValues field))) NotAllowed)
  (orelse (bound_by (compiledPattern field) (fun matches => fails (negb (matches raw)) PatternMismatch))
  (let length := valueLength parsed in
   orelse (bound_by (MinLength field) (fun n => fails ((0 <=? length)%Z && (length <? n)%Z) (TooShort n)))
  (orelse (bound_by (MaxLength field) (fun n => fails ((0 <=? length)%Z && (n <? length)%Z) (TooLong n)))
  (orelse (match numericValue parsed with
           | Some number =>
               orelse (fails (IsNaN number || IsInf number) NotFinite)
               (orelse (bound_by (Min field) (fun m => fails (less number m) (TooSmall m)))
                       (bound_by (Max field) (fun m => fails (less m number) (TooLarge m))))
           | None => None
           end)
  (bound_by (Validate field) (fun validate =>
     match cloneSchemaValue field parsed with
     | None => Some NotCopied
     | Some copy => match validate copy with Some text => Some (FailedValidation (if Sensitive field then None else Some text)) | None => None end
     end)))))).

Definition validKind (k : ValueKind) : bool := match k with UnsetKind | OtherKind _ => false | _ => true end.

Definition stringifyDefault (d : default_value) : option string :=
  match d with DString s | DBytes s | DStringer s => Some s | DNil => Some EmptyString | DOther encoded => encoded end.

Definition with_key (k : string) (kind : ValueKind) (f : SchemaField) : SchemaField :=
  MkField k kind (Required f) (Default f) (HasDefault f) (AllowedValues f) (Pattern f) (Min f) (Max f) (MinLength f) (MaxLength f)
    (Parser f) (Clone f) (Validate f) (Description f) (Sensitive f) (compiledPattern f) (defaultRaw f).
Definition with_pattern (p : option (string -> bool)) (f : SchemaField) : SchemaField :=
  MkField (Key f) (Kind f) (Required f) (Default f) (HasDefault f) (AllowedValues f) (Pattern f) (Min f) (Max f) (MinLength f) (MaxLength f)
    (Parser f) (Clone f) (Validate f) (Description f) (Sensitive f) p (defaultRaw f).
Definition with_default (raw : string) (f : SchemaField) : SchemaField :=
  MkField (Key f) (Kind f) (Required f) (Default f) (HasDefault f) (AllowedValues f) (Pattern f) (Min f) (Max f) (MinLength f) (MaxLength f)
    (Parser f) (Clone f) (Validate f) (Description f) (Sensitive f) (compiledPattern f) raw.

(** ** NewSchema *)

(** The default of a field, once the rest of it was accepted. *)
Definition check_default (field : SchemaField) : result schema_error SchemaField :=
  if HasDefault field then
    match stringifyDefault (Default field) with
    | None => Err (ErrDefault (Key field))
    | Some raw =>
        match parseSchemaValue field raw with
        | None => Err (ErrDefault (Key field))
        | Some parsed =>
            match cloneSchemaValue field parsed with
            | None => Err (ErrDefaultOwned (Key field))
            | Some parsed =>
                match validateSchemaValue field raw parsed with
                | Some v => Err (ErrDefaultInvalid (Key field) v)
                | None =>
                    if Required field && bool_decide (trim_space raw = EmptyString) then Err (ErrDefaultEmpty (Key field))
                    else Ok (with_default raw field)
                end
            end
        end
    end
  else Ok field.

Definition negative (n : option Z) : bool := match n with Some n => (n <? 0)%Z | None => false end.
Definition exceeds {A} (lt : A -> A -> bool) (lo hi : option A) : bool :=
  match lo, hi with Some lo, Some hi => lt hi lo | _, _ => false end.

(** One round of the loop over the fields; pointers and slices are copied, which
    here they are anyway. *)
Definition check_field (seen : gset string) (field : SchemaField) : result schema_error SchemaField :=
  let key := trim_space (Key field) in
  if bool_decide (key = EmptyString) then Err ErrEmptyKey
  else if bool_decide (key ∈ seen) then Err (ErrDuplicate key)
  else
    let field := with_key key (match Kind field with UnsetKind => StringKind | k => k end) field in
    if match Parser field with None => negb (validKind (Kind field)) | Some _ => false end then Err (ErrUnsupportedKind key)
    else
      match (if bool_decide (Pattern field = EmptyString) then Ok field
             else match Compile (Pattern field) with
                  | Some p => Ok (with_pattern (Some p) field)
                  | None => Err (ErrPattern key)
                  end) with
      | Err e => Err e
      | Ok field =>
          if exceeds less (Min field) (Max field) then Err (ErrMinExceedsMax key)
          else if negative (MinLength field) || negative (MaxLength field) then Err (ErrNegativeLength key)
          else if exceeds Z.ltb (MinLength field) (MaxLength field) then Err (ErrLengths key)
          else check_default field
      end.

Fixpoint check_fields (seen : gset string) (fields : list SchemaField) : result schema_error (list SchemaField) :=
  match fields with
  | [] => Ok []
  | field :: fields =>
      match check_field seen field with
      | Err e => Err e
      | Ok field => match check_fields ({[Key field]} ∪ seen) fields with Ok l => Ok (field :: l) | Err e => Err e end
      end
  end.

Record Resolved := MkResolved {
  resolved_values : gmap string (parsed_value V);
  resolved_raw : gmap string string;
  cloners : gmap string (option (parsed_value V -> option (parsed_value V)))
}.

Record Schema := MkSchema { fields : list SchemaField; validate : option (Resolved -> bool); validationMessage : string }.

Definition NewSchema (l : list SchemaField) : result schema_error Schema :=
  match l with
  | [] => Err ErrNoFields
  | l => match check_fields ∅ l with Ok l => Ok (MkSchema l None EmptyString) | Err e => Err e end
  end.

Definition WithValidationMessage (message : string) (validate : Resolved -> bool) (s : Schema) : Schema :=
  let message := trim_space message in
  MkSchema (fields s) (Some validate) (if bool_decide (message = EmptyString) then "cross-field validation failed" else message).

(** ** ApplySchema *)

Inductive apply_error :=
| ValidationError (violations : list (string * violation))   (* key and message *)
| CrossField (message : string)
| KeyChanged (key : string).

(** What the loop has gathered. *)
Record gathered := MkGathered { defaults : gmap string string; resolved : Resolved; violations : list (string * violation) }.

Definition violate (key : string) (v : violation) (g : gathered) : gathered :=
  MkGathered (defaults g) (resolved g) (violations g ++ [(key, v)]).

Definition resolve (field : SchemaField) (raw : string) (v : parsed_value V) (g : gathered) : gathered :=
  MkGathered (defaults g)
    (MkResolved (<[Key field := v]> (resolved_values (resolved g))) (<[Key field := raw]> (resolved_raw (resolved g)))
       (<[Key field := Clone field]> (cloners (resolved g))))
    (violations g).

Definition accept (field : SchemaField) (raw : string) (g : gathered) : gathered :=
  if Required field && bool_decide (trim_space raw = EmptyString) then violate (Key field) MustNotBeEmpty g
  else
    match parseSchemaValue field raw with
    | None => violate (Key field) (HasInvalidValue (Kind field)) g
    | Some parsed =>
        match cloneSchemaValue field parsed with
        | None => violate (Key field) NotOwned g
        | Some parsed =>
            match validateSchemaValue field raw parsed with
            | Some v => violate (Key field) v g
            | None => resolve field raw parsed g
            end
        end
    end.

Definition apply_field (snapshot : gmap string string) (g : gathered) (field : SchemaField) : gathered :=
  match snapshot !! Key field with
  | Some raw => accept field raw g
  | None =>
      if HasDefault field
      then accept field (defaultRaw field)
             (MkGathered (<[Key field := defaultRaw field]> (defaults g)) (resolved g) (violations g))
      else if Required field then violate (Key field) IsRequired g
      else g
  end.

Definition gather (schema : Schema) (snapshot : gmap string string) : gathered :=
  foldl (apply_field snapshot) (MkGathered ∅ (MkResolved ∅ ∅ ∅) []) (fields schema).

(** Under the lock: the first field whose key is not as the snapshot has it. *)
Fixpoint changed (snapshot current : gmap string string) (l : list SchemaField) : option string :=
  match l with
  | [] => None
  | field :: l => if bool_decide (snapshot !! Key field = current !! Key field) then changed snapshot current l else Some (Key field)
  end.

Definition install (defaults current : gmap string string) : gmap string string := current ∪ defaults.

(** [snapshot] is the configuration at the first lock, [current] at the second;
    the result and the configuration afterwards. *)
Definition ApplySchema (schema : Schema) (snapshot current : gmap string string) : result apply_error Resolved * gmap string string :=
  let g := gather schema snapshot in
  if negb (bool_decide (violations g = [])) then (Err (ValidationError (violations g)), current)
  else if match validate schema with Some f => negb (f (resolved g)) | None => false end
       then (Err (CrossField (validationMessage schema)), current)
  else match changed snapshot current (fields schema) with
       | Some key => (Err (KeyChanged key), current)
       | None => (Ok (resolved g), install (defaults g) current)
       end.

(** Value of Resolved: a copy. *)
Definition Value (r : Resolved) (key : string) : option (parsed_value V) :=
  match resolved_values r !! key with
  | Some v => match cloners r !! key with Some (Some cloner) => cloner v | _ => reflect_clone v end
  | None => None
  end.
End schema.
