(* ===== verification/ConfigSchemaProofs.v ===== *)
(** * package config: what a schema guarantees

    A schema that NewSchema accepts never fails on its own defaults; ApplySchema
    resolves each field to what the configuration holds afterwards, changes
    nothing that is there, and leaves everything as it is when it fails. *)

From Stdlib Require Import SpecFloat.
From S2P Require Import Prelude.
From S2P Require Import GoStrings.
From S2P Require Import ConfigSchema.

Section proofs.
Context {V : Type}.
Context (ParseFloat : string -> option float) (ParseDuration : string -> option Z)
  (unmarshal_strings : string -> option (list string)) (unmarshal : string -> option json_value)
  (Compile : string -> option (string -> bool)) (EqualFold : string -> string -> bool) (ToLower : string -> string)
  (clone_custom : V -> option V) (custom_length : V -> option Z).

Local Abbreviation SchemaField := (@SchemaField V).
Local Abbreviation parse := (parseSchemaValue ParseFloat ParseDuration unmarshal_strings unmarshal ToLower).
Local Abbreviation copy := (cloneSchemaValue clone_custom).
Local Abbreviation invalid := (validateSchemaValue EqualFold clone_custom custom_length).
Local Abbreviation NewSchema := (NewSchema ParseFloat ParseDuration unmarshal_strings unmarshal Compile EqualFold ToLower clone_custom custom_length).
Local Abbreviation check_field := (check_field ParseFloat ParseDuration unmarshal_strings unmarshal Compile EqualFold ToLower clone_custom custom_length).
Local Abbreviation check_fields := (check_fields ParseFloat ParseDuration unmarshal_strings unmarshal Compile EqualFold ToLower clone_custom custom_length).
Local Abbreviation apply_field := (apply_field ParseFloat ParseDuration unmarshal_strings unmarshal EqualFold ToLower clone_custom custom_length).
Local Abbreviation gather := (gather ParseFloat ParseDuration unmarshal_strings unmarshal EqualFold ToLower clone_custom custom_length).
Local Abbreviation ApplySchema := (ApplySchema ParseFloat ParseDuration unmarshal_strings unmarshal EqualFold ToLower clone_custom custom_length).

(** ** Fields one by one *)

(** The raw value of a field, its default included. *)
Definition effective (m : gmap string string) (f : SchemaField) : option string :=
  match m !! Key f with Some raw => Some raw | None => if HasDefault f then Some (defaultRaw f) else None end.

(** What a field makes of a raw value. *)
Definition judge (f : SchemaField) (raw : string) : result violation (parsed_value V) :=
  if Required f && bool_decide (trim_space raw = EmptyString) then Err MustNotBeEmpty
  else match parse f raw with
       | None => Err (HasInvalidValue (Kind f))
       | Some parsed =>
           match copy f parsed with
           | None => Err NotOwned
           | Some parsed => match invalid f raw parsed with Some v => Err v | None => Ok parsed end
           end
       end.

Definition verdict (m : gmap string string) (f : SchemaField) : option violation :=
  match effective m f with
  | Some raw => match judge f raw with Err v => Some v | Ok _ => None end
  | None => if Required f then Some IsRequired else None
  end.

Definition outcome (m : gmap string string) (f : SchemaField) : option (string * parsed_value V) :=
  match effective m f with
  | Some raw => match judge f raw with Ok v => Some (raw, v) | Err _ => None end
  | None => None
  end.

Definition new_default (m : gmap string string) (f : SchemaField) : option string :=
  match m !! Key f with Some _ => None | None => if HasDefault f then Some (defaultRaw f) else None end.

Definition put {A} (k : string) (o : option A) (m : gmap string A) : gmap string A :=
  match o with Some x => <[k := x]> m | None => m end.

Lemma apply_field_spec m g f : apply_field m g f =
  MkGathered (put (Key f) (new_default m f) (defaults g))
    (MkResolved (put (Key f) (snd <$> outcome m f) (resolved_values (resolved g)))
       (put (Key f) (fst <$> outcome m f) (resolved_raw (resolved g)))
       (put (Key f) ((fun _ => Clone f) <$> outcome m f) (cloners (resolved g))))
    (violations g ++ match verdict m f with Some v => [(Key f, v)] | None => [] end).
Proof using Type.
  assert (forall raw g, accept ParseFloat ParseDuration unmarshal_strings unmarshal EqualFold ToLower clone_custom custom_length f raw g =
    match judge f raw with Err v => violate (Key f) v g | Ok p => resolve f raw p g end) as Ha.
  { intros raw g'. unfold accept, judge. destruct (_ && _); [done|]. destruct (parse f raw) as [p|]; [|done]. destruct (copy f p) as [p'|]; [|done].
    by destruct (invalid f raw p'). }
  unfold ConfigSchema.apply_field, outcome, verdict, effective, new_default. destruct (m !! Key f) as [raw|].
  - rewrite Ha. destruct (judge f raw); cbn; [by rewrite app_nil_r|by destruct g as [? [] ?]].
  - destruct (HasDefault f).
    + rewrite Ha. destruct (judge f (defaultRaw f)); cbn; [by rewrite app_nil_r|by destruct g as [? [] ?]].
    + destruct (Required f); destruct g as [? [] ?]; cbn; [done|by rewrite app_nil_r].
Qed.

Lemma put_eq {A} k (o : option A) m : put k o m !! k = match o with Some x => Some x | None => m !! k end.
Proof using Type. destruct o; [apply lookup_insert_eq|done]. Qed.
Lemma put_ne {A} k k' (o : option A) m : k <> k' -> put k o m !! k' = m !! k'.
Proof using Type. intros. destruct o; [by apply lookup_insert_ne|done]. Qed.

(** One of the maps that are gathered, by what a field puts in it. *)
Definition gathers {A} (m : gmap string string) (view : gathered -> gmap string A) (part : SchemaField -> option A) : Prop :=
  forall g f, view (apply_field m g f) = put (Key f) (part f) (view g).

Lemma gathers_other {A} m (view : gathered -> gmap string A) part l : gathers m view part ->
  forall g k, k ∉ Key <$> l -> view (foldl (apply_field m) g l) !! k = view g !! k.
Proof using Type.
  intros Hv. induction l as [|f l IH]; intros g k Hk; cbn in *; [done|]. apply not_elem_of_cons in Hk as [Hne Hk].
  rewrite IH by done. rewrite Hv. by apply put_ne.
Qed.

Lemma gathers_field {A} m (view : gathered -> gmap string A) part l : gathers m view part -> NoDup (Key <$> l) ->
  forall g f, f ∈ l -> view g !! Key f = None -> view (foldl (apply_field m) g l) !! Key f = part f.
Proof using Type.
  intros Hv Hnd. induction l as [|f l IH]; intros g h Hh Hn; [by apply elem_of_nil in Hh|]. cbn in *. inversion Hnd as [|? ? Hnot Hnd']; subst.
  apply elem_of_cons in Hh as [->|Hh].
  - rewrite (gathers_other _ view part) by done. rewrite Hv, put_eq, Hn. by destruct (part f).
  - apply IH; [done..|]. rewrite Hv, put_ne; [done|]. intros E. apply Hnot. rewrite E. apply list_elem_of_fmap. eauto.
Qed.

Lemma gather_violations m l : forall g, violations (foldl (apply_field m) g l) =
  violations g ++ flat_map (fun f => match verdict m f with Some v => [(Key f, v)] | None => [] end) l.
Proof using Type.
  induction l as [|f l IH]; intros g; cbn; [by rewrite app_nil_r|]. rewrite IH, apply_field_spec. cbn. by rewrite <- app_assoc.
Qed.

(** ** NewSchema *)

Lemma check_field_ok seen f f' : check_field seen f = Ok f' ->
  Key f' ∉ seen /\ (HasDefault f' = true -> exists v, judge f' (defaultRaw f') = Ok v).
Proof using Type.
  unfold ConfigSchema.check_field. destruct (bool_decide _); [done|]. case_bool_decide as Hs; [done|].
  set (f1 := with_key _ _ f). destruct (match Parser f1 with None => _ | Some _ => _ end); [done|].
  assert (forall f2, Key f2 = trim_space (Key f) ->
    check_default ParseFloat ParseDuration unmarshal_strings unmarshal EqualFold ToLower clone_custom custom_length f2 = Ok f' ->
    Key f' ∉ seen /\ (HasDefault f' = true -> exists v, judge f' (defaultRaw f') = Ok v)) as Hd.
  { intros f2 Hk. unfold check_default. destruct (HasDefault f2) eqn:Eh; [|intros [= <-]; rewrite Hk; split; [done|by rewrite Eh]].
    destruct (stringifyDefault _) as [raw|]; [|done]. destruct (parse f2 raw) as [p|] eqn:Ep; [|done].
    destruct (copy f2 p) as [p'|] eqn:Ec; [|done]. destruct (invalid f2 raw p') eqn:Ei; [done|].
    destruct (Required f2 && _) eqn:Er; [done|]. intros [= <-]. cbn. rewrite Hk. split; [done|]. intros _. exists p'. unfold judge. cbn. rewrite Er.
    change (parse (with_default raw f2) raw) with (parse f2 raw). rewrite Ep. change (copy (with_default raw f2) p) with (copy f2 p). rewrite Ec.
    change (invalid (with_default raw f2) raw p') with (invalid f2 raw p'). by rewrite Ei. }
  destruct (bool_decide (Pattern f1 = EmptyString)).
  - destruct (exceeds less _ _); [done|]. destruct (_ || _); [done|]. destruct (exceeds Z.ltb _ _); [done|]. by apply Hd.
  - destruct (Compile _); [|done]. destruct (exceeds less _ _); [done|]. destruct (_ || _); [done|]. destruct (exceeds Z.ltb _ _); [done|]. by apply Hd.
Qed.

Lemma check_fields_ok l : forall seen l', check_fields seen l = Ok l' -> NoDup (Key <$> l') /\ Forall (fun f => Key f ∉ seen) l' /\
  Forall (fun f => HasDefault f = true -> exists v, judge f (defaultRaw f) = Ok v) l'.
Proof using Type.
  induction l as [|f l IH]; intros seen l' H; cbn in H; [injection H as <-; by repeat constructor|].
  destruct (check_field seen f) as [f'|] eqn:Ef; [|done]. destruct (check_fields _ l) as [l1|] eqn:El; [|done]. injection H as <-.
  apply check_field_ok in Ef as [Hk Hd]. apply IH in El as (Hnd & Hs & Hds). rewrite Forall_forall in Hs. split_and!.
  - cbn. constructor; [|done]. intros (g & Eg & Hg)%list_elem_of_fmap. apply Hs in Hg. set_solver.
  - constructor; [done|]. rewrite Forall_forall. intros g Hg. apply Hs in Hg. set_solver.
  - by constructor.
Qed.

Lemma NewSchema_ok l s : NewSchema l = Ok s -> NoDup (Key <$> fields s) /\
  (forall f, f ∈ fields s -> HasDefault f = true -> exists v, judge f (defaultRaw f) = Ok v).
Proof using Type.
  unfold ConfigSchema.NewSchema. destruct l as [|f l]; [done|]. destruct (check_fields ∅ (f :: l)) as [l'|] eqn:E; [|done].
  intros [= <-]. apply check_fields_ok in E as (Hnd & _ & Hd). by rewrite Forall_forall in Hd.
Qed.

(** ** ApplySchema *)

Lemma gathers_values m : gathers m (fun g => resolved_values (resolved g)) (fun f => snd <$> outcome m f).
Proof using Type. intros g f. by rewrite apply_field_spec. Qed.
Lemma gathers_raw m : gathers m (fun g => resolved_raw (resolved g)) (fun f => fst <$> outcome m f).
Proof using Type. intros g f. by rewrite apply_field_spec. Qed.
Lemma gathers_cloners m : gathers m (fun g => cloners (resolved g)) (fun f => (fun _ => Clone f) <$> outcome m f).
Proof using Type. intros g f. by rewrite apply_field_spec. Qed.
Lemma gathers_defaults m : gathers m defaults (new_default m).
Proof using Type. intros g f. by rewrite apply_field_spec. Qed.

Lemma gather_at {A} (view : gathered -> gmap string A) part s m : gathers m view part -> (forall g, g = MkGathered ∅ (MkResolved ∅ ∅ ∅) [] -> view g = ∅) ->
  NoDup (Key <$> fields s) -> (forall f, f ∈ fields s -> view (gather s m) !! Key f = part f) /\
  (forall k, k ∉ Key <$> fields s -> view (gather s m) !! k = None).
Proof using Type.
  intros Hv H0 Hnd. split; [intros f Hf|intros k Hk]; unfold ConfigSchema.gather.
  - rewrite (gathers_field _ view part _ Hv Hnd) by (done || by rewrite H0, lookup_empty). done.
  - rewrite (gathers_other _ view part _ Hv) by done. by rewrite H0, lookup_empty.
Qed.

Lemma gather_verdicts s m : violations (gather s m) =
  flat_map (fun f => match verdict m f with Some v => [(Key f, v)] | None => [] end) (fields s).
Proof using Type. unfold ConfigSchema.gather. by rewrite gather_violations. Qed.

Lemma no_violation s m f : violations (gather s m) = [] -> f ∈ fields s -> verdict m f = None.
Proof using Type.
  rewrite gather_verdicts. intros H Hf. destruct (verdict m f) as [v|] eqn:E; [|done].
  assert ((Key f, v) ∈ flat_map (fun f => match verdict m f with Some v => [(Key f, v)] | None => [] end) (fields s)) as Hin.
  { apply list_elem_of_In, in_flat_map. exists f. rewrite <- list_elem_of_In, E. split; [done|by left]. }
  rewrite H in Hin. by apply elem_of_nil in Hin.
Qed.

(** A field that raised nothing. *)
Lemma verdict_none m f : verdict m f = None ->
  match effective m f with
  | Some raw => exists v, judge f raw = Ok v /\ outcome m f = Some (raw, v)
  | None => Required f = false /\ outcome m f = None
  end.
Proof using Type.
  unfold verdict, outcome. destruct (effective m f) as [raw|].
  - destruct (judge f raw) as [v|]; [|done]. by exists v.
  - by destruct (Required f).
Qed.

Lemma changed_none m m' (l : list SchemaField) f : changed m m' l = None -> f ∈ l -> m !! Key f = m' !! Key f.
Proof using Type.
  induction l as [|g l IH]; intros H Hf; [by apply elem_of_nil in Hf|]. cbn in H. case_bool_decide as E; [|done].
  apply elem_of_cons in Hf as [->|Hf]; [done|by apply IH].
Qed.

Lemma changed_some m m' (l : list SchemaField) k : changed m m' l = Some k -> exists f, f ∈ l /\ Key f = k /\ m !! k <> m' !! k.
Proof using Type.
  induction l as [|g l IH]; intros H; [done|]. cbn in H. case_bool_decide as E.
  - destruct (IH H) as (f & Hf & ?). exists f. split; [by right|done].
  - injection H as <-. exists g. split; [by left|done].
Qed.

Lemma installed s snap cur f : NoDup (Key <$> fields s) -> changed snap cur (fields s) = None -> f ∈ fields s ->
  install (defaults (gather s snap)) cur !! Key f = effective snap f.
Proof using Type.
  intros Hnd Hc Hf. destruct (gather_at defaults (new_default snap) s snap (gathers_defaults snap) ltac:(by intros ? ->) Hnd) as [Hd _].
  unfold install. rewrite lookup_union, (Hd _ Hf). pose proof (changed_none _ _ _ _ Hc Hf) as E. unfold new_default, effective. rewrite E.
  destruct (cur !! Key f); [by destruct (HasDefault f)|]. by destruct (HasDefault f).
Qed.

Lemma applied s snap cur r cfg : ApplySchema s snap cur = (Ok r, cfg) ->
  violations (gather s snap) = [] /\ match validate s with Some f => negb (f (resolved (gather s snap))) | None => false end = false /\
  changed snap cur (fields s) = None /\ r = resolved (gather s snap) /\ cfg = install (defaults (gather s snap)) cur.
Proof using Type.
  unfold ConfigSchema.ApplySchema. destruct (bool_decide (violations (gather s snap) = [])) eqn:Ev; cbn [negb]; [|done].
  apply bool_decide_eq_true in Ev. destruct (match validate s with Some _ => _ | None => _ end); [done|].
  destruct (changed snap cur (fields s)); [done|]. by intros [= <- <-].
Qed.

Lemma applied_field s snap cur r cfg f : NoDup (Key <$> fields s) -> ApplySchema s snap cur = (Ok r, cfg) -> f ∈ fields s ->
  resolved_raw r !! Key f = cfg !! Key f /\
  match cfg !! Key f with
  | Some raw => exists v, judge f raw = Ok v /\ resolved_values r !! Key f = Some v
  | None => Required f = false /\ resolved_values r !! Key f = None
  end.
Proof using Type.
  intros Hnd (Ev & _ & Ec & -> & ->)%applied Hf.
  destruct (gather_at _ _ s snap (gathers_values snap) ltac:(by intros ? ->) Hnd) as [Hv _].
  destruct (gather_at _ _ s snap (gathers_raw snap) ltac:(by intros ? ->) Hnd) as [Hr _].
  rewrite (installed _ _ _ _ Hnd Ec Hf), (Hr _ Hf), (Hv _ Hf).
  pose proof (verdict_none _ _ (no_violation _ _ _ Ev Hf)) as Hout. destruct (effective snap f) as [raw|].
  - destruct Hout as (v & Hj & ->). split; [done|]. by exists v.
  - by destruct Hout as [? ->].
Qed.

(** C19: When ApplySchema succeeds, whatever changed meanwhile, the configuration
    has kept every key it had and gained only defaults of absent fields, and each
    field is resolved to what the configuration now holds for it, parsed, copied
    and within its constraints; a field without a value is not required. *)
Theorem ApplySchema_resolves l s0 s snap cur r cfg : NewSchema l = Ok s0 -> fields s = fields s0 -> ApplySchema s snap cur = (Ok r, cfg) ->
  (forall k v, cur !! k = Some v -> cfg !! k = Some v) /\
  (forall k v, cfg !! k = Some v -> cur !! k = None ->
     exists f, f ∈ fields s /\ Key f = k /\ HasDefault f = true /\ v = defaultRaw f) /\
  (forall f, f ∈ fields s -> resolved_raw r !! Key f = cfg !! Key f /\
     match cfg !! Key f with
     | Some raw => exists v, judge f raw = Ok v /\ resolved_values r !! Key f = Some v
     | None => Required f = false /\ resolved_values r !! Key f = None
     end).
Proof using Type.
  intros [Hnd _]%NewSchema_ok Es H. rewrite <- Es in Hnd.
  split_and!; [| |intros f; by eapply applied_field]; apply applied in H as (_ & _ & _ & _ & ->).
  - intros k v Hk. unfold install. by apply lookup_union_Some_l.
  - destruct (gather_at _ _ s snap (gathers_defaults snap) ltac:(by intros ? ->) Hnd) as [Hd Hd'].
    intros k v Hk Hn. unfold install in Hk. rewrite lookup_union, Hn, left_id_L in Hk; [|apply _].
    destruct (decide (k ∈ Key <$> fields s)) as [(f & -> & Hf)%list_elem_of_fmap|Hk']; [|by rewrite Hd' in Hk].
    rewrite Hd in Hk by done. exists f. unfold new_default in Hk. destruct (snap !! Key f); [done|]. destruct (HasDefault f); [|done].
    by injection Hk as <-.
Qed.

(** C20: When ApplySchema fails the configuration is as it was, and the error says
    why: what is wrong with each field, in their order and nothing else, or that
    the fields together are refused, or a key of the schema that changed since it
    looked. *)
Theorem ApplySchema_fails_safely s snap cur e cfg : ApplySchema s snap cur = (Err e, cfg) ->
  cfg = cur /\
  match e with
  | ValidationError vs => vs <> [] /\ vs = flat_map (fun f => match verdict snap f with Some v => [(Key f, v)] | None => [] end) (fields s)
  | CrossField message => message = validationMessage s /\ (forall f, f ∈ fields s -> verdict snap f = None)
  | KeyChanged k => (forall f, f ∈ fields s -> verdict snap f = None) /\ exists f, f ∈ fields s /\ Key f = k /\ snap !! k <> cur !! k
  end.
Proof using Type.
  unfold ConfigSchema.ApplySchema. destruct (bool_decide (violations (gather s snap) = [])) eqn:Ev; cbn [negb].
  - apply bool_decide_eq_true in Ev. destruct (match validate s with Some _ => _ | None => _ end).
    + intros [= <- <-]. split; [done|]. split; [done|]. intros f. by apply no_violation.
    + destruct (changed snap cur (fields s)) as [k|] eqn:Ec; intros [= <- <-]. split; [done|]. split; [intros f; by apply no_violation|].
      by apply changed_some in Ec.
  - apply bool_decide_eq_false in Ev. intros [= <- <-]. split; [done|]. split; [done|]. apply gather_verdicts.
Qed.

(** A default that NewSchema accepted is accepted by ApplySchema: a field the
    configuration does not set never fails when it has a default. *)
Theorem defaults_never_fail l s snap f : NewSchema l = Ok s -> f ∈ fields s -> HasDefault f = true -> snap !! Key f = None ->
  verdict snap f = None.
Proof using Type.
  intros [_ Hd]%NewSchema_ok Hf Hh Hn. destruct (Hd _ Hf Hh) as [v Hv]. unfold verdict, effective. by rewrite Hn, Hh, Hv.
Qed.

Lemma resolved_eq (r r' : @Resolved V) : (forall k, resolved_values r !! k = resolved_values r' !! k) ->
  (forall k, resolved_raw r !! k = resolved_raw r' !! k) -> (forall k, cloners r !! k = cloners r' !! k) -> r = r'.
Proof using Type. destruct r, r'; cbn. intros. f_equal; by apply map_eq. Qed.

Lemma same_effect m m' f : effective m f = effective m' f -> verdict m f = verdict m' f /\ outcome m f = outcome m' f.
Proof using Type. intros E. unfold verdict, outcome. by rewrite E. Qed.

(** What is resolved depends on the raw values alone. *)
Lemma gather_same s m m' : NoDup (Key <$> fields s) -> (forall f, f ∈ fields s -> effective m f = effective m' f) ->
  resolved (gather s m) = resolved (gather s m').
Proof using Type.
  intros Hnd Heff.
  assert (forall A (view : gathered -> gmap string A) part, (forall m, gathers m view (part m)) ->
    (forall g, g = MkGathered ∅ (MkResolved ∅ ∅ ∅) [] -> view g = ∅) -> (forall f, f ∈ fields s -> part m f = part m' f) ->
    forall k, view (gather s m) !! k = view (gather s m') !! k) as Hview.
  { intros A view part Hg H0 Hp k. destruct (gather_at view (part m) s m (Hg m) H0 Hnd) as [H1 H2].
    destruct (gather_at view (part m') s m' (Hg m') H0 Hnd) as [H3 H4].
    destruct (decide (k ∈ Key <$> fields s)) as [(f & -> & Hf)%list_elem_of_fmap|Hk]; [by rewrite H1, H3, Hp|by rewrite H2, H4]. }
  apply resolved_eq.
  - apply (Hview _ (fun g => resolved_values (resolved g)) (fun m f => snd <$> outcome m f)); [apply gathers_values|by intros ? ->|].
    intros f Hf. by rewrite (proj2 (same_effect _ _ _ (Heff _ Hf))).
  - apply (Hview _ (fun g => resolved_raw (resolved g)) (fun m f => fst <$> outcome m f)); [apply gathers_raw|by intros ? ->|].
    intros f Hf. by rewrite (proj2 (same_effect _ _ _ (Heff _ Hf))).
  - apply (Hview _ (fun g => cloners (resolved g)) (fun m f => (fun _ => Clone f) <$> outcome m f)); [apply gathers_cloners|by intros ? ->|].
    intros f Hf. by rewrite (proj2 (same_effect _ _ _ (Heff _ Hf))).
Qed.

Lemma no_violations s m : (forall f, f ∈ fields s -> verdict m f = None) -> violations (gather s m) = [].
Proof using Type.
  rewrite gather_verdicts. induction (fields s) as [|f fs IH]; cbn; intros H; [done|]. rewrite H by by left. apply IH. intros g Hg. apply H. by right.
Qed.

Lemma changed_refl m (l : list SchemaField) : changed m m l = None.
Proof using Type. induction l as [|f l IH]; cbn; [done|]. by rewrite bool_decide_eq_true_2. Qed.

(** Applying the same schema to the configuration it left gives the same
    values and changes nothing more. *)
Theorem ApplySchema_idempotent l s0 s snap cur r cfg : NewSchema l = Ok s0 -> fields s = fields s0 -> ApplySchema s snap cur = (Ok r, cfg) ->
  ApplySchema s cfg cfg = (Ok r, cfg).
Proof using Type.
  intros [Hnd _]%NewSchema_ok Es (Ev & Ex & Ec & -> & ->)%applied. rewrite <- Es in Hnd. unfold ConfigSchema.ApplySchema.
  set (cfg := install _ _).
  assert (forall f, f ∈ fields s -> cfg !! Key f = effective snap f) as Hcfg by (intros f; by apply installed).
  assert (forall f, f ∈ fields s -> effective cfg f = effective snap f) as Heff.
  { intros f Hf. unfold effective at 1. rewrite Hcfg by done. unfold effective. destruct (snap !! Key f); [done|]. by destruct (HasDefault f). }
  assert (violations (gather s cfg) = []) as ->.
  { apply no_violations. intros f Hf. rewrite (proj1 (same_effect _ _ _ (Heff _ Hf))). by apply (no_violation s). }
  rewrite bool_decide_eq_true_2 by done. cbn [negb]. rewrite (gather_same _ _ _ Hnd Heff), Ex, changed_refl. f_equal.
  destruct (gather_at _ _ s cfg (gathers_defaults cfg) ltac:(by intros ? ->) Hnd) as [Hd Hd'].
  apply map_eq. intros k. unfold install at 1. rewrite lookup_union. destruct (cfg !! k) eqn:E; [by rewrite union_Some_l|].
  rewrite left_id_L by apply _. destruct (decide (k ∈ Key <$> fields s)) as [(f & -> & Hf)%list_elem_of_fmap|Hk]; [|by apply Hd'].
  rewrite Hd by done. unfold new_default. rewrite E. destruct (HasDefault f) eqn:Eh; [|done].
  rewrite Hcfg in E by done. unfold effective in E. rewrite Eh in E. by destruct (snap !! Key f).
Qed.

(** ** Durations *)

(** A plain number of milliseconds is taken as a duration exactly when the
    nanoseconds fit 64 bits, and then without wrapping around. *)
Theorem duration_exact raw : ParseDuration raw = None ->
  parse_duration ParseDuration raw =
    match ParseInt raw with
    | Some ms => if bool_decide (min_int64 <= ms * Millisecond <= max_int64)%Z then Some (ms * Millisecond)%Z else None
    | None => None
    end.
Proof using Type.
  intros H. unfold parse_duration. rewrite H. destruct (ParseInt raw) as [ms|]; [|done].
  change (Z.quot max_int64 Millisecond) with 9223372036854%Z. change (Z.quot min_int64 Millisecond) with (-9223372036854)%Z.
  unfold Millisecond, min_int64, max_int64, wrap64. case_bool_decide as E.
  - assert ((9223372036854 <? ms)%Z || (ms <? -9223372036854)%Z = false) as -> by (apply orb_false_iff; split; apply Z.ltb_ge; lia).
    f_equal. rewrite Z.mod_small; lia.
  - assert ((9223372036854 <? ms)%Z || (ms <? -9223372036854)%Z = true) as ->; [|done].
    apply orb_true_iff. rewrite !Z.ltb_lt. lia.
Qed.

(** ** Constraints *)

(** What the constraints of a field say of a value. *)
Record within (f : SchemaField) (raw : string) (v : parsed_value V) : Prop := {
  one_of : AllowedValues f <> [] -> exists a, a ∈ AllowedValues f /\ EqualFold raw a = true;
  matches : forall p, compiledPattern f = Some p -> p raw = true;
  long_enough : forall n, MinLength f = Some n -> (0 <= valueLength custom_length v)%Z -> (n <= valueLength custom_length v)%Z;
  short_enough : forall n, MaxLength f = Some n -> (0 <= valueLength custom_length v)%Z -> (valueLength custom_length v <= n)%Z;
  finite : forall x, numericValue v = Some x -> IsNaN x = false /\ IsInf x = false;
  at_least : forall x m, numericValue v = Some x -> Min f = Some m -> less x m = false;
  at_most : forall x m, numericValue v = Some x -> Max f = Some m -> less m x = false;
  application : forall valid, Validate f = Some valid -> exists c, copy f v = Some c /\ valid c = None
}.

Lemma orelse_none a b : orelse a b = None -> a = None /\ b = None.
Proof using Type. by destruct a. Qed.
Lemma fails_none b v : fails b v = None -> b = false.
Proof using Type. by destruct b. Qed.

Lemma valid_within f raw v : invalid f raw v = None -> within f raw v.
Proof using Type.
  unfold validateSchemaValue. intros [H1 [H2 [H3 [H4 [H5 H6]%orelse_none]%orelse_none]%orelse_none]%orelse_none]%orelse_none.
  apply fails_none in H1. split.
  - intros Hne. rewrite bool_decide_eq_false_2 in H1 by done. cbn in H1. apply negb_false_iff, existsb_exists in H1 as (a & Ha & Hf).
    exists a. by rewrite list_elem_of_In.
  - intros p Hp. rewrite Hp in H2. by apply fails_none, negb_false_iff in H2.
  - intros n Hn. rewrite Hn in H3. apply fails_none in H3. lia.
  - intros n Hn. rewrite Hn in H4. apply fails_none in H4. lia.
  - intros x Hx. rewrite Hx in H5. apply orelse_none in H5 as [H5 _]. by apply fails_none, orb_false_iff in H5.
  - intros x m Hx Hm. rewrite Hx in H5. apply orelse_none in H5 as [_ [H5 _]%orelse_none]. rewrite Hm in H5. by apply fails_none in H5.
  - intros x m Hx Hm. rewrite Hx in H5. apply orelse_none in H5 as [_ [_ H5]%orelse_none]. rewrite Hm in H5. by apply fails_none in H5.
  - intros valid Hv. rewrite Hv in H6. cbn in H6. destruct (copy f v) as [c|]; [|done]. exists c. split; [done|]. by destruct (valid c).
Qed.

(** C21: Every resolved value lies within all constraints of its field, and is a
    copy of what its parser made of the raw value. *)
Theorem resolved_within l s0 s snap cur r cfg f v : NewSchema l = Ok s0 -> fields s = fields s0 -> ApplySchema s snap cur = (Ok r, cfg) ->
  f ∈ fields s -> resolved_values r !! Key f = Some v ->
  exists raw p, cfg !! Key f = Some raw /\ parse f raw = Some p /\ copy f p = Some v /\ within f raw v /\
    (Required f = true -> trim_space raw <> EmptyString).
Proof using Type.
  intros [Hnd _]%NewSchema_ok Es H Hf Hv. rewrite <- Es in Hnd. destruct (applied_field _ _ _ _ _ _ Hnd H Hf) as [_ Hx].
  destruct (cfg !! Key f) as [raw|]; [|destruct Hx as [_ Hx]; congruence]. destruct Hx as (v' & Hj & Hv'). assert (v' = v) as -> by congruence.
  exists raw. unfold judge in Hj. destruct (Required f && _) eqn:Er; [done|]. destruct (parse f raw) as [p|]; [|done].
  destruct (copy f p) as [p'|] eqn:Ec; [|done]. destruct (invalid f raw p') eqn:Ei; [done|]. injection Hj as <-.
  exists p. split_and!; [done..|by apply valid_within|]. intros Hr. rewrite Hr in Er. by apply bool_decide_eq_false in Er.
Qed.
End proofs.
