(* ===== verification/Config.v ===== *)
(** * package config: loading and reading

    config/config.go and config/env.go: dotenv files, the environment, JSON and
    YAML files with the precedence of Load and of LoadStrict, typed getters and
    Validate.  The environment of the process is a state that loading a dotenv
    file changes.  Parsers of JSON, of full YAML and of strict dotenv files, of
    floats and durations, mapping to upper and lower case and folding, and the
    text of numbers and of values that are no scalars are arguments; maps are
    visited in the order of their lists. *)

From Stdlib Require Import SpecFloat.
From S2P Require Import Prelude.
From S2P Require Import GoStrings.
From S2P Require Import ConfigSchema.

(** ** Lines *)

Definition max_token : nat := 65536.                        (* bufio.MaxScanTokenSize *)

Definition drop_cr (s : string) : string := trim_suffix (String "013" EmptyString) s.

(** bufio.ScanLines: an end of line belongs to the line before it; a line that
    does not fit the buffer ends the scan with an error. *)
Fixpoint scan_pieces (l : list string) : list string * bool :=
  match l with
  | [] => ([], true)
  | [last] => if bool_decide (last = EmptyString) then ([], true)
              else if max_token <=? String.length last then ([], false) else ([drop_cr last], true)
  | line :: l =>
      if max_token <=? String.length line then ([], false)
      else let '(lines, ok) := scan_pieces l in (drop_cr line :: lines, ok)
  end.
Definition newline : string := String "010" EmptyString.
Definition scan_lines (content : string) : list string * bool := scan_pieces (split newline content).

(** A text between two quotes of one kind, without them. *)
Definition quoted (q : string) (s : string) : bool :=
  (2 <=? String.length s) && has_prefix q s && has_suffix q s.
Definition unquote (s : string) : string :=
  if quoted (String "034" EmptyString) s || quoted "'" s then str_take (String.length s - 2) (str_drop 1 s) else s.

(** ** Environment *)

Abbreviation environment := (gmap string string).

Definition nul : string := String "000" EmptyString.

(** os.Setenv; [None] for its error. *)
Definition Setenv (key value : string) (env : environment) : option environment :=
  if bool_decide (key = EmptyString) || contains "=" key || contains nul key || contains nul value then None
  else Some (<[key := value]> env).

Definition Getenv (key : string) (env : environment) : string := default EmptyString (env !! key).
Definition Environ (env : environment) : list string := (fun '(k, v) => k +:+ "=" +:+ v) <$> map_to_list env.

Definition parseDotenvLine (line : string) : option (string * string) :=
  match cut "=" line with
  | None => None
  | Some (before, after) =>
      let key := trim_space before in
      let value := trim_space after in
      if bool_decide (key = EmptyString) then None
      else Some (if has_prefix "export " key then trim_space (trim_prefix "export " key) else key, unquote value)
  end.

Definition dotenv_line (env : environment) (text : string) : environment :=
  let line := trim_space text in
  if bool_decide (line = EmptyString) || has_prefix "#" line then env
  else match parseDotenvLine line with
       | None => env
       | Some (key, value) =>
           if bool_decide (Getenv key env = EmptyString) then default env (Setenv key value env) else env
       end.

(** The result of the scan is not looked at. *)
Definition loadDotenvLegacy (content : option string) (env : environment) : environment :=
  match content with
  | None => env
  | Some content => foldl dotenv_line env (scan_lines content).1
  end.

(** The values godotenv.Read gave, as they are visited. *)
Fixpoint loadDotenv (values : list (string * string)) (env : environment) : bool * environment :=
  match values with
  | [] => (true, env)
  | (key, value) :: values =>
      match env !! key with
      | Some _ => loadDotenv values env
      | None => match Setenv key value env with Some env => loadDotenv values env | None => (false, env) end
      end
  end.

(** ** Config *)

Record Config := MkConfig { values : gmap string string; envKeys : gset string; strict : bool }.

Definition New : Config := MkConfig ∅ ∅ false.

Definition load_env_entry (c : Config) (env : string) : Config :=
  match cut "=" env with
  | None => c
  | Some (key, value) => MkConfig (<[key := value]> (values c)) ({[key]} ∪ envKeys c) (strict c)
  end.
Definition loadEnvVars (environ : list string) (c : Config) : Config := foldl load_env_entry c environ.

Definition applyLegacyFileValues (l : gmap string string) (c : Config) : Config := MkConfig (values c ∪ l) (envKeys c) (strict c).
Definition applyFileValues (l : gmap string string) (c : Config) : Config :=
  MkConfig (filter (fun x => x.1 ∉ envKeys c) l ∪ values c) (envKeys c) (strict c).

(** Trees of a configuration file; [NOther] is what falls to the default case. *)
Inductive node {O : Type} := NMap (l : list (string * node)) | NString (s : string) | NNumber (f : float) | NBool (b : bool) | NNil | NOther (x : O).
Arguments node : clear implicits.

Section load.
Context {O : Type}.
Context (ToUpper ToLower : string -> string) (format_number : float -> string)
  (encode print : O -> string)              (* the default cases of flattenMap and flattenMapLegacy *)
  (unmarshal_object : string -> option (list (string * node O)))      (* json.Unmarshal into a map *)
  (unmarshal_yaml : string -> option (list (string * node O))).       (* yaml.Unmarshal into a map *)

Definition full_key (prefix k : string) : string :=
  if bool_decide (prefix = EmptyString) then ToUpper k else prefix +:+ "_" +:+ ToUpper k.

(** flattenMap and flattenMapLegacy differ in the text of what is no scalar. *)
Section flatten.
Context (other : O -> string).

Definition scalar (n : node O) : string :=
  match n with
  | NMap _ => EmptyString
  | NString s => s
  | NNumber f => format_number f
  | NBool b => if b then "true" else "false"
  | NNil => EmptyString
  | NOther x => other x
  end.

Fixpoint flatten_node (key : string) (n : node O) (result : gmap string string) : gmap string string :=
  match n with
  | NMap l => foldl (fun (r : gmap string string) x => flatten_node (full_key key x.1) x.2 r) ∅ l ∪ result
  | n => <[key := scalar n]> result
  end.

Definition flatten (prefix : string) (l : list (string * node O)) : gmap string string :=
  foldl (fun r x => flatten_node (full_key prefix x.1) x.2 r) ∅ l.
End flatten.

Definition flattenMap := flatten encode.
Definition flattenMapLegacy := flatten print.

(** ** YAML of Load: keys, and keys within a section *)

Record yaml_state := MkYaml { result_of : list (string * node O); currentSection : string }.

Definition put_node (key : string) (n : node O) (l : list (string * node O)) : list (string * node O) :=
  if existsb (fun x => String.eqb x.1 key) l then map (fun x => if String.eqb x.1 key then (key, n) else x) l else l ++ [(key, n)].

Definition node_at (key : string) (l : list (string * node O)) : option (node O) :=
  snd <$> List.find (fun x => String.eqb x.1 key) l.

Definition section_of (key : string) (l : list (string * node O)) : list (string * node O) :=
  match node_at key l with Some (NMap m) => m | _ => [] end.

Definition yaml_blank (c : ascii) : bool := bool_decide (c = " "%char) || bool_decide (c = "009"%char).

Definition yaml_line (st : yaml_state) (line : string) : yaml_state :=
  let trimmed := trim_space line in
  if bool_decide (trimmed = EmptyString) || has_prefix "#" trimmed then st
  else
    let indent := String.length (span yaml_blank line).1 in
    match cut ":" trimmed with
    | None => st
    | Some (before, after) =>
        let key := trim_space before in
        let value := trim_space after in
        if bool_decide (indent = 0) then
          if bool_decide (value = EmptyString) then
            MkYaml (match node_at key (result_of st) with Some _ => result_of st | None => put_node key (NMap []) (result_of st) end) key
          else MkYaml (put_node key (NString (unquote value)) (result_of st)) EmptyString
        else if bool_decide (currentSection st = EmptyString) then st
        else
          let section := section_of (currentSection st) (result_of st) in
          MkYaml (put_node (currentSection st) (NMap (put_node key (NString (unquote value)) section)) (result_of st)) (currentSection st)
    end.

Definition loadYAMLLegacy (data : string) (c : Config) : bool * Config :=
  let '(lines, ok) := scan_lines data in
  let st := foldl yaml_line (MkYaml [] EmptyString) lines in
  (ok, applyLegacyFileValues (flattenMapLegacy EmptyString (result_of st)) c).

Definition loadJSONLegacy (data : string) (c : Config) : bool * Config :=
  match unmarshal_object data with
  | None => (false, c)
  | Some raw => (true, applyLegacyFileValues (flattenMapLegacy EmptyString raw) c)
  end.

Definition loadJSONStrict (data : string) (c : Config) : bool * Config :=
  match unmarshal_object data with
  | None => (false, c)
  | Some raw => (true, applyFileValues (flattenMap EmptyString raw) c)
  end.

Definition loadYAMLStrict (data : string) (c : Config) : bool * Config :=
  match unmarshal_yaml data with
  | None => (false, c)
  | Some raw => (true, applyFileValues (flattenMap EmptyString raw) c)
  end.

(** ** Load and LoadStrict *)

(** A file: its extension (filepath.Ext) and what os.ReadFile gives. *)
Record file := MkFile { extension : string; contents : option string }.

Definition load_file (json yaml : string -> Config -> bool * Config) (f : file) (c : Config) : bool * Config :=
  match contents f with
  | None => (false, c)
  | Some data =>
      let ext := ToLower (extension f) in
      if String.eqb ext ".json" then json data c
      else if String.eqb ext ".yaml" || String.eqb ext ".yml" then yaml data c
      else (false, c)
  end.
Definition loadFileLegacy := load_file loadJSONLegacy loadYAMLLegacy.
Definition loadFileStrict := load_file loadJSONStrict loadYAMLStrict.

Fixpoint load_files (load : file -> Config -> bool * Config) (l : list file) (c : Config) : option Config :=
  match l with
  | [] => Some c
  | f :: l => match load f c with (true, c) => load_files load l c | (false, _) => None end
  end.

(** [dotenv] is the file it names, if it can be read; [None] for an error, and the
    environment afterwards. *)
Definition Load (dotenv : option string) (files : list file) (env : environment) : option Config * environment :=
  let env := loadDotenvLegacy dotenv env in
  (load_files loadFileLegacy files (loadEnvVars (Environ env) New), env).

Inductive dotenv_read := DotenvMissing | DotenvFailed | DotenvValues (l : list (string * string)).

Definition LoadStrict (dotenv : dotenv_read) (files : list file) (env : environment) : option Config * environment :=
  let '(ok, env) := match dotenv with
                    | DotenvMissing => (true, env)
                    | DotenvFailed => (false, env)
                    | DotenvValues l => loadDotenv l env
                    end in
  if ok then (load_files loadFileStrict files (loadEnvVars (Environ env) (MkConfig ∅ ∅ true)), env) else (None, env).

(** ** Getters *)

Context (ParseFloat : string -> option float) (ParseDuration : string -> option Z)
  (unmarshal_strings : string -> option (list string)) (EqualFold : string -> string -> bool).

(** A value that is there and not empty. *)
Definition set_value (key : string) (c : Config) : option string :=
  match values c !! key with Some v => if bool_decide (v = EmptyString) then None else Some v | None => None end.

Definition GetString (key defaultValue : string) (c : Config) : string := default defaultValue (set_value key c).

Definition GetInt64 (key : string) (defaultValue : Z) (c : Config) : Z :=
  match set_value key c with Some v => default defaultValue (ParseInt v) | None => defaultValue end.
Definition GetInt := GetInt64.                                (* int has 64 bits *)

Definition GetBool (key : string) (defaultValue : bool) (c : Config) : bool :=
  match set_value key c with Some v => default defaultValue (parse_bool ToLower v) | None => defaultValue end.

Definition GetFloat (key : string) (defaultValue : float) (c : Config) : float :=
  match set_value key c with Some v => default defaultValue (ParseFloat v) | None => defaultValue end.

Definition GetDuration (key : string) (defaultValue : Z) (c : Config) : Z :=
  match set_value key c with
  | Some v =>
      match ParseDuration v with
      | Some d => d
      | None => match ParseInt v with Some ms => wrap64 (ms * Millisecond) | None => defaultValue end
      end
  | None => defaultValue
  end.

Definition GetStringSlice (key : string) (defaultValue : list string) (c : Config) : list string :=
  match set_value key c with
  | Some v =>
      match (if strict c && has_prefix "[" (trim_space v) then unmarshal_strings v else None) with
      | Some l => l
      | None => match split_trimmed v with [] => defaultValue | l => l end
      end
  | None => defaultValue
  end.

Definition Set_ (key value : string) (c : Config) : Config := MkConfig (<[key := value]> (values c)) (envKeys c) (strict c).
Definition SetAll (m : gmap string string) (c : Config) : Config := MkConfig (m ∪ values c) (envKeys c) (strict c).
Definition Has (key : string) (c : Config) : bool := bool_decide (is_Some (values c !! key)).
Definition Raw (key : string) (c : Config) : option string := values c !! key.
Definition Keys (c : Config) : list string := (map_to_list (values c)).*1.

(** ** Validate *)

Record ValidationRule := MkRule { rule_Key : string; rule_Required : bool; rule_AllowedValues : list string; rule_Description : string }.

Inductive rule_error := MissingOrEmpty (key description : string) | NotOneOf (key value : string) (allowed : list string).

Definition check_rule (c : Config) (r : ValidationRule) : list rule_error :=
  let value := default EmptyString (values c !! rule_Key r) in
  let exists_ := Has (rule_Key r) c in
  if rule_Required r && (negb exists_ || bool_decide (trim_space value = EmptyString))
  then [MissingOrEmpty (rule_Key r) (rule_Description r)]
  else if negb (bool_decide (rule_AllowedValues r = [])) && exists_ && negb (bool_decide (value = EmptyString)) &&
          negb (existsb (EqualFold value) (rule_AllowedValues r))
  then [NotOneOf (rule_Key r) value (rule_AllowedValues r)]
  else [].

Definition Validate (rules : list ValidationRule) (c : Config) : list rule_error := flat_map (check_rule c) rules.

Definition DefaultValidationRules : list ValidationRule :=
  [MkRule "SERVICE_NAME" true [] "service name for logging and tracing";
   MkRule "SERVICE_NAME_CODE" false [] "short code for error prefixes";
   MkRule "NODE_ENV" false ["development"; "staging"; "production"]%string "runtime environment";
   MkRule "SERVER_TYPE" false [] "platform, application, partner, etc.";
   MkRule "LOG_LEVEL" false ["debug"; "info"; "warn"; "error"; "fatal"; "silly"]%string "logging verbosity"].

(** ** env.go *)

(** GetDeploymentName: up to the first "dply", or else the first "cron". *)
Definition GetDeploymentName (podName : string) : string :=
  match cut "dply" podName with
  | Some (a, _) => a +:+ "dply"
  | None => match cut "cron" podName with Some (a, _) => a +:+ "cron" | None => EmptyString end
  end.

Definition GetAppNameForDBOptions (env : environment) : string :=
  let deploymentName := GetDeploymentName (Getenv "K8S_POD_NAME" env) in
  let deploymentName := if bool_decide (deploymentName = EmptyString) then Getenv "SERVICE_NAME" env else deploymentName in
  let namespace := Getenv "K8S_POD_NAMESPACE" env in
  let namespace := if String.eqb namespace "default" then EmptyString else namespace in
  if bool_decide (deploymentName = EmptyString) then EmptyString
  else if bool_decide (namespace = EmptyString) then deploymentName
  else namespace +:+ "-" +:+ deploymentName.

Definition LookupEnvBool (key : string) (defaultValue : bool) (env : environment) : bool :=
  default defaultValue (parse_bool ToLower (Getenv key env)).

Definition LookupEnvString (key defaultValue : string) (env : environment) : string :=
  let v := Getenv key env in if bool_decide (v = EmptyString) then defaultValue else v.

Definition LookupEnvStringSlice (key : string) (defaultValue : list string) (env : environment) : list string :=
  let v := Getenv key env in
  if bool_decide (v = EmptyString) then defaultValue
  else match split_trimmed v with [] => defaultValue | l => l end.

Definition EnvConnectionPrefix (dbType serviceName connectionType : string) : string :=
  ToUpper dbType +:+ "_" +:+ ToUpper serviceName +:+ "_" +:+ ToUpper connectionType +:+ "_".
End load.
