(* ===== verification/ConfigProofs.v ===== *)
(** * package config: precedence and reading

    Where the value of a key comes from after Load and after LoadStrict, what a
    nested file flattens to, and what the getters make of what Set stored. *)

From Stdlib Require Import SpecFloat.
From S2P Require Import Prelude.
From S2P Require Import GoStrings.
From S2P Require Import ConfigSchema.
From S2P Require Import Config.

(** ** The environment *)

(** Keys as os.Setenv takes them. *)
Definition plain_key (k : string) : bool := str_forallb (fun x => negb (Ascii.eqb x "=")) k.
Definition env_ok (env : environment) : Prop := forall k v, env !! k = Some v -> plain_key k = true.

Lemma contains_byte c s : contains (String c EmptyString) s = false -> str_forallb (fun x => negb (Ascii.eqb x c)) s = true.
Proof.
  induction s as [|d s IH]; cbn; [done|]. rewrite andb_true_r, Ascii.eqb_sym. intros [H1 H2]%orb_false_iff. rewrite H1. cbn. by apply IH.
Qed.

Lemma Setenv_some key value env env' : Setenv key value env = Some env' -> plain_key key = true /\ env' = <[key := value]> env.
Proof.
  unfold Setenv. destruct (_ || _) eqn:E; [done|]. intros [= <-]. split; [|done]. repeat apply orb_false_iff in E as [E ?]. by apply contains_byte.
Qed.

Lemma Setenv_ok key value env env' : env_ok env -> Setenv key value env = Some env' -> env_ok env'.
Proof.
  intros H [Hk ->]%Setenv_some k v. destruct (decide (key = k)) as [->|]; [done|]. rewrite lookup_insert_ne by done. by apply H.
Qed.

Lemma load_entries l c : Forall (fun x => plain_key x.1 = true) l -> NoDup l.*1 ->
  loadEnvVars ((fun '(k, v) => k +:+ "=" +:+ v) <$> l) c =
  MkConfig (list_to_map l ∪ values c) (list_to_set l.*1 ∪ envKeys c) (strict c).
Proof.
  revert c. induction l as [|[k v] l IH]; intros c Hk Hnd; cbn in *.
  { destruct c; cbn. by rewrite !left_id_L by apply _. }
  inversion Hk as [|? ? Hk1 Hk2]; subst. inversion Hnd as [|? ? Hn Hnd']; subst.
  unfold load_env_entry at 2. change (k +:+ "=" +:+ v) with (k +:+ String "=" v). rewrite cut_byte by done.
  unfold loadEnvVars in IH. rewrite IH by done. cbn. f_equal; [|set_solver].
  rewrite <- insert_union_l, insert_union_r; [done|]. by apply not_elem_of_list_to_map_1.
Qed.

Lemma environ_loaded env b : env_ok env -> loadEnvVars (Environ env) (MkConfig ∅ ∅ b) = MkConfig env (dom env) b.
Proof.
  intros H. unfold Environ. rewrite load_entries; cbn.
  - rewrite list_to_map_to_list, !right_id_L by apply _. f_equal. apply set_eq. intros k. rewrite elem_of_list_to_set, elem_of_dom.
    rewrite list_elem_of_fmap. split.
    + intros ([k' v] & -> & Hx%elem_of_map_to_list). by exists v.
    + intros [v Hv]. exists (k, v). split; [done|]. by apply elem_of_map_to_list.
  - rewrite Forall_forall. intros [k v] Hx%elem_of_map_to_list. by eapply H.
  - apply NoDup_fst_map_to_list.
Qed.

(** A dotenv file. *)
Lemma dotenv_line_keeps env line k v : env !! k = Some v -> v <> EmptyString -> dotenv_line env line !! k = Some v.
Proof.
  intros Hk Hv. unfold dotenv_line. destruct (_ || _); [done|]. destruct (parseDotenvLine _) as [[key value]|]; [|done].
  case_bool_decide as E; [|done]. destruct (Setenv key value env) as [env'|] eqn:Es; [|done]. apply Setenv_some in Es as [_ ->]. cbn.
  rewrite lookup_insert_ne; [done|]. intros ->. unfold Getenv in E. by rewrite Hk in E.
Qed.

Lemma dotenv_line_ok env line : env_ok env -> env_ok (dotenv_line env line).
Proof.
  intros H. unfold dotenv_line. destruct (_ || _); [done|]. destruct (parseDotenvLine _) as [[key value]|]; [|done].
  case_bool_decide; [|done]. destruct (Setenv key value env) eqn:Es; [|done]. by eapply Setenv_ok.
Qed.

Lemma loadDotenvLegacy_keeps content env : env_ok env ->
  env_ok (loadDotenvLegacy content env) /\ (forall k v, env !! k = Some v -> v <> EmptyString -> loadDotenvLegacy content env !! k = Some v).
Proof.
  destruct content as [content|]; [|done]. cbn. generalize (scan_lines content).1. intros l. revert env.
  induction l as [|line l IH]; intros env H; [done|]. cbn. destruct (IH (dotenv_line env line) (dotenv_line_ok _ _ H)) as [H1 H2].
  split; [done|]. intros k v Hk Hv. apply H2; [by apply dotenv_line_keeps|done].
Qed.

Lemma loadDotenv_keeps l env ok env' : env_ok env -> loadDotenv l env = (ok, env') ->
  env_ok env' /\ (forall k v, env !! k = Some v -> env' !! k = Some v).
Proof.
  revert env. induction l as [|[key value] l IH]; intros env H E; cbn in E; [by injection E as <- <-|].
  destruct (env !! key) eqn:Ek; [by apply IH|]. destruct (Setenv key value env) as [env1|] eqn:Es; [|by injection E as <- <-].
  destruct (IH env1) as [H1 H2]; [by eapply Setenv_ok|done|]. split; [done|]. intros k v Hk. apply H2.
  apply Setenv_some in Es as [_ ->]. rewrite lookup_insert_ne; [done|congruence].
Qed.

(** ** Precedence *)

Section load.
Context {O : Type}.
Context (ToUpper ToLower : string -> string) (format_number : float -> string) (encode print : O -> string)
  (unmarshal_object unmarshal_yaml : string -> option (list (string * node O))).

Local Abbreviation Load := (Load ToUpper ToLower format_number print unmarshal_object).
Local Abbreviation LoadStrict := (LoadStrict ToUpper ToLower format_number encode unmarshal_object unmarshal_yaml).
Local Abbreviation loadFileLegacy := (loadFileLegacy ToUpper ToLower format_number print unmarshal_object).
Local Abbreviation loadFileStrict := (loadFileStrict ToUpper ToLower format_number encode unmarshal_object unmarshal_yaml).
Local Abbreviation flattenMap := (flattenMap ToUpper format_number encode).
Local Abbreviation flattenMapLegacy := (flattenMapLegacy ToUpper format_number print).

(** What a file defines for Load, and for LoadStrict. *)
Definition legacy_values (f : file) : option (gmap string string) :=
  match contents f with
  | None => None
  | Some data =>
      let ext := ToLower (extension f) in
      if String.eqb ext ".json" then flattenMapLegacy EmptyString <$> unmarshal_object data
      else if String.eqb ext ".yaml" || String.eqb ext ".yml" then
        if (scan_lines data).2 then Some (flattenMapLegacy EmptyString (result_of (foldl yaml_line (MkYaml [] EmptyString) (scan_lines data).1))) else None
      else None
  end.

Definition strict_values (f : file) : option (gmap string string) :=
  match contents f with
  | None => None
  | Some data =>
      let ext := ToLower (extension f) in
      if String.eqb ext ".json" then flattenMap EmptyString <$> unmarshal_object data
      else if String.eqb ext ".yaml" || String.eqb ext ".yml" then flattenMap EmptyString <$> unmarshal_yaml data
      else None
  end.

Lemma loadFileLegacy_spec f c : match legacy_values f with
  | Some m => loadFileLegacy f c = (true, applyLegacyFileValues m c) | None => (loadFileLegacy f c).1 = false end.
Proof using Type.
  unfold Config.loadFileLegacy, load_file, legacy_values. destruct (contents f) as [data|]; [|done].
  destruct (String.eqb _ ".json"); [unfold loadJSONLegacy; by destruct (unmarshal_object data)|]. destruct (_ || _); [|done].
  unfold loadYAMLLegacy. by destruct (scan_lines data) as [lines []].
Qed.

Lemma loadFileStrict_spec f c : match strict_values f with
  | Some m => loadFileStrict f c = (true, applyFileValues m c) | None => (loadFileStrict f c).1 = false end.
Proof using Type.
  unfold Config.loadFileStrict, load_file, strict_values. destruct (contents f) as [data|]; [|done].
  destruct (String.eqb _ ".json"); [unfold loadJSONStrict; by destruct (unmarshal_object data)|]. destruct (_ || _); [|done].
  unfold loadYAMLStrict. by destruct (unmarshal_yaml data).
Qed.

(** The first, and the last, of some files that define a key. *)
Fixpoint first_defining (k : string) (l : list (gmap string string)) : option string :=
  match l with [] => None | m :: l => match m !! k with Some v => Some v | None => first_defining k l end end.
Definition last_defining (k : string) (l : list (gmap string string)) : option string := first_defining k (rev l).

Lemma first_defining_app k l l' : first_defining k (l ++ l') = match first_defining k l with Some v => Some v | None => first_defining k l' end.
Proof using Type. induction l as [|m l IH]; cbn; [done|]. by destruct (m !! k). Qed.

Lemma load_files_legacy l : forall c c', load_files loadFileLegacy l c = Some c' ->
  exists ms, mapM legacy_values l = Some ms /\ envKeys c' = envKeys c /\
    forall k, values c' !! k = match values c !! k with Some v => Some v | None => first_defining k ms end.
Proof using Type.
  induction l as [|f l IH]; intros c c' H; cbn in H.
  { injection H as <-. exists []. split_and!; [done|done|]. intros k. by destruct (values c !! k). }
  pose proof (loadFileLegacy_spec f c) as Hf. cbn. destruct (legacy_values f) as [m|]; [|by destruct (loadFileLegacy f c) as [[] ?]].
  rewrite Hf in H. apply IH in H as (ms & Hms & He & Hv). exists (m :: ms). cbn. rewrite Hms. split_and!; [done|done|].
  intros k. rewrite Hv. cbn. rewrite lookup_union. destruct (values c !! k), (m !! k); done.
Qed.

Lemma load_files_strict l : forall c c', load_files loadFileStrict l c = Some c' ->
  exists ms, mapM strict_values l = Some ms /\ envKeys c' = envKeys c /\
    forall k, values c' !! k = if bool_decide (k ∈ envKeys c) then values c !! k
                             else match last_defining k ms with Some v => Some v | None => values c !! k end.
Proof using Type.
  induction l as [|f l IH]; intros c c' H; cbn in H.
  { injection H as <-. exists []. split_and!; [done|done|]. intros k. cbn. by case_bool_decide. }
  pose proof (loadFileStrict_spec f c) as Hf. cbn. destruct (strict_values f) as [m|]; [|by destruct (loadFileStrict f c) as [[] ?]].
  rewrite Hf in H. apply IH in H as (ms & Hms & He & Hv). exists (m :: ms). cbn. rewrite Hms. split_and!; [done|done|].
  intros k. rewrite Hv. cbn. rewrite lookup_union. unfold last_defining. cbn. rewrite first_defining_app. cbn.
  case_bool_decide as Hk.
  - rewrite (proj2 (map_lookup_filter_None _ _ _)) by (right; intros ? ? H'; by apply H'). by rewrite left_id_L by apply _.
  - destruct (first_defining k (rev ms)); [done|]. rewrite map_lookup_filter. destruct (m !! k) as [v|]; cbn.
    + case_guard; [|done]. by destruct (values c !! k).
    + by rewrite left_id_L by apply _.
Qed.

(** After Load a key has the value of the environment if it is there, and
    otherwise that of the first file defining it; the dotenv file has only added
    to the environment, or replaced empty values. *)
Theorem Load_precedence dotenv files env c env' : env_ok env -> Load dotenv files env = (Some c, env') ->
  (forall k v, env !! k = Some v -> v <> EmptyString -> env' !! k = Some v) /\
  exists ms, mapM legacy_values files = Some ms /\
    forall k, values c !! k = match env' !! k with Some v => Some v | None => first_defining k ms end.
Proof using Type.
  unfold Config.Load. intros Henv [= Hc <-]. destruct (loadDotenvLegacy_keeps dotenv env Henv) as [Hok Hkeep]. split; [done|].
  unfold New in Hc. rewrite environ_loaded in Hc by done. apply load_files_legacy in Hc as (ms & Hms & _ & Hv). by exists ms.
Qed.

(** C22: After LoadStrict a key has the value of the environment if it is there,
    empty or not, and otherwise that of the last file defining it; the dotenv file
    has changed nothing that was in the environment. *)
Theorem LoadStrict_precedence dotenv files env c env' : env_ok env -> LoadStrict dotenv files env = (Some c, env') ->
  (forall k v, env !! k = Some v -> env' !! k = Some v) /\
  exists ms, mapM strict_values files = Some ms /\
    forall k, values c !! k = match env' !! k with Some v => Some v | None => last_defining k ms end.
Proof using Type.
  unfold Config.LoadStrict. intros Henv H.
  destruct (match dotenv with DotenvMissing => _ | DotenvFailed => _ | DotenvValues l => _ end) as [ok env1] eqn:Ed.
  destruct ok; [|done]. injection H as Hc <-.
  assert (env_ok env1 /\ forall k v, env !! k = Some v -> env1 !! k = Some v) as [Hok Hkeep].
  { destruct dotenv as [| |l]; [by injection Ed as <-|done|by eapply loadDotenv_keeps]. }
  split; [done|]. rewrite environ_loaded in Hc by done. apply load_files_strict in Hc as (ms & Hms & _ & Hv). exists ms. split; [done|].
  intros k. rewrite Hv. cbn. case_bool_decide as Hk.
  - apply elem_of_dom in Hk as [v ->]. done.
  - apply not_elem_of_dom in Hk as ->. by destruct (last_defining k ms).
Qed.
End load.

(** ** Flattening *)

Section flattening.
Context {O : Type} (ToUpper : string -> string) (format_number : float -> string) (other : O -> string).
Local Abbreviation full_key := (full_key ToUpper).
Local Abbreviation flatten_node := (flatten_node ToUpper format_number other).
Local Abbreviation flatten := (flatten ToUpper format_number other).

(** The scalars of a tree with their full keys. *)
Fixpoint leaves (key : string) (n : node O) : list (string * string) :=
  match n with
  | NMap l => flat_map (fun x => leaves (full_key key x.1) x.2) l
  | n => [(key, scalar format_number other n)]
  end.
Definition all_leaves (prefix : string) (l : list (string * node O)) : list (string * string) :=
  flat_map (fun x => leaves (full_key prefix x.1) x.2) l.

Lemma node_ind' (P : node O -> Prop) : (forall l, Forall (fun x => P x.2) l -> P (NMap l)) -> (forall s, P (NString s)) ->
  (forall f, P (NNumber f)) -> (forall b, P (NBool b)) -> P NNil -> (forall x, P (NOther x)) -> forall n, P n.
Proof using Type.
  intros Hm Hs Hf Hb Hn Ho. fix IH 1. intros [l|s|f|b| |x]; [|by auto..]. apply Hm.
  exact ((fix go l : Forall (fun x => P x.2) l := match l with [] => Forall_nil_2 _ | x :: l => Forall_cons_2 _ _ _ (IH x.2) (go l) end) l).
Qed.

(** The last of several values of a key stands. *)
Definition from_leaves (l : list (string * string)) (r : gmap string string) : gmap string string := foldl (fun r x => <[x.1 := x.2]> r) r l.

Lemma from_leaves_union l r : from_leaves l r = from_leaves l ∅ ∪ r.
Proof using Type.
  revert r. induction l as [|[k v] l IH]; intros r; [by rewrite left_id_L by apply _|]. cbn.
  change (from_leaves l (<[k := v]> r) = from_leaves l (<[k := v]> ∅) ∪ r). rewrite IH, (IH (<[k := v]> ∅)).
  by rewrite <- (assoc_L (∪)), <- insert_union_l, (left_id_L ∅ (∪)).
Qed.

Lemma from_leaves_app l l' r : from_leaves (l ++ l') r = from_leaves l' (from_leaves l r).
Proof using Type. apply foldl_app. Qed.

Lemma flatten_node_leaves n : forall key r, flatten_node key n r = from_leaves (leaves key n) r.
Proof using Type.
  induction n as [l IH|s|f|b| |x] using node_ind'; intros key r; try done. cbn [Config.flatten_node leaves].
  rewrite from_leaves_union. f_equal. generalize (∅ : gmap string string). clear r. induction IH as [|x l Hx _ IHl]; intros r; cbn [foldl flat_map]; [done|].
  by rewrite IHl, Hx, from_leaves_app.
Qed.

Lemma flatten_leaves prefix l : flatten prefix l = from_leaves (all_leaves prefix l) ∅.
Proof using Type.
  unfold Config.flatten, all_leaves. generalize (∅ : gmap string string). induction l as [|x l IH]; intros r; cbn [foldl flat_map]; [done|].
  by rewrite IH, flatten_node_leaves, from_leaves_app.
Qed.

Lemma from_leaves_map l r : NoDup l.*1 -> from_leaves l r = list_to_map l ∪ r.
Proof using Type.
  revert r. induction l as [|[k v] l IH]; intros r H; cbn in *; [by rewrite (left_id_L ∅ (∪))|]. inversion H as [|? ? Hn Hnd]; subst.
  change (from_leaves l (<[k := v]> r) = <[k := v]> (list_to_map l) ∪ r). rewrite IH by done.
  rewrite <- insert_union_l, insert_union_r; [done|]. by apply not_elem_of_list_to_map_1.
Qed.
End flattening.

(** When no two scalars of a tree have the same full key, flattening it gives
    each its value and nothing else, so that the order in which maps are visited
    does not show. *)
Theorem flatten_exact {O} ToUpper format_number (other : O -> string) prefix l : NoDup (all_leaves ToUpper format_number other prefix l).*1 ->
  (forall k v, flatten ToUpper format_number other prefix l !! k = Some v <-> (k, v) ∈ all_leaves ToUpper format_number other prefix l) /\
  (forall l', all_leaves ToUpper format_number other prefix l' ≡ₚ all_leaves ToUpper format_number other prefix l ->
     flatten ToUpper format_number other prefix l' = flatten ToUpper format_number other prefix l).
Proof.
  intros H. split.
  - intros k v. rewrite flatten_leaves, from_leaves_map, (right_id_L ∅ (∪)) by done. symmetry. by apply elem_of_list_to_map.
  - intros l' Hl. rewrite !flatten_leaves, !from_leaves_map; [|done|by rewrite Hl]. f_equal. apply list_to_map_proper; [by rewrite Hl|done].
Qed.

(** ** Getters *)

Lemma ParseInt_format z : (min_int64 <= z <= max_int64)%Z -> ParseInt (format_int z) = Some z.
Proof.
  intros Hz. unfold ParseInt. destruct (Z.le_gt_cases 0 z).
  - rewrite parse_int64_format by lia. done.
  - destruct z as [|p|p]; [lia..|]. cbn. rewrite digits_value_format. unfold min_int64 in Hz.
    destruct (Z.of_N (N.pos p) <=? 2 ^ 63)%Z eqn:E; [done|]. apply Z.leb_gt in E. lia.
Qed.

Lemma format_int_nonempty z : format_int z <> EmptyString.
Proof. unfold format_int. destruct z; [by apply format_N_nonempty..|done]. Qed.

(** Whatever number of 64 bits is printed and set, GetInt gives it back,
    whatever the default. *)
Theorem GetInt_Set key z d c : (min_int64 <= z <= max_int64)%Z -> GetInt key d (Set_ key (format_int z) c) = z.
Proof.
  intros Hz. unfold GetInt, GetInt64, set_value, Set_. cbn. rewrite lookup_insert_eq, bool_decide_eq_false_2 by apply format_int_nonempty.
  by rewrite ParseInt_format.
Qed.

(** GetDuration multiplies without looking: a number of milliseconds that does
    not fit comes out as another duration, which a schema refuses. *)
Example duration_wraps : let c := Set_ "T" "9223372036855" New in
  GetDuration (fun _ => None) "T" 0 c = (-9223372036854551616)%Z /\ parse_duration (fun _ => None) "9223372036855" = None.
Proof. vm_compute. done. Qed.
