(* ===== verification/ConfigWitness.v ===== *)
(** * package config: concrete runs

    The premises of the theorems of the configuration hold of a memory with a
    cycle, of a small schema, and of a process with a dotenv file and two
    configuration files. *)

From Stdlib Require Import SpecFloat.
From S2P Require Import Prelude.
From S2P Require Import GoStrings.
From S2P Require Import ConfigClone.
From S2P Require Import ConfigCloneProofs.
From S2P Require Import ConfigSchema.
From S2P Require Import ConfigSchemaProofs.
From S2P Require Import Config.
From S2P Require Import ConfigProofs.

(** ** A cycle *)

(** A node that points to itself, with a slice that a map shares. *)
Definition node_value : value :=
  VStruct "Node" [("Next", true, VPointer "*Node" (Some 0)); ("Tags", true, VSlice "[]string" (Some (1, 1)))].
Definition cycle_memory : memory :=
  <[PPointer "*Node" 0 := OCell node_value]> (<[PSlice "[]string" 1 1 := OElems [VPlain "string" "x"]]>
    (<[PMap "map[string][]string" 2 := OMap [(VPlain "string" "k", VSlice "[]string" (Some (1, 1))); (VPlain "string" "l", VSlice "[]string" None)]]> ∅)).
Definition cycle_value : value :=
  VArray "[2]any" [VInterface "any" (Some (VPointer "*Node" (Some 0))); VInterface "any" (Some (VMap "map[string][]string" (Some 2)))].
Definition zeros (t : typ) : value := VInvalid.

Lemma cycle_wf : wf_memory cycle_memory 3.
Proof.
  split; intros p o H; unfold cycle_memory in H; repeat (apply lookup_insert_Some in H as [[<- <-]|[_ H]]); try (by apply lookup_empty_Some in H).
  all: cbn; try lia; try done; repeat (apply Forall_cons; split); try apply Forall_nil; try (by eexists); repeat constructor.
Qed.

Lemma cycle_closed : closed cycle_memory (refs cycle_value).
Proof. repeat (apply Forall_cons; split); try apply Forall_nil; by eexists. Qed.

Definition cycle_fuel : nat := copy_fuel cycle_memory cycle_value.
Definition cycle_copy : value :=
  VArray "[2]any" [VInterface "any" (Some (VPointer "*Node" (Some 3))); VInterface "any" (Some (VMap "map[string][]string" (Some 5)))].

Definition cycle_run : option (result clone_error value * cstate) := cloneValue zeros cycle_fuel cycle_value cycle_memory 3.

(** The slice is copied once, for the node and for the map. *)
Example cycle_result : match cycle_run with
  | Some (Ok w, s) => w = cycle_copy /\ next s = 6 /\
      mem s !! PPointer "*Node" 3 = Some (OCell (VStruct "Node" [("Next", true, VPointer "*Node" (Some 3)); ("Tags", true, VSlice "[]string" (Some (4, 1)))])) /\
      mem s !! PMap "map[string][]string" 5 =
        Some (OMap [(VPlain "string" "k", VSlice "[]string" (Some (4, 1))); (VPlain "string" "l", VSlice "[]string" None)])
  | _ => False
  end.
Proof. vm_compute. done. Qed.

Definition cycle_after : cstate := match cycle_run with Some (_, s) => s | None => MkC ∅ 0 ∅ end.

Lemma cycle_ran : cloneValue zeros cycle_fuel cycle_value cycle_memory 3 = Some (Ok cycle_copy, cycle_after).
Proof.
  assert (match cycle_run with Some (Ok w, _) => w = cycle_copy | _ => False end) as H by (vm_compute; reflexivity).
  change (cycle_run = Some (Ok cycle_copy, cycle_after)). unfold cycle_after. destruct cycle_run as [[[w|e] s]|]; [by subst|done..].
Qed.

Lemma clone_is_isomorphic_witness : cycle_memory ⊆ mem cycle_after /\ exists f, cycle_copy = rename f cycle_value /\
  (forall p q, reach cycle_memory (refs cycle_value) p -> reach cycle_memory (refs cycle_value) q -> f p = f q -> p = q) /\
  (forall p, reach cycle_memory (refs cycle_value) p -> same_shape p (f p) /\ cycle_memory !! f p = None /\
     exists o, cycle_memory !! p = Some o /\ mem cycle_after !! f p = Some (rename_object f o)).
Proof. apply (clone_is_isomorphic zeros cycle_fuel cycle_value cycle_memory 3); [apply cycle_wf|apply cycle_closed|apply cycle_ran]. Defined.

Lemma clone_shares_nothing_witness : cycle_memory !! PPointer "*Node" 3 = None /\ is_Some (mem cycle_after !! PPointer "*Node" 3).
Proof.
  apply (clone_shares_nothing zeros cycle_fuel cycle_value cycle_memory 3 cycle_copy); [apply cycle_wf|apply cycle_closed|apply cycle_ran|].
  apply reach_here. by left.
Defined.

Lemma clone_ends_witness : exists r s', cloneValue zeros (copy_fuel cycle_memory cycle_value) cycle_value cycle_memory 3 = Some (r, s') /\
  match r with Ok _ => forall e, ~ offends cycle_memory cycle_value e | Err e => offends cycle_memory cycle_value e end.
Proof. apply (clone_ends zeros cycle_value cycle_memory 3); [apply cycle_wf|apply cycle_closed]. Defined.

(** ** A schema *)

Definition port : @SchemaField unit :=
  MkField " PORT" IntKind true (DOther (Some "8080")) true [] EmptyString (Some (float_of_int 1)) (Some (float_of_int 65535)) None None
    None None None "the port" false None EmptyString.
Definition mode : @SchemaField unit :=
  MkField "MODE" UnsetKind false DNil false ["dev"; "prod"] EmptyString None None (Some 1%Z) (Some 4%Z)
    None None None EmptyString false None EmptyString.

Definition no_float : string -> option float := fun _ => None.
Definition no_int : string -> option Z := fun _ => None.
Definition no_strings : string -> option (list string) := fun _ => None.
Definition no_json : string -> option json_value := fun _ => None.
Definition no_pattern : string -> option (string -> bool) := fun _ => None.
Definition same (s : string) : string := s.
Definition own (u : unit) : option unit := Some u.
Definition no_length (u : unit) : option Z := None.

Definition small_result := NewSchema no_float no_int no_strings no_json no_pattern String.eqb same own no_length [port; mode].
Definition small_schema : @Schema unit := match small_result with Ok s => s | Err _ => MkSchema [] None EmptyString end.
Definition apply_small (snap cur : gmap string string) := ApplySchema no_float no_int no_strings no_json String.eqb same own no_length small_schema snap cur.

Definition small_snap : gmap string string := {["MODE" := "dev"]}.
Definition small_cur : gmap string string := <["OTHER" := "x"]> small_snap.
Definition small_cfg : gmap string string := <["PORT" := "8080"]> small_cur.
Definition small_resolved : @Resolved unit :=
  MkResolved (<["PORT" := AInt 8080]> {["MODE" := AString "dev"]}) (<["PORT" := "8080"]> {["MODE" := "dev"]}) (<["PORT" := None]> {["MODE" := None]}).

Lemma small_ok : NewSchema no_float no_int no_strings no_json no_pattern String.eqb same own no_length [port; mode] = Ok small_schema.
Proof.
  assert (is_ok small_result = true) as H by (vm_compute; reflexivity). change (small_result = Ok small_schema). unfold small_schema.
  by destruct small_result.
Qed.

Lemma small_applied : ApplySchema no_float no_int no_strings no_json String.eqb same own no_length small_schema small_snap small_cur = (Ok small_resolved, small_cfg).
Proof. vm_compute. done. Qed.

Definition small_port : @SchemaField unit := match fields small_schema with f :: _ => f | [] => port end.

Lemma ApplySchema_resolves_witness : (forall k v, small_cur !! k = Some v -> small_cfg !! k = Some v) /\
  exists v, judge no_float no_int no_strings no_json String.eqb same own no_length small_port "8080" = Ok v /\ resolved_values small_resolved !! "PORT" = Some v.
Proof.
  destruct (ApplySchema_resolves no_float no_int no_strings no_json no_pattern String.eqb same own no_length [port; mode] small_schema small_schema
    small_snap small_cur small_resolved small_cfg small_ok eq_refl small_applied) as (H1 & _ & H3).
  split; [exact H1|]. destruct (H3 small_port) as [_ H]; [by left|]. exact H.
Defined.

Lemma ApplySchema_idempotent_witness :
  ApplySchema no_float no_int no_strings no_json String.eqb same own no_length small_schema small_cfg small_cfg = (Ok small_resolved, small_cfg).
Proof.
  apply (ApplySchema_idempotent no_float no_int no_strings no_json no_pattern String.eqb same own no_length [port; mode] small_schema small_schema small_snap small_cur);
    [apply small_ok|done|apply small_applied].
Defined.

Lemma defaults_never_fail_witness : verdict no_float no_int no_strings no_json String.eqb same own no_length small_snap small_port = None.
Proof.
  apply (defaults_never_fail no_float no_int no_strings no_json no_pattern String.eqb same own no_length [port; mode] small_schema);
    [apply small_ok|by left|done|done].
Defined.

Lemma resolved_within_witness : exists raw p, small_cfg !! "PORT" = Some raw /\
  parseSchemaValue no_float no_int no_strings no_json same small_port raw = Some p /\ cloneSchemaValue own small_port p = Some (AInt 8080) /\
  within String.eqb own no_length small_port raw (AInt 8080) /\ (Required small_port = true -> trim_space raw <> EmptyString).
Proof.
  apply (resolved_within no_float no_int no_strings no_json no_pattern String.eqb same own no_length [port; mode] small_schema small_schema small_snap small_cur
    small_resolved small_cfg small_port); [apply small_ok|done|apply small_applied|by left|done].
Defined.

(** A port that is too large and a mode that is not one of two; a key that
    changes between the locks. *)
Definition bad_snap : gmap string string := <["PORT" := "70000"]> {["MODE" := "test"]}.

Lemma ApplySchema_fails_safely_witness :
  [("PORT", TooLarge (float_of_int 65535)); ("MODE", NotAllowed)] =
  flat_map (fun f => match verdict no_float no_int no_strings no_json String.eqb same own no_length bad_snap f with Some v => [(Key f, v)] | None => [] end) (fields small_schema).
Proof.
  destruct (ApplySchema_fails_safely no_float no_int no_strings no_json String.eqb same own no_length small_schema bad_snap bad_snap
    (ValidationError [("PORT", TooLarge (float_of_int 65535)); ("MODE", NotAllowed)]) bad_snap) as (_ & _ & H); [vm_compute; reflexivity|].
  exact H.
Defined.

Example key_changed : (apply_small small_snap (<["MODE" := "prod"]> small_snap)).1 = Err (KeyChanged "MODE").
Proof. vm_compute. done. Qed.

Lemma duration_exact_witness : no_int "9223372036855" = None /\ parse_duration no_int "9223372036855" = None /\ parse_duration no_int "-1500" = Some (-1500000000)%Z.
Proof.
  split; [done|]. split.
  - rewrite (duration_exact no_int "9223372036855"); [vm_compute; done|done].
  - rewrite (duration_exact no_int "-1500"); [vm_compute; done|done].
Defined.

(** ** Loading *)

Definition dotenv_text : string := "# local" +:+ newline +:+ "export NAME = 'shop'" +:+ newline +:+ "HOME=/tmp" +:+ newline.
Definition demo_env : environment := <["HOME" := "/root"]> {["EMPTY" := EmptyString]}.
Definition demo_yaml : string := "db:" +:+ newline +:+ "  host: local" +:+ newline +:+ "port: 80" +:+ newline.
Definition demo_json : string -> option (list (string * node unit)) := fun _ => Some [("port", NString "81"); ("mode", NString "dev"); ("home", NNil)].
Definition up (s : string) : string := str_map upper_byte s.
Definition demo_files : list file := [MkFile ".yml" (Some demo_yaml); MkFile ".json" (Some "{}")].
Definition demo_number (f : float) : string := EmptyString.
Definition demo_other (u : unit) : string := EmptyString.

Definition demo_load := Load up same demo_number demo_other demo_json (Some dotenv_text) demo_files demo_env.
Definition demo_strict := LoadStrict up same demo_number demo_other demo_json demo_json (DotenvValues [("NAME", "shop"); ("HOME", "/tmp")]) demo_files demo_env.

Definition demo_config : Config := default New demo_load.1.
Definition demo_strict_config : Config := default New demo_strict.1.

Example demo_values : (fun k => values demo_config !! k) <$> ["NAME"; "HOME"; "EMPTY"; "DB_HOST"; "PORT"; "MODE"]%string =
  [Some "shop"; Some "/root"; Some EmptyString; Some "local"; Some "80"; Some "dev"]%string.
Proof. vm_compute. reflexivity. Qed.
Example demo_strict_values : (fun k => values demo_strict_config !! k) <$> ["NAME"; "HOME"; "EMPTY"; "PORT"; "MODE"]%string =
  [Some "shop"; Some "/root"; Some EmptyString; Some "81"; Some "dev"]%string.
Proof. vm_compute. reflexivity. Qed.

Lemma demo_env_ok : env_ok demo_env.
Proof. intros k v H. unfold demo_env in H. apply lookup_insert_Some in H as [[<- <-]|[_ H]]; [done|]. by apply lookup_singleton_Some in H as [<- <-]. Qed.

Lemma Load_precedence_witness : exists ms : list (gmap string string), mapM (legacy_values up same demo_number demo_other demo_json) demo_files = Some ms /\
  forall k, values demo_config !! k = match demo_load.2 !! k with Some v => Some v | None => first_defining k ms end.
Proof.
  apply (Load_precedence up same demo_number demo_other demo_json (Some dotenv_text) demo_files demo_env demo_config demo_load.2); [apply demo_env_ok|].
  assert (is_Some demo_load.1) as [c Hc] by (vm_compute; by eexists). change (demo_load = (Some demo_config, demo_load.2)). unfold demo_config.
  rewrite Hc. destruct demo_load. cbn in *. by rewrite Hc.
Defined.

Lemma LoadStrict_precedence_witness : exists ms : list (gmap string string), mapM (strict_values up same demo_number demo_other demo_json demo_json) demo_files = Some ms /\
  forall k, values demo_strict_config !! k = match demo_strict.2 !! k with Some v => Some v | None => last_defining k ms end.
Proof.
  apply (LoadStrict_precedence up same demo_number demo_other demo_json demo_json (DotenvValues [("NAME", "shop"); ("HOME", "/tmp")]) demo_files demo_env
    demo_strict_config demo_strict.2); [apply demo_env_ok|].
  assert (is_Some demo_strict.1) as [c Hc] by (vm_compute; by eexists). change (demo_strict = (Some demo_strict_config, demo_strict.2)). unfold demo_strict_config.
  rewrite Hc. destruct demo_strict. cbn in *. by rewrite Hc.
Defined.

Definition demo_tree : list (string * node unit) := [("db", NMap [("host", NString "a"); ("port", NString "b")]); ("on", NBool true)].

Lemma flatten_exact_witness : flatten up demo_number demo_other EmptyString demo_tree !! "DB_PORT" = Some "b".
Proof.
  apply (flatten_exact up demo_number demo_other EmptyString demo_tree); [vm_compute; repeat constructor; set_solver|].
  right. by left.
Defined.

(** Two scalars with one full key: which value stays depends on the order in which
    Go visits the map. *)
Example flatten_order_shows :
  flatten up demo_number demo_other EmptyString [("db_host", NString "a"); ("db", NMap [("host", NString "b")])] !! "DB_HOST" = Some "b" /\
  flatten up demo_number demo_other EmptyString [("db", NMap [("host", NString "b")]); ("db_host", NString "a")] !! "DB_HOST" = Some "a".
Proof. vm_compute. done. Qed.

Lemma GetInt_Set_witness : (min_int64 <= -42 <= max_int64)%Z /\ GetInt "N" 7 (Set_ "N" (format_int (-42)) New) = (-42)%Z.
Proof. split; [vm_compute; done|]. apply (GetInt_Set "N" (-42) 7 New). vm_compute; done. Defined.
