(* ===== verification/SentryKeys.v ===== *)
(** * package errors: keys whose values are never reported

    sensitiveSentryKey and sensitiveSentryCredentialAlias of errors/sentry.go.
    A key is cut into words, at every byte that is no letter or digit and where
    camel case begins a word; short names such as "pin" count as whole words
    only.  [sensitiveSentryCredentialAlias] is the scan of the code, with the
    indices it keeps; [alias_words] says what it looks for. *)

From S2P Require Import Prelude.
From S2P Require Import GoStrings.
From S2P Require Import RedactBytes.

Local Open Scope go_scope.

(** ** The scan *)

Definition word (b : ascii) : bool := is_lower b || is_upper b || is_digit b.

Definition credential_aliases : list string :=
  ["pwd"; "pass"; "passphrase"; "pin"; "otp"; "cvv"; "cvc"; "pan";
   "cardnumber"; "creditcardnumber"; "primaryaccountnumber"; "verificationcode"; "onetimepassword"]%string.

(** The words before the present one. *)
Record earlier := MkEarlier { previous : text; beforePrevious : text }.

(** componentSensitive: the answer, and the words before the next one. *)
Definition component_sensitive (component : text) (e : earlier) : bool :=
  existsb (EqualFold component) credential_aliases
  || EqualFold component "number" &&
     (EqualFold (previous e) "card" || EqualFold (previous e) "account" && EqualFold (beforePrevious e) "primary")
  || EqualFold component "code" && EqualFold (previous e) "verification".

Definition after_component (component : text) (e : earlier) : earlier := MkEarlier component (previous e).

(** lowerUpper and ACRONYMWord begin a word at their index. *)
Definition camel_start (key : text) (index : nat) : bool :=
  is_at is_upper key index &&
  (is_before is_lower key index || is_before is_upper key index && is_at is_lower key (S index)).

(** The loop from [index] on; [start] is -1 as [None]. *)
Fixpoint alias_loop (fuel : nat) (key : text) (index : nat) (start : option nat) (e : earlier) : bool :=
  match fuel with
  | 0 => match start with Some s => component_sensitive (drop s key) e | None => false end
  | S fuel =>
      if negb (is_at word key index) then
        match start with
        | Some s =>
            let component := slice key s index in
            component_sensitive component e || alias_loop fuel key (S index) None (after_component component e)
        | None => alias_loop fuel key (S index) None e
        end
      else
        match start with
        | None => alias_loop fuel key (S index) (Some index) e
        | Some s =>
            if camel_start key index then
              let component := slice key s index in
              component_sensitive component e || alias_loop fuel key (S index) (Some index) (after_component component e)
            else alias_loop fuel key (S index) start e
        end
  end.

Definition sensitiveSentryCredentialAlias (key : text) : bool :=
  alias_loop (length key) key 0 None (MkEarlier [] []).

(** strings.NewReplacer("-", "", "_", "", ".", "") *)
Definition without_separators (t : text) : text := filter (fun c => byte_in "-_." c = false) t.

Definition sensitive_fragments : list string :=
  ["password"; "passwd"; "secret"; "token"; "authorization"; "cookie"; "apikey"; "email"; "phone"; "recipient"; "username"]%string.

Definition sensitiveSentryKey (key : text) : bool :=
  let normalized := to_string (without_separators (lower_text (TrimSpace key))) in
  existsb (String.eqb normalized) ["raw"; "query"; "querystring"]%string
  || has_suffix "body" normalized || has_suffix "payload" normalized || has_suffix "response" normalized
  || existsb (fun fragment => contains fragment normalized) sensitive_fragments
  || sensitiveSentryCredentialAlias key.

(** ** What the scan looks for *)

(** A word begins at [i], or ends before it. *)
Definition begins (key : text) (i : nat) : bool :=
  is_at word key i && (negb (is_before word key i) || camel_start key i).
Definition ends (key : text) (i : nat) : bool := negb (is_at word key i) || camel_start key i.

Fixpoint word_end (fuel : nat) (key : text) (j : nat) : nat :=
  match fuel with 0 => j | S fuel => if ends key j then j else word_end fuel key (S j) end.

Definition words (key : text) : list text :=
  map (fun i => slice key i (word_end (length key) key (S i))) (filter (fun i => begins key i = true) (seq 0 (length key))).

(** Some word is an alias, by itself or after those before it. *)
Fixpoint alias_words (l : list text) (e : earlier) : bool :=
  match l with
  | [] => false
  | w :: l => component_sensitive w e || alias_words l (after_component w e)
  end.

Example words_of_key : map to_string (words (lit "userHTTPPin_v2.cardNumber")) = ["user"; "HTTP"; "Pin"; "v2"; "card"; "Number"]%string.
Proof. vm_compute. reflexivity. Qed.
Example some_keys : map (fun k => sensitiveSentryKey (lit k)) ["paymentCVV"; "shipping"; "span_id"; "card_number"; "x-api-key"; "primaryAccountNumber"; "accountNumber"]%string
  = [true; false; false; true; true; true; false].
Proof. vm_compute. reflexivity. Qed.

Section scan_proofs.
Context (key : text).

Lemma word_end_at fuel j i : j <= i -> (forall k, j <= k < i -> ends key k = false) -> ends key i = true -> i <= j + fuel -> word_end fuel key j = i.
Proof.
  revert j. induction fuel as [|fuel IH]; intros j Hji Hno Hi Hf; cbn; [lia|].
  destruct (decide (j = i)) as [->|Hne]; [by rewrite Hi|]. rewrite Hno by lia. apply IH; [lia| |done|lia]. intros k Hk. apply Hno. lia.
Qed.

Lemma ends_at_length : ends key (length key) = true.
Proof. unfold ends, is_at. by rewrite lookup_ge_None_2. Qed.

(** The word that began at [s], when it has not ended before [i]. *)
Lemma word_from s i : s < i <= length key -> (forall k, s < k < i -> ends key k = false) -> ends key i = true ->
  slice key s (word_end (length key) key (S s)) = slice key s i.
Proof. intros Hs Hno Hi. by rewrite (word_end_at _ _ i); [|lia|intros; apply Hno; lia|done|lia]. Qed.

Definition words_from (i n : nat) : list text :=
  map (fun i => slice key i (word_end (length key) key (S i))) (filter (fun i => begins key i = true) (seq i n)).

Lemma words_from_S i n : words_from i (S n) =
  if begins key i then slice key i (word_end (length key) key (S i)) :: words_from (S i) n else words_from (S i) n.
Proof. unfold words_from. cbn [seq]. rewrite filter_cons. destruct (begins key i) eqn:E; [rewrite decide_True by done|rewrite decide_False by done]; done. Qed.

Lemma alias_loop_words n i start e : i + n = length key ->
  match start with
  | None => is_before word key i = false
  | Some s => s < i /\ is_before word key i = true /\ forall k, s < k < i -> ends key k = false
  end ->
  alias_loop n key i start e =
  alias_words (match start with None => words_from i n | Some s => slice key s (word_end (length key) key (S s)) :: words_from i n end) e.
Proof.
  revert i start e. induction n as [|n IH]; intros i start e Hn Hs.
  - assert (i = length key) as -> by lia. destruct start as [s|]; cbn; [|done]. destruct Hs as (Hs & _ & Hno).
    rewrite (word_from s (length key)) by (auto using ends_at_length with lia). rewrite orb_false_r. f_equal.
    unfold slice. by rewrite take_ge by (rewrite length_drop; lia).
  - assert (is_before word key (S i) = is_at word key i) as Hb by done.
    cbn [alias_loop]. rewrite words_from_S. unfold begins. destruct (is_at word key i) eqn:Ew; cbn [negb andb].
    + destruct start as [s|].
      * destruct Hs as (Hs & Hbi & Hno). rewrite Hbi. cbn [negb orb]. destruct (camel_start key i) eqn:Ec.
        -- cbn [alias_words]. assert (ends key i = true) as He by (unfold ends; by rewrite Ec, orb_true_r).
           rewrite (word_from s i) by (auto with lia). rewrite IH; [done|lia|]. split; [lia|]. split; [by rewrite Hb|]. intros; lia.
        -- apply IH; [lia|]. split; [lia|]. split; [by rewrite Hb|]. intros k Hk. destruct (decide (k = i)) as [->|]; [|apply Hno; lia].
           unfold ends. by rewrite Ew, Ec.
      * rewrite Hs. cbn [negb orb]. apply IH; [lia|]. split; [lia|]. split; [by rewrite Hb|]. intros; lia.
    + assert (is_before word key (S i) = false) as Hb' by (by rewrite Hb). destruct start as [s|]; [|apply IH; [lia|done]].
      destruct Hs as (Hs & Hbi & Hno). cbn [alias_words]. assert (ends key i = true) as He by (unfold ends; by rewrite Ew).
      rewrite (word_from s i) by (auto with lia). rewrite IH; [done|lia|done].
Qed.
End scan_proofs.

(** C27: The scan finds a short credential name exactly when one of the words of
    the key is one, by itself or with the words before it, where words are cut at
    what is no letter or digit and where camel case begins one. *)
Theorem credential_alias_by_words key : sensitiveSentryCredentialAlias key = alias_words (words key) (MkEarlier [] []).
Proof. unfold sensitiveSentryCredentialAlias. rewrite (alias_loop_words key (length key) 0 None) by done. done. Qed.
