(* ===== verification/SentryValue.v ===== *)
(** * package errors: values reported to Sentry

    sanitizeSentryValue of errors/sentry.go and the walk through package reflect
    behind it: a value of any shape, with sharing and cycles, becomes a tree of
    maps, lists and plain values in which texts are redacted.  References are
    addresses in a memory; redact.Text and the text of a time are arguments.
    The walk stops by itself twelve levels down, so it recurses on the levels
    that remain; maps are visited in the order of their lists. *)

From S2P Require Import Prelude.
From S2P Require Import GoStrings.
From S2P Require Import RedactBytes.
From S2P Require Import SentryKeys.

Local Open Scope go_scope.

(** ** Values *)

Definition address := nat.
Definition typ := string.                        (* reflect.Type *)

(** What the type switch sees before the kind of a value. *)
Inductive view := AsTraceID (bytes : list ascii) | AsSpanID (bytes : list ascii) | AsError (message : string) | AsTime (t : Z).

(** A field of a struct: its name, whether it is exported, and the name in its
    json tag, empty where there is none. *)
Record field := MkField { Name : string; exported : bool; jsonName : string }.

(** What is reported. *)
Inductive oval :=
| ONil | OString (s : string) | OBool (b : bool) | OInt (z : Z) | OUint (z : Z) | OFloat (bits : Z)
| OMap (l : list (string * oval)) | OList (l : list oval).

(** Values in an interface, by kind; a nil interface is [GNil]. *)
Inductive gval :=
| GNil
| GAs (v : view) (g : gval)                      (* a value that also is what the view says *)
| GString (plain : bool) (s : string)            (* whether its type is string itself *)
| GBool (b : bool)
| GInt (z : Z)
| GUint (z : Z)
| GFloat (bits : Z)
| GPtr (t : typ) (p : option address)
| GMap (t : typ) (string_keys : bool) (p : option address)
| GSlice (t : typ) (bytes : bool) (p : option (address * nat))
| GArray (bytes : bool) (elems : list gval)
| GStruct (fields : list (field * gval))
| GBuilt (o : oval)                              (* made by an earlier walk: nothing else refers to its maps and lists *)
| GOther.                                        (* complex numbers, channels, functions, raw pointers *)

(** What pointers, maps and slices lead to, by their type. *)
Record memory := MkMemory {
  cell : typ -> address -> gval;
  entries : typ -> address -> list (string * gval);
  elem : typ -> address -> nat -> gval
}.

(** ** The state of a walk *)

Definition maxSentryValueDepth : nat := 12.
Definition maxSentryCollection : nat := 100.
Definition maxSentryValueNodes : N := 8192.

Record sentryVisit := MkVisit { visit_typ : typ; ptr : address; len : nat }.
#[export] Instance sentryVisit_eq_dec : EqDecision sentryVisit.
Proof. solve_decision. Defined.
#[export] Instance sentryVisit_countable : Countable sentryVisit.
Proof. apply (inj_countable' (fun v => (visit_typ v, ptr v, len v)) (fun '(t, p, n) => MkVisit t p n)). by intros []. Defined.

Record traversal := MkTraversal { active : gset sentryVisit; nodes : N }.
Definition newSentryValueTraversal : traversal := MkTraversal ∅ 0.

Definition takeNode (st : traversal) : bool * traversal :=
  if (maxSentryValueNodes <=? nodes st)%N then (false, st) else (true, MkTraversal (active st) (nodes st + 1)).

Definition seenSentryReference (visit : sentryVisit) (st : traversal) : bool * traversal :=
  if ptr visit =? 0 then (false, st)
  else if bool_decide (visit ∈ active st) then (true, st)
  else (false, MkTraversal ({[visit]} ∪ active st) (nodes st)).

(** defer delete(state.active, ...) *)
Definition leave (visit : sentryVisit) (r : oval * traversal) : oval * traversal :=
  (r.1, MkTraversal (active r.2 ∖ {[visit]}) (nodes r.2)).

Definition Mask : string := to_string RedactBytes.Mask.

Definition is_hex (c : ascii) : bool := in_range 48 57 c || in_range 97 102 c || in_range 65 70 c.

(** Every byte has to be a digit, so that counting bytes or runes is the same. *)
Definition validSentryCorrelationID (key value : string) : bool :=
  let digits n := (String.length value =? n) && str_forallb is_hex value in
  if String.eqb key "trace_id" then digits 32
  else if String.eqb key "span_id" || String.eqb key "parent_span_id" then digits 16
  else false.

(** hex.EncodeToString *)
Definition hex_digit (n : N) : ascii := ascii_of_N (if (n <? 10)%N then 48 + n else 87 + n).
Fixpoint hex (bytes : list ascii) : string :=
  match bytes with
  | [] => EmptyString
  | b :: bytes => String (hex_digit (byte_of b / 16)) (String (hex_digit (byte_of b mod 16)) (hex bytes))
  end.

(** A key is set, which a field may do twice. *)
Fixpoint put (k : string) (o : oval) (l : list (string * oval)) : list (string * oval) :=
  match l with
  | [] => [(k, o)]
  | (k', o') :: l => if String.eqb k k' then (k, o) :: l else (k', o') :: put k o l
  end.

(** Plain values that an earlier walk made are as any others. *)
Definition dynamic (v : gval) : gval :=
  match v with
  | GBuilt ONil => GNil
  | GBuilt (OString s) => GString true s
  | GBuilt (OBool b) => GBool b
  | GBuilt (OInt z) => GInt z
  | GBuilt (OUint z) => GUint z
  | GBuilt (OFloat x) => GFloat x
  | v => v
  end.

(** Views do not show to package reflect. *)
Fixpoint reflected (v : gval) : gval := match v with GAs _ g => reflected g | v => dynamic v end.

Definition public_name (f : field) : string := if String.eqb (jsonName f) "" then Name f else jsonName f.

(** ** The walk *)

Section walk.
Context (Text : string -> string) (format_time : Z -> string) (m : memory).

Definition sensitive (key : string) : bool := sensitiveSentryKey (lit key).

Section loops.
Context {St : Type} (nested : string -> gval -> St -> oval * St).       (* sanitizeSentryValueDepth, one level down *)

Fixpoint map_loop (l : list (string * gval)) (result : list (string * oval)) (st : St) : list (string * oval) * St :=
  if maxSentryCollection <=? length result then (result, st)
  else match l with
       | [] => (result, st)
       | (nestedKey, v) :: l =>
           let '(o, st) := nested nestedKey v st in map_loop l (put nestedKey o result) st
       end.

Fixpoint list_loop (l : list gval) (st : St) : list oval * St :=
  match l with
  | [] => ([], st)
  | v :: l => let '(o, st) := nested "" v st in let '(os, st) := list_loop l st in (o :: os, st)
  end.

Fixpoint struct_loop (l : list (field * gval)) (result : list (string * oval)) (st : St) : list (string * oval) * St :=
  match l with
  | [] => (result, st)
  | (f, v) :: l =>
      if maxSentryCollection <=? length result then (result, st)
      else if negb (exported f) || String.eqb (jsonName f) "-" then struct_loop l result st
      else
        let name := public_name f in
        if sensitive (Name f) || sensitive name then struct_loop l (put name (OString Mask) result) st
        else let '(o, st) := nested name v st in struct_loop l (put name o result) st
  end.
End loops.

(** sanitizeSentryValueDepth with [levels] to go, given the walk of a value
    that is not nil. *)
Definition sanitizeSentryValueDepth (walk : gval -> traversal -> oval * traversal) (levels : nat)
    (key : string) (value : gval) (st : traversal) : oval * traversal :=
  let '(taken, st) := takeNode st in
  if negb taken || sensitive key then (OString Mask, st)
  else
    match dynamic value with
    | GNil => (ONil, st)
    | value =>
        if levels =? 0 then (OString Mask, st)
        else
          match value with
          | GAs (AsTraceID bytes) _ | GAs (AsSpanID bytes) _ => (OString (hex bytes), st)
          | GString true s => (OString (if validSentryCorrelationID key s then s else Text s), st)
          | GAs (AsError message) _ => (OString (Text message), st)
          | GAs (AsTime t) _ => (OString (format_time t), st)
          | value => walk value st
          end
    end.

(** A reference that is not under way is entered, and left when it is done. *)
Definition entering (visit : sentryVisit) (body : traversal -> oval * traversal) (st : traversal) : oval * traversal :=
  let '(seen, st) := seenSentryReference visit st in
  if seen then (OString Mask, st) else leave visit (body st).

Definition as_map {St} (r : list (string * oval) * St) : oval * St := (OMap r.1, r.2).
Definition as_list {St} (r : list oval * St) : oval * St := (OList r.1, r.2).

Fixpoint sanitizeReflectedSentryValue (levels : nat) (value : gval) (st : traversal) {struct levels} : oval * traversal :=
  match levels with
  | 0 => (OString Mask, st)
  | S levels =>
      let nested := sanitizeSentryValueDepth (sanitizeReflectedSentryValue levels) levels in
      match reflected value with
      | GNil | GAs _ _ => (ONil, st)
      | GString _ s => (OString (Text s), st)
      | GBool b => (OBool b, st)
      | GInt z => (OInt z, st)
      | GUint z => (OUint z, st)
      | GFloat x => (OFloat x, st)
      | GPtr t None => (ONil, st)
      | GPtr t (Some a) =>
          entering (MkVisit t a 0) (fun st =>
            let '(taken, st) := takeNode st in
            if taken then sanitizeReflectedSentryValue levels (cell m t a) st else (OString Mask, st)) st
      | GMap t _ None => (ONil, st)
      | GMap t string_keys (Some a) =>
          if negb string_keys then (OString Mask, st)
          else entering (MkVisit t a 0) (fun st => as_map (map_loop nested (entries m t a) [] st)) st
      | GSlice t true _ => (OString Mask, st)
      | GSlice t false None => (ONil, st)
      | GSlice t false (Some (a, n)) =>
          entering (MkVisit t a n) (fun st =>
            as_list (list_loop nested (map (elem m t a) (seq 0 (Nat.min n maxSentryCollection))) st)) st
      | GArray true _ => (OString Mask, st)
      | GArray false l => as_list (list_loop nested (take maxSentryCollection l) st)
      | GStruct l => as_map (struct_loop nested l [] st)
      | GBuilt (OMap l) => as_map (map_loop nested (map (fun x => (x.1, GBuilt x.2)) l) [] st)
      | GBuilt (OList l) => as_list (list_loop nested (map GBuilt (take maxSentryCollection l)) st)
      | GBuilt _ => (ONil, st)
      | GOther => (OString Mask, st)
      end
  end.

(** sanitizeSentryValue, and a value of a map that sanitizeSentryMap goes
    through. *)
Definition sanitizeSentryValueFrom (key : string) (value : gval) (st : traversal) : oval * traversal :=
  sanitizeSentryValueDepth (sanitizeReflectedSentryValue maxSentryValueDepth) maxSentryValueDepth key value st.

Definition sanitizeSentryValue (key : string) (value : gval) : oval := (sanitizeSentryValueFrom key value newSentryValueTraversal).1.

(** sanitizeSentryMap: one state for the whole map. *)
Fixpoint sanitize_entries (l : list (string * gval)) (st : traversal) : list (string * oval) * traversal :=
  match l with
  | [] => ([], st)
  | (key, value) :: l =>
      let '(o, st) := sanitizeSentryValueFrom key value st in
      let '(os, st) := sanitize_entries l st in ((key, o) :: os, st)
  end.
Definition sanitizeSentryMap (values : list (string * gval)) : list (string * oval) := (sanitize_entries values newSentryValueTraversal).1.

(** ** The walk that remembers nothing

    The same without the references under way and without a budget; it only
    counts the nodes it takes. *)

Definition count_value (walk : gval -> N -> oval * N) (levels : nat) (key : string) (value : gval) (n : N) : oval * N :=
  let n := (n + 1)%N in
  if sensitive key then (OString Mask, n)
  else
    match dynamic value with
    | GNil => (ONil, n)
    | value =>
        if levels =? 0 then (OString Mask, n)
        else
          match value with
          | GAs (AsTraceID bytes) _ | GAs (AsSpanID bytes) _ => (OString (hex bytes), n)
          | GString true s => (OString (if validSentryCorrelationID key s then s else Text s), n)
          | GAs (AsError message) _ => (OString (Text message), n)
          | GAs (AsTime t) _ => (OString (format_time t), n)
          | value => walk value n
          end
    end.

Fixpoint count_reflected (levels : nat) (value : gval) (n : N) {struct levels} : oval * N :=
  match levels with
  | 0 => (OString Mask, n)
  | S levels =>
      let nested := count_value (count_reflected levels) levels in
      match reflected value with
      | GNil | GAs _ _ | GPtr _ None | GMap _ _ None | GSlice _ false None => (ONil, n)
      | GString _ s => (OString (Text s), n)
      | GBool b => (OBool b, n)
      | GInt z => (OInt z, n)
      | GUint z => (OUint z, n)
      | GFloat x => (OFloat x, n)
      | GPtr t (Some a) => count_reflected levels (cell m t a) (n + 1)
      | GMap t string_keys (Some a) => if string_keys then as_map (map_loop nested (entries m t a) [] n) else (OString Mask, n)
      | GSlice t false (Some (a, k)) => as_list (list_loop nested (map (elem m t a) (seq 0 (Nat.min k maxSentryCollection))) n)
      | GSlice _ true _ | GArray true _ | GOther => (OString Mask, n)
      | GArray false l => as_list (list_loop nested (take maxSentryCollection l) n)
      | GStruct l => as_map (struct_loop nested l [] n)
      | GBuilt (OMap l) => as_map (map_loop nested (map (fun x => (x.1, GBuilt x.2)) l) [] n)
      | GBuilt (OList l) => as_list (list_loop nested (map GBuilt (take maxSentryCollection l)) n)
      | GBuilt _ => (ONil, n)
      end
  end.

Definition countedSentryValue (key : string) (value : gval) : oval * N :=
  count_value (count_reflected maxSentryValueDepth) maxSentryValueDepth key value 0.
End walk.

(** ** References *)

Fixpoint refs (v : gval) : list sentryVisit :=
  match v with
  | GAs _ g => refs g
  | GPtr t (Some a) | GMap t _ (Some a) => [MkVisit t a 0]
  | GSlice t _ (Some (a, n)) => [MkVisit t a n]
  | GArray _ l => flat_map refs l
  | GStruct l => flat_map (fun x => refs x.2) l
  | _ => []
  end.

(** What a reference leads to refers to; a type is that of pointers, maps or
    slices, and only one of the three says something. *)
Definition content_refs (m : memory) (p : sentryVisit) : list sentryVisit :=
  let t := visit_typ p in
  let a := ptr p in
  refs (cell m t a) ++ flat_map (fun x => refs x.2) (entries m t a) ++ flat_map refs (map (elem m t a) (seq 0 (len p))).

Definition points (m : memory) (q p : sentryVisit) : Prop := q ∈ content_refs m p.

(** No reference can be followed for ever. *)
Definition acyclic (m : memory) (v : gval) : Prop := forall q, q ∈ refs v -> Acc (points m) q.
