(* ===== verification/SentryValueProofs.v ===== *)
(** * Sentry values: what a report holds

    The walk of [SentryValue]: what it gives is redacted and bounded in depth,
    width and size whatever the value, it forgets every reference it has left,
    and on values without cycles it is the function that remembers nothing. *)

From stdpp Require Import relations.
From S2P Require Import Prelude.
From S2P Require Import GoStrings.
From S2P Require Import RedactBytes.
From S2P Require Import SentryKeys.
From S2P Require Import SentryValue.

Local Open Scope go_scope.

(** ** Trees that may be reported *)

Fixpoint osize (o : oval) : N :=
  match o with
  | OMap l => 1 + foldr (fun x n => osize x.2 + n) 0 l
  | OList l => 1 + foldr (fun x n => osize x + n) 0 l
  | _ => 1
  end%N.

Section walk_proofs.
Context (Text : string -> string) (format_time : Z -> string) (m : memory).

(** A text that may be reported under a key. *)
Definition safe (key s : string) : Prop :=
  s = Mask \/ (exists x, s = Text x) \/ (exists t, s = format_time t) \/ (exists bytes, s = hex bytes) \/
  validSentryCorrelationID key s = true.

(** A tree that may be reported under a key, of at most so many levels. *)
Inductive reported : string -> nat -> oval -> Prop :=
| R_nil key n : reported key n ONil
| R_string key n s : safe key s -> reported key n (OString s)
| R_bool key n b : reported key n (OBool b)
| R_int key n z : reported key n (OInt z)
| R_uint key n z : reported key n (OUint z)
| R_float key n x : reported key n (OFloat x)
| R_map key n l : length l <= maxSentryCollection -> NoDup l.*1 ->
    (forall k o, (k, o) ∈ l -> reported k n o) -> (forall k o, (k, o) ∈ l -> sensitive k = true -> o = OString Mask) ->
    reported key (S n) (OMap l)
| R_list key n l : length l <= maxSentryCollection -> (forall o, o ∈ l -> reported "" n o) -> reported key (S n) (OList l).

Lemma R_mask key n : reported key n (OString Mask).
Proof. constructor. by left. Qed.

(** ** Maps under construction *)

Lemma put_keys k o l : (put k o l).*1 = if bool_decide (k ∈ l.*1) then l.*1 else l.*1 ++ [k].
Proof.
  induction l as [|[k' o'] l IH]; cbn; [done|]. destruct (String.eqb_spec k k') as [->|Hne]; cbn.
  - by rewrite bool_decide_eq_true_2 by by left.
  - rewrite IH. rewrite (bool_decide_ext (k ∈ k' :: l.*1) (k ∈ l.*1)) by (rewrite elem_of_cons; naive_solver).
    by case_bool_decide.
Qed.

Lemma put_length k o l : length (put k o l) <= S (length l).
Proof. rewrite <- (length_fmap fst), put_keys. case_bool_decide; [|rewrite length_app; cbn]; rewrite length_fmap; lia. Qed.

Lemma put_nodup k o l : NoDup l.*1 -> NoDup (put k o l).*1.
Proof.
  rewrite put_keys. case_bool_decide as H; [done|]. intros Hl. apply NoDup_app. split_and!; [done| |by apply NoDup_singleton].
  intros x Hx ->%list_elem_of_singleton. by apply H.
Qed.

Lemma put_elem k o l x : x ∈ put k o l -> x = (k, o) \/ x ∈ l.
Proof.
  induction l as [|[k' o'] l IH]; cbn.
  - intros ->%list_elem_of_singleton. by left.
  - destruct (String.eqb_spec k k') as [->|Hne]; rewrite !elem_of_cons; [naive_solver|]. intros [->|Hx]; [naive_solver|]. naive_solver.
Qed.

Definition sum_sizes (l : list (string * oval)) : N := foldr (fun x n => osize x.2 + n)%N 0%N l.

Lemma osize_pos o : (1 <= osize o)%N.
Proof. destruct o; cbn; lia. Qed.

Lemma put_size k o l : (sum_sizes (put k o l) + N.of_nat (length l) + 1 <= osize o + sum_sizes l + N.of_nat (length (put k o l)))%N.
Proof.
  pose proof (osize_pos o). induction l as [|[k' o'] l IH]; cbn; [lia|]. pose proof (osize_pos o').
  destruct (String.eqb k k'); cbn; [lia|]. fold (sum_sizes (put k o l)) (sum_sizes l). lia.
Qed.

(** ** One part of a walk *)

(** Nothing under way is at address 0, which stands for no reference. *)
Definition proper (st : traversal) : Prop := forall v, v ∈ active st -> ptr v <> 0.

(** A part of a walk leaves what was under way as it was, and takes nodes within
    the budget. *)
Definition fair (st st' : traversal) : Prop :=
  active st' = active st /\ (nodes st <= nodes st')%N /\ ((nodes st <= maxSentryValueNodes)%N -> (nodes st' <= maxSentryValueNodes)%N).

Definition part (key : string) (n : nat) (w : N) (f : traversal -> oval * traversal) : Prop := forall st, proper st ->
  reported key n (f st).1 /\ fair st (f st).2 /\ (osize (f st).1 + 100 * nodes st <= w + 100 * nodes (f st).2)%N.

Lemma fair_refl st : fair st st.
Proof. repeat split; [lia|done]. Qed.
Lemma fair_trans a b c : fair a b -> fair b c -> fair a c.
Proof. intros (H1 & H2 & H3) (H4 & H5 & H6). split; [congruence|]. split; [lia|auto]. Qed.
Lemma fair_proper a b : fair a b -> proper a -> proper b.
Proof. intros (H & _) Hp v Hv. apply Hp. by rewrite <- H. Qed.

Lemma take_fair st : fair st (takeNode st).2.
Proof.
  unfold takeNode. destruct (N.leb_spec maxSentryValueNodes (nodes st)); cbn; [apply fair_refl|]. split; [done|]. cbn. split; [lia|lia].
Qed.
Lemma take_counts st : (nodes (takeNode st).2 = nodes st + if (takeNode st).1 then 1 else 0)%N.
Proof. unfold takeNode. destruct (_ <=? _)%N; cbn; lia. Qed.

Lemma part_leaf key n w st o : reported key n o -> (osize o <= w)%N ->
  reported key n (o, st).1 /\ fair st (o, st).2 /\ (osize (o, st).1 + 100 * nodes st <= w + 100 * nodes (o, st).2)%N.
Proof. intros H Hw. split; [done|]. split; [apply fair_refl|]. cbn. lia. Qed.

Lemma entering_part key n w visit body : (1 <= w)%N -> part key n w body -> part key n w (entering visit body).
Proof.
  intros Hw Hb st Hp. unfold entering, seenSentryReference, leave. destruct (Nat.eqb_spec (ptr visit) 0) as [H0|H0].
  - destruct (Hb st Hp) as (Hr & (Ha & Hn & Hm) & Hs). cbn. split; [done|]. split; [|done]. repeat split; cbn; [|done|done].
    rewrite Ha. apply leibniz_equiv. assert (visit ∉ active st) by (intros Hv; by apply (Hp visit)). set_solver.
  - case_bool_decide as Hv; [by apply part_leaf; [apply R_mask|cbn]|].
    destruct (Hb (MkTraversal ({[visit]} ∪ active st) (nodes st))) as (Hr & (Ha & Hn & Hm) & Hs).
    { intros v [->%elem_of_singleton|Hv']%elem_of_union; [done|by apply Hp]. }
    cbn in *. split; [done|]. split; [|done]. repeat split; cbn; [|done|done]. rewrite Ha. set_solver.
Qed.

(** ** Loops *)

Section loops_ok.
Context (n : nat) (nested : string -> gval -> traversal -> oval * traversal).
Context (Hnested : forall key v, part key n 1 (nested key v)).
Context (Hsensitive : forall key v st, sensitive key = true -> (nested key v st).1 = OString Mask).

Definition entries_ok (l : list (string * oval)) : Prop :=
  length l <= maxSentryCollection /\ NoDup l.*1 /\
  forall k o, (k, o) ∈ l -> reported k n o /\ (sensitive k = true -> o = OString Mask).

Lemma put_ok k o l : length l < maxSentryCollection -> entries_ok l -> reported k n o -> (sensitive k = true -> o = OString Mask) -> entries_ok (put k o l).
Proof.
  intros Hl (_ & Hnd & H) Ho Hs. split; [pose proof (put_length k o l); lia|]. split; [by apply put_nodup|].
  intros k' o' [[= -> ->]|Hx]%put_elem; [done|by apply H].
Qed.

(** The sizes under construction, and what was taken for them. *)
Definition built (result : list (string * oval)) (st : traversal) (r : list (string * oval) * traversal) : Prop :=
  entries_ok r.1 /\ fair st r.2 /\
  (sum_sizes r.1 + N.of_nat (length result) + 100 * nodes st <= sum_sizes result + N.of_nat (length r.1) + 100 * nodes r.2)%N.

Lemma built_refl l st : entries_ok l -> built l st (l, st).
Proof. intros H. split; [done|]. split; [apply fair_refl|]. cbn [fst snd]. lia. Qed.

Lemma built_put k o l st st1 r : fair st st1 -> (osize o + 100 * nodes st <= 1 + 100 * nodes st1)%N ->
  built (put k o l) st1 r -> built l st r.
Proof.
  intros Hf Ho (Hr & Hf' & Hs). split; [done|]. split; [by eapply fair_trans|]. pose proof (put_size k o l). lia.
Qed.

Lemma map_loop_ok l result st : entries_ok result -> proper st -> built result st (map_loop nested l result st).
Proof.
  revert result st. induction l as [|[k v] l IH]; intros result st Hr Hp; cbn [map_loop];
    (destruct (Nat.leb_spec maxSentryCollection (length result)) as [Hl|Hl]; [by apply built_refl|]); [by apply built_refl|].
  destruct (nested k v st) as [o st1] eqn:E. destruct (Hnested k v st Hp) as (Ho & Hf & Hs). pose proof (Hsensitive k v st) as Hk.
  rewrite E in *. cbn in Ho, Hf, Hs, Hk. eapply built_put; [done|done|]. apply IH; [by apply put_ok|by eapply fair_proper].
Qed.

Lemma struct_loop_ok l result st : entries_ok result -> proper st -> built result st (struct_loop nested l result st).
Proof.
  revert result st. induction l as [|[f v] l IH]; intros result st Hr Hp; cbn [struct_loop]; [by apply built_refl|].
  destruct (Nat.leb_spec maxSentryCollection (length result)) as [Hl|Hl]; [by apply built_refl|].
  destruct (negb _ || _); [by apply IH|]. destruct (sensitive (Name f) || _) eqn:Es.
  - apply (built_put (public_name f) (OString Mask) _ _ st); [apply fair_refl|cbn; lia|].
    apply IH; [|done]. apply put_ok; [done|done|apply R_mask|done].
  - apply orb_false_iff in Es as [_ Es]. destruct (nested _ v st) as [o st1] eqn:E.
    destruct (Hnested (public_name f) v st Hp) as (Ho & Hf & Hs). rewrite E in *. cbn in Ho, Hf, Hs.
    eapply built_put; [done|done|]. apply IH; [|by eapply fair_proper]. apply put_ok; [done|done|done|]. by rewrite Es.
Qed.

Lemma list_loop_ok l st : proper st -> let r := list_loop nested l st in
  length r.1 = length l /\ (forall o, o ∈ r.1 -> reported "" n o) /\ fair st r.2 /\
  (foldr (fun x k => osize x + k) 0 r.1 + 100 * nodes st <= N.of_nat (length l) + 100 * nodes r.2)%N.
Proof.
  revert st. induction l as [|v l IH]; intros st Hp; cbn [list_loop].
  { cbn. split; [done|]. split; [by intros ? ?%elem_of_nil|]. split; [apply fair_refl|lia]. }
  destruct (nested "" v st) as [o st1] eqn:E. destruct (Hnested "" v st Hp) as (Ho & Hf & Hs). rewrite E in *. cbn in Ho, Hf, Hs.
  destruct (IH st1) as (H1 & H2 & H3 & H4); [by eapply fair_proper|]. destruct (list_loop nested l st1) as [os st2]. cbn in *.
  split; [lia|]. split; [intros x [->|Hx]%elem_of_cons; [done|by apply H2]|]. split; [by eapply fair_trans|]. lia.
Qed.

Lemma as_map_part key f : (forall st, proper st -> built [] st (f st)) -> part key (S n) 101 (fun st => as_map (f st)).
Proof.
  intros H st Hp. destruct (H st Hp) as ((Hl & Hnd & He) & Hf & Hs). unfold as_map. cbn in *.
  split; [constructor; [done|done|intros k o Hx; by apply He..]|]. split; [done|].
  fold (sum_sizes (f st).1). unfold maxSentryCollection in Hl. lia.
Qed.

Lemma as_list_part key l : length l <= maxSentryCollection -> part key (S n) 101 (fun st => as_list (list_loop nested l st)).
Proof.
  intros Hl st Hp. destruct (list_loop_ok l st Hp) as (H1 & H2 & H3 & H4). unfold as_list. cbn in *.
  split; [constructor; [by rewrite H1|done]|]. split; [done|]. unfold maxSentryCollection in Hl. lia.
Qed.
End loops_ok.

Lemma entries_ok_nil n : entries_ok n [].
Proof. split; [unfold maxSentryCollection; cbn; lia|]. split; [by apply NoDup_nil_2|]. by intros ? ? ?%elem_of_nil. Qed.

(** ** The walk *)

Abbreviation depth_walk := (sanitizeSentryValueDepth Text format_time).
Abbreviation reflect_walk := (sanitizeReflectedSentryValue Text format_time m).

Lemma sensitive_masked walk n key v st : sensitive key = true -> (depth_walk walk n key v st).1 = OString Mask.
Proof. intros H. unfold sanitizeSentryValueDepth. destruct (takeNode st) as [b st']. by rewrite H, orb_true_r. Qed.

Lemma nil_or_not v : dynamic v = GNil \/ dynamic v <> GNil.
Proof. destruct (dynamic v); [by left|right; done..]. Qed.

Lemma depth_part n : (forall key v, part key n 101 (reflect_walk n v)) -> forall key v, part key n 1 (depth_walk (reflect_walk n) n key v).
Proof.
  intros H key v st Hp. unfold sanitizeSentryValueDepth. pose proof (take_fair st) as Hf. pose proof (take_counts st) as Hc.
  destruct (takeNode st) as [taken st1]. cbn in Hf, Hc. destruct taken; cbn [negb orb].
  2: { split; [apply R_mask|]. split; [done|]. cbn. lia. }
  assert (forall o, reported key n o -> osize o = 1%N ->
    reported key n (o, st1).1 /\ fair st (o, st1).2 /\ (osize (o, st1).1 + 100 * nodes st <= 1 + 100 * nodes (o, st1).2)%N) as Hleaf.
  { intros o Ho Hs. split; [done|]. split; [done|]. cbn. rewrite Hs. lia. }
  destruct (sensitive key) eqn:Hk; [apply Hleaf; [apply R_mask|done]|].
  assert (part key n 101 (reflect_walk n (dynamic v))) as Hw by apply H.
  assert (let r := reflect_walk n (dynamic v) st1 in reported key n r.1 /\ fair st r.2 /\ (osize r.1 + 100 * nodes st <= 1 + 100 * nodes r.2)%N) as Hwalk.
  { destruct (Hw st1) as (Hr & Hf' & Hs); [by eapply fair_proper|]. split; [done|]. split; [by eapply fair_trans|]. lia. }
  destruct (nil_or_not v) as [->|Hv]; [apply Hleaf; [constructor|done]|].
  destruct (Nat.eqb_spec n 0) as [Hn|Hn].
  { destruct (dynamic v); try done; apply Hleaf; (apply R_mask || done). }
  destruct (dynamic v) as [|vw g|[] s| | | | | | | | | | |]; try done.
  - destruct vw; (apply Hleaf; [|done]); constructor; unfold safe; eauto 10.
  - apply Hleaf; [|done]. constructor. unfold safe. destruct (validSentryCorrelationID key s) eqn:E; eauto 10.
Qed.

Lemma reported_more key n o : reported key n o -> reported key (S n) o.
Proof.
  induction 1; econstructor; eauto.
Qed.

Lemma reflect_part n : forall key v, part key n 101 (reflect_walk n v).
Proof.
  induction n as [|n IH]; intros key v; cbn [sanitizeReflectedSentryValue].
  { intros st Hp. apply part_leaf; [apply R_mask|cbn; lia]. }
  pose proof (depth_part n IH) as Hd. pose proof (fun key v st => sensitive_masked (reflect_walk n) n key v st) as Hs.
  set (nested := depth_walk (reflect_walk n) n) in *.
  assert (forall o, reported key (S n) o -> osize o = 1%N -> part key (S n) 101 (fun st => (o, st))) as Hleaf.
  { intros o Ho Hsz st Hp. apply part_leaf; [done|lia]. }
  destruct (reflected v) as [| |? s| | | | |t [a|]|t sk [a|]|t [] [[a k]|]|[] l|l|[| | | | | |l|l]|]; try (apply Hleaf; [constructor|done]; unfold safe; by eauto).
  - apply entering_part; [lia|]. intros st Hp. pose proof (take_fair st) as Hf. pose proof (take_counts st) as Hc.
    destruct (takeNode st) as [[] st1]; cbn in Hf, Hc; [|split; [apply R_mask|]; split; [done|cbn; lia]].
    destruct (IH key (cell m t a) st1) as (Hr & Hf' & Hsz); [by eapply fair_proper|].
    split; [by apply reported_more|]. split; [by eapply fair_trans|lia].
  - destruct sk; cbn [negb]; [|apply Hleaf; [apply R_mask|done]]. apply entering_part; [lia|].
    apply as_map_part. intros st Hp. apply map_loop_ok; [by apply Hd|by intros; apply Hs|apply entries_ok_nil|done].
  - apply entering_part; [lia|]. apply as_list_part; [done|]. rewrite length_map, length_seq. lia.
  - apply as_list_part; [done|]. rewrite length_take. lia.
  - apply as_map_part. intros st Hp. apply struct_loop_ok; [by apply Hd|apply entries_ok_nil|done].
  - apply as_map_part. intros st Hp. apply map_loop_ok; [by apply Hd|by intros; apply Hs|apply entries_ok_nil|done].
  - apply as_list_part; [done|]. rewrite length_map, length_take. lia.
Qed.

Lemma value_part key v : part key maxSentryValueDepth 1 (sanitizeSentryValueFrom Text format_time m key v).
Proof. unfold sanitizeSentryValueFrom. apply depth_part. intros. apply reflect_part. Qed.

(** What is reported for a value, of any shape and however cyclic, holds no
    text but masks, texts that were redacted, times and identifiers of the
    expected form; no value stands under a sensitive key; it has at most twelve
    levels and a hundred members in each collection. *)
Theorem sanitized_value_safe key v : let o := sanitizeSentryValue Text format_time m key v in
  reported key maxSentryValueDepth o /\ (sensitive key = true -> o = OString Mask).
Proof.
  cbn. split; [|apply sensitive_masked]. destruct (value_part key v newSentryValueTraversal) as [H _]; [|done].
  intros x Hx. by apply elem_of_empty in Hx.
Qed.

Lemma entries_part l st : proper st -> let r := sanitize_entries Text format_time m l st in
  r.1.*1 = l.*1 /\ (forall k o, (k, o) ∈ r.1 -> reported k maxSentryValueDepth o /\ (sensitive k = true -> o = OString Mask)) /\
  fair st r.2 /\ (sum_sizes r.1 + 100 * nodes st <= N.of_nat (length l) + 100 * nodes r.2)%N.
Proof.
  revert st. induction l as [|[k v] l IH]; intros st Hp; cbn [sanitize_entries].
  { cbn [fst snd fmap list_fmap sum_sizes foldr length]. split; [done|]. split; [by intros ? ? ?%elem_of_nil|]. split; [apply fair_refl|lia]. }
  pose proof (value_part k v st Hp) as (Ho & Hf & Hs). unfold sanitizeSentryValueFrom in *.
  pose proof (sensitive_masked (reflect_walk maxSentryValueDepth) maxSentryValueDepth k v st) as Hk.
  destruct (depth_walk _ _ k v st) as [o st1]. cbn [fst snd] in *.
  destruct (IH st1) as (H1 & H2 & H3 & H4); [by eapply fair_proper|]. destruct (sanitize_entries Text format_time m l st1) as [os st2]. cbn [fst snd] in *.
  split; [by rewrite !fmap_cons, H1|]. split; [intros k' o' [[= -> ->]|Hx]%elem_of_cons; [done|by apply H2]|].
  split; [by eapply fair_trans|]. unfold sum_sizes in *. cbn [foldr length snd]. lia.
Qed.

Lemma sanitized_values values : let r := sanitize_entries Text format_time m values newSentryValueTraversal in
  r.1.*1 = values.*1 /\ (forall k o, (k, o) ∈ r.1 -> reported k maxSentryValueDepth o /\ (sensitive k = true -> o = OString Mask)) /\
  fair newSentryValueTraversal r.2 /\ (sum_sizes r.1 + 100 * nodes newSentryValueTraversal <= N.of_nat (length values) + 100 * nodes r.2)%N.
Proof. apply entries_part. intros x Hx. by apply elem_of_empty in Hx. Qed.

(** C25: A map of extra data keeps its keys and is reported with a mask for each
    sensitive one; the walk of the whole map takes at most 8192 nodes and what it
    makes has at most a hundred times as many, whatever the values refer to, and
    when it ends nothing is left under way. *)
Theorem sanitized_map_bounded values : let r := sanitize_entries Text format_time m values newSentryValueTraversal in
  r.1.*1 = values.*1 /\ (forall k o, (k, o) ∈ r.1 -> reported k maxSentryValueDepth o /\ (sensitive k = true -> o = OString Mask)) /\
  active r.2 = ∅ /\ (nodes r.2 <= maxSentryValueNodes)%N /\ (sum_sizes r.1 <= N.of_nat (length values) + 100 * maxSentryValueNodes)%N.
Proof.
  destruct (sanitized_values values) as (H1 & H2 & (Ha & _ & Hn) & Hs).
  cbn [newSentryValueTraversal nodes active] in *. assert (nodes (sanitize_entries Text format_time m values newSentryValueTraversal).2 <= maxSentryValueNodes)%N as Hm
    by (apply Hn; unfold maxSentryValueNodes; lia). unfold maxSentryValueNodes in *. split; [done|]. split; [done|]. split; [done|]. split; [done|lia].
Qed.

(** ** Without cycles *)

Lemma count_grows_loops (nested : string -> gval -> N -> oval * N) : (forall k v n, n <= (nested k v n).2)%N ->
  (forall l r n, n <= (map_loop nested l r n).2)%N /\ (forall l n, n <= (list_loop nested l n).2)%N /\ (forall l r n, n <= (struct_loop nested l r n).2)%N.
Proof.
  intros H. split_and!.
  - induction l as [|[k v] l IH]; intros r n; cbn; destruct (_ <=? _); cbn; try lia.
    specialize (H k v n). destruct (nested k v n) as [o n1]. cbn in H. specialize (IH (put k o r) n1). lia.
  - induction l as [|v l IH]; intros n; cbn; [lia|]. specialize (H "" v n). destruct (nested "" v n) as [o n1]. cbn in H.
    specialize (IH n1). destruct (list_loop nested l n1). cbn in *. lia.
  - induction l as [|[f v] l IH]; intros r n; cbn; [lia|]. destruct (_ <=? _); cbn; [lia|]. destruct (negb _ || _); [apply IH|].
    destruct (_ || _); [apply IH|]. specialize (H (public_name f) v n). destruct (nested _ v n) as [o n1]. cbn in H.
    specialize (IH (put (public_name f) o r) n1). lia.
Qed.

Abbreviation count_depth := (count_value Text format_time).
Abbreviation count_walk := (count_reflected Text format_time m).

Lemma count_value_grows walk levels key v n : (forall v n, n <= (walk v n).2)%N -> (n + 1 <= (count_depth walk levels key v n).2)%N.
Proof.
  intros H. unfold count_value. destruct (sensitive key); cbn [fst snd]; [lia|]. specialize (H (dynamic v) (n + 1)%N).
  destruct (nil_or_not v) as [->|]; cbn [fst snd]; [lia|]. destruct (levels =? 0).
  - destruct (dynamic v); cbn [fst snd]; lia.
  - destruct (dynamic v) as [|[]|[]| | | | | | | | | | |]; cbn [fst snd]; lia.
Qed.

Lemma count_reflected_grows levels v n : (n <= (count_walk levels v n).2)%N.
Proof.
  revert v n. induction levels as [|levels IH]; intros v n; cbn [count_reflected]; [cbn [fst snd]; lia|].
  pose proof (count_grows_loops (count_depth (count_walk levels) levels)) as Hl.
  destruct Hl as (Hm & Hs & Hst). { intros k w x. pose proof (count_value_grows (count_walk levels) levels k w x IH). lia. }
  destruct (reflected v) as [| |? s| | | | |t [a|]|t [] [a|]|t [] [[a k]|]|[] l|l|[| | | | | |l|l]|]; cbn [fst snd as_map as_list]; try lia; try done.
  specialize (IH (cell m t a) (n + 1)%N). lia.
Qed.

Lemma dynamic_refs v : refs (dynamic v) = refs v.
Proof. by destruct v as [| | | | | | | | | | | |[]|]. Qed.

Lemma reflected_refs v : refs (reflected v) = refs v.
Proof. induction v; cbn; try done. by destruct o. Qed.

Lemma built_entries_refs (l : list (string * oval)) : flat_map (fun x => refs x.2) (map (fun x => (x.1, GBuilt x.2)) l) = [].
Proof. by induction l. Qed.
Lemma built_list_refs (l : list oval) : flat_map refs (map GBuilt l) = [].
Proof. by induction l. Qed.

(** Every reference of a value leads to places that are not under way. *)
Definition below (st : traversal) (l : list sentryVisit) : Prop :=
  forall q, q ∈ l -> Acc (points m) q /\ forall a, a ∈ active st -> tc (points m) q a.

Lemma not_below_itself q : Acc (points m) q -> ~ tc (points m) q q.
Proof.
  induction 1 as [q _ IH]. intros Ht. assert (exists y, rtc (points m) q y /\ points m y q) as (y & Hy & Hyq).
  { clear IH. revert Ht. generalize q at 2 4. intros z Ht. induction Ht as [x z H|x y z H _ (w & Hw & Hz)]; [by exists x; split; [apply rtc_refl|]|].
    exists w. split; [by eapply rtc_l|done]. }
  apply (IH y Hyq). eapply tc_rtc_r; [by apply tc_once|done].
Qed.

Lemma below_fresh st l q : below st l -> q ∈ l -> q ∉ active st.
Proof. intros H Hq Ha. destruct (H q Hq) as [Hacc Ht]. by eapply not_below_itself, Ht. Qed.

Lemma below_sub st l l' : below st l -> (forall q, q ∈ l' -> q ∈ l) -> below st l'.
Proof. intros H Hs q Hq. by apply H, Hs. Qed.

Lemma below_active st st' l : active st' = active st -> below st l -> below st' l.
Proof. intros E H q Hq. destruct (H q Hq) as [Ha Ht]. split; [done|]. rewrite E. done. Qed.

(** What a reference that is entered leads to is below it. *)
Lemma below_entered st q l : below st l -> q ∈ l -> forall n, below (MkTraversal ({[q]} ∪ active st) n) (content_refs m q).
Proof.
  intros H Hq n p Hp. destruct (H q Hq) as [Hacc Ht]. split; [by apply (Acc_inv Hacc)|].
  intros a [->%elem_of_singleton|Ha]%elem_of_union; [by apply tc_once|]. eapply tc_l; [done|]. by apply Ht.
Qed.

(** What remembers agrees with what only counts, from a state. *)
Definition agree {A} (st : traversal) (r : A * traversal) (c : A * N) : Prop :=
  (c.2 <= maxSentryValueNodes)%N -> r = (c.1, MkTraversal (active st) c.2).

Lemma entering_agrees st q l body c : below st l -> q ∈ l ->
  (forall st', below st' (content_refs m q) -> nodes st' = nodes st -> agree st' (body st') c) -> agree st (entering q body st) c.
Proof.
  intros Hb Hq H Hc. pose proof (below_fresh _ _ _ Hb Hq) as Hf. pose proof (below_entered _ _ _ Hb Hq (nodes st)) as He.
  unfold entering, seenSentryReference, leave. destruct (ptr q =? 0).
  - rewrite (H st); [|intros p Hp; destruct (He p Hp) as [Hacc Ht]; split; [done|]; intros a Ha; apply Ht; by apply elem_of_union_r|done|done].
    cbn. do 2 f_equal. set_solver.
  - rewrite bool_decide_eq_false_2 by done. rewrite (H (MkTraversal ({[q]} ∪ active st) (nodes st))) by done.
    cbn. do 2 f_equal. set_solver.
Qed.

Section loops_agree.
Context (nested : string -> gval -> traversal -> oval * traversal) (counted : string -> gval -> N -> oval * N).
Context (Hgrows : forall k v n, (n <= (counted k v n).2)%N).
Context (Hagree : forall k v st, below st (refs v) -> agree st (nested k v st) (counted k v (nodes st))).

Lemma map_loop_agrees l r st : below st (flat_map (fun x => refs x.2) l) -> agree st (map_loop nested l r st) (map_loop counted l r (nodes st)).
Proof.
  pose proof (proj1 (count_grows_loops counted Hgrows)) as Hg.
  revert r st. induction l as [|[k v] l IH]; intros r st Hb; cbn [map_loop]; destruct (_ <=? _); try (intros _; by destruct st).
  pose proof (Hagree k v st) as Ha. destruct (counted k v (nodes st)) as [o n1]. intros Hc. rewrite Ha; cycle 1.
  - eapply below_sub; [exact Hb|]. intros q Hq. cbn. apply elem_of_app. by left.
  - cbn. specialize (Hg l (put k o r) n1). lia.
  - rewrite (IH (put k o r) (MkTraversal (active st) n1)); [done| |done].
    eapply below_active; [done|]. eapply below_sub; [exact Hb|]. intros q Hq. cbn. apply elem_of_app. by right.
Qed.

Lemma list_loop_agrees l st : below st (flat_map refs l) -> agree st (list_loop nested l st) (list_loop counted l (nodes st)).
Proof.
  pose proof (proj1 (proj2 (count_grows_loops counted Hgrows))) as Hg.
  revert st. induction l as [|v l IH]; intros st Hb; cbn [list_loop]; [intros _; by destruct st|].
  pose proof (Hagree "" v st) as Ha. destruct (counted "" v (nodes st)) as [o n1]. specialize (Hg l n1).
  pose proof (IH (MkTraversal (active st) n1)) as Hl. cbn in Hl. destruct (list_loop counted l n1) as [os n2]. cbn in Hg. intros Hc. cbn in Hc.
  rewrite Ha; [|eapply below_sub; [exact Hb|]; intros q Hq; cbn; apply elem_of_app; by left|cbn; lia].
  cbn. rewrite Hl; [done| |done]. eapply below_active; [done|]. eapply below_sub; [exact Hb|]. intros q Hq. cbn. apply elem_of_app. by right.
Qed.

Lemma struct_loop_agrees l r st : below st (flat_map (fun x => refs x.2) l) -> agree st (struct_loop nested l r st) (struct_loop counted l r (nodes st)).
Proof.
  pose proof (proj2 (proj2 (count_grows_loops counted Hgrows))) as Hg.
  revert r st. induction l as [|[f v] l IH]; intros r st Hb; cbn [struct_loop]; [intros _; by destruct st|].
  assert (below st (flat_map (fun x => refs x.2) l)) as Hbl.
  { eapply below_sub; [exact Hb|]. intros q Hq. cbn. apply elem_of_app. by right. }
  destruct (_ <=? _); [intros _; by destruct st|]. destruct (negb _ || _); [by apply IH|]. destruct (_ || _); [by apply IH|].
  pose proof (Hagree (public_name f) v st) as Ha. destruct (counted _ v (nodes st)) as [o n1]. intros Hc. rewrite Ha; cycle 1.
  - eapply below_sub; [exact Hb|]. intros q Hq. cbn. apply elem_of_app. by left.
  - cbn. specialize (Hg l (put (public_name f) o r) n1). lia.
  - by rewrite (IH (put (public_name f) o r) (MkTraversal (active st) n1)).
Qed.
End loops_agree.

Lemma depth_agrees levels key v st : (forall v st, below st (refs v) -> agree st (reflect_walk levels v st) (count_walk levels v (nodes st))) ->
  below st (refs v) -> agree st (depth_walk (reflect_walk levels) levels key v st) (count_depth (count_walk levels) levels key v (nodes st)).
Proof.
  intros H Hb Hc. pose proof (count_value_grows (count_walk levels) levels key v (nodes st) (count_reflected_grows levels)) as Hg.
  unfold sanitizeSentryValueDepth, takeNode. destruct (N.leb_spec maxSentryValueNodes (nodes st)) as [Hm|_]; [lia|]. cbn [negb orb].
  revert Hc. unfold count_value. destruct (sensitive key); [done|].
  destruct (nil_or_not v) as [->|Hv]; [done|]. destruct (levels =? 0); [by destruct (dynamic v)|].
  rewrite <- dynamic_refs in Hb.
  pose proof (H (dynamic v) (MkTraversal (active st) (nodes st + 1)) (below_active _ _ _ eq_refl Hb)) as Hw. unfold agree in Hw. cbn [active nodes] in Hw.
  destruct (dynamic v) as [|[]|[]| | | | | | | | | | |]; try done; apply Hw.
Qed.

Lemma reflect_agrees levels : forall v st, below st (refs v) -> agree st (reflect_walk levels v st) (count_walk levels v (nodes st)).
Proof.
  induction levels as [|levels IH]; intros v st Hb; cbn [sanitizeReflectedSentryValue count_reflected]; [intros _; by destruct st|].
  pose proof (fun k v st => depth_agrees levels k v st IH) as Hd.
  assert (forall k w n, (n <= (count_depth (count_walk levels) levels k w n).2)%N) as Hg.
  { intros k w n. pose proof (count_value_grows (count_walk levels) levels k w n (count_reflected_grows levels)). lia. }
  rewrite <- reflected_refs in Hb. set (nested := depth_walk (reflect_walk levels) levels) in *. set (counted := count_depth (count_walk levels) levels) in *.
  destruct (reflected v) as [| |? s| | | | |t [a|]|t [] [a|]|t [] [[a k]|]|[] l|l|[| | | | | |l|l]|]; try (intros _; by destruct st).
  - eapply entering_agrees; [exact Hb|by left|]. intros st' Hb' Hn Hc.
    pose proof (count_reflected_grows levels (cell m t a) (nodes st + 1)) as Hgr.
    unfold takeNode. destruct (N.leb_spec maxSentryValueNodes (nodes st')) as [Hm|_]; [lia|]. rewrite <- Hn in *.
    rewrite (IH (cell m t a) (MkTraversal (active st') (nodes st' + 1))); [done| |done].
    eapply below_active; [done|]. eapply below_sub; [exact Hb'|]. intros q Hq. apply elem_of_app. by left.
  - cbn [negb]. eapply entering_agrees; [exact Hb|by left|]. intros st' Hb' Hn. rewrite <- Hn. unfold as_map. intros Hc.
    rewrite (map_loop_agrees nested counted Hg Hd _ _ st'); [done| |done].
    eapply below_sub; [exact Hb'|]. intros q Hq. unfold content_refs. rewrite !elem_of_app. by right; left.
  - eapply entering_agrees; [exact Hb|by left|]. intros st' Hb' Hn. rewrite <- Hn. unfold as_list. intros Hc.
    rewrite (list_loop_agrees nested counted Hg Hd _ st'); [done| |done].
    eapply below_sub; [exact Hb'|]. intros q Hq. unfold content_refs. rewrite !elem_of_app. right; right. cbn.
    apply list_elem_of_In, in_flat_map in Hq as (w & (i & <- & Hi)%in_map_iff & Hq). apply list_elem_of_In, in_flat_map. exists (elem m t a i).
    split; [|done]. apply in_map_iff. exists i. split; [done|]. apply in_seq in Hi. apply in_seq. lia.
  - unfold as_list. intros Hc. rewrite (list_loop_agrees nested counted Hg Hd _ st); [done| |done].
    eapply below_sub; [exact Hb|]. intros q Hq. cbn.
    apply list_elem_of_In, in_flat_map in Hq as (w & Hw & Hq). apply list_elem_of_In, in_flat_map. exists w.
    split; [|done]. apply list_elem_of_In in Hw. apply list_elem_of_In. eapply elem_of_take in Hw as (i & Hi & _). by eapply list_elem_of_lookup_2.
  - unfold as_map. intros Hc. rewrite (struct_loop_agrees nested counted Hg Hd _ _ st); [done|exact Hb|done].
  - unfold as_map. intros Hc. rewrite (map_loop_agrees nested counted Hg Hd _ _ st); [done| |done]. by rewrite built_entries_refs.
  - unfold as_list. intros Hc. rewrite (list_loop_agrees nested counted Hg Hd _ st); [done| |done]. by rewrite built_list_refs.
Qed.

(** C26: On a value without cycles that takes no more nodes than the budget, the
    report is that of the walk that remembers nothing: however much of it is
    shared, nothing is mistaken for a cycle or cut off. *)
Theorem sharing_is_no_cycle key v : acyclic m v -> ((countedSentryValue Text format_time m key v).2 <= maxSentryValueNodes)%N ->
  sanitizeSentryValue Text format_time m key v = (countedSentryValue Text format_time m key v).1.
Proof.
  intros Hv Hc. unfold sanitizeSentryValue, sanitizeSentryValueFrom, countedSentryValue in *.
  rewrite (depth_agrees maxSentryValueDepth key v newSentryValueTraversal); [done|apply reflect_agrees| |done].
  intros q Hq. split; [by apply Hv|]. intros a Ha. by apply elem_of_empty in Ha.
Qed.
End walk_proofs.
