(* ===== verification/SentryEvent.v ===== *)
(** * package errors: the events reported to Sentry

    sanitizeSentryEvent of errors/sentry.go with the copies it makes first.  An
    event refers to slices, maps and structs that other events, or the
    application, may share; they are objects of a heap, which is the state of the
    program.  A record is generic in what its references are: addresses for the
    program, the contents themselves for what it is meant to do.  Values of maps
    of type any are those of [SentryValue].  What the sanitizer passes through is
    kept in one field of each record. *)

From S2P Require Import Prelude.
From S2P Require Import GoStrings.
From S2P Require Import RedactBytes.
From S2P Require Import SentryKeys.
From S2P Require Import SentryValue.

Local Open Scope go_scope.

(** ** Records of the SDK *)

Abbreviation tags := (list (string * string)).   (* map[string]string *)
Abbreviation data := (list (string * gval)).     (* map[string]interface{} *)

Section records.
Context {Sl Tg Da O : Type}.                     (* slices of strings, maps, what is passed through *)

Record Frame := MkFrame {
  Function : string; Symbol : string; frame_Module : string; Filename : string; AbsPath : string; Package : string; ContextLine : string;
  PreContext : option Sl; PostContext : option Sl; Vars : option Da; frame_rest : O }.

Record Mechanism := MkMechanism { Type_ : string; mech_Description : string; HelpLink : string; mech_Source : string; mech_Data : option Da; mech_rest : O }.

Record Breadcrumb := MkBreadcrumb { crumb_Message : string; Category : string; crumb_Data : option Da; crumb_rest : O }.

Record Span := MkSpan { Name : string; Description : string; span_Tags : option Tg; span_Extra : option Da; span_Data : option Da; span_rest : O }.

Record Request := MkRequest {
  URL : string; QueryString : string; req_Data : string; Cookies : string; Headers : option Tg; Env : option Tg; req_rest : O }.
End records.
Arguments Frame : clear implicits.
Arguments Mechanism : clear implicits.
Arguments Breadcrumb : clear implicits.
Arguments Span : clear implicits.
Arguments Request : clear implicits.

Section more_records.
Context {Fs St Me O : Type}.                     (* slices of frames, references to stack traces and mechanisms *)

Record Stacktrace := MkStacktrace { Frames : option Fs; stack_rest : O }.
Record Exception := MkException { Value : string; exc_Stacktrace : option St; exc_Mechanism : option Me; exc_rest : O }.
Record Thread := MkThread { ID : string; thread_Name : string; thread_Stacktrace : option St; thread_rest : O }.
End more_records.
Arguments Stacktrace : clear implicits.
Arguments Exception : clear implicits.
Arguments Thread : clear implicits.

(** An event by its references: slices of strings, maps, contexts, and slices of
    breadcrumbs, exceptions, threads and spans. *)
Record Event {Sl Tg Da Cx Bs Es Ts Ss Rq O : Type} := MkEvent {
  Message : string;
  Exception_ : option Es;
  Breadcrumbs : option Bs;
  Extra : option Da;
  Contexts : option Cx;
  Tags : option Tg;
  Fingerprint : option Sl;
  Transaction : string;
  Logger : string;
  Threads : option Ts;
  Spans : option Ss;
  Attachments : list O;
  Logs : list O;
  Metrics : list O;
  User : option O;                               (* unless it is the zero value *)
  Request_ : option Rq;
  sampling : tags;                               (* the dynamic sampling context, private *)
  cached : option O;                             (* private: a serialisation that may differ from the fields *)
  event_rest : O
}.
Arguments Event : clear implicits.

(** ** The heap *)

Definition location := nat.

Section heap.
Context {O : Type}.

Definition sFrame := Frame location location O.
Definition sStacktrace := Stacktrace location O.
Definition sMechanism := Mechanism location O.
Definition sException := Exception location location O.
Definition sThread := Thread location O.
Definition sBreadcrumb := Breadcrumb location O.
Definition sSpan := Span location location O.
Definition sRequest := Request location O.
Definition sEvent := Event location location location location location location location location location O.

Inductive obj :=
| BTexts (l : list string)
| BTags (l : tags)
| BData (l : data)
| BContexts (l : list (string * option location))
| BFrames (l : list sFrame)
| BStacktrace (x : sStacktrace)
| BMechanism (x : sMechanism)
| BExceptions (l : list sException)
| BThreads (l : list sThread)
| BCrumb (x : sBreadcrumb)
| BCrumbs (l : list (option location))
| BSpan (x : sSpan)
| BSpans (l : list (option location))
| BRequest (x : sRequest).

Abbreviation heap := (gmap location obj).

(** Programs over the heap; [None] where an object is missing or of another type. *)
Definition HM (A : Type) : Type := heap -> option (A * heap).
Definition hret {A} (a : A) : HM A := fun h => Some (a, h).
Definition hbind {A B} (f : HM A) (k : A -> HM B) : HM B := fun h =>
  match f h with Some (a, h) => k a h | None => None end.
Definition hfail {A} : HM A := fun _ => None.
Definition alloc (o : obj) : HM location := fun h => let a := fresh (dom h) in Some (a, <[a := o]> h).
Definition load (a : location) : HM obj := fun h => match h !! a with Some o => Some (o, h) | None => None end.
Definition store (a : location) (o : obj) : HM unit := fun h => match h !! a with Some _ => Some (tt, <[a := o]> h) | None => None end.
End heap.
Arguments obj : clear implicits.

Notation "'with!' x := f 'in' k" := (hbind f (fun x => k))
  (at level 10, x pattern, f at level 100, k at level 200) : go_scope.

Section programs.
Context {O : Type}.
Abbreviation HM := (@HM O).
Abbreviation sFrame := (@sFrame O).
Abbreviation sStacktrace := (@sStacktrace O).
Abbreviation sMechanism := (@sMechanism O).
Abbreviation sException := (@sException O).
Abbreviation sThread := (@sThread O).
Abbreviation sBreadcrumb := (@sBreadcrumb O).
Abbreviation sSpan := (@sSpan O).
Abbreviation sRequest := (@sRequest O).
Abbreviation sEvent := (@sEvent O).

(** How a kind of content is kept in an object. *)
Record layout (X : Type) := MkLayout { put_in : X -> obj O; take_out : obj O -> option X }.
Arguments put_in {X}. Arguments take_out {X}.

Definition texts : layout (list string) := MkLayout _ BTexts (fun o => match o with BTexts l => Some l | _ => None end).
Definition tag_map : layout tags := MkLayout _ BTags (fun o => match o with BTags l => Some l | _ => None end).
Definition data_map : layout data := MkLayout _ BData (fun o => match o with BData l => Some l | _ => None end).
Definition context_map : layout (list (string * option location)) := MkLayout _ BContexts (fun o => match o with BContexts l => Some l | _ => None end).
Definition frames : layout (list sFrame) := MkLayout _ BFrames (fun o => match o with BFrames l => Some l | _ => None end).
Definition stacktrace : layout sStacktrace := MkLayout _ BStacktrace (fun o => match o with BStacktrace x => Some x | _ => None end).
Definition mechanism : layout sMechanism := MkLayout _ BMechanism (fun o => match o with BMechanism x => Some x | _ => None end).
Definition exceptions : layout (list sException) := MkLayout _ BExceptions (fun o => match o with BExceptions l => Some l | _ => None end).
Definition threads : layout (list sThread) := MkLayout _ BThreads (fun o => match o with BThreads l => Some l | _ => None end).
Definition crumb : layout sBreadcrumb := MkLayout _ BCrumb (fun o => match o with BCrumb x => Some x | _ => None end).
Definition crumbs : layout (list (option location)) := MkLayout _ BCrumbs (fun o => match o with BCrumbs l => Some l | _ => None end).
Definition span : layout sSpan := MkLayout _ BSpan (fun o => match o with BSpan x => Some x | _ => None end).
Definition spans : layout (list (option location)) := MkLayout _ BSpans (fun o => match o with BSpans l => Some l | _ => None end).
Definition request : layout sRequest := MkLayout _ BRequest (fun o => match o with BRequest x => Some x | _ => None end).

Definition get {X} (L : layout X) (a : location) : HM X :=
  with! o := load a in match take_out L o with Some x => hret x | None => hfail end.
Definition set_ {X} (L : layout X) (a : location) (x : X) : HM unit := store a (put_in L x).
Definition new {X} (L : layout X) (x : X) : HM location := alloc (put_in L x).

(** References may be nil. *)
Definition unless_nil {X Y} (f : X -> HM Y) (x : option X) : HM (option Y) :=
  match x with None => hret None | Some x => with! y := f x in hret (Some y) end.
Definition on {X} (f : X -> HM unit) (x : option X) : HM unit := match x with None => hret tt | Some x => f x end.

(** The elements of a slice in order, each read, changed and written back. *)
Fixpoint each_from {X} (L : layout (list X)) (f : X -> HM X) (a : location) (i n : nat) : HM unit :=
  match n with
  | 0 => hret tt
  | S n =>
      with! l := get L a in
      match l !! i with
      | None => hfail
      | Some x =>
          with! x := f x in
          with! l := get L a in
          with! _ := set_ L a (<[i := x]> l) in each_from L f a (S i) n
      end
  end.
Definition each {X} (L : layout (list X)) (f : X -> HM X) (a : location) : HM unit :=
  with! l := get L a in each_from L f a 0 (length l).

(** for _, value := range values: what the elements are is fixed before. *)
Fixpoint for_all {X} (f : X -> HM unit) (l : list X) : HM unit :=
  match l with [] => hret tt | x :: l => with! _ := f x in for_all f l end.

(** maps.Clone and slices.Clone of one object *)
Definition clone_object {X} (L : layout X) (a : location) : HM location := with! x := get L a in new L x.

(** ** Copies *)

Definition cloneSentryBreadcrumb (a : location) : HM location :=
  with! b := get crumb a in
  with! d := unless_nil (clone_object data_map) (crumb_Data b) in
  new crumb (MkBreadcrumb (crumb_Message b) (Category b) d (crumb_rest b)).

Definition clone_frame (f : sFrame) : HM sFrame :=
  with! vars := unless_nil (clone_object data_map) (Vars f) in
  with! pre := unless_nil (clone_object texts) (PreContext f) in
  with! post := unless_nil (clone_object texts) (PostContext f) in
  hret (MkFrame (Function f) (Symbol f) (frame_Module f) (Filename f) (AbsPath f) (Package f) (ContextLine f) pre post vars (frame_rest f)).

(** A slice is copied, then the elements of the copy replaced by copies. *)
Definition clone_slice {X} (L : layout (list X)) (f : X -> HM X) (a : location) : HM location :=
  with! c := clone_object L a in with! _ := each L f c in hret c.

Definition cloneSentryStacktrace (a : location) : HM location :=
  with! s := get stacktrace a in
  with! fs := unless_nil (clone_slice frames clone_frame) (Frames s) in
  new stacktrace (MkStacktrace fs (stack_rest s)).

Definition clone_mechanism (a : location) : HM location :=
  with! x := get mechanism a in
  with! d := unless_nil (clone_object data_map) (mech_Data x) in
  new mechanism (MkMechanism (Type_ x) (mech_Description x) (HelpLink x) (mech_Source x) d (mech_rest x)).

Definition clone_exception (x : sException) : HM sException :=
  with! s := unless_nil cloneSentryStacktrace (exc_Stacktrace x) in
  with! k := unless_nil clone_mechanism (exc_Mechanism x) in
  hret (MkException (Value x) s k (exc_rest x)).

Definition clone_thread (x : sThread) : HM sThread :=
  with! s := unless_nil cloneSentryStacktrace (thread_Stacktrace x) in
  hret (MkThread (ID x) (thread_Name x) s (thread_rest x)).

Definition cloneSentrySpanSnapshot (a : location) : HM location :=
  with! x := get span a in
  with! t := unless_nil (clone_object tag_map) (span_Tags x) in
  with! e := unless_nil (clone_object data_map) (span_Extra x) in
  with! d := unless_nil (clone_object data_map) (span_Data x) in
  new span (MkSpan (Name x) (Description x) t e d (span_rest x)).

Definition clone_request (a : location) : HM location :=
  with! x := get request a in
  with! h := unless_nil (clone_object tag_map) (Headers x) in
  with! e := unless_nil (clone_object tag_map) (Env x) in
  new request (MkRequest (URL x) (QueryString x) (req_Data x) (Cookies x) h e (req_rest x)).

Definition clone_context (x : string * option location) : HM (string * option location) :=
  with! v := unless_nil (clone_object data_map) x.2 in hret (x.1, v).

Definition detachSentryEvent (e : sEvent) : HM sEvent :=
  with! bs := unless_nil (clone_slice crumbs (unless_nil cloneSentryBreadcrumb)) (Breadcrumbs e) in
  with! extra := unless_nil (clone_object data_map) (Extra e) in
  with! cs := unless_nil (clone_slice context_map clone_context) (Contexts e) in
  with! ts := unless_nil (clone_object tag_map) (Tags e) in
  with! fp := unless_nil (clone_object texts) (Fingerprint e) in
  with! es := unless_nil (clone_slice exceptions clone_exception) (Exception_ e) in
  with! th := unless_nil (clone_slice threads clone_thread) (Threads e) in
  with! rq := unless_nil clone_request (Request_ e) in
  with! ss := unless_nil (clone_slice spans (unless_nil cloneSentrySpanSnapshot)) (Spans e) in
  hret (MkEvent _ _ _ _ _ _ _ _ _ _ (Message e) es bs extra cs ts fp (Transaction e) (Logger e) th ss (Attachments e) (Logs e) (Metrics e)
    (User e) rq (sampling e) (cached e) (event_rest e)).

(** ** The sanitizer *)

Section sanitizer.
Context (Text : string -> string) (HeaderValue : string -> string -> string) (format_time : Z -> string) (m : memory).

Definition safe_text (key value : string) : string := if sensitive key then Mask else Text value.
Definition safe_header (key value : string) : string := if sensitive key then Mask else HeaderValue key (Text value).

(** The values made by sanitizeSentryMap. *)
Definition safe_data (values : data) : data := (fun x => (x.1, GBuilt x.2)) <$> sanitizeSentryMap Text format_time m values.
Definition safe_tags (f : string -> string -> string) (values : tags) : tags := (fun x => (x.1, f x.1 x.2)) <$> values.

Definition change {X} (L : layout X) (f : X -> X) (a : location) : HM unit := with! x := get L a in set_ L a (f x).

Definition sanitize_map : location -> HM unit := change data_map safe_data.
Definition sanitize_texts : location -> HM unit := each texts (fun x => hret (Text x)).

Definition sanitize_frame (f : sFrame) : HM sFrame :=
  with! _ := on sanitize_texts (PreContext f) in
  with! _ := on sanitize_texts (PostContext f) in
  with! _ := on sanitize_map (Vars f) in
  hret (MkFrame (Text (Function f)) (Text (Symbol f)) (Text (frame_Module f)) (Text (Filename f)) (Text (AbsPath f)) (Text (Package f))
    (Text (ContextLine f)) (PreContext f) (PostContext f) (Vars f) (frame_rest f)).

Definition sanitizeSentryStacktrace (a : location) : HM unit :=
  with! s := get stacktrace a in on (each frames sanitize_frame) (Frames s).

Definition sanitize_mechanism (a : location) : HM unit :=
  with! x := get mechanism a in
  with! _ := set_ mechanism a (MkMechanism (Text (Type_ x)) (Text (mech_Description x)) (Text (HelpLink x)) (Text (mech_Source x)) (mech_Data x) (mech_rest x)) in
  on sanitize_map (mech_Data x).

Definition sanitize_exception (x : sException) : HM sException :=
  with! _ := on sanitizeSentryStacktrace (exc_Stacktrace x) in
  with! _ := on sanitize_mechanism (exc_Mechanism x) in
  hret (MkException (Text (Value x)) (exc_Stacktrace x) (exc_Mechanism x) (exc_rest x)).

Definition sanitize_breadcrumb (a : location) : HM unit :=
  with! b := get crumb a in
  with! _ := set_ crumb a (MkBreadcrumb (Text (crumb_Message b)) (Text (Category b)) (crumb_Data b) (crumb_rest b)) in
  on sanitize_map (crumb_Data b).

Definition sanitize_thread (x : sThread) : HM sThread :=
  with! _ := on sanitizeSentryStacktrace (thread_Stacktrace x) in
  hret (MkThread (Text (ID x)) (Text (thread_Name x)) (thread_Stacktrace x) (thread_rest x)).

Definition sanitize_span (a : location) : HM unit :=
  with! x := get span a in
  with! _ := set_ span a (MkSpan (Text (Name x)) (Text (Description x)) (span_Tags x) (span_Extra x) (span_Data x) (span_rest x)) in
  with! _ := on sanitize_map (span_Data x) in
  with! _ := on sanitize_map (span_Extra x) in
  on (change tag_map (safe_tags safe_text)) (span_Tags x).

Definition sanitize_request (a : location) : HM unit :=
  with! x := get request a in
  with! _ := set_ request a (MkRequest (Text (URL x)) Mask Mask Mask (Headers x) (Env x) (req_rest x)) in
  with! _ := on (change tag_map (safe_tags safe_header)) (Headers x) in
  on (change tag_map (safe_tags safe_text)) (Env x).

(** A sampling context with a text that would not be reported as it is. *)
Definition unsafe_sampling (l : tags) : bool :=
  existsb (fun x => negb (String.eqb (Text x.1) x.1) ||
                    match sanitizeSentryValue Text format_time m x.1 (GString true x.2) with OString s => negb (String.eqb s x.2) | _ => true end) l.

(** sentryEventWithoutPrivateMetadata *)
Definition without_private (e : sEvent) : sEvent :=
  MkEvent _ _ _ _ _ _ _ _ _ _ (Message e) (Exception_ e) (Breadcrumbs e) (Extra e) (Contexts e) (Tags e) (Fingerprint e) (Transaction e)
    (Logger e) (Threads e) (Spans e) (Attachments e) (Logs e) (Metrics e) (User e) (Request_ e) [] None (event_rest e).

(** The sampling context is installed again, and nothing serialised before kept.
    The SDK's MakeSerializationSafe, called last, fills the cache again from the
    fields as they are now: it serialises to the bytes the event without a
    cache does, so [cached] stays [None], which says just that. *)
Definition rebuildSanitizedSentryEvent (e : sEvent) : sEvent :=
  let r := without_private e in
  MkEvent _ _ _ _ _ _ _ _ _ _ (Message r) (Exception_ r) (Breadcrumbs r) (Extra r) (Contexts r) (Tags r) (Fingerprint r) (Transaction r)
    (Logger r) (Threads r) (Spans r) (Attachments r) (Logs r) (Metrics r) (User r) (Request_ r) (sampling e) (cached r) (event_rest r).

Definition sanitizeSentryEvent (original : sEvent) : HM sEvent :=
  with! e := detachSentryEvent original in
  let e := if unsafe_sampling (sampling e) then without_private e else e in
  with! _ := on (each exceptions sanitize_exception) (Exception_ e) in
  with! _ := on (fun a => with! l := get crumbs a in for_all (on sanitize_breadcrumb) l) (Breadcrumbs e) in
  with! _ := on sanitize_map (Extra e) in
  with! _ := on (fun a => with! l := get context_map a in for_all (fun x => on sanitize_map x.2) l) (Contexts e) in
  with! _ := on (change tag_map (safe_tags safe_text)) (Tags e) in
  with! _ := on sanitize_texts (Fingerprint e) in
  with! _ := on (each threads sanitize_thread) (Threads e) in
  with! _ := on (fun a => with! l := get spans a in for_all (on sanitize_span) l) (Spans e) in
  with! _ := on sanitize_request (Request_ e) in
  hret (rebuildSanitizedSentryEvent
    (MkEvent _ _ _ _ _ _ _ _ _ _ (Text (Message e)) (Exception_ e) (Breadcrumbs e) (Extra e) (Contexts e) (Tags e) (Fingerprint e)
       (Text (Transaction e)) (Text (Logger e)) (Threads e) (Spans e) [] [] [] None (Request_ e) (sampling e) (cached e) (event_rest e))).

(** BeforeSend and BeforeSendTransaction: an application's hook, which may answer
    with any event and change the heap, stands between two passes. *)
Definition before_send (hook : option (sEvent -> HM (option sEvent))) (event : sEvent) : HM (option sEvent) :=
  with! event := sanitizeSentryEvent event in
  with! event := match hook with None => hret (Some event) | Some hook => hook event end in
  unless_nil sanitizeSentryEvent event.
End sanitizer.
End programs.

(** ** What the sanitizer is meant to do

    The same records, holding their contents. *)

Section contents.
Context {O : Type}.

Definition dFrame := Frame (list string) data O.
Definition dStacktrace := Stacktrace (list dFrame) O.
Definition dMechanism := Mechanism data O.
Definition dException := Exception dStacktrace dMechanism O.
Definition dThread := Thread dStacktrace O.
Definition dBreadcrumb := Breadcrumb data O.
Definition dSpan := Span tags data O.
Definition dRequest := Request tags O.
Definition dContexts := list (string * option data).
Definition dEvent := Event (list string) tags data dContexts (list (option dBreadcrumb)) (list dException) (list dThread) (list (option dSpan)) dRequest O.

Context (Text : string -> string) (HeaderValue : string -> string -> string) (format_time : Z -> string) (m : memory).
Abbreviation safe_data := (safe_data Text format_time m).
Abbreviation safe_tags_of := (safe_tags (safe_text Text)).

Definition safe_frame (f : dFrame) : dFrame :=
  MkFrame (Text (Function f)) (Text (Symbol f)) (Text (frame_Module f)) (Text (Filename f)) (Text (AbsPath f)) (Text (Package f))
    (Text (ContextLine f)) (map Text <$> PreContext f) (map Text <$> PostContext f) (safe_data <$> Vars f) (frame_rest f).
Definition safe_stacktrace (s : dStacktrace) : dStacktrace := MkStacktrace (map safe_frame <$> Frames s) (stack_rest s).
Definition safe_mechanism (x : dMechanism) : dMechanism :=
  MkMechanism (Text (Type_ x)) (Text (mech_Description x)) (Text (HelpLink x)) (Text (mech_Source x)) (safe_data <$> mech_Data x) (mech_rest x).
Definition safe_exception (x : dException) : dException :=
  MkException (Text (Value x)) (safe_stacktrace <$> exc_Stacktrace x) (safe_mechanism <$> exc_Mechanism x) (exc_rest x).
Definition safe_thread (x : dThread) : dThread :=
  MkThread (Text (ID x)) (Text (thread_Name x)) (safe_stacktrace <$> thread_Stacktrace x) (thread_rest x).
Definition safe_breadcrumb (b : dBreadcrumb) : dBreadcrumb :=
  MkBreadcrumb (Text (crumb_Message b)) (Text (Category b)) (safe_data <$> crumb_Data b) (crumb_rest b).
Definition safe_span (x : dSpan) : dSpan :=
  MkSpan (Text (Name x)) (Text (Description x)) (safe_tags_of <$> span_Tags x) (safe_data <$> span_Extra x) (safe_data <$> span_Data x) (span_rest x).
Definition safe_request (x : dRequest) : dRequest :=
  MkRequest (Text (URL x)) Mask Mask Mask (safe_tags (safe_header Text HeaderValue) <$> Headers x) (safe_tags_of <$> Env x) (req_rest x).
Definition safe_context (x : string * option data) : string * option data := (x.1, safe_data <$> x.2).
Definition safe_contexts (l : dContexts) : dContexts := map safe_context l.

Definition safe_event (e : dEvent) : dEvent :=
  MkEvent _ _ _ _ _ _ _ _ _ _ (Text (Message e)) (map safe_exception <$> Exception_ e) (map (option_map safe_breadcrumb) <$> Breadcrumbs e)
    (safe_data <$> Extra e) (safe_contexts <$> Contexts e) (safe_tags_of <$> Tags e) (map Text <$> Fingerprint e)
    (Text (Transaction e)) (Text (Logger e)) (map safe_thread <$> Threads e) (map (option_map safe_span) <$> Spans e) [] [] [] None
    (safe_request <$> Request_ e) (if unsafe_sampling Text format_time m (sampling e) then [] else sampling e) None (event_rest e).
End contents.

(** ** What an event shows

    The texts of an event outside its maps; its maps of values; its maps of
    texts, and the headers. *)

Section shown.
Context {O : Type}.
Abbreviation dFrame := (@dFrame O).
Abbreviation dEvent := (@dEvent O).

Definition of_opt {A B} (f : A -> list B) (o : option A) : list B := match o with Some a => f a | None => [] end.
Definition of_list {A B} (f : A -> list B) (o : option (list A)) : list B := of_opt (flat_map f) o.

Definition frame_texts (f : dFrame) : list string :=
  [Function f; Symbol f; frame_Module f; Filename f; AbsPath f; Package f; ContextLine f] ++ of_opt id (PreContext f) ++ of_opt id (PostContext f).
Definition stack_texts (s : @dStacktrace O) : list string := of_list frame_texts (Frames s).
Definition stack_data (s : @dStacktrace O) : list data := of_list (fun f => option_list (Vars f)) (Frames s).

Definition event_texts (e : dEvent) : list string :=
  [Message e; Transaction e; Logger e] ++ of_opt id (Fingerprint e)
  ++ of_list (fun x => Value x :: of_opt stack_texts (exc_Stacktrace x)
                       ++ of_opt (fun k => [Type_ k; mech_Description k; HelpLink k; mech_Source k]) (exc_Mechanism x)) (Exception_ e)
  ++ of_list (of_opt (fun b => [crumb_Message b; Category b])) (Breadcrumbs e)
  ++ of_list (fun t => ID t :: thread_Name t :: of_opt stack_texts (thread_Stacktrace t)) (Threads e)
  ++ of_list (of_opt (fun s => [Name s; Description s])) (Spans e)
  ++ of_opt (fun r => [URL r; QueryString r; req_Data r; Cookies r]) (Request_ e).

Definition event_data (e : dEvent) : list data :=
  option_list (Extra e) ++ of_list (fun c => option_list c.2) (Contexts e)
  ++ of_list (fun x => of_opt stack_data (exc_Stacktrace x) ++ of_opt (fun k => option_list (mech_Data k)) (exc_Mechanism x)) (Exception_ e)
  ++ of_list (of_opt (fun b => option_list (crumb_Data b))) (Breadcrumbs e)
  ++ of_list (fun t => of_opt stack_data (thread_Stacktrace t)) (Threads e)
  ++ of_list (of_opt (fun s => option_list (span_Data s) ++ option_list (span_Extra s))) (Spans e).

Definition event_tags (e : dEvent) : list tags :=
  option_list (Tags e) ++ of_list (of_opt (fun s => option_list (span_Tags s))) (Spans e) ++ of_opt (fun r => option_list (Env r)) (Request_ e).

Definition event_headers (e : dEvent) : list tags := of_opt (fun r => option_list (Headers r)) (Request_ e).
End shown.
