(* ===== verification/SentryEventProofs.v ===== *)
(** * Sentry events: the sanitizer does what it is meant to do

    Assertions say what an event and the objects of a heap hold, in two ways: by
    reading ([seen]), where objects may be shared, and by owning ([owned]), where
    the heap consists of the objects, each used once.  A [triple] is about the
    part of a heap that is owned, beside a part that is only read and stays as it
    is; from these, copies are seen to read the original and own what they make,
    and the sanitizer to change what it owns. *)

From S2P Require Import Prelude.
From S2P Require Import GoStrings.
From S2P Require Import RedactBytes.
From S2P Require Import SentryKeys.
From S2P Require Import SentryValue.
From S2P Require Import SentryValueProofs.
From S2P Require Import SentryEvent.

Local Open Scope go_scope.

Section logic.
Context {O : Type}.
Abbreviation heap := (gmap location (obj O)).
Abbreviation HM := (@HM O).
Abbreviation sFrame := (@sFrame O).
Abbreviation sStacktrace := (@sStacktrace O).
Abbreviation sMechanism := (@sMechanism O).
Abbreviation sException := (@sException O).
Abbreviation sThread := (@sThread O).
Abbreviation sBreadcrumb := (@sBreadcrumb O).
Abbreviation sSpan := (@sSpan O).
Abbreviation sRequest := (@sRequest O).
Abbreviation sEvent := (@sEvent O).
Abbreviation dFrame := (@dFrame O).
Abbreviation dStacktrace := (@dStacktrace O).
Abbreviation dMechanism := (@dMechanism O).
Abbreviation dException := (@dException O).
Abbreviation dThread := (@dThread O).
Abbreviation dBreadcrumb := (@dBreadcrumb O).
Abbreviation dSpan := (@dSpan O).
Abbreviation dRequest := (@dRequest O).
Abbreviation dEvent := (@dEvent O).
Definition asn : Type := heap -> Prop.

(** ** Assertions *)

Class Logic := { sep : asn -> asn -> asn; holds : location -> obj O -> asn; emp : asn }.

Definition owned : Logic := {|
  sep P Q h := exists h1 h2, h = h1 ∪ h2 /\ h1 ##ₘ h2 /\ P h1 /\ Q h2;
  holds a o h := h = {[a := o]};
  emp h := h = ∅ |}.

Definition seen : Logic := {| sep P Q h := P h /\ Q h; holds a o h := h !! a = Some o; emp _ := True |}.

Section rep.
Context {L : Logic}.

Definition pure_sep (p : Prop) (P : asn) : asn := fun h => p /\ P h.

Definition rep_opt {X D} (R : X -> D -> asn) (x : option X) (d : option D) : asn :=
  match x, d with None, None => emp | Some x, Some d => R x d | _, _ => fun _ => False end.

Fixpoint rep_list {X D} (R : X -> D -> asn) (xs : list X) (ds : list D) : asn :=
  match xs, ds with
  | [], [] => emp
  | x :: xs, d :: ds => sep (R x d) (rep_list R xs ds)
  | _, _ => fun _ => False
  end.

(** An object with its content, or with what its content stands for. *)
Definition rep_object {X} (Y : layout (O := O) X) (a : location) (x : X) : asn := holds a (put_in _ Y x).
Definition rep_cell {X D} (Y : layout (O := O) X) (R : X -> D -> asn) (a : location) (d : D) : asn :=
  fun h => exists x, sep (rep_object Y a x) (R x d) h.

Definition rep_frame (f : sFrame) (d : dFrame) : asn :=
  pure_sep ((Function f, Symbol f, frame_Module f, Filename f, AbsPath f, Package f, ContextLine f, frame_rest f) =
            (Function d, Symbol d, frame_Module d, Filename d, AbsPath d, Package d, ContextLine d, frame_rest d))
    (sep (sep (rep_opt (rep_object data_map) (Vars f) (Vars d)) (rep_opt (rep_object texts) (PreContext f) (PreContext d)))
         (rep_opt (rep_object texts) (PostContext f) (PostContext d))).

Definition rep_stacktrace : location -> dStacktrace -> asn :=
  rep_cell stacktrace (fun s d => pure_sep (stack_rest s = stack_rest d) (rep_opt (rep_cell frames (rep_list rep_frame)) (Frames s) (Frames d))).

Definition rep_mechanism : location -> dMechanism -> asn :=
  rep_cell mechanism (fun x d =>
    pure_sep ((Type_ x, mech_Description x, HelpLink x, mech_Source x, mech_rest x) = (Type_ d, mech_Description d, HelpLink d, mech_Source d, mech_rest d))
      (rep_opt (rep_object data_map) (mech_Data x) (mech_Data d))).

Definition rep_exception (x : sException) (d : dException) : asn :=
  pure_sep ((Value x, exc_rest x) = (Value d, exc_rest d))
    (sep (rep_opt rep_stacktrace (exc_Stacktrace x) (exc_Stacktrace d)) (rep_opt rep_mechanism (exc_Mechanism x) (exc_Mechanism d))).

Definition rep_thread (x : sThread) (d : dThread) : asn :=
  pure_sep ((ID x, thread_Name x, thread_rest x) = (ID d, thread_Name d, thread_rest d))
    (rep_opt rep_stacktrace (thread_Stacktrace x) (thread_Stacktrace d)).

Definition rep_crumb : location -> dBreadcrumb -> asn :=
  rep_cell crumb (fun x d => pure_sep ((crumb_Message x, Category x, crumb_rest x) = (crumb_Message d, Category d, crumb_rest d))
    (rep_opt (rep_object data_map) (crumb_Data x) (crumb_Data d))).

Definition rep_span : location -> dSpan -> asn :=
  rep_cell span (fun x d => pure_sep ((Name x, Description x, span_rest x) = (Name d, Description d, span_rest d))
    (sep (sep (rep_opt (rep_object tag_map) (span_Tags x) (span_Tags d)) (rep_opt (rep_object data_map) (span_Extra x) (span_Extra d)))
         (rep_opt (rep_object data_map) (span_Data x) (span_Data d)))).

Definition rep_request : location -> dRequest -> asn :=
  rep_cell request (fun x d =>
    pure_sep ((URL x, QueryString x, req_Data x, Cookies x, req_rest x) = (URL d, QueryString d, req_Data d, Cookies d, req_rest d))
      (sep (rep_opt (rep_object tag_map) (Headers x) (Headers d)) (rep_opt (rep_object tag_map) (Env x) (Env d)))).

Definition rep_context (x : string * option location) (d : string * option data) : asn :=
  pure_sep (x.1 = d.1) (rep_opt (rep_object data_map) x.2 d.2).

Definition rep_event (e : sEvent) (d : dEvent) : asn :=
  pure_sep ((Message e, Transaction e, Logger e, Attachments e, Logs e, Metrics e, User e, sampling e, cached e, event_rest e) =
            (Message d, Transaction d, Logger d, Attachments d, Logs d, Metrics d, User d, sampling d, cached d, event_rest d))
   (sep (sep (sep (sep (sep (sep (sep (sep
      (rep_opt (rep_cell crumbs (rep_list (rep_opt rep_crumb))) (Breadcrumbs e) (Breadcrumbs d))
      (rep_opt (rep_object data_map) (Extra e) (Extra d)))
      (rep_opt (rep_cell context_map (rep_list rep_context)) (Contexts e) (Contexts d)))
      (rep_opt (rep_object tag_map) (Tags e) (Tags d)))
      (rep_opt (rep_object texts) (Fingerprint e) (Fingerprint d)))
      (rep_opt (rep_cell exceptions (rep_list rep_exception)) (Exception_ e) (Exception_ d)))
      (rep_opt (rep_cell threads (rep_list rep_thread)) (Threads e) (Threads d)))
      (rep_opt rep_request (Request_ e) (Request_ d)))
      (rep_opt (rep_cell spans (rep_list (rep_opt rep_span))) (Spans e) (Spans d))).
End rep.

(** ** What is owned can be seen *)

Definition shows (P Q : asn) : Prop := (forall h, P h -> Q h) /\ (forall h h', h ⊆ h' -> Q h -> Q h').

Lemma shows_emp : shows (@emp owned) (@emp seen).
Proof. by split. Qed.
Lemma shows_holds a o : shows (@holds owned a o) (@holds seen a o).
Proof.
  split; cbn; [intros h ->; apply lookup_singleton_eq|]. intros h h' Hs H. by eapply lookup_weaken.
Qed.
Lemma shows_sep P Q P' Q' : shows P P' -> shows Q Q' -> shows (@sep owned P Q) (@sep seen P' Q').
Proof.
  intros [HP MP] [HQ MQ]. split; cbn.
  - intros h (h1 & h2 & -> & Hd & H1 & H2). split; [apply (MP h1); [by apply map_union_subseteq_l|by apply HP]|].
    apply (MQ h2); [by apply map_union_subseteq_r|by apply HQ].
  - intros h h' Hs [H1 H2]. split; [by apply (MP h)|by apply (MQ h)].
Qed.
Lemma shows_pure p P Q : shows P Q -> shows (pure_sep p P) (pure_sep p Q).
Proof. intros [H M]. split; [intros h [? ?]; split; auto|intros h h' Hs [? ?]; split; eauto]. Qed.
Lemma shows_false P : shows (fun _ => False) P -> shows (fun _ => False) (fun _ => False).
Proof. by split. Qed.
Lemma shows_opt {X D} (R R' : X -> D -> asn) x d : (forall x d, shows (R x d) (R' x d)) -> shows (@rep_opt owned _ _ R x d) (@rep_opt seen _ _ R' x d).
Proof. intros H. destruct x, d; cbn; [apply H|by split|by split|apply shows_emp]. Qed.
Lemma shows_list {X D} (R R' : X -> D -> asn) xs ds : (forall x d, shows (R x d) (R' x d)) -> shows (@rep_list owned _ _ R xs ds) (@rep_list seen _ _ R' xs ds).
Proof.
  intros H. revert ds. induction xs as [|x xs IH]; intros [|d ds]; cbn [rep_list]; [apply shows_emp|by split|by split|].
  by apply shows_sep.
Qed.
Lemma shows_cell {X D} (Y : layout (O := O) X) (R R' : X -> D -> asn) a d : (forall x d, shows (R x d) (R' x d)) ->
  shows (@rep_cell owned _ _ Y R a d) (@rep_cell seen _ _ Y R' a d).
Proof.
  intros H. assert (forall x, shows (@sep owned (@rep_object owned _ Y a x) (R x d)) (@sep seen (@rep_object seen _ Y a x) (R' x d))) as Hs.
  { intros x. apply shows_sep; [apply shows_holds|apply H]. }
  split; [intros h [x Hx]|intros h h' Hh [x Hx]]; exists x; [by apply Hs|by eapply Hs].
Qed.

Create HintDb shows.
#[local] Hint Resolve shows_emp shows_holds shows_sep shows_pure shows_opt shows_list shows_cell : shows.

Lemma shows_stacktrace a d : shows (@rep_stacktrace owned a d) (@rep_stacktrace seen a d).
Proof. unfold rep_stacktrace, rep_frame, rep_object. auto 15 with shows. Qed.
#[local] Hint Resolve shows_stacktrace : shows.
Lemma shows_event e d : shows (@rep_event owned e d) (@rep_event seen e d).
Proof.
  unfold rep_event, rep_crumb, rep_context, rep_exception, rep_mechanism, rep_thread, rep_request, rep_span, rep_object. auto 30 with shows.
Qed.

(** ** Triples *)

Declare Scope asn_scope.
Notation "P ∗ Q" := (@sep owned P Q) (at level 80, right associativity) : asn_scope.
Local Open Scope asn_scope.
Abbreviation star := (@sep owned).
Abbreviation has Y a x := (@rep_object owned _ Y a x).

Section triples.
Context (h0 : heap).                             (* what is only read *)

Definition triple {A} (P : asn) (f : HM A) (Q : A -> asn) : Prop := forall h hf, P h -> h ##ₘ hf -> h0 ⊆ hf ->
  exists r h', f (h ∪ hf) = Some (r, h' ∪ hf) /\ h' ##ₘ hf /\ Q r h'.

Lemma t_ret {A} (P : asn) (Q : A -> asn) r : (forall h, P h -> Q r h) -> triple P (hret r) Q.
Proof. intros H h hf HP Hd _. exists r, h. split; [done|]. split; [done|]. by apply H. Qed.

Lemma t_bind {A B} (P : asn) (f : HM A) (R : A -> asn) (k : A -> HM B) Q : triple P f R -> (forall r, triple (R r) (k r) Q) -> triple P (hbind f k) Q.
Proof.
  intros Hf Hk h hf HP Hd Hs. destruct (Hf h hf HP Hd Hs) as (r & h1 & E & Hd1 & HR). destruct (Hk r h1 hf HR Hd1 Hs) as (r2 & h2 & E2 & Hd2 & HQ).
  exists r2, h2. unfold hbind. by rewrite E.
Qed.

Lemma t_weaken {A} (P P' : asn) (f : HM A) (Q Q' : A -> asn) : (forall h, P' h -> P h) -> (forall r h, Q r h -> Q' r h) -> triple P f Q -> triple P' f Q'.
Proof. intros HP HQ H h hf Hh Hd Hs. destruct (H h hf (HP _ Hh) Hd Hs) as (r & h' & ? & ? & ?). exists r, h'. auto. Qed.

Lemma t_exists {A X} (P : X -> asn) (f : HM A) Q : (forall x, triple (P x) f Q) -> triple (fun h => exists x, P x h) f Q.
Proof. intros H h hf [x Hx]. by apply (H x). Qed.

Lemma t_pure {A} (p : Prop) P (f : HM A) Q : (p -> triple P f Q) -> triple (pure_sep p P) f Q.
Proof. intros H h hf [Hp HP]. by apply (H Hp). Qed.

Lemma t_false {A} (P : asn) (f : HM A) Q : (forall h, ~ P h) -> triple P f Q.
Proof. intros H h hf HP. by destruct (H h). Qed.

(** The frame rule, on either side. *)
Lemma t_frame_l {A} (P R : asn) (f : HM A) (Q : A -> asn) : triple P f Q -> triple (P ∗ R) f (fun r => Q r ∗ R).
Proof.
  intros H h hf (h1 & h2 & -> & Hd & HP & HR) Hdf Hs. apply map_disjoint_union_l in Hdf as [Hd1 Hd2].
  destruct (H h1 (h2 ∪ hf)) as (r & h' & E & Hd' & HQ); [done|by apply map_disjoint_union_r| |].
  { transitivity hf; [done|]. by apply map_union_subseteq_r. }
  apply map_disjoint_union_r in Hd' as [Hd'1 Hd'2]. exists r, (h' ∪ h2). rewrite <- map_union_assoc in *. rewrite E.
  split; [by rewrite map_union_assoc|]. split; [by apply map_disjoint_union_l|]. by exists h', h2.
Qed.

Lemma sep_comm (P Q : asn) h : (P ∗ Q) h -> (Q ∗ P) h.
Proof. intros (h1 & h2 & -> & Hd & ? & ?). exists h2, h1. split; [by apply map_union_comm|]. by split. Qed.

Lemma t_frame_r {A} (P R : asn) (f : HM A) (Q : A -> asn) : triple P f Q -> triple (R ∗ P) f (fun r => R ∗ Q r).
Proof. intros H. eapply t_weaken; [apply sep_comm| |by apply (t_frame_l P R)]. intros r h. apply sep_comm. Qed.

Lemma sep_emp_l (P : asn) h : P h -> (@emp owned ∗ P) h.
Proof. intros H. exists ∅, h. split; [by rewrite left_id_L by apply _|]. split; [apply map_disjoint_empty_l|]. done. Qed.

Lemma sep_emp_r (P : asn) h : (P ∗ @emp owned) h -> P h.
Proof. intros (h1 & h2 & -> & _ & HP & Hh). cbn in Hh. subst h2. by rewrite right_id_L by apply _. Qed.

(** What is made is added to what there is. *)
Lemma t_more {A} (P : asn) (f : HM A) (Q : A -> asn) : triple (@emp owned) f Q -> triple P f (fun r => P ∗ Q r).
Proof.
  intros H. apply (t_weaken (P ∗ @emp owned) P f (fun r => P ∗ Q r)); [|done|by apply t_frame_r]. intros h Hh. by apply sep_comm, sep_emp_l.
Qed.

(** ** Objects *)

Definition lawful {X} (Y : layout (O := O) X) : Prop := forall x, take_out _ Y (put_in _ Y x) = Some x.

Lemma t_get {X B} (Y : layout X) a x R (k : X -> HM B) Q : lawful Y -> triple (has Y a x ∗ R) (k x) Q -> triple (has Y a x ∗ R) (hbind (get Y a) k) Q.
Proof.
  intros Hl H h hf HP Hd Hs. destruct (H h hf HP Hd Hs) as (r & h' & E & Hd' & HQ). exists r, h'. split; [|done].
  destruct HP as (h1 & h2 & -> & Hd12 & -> & HR). unfold hbind, get, hbind, load.
  replace ((({[a := put_in _ Y x]} ∪ h2) ∪ hf) !! a) with (Some (put_in _ Y x)); [by rewrite Hl|].
  symmetry. apply lookup_union_Some_l, lookup_union_Some_l, lookup_singleton_eq.
Qed.

Lemma t_get_seen {X B} (Y : layout X) a x (k : X -> HM B) P Q : lawful Y -> h0 !! a = Some (put_in _ Y x) -> triple P (k x) Q -> triple P (hbind (get Y a) k) Q.
Proof.
  intros Hl Ha H h hf HP Hd Hs. destruct (H h hf HP Hd Hs) as (r & h' & E & Hd' & HQ). exists r, h'. split; [|done].
  unfold hbind, get, hbind, load. replace ((h ∪ hf) !! a) with (Some (put_in _ Y x)); [by rewrite Hl|].
  symmetry. apply lookup_union_Some_r; [done|]. by eapply lookup_weaken.
Qed.

Lemma t_set {X} (Y : layout X) a x y : triple (has Y a x) (set_ Y a y) (fun _ => has Y a y).
Proof.
  intros h hf H Hd Hs. cbn in H. subst h. exists tt, {[a := put_in _ Y y]}. unfold set_, store.
  rewrite (lookup_union_Some_l _ _ a (put_in _ Y x)) by apply lookup_singleton_eq.
  split; [|split; [|done]].
  - rewrite insert_union_l, insert_singleton_eq. done.
  - apply map_disjoint_singleton_l. by apply map_disjoint_singleton_l in Hd.
Qed.

Lemma t_new {X} (Y : layout X) x P : triple P (new Y x) (fun a => has Y a x ∗ P).
Proof.
  intros h hf HP Hd Hs. unfold new, alloc. set (a := fresh (dom (h ∪ hf))).
  assert ((h ∪ hf) !! a = None) as Ha by (apply not_elem_of_dom, is_fresh). apply lookup_union_None in Ha as [Ha Haf].
  exists a, (<[a := put_in _ Y x]> h). split; [by rewrite insert_union_l|]. split; [by apply map_disjoint_insert_l|].
  exists {[a := put_in _ Y x]}, h. split; [by rewrite insert_union_singleton_l|]. split; [by apply map_disjoint_singleton_l|]. done.
Qed.

(** ** References that may be nil, and loops *)

Lemma t_on {X D} (R R' : X -> D -> asn) (f : X -> HM unit) g x d : (forall x d, triple (R x d) (f x) (fun _ => R' x (g d))) ->
  triple (@rep_opt owned _ _ R x d) (on f x) (fun _ => @rep_opt owned _ _ R' x (g <$> d)).
Proof. intros H. destruct x, d; cbn; [apply H|by apply t_false; intros ? []|by apply t_false; intros ? []|by apply t_ret]. Qed.

Lemma t_unless_nil {X Y D} (S : X -> D -> asn) (R : Y -> D -> asn) (f : X -> HM Y) x d :
  (forall x d, S x d h0 -> triple (@emp owned) (f x) (fun y => R y d)) -> @rep_opt seen _ _ S x d h0 ->
  triple (@emp owned) (unless_nil f x) (fun y => @rep_opt owned _ _ R y d).
Proof.
  intros H Hx. destruct x as [x|], d as [d|]; cbn in *; [|done|done|by apply t_ret].
  eapply t_bind; [by apply H|]. intros y. by apply t_ret.
Qed.

Lemma sep_assoc (P Q R : asn) h : ((P ∗ Q) ∗ R) h <-> (P ∗ (Q ∗ R)) h.
Proof.
  split.
  - intros (h12 & h3 & -> & Hd & (h1 & h2 & -> & Hd12 & HP & HQ) & HR). apply map_disjoint_union_l in Hd as [Hd1 Hd2].
    exists h1, (h2 ∪ h3). split; [by rewrite map_union_assoc|]. split; [by apply map_disjoint_union_r|]. split; [done|]. by exists h2, h3.
  - intros (h1 & h23 & -> & Hd & HP & (h2 & h3 & -> & Hd23 & HQ & HR)). apply map_disjoint_union_r in Hd as [Hd1 Hd2].
    exists (h1 ∪ h2), h3. split; [by rewrite map_union_assoc|]. split; [by apply map_disjoint_union_l|]. split; [|done]. by exists h1, h2.
Qed.

Lemma sep_mono (P P' Q Q' : asn) h : (P ∗ Q) h -> (forall h, P h -> P' h) -> (forall h, Q h -> Q' h) -> (P' ∗ Q') h.
Proof. intros (h1 & h2 & -> & Hd & HP & HQ) H1 H2. exists h1, h2. split; [done|]. split; [done|]. split; auto. Qed.

Lemma rep_list_snoc {X D} (R : X -> D -> asn) xs ds x d h : (@rep_list owned _ _ R xs ds ∗ R x d) h -> @rep_list owned _ _ R (xs ++ [x]) (ds ++ [d]) h.
Proof.
  revert ds h. induction xs as [|y xs IH]; intros [|e ds] h; cbn [rep_list app].
  - intros H. by apply sep_comm.
  - by intros (? & ? & _ & _ & [] & _).
  - by intros (? & ? & _ & _ & [] & _).
  - intros H. apply sep_assoc in H. eapply sep_mono; [done|done|]. apply IH.
Qed.

Section loops.
Context {X D : Type} (R R' : X -> D -> asn) (g : D -> D).

Lemma t_for_all (f : X -> HM unit) xs ds : (forall x d, triple (R x d) (f x) (fun _ => R' x (g d))) ->
  triple (@rep_list owned _ _ R xs ds) (for_all f xs) (fun _ => @rep_list owned _ _ R' xs (map g ds)).
Proof.
  intros H. revert ds. induction xs as [|x xs IH]; intros [|d ds]; cbn [for_all rep_list map];
    [by apply t_ret|by apply t_false; intros ? []|by apply t_false; intros ? []|].
  eapply t_bind; [apply t_frame_l, H|]. intros ?. cbn beta. apply t_frame_r, IH.
Qed.

Lemma t_each_from (Y : layout (O := O) (list X)) (f : X -> HM X) a done_ ddone todo dtodo : lawful Y ->
  (forall x d, triple (R x d) (f x) (fun x' => R' x' (g d))) ->
  triple (has Y a (done_ ++ todo) ∗ (@rep_list owned _ _ R' done_ ddone ∗ @rep_list owned _ _ R todo dtodo))
    (each_from Y f a (length done_) (length todo)) (fun _ => @rep_cell owned _ _ Y (@rep_list owned _ _ R') a (ddone ++ map g dtodo)).
Proof.
  intros Hl H. revert done_ ddone dtodo. induction todo as [|x todo IH]; intros done_ ddone dtodo; destruct dtodo as [|d dtodo]; cbn [each_from rep_list length];
    try (apply t_false; intros h Hh; destruct Hh as (?&?&?&?&?&(?&?&?&?&?&[])); fail).
  - apply t_ret. intros h Hh. rewrite !app_nil_r in *. exists done_. eapply sep_mono; [done|done|]. intros h1 H1.
    by apply sep_emp_r.
  - apply t_get; [done|]. rewrite lookup_app_r, Nat.sub_diag by done. cbn [lookup list_lookup].
    eapply t_bind; [apply t_frame_r, t_frame_r, t_frame_l, H|]. intros x'. cbn beta.
    apply t_get; [done|]. eapply t_bind; [apply t_frame_l, t_set|]. intros ?. cbn beta.
    rewrite insert_app_r_alt, Nat.sub_diag by done. cbn [insert list_insert].
    replace (done_ ++ x' :: todo) with ((done_ ++ [x']) ++ todo) by (by rewrite <- app_assoc).
    replace (S (length done_)) with (length (done_ ++ [x'])) by (rewrite length_app; cbn; lia).
    replace (ddone ++ map g (d :: dtodo)) with ((ddone ++ [g d]) ++ map g dtodo) by (by rewrite <- app_assoc).
    eapply t_weaken; cycle 2; [apply (IH (done_ ++ [x']) (ddone ++ [g d]) dtodo)| |done]. intros h Hh. eapply sep_mono; [done|done|]. intros h1 H1. apply sep_assoc in H1.
    eapply sep_mono; [done|intros; by apply rep_list_snoc|done].
Qed.

Lemma t_each (Y : layout (O := O) (list X)) (f : X -> HM X) a ds : lawful Y -> (forall x d, triple (R x d) (f x) (fun x' => R' x' (g d))) ->
  triple (@rep_cell owned _ _ Y (@rep_list owned _ _ R) a ds) (each Y f a) (fun _ => @rep_cell owned _ _ Y (@rep_list owned _ _ R') a (map g ds)).
Proof.
  intros Hl H. apply t_exists. intros xs. unfold each. apply t_get; [done|].
  eapply t_weaken; cycle 2; [apply (t_each_from Y f a [] [] xs ds Hl H)| |done]. intros h Hh. eapply sep_mono; [done|done|]. apply sep_emp_l.
Qed.
End loops.

(** ** Copies *)

Lemma t_clone_object {X} (Y : layout X) a x : lawful Y -> @rep_object seen _ Y a x h0 -> triple (@emp owned) (clone_object Y a) (fun c => has Y c x).
Proof.
  intros Hl Ha. unfold clone_object. eapply t_get_seen; [done|exact Ha|]. eapply t_weaken; cycle 2; [apply t_new|done|].
  intros c h. apply sep_emp_r.
Qed.

Lemma seen_elements {X D} (S : X -> D -> asn) xs ds : @rep_list seen _ _ S xs ds h0 -> @rep_list owned _ _ (fun x d h => h = ∅ /\ S x d h0) xs ds ∅.
Proof.
  revert ds. induction xs as [|x xs IH]; intros [|d ds]; cbn; [done|done|done|]. intros [Hx Hxs]. exists ∅, ∅.
  split; [by rewrite left_id_L by apply _|]. split; [apply map_disjoint_empty_l|]. split; [done|by apply IH].
Qed.

Lemma t_clone_slice {X D} (Y : layout (O := O) (list X)) (S R : X -> D -> asn) f a ds : lawful Y ->
  (forall x d, S x d h0 -> triple (@emp owned) (f x) (fun x' => R x' d)) -> @rep_cell seen _ _ Y (@rep_list seen _ _ S) a ds h0 ->
  triple (@emp owned) (clone_slice Y f a) (fun c => @rep_cell owned _ _ Y (@rep_list owned _ _ R) c ds).
Proof.
  intros Hl H (xs & Ha & Hxs). unfold clone_slice. eapply t_bind; [by apply (t_clone_object Y a xs)|]. intros c. cbn beta.
  eapply t_bind; [|intros ?; apply t_ret; intros h Hh; exact Hh].
  eapply t_weaken; cycle 2; [apply (t_each (fun x d h => h = ∅ /\ S x d h0) R (fun d => d) Y f c ds Hl)| |].
  - intros x d h hf [-> Hx] Hd Hs. by apply (H x d Hx ∅ hf).
  - intros h Hh. exists xs. apply sep_comm. exists ∅, h. split; [by rewrite left_id_L by apply _|]. split; [apply map_disjoint_empty_l|].
    split; [by apply seen_elements|done].
  - intros ? h. cbn beta. by rewrite map_id.
Qed.

(** One more part of a record is copied, beside those there are. *)
Lemma t_part {A B} (P : asn) (f : HM A) (R : A -> asn) (k : A -> HM B) Q : triple (@emp owned) f R -> (forall r, triple (P ∗ R r) (k r) Q) -> triple P (hbind f k) Q.
Proof. intros Hf Hk. eapply t_bind; [by apply t_more, Hf|done]. Qed.
Lemma t_first {A B} (f : HM A) (R : A -> asn) (k : A -> HM B) Q : triple (@emp owned) f R -> (forall r, triple (R r) (k r) Q) -> triple (@emp owned) (hbind f k) Q.
Proof. apply t_bind. Qed.

(** A copied struct: what it refers to, then the struct. *)
Lemma t_new_cell {X D} (Y : layout (O := O) X) (R : X -> D -> asn) x d P : (forall h, P h -> R x d h) -> triple P (new Y x) (fun a => @rep_cell owned _ _ Y R a d).
Proof.
  intros H. eapply t_weaken; cycle 2; [apply (t_new Y x P)|done|]. intros a h Hh. exists x. eapply sep_mono; [exact Hh|done|exact H].
Qed.

Lemma clone_data x d : @rep_opt seen _ _ (@rep_object seen _ data_map) x d h0 ->
  triple (@emp owned) (unless_nil (clone_object data_map) x) (fun y => @rep_opt owned _ _ (@rep_object owned _ data_map) y d).
Proof. apply t_unless_nil. intros a l. by apply t_clone_object. Qed.
Lemma clone_tags x d : @rep_opt seen _ _ (@rep_object seen _ tag_map) x d h0 ->
  triple (@emp owned) (unless_nil (clone_object tag_map) x) (fun y => @rep_opt owned _ _ (@rep_object owned _ tag_map) y d).
Proof. apply t_unless_nil. intros a l. by apply t_clone_object. Qed.
Lemma clone_texts x d : @rep_opt seen _ _ (@rep_object seen _ texts) x d h0 ->
  triple (@emp owned) (unless_nil (clone_object texts) x) (fun y => @rep_opt owned _ _ (@rep_object owned _ texts) y d).
Proof. apply t_unless_nil. intros a l. by apply t_clone_object. Qed.

Lemma breadcrumb_copied a d : @rep_crumb seen a d h0 -> triple (@emp owned) (cloneSentryBreadcrumb a) (fun c => @rep_crumb owned c d).
Proof.
  intros (x & Ha & He & Hd). unfold cloneSentryBreadcrumb. eapply t_get_seen; [done|exact Ha|].
  eapply t_first; [by apply clone_data|]. intros y. apply t_new_cell. intros h Hh. by split.
Qed.

Lemma frame_copied x d : @rep_frame seen x d h0 -> triple (@emp owned) (clone_frame x) (fun y => @rep_frame owned y d).
Proof.
  intros (He & (Hv & Hp) & Hq). unfold clone_frame. eapply t_first; [by apply clone_data|]. intros v. eapply t_part; [by apply clone_texts|]. intros p.
  eapply t_part; [by apply clone_texts|]. intros q. apply t_ret. intros h Hh. by split.
Qed.

Lemma stacktrace_copied a d : @rep_stacktrace seen a d h0 -> triple (@emp owned) (cloneSentryStacktrace a) (fun c => @rep_stacktrace owned c d).
Proof.
  intros (x & Ha & He & Hd). unfold cloneSentryStacktrace. eapply t_get_seen; [done|exact Ha|].
  eapply t_first; [eapply t_unless_nil; [|exact Hd]; intros b ds; by apply t_clone_slice, frame_copied|].
  intros y. apply t_new_cell. intros h Hh. by split.
Qed.

Lemma mechanism_copied a d : @rep_mechanism seen a d h0 -> triple (@emp owned) (clone_mechanism a) (fun c => @rep_mechanism owned c d).
Proof.
  intros (x & Ha & He & Hd). unfold clone_mechanism. eapply t_get_seen; [done|exact Ha|].
  eapply t_first; [by apply clone_data|]. intros y. apply t_new_cell. intros h Hh. by split.
Qed.

Lemma exception_copied x d : @rep_exception seen x d h0 -> triple (@emp owned) (clone_exception x) (fun y => @rep_exception owned y d).
Proof.
  intros (He & Hs & Hm). unfold clone_exception.
  eapply t_first; [eapply t_unless_nil; [|exact Hs]; apply stacktrace_copied|]. intros s.
  eapply t_part; [eapply t_unless_nil; [|exact Hm]; apply mechanism_copied|]. intros k. apply t_ret. intros h Hh. by split.
Qed.

Lemma thread_copied x d : @rep_thread seen x d h0 -> triple (@emp owned) (clone_thread x) (fun y => @rep_thread owned y d).
Proof.
  intros (He & Hs). unfold clone_thread. eapply t_first; [eapply t_unless_nil; [|exact Hs]; apply stacktrace_copied|]. intros s.
  apply t_ret. intros h Hh. by split.
Qed.

Lemma span_copied a d : @rep_span seen a d h0 -> triple (@emp owned) (cloneSentrySpanSnapshot a) (fun c => @rep_span owned c d).
Proof.
  intros (x & Ha & Hx & (Ht & He) & Hd). unfold cloneSentrySpanSnapshot. eapply t_get_seen; [done|exact Ha|].
  eapply t_first; [by apply clone_tags|]. intros t. eapply t_part; [by apply clone_data|]. intros e. eapply t_part; [by apply clone_data|]. intros v.
  apply t_new_cell. intros h Hh. by split.
Qed.

Lemma request_copied a d : @rep_request seen a d h0 -> triple (@emp owned) (clone_request a) (fun c => @rep_request owned c d).
Proof.
  intros (x & Ha & Hx & Ht & He). unfold clone_request. eapply t_get_seen; [done|exact Ha|].
  eapply t_first; [by apply clone_tags|]. intros t. eapply t_part; [by apply clone_tags|]. intros e. apply t_new_cell. intros h Hh. by split.
Qed.

Lemma context_copied x d : @rep_context seen x d h0 -> triple (@emp owned) (clone_context x) (fun y => @rep_context owned y d).
Proof.
  intros (He & Hd). unfold clone_context. eapply t_first; [by apply clone_data|]. intros v. apply t_ret. intros h Hh. by split.
Qed.

Lemma event_detached e d : @rep_event seen e d h0 -> triple (@emp owned) (detachSentryEvent e) (fun c => @rep_event owned c d).
Proof.
  intros (Hp & ((((((((Hbs & Hx) & Hc) & Ht) & Hf) & He) & Hth) & Hr) & Hs)). unfold detachSentryEvent.
  eapply t_first; [eapply t_unless_nil; [|exact Hbs]; intros; eapply t_clone_slice; [done| |eassumption]; intros; eapply t_unless_nil; [|eassumption]; apply breadcrumb_copied|]. intros bs.
  eapply t_part; [by apply clone_data|]. intros extra.
  eapply t_part; [eapply t_unless_nil; [|exact Hc]; intros; eapply t_clone_slice; [done| |eassumption]; apply context_copied|]. intros cs.
  eapply t_part; [by apply clone_tags|]. intros ts. eapply t_part; [by apply clone_texts|]. intros fp.
  eapply t_part; [eapply t_unless_nil; [|exact He]; intros; eapply t_clone_slice; [done| |eassumption]; apply exception_copied|]. intros es.
  eapply t_part; [eapply t_unless_nil; [|exact Hth]; intros; eapply t_clone_slice; [done| |eassumption]; apply thread_copied|]. intros th.
  eapply t_part; [eapply t_unless_nil; [|exact Hr]; apply request_copied|]. intros rq.
  eapply t_part; [eapply t_unless_nil; [|exact Hs]; intros; eapply t_clone_slice; [done| |eassumption]; intros; eapply t_unless_nil; [|eassumption]; apply span_copied|]. intros ss.
  apply t_ret. intros h Hh. by split.
Qed.

(** ** Changes in place *)

Section sanitizing.
Context (Text : string -> string) (HeaderValue : string -> string -> string) (format_time : Z -> string) (m : memory).

Lemma t_change {X} (Y : layout X) f a x : lawful Y -> triple (has Y a x) (change Y f a) (fun _ => has Y a (f x)).
Proof.
  intros Hl. unfold change. apply (t_weaken (has Y a x ∗ @emp owned) _ _ (fun _ => has Y a (f x) ∗ @emp owned));
    [intros h Hh; by apply sep_comm, sep_emp_l|intros r h; apply sep_emp_r|].
  apply t_get; [done|]. apply t_frame_l, t_set.
Qed.

Lemma data_sanitized x d : triple (@rep_opt owned _ _ (@rep_object owned _ data_map) x d) (on (sanitize_map Text format_time m) x)
  (fun _ => @rep_opt owned _ _ (@rep_object owned _ data_map) x (safe_data Text format_time m <$> d)).
Proof. apply t_on. intros a l. by apply t_change. Qed.
Lemma tags_sanitized f x d : triple (@rep_opt owned _ _ (@rep_object owned _ tag_map) x d) (on (change tag_map (safe_tags f)) x)
  (fun _ => @rep_opt owned _ _ (@rep_object owned _ tag_map) x (safe_tags f <$> d)).
Proof. apply t_on. intros a l. by apply t_change. Qed.

Lemma texts_elements a l h : has texts a l h <-> @rep_cell owned _ _ texts (@rep_list owned _ _ (fun x d h => x = d /\ h = ∅)) a l h.
Proof.
  assert (forall xs ds h, @rep_list owned _ _ (fun (x d : string) h => x = d /\ h = ∅) xs ds h <-> xs = ds /\ h = ∅) as Hl.
  { intros xs. induction xs as [|x xs IH]; intros [|d ds] h'; cbn; [naive_solver..|]. split.
    - intros (h1 & h2 & -> & _ & [-> ->] & [-> ->]%IH). split; [done|]. by rewrite left_id_L by apply _.
    - intros [[= -> ->] ->]. exists ∅, ∅. split; [by rewrite left_id_L by apply _|]. split; [apply map_disjoint_empty_l|]. split; [done|by apply IH]. }
  split.
  - intros Hh. exists l. apply sep_comm. exists ∅, h. split; [by rewrite left_id_L by apply _|]. split; [apply map_disjoint_empty_l|]. split; [by apply Hl|done].
  - intros (xs & h1 & h2 & -> & _ & H1 & [-> ->]%Hl). by rewrite right_id_L by apply _.
Qed.

Lemma texts_sanitized x d : triple (@rep_opt owned _ _ (@rep_object owned _ texts) x d) (on (sanitize_texts Text) x)
  (fun _ => @rep_opt owned _ _ (@rep_object owned _ texts) x (map Text <$> d)).
Proof.
  apply t_on. intros a l. unfold sanitize_texts. eapply t_weaken; [intros h; apply texts_elements|intros ? h Hh; apply texts_elements; exact Hh|].
  apply t_each; [done|]. intros y t. apply t_ret. by intros h [-> ->].
Qed.

Lemma t_then {A B} (P P' : asn) (f : HM A) (k : A -> HM B) Q : triple P f (fun _ => P') -> (forall r, triple P' (k r) Q) -> triple P (hbind f k) Q.
Proof. intros Hf Hk. by eapply t_bind. Qed.

Lemma keep_r {A} (P P' R : asn) (f : HM A) : triple P f (fun _ => P') -> triple (P ∗ R) f (fun _ => P' ∗ R).
Proof. apply t_frame_l. Qed.
Lemma keep_l {A} (P P' R : asn) (f : HM A) : triple P f (fun _ => P') -> triple (R ∗ P) f (fun _ => R ∗ P').
Proof. apply t_frame_r. Qed.

Lemma frame_sanitized x d : triple (@rep_frame owned x d) (sanitize_frame Text format_time m x) (fun y => @rep_frame owned y (safe_frame Text format_time m d)).
Proof.
  apply t_pure. intros He. unfold sanitize_frame.
  eapply t_then; [apply keep_r, keep_l, texts_sanitized|]. intros _. eapply t_then; [apply keep_l, texts_sanitized|]. intros _.
  eapply t_then; [apply keep_r, keep_r, data_sanitized|]. intros _. apply t_ret. intros h Hh. split; [cbn; congruence|done].
Qed.

Lemma t_pure_keep {A} (p p' : Prop) P P' (f : HM A) : (p -> p') -> triple P f (fun _ => P') -> triple (pure_sep p P) f (fun _ => pure_sep p' P').
Proof. intros Hp H. apply t_pure. intros H1. eapply t_weaken; [intros h Hh; exact Hh| |exact H]. intros r h Hh. split; [by apply Hp|done]. Qed.

(** A struct that is read and whose parts are changed; and one that is written
    as well. *)
Lemma t_cell {X D} (Y : layout (O := O) X) (R R' : X -> D -> asn) a d d' (f : X -> HM unit) : lawful Y ->
  (forall x, triple (R x d) (f x) (fun _ => R' x d')) ->
  triple (@rep_cell owned _ _ Y R a d) (hbind (get Y a) f) (fun _ => @rep_cell owned _ _ Y R' a d').
Proof.
  intros Hl H. apply t_exists. intros x. apply t_get; [done|]. eapply t_weaken; cycle 2; [apply keep_l, H|done|]. intros ? h Hh. by exists x.
Qed.

Lemma t_cell_set {X D} (Y : layout (O := O) X) (R R' : X -> D -> asn) a d d' (u : X -> X) (k : X -> HM unit) : lawful Y ->
  (forall x, triple (R x d) (k x) (fun _ => R' (u x) d')) ->
  triple (@rep_cell owned _ _ Y R a d) (with! x := get Y a in with! _ := set_ Y a (u x) in k x) (fun _ => @rep_cell owned _ _ Y R' a d').
Proof.
  intros Hl H. apply t_exists. intros x. apply t_get; [done|]. eapply t_then; [apply keep_r, t_set|]. intros _.
  eapply t_weaken; cycle 2; [apply keep_l, H|done|]. intros ? h Hh. by exists (u x).
Qed.

Lemma stacktrace_sanitized a d : triple (@rep_stacktrace owned a d) (sanitizeSentryStacktrace Text format_time m a)
  (fun _ => @rep_stacktrace owned a (safe_stacktrace Text format_time m d)).
Proof.
  apply t_cell; [done|]. intros x. apply t_pure_keep; [done|]. apply t_on. intros b fs. apply t_each; [done|]. apply frame_sanitized.
Qed.

Lemma mechanism_sanitized a d : triple (@rep_mechanism owned a d) (sanitize_mechanism Text format_time m a)
  (fun _ => @rep_mechanism owned a (safe_mechanism Text format_time m d)).
Proof.
  apply t_cell_set; [done|]. intros x. apply t_pure_keep; [cbn; congruence|]. apply data_sanitized.
Qed.

Lemma exception_sanitized x d : triple (@rep_exception owned x d) (sanitize_exception Text format_time m x)
  (fun y => @rep_exception owned y (safe_exception Text format_time m d)).
Proof.
  apply t_pure. intros He. unfold sanitize_exception.
  eapply t_then; [apply keep_r, t_on, stacktrace_sanitized|]. intros _. eapply t_then; [apply keep_l, t_on, mechanism_sanitized|]. intros _.
  apply t_ret. intros h Hh. split; [cbn; congruence|done].
Qed.

Lemma thread_sanitized x d : triple (@rep_thread owned x d) (sanitize_thread Text format_time m x)
  (fun y => @rep_thread owned y (safe_thread Text format_time m d)).
Proof.
  apply t_pure. intros He. unfold sanitize_thread. eapply t_then; [apply t_on, stacktrace_sanitized|]. intros _.
  apply t_ret. intros h Hh. split; [cbn; congruence|done].
Qed.

Lemma breadcrumb_sanitized a d : triple (@rep_crumb owned a d) (sanitize_breadcrumb Text format_time m a)
  (fun _ => @rep_crumb owned a (safe_breadcrumb Text format_time m d)).
Proof. apply t_cell_set; [done|]. intros x. apply t_pure_keep; [cbn; congruence|]. apply data_sanitized. Qed.

Lemma span_sanitized a d : triple (@rep_span owned a d) (sanitize_span Text format_time m a)
  (fun _ => @rep_span owned a (safe_span Text format_time m d)).
Proof.
  apply t_cell_set; [done|]. intros x. apply t_pure_keep; [cbn; congruence|].
  eapply t_then; [apply keep_l, data_sanitized|]. intros _. eapply t_then; [apply keep_r, keep_l, data_sanitized|]. intros _.
  apply keep_r, keep_r, tags_sanitized.
Qed.

Lemma request_sanitized a d : triple (@rep_request owned a d) (sanitize_request Text HeaderValue a)
  (fun _ => @rep_request owned a (safe_request Text HeaderValue d)).
Proof.
  apply t_cell_set; [done|]. intros x. apply t_pure_keep; [cbn; congruence|].
  eapply t_then; [apply keep_r, tags_sanitized|]. intros _. apply keep_l, tags_sanitized.
Qed.

Lemma context_sanitized x d : triple (@rep_context owned x d) (on (sanitize_map Text format_time m) x.2)
  (fun _ => @rep_context owned x (safe_context Text format_time m d)).
Proof. apply t_pure_keep; [done|]. apply data_sanitized. Qed.

Lemma event_sanitized e d : @rep_event seen e d h0 -> triple (@emp owned) (sanitizeSentryEvent Text HeaderValue format_time m e)
  (fun e' => @rep_event owned e' (safe_event Text HeaderValue format_time m d)).
Proof.
  intros Hseen. unfold sanitizeSentryEvent. eapply t_bind; [by apply event_detached|]. intros c. cbn beta. apply t_pure. intros Hp.
  assert (sampling c = sampling d) as Es by congruence. rewrite Es.
  destruct (unsafe_sampling Text format_time m (sampling d)) eqn:Eu; cbn zeta;
    (eapply t_then; [apply keep_r, keep_r, keep_r, keep_l, t_on; intros; apply t_each; [done|]; apply exception_sanitized|]; intros _);
    (eapply t_then; [do 8 apply keep_r; apply t_on; intros; apply t_cell; [done|]; intros; apply t_for_all; intros; apply t_on, breadcrumb_sanitized|]; intros _);
    (eapply t_then; [do 7 apply keep_r; apply keep_l, data_sanitized|]; intros _);
    (eapply t_then; [do 6 apply keep_r; apply keep_l, t_on; intros; apply t_cell; [done|]; intros; apply t_for_all, context_sanitized|]; intros _);
    (eapply t_then; [do 5 apply keep_r; apply keep_l, tags_sanitized|]; intros _);
    (eapply t_then; [do 4 apply keep_r; apply keep_l, texts_sanitized|]; intros _);
    (eapply t_then; [do 2 apply keep_r; apply keep_l, t_on; intros; apply t_each; [done|]; apply thread_sanitized|]; intros _);
    (eapply t_then; [apply keep_l, t_on; intros; apply t_cell; [done|]; intros; apply t_for_all; intros; apply t_on, span_sanitized|]; intros _);
    (eapply t_then; [apply keep_r, keep_l, t_on, request_sanitized|]; intros _);
    apply t_ret; intros h Hh; (split; [cbn; rewrite ?Eu; congruence|exact Hh]).
Qed.
End sanitizing.
End triples.

(** ** What a sanitized event shows *)

Section shown.
Context (Text : string -> string) (HeaderValue : string -> string -> string) (format_time : Z -> string) (m : memory).

Lemma of_opt_all {A B} (P : B -> Prop) (f : A -> list B) o : (forall a, o = Some a -> Forall P (f a)) -> Forall P (of_opt f o).
Proof. intros H. destruct o as [a|]; [by apply H|constructor]. Qed.
Lemma of_list_all {A B D} (P : B -> Prop) (f : A -> list B) (g : D -> A) o : (forall a, Forall P (f (g a))) -> Forall P (of_list f (map g <$> o)).
Proof.
  intros H. destruct o as [l|]; cbn; [|constructor]. induction l as [|a l IH]; cbn; [constructor|]. by apply Forall_app.
Qed.
Lemma of_opt_map {A B D} (P : B -> Prop) (f : A -> list B) (g : D -> A) o : (forall a, Forall P (f (g a))) -> Forall P (of_opt f (g <$> o)).
Proof. intros H. destruct o as [d|]; cbn; [apply H|constructor]. Qed.
Lemma of_opt_texts {B} (P : B -> Prop) (g : B -> B) (o : option (list B)) : (forall a, P (g a)) -> Forall P (of_opt id (map g <$> o)).
Proof. intros H. destruct o as [l|]; cbn; [|constructor]. induction l; cbn; constructor; auto. Qed.
Lemma option_list_all {A B} (P : B -> Prop) (g : A -> B) o : (forall a, P (g a)) -> Forall P (option_list (g <$> o)).
Proof. intros H. destruct o; cbn; repeat constructor; auto. Qed.

Create HintDb shown.
#[local] Arguments of_list : simpl never.
#[local] Arguments of_opt : simpl never.
Ltac shown := cbn; repeat (first [apply Forall_nil_2 | apply Forall_cons_2 | apply Forall_app_2 | apply of_opt_texts; intros ?
  | apply option_list_all; intros ? | apply of_list_all; intros ?; cbn | apply of_opt_map; intros ?; cbn | solve [eauto with shown]]).

Definition redacted (s : string) : Prop := s = Mask \/ exists x, s = Text x.
Lemma redacted_text x : redacted (Text x).
Proof. right. by exists x. Qed.
Lemma redacted_mask : redacted Mask.
Proof. by left. Qed.
#[local] Hint Resolve redacted_text redacted_mask : shown.

Lemma stack_redacted (s : dStacktrace) : Forall redacted (stack_texts (safe_stacktrace Text format_time m s)).
Proof. unfold stack_texts. shown. Qed.
#[local] Hint Resolve stack_redacted : shown.

Lemma texts_redacted (d : dEvent) : Forall redacted (event_texts (safe_event Text HeaderValue format_time m d)).
Proof.
  unfold event_texts. shown; apply of_list_all; intros [x|]; shown.
Qed.

(** What may stand in the maps of an event. *)
Definition values_safe (l : data) : Prop := forall k v, (k, v) ∈ l ->
  exists o, v = GBuilt o /\ reported Text format_time k maxSentryValueDepth o /\ (sensitive k = true -> o = OString Mask).
Definition tags_safe (l : tags) : Prop := forall k v, (k, v) ∈ l -> redacted v /\ (sensitive k = true -> v = Mask).
Definition headers_safe (l : tags) : Prop := forall k v, (k, v) ∈ l -> v = Mask \/ (exists x, v = HeaderValue k (Text x)) /\ sensitive k = false.

Definition event_safe (e : dEvent) : Prop :=
  Forall redacted (event_texts e) /\ Forall values_safe (event_data e) /\ Forall tags_safe (event_tags e) /\ Forall headers_safe (event_headers e) /\
  Attachments e = [] /\ Logs e = [] /\ Metrics e = [] /\ User e = None /\ cached e = None /\ unsafe_sampling Text format_time m (sampling e) = false.

Lemma safe_data_ok l : values_safe (safe_data Text format_time m l).
Proof.
  intros k v Hx. unfold safe_data in Hx. apply list_elem_of_fmap in Hx as ([k' o] & [= -> ->] & Hx). exists o. split; [done|].
  by apply (proj1 (proj2 (sanitized_values Text format_time m l))).
Qed.
#[local] Hint Resolve safe_data_ok : shown.

Lemma safe_tags_ok l : tags_safe (safe_tags (safe_text Text) l).
Proof.
  intros k v Hx. apply list_elem_of_fmap in Hx as ([k' x] & [= -> ->] & _). unfold safe_text. cbn.
  destruct (sensitive k'); [split; [apply redacted_mask|done]|]. split; [apply redacted_text|done].
Qed.
Lemma safe_headers_ok l : headers_safe (safe_tags (safe_header Text HeaderValue) l).
Proof.
  intros k v Hx. apply list_elem_of_fmap in Hx as ([k' x] & [= -> ->] & _). unfold safe_header. cbn.
  destruct (sensitive k') eqn:E; [by left|right]. split; [by exists x|done].
Qed.
#[local] Hint Resolve safe_tags_ok safe_headers_ok : shown.

Lemma stack_data_safe (s : dStacktrace) : Forall values_safe (stack_data (safe_stacktrace Text format_time m s)).
Proof. unfold stack_data. shown. Qed.
#[local] Hint Resolve stack_data_safe : shown.

Lemma safe_event_is_safe (d : dEvent) : event_safe (safe_event Text HeaderValue format_time m d).
Proof.
  split; [apply texts_redacted|]. split; [|split; [|split]].
  - unfold event_data. shown; apply of_list_all; intros [x|]; shown.
  - unfold event_tags. shown; apply of_list_all; intros [x|]; shown.
  - unfold event_headers. shown.
  - repeat split. cbn. by destruct (unsafe_sampling Text format_time m (sampling d)) eqn:E.
Qed.
End shown.

Lemma sanitizer_refined Text HeaderValue format_time m e d h : @rep_event seen e d h ->
  exists e' h1, sanitizeSentryEvent Text HeaderValue format_time m e h = Some (e', h1 ∪ h) /\ h1 ##ₘ h /\
    @rep_event seen e' (safe_event Text HeaderValue format_time m d) h1.
Proof.
  intros Hs. destruct (event_sanitized h Text HeaderValue format_time m e d Hs ∅ h) as (e' & h1 & E & Hd & HQ); [done|apply map_disjoint_empty_l|done|].
  rewrite map_empty_union in E. exists e', h1. split; [done|]. split; [done|]. by apply (shows_event e' _).
Qed.

(** C24: Sanitizing changes no object there was: whatever other events or the
    application share with the event is as before.  The event that is returned
    is made of new objects, and holds what the original did with each text, tag,
    header and value redacted, without user, attachments, logs, metrics, stale
    serialisations and unsafe sampling contexts. *)
Theorem sanitizer_refines Text HeaderValue format_time m e d h : @rep_event seen e d h ->
  exists e' h1, sanitizeSentryEvent Text HeaderValue format_time m e h = Some (e', h1 ∪ h) /\ h1 ##ₘ h /\
    @rep_event seen e' (safe_event Text HeaderValue format_time m d) h1.
Proof. apply sanitizer_refined. Qed.

(** C23: Whatever the hook of an application answers, what is sent has been through
    the sanitizer: every text of a field the sanitizer handles is redacted, every
    value reported as sanitized_value_safe says, sensitive tags and headers are
    masked, and there is no user, attachment, log, metric or stale serialisation
    in it; and the hook itself is only given such an event.  The fields the
    sanitizer passes through ([rest]: level, platform, environment, release and
    the like) stay as they are.  Nothing is sent when the hook drops the event. *)
Theorem sent_event_safe Text HeaderValue format_time m hook e d h :
  @rep_event seen e d h ->
  (forall f e1 d1 h1, hook = Some f -> @rep_event seen e1 d1 h1 -> event_safe Text HeaderValue format_time m d1 ->
     exists r h2, f e1 h1 = Some (r, h2) /\ match r with Some e2 => exists d2, @rep_event seen e2 d2 h2 | None => True end) ->
  exists r h', before_send Text HeaderValue format_time m hook e h = Some (r, h') /\
    match r with
    | Some e' => exists d', @rep_event seen e' d' h' /\ event_safe Text HeaderValue format_time m d'
    | None => exists f, hook = Some f
    end.
Proof.
  intros He Hhook. assert (forall e d h, @rep_event seen e d h -> exists e' h', sanitizeSentryEvent Text HeaderValue format_time m e h = Some (e', h') /\
    @rep_event seen e' (safe_event Text HeaderValue format_time m d) h') as Hs.
  { intros e0 d0 k H. destruct (sanitizer_refined Text HeaderValue format_time m e0 d0 k H) as (e' & h1 & E & Hd & Hr). exists e', (h1 ∪ k). split; [done|].
    destruct (shows_event e' (safe_event Text HeaderValue format_time m d0)) as [_ Hm]. eapply Hm; [|exact Hr]. by apply map_union_subseteq_l. }
  destruct (Hs e d h He) as (e1 & h1 & E1 & H1). unfold before_send, hbind. rewrite E1. destruct hook as [f|]; cbn.
  - destruct (Hhook f e1 _ h1 eq_refl H1 (safe_event_is_safe _ _ _ _ _)) as ([e2|] & h2 & E2 & H2); rewrite E2; cbn; [|exists None, h2; split; [done|by exists f]].
    destruct H2 as (d2 & H2). destruct (Hs e2 d2 h2 H2) as (e3 & h3 & E3 & H3). unfold hbind. rewrite E3. eexists _, _. split; [done|].
    eexists. split; [exact H3|apply safe_event_is_safe].
  - unfold hbind. destruct (Hs e1 _ h1 H1) as (e3 & h3 & E3 & H3). rewrite E3. eexists _, _. split; [done|]. eexists. split; [exact H3|apply safe_event_is_safe].
Qed.
End logic.
