(* ===== verification/FitErrors.v ===== *)
(** * package errors: coded errors and the reporter

    The registry of codes and messages and FitError of errors/errors.go and
    codes.go, and the life of the reporter of errors/sentry.go: what it asks of
    the SDK of Sentry, whose answers are arguments.  An error points to its
    registry, so what it says depends on the registry at the time: functions that
    read it take it as an argument.  Metadata are [M]. *)

From S2P Require Import Prelude.
From S2P Require Import GoStrings.

Local Open Scope Z_scope.

(** ** Codes *)

Definition DefaultLanguageCode : string := "EN".
Definition DefaultErrorMessage : string := "Uncaught Exception".

Definition UNCAUGHT_EXCEPTION : Z := 1.
Definition APPLICATION_HEADER_JSON_PARSE_FAILURE : Z := 650.
Definition USER_HEADER_JSON_PARSE_FAILURE : Z := 651.

Definition builtinMessageCodes : gmap Z Z :=
  {[UNCAUGHT_EXCEPTION := 1; APPLICATION_HEADER_JSON_PARSE_FAILURE := 2; USER_HEADER_JSON_PARSE_FAILURE := 2]}.
Definition builtinMessagesEN : gmap Z string := {[1 := DefaultErrorMessage; 2 := "Invalid request"%string]}.
Definition BuiltinMessages : gmap string (gmap Z string) := {[DefaultLanguageCode := builtinMessagesEN]}.

(** ** The registry *)

Record ErrorRegistry := MkRegistry {
  serviceNameCode : string;
  messages : option (gmap string (gmap Z string));
  messageCodes : option (gmap Z Z)
}.

Inductive init_error := EmptyServiceCode | NoErrorCodes | NoDefaultLanguage.

Definition DefaultRegistry : ErrorRegistry := MkRegistry "" None (Some builtinMessageCodes).

(** Init with the number of error codes it is given; the service code is set
    before the messages are looked at. *)
Definition Init (code : string) (errorCodes : nat) (msgs : gmap string (gmap Z string)) (codes : gmap Z Z) (r : ErrorRegistry) : option init_error * ErrorRegistry :=
  if bool_decide (code = EmptyString) then (Some EmptyServiceCode, r)
  else if (errorCodes =? 0)%nat then (Some NoErrorCodes, r)
  else
    let r := MkRegistry code (messages r) (messageCodes r) in
    if negb (bool_decide (msgs = ∅)) && bool_decide (msgs !! DefaultLanguageCode = None) then (Some NoDefaultLanguage, r)
    else
      (None, MkRegistry code (if bool_decide (msgs = ∅) then messages r else Some msgs)
               (Some (codes ∪ default builtinMessageCodes (messageCodes r)))).

Definition InitServiceCode (code : string) (r : ErrorRegistry) : option init_error * ErrorRegistry := Init code 1 ∅ ∅ r.

Definition Reset (r : ErrorRegistry) : ErrorRegistry := MkRegistry "" None (Some builtinMessageCodes).

(** ** Errors *)

Section errors.
Context {M : Type} (no_meta : M).

Record FitError := MkError {
  IntCode : Z; Code : string; Meta : M; HTTPStatusCode : Z; NOP : bool; ISOLangCode : string; ErrorMessage : string }.

(** fmt.Sprintf("%04d"): zeros go between the sign and the digits. *)
Definition zeros (n : nat) : string := String.string_of_list_ascii (repeat "0"%char n).
Definition padded (z : Z) : string :=
  let digits := format_N (Z.abs_N z) in
  if z <? 0 then String "-" (zeros (3 - String.length digits) +:+ digits) else zeros (4 - String.length digits) +:+ digits.

Definition GetStrCode (r : ErrorRegistry) (intCode : Z) : string := serviceNameCode r +:+ padded intCode.

(** New and NewWithRegistry; [err] is the text of the error, if there is one. *)
Definition NewWithRegistry (err : option string) (intCode : Z) (r : ErrorRegistry) : FitError :=
  MkError intCode (GetStrCode r intCode) no_meta 500 false DefaultLanguageCode (default EmptyString err).

Definition SetStatus (code : Z) (e : FitError) : FitError :=
  if (code <? 200) || (599 <? code) then e
  else MkError (IntCode e) (Code e) (Meta e) code (NOP e) (ISOLangCode e) (ErrorMessage e).
Definition SetMeta (meta : M) (e : FitError) : FitError :=
  MkError (IntCode e) (Code e) meta (HTTPStatusCode e) (NOP e) (ISOLangCode e) (ErrorMessage e).
Definition SetLang (r : ErrorRegistry) (lang : string) (e : FitError) : FitError :=
  if bool_decide (lang = EmptyString) then e
  else match messages r with
       | None => e
       | Some m =>
           match m !! lang with
           | None => e
           | Some _ => MkError (IntCode e) (Code e) (Meta e) (HTTPStatusCode e) (NOP e) lang (ErrorMessage e)
           end
       end.
Definition Ignore (e : FitError) : FitError :=
  MkError (IntCode e) (Code e) (Meta e) (HTTPStatusCode e) true (ISOLangCode e) (ErrorMessage e).

(** The message of the registry, if there is one that is not empty. *)
Definition registered (r : ErrorRegistry) (e : FitError) : option string :=
  match messages r, messageCodes r with
  | Some m, Some codes =>
      match codes !! IntCode e with
      | Some id =>
          match m !! ISOLangCode e with
          | Some l => match l !! id with Some msg => if bool_decide (msg = EmptyString) then None else Some msg | None => None end
          | None => None
          end
      | None => None
      end
  | _, _ => None
  end.

Definition messageByCode (r : ErrorRegistry) (e : FitError) : string :=
  match registered r e with
  | Some msg => msg
  | None => if bool_decide (ErrorMessage e = EmptyString) then DefaultErrorMessage else ErrorMessage e
  end.
Definition GetMessage (r : ErrorRegistry) (e : FitError) : string := Code e +:+ ": " +:+ messageByCode r e.

(** ** The reporter *)

Record sentrySdk := MkSdk { once : bool; initialized : bool; DSN : string }.
Definition new_reporter : sentrySdk := MkSdk false false EmptyString.

(** What is asked of the SDK. *)
Inductive sdk_call := SdkInit (dsn : string) (ok : bool) | SdkCapture (code : option FitError) | SdkOther.

(** initWithAdvancedConfig, when the SDK would initialise or not: the error it
    returns, as a boolean. *)
Definition initWithAdvancedConfig (dsn : string) (ok : bool) (s : sentrySdk) : bool * sentrySdk * list sdk_call :=
  if initialized s then (true, s, [])
  else if bool_decide (dsn = EmptyString) then (true, MkSdk (once s) false dsn, [])
  else if ok then (true, MkSdk (once s) true dsn, [SdkInit dsn true])
  else (false, MkSdk (once s) false dsn, [SdkInit dsn false]).

(** sync.Once: the first call counts, whatever comes of it. *)
Definition InitWithConfig (dsn : string) (ok : bool) (s : sentrySdk) : bool * sentrySdk * list sdk_call :=
  if once s then (true, s, [])
  else
    let '(r, s, calls) := initWithAdvancedConfig dsn ok s in (r, MkSdk true (initialized s) (DSN s), calls).

(** CaptureError of an error that is not nil; [None] for one that is no FitError. *)
Definition CaptureError (e : option FitError) (s : sentrySdk) : list sdk_call :=
  if match e with Some fe => NOP fe | None => false end then []
  else if initialized s then [SdkCapture e] else [].

(** CaptureMessage, AddBreadcrumb, SetUser, SetTag, SetExtra, Flush. *)
Definition when_initialized (s : sentrySdk) : list sdk_call := if initialized s then [SdkOther] else [].

Inductive reporter_op := OpInit (dsn : string) (ok : bool) | OpAdvanced (dsn : string) (ok : bool) | OpCapture (e : option FitError) | OpOther.

Definition report (op : reporter_op) (s : sentrySdk) : sentrySdk * list sdk_call :=
  match op with
  | OpInit dsn ok => let '(_, s, calls) := InitWithConfig dsn ok s in (s, calls)
  | OpAdvanced dsn ok => let '(_, s, calls) := initWithAdvancedConfig dsn ok s in (s, calls)
  | OpCapture e => (s, CaptureError e s)
  | OpOther => (s, when_initialized s)
  end.

Fixpoint reports (ops : list reporter_op) (s : sentrySdk) : sentrySdk * list sdk_call :=
  match ops with
  | [] => (s, [])
  | op :: ops => let '(s, calls) := report op s in let '(s, more) := reports ops s in (s, calls ++ more)
  end.
End errors.
Arguments FitError : clear implicits.

(** ** Codes are told apart *)

Lemma digits_value_zero s : s <> EmptyString -> digits_value (String "0" s) = digits_value s.
Proof.
  intros Hs. unfold digits_value, DecimalString.NilZero.uint_of_string. destruct s as [|c s]; [done|].
  change (DecimalString.NilEmpty.uint_of_string (String "0" (String c s))) with
    (Decimal.D0 <$> DecimalString.NilEmpty.uint_of_string (String c s)).
  by destruct (DecimalString.NilEmpty.uint_of_string (String c s)).
Qed.

Lemma digits_value_zeros n s : s <> EmptyString -> digits_value (zeros n +:+ s) = digits_value s.
Proof.
  intros Hs. induction n as [|n IH]; [done|]. change (zeros (S n) +:+ s) with (String "0" (zeros n +:+ s)). rewrite digits_value_zero; [done|].
  destruct n; [done|]. done.
Qed.

Lemma padded_value z : padded z = (if z <? 0 then "-" else "") +:+ (zeros ((if z <? 0 then 3 else 4) - String.length (format_N (Z.abs_N z))) +:+ format_N (Z.abs_N z)).
Proof. unfold padded. by destruct (z <? 0). Qed.

(** Two error codes of a service with the same text are the same number,
    negative or of more than four digits as they may be. *)
Theorem GetStrCode_injective r a b : GetStrCode r a = GetStrCode r b -> a = b.
Proof.
  unfold GetStrCode. intros H. assert (padded a = padded b) as Hp.
  { rewrite <- (str_drop_app (serviceNameCode r) (padded a)), H. apply str_drop_app. }
  assert (forall z n, str_forallb is_digit (zeros n +:+ format_N (Z.abs_N z)) = true) as Hd.
  { intros z n. rewrite str_forallb_app, format_N_digits, andb_true_r. by induction n. }
  assert (forall z n, digits_value (zeros n +:+ format_N (Z.abs_N z)) = Some (Z.abs_N z)) as Hv.
  { intros z n. rewrite digits_value_zeros by apply format_N_nonempty. apply digits_value_format. }
  rewrite !padded_value in Hp. destruct (Z.ltb_spec a 0), (Z.ltb_spec b 0); cbn [String.append] in Hp.
  - injection Hp as Hp. apply (f_equal digits_value) in Hp. rewrite !Hv in Hp. injection Hp. lia.
  - pose proof (Hd b (4 - String.length (format_N (Z.abs_N b)))%nat) as Hb. rewrite <- Hp in Hb. done.
  - pose proof (Hd a (4 - String.length (format_N (Z.abs_N a)))%nat) as Ha. rewrite Hp in Ha. done.
  - apply (f_equal digits_value) in Hp. rewrite !Hv in Hp. injection Hp. lia.
Qed.

Example some_codes : map (GetStrCode (MkRegistry "AVS" None None)) [22; 123456; -5] = ["AVS0022"; "AVS123456"; "AVS-005"]%string.
Proof. vm_compute. reflexivity. Qed.

(** ** Registries *)

Inductive registry_op := RInit (code : string) (errorCodes : nat) (msgs : gmap string (gmap Z string)) (codes : gmap Z Z) | RReset.
Definition registry_step (r : ErrorRegistry) (op : registry_op) : ErrorRegistry :=
  match op with RInit code n msgs codes => (Init code n msgs codes r).2 | RReset => Reset r end.

(** Whatever a service configures, in whatever order and however often, each
    code of the framework has a message identity, and the messages there are
    include those of the default language. *)
Theorem builtin_codes_stay ops : let r := foldl registry_step DefaultRegistry ops in
  (exists codes, messageCodes r = Some codes /\ dom builtinMessageCodes ⊆ dom codes) /\
  (forall m, messages r = Some m -> is_Some (m !! DefaultLanguageCode)).
Proof.
  cbn zeta. assert (forall r, (exists codes, messageCodes r = Some codes /\ dom builtinMessageCodes ⊆ dom codes) /\
    (forall m, messages r = Some m -> is_Some (m !! DefaultLanguageCode)) ->
    let r' := foldl registry_step r ops in (exists codes, messageCodes r' = Some codes /\ dom builtinMessageCodes ⊆ dom codes) /\
    (forall m, messages r' = Some m -> is_Some (m !! DefaultLanguageCode))) as H.
  2: { apply H. split; [by exists builtinMessageCodes|done]. }
  induction ops as [|op ops IH]; intros r Hr; [done|]. cbn [foldl]. apply IH. clear IH. destruct op as [code n msgs codes|]; cbn.
  2: { split; [by exists builtinMessageCodes|done]. }
  destruct Hr as [(cs & Hcs & Hd) Hm]. unfold Init. destruct (bool_decide (code = EmptyString)); [by split; [exists cs|]|].
  destruct (n =? 0)%nat; [by split; [exists cs|]|]. cbn. destruct (negb _ && _) eqn:E; [by split; [exists cs|]|]. cbn. rewrite Hcs. cbn.
  split; [exists (codes ∪ cs); split; [done|]; rewrite dom_union_L; set_solver|]. intros m Hms.
  case_bool_decide as Hmsgs; [by apply Hm|]. injection Hms as <-. cbn in E. apply bool_decide_eq_false in E. by apply not_eq_None_Some.
Qed.

(** An Init that fails for its messages has changed the service code. *)
Example failed_Init_half_done : Init "AVS" 1 {["FR"%string := ∅]} ∅ DefaultRegistry = (Some NoDefaultLanguage, MkRegistry "AVS" None (Some builtinMessageCodes)).
Proof. vm_compute. reflexivity. Qed.

(** ** The reporter *)

Section reporter.
Context {M : Type}.

Definition started (c : @sdk_call M) : bool := match c with SdkInit _ ok => ok | _ => false end.

(** What a reporter in a state may ask from then on. *)
Definition in_life (init : bool) (calls : list (@sdk_call M)) : Prop := forall before c after, calls = before ++ c :: after ->
  match c with
  | SdkInit dsn ok => dsn <> EmptyString /\ init = false /\ Forall (fun c => started c = false) before
  | SdkCapture e => (init = true \/ Exists (fun c => started c = true) before) /\ forall fe, e = Some fe -> NOP fe = false
  | SdkOther => init = true \/ Exists (fun c => started c = true) before
  end.

Lemma in_life_nil init : in_life init [].
Proof. intros [|? ?] c after H; discriminate. Qed.

Lemma in_life_cons init c calls : in_life init [c] -> in_life (init || started c) calls -> in_life init (c :: calls).
Proof.
  intros H1 H [|c' before] x after; cbn; intros [= -> E]; [by apply (H1 [] x [])|]. specialize (H before x after E).
  specialize (H1 [] c' [] eq_refl). destruct x as [dsn ok|e|].
  - destruct H as (? & Hi & Hb). apply orb_false_iff in Hi as [? ?]. by repeat constructor.
  - destruct H as ([Hi|Hi] & ?); (split; [|done]); [apply orb_true_iff in Hi as [?|?]; [by left|right; by constructor]|right; by constructor].
  - destruct H as [Hi|Hi]; [apply orb_true_iff in Hi as [?|?]; [by left|right; by constructor]|right; by constructor].
Qed.

(** However it is used, a reporter starts the SDK at most once, never without
    a DSN, asks nothing else of it before, and never captures an error marked to
    be ignored. *)
Theorem reporter_life (ops : list (@reporter_op M)) : in_life false (reports ops new_reporter).2.
Proof.
  change false with (initialized new_reporter). generalize new_reporter. induction ops as [|op ops IH]; intros s; cbn; [apply in_life_nil|].
  destruct (report op s) as [s' calls] eqn:E. specialize (IH s'). destruct (reports ops s') as [s2 more]. cbn in *.
  assert ((calls = [] /\ initialized s' = initialized s) \/ exists c, calls = [c] /\ initialized s' = initialized s || started c /\ in_life (initialized s) [c]) as [[-> Hi]|(c & -> & Hi & Hc)];
    [|by rewrite <- Hi|apply in_life_cons; [done|by rewrite <- Hi]].
  assert (forall c, match c with SdkInit dsn _ => dsn <> EmptyString /\ initialized s = false | SdkCapture e => initialized s = true /\ forall fe, e = Some fe -> NOP fe = false
    | SdkOther => initialized s = true end -> in_life (initialized s) [c]) as Hone.
  { intros c Hc [|? [|]] x after [= -> _]; destruct x; naive_solver. }
  assert (forall dsn ok s (r : bool) s' calls, initWithAdvancedConfig dsn ok s = (r, s', calls) -> (calls = [] /\ initialized s' = initialized s) \/
    exists c : @sdk_call M, calls = [c] /\ initialized s' = initialized s || started c /\ initialized s = false /\ c = SdkInit dsn ok /\ dsn <> EmptyString) as Hadv.
  { clear. intros dsn ok s r s' calls. unfold initWithAdvancedConfig. destruct (initialized s) eqn:Ei; [intros [= <- <- <-]; by left|].
    case_bool_decide; [intros [= <- <- <-]; by left|]. destruct ok; intros [= <- <- <-]; right; eexists; repeat split; done. }
  destruct op as [dsn ok|dsn ok|e|]; cbn in E.
  - unfold InitWithConfig in E. destruct (once s); [injection E as <- <-; by left|].
    destruct (initWithAdvancedConfig dsn ok s) as [[r s1] cs] eqn:Ea. injection E as <- <-. apply Hadv in Ea as [[-> Hi]|(c & -> & Hi & Hn & -> & Hd)]; [by left|].
    right. eexists. split; [done|]. split; [done|]. apply Hone. done.
  - destruct (initWithAdvancedConfig dsn ok s) as [[r s1] cs] eqn:Ea. injection E as <- <-. apply Hadv in Ea as [[-> Hi]|(c & -> & Hi & Hn & -> & Hd)]; [by left|].
    right. eexists. split; [done|]. split; [done|]. apply Hone. done.
  - injection E as <- <-. unfold CaptureError. destruct (match e with Some fe => NOP fe | None => false end) eqn:En; [by left|].
    destruct (initialized s) eqn:Ei; [|by left]. right. eexists. split; [done|]. split; [done|]. apply Hone. split; [done|]. by intros fe ->.
  - injection E as <- <-. unfold when_initialized. destruct (initialized s) eqn:Ei; [|by left]. right. eexists. split; [done|]. split; [done|]. by apply Hone.
Qed.
End reporter.
