(* ===== verification/SentryWitness.v ===== *)
(** * Sentry: the definitions at work

    Events, values and hooks on which the definitions are evaluated, with the
    redaction of [RedactText] as redact.Text, and inputs at which the theorems
    with hypotheses apply. *)

From S2P Require Import Prelude.
From S2P Require Import GoStrings.
From S2P Require Import RedactBytes.
From S2P Require Import RedactText.
From S2P Require Import SentryKeys.
From S2P Require Import SentryValue.
From S2P Require Import SentryValueProofs.
From S2P Require Import SentryEvent.
From S2P Require Import SentryEventProofs.
From S2P Require Import FitErrors.

(** redact.Text, where no JSON decodes and no URL parses. *)
Definition redact_text (s : string) : string := to_string (RedactText.Text (fun _ => None) (fun _ => None) (lit s)).
Definition header_value (key value : string) : string := to_string (RedactText.HeaderValue (lit key) (lit value)).
Definition time_text (t : Z) : string := format_int t.

(** A memory with a shared struct, a cycle through a map, and a slice. *)
Definition memory_now : memory := {|
  cell t a := match a with
              | 1 => GStruct [(SentryValue.MkField "ID" true "id", GInt 7); (SentryValue.MkField "Password" true "", GString true "x"); (SentryValue.MkField "note" false "", GString true "y")]
              | _ => GNil
              end;
  entries t a := match a with
                 | 2 => [("first", GPtr "*T" (Some 1)); ("second", GPtr "*T" (Some 1)); ("mail", GString true "a@b.io")]
                 | 3 => [("self", GMap "map" true (Some 3)); ("trace_id", GString true "0123456789abcdef0123456789ABCDEF")]
                 | _ => []
                 end%string;
  elem t a i := match a with 4 => GString false "to a@b.io" | _ => GNil end |}.

(** What is shared is reported twice; the cycle ends where it closes. *)
Example shared_value : sanitizeSentryValue redact_text time_text memory_now "extra" (GMap "map" true (Some 2)) =
  OMap [("first", OMap [("id", OInt 7); ("Password", OString Mask)]); ("second", OMap [("id", OInt 7); ("Password", OString Mask)]);
        ("mail", OString "[REDACTED_EMAIL]")]%string.
Proof. vm_compute. reflexivity. Qed.

Example cyclic_value : sanitizeSentryValue redact_text time_text memory_now "extra" (GMap "map" true (Some 3)) =
  OMap [("self", OString Mask); ("trace_id", OString "0123456789abcdef0123456789ABCDEF")]%string.
Proof. vm_compute. reflexivity. Qed.

Example value_kinds : map (sanitizeSentryValue redact_text time_text memory_now "x")
  [GAs (AsError "mail a@b.io") GOther; GAs (AsTraceID ["255"%char; "016"%char]) (GArray true []); GSlice "[]S" false (Some (4, 2)); GSlice "[]byte" true (Some (4, 2));
   GBuilt (OMap [("otp", OInt 1)]%string); GOther; GNil] =
  [OString "mail [REDACTED_EMAIL]"; OString "ff10"; OList [OString "to [REDACTED_EMAIL]"; OString "to [REDACTED_EMAIL]"]; OString Mask;
   OMap [("otp", OString Mask)]%string; OString Mask; ONil].
Proof. vm_compute. reflexivity. Qed.

Lemma shared_acyclic : acyclic memory_now (GMap "map" true (Some 2)).
Proof.
  assert (forall p q, ptr p = 1 -> ~ points memory_now q p) as H1.
  { intros [t a n] q Ha Hq. cbn in Ha. subst a. unfold points, content_refs in Hq. cbn in Hq.
    apply list_elem_of_In, in_flat_map in Hq as (v & (i & <- & _)%in_map_iff & []). }
  intros q Hq. apply list_elem_of_singleton in Hq as ->. constructor. intros p Hp. constructor. intros r Hr. exfalso. apply (H1 p r); [|done].
  unfold points, content_refs in Hp. cbn in Hp. rewrite !elem_of_cons, elem_of_nil in Hp. by destruct Hp as [->|[->|[]]].
Qed.

Lemma sharing_is_no_cycle_witness : acyclic memory_now (GMap "map" true (Some 2)) /\
  sanitizeSentryValue redact_text time_text memory_now "extra" (GMap "map" true (Some 2)) =
  (countedSentryValue redact_text time_text memory_now "extra" (GMap "map" true (Some 2))).1.
Proof. split; [exact shared_acyclic|]. apply sharing_is_no_cycle; [exact shared_acyclic|]. vm_compute. discriminate. Defined.

(** ** Events *)

(** Two breadcrumbs that are the same pointer, an exception whose frame shares its
    context with the fingerprint, and a user. *)
Definition heap_now : gmap location (obj unit) := {[
  1 := BCrumbs [Some 2; None; Some 2];
  2 := BCrumb (MkBreadcrumb "from a@b.io" "http" (Some 3) tt);
  3 := BData [("token", GString true "t"); ("mail", GString true "a@b.io")]%string;
  4 := BExceptions [MkException "bad a@b.io" (Some 5) None tt];
  5 := BStacktrace (MkStacktrace (Some 6) tt);
  6 := BFrames [MkFrame "f" "s" "m" "n" "p" "k" "a@b.io" (Some 7) None None tt];
  7 := BTexts ["x"; "a@b.io"]%string;
  8 := BTags [("email", "a@b.io"); ("route", "/users")]%string
]}.

Definition event_now : @sEvent unit :=
  MkEvent _ _ _ _ _ _ _ _ _ _ "oops a@b.io" (Some 4) (Some 1) None None (Some 8) (Some 7) "GET /" "log" None None [tt] [tt] [] (Some tt) None
    [("transaction", "a@b.io")]%string (Some tt) tt.

Definition held_now : @dEvent unit :=
  let crumb_now := MkBreadcrumb "from a@b.io" "http" (Some [("token", GString true "t"); ("mail", GString true "a@b.io")]%string) tt in
  MkEvent _ _ _ _ _ _ _ _ _ _ "oops a@b.io"
    (Some [MkException "bad a@b.io" (Some (MkStacktrace (Some [MkFrame "f" "s" "m" "n" "p" "k" "a@b.io" (Some ["x"; "a@b.io"]%string) None None tt]) tt)) None tt])
    (Some [Some crumb_now; None; Some crumb_now]) None None (Some [("email", "a@b.io"); ("route", "/users")]%string) (Some ["x"; "a@b.io"]%string)
    "GET /" "log" None None [tt] [tt] [] (Some tt) None [("transaction", "a@b.io")]%string (Some tt) tt.

Lemma held : @rep_event _ seen event_now held_now heap_now.
Proof.
  split; [done|]. repeat split; try done.
  - exists [Some 2; None; Some 2]. split; [done|]. repeat split; try (exists (MkBreadcrumb "from a@b.io" "http" (Some 3) tt); done).
  - exists [MkException "bad a@b.io" (Some 5) None tt]. split; [done|]. repeat split; try done.
    exists (MkStacktrace (Some 6) tt). split; [done|]. split; [done|]. eexists [_]. repeat split; done.
Qed.

(** The objects of the original are as they were; the new ones hold no address. *)
Lemma sanitizer_refines_witness : @rep_event _ seen event_now held_now heap_now /\
  exists e' h1, sanitizeSentryEvent redact_text header_value time_text memory_now event_now heap_now = Some (e', h1 ∪ heap_now) /\ h1 ##ₘ heap_now /\
    @rep_event _ seen e' (safe_event redact_text header_value time_text memory_now held_now) h1.
Proof. split; [exact held|]. apply (sanitizer_refines redact_text header_value time_text memory_now event_now held_now heap_now held). Defined.

Example sent_texts : event_texts (safe_event redact_text header_value time_text memory_now held_now) =
  ["oops [REDACTED_EMAIL]"; "GET /"; "log"; "x"; "[REDACTED_EMAIL]"; "bad [REDACTED_EMAIL]"; "f"; "s"; "m"; "n"; "p"; "k"; "[REDACTED_EMAIL]"; "x"; "[REDACTED_EMAIL]";
   "from [REDACTED_EMAIL]"; "http"; "from [REDACTED_EMAIL]"; "http"]%string.
Proof. vm_compute. reflexivity. Qed.

(** A hook that puts the user and the stale serialisation back. *)
Definition bad_hook (e : @sEvent unit) : @HM unit (option (@sEvent unit)) :=
  hret (Some (MkEvent _ _ _ _ _ _ _ _ _ _ "call a@b.io" (Exception_ e) (Breadcrumbs e) (Extra e) (Contexts e) (Tags e) (Fingerprint e) (Transaction e) (Logger e)
    (Threads e) (Spans e) [tt] [tt] [tt] (Some tt) (Request_ e) (sampling e) (Some tt) tt)).

Lemma sent_event_safe_witness : exists r h', before_send redact_text header_value time_text memory_now (Some bad_hook) event_now heap_now = Some (r, h') /\
  match r with
  | Some e' => exists d', @rep_event _ seen e' d' h' /\ event_safe redact_text header_value time_text memory_now d'
  | None => exists f, Some bad_hook = Some f
  end.
Proof.
  apply (sent_event_safe redact_text header_value time_text memory_now (Some bad_hook) event_now held_now heap_now held).
  intros f e1 d1 h1 [= <-] [He Hr] _. exists (Some (MkEvent _ _ _ _ _ _ _ _ _ _ "call a@b.io" (Exception_ e1) (Breadcrumbs e1) (Extra e1) (Contexts e1) (Tags e1) (Fingerprint e1)
    (Transaction e1) (Logger e1) (Threads e1) (Spans e1) [tt] [tt] [tt] (Some tt) (Request_ e1) (sampling e1) (Some tt) tt)), h1. split; [reflexivity|].
  exists (MkEvent _ _ _ _ _ _ _ _ _ _ "call a@b.io" (Exception_ d1) (Breadcrumbs d1) (Extra d1) (Contexts d1) (Tags d1) (Fingerprint d1) (Transaction d1) (Logger d1)
    (Threads d1) (Spans d1) [tt] [tt] [tt] (Some tt) (Request_ d1) (sampling d1) (Some tt) tt).
  split; [|exact Hr]. injection He as _ Ht Hl _ _ _ _ Hs _ _. cbn. by rewrite Ht, Hl, Hs.
Defined.

Lemma GetStrCode_injective_witness : GetStrCode DefaultRegistry (-5) = GetStrCode DefaultRegistry (-5) /\ (-5 = -5)%Z.
Proof. split; [reflexivity|]. apply (GetStrCode_injective DefaultRegistry). reflexivity. Defined.
